(* ===== verification/_CoqProject ===== *)
-Q . S2P
Prelude.v
GoStd.v
Jsondoc.v
JsondocText.v
Codec.v
Uuidv7.v
Coordinates.v
Clock.v
Failpoint.v
EngineOps.v
Fs.v
Wal.v
WalLog.v
Sst.v
View.v
Manifest.v
Tree.v
Publish.v
Lsm.v
Engine.v
PublishSafe.v
OpenManifest.v
WalCheckpoint.v
Compact.v
Contents.v
Members.v
Running.v
FlushLog.v
FlushSafe.v
ApplySafe.v
OpenSafe.v
EngineReads.v
EngineLife.v
EngineStore.v
Range.v
Command.v
JsondocCanon.v
State.v
Snapshot.v
Retry.v
SplitTypes.v
SplitCodec.v
SplitHarness.v
SplitRefine.v
SplitOutcome.v
Disk.v
DiskLog.v
DiskLoad.v
DiskCrash.v
Durable.v
DurableLoad.v
DurableApply.v
DurableRestart.v
DurableInstall.v
Storage.v
StorageRecords.v
StorageLog.v
StorageReads.v
StorageWrites.v
StorageOpen.v
RowStore.v
HttpApi.v
HttpStore.v
HttpTags.v
Gateway.v
GatewaySafe.v
Replica.v
Read.v
ReadyLoop.v
ReplicaOpen.v
ReplicaRun.v
ReplicaInv.v
ReplicaSafe.v
ReplicaStore.v
ReplicaExec.v
ReplicaClients.v
ReplicaReady.v
