(* ===== verification/Prelude.v ===== *)
(** * A verification of vbdb, a replicated row store in Go

    ** The program

    Clients write JSON rows under a table and a key.  A write becomes a
    command with an operation identifier and a row version (UUIDs of version
    7), is committed by a raft group and applied by every replica to its row
    state.  A replica keeps the raft log and the row state as records of an
    embedded storage engine: a write-ahead log, a memtable, sorted table files
    and a manifest that names them.  Key ranges are assigned to raft groups by
    a versioned catalog, and a range is split by copying its rows, catching up
    with later writes and cutting over to two children.

    ** The files, bottom up, and the source each one models

    - [Prelude] (this file) and [GoStd]: byte strings, results, slices and
      big-endian integers; the functions of Go's standard library the sources
      use (UTF-8, CRC-32C, hexadecimal, SHA-256, binary search, decimals).
    - [Codec]: pkg/codec/codec.go, the ordered tuple encoding of keys.
    - [Uuidv7], [Coordinates], [Clock], [Failpoint]: pkg/uuidv7,
      internal/coordinates, pkg/clock (the manual clock) and pkg/failpoint.
    - [EngineOps]: options, batches and memtables of internal/engine (api.go,
      parts of wal.go and sst.go).
    - [Fs]: the file system seam of fs.go, one directory with scripted faults
      and a crash relation.
    - [Wal] and [WalLog]: wal.go, the frames and the log of segments.
    - [Sst]: sst.go and reader.go, the table format and its reader.
    - [View]: view.go, the iterators of api.go and the reads of engine.go.
    - [Manifest]: the manifest and CURRENT formats of manifest.go.
    - [Tree], [Publish], [Lsm], [Engine]: manifest.go, lsm.go and engine.go
      over a whole data directory (root, tables and log) behind the seam of
      fs.go, with the snapshots, iterators and streams of api.go.  Every call
      of the file system takes its outcome from a script, and a crash may fall
      anywhere.  [PublishSafe], [OpenManifest], [WalCheckpoint], [Compact],
      [Contents], [Members], [Running], [FlushLog], [FlushSafe], [ApplySafe],
      [OpenSafe], [EngineReads] and [EngineLife] carry the proofs,
      [EngineStore] the theorems.
    - [Range]: internal/raftstore/range.go and catalog.go.
    - [Command], [State], [Snapshot], [Retry]: command.go, the row state
      machine and its snapshots of state.go, and retry.go.
    - [SplitTypes], [SplitCodec], [SplitHarness], [SplitRefine],
      [SplitOutcome]: split_types.go, split_budget.go, split_recovery.go,
      split_transfer.go and split_cutover.go.
    - [Disk], [DiskLog], [DiskLoad], [DiskCrash]: disk.go, the raft storage
      adapter, and what recovery finds of it.
    - [Durable], [DurableLoad], [DurableApply], [DurableRestart],
      [DurableInstall]: the durable half of state.go.
    - [Storage], [StorageRecords], [StorageLog], [StorageReads],
      [StorageWrites], [StorageOpen], [RowStore]: internal/storage/storage.go,
      the single-node row store over the ordered engine.
    - [Jsondoc]: pkg/jsondoc/jsondoc.go, with the token decoder and the encoder
      of encoding/json it uses; [JsondocText] and [JsondocCanon] prove that its
      canonical form is read back.
    - [HttpApi]: internal/httpapi/httpapi.go, one request against one row store,
      with what it uses of net/url, strings and mime; [HttpStore] and [HttpTags]
      hold the theorems over [RowStore].
    - [Gateway]: cmd/vbdbd/main.go, the process that serves a store over HTTP, as
      events of its goroutines, and the command line of cmd/vbdb-operator;
      [GatewaySafe] holds its invariants and theorems.
    - [Replica], [Read], [ReadyLoop], [ReplicaOpen]: replica.go and read.go,
      the replica around raft.  Each stretch that runs under one lock or
      between two calls is one function; [ReplicaRun] interleaves the stretches
      of any number of calls with the Ready loop, messages, failures and
      closing as a step relation, and [ReplicaExec] runs schedules of it.
      [ReplicaInv], [ReplicaSafe] and [ReplicaStore] hold the invariant,
      [ReplicaClients] and [ReplicaReady] the theorems.

    A Go function that can fail is a function into [result]; a method that
    changes its receiver returns the new state beside its result, also when it
    fails.  Integers are [Z] and wrap where the source wraps; a Go [int] has
    64 bits.  Byte slices, strings and UUIDs are lists of bytes, maps are
    finite maps.

    ** What the theorems show

    - Formats: the tuple codec is inverse to its decoder on exactly the
      accepted inputs and keeps the order; commands, manifests, tables,
      catalogs, state snapshots and split snapshots read back as written, and
      the canonical formats accept nothing else.
    - Engine: over any sequence of operations, faults and crashes the engine
      serves the map of its acknowledged batches, with at most the batch in
      flight behind them; snapshots keep their view, a manifest is published
      whole or not at all, and compaction does not change reads
      ([EngineStore]).  The parts have their own theorems: the log ([WalLog]),
      reads over memtable and tables ([View]), publication ([PublishSafe]).
    - Row store: the records of a store are those of the log of its rows,
      reads are reads of that log, opening accepts exactly such records, and
      acknowledged rows survive ([RowStore]).
    - Documents: canonical forms are fixed points, equal exactly for equal
      values, and parsing answers on every input ([JsondocCanon]).
    - HTTP: an accepted PUT is read back by GET, a write on an entity tag
      succeeds at most once, refused requests change nothing, valid writes are
      accepted, and rows are answered as canonical JSON objects ([HttpStore],
      [HttpTags]).
    - Gateway: in every run the store is closed only behind the last request,
      slots are exact and bounded, and every row acknowledged over HTTP is there
      when the store is opened again ([GatewaySafe], which composes [Gateway],
      [HttpApi] and [RowStore]).
    - Replica: in every run its tables are exact and bounded, a proposal is
      answered with its own stored result, a read returns a row of a state
      that is not older than the read, a stopped replica releases every call
      ([ReplicaClients]), and nothing is sent before it is durable
      ([ReplicaReady]).
    - State machine: an operation is decided once, replays are answered from
      the stored result, histories are linear, outcomes permanent, batching
      irrelevant ([State]); every reachable state survives a snapshot
      ([Snapshot]).
    - Raft storage: the reads raft makes are those of an abstract log; a Ready
      is durable as a whole or not at all ([DiskLog], [DiskCrash]).
    - Durable state: a restart after an application recovers exactly the state
      of the state machine, or the one before when the application failed
      ([DurableRestart]); a snapshot is installed whole or not at all
      ([DurableInstall]).  [DurableRestart] composes [State], [Durable] and
      the recovery of [DiskLoad].
    - Catalog: every key has exactly one owner, replacements are accepted
      exactly when admissible, fences never regress ([Range]).
    - Splits: through copy, catch-up and cutover a split implements one plain
      row store ([SplitRefine]); the old owner is fenced and a delivered split
      completes ([SplitOutcome]).
    - Flaws: theorems state where the code departs from its intent: stale
      entries behind a Ready, stores refused after a flush, keys too long for
      the engine, a refused catalog replacement that changes the history, a
      split stopped by a late write, a refused write that is stored, a cut
      first segment, a memtable too large for a table, a wait that misses its
      notice, a repeated read response that stops a replica.

    ** Bounds and fuel

    Loops that are not structural run on fuel taken from their data: the
    bytes left to write ([writeFullAt]), the bytes of a payload that is cut in
    chunks ([CopyChunks], [stageSnapshotLocked]), the interval of a binary
    search, the bytes of a segment being recovered, the entries of a chunk
    that is split over tables, five jobs for each part of a Ready, two calls
    for each byte of a document.  Every turn
    consumes at least one unit, and the theorems state what the functions
    return, so none holds because the fuel ran out; [flushEntries_terminates],
    [run_jobs_all] and [parsing_terminates] prove it where the measure is not plain.
    The theorems about runs of a replica suppose fewer than 2^64 answer
    channels in a run, which number the calls.

    ** Interfaces and assumptions

    - [Command.Canonicalizer] is the function of pkg/jsondoc that commands and
      rows call; their theorems hold for every instance, and the HTTP theorems
      use the one of the package, [JsondocCanon.json_canon].
    - [Disk.Protobuf] is the wire format of the raft messages, a library;
      [DiskLoad.ProtobufLaws] states that decoding inverts encoding, and
      [DiskLog.numbered] is an instance.
    - [Disk] and [Durable] see the engine as its map of records: a batch is
      applied as a whole or not at all, and a failed call may have done either.
    - A method that holds a lock is one step; calls do not interleave inside
      it.  Where the order of a map iteration can matter it is an argument;
      where it decides only which of two errors is returned it is fixed.
      A slice sorted by distinct keys is sorted by merge sort.
    - A raft snapshot always carries a membership; the clock, the random
      source and file faults are inputs.
    - What raft and the transport answer to a replica is the choice of a step.
      [ReadyLoop.MembershipWire] is the wire format of membership changes.
      Linearizability of reads rests on two promises of raft, stated for the
      run: a read index is not before what was applied when it was asked for,
      and snapshots do not move the applied index back.
    - [fail] and [Close] of a replica run their parts one after the other; the
      sends to a waiter follow the removal of its proposal at once.

    ** Not modelled

    - The sockets and the server loop of net/http, signals and timeouts: they are
      events of a gateway.  The worktree reader under cmd, which reads one file.
    - The operating system half of fs.go and its path handling. *)

From Stdlib Require Import ZArith Lia.
From Stdlib Require Export Init.Byte.
From Stdlib Require Strings.Byte Strings.String.
From stdpp Require Export base list gmap sorting strings.

#[global] Set Default Goal Selector "!".

Declare Scope go_scope.
Delimit Scope go_scope with go.

(** ** Results: a Go pair of a value and an error *)

Inductive result (E A : Type) : Type :=
| Ok (a : A)
| Fail (e : E).
Arguments Ok {E A} a.
Arguments Fail {E A} e.

#[export] Instance result_ret E : MRet (result E) := fun A a => Ok a.
#[export] Instance result_bind E : MBind (result E) :=
  fun A B f m => match m with Ok a => f a | Fail e => Fail e end.

(** [if cond { return err }] *)
Definition fail_if {E} (cond : bool) (e : E) : result E unit :=
  if cond then Fail e else Ok tt.

(** A call whose error is replaced by another one before it is returned. *)
Definition map_err {E E' A} (f : E -> E') (m : result E A) : result E' A :=
  match m with Ok a => Ok a | Fail e => Fail (f e) end.

#[export] Instance Ok_inj E A : Inj (=) (=) (@Ok E A).
Proof. by intros a b [= ->]. Qed.

Definition is_ok {E A} (m : result E A) : bool :=
  match m with Ok _ => true | Fail _ => false end.

Lemma bind_Ok {E A B} (f : A -> result E B) (m : result E A) b :
  m ≫= f = Ok b <-> exists a, m = Ok a /\ f a = Ok b.
Proof.
  destruct m; simpl; split.
  - eauto.
  - intros (? & [= ->] & ?). done.
  - done.
  - intros (? & ? & ?). done.
Qed.

Lemma fail_if_Ok {E} c (e : E) u : fail_if c e = Ok u <-> c = false.
Proof. destruct c, u; simpl; split; done. Qed.

Lemma map_err_Ok {E E' A} (f : E -> E') (m : result E A) a :
  map_err f m = Ok a <-> m = Ok a.
Proof. destruct m; simpl; split; congruence. Qed.

Lemma fail_if_false {E B} (e : E) (k : unit -> result E B) c :
  c = false -> fail_if c e ≫= k = k tt.
Proof. by intros ->. Qed.

(** [inv_res] turns hypotheses [m ≫= f = Ok b], [fail_if c e = Ok u] and
    [map_err f m = Ok a] into their components. *)
Ltac inv_res :=
  repeat match goal with
  | H : _ ≫= _ = Ok _ |- _ =>
      let a := fresh "r" in let H1 := fresh "Hr" in
      apply bind_Ok in H as (a & H1 & H)
  | H : fail_if _ _ = Ok _ |- _ => apply fail_if_Ok in H
  | H : map_err _ _ = Ok _ |- _ => apply map_err_Ok in H
  | H : Ok _ = Ok _ |- _ => injection H as H; subst
  | H : Fail _ = Ok _ |- _ => discriminate H
  | H : Ok _ = Fail _ |- _ => discriminate H
  | H : (_, _) = (_, _) |- _ => injection H as H; subst
  | u : unit |- _ => destruct u
  end.

(** Boolean guards become propositions that [lia] understands. *)
Ltac bool_to_prop :=
  repeat match goal with
  | H : _ || _ = false |- _ => apply orb_false_iff in H as [? ?]
  | H : _ && _ = true |- _ => apply andb_true_iff in H as [? ?]
  | H : negb _ = true |- _ => apply negb_true_iff in H
  | H : negb _ = false |- _ => apply negb_false_iff in H
  | H : bool_decide _ = true |- _ => apply bool_decide_eq_true in H
  | H : bool_decide _ = false |- _ => apply bool_decide_eq_false in H
  | H : (_ <? _)%Z = true |- _ => apply Z.ltb_lt in H
  | H : (_ <? _)%Z = false |- _ => apply Z.ltb_ge in H
  | H : (_ <=? _)%Z = true |- _ => apply Z.leb_le in H
  | H : (_ <=? _)%Z = false |- _ => apply Z.leb_gt in H
  | H : (_ =? _)%Z = true |- _ => apply Z.eqb_eq in H
  | H : (_ =? _)%Z = false |- _ => apply Z.eqb_neq in H
  end.

(** ** Bytes *)

Abbreviation bytes := (list byte).

#[export] Instance byte_eq_dec : EqDecision byte := Byte.byte_eq_dec.

(** The unsigned value of a byte. *)
Definition u8 (b : byte) : Z := Z.of_N (Byte.to_N b).

(** [byte(z)]: conversion of an integer to a byte keeps its low eight bits. *)
Definition byte_of (z : Z) : byte :=
  match Byte.of_N (Z.to_N (z mod 256)) with
  | Some b => b
  | None => x00
  end.

#[export] Instance byte_countable : Countable byte.
Proof.
  refine (inj_countable' (fun b => Byte.to_N b)
            (fun n => match Byte.of_N n with Some b => b | None => x00 end) _).
  intros b. by rewrite Byte.of_to_N.
Defined.

Lemma u8_range b : (0 <= u8 b < 256)%Z.
Proof. unfold u8. pose proof (Byte.to_N_bounded b). lia. Qed.

Lemma u8_byte_of z : u8 (byte_of z) = (z mod 256)%Z.
Proof.
  unfold byte_of, u8.
  pose proof (Z.mod_pos_bound z 256 ltac:(lia)) as Hb.
  destruct (Byte.of_N (Z.to_N (z mod 256))) as [b|] eqn:Hof.
  - apply Byte.to_of_N in Hof. rewrite Hof. lia.
  - apply Byte.of_N_None_iff in Hof. lia.
Qed.

Lemma byte_of_u8 b : byte_of (u8 b) = b.
Proof.
  unfold byte_of, u8. pose proof (Byte.to_N_bounded b) as Hb.
  rewrite Z.mod_small by lia. rewrite N2Z.id. by rewrite Byte.of_to_N.
Qed.

#[export] Instance u8_inj : Inj (=) (=) u8.
Proof. intros a b Hab. by rewrite <- (byte_of_u8 a), <- (byte_of_u8 b), Hab. Qed.

Lemma byte_of_mod z : byte_of (z mod 256) = byte_of z.
Proof. apply (inj u8). rewrite !u8_byte_of. by rewrite Zmod_mod. Qed.

(** The bytes of a string literal. *)
Definition lit (s : String.string) : bytes := String.list_byte_of_string s.
Arguments lit s%_string.

(** [len(x)] *)
Definition len {A} (l : list A) : Z := Z.of_nat (length l).

Lemma len_nil {A} : len (@nil A) = 0%Z.
Proof. done. Qed.
Lemma len_cons {A} (x : A) l : len (x :: l) = (1 + len l)%Z.
Proof. unfold len. simpl length. lia. Qed.
Lemma len_app {A} (l k : list A) : len (l ++ k) = (len l + len k)%Z.
Proof. unfold len. rewrite length_app. lia. Qed.
Lemma len_nonneg {A} (l : list A) : (0 <= len l)%Z.
Proof. unfold len. lia. Qed.
Lemma len_zero_nil {A} (l : list A) : len l = 0%Z -> l = [].
Proof. destruct l; [done|]. unfold len. simpl. lia. Qed.
Lemma len_to_nat {A} (l : list A) : Z.to_nat (len l) = length l.
Proof. unfold len. lia. Qed.

Create Rewrite HintDb len.
#[export] Hint Rewrite @len_nil @len_cons @len_app : len.

(** [x[lo:hi]] *)
Definition sub {A} (l : list A) (lo hi : Z) : list A :=
  take (Z.to_nat (hi - lo)) (drop (Z.to_nat lo) l).

Lemma sub_app_mid {A} (l k r : list A) lo hi :
  lo = len l -> hi = (len l + len k)%Z -> sub (l ++ k ++ r) lo hi = k.
Proof.
  intros -> ->. unfold sub, len.
  rewrite Nat2Z.id, drop_app_length.
  replace (Z.to_nat _) with (length k) by lia.
  by rewrite take_app_length.
Qed.

Lemma len_sub {A} (l : list A) lo hi :
  (0 <= lo <= hi)%Z -> (hi <= len l)%Z -> len (sub l lo hi) = (hi - lo)%Z.
Proof.
  unfold sub, len. intros ? ?. rewrite length_take, length_drop. lia.
Qed.

(** ** [bytes.Compare] *)

Lemma sub_suffix {A} (a b : list A) lo hi : lo = len a -> hi = (len a + len b)%Z -> sub (a ++ b) lo hi = b.
Proof. intros -> ->. rewrite <- (app_nil_r b) at 1. by apply sub_app_mid. Qed.

Lemma sub_app_head {A} (a r : list A) n : len a = n -> sub (a ++ r) 0 n = a.
Proof. intros <-. apply (sub_app_mid [] a r); done. Qed.

Lemma drop_app_head {A} (a r : list A) n : length a = n -> drop n (a ++ r) = r.
Proof. intros <-. apply drop_app_length. Qed.

(** Skipping a leading part of an encoding, and the tactic that reads a field
    of a concatenation whose parts have known lengths. *)
Lemma sub_skip {A} (a b : list A) lo hi :
  (len a <= lo)%Z -> sub (a ++ b) lo hi = sub b (lo - len a) (hi - len a).
Proof.
  intros H. unfold sub, len in *. rewrite skipn_app.
  rewrite (drop_ge a) by lia. cbn. f_equal; [lia|]. f_equal. lia.
Qed.

Lemma sub_field {A} (a r : list A) lo hi : lo = 0%Z -> hi = len a -> sub (a ++ r) lo hi = a.
Proof. intros -> ->. by apply sub_app_head. Qed.

Lemma sub_all {A} (a : list A) hi : hi = len a -> sub a 0 hi = a.
Proof. intros ->. unfold sub, len. cbn. rewrite drop_0. apply firstn_all2. lia. Qed.

Lemma sub_cat {A} (l : list A) lo mid hi : (0 <= lo <= mid)%Z -> (mid <= hi)%Z -> sub l lo mid ++ sub l mid hi = sub l lo hi.
Proof.
  intros H1 H2. unfold sub. replace (Z.to_nat mid) with (Z.to_nat lo + Z.to_nat (mid - lo)%Z)%nat by lia.
  rewrite <- drop_drop, take_take_drop. f_equal. lia.
Qed.

Fixpoint bytes_compare (a b : bytes) : comparison :=
  match a, b with
  | [], [] => Eq
  | [], _ :: _ => Lt
  | _ :: _, [] => Gt
  | x :: a', y :: b' =>
      match (u8 x ?= u8 y)%Z with
      | Eq => bytes_compare a' b'
      | c => c
      end
  end.

(** [bytes.Compare(a, b) < 0] and its siblings. *)
Definition blt (a b : bytes) : bool :=
  match bytes_compare a b with Lt => true | _ => false end.
Definition ble (a b : bytes) : bool :=
  match bytes_compare a b with Gt => false | _ => true end.
(** [bytes.Equal(a, b)] *)
Definition beq (a b : bytes) : bool := bool_decide (a = b).

Lemma bytes_compare_refl a : bytes_compare a a = Eq.
Proof. induction a; simpl; [done|]. by rewrite Z.compare_refl. Qed.

Lemma bytes_compare_eq a b : bytes_compare a b = Eq <-> a = b.
Proof.
  split; [|intros ->; apply bytes_compare_refl].
  revert b. induction a as [|x a IH]; intros [|y b]; simpl; try done.
  destruct (u8 x ?= u8 y)%Z eqn:Hxy; try done.
  apply Z.compare_eq in Hxy. apply (inj u8) in Hxy as ->.
  intros Hab. by rewrite (IH b Hab).
Qed.

Lemma bytes_compare_antisym a b : bytes_compare b a = CompOpp (bytes_compare a b).
Proof.
  revert b. induction a as [|x a IH]; intros [|y b]; simpl; try done.
  rewrite Z.compare_antisym. destruct (u8 x ?= u8 y)%Z; simpl; auto.
Qed.

Lemma bytes_compare_lt_trans a b c :
  bytes_compare a b = Lt -> bytes_compare b c = Lt -> bytes_compare a c = Lt.
Proof.
  revert b c. induction a as [|x a IH]; intros [|y b] [|z c]; simpl; try done.
  destruct (Z.compare_spec (u8 x) (u8 y)) as [Hxy|Hxy|Hxy]; try done;
    destruct (Z.compare_spec (u8 y) (u8 z)) as [Hyz|Hyz|Hyz]; try done; intros.
  - rewrite Hxy, Hyz, Z.compare_refl. eauto.
  - assert (u8 x < u8 z)%Z as ->%Z.compare_lt_iff by lia. done.
  - assert (u8 x < u8 z)%Z as ->%Z.compare_lt_iff by lia. done.
  - assert (u8 x < u8 z)%Z as ->%Z.compare_lt_iff by lia. done.
Qed.

Lemma blt_spec a b : blt a b = true <-> bytes_compare a b = Lt.
Proof. unfold blt. destruct (bytes_compare a b); split; done. Qed.

Lemma blt_irrefl a : blt a a = false.
Proof. unfold blt. by rewrite bytes_compare_refl. Qed.

Lemma blt_trans a b c : blt a b = true -> blt b c = true -> blt a c = true.
Proof. rewrite !blt_spec. apply bytes_compare_lt_trans. Qed.

Lemma ble_blt a b : ble a b = negb (blt b a).
Proof.
  unfold ble, blt. rewrite (bytes_compare_antisym a b).
  by destruct (bytes_compare a b).
Qed.

Lemma ble_cases a b : ble a b = true <-> blt a b = true \/ a = b.
Proof.
  unfold ble, blt. rewrite <- bytes_compare_eq.
  destruct (bytes_compare a b); split; try done; [by right|by left|by intros [ | ]].
Qed.

Lemma blt_ble a b : blt a b = true -> ble a b = true.
Proof. rewrite ble_cases. auto. Qed.

Lemma ble_refl a : ble a a = true.
Proof. rewrite ble_cases. auto. Qed.

Lemma ble_trans a b c : ble a b = true -> ble b c = true -> ble a c = true.
Proof. rewrite !ble_cases. intros [?| ->] [?| ->]; eauto using blt_trans. Qed.

Lemma ble_lt_trans a b c : ble a b = true -> blt b c = true -> blt a c = true.
Proof. rewrite ble_cases. intros [?| ->]; eauto using blt_trans. Qed.

Lemma blt_le_trans a b c : blt a b = true -> ble b c = true -> blt a c = true.
Proof. rewrite ble_cases. intros ? [?| ->]; eauto using blt_trans. Qed.

Lemma blt_false a b : blt a b = false <-> ble b a = true.
Proof. rewrite ble_blt. by destruct (blt a b). Qed.

Lemma ble_nil a : ble [] a = true.
Proof. by destruct a. Qed.

Lemma beq_true a b : beq a b = true <-> a = b.
Proof. apply bool_decide_eq_true. Qed.
Lemma beq_false a b : beq a b = false <-> a <> b.
Proof. apply bool_decide_eq_false. Qed.
Lemma beq_refl a : beq a a = true.
Proof. by rewrite beq_true. Qed.

Lemma bytes_compare_app_l p a b : bytes_compare (p ++ a) (p ++ b) = bytes_compare a b.
Proof. induction p; simpl; [done|]. by rewrite Z.compare_refl. Qed.

(** Strings of one length are compared before anything that follows them. *)
Lemma bytes_compare_app_same_len a b r s :
  length a = length b -> a <> b ->
  bytes_compare (a ++ r) (b ++ s) = bytes_compare a b.
Proof.
  revert b. induction a as [|x a IH]; intros [|y b]; simpl; try done.
  intros [= Hl] Hne. destruct (u8 x ?= u8 y)%Z eqn:Hxy; try done.
  apply Z.compare_eq, (inj u8) in Hxy as ->. apply IH; [done|]. congruence.
Qed.

(** ** Big-endian integers ([encoding/binary]) *)

(** The [n]-byte big-endian representation of [z]; higher bits are dropped. *)
Fixpoint be (n : nat) (z : Z) : bytes :=
  match n with
  | O => []
  | S n' => byte_of (z / 256 ^ Z.of_nat n') :: be n' z
  end.

Definition un_be (l : bytes) : Z := fold_left (fun acc b => acc * 256 + u8 b)%Z l 0%Z.

Lemma length_be n z : length (be n z) = n.
Proof. induction n; simpl; auto. Qed.
Lemma len_be n z : len (be n z) = Z.of_nat n.
Proof. unfold len. by rewrite length_be. Qed.
#[export] Hint Rewrite len_be : len.

Lemma un_be_fold l acc :
  fold_left (fun acc b => acc * 256 + u8 b)%Z l acc
  = (acc * 256 ^ len l + un_be l)%Z.
Proof.
  unfold un_be. revert acc. induction l as [|b l IH]; intros acc; cbn [fold_left].
  - rewrite len_nil. lia.
  - rewrite IH, (IH (0 * 256 + u8 b)%Z), len_cons.
    pose proof (len_nonneg l). rewrite Z.pow_add_r by lia. lia.
Qed.

Lemma un_be_cons b l : un_be (b :: l) = (u8 b * 256 ^ len l + un_be l)%Z.
Proof.
  change (un_be (b :: l)) with (fold_left (fun acc b => acc * 256 + u8 b)%Z l (0 * 256 + u8 b)%Z).
  rewrite un_be_fold. lia.
Qed.

Lemma un_be_range l : (0 <= un_be l < 256 ^ len l)%Z.
Proof.
  induction l as [|b l IH]; [done|].
  rewrite un_be_cons, len_cons. pose proof (u8_range b). pose proof (len_nonneg l).
  rewrite Z.pow_add_r by lia. nia.
Qed.

Lemma un_be_be n z : un_be (be n z) = (z mod 256 ^ Z.of_nat n)%Z.
Proof.
  induction n as [|n IH].
  - simpl. by rewrite Z.mod_1_r.
  - change (be (S n) z) with (byte_of (z / 256 ^ Z.of_nat n) :: be n z).
    rewrite un_be_cons, u8_byte_of, IH, len_be.
    replace (Z.of_nat (S n)) with (Z.of_nat n + 1)%Z by lia.
    assert (0 < 256 ^ Z.of_nat n)%Z by (apply Z.pow_pos_nonneg; lia).
    rewrite Z.pow_add_r, Z.pow_1_r by lia.
    rewrite (Z.rem_mul_r z) by lia. lia.
Qed.

Lemma un_be_be_small n z : (0 <= z < 256 ^ Z.of_nat n)%Z -> un_be (be n z) = z.
Proof. intros. rewrite un_be_be. by apply Z.mod_small. Qed.

Lemma be8_inj a b : (0 <= a < 2 ^ 64)%Z -> (0 <= b < 2 ^ 64)%Z -> be 8 a = be 8 b -> a = b.
Proof. intros Ha Hb E. rewrite <- (un_be_be_small 8 a), <- (un_be_be_small 8 b) by (cbn; lia). by rewrite E. Qed.

Lemma un_be_inj a b : length a = length b -> un_be a = un_be b -> a = b.
Proof.
  revert b. induction a as [|x a IH]; intros [|y b]; try done.
  intros [= Hl] Heq. rewrite !un_be_cons in Heq.
  assert (len a = len b) as Hlen by (unfold len; lia). rewrite Hlen in Heq.
  pose proof (un_be_range a) as Ha. pose proof (un_be_range b) as Hb.
  rewrite Hlen in Ha. pose proof (u8_range x). pose proof (u8_range y).
  assert (u8 x = u8 y) as Hxy by nia. rewrite Hxy in Heq.
  apply (inj u8) in Hxy as ->. f_equal. apply IH; [done|lia].
Qed.

Lemma be_un_be l n : length l = n -> be n (un_be l) = l.
Proof.
  intros <-. apply un_be_inj; [apply length_be|].
  rewrite un_be_be. apply Z.mod_small. apply (un_be_range l).
Qed.

(** Big-endian encodings sort like the numbers they encode. *)
Lemma bytes_compare_un_be a b :
  length a = length b -> bytes_compare a b = (un_be a ?= un_be b)%Z.
Proof.
  revert b. induction a as [|x a IH]; intros [|y b]; try done.
  intros [= Hl]. simpl. rewrite !un_be_cons.
  assert (len a = len b) as Hlen by (unfold len; lia). rewrite Hlen.
  pose proof (un_be_range a) as Ha. pose proof (un_be_range b) as Hb.
  rewrite Hlen in Ha. symmetry.
  destruct (Z.compare_spec (u8 x) (u8 y)) as [-> | Hlt | Hgt].
  - rewrite IH by done. apply Zcompare_plus_compat.
  - apply Z.compare_lt_iff. nia.
  - apply Z.compare_gt_iff. nia.
Qed.

Lemma bytes_compare_be n x y :
  (0 <= x < 256 ^ Z.of_nat n)%Z -> (0 <= y < 256 ^ Z.of_nat n)%Z ->
  bytes_compare (be n x) (be n y) = (x ?= y)%Z.
Proof.
  intros. rewrite bytes_compare_un_be by (by rewrite !length_be).
  by rewrite !un_be_be_small.
Qed.

(** Bounds [0 <= z < 256 ^ n] of a fixed-width field. *)
Ltac solve_width :=
  lazymatch goal with
  | |- context [(256 ^ Z.of_nat ?n)%Z] =>
      let v := eval vm_compute in (256 ^ Z.of_nat n)%Z in change (256 ^ Z.of_nat n)%Z with v; lia
  end.

(** Machine widths. *)
Definition max_uint16 : Z := 2 ^ 16 - 1.
Definition max_uint32 : Z := 2 ^ 32 - 1.
Definition max_uint64 : Z := 2 ^ 64 - 1.
Definition max_int64 : Z := 2 ^ 63 - 1.
Definition uint16 (z : Z) : Z := z mod 2 ^ 16.
Definition uint32 (z : Z) : Z := z mod 2 ^ 32.
Definition uint64 (z : Z) : Z := z mod 2 ^ 64.
(** [int64(u)]: the two's complement value of the low 64 bits. *)
Definition int64 (z : Z) : Z := (z + 2 ^ 63) mod 2 ^ 64 - 2 ^ 63.

Definition is_u64 (z : Z) : Prop := (0 <= z <= max_uint64)%Z.
Definition is_u32 (z : Z) : Prop := (0 <= z <= max_uint32)%Z.

(** ** Sorting with [sort.Slice] by byte-string keys *)

Section key_sort.
Context {A : Type} (key : A -> bytes).

Definition key_le (x y : A) : Prop := ble (key x) (key y) = true.
#[export] Instance key_le_dec : RelDecision key_le.
Proof. intros x y. unfold key_le. apply _. Defined.
#[export] Instance key_le_total : Total key_le.
Proof.
  intros x y. unfold key_le. rewrite !ble_blt.
  destruct (blt (key y) (key x)) eqn:H1; [right|by left].
  destruct (blt (key x) (key y)) eqn:H2; [|done].
  pose proof (blt_trans _ _ _ H1 H2) as H3. by rewrite blt_irrefl in H3.
Qed.
#[export] Instance key_le_trans : Transitive key_le.
Proof. intros x y z. apply ble_trans. Qed.

(** [sort.Slice(l, func(i, j) { return bytes.Compare(key l[i], key l[j]) < 0 })] *)
Definition sort_by (l : list A) : list A := merge_sort key_le l.

Lemma sort_by_perm l : sort_by l ≡ₚ l.
Proof. apply merge_sort_Permutation. Qed.

Lemma sort_by_sorted l : Sorted key_le (sort_by l).
Proof. apply Sorted_merge_sort. apply _. Qed.
End key_sort.

(** The first error of a check over a list, in order. *)
Fixpoint for_all {E A} (f : A -> result E unit) (l : list A) : result E unit :=
  match l with
  | [] => Ok tt
  | x :: l' => f x;; for_all f l'
  end.

Lemma for_all_Ok {E A} (f : A -> result E unit) l :
  for_all f l = Ok tt <-> Forall (fun x => f x = Ok tt) l.
Proof.
  induction l as [|x l IH]; cbn; [by split|]. rewrite Forall_cons, <- IH. split.
  - intros H. inv_res. done.
  - by intros [-> ->].
Qed.

(** Keys in strictly increasing order, as the sorted formats require. *)
Fixpoint keys_increasing (l : list bytes) : bool :=
  match l with
  | a :: (b :: _) as l' => blt a b && keys_increasing l'
  | _ => true
  end.

Lemma keys_increasing_cons a l :
  keys_increasing (a :: l) = true <->
  (match l with [] => True | b :: _ => blt a b = true end) /\ keys_increasing l = true.
Proof. destruct l as [|b l]; cbn [keys_increasing]; [naive_solver|]. by rewrite andb_true_iff. Qed.

Lemma sorted_nodup_increasing {A} (key : A -> bytes) l :
  Sorted (key_le key) l -> NoDup (map key l) -> keys_increasing (map key l) = true.
Proof.
  induction 1 as [|x l Hs IH Hhd]; intros Hnd; [done|]. cbn [map] in *.
  apply NoDup_cons in Hnd as [Hx Hnd]. apply keys_increasing_cons. split; [|auto].
  destruct Hhd as [|y l Hxy]; cbn [map] in *; [done|].
  unfold key_le in Hxy. apply ble_cases in Hxy as [?|Heq]; [done|].
  destruct Hx. rewrite Heq. left.
Qed.

Lemma sort_by_increasing {A} (key : A -> bytes) l :
  NoDup (map key l) -> keys_increasing (map key (sort_by key l)) = true.
Proof.
  intros Hnd. apply sorted_nodup_increasing; [apply sort_by_sorted|].
  assert (map key (sort_by key l) ≡ₚ map key l) as Hm by (apply Permutation_map, sort_by_perm).
  by rewrite Hm.
Qed.

Definition key_lt {A} (key : A -> bytes) (x y : A) : Prop := blt (key x) (key y) = true.

Lemma increasing_strongly {A} (key : A -> bytes) l :
  keys_increasing (map key l) = true <-> StronglySorted (key_lt key) l.
Proof.
  induction l as [|x l IH]; cbn [map].
  - split; [constructor|done].
  - rewrite keys_increasing_cons. split.
    + intros [Hh Hi]. apply IH in Hi. constructor; [done|].
      destruct l as [|y l]; [constructor|]. cbn [map] in Hh.
      apply StronglySorted_inv in Hi as [Hs Hy]. constructor; [done|].
      eapply Forall_impl; [exact Hy|]. intros z Hz. unfold key_lt in *. by eapply blt_trans.
    + intros [Hs Hf]%StronglySorted_inv. split; [|by apply IH]. destruct l as [|y l]; [done|].
      cbn [map]. by apply Forall_cons in Hf as [? _].
Qed.

Lemma strongly_app {A} (key : A -> bytes) l k :
  StronglySorted (key_lt key) (l ++ k) <->
  StronglySorted (key_lt key) l /\ StronglySorted (key_lt key) k /\
  (forall x y, x ∈ l -> y ∈ k -> key_lt key x y).
Proof.
  induction l as [|z l IH]; cbn [app].
  - split; [|by intros (_ & ? & _)]. intros ?. split; [constructor|]. split; [done|].
    by intros x y ?%elem_of_nil.
  - split.
    + intros [Hs Hf]%StronglySorted_inv. apply IH in Hs as (Hl & Hk & Hlk).
      apply Forall_app in Hf as [Hfl Hfk]. split; [by constructor|]. split; [done|].
      intros x y [->|Hx]%elem_of_cons Hy; [|by apply Hlk].
      rewrite Forall_forall in Hfk. by apply Hfk.
    + intros (Hl & Hk & Hlk). apply StronglySorted_inv in Hl as [Hs Hf]. constructor.
      * apply IH. split; [done|]. split; [done|]. intros x y Hx Hy. apply Hlk; [by right|done].
      * apply Forall_app. split; [done|]. apply Forall_forall. intros y Hy. apply Hlk; [left|done].
Qed.

Lemma strongly_lookup {A} (key : A -> bytes) l i j x y :
  StronglySorted (key_lt key) l -> (i < j)%nat -> l !! i = Some x -> l !! j = Some y -> key_lt key x y.
Proof.
  intros Hs. revert i j. induction Hs as [|z l Hs IH Hf]; intros i j Hij Hx Hy; [done|].
  destruct j as [|j]; [lia|]. destruct i as [|i]; cbn in *.
  - injection Hx as ->. rewrite Forall_forall in Hf. apply Hf. by eapply list_elem_of_lookup_2.
  - eapply (IH i j); [lia|done|done].
Qed.

Lemma StronglySorted_filter {A} (R : A -> A -> Prop) (P : A -> Prop) `{!forall x, Decision (P x)} l :
  StronglySorted R l -> StronglySorted R (filter P l).
Proof.
  induction 1 as [|x l Hs IH Hf]; [constructor|]. rewrite filter_cons. destruct (decide (P x)); [|done].
  constructor; [done|]. apply Forall_forall. intros y [_ Hy]%list_elem_of_filter. rewrite Forall_forall in Hf. by apply Hf.
Qed.

Lemma strongly_last {A} (R : A -> A -> Prop) l x y : StronglySorted R l -> last l = Some x -> y ∈ l -> y = x \/ R y x.
Proof.
  intros Hs. revert x. induction Hs as [|a l Hs IH Hf]; intros x Hl Hy; [done|].
  destruct l as [|b l]; [injection Hl as <-; apply list_elem_of_singleton in Hy; auto|].
  rewrite last_cons_cons in Hl. apply elem_of_cons in Hy as [->|Hy]; [|by apply IH].
  right. rewrite Forall_forall in Hf. apply Hf. by apply last_Some_elem_of.
Qed.

Lemma increasing_filter {A} (key : A -> bytes) (f : A -> bool) l :
  keys_increasing (map key l) = true -> StronglySorted (key_lt key) (List.filter f l).
Proof.
  intros Hs%increasing_strongly. induction Hs as [|x l Hs IH Hf]; cbn; [constructor|]. destruct (f x); [|done].
  constructor; [done|]. rewrite Forall_forall in *. intros y Hy. apply Hf. apply list_elem_of_In in Hy. apply List.filter_In in Hy as [Hy _]. by apply list_elem_of_In.
Qed.

Lemma elem_of_snoc {A} (x y : A) l : x ∈ l ++ [y] <-> x ∈ l \/ x = y.
Proof. rewrite elem_of_app, list_elem_of_singleton. done. Qed.

Lemma increasing_perm_unique {A} (key : A -> bytes) l k :
  l ≡ₚ k -> keys_increasing (map key l) = true -> keys_increasing (map key k) = true -> l = k.
Proof.
  revert k. induction l as [|x l IH]; intros k Hp Hl Hk; [by apply Permutation_nil_l in Hp|].
  destruct k as [|y k]; [by apply Permutation_nil_r in Hp|].
  pose proof (proj1 (increasing_strongly key _) Hl) as Sl. pose proof (proj1 (increasing_strongly key _) Hk) as Sk.
  apply StronglySorted_inv in Sl as [_ Sl], Sk as [_ Sk].
  rewrite Forall_forall in Sl, Sk.
  assert (x = y) as ->.
  { assert (x ∈ y :: k) as Hx by (rewrite <- Hp; by left).
    assert (y ∈ x :: l) as Hy by (rewrite Hp; by left).
    apply elem_of_cons in Hx as [?|Hx], Hy as [?|Hy]; try done.
    pose proof (blt_trans _ _ _ (Sl _ Hy) (Sk _ Hx)) as Hc. by rewrite blt_irrefl in Hc. }
  f_equal. apply IH; [by apply Permutation_cons_inv in Hp|..].
  - by apply keys_increasing_cons in Hl as [_ ?].
  - by apply keys_increasing_cons in Hk as [_ ?].
Qed.

Lemma increasing_NoDup {A} (key : A -> bytes) l : keys_increasing (map key l) = true -> NoDup (map key l).
Proof.
  intros Hs%increasing_strongly. induction Hs as [|x l _ IH Hf]; cbn; constructor; [|done].
  intros (y & E & Hy)%list_elem_of_fmap. rewrite Forall_forall in Hf. specialize (Hf y Hy). unfold key_lt in Hf.
  by rewrite E, blt_irrefl in Hf.
Qed.
