(* ===== verification/GoStd.v ===== *)
(** The parts of Go's standard library the sources rely on, as executable
    functions: UTF-8 validity ([unicode/utf8]), the Castagnoli CRC
    ([hash/crc32]), lower-case hexadecimal ([encoding/hex]), binary search
    ([sort.Search]), decimal numbers ([strconv]) and SHA-256
    ([crypto/sha256]). *)

From Stdlib Require Import ZArith Lia Wf_nat.
From stdpp Require Import base list.
From S2P Require Import Prelude.

Local Open Scope Z_scope.

Module utf8.
(** A byte in the inclusive range [lo, hi]. *)
Definition between (lo hi : Z) (b : byte) : bool := (lo <=? u8 b) && (u8 b <=? hi).
Definition cont (b : byte) : bool := between 0x80 0xBF b.

(** [utf8.Valid]: the well-formed byte sequences of the Unicode standard,
    with the narrower second byte after the lead bytes E0, ED, F0 and F4. *)
Fixpoint Valid (l : bytes) : bool :=
  match l with
  | [] => true
  | b0 :: r0 =>
      if u8 b0 <? 0x80 then Valid r0
      else if between 0xC2 0xDF b0 then
        match r0 with b1 :: r1 => cont b1 && Valid r1 | [] => false end
      else if between 0xE0 0xEF b0 then
        match r0 with
        | b1 :: b2 :: r2 =>
            between (if u8 b0 =? 0xE0 then 0xA0 else 0x80)
                    (if u8 b0 =? 0xED then 0x9F else 0xBF) b1
            && cont b2 && Valid r2
        | _ => false
        end
      else if between 0xF0 0xF4 b0 then
        match r0 with
        | b1 :: b2 :: b3 :: r3 =>
            between (if u8 b0 =? 0xF0 then 0x90 else 0x80)
                    (if u8 b0 =? 0xF4 then 0x8F else 0xBF) b1
            && cont b2 && cont b3 && Valid r3
        | _ => false
        end
      else false
  end.

Example valid_ascii : Valid (lit "users/ada") = true.
Proof. reflexivity. Qed.
Example valid_euro : Valid [xe2; x82; xac] = true.
Proof. reflexivity. Qed.
Example invalid_surrogate : Valid [xed; xa0; x80] = false.
Proof. reflexivity. Qed.
Example invalid_overlong : Valid [xc0; x80] = false.
Proof. reflexivity. Qed.
End utf8.

Module crc32.
Definition castagnoli : Z := 0x82F63B78.

(** One bit of the reflected division. *)
Definition step (c : Z) : Z :=
  if Z.odd c then Z.lxor (Z.shiftr c 1) castagnoli else Z.shiftr c 1.

(** Entry of the table [MakeTable(Castagnoli)]. *)
Definition table (i : Z) : Z := Nat.iter 8 step i.

Definition update (c : Z) (b : byte) : Z :=
  Z.lxor (table (Z.land (Z.lxor c (u8 b)) 0xff)) (Z.shiftr c 8).

(** [crc32.Checksum(data, MakeTable(Castagnoli))] *)
Definition Checksum (data : bytes) : Z :=
  Z.lxor (fold_left update data 0xFFFFFFFF) 0xFFFFFFFF.

(** The check value of CRC-32C. *)
Example check_value : Checksum (lit "123456789") = 0xE3069283.
Proof. reflexivity. Qed.

Lemma lxor_range n a b :
  0 <= n -> 0 <= a < 2 ^ n -> 0 <= b < 2 ^ n -> 0 <= Z.lxor a b < 2 ^ n.
Proof.
  intros Hn Ha Hb. split; [apply Z.lxor_nonneg; lia|].
  destruct (Z.eq_dec (Z.lxor a b) 0) as [->|Hne]; [lia|].
  assert (0 <= Z.lxor a b) by (apply Z.lxor_nonneg; lia).
  destruct (Z.eq_dec n 0) as [->|].
  { assert (a = 0) as -> by (simpl in *; lia). assert (b = 0) as -> by (simpl in *; lia). done. }
  apply Z.log2_lt_pow2; [lia|].
  pose proof (Z.log2_lxor a b ltac:(lia) ltac:(lia)).
  assert (forall x, 0 <= x < 2 ^ n -> Z.log2 x < n) as Hlog.
  { intros x Hx. destruct (Z.eq_dec x 0) as [->|]; [simpl; lia|].
    apply Z.log2_lt_pow2; lia. }
  pose proof (Hlog a Ha). pose proof (Hlog b Hb). lia.
Qed.

Lemma shiftr_range n a k : 0 <= k -> 0 <= a < 2 ^ n -> 0 <= Z.shiftr a k < 2 ^ n.
Proof.
  intros Hk Ha. rewrite Z.shiftr_div_pow2 by lia.
  assert (0 < 2 ^ k) by (apply Z.pow_pos_nonneg; lia).
  split; [apply Z.div_pos; lia|].
  apply Z.le_lt_trans with a; [|lia]. apply Z.div_le_upper_bound; nia.
Qed.

Lemma step_range c : 0 <= c < 2 ^ 32 -> 0 <= step c < 2 ^ 32.
Proof.
  intros Hc. unfold step. pose proof (shiftr_range 32 c 1 ltac:(lia) Hc).
  destruct (Z.odd c); [|done]. apply lxor_range; [lia|done|].
  unfold castagnoli. lia.
Qed.

Lemma table_range i : 0 <= i < 2 ^ 32 -> 0 <= table i < 2 ^ 32.
Proof.
  intros Hi. unfold table. generalize 8%nat. intros n. induction n as [|n IH]; [done|].
  cbn [Nat.iter]. by apply step_range.
Qed.

Lemma update_range c b : 0 <= c < 2 ^ 32 -> 0 <= update c b < 2 ^ 32.
Proof.
  intros Hc. unfold update. apply lxor_range; [lia| |by apply shiftr_range].
  apply table_range. change 0xff with (Z.ones 8). rewrite Z.land_ones by lia.
  pose proof (Z.mod_pos_bound (Z.lxor c (u8 b)) (2 ^ 8) ltac:(lia)). lia.
Qed.

Lemma Checksum_range data : 0 <= Checksum data < 2 ^ 32.
Proof.
  unfold Checksum. apply lxor_range; [lia| |lia].
  assert (0 <= 0xFFFFFFFF < 2 ^ 32) as H by lia.
  revert H. generalize 0xFFFFFFFF. induction data as [|b data IH]; intros c Hc; simpl; [done|].
  apply IH. by apply update_range.
Qed.

Lemma un_be_Checksum data : un_be (be 4 (Checksum data)) = Checksum data.
Proof. apply un_be_be_small. apply Checksum_range. Qed.
End crc32.

Module hex.
(** [hextable[v]] for a four-bit value. *)
Definition digit (v : Z) : byte := byte_of (if v <? 10 then 0x30 + v else 0x61 + (v - 10)).

(** [hex.Encode] *)
Fixpoint Encode (l : bytes) : bytes :=
  match l with
  | [] => []
  | b :: l' => digit (u8 b / 16) :: digit (u8 b mod 16) :: Encode l'
  end.

(** The value of a hexadecimal digit of either case. *)
Definition value (b : byte) : option Z :=
  let c := u8 b in
  if (0x30 <=? c) && (c <=? 0x39) then Some (c - 0x30)
  else if (0x61 <=? c) && (c <=? 0x66) then Some (c - 0x61 + 10)
  else if (0x41 <=? c) && (c <=? 0x46) then Some (c - 0x41 + 10)
  else None.

(** [hex.Decode]: [None] for an odd length or a byte that is not a digit. *)
Fixpoint Decode (l : bytes) : option bytes :=
  match l with
  | [] => Some []
  | h :: d :: l' =>
      match value h, value d, Decode l' with
      | Some vh, Some vd, Some r => Some (byte_of (vh * 16 + vd) :: r)
      | _, _, _ => None
      end
  | [_] => None
  end.

Lemma value_digit v : 0 <= v < 16 -> value (digit v) = Some v.
Proof.
  intros Hv. unfold value, digit. rewrite u8_byte_of.
  destruct (Z.ltb_spec v 10).
  - rewrite Z.mod_small by lia.
    rewrite (proj2 (Z.leb_le 0x30 (0x30 + v))) by lia.
    rewrite (proj2 (Z.leb_le (0x30 + v) 0x39)) by lia. simpl. f_equal. lia.
  - rewrite Z.mod_small by lia.
    rewrite (proj2 (Z.leb_gt (0x61 + (v - 10)) 0x39)) by lia. rewrite andb_false_r.
    rewrite (proj2 (Z.leb_le 0x61 (0x61 + (v - 10)))) by lia.
    rewrite (proj2 (Z.leb_le (0x61 + (v - 10)) 0x66)) by lia. simpl. f_equal. lia.
Qed.

Lemma Decode_Encode l : Decode (Encode l) = Some l.
Proof.
  induction l as [|b l IH]; simpl; [done|]. pose proof (u8_range b) as Hb.
  rewrite !value_digit, IH.
  - f_equal. f_equal. apply (inj u8). rewrite u8_byte_of.
    rewrite Z.mod_small; pose proof (Z.div_mod (u8 b) 16); lia.
  - apply Z.mod_pos_bound. lia.
  - split; [apply Z.div_pos; lia|]. apply Z.div_lt_upper_bound; lia.
Qed.

(** A lower-case digit is the digit of its value. *)
Definition lower (b : byte) : bool :=
  let c := u8 b in ((0x30 <=? c) && (c <=? 0x39)) || ((0x61 <=? c) && (c <=? 0x66)).

Lemma digit_value b v : lower b = true -> value b = Some v -> 0 <= v < 16 /\ digit v = b.
Proof.
  unfold lower, value, digit. intros Hl Hv. pose proof (u8_range b).
  destruct (Z.leb_spec 0x30 (u8 b)), (Z.leb_spec (u8 b) 0x39),
    (Z.leb_spec 0x61 (u8 b)), (Z.leb_spec (u8 b) 0x66); simpl in Hl, Hv;
    try discriminate; try lia; injection Hv as <-; (split; [lia|]); apply (inj u8);
    rewrite u8_byte_of.
  - destruct (Z.ltb_spec (u8 b - 0x30) 10); [|lia]. rewrite Z.mod_small; lia.
  - destruct (Z.ltb_spec (u8 b - 0x61 + 10) 10); [lia|]. rewrite Z.mod_small; lia.
Qed.

Lemma Encode_Decode l r :
  forallb lower l = true -> Decode l = Some r -> Encode r = l.
Proof.
  revert r. induction l as [l IH] using (induction_ltof1 _ (@length byte)).
  intros r Hl Hd. destruct l as [|h [|d l]]; simpl in Hd; try discriminate.
  - by injection Hd as <-.
  - simpl in Hl. bool_to_prop.
    destruct (value h) as [vh|] eqn:Hh; [|discriminate].
    destruct (value d) as [vd|] eqn:Hvd; [|discriminate].
    destruct (Decode l) as [r'|] eqn:Hr; [|discriminate]. injection Hd as <-.
    destruct (digit_value h vh) as [Hvh Hdh]; [done..|].
    destruct (digit_value d vd) as [Hvd' Hdd]; [done..|].
    simpl. rewrite u8_byte_of, Z.mod_small by lia.
    rewrite Z.div_add_l, Z.div_small, Z.add_0_r by lia.
    rewrite Z.add_comm, Z.mod_add, Z.mod_small by lia.
    rewrite Hdh, Hdd, (IH l) by (done || (unfold ltof; simpl; lia)). done.
Qed.

Lemma length_Encode l : length (Encode l) = (2 * length l)%nat.
Proof. induction l; simpl; lia. Qed.
Lemma length_Decode l r : Decode l = Some r -> length l = (2 * length r)%nat.
Proof.
  revert r. induction l as [l IH] using (induction_ltof1 _ (@length byte)).
  intros r Hd. destruct l as [|h [|d l]]; simpl in Hd; try discriminate.
  - by injection Hd as <-.
  - destruct (value h), (value d), (Decode l) as [r'|] eqn:Hr; try discriminate.
    injection Hd as <-. simpl. rewrite (IH l) with (r := r'); [lia| |done].
    unfold ltof. simpl. lia.
Qed.
Lemma Encode_app a b : Encode (a ++ b) = Encode a ++ Encode b.
Proof. induction a; simpl; congruence. Qed.
Lemma Encode_lower l : forallb lower (Encode l) = true.
Proof.
  assert (forall v, 0 <= v < 16 -> lower (digit v) = true) as Hd.
  { intros v Hv. unfold lower, digit. rewrite u8_byte_of.
    destruct (Z.ltb_spec v 10); rewrite Z.mod_small by lia.
    - apply orb_true_iff. left. apply andb_true_iff. rewrite !Z.leb_le. lia.
    - apply orb_true_iff. right. apply andb_true_iff. rewrite !Z.leb_le. lia. }
  induction l as [|b l IH]; simpl; [done|]. pose proof (u8_range b).
  rewrite !Hd; [done| |].
  - apply Z.mod_pos_bound. lia.
  - split; [apply Z.div_pos; lia|apply Z.div_lt_upper_bound; lia].
Qed.
End hex.

(** ** [sort.Search] *)

Module sort.

(** The binary search of the standard library on [[i, j)]. *)
Fixpoint search (fuel : nat) (f : nat -> bool) (i j : nat) : nat :=
  match fuel with
  | O => i
  | S fuel' =>
      if (i <? j)%nat then
        let h := ((i + j) / 2)%nat in
        if negb (f h) then search fuel' f (S h) j else search fuel' f i h
      else i
  end.
Definition Search (n : nat) (f : nat -> bool) : nat := search n f 0 n.

Definition monotone (n : nat) (f : nat -> bool) : Prop :=
  forall i j, (i <= j < n)%nat -> f i = true -> f j = true.

Lemma search_spec f n : monotone n f -> forall fuel i j, (j - i <= fuel)%nat -> (i <= j <= n)%nat ->
  (forall k, (k < i)%nat -> f k = false) -> (forall k, (j <= k < n)%nat -> f k = true) ->
  (search fuel f i j <= n)%nat /\ (forall k, (k < search fuel f i j)%nat -> f k = false) /\
  (forall k, (search fuel f i j <= k < n)%nat -> f k = true).
Proof.
  intros Hm. induction fuel as [|fuel IH]; intros i j Hf Hij Hlo Hhi; cbn [search].
  - assert (i = j) as -> by lia. auto with lia.
  - destruct (Nat.ltb_spec i j) as [Hlt|Hge].
    2:{ assert (i = j) as -> by lia. auto with lia. }
    cbv zeta. set (h := ((i + j) / 2)%nat).
    assert (i <= h < j)%nat as Hh.
    { unfold h. pose proof (Nat.div_mod (i + j) 2). pose proof (Nat.mod_upper_bound (i + j) 2). lia. }
    destruct (f h) eqn:Hfh; cbn [negb].
    + apply IH; [lia|lia|done|]. intros k Hk. destruct (decide (j <= k)%nat); [apply Hhi; lia|].
      apply (Hm h k); [lia|done].
    + apply IH; [lia|lia| |done]. intros k Hk. destruct (f k) eqn:Hfk; [|done].
      rewrite (Hm k h) in Hfh; [done|lia|done].
Qed.

(** The smallest index at which a monotone predicate holds, or [n]. *)
Lemma Search_spec n f : monotone n f ->
  (Search n f <= n)%nat /\ (forall k, (k < Search n f)%nat -> f k = false) /\
  (forall k, (Search n f <= k < n)%nat -> f k = true).
Proof.
  intros Hm. unfold Search. apply (search_spec f n Hm); [lia|lia| |]; intros k Hk; lia.
Qed.

End sort.

(** [strconv.Itoa] and the verb [%d] on the lengths the sources print. *)
Module strconv.
Definition digit (n : Z) : byte := byte_of (48 + n).

Fixpoint digits (fuel : nat) (n : Z) : bytes :=
  match fuel with
  | O => []
  | S fuel' => if n <? 10 then [digit n] else digits fuel' (n / 10) ++ [digit (n mod 10)]
  end.

(** A number has no more decimal digits than binary ones. *)
Definition Itoa (n : Z) : bytes := digits (S (Z.to_nat (Z.log2 n))) n.

(** The number a digit string stands for. *)
Definition value (l : bytes) : Z := fold_left (fun acc b => acc * 10 + (u8 b - 48)) l 0.
Definition is_digit (b : byte) : bool := (48 <=? u8 b) && (u8 b <=? 57).

Example Itoa_1024 : Itoa 1024 = lit "1024".
Proof. reflexivity. Qed.
Example Itoa_0 : Itoa 0 = lit "0".
Proof. reflexivity. Qed.

Lemma u8_digit n : 0 <= n < 10 -> u8 (digit n) = 48 + n.
Proof. intros. unfold digit. rewrite u8_byte_of, Z.mod_small by lia. done. Qed.

Lemma digits_value fuel : forall n, 0 <= n < 2 ^ Z.of_nat fuel -> value (digits fuel n) = n.
Proof.
  induction fuel as [|fuel IH]; intros n Hn; [change (2 ^ Z.of_nat 0) with 1 in Hn; cbn; lia|]. cbn [digits].
  destruct (Z.ltb_spec n 10) as [Hlt|Hge].
  { unfold value. cbn [fold_left]. rewrite u8_digit by lia. lia. }
  unfold value. rewrite fold_left_app. cbn [fold_left]. fold (value (digits fuel (n / 10))).
  pose proof (Z.div_mod n 10 ltac:(lia)). pose proof (Z.mod_pos_bound n 10 ltac:(lia)).
  rewrite u8_digit, IH; [lia| |lia].
  rewrite Nat2Z.inj_succ, Z.pow_succ_r in Hn by lia. split; [apply Z.div_pos; lia|].
  apply Z.div_lt_upper_bound; lia.
Qed.

Lemma value_Itoa n : 0 <= n -> value (Itoa n) = n.
Proof.
  intros Hn. apply digits_value. rewrite Nat2Z.inj_succ, Z2Nat.id by apply Z.log2_nonneg.
  destruct (Z.eq_dec n 0) as [->|]; [cbn; lia|]. pose proof (Z.log2_spec n ltac:(lia)). lia.
Qed.

Lemma digits_are_digits fuel : forall n, 0 <= n -> Forall (fun b => is_digit b = true) (digits fuel n).
Proof.
  assert (forall k, 0 <= k < 10 -> is_digit (digit k) = true) as Hd.
  { intros k Hk. unfold is_digit. rewrite u8_digit by lia. apply andb_true_iff. split; apply Z.leb_le; lia. }
  induction fuel as [|fuel IH]; intros n Hn; cbn [digits]; [constructor|].
  destruct (Z.ltb_spec n 10); [constructor; [apply Hd; lia|constructor]|].
  apply Forall_app. split; [apply IH, Z.div_pos; lia|]. constructor; [|constructor].
  apply Hd, Z.mod_pos_bound. lia.
Qed.

(** A number printed in front of a byte that is no digit is read back. *)
Lemma Itoa_prefix_inj sep n m a b : is_digit sep = false -> 0 <= n -> 0 <= m ->
  Itoa n ++ sep :: a = Itoa m ++ sep :: b -> n = m /\ a = b.
Proof.
  intros Hsep Hn Hm H.
  assert (forall l k, Forall (fun b => is_digit b = true) l -> Forall (fun b => is_digit b = true) k ->
          l ++ sep :: a = k ++ sep :: b -> l = k /\ a = b) as Hcut.
  { clear H. induction l as [|x l IH]; intros [|y k] Hl Hk H; cbn in H.
    - by injection H.
    - apply Forall_cons in Hk as [Hy _]. congruence.
    - apply Forall_cons in Hl as [Hx' _]. congruence.
    - injection H as Hx H. apply Forall_cons in Hl as [_ Hl]. apply Forall_cons in Hk as [_ Hk].
      destruct (IH k Hl Hk H) as [-> ->]. by subst. }
  destruct (Hcut _ _ (digits_are_digits _ n Hn) (digits_are_digits _ m Hm) H) as [Heq ->].
  split; [|done]. rewrite <- (value_Itoa n), <- (value_Itoa m) by done.
  exact (f_equal value Heq).
Qed.
End strconv.

(** [crypto/sha256]: FIPS 180-4 on 32-bit words. *)
Module sha256.
Definition w32 (z : Z) : Z := Z.land z 0xFFFFFFFF.
Definition rotr (x n : Z) : Z := Z.lor (Z.shiftr x n) (w32 (Z.shiftl x (32 - n))).

(** The constants are the first 32 bits of the fractional parts of the cube
    roots of the first 64 primes, and of the square roots of the first 8. *)
Definition primes : list Z :=
  let is_prime n := forallb (fun d => negb (n mod d =? 0)) (map Z.of_nat (seq 2 (Z.to_nat (Z.sqrt n) - 1))) in
  List.filter is_prime (map Z.of_nat (seq 2 310)).

(** The largest [r] with [r ^ 3 <= n], bit by bit. *)
Definition cube_root (n : Z) : Z :=
  fold_left (fun r i => let r' := r + 2 ^ Z.of_nat i in if r' ^ 3 <=? n then r' else r) (rev (seq 0 40)) 0.

Definition K : list Z := Eval vm_compute in map (fun p => w32 (cube_root (p * 2 ^ 96))) primes.
Definition H0 : list Z := Eval vm_compute in map (fun p => w32 (Z.sqrt (p * 2 ^ 64))) (take 8 primes).

Example sixty_four_rounds : length K = 64%nat.
Proof. reflexivity. Qed.

Definition sigma0 (x : Z) : Z := Z.lxor (Z.lxor (rotr x 7) (rotr x 18)) (Z.shiftr x 3).
Definition sigma1 (x : Z) : Z := Z.lxor (Z.lxor (rotr x 17) (rotr x 19)) (Z.shiftr x 10).
Definition Sigma0 (x : Z) : Z := Z.lxor (Z.lxor (rotr x 2) (rotr x 13)) (rotr x 22).
Definition Sigma1 (x : Z) : Z := Z.lxor (Z.lxor (rotr x 6) (rotr x 11)) (rotr x 25).
Definition Ch (x y z : Z) : Z := Z.lxor (Z.land x y) (Z.ldiff z x).
Definition Maj (x y z : Z) : Z := Z.lxor (Z.lxor (Z.land x y) (Z.land x z)) (Z.land y z).

(** The message schedule: a window of the last sixteen words, oldest first. *)
Definition next_word (w : list Z) : Z :=
  match w with
  | [w0; w1; _; _; _; _; _; _; _; w9; _; _; _; _; w14; _] => w32 (sigma1 w14 + w9 + sigma0 w1 + w0)
  | _ => 0
  end.

(** The 64 rounds of one block, over the round constants. *)
Fixpoint rounds (ks : list Z) (w : list Z) (v : list Z) : list Z :=
  match ks with
  | [] => v
  | k :: ks' =>
      match v, w with
      | [a; b; c; d; e; f; g; h], w0 :: w' =>
          let t1 := w32 (h + Sigma1 e + Ch e f g + k + w0) in
          let t2 := w32 (Sigma0 a + Maj a b c) in
          rounds ks' (w' ++ [next_word w]) [w32 (t1 + t2); a; b; c; w32 (d + t1); e; f; g]
      | _, _ => v
      end
  end.

Fixpoint words (n : nat) (l : bytes) : list Z :=
  match n with O => [] | S n' => un_be (take 4 l) :: words n' (drop 4 l) end.

Definition block (h : list Z) (l : bytes) : list Z :=
  zip_with (fun x y => w32 (x + y)) h (rounds K (words 16 l) h).

Fixpoint blocks (n : nat) (h : list Z) (l : bytes) : list Z :=
  match n with O => h | S n' => blocks n' (block h (take 64 l)) (drop 64 l) end.

(** The message, a one bit, zeros up to 56 modulo 64, the length in bits. *)
Definition pad (l : bytes) : bytes :=
  l ++ [x80] ++ replicate (Z.to_nat ((55 - len l) mod 64)) x00 ++ be 8 (8 * len l).

Definition Sum256 (l : bytes) : bytes :=
  let p := pad l in concat (map (be 4) (blocks (length p / 64) H0 p)).

Example abc : hex.Encode (Sum256 (lit "abc"))
  = lit "ba7816bf8f01cfea414140de5dae2223b00361a396177a9cb410ff61f20015ad".
Proof. vm_compute. reflexivity. Qed.
Example two_blocks : hex.Encode (Sum256 (lit "abcdbcdecdefdefgefghfghighijhijkijkljklmklmnlmnomnopnopq"))
  = lit "248d6a61d20638b8e5c026930c3e6039a33ce45964ff2167f6ecedd419db06c1".
Proof. vm_compute. reflexivity. Qed.
Example empty : hex.Encode (Sum256 []) = lit "e3b0c44298fc1c149afbf4c8996fb92427ae41e4649b934ca495991b7852b855".
Proof. vm_compute. reflexivity. Qed.
End sha256.
