(* ===== verification/Jsondoc.v ===== *)
(** JSON documents (src/pkg/jsondoc/jsondoc.go): validation and the canonical
    form.

    The parts of encoding/json the package uses come first: the decoder with
    [Token] and [More], which is a state machine over the input, and [Marshal]
    of decoded values.  Input is valid UTF-8 before the decoder sees it, so
    [unquote] and [quote] copy the bytes of longer characters. *)

From Stdlib Require Import ZArith Lia.
From stdpp Require Import base list.
From S2P Require Import Prelude GoStd.

Local Open Scope Z_scope.

Inductive json_error : Type :=
| ErrJSON (what : String.string)
| ErrEOF
| OutOfFuel.

(** ** Values *)

(** [any] as the decoder with [UseNumber] fills it; the entries of a map are
    listed by key. *)
Inductive json : Type :=
| JNull
| JBool (b : bool)
| JNumber (token : bytes)
| JString (s : bytes)
| JArray (items : list json)
| JObject (fields : list (bytes * json)).

(** ** Characters *)

Definition is_digit (b : byte) : bool := (0x30 <=? u8 b) && (u8 b <=? 0x39).
Definition is_space (b : byte) : bool := (u8 b =? 0x20) || (u8 b =? 0x09) || (u8 b =? 0x0d) || (u8 b =? 0x0a).

Definition hex_digit (b : byte) : option Z :=
  if is_digit b then Some (u8 b - 0x30)
  else if (0x61 <=? u8 b) && (u8 b <=? 0x66) then Some (u8 b - 0x61 + 10)
  else if (0x41 <=? u8 b) && (u8 b <=? 0x46) then Some (u8 b - 0x41 + 10)
  else None.

(** The body of [parseHexQuad]; the value has sixteen bits. *)
Fixpoint parse_hex (value : Z) (l : bytes) : option Z :=
  match l with
  | [] => Some value
  | digit :: l' => match hex_digit digit with Some d => parse_hex ((value * 16 + d) mod 65536) l' | None => None end
  end.
Definition parseHexQuad (input : bytes) : option Z := if negb (len input =? 4) then None else parse_hex 0 input.

Definition isHighSurrogate (value : Z) : bool := (0xd800 <=? value) && (value <=? 0xdbff).
Definition isLowSurrogate (value : Z) : bool := (0xdc00 <=? value) && (value <=? 0xdfff).

(** [utf8.AppendRune] *)
Definition encode_rune (c : Z) : bytes :=
  if c <? 0x80 then [byte_of c]
  else if c <? 0x800 then [byte_of (0xc0 + c / 64); byte_of (0x80 + c mod 64)]
  else if c <? 0x10000 then [byte_of (0xe0 + c / 4096); byte_of (0x80 + c / 64 mod 64); byte_of (0x80 + c mod 64)]
  else [byte_of (0xf0 + c / 262144); byte_of (0x80 + c / 4096 mod 64); byte_of (0x80 + c / 64 mod 64); byte_of (0x80 + c mod 64)].

(** ** Strings *)

(** The scanner inside a string: the raw text up to the closing quote, and what
    follows it. *)
Fixpoint scan_string (l : bytes) : option (bytes * bytes) :=
  let keep bs m := match m with Some (raw, rest) => Some (bs ++ raw, rest) | None => None end in
  match l with
  | [] => None
  | b :: r =>
      if u8 b =? 0x22 then Some ([], r)
      else if u8 b <? 0x20 then None
      else if u8 b =? 0x5c then
        match r with
        | [] => None
        | e :: r1 =>
            if existsb (fun c => u8 e =? c) [0x62; 0x66; 0x6e; 0x72; 0x74; 0x5c; 0x2f; 0x22] then keep [b; e] (scan_string r1)
            else if u8 e =? 0x75 then
              match r1 with
              | h1 :: h2 :: h3 :: h4 :: r2 =>
                  match parseHexQuad [h1; h2; h3; h4] with Some _ => keep [b; e; h1; h2; h3; h4] (scan_string r2) | None => None end
              | _ => None
              end
            else None
        end
      else keep [b] (scan_string r)
  end.

(** What an escape of one character stands for. *)
Definition unescape (e : byte) : byte :=
  if u8 e =? 0x62 then x08 else if u8 e =? 0x66 then x0c else if u8 e =? 0x6e then x0a else if u8 e =? 0x72 then x0d
  else if u8 e =? 0x74 then x09 else e.

(** [unquote] of a scanned string; a surrogate without its pair becomes U+FFFD. *)
Fixpoint unquote (l : bytes) : bytes :=
  match l with
  | [] => []
  | b :: r =>
      if u8 b =? 0x5c then
        match r with
        | [] => []
        | e :: r1 =>
            if u8 e =? 0x75 then
              match r1 with
              | h1 :: h2 :: h3 :: h4 :: r2 =>
                  let rr := default 0 (parseHexQuad [h1; h2; h3; h4]) in
                  if isHighSurrogate rr then
                    match r2 with
                    | b' :: e' :: g1 :: g2 :: g3 :: g4 :: r3 =>
                        let rr1 := default 0 (parseHexQuad [g1; g2; g3; g4]) in
                        if (u8 b' =? 0x5c) && (u8 e' =? 0x75) && isLowSurrogate rr1
                        then encode_rune (0x10000 + (rr - 0xd800) * 1024 + (rr1 - 0xdc00)) ++ unquote r3
                        else encode_rune 0xfffd ++ unquote r2
                    | _ => encode_rune 0xfffd ++ unquote r2
                    end
                  else encode_rune (if isLowSurrogate rr then 0xfffd else rr) ++ unquote r2
              | _ => []
              end
            else unescape e :: unquote r1
        end
      else b :: unquote r
  end.

Definition hex_of (n : Z) : byte := byte_of (if n <? 10 then 0x30 + n else 0x61 + (n - 10)).

(** The escape of one byte below 0x80 in [appendString] with HTML escapes. *)
Definition escape_byte (b : byte) : bytes :=
  let c := u8 b in
  if (c =? 0x22) || (c =? 0x5c) then [x5c; b]
  else if c =? 0x08 then [x5c; x62]
  else if c =? 0x0c then [x5c; x66]
  else if c =? 0x0a then [x5c; x6e]
  else if c =? 0x0d then [x5c; x72]
  else if c =? 0x09 then [x5c; x74]
  else if (c <? 0x20) || (c =? 0x3c) || (c =? 0x3e) || (c =? 0x26) then [x5c; x75; x30; x30; hex_of (c / 16); hex_of (c mod 16)]
  else [b].

(** U+2028 and U+2029 are escaped as well. *)
Fixpoint quote_body (s : bytes) : bytes :=
  match s with
  | [] => []
  | b :: r =>
      match s with
      | xe2 :: x80 :: xa8 :: r' => lit "\u2028" ++ quote_body r'
      | xe2 :: x80 :: xa9 :: r' => lit "\u2029" ++ quote_body r'
      | _ => escape_byte b ++ quote_body r
      end
  end.
Definition quote (s : bytes) : bytes := x22 :: quote_body s ++ [x22].

(** ** Numbers *)

Inductive number_state : Type := NBegin | NNeg | NZero | NDigits | NDot | NFrac | NExp | NExpSign | NExpDigits.

Definition number_step (st : number_state) (b : byte) : option number_state :=
  let exp := (u8 b =? 0x65) || (u8 b =? 0x45) in
  match st with
  | NBegin => if u8 b =? 0x2d then Some NNeg else if u8 b =? 0x30 then Some NZero else if is_digit b then Some NDigits else None
  | NNeg => if u8 b =? 0x30 then Some NZero else if is_digit b then Some NDigits else None
  | NZero => if u8 b =? 0x2e then Some NDot else if exp then Some NExp else None
  | NDigits => if is_digit b then Some NDigits else if u8 b =? 0x2e then Some NDot else if exp then Some NExp else None
  | NDot => if is_digit b then Some NFrac else None
  | NFrac => if is_digit b then Some NFrac else if exp then Some NExp else None
  | NExp => if (u8 b =? 0x2b) || (u8 b =? 0x2d) then Some NExpSign else if is_digit b then Some NExpDigits else None
  | NExpSign | NExpDigits => if is_digit b then Some NExpDigits else None
  end.
Definition number_ends (st : number_state) : bool := match st with NZero | NDigits | NFrac | NExpDigits => true | _ => false end.

(** The scanner in a number: the token and what follows it. *)
Fixpoint scan_number (st : number_state) (l : bytes) : option (bytes * bytes) :=
  let stop := if number_ends st then Some ([], l) else None in
  match l with
  | [] => stop
  | b :: r =>
      match number_step st b with
      | Some st' => match scan_number st' r with Some (token, rest) => Some (b :: token, rest) | None => None end
      | None => stop
      end
  end.

(** [numberPattern.MatchString] *)
Definition numberPattern (s : bytes) : bool := match scan_number NBegin s with Some (_, []) => true | _ => false end.

(** ** The decoder *)

Inductive token : Type := Delim (b : byte) | TString (s : bytes) | TNumber (n : bytes) | TBool (b : bool) | TNull.

Inductive token_state : Type :=
| TopValue | ArrayStart | ArrayValue | ArrayComma | ObjectStart | ObjectKey | ObjectColon | ObjectValue | ObjectComma.

Record Decoder : Type := mkDecoder { d_rest : bytes; d_state : token_state; d_stack : list token_state }.

Fixpoint skip_space (l : bytes) : bytes := match l with b :: r => if is_space b then skip_space r else l | [] => [] end.

Definition tokenValueAllowed (st : token_state) : bool :=
  match st with TopValue | ArrayStart | ArrayValue | ObjectValue => true | _ => false end.
Definition tokenValueEnd (st : token_state) : token_state :=
  match st with ArrayStart | ArrayValue => ArrayComma | ObjectValue => ObjectComma | st => st end.

(** [Decode] of a scalar. *)
Definition literal (word : bytes) (t : token) (l : bytes) : option (token * bytes) :=
  if beq (take (length word) l) word then Some (t, drop (length word) l) else None.
Definition decode_scalar (l : bytes) : option (token * bytes) :=
  match l with
  | [] => None
  | b :: r =>
      if u8 b =? 0x22 then match scan_string r with Some (raw, rest) => Some (TString (unquote raw), rest) | None => None end
      else if u8 b =? 0x74 then literal (lit "true") (TBool true) l
      else if u8 b =? 0x66 then literal (lit "false") (TBool false) l
      else if u8 b =? 0x6e then literal (lit "null") TNull l
      else match scan_number NBegin l with Some (n, rest) => Some (TNumber n, rest) | None => None end
  end.

(** One turn of the loop of [Token]: a token, an error, or another turn. *)
Inductive turn : Type := Yield (t : token) (d : Decoder) | Refuse (e : json_error) | Again (d : Decoder).

Definition token_turn (d : Decoder) : turn :=
  let syntax := Refuse (ErrJSON "invalid character") in
  let st := d_state d in
  match skip_space (d_rest d) with
  | [] => Refuse ErrEOF
  | c :: r =>
      let l := c :: r in
      let opening next := if tokenValueAllowed st then Yield (Delim c) (mkDecoder r next (st :: d_stack d)) else syntax in
      let closing := match d_stack d with
                     | top :: stack => Yield (Delim c) (mkDecoder r (tokenValueEnd top) stack)
                     | [] => syntax
                     end in
      let scalar := if tokenValueAllowed st then
                      match decode_scalar l with
                      | Some (t, rest) => Yield t (mkDecoder rest (tokenValueEnd st) (d_stack d))
                      | None => syntax
                      end
                    else syntax in
      if u8 c =? 0x5b then opening ArrayStart
      else if u8 c =? 0x5d then match st with ArrayStart | ArrayComma => closing | _ => syntax end
      else if u8 c =? 0x7b then opening ObjectStart
      else if u8 c =? 0x7d then match st with ObjectStart | ObjectComma => closing | _ => syntax end
      else if u8 c =? 0x3a then match st with ObjectColon => Again (mkDecoder r ObjectValue (d_stack d)) | _ => syntax end
      else if u8 c =? 0x2c then
        match st with
        | ArrayComma => Again (mkDecoder r ArrayValue (d_stack d))
        | ObjectComma => Again (mkDecoder r ObjectKey (d_stack d))
        | _ => syntax
        end
      else if u8 c =? 0x22 then
        match st with
        | ObjectStart | ObjectKey =>
            match decode_scalar l with
            | Some (t, rest) => Yield t (mkDecoder rest ObjectColon (d_stack d))
            | None => syntax
            end
        | _ => scalar
        end
      else scalar
  end.

(** [Token]: after a colon or a comma no other one is allowed, so the loop has
    at most two turns. *)
Definition Token (d : Decoder) : result json_error (token * Decoder) :=
  match token_turn d with
  | Yield t d' => Ok (t, d')
  | Refuse e => Fail e
  | Again d' => match token_turn d' with Yield t d2 => Ok (t, d2) | Refuse e => Fail e | Again _ => Fail OutOfFuel end
  end.

Definition More (d : Decoder) : bool :=
  match skip_space (d_rest d) with c :: _ => negb ((u8 c =? 0x5d) || (u8 c =? 0x7d)) | [] => false end.

(** ** Marshal *)

Fixpoint join (parts : list bytes) : bytes :=
  match parts with [] => [] | [p] => p | p :: parts' => p ++ x2c :: join parts' end.

Fixpoint marshal (v : json) : bytes :=
  match v with
  | JNull => lit "null"
  | JBool true => lit "true"
  | JBool false => lit "false"
  | JNumber n => n
  | JString s => quote s
  | JArray items => x5b :: join (map marshal items) ++ [x5d]
  | JObject fields => x7b :: join (map (fun kv => quote (fst kv) ++ x3a :: marshal (snd kv)) fields) ++ [x7d]
  end.

(** ** The package *)

Definition MaxDepth : Z := 128.
Definition MaxDocumentBytes : Z := 2 ^ 20.
Definition MaxCanonicalBytes : Z := 4 * 2 ^ 20.

(** [object[key]] *)
Fixpoint field (key : bytes) (fields : list (bytes * json)) : option json :=
  match fields with [] => None | (k, v) :: fields' => if beq k key then Some v else field key fields' end.

(** [object[key] = value] of a new key. *)
Fixpoint set_field (key : bytes) (value : json) (fields : list (bytes * json)) : list (bytes * json) :=
  match fields with
  | [] => [(key, value)]
  | (k, v) :: fields' => if blt key k then (key, value) :: fields else (k, v) :: set_field key value fields'
  end.

Fixpoint parseValue (fuel : nat) (d : Decoder) (depth : Z) : result json_error (json * Decoder) :=
  match fuel with
  | O => Fail OutOfFuel
  | S fuel' =>
      '(t, d) ← Token d;
      match t with
      | Delim c =>
          fail_if (MaxDepth <=? depth) (ErrJSON "maximum nesting depth exceeded");;
          if u8 c =? 0x7b then '(fields, d) ← parseObject fuel' d (depth + 1) []; Ok (JObject fields, d)
          else if u8 c =? 0x5b then '(items, d) ← parseArray fuel' d (depth + 1) []; Ok (JArray items, d)
          else Fail (ErrJSON "unexpected delimiter")
      | TNumber n => fail_if (negb (numberPattern n)) (ErrJSON "unsupported number form");; Ok (JNumber n, d)
      | TString s => Ok (JString s, d)
      | TBool b => Ok (JBool b, d)
      | TNull => Ok (JNull, d)
      end
  end
with parseObject (fuel : nat) (d : Decoder) (depth : Z) (object : list (bytes * json)) : result json_error (list (bytes * json) * Decoder) :=
  match fuel with
  | O => Fail OutOfFuel
  | S fuel' =>
      if More d then
        '(t, d) ← Token d;
        match t with
        | TString key =>
            fail_if (match field key object with Some _ => true | None => false end) (ErrJSON "duplicate object key");;
            '(value, d) ← parseValue fuel' d depth;
            parseObject fuel' d depth (set_field key value object)
        | _ => Fail (ErrJSON "object key is not string")
        end
      else
        '(end_, d) ← Token d;
        match end_ with
        | Delim c => if u8 c =? 0x7d then Ok (object, d) else Fail (ErrJSON "object ended")
        | _ => Fail (ErrJSON "object ended")
        end
  end
with parseArray (fuel : nat) (d : Decoder) (depth : Z) (array : list json) : result json_error (list json * Decoder) :=
  match fuel with
  | O => Fail OutOfFuel
  | S fuel' =>
      if More d then
        '(value, d) ← parseValue fuel' d depth;
        parseArray fuel' d depth (array ++ [value])
      else
        '(end_, d) ← Token d;
        match end_ with
        | Delim c => if u8 c =? 0x5d then Ok (array, d) else Fail (ErrJSON "array ended")
        | _ => Fail (ErrJSON "array ended")
        end
  end.

(** [inside] tells whether the text goes on inside a string. *)
Fixpoint validateSurrogateEscapes (inside : bool) (l : bytes) : result json_error unit :=
  match l with
  | [] => fail_if inside (ErrJSON "unterminated JSON string")
  | b :: r =>
      if negb inside then validateSurrogateEscapes (u8 b =? 0x22) r
      else if u8 b =? 0x22 then validateSurrogateEscapes false r
      else if u8 b =? 0x5c then
        match r with
        | [] => Fail (ErrJSON "unterminated JSON string escape")
        | e :: r1 =>
            if negb (u8 e =? 0x75) then validateSurrogateEscapes true r1
            else match r1 with
                 | h1 :: h2 :: h3 :: h4 :: r2 =>
                     match parseHexQuad [h1; h2; h3; h4] with
                     | None => Fail (ErrJSON "invalid Unicode escape")
                     | Some code =>
                         if isLowSurrogate code then Fail (ErrJSON "unpaired low-surrogate escape")
                         else if negb (isHighSurrogate code) then validateSurrogateEscapes true r2
                         else match r2 with
                              | b' :: e' :: g1 :: g2 :: g3 :: g4 :: r3 =>
                                  if negb (u8 b' =? 0x5c) || negb (u8 e' =? 0x75) then Fail (ErrJSON "unpaired high-surrogate escape")
                                  else match parseHexQuad [g1; g2; g3; g4] with
                                       | Some low =>
                                           if negb (isLowSurrogate low)
                                           then Fail (ErrJSON "high-surrogate escape is not followed by a low surrogate")
                                           else validateSurrogateEscapes true r3
                                       | None => Fail (ErrJSON "high-surrogate escape is not followed by a low surrogate")
                                       end
                              | _ => Fail (ErrJSON "unpaired high-surrogate escape")
                              end
                     end
                 | _ => Fail (ErrJSON "truncated Unicode escape")
                 end
        end
      else validateSurrogateEscapes true r
  end.

Record Document : Type := mkDocument { doc_value : json; doc_canonical : option bytes }.

(** The fuel of the parser: every value and every turn of a loop consumes at
    least one byte. *)
Definition parse_fuel (input : bytes) : nat := 2 * length input + 2.

Definition Parse (input : bytes) : result json_error Document :=
  fail_if (MaxDocumentBytes <? len input) (ErrJSON "document exceeds the limit");;
  fail_if (negb (utf8.Valid input)) (ErrJSON "input is not valid UTF-8");;
  validateSurrogateEscapes false input;;
  '(value, d) ← parseValue (parse_fuel input) (mkDecoder input TopValue []) 0;
  match Token d with
  | Fail ErrEOF =>
      let canonical := marshal value in
      fail_if (MaxCanonicalBytes <? len canonical) (ErrJSON "canonical document exceeds the limit");;
      Ok (mkDocument value (Some canonical))
  | Fail e => Fail e
  | Ok _ => Fail (ErrJSON "multiple JSON values")
  end.

Definition Document_Bytes (d : Document) : bytes := default (lit "null") (doc_canonical d).
Definition jsondoc_Canonicalize (input : bytes) : result json_error bytes := document ← Parse input; Ok (Document_Bytes document).
Definition jsondoc_Validate (input : bytes) : result json_error unit := Parse input;; Ok tt.

(** [cloneValue] builds a value of its own with the same contents. *)
Fixpoint cloneValue (v : json) : json :=
  match v with
  | JArray items => JArray (map cloneValue items)
  | JObject fields => JObject (map (fun kv => (fst kv, cloneValue (snd kv))) fields)
  | v => v
  end.
Definition Document_Value (d : Document) : json := cloneValue (doc_value d).
