(* ===== verification/JsondocText.v ===== *)
(** Strings and numbers of JSON documents: what the encoder writes is scanned
    and decoded back, and decoded text is valid UTF-8. *)

From Stdlib Require Import ZArith Lia.
From stdpp Require Import base list.
From S2P Require Import Prelude GoStd Jsondoc.

Local Open Scope Z_scope.

(** ** One byte *)

(** The raw text with a front that was scanned before it. *)
Definition keep (bs : bytes) (m : option (bytes * bytes)) : option (bytes * bytes) :=
  match m with Some (raw, rest) => Some (bs ++ raw, rest) | None => None end.

Lemma keep_app a b m : keep a (keep b m) = keep (a ++ b) m.
Proof. destruct m as [[raw rest]|]; [|done]. cbn. by rewrite app_assoc. Qed.

Lemma escape_scans b t : scan_string (escape_byte b ++ t) = keep (escape_byte b) (scan_string t).
Proof. by destruct b. Qed.

Lemma escape_unquotes b t : unquote (escape_byte b ++ t) = b :: unquote t.
Proof. by destruct b. Qed.

Lemma escape_pairs b t : validateSurrogateEscapes true (escape_byte b ++ t) = validateSurrogateEscapes true t.
Proof. by destruct b. Qed.

Lemma escape_valid b t : u8 b < 0x80 -> utf8.Valid (escape_byte b ++ t) = utf8.Valid t.
Proof. by destruct b. Qed.

Lemma ascii_valid b t : u8 b < 0x80 -> utf8.Valid (b :: t) = utf8.Valid t.
Proof. intros H. cbn. by rewrite (proj2 (Z.ltb_lt _ _) H). Qed.

(** Bytes of longer characters. *)
Definition high (b : byte) : Prop := 0x80 <= u8 b.

Lemma high_scans b t : high b -> scan_string (b :: t) = keep [b] (scan_string t).
Proof. unfold high. by destruct b. Qed.

Lemma high_unquotes b t : high b -> unquote (b :: t) = b :: unquote t.
Proof. unfold high. by destruct b. Qed.

Lemma highs_scan g t : Forall high g -> scan_string (g ++ t) = keep g (scan_string t).
Proof.
  induction 1 as [|b g Hb Hg IH]; cbn [app]; [by destruct (scan_string t) as [[]|]|]. by rewrite high_scans, IH, keep_app.
Qed.

Lemma highs_unquote g t : Forall high g -> unquote (g ++ t) = g ++ unquote t.
Proof. induction 1 as [|b g Hb Hg IH]; [done|]. cbn [app]. by rewrite high_unquotes, IH. Qed.

(** ** Characters of valid text *)

Lemma between_range lo hi b : utf8.between lo hi b = true <-> lo <= u8 b <= hi.
Proof. unfold utf8.between. rewrite andb_true_iff, Z.leb_le, Z.leb_le. lia. Qed.

(** ** Quoting *)

Lemma quote_high b r : high b -> b <> xe2 -> quote_body (b :: r) = b :: quote_body r.
Proof. unfold high. intros H Hne. destruct b; try done. Qed.

Lemma quote_e2 b1 b2 r : ~ (b1 = x80 /\ (b2 = xa8 \/ b2 = xa9)) -> quote_body (xe2 :: b1 :: b2 :: r) = xe2 :: quote_body (b1 :: b2 :: r).
Proof. intros H. destruct b1; try reflexivity. destruct b2; try reflexivity; exfalso; apply H; auto. Qed.

(** U+2028 and U+2029, and the other longer characters. *)
Definition separator (g : bytes) : Prop := g = [xe2; x80; xa8] \/ g = [xe2; x80; xa9].
Definition copied (g : bytes) : Prop := forall r, quote_body (g ++ r) = g ++ quote_body r.

Lemma long_copied b0 b1 b2 : high b0 -> high b1 -> high b2 -> b1 <> xe2 -> b2 <> xe2 -> separator [b0; b1; b2] \/ copied [b0; b1; b2].
Proof.
  intros H0 H1 H2 N1 N2. destruct (decide (b0 = xe2)) as [->|N0].
  - destruct (decide (b1 = x80 /\ (b2 = xa8 \/ b2 = xa9))) as [[-> [-> | ->]]|Hn]; [by left; left|by left; right|]. right. intros r. cbn [app]. by rewrite quote_e2, !quote_high.
  - right. intros r. cbn [app]. by rewrite !quote_high.
Qed.

Lemma quote_cases b r : (exists g r', b :: r = g ++ r' /\ separator g) \/ quote_body (b :: r) = escape_byte b ++ quote_body r.
Proof.
  destruct b; try (right; reflexivity). destruct r as [|c r]; [right; reflexivity|]. destruct c; try (right; reflexivity). destruct r as [|e r]; [right; reflexivity|].
  destruct e; try (right; reflexivity); left; eexists [_; _; _], r; (split; [reflexivity|]); first [by left|by right].
Qed.

Lemma quote_body_ind (P : bytes -> Prop) : P [] -> (forall g r, separator g -> P r -> P (g ++ r)) ->
  (forall b r, quote_body (b :: r) = escape_byte b ++ quote_body r -> P r -> P (b :: r)) -> forall s, P s.
Proof.
  intros H0 H1 H2 s. induction s as [s IH] using (induction_ltof1 _ (@length _)). unfold ltof in IH. destruct s as [|b r]; [done|].
  destruct (quote_cases b r) as [(g & r' & E & Hg)|E].
  - rewrite E in *. apply H1; [done|]. apply IH. rewrite length_app. destruct Hg as [-> | ->]; cbn; lia.
  - apply H2; [done|]. apply IH. cbn. lia.
Qed.

Lemma quote_scans s rest : scan_string (quote_body s ++ x22 :: rest) = Some (quote_body s, rest).
Proof.
  induction s as [|g r [-> | ->] IH|b r E IH] using quote_body_ind; [done| | |].
  - change (quote_body ([xe2; x80; xa8] ++ r)) with (lit "\u2028" ++ quote_body r). rewrite <- app_assoc. cbn. cbn in IH. by rewrite IH.
  - change (quote_body ([xe2; x80; xa9] ++ r)) with (lit "\u2029" ++ quote_body r). rewrite <- app_assoc. cbn. cbn in IH. by rewrite IH.
  - by rewrite E, <- app_assoc, escape_scans, IH.
Qed.

Lemma quote_unquotes s : unquote (quote_body s) = s.
Proof.
  induction s as [|g r [-> | ->] IH|b r E IH] using quote_body_ind; [done| | |].
  - change (xe2 :: x80 :: xa8 :: unquote (quote_body r) = xe2 :: x80 :: xa8 :: r). by rewrite IH.
  - change (xe2 :: x80 :: xa9 :: unquote (quote_body r) = xe2 :: x80 :: xa9 :: r). by rewrite IH.
  - by rewrite E, escape_unquotes, IH.
Qed.

Lemma quote_pairs s rest : validateSurrogateEscapes true (quote_body s ++ x22 :: rest) = validateSurrogateEscapes false rest.
Proof.
  induction s as [|g r [-> | ->] IH|b r E IH] using quote_body_ind; [done|exact IH|exact IH|]. by rewrite E, <- app_assoc, escape_pairs.
Qed.

(** ** Characters of valid text *)

(** Valid text starts with a byte below 0x80 or a longer character. *)
Inductive characters : bytes -> Prop :=
| ch_nil : characters []
| ch_ascii b r : u8 b < 0x80 -> utf8.Valid r = true -> characters (b :: r)
| ch_long g r : g <> [] -> Forall high g -> separator g \/ copied g -> (forall t, utf8.Valid (g ++ t) = utf8.Valid t) -> utf8.Valid r = true -> characters (g ++ r).

Lemma cont_high b : utf8.cont b = true -> high b /\ b <> xe2.
Proof. unfold utf8.cont. intros H%between_range. split; [unfold high; lia|]. intros ->. change (u8 xe2) with 226 in H. lia. Qed.

Lemma valid_characters l : utf8.Valid l = true -> characters l.
Proof.
  destruct l as [|b0 r0]; [constructor|]. cbn [utf8.Valid]. destruct (Z.ltb_spec (u8 b0) 0x80) as [H0|H0]; [by constructor|].
  destruct (utf8.between 0xC2 0xDF b0) eqn:H1.
  { destruct r0 as [|b1 r1]; [done|]. intros [Hc Hv]%andb_true_iff. destruct (cont_high b1 Hc) as [Hh Hn]. assert (b0 <> xe2) as Hn0 by (intros ->; by vm_compute in H1).
    apply (ch_long [b0; b1] r1); [done|by repeat constructor| | |done].
    - right. intros r. cbn [app]. by rewrite !quote_high.
    - intros t. cbn. by rewrite (proj2 (Z.ltb_ge _ _) H0), H1, Hc. }
  destruct (utf8.between 0xE0 0xEF b0) eqn:H2.
  { destruct r0 as [|b1 [|b2 r2]]; [done..|]. intros [[Hb Hc]%andb_true_iff Hv]%andb_true_iff. destruct (cont_high b2 Hc) as [Hh2 Hn2].
    assert (high b1 /\ b1 <> xe2) as [Hh1 Hn1]. { apply cont_high. unfold utf8.cont. apply between_range in Hb. apply between_range. destruct (u8 b0 =? 0xE0), (u8 b0 =? 0xED); lia. }
    apply (ch_long [b0; b1; b2] r2); [done|by repeat constructor|by apply long_copied| |done].
    intros t. cbn. by rewrite (proj2 (Z.ltb_ge _ _) H0), H1, H2, Hb, Hc. }
  destruct (utf8.between 0xF0 0xF4 b0) eqn:H3; [|done].
  destruct r0 as [|b1 [|b2 [|b3 r3]]]; [done..|]. intros [[[Hb Hc]%andb_true_iff Hc']%andb_true_iff Hv]%andb_true_iff.
  destruct (cont_high b2 Hc) as [Hh2 Hn2]. destruct (cont_high b3 Hc') as [Hh3 Hn3]. assert (b0 <> xe2) as Hn0 by (intros ->; by vm_compute in H3).
  assert (high b1 /\ b1 <> xe2) as [Hh1 Hn1]. { apply cont_high. unfold utf8.cont. apply between_range in Hb. apply between_range. destruct (u8 b0 =? 0xF0), (u8 b0 =? 0xF4); lia. }
  apply (ch_long [b0; b1; b2; b3] r3); [done|by repeat constructor| | |done].
  - right. intros r. cbn [app]. by rewrite !quote_high.
  - intros t. cbn. by rewrite (proj2 (Z.ltb_ge _ _) H0), H1, H2, H3, Hb, Hc, Hc'.
Qed.

(** Induction over the characters of valid text. *)
Lemma valid_ind (P : bytes -> Prop) : P [] -> (forall b r, u8 b < 0x80 -> utf8.Valid r = true -> P r -> P (b :: r)) ->
  (forall g r, g <> [] -> Forall high g -> separator g \/ copied g -> (forall t, utf8.Valid (g ++ t) = utf8.Valid t) -> utf8.Valid r = true -> P r -> P (g ++ r)) ->
  forall l, utf8.Valid l = true -> P l.
Proof.
  intros H0 H1 H2 l. induction l as [l IH] using (induction_ltof1 _ (@length _)). unfold ltof in IH. intros Hv.
  destruct (valid_characters l Hv) as [|b r Hb Hr|g r Hne Hg Hq Ht Hr]; [done|apply H1|apply H2]; try done; apply IH; try done.
  - cbn. lia.
  - rewrite length_app. destruct g; [done|]. cbn. lia.
Qed.

Lemma valid_app a b : utf8.Valid a = true -> utf8.Valid (a ++ b) = utf8.Valid b.
Proof.
  revert a. apply valid_ind; [done| |].
  - intros c r Hc _ IH. cbn [app]. by rewrite ascii_valid.
  - intros g r _ _ _ Ht _ IH. by rewrite <- app_assoc, Ht.
Qed.

Lemma quote_valid s t : utf8.Valid s = true -> utf8.Valid (quote_body s ++ t) = utf8.Valid t.
Proof.
  revert s. apply valid_ind; [done| |].
  - intros b r Hb _ IH. assert (quote_body (b :: r) = escape_byte b ++ quote_body r) as ->.
    { destruct (quote_cases b r) as [(g & r' & E & [-> | ->])|E]; [..|done]; injection E as -> _; by vm_compute in Hb. }
    by rewrite <- app_assoc, escape_valid.
  - intros g r _ _ [[-> | ->]|Hc] Ht _ IH; [exact IH|exact IH|]. by rewrite Hc, <- app_assoc, Ht.
Qed.

(** ** Scanned strings *)

(** The raw text the scanner lets through. *)
Inductive scanned : bytes -> Prop :=
| sc_nil : scanned []
| sc_plain b r : u8 b <> 0x22 -> u8 b <> 0x5c -> scanned r -> scanned (b :: r)
| sc_escape e r : u8 e < 0x80 -> u8 e <> 0x75 -> scanned r -> scanned (x5c :: e :: r)
| sc_hex h1 h2 h3 h4 code r : parseHexQuad [h1; h2; h3; h4] = Some code -> scanned r -> scanned (x5c :: x75 :: h1 :: h2 :: h3 :: h4 :: r).

Lemma hex_digit_ascii b d : hex_digit b = Some d -> u8 b < 0x80 /\ 0 <= d < 16.
Proof.
  unfold hex_digit, is_digit. intros H. destruct ((0x30 <=? u8 b) && (u8 b <=? 0x39)) eqn:H1; [injection H as <-; bool_to_prop; lia|].
  destruct ((0x61 <=? u8 b) && (u8 b <=? 0x66)) eqn:H2; [injection H as <-; bool_to_prop; lia|].
  destruct ((0x41 <=? u8 b) && (u8 b <=? 0x46)) eqn:H3; [injection H as <-; bool_to_prop; lia|done].
Qed.

Lemma hex_quad h1 h2 h3 h4 code : parseHexQuad [h1; h2; h3; h4] = Some code ->
  (u8 h1 < 0x80 /\ u8 h2 < 0x80 /\ u8 h3 < 0x80 /\ u8 h4 < 0x80) /\ 0 <= code < 65536.
Proof.
  unfold parseHexQuad. cbn. destruct (hex_digit h1) as [d1|] eqn:E1; [|done]. destruct (hex_digit h2) as [d2|] eqn:E2; [|done].
  destruct (hex_digit h3) as [d3|] eqn:E3; [|done]. destruct (hex_digit h4) as [d4|] eqn:E4; [|done]. intros [= <-].
  apply hex_digit_ascii in E1, E2, E3, E4. split; [lia|]. apply Z.mod_pos_bound. lia.
Qed.

Lemma hex_valid h1 h2 h3 h4 code r : parseHexQuad [h1; h2; h3; h4] = Some code -> utf8.Valid (h1 :: h2 :: h3 :: h4 :: r) = utf8.Valid r.
Proof. intros [(A1 & A2 & A3 & A4) _]%hex_quad. by rewrite !ascii_valid. Qed.

Lemma scan_ascii b r : u8 b < 0x80 -> scan_string (b :: r) =
  if u8 b =? 0x22 then Some ([], r) else if u8 b <? 0x20 then None
  else if u8 b =? 0x5c then
    match r with
    | [] => None
    | e :: r1 =>
        if existsb (fun c => u8 e =? c) [0x62; 0x66; 0x6e; 0x72; 0x74; 0x5c; 0x2f; 0x22] then keep [b; e] (scan_string r1)
        else if u8 e =? 0x75 then
          match r1 with
          | h1 :: h2 :: h3 :: h4 :: r2 =>
              match parseHexQuad [h1; h2; h3; h4] with Some _ => keep [b; e; h1; h2; h3; h4] (scan_string r2) | None => None end
          | _ => None
          end
        else None
    end
  else keep [b] (scan_string r).
Proof. done. Qed.

Lemma keep_Some bs m raw rest : keep bs m = Some (raw, rest) -> exists raw', m = Some (raw', rest) /\ raw = bs ++ raw'.
Proof. destruct m as [[raw' rest']|]; [|done]. intros [= <- <-]. eauto. Qed.

Lemma byte_is b c : u8 b = u8 c -> b = c.
Proof. intros E. by rewrite <- (byte_of_u8 b), <- (byte_of_u8 c), E. Qed.

Lemma scan_scanned l : utf8.Valid l = true -> forall raw rest, scan_string l = Some (raw, rest) ->
  scanned raw /\ utf8.Valid raw = true /\ utf8.Valid rest = true /\ (length rest < length l)%nat.
Proof.
  induction l as [l IH] using (induction_ltof1 _ (@length _)). unfold ltof in IH. intros Hv raw rest.
  destruct (valid_characters l Hv) as [|b r Hb Hr|g r Hne Hg _ Ht Hr]; [done| |].
  - rewrite scan_ascii by done. destruct (Z.eqb_spec (u8 b) 0x22) as [|Hq]; [intros [= <- <-]; split_and!; [constructor|done|done|cbn; lia]|].
    destruct (u8 b <? 0x20); [done|]. destruct (Z.eqb_spec (u8 b) 0x5c) as [Hs|Hs].
    + apply (byte_is b x5c) in Hs as ->. destruct r as [|e r1]; [done|]. destruct (existsb _ _) eqn:He.
      * intros (raw' & Hsc & ->)%keep_Some. assert (u8 e < 0x80 /\ u8 e <> 0x75) as [Ha Hu].
        { apply existsb_exists in He as (c & Hc & E%Z.eqb_eq). cbn in Hc. intuition lia. }
        rewrite ascii_valid in Hr by done. destruct (IH r1 ltac:(cbn; lia) Hr raw' rest Hsc) as (P1 & P2 & P3 & P4).
        split_and!; [by apply sc_escape|cbn [app]; by rewrite ascii_valid, ascii_valid|done|cbn; lia].
      * destruct (Z.eqb_spec (u8 e) 0x75) as [He'|]; [|done]. apply (byte_is e x75) in He' as ->.
        destruct r1 as [|h1 [|h2 [|h3 [|h4 r2]]]]; try done. destruct (parseHexQuad [h1; h2; h3; h4]) as [code|] eqn:Hh; [|done].
        intros (raw' & Hsc & ->)%keep_Some. rewrite ascii_valid in Hr by done. rewrite (hex_valid _ _ _ _ _ _ Hh) in Hr.
        destruct (IH r2 ltac:(cbn; lia) Hr raw' rest Hsc) as (P1 & P2 & P3 & P4).
        split_and!; [by apply (sc_hex h1 h2 h3 h4 code)| |done|cbn; lia]. cbn [app]. rewrite !(ascii_valid _ (_ :: _)) by done. by rewrite (hex_valid _ _ _ _ _ _ Hh).
    + intros (raw' & Hsc & ->)%keep_Some. destruct (IH r ltac:(cbn; lia) Hr raw' rest Hsc) as (P1 & P2 & P3 & P4).
      split_and!; [by apply sc_plain|cbn [app]; by rewrite ascii_valid|done|cbn; lia].
  - rewrite highs_scan by done. intros (raw' & Hsc & ->)%keep_Some.
    assert (length r < length (g ++ r))%nat as Hlt by (rewrite length_app; destruct g; [done|cbn; lia]).
    destruct (IH r Hlt Hr raw' rest Hsc) as (P1 & P2 & P3 & P4). split_and!; [|by rewrite Ht|done|lia].
    clear -Hg P1. induction Hg as [|b g Hb Hg IHg]; [done|]. cbn [app]. unfold high in Hb. constructor; [lia|lia|done].
Qed.

(** ** Encoded characters *)

Lemma encode_rune_valid c t : 0 <= c < 0x110000 -> isHighSurrogate c = false -> isLowSurrogate c = false -> utf8.Valid (encode_rune c ++ t) = utf8.Valid t.
Proof.
  intros Hc Hh Hl. unfold isHighSurrogate, isLowSurrogate in *. unfold encode_rune.
  assert (forall z, 0 <= z < 256 -> u8 (byte_of z) = z) as Hu by (intros z Hz; rewrite u8_byte_of; by apply Z.mod_small).
  assert (forall z, utf8.cont (byte_of (0x80 + z mod 64)) = true) as Hcont.
  { intros z. unfold utf8.cont. apply between_range. pose proof (Z.mod_pos_bound z 64 ltac:(lia)). rewrite Hu; lia. }
  destruct (Z.ltb_spec c 0x80); [apply ascii_valid; rewrite Hu; lia|].
  destruct (Z.ltb_spec c 0x800).
  { assert (2 <= c / 64 < 32) as Hd by (split; [apply Z.div_le_lower_bound|apply Z.div_lt_upper_bound]; lia). cbn [app utf8.Valid]. rewrite Hu by lia.
    rewrite (proj2 (Z.ltb_ge (0xc0 + c / 64) 0x80)) by lia. rewrite (proj2 (between_range 0xC2 0xDF _)) by (rewrite Hu; lia). by rewrite Hcont. }
  destruct (Z.ltb_spec c 0x10000).
  { assert (0 <= c / 4096 < 16) as Hd by (split; [apply Z.div_le_lower_bound|apply Z.div_lt_upper_bound]; lia). cbn [app utf8.Valid]. rewrite Hu by lia.
    rewrite (proj2 (Z.ltb_ge (0xe0 + c / 4096) 0x80)) by lia.
    rewrite (proj1 (not_true_iff_false (utf8.between 0xC2 0xDF _))) by (rewrite between_range, Hu; lia). rewrite (proj2 (between_range 0xE0 0xEF _)) by (rewrite Hu; lia).
    rewrite Hcont. assert (utf8.between (if 0xe0 + c / 4096 =? 0xE0 then 0xA0 else 0x80) (if 0xe0 + c / 4096 =? 0xED then 0x9F else 0xBF) (byte_of (0x80 + c / 64 mod 64)) = true) as ->; [|done].
    apply between_range. pose proof (Z.mod_pos_bound (c / 64) 64 ltac:(lia)) as Hm. rewrite Hu by lia.
    assert (c / 4096 = c / 64 / 64) as E by (by rewrite Z.div_div by lia). pose proof (Z.div_mod (c / 64) 64 ltac:(lia)) as Hdm. rewrite <- E in Hdm.
    assert (c / 64 >= 32 /\ (c / 64 < 0x360 \/ 0x380 <= c / 64)) as Hr.
    { split; [apply Z.le_ge, Z.div_le_lower_bound; lia|]. apply andb_false_iff in Hh, Hl. assert (c < 0xd800 \/ 0xe000 <= c) as [Hx|Hx] by (destruct Hh as [Hh%Z.leb_gt|Hh%Z.leb_gt], Hl as [Hl%Z.leb_gt|Hl%Z.leb_gt]; lia).
      - left. apply Z.div_lt_upper_bound; lia.
      - right. apply Z.div_le_lower_bound; lia. }
    destruct (Z.eqb_spec (0xe0 + c / 4096) 0xE0), (Z.eqb_spec (0xe0 + c / 4096) 0xED); lia. }
  assert (0 <= c / 262144 < 5) as Hd by (split; [apply Z.div_le_lower_bound|apply Z.div_lt_upper_bound]; lia). cbn [app utf8.Valid]. rewrite Hu by lia.
  rewrite (proj2 (Z.ltb_ge (0xf0 + c / 262144) 0x80)) by lia.
  rewrite (proj1 (not_true_iff_false (utf8.between 0xC2 0xDF _))) by (rewrite between_range, Hu; lia).
  rewrite (proj1 (not_true_iff_false (utf8.between 0xE0 0xEF _))) by (rewrite between_range, Hu; lia). rewrite (proj2 (between_range 0xF0 0xF4 _)) by (rewrite Hu; lia).
  rewrite !Hcont. assert (utf8.between (if 0xf0 + c / 262144 =? 0xF0 then 0x90 else 0x80) (if 0xf0 + c / 262144 =? 0xF4 then 0x8F else 0xBF) (byte_of (0x80 + c / 4096 mod 64)) = true) as ->; [|done].
  apply between_range. pose proof (Z.mod_pos_bound (c / 4096) 64 ltac:(lia)) as Hm. rewrite Hu by lia.
  assert (c / 262144 = c / 4096 / 64) as E by (by rewrite Z.div_div by lia). pose proof (Z.div_mod (c / 4096) 64 ltac:(lia)) as Hdm. rewrite <- E in Hdm.
  assert (16 <= c / 4096 < 0x110) as Hr by (split; [apply Z.div_le_lower_bound|apply Z.div_lt_upper_bound]; lia).
  destruct (Z.eqb_spec (0xf0 + c / 262144) 0xF0), (Z.eqb_spec (0xf0 + c / 262144) 0xF4); lia.
Qed.

(** ** Decoded strings *)

Lemma unescape_ascii e : u8 e < 0x80 -> u8 (unescape e) < 0x80.
Proof. by destruct e. Qed.

Lemma replacement_valid t : utf8.Valid (encode_rune 0xfffd ++ t) = utf8.Valid t.
Proof. by apply encode_rune_valid. Qed.

Lemma pair_valid rr rr1 t : isHighSurrogate rr = true -> isLowSurrogate rr1 = true ->
  utf8.Valid (encode_rune (0x10000 + (rr - 0xd800) * 1024 + (rr1 - 0xdc00)) ++ t) = utf8.Valid t.
Proof.
  unfold isHighSurrogate, isLowSurrogate. intros H1 H2. bool_to_prop. apply encode_rune_valid; [lia| |]; unfold isHighSurrogate, isLowSurrogate; apply andb_false_iff; right; apply Z.leb_gt; lia.
Qed.

Lemma unquote_plain b r : u8 b <> 0x5c -> unquote (b :: r) = b :: unquote r.
Proof. intros H. cbn. by rewrite (proj2 (Z.eqb_neq _ _) H). Qed.

Lemma unquote_escape e r : u8 e <> 0x75 -> unquote (x5c :: e :: r) = unescape e :: unquote r.
Proof. intros H. cbn. by rewrite (proj2 (Z.eqb_neq _ _) H). Qed.

Lemma unquote_u h1 h2 h3 h4 r (rr := default 0 (parseHexQuad [h1; h2; h3; h4])) : unquote (x5c :: x75 :: h1 :: h2 :: h3 :: h4 :: r) =
  if isHighSurrogate rr then
    match r with
    | b' :: e' :: g1 :: g2 :: g3 :: g4 :: r3 =>
        let rr1 := default 0 (parseHexQuad [g1; g2; g3; g4]) in
        if (u8 b' =? 0x5c) && (u8 e' =? 0x75) && isLowSurrogate rr1
        then encode_rune (0x10000 + (rr - 0xd800) * 1024 + (rr1 - 0xdc00)) ++ unquote r3
        else encode_rune 0xfffd ++ unquote r
    | _ => encode_rune 0xfffd ++ unquote r
    end
  else encode_rune (if isLowSurrogate rr then 0xfffd else rr) ++ unquote r.
Proof. reflexivity. Qed.

(** An escape of four digits: a pair with the next one, or alone. *)
Lemma unquote_hex h1 h2 h3 h4 code r : parseHexQuad [h1; h2; h3; h4] = Some code -> scanned r ->
  (exists g1 g2 g3 g4 low r3, r = x5c :: x75 :: g1 :: g2 :: g3 :: g4 :: r3 /\ parseHexQuad [g1; g2; g3; g4] = Some low /\ scanned r3
     /\ isHighSurrogate code = true /\ isLowSurrogate low = true
     /\ unquote (x5c :: x75 :: h1 :: h2 :: h3 :: h4 :: r) = encode_rune (0x10000 + (code - 0xd800) * 1024 + (low - 0xdc00)) ++ unquote r3)
  \/ exists c, unquote (x5c :: x75 :: h1 :: h2 :: h3 :: h4 :: r) = encode_rune c ++ unquote r /\ 0 <= c < 0x110000 /\ isHighSurrogate c = false /\ isLowSurrogate c = false.
Proof.
  intros Hh Hr. pose proof (proj2 (hex_quad _ _ _ _ _ Hh)) as Hc. rewrite !unquote_u, !Hh. cbn [default from_option id].
  assert (forall l, exists c, encode_rune 0xfffd ++ unquote l = encode_rune c ++ unquote l /\ 0 <= c < 0x110000 /\ isHighSurrogate c = false /\ isLowSurrogate c = false) as Hrep by (intros l; by exists 0xfffd).
  destruct (isHighSurrogate code) eqn:Hhi.
  2:{ right. destruct (isLowSurrogate code) eqn:Hlo; [apply Hrep|]. exists code. split_and!; [done|lia|lia|done|done]. }
  destruct r as [|b' [|e' [|g1 [|g2 [|g3 [|g4 r3]]]]]]; try (right; apply Hrep).
  destruct ((u8 b' =? 0x5c) && (u8 e' =? 0x75) && isLowSurrogate (default 0 (parseHexQuad [g1; g2; g3; g4]))) eqn:Hp; [|right; apply Hrep].
  left. apply andb_true_iff in Hp as [[E1%Z.eqb_eq E2%Z.eqb_eq]%andb_true_iff Hlo]. apply (byte_is b' x5c) in E1 as ->. apply (byte_is e' x75) in E2 as ->.
  inversion Hr as [|? ? Hx Hy _|? ? Hx Hy _|? ? ? ? low ? Hg Hr3]; subst; [by destruct Hy|by destruct Hy|]. rewrite Hg in *. cbn [default from_option id] in *. by exists g1, g2, g3, g4, low, r3.
Qed.

Lemma unquote_valid raw : scanned raw -> utf8.Valid raw = true -> utf8.Valid (unquote raw) = true.
Proof.
  induction raw as [raw IH] using (induction_ltof1 _ (@length _)). unfold ltof in IH. intros Hs Hv.
  destruct (valid_characters _ Hv) as [|b r Hb Hr|g r Hne Hg _ Ht Hr]; [done| |].
  - inversion Hs as [|? ? Hq Hb' Hs'|e r' He Hu Hs'|h1 h2 h3 h4 code r' Hh Hs']; subst.
    + rewrite unquote_plain by done. rewrite ascii_valid by done. apply IH; [cbn; lia|done|done].
    + rewrite unquote_escape by done. rewrite ascii_valid by (by apply unescape_ascii). apply IH; [cbn; lia|done|]. by rewrite ascii_valid in Hr by done.
    + rewrite ascii_valid, (hex_valid _ _ _ _ _ _ Hh) in Hr by done. destruct (unquote_hex _ _ _ _ _ _ Hh Hs') as [(g1 & g2 & g3 & g4 & low & r3 & -> & Hg & Hs3 & Hhi & Hlo & ->)|(c & -> & Hc & Hhi & Hlo)].
      * rewrite pair_valid by done. apply IH; [cbn; lia|done|]. by rewrite !(ascii_valid _ (_ :: _)), (hex_valid _ _ _ _ _ _ Hg) in Hr by done.
      * rewrite encode_rune_valid by done. apply IH; [cbn; lia|done|done].
  - rewrite highs_unquote by done. rewrite Ht. apply IH; [rewrite length_app; destruct g; [done|cbn; lia]| |done].
    clear -Hs Hg. induction Hg as [|b g Hb Hg IHg]; [done|]. cbn [app] in Hs. apply IHg. inversion Hs; subst; [done|by vm_compute in Hb..].
Qed.

(** ** Numbers *)

Lemma number_step_ascii st b st' : number_step st b = Some st' -> u8 b < 0x80.
Proof. destruct st, b; try done. Qed.

Lemma scan_number_valid st l n rest : scan_number st l = Some (n, rest) -> utf8.Valid l = true -> utf8.Valid n = true /\ utf8.Valid rest = true /\ l = n ++ rest.
Proof.
  revert st n. induction l as [|b r IH]; intros st n; cbn [scan_number]; [destruct (number_ends st); [|done]; by intros [= <- <-]|].
  destruct (number_step st b) as [st'|] eqn:Hst; [|destruct (number_ends st); [|done]; by intros [= <- <-]].
  destruct (scan_number st' r) as [[n' rest']|] eqn:Hn; [|done]. intros [= <- <-] Hv. pose proof (number_step_ascii _ _ _ Hst) as Ha. rewrite ascii_valid in Hv by done.
  destruct (IH st' n' Hn Hv) as (H1 & H2 & H3). split_and!; [by rewrite ascii_valid|done|]. cbn. by f_equal.
Qed.

(** What follows a value inside a document. *)
Definition ends (rest : bytes) : Prop := match rest with [] => True | b :: _ => b = x2c \/ b = x5d \/ b = x7d end.

Lemma ends_number st rest : ends rest -> number_ends st = true -> scan_number st rest = Some ([], rest).
Proof. intros He Hs. destruct rest as [|b rest]; cbn; [by rewrite Hs|]. destruct He as [-> |[-> | ->]]; by destruct st. Qed.

Lemma scan_number_again st n rest : scan_number st n = Some (n, []) -> ends rest -> scan_number st (n ++ rest) = Some (n, rest).
Proof.
  revert st. induction n as [|b n IH]; intros st; cbn [scan_number app].
  - destruct (number_ends st) eqn:Hs; [|done]. intros _ He. by apply ends_number.
  - destruct (number_step st b) as [st'|]; [|destruct (number_ends st); done]. destruct (scan_number st' n) as [[n' rest']|] eqn:Hn; [|done]. intros [= -> ->] He. by rewrite (IH st').
Qed.

Lemma numberPattern_scans n : numberPattern n = true -> scan_number NBegin n = Some (n, []).
Proof.
  unfold numberPattern. destruct (scan_number NBegin n) as [[n' [|]]|] eqn:E; try done. intros _. enough (n = n') as -> by done. clear -E. revert E. generalize NBegin. revert n'.
  induction n as [|b n IH]; intros n' st; cbn.
  - destruct (number_ends st); [|done]. by intros [= <-].
  - destruct (number_step st b) as [st'|]; [|by destruct (number_ends st)]. destruct (scan_number st' n) as [[m rest]|] eqn:Hm; [|done]. intros [= <- ->]. f_equal. by apply (IH m st').
Qed.

Lemma number_valid n : numberPattern n = true -> utf8.Valid n = true.
Proof.
  intros H%numberPattern_scans. revert H. generalize NBegin. induction n as [|b n IH]; intros st; cbn [scan_number]; [done|].
  destruct (number_step st b) as [st'|] eqn:Hst; [|by destruct (number_ends st)]. destruct (scan_number st' n) as [[m rest]|] eqn:Hm; [|done]. intros [= -> ->].
  rewrite ascii_valid by (by apply (number_step_ascii st b st')). by apply (IH st').
Qed.

(** A number has no quote and does not start like anything else. *)
Lemma number_pairs n rest : numberPattern n = true -> validateSurrogateEscapes false (n ++ rest) = validateSurrogateEscapes false rest.
Proof.
  intros H%numberPattern_scans. revert H. generalize NBegin. induction n as [|b n IH]; intros st; cbn [scan_number app]; [done|].
  destruct (number_step st b) as [st'|] eqn:Hst; [|by destruct (number_ends st)]. destruct (scan_number st' n) as [[m rest']|] eqn:Hm; [|done]. intros [= -> ->].
  assert (u8 b =? 0x22 = false) as Hq by (destruct st, b; done). cbn [validateSurrogateEscapes negb]. rewrite Hq. by apply (IH st').
Qed.

Lemma number_head n : numberPattern n = true -> exists b r, n = b :: r /\ (b = x2d \/ is_digit b = true).
Proof.
  intros H%numberPattern_scans. destruct n as [|b r]; [done|]. exists b, r. split; [done|]. cbn [scan_number] in H.
  destruct (number_step NBegin b) eqn:Hst; [|done]. destruct b; try done; auto.
Qed.
