(* ===== verification/Codec.v ===== *)
(** [pkg/codec]: the versioned, memcomparable tuple encoding of persistent
    keys.  The operations follow [codec.go]; the theorems show that encoding
    and decoding are mutually inverse, that the size and component limits are
    exactly those of the format, and that byte order on encodings is value
    order on tuples. *)

From Stdlib Require Import ZArith Lia Wf_nat.
From stdpp Require Import base list.
From S2P Require Import Prelude GoStd.

Local Open Scope Z_scope.

Definition formatVersion : byte := x01.
Definition MaxComponents : Z := 128.
Definition MaxTupleBytes : Z := 2 ^ 20.
Definition int64SignMask : Z := 2 ^ 63.

(** [type Kind byte]: any byte can occur in memory, five are persisted. *)
Abbreviation Kind := byte.
Definition InvalidKind : Kind := x00.
Definition BytesKind : Kind := x01.
Definition StringKind : Kind := x02.
Definition Int64Kind : Kind := x03.
Definition Uint64Kind : Kind := x04.
Definition BoolKind : Kind := x05.

(** One constructor per error message of the package. *)
Inductive codec_error : Type :=
| ErrBytesCannotFit
| ErrStringCannotFit
| ErrStringNotUTF8
| ErrNotOfKind (got want : Kind)
| ErrInvalidInt64
| ErrInvalidUint64
| ErrInvalidBool
| ErrTooManyComponents
| ErrTupleTooLarge
| ErrVersionOrLength
| ErrTrailingBytes
| ErrComponentNotUTF8
| ErrTruncatedNumeric
| ErrUnknownKind (k : Kind)
| ErrMissingTerminator
| ErrNumericWidth
| ErrBoolValue
| ErrUnterminated
| ErrInvalidEscape.

Record Component : Type := mkComponent {
  kind : Kind;
  data : bytes;
  err : option codec_error
}.

(** ** Size checks *)

(** The loop of [checkVariableBytesBudget]: does the escaped source run past
    the space left for the two terminators? *)
Fixpoint budget_exceeded (encodedLen : Z) (source : bytes) : bool :=
  match source with
  | [] => false
  | b :: source' =>
      let encodedLen := encodedLen + 1 in
      let encodedLen := if bool_decide (b = x00) then encodedLen + 1 else encodedLen in
      if MaxTupleBytes - 3 <? encodedLen then true
      else budget_exceeded encodedLen source'
  end.

Definition checkVariableBytesBudget (encodedLen : Z) (source : bytes)
    : result codec_error unit :=
  fail_if (MaxTupleBytes - encodedLen - 4 <? len source) ErrTupleTooLarge;;
  fail_if (budget_exceeded (encodedLen + 1) source) ErrTupleTooLarge.

(** The same check on a Go string, which is a sequence of bytes as well. *)
Definition checkVariableStringBudget (encodedLen : Z) (source : bytes)
    : result codec_error unit :=
  fail_if (MaxTupleBytes - encodedLen - 4 <? len source) ErrTupleTooLarge;;
  fail_if (budget_exceeded (encodedLen + 1) source) ErrTupleTooLarge.

(** ** Constructors *)

Definition bytesChecked (value : bytes) : result codec_error Component :=
  match checkVariableBytesBudget 1 value with
  | Fail _ => Fail ErrBytesCannotFit
  | Ok _ => Ok (mkComponent BytesKind value None)
  end.

Definition BytesChecked (value : bytes) : result codec_error Component := bytesChecked value.

Definition Bytes (value : bytes) : Component :=
  match bytesChecked value with
  | Fail e => mkComponent InvalidKind [] (Some e)
  | Ok c => c
  end.

Definition String (value : bytes) : result codec_error Component :=
  match checkVariableStringBudget 1 value with
  | Fail _ => Fail ErrStringCannotFit
  | Ok _ =>
      if negb (utf8.Valid value) then Fail ErrStringNotUTF8
      else Ok (mkComponent StringKind value None)
  end.

Definition Int64 (value : Z) : Component :=
  mkComponent Int64Kind (be 8 (Z.lxor (uint64 value) int64SignMask)) None.

Definition Uint64 (value : Z) : Component :=
  mkComponent Uint64Kind (be 8 value) None.

Definition Bool (value : bool) : Component :=
  if value then mkComponent BoolKind [x01] None
  else mkComponent BoolKind [x00] None.

(** ** Validation and accessors *)

Definition validate (c : Component) : result codec_error unit :=
  match err c with
  | Some e => Fail e
  | None =>
      match kind c with
      | x01 => checkVariableBytesBudget 1 (data c)
      | x02 =>
          if negb (utf8.Valid (data c)) then Fail ErrStringNotUTF8
          else checkVariableBytesBudget 1 (data c)
      | x03 | x04 => fail_if (negb (len (data c) =? 8)) ErrNumericWidth
      | x05 =>
          match data c with
          | [b] => fail_if (1 <? u8 b) ErrBoolValue
          | _ => Fail ErrBoolValue
          end
      | k => Fail (ErrUnknownKind k)
      end
  end.

Definition Component_Err (c : Component) : option codec_error :=
  match validate c with Ok _ => None | Fail e => Some e end.

Definition Component_Valid (c : Component) : bool :=
  match Component_Err c with None => true | Some _ => false end.

Definition Component_Kind (c : Component) : Kind :=
  match Component_Err c with Some _ => InvalidKind | None => kind c end.

Definition Component_Bytes (c : Component) : result codec_error bytes :=
  match err c with
  | Some e => Fail e
  | None =>
      if negb (bool_decide (kind c = BytesKind)) then Fail (ErrNotOfKind (kind c) BytesKind)
      else Ok (data c)
  end.

Definition Component_Text (c : Component) : result codec_error bytes :=
  match err c with
  | Some e => Fail e
  | None =>
      if negb (bool_decide (kind c = StringKind)) then Fail (ErrNotOfKind (kind c) StringKind)
      else Ok (data c)
  end.

Definition Component_Int64 (c : Component) : result codec_error Z :=
  match err c with
  | Some e => Fail e
  | None =>
      if negb (bool_decide (kind c = Int64Kind)) then Fail (ErrNotOfKind (kind c) Int64Kind)
      else if negb (len (data c) =? 8) then Fail ErrInvalidInt64
      else Ok (int64 (Z.lxor (un_be (data c)) int64SignMask))
  end.

Definition Component_Uint64 (c : Component) : result codec_error Z :=
  match err c with
  | Some e => Fail e
  | None =>
      if negb (bool_decide (kind c = Uint64Kind)) then Fail (ErrNotOfKind (kind c) Uint64Kind)
      else if negb (len (data c) =? 8) then Fail ErrInvalidUint64
      else Ok (un_be (data c))
  end.

Definition Component_Bool (c : Component) : result codec_error bool :=
  match err c with
  | Some e => Fail e
  | None =>
      if negb (bool_decide (kind c = BoolKind)) then Fail (ErrNotOfKind (kind c) BoolKind)
      else match data c with
           | [b] => if 1 <? u8 b then Fail ErrInvalidBool else Ok (u8 b =? 1)
           | _ => Fail ErrInvalidBool
           end
  end.

(** [Equal]: identical canonical values; an invalid component equals nothing. *)
Definition Equal (a b : Component) : bool :=
  if negb (Component_Valid a) || negb (Component_Valid b) then false
  else bool_decide (kind a = kind b) && beq (data a) (data b).

(** ** Encoding *)

Definition checkComponentBudget (encodedLen : Z) (c : Component) : result codec_error unit :=
  fail_if ((encodedLen <? 1) || (MaxTupleBytes <? encodedLen)) ErrTupleTooLarge;;
  if bool_decide (kind c = BytesKind) || bool_decide (kind c = StringKind)
  then checkVariableBytesBudget encodedLen (data c)
  else fail_if (MaxTupleBytes - encodedLen - 2 <? len (data c)) ErrTupleTooLarge.

Fixpoint appendEscapedBounded (dst source : bytes) : result codec_error bytes :=
  match source with
  | [] =>
      fail_if (MaxTupleBytes - 3 <? len dst) ErrTupleTooLarge;;
      Ok (dst ++ [x00; x00])
  | b :: source' =>
      fail_if (MaxTupleBytes - 1 <=? len dst) ErrTupleTooLarge;;
      let dst := dst ++ [b] in
      if bool_decide (b = x00) then
        fail_if (MaxTupleBytes - 1 <=? len dst) ErrTupleTooLarge;;
        appendEscapedBounded (dst ++ [xff]) source'
      else appendEscapedBounded dst source'
  end.

(** The body of the loop of [EncodeTuple]. *)
Definition encode_component (encoded : bytes) (c : Component) : result codec_error bytes :=
  checkComponentBudget (len encoded) c;;
  validate c;;
  let encoded := encoded ++ [kind c] in
  match kind c with
  | x01 | x02 => appendEscapedBounded encoded (data c)
  | _ => Ok (encoded ++ data c)
  end.

Fixpoint encode_components (encoded : bytes) (cs : list Component) : result codec_error bytes :=
  match cs with
  | [] => Ok encoded
  | c :: cs' => e ← encode_component encoded c; encode_components e cs'
  end.

Definition EncodeTuple (components : list Component) : result codec_error bytes :=
  fail_if (MaxComponents <? len components) ErrTooManyComponents;;
  encoded ← encode_components [formatVersion] components;
  let encoded := encoded ++ [x00] in
  fail_if (MaxTupleBytes <? len encoded) ErrTupleTooLarge;;
  Ok encoded.

(** ** Decoding *)

(** [readEscaped] on the bytes from the current offset on; it returns the
    unescaped data and the bytes after the component terminator. *)
Fixpoint readEscaped (acc encoded : bytes) : result codec_error (bytes * bytes) :=
  match encoded with
  | [] => Fail ErrUnterminated
  | b :: rest =>
      if negb (bool_decide (b = x00)) then readEscaped (acc ++ [b]) rest
      else match rest with
           | [] => Fail ErrUnterminated
           | x00 :: rest' => Ok (acc, rest')
           | xff :: rest' => readEscaped (acc ++ [x00]) rest'
           | _ :: _ => Fail ErrInvalidEscape
           end
  end.

(** One component after its kind byte. *)
Definition decode_component (k : Kind) (rest : bytes) : result codec_error (Component * bytes) :=
  match k with
  | x01 | x02 =>
      '(d, next) ← readEscaped [] rest;
      if bool_decide (k = StringKind) && negb (utf8.Valid d) then Fail ErrComponentNotUTF8
      else Ok (mkComponent k d None, next)
  | x03 | x04 =>
      fail_if (len rest <? 8) ErrTruncatedNumeric;;
      Ok (mkComponent k (take 8 rest) None, drop 8 rest)
  | x05 =>
      match rest with
      | [] => Fail ErrInvalidBool
      | b :: next => if 1 <? u8 b then Fail ErrInvalidBool
                     else Ok (mkComponent k [b] None, next)
      end
  | _ => Fail (ErrUnknownKind k)
  end.

(** The loop of [DecodeTuple]: [rest] is [encoded[offset:]].  Every iteration
    consumes a byte, so the number of remaining bytes is fuel enough, and fuel
    runs out exactly when the loop condition fails. *)
Fixpoint decode_loop (fuel : nat) (components : list Component) (rest : bytes)
    : result codec_error (list Component) :=
  match fuel, rest with
  | S fuel', k :: rest' =>
      if bool_decide (k = x00) then
        match rest' with
        | [] => Ok components
        | _ :: _ => Fail ErrTrailingBytes
        end
      else
        fail_if (MaxComponents <=? len components) ErrTooManyComponents;;
        '(c, next) ← decode_component k rest';
        decode_loop fuel' (components ++ [c]) next
  | _, _ => Fail ErrMissingTerminator
  end.

Definition DecodeTuple (encoded : bytes) : result codec_error (list Component) :=
  match encoded with
  | v :: rest =>
      fail_if ((len encoded <? 2) || (MaxTupleBytes <? len encoded)
               || negb (bool_decide (v = formatVersion))) ErrVersionOrLength;;
      decode_loop (length rest) [] rest
  | [] => Fail ErrVersionOrLength
  end.

(** ** The format, as a specification *)

(** Zero bytes are followed by FF, so that 00 00 ends a variable component. *)
Fixpoint escape (l : bytes) : bytes :=
  match l with
  | [] => []
  | b :: l' => if bool_decide (b = x00) then x00 :: xff :: escape l' else b :: escape l'
  end.

Definition payload (c : Component) : bytes :=
  if bool_decide (kind c = BytesKind) || bool_decide (kind c = StringKind)
  then escape (data c) ++ [x00; x00] else data c.

Definition component_bytes (c : Component) : bytes := kind c :: payload c.
Definition components_bytes (cs : list Component) : bytes := concat (map component_bytes cs).
Definition tuple_bytes (cs : list Component) : bytes :=
  formatVersion :: components_bytes cs ++ [x00].

(** A component that carries no deferred error and whose data has the shape
    its kind asks for. *)
Definition shaped (c : Component) : Prop :=
  err c = None /\
  match kind c with
  | x01 => True
  | x02 => utf8.Valid (data c) = true
  | x03 | x04 => len (data c) = 8
  | x05 => data c = [x00] \/ data c = [x01]
  | _ => False
  end.

(** ** Size lemmas *)

Lemma len_escape_ge l : len l <= len (escape l).
Proof.
  induction l as [|b l IH]; simpl; [done|].
  case_bool_decide; autorewrite with len; lia.
Qed.

Lemma budget_exceeded_spec n l :
  budget_exceeded n l = false <-> l = [] \/ n + len (escape l) <= MaxTupleBytes - 3.
Proof.
  revert n. induction l as [|b l IH]; intros n; cbn [budget_exceeded escape]; [by split; auto|].
  case_bool_decide as Hb; (case Z.ltb_spec; intros Hlt); autorewrite with len;
    pose proof (len_nonneg (escape l)).
  - split; [done|]. intros [?|?]; [done|lia].
  - rewrite IH. split; [intros [->|?]; right; simpl; autorewrite with len; lia|].
    intros [?|?]; [done|]. right. lia.
  - split; [done|]. intros [?|?]; [done|lia].
  - rewrite IH. split; [intros [->|?]; right; simpl; autorewrite with len; lia|].
    intros [?|?]; [done|]. right. lia.
Qed.

Lemma checkVariableBytesBudget_spec n l u :
  checkVariableBytesBudget n l = Ok u <-> n + 1 + len (escape l) + 3 <= MaxTupleBytes.
Proof.
  unfold checkVariableBytesBudget. pose proof (len_escape_ge l) as Hge. split.
  - intros H. inv_res. apply budget_exceeded_spec in H. bool_to_prop.
    destruct H as [->|H]; [|lia]. autorewrite with len in *. simpl. lia.
  - intros H. rewrite fail_if_false by (apply Z.ltb_ge; lia).
    apply fail_if_Ok, budget_exceeded_spec. right. lia.
Qed.

Lemma appendEscapedBounded_spec dst l :
  appendEscapedBounded dst l =
  if len dst + len (escape l) + 3 <=? MaxTupleBytes
  then Ok (dst ++ escape l ++ [x00; x00]) else Fail ErrTupleTooLarge.
Proof.
  revert dst. induction l as [|b l IH]; intros dst; cbn [appendEscapedBounded escape].
  - rewrite len_nil. unfold fail_if.
    destruct (Z.ltb_spec (MaxTupleBytes - 3) (len dst)),
      (Z.leb_spec (len dst + 0 + 3) MaxTupleBytes); (done || lia).
  - pose proof (len_nonneg (escape l)). unfold fail_if.
    case_bool_decide as Hb; rewrite ?IH; autorewrite with len; rewrite <- ?app_assoc.
    + destruct (Z.leb_spec (MaxTupleBytes - 1) (len dst)),
        (Z.leb_spec (MaxTupleBytes - 1) (len dst + (1 + 0))),
        (Z.leb_spec (len dst + (1 + 0) + (1 + 0) + len (escape l) + 3) MaxTupleBytes),
        (Z.leb_spec (len dst + (1 + (1 + len (escape l))) + 3) MaxTupleBytes);
        subst b; (done || lia).
    + destruct (Z.leb_spec (MaxTupleBytes - 1) (len dst)),
        (Z.leb_spec (len dst + (1 + 0) + len (escape l) + 3) MaxTupleBytes),
        (Z.leb_spec (len dst + (1 + len (escape l)) + 3) MaxTupleBytes);
        (done || lia).
Qed.

(** [validate] accepts shaped components, and variable ones only if they fit a
    tuple of their own. *)
Lemma validate_spec c u :
  validate c = Ok u <->
  shaped c /\ (kind c = BytesKind \/ kind c = StringKind ->
               1 + len (component_bytes c) + 1 <= MaxTupleBytes).
Proof.
  destruct u. unfold validate, shaped, component_bytes, payload, BytesKind, StringKind.
  destruct (err c) as [e|]; [split; [done|by intros [[? ?] ?]]|].
  destruct (kind c) eqn:Hk; simpl; try (split; [done|by intros [[? ?] ?]]).
  - rewrite checkVariableBytesBudget_spec. autorewrite with len. split; [intros ?; split; [done|]; intros _; lia|].
    intros [_ H]. specialize (H (or_introl eq_refl)). lia.
  - destruct (utf8.Valid (data c)); simpl; [|split; [done|by intros [[? ?] ?]]].
    rewrite checkVariableBytesBudget_spec. autorewrite with len. split; [intros ?; split; [done|]; intros _; lia|].
    intros [_ H]. specialize (H (or_intror eq_refl)). lia.
  - rewrite fail_if_Ok, negb_false_iff, Z.eqb_eq. split; [|by intros [[? ?] ?]].
    intros ?. split; [done|]. by intros [?|?].
  - rewrite fail_if_Ok, negb_false_iff, Z.eqb_eq. split; [|by intros [[? ?] ?]].
    intros ?. split; [done|]. by intros [?|?].
  - split.
    + intros H. split; [split; [done|]|by intros [?|?]].
      destruct (data c) as [|b [|]]; try discriminate.
      apply fail_if_Ok, Z.ltb_ge in H. pose proof (u8_range b).
      assert (u8 b = 0 \/ u8 b = 1) as [Hb|Hb] by lia; [left|right]; f_equal; by apply (inj u8).
    + intros [[_ [-> | ->]] _]; done.
Qed.

Lemma payload_fixed c : ~ (kind c = BytesKind \/ kind c = StringKind) -> payload c = data c.
Proof.
  intros H. unfold payload.
  by rewrite !bool_decide_eq_false_2 by (intros ?; apply H; auto).
Qed.

Lemma encode_component_spec e c e' :
  1 <= len e ->
  encode_component e c = Ok e' <->
  shaped c /\ len e + len (component_bytes c) + 1 <= MaxTupleBytes /\
  e' = e ++ component_bytes c.
Proof.
  intros He. unfold encode_component, checkComponentBudget.
  destruct (decide (kind c = BytesKind \/ kind c = StringKind)) as [Hv|Hv].
  - assert (component_bytes c = kind c :: escape (data c) ++ [x00; x00]) as Hcb.
    { unfold component_bytes, payload. destruct Hv as [-> | ->]; done. }
    assert (bool_decide (kind c = BytesKind) || bool_decide (kind c = StringKind) = true) as ->.
    { by destruct Hv as [-> | ->]. }
    assert (forall A (x y : A), match kind c with x01 | x02 => x | _ => y end = x) as Hm.
    { by destruct Hv as [-> | ->]. }
    rewrite Hm, appendEscapedBounded_spec, Hcb. autorewrite with len. split.
    + intros H. inv_res. bool_to_prop. apply checkVariableBytesBudget_spec in Hr.
      apply validate_spec in Hr0 as [Hs _]. revert H. case Z.leb_spec; intros; inv_res.
      split; [done|]. split; [lia|]. by rewrite <- !app_assoc.
    + intros (Hs & Hl & ->). pose proof (len_nonneg (escape (data c))).
      rewrite fail_if_false by (apply orb_false_iff; rewrite !Z.ltb_ge; lia).
      rewrite (proj2 (checkVariableBytesBudget_spec _ _ tt)) by lia. simpl.
      rewrite (proj2 (validate_spec c tt)).
      { simpl. case Z.leb_spec; [by rewrite <- !app_assoc|lia]. }
      split; [done|]. intros _. rewrite Hcb. autorewrite with len. lia.
  - assert (component_bytes c = kind c :: data c) as Hcb.
    { unfold component_bytes. by rewrite payload_fixed. }
    assert (bool_decide (kind c = BytesKind) || bool_decide (kind c = StringKind) = false) as ->.
    { by rewrite !bool_decide_eq_false_2 by (intros ?; apply Hv; auto). }
    assert (forall A (x y : A), match kind c with x01 | x02 => x | _ => y end = y) as Hm.
    { intros. destruct (kind c); try done; destruct Hv; auto. }
    rewrite Hm, Hcb. cbv iota. autorewrite with len. split.
    + intros H. inv_res. bool_to_prop. apply validate_spec in Hr0 as [Hs _].
      split; [done|]. split; [lia|]. by rewrite <- !app_assoc.
    + intros (Hs & Hl & ->). pose proof (len_nonneg (data c)).
      rewrite fail_if_false by (apply orb_false_iff; rewrite !Z.ltb_ge; lia).
      rewrite fail_if_false by (apply Z.ltb_ge; lia).
      rewrite (proj2 (validate_spec c tt)) by (split; done). simpl.
      by rewrite <- !app_assoc.
Qed.

Lemma len_component_bytes_pos c : 1 <= len (component_bytes c).
Proof. unfold component_bytes. rewrite len_cons. pose proof (len_nonneg (payload c)). lia. Qed.

Lemma components_bytes_cons c cs :
  components_bytes (c :: cs) = component_bytes c ++ components_bytes cs.
Proof. done. Qed.

Lemma encode_components_spec e cs e' :
  1 <= len e ->
  encode_components e cs = Ok e' <->
  Forall shaped cs /\ (cs = [] \/ len e + len (components_bytes cs) + 1 <= MaxTupleBytes) /\
  e' = e ++ components_bytes cs.
Proof.
  revert e. induction cs as [|c cs IH]; intros e He.
  - cbn. rewrite app_nil_r. split; [intros [= ->]; auto|]. by intros (_ & _ & ->).
  - cbn [encode_components]. rewrite components_bytes_cons, len_app, Forall_cons.
    pose proof (len_component_bytes_pos c). pose proof (len_nonneg (components_bytes cs)).
    split.
    + intros H1. inv_res. apply encode_component_spec in Hr as (Hs & Hl & ->); [|done].
      apply IH in H1; [|rewrite len_app; lia]. destruct H1 as (Hf & Hor & ->).
      split; [done|]. split; [|by rewrite app_assoc]. right.
      destruct Hor as [->|Hor]; [change (components_bytes []) with (@nil byte); rewrite len_nil; lia|]. rewrite len_app in Hor. lia.
    + intros ([Hs Hf] & [?|Hl] & ->); [done|].
      assert (encode_component e c = Ok (e ++ component_bytes c)) as ->.
      { apply encode_component_spec; [done|]. split; [done|]. split; [lia|done]. }
      simpl. apply IH; [rewrite len_app; lia|]. split; [done|].
      split; [|by rewrite app_assoc]. right. rewrite len_app. lia.
Qed.

Lemma EncodeTuple_spec cs e :
  EncodeTuple cs = Ok e <->
  len cs <= MaxComponents /\ Forall shaped cs /\
  len (tuple_bytes cs) <= MaxTupleBytes /\ e = tuple_bytes cs.
Proof.
  unfold EncodeTuple, tuple_bytes. split.
  - intros H. inv_res. bool_to_prop.
    apply encode_components_spec in Hr0 as (Hs & _ & ->); [|done].
    simpl in *. autorewrite with len in *. done.
  - intros (Hc & Hs & Hl & ->). rewrite fail_if_false by (apply Z.ltb_ge; lia).
    autorewrite with len in Hl.
    rewrite (proj2 (encode_components_spec [formatVersion] cs
                      ([formatVersion] ++ components_bytes cs) ltac:(done))).
    { simpl. rewrite fail_if_false; [done|]. apply Z.ltb_ge. autorewrite with len. lia. }
    split; [done|]. split; [|done]. right. autorewrite with len. lia.
Qed.

(** ** Decoding lemmas *)

Lemma readEscaped_escape acc d r :
  readEscaped acc (escape d ++ x00 :: x00 :: r) = Ok (acc ++ d, r).
Proof.
  revert acc. induction d as [|b d IH]; intros acc; simpl; [by rewrite app_nil_r|].
  case_bool_decide as Hb; simpl.
  - rewrite IH, <- app_assoc. by subst b.
  - rewrite bool_decide_eq_false_2 by done. simpl. by rewrite IH, <- app_assoc.
Qed.

Lemma readEscaped_Ok acc l d r :
  readEscaped acc l = Ok (d, r) ->
  exists d', d = acc ++ d' /\ l = escape d' ++ x00 :: x00 :: r.
Proof.
  revert acc. induction l as [l IH] using (induction_ltof1 _ (@length byte)).
  unfold ltof in IH. intros acc. destruct l as [|b l]; cbn [readEscaped]; [done|].
  case_bool_decide as Hb; cbn [negb].
  - destruct l as [|e l]; [done|]. destruct e; try done.
    + intros [= -> ->]. exists []. subst b. by rewrite app_nil_r.
    + intros H. apply IH in H as (d' & -> & ->); [|simpl; lia].
      exists (x00 :: d'). subst b. by rewrite <- app_assoc.
  - intros H. apply IH in H as (d' & -> & ->); [|simpl; lia].
    exists (b :: d'). rewrite <- app_assoc. split; [done|]. simpl.
    by rewrite bool_decide_eq_false_2.
Qed.

Lemma decode_component_bytes c r :
  shaped c -> decode_component (kind c) (payload c ++ r) = Ok (c, r).
Proof.
  destruct c as [k d e]. unfold shaped, payload, decode_component. simpl.
  intros [-> Hs]. destruct k; try done; simpl.
  - rewrite <- app_assoc. simpl. by rewrite readEscaped_escape.
  - rewrite <- app_assoc. simpl. rewrite readEscaped_escape. simpl. by rewrite Hs.
  - rewrite fail_if_false by (rewrite len_app; apply Z.ltb_ge; pose proof (len_nonneg r); lia).
    assert (length d = 8%nat) as Hd by (unfold len in Hs; lia).
    rewrite take_app_length', drop_app_length' by done. done.
  - rewrite fail_if_false by (rewrite len_app; apply Z.ltb_ge; pose proof (len_nonneg r); lia).
    assert (length d = 8%nat) as Hd by (unfold len in Hs; lia).
    rewrite take_app_length', drop_app_length' by done. done.
  - by destruct Hs as [-> | ->].
Qed.

Lemma decode_component_Ok k rest c next :
  decode_component k rest = Ok (c, next) ->
  kind c = k /\ shaped c /\ rest = payload c ++ next.
Proof.
  unfold decode_component. destruct k; try done; intros H.
  - inv_res. destruct r as [d n]. apply readEscaped_Ok in Hr as (d' & -> & ->).
    simpl in H. injection H as <- <-. split; [done|]. split; [done|].
    unfold payload. simpl. by rewrite <- app_assoc.
  - inv_res. destruct r as [d n]. apply readEscaped_Ok in Hr as (d' & -> & ->).
    simpl in H. destruct (utf8.Valid d') eqn:Hu; [|done]. injection H as <- <-.
    split; [done|]. split; [done|]. unfold payload. simpl. by rewrite <- app_assoc.
  - inv_res. bool_to_prop. split; [done|]. unfold shaped, payload. simpl.
    rewrite take_drop. split; [split; [done|]|done]. unfold len in *. rewrite length_take. lia.
  - inv_res. bool_to_prop. split; [done|]. unfold shaped, payload. simpl.
    rewrite take_drop. split; [split; [done|]|done]. unfold len in *. rewrite length_take. lia.
  - destruct rest as [|b n]; [done|]. destruct (Z.ltb_spec 1 (u8 b)); [done|].
    injection H as <- <-. split; [done|]. split; [|done]. split; [done|]. simpl.
    pose proof (u8_range b).
    assert (u8 b = 0 \/ u8 b = 1) as [Hb|Hb] by lia; [left|right]; f_equal; by apply (inj u8).
Qed.

Lemma shaped_kind_nonzero c : shaped c -> kind c <> x00.
Proof. intros [_ H] Hk. by rewrite Hk in H. Qed.

Lemma decode_loop_bytes fuel acc cs :
  Forall shaped cs -> len acc + len cs <= MaxComponents ->
  (length (components_bytes cs) < fuel)%nat ->
  decode_loop fuel acc (components_bytes cs ++ [x00]) = Ok (acc ++ cs).
Proof.
  intros Hs. revert fuel acc. induction Hs as [|c cs Hc Hs IH]; intros fuel acc Hl Hf.
  - destruct fuel; [lia|]. cbn. by rewrite app_nil_r.
  - rewrite components_bytes_cons in *. rewrite length_app in Hf.
    destruct fuel as [|fuel]; [lia|]. rewrite <- app_assoc.
    change (component_bytes c) with (kind c :: payload c) in *. simpl in Hf.
    rewrite len_cons in Hl. pose proof (len_nonneg cs).
    cbn [app decode_loop].
    rewrite bool_decide_eq_false_2 by (by apply shaped_kind_nonzero).
    rewrite fail_if_false by (apply Z.leb_gt; lia).
    rewrite decode_component_bytes by done. simpl. rewrite IH.
    + by rewrite <- app_assoc.
    + autorewrite with len. lia.
    + lia.
Qed.

Lemma decode_loop_Ok fuel acc rest cs :
  decode_loop fuel acc rest = Ok cs -> len acc <= MaxComponents ->
  exists cs', cs = acc ++ cs' /\ Forall shaped cs' /\ len cs <= MaxComponents /\
              rest = components_bytes cs' ++ [x00].
Proof.
  revert acc rest. induction fuel as [|fuel IH]; intros acc rest H Hl; [done|].
  destruct rest as [|k rest]; [done|]. cbn [decode_loop] in H.
  case_bool_decide as Hk.
  - destruct rest; [|done]. injection H as <-. subst k. exists [].
    rewrite app_nil_r. auto.
  - inv_res. destruct r0 as [c next]. bool_to_prop.
    apply decode_component_Ok in Hr0 as (<- & Hc & ->).
    apply IH in H as (cs' & -> & Hs & Hlen & ->); [|autorewrite with len; lia].
    exists (c :: cs'). rewrite <- app_assoc in *. split; [done|]. split; [by constructor|].
    split; [done|]. rewrite components_bytes_cons, <- app_assoc. done.
Qed.

(** Both directions: a byte string decodes to a tuple exactly when it is the
    representation of a legal one. *)
Lemma DecodeTuple_spec cs e :
  DecodeTuple e = Ok cs <->
  len cs <= MaxComponents /\ Forall shaped cs /\ len (tuple_bytes cs) <= MaxTupleBytes /\ e = tuple_bytes cs.
Proof.
  split.
  - unfold DecodeTuple. destruct e as [|v rest]; [done|]. intros H. inv_res.
    apply decode_loop_Ok in H as (cs' & -> & Hs & Hlen & ->); [|rewrite len_nil; done].
    rewrite !orb_false_iff in Hr. destruct Hr as [[_ Hmax] Hv]. bool_to_prop. subst v. auto.
  - intros (Hc & Hs & Hl & ->). unfold DecodeTuple, tuple_bytes in *.
    pose proof (len_nonneg (components_bytes cs)).
    rewrite fail_if_false.
    + rewrite decode_loop_bytes; [done|done|rewrite len_nil; lia|]. rewrite length_app. simpl. lia.
    + autorewrite with len in *. rewrite bool_decide_eq_true_2 by done.
      rewrite !orb_false_iff, !Z.ltb_ge. split; [split; lia|done].
Qed.

(** Representations determine their components, also when cut short. *)
Lemma components_bytes_prefix a b r :
  Forall shaped a -> Forall shaped b -> components_bytes b ++ [x00] = components_bytes a ++ r ->
  exists c, b = a ++ c /\ r = components_bytes c ++ [x00].
Proof.
  intros Ha. revert b. induction Ha as [|x a Hx Ha IH]; intros b Hb E.
  { exists b. done. }
  rewrite components_bytes_cons, <- app_assoc in E. destruct Hb as [|y b Hy Hb].
  - injection E as E _. symmetry in E. by apply shaped_kind_nonzero in Hx.
  - rewrite components_bytes_cons, <- app_assoc in E. injection E as Ek E.
    pose proof (decode_component_bytes y (components_bytes b ++ [x00]) Hy) as Dy.
    pose proof (decode_component_bytes x (components_bytes a ++ r) Hx) as Dx.
    rewrite E, Ek, Dx in Dy. injection Dy as -> E'. symmetry in E'.
    destruct (IH b Hb E') as (c & -> & ->). by exists c.
Qed.

Lemma tuple_bytes_inj a b : Forall shaped a -> Forall shaped b -> tuple_bytes a = tuple_bytes b -> a = b.
Proof.
  intros Ha Hb [= E]. destruct (components_bytes_prefix b a [x00] Hb Ha E) as (c & -> & Ec).
  destruct c as [|x c]; [by rewrite app_nil_r|].
  apply (f_equal len) in Ec. rewrite components_bytes_cons in Ec. pose proof (len_component_bytes_pos x).
  pose proof (len_nonneg (components_bytes c)). autorewrite with len in Ec. lia.
Qed.

(** ** Theorems *)

(** C32: decoding an encoded tuple gives back exactly the components that were
    encoded. *)
Theorem DecodeTuple_EncodeTuple cs e :
  EncodeTuple cs = Ok e -> DecodeTuple e = Ok cs.
Proof. intros H%EncodeTuple_spec. by apply DecodeTuple_spec. Qed.

(** decoding is canonical: only the encoder's output is accepted, so
    distinct persisted keys never decode to the same tuple. *)
Theorem EncodeTuple_DecodeTuple e cs :
  DecodeTuple e = Ok cs -> EncodeTuple cs = Ok e.
Proof. intros H%DecodeTuple_spec. by apply EncodeTuple_spec. Qed.

(** C34: the encoder accepts exactly the tuples of at most [MaxComponents]
    well-shaped components whose format-v1 representation has at most
    [MaxTupleBytes] bytes, and then returns that representation. *)
Theorem EncodeTuple_complete cs :
  (exists e, EncodeTuple cs = Ok e) <->
  len cs <= MaxComponents /\ Forall shaped cs /\ len (tuple_bytes cs) <= MaxTupleBytes.
Proof.
  split.
  - intros [e (? & ? & ? & _)%EncodeTuple_spec]. auto.
  - intros (? & ? & ?). exists (tuple_bytes cs). by apply EncodeTuple_spec.
Qed.

(** ** Order *)

(** Order of two values of one kind: numbers by value, everything else by
    its bytes. *)
Definition value_compare (a b : Component) : comparison :=
  match kind a with
  | x03 => int64 (Z.lxor (un_be (data a)) int64SignMask)
           ?= int64 (Z.lxor (un_be (data b)) int64SignMask)
  | x04 => un_be (data a) ?= un_be (data b)
  | _ => bytes_compare (data a) (data b)
  end.

Definition component_compare (a b : Component) : comparison :=
  match u8 (kind a) ?= u8 (kind b) with
  | Eq => value_compare a b
  | c => c
  end.

(** Tuples compare component by component; a proper prefix sorts first. *)
Fixpoint tuple_compare (a b : list Component) : comparison :=
  match a, b with
  | [], [] => Eq
  | [], _ :: _ => Lt
  | _ :: _, [] => Gt
  | x :: a', y :: b' =>
      match component_compare x y with
      | Eq => tuple_compare a' b'
      | c => c
      end
  end.

Lemma land_small_pow2 w n : 0 <= n -> 0 <= w < 2 ^ n -> Z.land w (2 ^ n) = 0.
Proof.
  intros Hn Hw. apply Z.bits_inj'. intros i Hi.
  rewrite Z.land_spec, Z.pow2_bits_eqb, Z.bits_0 by lia.
  destruct (Z.eqb_spec n i) as [<-|]; [|apply andb_false_r]. rewrite andb_true_r.
  destruct (Z.eq_dec w 0) as [->|]; [apply Z.bits_0|].
  apply Z.bits_above_log2; [lia|]. apply Z.log2_lt_pow2; lia.
Qed.

(** Flipping the sign bit shifts the signed range onto the unsigned one. *)
Lemma int64_flip u : 0 <= u < 2 ^ 64 -> int64 (Z.lxor u int64SignMask) = u - 2 ^ 63.
Proof.
  intros Hu. unfold int64, int64SignMask. destruct (Z.lt_ge_cases u (2 ^ 63)) as [Hlt|Hge].
  - rewrite <- Z.add_nocarry_lxor by (apply land_small_pow2; lia).
    replace (u + 2 ^ 63 + 2 ^ 63) with (u + 1 * 2 ^ 64) by lia.
    rewrite Z.mod_add, Z.mod_small by lia. done.
  - assert (u = Z.lxor (u - 2 ^ 63) (2 ^ 63)) as Heq.
    { rewrite <- Z.add_nocarry_lxor by (apply land_small_pow2; lia). lia. }
    rewrite Heq at 1. rewrite Z.lxor_assoc, Z.lxor_nilpotent, Z.lxor_0_r.
    rewrite Z.mod_small; lia.
Qed.

Lemma flip_uint64 v : - 2 ^ 63 <= v < 2 ^ 63 -> Z.lxor (uint64 v) int64SignMask = v + 2 ^ 63.
Proof.
  intros Hv. unfold uint64, int64SignMask. destruct (Z.lt_ge_cases v 0) as [Hlt|Hge].
  - replace (v mod 2 ^ 64) with (v + 2 ^ 63 + 2 ^ 63).
    + rewrite (Z.add_nocarry_lxor (v + 2 ^ 63)) by (apply land_small_pow2; lia).
      by rewrite Z.lxor_assoc, Z.lxor_nilpotent, Z.lxor_0_r.
    + apply Z.mod_unique with (-1); lia.
  - rewrite Z.mod_small by lia.
    by rewrite <- Z.add_nocarry_lxor by (apply land_small_pow2; lia).
Qed.

Lemma escape_compare a b r s :
  a <> b ->
  bytes_compare (escape a ++ x00 :: x00 :: r) (escape b ++ x00 :: x00 :: s)
  = bytes_compare a b.
Proof.
  revert b. induction a as [|x a IH]; intros [|y b] Hne; [done| | |].
  - cbn [escape app]. case_bool_decide as Hy; [done|]. cbn [app bytes_compare].
    destruct (Z.compare_spec (u8 x00) (u8 y)) as [H|H|H]; [|done|].
    + apply (inj u8) in H. by destruct Hy.
    + pose proof (u8_range y). unfold u8 at 2 in H. simpl in H. lia.
  - cbn [escape app]. case_bool_decide as Hx; [done|]. cbn [app bytes_compare].
    destruct (Z.compare_spec (u8 x) (u8 x00)) as [H|H|H]; [| |done].
    + apply (inj u8) in H. by destruct Hx.
    + pose proof (u8_range x). unfold u8 at 2 in H. simpl in H. lia.
  - destruct (decide (x = y)) as [->|Hxy].
    + assert (a <> b) as Hab by congruence. specialize (IH b Hab).
      cbn [escape bytes_compare]. rewrite Z.compare_refl.
      case_bool_decide; cbn [app bytes_compare]; by rewrite ?Z.compare_refl, IH.
    + cbn [escape bytes_compare].
      destruct (Z.compare_spec (u8 x) (u8 y)) as [H|H|H];
        [by apply (inj u8) in H as ->| |];
        do 2 case_bool_decide; subst; try done; cbn [app bytes_compare];
        [rewrite (proj2 (Z.compare_lt_iff _ _)) by done|..]; try done;
        first [ rewrite (proj2 (Z.compare_lt_iff _ _)) by done
              | rewrite (proj2 (Z.compare_gt_iff _ _)) by done ]; done.
Qed.

Lemma value_compare_eq a b :
  kind a = kind b -> shaped a -> shaped b -> value_compare a b = Eq -> data a = data b.
Proof.
  intros Hk [_ Ha] [_ Hb]. unfold value_compare. rewrite <- Hk in Hb.
  destruct (kind a); try done; rewrite ?bytes_compare_eq; try done; intros Hc;
    apply Z.compare_eq in Hc; unfold len in Ha, Hb.
  - apply un_be_inj; [lia|].
    pose proof (un_be_range (data a)) as H1. pose proof (un_be_range (data b)) as H2.
    unfold len in H1, H2. rewrite !Ha in H1. rewrite !Hb in H2.
    rewrite !int64_flip in Hc by lia. lia.
  - apply un_be_inj; [lia|done].
Qed.

Lemma component_compare_eq a b :
  shaped a -> shaped b -> component_compare a b = Eq <-> a = b.
Proof.
  intros Ha Hb. unfold component_compare. split.
  - destruct (Z.compare_spec (u8 (kind a)) (u8 (kind b))) as [Hk|Hk|Hk]; try done.
    apply (inj u8) in Hk. intros Hv. pose proof (value_compare_eq a b Hk Ha Hb Hv) as Hd.
    destruct Ha as [Ha _], Hb as [Hb _]. destruct a, b; simpl in *. congruence.
  - intros ->. rewrite Z.compare_refl. unfold value_compare.
    destruct (kind b); rewrite ?Z.compare_refl; auto using bytes_compare_refl.
Qed.

Lemma payload_compare a b r s :
  kind a = kind b -> shaped a -> shaped b -> data a <> data b ->
  bytes_compare (payload a ++ r) (payload b ++ s) = value_compare a b.
Proof.
  intros Hk [_ Ha] [_ Hb] Hd. unfold value_compare, payload. rewrite <- Hk in *.
  unfold len in Ha, Hb. destruct (kind a) eqn:Hka; try done; simpl.
  - rewrite <- !app_assoc. by apply escape_compare.
  - rewrite <- !app_assoc. by apply escape_compare.
  - rewrite bytes_compare_app_same_len by (done || lia).
    pose proof (un_be_range (data a)) as H1. pose proof (un_be_range (data b)) as H2.
    unfold len in H1, H2. rewrite !Ha in H1. rewrite !Hb in H2.
    rewrite bytes_compare_un_be, !int64_flip by lia. unfold Z.sub.
    rewrite !(Z.add_comm _ (- 2 ^ 63)). symmetry. apply Zcompare_plus_compat.
  - rewrite bytes_compare_app_same_len by (done || lia). apply bytes_compare_un_be. lia.
  - apply bytes_compare_app_same_len; [|done]. destruct Ha as [-> | ->], Hb as [-> | ->]; done.
Qed.

Lemma shaped_data_ne a b : shaped a -> shaped b -> kind a = kind b -> a <> b -> data a <> data b.
Proof. intros [Ha _] [Hb _]. destruct a, b; simpl in *. congruence. Qed.

Lemma component_bytes_compare a b r s :
  shaped a -> shaped b ->
  bytes_compare (component_bytes a ++ r) (component_bytes b ++ s)
  = match component_compare a b with Eq => bytes_compare r s | c => c end.
Proof.
  intros Ha Hb. destruct (decide (component_compare a b = Eq)) as [Hc|Hc].
  { rewrite Hc. apply component_compare_eq in Hc as ->; [|done..]. apply bytes_compare_app_l. }
  assert (a <> b) as Hne by (by rewrite <- component_compare_eq).
  transitivity (component_compare a b); [|by destruct (component_compare a b)].
  unfold component_compare, component_bytes. cbn [app bytes_compare].
  destruct (Z.compare_spec (u8 (kind a)) (u8 (kind b))) as [Hk|Hk|Hk]; try done.
  apply (inj u8) in Hk. apply payload_compare; auto using shaped_data_ne.
Qed.

Lemma components_bytes_compare a b :
  Forall shaped a -> Forall shaped b ->
  bytes_compare (components_bytes a ++ [x00]) (components_bytes b ++ [x00]) = tuple_compare a b.
Proof.
  intros Ha. revert b. induction Ha as [|x a Hx Ha IH]; intros b Hb; destruct Hb as [|y b Hy Hb].
  - done.
  - apply shaped_kind_nonzero in Hy. rewrite components_bytes_cons, <- app_assoc.
    unfold component_bytes. cbn [components_bytes map concat app bytes_compare tuple_compare].
    destruct (Z.compare_spec (u8 x00) (u8 (kind y))) as [H|H|H]; [|done|].
    + by apply (inj u8) in H.
    + pose proof (u8_range (kind y)). unfold u8 at 2 in H. simpl in H. lia.
  - apply shaped_kind_nonzero in Hx. rewrite components_bytes_cons, <- app_assoc.
    unfold component_bytes. cbn [components_bytes map concat app bytes_compare tuple_compare].
    destruct (Z.compare_spec (u8 (kind x)) (u8 x00)) as [H|H|H]; [| |done].
    + by apply (inj u8) in H.
    + pose proof (u8_range (kind x)). unfold u8 at 2 in H. simpl in H. lia.
  - rewrite !components_bytes_cons, <- !app_assoc, component_bytes_compare by done.
    cbn [tuple_compare]. by rewrite IH.
Qed.

(** C33: [bytes.Compare] on encoded tuples is value order on the tuples:
    components compare in turn, by kind tag and then by value (signed for
    int64), and a proper prefix sorts first. *)
Theorem EncodeTuple_order a b ea eb :
  EncodeTuple a = Ok ea -> EncodeTuple b = Ok eb ->
  bytes_compare ea eb = tuple_compare a b.
Proof.
  intros (_ & Ha & _ & ->)%EncodeTuple_spec (_ & Hb & _ & ->)%EncodeTuple_spec.
  unfold tuple_bytes. cbn [bytes_compare]. rewrite Z.compare_refl.
  by apply components_bytes_compare.
Qed.

(** The numeric accessors give back the number a component was built
    from, over the whole signed and unsigned 64-bit ranges. *)
Theorem numeric_accessors v u :
  - 2 ^ 63 <= v < 2 ^ 63 -> 0 <= u < 2 ^ 64 ->
  Component_Int64 (Int64 v) = Ok v /\ Component_Uint64 (Uint64 u) = Ok u.
Proof.
  intros Hv Hu. unfold Component_Int64, Component_Uint64, Int64, Uint64.
  cbn [err kind data]. rewrite !bool_decide_eq_true_2, !len_be by done. split.
  - rewrite flip_uint64, un_be_be_small, int64_flip by lia.
    replace (v + 2 ^ 63 - 2 ^ 63) with v by lia. done.
  - by rewrite un_be_be_small.
Qed.

(** ** Instances of the theorems at concrete inputs *)

Definition sample_tuple : list Component :=
  [mkComponent StringKind (lit "users") None; Bytes [x00; x01]; Int64 (-5); Uint64 7; Bool true].
Definition sample_bytes : bytes :=
  match EncodeTuple sample_tuple with Ok e => e | Fail _ => [] end.

Lemma DecodeTuple_EncodeTuple_witness : DecodeTuple sample_bytes = Ok sample_tuple.
Proof. apply DecodeTuple_EncodeTuple. vm_compute. reflexivity. Defined.

Lemma EncodeTuple_DecodeTuple_witness :
  EncodeTuple [Bool true] = Ok [x01; x05; x01; x00].
Proof. apply EncodeTuple_DecodeTuple. vm_compute. reflexivity. Defined.

Lemma EncodeTuple_order_witness :
  bytes_compare (match EncodeTuple [Int64 (-5)] with Ok e => e | Fail _ => [] end)
                (match EncodeTuple [Int64 3] with Ok e => e | Fail _ => [] end)
  = tuple_compare [Int64 (-5)] [Int64 3].
Proof. apply EncodeTuple_order; vm_compute; reflexivity. Defined.

Lemma numeric_accessors_witness :
  Component_Int64 (Int64 (- 2 ^ 63)) = Ok (- 2 ^ 63)
  /\ Component_Uint64 (Uint64 (2 ^ 64 - 1)) = Ok (2 ^ 64 - 1).
Proof. apply numeric_accessors; lia. Defined.

Example order_is_strict : tuple_compare [Int64 (-5)] [Int64 3] = Lt.
Proof. vm_compute. reflexivity. Qed.
