(* ===== verification/Uuidv7.v ===== *)
(** [pkg/uuidv7]: RFC 9562 version 7 identifiers.  A [UUID] is the Go array
    [[16]byte], here a byte string whose length the operations keep at 16. *)

From Stdlib Require Import ZArith Lia.
From stdpp Require Import base list.
From S2P Require Import Prelude GoStd.

Local Open Scope Z_scope.

Definition textLength : Z := 36.
Definition maxUnixMS : Z := 2 ^ 48 - 1.
Definition variantMask : Z := 0xc0.

Abbreviation UUID := (list byte).

Inductive uuid_error : Type :=
| ErrClockRange
| ErrRandomSource
| ErrCanonicalText
| ErrUppercase
| ErrHexText
| ErrNotUUIDv7
| ErrLength16.

(** [u[i]] *)
Definition at_ (u : bytes) (i : nat) : byte := nth i u x00.

(** The version and variant test shared by [Parse] and [UUIDFromBytes]. *)
Definition is_v7 (u : UUID) : bool :=
  (Z.shiftr (u8 (at_ u 6)) 4 =? 7) && (Z.land (u8 (at_ u 8)) variantMask =? 0x80).

(** [Generator.New] with the clock reading [ms] (Unix milliseconds) and the
    bytes the random source still holds; the source is advanced by the ten
    bytes [io.ReadFull] consumes. *)
Definition Generator_New (ms : Z) (random : bytes) : result uuid_error (UUID * bytes) :=
  if (ms <? 0) || (maxUnixMS <? ms) then Fail ErrClockRange
  else
    let stamp := [byte_of (Z.shiftr ms 40); byte_of (Z.shiftr ms 32); byte_of (Z.shiftr ms 24);
                  byte_of (Z.shiftr ms 16); byte_of (Z.shiftr ms 8); byte_of ms] in
    if len random <? 10 then Fail ErrRandomSource
    else
      let u := stamp ++ take 10 random in
      let u := <[6%nat := byte_of (Z.lor 0x70 (Z.land (u8 (at_ u 6)) 0x0f))]> u in
      let u := <[8%nat := byte_of (Z.lor 0x80 (Z.land (u8 (at_ u 8)) 0x3f))]> u in
      Ok (u, drop 10 random).

Definition dash : byte := x2d.

(** The digit loop of [Parse]; [i] is the index of the first byte of [text]. *)
Fixpoint check_digits (i : nat) (text : bytes) : result uuid_error unit :=
  match text with
  | [] => Ok tt
  | r :: text' =>
      if bool_decide (i = 8 \/ i = 13 \/ i = 18 \/ i = 23)%nat then check_digits (S i) text'
      else if (0x41 <=? u8 r) && (u8 r <=? 0x46) then Fail ErrUppercase
      else if negb ((0x30 <=? u8 r) && (u8 r <=? 0x39)) && negb ((0x61 <=? u8 r) && (u8 r <=? 0x66))
      then Fail ErrHexText
      else check_digits (S i) text'
  end.

(** [strings.ReplaceAll] of the separators by nothing. *)
Fixpoint strip_dashes (text : bytes) : bytes :=
  match text with
  | [] => []
  | b :: text' => if bool_decide (b = dash) then strip_dashes text' else b :: strip_dashes text'
  end.

Definition Parse (text : bytes) : result uuid_error UUID :=
  fail_if (negb (len text =? textLength)
           || negb (bool_decide (at_ text 8 = dash)) || negb (bool_decide (at_ text 13 = dash))
           || negb (bool_decide (at_ text 18 = dash)) || negb (bool_decide (at_ text 23 = dash)))
    ErrCanonicalText;;
  check_digits 0 text;;
  match hex.Decode (strip_dashes text) with
  | None => Fail ErrHexText
  | Some u => if negb (is_v7 u) then Fail ErrNotUUIDv7 else Ok u
  end.

Definition UUID_String (u : UUID) : bytes :=
  hex.Encode (sub u 0 4) ++ [dash] ++ hex.Encode (sub u 4 6) ++ [dash]
  ++ hex.Encode (sub u 6 8) ++ [dash] ++ hex.Encode (sub u 8 10) ++ [dash]
  ++ hex.Encode (sub u 10 16).

Definition UUID_Bytes (u : UUID) : bytes := u.

Definition UUIDFromBytes (value : bytes) : result uuid_error UUID :=
  if negb (len value =? 16) then Fail ErrLength16
  else if negb (is_v7 value) then Fail ErrNotUUIDv7
  else Ok value.

(** ** Lemmas *)

Lemma UUIDFromBytes_Ok v u :
  UUIDFromBytes v = Ok u <-> u = v /\ length v = 16%nat /\ is_v7 v = true.
Proof.
  unfold UUIDFromBytes, len. destruct (Z.eqb_spec (Z.of_nat (length v)) 16); simpl.
  - destruct (is_v7 v); simpl; split; try done.
    + intros [= ->]. split; [done|]. split; [lia|done].
    + by intros (-> & _ & _).
    + by intros (_ & _ & ?).
  - split; [done|]. intros (_ & ? & _). lia.
Qed.

(** A 16-byte string, byte by byte. *)
Lemma length16 (u : bytes) : length u = 16%nat ->
  exists b0 b1 b2 b3 b4 b5 b6 b7 b8 b9 b10 b11 b12 b13 b14 b15,
    u = [b0; b1; b2; b3; b4; b5; b6; b7; b8; b9; b10; b11; b12; b13; b14; b15].
Proof.
  intros H. do 16 (destruct u as [|? u]; [done|]). destruct u; [|done].
  repeat eexists.
Qed.

Lemma dash_not_lower b : hex.lower b = true -> b <> dash.
Proof. by intros H ->. Qed.

Lemma strip_lower l : forallb hex.lower l = true -> strip_dashes l = l.
Proof.
  induction l as [|b l IH]; [done|]. cbn [forallb strip_dashes]. rewrite andb_true_iff.
  intros [Hb Hl]. rewrite bool_decide_eq_false_2 by (by apply dash_not_lower). by rewrite IH.
Qed.

Lemma strip_app a b : strip_dashes (a ++ b) = strip_dashes a ++ strip_dashes b.
Proof. induction a as [|x a IH]; [done|]. simpl. case_bool_decide; simpl; congruence. Qed.

Lemma strip_Encode u : strip_dashes (hex.Encode u) = hex.Encode u.
Proof. apply strip_lower, hex.Encode_lower. Qed.

Lemma UUID_String_strip u :
  length u = 16%nat -> strip_dashes (UUID_String u) = hex.Encode u.
Proof.
  intros H. unfold UUID_String. rewrite !strip_app, !strip_Encode. cbn [strip_dashes app].
  rewrite !bool_decide_eq_true_2 by done. cbn [app]. rewrite <- !hex.Encode_app. f_equal.
  apply length16 in H as (? & ? & ? & ? & ? & ? & ? & ? & ? & ? & ? & ? & ? & ? & ? & ? & ->). done.
Qed.

(** The digits [check_digits] accepts outside the separators. *)
Definition digit_ok (r : byte) : bool :=
  negb ((0x41 <=? u8 r) && (u8 r <=? 0x46)) && hex.lower r.

Lemma digit_ok_lower r : digit_ok r = hex.lower r.
Proof.
  unfold digit_ok, hex.lower. destruct (Z.leb_spec 0x41 (u8 r)), (Z.leb_spec (u8 r) 0x46); simpl; try done.
  destruct (Z.leb_spec (u8 r) 0x39), (Z.leb_spec 0x61 (u8 r)); try lia.
Qed.

Lemma check_digits_cons i r t :
  check_digits i (r :: t) = Ok tt <->
  ((i = 8 \/ i = 13 \/ i = 18 \/ i = 23)%nat \/ hex.lower r = true) /\
  check_digits (S i) t = Ok tt.
Proof.
  cbn [check_digits]. case_bool_decide as Hi; [naive_solver|].
  rewrite <- digit_ok_lower. unfold digit_ok, hex.lower.
  destruct ((0x41 <=? u8 r) && (u8 r <=? 0x46)); simpl; [naive_solver|].
  destruct ((0x30 <=? u8 r) && (u8 r <=? 0x39)), ((0x61 <=? u8 r) && (u8 r <=? 0x66)); simpl; naive_solver.
Qed.

Lemma length36 (t : bytes) : len t = 36 ->
  exists a b c d e, length a = 8%nat /\ length b = 4%nat /\ length c = 4%nat /\ length d = 4%nat
    /\ length e = 12%nat /\ t = a ++ [at_ t 8] ++ b ++ [at_ t 13] ++ c ++ [at_ t 18] ++ d ++ [at_ t 23] ++ e.
Proof.
  intros H. assert (length t = 36%nat) as Hl by (unfold len in H; lia).
  do 36 (destruct t as [|? t]; [done|]). destruct t; [|done].
  exists [b; b0; b1; b2; b3; b4; b5; b6], [b8; b9; b10; b11], [b13; b14; b15; b16],
    [b18; b19; b20; b21], [b23; b24; b25; b26; b27; b28; b29; b30; b31; b32; b33; b34].
  done.
Qed.

(** A run of digit positions accepts exactly lower-case hexadecimal. *)
Lemma check_digits_run i a t :
  (forall k, (i <= k < i + length a)%nat -> k <> 8 /\ k <> 13 /\ k <> 18 /\ k <> 23)%nat ->
  check_digits i (a ++ t) = Ok tt <->
  forallb hex.lower a = true /\ check_digits (i + length a) t = Ok tt.
Proof.
  revert i. induction a as [|x a IH]; intros i Hi; cbn [app forallb length].
  - rewrite Nat.add_0_r. naive_solver.
  - rewrite check_digits_cons, andb_true_iff, IH.
    + rewrite Nat.add_succ_comm. specialize (Hi i). simpl in Hi. naive_solver lia.
    + intros k Hk. apply Hi. simpl. lia.
Qed.

Lemma check_digits_layout a b c d e :
  length a = 8%nat -> length b = 4%nat -> length c = 4%nat -> length d = 4%nat -> length e = 12%nat ->
  check_digits 0 (a ++ [dash] ++ b ++ [dash] ++ c ++ [dash] ++ d ++ [dash] ++ e) = Ok tt <->
  forallb hex.lower (a ++ b ++ c ++ d ++ e) = true.
Proof.
  intros Ha Hb Hc Hd He. rewrite !forallb_app, !andb_true_iff.
  rewrite check_digits_run by (intros; lia). rewrite Ha. cbn [app Nat.add].
  rewrite check_digits_cons, check_digits_run by (intros; lia). rewrite Hb. cbn [app Nat.add].
  rewrite check_digits_cons, check_digits_run by (intros; lia). rewrite Hc. cbn [app Nat.add].
  rewrite check_digits_cons, check_digits_run by (intros; lia). rewrite Hd. cbn [app Nat.add].
  rewrite check_digits_cons. rewrite <- (app_nil_r e) at 1.
  rewrite check_digits_run by (intros; lia). cbn [check_digits].
  split.
  - intros (? & ? & ? & ? & ? & ? & ? & ? & ? & ?). auto.
  - intros (? & ? & ? & ? & ?). repeat split; auto.
Qed.

Lemma UUID_String_layout u :
  length u = 16%nat ->
  check_digits 0 (UUID_String u) = Ok tt /\ len (UUID_String u) = textLength /\
  at_ (UUID_String u) 8 = dash /\ at_ (UUID_String u) 13 = dash /\
  at_ (UUID_String u) 18 = dash /\ at_ (UUID_String u) 23 = dash.
Proof.
  intros H. split.
  - unfold UUID_String. apply length16 in H
      as (? & ? & ? & ? & ? & ? & ? & ? & ? & ? & ? & ? & ? & ? & ? & ? & ->).
    apply check_digits_layout; [done..|].
    rewrite !forallb_app, !hex.Encode_lower. done.
  - apply length16 in H
      as (? & ? & ? & ? & ? & ? & ? & ? & ? & ? & ? & ? & ? & ? & ? & ? & ->). done.
Qed.

(** The hexadecimal digits of a 16-byte value, cut at the separators. *)
Lemma Encode_layout u a b c d e :
  length u = 16%nat ->
  length a = 8%nat -> length b = 4%nat -> length c = 4%nat -> length d = 4%nat ->
  hex.Encode u = a ++ b ++ c ++ d ++ e ->
  UUID_String u = a ++ [dash] ++ b ++ [dash] ++ c ++ [dash] ++ d ++ [dash] ++ e.
Proof.
  intros Hu Ha Hb Hc Hd He. apply length16 in Hu
    as (? & ? & ? & ? & ? & ? & ? & ? & ? & ? & ? & ? & ? & ? & ? & ? & ->).
  do 8 (destruct a as [|? a]; [done|]). destruct a; [|done].
  do 4 (destruct b as [|? b]; [done|]). destruct b; [|done].
  do 4 (destruct c as [|? c]; [done|]). destruct c; [|done].
  do 4 (destruct d as [|? d]; [done|]). destruct d; [|done].
  cbn [hex.Encode app] in He. simplify_eq. done.
Qed.

(** ** Theorems *)

(** parsing the text of a UUIDv7 gives the UUID back. *)
Theorem Parse_String u :
  UUIDFromBytes u = Ok u -> Parse (UUID_String u) = Ok u.
Proof.
  intros (_ & Hl & Hv)%UUIDFromBytes_Ok. unfold Parse.
  destruct (UUID_String_layout u Hl) as (Hc & Hlen & -> & -> & -> & ->).
  rewrite Hlen, Hc, UUID_String_strip, hex.Decode_Encode, Hv by done. done.
Qed.

(** parsing accepts only the canonical text of a UUIDv7 of 16 bytes. *)
Theorem Parse_canonical t u :
  Parse t = Ok u -> UUID_String u = t /\ UUIDFromBytes u = Ok u.
Proof.
  unfold Parse. intros H. inv_res. rewrite !orb_false_iff, !negb_false_iff in Hr.
  destruct Hr as [[[[Hlen H8] H13] H18] H23]. bool_to_prop.
  destruct (hex.Decode (strip_dashes t)) as [v|] eqn:Hd; [|done].
  destruct (is_v7 v) eqn:Hv; [|done]. simpl in H. injection H as <-.
  apply length36 in Hlen as (a & b & c & d & e & Ha & Hb & Hc & Hdl & He & Ht).
  rewrite H8, H13, H18, H23 in Ht. rewrite Ht in Hr0.
  apply check_digits_layout in Hr0; [|done..].
  rewrite Ht, !strip_app in Hd. cbn [strip_dashes] in Hd.
  rewrite !bool_decide_eq_true_2 in Hd by done. cbn [app] in Hd.
  rewrite <- !strip_app, (strip_lower _ Hr0) in Hd.
  assert (length v = 16%nat) as Hvl.
  { apply hex.length_Decode in Hd. rewrite !length_app in Hd. lia. }
  apply hex.Encode_Decode in Hd; [|done]. split.
  - rewrite Ht. by apply Encode_layout.
  - by apply UUIDFromBytes_Ok.
Qed.

Lemma lor_version b : Z.shiftr (Z.lor 0x70 (Z.land (u8 b) 0x0f)) 4 = 7
  /\ 0 <= Z.lor 0x70 (Z.land (u8 b) 0x0f) < 256.
Proof. destruct b; done. Qed.
Lemma lor_variant b : Z.land (Z.lor 0x80 (Z.land (u8 b) 0x3f)) variantMask = 0x80
  /\ 0 <= Z.lor 0x80 (Z.land (u8 b) 0x3f) < 256.
Proof. destruct b; done. Qed.

Lemma stamp_be ms :
  [byte_of (Z.shiftr ms 40); byte_of (Z.shiftr ms 32); byte_of (Z.shiftr ms 24);
   byte_of (Z.shiftr ms 16); byte_of (Z.shiftr ms 8); byte_of ms] = be 6 ms.
Proof.
  rewrite !Z.shiftr_div_pow2 by lia. cbn [be].
  replace (ms / 256 ^ Z.of_nat 0) with ms by (rewrite Z.div_1_r; done). done.
Qed.

(** a generated identifier is a valid UUIDv7 whose first six bytes are
    the clock reading in milliseconds; generation consumes ten random bytes and
    fails exactly when the clock is out of range or fewer bytes are left. *)
Theorem Generator_New_spec ms random :
  match Generator_New ms random with
  | Ok (u, rest) => UUIDFromBytes u = Ok u /\ un_be (take 6 u) = ms /\ rest = drop 10 random
  | Fail ErrClockRange => ms < 0 \/ maxUnixMS < ms
  | Fail e => e = ErrRandomSource /\ len random < 10
  end.
Proof.
  unfold Generator_New. destruct ((ms <? 0) || (maxUnixMS <? ms)) eqn:Hms.
  { apply orb_true_iff in Hms. rewrite !Z.ltb_lt in Hms. done. }
  bool_to_prop. destruct (Z.ltb_spec (len random) 10) as [|Hr]; [done|].
  rewrite stamp_be. assert (length (take 10 random) = 10%nat) as Hl.
  { rewrite length_take. unfold len in Hr. lia. }
  destruct (take 10 random) as [|r0 [|r1 [|r2 [|r3 [|r4 [|r5 [|r6 [|r7 [|r8 [|r9 [|]]]]]]]]]]]; try done.
  split; [|split; [|done]].
  - apply UUIDFromBytes_Ok. split; [done|]. split; [done|]. unfold is_v7, at_. cbn [be app nth insert list_insert].
    rewrite !u8_byte_of. destruct (lor_version r0) as [Hv Hvr], (lor_variant r2) as [Hw Hwr].
    rewrite !Z.mod_small, Hv, Hw by done. done.
  - change (take 6 _) with (be 6 ms). apply un_be_be_small. unfold maxUnixMS in *. simpl. lia.
Qed.

(** ** Instances at concrete inputs *)

Definition sample_uuid : UUID :=
  [x01; x8f; x00; x01; x02; x03; x70; x04; x80; x05; x06; x07; x08; x09; x0a; x0b].

Lemma Parse_String_witness : Parse (UUID_String sample_uuid) = Ok sample_uuid.
Proof. apply Parse_String. vm_compute. reflexivity. Defined.

Lemma Parse_canonical_witness :
  UUID_String sample_uuid = lit "018f0001-0203-7004-8005-060708090a0b"
  /\ UUIDFromBytes sample_uuid = Ok sample_uuid.
Proof. apply Parse_canonical. vm_compute. reflexivity. Defined.
