(* ===== verification/Coordinates.v ===== *)
(** [internal/coordinates]: the table and key grammar shared by the HTTP
    boundary, the row store and replicated commands. *)

From Stdlib Require Import ZArith Lia.
From stdpp Require Import base list.
From S2P Require Import Prelude GoStd Codec.

Local Open Scope Z_scope.

Definition MaxTableBytes : Z := 63.
Definition MaxKeyBytes : Z := 1024.

Inductive coordinates_error : Type := ErrInvalid.

Definition reservedTables : list bytes :=
  [lit "_admin"; lit "_cdc"; lit "transactions"].

Definition IsReservedTable (table : bytes) : bool := bool_decide (table ∈ reservedTables).

(** The characters allowed after the first one. *)
Definition table_char (v : byte) : bool :=
  ((0x61 <=? u8 v) && (u8 v <=? 0x7a)) || ((0x30 <=? u8 v) && (u8 v <=? 0x39))
  || (u8 v =? 0x5f) || (u8 v =? 0x2d).

Definition ValidTable (table : bytes) : bool :=
  match table with
  | [] => false
  | c :: rest =>
      if (MaxTableBytes <? len table) || IsReservedTable table then false
      else if (u8 c <? 0x61) || (0x7a <? u8 c) then false
      else forallb table_char rest
  end.

Definition ValidKey (key : bytes) : bool :=
  negb (bool_decide (key = [])) && (len key <=? MaxKeyBytes) && utf8.Valid key
  && negb (bool_decide (x2f ∈ key)).

Definition Validate (table key : bytes) : result coordinates_error unit :=
  if negb (ValidTable table) || negb (ValidKey key) then Fail ErrInvalid else Ok tt.

(** ** Lemmas *)

Lemma ValidTable_spec table :
  ValidTable table = true <->
  exists c rest, table = c :: rest /\ len table <= MaxTableBytes /\ table ∉ reservedTables
    /\ 0x61 <= u8 c <= 0x7a /\ forallb table_char rest = true.
Proof.
  unfold ValidTable, IsReservedTable. destruct table as [|c rest].
  { split; [done|]. by intros (? & ? & ? & _). }
  destruct (Z.ltb_spec MaxTableBytes (len (c :: rest))), (bool_decide_reflect (c :: rest ∈ reservedTables));
    simpl; try (split; [done|]; intros (? & ? & [= <- <-] & ? & ? & _); (done || lia)).
  destruct (Z.ltb_spec (u8 c) 0x61), (Z.ltb_spec 0x7a (u8 c)); simpl;
    try (split; [done|]; intros (? & ? & [= <- <-] & _ & _ & ? & _); lia).
  split.
  - intros ?. exists c, rest. repeat split; (done || lia).
  - by intros (? & ? & [= <- <-] & _ & _ & _ & ?).
Qed.

Lemma ValidKey_spec key :
  ValidKey key = true <->
  key <> [] /\ len key <= MaxKeyBytes /\ utf8.Valid key = true /\ x2f ∉ key.
Proof.
  unfold ValidKey. rewrite !andb_true_iff, !negb_true_iff, !bool_decide_eq_false, Z.leb_le. naive_solver.
Qed.

Lemma table_char_ascii v : table_char v = true -> 0 < u8 v < 0x80.
Proof.
  unfold table_char. rewrite !orb_true_iff, !andb_true_iff, !Z.leb_le, !Z.eqb_eq. lia.
Qed.

Lemma ascii_utf8 l : Forall (fun b => u8 b < 0x80) l -> utf8.Valid l = true.
Proof.
  induction 1 as [|b l Hb Hl IH]; [done|]. cbn [utf8.Valid].
  by rewrite (proj2 (Z.ltb_lt _ _) Hb).
Qed.

Lemma ValidTable_ascii table : ValidTable table = true -> Forall (fun b => 0 < u8 b < 0x80) table.
Proof.
  intros (c & rest & -> & _ & _ & Hc & Hr)%ValidTable_spec. constructor; [lia|].
  rewrite forallb_forall in Hr. apply Forall_forall. intros b Hb.
  apply table_char_ascii, Hr. by apply list_elem_of_In.
Qed.

Lemma escape_nonzero l : Forall (fun b => 0 < u8 b) l -> escape l = l.
Proof.
  induction 1 as [|b l Hb Hl IH]; [done|]. cbn [escape].
  rewrite bool_decide_eq_false_2; [by rewrite IH|]. intros ->. by vm_compute in Hb.
Qed.

Lemma len_escape_le l : len (escape l) <= 2 * len l.
Proof.
  induction l as [|b l IH]; [done|]. cbn [escape].
  case_bool_decide; autorewrite with len; lia.
Qed.

(** The string component of a text that fits. *)
Definition str (l : bytes) : Component := mkComponent StringKind l None.

Lemma String_small l :
  utf8.Valid l = true -> 2 * len l + 5 <= MaxTupleBytes -> Codec.String l = Ok (str l).
Proof.
  intros Hu Hl. pose proof (len_escape_le l). unfold Codec.String.
  change (checkVariableStringBudget 1 l) with (checkVariableBytesBudget 1 l).
  rewrite (proj2 (checkVariableBytesBudget_spec 1 l tt)) by lia. by rewrite Hu.
Qed.

Lemma valid_table_String table : ValidTable table = true -> Codec.String table = Ok (str table).
Proof.
  intros Ht. apply String_small.
  - apply ascii_utf8. eapply Forall_impl; [by apply ValidTable_ascii|]. simpl. lia.
  - apply ValidTable_spec in Ht as (? & ? & -> & Hl & _). unfold MaxTableBytes, MaxTupleBytes in *. lia.
Qed.

Lemma valid_key_String key : ValidKey key = true -> Codec.String key = Ok (str key).
Proof.
  intros (_ & Hl & Hu & _)%ValidKey_spec. apply String_small; [done|].
  unfold MaxKeyBytes, MaxTupleBytes in *. lia.
Qed.

Lemma len_str_table table : ValidTable table = true -> len (component_bytes (str table)) <= 1 + 63 + 2.
Proof.
  intros Ht. unfold component_bytes, payload, str. cbn [kind data].
  rewrite bool_decide_eq_false_2, bool_decide_eq_true_2 by done. cbn [orb].
  rewrite escape_nonzero.
  - autorewrite with len. apply ValidTable_spec in Ht as (? & ? & -> & Hl & _).
    unfold MaxTableBytes in Hl. lia.
  - eapply Forall_impl; [by apply ValidTable_ascii|]. simpl. lia.
Qed.

Lemma len_str_key key : ValidKey key = true -> len (component_bytes (str key)) <= 1 + 2 * 1024 + 2.
Proof.
  intros (_ & Hl & _)%ValidKey_spec. unfold component_bytes, payload, str. cbn [kind data].
  rewrite bool_decide_eq_false_2, bool_decide_eq_true_2 by done. cbn [orb].
  pose proof (len_escape_le key). autorewrite with len. unfold MaxKeyBytes in Hl. lia.
Qed.

Lemma str_shaped l : utf8.Valid l = true -> shaped (str l).
Proof. done. Qed.
