(* ===== verification/Clock.v ===== *)
(** [pkg/clock]: the manual clock.  Timers live in a heap indexed by their
    identity, as the Go pointers do; [timers] is the set of registered ones.
    Panics are [Fail] results, so "never panics" is a theorem about them.
    [time.Time] and [time.Duration] are nanosecond counts. *)

From Stdlib Require Import ZArith Lia.
From stdpp Require Import base list gmap relations.
From S2P Require Import Prelude.

Local Open Scope Z_scope.

Record manualTimer : Type := mkTimer {
  ch : option Z;        (* the one-element buffered channel *)
  deadline : Z;
  active : bool;
  pending : bool
}.

Record Manual : Type := mkManual {
  now : Z;
  timers : gset nat;
  heap : gmap nat manualTimer;
  next_id : nat
}.

Inductive clock_panic : Type :=
| PanicBackwards            (* cannot move manual clock backwards *)
| PanicPendingDelivery      (* timer pending-delivery invariant violated *)
| PanicChannelFull          (* timer channel invariant violated *)
| PanicActivePending        (* active timer pending-delivery invariant violated *)
| PanicNilTimer.            (* method called on a timer that was never created *)

Definition NewManual (start : Z) : Manual := mkManual start ∅ ∅ 0.

Definition Manual_Now (c : Manual) : Z := now c.

Definition with_timer (c : Manual) (id : nat) (t : manualTimer) : Manual :=
  mkManual (now c) (timers c) (<[id := t]> (heap c)) (next_id c).
Definition with_timers (c : Manual) (s : gset nat) : Manual :=
  mkManual (now c) s (heap c) (next_id c).

Definition deliverLocked (t : manualTimer) (tick : Z) : result clock_panic manualTimer :=
  if pending t then Fail PanicPendingDelivery
  else match ch t with
       | Some _ => Fail PanicChannelFull
       | None => Ok (mkTimer (Some tick) (deadline t) (active t) true)
       end.

(** The flag says whether an unread tick was drained. *)
Definition acknowledgePendingLocked (t : manualTimer) : manualTimer * bool :=
  if negb (pending t) then (t, false)
  else match ch t with
       | Some _ => (mkTimer None (deadline t) (active t) false, true)
       | None => (mkTimer None (deadline t) (active t) false, false)
       end.

Definition Prune (c : Manual) : Manual * nat :=
  let count := size (timers c) in
  let drop_timer (id : nat) (c : Manual) :=
    match heap c !! id with
    | Some t => with_timers (with_timer c id (mkTimer (ch t) (deadline t) false (pending t)))
                  (timers c ∖ {[id]})
    | None => with_timers c (timers c ∖ {[id]})
    end in
  (foldr drop_timer c (elements (timers c)), count).

(** The loop body of [Advance]. *)
Definition fire (id : nat) (m : result clock_panic Manual) : result clock_panic Manual :=
  c ← m;
  match heap c !! id with
  | None => Ok c
  | Some t =>
      if active t && (deadline t <=? now c) then
        let t := mkTimer (ch t) (deadline t) false (pending t) in
        t ← deliverLocked t (deadline t);
        Ok (with_timer (with_timers c (timers c ∖ {[id]})) id t)
      else Ok c
  end.

Definition Advance (c : Manual) (duration : Z) : result clock_panic Manual :=
  if duration <? 0 then Fail PanicBackwards
  else
    let c := mkManual (now c + duration) (timers c) (heap c) (next_id c) in
    foldr fire (Ok c) (elements (timers c)).

(** Creates a timer and returns its identity. *)
Definition NewTimer (c : Manual) (duration : Z) : result clock_panic (Manual * nat) :=
  let id := next_id c in
  let t := mkTimer None (now c + duration) false false in
  let c := mkManual (now c) (timers c) (heap c) (S id) in
  if duration <=? 0 then
    t ← deliverLocked t (now c);
    Ok (with_timer c id t, id)
  else
    let t := mkTimer (ch t) (deadline t) true (pending t) in
    Ok (with_timer (with_timers c ({[id]} ∪ timers c)) id t, id).

Definition Stop (c : Manual) (id : nat) : result clock_panic (Manual * bool) :=
  match heap c !! id with
  | None => Fail PanicNilTimer
  | Some t =>
      if negb (active t) then
        let '(t, b) := acknowledgePendingLocked t in Ok (with_timer c id t, b)
      else if pending t then Fail PanicActivePending
      else
        let t := mkTimer (ch t) (deadline t) false (pending t) in
        Ok (with_timer (with_timers c (timers c ∖ {[id]})) id t, true)
  end.

Definition Reset (c : Manual) (id : nat) (duration : Z) : result clock_panic (Manual * bool) :=
  match heap c !! id with
  | None => Fail PanicNilTimer
  | Some t =>
      let wasActive := active t in
      if active t && pending t then Fail PanicActivePending
      else
        let '(t, wasActive) :=
          if negb (active t) && pending t then acknowledgePendingLocked t else (t, wasActive) in
        let c := with_timers c (timers c ∖ {[id]}) in
        let t := mkTimer (ch t) (now c + duration) (active t) (pending t) in
        if duration <=? 0 then
          let t := mkTimer (ch t) (deadline t) false (pending t) in
          t ← deliverLocked t (now c);
          Ok (with_timer c id t, wasActive)
        else
          let t := mkTimer (ch t) (deadline t) true (pending t) in
          Ok (with_timer (with_timers c ({[id]} ∪ timers c)) id t, wasActive)
  end.

(** A consumer reads the timer's channel: [v := <-t.C()]. *)
Definition receive (c : Manual) (id : nat) : option (Manual * Z) :=
  match heap c !! id with
  | Some t => match ch t with
              | Some v => Some (with_timer c id (mkTimer None (deadline t) (active t) (pending t)), v)
              | None => None
              end
  | None => None
  end.

(** ** The clock as a transition system *)

Inductive op : Type :=
| OpAdvance (d : Z) | OpNewTimer (d : Z) | OpStop (id : nat) | OpReset (id : nat) (d : Z)
| OpPrune | OpReceive (id : nat).

(** One call, for the calls a client can make: timers it owns, no negative
    advance, and a receive only when a tick is there. *)
Definition exec (c : Manual) (o : op) : result clock_panic Manual :=
  match o with
  | OpAdvance d => Advance c d
  | OpNewTimer d => '(c, _) ← NewTimer c d; Ok c
  | OpStop id => '(c, _) ← Stop c id; Ok c
  | OpReset id d => '(c, _) ← Reset c id d; Ok c
  | OpPrune => Ok (fst (Prune c))
  | OpReceive id => match receive c id with Some (c, _) => Ok c | None => Ok c end
  end.

Definition allowed (c : Manual) (o : op) : Prop :=
  match o with
  | OpAdvance d => 0 <= d
  | OpStop id | OpReset id _ => is_Some (heap c !! id)
  | _ => True
  end.

Inductive step : Manual -> Manual -> Prop :=
| step_exec c o c' : allowed c o -> exec c o = Ok c' -> step c c'.

(** ** Invariant *)

Definition timer_ok (c : Manual) (id : nat) (t : manualTimer) : Prop :=
  (active t = true <-> id ∈ timers c) /\
  (active t = true -> pending t = false /\ now c < deadline t) /\
  (pending t = false -> ch t = None).

Definition wf (c : Manual) : Prop :=
  (forall id t, heap c !! id = Some t -> timer_ok c id t) /\
  (forall id, id ∈ timers c -> is_Some (heap c !! id)) /\
  (forall id, is_Some (heap c !! id) -> (id < next_id c)%nat).

Lemma wf_NewManual start : wf (NewManual start).
Proof. split; [|split]; simpl; [by intros ? ? ?%lookup_empty_Some|set_solver|by intros ? [? ?%lookup_empty_Some]]. Qed.

Lemma acknowledge_spec t :
  (pending t = false -> ch t = None) ->
  acknowledgePendingLocked t =
  (mkTimer None (deadline t) (active t) false, bool_decide (is_Some (ch t))).
Proof.
  destruct t as [[v|] d a []]; simpl; intros H; try done.
  by specialize (H eq_refl).
Qed.

(** ** Advance *)

Definition due (n : Z) (t : manualTimer) : bool := active t && (deadline t <=? n).

(** What a timer becomes when the clock has reached [n]. *)
Definition fired (n : Z) (t : manualTimer) : manualTimer :=
  if due n t then mkTimer (Some (deadline t)) (deadline t) false true else t.

Lemma fire_all c l :
  NoDup l ->
  (forall id t, heap c !! id = Some t -> active t = true -> pending t = false /\ ch t = None) ->
  exists c', foldr fire (Ok c) l = Ok c' /\ now c' = now c /\ next_id c' = next_id c /\
    (forall id, heap c' !! id = if decide (id ∈ l) then fired (now c) <$> heap c !! id
                                else heap c !! id) /\
    (forall id, id ∈ timers c' <->
       id ∈ timers c /\ ~ (id ∈ l /\ exists t, heap c !! id = Some t /\ due (now c) t = true)).
Proof.
  intros Hnd Hok. induction Hnd as [|id l Hid Hnd IH].
  { exists c. split; [done|]. split; [done|]. split; [done|]. split; [done|]. set_solver. }
  destruct IH as (c' & Hf & Hnow & Hnext & Hheap & Htim). cbn [foldr]. rewrite Hf. cbn.
  rewrite Hheap. rewrite decide_False by done.
  destruct (heap c !! id) as [t|] eqn:Ht.
  - rewrite Hnow. fold (due (now c) t). destruct (due (now c) t) eqn:Hdue.
    + unfold due in Hdue. apply andb_true_iff in Hdue as [Ha Hd].
      destruct (Hok id t Ht Ha) as [Hp Hc]. unfold deliverLocked. cbn. rewrite Hp, Hc. cbn.
      eexists. split; [done|]. cbn. split; [done|]. split; [done|]. split.
      * intros id'. destruct (decide (id' = id)) as [->|Hne].
        -- rewrite lookup_insert_eq, Ht, decide_True by (left; done). cbn.
           unfold fired, due. by rewrite Ha, Hd.
        -- rewrite lookup_insert_ne, Hheap by done.
           destruct (decide (id' ∈ l)), (decide (id' ∈ id :: l)); set_solver.
      * intros id'. rewrite elem_of_difference, elem_of_singleton, Htim.
        assert (due (now c) t = true) by (unfold due; by rewrite Ha, Hd).
        destruct (decide (id' = id)) as [->|Hne]; [split; [naive_solver|]|set_solver].
        intros [? []]. split; [left; done|eauto].
    + eexists. split; [done|]. split; [done|]. split; [done|]. split.
      * intros id'. rewrite Hheap. destruct (decide (id' = id)) as [->|Hne].
        -- rewrite decide_False, decide_True by (done || (left; done)). rewrite Ht. cbn.
           unfold fired. by rewrite Hdue.
        -- destruct (decide (id' ∈ l)), (decide (id' ∈ id :: l)); set_solver.
      * intros id'. rewrite Htim. destruct (decide (id' = id)) as [->|Hne]; [|set_solver].
        split; intros [? Hn]; (split; [done|]); intros [Hin (t' & Ht' & Hd')]; simplify_eq; congruence.
  - eexists. split; [done|]. split; [done|]. split; [done|]. split.
    + intros id'. rewrite Hheap. destruct (decide (id' = id)) as [->|Hne].
      * rewrite decide_False, decide_True by (done || (left; done)). by rewrite Ht.
      * destruct (decide (id' ∈ l)), (decide (id' ∈ id :: l)); set_solver.
    + intros id'. rewrite Htim. destruct (decide (id' = id)) as [->|Hne]; [|set_solver].
      split; intros [? Hn]; (split; [done|]); intros [Hin (t' & Ht' & Hd')]; congruence.
Qed.

Lemma wf_active_idle c id t :
  wf c -> heap c !! id = Some t -> active t = true -> pending t = false /\ ch t = None.
Proof. intros (H & _ & _) Ht Ha. destruct (H id t Ht) as (_ & H2 & H3). naive_solver. Qed.

Lemma Advance_heap c d :
  wf c -> 0 <= d ->
  exists c', Advance c d = Ok c' /\ now c' = now c + d /\ next_id c' = next_id c /\
    (forall id, heap c' !! id = fired (now c + d) <$> heap c !! id) /\
    (forall id, id ∈ timers c' <->
       id ∈ timers c /\ ~ (exists t, heap c !! id = Some t /\ due (now c + d) t = true)).
Proof.
  intros Hwf Hd. unfold Advance. rewrite (proj2 (Z.ltb_ge d 0)) by lia.
  destruct (fire_all (mkManual (now c + d) (timers c) (heap c) (next_id c)) (elements (timers c)))
    as (c' & Hf & Hnow & Hnext & Hheap & Htim).
  { apply NoDup_elements. }
  { cbn. intros. by eapply wf_active_idle. }
  exists c'. cbn in *. split; [done|]. split; [done|]. split; [done|]. split.
  - intros id. rewrite Hheap. case_decide as Hin; [done|]. rewrite elem_of_elements in Hin.
    destruct (heap c !! id) as [t|] eqn:Ht; [|done]. cbn. unfold fired, due.
    destruct (active t) eqn:Ha; [|done]. apply Hwf in Ht. destruct Ht as [[Ht _] _]. naive_solver.
  - intros id. rewrite Htim, elem_of_elements. naive_solver.
Qed.

Lemma wf_Advance c d c' : wf c -> 0 <= d -> Advance c d = Ok c' -> wf c'.
Proof.
  intros Hwf Hd Hadv. destruct (Advance_heap c d Hwf Hd) as (c2 & H2 & Hnow & Hnext & Hheap & Htim).
  rewrite H2 in Hadv. injection Hadv as <-. pose proof Hwf as (Hok & Hreg & Hfresh). split; [|split].
  - intros id t'. rewrite Hheap, fmap_Some. intros (t & Ht & ->). specialize (Hok id t Ht).
    destruct Hok as (Hact & Hidle & Hch). unfold timer_ok. rewrite Htim, Hnow. unfold fired.
    destruct (due (now c + d) t) eqn:Hdue; cbn.
    + split; [|split; done]. split; [done|]. intros [_ []]. eauto.
    + split; [|split; [|done]].
      * rewrite Hact. split; [|naive_solver]. intros Hin. split; [done|].
        intros (t2 & Ht2 & Hd2). congruence.
      * intros Ha. split; [naive_solver|]. unfold due in Hdue. rewrite Ha in Hdue.
        by apply Z.leb_gt in Hdue.
  - intros id. rewrite Htim, Hheap. intros [Hin _]. apply fmap_is_Some. auto.
  - intros id. rewrite Hheap, fmap_is_Some, Hnext. auto.
Qed.

(** Updating one timer and the registration set around it. *)
Lemma wf_update c id t s n :
  wf c -> (next_id c <= n)%nat -> (id < n)%nat ->
  (forall id', id' <> id -> id' ∈ s <-> id' ∈ timers c) ->
  timer_ok (mkManual (now c) s (heap c) n) id t ->
  wf (mkManual (now c) s (<[id := t]> (heap c)) n).
Proof.
  intros (Hok & Hreg & Hfresh) Hn Hid Hs Ht. split; [|split]; cbn.
  - intros id' t'. destruct (decide (id' = id)) as [->|Hne].
    + rewrite lookup_insert_eq. by intros [= <-].
    + rewrite lookup_insert_ne by done. intros Ht'. destruct (Hok id' t' Ht') as (H1 & H2 & H3).
      unfold timer_ok. cbn. rewrite Hs by done. auto.
  - intros id' Hin. destruct (decide (id' = id)) as [->|Hne]; [rewrite lookup_insert_eq; eauto|].
    rewrite lookup_insert_ne by done. apply Hreg. by apply Hs.
  - intros id'. destruct (decide (id' = id)) as [->|Hne]; [done|].
    rewrite lookup_insert_ne by done. intros Hi%Hfresh. lia.
Qed.

Lemma wf_NewTimer c d : wf c -> exists c' id, NewTimer c d = Ok (c', id) /\ wf c'.
Proof.
  intros Hwf. pose proof Hwf as (_ & Hreg & Hfresh).
  assert (next_id c ∉ timers c) as Hnew.
  { intros Hin%Hreg%Hfresh. lia. }
  unfold NewTimer. destruct (Z.leb_spec d 0).
  - cbn. eexists _, _. split; [done|]. unfold with_timer, with_timers; cbn [now timers heap next_id]; apply (wf_update c); [done|lia|lia|done|].
    unfold timer_ok. cbn. split; [by split|]. split; done.
  - eexists _, _. split; [done|]. cbn. unfold with_timer, with_timers; cbn [now timers heap next_id]; apply (wf_update c); [done|lia|lia|set_solver|].
    unfold timer_ok. cbn. split; [set_solver|]. split; [|done]. intros _. split; [done|lia].
Qed.

Lemma wf_Stop c id t :
  wf c -> heap c !! id = Some t ->
  exists c' t', Stop c id = Ok (c', active t || bool_decide (is_Some (ch t))) /\ wf c' /\
    heap c' !! id = Some t' /\ active t' = false /\ pending t' = false /\ ch t' = None.
Proof.
  intros Hwf Ht. pose proof Hwf as (Hok & _ & Hfresh). destruct (Hok id t Ht) as (H1 & H2 & H3).
  assert (id < next_id c)%nat as Hid by eauto. unfold Stop. rewrite Ht.
  destruct (active t) eqn:Ha; cbn.
  - destruct (H2 eq_refl) as [Hp Hd]. rewrite Hp. eexists _, _. split; [done|]. cbn.
    rewrite lookup_insert_eq. split; [|split; [done|auto]].
    unfold with_timer, with_timers; cbn [now timers heap next_id]; apply (wf_update c); [done|lia|done|set_solver|]. unfold timer_ok. cbn.
    split; [set_solver|]. split; [done|auto].
  - rewrite acknowledge_spec by done. eexists _, _. split; [done|]. cbn.
    rewrite lookup_insert_eq. split; [|split; [done|auto]].
    unfold with_timer, with_timers; cbn [now timers heap next_id]; apply (wf_update c); [done|lia|done|set_solver|]. unfold timer_ok. cbn.
    split; [by rewrite Ha, H1|]. split; [by rewrite Ha|auto].
Qed.

Lemma wf_Reset c id t d :
  wf c -> heap c !! id = Some t ->
  exists c' t', Reset c id d = Ok (c', active t || bool_decide (is_Some (ch t))) /\ wf c' /\
    heap c' !! id = Some t' /\ deadline t' = now c + d /\
    (if d <=? 0 then active t' = false /\ ch t' = Some (now c)
     else active t' = true /\ ch t' = None).
Proof.
  intros Hwf Ht. pose proof Hwf as (Hok & _ & Hfresh). destruct (Hok id t Ht) as (H1 & H2 & H3).
  assert (id < next_id c)%nat as Hid by eauto.
  assert (Hc : active t = true -> ch t = None) by naive_solver.
  unfold Reset. rewrite Ht.
  assert (active t && pending t = false) as ->.
  { destruct (active t); [|done]. by destruct H2. }
  assert ((if negb (active t) && pending t then acknowledgePendingLocked t else (t, active t))
    = (mkTimer None (deadline t) (active t) false, active t || bool_decide (is_Some (ch t)))) as ->.
  { destruct (active t) eqn:Ha; cbn.
    - destruct (H2 eq_refl) as [Hp _]. specialize (Hc eq_refl). clear -Ha Hp Hc.
      destruct t; cbn in *. by subst.
    - destruct (pending t) eqn:Hp; [rewrite acknowledge_spec by congruence; by rewrite Ha|].
      specialize (H3 eq_refl). clear -Ha Hp H3. destruct t; cbn in *. by subst. }
  destruct (Z.leb_spec d 0); cbn.
  - eexists _, _. split; [done|]. cbn. rewrite lookup_insert_eq. split; [|auto].
    unfold with_timer, with_timers; cbn [now timers heap next_id]; apply (wf_update c); [done|lia|done|set_solver|]. unfold timer_ok. cbn.
    split; [set_solver|]. split; done.
  - eexists _, _. split; [done|]. cbn. rewrite lookup_insert_eq. split; [|auto].
    unfold with_timer, with_timers; cbn [now timers heap next_id]; apply (wf_update c); [done|lia|done|set_solver|]. unfold timer_ok. cbn.
    split; [set_solver|]. split; [|done]. intros _. split; [done|lia].
Qed.

Lemma wf_receive c id : wf c -> match receive c id with Some (c', _) => wf c' | None => True end.
Proof.
  intros Hwf. unfold receive. destruct (heap c !! id) as [t|] eqn:Ht; [|done].
  destruct (ch t) as [v|] eqn:Hch; [|done]. pose proof Hwf as (Hok & _ & Hfresh).
  destruct (Hok id t Ht) as (H1 & H2 & H3).
  unfold with_timer, with_timers; cbn [now timers heap next_id]; apply (wf_update c); [done|lia|eauto|done|]. unfold timer_ok. cbn. auto.
Qed.

Lemma wf_Prune c : wf c -> wf (fst (Prune c)).
Proof.
  intros Hwf. unfold Prune. cbn. generalize (elements (timers c)). intros l.
  induction l as [|id l IH]; [done|]. cbn [foldr].
  destruct (heap (foldr _ c l) !! id) as [t|] eqn:Ht; [|].
  - pose proof IH as (Hok & _ & Hfresh). destruct (Hok id t Ht) as (H1 & H2 & H3).
    unfold with_timer, with_timers; cbn [now timers heap next_id]; apply wf_update; [done|lia|eauto|set_solver|]. unfold timer_ok. cbn.
    split; [set_solver|]. split; [done|auto].
  - destruct IH as (Hok & Hreg & Hfresh). split; [|split]; cbn.
    + intros id' t' Ht'. destruct (Hok id' t' Ht') as (H1 & H2 & H3).
      unfold timer_ok. cbn. split; [|done]. rewrite H1. set_solver.
    + intros id' Hin. apply Hreg. set_solver.
    + done.
Qed.

Lemma wf_exec c o :
  wf c -> allowed c o -> exists c', exec c o = Ok c' /\ wf c'.
Proof.
  intros Hwf Hal. destruct o as [d|d|id|id d| |id]; cbn in *.
  - destruct (Advance_heap c d Hwf Hal) as (c' & H & _). exists c'.
    split; [done|]. by eapply wf_Advance.
  - destruct (wf_NewTimer c d Hwf) as (c' & id & -> & Hw). eauto.
  - destruct Hal as [t Ht]. destruct (wf_Stop c id t Hwf Ht) as (c' & t' & -> & Hw & _). eauto.
  - destruct Hal as [t Ht]. destruct (wf_Reset c id t d Hwf Ht) as (c' & t' & -> & Hw & _). eauto.
  - eexists. split; [done|]. by apply wf_Prune.
  - pose proof (wf_receive c id Hwf) as Hr. destruct (receive c id) as [[c' v]|]; eauto.
Qed.

Lemma wf_reachable start c : rtc step (NewManual start) c -> wf c.
Proof.
  intros Hr. assert (forall a b, rtc step a b -> wf a -> wf b) as Hinv.
  { induction 1 as [|a b d Hs _ IH]; [done|]. intros Ha. apply IH.
    destruct Hs as [a o b Hal He]. destruct (wf_exec a o Ha Hal) as (b' & Hb & Hw). congruence. }
  eapply Hinv; [done|]. apply wf_NewManual.
Qed.

(** ** Theorems *)

(** starting from a fresh clock, no sequence of clock, timer and channel
    operations reaches a panic, and every reachable clock satisfies the
    invariant tying registration, pending deliveries and channel contents. *)
Theorem clock_never_panics start c o :
  rtc step (NewManual start) c -> allowed c o -> wf c /\ exists c', exec c o = Ok c'.
Proof.
  intros Hr Hal. pose proof (wf_reachable start c Hr) as Hwf.
  split; [done|]. destruct (wf_exec c o Hwf Hal) as (c' & H & _). eauto.
Qed.

(** advancing the clock delivers to every timer due by the new instant
    its own deadline, exactly once, deactivates and unregisters it, and leaves
    every other timer as it was. *)
Theorem Advance_delivers c d :
  wf c -> 0 <= d ->
  exists c', Advance c d = Ok c' /\ now c' = now c + d /\
    forall id t, heap c !! id = Some t ->
      if due (now c + d) t
      then heap c' !! id = Some (mkTimer (Some (deadline t)) (deadline t) false true) /\ id ∉ timers c'
      else heap c' !! id = Some t /\ (id ∈ timers c' <-> id ∈ timers c).
Proof.
  intros Hwf Hd. destruct (Advance_heap c d Hwf Hd) as (c' & H & Hnow & _ & Hheap & Htim).
  exists c'. split; [done|]. split; [done|]. intros id t Ht.
  rewrite Hheap, Ht. cbn. unfold fired. destruct (due (now c + d) t) eqn:Hdue; rewrite Htim.
  - split; [done|]. intros [_ []]. eauto.
  - split; [done|]. split; [naive_solver|]. intros Hin. split; [done|].
    intros (t' & Ht' & Hd'). congruence.
Qed.

(** [Stop] and [Reset] report whether the timer was running or had an
    unread tick, and no stale tick survives them: after [Stop] the channel is
    empty and the timer idle, after [Reset] the channel holds only a tick of
    the new deadline. *)
Theorem Stop_Reset_no_stale_tick c id t d :
  wf c -> heap c !! id = Some t ->
  (exists c' t', Stop c id = Ok (c', active t || bool_decide (is_Some (ch t))) /\
     heap c' !! id = Some t' /\ active t' = false /\ ch t' = None) /\
  (exists c' t', Reset c id d = Ok (c', active t || bool_decide (is_Some (ch t))) /\
     heap c' !! id = Some t' /\ deadline t' = now c + d /\
     if d <=? 0 then active t' = false /\ ch t' = Some (now c)
     else active t' = true /\ ch t' = None).
Proof.
  intros Hwf Ht. split.
  - destruct (wf_Stop c id t Hwf Ht) as (c' & t' & H & _ & H1 & H2 & _ & H3). eauto 10.
  - destruct (wf_Reset c id t d Hwf Ht) as (c' & t' & H & _ & H1 & H2 & H3). eauto 10.
Qed.

(** ** Instances at concrete inputs *)

Definition sample_timer : manualTimer := mkTimer None 15 true false.
Definition sample_clock : Manual := mkManual 10 {[0%nat]} {[0%nat := sample_timer]} 1.

Lemma sample_clock_reachable : rtc step (NewManual 10) sample_clock.
Proof.
  apply rtc_once. apply (step_exec _ (OpNewTimer 5)); [done|]. vm_compute. reflexivity.
Qed.

Lemma clock_never_panics_witness :
  wf sample_clock /\ exists c', exec sample_clock (OpReset 0 3) = Ok c'.
Proof.
  apply (clock_never_panics 10); [apply sample_clock_reachable|].
  exists sample_timer. vm_compute. reflexivity.
Defined.

Lemma Advance_delivers_witness :
  exists c', Advance sample_clock 7 = Ok c' /\ now c' = now sample_clock + 7 /\
    forall id t, heap sample_clock !! id = Some t ->
      if due (now sample_clock + 7) t
      then heap c' !! id = Some (mkTimer (Some (deadline t)) (deadline t) false true) /\ id ∉ timers c'
      else heap c' !! id = Some t /\ (id ∈ timers c' <-> id ∈ timers sample_clock).
Proof.
  apply Advance_delivers; [|lia].
  apply (wf_reachable 10), sample_clock_reachable.
Defined.

Lemma Stop_Reset_no_stale_tick_witness :
  (exists c' t', Stop sample_clock 0 = Ok (c', true) /\
     heap c' !! 0%nat = Some t' /\ active t' = false /\ ch t' = None) /\
  (exists c' t', Reset sample_clock 0 0 = Ok (c', true) /\
     heap c' !! 0%nat = Some t' /\ deadline t' = now sample_clock + 0 /\
     (active t' = false /\ ch t' = Some (now sample_clock))).
Proof.
  apply (Stop_Reset_no_stale_tick sample_clock 0 sample_timer 0); [|reflexivity].
  apply (wf_reachable 10), sample_clock_reachable.
Defined.
