(* ===== verification/Failpoint.v ===== *)
(** [pkg/failpoint]: explicitly injected test failpoints. *)

From Stdlib Require Import ZArith Lia.
From stdpp Require Import base list gmap.
From S2P Require Import Prelude.

Local Open Scope Z_scope.

Record point : Type := mkPoint { enabled : bool; hits : Z }.

(** The zero Registry has a nil map, [New] an empty one. *)
Record Registry : Type := mkRegistry { points : option (gmap bytes point) }.

Inductive failpoint_error : Type := ErrEmptyName | ErrUnknown (name : bytes).

Definition New : Registry := mkRegistry (Some ∅).

(** [r.points[name]]; reading a nil map finds nothing. *)
Definition lookup_point (r : Registry) (name : bytes) : option point :=
  match points r with Some m => m !! name | None => None end.

Definition set_point (r : Registry) (name : bytes) (p : point) : Registry :=
  mkRegistry (Some (<[name := p]> (default ∅ (points r)))).

Definition Register (r : Registry) (name : bytes) : result failpoint_error Registry :=
  if bool_decide (name = []) then Fail ErrEmptyName
  else
    let r := match points r with None => mkRegistry (Some ∅) | Some _ => r end in
    match lookup_point r name with
    | None => Ok (set_point r name (mkPoint false 0))
    | Some _ => Ok r
    end.

Definition Enable (r : Registry) (name : bytes) : result failpoint_error Registry :=
  match lookup_point r name with
  | None => Fail (ErrUnknown name)
  | Some p => Ok (set_point r name (mkPoint true (hits p)))
  end.

Definition Disable (r : Registry) (name : bytes) : result failpoint_error Registry :=
  match lookup_point r name with
  | None => Fail (ErrUnknown name)
  | Some p => Ok (set_point r name (mkPoint false (hits p)))
  end.

Definition Enabled (r : Registry) (name : bytes) : bool :=
  match lookup_point r name with None => false | Some p => enabled p end.

Definition Hit (r : Registry) (name : bytes) : result failpoint_error (Registry * bool) :=
  match lookup_point r name with
  | None => Fail (ErrUnknown name)
  | Some p =>
      if negb (enabled p) then Ok (r, false)
      else Ok (set_point r name (mkPoint (enabled p) (uint64 (hits p + 1))), true)
  end.

Definition Hits (r : Registry) (name : bytes) : result failpoint_error Z :=
  match lookup_point r name with
  | Some p => Ok (hits p)
  | None => Fail (ErrUnknown name)
  end.

(** ** Traces of calls *)

Inductive call : Type :=
| CRegister (name : bytes) | CEnable (name : bytes) | CDisable (name : bytes) | CHit (name : bytes).

Definition run_call (r : Registry) (c : call) : Registry :=
  match c with
  | CRegister n => match Register r n with Ok r' => r' | Fail _ => r end
  | CEnable n => match Enable r n with Ok r' => r' | Fail _ => r end
  | CDisable n => match Disable r n with Ok r' => r' | Fail _ => r end
  | CHit n => match Hit r n with Ok (r', _) => r' | Fail _ => r end
  end.

(** What the calls on one name amount to: whether it is registered and
    enabled, and how many times it was hit while enabled. *)
Definition track (name : bytes) (s : option (bool * Z)) (c : call) : option (bool * Z) :=
  match c, s with
  | CRegister n, None => if bool_decide (n = name /\ n <> []) then Some (false, 0) else None
  | CEnable n, Some (_, k) => if bool_decide (n = name) then Some (true, k) else s
  | CDisable n, Some (_, k) => if bool_decide (n = name) then Some (false, k) else s
  | CHit n, Some (true, k) => if bool_decide (n = name) then Some (true, k + 1) else s
  | _, _ => s
  end.

Lemma lookup_set_point r n p n' :
  lookup_point (set_point r n p) n' = if decide (n = n') then Some p else lookup_point r n'.
Proof.
  unfold lookup_point, set_point. destruct (points r) as [m|]; cbn; rewrite lookup_insert; done.
Qed.

Lemma uint64_succ z : uint64 (uint64 z + 1) = uint64 (z + 1).
Proof. unfold uint64. by rewrite Zplus_mod_idemp_l. Qed.

Lemma track_step name r c s :
  lookup_point r name = (fun '(e, k) => mkPoint e (uint64 k)) <$> s ->
  lookup_point (run_call r c) name = (fun '(e, k) => mkPoint e (uint64 k)) <$> track name s c.
Proof.
  intros H. destruct c as [n|n|n|n]; cbn.
  - unfold Register. destruct (bool_decide_reflect (n = [])) as [->|Hn]; cbn.
    { rewrite H. destruct s; [done|]. rewrite bool_decide_eq_false_2; naive_solver. }
    assert (forall n', lookup_point match points r with Some _ => r | None => mkRegistry (Some ∅) end n'
            = lookup_point r n') as Hnil.
    { intros n'. unfold lookup_point. destruct (points r) eqn:Hpr; cbn; [by rewrite Hpr|]. apply lookup_empty. }
    rewrite Hnil. destruct (lookup_point r n) as [p|] eqn:Hp.
    + rewrite Hnil, H. destruct s; [done|]. rewrite bool_decide_eq_false_2; [done|].
      intros [-> _]. rewrite H in Hp. done.
    + rewrite lookup_set_point. destruct (decide (n = name)) as [->|Hne].
      * rewrite H in Hp. destruct s; [done|]. by rewrite bool_decide_eq_true_2.
      * rewrite Hnil, H. destruct s; [done|]. rewrite bool_decide_eq_false_2; naive_solver.
  - unfold Enable. destruct (lookup_point r n) as [p|] eqn:Hp.
    + rewrite lookup_set_point. destruct (decide (n = name)) as [->|Hne].
      * rewrite H in Hp. destruct s as [[e k]|]; [|done]. injection Hp as <-.
        by rewrite bool_decide_eq_true_2.
      * rewrite H. destruct s as [[e k]|]; [|done]. by rewrite bool_decide_eq_false_2.
    + rewrite H. destruct s as [[e k]|]; [|done]. rewrite bool_decide_eq_false_2; [done|].
      intros ->. rewrite H in Hp. done.
  - unfold Disable. destruct (lookup_point r n) as [p|] eqn:Hp.
    + rewrite lookup_set_point. destruct (decide (n = name)) as [->|Hne].
      * rewrite H in Hp. destruct s as [[e k]|]; [|done]. injection Hp as <-.
        by rewrite bool_decide_eq_true_2.
      * rewrite H. destruct s as [[e k]|]; [|done]. by rewrite bool_decide_eq_false_2.
    + rewrite H. destruct s as [[e k]|]; [|done]. rewrite bool_decide_eq_false_2; [done|].
      intros ->. rewrite H in Hp. done.
  - unfold Hit. destruct (lookup_point r n) as [p|] eqn:Hp.
    + destruct (enabled p) eqn:He; cbn [negb].
      * rewrite lookup_set_point. destruct (decide (n = name)) as [->|Hne].
        -- rewrite H in Hp. destruct s as [[e k]|]; [|done]. injection Hp as <-. cbn in *. subst e.
           rewrite bool_decide_eq_true_2 by done. cbn. by rewrite uint64_succ.
        -- rewrite H. destruct s as [[[] k]|]; [|done..]. by rewrite bool_decide_eq_false_2.
      * rewrite H. destruct s as [[[] k]|]; [|done..]. rewrite bool_decide_eq_false_2; [done|].
        intros ->. rewrite H in Hp. injection Hp as <-. done.
    + rewrite H. destruct s as [[[] k]|]; [|done..]. rewrite bool_decide_eq_false_2; [done|].
      intros ->. rewrite H in Hp. done.
Qed.

Lemma track_run name calls r s :
  lookup_point r name = (fun '(e, k) => mkPoint e (uint64 k)) <$> s ->
  lookup_point (fold_left run_call calls r) name
  = (fun '(e, k) => mkPoint e (uint64 k)) <$> fold_left (track name) calls s.
Proof.
  revert r s. induction calls as [|c calls IH]; intros r s H; [done|]. cbn.
  apply IH. by apply track_step.
Qed.

(** after any sequence of calls on a fresh registry, a name is unknown
    exactly when it was never registered, and otherwise its state and its hit
    count are those of its own calls: hits are counted only while the point is
    enabled, modulo 2^64. *)
Theorem registry_tracks_calls calls name :
  let r := fold_left run_call calls New in
  match fold_left (track name) calls None with
  | None => Enabled r name = false /\ Hits r name = Fail (ErrUnknown name)
  | Some (e, k) => Enabled r name = e /\ Hits r name = Ok (uint64 k)
  end.
Proof.
  cbv zeta. pose proof (track_run name calls New None eq_refl) as H.
  unfold Enabled, Hits. rewrite H. by destruct (fold_left (track name) calls None) as [[e k]|].
Qed.
