(* ===== verification/EngineOps.v ===== *)
(** [internal/engine], the data of the write path: options and their
    normalization ([api.go]), batches, operations, their validation and
    canonical order, and the memtable and recovery states they are applied to
    ([wal.go], [sst.go]). *)

From Stdlib Require Import ZArith Lia.
From stdpp Require Import base list gmap.
From S2P Require Import Prelude.

Local Open Scope Z_scope.

(** The sentinel errors of the package; the ones the code wraps with a
    message carry it. *)
Inductive engine_error : Type :=
| ErrClosed
| ErrPoisoned (why : string)
| ErrCorrupt (why : string)
| ErrLocked
| ErrInvalidKey
| ErrValueTooLarge
| ErrBatchTooLarge (why : string)
| ErrDuplicateKey (why : string)
| ErrInvalidBatch (why : string)
| ErrInvalidLimit
| ErrNotFound
| ErrShortWrite
| ErrInvalidDataDir
| ErrFilesystem (why : string)
| ErrTooManySnapshot
(** An error the file system itself returned. *)
| ErrIO.

#[export] Instance engine_error_eq_dec : EqDecision engine_error.
Proof. solve_decision. Defined.

(** ** Options *)

Record Options : Type := mkOptions {
  MaxKeyBytes : Z;
  MaxValueBytes : Z;
  MaxBatchOps : Z;
  MaxBatchBytes : Z;
  MaxScanItems : Z;
  MaxSnapshots : Z;
  SegmentBytes : Z;
  MemtableBytes : Z;
  SSTBlockBytes : Z;
  MaxSSTBytes : Z;
  MaxSSTFiles : Z
}.

Definition DefaultMaxKeyBytes : Z := 2 ^ 10.
Definition DefaultMaxValueBytes : Z := 2 ^ 20.
Definition DefaultMaxBatchOps : Z := 4096.
Definition DefaultMaxBatchBytes : Z := 16 * 2 ^ 20.
Definition DefaultMaxScanItems : Z := 4096.
Definition DefaultMaxSnapshots : Z := 64.
Definition DefaultSegmentBytes : Z := 16 * 2 ^ 20.
Definition DefaultMemtableBytes : Z := 4 * 2 ^ 20.
Definition DefaultSSTBlockBytes : Z := 32 * 2 ^ 10.
Definition DefaultMaxSSTBytes : Z := 128 * 2 ^ 20.
Definition DefaultMaxSSTFiles : Z := 64.

(** Layout constants of the WAL and SST formats the bounds refer to. *)
Definition segmentHeaderLen : Z := 28.
Definition frameHeaderLen : Z := 32.
Definition frameTrailerLen : Z := 4.
Definition minSegmentBytes : Z := segmentHeaderLen + frameHeaderLen + frameTrailerLen + 9.
Definition sstHeaderLen : Z := 40.
Definition blockHeaderLen : Z := 16.
Definition sstFooterLen : Z := 32.
Definition l0CompactionTrigger : Z := 4.

(** [int] is 64 bits wide; an addition that would overflow is refused. *)
Definition checkedAdd (a b : Z) : Z * bool :=
  if (a <? 0) || (b <? 0) || (max_int64 - b <? a) then (0, false) else (a + b, true).

Definition or_default (v d : Z) : Z := if v =? 0 then d else v.

Definition normalized (o : Options) : result engine_error Options :=
  let o := mkOptions
    (or_default (MaxKeyBytes o) DefaultMaxKeyBytes)
    (or_default (MaxValueBytes o) DefaultMaxValueBytes)
    (or_default (MaxBatchOps o) DefaultMaxBatchOps)
    (or_default (MaxBatchBytes o) DefaultMaxBatchBytes)
    (or_default (MaxScanItems o) DefaultMaxScanItems)
    (or_default (MaxSnapshots o) DefaultMaxSnapshots)
    (or_default (SegmentBytes o) DefaultSegmentBytes)
    (or_default (MemtableBytes o) DefaultMemtableBytes)
    (or_default (SSTBlockBytes o) DefaultSSTBlockBytes)
    (or_default (MaxSSTBytes o) DefaultMaxSSTBytes)
    (or_default (MaxSSTFiles o) DefaultMaxSSTFiles) in
  fail_if ((MaxKeyBytes o <? 1) || (MaxValueBytes o <? 1) || (MaxBatchOps o <? 1)
           || (MaxBatchBytes o <? 1) || (MaxScanItems o <? 1) || (MaxSnapshots o <? 1)
           || (SegmentBytes o <? minSegmentBytes) || (MemtableBytes o <? 1)
           || (SSTBlockBytes o <? 1024) || (MaxSSTBytes o <? SSTBlockBytes o)
           || (MaxSSTFiles o <=? l0CompactionTrigger))
    (ErrInvalidBatch "limits must be positive and segment must hold one frame");;
  fail_if ((max_uint32 <? MaxBatchBytes o) || (max_uint32 <? MaxKeyBytes o)
           || (max_uint32 <? MaxValueBytes o))
    (ErrInvalidBatch "limit exceeds WAL field width");;
  let minRecord := 1 + 4 + 4 + MaxKeyBytes o + MaxValueBytes o + 4 in
  let '(minSST, ok) :=
    checkedAdd (sstHeaderLen + blockHeaderLen + sstFooterLen + 20 + 2 * MaxKeyBytes o) minRecord in
  fail_if (negb ok || (MaxSSTBytes o <? minSST))
    (ErrInvalidBatch "MaxSSTBytes cannot hold one maximum record");;
  Ok o.

(** ** Operations *)

Definition putOp : byte := x01.
Definition deleteOp : byte := x02.

Record operation : Type := mkOp { op_kind : byte; op_key : bytes; op_value : bytes }.

#[export] Instance operation_eq_dec : EqDecision operation.
Proof. solve_decision. Defined.

Definition validateKey (key : bytes) (max : Z) : result engine_error unit :=
  fail_if ((len key =? 0) || (max <? len key)) ErrInvalidKey.

Definition validateOperation (op : operation) (opts : Options) : result engine_error unit :=
  fail_if (negb (bool_decide (op_kind op = putOp)) && negb (bool_decide (op_kind op = deleteOp)))
    (ErrCorrupt "unknown operation kind");;
  validateKey (op_key op) (MaxKeyBytes opts);;
  fail_if (bool_decide (op_kind op = deleteOp) && negb (len (op_value op) =? 0))
    (ErrCorrupt "delete has a value");;
  fail_if (bool_decide (op_kind op = putOp) && (MaxValueBytes opts <? len (op_value op)))
    ErrValueTooLarge.

(** The [seen] loop: does a key occur twice? *)
Fixpoint has_duplicate (seen : gset bytes) (keys : list bytes) : bool :=
  match keys with
  | [] => false
  | k :: keys' => if bool_decide (k ∈ seen) then true else has_duplicate ({[k]} ∪ seen) keys'
  end.

(** ** Batches *)

Record Batch : Type := mkBatch {
  ops : list operation;
  batch_bytes : Z;
  maxOps : Z;
  maxBytes : Z;
  maxKey : Z;
  maxValue : Z;
  sealed : bool
}.

Definition NewBatch : Batch := mkBatch [] 0 0 0 0 0 false.

(** [Engine.NewBatch] on an open engine with the given options. *)
Definition Engine_NewBatch (opts : Options) : Batch :=
  mkBatch [] 0 (MaxBatchOps opts) (MaxBatchBytes opts) (MaxKeyBytes opts) (MaxValueBytes opts) false.

Definition configureDefaults (b : Batch) : Batch :=
  mkBatch (ops b) (batch_bytes b)
    (or_default (maxOps b) DefaultMaxBatchOps) (or_default (maxBytes b) DefaultMaxBatchBytes)
    (or_default (maxKey b) DefaultMaxKeyBytes) (or_default (maxValue b) DefaultMaxValueBytes)
    (sealed b).

Definition find_op (b : Batch) (key : bytes) : bool :=
  existsb (fun o => beq (op_key o) key) (ops b).

Definition add_op (b : Batch) (o : operation) (need : Z) : Batch :=
  mkBatch (ops b ++ [o]) need (maxOps b) (maxBytes b) (maxKey b) (maxValue b) (sealed b).

(** Both methods return the batch with its defaults configured even when they
    fail, as the receiver is mutated before the checks. *)
Definition Batch_Put (b : Batch) (key value : bytes) : Batch * result engine_error unit :=
  let b := configureDefaults b in
  if sealed b then (b, Fail (ErrInvalidBatch "batch already applied"))
  else match validateKey key (maxKey b) with
  | Fail e => (b, Fail e)
  | Ok _ =>
      if maxValue b <? len value then (b, Fail ErrValueTooLarge)
      else if maxOps b <=? len (ops b) then (b, Fail (ErrBatchTooLarge ""))
      else if find_op b key then (b, Fail (ErrDuplicateKey ""))
      else
        let '(need, ok) := checkedAdd (1 + 4 + 4 + len key + len value) (batch_bytes b) in
        if negb ok || (maxBytes b <? need) then (b, Fail (ErrBatchTooLarge ""))
        else (add_op b (mkOp putOp key value) need, Ok tt)
  end.

Definition Batch_Delete (b : Batch) (key : bytes) : Batch * result engine_error unit :=
  let b := configureDefaults b in
  if sealed b then (b, Fail (ErrInvalidBatch "batch already applied"))
  else match validateKey key (maxKey b) with
  | Fail e => (b, Fail e)
  | Ok _ =>
      if maxOps b <=? len (ops b) then (b, Fail (ErrBatchTooLarge ""))
      else if find_op b key then (b, Fail (ErrDuplicateKey ""))
      else
        let '(need, ok) := checkedAdd (1 + 4 + 4 + len key) (batch_bytes b) in
        if negb ok || (maxBytes b <? need) then (b, Fail (ErrBatchTooLarge ""))
        else (add_op b (mkOp deleteOp key []) need, Ok tt)
  end.

(** The size loop of [canonicalOperations]. *)
Fixpoint payload_length (opts : Options) (acc : Z) (l : list operation) : result engine_error Z :=
  match l with
  | [] => Ok acc
  | o :: l' =>
      validateOperation o opts;;
      let acc := acc + (9 + len (op_key o) + len (op_value o)) in
      fail_if ((MaxBatchBytes opts <? acc) || (max_uint32 <? acc)) (ErrBatchTooLarge "");;
      payload_length opts acc l'
  end.

(** A nil batch is [None]. *)
Definition canonicalOperations (batch : option Batch) (opts : Options)
    : result engine_error (list operation * Z) :=
  match batch with
  | None => Fail (ErrInvalidBatch "")
  | Some b =>
      fail_if ((len (ops b) =? 0) || (MaxBatchOps opts <? len (ops b))) (ErrInvalidBatch "");;
      payloadLen ← payload_length opts 0 (ops b);
      fail_if (has_duplicate ∅ (map op_key (ops b))) (ErrDuplicateKey "");;
      Ok (sort_by op_key (ops b), payloadLen)
  end.

(** ** Memtable and recovery state *)

Record memEntry : Type := mkEntry { ent_kind : byte; ent_key : bytes; ent_value : bytes }.

#[export] Instance memEntry_eq_dec : EqDecision memEntry.
Proof. solve_decision. Defined.

Definition entry_size (m : memEntry) : Z := 1 + 4 + 4 + len (ent_key m) + len (ent_value m).

Definition entry_of (o : operation) : memEntry := mkEntry (op_kind o) (op_key o) (op_value o).

(** The state rebuilt from the WAL: live values, tombstones, and the live keys
    in byte order. *)
Record state : Type := mkState {
  values : gmap bytes bytes;
  tombstones : gset bytes;
  keys : list bytes
}.

Definition emptyState : state := mkState ∅ ∅ [].

Definition apply_op (s : gmap bytes bytes * gset bytes) (o : operation) : gmap bytes bytes * gset bytes :=
  let '(vs, ts) := s in
  if bool_decide (op_kind o = deleteOp) then (delete (op_key o) vs, {[op_key o]} ∪ ts)
  else (<[op_key o := op_value o]> vs, ts ∖ {[op_key o]}).

Definition candidateState (base : state) (ops : list operation) (opts : Options)
    : result engine_error state :=
  fail_if ((len ops =? 0) || (MaxBatchOps opts <? len ops)) (ErrInvalidBatch "");;
  for_all (fun op => validateOperation op opts) ops;;
  fail_if (has_duplicate ∅ (map op_key ops)) (ErrDuplicateKey "");;
  let '(vs, ts) := fold_left apply_op ops (values base, tombstones base) in
  Ok (mkState vs ts (sort_by (fun k => k) (elements (dom vs)))).

Definition entriesMap (st : state) : gmap bytes memEntry :=
  let active := map_imap (fun k v => Some (mkEntry putOp k v)) (values st) in
  set_fold (fun k m => <[k := mkEntry deleteOp k []]> m) active (tombstones st).

Definition cloneMemtable (m : gmap bytes memEntry) : gmap bytes memEntry := m.

Definition memtableBytes (active : gmap bytes memEntry) : Z :=
  map_fold (fun _ e n => n + entry_size e) 0 active.

Definition put_entry (s : gmap bytes memEntry * Z) (o : operation) : gmap bytes memEntry * Z :=
  let '(active, used) := s in
  let used := match active !! op_key o with Some old => used - entry_size old | None => used end in
  (<[op_key o := entry_of o]> active, used + entry_size (entry_of o)).

Fixpoint applyToMemtable (active : gmap bytes memEntry) (bytesUsed : Z) (ops : list operation)
    (opts : Options) : result engine_error (gmap bytes memEntry * Z) :=
  match ops with
  | [] => Ok (active, bytesUsed)
  | op :: ops' =>
      validateOperation op opts;;
      let '(active, bytesUsed) := put_entry (active, bytesUsed) op in
      applyToMemtable active bytesUsed ops' opts
  end.

(** ** Lemmas on validation *)

Definition op_valid (opts : Options) (o : operation) : Prop := validateOperation o opts = Ok tt.

Lemma op_valid_spec opts o :
  op_valid opts o <->
  1 <= len (op_key o) <= MaxKeyBytes opts /\
  ((op_kind o = putOp /\ len (op_value o) <= MaxValueBytes opts) \/
   (op_kind o = deleteOp /\ op_value o = [])).
Proof.
  unfold op_valid, validateOperation, validateKey. pose proof (len_nonneg (op_key o)). split.
  - intros H0. inv_res. bool_to_prop. split; [lia|].
    apply andb_false_iff in Hr. rewrite !negb_false_iff, !bool_decide_eq_true in Hr.
    destruct Hr as [Hk|Hk]; rewrite Hk in *; [left|right]; (split; [done|]).
    + rewrite bool_decide_eq_true_2 in H0 by done. by apply Z.ltb_ge in H0.
    + rewrite bool_decide_eq_true_2 in Hr1 by done. cbn in Hr1. bool_to_prop. by apply len_zero_nil.
  - intros ([Hl1 Hl2] & Hk). rewrite fail_if_false; [|by destruct Hk as [[-> _]|[-> _]]].
    rewrite fail_if_false by (apply orb_false_iff; rewrite Z.eqb_neq, Z.ltb_ge; lia).
    destruct Hk as [[-> Hv]|[-> ->]]; [|done].
    rewrite fail_if_false by done. apply fail_if_Ok. apply andb_false_iff. right. by apply Z.ltb_ge.
Qed.

Lemma has_duplicate_false s l :
  has_duplicate s l = false <-> NoDup l /\ forall k, k ∈ l -> k ∉ s.
Proof.
  revert s. induction l as [|k l IH]; intros s; cbn [has_duplicate].
  - split; [|done]. intros _. split; [constructor|]. by intros k ?%elem_of_nil.
  - case_bool_decide as Hk.
    + split; [done|]. intros [_ H]. exfalso. apply (H k); [left|done].
    + rewrite IH, NoDup_cons. split.
      * intros [Hnd H]. split; [split; [|done]|].
        -- intros Hin. apply (H k Hin). set_solver.
        -- intros k' [->|Hin]%elem_of_cons; [done|]. specialize (H k' Hin). set_solver.
      * intros [[Hn Hnd] H]. split; [done|]. intros k' Hin. specialize (H k').
        assert (k' <> k) by (by intros ->). set_solver.
Qed.

Lemma no_duplicates l : has_duplicate ∅ l = false <-> NoDup l.
Proof. rewrite has_duplicate_false. set_solver. Qed.

(** Bytes the operations take in a WAL payload. *)
Definition op_size (o : operation) : Z := 9 + len (op_key o) + len (op_value o).
Fixpoint ops_size (l : list operation) : Z :=
  match l with [] => 0 | o :: l' => op_size o + ops_size l' end.

Lemma op_size_pos o : 9 <= op_size o.
Proof. unfold op_size. pose proof (len_nonneg (op_key o)). pose proof (len_nonneg (op_value o)). lia. Qed.
Lemma ops_size_nonneg l : 0 <= ops_size l.
Proof. induction l as [|o l IH]; cbn; [lia|]. pose proof (op_size_pos o). lia. Qed.
Lemma ops_size_app l k : ops_size (l ++ k) = ops_size l + ops_size k.
Proof. induction l; cbn; lia. Qed.
Lemma ops_size_perm l k : l ≡ₚ k -> ops_size l = ops_size k.
Proof. induction 1; cbn; lia. Qed.

Lemma payload_length_Ok opts acc l n :
  payload_length opts acc l = Ok n <->
  Forall (op_valid opts) l /\ n = acc + ops_size l /\
  (l = [] \/ n <= MaxBatchBytes opts /\ n <= max_uint32).
Proof.
  revert acc. induction l as [|o l IH]; intros acc; cbn [payload_length ops_size].
  - split; [intros [= <-]; split; [constructor|]; split; [lia|auto]|].
    intros (_ & -> & _). f_equal. lia.
  - fold (op_size o). pose proof (op_size_pos o). pose proof (ops_size_nonneg l). split.
    + intros H1. inv_res. bool_to_prop. apply IH in H1 as (Hf & -> & Hor).
      split; [by constructor|]. split; [lia|]. right.
      destruct Hor as [->|]; [cbn|]; lia.
    + intros (Hf & -> & [?|Hor]); [done|]. apply Forall_cons in Hf as [Ho Hf].
      rewrite Ho. cbn. rewrite fail_if_false by (apply orb_false_iff; rewrite !Z.ltb_ge; lia).
      apply IH. split; [done|]. split; [lia|]. right. lia.
Qed.

(** What [canonicalOperations] hands on. *)
Definition canonical_ops (opts : Options) (l : list operation) : Prop :=
  1 <= len l <= MaxBatchOps opts /\ Forall (op_valid opts) l /\ NoDup (map op_key l) /\
  ops_size l <= MaxBatchBytes opts /\ ops_size l <= max_uint32.

Lemma canonicalOperations_Ok b opts l n :
  canonicalOperations (Some b) opts = Ok (l, n) <->
  canonical_ops opts (ops b) /\ l = sort_by op_key (ops b) /\ n = ops_size (ops b).
Proof.
  cbn [canonicalOperations]. unfold canonical_ops. pose proof (len_nonneg (ops b)). split.
  - intros H0. inv_res. bool_to_prop. apply no_duplicates in Hr1.
    apply payload_length_Ok in Hr0 as (Hf & -> & Hor).
    destruct Hor as [Hnil|?]; [assert (len (ops b) = 0) by (by rewrite Hnil); lia|].
    split; [|split; [done|lia]]. split; [lia|]. split; [done|]. split; [done|]. lia.
  - intros ((Hl & Hf & Hnd & Hs1 & Hs2) & -> & ->).
    rewrite fail_if_false by (apply orb_false_iff; rewrite Z.eqb_neq, Z.ltb_ge; lia).
    rewrite (proj2 (payload_length_Ok opts 0 (ops b) (ops_size (ops b)))) by auto with lia.
    cbn. rewrite fail_if_false by (by apply no_duplicates). done.
Qed.

Lemma canonical_ops_perm opts l k : l ≡ₚ k -> canonical_ops opts l -> canonical_ops opts k.
Proof.
  intros Hp (Hl & Hf & Hnd & Hs). unfold canonical_ops, len in *.
  rewrite <- (Permutation_length Hp), <- (ops_size_perm _ _ Hp).
  split; [done|]. split; [by rewrite <- Hp|]. split; [|done].
  assert (map op_key l ≡ₚ map op_key k) as Hm by (by apply Permutation_map). by rewrite <- Hm.
Qed.

(** ** Sorted keys *)

(** ** The memtable and the recovered state agree *)

Lemma lookup_tombstones (l : list bytes) (m : gmap bytes memEntry) k :
  foldr (fun k m => <[k := mkEntry deleteOp k []]> m) m l !! k =
  if decide (k ∈ l) then Some (mkEntry deleteOp k []) else m !! k.
Proof.
  induction l as [|x l IH]; cbn [foldr]; [by rewrite decide_False by set_solver|].
  destruct (decide (x = k)) as [->|Hne].
  - rewrite lookup_insert_eq, decide_True by (left; done). done.
  - rewrite lookup_insert_ne, IH by done.
    destruct (decide (k ∈ l)), (decide (k ∈ x :: l)); set_solver.
Qed.

Lemma entriesMap_lookup st k :
  entriesMap st !! k =
  if decide (k ∈ tombstones st) then Some (mkEntry deleteOp k [])
  else mkEntry putOp k <$> values st !! k.
Proof.
  unfold entriesMap, set_fold. cbn. rewrite lookup_tombstones, map_lookup_imap.
  destruct (decide (k ∈ elements (tombstones st))) as [H|H], (decide (k ∈ tombstones st)) as [H'|H'];
    rewrite elem_of_elements in H; try done; by destruct (values st !! k).
Qed.

(** Two recovery states with the same live memtable. *)
Definition same_entries (vs : gmap bytes bytes) (ts : gset bytes) (m : gmap bytes memEntry) : Prop :=
  forall k, m !! k = if decide (k ∈ ts) then Some (mkEntry deleteOp k []) else mkEntry putOp k <$> vs !! k.

Lemma same_entries_apply opts vs ts m o :
  op_valid opts o -> same_entries vs ts m ->
  same_entries (fst (apply_op (vs, ts) o)) (snd (apply_op (vs, ts) o)) (<[op_key o := entry_of o]> m).
Proof.
  intros [_ Hk]%op_valid_spec Hs k. unfold apply_op, entry_of.
  destruct Hk as [[Hk _]|[Hk Hv]]; rewrite Hk.
  - rewrite bool_decide_eq_false_2 by done. cbn [fst snd].
    destruct (decide (op_key o = k)) as [<-|Hne].
    + rewrite decide_False by set_solver. by rewrite !lookup_insert_eq.
    + rewrite !lookup_insert_ne, Hs by done.
      destruct (decide (k ∈ ts)), (decide (k ∈ ts ∖ {[op_key o]})); set_solver.
  - rewrite Hv, bool_decide_eq_true_2 by done. cbn [fst snd].
    destruct (decide (op_key o = k)) as [<-|Hne].
    + rewrite lookup_insert_eq, decide_True by set_solver. done.
    + rewrite lookup_insert_ne, lookup_delete_ne, Hs by done.
      destruct (decide (k ∈ ts)), (decide (k ∈ {[op_key o]} ∪ ts)); set_solver.
Qed.

Lemma applyToMemtable_fold opts m n l :
  Forall (op_valid opts) l -> applyToMemtable m n l opts = Ok (fold_left put_entry l (m, n)).
Proof.
  intros Hf. revert m n. induction Hf as [|o l Ho Hf IH]; intros m n; [done|].
  cbn [applyToMemtable]. rewrite Ho. cbn. by rewrite IH.
Qed.

Lemma applyToMemtable_valid opts m n l r :
  applyToMemtable m n l opts = Ok r -> Forall (op_valid opts) l /\ r = fold_left put_entry l (m, n).
Proof.
  revert m n. induction l as [|o l IH]; intros m n; cbn [applyToMemtable].
  - intros [= <-]. done.
  - intros H. inv_res. cbn in H. apply IH in H as [Hf ->]. split; [by constructor|done].
Qed.

Lemma fold_same_entries opts l vs ts m n :
  Forall (op_valid opts) l -> same_entries vs ts m ->
  same_entries (fst (fold_left apply_op l (vs, ts))) (snd (fold_left apply_op l (vs, ts)))
               (fst (fold_left put_entry l (m, n))).
Proof.
  intros Hf. revert vs ts m n. induction Hf as [|o l Ho Hf IH]; intros vs ts m n Hs; [done|].
  cbn [fold_left]. pose proof (same_entries_apply opts vs ts m o Ho Hs) as H.
  destruct (apply_op (vs, ts) o) as [vs' ts']. cbn [put_entry]. by apply IH.
Qed.

Lemma candidateState_Ok base l opts st :
  candidateState base l opts = Ok st <->
  (1 <= len l <= MaxBatchOps opts /\ Forall (op_valid opts) l /\ NoDup (map op_key l)) /\
  st = mkState (fst (fold_left apply_op l (values base, tombstones base)))
               (snd (fold_left apply_op l (values base, tombstones base)))
               (sort_by (fun k => k)
                  (elements (dom (fst (fold_left apply_op l (values base, tombstones base)))))).
Proof.
  unfold candidateState. pose proof (len_nonneg l).
  destruct (fold_left apply_op l (values base, tombstones base)) as [vs ts] eqn:Hfold. cbn [fst snd].
  split.
  - intros H0. inv_res. bool_to_prop. apply for_all_Ok in Hr0. apply no_duplicates in Hr1.
    split; [|done]. split; [lia|]. done.
  - intros ((Hl & Hf & Hnd) & ->).
    rewrite fail_if_false by (apply orb_false_iff; rewrite Z.eqb_neq, Z.ltb_ge; lia).
    rewrite (proj2 (for_all_Ok _ _)) by done. cbn.
    by rewrite fail_if_false by (by apply no_duplicates).
Qed.

(** ** Memtable accounting *)

Lemma memtableBytes_insert m k e :
  memtableBytes (<[k := e]> m) =
  memtableBytes m - (match m !! k with Some old => entry_size old | None => 0 end) + entry_size e.
Proof.
  unfold memtableBytes.
  assert (forall (m' : gmap bytes memEntry) k' e', m' !! k' = None ->
    map_fold (fun _ e n => n + entry_size e) 0 (<[k' := e']> m')
    = map_fold (fun _ e n => n + entry_size e) 0 m' + entry_size e') as Hins.
  { intros m' k' e' Hn. rewrite map_fold_insert_L; [done| |done]. intros. lia. }
  destruct (m !! k) as [old|] eqn:Hk.
  - rewrite <- (insert_delete_id m k old Hk) at 2.
    rewrite <- insert_delete_eq, !Hins by apply lookup_delete_eq. lia.
  - rewrite Hins by done. lia.
Qed.

Lemma put_entry_bytes m n o :
  n = memtableBytes m -> snd (put_entry (m, n) o) = memtableBytes (fst (put_entry (m, n) o)).
Proof. intros ->. cbn. rewrite memtableBytes_insert. destruct (m !! op_key o); lia. Qed.

Lemma fold_put_entry_bytes l m n :
  n = memtableBytes m ->
  snd (fold_left put_entry l (m, n)) = memtableBytes (fst (fold_left put_entry l (m, n))).
Proof.
  revert m n. induction l as [|o l IH]; intros m n Hn; [done|]. cbn [fold_left].
  pose proof (put_entry_bytes m n o Hn) as H. destruct (put_entry (m, n) o) as [m' n']. by apply IH.
Qed.

(** ** Normalized options *)

Definition opts_ok (o : Options) : Prop :=
  1 <= MaxKeyBytes o <= max_uint32 /\ 1 <= MaxValueBytes o <= max_uint32 /\ 1 <= MaxBatchOps o /\
  1 <= MaxBatchBytes o <= max_uint32 /\ minSegmentBytes <= SegmentBytes o /\ 1 <= MemtableBytes o /\
  1024 <= SSTBlockBytes o <= MaxSSTBytes o /\ l0CompactionTrigger < MaxSSTFiles o.

Lemma normalized_ok o o' : normalized o = Ok o' -> opts_ok o'.
Proof.
  unfold normalized. intros H. inv_res. bool_to_prop.
  destruct (checkedAdd _ _) as [minSST ok]. inv_res. cbn in *.
  unfold opts_ok. cbn. lia.
Qed.

(** ** Batches built through the API *)

Inductive built (opts : Options) : Batch -> Prop :=
| built_new : built opts (Engine_NewBatch opts)
| built_put b k v : built opts b -> built opts (fst (Batch_Put b k v))
| built_delete b k : built opts b -> built opts (fst (Batch_Delete b k)).

Definition batch_ok (opts : Options) (b : Batch) : Prop :=
  maxOps b = MaxBatchOps opts /\ maxBytes b = MaxBatchBytes opts /\ maxKey b = MaxKeyBytes opts /\
  maxValue b = MaxValueBytes opts /\ sealed b = false /\ Forall (op_valid opts) (ops b) /\
  NoDup (map op_key (ops b)) /\ batch_bytes b = ops_size (ops b) /\
  len (ops b) <= MaxBatchOps opts /\ batch_bytes b <= MaxBatchBytes opts.

Lemma configureDefaults_id opts b :
  opts_ok opts -> batch_ok opts b -> configureDefaults b = b.
Proof.
  intros Ho Hb. unfold opts_ok in Ho. destruct b; unfold batch_ok, configureDefaults, or_default in *; cbn in *.
  destruct Hb as (-> & -> & -> & -> & _).
  repeat match goal with |- context [?x =? 0] => destruct (Z.eqb_spec x 0); [lia|] end. done.
Qed.

Lemma find_op_false b key : find_op b key = false -> key ∉ map op_key (ops b).
Proof.
  unfold find_op. intros H (o & -> & Ho)%list_elem_of_fmap.
  assert (existsb (fun o' => beq (op_key o') (op_key o)) (ops b) = true) as Hc; [|congruence].
  apply existsb_exists. exists o. split; [by apply list_elem_of_In|apply beq_refl].
Qed.

Lemma add_op_ok opts b o n :
  batch_ok opts b -> op_valid opts o -> op_key o ∉ map op_key (ops b) ->
  len (ops b) < MaxBatchOps opts -> n = op_size o + batch_bytes b -> n <= MaxBatchBytes opts ->
  batch_ok opts (add_op b o n).
Proof.
  intros (H1 & H2 & H3 & H4 & H5 & H6 & H7 & H8 & H9 & H10) Ho Hk Hl -> Hn.
  unfold batch_ok, add_op. cbn. rewrite len_app, len_cons, len_nil, map_app, ops_size_app. cbn.
  split_and!; try done; try lia.
  - apply Forall_app. split; [done|]. by constructor.
  - apply NoDup_app. split; [done|].
    split; [|apply NoDup_singleton]. intros x Hx Hx2. apply list_elem_of_singleton in Hx2 as ->. done.
Qed.

Lemma checkedAdd_spec a b n ok :
  checkedAdd a b = (n, ok) -> ok = true -> n = a + b.
Proof. unfold checkedAdd. destruct (_ || _); intros [= <- <-] ?; done. Qed.

Lemma Batch_Put_ok opts b k v :
  opts_ok opts -> batch_ok opts b -> batch_ok opts (fst (Batch_Put b k v)).
Proof.
  intros Ho Hb. unfold Batch_Put. rewrite (configureDefaults_id opts) by done.
  destruct (sealed b); [done|]. destruct (validateKey k (maxKey b)) as [[]|e] eqn:Hk; [|done].
  destruct (Z.ltb_spec (maxValue b) (len v)); [done|].
  destruct (Z.leb_spec (maxOps b) (len (ops b))); [done|].
  destruct (find_op b k) eqn:Hf; [done|]. apply find_op_false in Hf.
  destruct (checkedAdd _ _) as [need ok] eqn:Hc.
  destruct ok; cbn [negb orb]; [|done]. destruct (Z.ltb_spec (maxBytes b) need); [done|].
  apply checkedAdd_spec in Hc; [|done]. pose proof Hb as (H1' & H2' & H3' & H4' & _).
  apply fail_if_Ok in Hk. bool_to_prop. pose proof (len_nonneg k).
  apply add_op_ok; cbn; try done; try lia.
  apply op_valid_spec. cbn. split; [lia|]. left. split; [done|lia].
Qed.

Lemma Batch_Delete_ok opts b k :
  opts_ok opts -> batch_ok opts b -> batch_ok opts (fst (Batch_Delete b k)).
Proof.
  intros Ho Hb. unfold Batch_Delete. rewrite (configureDefaults_id opts) by done.
  destruct (sealed b); [done|]. destruct (validateKey k (maxKey b)) as [[]|e] eqn:Hk; [|done].
  destruct (Z.leb_spec (maxOps b) (len (ops b))); [done|].
  destruct (find_op b k) eqn:Hf; [done|]. apply find_op_false in Hf.
  destruct (checkedAdd _ _) as [need ok] eqn:Hc.
  destruct ok; cbn [negb orb]; [|done]. destruct (Z.ltb_spec (maxBytes b) need); [done|].
  apply checkedAdd_spec in Hc; [|done]. pose proof Hb as (H1' & H2' & H3' & H4' & _).
  apply fail_if_Ok in Hk. bool_to_prop. pose proof (len_nonneg k).
  apply add_op_ok; cbn; try done; try lia.
  - apply op_valid_spec. cbn. split; [lia|]. right. done.
  - unfold op_size. cbn. rewrite len_nil. lia.
Qed.

Lemma built_ok opts b : opts_ok opts -> built opts b -> batch_ok opts b.
Proof.
  intros Ho. induction 1; auto using Batch_Put_ok, Batch_Delete_ok.
  unfold batch_ok. cbn. unfold opts_ok in Ho.
  repeat (split; [first [done | constructor]|]). rewrite len_nil. lia.
Qed.

(** ** Theorems *)

(** a non-empty batch built with [Engine.NewBatch], [Put] and [Delete]
    under normalized options is always accepted at [Apply]: its operations are
    valid, distinct and within the batch limits, they are handed on in byte
    order of their keys, and the size accumulated by the builder is the exact
    payload length. *)
Theorem built_batch_accepted o opts b :
  normalized o = Ok opts -> built opts b -> ops b <> [] ->
  canonicalOperations (Some b) opts = Ok (sort_by op_key (ops b), batch_bytes b) /\
  keys_increasing (map op_key (sort_by op_key (ops b))) = true.
Proof.
  intros Hn%normalized_ok Hb%(built_ok _ _ Hn) Hne.
  destruct Hb as (_ & _ & _ & _ & _ & Hf & Hnd & Hs & Hl & Hm).
  split; [|by apply sort_by_increasing].
  apply canonicalOperations_Ok. rewrite Hs in *. split; [|done]. unfold canonical_ops.
  assert (len (ops b) <> 0) by (intros ?%len_zero_nil; done). pose proof (len_nonneg (ops b)).
  unfold opts_ok in Hn. split; [lia|]. split; [done|]. split; [done|]. lia.
Qed.

(** a batch changes the live memtable and the state rebuilt from the log
    in the same way: applied to corresponding states, both succeed on the same
    valid operations, give the same entries, and the memtable's byte count
    stays the sum of its entries' sizes. *)
Theorem memtable_matches_recovery opts st active used l active' used' :
  entriesMap st = active -> used = memtableBytes active ->
  1 <= len l <= MaxBatchOps opts -> NoDup (map op_key l) ->
  applyToMemtable active used l opts = Ok (active', used') ->
  exists st', candidateState st l opts = Ok st' /\ entriesMap st' = active' /\
              used' = memtableBytes active'.
Proof.
  intros Hst Hused Hl Hnd [Hf Hfold]%applyToMemtable_valid.
  eexists. split; [by apply candidateState_Ok|].
  assert (same_entries (values st) (tombstones st) active) as Hs.
  { intros k. subst active. apply entriesMap_lookup. }
  pose proof (fold_same_entries opts l _ _ active used Hf Hs) as Hs'.
  pose proof (fold_put_entry_bytes l active used Hused) as Hb.
  rewrite <- Hfold in Hs', Hb. split; [|done].
  apply map_eq. intros k. by rewrite entriesMap_lookup, Hs'.
Qed.

(** ** Instances at concrete inputs *)

Definition sample_opts : Options :=
  match normalized (mkOptions 0 0 0 0 0 0 0 0 0 0 0) with Ok o => o | Fail _ => mkOptions 0 0 0 0 0 0 0 0 0 0 0 end.
Definition sample_batch : Batch :=
  fst (Batch_Delete (fst (Batch_Put (Engine_NewBatch sample_opts) (lit "b") (lit "1"))) (lit "a")).

Lemma built_batch_accepted_witness :
  canonicalOperations (Some sample_batch) sample_opts
    = Ok ([mkOp deleteOp (lit "a") []; mkOp putOp (lit "b") (lit "1")], 21) /\
  keys_increasing [lit "a"; lit "b"] = true.
Proof.
  apply (built_batch_accepted (mkOptions 0 0 0 0 0 0 0 0 0 0 0) sample_opts sample_batch).
  - vm_compute. reflexivity.
  - repeat constructor.
  - done.
Defined.

Lemma memtable_matches_recovery_witness :
  exists st', candidateState emptyState [mkOp putOp (lit "b") (lit "1")] sample_opts = Ok st' /\
    entriesMap st' = {[lit "b" := mkEntry putOp (lit "b") (lit "1")]} /\
    11 = memtableBytes {[lit "b" := mkEntry putOp (lit "b") (lit "1")]}.
Proof.
  apply (memtable_matches_recovery sample_opts emptyState ∅ 0
           [mkOp putOp (lit "b") (lit "1")] {[lit "b" := mkEntry putOp (lit "b") (lit "1")]} 11).
  - vm_compute. reflexivity.
  - vm_compute. reflexivity.
  - vm_compute. split; discriminate.
  - apply NoDup_singleton.
  - vm_compute. reflexivity.
Defined.
