(* ===== verification/Fs.v ===== *)
(** [internal/engine/fs.go]: the file system seam of the storage engine, for
    one directory of regular files, and the names of log segments.

    A file keeps what has been written to it and the part of it a sync has
    made durable; a directory entry is durable once the directory has been
    synced. The injected file system answers each call from a script: a call
    can fail, and a write can stop short. With the script exhausted every
    call succeeds. [crash] relates a directory to the ones a restart may find. *)

From Stdlib Require Import ZArith Lia.
From stdpp Require Import base list gmap.
From S2P Require Import Prelude EngineOps.

Local Open Scope Z_scope.

(** ** Directories *)

Record wfile : Type := mkW {
  volatile : bytes;   (* what reads return *)
  durable : bytes;    (* what the last sync made durable *)
  linked : bool;      (* the directory entry is durable *)
  regular : bool      (* a regular file, not a symbolic link or directory *)
}.

#[export] Instance wfile_eq_dec : EqDecision wfile.
Proof. solve_decision. Defined.

(** The answer to one call: bytes transferred, and whether it failed. *)
Record response : Type := mkResponse { r_bytes : Z; r_err : bool }.

Record directory : Type := mkDir {
  files : gmap bytes wfile;
  script : list response
}.

(** ** Calls in sequence *)

Definition io (A : Type) : Type := directory -> result engine_error A * directory.
#[export] Instance io_ret : MRet io := fun A a d => (Ok a, d).
#[export] Instance io_bind : MBind io :=
  fun A B f m d => match m d with (Ok a, d') => f a d' | (Fail e, d') => (Fail e, d') end.

Definition io_lift {A} (m : result engine_error A) : io A := fun d => (m, d).
Definition io_fail {A} (e : engine_error) : io A := fun d => (Fail e, d).
Definition io_fail_if (c : bool) (e : engine_error) : io unit := io_lift (fail_if c e).
(** [if err := m; err != nil { return wrapped }] *)
Definition io_wrap {A} (f : engine_error -> engine_error) (m : io A) : io A :=
  fun d => let '(r, d') := m d in (map_err f r, d').
(** [_ = m]: the error is dropped. *)
Definition io_ignore {A} (m : io A) : io unit := fun d => let '(_, d') := m d in (Ok tt, d').

Definition get_files : io (gmap bytes wfile) := fun d => (Ok (files d), d).
Definition put_file (name : bytes) (w : wfile) : io unit :=
  fun d => (Ok tt, mkDir (<[name := w]> (files d)) (script d)).
Definition del_file (name : bytes) : io unit :=
  fun d => (Ok tt, mkDir (delete name (files d)) (script d)).
Definition put_all (m : gmap bytes wfile) : io unit := fun d => (Ok tt, mkDir m (script d)).

(** The next answer of the file system to a call on [want] bytes. *)
Definition respond (want : Z) : io response :=
  fun d => match script d with
           | [] => (Ok (mkResponse want false), d)
           | r :: s => (Ok r, mkDir (files d) s)
           end.

(** A call without data that may fail. *)
Definition call : io unit :=
  r ← respond 0; io_fail_if (r_err r) ErrIO.

Definition lookup_file (name : bytes) : io wfile :=
  m ← get_files;
  match m !! name with Some w => mret w | None => io_fail ErrIO end.

(** [OpenFile] of an existing file, and with [O_CREATE|O_EXCL]. *)
Definition open_file (name : bytes) : io wfile := call;; lookup_file name.
Definition create_file (name : bytes) : io unit :=
  call;;
  m ← get_files;
  match m !! name with
  | Some _ => io_fail ErrIO
  | None => put_file name (mkW [] [] false true)
  end.

(** Bytes of a file after a write at an offset; a gap is filled with zeros. *)
Definition write_at (old : bytes) (offset : Z) (data : bytes) : bytes :=
  take (Z.to_nat offset) (old ++ repeat x00 (Z.to_nat offset - length old)) ++ data
  ++ drop (Z.to_nat offset + length data) old.

(** [File.WriteAt]: writes as many bytes as the answer says, at most all. *)
Definition WriteAt (name : bytes) (data : bytes) (offset : Z) : io response :=
  r ← respond (len data);
  w ← lookup_file name;
  put_file name (mkW (write_at (volatile w) offset (take (Z.to_nat (r_bytes r)) data))
                     (durable w) (linked w) (regular w));;
  mret r.

Definition Truncate (name : bytes) (size : Z) : io unit :=
  call;;
  w ← lookup_file name;
  put_file name (mkW (take (Z.to_nat size) (volatile w)) (durable w) (linked w) (regular w)).

Definition Sync (name : bytes) : io unit :=
  call;;
  w ← lookup_file name;
  put_file name (mkW (volatile w) (volatile w) (linked w) (regular w)).

Definition Close (name : bytes) : io unit := call.

Definition Remove (name : bytes) : io unit := call;; del_file name.

(** [syncDirectory]: open, sync and close the directory. *)
Definition link_all (m : gmap bytes wfile) : gmap bytes wfile :=
  (fun w => mkW (volatile w) (durable w) true (regular w)) <$> m.
Definition syncDirectory : io unit :=
  io_wrap (fun _ => ErrFilesystem "open directory for sync") call;;
  io_wrap (fun _ => ErrFilesystem "sync directory") call;;
  m ← get_files;
  put_all (link_all m);;
  io_wrap (fun _ => ErrFilesystem "close directory") call.

(** [writeFullAt]: every round that goes on writes at least one byte, so the
    number of bytes bounds the rounds. *)
Fixpoint write_loop (fuel : nat) (name : bytes) (data : bytes) (offset : Z) : io unit :=
  match fuel with
  | O => mret tt
  | S fuel' =>
      if len data <=? 0 then mret tt
      else
        r ← WriteAt name data offset;
        let n := r_bytes r in
        io_fail_if ((n <? 0) || (len data <? n)) ErrShortWrite;;
        io_fail_if (r_err r) ErrIO;;
        io_fail_if (n =? 0) ErrShortWrite;;
        write_loop fuel' name (drop (Z.to_nat n) data) (offset + n)
  end.
Definition writeFullAt (name data : bytes) (offset : Z) : io unit :=
  write_loop (length data) name data offset.

(** ** Segment names *)

(** [fmt.Sprintf("%0kd", n)] for a number of at most [k] digits. *)
Fixpoint decimal (k : nat) (n : Z) : bytes :=
  match k with
  | O => []
  | S k' => decimal k' (n / 10) ++ [byte_of (48 + n mod 10)]
  end.

Definition segmentName (n : Z) : bytes := lit "segment-" ++ decimal 20 n ++ lit ".wal".

Definition is_digit (b : byte) : bool := (48 <=? u8 b) && (u8 b <=? 57).
Fixpoint parse_digits (acc : Z) (l : bytes) : option Z :=
  match l with
  | [] => Some acc
  | b :: l' => if is_digit b then parse_digits (uint64 (acc * 10 + (u8 b - 48))) l' else None
  end.

(** [strings.HasPrefix] with [strings.TrimPrefix], and the same for suffixes. *)
Definition cut_prefix (p s : bytes) : option bytes :=
  if beq (take (length p) s) p then Some (drop (length p) s) else None.
Definition cut_suffix (p s : bytes) : option bytes :=
  if beq (drop (length s - length p) s) p then Some (take (length s - length p) s) else None.

Definition validSegmentName (name : bytes) : option Z :=
  rest ← cut_prefix (lit "segment-") name;
  digits ← cut_suffix (lit ".wal") rest;
  if negb (len digits =? 20) then None else parse_digits 0 digits.

(** ** Crashes *)

(** The bytes of a file a restart may find: anything between what was made
    durable and what was written, where one extends the other. *)
Definition survives (w : wfile) (c : bytes) : Prop :=
  (durable w `prefix_of` c /\ c `prefix_of` volatile w) \/
  (volatile w `prefix_of` c /\ c `prefix_of` durable w).

(** After a restart the surviving bytes are the file, and durable. *)
Definition crash (m m' : gmap bytes wfile) : Prop :=
  forall name, match m !! name, m' !! name with
  | Some w, Some w' => survives w (volatile w') /\ durable w' = volatile w' /\
                       linked w' = true /\ regular w' = regular w
  | Some w, None => linked w = false
  | None, Some _ => False
  | None, None => True
  end.

(** ** Running without faults *)

Lemma io_fail_if_false {B} c e (k : unit -> io B) d :
  c = false -> (io_fail_if c e ≫= k) d = k tt d.
Proof. by intros ->. Qed.

Lemma io_lift_Ok {A B} (m : result engine_error A) a (k : A -> io B) d :
  m = Ok a -> (io_lift m ≫= k) d = k a d.
Proof. by intros ->. Qed.

Lemma io_ret_bind {A B} (a : A) (k : A -> io B) d : ((mret a : io A) ≫= k) d = k a d.
Proof. done. Qed.

Lemma io_bind_assoc {A B C} (m : io A) (f : A -> io B) (g : B -> io C) d :
  ((m ≫= f) ≫= g) d = (m ≫= fun a => f a ≫= g) d.
Proof. unfold mbind, io_bind. destruct (m d) as [[a|e] d']; [|done]. by destruct (f a d') as [[b|e] d'']. Qed.

(** The whole-call view of a step: where it leads from [d]. *)
Lemma io_bind_Ok {A B} (m : io A) (k : A -> io B) d a d' :
  m d = (Ok a, d') -> (m ≫= k) d = k a d'.
Proof. unfold mbind, io_bind. by intros ->. Qed.

Lemma io_wrap_Ok {A} f (m : io A) d a d' : m d = (Ok a, d') -> io_wrap f m d = (Ok a, d').
Proof. unfold io_wrap. by intros ->. Qed.

Section no_faults.
Context (m : gmap bytes wfile).
Let d := mkDir m [].

Lemma call_ok : call d = (Ok tt, d).
Proof. done. Qed.

Lemma lookup_file_ok name w : m !! name = Some w -> lookup_file name d = (Ok w, d).
Proof.
  intros H. unfold lookup_file, get_files, mbind, io_bind. cbn [files d]. by rewrite H.
Qed.

Lemma open_file_ok name w : m !! name = Some w -> open_file name d = (Ok w, d).
Proof. intros H. unfold open_file. erewrite io_bind_Ok by apply call_ok. by apply lookup_file_ok. Qed.

Lemma Truncate_ok name size w :
  m !! name = Some w ->
  Truncate name size d
  = (Ok tt, mkDir (<[name := mkW (take (Z.to_nat size) (volatile w)) (durable w) (linked w) (regular w)]> m) []).
Proof.
  intros H. unfold Truncate. erewrite io_bind_Ok by apply call_ok.
  by erewrite io_bind_Ok by (by apply lookup_file_ok).
Qed.

Lemma Sync_ok name w :
  m !! name = Some w ->
  Sync name d = (Ok tt, mkDir (<[name := mkW (volatile w) (volatile w) (linked w) (regular w)]> m) []).
Proof.
  intros H. unfold Sync. erewrite io_bind_Ok by apply call_ok.
  by erewrite io_bind_Ok by (by apply lookup_file_ok).
Qed.

Lemma syncDirectory_ok : syncDirectory d = (Ok tt, mkDir (link_all m) []).
Proof. done. Qed.

Lemma Remove_ok name : Remove name d = (Ok tt, mkDir (delete name m) []).
Proof. done. Qed.
End no_faults.

(** ** Specifications over every script *)

(** [wp m Q X f]: run on the files [f] against any script, [m] either returns
    a value satisfying [Q] with the files it leaves, or fails and leaves files
    satisfying [X]. *)
Definition wp {A} (m : io A) (Q : A -> gmap bytes wfile -> Prop) (X : gmap bytes wfile -> Prop)
    (f : gmap bytes wfile) : Prop :=
  forall s, match m (mkDir f s) with
            | (Ok a, d') => Q a (files d')
            | (Fail _, d') => X (files d')
            end.

Lemma wp_ret {A} (a : A) (Q : A -> _ -> Prop) X f : Q a f -> wp (mret a) Q X f.
Proof. by intros ? s. Qed.

Lemma wp_bind {A B} (m : io A) (k : A -> io B) Q X f :
  wp m (fun a f' => wp (k a) Q X f') X f -> wp (m ≫= k) Q X f.
Proof.
  intros H s. specialize (H s). unfold mbind, io_bind.
  destruct (m (mkDir f s)) as [[a|e] [f' s']]; [apply (H s')|done].
Qed.

Lemma wp_mono {A} (m : io A) (Q Q' : A -> _ -> Prop) (X X' : _ -> Prop) f :
  wp m Q X f -> (forall a f', Q a f' -> Q' a f') -> (forall f', X f' -> X' f') -> wp m Q' X' f.
Proof.
  intros H HQ HX s. specialize (H s). destruct (m (mkDir f s)) as [[a|e] d']; auto.
Qed.

Lemma wp_wrap {A} g (m : io A) Q X f : wp m Q X f -> wp (io_wrap g m) Q X f.
Proof.
  intros H s. specialize (H s). unfold io_wrap. by destruct (m (mkDir f s)) as [[a|e] d'].
Qed.

Lemma wp_fail {A} e (Q : A -> _ -> Prop) (X : _ -> Prop) f : X f -> wp (io_fail e) Q X f.
Proof. by intros ? s. Qed.

Lemma wp_fail_if c e Q (X : _ -> Prop) f :
  (c = true -> X f) -> (c = false -> Q tt f) -> wp (io_fail_if c e) Q X f.
Proof. intros HX HQ s. destruct c; [by apply HX|by apply HQ]. Qed.

Lemma wp_respond n Q X f : (forall r, Q r f) -> wp (respond n) Q X f.
Proof. intros H [|r s]; apply H. Qed.

Lemma wp_call Q (X : _ -> Prop) f : X f -> Q tt f -> wp call Q X f.
Proof.
  intros HX HQ. apply wp_bind, wp_respond. intros r. by apply wp_fail_if.
Qed.

Lemma wp_lookup name w Q (X : _ -> Prop) f :
  f !! name = Some w -> Q w f -> wp (lookup_file name) Q X f.
Proof.
  intros Hw HQ. apply wp_bind. intros s. cbn. rewrite Hw. by apply wp_ret.
Qed.

Lemma wp_open name w Q (X : _ -> Prop) f :
  f !! name = Some w -> X f -> Q w f -> wp (open_file name) Q X f.
Proof. intros Hw HX HQ. apply wp_bind, wp_call; [done|]. by eapply wp_lookup. Qed.

Lemma wp_create name Q (X : _ -> Prop) f :
  f !! name = None -> X f -> Q tt (<[name := mkW [] [] false true]> f) -> wp (create_file name) Q X f.
Proof.
  intros Hn HX HQ. apply wp_bind, wp_call; [done|]. apply wp_bind. intros s. cbn. rewrite Hn.
  by intros s'.
Qed.

Lemma wp_sync name w Q (X : _ -> Prop) f :
  f !! name = Some w -> X f ->
  Q tt (<[name := mkW (volatile w) (volatile w) (linked w) (regular w)]> f) -> wp (Sync name) Q X f.
Proof.
  intros Hw HX HQ. apply wp_bind, wp_call; [done|]. apply wp_bind. eapply wp_lookup; [done|].
  by intros s.
Qed.

Lemma wp_syncDirectory Q (X : _ -> Prop) f :
  X f -> X (link_all f) -> Q tt (link_all f) -> wp syncDirectory Q X f.
Proof.
  intros HX HX' HQ. apply wp_bind, wp_wrap, wp_call; [done|]. apply wp_bind, wp_wrap, wp_call; [done|].
  apply wp_bind. intros s. cbn. clear s. apply wp_bind. intros s. cbn. clear s.
  by apply wp_wrap, wp_call.
Qed.

(** The cleanup of a failed step: the file is closed and the error kept. *)
Definition io_or_close {A} (name : bytes) (m : io A) : io A :=
  fun d => match m d with
           | (Fail e, d') => (Fail e, snd (Close name d'))
           | r => r
           end.

Lemma files_call d : files (snd (call d)) = files d.
Proof. destruct d as [f [|r s]]; [done|]. cbn. by destruct (r_err r). Qed.

Lemma wp_or_close {A} name (m : io A) Q X f : wp m Q X f -> wp (io_or_close name m) Q X f.
Proof.
  intros H s. specialize (H s). unfold io_or_close, Close.
  destruct (m (mkDir f s)) as [[a|e] d'] eqn:Hm; [done|].
  by rewrite files_call.
Qed.

(** *** Writing at the end of a file *)

Lemma write_at_end old data : write_at old (len old) data = old ++ data.
Proof.
  unfold write_at. rewrite len_to_nat, Nat.sub_diag. cbn [repeat].
  rewrite app_nil_r, firstn_all, drop_ge by lia. by rewrite app_nil_r.
Qed.

Lemma wp_write_loop fuel name v dur lk rg data Q (X : _ -> Prop) f :
  (length data <= fuel)%nat ->
  (forall p, p `prefix_of` data -> X (<[name := mkW (v ++ p) dur lk rg]> f)) ->
  Q tt (<[name := mkW (v ++ data) dur lk rg]> f) ->
  wp (write_loop fuel name data (len v)) Q X (<[name := mkW v dur lk rg]> f).
Proof.
  revert v data. induction fuel as [|fuel IH]; intros v data Hfuel HX HQ; cbn [write_loop].
  { destruct data; [|cbn in Hfuel; lia]. apply wp_ret. by rewrite app_nil_r in HQ. }
  pose proof (len_nonneg data). destruct (Z.leb_spec (len data) 0) as [Hl|Hl].
  { destruct data; [|unfold len in Hl; cbn in Hl; lia]. apply wp_ret. by rewrite app_nil_r in HQ. }
  apply wp_bind. apply wp_bind, wp_respond. intros [n err]. cbn [r_bytes r_err].
  apply wp_bind. eapply wp_lookup; [apply lookup_insert_eq|]. cbn [volatile durable linked regular].
  rewrite write_at_end. apply wp_bind. intros s. cbn. clear s. apply wp_ret.
  cbn [r_bytes r_err]. rewrite insert_insert_eq. set (p := take (Z.to_nat n) data).
  assert (p `prefix_of` data) as Hp by apply prefix_take.
  apply wp_bind, wp_fail_if; [intros _; by apply HX|]. intros Hn.
  apply orb_false_iff in Hn as [Hn1%Z.ltb_ge Hn2%Z.ltb_ge].
  apply wp_bind, wp_fail_if; [intros _; by apply HX|]. intros _.
  apply wp_bind, wp_fail_if; [intros _; by apply HX|]. intros Hz%Z.eqb_neq.
  assert (len p = n) as Hlp.
  { unfold len in Hn2 |- *. unfold p. rewrite length_take. lia. }
  assert (data = p ++ drop (Z.to_nat n) data) as Hd by (unfold p; by rewrite take_drop).
  replace (len v + n) with (len (v ++ p)) by (rewrite len_app; lia). apply IH.
  - rewrite length_drop. lia.
  - intros q Hq. rewrite <- app_assoc. apply HX. rewrite Hd. by apply prefix_app.
  - by rewrite <- app_assoc, <- Hd.
Qed.

Lemma wp_writeFullAt name v dur lk rg data Q (X : _ -> Prop) f :
  (forall p, p `prefix_of` data -> X (<[name := mkW (v ++ p) dur lk rg]> f)) ->
  Q tt (<[name := mkW (v ++ data) dur lk rg]> f) ->
  wp (writeFullAt name data (len v)) Q X (<[name := mkW v dur lk rg]> f).
Proof. by apply wp_write_loop. Qed.

(** ** Segment names identify segments *)

Lemma length_decimal k n : length (decimal k n) = k.
Proof. revert n. induction k as [|k IH]; intros n; cbn; [done|]. rewrite length_app, IH. cbn. lia. Qed.

Lemma parse_digits_app acc l b :
  parse_digits acc (l ++ [b]) =
  match parse_digits acc l with
  | Some n => if is_digit b then Some (uint64 (n * 10 + (u8 b - 48))) else None
  | None => None
  end.
Proof.
  revert acc. induction l as [|x l IH]; intros acc; cbn [parse_digits app]; [done|].
  destruct (is_digit x); [apply IH|done].
Qed.

Lemma digit_byte n : 0 <= n <= 9 -> is_digit (byte_of (48 + n)) = true /\ u8 (byte_of (48 + n)) - 48 = n.
Proof.
  intros. unfold is_digit. rewrite u8_byte_of, Z.mod_small by lia.
  split; [|lia]. apply andb_true_iff. rewrite !Z.leb_le. lia.
Qed.

Lemma parse_decimal k n :
  0 <= n <= max_uint64 -> n < 10 ^ Z.of_nat k -> parse_digits 0 (decimal k n) = Some n.
Proof.
  revert n. induction k as [|k IH]; intros n Hn Hk; cbn [decimal].
  - cbn in *. f_equal. lia.
  - pose proof (Z.mod_pos_bound n 10 ltac:(lia)). pose proof (Z.div_mod n 10 ltac:(lia)).
    rewrite parse_digits_app, IH.
    2:{ lia. }
    2:{ apply Z.div_lt_upper_bound; [lia|]. rewrite Nat2Z.inj_succ, Z.pow_succ_r in Hk by lia. lia. }
    destruct (digit_byte (n mod 10)) as [-> ->]; [lia|]. f_equal.
    unfold uint64, max_uint64 in *. rewrite Z.mod_small by lia. lia.
Qed.

Lemma validSegmentName_segmentName n : is_u64 n -> validSegmentName (segmentName n) = Some n.
Proof.
  intros Hn. unfold validSegmentName, segmentName, cut_prefix.
  rewrite take_app_length, beq_refl, drop_app_length. cbn [mbind option_bind].
  unfold cut_suffix. rewrite length_app.
  replace (length (decimal 20 n) + length (lit ".wal") - length (lit ".wal"))%nat
    with (length (decimal 20 n)) by lia.
  rewrite drop_app_length, beq_refl, take_app_length. cbn [mbind option_bind].
  unfold len. rewrite length_decimal. cbn [negb Z.eqb Z.of_nat].
  unfold is_u64 in Hn. change (20 =? 20) with true. cbn [negb].
  replace (negb (Z.of_nat 20 =? 20)) with false by done.
  apply parse_decimal; [done|]. unfold max_uint64 in Hn. cbn. lia.
Qed.

Lemma segmentName_inj a b : is_u64 a -> is_u64 b -> segmentName a = segmentName b -> a = b.
Proof.
  intros Ha Hb Heq. apply (f_equal validSegmentName) in Heq.
  rewrite !validSegmentName_segmentName in Heq by done. congruence.
Qed.

(** ** What a crash leaves of synced files *)

Definition synced (b : bytes) : wfile := mkW b b true true.
Definition all_synced (m : gmap bytes wfile) : Prop :=
  forall name w, m !! name = Some w -> w = synced (volatile w).

Lemma survives_synced b c : survives (synced b) c -> c = b.
Proof. intros [[H1 H2]|[H1 H2]]; cbn in *; by apply (anti_symm prefix). Qed.

Lemma wfile_synced w w' :
  regular w = true -> survives w (volatile w') /\ durable w' = volatile w' /\
  linked w' = true /\ regular w' = regular w -> w' = synced (volatile w').
Proof. destruct w, w'. unfold synced. cbn. by intros -> (_ & -> & -> & ->). Qed.

(** All files but one are synced: the others survive as they are, and that one
    survives in part, or vanishes when its entry was not durable. *)
Lemma crash_insert name w m m' :
  all_synced m -> regular w = true -> crash (<[name := w]> m) m' ->
  (exists c, survives w c /\ m' = <[name := synced c]> m) \/
  (linked w = false /\ m' = delete name m).
Proof.
  intros Hall Hreg Hc.
  assert (forall n, n <> name -> m' !! n = m !! n) as Hoth.
  { intros n Hn. specialize (Hc n). rewrite lookup_insert_ne in Hc by done.
    destruct (m !! n) as [x|] eqn:Hx, (m' !! n) as [y|] eqn:Hy; try done.
    - apply Hall in Hx. rewrite Hx in Hc. pose proof (wfile_synced (synced (volatile x)) y eq_refl Hc) as ->.
      destruct Hc as [->%survives_synced _]. by rewrite <- Hx.
    - apply Hall in Hx. by rewrite Hx in Hc. }
  pose proof (Hc name) as Hn. rewrite lookup_insert_eq in Hn.
  destruct (m' !! name) as [y|] eqn:Hy; [left|right].
  - exists (volatile y). split; [apply Hn|]. apply map_eq. intros n.
    destruct (decide (name = n)) as [<-|Hne].
    + rewrite Hy, lookup_insert_eq. by rewrite <- (wfile_synced w y Hreg Hn).
    + rewrite lookup_insert_ne by done. auto.
  - split; [done|]. apply map_eq. intros n.
    destruct (decide (name = n)) as [<-|Hne].
    + by rewrite Hy, lookup_delete_eq.
    + rewrite lookup_delete_ne by done. auto.
Qed.

Lemma crash_all_synced m m' : all_synced m -> crash m m' -> m' = m.
Proof.
  intros Hall Hc. apply map_eq. intros n. specialize (Hc n).
  destruct (m !! n) as [x|] eqn:Hx, (m' !! n) as [y|] eqn:Hy; try done.
  - apply Hall in Hx. rewrite Hx in Hc. pose proof (wfile_synced (synced (volatile x)) y eq_refl Hc) as ->.
    destruct Hc as [->%survives_synced _]. by rewrite <- Hx.
  - apply Hall in Hx. by rewrite Hx in Hc.
Qed.

Lemma link_all_insert name w m : link_all (<[name := w]> m) = <[name := mkW (volatile w) (durable w) true (regular w)]> (link_all m).
Proof. unfold link_all. by rewrite fmap_insert. Qed.

Lemma link_all_synced m : all_synced m -> link_all m = m.
Proof.
  intros Hall. apply map_eq. intros n. unfold link_all. rewrite lookup_fmap.
  destruct (m !! n) as [x|] eqn:Hx; [|done]. apply Hall in Hx. rewrite Hx. done.
Qed.
