(* ===== verification/Wal.v ===== *)
(** [internal/engine/wal.go]: write-ahead log frames, segment headers, the
    strict recovery of one segment, and the log over a directory of segments.

    Files are accessed through the scripted file system of [Fs]. *)

From Stdlib Require Import ZArith Lia.
From stdpp Require Import base list gmap.
From S2P Require Import Prelude GoStd EngineOps Fs.

Local Open Scope Z_scope.

Definition segmentMagic : bytes := lit "VBSE".
Definition frameMagic : bytes := lit "VBFR".
Definition walFormat : byte := x01.
Definition segmentKind : byte := x01.
Definition batchKind : byte := x01.

(** ** Frames *)

(** One operation of a payload. *)
Definition encode_op (o : operation) : bytes :=
  op_kind o :: be 4 (len (op_key o)) ++ be 4 (len (op_value o)) ++ op_key o ++ op_value o.
Definition encode_ops (l : list operation) : bytes := concat (map encode_op l).

(** Bytes 0 to 27 of a frame, and the frame header with its checksum. *)
Definition frame_head (lsn count payloadLen : Z) : bytes :=
  frameMagic ++ [walFormat; batchKind; x00; x00] ++ be 4 payloadLen ++ be 8 lsn
  ++ be 4 count ++ be 4 (max_uint32 - payloadLen).
Definition frame_header (lsn count payloadLen : Z) : bytes :=
  frame_head lsn count payloadLen ++ be 4 (crc32.Checksum (frame_head lsn count payloadLen)).

Definition frame_bytes (lsn : Z) (l : list operation) (payloadLen : Z) : bytes :=
  let body := frame_header lsn (len l) payloadLen ++ encode_ops l in
  body ++ be 4 (crc32.Checksum body).

Definition encodeFrame (lsn : Z) (batch : option Batch) (opts : Options)
    : result engine_error (bytes * list operation) :=
  '(ops, payloadLen) ← canonicalOperations batch opts;
  let frameLen := frameHeaderLen + payloadLen + frameTrailerLen in
  fail_if (SegmentBytes opts + MaxBatchBytes opts <? frameLen) (ErrBatchTooLarge "");;
  Ok (frame_bytes lsn ops payloadLen, ops).

(** Bytes 0 to 23 of a segment, and the whole header. *)
Definition segment_head (segment firstLSN : Z) : bytes :=
  segmentMagic ++ [walFormat; segmentKind; x00; x00] ++ be 8 segment ++ be 8 firstLSN.
Definition encodeSegmentHeader (segment firstLSN : Z) : bytes :=
  segment_head segment firstLSN ++ be 4 (crc32.Checksum (segment_head segment firstLSN)).

(** ** Decoding a payload *)

(** The loop of [decodePayload] with [n] operations left; [rest] is
    [payload[off:]]. *)
Fixpoint decode_ops (opts : Options) (n : nat) (rest : bytes) (previous : option bytes)
    (acc : list operation) : result engine_error (list operation * bytes) :=
  match n with
  | O => Ok (acc, rest)
  | S n' =>
      match rest with
      | [] => Fail (ErrCorrupt "truncated operation")
      | kind :: _ =>
          fail_if (len rest <? 9) (ErrCorrupt "truncated operation");;
          let keyLen := un_be (sub rest 1 5) in
          let valueLen := un_be (sub rest 5 9) in
          fail_if ((keyLen =? 0) || (MaxKeyBytes opts <? keyLen) || (MaxValueBytes opts <? valueLen)
                   || (bool_decide (kind = deleteOp) && negb (valueLen =? 0))
                   || (negb (bool_decide (kind = putOp)) && negb (bool_decide (kind = deleteOp))))
            (ErrCorrupt "invalid operation bounds");;
          let rest := drop 9 rest in
          fail_if ((len rest <? keyLen) || (len rest - keyLen <? valueLen))
            (ErrCorrupt "operation exceeds payload");;
          let key := take (Z.to_nat keyLen) rest in
          let rest := drop (Z.to_nat keyLen) rest in
          let value := take (Z.to_nat valueLen) rest in
          let rest := drop (Z.to_nat valueLen) rest in
          fail_if (match previous with Some p => ble key p | None => false end)
            (ErrCorrupt "operations are not canonical");;
          decode_ops opts n' rest (Some key) (acc ++ [mkOp kind key value])
      end
  end.

Definition decodePayload (payload : bytes) (count : Z) (opts : Options)
    : result engine_error (list operation) :=
  fail_if ((count =? 0) || (uint32 (MaxBatchOps opts) <? count)) (ErrCorrupt "invalid operation count");;
  '(ops, rest) ← decode_ops opts (Z.to_nat count) payload None [];
  fail_if (negb (bool_decide (rest = []))) (ErrCorrupt "trailing payload bytes");;
  Ok ops.

(** ** Files *)

Definition truncateAndSync (name : bytes) (size : Z) : io unit :=
  io_wrap (fun _ => ErrFilesystem "truncate WAL tail") (Truncate name size);;
  io_wrap (fun _ => ErrFilesystem "sync WAL truncation") (Sync name).

(** [readFullAt] of bytes that lie within the file: [data] is what the file
    holds there; the read can fail. *)
Definition readFullAt (why : string) (data : bytes) : io bytes :=
  io_wrap (fun _ => ErrCorrupt why) call;; mret data.

(** The header test shared by [recoverSegment] and [segmentFirstLSN]. *)
Definition segment_header_bad (header : bytes) : bool :=
  negb (beq (sub header 0 4) segmentMagic) || negb (beq (sub header 4 6) [walFormat; segmentKind])
  || negb (un_be (sub header 6 8) =? 0)
  || negb (un_be (sub header 24 28) =? crc32.Checksum (sub header 0 24)).

Definition frame_header_bad (fh : bytes) : bool :=
  negb (beq (sub fh 0 4) frameMagic) || negb (beq (sub fh 4 6) [walFormat; batchKind])
  || negb (un_be (sub fh 6 8) =? 0)
  || negb (un_be (sub fh 24 28) =? max_uint32 - un_be (sub fh 8 12))
  || negb (un_be (sub fh 28 32) =? crc32.Checksum (sub fh 0 28)).

(** [content] is the [size] bytes of the open file. *)
Definition segmentFirstLSN (content : bytes) : io Z :=
  io_fail_if (len content <? segmentHeaderLen) (ErrCorrupt "short segment header");;
  header ← readFullAt "segment header" (sub content 0 28);
  io_fail_if (segment_header_bad header) (ErrCorrupt "invalid segment header");;
  mret (un_be (sub header 16 24)).

(** ** Recovery of one segment *)

Record recovered : Type := mkRecovered {
  rec_state : state;
  rec_lsn : Z;
  rec_size : Z
}.

(** The frame loop of [recoverSegment]: [rest] is the file from [offset] on.
    A frame has at least one byte, so the length of the file is fuel enough;
    the loop ends when nothing is left. *)
Fixpoint recover_frames (fuel : nat) (opts : Options) (final : bool) (flushedLSN : Z) (name : bytes)
    (rest : bytes) (offset lastLSN : Z) (st : state) : io recovered :=
  match fuel with
  | O => mret (mkRecovered st lastLSN offset)
  | S fuel' =>
      let remaining := len rest in
      if remaining <=? 0 then mret (mkRecovered st lastLSN offset)
      else if remaining <? frameHeaderLen then
        io_fail_if (negb final) (ErrCorrupt "short interior frame header");;
        truncateAndSync name offset;;
        mret (mkRecovered st lastLSN offset)
      else
        fh ← readFullAt "frame header" (sub rest 0 32);
        io_fail_if (frame_header_bad fh) (ErrCorrupt "invalid frame header");;
        let payloadLen := un_be (sub fh 8 12) in
        io_fail_if ((payloadLen <? 1) || (MaxBatchBytes opts <? payloadLen)) (ErrCorrupt "invalid frame length");;
        let frameLen := frameHeaderLen + payloadLen + frameTrailerLen in
        if remaining <? frameLen then
          io_fail_if (negb final) (ErrCorrupt "short interior frame");;
          truncateAndSync name offset;;
          mret (mkRecovered st lastLSN offset)
        else
          frame ← readFullAt "frame" (sub rest 0 frameLen);
          io_fail_if (negb (un_be (sub frame (len frame - 4) (len frame))
                            =? crc32.Checksum (sub frame 0 (len frame - 4)))) (ErrCorrupt "frame checksum");;
          io_fail_if (negb (un_be (sub frame 12 20) =? uint64 (lastLSN + 1)))
            (ErrCorrupt "LSN gap or duplicate");;
          ops ← io_lift (decodePayload (sub frame 32 (32 + payloadLen)) (un_be (sub frame 20 24)) opts);
          st ← io_lift (if flushedLSN <? uint64 (lastLSN + 1)
                        then map_err (fun _ => ErrCorrupt "recovered batch") (candidateState st ops opts)
                        else Ok st);
          recover_frames fuel' opts final flushedLSN name (drop (Z.to_nat frameLen) rest)
            (offset + frameLen) (uint64 (lastLSN + 1)) st
  end.

(** [content] is the [size] bytes of the open file [name]. *)
Definition recoverSegment (name content : bytes) (seg lastLSN : Z) (st : state) (opts : Options)
    (final : bool) (flushedLSN : Z) : io recovered :=
  let size := len content in
  let maxSize := SegmentBytes opts in
  let minimumOversize := MaxBatchBytes opts + frameHeaderLen + frameTrailerLen + segmentHeaderLen in
  let maxSize := if maxSize <? minimumOversize then minimumOversize else maxSize in
  if size <? segmentHeaderLen then
    io_fail_if (negb final) (ErrCorrupt "short interior segment header");;
    truncateAndSync name 0;;
    mret (mkRecovered st lastLSN 0)
  else
    io_fail_if (maxSize <? size) (ErrCorrupt "segment exceeds configured bound");;
    header ← readFullAt "segment header" (sub content 0 28);
    io_fail_if (segment_header_bad header) (ErrCorrupt "invalid segment header");;
    io_fail_if (negb (un_be (sub header 8 16) =? seg) || negb (un_be (sub header 16 24) =? uint64 (lastLSN + 1)))
      (ErrCorrupt "non-contiguous segment header");;
    let rest := drop 28 content in
    recover_frames (length rest) opts final flushedLSN name rest segmentHeaderLen lastLSN st.

(** ** Lengths and fields *)

Lemma length_frame_header lsn count n : length (frame_header lsn count n) = 32%nat.
Proof. reflexivity. Qed.
Lemma length_segment_header seg first : length (encodeSegmentHeader seg first) = 28%nat.
Proof. reflexivity. Qed.

Lemma len_encode_op o : len (encode_op o) = op_size o.
Proof. unfold encode_op, op_size. autorewrite with len. lia. Qed.
Lemma len_encode_ops l : len (encode_ops l) = ops_size l.
Proof.
  induction l as [|o l IH]; [done|]. cbn [ops_size]. rewrite <- IH, <- len_encode_op.
  unfold encode_ops. cbn [map concat]. apply len_app.
Qed.
Lemma len_frame_bytes lsn l n : len (frame_bytes lsn l n) = frameHeaderLen + ops_size l + frameTrailerLen.
Proof.
  unfold frame_bytes. rewrite !len_app, len_be, len_encode_ops.
  change (len (frame_header lsn (len l) n)) with 32. unfold frameHeaderLen, frameTrailerLen. lia.
Qed.

Lemma segment_header_good seg first : segment_header_bad (encodeSegmentHeader seg first) = false.
Proof.
  unfold segment_header_bad.
  change (sub (encodeSegmentHeader seg first) 24 28) with (be 4 (crc32.Checksum (segment_head seg first))).
  change (sub (encodeSegmentHeader seg first) 0 24) with (segment_head seg first).
  rewrite crc32.un_be_Checksum, !Z.eqb_refl. reflexivity.
Qed.

Lemma segment_header_seg seg first :
  is_u64 seg -> un_be (sub (encodeSegmentHeader seg first) 8 16) = seg.
Proof.
  intros. change (sub _ 8 16) with (be 8 seg). apply un_be_be_small.
  unfold is_u64, max_uint64 in *. cbn. lia.
Qed.
Lemma segment_header_first seg first :
  is_u64 first -> un_be (sub (encodeSegmentHeader seg first) 16 24) = first.
Proof.
  intros. change (sub _ 16 24) with (be 8 first). apply un_be_be_small.
  unfold is_u64, max_uint64 in *. cbn. lia.
Qed.

Lemma frame_header_good lsn count n :
  is_u32 n -> frame_header_bad (frame_header lsn count n) = false.
Proof.
  intros Hn. unfold frame_header_bad.
  change (sub (frame_header lsn count n) 28 32) with (be 4 (crc32.Checksum (frame_head lsn count n))).
  change (sub (frame_header lsn count n) 0 28) with (frame_head lsn count n).
  change (sub (frame_header lsn count n) 8 12) with (be 4 n).
  change (sub (frame_header lsn count n) 24 28) with (be 4 (max_uint32 - n)).
  unfold is_u32, max_uint32 in *.
  rewrite crc32.un_be_Checksum, !un_be_be_small by (cbn; lia).
  rewrite !Z.eqb_refl. reflexivity.
Qed.

(** ** Decoding an encoded payload *)

(** What [encodeFrame] writes: valid, bounded operations in key order. *)
Definition canonical (opts : Options) (l : list operation) : Prop :=
  canonical_ops opts l /\ keys_increasing (map op_key l) = true.

(** The operation count field is 32 bits wide. *)
Definition count_fits (opts : Options) : Prop := MaxBatchOps opts <= max_uint32.

Lemma encodeFrame_Ok lsn b opts frame l :
  encodeFrame lsn (Some b) opts = Ok (frame, l) ->
  canonical opts l /\ l = sort_by op_key (ops b) /\ frame = frame_bytes lsn l (ops_size l).
Proof.
  unfold encodeFrame. intros H. inv_res. destruct r as [l' n]. inv_res. bool_to_prop.
  apply canonicalOperations_Ok in Hr as (Hc & -> & ->).
  assert (sort_by op_key (ops b) ≡ₚ ops b) as Hp by apply sort_by_perm.
  rewrite (ops_size_perm _ _ Hp). split; [|done]. split.
  - by eapply canonical_ops_perm.
  - apply sort_by_increasing. apply Hc.
Qed.

Lemma decode_op_step opts n o rest previous acc :
  opts_ok opts -> op_valid opts o -> op_size o <= max_uint32 ->
  (match previous with Some p => blt p (op_key o) = true | None => True end) ->
  decode_ops opts (S n) (encode_op o ++ rest) previous acc
  = decode_ops opts n rest (Some (op_key o)) (acc ++ [o]).
Proof.
  intros Ho Hv Hs Hp. destruct o as [kind key value].
  pose proof Hv as [Hk Hkind]%op_valid_spec. unfold opts_ok in Ho. unfold op_size in Hs. cbn in *.
  pose proof (len_nonneg key). pose proof (len_nonneg value). pose proof (len_nonneg rest).
  unfold encode_op. cbn [op_kind op_key op_value].
  cbn [decode_ops app].
  rewrite fail_if_false by (apply Z.ltb_ge; unfold len in *; cbn; rewrite ?length_app; lia).
  change (sub (kind :: _) 1 5) with (be 4 (len key)).
  change (sub (kind :: _) 5 9) with (be 4 (len value)).
  change (drop 9 (kind :: _)) with (key ++ value ++ rest).
  unfold max_uint32 in *. rewrite !un_be_be_small by (cbn; lia).
  rewrite fail_if_false.
  2:{ rewrite !orb_false_iff, Z.eqb_neq, !Z.ltb_ge.
      split_and!; try lia.
      - destruct Hkind as [[_ ?]|[_ ->]]; [lia|]. rewrite len_nil. lia.
      - destruct Hkind as [[-> _]|[-> ->]]; done.
      - destruct Hkind as [[-> _]|[-> _]]; done. }
  rewrite !drop_0, <- !app_assoc.
  rewrite fail_if_false by (rewrite orb_false_iff, !Z.ltb_ge, !len_app; lia).
  rewrite !len_to_nat, take_app_length, drop_app_length, take_app_length, drop_app_length.
  rewrite fail_if_false; [done|].
  destruct previous as [p|]; [|done]. by rewrite ble_blt, Hp.
Qed.

Lemma decode_ops_encode opts l rest previous acc :
  opts_ok opts -> Forall (op_valid opts) l -> ops_size l <= max_uint32 ->
  keys_increasing (map op_key l) = true ->
  (match previous, l with Some p, o :: _ => blt p (op_key o) = true | _, _ => True end) ->
  decode_ops opts (length l) (encode_ops l ++ rest) previous acc = Ok (acc ++ l, rest).
Proof.
  intros Ho Hf. revert previous acc.
  induction Hf as [|o l Hv Hf IH]; intros previous acc Hs Hi Hp.
  - cbn. by rewrite app_nil_r.
  - cbn [length ops_size map] in *. apply keys_increasing_cons in Hi as [Hhd Hi].
    pose proof (ops_size_nonneg l). pose proof (op_size_pos o).
    change (encode_ops (o :: l)) with (encode_op o ++ encode_ops l). rewrite <- app_assoc.
    rewrite decode_op_step by (try done; lia). rewrite IH; try done; try lia.
    + by rewrite <- app_assoc.
    + by destruct l.
Qed.

Lemma decodePayload_encode opts l :
  opts_ok opts -> count_fits opts -> canonical opts l ->
  decodePayload (encode_ops l) (len l) opts = Ok l.
Proof.
  intros Ho Hc [(Hl & Hf & _ & Hs1 & Hs2) Hi]. unfold decodePayload, count_fits, max_uint32 in *.
  rewrite fail_if_false.
  2:{ apply orb_false_iff. rewrite Z.eqb_neq, Z.ltb_ge. unfold uint32. rewrite Z.mod_small; lia. }
  rewrite len_to_nat. rewrite <- (app_nil_r (encode_ops l)).
  by rewrite decode_ops_encode by done.
Qed.

(** ** Recovery of complete frames *)

(** The state a batch of valid operations leads to. *)
Definition next_state (st : state) (l : list operation) : state :=
  let s := fold_left apply_op l (values st, tombstones st) in
  mkState (fst s) (snd s) (sort_by (fun k => k) (elements (dom (fst s)))).

(** Batches written from log sequence number [lsn] on, and their replay over
    a state that already contains the ones up to [flushed]. *)
Fixpoint frames (lsn : Z) (ls : list (list operation)) : bytes :=
  match ls with
  | [] => []
  | l :: ls' => frame_bytes lsn l (ops_size l) ++ frames (lsn + 1) ls'
  end.
Fixpoint replay (flushed lsn : Z) (ls : list (list operation)) (st : state) : state :=
  match ls with
  | [] => st
  | l :: ls' => replay flushed (lsn + 1) ls' (if flushed <? lsn then next_state st l else st)
  end.

Lemma candidateState_canonical opts st l :
  canonical opts l -> candidateState st l opts = Ok (next_state st l).
Proof. intros [(Hl & Hf & Hnd & _) _]. by apply candidateState_Ok. Qed.

Lemma frame_bytes_app lsn l n rest :
  frame_bytes lsn l n ++ rest
  = frame_header lsn (len l) n ++ encode_ops l
    ++ be 4 (crc32.Checksum (frame_header lsn (len l) n ++ encode_ops l)) ++ rest.
Proof. unfold frame_bytes. by rewrite <- !app_assoc. Qed.

Lemma sub_prefix {A} (a b : list A) n : n = len a -> sub (a ++ b) 0 n = a.
Proof. intros ->. apply (sub_app_mid [] a b); [done|]. rewrite len_nil. lia. Qed.

Lemma drop_prefix {A} (a b : list A) n : n = len a -> drop (Z.to_nat n) (a ++ b) = b.
Proof. intros ->. by rewrite len_to_nat, drop_app_length. Qed.

(** Header fields of a frame, at the front of whatever follows it. *)
Lemma frame_front lsn l rest :
  sub (frame_bytes lsn l (ops_size l) ++ rest) 0 32 = frame_header lsn (len l) (ops_size l).
Proof. rewrite frame_bytes_app. by apply sub_prefix. Qed.

Lemma frame_whole lsn l rest n :
  n = frameHeaderLen + ops_size l + frameTrailerLen ->
  sub (frame_bytes lsn l (ops_size l) ++ rest) 0 n = frame_bytes lsn l (ops_size l).
Proof. intros ->. apply sub_prefix. symmetry. apply len_frame_bytes. Qed.

Lemma frame_trailer lsn l (f := frame_bytes lsn l (ops_size l)) :
  un_be (sub f (len f - 4) (len f)) = crc32.Checksum (sub f 0 (len f - 4)).
Proof.
  unfold f, frame_bytes. set (body := frame_header lsn (len l) (ops_size l) ++ encode_ops l).
  rewrite len_app, len_be. replace (len body + Z.of_nat 4 - 4) with (len body) by lia.
  rewrite sub_prefix by done.
  rewrite <- (app_nil_r (be 4 _)). rewrite sub_app_mid by (rewrite ?len_be; lia).
  apply crc32.un_be_Checksum.
Qed.

Lemma frame_payload lsn l (f := frame_bytes lsn l (ops_size l)) :
  sub f 32 (32 + ops_size l) = encode_ops l.
Proof.
  unfold f, frame_bytes. rewrite <- app_assoc. apply sub_app_mid; [done|].
  by rewrite len_encode_ops.
Qed.

Lemma frame_count lsn l (f := frame_bytes lsn l (ops_size l)) :
  sub f 12 20 = be 8 lsn /\ sub f 20 24 = be 4 (len l).
Proof. unfold f, frame_bytes. rewrite <- app_assoc. done. Qed.

Lemma readFullAt_ok why data d :
  script d = [] -> readFullAt why data d = (Ok data, d).
Proof. destruct d as [m s]. cbn. by intros ->. Qed.

(** One step of a run on a file system without faults. *)
Ltac io_step :=
  first [ rewrite io_fail_if_false
        | rewrite io_ret_bind
        | erewrite io_bind_Ok by (by apply readFullAt_ok) ].

Section recovery.
Context (opts : Options) (final : bool) (flushedLSN : Z) (name : bytes) (d : directory).
Context (Hopts : opts_ok opts) (Hcount : count_fits opts) (Hd : script d = []).

Lemma recover_frame_step f l rest off lsn st :
  canonical opts l -> 0 <= lsn < max_uint64 ->
  recover_frames (S f) opts final flushedLSN name
    (frame_bytes (lsn + 1) l (ops_size l) ++ rest) off lsn st d
  = recover_frames f opts final flushedLSN name rest
      (off + len (frame_bytes (lsn + 1) l (ops_size l))) (lsn + 1)
      (if flushedLSN <? lsn + 1 then next_state st l else st) d.
Proof.
  intros Hc Hlsn. pose proof Hc as [(Hl & _ & _ & Hs1 & Hs2) _].
  pose proof (len_frame_bytes (lsn + 1) l (ops_size l)) as Hlen.
  assert (9 <= ops_size l) as Hpos.
  { destruct l as [|o l]; [rewrite len_nil in Hl; lia|]. cbn [ops_size].
    pose proof (op_size_pos o). pose proof (ops_size_nonneg l). lia. }
  pose proof (frame_front (lsn + 1) l rest) as Hfront.
  pose proof (frame_whole (lsn + 1) l rest _ eq_refl) as Hwhole.
  pose proof (frame_trailer (lsn + 1) l) as Htrailer.
  pose proof (frame_payload (lsn + 1) l) as Hpayload.
  pose proof (frame_count (lsn + 1) l) as [Hf1 Hf2].
  pose proof (len_nonneg rest). cbv zeta in Htrailer, Hpayload, Hf1, Hf2.
  set (frame := frame_bytes (lsn + 1) l (ops_size l)) in *. clearbody frame.
  unfold max_uint32, max_uint64, frameHeaderLen, frameTrailerLen in *.
  cbn [recover_frames]. cbv zeta. rewrite Hfront. unfold frameHeaderLen, frameTrailerLen.
  rewrite (proj2 (Z.leb_gt _ _)) by (rewrite len_app; lia).
  rewrite (proj2 (Z.ltb_ge _ _)) by (rewrite len_app; lia).
  io_step. change (sub (frame_header _ _ _) 8 12) with (be 4 (ops_size l)).
  rewrite un_be_be_small by (cbn; lia).
  io_step; [|apply frame_header_good; unfold is_u32, max_uint32; lia].
  io_step; [|rewrite orb_false_iff, !Z.ltb_ge; lia].
  rewrite (proj2 (Z.ltb_ge _ _)) by (rewrite len_app; lia). rewrite Hwhole. io_step.
  rewrite Htrailer, Hpayload, Hf1, Hf2, !un_be_be_small
    by (cbn; unfold count_fits, max_uint32 in Hcount; lia).
  io_step; [|by rewrite Z.eqb_refl].
  unfold uint64. rewrite Z.mod_small by lia. io_step; [|by rewrite Z.eqb_refl].
  erewrite io_lift_Ok by (by apply decodePayload_encode).
  rewrite (io_lift_Ok _ (if flushedLSN <? lsn + 1 then next_state st l else st))
    by (rewrite candidateState_canonical by done; by destruct (flushedLSN <? lsn + 1)).
  rewrite drop_prefix by done. by rewrite Hlen.
Qed.

Lemma recover_frames_prefix ls : forall f rest off lsn st,
  Forall (canonical opts) ls -> 0 <= lsn -> lsn + len ls <= max_uint64 ->
  (length (frames (lsn + 1) ls ++ rest) <= f)%nat ->
  exists f', (length rest <= f')%nat /\
  recover_frames f opts final flushedLSN name (frames (lsn + 1) ls ++ rest) off lsn st d
  = recover_frames f' opts final flushedLSN name rest (off + len (frames (lsn + 1) ls))
      (lsn + len ls) (replay flushedLSN (lsn + 1) ls st) d.
Proof.
  induction ls as [|l ls IH]; intros f rest off lsn st Hf Hlsn Hmax Hfuel; cbn [frames replay app] in *.
  - exists f. rewrite len_nil, !Z.add_0_r. done.
  - apply Forall_cons in Hf as [Hl Hf]. rewrite len_cons in *. pose proof (len_nonneg ls).
    rewrite <- app_assoc in *. rewrite length_app in Hfuel.
    pose proof (len_frame_bytes (lsn + 1) l (ops_size l)) as Hlen. unfold len in Hlen at 1.
    pose proof (ops_size_nonneg l). unfold frameHeaderLen, frameTrailerLen in Hlen.
    destruct f as [|f]; [lia|]. rewrite recover_frame_step by (done || lia).
    destruct (IH f rest (off + len (frame_bytes (lsn + 1) l (ops_size l))) (lsn + 1)
                (if flushedLSN <? lsn + 1 then next_state st l else st)) as (f' & Hf' & ->); try done; try lia.
    exists f'. split; [done|]. rewrite len_app. f_equal; lia.
Qed.
End recovery.

(** ** Torn tails *)

(** [torn] is what a crash during the write of a frame can leave behind it: a
    strict prefix of that frame. *)
Definition strict_prefix (torn whole : bytes) : Prop :=
  exists k, (k < length whole)%nat /\ torn = take k whole.

Lemma sub_take {A} (l : list A) lo hi k :
  (0 <= lo <= hi)%Z -> (hi <= Z.of_nat k)%Z -> sub (take k l) lo hi = sub l lo hi.
Proof.
  intros. unfold sub. rewrite skipn_firstn_comm, take_take. f_equal. lia.
Qed.

Lemma recover_torn opts flushedLSN name f lsn l torn off last st d :
  script d = [] ->
  canonical opts l -> strict_prefix torn (frame_bytes lsn l (ops_size l)) -> torn <> [] ->
  recover_frames (S f) opts true flushedLSN name torn off last st d
  = (truncateAndSync name off;; mret (mkRecovered st last off)) d.
Proof.
  intros Hd Hc (k & Hk & ->) Hne. pose proof Hc as [(Hl & _ & _ & Hs1 & Hs2) _].
  pose proof (len_frame_bytes lsn l (ops_size l)) as Hlen. unfold len in Hlen at 1.
  assert (9 <= ops_size l) as Hpos.
  { destruct l as [|o l]; [rewrite len_nil in Hl; lia|]. cbn [ops_size].
    pose proof (op_size_pos o). pose proof (ops_size_nonneg l). lia. }
  pose proof (frame_front lsn l []) as Hfront. rewrite app_nil_r in Hfront.
  set (frame := frame_bytes lsn l (ops_size l)) in *. clearbody frame.
  assert (len (take k frame) = Z.of_nat k) as Htk by (unfold len; rewrite length_take; lia).
  assert (Z.of_nat k <> 0) by (intros ?; apply Hne, len_zero_nil; lia).
  unfold max_uint32, frameHeaderLen, frameTrailerLen in *.
  cbn [recover_frames]. cbv zeta. rewrite Htk. unfold frameHeaderLen, frameTrailerLen.
  rewrite (proj2 (Z.leb_gt _ _)) by lia.
  destruct (Z.ltb_spec (Z.of_nat k) 32); [done|].
  rewrite !sub_take, Hfront by lia. io_step.
  change (sub (frame_header _ _ _) 8 12) with (be 4 (ops_size l)).
  rewrite un_be_be_small by (cbn; lia).
  io_step; [|apply frame_header_good; unfold is_u32, max_uint32; lia].
  io_step; [|rewrite orb_false_iff, !Z.ltb_ge; lia].
  by rewrite (proj2 (Z.ltb_lt _ _)) by lia.
Qed.

(** ** Segments *)

(** A segment as the writer leaves it: its header and complete frames. *)
Definition segment_bytes (seg first : Z) (ls : list (list operation)) : bytes :=
  encodeSegmentHeader seg first ++ frames first ls.

(** The bound [recoverSegment] puts on a file. *)
Definition segment_limit (opts : Options) : Z :=
  Z.max (SegmentBytes opts)
        (MaxBatchBytes opts + frameHeaderLen + frameTrailerLen + segmentHeaderLen).

Section segments.
Context (opts : Options) (Hopts : opts_ok opts) (Hcount : count_fits opts).
Context (name : bytes) (d : directory) (Hd : script d = []).

Lemma recoverSegment_frames final flushed seg lsn ls torn st :
  is_u64 seg -> 0 <= lsn -> lsn + len ls < max_uint64 ->
  len (segment_bytes seg (lsn + 1) ls ++ torn) <= segment_limit opts -> Forall (canonical opts) ls ->
  exists f', (length torn <= f')%nat /\
   recoverSegment name (segment_bytes seg (lsn + 1) ls ++ torn) seg lsn st opts final flushed d
   = recover_frames f' opts final flushed name torn (len (segment_bytes seg (lsn + 1) ls))
       (lsn + len ls) (replay flushed (lsn + 1) ls st) d.
Proof.
  intros Hseg Hlsn Hmax Hlim Hf. pose proof (len_nonneg ls).
  unfold recoverSegment. cbv zeta.
  set (limit := if SegmentBytes opts <? _ then _ else _).
  assert (limit = segment_limit opts) as ->.
  { unfold limit, segment_limit. destruct (Z.ltb_spec (SegmentBytes opts)
      (MaxBatchBytes opts + frameHeaderLen + frameTrailerLen + segmentHeaderLen)); lia. }
  rewrite (proj2 (Z.ltb_ge _ segmentHeaderLen)).
  2:{ unfold segment_bytes. rewrite <- app_assoc, len_app. change (len (encodeSegmentHeader _ _)) with 28.
      unfold segmentHeaderLen. pose proof (len_nonneg (frames (lsn + 1) ls ++ torn)). lia. }
  io_step; [|apply Z.ltb_ge; lia].
  unfold segment_bytes in *. rewrite <- app_assoc. rewrite sub_prefix by done.
  change 28%nat with (Z.to_nat 28). rewrite drop_prefix by done. io_step.
  io_step; [|apply segment_header_good]. unfold is_u64, max_uint64 in *.
  rewrite segment_header_seg, segment_header_first by (unfold is_u64, max_uint64; lia).
  unfold uint64. rewrite Z.mod_small by lia. io_step; [|by rewrite !Z.eqb_refl].
  destruct (recover_frames_prefix opts final flushed name d Hopts Hcount Hd ls
              (length (frames (lsn + 1) ls ++ torn)) torn segmentHeaderLen lsn st)
    as (f' & Hf' & Hr); try done; [unfold max_uint64; lia|].
  exists f'. split; [done|]. by rewrite Hr, len_app.
Qed.

Lemma recoverSegment_complete final flushed seg lsn ls st :
  is_u64 seg -> 0 <= lsn -> lsn + len ls < max_uint64 ->
  len (segment_bytes seg (lsn + 1) ls) <= segment_limit opts -> Forall (canonical opts) ls ->
  recoverSegment name (segment_bytes seg (lsn + 1) ls) seg lsn st opts final flushed d
  = (Ok (mkRecovered (replay flushed (lsn + 1) ls st) (lsn + len ls)
           (len (segment_bytes seg (lsn + 1) ls))), d).
Proof.
  intros Hseg Hlsn Hmax Hlim Hf. rewrite <- (app_nil_r (segment_bytes _ _ _)) at 1.
  destruct (recoverSegment_frames final flushed seg lsn ls [] st) as (f' & _ & ->);
    try done; [by rewrite app_nil_r|]. by destruct f'.
Qed.

(** A torn tail is cut off, and the cut is synced. *)
Lemma recoverSegment_torn flushed seg lsn ls next torn st w :
  is_u64 seg -> 0 <= lsn -> lsn + len ls < max_uint64 ->
  len (segment_bytes seg (lsn + 1) ls ++ torn) <= segment_limit opts ->
  Forall (canonical opts) ls -> canonical opts next ->
  strict_prefix torn (frame_bytes (lsn + len ls + 1) next (ops_size next)) -> torn <> [] ->
  files d !! name = Some w -> volatile w = segment_bytes seg (lsn + 1) ls ++ torn ->
  recoverSegment name (segment_bytes seg (lsn + 1) ls ++ torn) seg lsn st opts true flushed d
  = (Ok (mkRecovered (replay flushed (lsn + 1) ls st) (lsn + len ls)
           (len (segment_bytes seg (lsn + 1) ls))),
     mkDir (<[name := mkW (segment_bytes seg (lsn + 1) ls) (segment_bytes seg (lsn + 1) ls)
                          (linked w) (regular w)]> (files d)) []).
Proof.
  intros Hseg Hlsn Hmax Hlim Hf Hn Ht Hne Hw Hv.
  destruct (recoverSegment_frames true flushed seg lsn ls torn st) as (f' & Hf' & ->); try done.
  destruct f' as [|f']; [destruct torn; [done|cbn in Hf'; lia]|].
  rewrite (recover_torn opts flushed name f' (lsn + len ls + 1) next) by done.
  destruct d as [m s]. cbn [files script] in *. subst s. unfold truncateAndSync.
  rewrite io_bind_assoc. erewrite io_bind_Ok by (by apply io_wrap_Ok, Truncate_ok).
  erewrite io_bind_Ok by (apply io_wrap_Ok, Sync_ok, lookup_insert_eq). cbn [volatile durable linked regular].
  rewrite Hv, len_to_nat, take_app_length. by rewrite insert_insert_eq.
Qed.

(** A segment whose header did not reach the file is emptied. *)
Lemma recoverSegment_headless flushed seg lsn st w :
  files d !! name = Some w -> len (volatile w) < segmentHeaderLen ->
  recoverSegment name (volatile w) seg lsn st opts true flushed d
  = (Ok (mkRecovered st lsn 0), mkDir (<[name := mkW [] [] (linked w) (regular w)]> (files d)) []).
Proof.
  intros Hw Hl. unfold recoverSegment. cbv zeta. rewrite (proj2 (Z.ltb_lt _ segmentHeaderLen)) by done.
  destruct d as [m s]. cbn [files script] in *. subst s.
  io_step; [|done]. unfold truncateAndSync.
  rewrite io_bind_assoc. erewrite io_bind_Ok by (by apply io_wrap_Ok, Truncate_ok).
  erewrite io_bind_Ok by (apply io_wrap_Ok, Sync_ok, lookup_insert_eq). cbn [volatile durable linked regular].
  by rewrite insert_insert_eq.
Qed.
End segments.
