(* ===== verification/WalLog.v ===== *)
(** [internal/engine/wal.go]: the log over its directory of segments:
    creation and rotation of segments, appending, opening with recovery, and
    reclaiming old segments; with the durability of acknowledged batches. *)

From Stdlib Require Import ZArith Lia.
From stdpp Require Import base list gmap sorting.
From S2P Require Import Prelude GoStd EngineOps Fs Wal.

Local Open Scope Z_scope.

(** The open log: the current file by its name, its segment number and size.
    After an error of one of its methods the engine is poisoned and the log is
    only closed, so the methods return the log on success only. *)
Record wal : Type := mkWal {
  wal_file : option bytes;
  wal_seg : Z;
  wal_size : Z;
  wal_closed : bool
}.

(** ** The directory *)

(** The members of the directory in [ReadDir] order. *)
Fixpoint list_members (names : list bytes) : io (list Z) :=
  match names with
  | [] => mret []
  | name :: names' =>
      match validSegmentName name with
      | None => io_fail (ErrCorrupt "unexpected WAL member")
      | Some seg =>
          io_wrap (fun _ => ErrFilesystem "stat WAL member") call;;
          w ← io_wrap (fun _ => ErrFilesystem "stat WAL member") (lookup_file name);
          io_fail_if (negb (regular w)) (ErrCorrupt "WAL member is not a regular file");;
          segs ← list_members names';
          mret (seg :: segs)
      end
  end.

(** [segments[i] != segments[0]+uint64(i)] from index [i] on. *)
Fixpoint segment_gap (first i : Z) (segs : list Z) : bool :=
  match segs with
  | [] => false
  | s :: segs' => negb (s =? uint64 (first + i)) || segment_gap first (i + 1) segs'
  end.

Definition listSegments : io (list Z) :=
  io_wrap (fun _ => ErrFilesystem "list WAL") call;;
  m ← get_files;
  segs ← list_members (sort_by (fun n => n) (elements (dom m)));
  let segs := merge_sort Z.le segs in
  match segs with
  | [] => mret []
  | first :: rest =>
      io_fail_if (segment_gap first 1 rest) (ErrCorrupt "WAL segment gap");;
      mret segs
  end.

(** The open file by its name, with the bytes it holds. *)
Definition openExistingSegment (seg : Z) : io bytes :=
  w ← io_wrap (fun _ => ErrFilesystem "open segment") (open_file (segmentName seg));
  io_or_close (segmentName seg) (io_wrap (fun _ => ErrFilesystem "stat segment") call);;
  mret (volatile w).

Definition createSegment (seg firstLSN : Z) : io Z :=
  let name := segmentName seg in
  io_wrap (fun _ => ErrFilesystem "create segment") (create_file name);;
  let header := encodeSegmentHeader seg firstLSN in
  io_or_close name (io_wrap (fun _ => ErrFilesystem "write segment header") (writeFullAt name header 0));;
  io_or_close name (io_wrap (fun _ => ErrFilesystem "sync segment header") (Sync name));;
  io_or_close name syncDirectory;;
  mret (len header).

(** [MkdirAll] and the checks of [prepareDirectory] on the private directory. *)
Definition ensureDirectory : io unit :=
  io_wrap (fun _ => ErrFilesystem "create wal") call;;
  io_wrap (fun _ => ErrFilesystem "stat wal") call.

(** ** Opening *)

(** The sequence number before a segment: for the first one ([previous] is
    [None]) its header says it. *)
Definition start_lsn (flushedLSN : Z) (previous : option Z) (name content : bytes) (lsn : Z) : io Z :=
  match previous with
  | None =>
      firstLSN ← io_or_close name (segmentFirstLSN content);
      io_or_close name (io_fail_if ((firstLSN =? 0) || (uint64 (flushedLSN + 1) <? firstLSN))
        (ErrCorrupt "WAL starts after manifest checkpoint"));;
      mret (firstLSN - 1)
  | Some _ => mret lsn
  end.

(** The segment loop of [openWAL]; [previous] is the segment before the
    current one. [None] in place of the log: no segment is left. *)
Fixpoint open_loop (opts : Options) (flushedLSN : Z) (previous : option Z) (segs : list Z)
    (st : state) (lsn : Z) : io (option wal * state * Z) :=
  match segs with
  | [] => mret (None, st, lsn)
  | seg :: segs' =>
      let last := bool_decide (segs' = []) in
      let name := segmentName seg in
      content ← openExistingSegment seg;
      lsn ← start_lsn flushedLSN previous name content lsn;
      r ← io_or_close name (recoverSegment name content seg lsn st opts last flushedLSN);
      let '(mkRecovered st lsn size) := r in
      if (size =? 0) && last then
        io_ignore (Close name);;
        io_wrap (fun _ => ErrFilesystem "remove empty tail") (Remove name);;
        syncDirectory;;
        match previous with
        | Some p =>
            content ← openExistingSegment p;
            mret (Some (mkWal (Some (segmentName p)) p (len content) false), st, lsn)
        | None => open_loop opts flushedLSN (Some seg) segs' st lsn
        end
      else if negb last && (size =? segmentHeaderLen) then
        io_or_close name (io_fail (ErrCorrupt "empty interior segment"))
      else if last then
        io_or_close name (io_fail_if (lsn <? flushedLSN) (ErrCorrupt "WAL ends before manifest checkpoint"));;
        mret (Some (mkWal (Some name) seg size false), st, lsn)
      else
        io_wrap (fun _ => ErrFilesystem "close segment") (Close name);;
        open_loop opts flushedLSN (Some seg) segs' st lsn
  end.

Definition openWAL (opts : Options) (initial : option state) (flushedLSN : Z) : io (wal * state * Z) :=
  ensureDirectory;;
  segments ← listSegments;
  let initial := match initial with None => emptyState | Some st => st end in
  r ← open_loop opts flushedLSN None segments initial 0;
  let '(w, st, lsn) := r in
  match w with
  | Some w => mret (w, st, lsn)
  | None =>
      size ← createSegment 1 (uint64 (flushedLSN + 1));
      mret (mkWal (Some (segmentName 1)) 1 size false, st, flushedLSN)
  end.

(** ** Methods of the log *)

Definition appendFrame (opts : Options) (w : wal) (frame : bytes) (nextLSN : Z) : io wal :=
  match wal_closed w, wal_file w with
  | false, Some name =>
      w ← (if (segmentHeaderLen <? wal_size w) && (SegmentBytes opts <? wal_size w + len frame) then
             Close name;;
             let seg := uint64 (wal_seg w + 1) in
             size ← createSegment seg nextLSN;
             mret (mkWal (Some (segmentName seg)) seg size false)
           else mret w);
      match wal_file w with
      | Some name =>
          writeFullAt name frame (wal_size w);;
          Sync name;;
          mret (mkWal (Some name) (wal_seg w) (wal_size w + len frame) (wal_closed w))
      | None => io_fail ErrClosed
      end
  | _, _ => io_fail ErrClosed
  end.

Definition rotate (w : wal) (nextLSN : Z) : io wal :=
  match wal_closed w, wal_file w with
  | false, Some name =>
      if wal_size w =? segmentHeaderLen then mret w
      else
        Sync name;;
        Close name;;
        let seg := uint64 (wal_seg w + 1) in
        size ← createSegment seg nextLSN;
        mret (mkWal (Some (segmentName seg)) seg size false)
  | _, _ => io_fail ErrClosed
  end.

Fixpoint remove_segments (segment : Z) (segs : list Z) : io unit :=
  match segs with
  | [] => mret tt
  | seg :: segs' =>
      (if segment <=? seg then mret tt
       else io_wrap (fun _ => ErrFilesystem "remove WAL segment") (Remove (segmentName seg)));;
      remove_segments segment segs'
  end.
Definition removeBefore (segment : Z) : io unit :=
  segs ← listSegments;
  remove_segments segment segs;;
  syncDirectory.

(** The log is marked closed even when closing the file fails. *)
Definition wal_close (w : wal) : wal * io unit :=
  if wal_closed w then (w, mret tt)
  else (mkWal (wal_file w) (wal_seg w) (wal_size w) true,
        match wal_file w with None => mret tt | Some name => Close name end).

(** ** The log as a list of batches *)

(** Segments [s], [s+1], ... holding the given batches, the first of which has
    log sequence number [l + 1]; every byte is durable. *)
Fixpoint log_files (s l : Z) (segs : list (list (list operation))) : gmap bytes wfile :=
  match segs with
  | [] => ∅
  | ls :: segs' => <[segmentName s := synced (segment_bytes s (l + 1) ls)]>
                     (log_files (s + 1) (l + len ls) segs')
  end.

Abbreviation batches := (@concat (list operation)).

(** Segment [ls] fits the bound of recovery and holds canonical batches. *)
Definition segment_ok (opts : Options) (ls : list (list operation)) : Prop :=
  Forall (canonical opts) ls /\ len (segment_bytes 0 0 ls) <= segment_limit opts.

Record log_ok (opts : Options) (s l : Z) (segs : list (list (list operation))) : Prop := {
  lo_opts : opts_ok opts;
  lo_count : count_fits opts;
  lo_seg : 1 <= s /\ s + len segs < max_uint64;
  lo_lsn : 0 <= l /\ l + len (batches segs) < max_uint64;
  lo_segments : Forall (segment_ok opts) segs;
  lo_interior : forall init last, segs = init ++ [last] -> Forall (fun ls => ls <> []) init
}.

(** ** Sizes *)

Lemma len_frames lsn lsn' ls : len (frames lsn ls) = len (frames lsn' ls).
Proof.
  revert lsn lsn'. induction ls as [|l ls IH]; intros lsn lsn'; [done|]. cbn [frames].
  rewrite !len_app, !len_frame_bytes. by rewrite (IH (lsn + 1) (lsn' + 1)).
Qed.

Lemma len_segment_bytes s l ls : len (segment_bytes s l ls) = len (segment_bytes 0 0 ls).
Proof.
  unfold segment_bytes. rewrite !len_app, (len_frames l 0).
  change (len (encodeSegmentHeader s l)) with 28. by change (len (encodeSegmentHeader 0 0)) with 28.
Qed.

Lemma frames_app lsn ls ls' : frames lsn (ls ++ ls') = frames lsn ls ++ frames (lsn + len ls) ls'.
Proof.
  revert lsn. induction ls as [|l ls IH]; intros lsn; cbn [frames app].
  - by rewrite len_nil, Z.add_0_r.
  - rewrite IH, <- app_assoc, len_cons. do 3 f_equal. lia.
Qed.

Lemma segment_bytes_snoc s l ls b :
  segment_bytes s l (ls ++ [b]) = segment_bytes s l ls ++ frame_bytes (l + len ls) b (ops_size b).
Proof. unfold segment_bytes. rewrite frames_app. cbn [frames]. by rewrite app_nil_r, app_assoc. Qed.

Lemma replay_app flushed lsn ls ls' st :
  replay flushed lsn (ls ++ ls') st = replay flushed (lsn + len ls) ls' (replay flushed lsn ls st).
Proof.
  revert lsn st. induction ls as [|l ls IH]; intros lsn st; cbn [replay app].
  - by rewrite len_nil, Z.add_0_r.
  - rewrite IH, len_cons. f_equal. lia.
Qed.

(** ** The directory of a log *)

Lemma log_files_lookup s l segs name w :
  log_files s l segs !! name = Some w ->
  exists i ls, segs !! i = Some ls /\ name = segmentName (s + Z.of_nat i) /\
               w = synced (segment_bytes (s + Z.of_nat i) (l + len (batches (take i segs)) + 1) ls).
Proof.
  revert s l. induction segs as [|ls segs IH]; intros s l; cbn [log_files]; [by rewrite lookup_empty|].
  destruct (decide (segmentName s = name)) as [<-|Hne].
  - rewrite lookup_insert_eq. intros [= <-]. exists 0%nat, ls. cbn [firstn concat]. rewrite (@len_nil (list operation)).
    cbn. rewrite !Z.add_0_r. done.
  - rewrite lookup_insert_ne by done. intros (i & ls' & Hi & -> & ->)%IH. exists (S i), ls'.
    split; [done|]. cbn [firstn concat]. rewrite len_app.
    replace (s + Z.of_nat (S i)) with (s + 1 + Z.of_nat i) by lia.
    by replace (l + (len ls + len (batches (take i segs)))) with (l + len ls + len (batches (take i segs))) by lia.
Qed.

Lemma log_files_synced s l segs : all_synced (log_files s l segs).
Proof. intros name w (i & ls & _ & _ & ->)%log_files_lookup. done. Qed.

Lemma log_files_none s l segs n :
  0 <= s -> n < s \/ s + len segs <= n -> is_u64 n -> s + len segs <= max_uint64 ->
  log_files s l segs !! segmentName n = None.
Proof.
  intros Hs Hn Hu Hm. destruct (log_files s l segs !! segmentName n) as [w|] eqn:Hw; [|done].
  apply log_files_lookup in Hw as (i & ls & Hi & Heq & _). apply lookup_lt_Some in Hi.
  apply segmentName_inj in Heq; [|done|]; unfold is_u64, len in *; lia.
Qed.

Lemma log_files_app s l segs segs' :
  0 <= s -> s + len segs + len segs' <= max_uint64 ->
  log_files s l (segs ++ segs')
  = log_files (s + len segs) (l + len (batches segs)) segs' ∪ log_files s l segs.
Proof.
  revert s l. induction segs as [|ls segs IH]; intros s l Hs Hm; cbn [app log_files concat].
  - by rewrite !len_nil, !Z.add_0_r, (right_id_L ∅ (∪)).
  - rewrite len_cons, len_app in *. rewrite IH by lia.
    rewrite insert_union_r.
    2:{ pose proof (len_nonneg segs). pose proof (len_nonneg segs').
        apply log_files_none; unfold is_u64; lia. }
    f_equal. f_equal; lia.
Qed.

Lemma log_files_snoc s l segs ls :
  0 <= s -> s + len segs + 1 <= max_uint64 ->
  log_files s l (segs ++ [ls])
  = <[segmentName (s + len segs) := synced (segment_bytes (s + len segs) (l + len (batches segs) + 1) ls)]>
      (log_files s l segs).
Proof.
  intros. rewrite log_files_app by (rewrite ?len_cons, ?len_nil; lia). cbn [log_files].
  by rewrite <- insert_union_l, (left_id_L ∅ (∪)).
Qed.

(** ** Listing *)

Lemma list_members_ok m names segs :
  Forall2 (fun name seg => validSegmentName name = Some seg /\
                           exists w, m !! name = Some w /\ regular w = true) names segs ->
  list_members names (mkDir m []) = (Ok segs, mkDir m []).
Proof.
  induction 1 as [|name seg names segs (Hv & w & Hw & Hr) _ IH]; [done|].
  cbn [list_members]. rewrite Hv.
  erewrite io_bind_Ok by (by apply io_wrap_Ok, call_ok).
  erewrite io_bind_Ok by (by apply io_wrap_Ok, lookup_file_ok).
  rewrite io_fail_if_false by (by rewrite Hr).
  by erewrite io_bind_Ok by done.
Qed.

Lemma segment_gap_false first i n :
  0 <= first -> 0 <= i -> first + i + Z.of_nat n <= max_uint64 + 1 ->
  segment_gap first i (seqZ (first + i) (Z.of_nat n)) = false.
Proof.
  revert i. induction n as [|n IH]; intros i Hf Hi Hm; [done|].
  rewrite seqZ_cons by lia. cbn [segment_gap]. apply orb_false_iff. split.
  - unfold uint64, max_uint64 in *. rewrite Z.mod_small by lia. by rewrite Z.eqb_refl.
  - replace (Z.succ (first + i)) with (first + (i + 1)) by lia.
    replace (Z.pred (Z.of_nat (S n))) with (Z.of_nat n) by lia. apply IH; lia.
Qed.

Lemma seqZ_sorted s n : Sorted Z.le (seqZ s (Z.of_nat n)).
Proof.
  revert s. induction n as [|n IH]; intros s; [constructor|].
  rewrite seqZ_cons by lia. replace (Z.pred (Z.of_nat (S n))) with (Z.of_nat n) by lia.
  constructor; [apply IH|]. destruct n; [constructor|]. rewrite seqZ_cons by lia. constructor. lia.
Qed.

Lemma seqZ_u64 s n x : 0 <= s -> s + n <= max_uint64 -> x ∈ seqZ s n -> is_u64 x.
Proof. intros ? ? Hx%elem_of_seqZ. unfold is_u64. lia. Qed.

Lemma NoDup_segment_names s n :
  0 <= s -> s + n <= max_uint64 -> NoDup (segmentName <$> seqZ s n).
Proof.
  intros Hs Hm. apply NoDup_fmap_2_strong; [|apply NoDup_seqZ].
  intros x y Hx Hy. apply segmentName_inj; eapply seqZ_u64; eauto.
Qed.

Lemma listSegments_ok m s n :
  0 <= s -> s + Z.of_nat n <= max_uint64 ->
  dom m = (list_to_set (segmentName <$> seqZ s (Z.of_nat n)) : gset bytes) ->
  (forall name w, m !! name = Some w -> regular w = true) ->
  listSegments (mkDir m []) = (Ok (seqZ s (Z.of_nat n)), mkDir m []).
Proof.
  intros Hs Hm Hdom Hreg. unfold listSegments.
  erewrite io_bind_Ok by (by apply io_wrap_Ok, call_ok). rewrite (io_bind_Ok _ _ _ m (mkDir m [])) by done.
  set (names := sort_by (fun n => n) (elements (dom m))).
  assert (names ≡ₚ segmentName <$> seqZ s (Z.of_nat n)) as Hp.
  { unfold names. rewrite sort_by_perm, Hdom. apply elements_list_to_set. by apply NoDup_segment_names. }
  assert (exists segs, segs ≡ₚ seqZ s (Z.of_nat n) /\ names = segmentName <$> segs) as (segs & Hsegs & Hn).
  { apply Permutation_map_inv in Hp as (segs & Hn & Hsegs). by exists segs. }
  erewrite io_bind_Ok.
  2:{ apply (list_members_ok m names segs). rewrite Hn. apply Forall2_fmap_l, Forall_Forall2_diag.
      apply Forall_forall. intros x Hx. split.
      - apply validSegmentName_segmentName. rewrite Hsegs in Hx. by eapply seqZ_u64.
      - assert (segmentName x ∈ dom m) as [w Hw]%elem_of_dom.
        { rewrite Hdom. apply elem_of_list_to_set, list_elem_of_fmap_2. by rewrite <- Hsegs. }
        exists w. split; [done|]. by eapply Hreg. }
  assert (merge_sort Z.le segs = seqZ s (Z.of_nat n)) as ->.
  { apply (Sorted_unique Z.le); [apply Sorted_merge_sort; apply _|apply seqZ_sorted|].
    by rewrite merge_sort_Permutation. }
  destruct n as [|n]; [done|]. rewrite seqZ_cons by lia.
  rewrite io_fail_if_false; [done|].
  replace (Z.pred (Z.of_nat (S n))) with (Z.of_nat n) by lia.
  replace (Z.succ s) with (s + 1) by lia. apply segment_gap_false; lia.
Qed.

Lemma dom_log_files s l segs :
  dom (log_files s l segs) = (list_to_set (segmentName <$> seqZ s (len segs)) : gset bytes).
Proof.
  revert s l. induction segs as [|ls segs IH]; intros s l; [done|]. cbn [log_files].
  rewrite dom_insert_L, IH, len_cons. pose proof (len_nonneg segs).
  rewrite (seqZ_cons s (1 + len segs)) by lia. cbn [fmap list_fmap list_to_set].
  replace (Z.pred (1 + len segs)) with (len segs) by lia. by replace (Z.succ s) with (s + 1) by lia.
Qed.

(** ** Opening without faults *)

Lemma io_or_close_Ok {A} name (m : io A) d a d' : m d = (Ok a, d') -> io_or_close name m d = (Ok a, d').
Proof. unfold io_or_close. by intros ->. Qed.

Lemma openExistingSegment_ok m seg w :
  m !! segmentName seg = Some w -> openExistingSegment seg (mkDir m []) = (Ok (volatile w), mkDir m []).
Proof.
  intros Hw. unfold openExistingSegment. erewrite io_bind_Ok by (by apply io_wrap_Ok, open_file_ok). done.
Qed.

(** Recovery reaches a segment whose first frame is [l + 1]: either it is the
    first one, at or before the checkpoint, or the ones before end at [l]. *)
Definition starts_at (flushed : Z) (previous : option Z) (l lsn : Z) : Prop :=
  match previous with None => l <= flushed < max_uint64 | Some _ => lsn = l end.

Lemma start_lsn_ok m flushed previous name s l ls torn lsn :
  0 <= l < max_uint64 -> starts_at flushed previous l lsn ->
  start_lsn flushed previous name (segment_bytes s (l + 1) ls ++ torn) lsn (mkDir m []) = (Ok l, mkDir m []).
Proof.
  intros Hl Hp. destruct previous as [p|]; [cbn in Hp; by subst|]. unfold start_lsn. cbn in Hp.
  erewrite io_bind_Ok.
  2:{ apply io_or_close_Ok. unfold segmentFirstLSN. rewrite io_fail_if_false.
      2:{ apply Z.ltb_ge. unfold segment_bytes. rewrite <- app_assoc, len_app.
          change (len (encodeSegmentHeader _ _)) with 28. unfold segmentHeaderLen.
          pose proof (len_nonneg (frames (l + 1) ls ++ torn)). lia. }
      unfold segment_bytes. rewrite <- app_assoc, sub_prefix by done.
      erewrite io_bind_Ok by (by apply readFullAt_ok).
      rewrite io_fail_if_false by apply segment_header_good. done. }
  rewrite segment_header_first by (unfold is_u64; lia). cbv beta.
  erewrite io_bind_Ok.
  2:{ apply io_or_close_Ok. unfold io_fail_if, io_lift.
      rewrite (proj2 (orb_false_iff _ _)); [done|]. rewrite Z.eqb_neq, Z.ltb_ge.
      unfold uint64, max_uint64 in *. rewrite Z.mod_small by lia. lia. }
  unfold mret, io_ret. do 2 f_equal. lia.
Qed.

Section opening.
Context (opts : Options) (flushed : Z) (Hopts : opts_ok opts) (Hcount : count_fits opts).

Lemma segment_nonempty s l ls :
  ls <> [] -> len (segment_bytes s l ls) =? segmentHeaderLen = false.
Proof.
  intros Hne. apply Z.eqb_neq. rewrite len_segment_bytes. destruct ls as [|b ls]; [done|].
  unfold segment_bytes. cbn [frames]. rewrite !len_app, len_frame_bytes.
  pose proof (ops_size_nonneg b). pose proof (len_nonneg (frames (0 + 1) ls)).
  change (len (encodeSegmentHeader 0 0)) with 28.
  unfold segmentHeaderLen, frameHeaderLen, frameTrailerLen. lia.
Qed.

Lemma segment_positive s l ls : 28 <= len (segment_bytes s l ls).
Proof.
  unfold segment_bytes. rewrite len_app. pose proof (len_nonneg (frames l ls)).
  change (len (encodeSegmentHeader s l)) with 28. lia.
Qed.

Lemma open_interior_step m previous s l ls rest st lsn :
  m !! segmentName s = Some (synced (segment_bytes s (l + 1) ls)) ->
  is_u64 s -> 0 <= l -> l + len ls < max_uint64 -> starts_at flushed previous l lsn ->
  segment_ok opts ls -> ls <> [] -> rest <> [] ->
  open_loop opts flushed previous (s :: rest) st lsn (mkDir m [])
  = open_loop opts flushed (Some s) rest (replay flushed (l + 1) ls st) (l + len ls) (mkDir m []).
Proof.
  intros Hm Hs Hl Hmax Hp [Hok Hlim] Hne Hrest. pose proof (len_nonneg ls).
  cbn [open_loop]. rewrite bool_decide_eq_false_2 by done.
  erewrite io_bind_Ok by (by apply openExistingSegment_ok). cbn [volatile synced].
  erewrite io_bind_Ok.
  2:{ rewrite <- (app_nil_r (segment_bytes _ _ _)). apply start_lsn_ok; try done. lia. }
  erewrite io_bind_Ok.
  2:{ apply io_or_close_Ok, recoverSegment_complete; try done. by rewrite len_segment_bytes. }
  cbv iota beta. pose proof (segment_positive s (l + 1) ls).
  rewrite (proj2 (Z.eqb_neq _ 0)) by lia. cbn [andb negb]. rewrite segment_nonempty by done.
  by erewrite io_bind_Ok by (by apply io_wrap_Ok, call_ok).
Qed.

(** The last segment recovered so far. *)
Definition previous_of (previous : option Z) (s n : Z) : option Z :=
  if n =? 0 then previous else Some (s + n - 1).

Lemma open_interior m segs : forall previous s l rest st lsn,
  (forall i ls, segs !! i = Some ls ->
     m !! segmentName (s + Z.of_nat i)
     = Some (synced (segment_bytes (s + Z.of_nat i) (l + len (batches (take i segs)) + 1) ls))) ->
  0 <= s -> s + len segs <= max_uint64 -> 0 <= l -> l + len (batches segs) < max_uint64 ->
  starts_at flushed previous l lsn ->
  Forall (segment_ok opts) segs -> Forall (fun ls => ls <> []) segs -> rest <> [] ->
  exists lsn',
  open_loop opts flushed previous (seqZ s (len segs) ++ rest) st lsn (mkDir m [])
  = open_loop opts flushed (previous_of previous s (len segs)) rest
      (replay flushed (l + 1) (batches segs) st) lsn' (mkDir m []) /\
  starts_at flushed (previous_of previous s (len segs)) (l + len (batches segs)) lsn'.
Proof.
  induction segs as [|ls segs IH]; intros previous s l rest st lsn Hm Hs Hmax Hl Hlmax Hp Hok Hne Hrest.
  { exists lsn. cbn [concat replay]. rewrite !len_nil, Z.add_0_r. done. }
  rewrite len_cons in *. cbn [concat] in *. rewrite len_app in *.
  apply Forall_cons in Hok as [Hok1 Hok], Hne as [Hne1 Hne].
  pose proof (len_nonneg segs). pose proof (len_nonneg (batches segs)). pose proof (len_nonneg ls).
  rewrite seqZ_cons by lia. replace (Z.pred (1 + len segs)) with (len segs) by lia.
  rewrite <- app_comm_cons. rewrite (open_interior_step m previous s l ls); try done; try lia.
  - destruct (IH (Some s) (Z.succ s) (l + len ls) rest (replay flushed (l + 1) ls st) (l + len ls))
      as (lsn' & Heq & Hst); try done; try lia.
    { intros i ls' Hi. specialize (Hm (S i) ls' Hi). cbn [firstn concat] in Hm.
      rewrite len_app in Hm.
      replace (Z.succ s + Z.of_nat i) with (s + Z.of_nat (S i)) by lia.
      by replace (l + len ls + len (batches (take i segs)))
        with (l + (len ls + len (batches (take i segs)))) by lia. }
    exists lsn'. rewrite Heq, replay_app. unfold previous_of in *.
    rewrite (proj2 (Z.eqb_neq (1 + len segs) 0)) by lia.
    replace (l + len ls + 1) with (l + 1 + len ls) by lia.
    replace (l + (len ls + len (batches segs))) with (l + len ls + len (batches segs)) by lia.
    destruct (Z.eqb_spec (len segs) 0) as [Hz|Hz].
    + replace (s + (1 + len segs) - 1) with s by lia. done.
    + replace (s + (1 + len segs) - 1) with (Z.succ s + len segs - 1) by lia. done.
  - specialize (Hm 0%nat ls eq_refl). cbn [firstn concat] in Hm. rewrite (@len_nil (list operation)) in Hm.
    by rewrite !Z.add_0_r in Hm.
  - unfold is_u64. lia.
  - by destruct (seqZ _ _).
Qed.

(** What may follow the complete frames of the last segment: a strict prefix
    of the frame of the batch after them. *)
Definition torn_tail (opts : Options) (lsn : Z) (torn : bytes) : Prop :=
  torn = [] \/ exists next, canonical opts next /\ strict_prefix torn (frame_bytes lsn next (ops_size next)).

(** The last segment, complete or with a torn frame at its end. *)
Lemma open_last m previous s l ls torn st lsn :
  m !! segmentName s = Some (synced (segment_bytes s (l + 1) ls ++ torn)) ->
  is_u64 s -> 0 <= l -> l + len ls < max_uint64 -> flushed <= l + len ls ->
  starts_at flushed previous l lsn -> Forall (canonical opts) ls ->
  torn_tail opts (l + len ls + 1) torn ->
  len (segment_bytes s (l + 1) ls ++ torn) <= segment_limit opts ->
  open_loop opts flushed previous [s] st lsn (mkDir m [])
  = (Ok (Some (mkWal (Some (segmentName s)) s (len (segment_bytes s (l + 1) ls)) false),
         replay flushed (l + 1) ls st, l + len ls),
     mkDir (<[segmentName s := synced (segment_bytes s (l + 1) ls)]> m) []).
Proof.
  intros Hm Hs Hl Hmax Hf Hp Hok Ht Hlim. pose proof (len_nonneg ls).
  cbn [open_loop]. rewrite bool_decide_eq_true_2 by done.
  erewrite io_bind_Ok by (by apply openExistingSegment_ok). cbn [volatile synced].
  erewrite io_bind_Ok by (by apply start_lsn_ok; [lia|]).
  rewrite (io_bind_Ok _ _ _ (mkRecovered (replay flushed (l + 1) ls st) (l + len ls)
             (len (segment_bytes s (l + 1) ls)))
             (mkDir (<[segmentName s := synced (segment_bytes s (l + 1) ls)]> m) [])).
  2:{ apply io_or_close_Ok. destruct (decide (torn = [])) as [->|Hne].
      - rewrite app_nil_r in *. rewrite insert_id by done.
        apply recoverSegment_complete; try done.
      - destruct Ht as [?|(next & Hn & Ht)]; [done|].
        rewrite (recoverSegment_torn opts Hopts Hcount _ (mkDir m []) eq_refl flushed s l ls next torn st
                 (synced (segment_bytes s (l + 1) ls ++ torn))) by done. done. }
  cbv iota beta. pose proof (segment_positive s (l + 1) ls).
  rewrite (proj2 (Z.eqb_neq _ 0)) by lia. cbn [andb negb].
  erewrite io_bind_Ok; [done|]. apply io_or_close_Ok. unfold io_fail_if, io_lift.
  rewrite (proj2 (Z.ltb_ge _ _)); [done|lia].
Qed.

(** A last segment without a complete header is removed and the one before
    it reopened. *)
Lemma open_headless m p s h l st w :
  m !! segmentName s = Some (synced h) -> len h < segmentHeaderLen ->
  segmentName p <> segmentName s -> all_synced m -> m !! segmentName p = Some w ->
  open_loop opts flushed (Some p) [s] st l (mkDir m [])
  = (Ok (Some (mkWal (Some (segmentName p)) p (len (volatile w)) false), st, l),
     mkDir (delete (segmentName s) m) []).
Proof.
  intros Hm Hh Hne Hall Hw. cbn [open_loop]. rewrite bool_decide_eq_true_2 by done.
  erewrite io_bind_Ok by (by apply openExistingSegment_ok).
  erewrite io_bind_Ok by done.
  erewrite io_bind_Ok by (by apply io_or_close_Ok, recoverSegment_headless).
  cbv iota beta. cbn [Z.eqb andb files linked regular synced].
  erewrite io_bind_Ok by done. erewrite io_bind_Ok by (by apply io_wrap_Ok, Remove_ok).
  rewrite delete_insert_eq. erewrite io_bind_Ok by apply syncDirectory_ok.
  rewrite link_all_synced.
  2:{ intros n x. rewrite lookup_delete_Some. intros [_ Hx]. by eapply Hall. }
  erewrite io_bind_Ok; [done|]. apply openExistingSegment_ok. by rewrite lookup_delete_ne.
Qed.
End opening.

Lemma log_files_lookup_i s l segs i ls :
  0 <= s -> s + len segs <= max_uint64 -> segs !! i = Some ls ->
  log_files s l segs !! segmentName (s + Z.of_nat i)
  = Some (synced (segment_bytes (s + Z.of_nat i) (l + len (batches (take i segs)) + 1) ls)).
Proof.
  revert s l i. induction segs as [|ls' segs IH]; intros s l i Hs Hm Hi; [done|].
  rewrite len_cons in Hm. cbn [log_files]. destruct i as [|i].
  - injection Hi as ->. cbn [firstn concat]. rewrite (@len_nil (list operation)), !Z.add_0_r.
    apply lookup_insert_eq.
  - cbn in Hi. apply lookup_lt_Some in Hi as Hlt.
    rewrite lookup_insert_ne.
    2:{ intros Heq. apply segmentName_inj in Heq; unfold is_u64, len in *; lia. }
    replace (s + Z.of_nat (S i)) with (s + 1 + Z.of_nat i) by lia. rewrite IH by (done || lia).
    cbn [firstn concat]. rewrite len_app.
    by replace (l + (len ls' + len (batches (take i segs)))) with (l + len ls' + len (batches (take i segs))) by lia.
Qed.

(** ** What a restart may find of a log *)

Section after_crash.
Context (opts : Options) (s l : Z).

Inductive after_crash (segs : list (list (list operation))) : gmap bytes wfile -> Prop :=
| ac_clean : after_crash segs (log_files s l segs)
| ac_torn init ls torn :
    segs = init ++ [ls] -> torn_tail opts (l + len (batches segs) + 1) torn ->
    len (segment_bytes 0 0 ls ++ torn) <= segment_limit opts ->
    after_crash segs
      (<[segmentName (s + len init) :=
           synced (segment_bytes (s + len init) (l + len (batches init) + 1) ls ++ torn)]>
        (log_files s l segs))
| ac_headless h :
    len h < segmentHeaderLen -> Forall (fun ls => ls <> []) segs ->
    after_crash segs (<[segmentName (s + len segs) := synced h]> (log_files s l segs)).
End after_crash.

(** The log opened on its last segment. *)
Definition opened (s : Z) (segs : list (list (list operation))) (w : wal) : Prop :=
  exists init ls, segs = init ++ [ls] /\
  w = mkWal (Some (segmentName (s + len init))) (s + len init) (len (segment_bytes 0 0 ls)) false.

Lemma openWAL_loop opts flushed st m segs w st' lsn d' :
  listSegments (mkDir m []) = (Ok segs, mkDir m []) ->
  open_loop opts flushed None segs st 0 (mkDir m []) = (Ok (Some w, st', lsn), d') ->
  openWAL opts (Some st) flushed (mkDir m []) = (Ok (w, st', lsn), d').
Proof.
  intros Hl Ho. unfold openWAL. erewrite io_bind_Ok by done.
  erewrite io_bind_Ok by done. cbv zeta iota. by erewrite io_bind_Ok by done.
Qed.

Lemma batches_snoc init ls : batches (init ++ [ls]) = batches init ++ ls.
Proof. rewrite concat_app. cbn. by rewrite app_nil_r. Qed.

Lemma batches_grow init ls b : batches (init ++ [ls ++ [b]]) = batches (init ++ [ls]) ++ [b].
Proof. by rewrite !batches_snoc, app_assoc. Qed.

Section open_after_crash.
Context (opts : Options) (flushed s l : Z) (segs : list (list (list operation))).
Context (Hlog : log_ok opts s l segs) (Hflushed : l <= flushed <= l + len (batches segs)).

Lemma open_torn m init ls torn st :
  segs = init ++ [ls] -> torn_tail opts (l + len (batches segs) + 1) torn ->
  len (segment_bytes 0 0 ls ++ torn) <= segment_limit opts ->
  m = <[segmentName (s + len init) :=
          synced (segment_bytes (s + len init) (l + len (batches init) + 1) ls ++ torn)]>
        (log_files s l segs) ->
  exists listed, listSegments (mkDir m []) = (Ok listed, mkDir m []) /\
  open_loop opts flushed None listed st 0 (mkDir m [])
  = (Ok (Some (mkWal (Some (segmentName (s + len init))) (s + len init) (len (segment_bytes 0 0 ls)) false),
         replay flushed (l + 1) (batches segs) st, l + len (batches segs)),
     mkDir (log_files s l segs) []).
Proof.
  intros Hsegs Ht Hlim Hm. destruct Hlog as [Ho Hc [Hs1 Hs2] [Hl1 Hl2] Hok Hint].
  specialize (Hint _ _ Hsegs). rewrite Hsegs, Forall_app, Forall_cons in Hok.
  destruct Hok as (Hok & Hls & _).
  assert (len segs = len init + 1) as Hlen by (rewrite Hsegs, len_app, len_cons, len_nil; lia).
  assert (batches segs = batches init ++ ls) as Hb by (rewrite Hsegs; apply batches_snoc).
  rewrite Hb, len_app in *. pose proof (len_nonneg init). pose proof (len_nonneg ls).
  pose proof (len_nonneg (batches init)).
  assert (dom m = (list_to_set (segmentName <$> seqZ s (Z.of_nat (length segs))) : gset bytes)) as Hdom.
  { subst m. rewrite dom_insert_lookup_L; [apply dom_log_files|].
    rewrite Hsegs, log_files_snoc, lookup_insert_eq by lia. by eexists. }
  eexists. split.
  - apply (listSegments_ok m s (length segs)); [lia| |done|].
    + unfold len in *. lia.
    + subst m. intros name w. rewrite lookup_insert_Some.
      intros [[_ <-]|[_ Hw]]; [done|]. apply log_files_synced in Hw. by rewrite Hw.
  - fold (len segs). rewrite Hlen, seqZ_app by lia. change (seqZ (s + len init) 1) with [s + len init].
    destruct (open_interior opts flushed Ho Hc m init None s l [s + len init] st 0)
      as (lsn' & -> & Hst); try done; try lia.
    { intros i ls' Hi. apply lookup_lt_Some in Hi as Hlt. subst m. rewrite lookup_insert_ne.
      2:{ intros Heq. apply segmentName_inj in Heq; unfold is_u64, len in *; lia. }
      rewrite Hsegs, (log_files_lookup_i s l (init ++ [ls]) i ls') by (rewrite <- ?Hsegs; try lia; rewrite Hsegs; by apply lookup_app_l_Some).
      by rewrite take_app_le by lia. }
    { cbn. unfold max_uint64 in *. lia. }
    rewrite (open_last opts flushed Ho Hc m _ (s + len init) (l + len (batches init)) ls torn).
    + subst m. rewrite insert_insert_eq, insert_id.
      2:{ rewrite Hsegs, log_files_snoc, lookup_insert_eq by lia. done. }
      rewrite replay_app, len_segment_bytes.
      replace (l + 1 + len (batches init)) with (l + len (batches init) + 1) by lia.
      by replace (l + len (batches init) + len ls) with (l + (len (batches init) + len ls)) by lia.
    + by subst m; rewrite lookup_insert_eq.
    + unfold is_u64. lia.
    + lia.
    + lia.
    + lia.
    + done.
    + apply Hls.
    + by replace (l + len (batches init) + len ls) with (l + (len (batches init) + len ls)) by lia.
    + rewrite len_app, len_segment_bytes, <- len_app. done.
Qed.

Lemma open_without_header m init ls h st :
  segs = init ++ [ls] -> len h < segmentHeaderLen -> Forall (fun ls => ls <> []) segs ->
  m = <[segmentName (s + len segs) := synced h]> (log_files s l segs) ->
  exists listed, listSegments (mkDir m []) = (Ok listed, mkDir m []) /\
  open_loop opts flushed None listed st 0 (mkDir m [])
  = (Ok (Some (mkWal (Some (segmentName (s + len init))) (s + len init) (len (segment_bytes 0 0 ls)) false),
         replay flushed (l + 1) (batches segs) st, l + len (batches segs)),
     mkDir (log_files s l segs) []).
Proof.
  intros Hsegs Hh Hne Hm. destruct Hlog as [Ho Hc [Hs1 Hs2] [Hl1 Hl2] Hok _].
  assert (len segs = len init + 1) as Hlen by (rewrite Hsegs, len_app, len_cons, len_nil; lia).
  pose proof (len_nonneg init). pose proof (len_nonneg (batches segs)).
  assert (log_files s l segs !! segmentName (s + len segs) = None) as Hnone.
  { apply log_files_none; unfold is_u64; lia. }
  eexists. split.
  - apply (listSegments_ok m s (length segs + 1)); [lia|unfold len in *; lia| |].
    + subst m. rewrite dom_insert_L, dom_log_files.
      replace (Z.of_nat (length segs + 1)) with (len segs + 1) by (unfold len; lia).
      rewrite seqZ_app by lia. change (seqZ (s + len segs) 1) with [s + len segs].
      rewrite fmap_app, list_to_set_app_L. cbn [fmap list_fmap list_to_set]. set_solver.
    + subst m. intros name w. rewrite lookup_insert_Some.
      intros [[_ <-]|[_ Hw]]; [done|]. apply log_files_synced in Hw. by rewrite Hw.
  - replace (Z.of_nat (length segs + 1)) with (len segs + 1) by (unfold len; lia).
    rewrite seqZ_app by lia. change (seqZ (s + len segs) 1) with [s + len segs].
    destruct (open_interior opts flushed Ho Hc m segs None s l [s + len segs] st 0)
      as (lsn' & -> & Hst); try done; try lia.
    { intros i ls' Hi. apply lookup_lt_Some in Hi as Hlt. subst m. rewrite lookup_insert_ne.
      2:{ intros Heq. apply segmentName_inj in Heq; unfold is_u64, len in *; lia. }
      apply log_files_lookup_i; [lia|lia|done]. }
    { cbn. lia. }
    unfold previous_of in *. rewrite (proj2 (Z.eqb_neq _ _)) in * by lia. cbn in Hst. subst lsn'.
    replace (s + len segs - 1) with (s + len init) by lia.
    rewrite (open_headless opts flushed m (s + len init) (s + len segs) h _ _
               (synced (segment_bytes (s + len init) (l + len (batches init) + 1) ls))); try done.
    + subst m. rewrite delete_insert_id by done. cbn [volatile synced]. by rewrite len_segment_bytes.
    + by subst m; rewrite lookup_insert_eq.
    + intros Heq. apply segmentName_inj in Heq; unfold is_u64; lia.
    + subst m. intros name w. rewrite lookup_insert_Some.
      intros [[_ <-]|[_ Hw]]; [done|]. by eapply log_files_synced.
    + subst m. rewrite lookup_insert_ne.
      2:{ intros Heq. apply segmentName_inj in Heq; unfold is_u64; lia. }
      by rewrite Hsegs, log_files_snoc, lookup_insert_eq by lia.
Qed.

(** Whatever a crash left, opening gives back the log and the state of its
    batches. *)
Lemma open_loop_after_crash m st :
  segs <> [] -> after_crash opts s l segs m ->
  exists w listed, opened s segs w /\ listSegments (mkDir m []) = (Ok listed, mkDir m []) /\
  open_loop opts flushed None listed st 0 (mkDir m [])
  = (Ok (Some w, replay flushed (l + 1) (batches segs) st, l + len (batches segs)), mkDir (log_files s l segs) []).
Proof.
  intros Hne Hac. destruct (exists_last Hne) as (init & ls & Hsegs).
  assert (forall w, w = mkWal (Some (segmentName (s + len init))) (s + len init) (len (segment_bytes 0 0 ls)) false -> opened s segs w) as Ho
    by (intros w ->; by exists init, ls).
  eexists _. cut (exists listed, listSegments (mkDir m []) = (Ok listed, mkDir m []) /\
    open_loop opts flushed None listed st 0 (mkDir m [])
    = (Ok (Some (mkWal (Some (segmentName (s + len init))) (s + len init) (len (segment_bytes 0 0 ls)) false),
           replay flushed (l + 1) (batches segs) st, l + len (batches segs)), mkDir (log_files s l segs) [])).
  { intros (listed & H1 & H2). exists listed. split; [by apply Ho|done]. }
  destruct Hac as [|init' ls' torn Hsegs' Ht Hlim|h Hh Hall].
  - apply (open_torn (log_files s l segs) init ls []); [done|by left| |].
    + rewrite app_nil_r. pose proof (lo_segments _ _ _ _ Hlog) as Hok.
      rewrite Hsegs, Forall_app, Forall_cons in Hok. apply Hok.
    + rewrite app_nil_r, insert_id; [done|]. pose proof (lo_seg _ _ _ _ Hlog) as [? Hs2].
      rewrite Hsegs, len_app, len_cons, len_nil in Hs2. pose proof (len_nonneg init).
      by rewrite Hsegs, log_files_snoc, lookup_insert_eq by lia.
  - rewrite Hsegs in Hsegs'. apply app_inj_tail in Hsegs' as [<- <-]. by eapply open_torn.
  - by eapply open_without_header.
Qed.

Lemma openWAL_after_crash m st :
  segs <> [] -> after_crash opts s l segs m ->
  exists w, opened s segs w /\
  openWAL opts (Some st) flushed (mkDir m [])
  = (Ok (w, replay flushed (l + 1) (batches segs) st, l + len (batches segs)),
     mkDir (log_files s l segs) []).
Proof.
  intros Hne Hac. destruct (open_loop_after_crash m st Hne Hac) as (w & listed & Ho & Hl & Hrun). exists w. split; [done|]. by eapply openWAL_loop.
Qed.
End open_after_crash.

(** ** Appending against any file system behaviour *)

(** Every directory a crash may leave of [f] opens to batches satisfying [P]. *)
Definition crash_safe (opts : Options) (s l : Z) (P : list (list operation) -> Prop) (f : gmap bytes wfile) : Prop :=
  forall m', crash f m' ->
  exists segs, log_ok opts s l segs /\ segs <> [] /\ P (batches segs) /\ after_crash opts s l segs m'.

Lemma crash_safe_mono opts s l (P P' : list (list operation) -> Prop) f :
  (forall x, P x -> P' x) -> crash_safe opts s l P f -> crash_safe opts s l P' f.
Proof. intros HP H m' Hc. destruct (H m' Hc) as (segs & H1 & H2 & H3 & H4). exists segs. auto. Qed.

(** The batches [done], or these and the one in flight. *)
Definition or_next (done : list (list operation)) (b : list operation) (x : list (list operation)) : Prop :=
  x = done \/ x = done ++ [b].

Lemma log_crash_safe opts s l segs (P : list (list operation) -> Prop) :
  log_ok opts s l segs -> segs <> [] -> P (batches segs) -> crash_safe opts s l P (log_files s l segs).
Proof. intros Hl Hne HP m' ->%crash_all_synced; [|apply log_files_synced]. exists segs. split_and!; try done. constructor. Qed.

Lemma prefix_between (a c p : bytes) :
  survives (mkW (a ++ p) a true true) c -> exists q, q `prefix_of` p /\ c = a ++ q.
Proof.
  intros [[[q ->] H2]|[H1 H2]]; cbn [volatile durable] in *.
  - exists q. split; [|done]. by apply prefix_app_inv in H2.
  - assert (p = []) as ->.
    { apply prefix_length in H1, H2. rewrite length_app in H1. destruct p; [done|cbn in *; lia]. }
    rewrite app_nil_r in *. exists []. split; [done|]. rewrite app_nil_r. by apply (anti_symm prefix).
Qed.

Lemma prefix_strict (q frame : bytes) : q `prefix_of` frame -> q = frame \/ strict_prefix q frame.
Proof.
  intros [r ->]. destruct r as [|x r]; [left; by rewrite app_nil_r|right].
  exists (length q). rewrite length_app. cbn. split; [lia|]. by rewrite take_app_length.
Qed.

Section append.
Context (opts : Options) (s l : Z).
#[local] Opaque crc32.Checksum frame_bytes.

Lemma log_ok_snoc init ls b :
  log_ok opts s l (init ++ [ls]) -> canonical opts b ->
  l + len (batches (init ++ [ls])) + 1 < max_uint64 ->
  len (segment_bytes 0 0 (ls ++ [b])) <= segment_limit opts ->
  log_ok opts s l (init ++ [ls ++ [b]]).
Proof.
  intros [Ho Hc Hs [Hl1 Hl2] Hok Hint] Hb Hmax Hlim. split; try done.
  - rewrite !len_app, !len_cons, !len_nil in Hs |- *. done.
  - rewrite batches_grow, len_app. change (len [b]) with 1. lia.
  - rewrite Forall_app, Forall_cons in *. destruct Hok as (Hi & [Hls _] & _).
    split; [done|]. split; [|done]. split; [|done]. rewrite Forall_app. auto.
  - intros init' last [-> _]%app_inj_tail. by eapply Hint.
Qed.

Lemma log_ok_new segs :
  log_ok opts s l segs -> Forall (fun ls => ls <> []) segs -> s + len segs + 1 < max_uint64 ->
  log_ok opts s l (segs ++ [[]]).
Proof.
  intros [Ho Hc Hs Hl Hok Hint] Hne Hmax. split; try done.
  - rewrite len_app, len_cons, len_nil. lia.
  - by rewrite batches_snoc, app_nil_r.
  - rewrite Forall_app. split; [done|]. constructor; [|done]. split; [done|].
    change (len (segment_bytes 0 0 [])) with 28. unfold segment_limit, opts_ok, minSegmentBytes, segmentHeaderLen, frameHeaderLen, frameTrailerLen in *. lia.
  - by intros init' last [-> _]%app_inj_tail.
Qed.

Lemma log_files_last init ls :
  log_ok opts s l (init ++ [ls]) ->
  log_files s l (init ++ [ls])
  = <[segmentName (s + len init) := synced (segment_bytes (s + len init) (l + len (batches init) + 1) ls)]>
      (log_files s l init).
Proof.
  intros [_ _ [Hs1 Hs2] _ _ _]. rewrite len_app, len_cons, len_nil in Hs2. apply log_files_snoc; lia.
Qed.

(** Writing and syncing one frame at the end of the open segment. *)
Lemma wp_write_frame {A} init ls b frame done (k : io A) Q X :
  let segs := init ++ [ls] in
  let name := segmentName (s + len init) in
  log_ok opts s l segs -> canonical opts b -> l + len (batches segs) + 1 < max_uint64 ->
  frame = frame_bytes (l + len (batches segs) + 1) b (ops_size b) ->
  len (segment_bytes 0 0 (ls ++ [b])) <= segment_limit opts ->
  batches segs = done ->
  (forall f, crash_safe opts s l (or_next done b) f -> X f) ->
  wp k Q X (log_files s l (init ++ [ls ++ [b]])) ->
  wp (writeFullAt name frame (len (segment_bytes 0 0 ls));; Sync name;; k) Q X (log_files s l segs).
Proof.
  intros segs name Hlog Hb Hmax Hframe Hlim Hdone HX HQ. unfold segs in *.
  pose proof (log_ok_snoc init ls b Hlog Hb Hmax Hlim) as Hlog'.
  rewrite batches_snoc, len_app in Hframe, Hmax.
  set (sb := segment_bytes (s + len init) (l + len (batches init) + 1) ls).
  assert (segment_bytes (s + len init) (l + len (batches init) + 1) (ls ++ [b]) = sb ++ frame) as Hsb.
  { rewrite segment_bytes_snoc, Hframe.
    by replace (l + len (batches init) + 1 + len ls) with (l + (len (batches init) + len ls) + 1) by lia. }
  assert (forall p, p `prefix_of` frame ->
    crash_safe opts s l (or_next done b) (<[name := mkW (sb ++ p) sb true true]> (log_files s l init))) as Hsafe.
  { intros p Hp m' [(c & (q & Hq & ->)%prefix_between & ->)|[? _]]%crash_insert; [|done|apply log_files_synced|done].
    destruct (prefix_strict q frame) as [->|Hstrict]; [by etrans|..].
    - exists (init ++ [ls ++ [b]]). split; [done|]. split; [by destruct init|]. split.
      { right. by rewrite batches_grow, Hdone. }
      rewrite <- Hsb. unfold name. rewrite <- log_files_last by done. constructor.
    - exists (init ++ [ls]). split; [done|]. split; [by destruct init|]. split; [by left|].
      rewrite <- (insert_insert_eq (log_files s l init) name (synced (sb ++ q)) (synced sb)).
      unfold name, sb. rewrite <- log_files_last by done.
      apply ac_torn; [done| |].
      + right. exists b. split; [done|]. rewrite batches_snoc, len_app. by rewrite <- Hframe.
      + rewrite len_app, <- (len_segment_bytes (s + len init) (l + len (batches init) + 1) ls).
        fold sb. rewrite <- (len_segment_bytes (s + len init) (l + len (batches init) + 1)), Hsb, len_app in Hlim.
        destruct Hstrict as (n & Hk & ->). unfold len in Hlim |- *. rewrite length_take. lia. }
  rewrite log_files_last by done. fold name sb. apply wp_bind.
  rewrite <- (len_segment_bytes (s + len init) (l + len (batches init) + 1) ls). fold sb.
  apply (wp_writeFullAt name sb sb true true frame).
  - intros p Hp. by apply HX, Hsafe.
  - apply wp_bind. eapply wp_sync; [apply lookup_insert_eq|by apply HX, Hsafe|].
    cbn [volatile linked regular]. rewrite insert_insert_eq, <- Hsb.
    rewrite log_files_last in HQ by done. done.
Qed.

(** Creating the next segment. *)
Lemma wp_createSegment (segs : list (list (list operation))) (done : list (list operation))
    (Q : Z -> gmap bytes wfile -> Prop) (X : gmap bytes wfile -> Prop) :
  log_ok opts s l segs -> segs <> [] -> Forall (fun ls => ls <> []) segs -> s + len segs + 1 < max_uint64 ->
  batches segs = done ->
  (forall f, crash_safe opts s l (fun x => x = done) f -> X f) ->
  Q segmentHeaderLen (log_files s l (segs ++ [[]])) ->
  wp (createSegment (s + len segs) (l + len (batches segs) + 1)) Q X (log_files s l segs).
Proof.
  intros Hlog Hne Hall Hmax Hdone HX HQ. pose proof Hlog as [Ho Hc [Hs1 Hs2] Hl Hok Hint].
  pose proof (log_ok_new segs Hlog Hall Hmax) as Hlog'. pose proof (len_nonneg segs).
  set (name := segmentName (s + len segs)).
  set (h := encodeSegmentHeader (s + len segs) (l + len (batches segs) + 1)).
  assert (log_files s l segs !! name = None) as Hnone.
  { apply log_files_none; unfold is_u64; lia. }
  assert (log_files s l (segs ++ [[]]) = <[name := synced h]> (log_files s l segs)) as Hnew.
  { rewrite log_files_last by done. unfold segment_bytes. cbn [frames]. by rewrite app_nil_r. }
  assert (forall p dur lk, p `prefix_of` h -> dur `prefix_of` p ->
    crash_safe opts s l (fun x => x = done) (<[name := mkW p dur lk true]> (log_files s l segs))) as Hsafe.
  { intros p dur lk Hp Hdur m' [(c & Hsv & ->)|[_ ->]]%crash_insert; [| |apply log_files_synced|done].
    - assert (c `prefix_of` h) as Hch.
      { destruct Hsv as [[_ Hsv]|[_ Hsv]]; cbn in Hsv; [by etrans|]. etrans; [done|by etrans]. }
      destruct (prefix_strict c h Hch) as [->|(k & Hk & ->)].
      + exists (segs ++ [[]]). split; [done|]. split; [by destruct segs|].
        split; [by rewrite batches_snoc, app_nil_r|]. rewrite <- Hnew. constructor.
      + exists segs. split; [done|]. split; [done|]. split; [done|]. apply ac_headless; [|done].
        unfold len, segmentHeaderLen. rewrite length_take. change (length h) with 28%nat in *. lia.
    - exists segs. split; [done|]. split; [done|]. split; [done|].
      rewrite delete_id by done. constructor. }
  unfold createSegment. fold name h.
  apply wp_bind, wp_wrap, wp_create; [done| |].
  { apply HX. intros m' ->%crash_all_synced; [|apply log_files_synced].
    exists segs. split; [done|]. split; [done|]. split; [done|constructor]. }
  apply wp_bind, wp_or_close, wp_wrap. change 0 with (len (@nil byte)).
  apply (wp_writeFullAt name [] [] false true h).
  { intros p Hp. apply HX. apply Hsafe; [done|apply prefix_nil]. }
  apply wp_bind, wp_or_close, wp_wrap. eapply wp_sync; [apply lookup_insert_eq| |].
  { apply HX, Hsafe; [done|apply prefix_nil]. }
  cbn [volatile linked regular app]. rewrite insert_insert_eq.
  assert (link_all (<[name := mkW h h false true]> (log_files s l segs)) = log_files s l (segs ++ [[]])) as Hlink.
  { rewrite link_all_insert, link_all_synced by apply log_files_synced. by rewrite Hnew. }
  apply wp_bind, wp_or_close, wp_syncDirectory.
  - apply HX, Hsafe; done.
  - rewrite Hlink, Hnew. apply HX, Hsafe; done.
  - rewrite Hlink. by apply wp_ret.
Qed.

Lemma wp_appendFrame segs w b frame :
  log_ok opts s l segs -> opened s segs w -> canonical opts b ->
  l + len (batches segs) + 1 < max_uint64 -> s + len segs + 1 < max_uint64 ->
  frame = frame_bytes (l + len (batches segs) + 1) b (ops_size b) ->
  wp (appendFrame opts w frame (l + len (batches segs) + 1))
    (fun w' f' => exists segs', log_ok opts s l segs' /\ opened s segs' w' /\
                  batches segs' = batches segs ++ [b] /\ len segs' <= len segs + 1 /\
                  f' = log_files s l segs')
    (crash_safe opts s l (or_next (batches segs) b))
    (log_files s l segs).
Proof.
  intros Hlog (init & ls & Hsegs & ->) Hb Hmax Hsmax Hframe. subst segs.
  pose proof Hlog as [Ho Hc [Hs1 Hs2] Hl Hok Hint]. specialize (Hint _ _ eq_refl).
  pose proof (len_nonneg init).
  assert (len (segment_bytes 0 0 (ls ++ [b])) = len (segment_bytes 0 0 ls) + len frame) as Hlen.
  { rewrite segment_bytes_snoc, len_app, Hframe, !len_frame_bytes. done. }
  assert (len frame <= frameHeaderLen + MaxBatchBytes opts + frameTrailerLen) as Hfl.
  { rewrite Hframe, len_frame_bytes. destruct Hb as [(_ & _ & _ & Hsz & _) _]. lia. }
  unfold appendFrame. cbn [wal_closed wal_file wal_size wal_seg].
  destruct (_ && _) eqn:Hrot.
  - apply andb_true_iff in Hrot as [Hr1%Z.ltb_lt _].
    assert (ls <> []) as Hls.
    { intros ->. change (len (segment_bytes 0 0 [])) with 28 in Hr1. unfold segmentHeaderLen in Hr1. lia. }
    assert (Forall (fun ls => ls <> []) (init ++ [ls])) as Hall by (rewrite Forall_app; auto).
    assert (len (init ++ [ls]) = len init + 1) as Hli by (rewrite len_app, len_cons, len_nil; lia).
    assert (uint64 (s + len init + 1) = s + len (init ++ [ls])) as ->.
    { unfold uint64, max_uint64 in *. rewrite Z.mod_small; lia. }
    apply wp_bind, wp_bind, wp_call.
    { apply log_crash_safe; [done|by destruct init|by left]. }
    apply wp_bind. apply (wp_createSegment (init ++ [ls]) (batches (init ++ [ls]))); try done; [by destruct init|by intros f; apply crash_safe_mono; left|].
    apply wp_ret. cbn [wal_file wal_size wal_seg wal_closed].
    pose proof (log_ok_new _ Hlog Hall Hsmax) as Hlog'.
    assert (batches ((init ++ [ls]) ++ [[]]) = batches (init ++ [ls])) as Hbt
      by (by rewrite batches_snoc, app_nil_r).
    assert (len (segment_bytes 0 0 [b]) <= segment_limit opts) as Hlim.
    { change [b] with ([] ++ [b]). rewrite segment_bytes_snoc, len_app.
      change (len (segment_bytes 0 0 [])) with 28.
      assert (len (frame_bytes (0 + len (@nil (list operation))) b (ops_size b)) = len frame) as ->
        by (by rewrite Hframe, !len_frame_bytes).
      unfold segment_limit, segmentHeaderLen in *. lia. }
    assert (segmentHeaderLen = len (segment_bytes 0 0 [])) as Hshl by reflexivity. rewrite Hshl.
    apply (wp_write_frame (init ++ [ls]) [] b _ (batches (init ++ [ls])));
      [done|done|by rewrite Hbt|by rewrite Hbt|done|done|done|].
    apply wp_ret. exists ((init ++ [ls]) ++ [[b]]).
    split; [apply (log_ok_snoc _ [] b); try done; by rewrite Hbt|].
    split; [eexists _, _; split; [done|]; f_equal|].
    + change [b] with ([] ++ [b]). rewrite segment_bytes_snoc, len_app, Hframe, !len_frame_bytes. done.
    + rewrite !batches_snoc, len_app. done.
  - assert (len (segment_bytes 0 0 (ls ++ [b])) <= segment_limit opts) as Hlim.
    { rewrite Hlen. unfold segment_limit. apply andb_false_iff in Hrot as [Hr%Z.ltb_ge|Hr%Z.ltb_ge]; lia. }
    apply wp_bind, wp_ret. cbn [wal_file wal_size wal_seg wal_closed].
    apply (wp_write_frame init ls b _ (batches (init ++ [ls]))); try done. apply wp_ret. exists (init ++ [ls ++ [b]]).
    split; [by apply log_ok_snoc|]. split; [eexists _, _; split; [done|]; by rewrite Hlen|].
    split; [apply batches_grow|]. split; [|done]. rewrite !len_app, !len_cons. lia.
Qed.
End append.

(** ** Sessions *)

(** What [Engine.Apply] does with the log for a sequence of batches: a batch
    that does not encode is refused and nothing changes; a failed append
    poisons the engine, and nothing is appended after it. The first component
    lists the operations of the acknowledged batches. *)
Fixpoint log_all (opts : Options) (w : wal) (lsn : Z) (bs : list Batch) (d : directory)
    : list (list operation) * directory :=
  match bs with
  | [] => ([], d)
  | b :: bs' =>
      match encodeFrame (uint64 (lsn + 1)) (Some b) opts with
      | Fail _ => log_all opts w lsn bs' d
      | Ok (frame, l) =>
          match appendFrame opts w frame (uint64 (lsn + 1)) d with
          | (Ok w', d') => let '(acked, d'') := log_all opts w' (lsn + 1) bs' d' in (l :: acked, d'')
          | (Fail _, d') => ([], d')
          end
      end
  end.

(** The batches a crash may add to the acknowledged ones. *)
Definition in_flight (bs : list Batch) (more : list (list operation)) : Prop :=
  more = [] \/ exists b, b ∈ bs /\ more = [sort_by op_key (ops b)].

Lemma log_all_crash_safe opts s l bs : forall segs w d,
  log_ok opts s l segs -> opened s segs w -> files d = log_files s l segs ->
  l + len (batches segs) + len bs < max_uint64 -> s + len segs + len bs < max_uint64 ->
  forall m', crash (files (snd (log_all opts w (l + len (batches segs)) bs d))) m' ->
  exists segs' more, log_ok opts s l segs' /\ segs' <> [] /\ in_flight bs more /\
    batches segs' = batches segs ++ fst (log_all opts w (l + len (batches segs)) bs d) ++ more /\
    after_crash opts s l segs' m'.
Proof.
  induction bs as [|b bs IH]; intros segs w d Hlog Hw Hd Hmax Hsmax m'; cbn [log_all fst snd].
  - rewrite Hd. intros ->%crash_all_synced; [|apply log_files_synced].
    exists segs, []. split; [done|]. destruct Hw as (init & ls & -> & _).
    split; [by destruct init|]. split; [by left|]. split; [by rewrite !app_nil_r|constructor].
  - rewrite len_cons in *. pose proof (len_nonneg bs). pose proof (len_nonneg (batches segs)).
    pose proof (len_nonneg segs). pose proof (lo_lsn _ _ _ _ Hlog) as [Hl _].
    assert (uint64 (l + len (batches segs) + 1) = l + len (batches segs) + 1) as ->.
    { unfold uint64, max_uint64 in *. rewrite Z.mod_small; lia. }
    destruct (encodeFrame (l + len (batches segs) + 1) (Some b) opts) as [[frame ops']|e] eqn:He.
    2:{ intros Hc. destruct (IH segs w d) with (m' := m') as (segs' & more & K1 & K2 & K3 & K4 & K5);
          try done; try lia.
        exists segs', more. split; [done|]. split; [done|]. split; [|done].
        destruct K3 as [->|(b' & Hb' & ->)]; [by left|right]. exists b'. split; [by right|done]. }
    apply encodeFrame_Ok in He as (Hcan & Hops & Hframe).
    pose proof (wp_appendFrame opts s l segs w ops' frame Hlog Hw Hcan
                  ltac:(lia) ltac:(lia) Hframe (script d)) as Hwp.
    rewrite <- Hd in Hwp. replace (mkDir (files d) (script d)) with d in Hwp by (by destruct d).
    destruct (appendFrame opts w frame (l + len (batches segs) + 1) d) as [[w'|e] d'].
    + destruct Hwp as (segs1 & Hlog1 & Hw1 & Hb1 & Hlen1 & Hf1).
      assert (l + len (batches segs) + 1 = l + len (batches segs1)) as Heq.
      { rewrite Hb1, len_app. change (len [ops']) with 1. lia. }
      rewrite Heq. destruct (log_all opts w' (l + len (batches segs1)) bs d') as [acked d''] eqn:Hrun.
      cbn [fst snd]. intros Hc.
      destruct (IH segs1 w' d') with (m' := m') as (segs' & more & K1 & K2 & K3 & K4 & K5);
        try done; try lia; [by rewrite Hrun|].
      exists segs', more. split; [done|]. split; [done|]. split.
      { destruct K3 as [->|(b' & Hb' & ->)]; [by left|right]. exists b'. split; [by right|done]. }
      split; [|done]. rewrite K4, Hrun, Hb1. by rewrite <- app_assoc.
    + cbn [fst snd]. intros Hc. destruct (Hwp m' Hc) as (segs' & K1 & K2 & K3 & K4).
      exists segs'. destruct K3 as [K3|K3].
      * exists []. split; [done|]. split; [done|]. split; [by left|]. by rewrite K3, !app_nil_r.
      * exists [ops']. split; [done|]. split; [done|]. split; [|done].
        right. exists b. split; [left|by rewrite Hops].
Qed.

(** ** Reclaiming segments *)

Lemma remove_segments_log init ls : forall s l,
  0 <= s -> s + len init + 1 <= max_uint64 ->
  remove_segments (s + len init) (seqZ s (len init + 1)) (mkDir (log_files s l (init ++ [ls])) [])
  = (Ok tt, mkDir (log_files (s + len init) (l + len (batches init)) [ls]) []).
Proof.
  induction init as [|x init IH]; intros s l Hs Hm.
  - rewrite !len_nil, !Z.add_0_r. cbn [app]. change (seqZ s (0 + 1)) with [s].
    cbn [remove_segments]. by rewrite (proj2 (Z.leb_le _ _)) by lia.
  - rewrite len_cons in *. cbn [concat]. rewrite len_app. pose proof (len_nonneg init).
    rewrite seqZ_cons by lia. cbn [remove_segments]. rewrite (proj2 (Z.leb_gt _ _)) by lia.
    cbn [app log_files].
    erewrite io_bind_Ok by (by apply io_wrap_Ok, Remove_ok). rewrite delete_insert_id.
    2:{ apply log_files_none; rewrite ?len_app, ?len_cons, ?len_nil; unfold is_u64; lia. }
    replace (Z.pred (1 + len init + 1)) with (len init + 1) by lia.
    replace (s + (1 + len init)) with (Z.succ s + len init) by lia.
    replace (l + (len x + len (batches init))) with (l + len x + len (batches init)) by lia.
    replace (s + 1) with (Z.succ s) by lia. apply IH; lia.
Qed.

Lemma removeBefore_log opts s l init ls :
  log_ok opts s l (init ++ [ls]) ->
  removeBefore (s + len init) (mkDir (log_files s l (init ++ [ls])) [])
  = (Ok tt, mkDir (log_files (s + len init) (l + len (batches init)) [ls]) []).
Proof.
  intros [_ _ [Hs1 Hs2] _ _ _]. pose proof (len_nonneg init).
  assert (len (init ++ [ls]) = len init + 1) as Hlen by (rewrite len_app, len_cons, len_nil; lia).
  unfold removeBefore. erewrite io_bind_Ok.
  2:{ apply (listSegments_ok _ s (length (init ++ [ls]))); [lia|unfold len in *; lia| |].
      - apply dom_log_files.
      - intros name w Hw%log_files_synced. by rewrite Hw. }
  fold (len (init ++ [ls])). rewrite Hlen.
  erewrite io_bind_Ok by (apply remove_segments_log; lia).
  rewrite syncDirectory_ok, link_all_synced; [done|apply log_files_synced].
Qed.

Lemma writeFullAt_ok name v dur lk rg data m :
  m !! name = Some (mkW v dur lk rg) ->
  writeFullAt name data (len v) (mkDir m []) = (Ok tt, mkDir (<[name := mkW (v ++ data) dur lk rg]> m) []).
Proof.
  intros Hm. unfold writeFullAt. destruct data as [|b data].
  { cbn. by rewrite app_nil_r, insert_id. }
  set (whole := b :: data). change (length whole) with (S (length data)). cbn [write_loop].
  pose proof (len_nonneg data). assert (len whole = 1 + len data) as Hlen by apply len_cons.
  rewrite (proj2 (Z.leb_gt _ _)) by lia. unfold WriteAt.
  erewrite io_bind_Ok.
  2:{ rewrite (io_bind_Ok _ _ _ (mkResponse (len whole) false) (mkDir m [])) by done.
      erewrite io_bind_Ok by (by apply lookup_file_ok). cbn [volatile durable linked regular r_bytes].
      rewrite write_at_end, len_to_nat, firstn_all. done. }
  cbn [r_bytes r_err]. rewrite io_fail_if_false by (apply orb_false_iff; rewrite !Z.ltb_ge; lia).
  rewrite io_fail_if_false by done. rewrite io_fail_if_false by (apply Z.eqb_neq; lia).
  rewrite len_to_nat, drop_ge by lia. by destruct (length data).
Qed.

Lemma createSegment_ok m s first :
  all_synced m -> m !! segmentName s = None ->
  createSegment s first (mkDir m [])
  = (Ok segmentHeaderLen, mkDir (<[segmentName s := synced (encodeSegmentHeader s first)]> m) []).
Proof.
  intros Hall Hnone. unfold createSegment. erewrite io_bind_Ok.
  2:{ apply io_wrap_Ok. unfold create_file. erewrite io_bind_Ok by apply call_ok.
      rewrite (io_bind_Ok _ _ _ m (mkDir m [])) by done. by rewrite Hnone. }
  erewrite io_bind_Ok.
  2:{ apply io_or_close_Ok, io_wrap_Ok. change 0 with (len (@nil byte)). eapply writeFullAt_ok, lookup_insert_eq. }
  erewrite io_bind_Ok by (apply io_or_close_Ok, io_wrap_Ok, Sync_ok, lookup_insert_eq).
  erewrite io_bind_Ok by (apply io_or_close_Ok, syncDirectory_ok).
  cbn [files volatile linked regular app]. rewrite !insert_insert_eq, link_all_insert, link_all_synced by done.
  reflexivity.
Qed.

Lemma rotate_log opts s l segs w :
  log_ok opts s l segs -> opened s segs w -> s + len segs + 1 < max_uint64 ->
  exists init, log_ok opts s l (init ++ [[]]) /\ batches (init ++ [[]]) = batches segs /\
  rotate w (l + len (batches segs) + 1) (mkDir (log_files s l segs) [])
  = (Ok (mkWal (Some (segmentName (s + len init))) (s + len init) segmentHeaderLen false),
     mkDir (log_files s l (init ++ [[]])) []).
Proof.
  intros Hlog (init & ls & Hsegs & ->) Hmax. pose proof Hlog as [Ho Hc [Hs1 Hs2] _ _ Hint].
  specialize (Hint _ _ Hsegs). pose proof (len_nonneg init).
  unfold rotate. cbn [wal_closed wal_file wal_size wal_seg].
  destruct (decide (ls = [])) as [->|Hne].
  { exists init. rewrite <- Hsegs. done. }
  rewrite segment_nonempty by done. exists segs.
  assert (len segs = len init + 1) as Hlen by (rewrite Hsegs, len_app, len_cons, len_nil; lia).
  assert (Forall (fun ls => ls <> []) segs) as Hall by (rewrite Hsegs, Forall_app; auto).
  assert (log_ok opts s l (segs ++ [[]])) as Hlog' by (by apply log_ok_new).
  split; [done|]. split; [by rewrite batches_snoc, app_nil_r|].
  assert (uint64 (s + len init + 1) = s + len segs) as ->.
  { unfold uint64, max_uint64 in *. rewrite Z.mod_small; lia. }
  erewrite io_bind_Ok.
  2:{ apply Sync_ok. rewrite Hsegs, log_files_snoc by lia. apply lookup_insert_eq. }
  erewrite io_bind_Ok by apply call_ok. cbn [volatile linked regular synced].
  rewrite insert_id by (rewrite Hsegs, log_files_snoc by lia; apply lookup_insert_eq).
  erewrite io_bind_Ok.
  2:{ apply createSegment_ok; [apply log_files_synced|]. apply log_files_none; unfold is_u64; lia. }
  rewrite (log_files_last opts) by done. unfold segment_bytes. cbn [frames]. by rewrite app_nil_r.
Qed.

(** A log of one empty segment. *)
Lemma log_ok_fresh opts l : opts_ok opts -> count_fits opts -> 0 <= l < max_uint64 -> log_ok opts 1 l [[]].
Proof.
  intros Ho Hc Hl. split; try done.
  - cbn. change (len (@nil (list operation))) with 0. lia.
  - constructor; [|done]. split; [done|]. change (len (segment_bytes 0 0 [])) with 28.
    unfold segment_limit, opts_ok, minSegmentBytes, segmentHeaderLen, frameHeaderLen, frameTrailerLen in *. lia.
  - intros init last Hinit. destruct init as [|x [|y init]]; [done|done|done].
Qed.

(** ** Theorems *)

(** C11: durability of acknowledged batches. Starting from a synced log, let
    batches be appended against a file system that may fail any call or stop
    any write short, and let the process crash at the end, losing any part of
    what no sync made durable. Opening the log afterwards succeeds and rebuilds
    exactly the state of the batches of the log followed by the acknowledged
    ones in order, followed at most by the one batch whose append failed, and
    returns the matching log sequence number; the directory is then again a
    synced log of those batches. *)
Theorem acknowledged_batches_survive opts s l segs w bs d flushed st m' :
  let run := log_all opts w (l + len (batches segs)) bs d in
  log_ok opts s l segs -> opened s segs w -> files d = log_files s l segs ->
  l + len (batches segs) + len bs < max_uint64 -> s + len segs + len bs < max_uint64 ->
  l <= flushed <= l + len (batches segs) ->
  crash (files (snd run)) m' ->
  exists more w' segs', in_flight bs more /\
    batches segs' = batches segs ++ fst run ++ more /\ opened s segs' w' /\ log_ok opts s l segs' /\
    openWAL opts (Some st) flushed (mkDir m' [])
    = (Ok (w', replay flushed (l + 1) (batches segs ++ fst run ++ more) st,
           l + len (batches segs ++ fst run ++ more)),
       mkDir (log_files s l segs') []).
Proof.
  intros run Hlog Hw Hd Hmax Hsmax Hfl Hc.
  destruct (log_all_crash_safe opts s l bs segs w d Hlog Hw Hd Hmax Hsmax m' Hc)
    as (segs' & more & Hlog' & Hne & Hmore & Hb & Hac).
  fold run in Hb. exists more.
  destruct (openWAL_after_crash opts flushed s l segs' Hlog') with (m := m') (st := st)
    as (w' & Hw' & Hopen); try done.
  { rewrite Hb, len_app. pose proof (len_nonneg (fst run ++ more)). lia. }
  exists w', segs'. rewrite <- Hb. done.
Qed.

(** opening an empty directory creates segment one, durable with its
    directory entry, positioned right after the checkpoint. *)
Theorem openWAL_fresh o opts flushed :
  normalized o = Ok opts -> count_fits opts -> 0 <= flushed -> flushed + 1 < max_uint64 ->
  exists w, opened 1 [[]] w /\ log_ok opts 1 flushed [[]] /\
  openWAL opts None flushed (mkDir ∅ []) = (Ok (w, emptyState, flushed), mkDir (log_files 1 flushed [[]]) []).
Proof.
  intros Ho%normalized_ok Hc Hf1 Hf2.
  exists (mkWal (Some (segmentName 1)) 1 segmentHeaderLen false).
  split; [by exists [], []|]. split; [apply log_ok_fresh; try done; lia|].
  unfold openWAL. erewrite io_bind_Ok by done.
  rewrite (io_bind_Ok _ _ _ [] (mkDir ∅ [])) by done. cbv zeta.
  rewrite (io_bind_Ok _ _ _ (None, emptyState, 0) (mkDir ∅ [])) by done. cbv iota beta.
  erewrite io_bind_Ok by (by apply createSegment_ok).
  unfold uint64, max_uint64 in *. rewrite Z.mod_small by lia. reflexivity.
Qed.

(** a checkpoint reclaims the log. Rotating and then removing the
    segments before the new one leaves exactly one empty segment that starts
    after the last batch; opening it with that checkpoint recovers the
    checkpoint's position and replays nothing. *)
Theorem checkpoint_reclaims_log opts s l segs w st :
  log_ok opts s l segs -> opened s segs w -> s + len segs + 1 < max_uint64 ->
  let last := l + len (batches segs) in
  exists w' d' s',
    rotate w (last + 1) (mkDir (log_files s l segs) []) = (Ok w', d') /\
    removeBefore (wal_seg w') d' = (Ok tt, mkDir (log_files s' last [[]]) []) /\
    openWAL opts (Some st) last (mkDir (log_files s' last [[]]) [])
    = (Ok (w', st, last), mkDir (log_files s' last [[]]) []).
Proof.
  intros Hlog Hw Hmax last. pose proof Hlog as [Ho Hc [Hs1 Hs2] [Hl1 Hl2] _ _].
  destruct (rotate_log opts s l segs w Hlog Hw Hmax) as (init & Hlog' & Hb & Hr).
  eexists _, _, (s + len init). split; [exact Hr|].
  assert (l + len (batches init) = last) as Hlast.
  { unfold last. by rewrite <- Hb, batches_snoc, app_nil_r. }
  split. { cbn [wal_seg]. rewrite (removeBefore_log opts) by done. by rewrite Hlast. }
  pose proof Hlog' as [_ _ [_ Hs2'] _ Hok _]. rewrite len_app, len_cons, len_nil in Hs2'.
  rewrite Forall_app in Hok. destruct Hok as [_ Hok]. pose proof (len_nonneg init).
  assert (log_ok opts (s + len init) last [[]]) as Hlog1.
  { split; try done.
    - cbn. unfold len in *. cbn. lia.
    - change (len (batches [[]])) with 0. unfold last in *. pose proof (len_nonneg (batches segs)). lia.
    - intros i' l' Hi. destruct i' as [|x [|y i']]; done. }
  destruct (openWAL_after_crash opts last (s + len init) last [[]] Hlog1) with
    (m := log_files (s + len init) last [[]]) (st := st) as (w'' & (i' & l' & Hi & ->) & Hopen).
  - change (len (batches [[]])) with 0. lia.
  - done.
  - constructor.
  - destruct i' as [|x [|y i']]; [|discriminate Hi|discriminate Hi]. injection Hi as <-. rewrite Hopen.
    change (len (batches [[]])) with 0. change (len (segment_bytes 0 0 [])) with segmentHeaderLen.
    rewrite (@len_nil (list (list operation))), !Z.add_0_r. done.
Qed.

(** a first segment whose header was cut short by a crash is not treated
    as an empty tail: opening such a directory fails with corruption, whatever
    prefix of the header is there. *)
Theorem lone_short_segment_refused opts st flushed h :
  len h < segmentHeaderLen ->
  openWAL opts st flushed (mkDir {[segmentName 1 := synced h]} [])
  = (Fail (ErrCorrupt "short segment header"), mkDir {[segmentName 1 := synced h]} []).
Proof.
  intros Hh. unfold openWAL. erewrite io_bind_Ok by done.
  rewrite (io_bind_Ok _ _ _ [1] (mkDir {[segmentName 1 := synced h]} [])).
  2:{ apply (listSegments_ok _ 1 1); [lia|done| |].
      - rewrite dom_singleton_L. cbn [fmap]. change (seqZ 1 (Z.of_nat 1)) with [1]. cbn. by rewrite (right_id_L ∅ (∪)).
      - intros name w. rewrite lookup_singleton_Some. by intros [_ <-]. }
  cbv zeta. cbn [open_loop]. unfold mbind at 1, io_bind at 1.
  erewrite io_bind_Ok by (apply openExistingSegment_ok, lookup_singleton_eq).
  cbn [start_lsn volatile synced]. unfold mbind, io_bind, io_or_close, segmentFirstLSN, io_fail_if, io_lift.
  unfold mbind, io_bind. rewrite (proj2 (Z.ltb_lt _ _)) by done. done.
Qed.

(** ** Instances at concrete inputs *)

Lemma prefix_take_le {A} (l : list A) n m : (n <= m)%nat -> take n l `prefix_of` take m l.
Proof. intros. rewrite <- (Nat.min_l n m) by done. rewrite <- take_take. apply prefix_take. Qed.

Definition fresh_wal : wal := mkWal (Some (segmentName 1)) 1 segmentHeaderLen false.

Lemma sample_opts_ok : opts_ok sample_opts /\ count_fits sample_opts.
Proof. vm_compute. intuition discriminate. Qed.

Lemma acknowledged_batches_survive_witness :
  let d := mkDir (log_files 1 0 [[]]) [mkResponse 30 false; mkResponse 20 true] in
  let run := log_all sample_opts fresh_wal 0 [sample_batch] d in
  fst run = [] /\
  exists more w' segs', in_flight [sample_batch] more /\
    batches segs' = fst run ++ more /\ opened 1 segs' w' /\ log_ok sample_opts 1 0 segs' /\
    openWAL sample_opts (Some emptyState) 0
      (mkDir {[segmentName 1 := synced (encodeSegmentHeader 1 1 ++ take 40 (frame_bytes 1 (sort_by op_key (ops sample_batch)) 21))]} [])
    = (Ok (w', replay 0 1 (fst run ++ more) emptyState, len (fst run ++ more)),
       mkDir (log_files 1 0 segs') []).
Proof.
  intros d run. split; [vm_compute; reflexivity|].
  apply (acknowledged_batches_survive sample_opts 1 0 [[]] fresh_wal [sample_batch] d 0 emptyState).
  - apply log_ok_fresh; [apply sample_opts_ok|apply sample_opts_ok|done].
  - by exists [], [].
  - done.
  - vm_compute. reflexivity.
  - vm_compute. reflexivity.
  - vm_compute. split; discriminate.
  - intros name.
    assert (files (snd (log_all sample_opts fresh_wal (0 + len (batches [[]])) [sample_batch] d))
            = {[segmentName 1 := mkW (encodeSegmentHeader 1 1 ++ take 50 (frame_bytes 1 (sort_by op_key (ops sample_batch)) 21))
                                     (encodeSegmentHeader 1 1) true true]}) as ->
      by (apply (bool_decide_eq_true_1 _); vm_compute; reflexivity).
    destruct (decide (segmentName 1 = name)) as [<-|Hne].
    + rewrite !lookup_singleton_eq. split; [|done]. left. split.
      * apply prefix_app_r. done.
      * cbn [volatile synced]. apply prefix_app. apply (prefix_take_le _ 40 50). lia.
    + by rewrite !lookup_singleton_ne.
Defined.

Lemma openWAL_fresh_witness :
  exists w, opened 1 [[]] w /\ log_ok sample_opts 1 7 [[]] /\
  openWAL sample_opts None 7 (mkDir ∅ []) = (Ok (w, emptyState, 7), mkDir (log_files 1 7 [[]]) []).
Proof.
  apply (openWAL_fresh (mkOptions 0 0 0 0 0 0 0 0 0 0 0) sample_opts 7).
  - vm_compute. reflexivity.
  - vm_compute. discriminate.
  - lia.
  - vm_compute. reflexivity.
Defined.

Lemma checkpoint_reclaims_log_witness :
  exists w' d' s',
    rotate fresh_wal 1 (mkDir (log_files 1 0 [[]]) []) = (Ok w', d') /\
    removeBefore (wal_seg w') d' = (Ok tt, mkDir (log_files s' 0 [[]]) []) /\
    openWAL sample_opts (Some emptyState) 0 (mkDir (log_files s' 0 [[]]) [])
    = (Ok (w', emptyState, 0), mkDir (log_files s' 0 [[]]) []).
Proof.
  apply (checkpoint_reclaims_log sample_opts 1 0 [[]] fresh_wal emptyState).
  - apply log_ok_fresh; [apply sample_opts_ok|apply sample_opts_ok|done].
  - by exists [], [].
  - vm_compute. reflexivity.
Defined.

Lemma lone_short_segment_refused_witness :
  openWAL sample_opts None 0 (mkDir {[segmentName 1 := synced (take 27 (encodeSegmentHeader 1 1))]} [])
  = (Fail (ErrCorrupt "short segment header"),
     mkDir {[segmentName 1 := synced (take 27 (encodeSegmentHeader 1 1))]} []).
Proof. apply (lone_short_segment_refused sample_opts None 0). vm_compute. reflexivity. Defined.
