(* ===== verification/Sst.v ===== *)
(** [internal/engine/sst.go], [reader.go]: the sorted table format: encoding
    into checksummed blocks with an index, loading and validating a table, and
    the positioned reader over its blocks.

    A table is the byte string of its file; reads of it are reliable. *)

From Stdlib Require Import ZArith Lia.
From stdpp Require Import base list gmap.
From S2P Require Import Prelude GoStd EngineOps Fs.

Local Open Scope Z_scope.

Definition sstMagic : bytes := lit "VBS1".
Definition sstVersion : byte := x01.
Definition blockMagic : bytes := lit "BLK1".
Definition footerMagic : bytes := lit "VSF1".
Definition maxSSTNameLen : Z := 255.

Abbreviation sstEntry := memEntry.

Record sstFile : Type := mkSstFile {
  sst_name : bytes;
  sst_level : byte;
  sst_minKey : bytes;
  sst_maxKey : bytes;
  sst_entryCount : Z;
  sst_bytes : Z
}.

#[export] Instance sstFile_eq_dec : EqDecision sstFile.
Proof. solve_decision. Defined.

Definition sstBaseName (id : Z) : bytes := lit "sst-" ++ decimal 20 id ++ lit ".sst".

Definition validSSTName (name : bytes) : bool :=
  negb (negb (len name =? 28) || (maxSSTNameLen <? len name) || (len name <? 9)
        || negb (beq (take 4 name) (lit "sst-"))
        || negb (beq (drop (length name - 4) name) (lit ".sst")))
  && forallb is_digit (sub name 4 (len name - 4)).

(** ** Encoding *)

Definition maxSSTBlockPayload (opts : Options) : Z :=
  let maxRecord := 1 + 4 + 4 + MaxKeyBytes opts + MaxValueBytes opts + 4 in
  if SSTBlockBytes opts <? maxRecord then maxRecord else SSTBlockBytes opts.

Definition record_body (e : sstEntry) : bytes :=
  ent_kind e :: be 4 (len (ent_key e)) ++ be 4 (len (ent_value e)) ++ ent_key e ++ ent_value e.
Definition record_bytes (e : sstEntry) : bytes :=
  record_body e ++ be 4 (crc32.Checksum (record_body e)).

(** The inner loop: entries taken into one block, its payload, and the rest. *)
Fixpoint fill_block (opts : Options) (l : list sstEntry) (payload : bytes) (taken : list sstEntry)
    : result engine_error (bytes * list sstEntry * list sstEntry) :=
  match l with
  | [] => Ok (payload, taken, [])
  | e :: l' =>
      let recordLen := 1 + 4 + 4 + len (ent_key e) + len (ent_value e) + 4 in
      fail_if (maxSSTBlockPayload opts <? recordLen) (ErrBatchTooLarge "entry exceeds SST block");;
      if (0 <? len payload) && (SSTBlockBytes opts <? len payload + recordLen)
      then Ok (payload, taken, l)
      else fill_block opts l' (payload ++ record_bytes e) (taken ++ [e])
  end.

Definition block_bytes (payload : bytes) (count : Z) : bytes :=
  blockMagic ++ be 4 (len payload) ++ be 4 count ++ be 4 (crc32.Checksum payload) ++ payload.

Record sstBlockIndex : Type := mkBlockIndex {
  bi_offset : Z;
  bi_length : Z;
  bi_first : bytes;
  bi_last : bytes
}.

Definition first_key (l : list sstEntry) : bytes := match l with e :: _ => ent_key e | [] => [] end.
Definition last_key (l : list sstEntry) : bytes := match last l with Some e => ent_key e | None => [] end.

(** The outer loop; every round takes an entry, so the number of entries
    bounds the rounds. *)
Fixpoint build_blocks (fuel : nat) (opts : Options) (l : list sstEntry) (body : bytes)
    (indexes : list sstBlockIndex) : result engine_error (bytes * list sstBlockIndex) :=
  match fuel with
  | O => Ok (body, indexes)
  | S fuel' =>
      if len l <=? 0 then Ok (body, indexes)
      else
        '(payload, taken, rest) ← fill_block opts l [] [];
        fail_if (len taken =? 0) (ErrBatchTooLarge "SST block made no progress");;
        let block := block_bytes payload (len taken) in
        build_blocks fuel' opts rest (body ++ block)
          (indexes ++ [mkBlockIndex (len body) (uint32 (len block)) (first_key taken) (last_key taken)])
  end.

Definition index_entry (b : sstBlockIndex) : bytes :=
  be 8 (bi_offset b) ++ be 4 (bi_length b) ++ be 4 (len (bi_first b)) ++ be 4 (len (bi_last b))
  ++ bi_first b ++ bi_last b.

Definition footer_head (indexOffset indexLen blockCount bodyCRC : Z) : bytes :=
  footerMagic ++ [sstVersion; x00; x00; x00] ++ be 8 indexOffset ++ be 4 indexLen
  ++ be 4 blockCount ++ be 4 bodyCRC.
Definition footer_bytes (indexOffset indexLen blockCount bodyCRC : Z) : bytes :=
  let h := footer_head indexOffset indexLen blockCount bodyCRC in h ++ be 4 (crc32.Checksum h).

Definition header_head (level : byte) (id maxLSN entryCount blockCount bodyLen : Z) : bytes :=
  sstMagic ++ [sstVersion; level; x00; x00] ++ be 8 id ++ be 8 maxLSN ++ be 4 entryCount
  ++ be 4 blockCount ++ be 4 bodyLen.
Definition header_bytes (level : byte) (id maxLSN entryCount blockCount bodyLen : Z) : bytes :=
  let h := header_head level id maxLSN entryCount blockCount bodyLen in h ++ be 4 (crc32.Checksum h).

Definition op_of (e : sstEntry) : operation := mkOp (ent_kind e) (ent_key e) (ent_value e).

(** The validation loop over sorted entries. *)
Fixpoint check_entries (opts : Options) (previous : option bytes) (l : list sstEntry)
    : result engine_error unit :=
  match l with
  | [] => Ok tt
  | e :: l' =>
      validateOperation (op_of e) opts;;
      fail_if (match previous with Some p => beq p (ent_key e) | None => false end)
        (ErrDuplicateKey "duplicate SST key");;
      check_entries opts (Some (ent_key e)) l'
  end.

Definition encodeSST (entries : list sstEntry) (level : byte) (id maxLSN : Z) (opts : Options)
    : result engine_error (bytes * sstFile) :=
  fail_if (len entries =? 0) (ErrInvalidBatch "empty SST");;
  fail_if (max_uint32 <? len entries) (ErrBatchTooLarge "too many SST entries");;
  let entries := sort_by ent_key entries in
  check_entries opts None entries;;
  '(body, indexes) ← build_blocks (length entries) opts entries [] [];
  fail_if (existsb (fun b => (MaxKeyBytes opts <? len (bi_first b)) || (MaxKeyBytes opts <? len (bi_last b))) indexes)
    ErrInvalidKey;;
  let index := concat (map index_entry indexes) in
  fail_if ((max_uint32 <? len index) || (max_uint32 <? len indexes) || (max_uint32 <? len body))
    (ErrBatchTooLarge "SST index too large");;
  let file := header_bytes level id maxLSN (len entries) (len indexes) (len body) ++ body ++ index
              ++ footer_bytes (sstHeaderLen + len body) (len index) (len indexes) (crc32.Checksum body) in
  fail_if (MaxSSTBytes opts <? len file) (ErrBatchTooLarge "SST exceeds configured bound");;
  Ok (file, mkSstFile (sstBaseName id) level (first_key entries) (last_key entries) (len entries) (len file)).

(** ** Loading a table *)

(** [strconv.ParseUint] of decimal digits, in range. *)
Definition parse_uint (l : bytes) : option Z :=
  let n := fold_left (fun acc b => acc * 10 + (u8 b - 48)) l 0 in
  if n <=? max_uint64 then Some n else None.

Definition parseNumberName (name prefix suffix : bytes) : option Z :=
  rest ← cut_prefix prefix name;
  digits ← cut_suffix suffix rest;
  if negb (len digits =? 20) || negb (forallb is_digit digits) then None else parse_uint digits.

Record sstBlockMeta : Type := mkBlockMeta {
  bm_offset : Z;
  bm_length : Z;
  bm_first : bytes;
  bm_last : bytes
}.

Record sstTable : Type := mkTable {
  tb_blocks : list sstBlockMeta;
  tb_entryCount : Z;
  tb_bodyLen : Z;
  tb_bodyCRC : Z
}.

(** The index loop with [n] blocks left; [index] is the unread part. *)
Fixpoint read_index (opts : Options) (n : nat) (index : bytes) (expectedOffset : Z)
    (previousLast : option bytes) (bodyLen : Z) (blocks : list sstBlockMeta)
    : result engine_error (list sstBlockMeta * bytes * Z) :=
  match n with
  | O => Ok (blocks, index, expectedOffset)
  | S n' =>
      fail_if (len index <? 20) (ErrCorrupt "truncated SST index");;
      let offset := un_be (sub index 0 8) in
      let length := un_be (sub index 8 12) in
      let firstLen := un_be (sub index 12 16) in
      let lastLen := un_be (sub index 16 20) in
      let index := drop 20 index in
      fail_if ((firstLen <? 1) || (lastLen <? 1) || (MaxKeyBytes opts <? firstLen)
               || (MaxKeyBytes opts <? lastLen) || (len index <? firstLen + lastLen))
        (ErrCorrupt "invalid SST index key bounds");;
      let first := take (Z.to_nat firstLen) index in
      let last := take (Z.to_nat lastLen) (drop (Z.to_nat firstLen) index) in
      let index := drop (Z.to_nat lastLen) (drop (Z.to_nat firstLen) index) in
      fail_if (blt last first || match previousLast with Some p => ble first p | None => false end)
        (ErrCorrupt "nonordered SST index");;
      let bodyOffset := int64 offset in
      fail_if ((bodyOffset <? 0) || (bodyLen <? int64 (bodyOffset + length)) || (length <? blockHeaderLen)
               || negb (offset =? expectedOffset))
        (ErrCorrupt "SST block index bounds");;
      read_index opts n' index (uint64 (expectedOffset + length)) (Some last) bodyLen
        (blocks ++ [mkBlockMeta offset length first last])
  end.

Definition loadIndex (content : bytes) (file : sstFile) (opts : Options) : result engine_error sstTable :=
  let size := len content in
  fail_if ((size <? sstHeaderLen + sstFooterLen) || (MaxSSTBytes opts <? size)
           || (negb (sst_bytes file =? 0) && negb (sst_bytes file =? size))) (ErrCorrupt "invalid SST size");;
  let header := sub content 0 40 in
  fail_if (negb (beq (sub header 0 4) sstMagic) || negb (beq (sub header 4 6) [sstVersion; sst_level file])
           || negb (un_be (sub header 6 8) =? 0)
           || negb (un_be (sub header 36 40) =? crc32.Checksum (sub header 0 36)))
    (ErrCorrupt "invalid SST header");;
  fail_if (match parseNumberName (sst_name file) (lit "sst-") (lit ".sst") with
           | Some id => negb (un_be (sub header 8 16) =? id)
           | None => true
           end) (ErrCorrupt "SST name/id mismatch");;
  let entryCount := un_be (sub header 24 28) in
  let blockCount := un_be (sub header 28 32) in
  let bodyLen := un_be (sub header 32 36) in
  fail_if ((entryCount =? 0) || (blockCount =? 0) || (bodyLen <? blockHeaderLen)
           || (size <? sstHeaderLen + bodyLen + sstFooterLen)) (ErrCorrupt "invalid SST bounds");;
  let footerAt := size - sstFooterLen in
  let footer := sub content footerAt size in
  fail_if (negb (beq (sub footer 0 4) footerMagic) || negb (beq (sub footer 4 6) [sstVersion; x00])
           || negb (un_be (sub footer 6 8) =? 0) || negb (un_be (sub footer 20 24) =? blockCount)
           || negb (un_be (sub footer 28 32) =? crc32.Checksum (sub footer 0 28)))
    (ErrCorrupt "invalid SST footer");;
  let indexOffset := int64 (un_be (sub footer 8 16)) in
  let indexLen := un_be (sub footer 16 20) in
  fail_if (negb (indexOffset =? sstHeaderLen + bodyLen) || (indexLen <? 1)
           || negb (indexOffset + indexLen =? footerAt) || (MaxSSTBytes opts <? indexLen))
    (ErrCorrupt "invalid SST index bounds");;
  let index := sub content indexOffset (indexOffset + indexLen) in
  '(blocks, rest, expectedOffset) ← read_index opts (Z.to_nat blockCount) index 0 None bodyLen [];
  fail_if (negb (bool_decide (rest = [])) || negb (uint32 (len blocks) =? blockCount)
           || negb (int64 expectedOffset =? bodyLen)) (ErrCorrupt "SST index count mismatch");;
  Ok (mkTable blocks entryCount bodyLen (un_be (sub footer 24 28))).

(** ** Blocks *)

(** The entry loop with [n] entries left; [rest] is [payload[pos:]]. *)
Fixpoint decode_entries (opts : Options) (n : nat) (rest : bytes) (acc : list sstEntry)
    : result engine_error (list sstEntry * bytes) :=
  match n with
  | O => Ok (acc, rest)
  | S n' =>
      match rest with
      | [] => Fail (ErrCorrupt "truncated SST entry")
      | kind :: _ =>
          fail_if (len rest <? 1 + 4 + 4 + 4) (ErrCorrupt "truncated SST entry");;
          let keyLen := un_be (sub rest 1 5) in
          let valueLen := un_be (sub rest 5 9) in
          let recordLen := 1 + 4 + 4 + keyLen + valueLen + 4 in
          fail_if ((keyLen <? 1) || (MaxKeyBytes opts <? keyLen) || (MaxValueBytes opts <? valueLen)
                   || (bool_decide (kind = deleteOp) && negb (valueLen =? 0))
                   || (negb (bool_decide (kind = putOp)) && negb (bool_decide (kind = deleteOp)))
                   || (recordLen <? 13) || (len rest <? recordLen))
            (ErrCorrupt "invalid SST entry bounds");;
          let record := sub rest 0 recordLen in
          fail_if (negb (un_be (sub record (len record - 4) (len record))
                         =? crc32.Checksum (sub record 0 (len record - 4))))
            (ErrCorrupt "SST entry checksum");;
          decode_entries opts n' (drop (Z.to_nat recordLen) rest)
            (acc ++ [mkEntry kind (sub record 9 (9 + keyLen)) (sub record (9 + keyLen) (9 + keyLen + valueLen))])
      end
  end.

Definition decodeSSTBlock (payload : bytes) (count : Z) (opts : Options)
    : result engine_error (list sstEntry) :=
  fail_if ((count =? 0) || (uint32 (len payload / 13) <? count)) (ErrCorrupt "invalid SST entry count");;
  '(entries, rest) ← decode_entries opts (Z.to_nat count) payload [];
  fail_if (negb (bool_decide (rest = []))) (ErrCorrupt "SST block trailing bytes");;
  fail_if (negb (keys_increasing (map ent_key entries))) (ErrCorrupt "SST block keys are not ordered");;
  Ok entries.

Definition readBlock (content : bytes) (t : sstTable) (opts : Options) (index : nat)
    : result engine_error (list sstEntry * bytes) :=
  match tb_blocks t !! index with
  | None => Fail ErrIO
  | Some meta =>
      let at_ := sstHeaderLen + bm_offset meta in
      let raw := sub content at_ (at_ + bm_length meta) in
      fail_if ((len raw <? blockHeaderLen) || negb (beq (sub raw 0 4) blockMagic)) (ErrCorrupt "invalid SST block");;
      let payloadLen := un_be (sub raw 4 8) in
      let count := un_be (sub raw 8 12) in
      fail_if ((payloadLen <? 1) || (maxSSTBlockPayload opts <? payloadLen) || (count =? 0)
               || (uint32 (payloadLen / 13) <? count) || negb (payloadLen + blockHeaderLen =? len raw)
               || negb (un_be (sub raw 12 16) =? crc32.Checksum (sub raw 16 (len raw))))
        (ErrCorrupt "invalid SST block bounds/checksum");;
      entries ← decodeSSTBlock (sub raw 16 (len raw)) count opts;
      Ok (entries, raw)
  end.

(** The order check across blocks of [validateAll]. *)
Fixpoint in_order (previous : option bytes) (l : list sstEntry) : bool :=
  match l with
  | [] => true
  | e :: l' =>
      negb (match previous with Some p => ble (ent_key e) p | None => false end)
      && in_order (Some (ent_key e)) l'
  end.

Fixpoint validate_blocks (content : bytes) (t : sstTable) (opts : Options) (file : sstFile)
    (i : nat) (metas : list sstBlockMeta) (hashed : bytes) (total : Z) (previous : option bytes)
    : result engine_error (bytes * Z) :=
  match metas with
  | [] => Ok (hashed, total)
  | meta :: metas' =>
      '(block, raw) ← readBlock content t opts i;
      fail_if (bool_decide (block = []) || negb (beq (first_key block) (bm_first meta))
               || negb (beq (last_key block) (bm_last meta))) (ErrCorrupt "SST block metadata mismatch");;
      fail_if (negb (in_order previous block)) (ErrCorrupt "SST keys are not strictly ordered");;
      validate_blocks content t opts file (S i) metas' (hashed ++ raw) (uint32 (total + len block))
        (Some (last_key block))
  end.

Definition validateAll (content : bytes) (t : sstTable) (opts : Options) (file : sstFile)
    : result engine_error unit :=
  '(hashed, total) ← validate_blocks content t opts file 0 (tb_blocks t) [] 0 None;
  fail_if (negb (total =? tb_entryCount t) || negb (crc32.Checksum hashed =? tb_bodyCRC t))
    (ErrCorrupt "SST count/body checksum mismatch");;
  fail_if (match head (tb_blocks t), last (tb_blocks t) with
           | Some a, Some b => negb (beq (bm_first a) (sst_minKey file)) || negb (beq (bm_last b) (sst_maxKey file))
                               || negb (sst_entryCount file =? total)
           | _, _ => true
           end) (ErrCorrupt "SST manifest metadata mismatch").

(** ** Readers *)

Record sstReader : Type := mkReader {
  rd_content : bytes;
  rd_table : sstTable;
  rd_opts : Options;
  rd_block : nat;
  rd_entries : option (list sstEntry);   (* [None] is nil *)
  rd_index : nat;
  rd_closed : bool
}.

(** [content] is what the file system holds under [sst/<name>], if anything. *)
Definition openSSTReader (content : option bytes) (file : sstFile) (opts : Options) (validate : bool)
    : result engine_error sstReader :=
  fail_if (negb (validSSTName (sst_name file)) || (1 <? u8 (sst_level file))) (ErrCorrupt "invalid SST reference");;
  match content with
  | None => Fail (ErrCorrupt "open SST")
  | Some c =>
      t ← loadIndex c file opts;
      (if validate then validateAll c t opts file else Ok tt);;
      Ok (mkReader c t opts 0 None 0 false)
  end.

Definition loadCurrent (r : sstReader) : result engine_error sstReader :=
  '(entries, _) ← readBlock (rd_content r) (rd_table r) (rd_opts r) (rd_block r);
  Ok (mkReader (rd_content r) (rd_table r) (rd_opts r) (rd_block r) (Some entries) 0 (rd_closed r)).

(** [bytes.Compare(l[i] key, start) >= 0] at an index. *)
Definition key_at_least {A} (key : A -> bytes) (l : list A) (start : bytes) (i : nat) : bool :=
  match l !! i with Some x => ble start (key x) | None => false end.

Definition seek (r : sstReader) (start : option bytes) : result engine_error sstReader :=
  let blocks := tb_blocks (rd_table r) in
  if (length blocks =? 0)%nat then Ok r
  else
    let i := match start with
             | None => 0%nat
             | Some k => sort.Search (length blocks) (key_at_least bm_last blocks k)
             end in
    let r := mkReader (rd_content r) (rd_table r) (rd_opts r) i None 0 (rd_closed r) in
    if (length blocks <=? i)%nat then Ok r
    else
      r ← loadCurrent r;
      match start with
      | None => Ok r
      | Some k =>
          let entries := match rd_entries r with Some l => l | None => [] end in
          Ok (mkReader (rd_content r) (rd_table r) (rd_opts r) (rd_block r) (rd_entries r)
                (sort.Search (length entries) (key_at_least ent_key entries k)) (rd_closed r))
      end.

(** The loop of [next]: every round moves to a later block, so their number
    bounds the rounds. *)
Fixpoint next_loop (fuel : nat) (r : sstReader) : result engine_error (option sstEntry * sstReader) :=
  match fuel with
  | O => Ok (None, r)
  | S fuel' =>
      if (rd_block r <? length (tb_blocks (rd_table r)))%nat then
        r ← (match rd_entries r with None => loadCurrent r | Some _ => Ok r end);
        let entries := match rd_entries r with Some l => l | None => [] end in
        match entries !! rd_index r with
        | Some e => Ok (Some e, mkReader (rd_content r) (rd_table r) (rd_opts r) (rd_block r) (rd_entries r)
                                  (S (rd_index r)) (rd_closed r))
        | None => next_loop fuel' (mkReader (rd_content r) (rd_table r) (rd_opts r) (S (rd_block r)) None 0 (rd_closed r))
        end
      else Ok (None, r)
  end.
Definition sst_next (r : sstReader) : result engine_error (option sstEntry * sstReader) :=
  if rd_closed r then Fail ErrClosed
  else next_loop (S (length (tb_blocks (rd_table r)))) r.

Definition lookupSST (content : option bytes) (file : sstFile) (key : bytes) (opts : Options)
    : result engine_error (option sstEntry) :=
  r ← openSSTReader content file opts false;
  r ← seek r (Some key);
  '(entry, _) ← sst_next r;
  match entry with
  | Some e => if beq (ent_key e) key then Ok (Some e) else Ok None
  | None => Ok None
  end.

(** *** Binary search in sorted keys *)

Lemma key_at_least_monotone {A} (key : A -> bytes) l k :
  StronglySorted (key_lt key) l -> sort.monotone (length l) (key_at_least key l k).
Proof.
  intros Hs i j Hij. unfold key_at_least. destruct (decide (i = j)) as [->|Hne]; [done|].
  destruct (l !! i) as [x|] eqn:Hx; [|done]. destruct (lookup_lt_is_Some_2 l j) as [y Hy]; [lia|].
  rewrite Hy. intros Hk. apply blt_ble. eapply ble_lt_trans; [exact Hk|].
  eapply strongly_lookup; [done| |done|done]. lia.
Qed.

Definition at_least {A} (key : A -> bytes) (start : bytes) (x : A) : bool := ble start (key x).

Lemma List_filter_none {A} (f : A -> bool) l : (forall x, x ∈ l -> f x = false) -> List.filter f l = [].
Proof.
  induction l as [|x l IH]; intros H; [done|]. cbn. rewrite H by left. apply IH. intros y Hy. apply H. by right.
Qed.
Lemma List_filter_all {A} (f : A -> bool) l : (forall x, x ∈ l -> f x = true) -> List.filter f l = l.
Proof.
  induction l as [|x l IH]; intros H; [done|]. cbn. rewrite H by left. f_equal. apply IH. intros y Hy. apply H. by right.
Qed.

Lemma List_find_none {A} (f : A -> bool) l : (forall x, x ∈ l -> f x = false) -> List.find f l = None.
Proof.
  induction l as [|x l IH]; intros H; [done|]. cbn. rewrite H by left. apply IH. intros y Hy. apply H. by right.
Qed.

Lemma elem_of_take_lookup {A} (l : list A) n x : x ∈ take n l -> exists i, (i < n)%nat /\ l !! i = Some x.
Proof.
  intros (i & Hi)%list_elem_of_lookup_1. exists i. apply lookup_take_Some in Hi as [? ?]. done.
Qed.
Lemma elem_of_drop_lookup {A} (l : list A) n x : x ∈ drop n l -> exists i, (n <= i)%nat /\ l !! i = Some x.
Proof.
  intros (i & Hi)%list_elem_of_lookup_1. exists (n + i)%nat. rewrite lookup_drop in Hi. split; [lia|done].
Qed.

Lemma drop_Search {A} (key : A -> bytes) l k :
  StronglySorted (key_lt key) l ->
  drop (sort.Search (length l) (key_at_least key l k)) l = List.filter (at_least key k) l.
Proof.
  intros Hs. destruct (sort.Search_spec _ _ (key_at_least_monotone key l k Hs)) as (Hn & Hlo & Hhi).
  set (n := sort.Search _ _) in *. rewrite <- (take_drop n l) at 2. rewrite List.filter_app.
  rewrite List_filter_none, List_filter_all; [done| |].
  - intros x (i & Hi & Hx)%elem_of_drop_lookup. specialize (Hhi i). unfold key_at_least in Hhi.
    rewrite Hx in Hhi. apply Hhi. apply lookup_lt_Some in Hx. lia.
  - intros x (i & Hi & Hx)%elem_of_take_lookup. specialize (Hlo i Hi). unfold key_at_least in Hlo.
    by rewrite Hx in Hlo.
Qed.

(** ** The reader over the blocks of a table *)

(** The table at hand holds the blocks [bs]. *)
Record table_ok (content : bytes) (t : sstTable) (opts : Options) (bs : list (list sstEntry)) : Prop := {
  to_length : length (tb_blocks t) = length bs;
  to_read : forall i b, bs !! i = Some b -> exists raw, readBlock content t opts i = Ok (b, raw);
  to_nonempty : Forall (fun b => b <> []) bs;
  to_last : map bm_last (tb_blocks t) = map last_key bs;
  to_sorted : StronglySorted (key_lt ent_key) (concat bs);
  to_count : tb_entryCount t = len (concat bs)
}.

Record reader_ok (bs : list (list sstEntry)) (r : sstReader) : Prop := {
  ro_table : table_ok (rd_content r) (rd_table r) (rd_opts r) bs;
  ro_open : rd_closed r = false;
  ro_entries : match rd_entries r with Some l => bs !! rd_block r = Some l | None => rd_index r = 0%nat end
}.

(** The entries the reader has not returned yet. *)
Definition remaining (bs : list (list sstEntry)) (r : sstReader) : list sstEntry :=
  match rd_entries r with
  | None => concat (drop (rd_block r) bs)
  | Some l => drop (rd_index r) l ++ concat (drop (S (rd_block r)) bs)
  end.

Lemma loadCurrent_ok bs r b :
  reader_ok bs r -> bs !! rd_block r = Some b ->
  loadCurrent r = Ok (mkReader (rd_content r) (rd_table r) (rd_opts r) (rd_block r) (Some b) 0 (rd_closed r)).
Proof.
  intros [Ht _ _] Hb. destruct (to_read _ _ _ _ Ht _ _ Hb) as [raw Hraw]. unfold loadCurrent. by rewrite Hraw.
Qed.

Lemma next_loop_ok bs fuel : forall r,
  reader_ok bs r -> (length bs - rd_block r < fuel)%nat ->
  exists r', next_loop fuel r = Ok (head (remaining bs r), r') /\ reader_ok bs r' /\
             remaining bs r' = tail (remaining bs r) /\ rd_table r' = rd_table r.
Proof.
  induction fuel as [|fuel IH]; intros r Hr Hfuel; [lia|]. cbn [next_loop].
  pose proof Hr as [Ht Ho He]. rewrite (to_length _ _ _ _ Ht).
  destruct (Nat.ltb_spec (rd_block r) (length bs)) as [Hlt|Hge].
  2:{ exists r. unfold remaining. destruct (rd_entries r) as [l|] eqn:Hl.
      - apply lookup_lt_Some in He. lia.
      - rewrite drop_ge by lia. cbn. done. }
  destruct (lookup_lt_is_Some_2 bs (rd_block r) Hlt) as [b Hb].
  assert (exists r1, (match rd_entries r with None => loadCurrent r | Some _ => Ok r end) = Ok r1 /\
            reader_ok bs r1 /\ rd_entries r1 = Some b /\ rd_block r1 = rd_block r /\
            remaining bs r1 = remaining bs r /\ rd_table r1 = rd_table r) as (r1 & -> & Hr1 & He1 & Hb1 & Hrem & Ht1).
  { unfold remaining. destruct (rd_entries r) as [l|] eqn:Hl.
    - exists r. rewrite Hl. assert (l = b) as -> by congruence. done.
    - rewrite (loadCurrent_ok bs r b) by done. eexists. split; [done|]. cbn. split; [by split|].
      split; [done|]. split; [done|]. split; [|done]. rewrite (drop_S bs b _ Hb). done. }
  assert (remaining bs r = drop (rd_index r1) b ++ concat (drop (S (rd_block r1)) bs)) as Hrr.
  { rewrite <- Hrem. unfold remaining. by rewrite He1. }
  cbn [mbind result_bind]. rewrite He1, Hrr.
  destruct (b !! rd_index r1) as [e|] eqn:Hi.
  - rewrite (drop_S b e _ Hi). eexists. split; [done|]. unfold remaining. cbn [rd_entries rd_index rd_block rd_table].
    split; [|done]. destruct Hr1 as [H1 H2 H3]. split; [done|done|]. cbn. by rewrite Hb1.
  - apply lookup_ge_None in Hi. rewrite (drop_ge b) by done. cbn [app].
    destruct (IH (mkReader (rd_content r1) (rd_table r1) (rd_opts r1) (S (rd_block r1)) None 0 (rd_closed r1)))
      as (r' & Hn & Hr' & Hrem' & Ht').
    + destruct Hr1. by split.
    + cbn. lia.
    + exists r'. split; [done|]. split; [done|]. split; [done|]. by rewrite Ht'.
Qed.

(** [next] hands out the remaining entries one by one. *)
Lemma sst_next_ok bs r :
  reader_ok bs r ->
  exists r', sst_next r = Ok (head (remaining bs r), r') /\ reader_ok bs r' /\
             remaining bs r' = tail (remaining bs r).
Proof.
  intros Hr. unfold sst_next. rewrite (ro_open _ _ Hr), (to_length _ _ _ _ (ro_table _ _ Hr)).
  destruct (next_loop_ok bs (S (length bs)) r Hr ltac:(lia)) as (r' & ? & ? & ? & _). by exists r'.
Qed.

(** *** Seeking *)

Lemma filter_concat {A} (f : A -> bool) bs : List.filter f (concat bs) = concat (map (List.filter f) bs).
Proof. induction bs as [|b bs IH]; [done|]. cbn. by rewrite List.filter_app, IH. Qed.

Lemma last_key_elem b : b <> [] -> exists e, e ∈ b /\ last b = Some e /\ last_key b = ent_key e.
Proof.
  intros Hb. unfold last_key. destruct (last b) as [e|] eqn:Hl; [|by apply last_None in Hl].
  exists e. split; [|done]. by apply last_Some_elem_of.
Qed.

Lemma last_key_max b x :
  StronglySorted (key_lt ent_key) b -> x ∈ b -> ble (ent_key x) (last_key b) = true.
Proof.
  intros Hs Hx. assert (b <> []) as Hb by (by intros ->; apply elem_of_nil in Hx).
  unfold last_key. destruct (last b) as [e|] eqn:Hl; [|by apply last_None in Hl].
  apply last_Some in Hl as [b' ->]. apply strongly_app in Hs as (_ & _ & H).
  apply elem_of_app in Hx as [Hx| ->%list_elem_of_singleton]; [|apply ble_refl].
  apply blt_ble. apply H; [done|]. by apply list_elem_of_singleton.
Qed.

Lemma concat_take_drop_lookup {A} (bs : list (list A)) i b :
  bs !! i = Some b -> concat bs = concat (take i bs) ++ b ++ concat (drop (S i) bs).
Proof.
  intros Hb. rewrite <- (take_drop_middle bs i b Hb) at 1. by rewrite concat_app.
Qed.

Lemma blocks_last_sorted bs :
  Forall (fun b => b <> []) bs -> StronglySorted (key_lt ent_key) (concat bs) ->
  StronglySorted (key_lt last_key) bs.
Proof.
  intros Hne Hs. induction Hne as [|b bs Hb Hne IH]; [constructor|]. cbn in Hs.
  apply strongly_app in Hs as (Hsb & Hs & H). constructor; [by apply IH|].
  apply Forall_forall. intros c Hc. rewrite Forall_forall in Hne.
  destruct (last_key_elem b Hb) as (e & He & _ & Hk). destruct (last_key_elem c (Hne c Hc)) as (e' & He' & _ & Hk').
  unfold key_lt. rewrite Hk, Hk'. apply H; [done|]. apply list_elem_of_In, List.in_concat.
  exists c. rewrite <- !list_elem_of_In. done.
Qed.

Lemma key_at_least_map {A B} (f : A -> bytes) (g : B -> bytes) l k start i :
  map f l = map g k -> key_at_least f l start i = key_at_least g k start i.
Proof.
  intros H. unfold key_at_least. pose proof (f_equal (fun x => x !! i) H) as Hi.
  change ((f <$> l) !! i = (g <$> k) !! i) in Hi. rewrite !list_lookup_fmap in Hi.
  destruct (l !! i), (k !! i); cbn in Hi; congruence.
Qed.

Lemma search_ext fuel f g i j : (forall n, f n = g n) -> sort.search fuel f i j = sort.search fuel g i j.
Proof.
  intros H. revert i j. induction fuel as [|fuel IH]; intros i j; cbn [sort.search]; [done|].
  destruct (i <? j)%nat; [|done]. cbv zeta. rewrite H. destruct (negb _); apply IH.
Qed.

Lemma seek_ok bs r start :
  reader_ok bs r ->
  exists r', seek r start = Ok r' /\ reader_ok bs r' /\
    remaining bs r' = match start with
                      | None => if (length bs =? 0)%nat then remaining bs r else concat bs
                      | Some k => if (length bs =? 0)%nat then remaining bs r
                                  else List.filter (at_least ent_key k) (concat bs)
                      end.
Proof.
  intros Hr. pose proof Hr as [Ht Ho He]. pose proof Ht as [Hlen Hread Hne Hlast Hs _].
  unfold seek. rewrite Hlen. destruct (Nat.eqb_spec (length bs) 0) as [Hz|Hz].
  { exists r. split; [done|]. split; [done|]. by destruct start. }
  destruct start as [k|].
  - unfold sort.Search. rewrite (search_ext _ _ (key_at_least last_key bs k)) by (intros; by apply key_at_least_map).
    fold (sort.Search (length bs) (key_at_least last_key bs k)).
    pose proof (blocks_last_sorted bs Hne Hs) as Hbs.
    destruct (sort.Search_spec _ _ (key_at_least_monotone last_key bs k Hbs)) as (Hn & Hlo & Hhi).
    set (i := sort.Search _ _) in *. cbv zeta.
    assert (List.filter (at_least ent_key k) (concat (take i bs)) = []) as Hbefore.
    { apply List_filter_none. intros x (b & Hb & Hx)%list_elem_of_In%List.in_concat.
      apply list_elem_of_In in Hb, Hx. apply elem_of_take_lookup in Hb as (j & Hj & Hb).
      specialize (Hlo j Hj). unfold key_at_least in Hlo. rewrite Hb in Hlo.
      unfold at_least. rewrite ble_blt, negb_false_iff. rewrite ble_blt, negb_false_iff in Hlo.
      eapply ble_lt_trans; [|exact Hlo]. apply last_key_max; [|done].
      rewrite (concat_take_drop_lookup bs j b Hb) in Hs. apply strongly_app in Hs as (_ & Hs & _).
      by apply strongly_app in Hs as (Hs & _). }
    destruct (Nat.leb_spec (length bs) i) as [Hge|Hlt].
    + eexists. split; [done|]. split; [by split|]. unfold remaining. cbn.
      rewrite drop_ge by done. rewrite take_ge in Hbefore by done. by rewrite Hbefore.
    + destruct (lookup_lt_is_Some_2 bs i Hlt) as [b Hb].
      rewrite (loadCurrent_ok bs _ b) by (done || by split). cbn [mbind result_bind rd_entries rd_block rd_content rd_table rd_opts rd_closed].
      eexists. split; [done|]. split; [by split|]. unfold remaining. cbn [rd_entries rd_index rd_block].
      rewrite (concat_take_drop_lookup bs i b Hb) in Hs |- *. rewrite !List.filter_app, Hbefore. cbn [app].
      apply strongly_app in Hs as (_ & Hs & _). apply strongly_app in Hs as (Hsb & _ & Hlater).
      fold (sort.Search (length b) (key_at_least ent_key b k)). rewrite drop_Search by done. f_equal. symmetry. apply List_filter_all. intros x Hx.
      unfold at_least. rewrite Forall_forall in Hne.
      destruct (last_key_elem b) as (e & Hein & _ & Hek); [apply Hne; by eapply list_elem_of_lookup_2|].
      specialize (Hhi i ltac:(lia)). unfold key_at_least in Hhi. rewrite Hb, Hek in Hhi.
      apply blt_ble. eapply ble_lt_trans; [exact Hhi|]. by apply Hlater.
  - cbv zeta. destruct (lookup_lt_is_Some_2 bs 0%nat ltac:(lia)) as [b Hb].
    rewrite (proj2 (Nat.leb_gt _ _)) by lia. rewrite (loadCurrent_ok bs _ b) by (done || by split).
    eexists. split; [done|]. split; [by split|]. unfold remaining. cbn. rewrite drop_0.
    destruct bs; [done|]. by injection Hb as ->.
Qed.

(** ** The layout an encoder produces *)

Definition payload_of (b : list sstEntry) : bytes := concat (map record_bytes b).
Definition block_of (b : list sstEntry) : bytes := block_bytes (payload_of b) (len b).
Fixpoint index_of (off : Z) (bs : list (list sstEntry)) : list sstBlockIndex :=
  match bs with
  | [] => []
  | b :: bs' => mkBlockIndex off (uint32 (len (block_of b))) (first_key b) (last_key b)
                :: index_of (off + len (block_of b)) bs'
  end.
Definition body_of (bs : list (list sstEntry)) : bytes := concat (map block_of bs).

Lemma len_record_bytes e : len (record_bytes e) = 1 + 4 + 4 + len (ent_key e) + len (ent_value e) + 4.
Proof. unfold record_bytes, record_body. autorewrite with len. lia. Qed.

Lemma fill_block_spec opts l : forall payload taken p' t' rest,
  0 <= SSTBlockBytes opts ->
  fill_block opts l payload taken = Ok (p', t', rest) ->
  exists k, l = k ++ rest /\ t' = taken ++ k /\ p' = payload ++ payload_of k /\
    (payload = [] -> l <> [] -> k <> []) /\ len p' <= Z.max (len payload) (maxSSTBlockPayload opts).
Proof.
  induction l as [|e l IH]; intros payload taken p' t' rest Hb; cbn [fill_block].
  - intros [= <- <- <-]. exists []. unfold payload_of. cbn. rewrite !app_nil_r. split_and!; try done. lia.
  - intros H. inv_res. bool_to_prop.
    destruct (_ && _) eqn:Hstop.
    + inv_res. exists []. unfold payload_of. cbn. rewrite !app_nil_r. split_and!; try done; [|lia].
      intros -> _. apply andb_true_iff in Hstop as [Hs _]. by apply Z.ltb_lt in Hs.
    + apply IH in H as (k & -> & -> & -> & _ & Hmax); [|done]. exists (e :: k).
      unfold payload_of in *. cbn [map concat]. rewrite <- !app_assoc. split_and!; try done.
      rewrite !len_app, len_record_bytes in *. pose proof (len_nonneg payload). pose proof (len_nonneg (ent_key e)).
      pose proof (len_nonneg (ent_value e)).
      assert (SSTBlockBytes opts <= maxSSTBlockPayload opts).
      { unfold maxSSTBlockPayload. destruct (Z.ltb_spec (SSTBlockBytes opts)
          (1 + 4 + 4 + MaxKeyBytes opts + MaxValueBytes opts + 4)); lia. }
      apply andb_false_iff in Hstop as [Hs%Z.ltb_ge|Hs%Z.ltb_ge]; lia.
Qed.

Lemma build_blocks_spec opts fuel : forall l body indexes body' indexes',
  0 <= SSTBlockBytes opts -> (length l <= fuel)%nat ->
  build_blocks fuel opts l body indexes = Ok (body', indexes') ->
  exists bs, concat bs = l /\ Forall (fun b => b <> []) bs /\
    Forall (fun b => len (payload_of b) <= maxSSTBlockPayload opts) bs /\
    body' = body ++ body_of bs /\ indexes' = indexes ++ index_of (len body) bs.
Proof.
  induction fuel as [|fuel IH]; intros l body indexes body' indexes' Hb Hf; cbn [build_blocks].
  { destruct l; [|cbn in Hf; lia]. intros [= <- <-]. exists []. unfold body_of. cbn. by rewrite !app_nil_r. }
  destruct (Z.leb_spec (len l) 0) as [Hl|Hl].
  { destruct l; [|rewrite len_cons in Hl; pose proof (len_nonneg l); lia].
    intros [= <- <-]. exists []. unfold body_of. cbn. by rewrite !app_nil_r. }
  intros H. inv_res. destruct r as [[payload taken] rest]. inv_res. bool_to_prop.
  apply fill_block_spec in Hr as (k & -> & -> & -> & Hne & Hmax); [|done]. cbn [app] in *.
  assert (k <> []) as Hk by (by intros ->).
  apply IH in H as (bs & <- & Hnes & Hps & -> & ->); [|done|].
  2:{ rewrite length_app in Hf. destruct k; [done|cbn in Hf; lia]. }
  exists (k :: bs). unfold body_of. cbn [concat map index_of]. rewrite <- !app_assoc. fold (block_of k).
  split; [done|]. split; [by constructor|]. split.
  { constructor; [|done]. rewrite len_nil in Hmax.
    unfold maxSSTBlockPayload in *. destruct (_ <? _) eqn:E; bool_to_prop; lia. }
  split; [done|]. rewrite len_app. done.
Qed.

(** *** Decoding a block *)

Lemma decode_entry_step opts n e rest acc :
  opts_ok opts -> op_valid opts (op_of e) ->
  decode_entries opts (S n) (record_bytes e ++ rest) acc = decode_entries opts n rest (acc ++ [e]).
Proof.
  intros Ho Hv. destruct e as [kind key value].
  pose proof Hv as [Hk Hkind]%op_valid_spec. unfold opts_ok, op_of in *. cbn [op_key op_kind op_value ent_kind ent_key ent_value] in *.
  pose proof (len_nonneg key). pose proof (len_nonneg value). pose proof (len_nonneg rest).
  set (e := mkEntry kind key value).
  pose proof (len_record_bytes e) as Hrl. change (ent_key e) with key in Hrl. change (ent_value e) with value in Hrl.
  assert (len value <= MaxValueBytes opts) as Hvl.
  { destruct Hkind as [[_ ?]|[_ ->]]; [done|]. rewrite len_nil. lia. }
  assert (record_bytes e ++ rest
          = kind :: be 4 (len key) ++ be 4 (len value) ++ key ++ value ++ be 4 (crc32.Checksum (record_body e)) ++ rest) as Hw.
  { unfold record_bytes. unfold record_body at 1. cbn [ent_kind ent_key ent_value e app]. by rewrite <- !app_assoc. }
  assert (sub (record_bytes e ++ rest) 0 (len (record_bytes e)) = record_bytes e) as Hrec.
  { apply (sub_app_mid [] (record_bytes e) rest); [done|]. rewrite len_nil. lia. }
  assert (drop (Z.to_nat (len (record_bytes e))) (record_bytes e ++ rest) = rest) as Hdrop.
  { by rewrite len_to_nat, drop_app_length. }
  assert (len (record_bytes e ++ rest) = len (record_bytes e) + len rest) as Hwl by apply len_app.
  assert (sub (record_bytes e ++ rest) 1 5 = be 4 (len key)) as H15 by (by rewrite Hw).
  assert (sub (record_bytes e ++ rest) 5 9 = be 4 (len value)) as H59 by (by rewrite Hw).
  assert (exists tl, record_bytes e ++ rest = kind :: tl) as [tl Htl] by (rewrite Hw; by eexists).
  set (whole := record_bytes e ++ rest) in *. clearbody whole.
  cbn [decode_entries]. rewrite Htl. cbv zeta. rewrite <- Htl.
  unfold max_uint32 in *.
  rewrite fail_if_false by (apply Z.ltb_ge; lia).
  rewrite H15, H59, !un_be_be_small by (cbn; lia). rewrite <- Hrl.
  rewrite fail_if_false.
  2:{ rewrite !orb_false_iff, !Z.ltb_ge. split_and!; try lia.
      - destruct Hkind as [[-> _]|[-> ->]]; done.
      - destruct Hkind as [[-> _]|[-> _]]; done. }
  rewrite Hrec, Hdrop.
  assert (len (record_bytes e) - 4 = len (record_body e)) as Hm4.
  { unfold record_bytes. rewrite len_app, len_be. lia. }
  assert (sub (record_bytes e) 0 (len (record_bytes e) - 4) = record_body e) as Hbody.
  { rewrite Hm4. unfold record_bytes. apply (sub_app_mid [] (record_body e)); [done|]. rewrite len_nil. lia. }
  assert (sub (record_bytes e) (len (record_bytes e) - 4) (len (record_bytes e)) = be 4 (crc32.Checksum (record_body e))) as Hcrc.
  { rewrite Hm4. unfold record_bytes at 1. apply sub_suffix; [done|]. rewrite len_be. lia. }
  rewrite Hcrc, Hbody, crc32.un_be_Checksum. rewrite fail_if_false by (by rewrite Z.eqb_refl).
  assert (record_bytes e = ([kind] ++ be 4 (len key) ++ be 4 (len value)) ++ key ++ value ++ be 4 (crc32.Checksum (record_body e))) as Hr9.
  { unfold record_bytes. unfold record_body at 1. cbn [ent_kind ent_key ent_value e app]. by rewrite <- !app_assoc. }
  assert (sub (record_bytes e) 9 (9 + len key) = key) as ->.
  { rewrite Hr9. by apply sub_app_mid. }
  assert (sub (record_bytes e) (9 + len key) (9 + len key + len value) = value) as ->.
  { rewrite Hr9, app_assoc. apply sub_app_mid; rewrite len_app; done. }
  done.
Qed.

Lemma decode_entries_ok opts b : forall rest acc,
  opts_ok opts -> Forall (fun e => op_valid opts (op_of e)) b ->
  decode_entries opts (length b) (payload_of b ++ rest) acc = Ok (acc ++ b, rest).
Proof.
  intros rest acc Ho Hf. revert acc. induction Hf as [|e b He Hf IH]; intros acc.
  - cbn. by rewrite app_nil_r.
  - cbn [length]. unfold payload_of. cbn [map concat]. rewrite <- app_assoc.
    rewrite decode_entry_step by done. fold (payload_of b). rewrite IH. by rewrite <- app_assoc.
Qed.

Lemma payload_13 b : 13 * len b <= len (payload_of b).
Proof.
  unfold payload_of. induction b as [|e b IH]; [done|]. cbn [map concat].
  rewrite len_cons, len_app, len_record_bytes. pose proof (len_nonneg (ent_key e)). pose proof (len_nonneg (ent_value e)). lia.
Qed.

Lemma decodeSSTBlock_ok opts b :
  opts_ok opts -> Forall (fun e => op_valid opts (op_of e)) b -> b <> [] ->
  StronglySorted (key_lt ent_key) b -> len (payload_of b) <= max_uint32 ->
  decodeSSTBlock (payload_of b) (len b) opts = Ok b.
Proof.
  intros Ho Hf Hne Hs Hmax. unfold decodeSSTBlock.
  pose proof (payload_13 b) as H13. pose proof (len_nonneg b).
  assert (len b <> 0) by (intros ?%len_zero_nil; done).
  rewrite fail_if_false.
  2:{ apply orb_false_iff. rewrite Z.eqb_neq, Z.ltb_ge. split; [done|].
      assert (len b <= len (payload_of b) / 13) by (apply Z.div_le_lower_bound; lia).
      assert (len (payload_of b) / 13 <= len (payload_of b)) by (apply Z.div_le_upper_bound; lia).
      unfold uint32, max_uint32 in *. rewrite Z.mod_small by lia. done. }
  rewrite len_to_nat, <- (app_nil_r (payload_of b)), decode_entries_ok by done. cbn [mbind result_bind].
  rewrite fail_if_false by done. rewrite fail_if_false; [done|].
  apply negb_false_iff. by apply increasing_strongly.
Qed.

(** *** Loading the index *)

Fixpoint metas_of (off : Z) (bs : list (list sstEntry)) : list sstBlockMeta :=
  match bs with
  | [] => []
  | b :: bs' => mkBlockMeta off (len (block_of b)) (first_key b) (last_key b)
                :: metas_of (off + len (block_of b)) bs'
  end.

Definition entries_ok (opts : Options) (l : list sstEntry) : Prop :=
  Forall (fun e => op_valid opts (op_of e)) l /\ StronglySorted (key_lt ent_key) l.

Lemma entries_ok_app opts l k : entries_ok opts (l ++ k) -> entries_ok opts l /\ entries_ok opts k.
Proof. intros [Hf Hs]. apply Forall_app in Hf as [? ?]. apply strongly_app in Hs as (? & ? & _). done. Qed.

Lemma len_block_of b : len (block_of b) = blockHeaderLen + len (payload_of b).
Proof. unfold block_of, block_bytes. rewrite !len_app, !len_be. change (len blockMagic) with 4. unfold blockHeaderLen. lia. Qed.

Lemma valid_key_len opts e : op_valid opts (op_of e) -> 1 <= len (ent_key e) <= MaxKeyBytes opts.
Proof. by intros [? _]%op_valid_spec. Qed.

Lemma block_keys opts b :
  entries_ok opts b -> b <> [] ->
  1 <= len (first_key b) <= MaxKeyBytes opts /\ 1 <= len (last_key b) <= MaxKeyBytes opts /\
  ble (first_key b) (last_key b) = true.
Proof.
  intros [Hf Hs] Hne. rewrite Forall_forall in Hf.
  destruct (last_key_elem b Hne) as (e & He & _ & ->). destruct b as [|x b]; [done|]. cbn [first_key].
  split; [apply valid_key_len, Hf; left|]. split; [by apply valid_key_len, Hf|].
  apply StronglySorted_inv in Hs as [_ Hx]. rewrite Forall_forall in Hx.
  apply elem_of_cons in He as [->|He]; [apply ble_refl|]. by apply blt_ble, Hx.
Qed.

Lemma index_entry_fields off length first last rest
    (whole := index_entry (mkBlockIndex off length first last) ++ rest) :
  sub whole 0 8 = be 8 off /\ sub whole 8 12 = be 4 length /\
  sub whole 12 16 = be 4 (len first) /\ sub whole 16 20 = be 4 (len last) /\
  drop 20 whole = first ++ last ++ rest.
Proof. unfold whole, index_entry. cbn [bi_offset bi_length bi_first bi_last]. rewrite <- !app_assoc. done. Qed.

Lemma int64_small z : 0 <= z <= max_int64 -> int64 z = z.
Proof. unfold int64, max_int64. intros. rewrite Z.mod_small by lia. lia. Qed.

Lemma read_index_ok opts bs : forall rest off previous bodyLen acc,
  opts_ok opts -> Forall (fun b => b <> []) bs -> entries_ok opts (concat bs) ->
  0 <= off -> off + len (body_of bs) <= bodyLen -> bodyLen <= max_uint32 ->
  (match previous, bs with Some p, b :: _ => blt p (first_key b) = true | _, _ => True end) ->
  read_index opts (length bs) (concat (map index_entry (index_of off bs)) ++ rest) off previous bodyLen acc
  = Ok (acc ++ metas_of off bs, rest, off + len (body_of bs)).
Proof.
  induction bs as [|b bs IH]; intros rest off previous bodyLen acc Ho Hne Hok Hoff Hbody Hmax Hprev.
  { cbn. rewrite app_nil_r. do 2 f_equal. unfold body_of. cbn. rewrite len_nil. lia. }
  apply Forall_cons in Hne as [Hb Hne]. cbn [concat] in Hok. pose proof (proj2 Hok) as Hsorted.
  apply entries_ok_app in Hok as [Hokb Hok].
  destruct (block_keys opts b Hokb Hb) as (Hfk & Hlk & Hfl).
  assert (body_of (b :: bs) = block_of b ++ body_of bs) as Hbo by done. rewrite Hbo, len_app in *.
  pose proof (len_block_of b) as Hlb. pose proof (len_nonneg (payload_of b)). pose proof (len_nonneg (body_of bs)).
  unfold opts_ok, blockHeaderLen, max_uint32 in *.
  cbn [length index_of map concat]. rewrite <- app_assoc.
  assert (uint32 (len (block_of b)) = len (block_of b)) as Hu by (unfold uint32; apply Z.mod_small; lia).
  rewrite Hu. set (tail := concat (map index_entry (index_of (off + len (block_of b)) bs)) ++ rest).
  destruct (index_entry_fields off (len (block_of b)) (first_key b) (last_key b) tail) as (F1 & F2 & F3 & F4 & F5).
  set (whole := index_entry _ ++ tail) in *.
  assert (len whole = 20 + len (first_key b) + len (last_key b) + len tail) as Hwl.
  { unfold whole, index_entry. cbn [bi_offset bi_length bi_first bi_last]. rewrite !len_app, !len_be. lia. }
  pose proof (len_nonneg tail). clearbody whole. cbn [read_index].
  rewrite fail_if_false by (apply Z.ltb_ge; lia). rewrite F1, F2, F3, F4, F5.
  repeat (rewrite un_be_be_small by solve_width).
  rewrite fail_if_false by (rewrite !orb_false_iff, !Z.ltb_ge, !len_app; lia).
  rewrite !len_to_nat, take_app_length, drop_app_length, take_app_length, drop_app_length.
  rewrite fail_if_false.
  2:{ apply orb_false_iff. split.
      - by apply blt_false.
      - destruct previous as [p|]; [|done]. rewrite ble_blt. by rewrite Hprev. }
  rewrite (int64_small off) by (unfold max_int64; lia).
  rewrite (int64_small (off + len (block_of b))) by (unfold max_int64; lia).
  rewrite fail_if_false.
  2:{ rewrite !orb_false_iff, !Z.ltb_ge, Z.eqb_refl. split_and!; try done; unfold blockHeaderLen; lia. }
  unfold uint64. rewrite Z.mod_small by lia. unfold tail. rewrite IH; try done; try lia.
  - cbn [metas_of]. rewrite <- app_assoc. do 2 f_equal. lia.
  - destruct bs as [|b' bs]; [done|]. cbn [concat] in Hsorted. apply strongly_app in Hsorted as (_ & _ & Hcross).
    apply Forall_cons in Hne as [Hb' _]. destruct b' as [|x b']; [done|]. cbn [first_key].
    destruct (last_key_elem b Hb) as (e & He & _ & ->). apply Hcross; [done|left].
Qed.

(** *** Reading a block back *)

Lemma metas_of_lookup bs : forall off i b,
  bs !! i = Some b ->
  metas_of off bs !! i = Some (mkBlockMeta (off + len (body_of (take i bs))) (len (block_of b)) (first_key b) (last_key b)).
Proof.
  induction bs as [|c bs IH]; intros off i b Hi; [done|]. destruct i as [|i]; cbn [metas_of].
  - injection Hi as ->. unfold body_of. cbn. by rewrite Z.add_0_r.
  - change (metas_of (off + len (block_of c)) bs !! i
            = Some (mkBlockMeta (off + len (block_of c ++ body_of (take i bs))) (len (block_of b)) (first_key b) (last_key b))).
    rewrite (IH _ i b Hi), len_app. do 2 f_equal. lia.
Qed.

Lemma length_metas_of off bs : length (metas_of off bs) = length bs.
Proof. revert off. induction bs; intros; cbn; auto. Qed.

Lemma metas_of_last off bs : map bm_last (metas_of off bs) = map last_key bs.
Proof. revert off. induction bs as [|b bs IH]; intros off; cbn; [done|]. by rewrite IH. Qed.

Lemma body_of_split bs i b :
  bs !! i = Some b -> body_of bs = body_of (take i bs) ++ block_of b ++ body_of (drop (S i) bs).
Proof.
  intros Hi. unfold body_of. rewrite <- (take_drop_middle bs i b Hi) at 1. by rewrite map_app, concat_app.
Qed.

Lemma block_fields payload count (raw := block_bytes payload count) :
  sub raw 0 4 = blockMagic /\ sub raw 4 8 = be 4 (len payload) /\ sub raw 8 12 = be 4 count /\
  sub raw 12 16 = be 4 (crc32.Checksum payload) /\ sub raw 16 (len raw) = payload.
Proof.
  unfold raw, block_bytes. split_and!; try done.
  rewrite !app_assoc. apply sub_suffix; [done|]. by rewrite len_app.
Qed.

Lemma readBlock_ok opts header rest bs i b t :
  opts_ok opts -> len header = sstHeaderLen -> entries_ok opts b -> b <> [] -> bs !! i = Some b ->
  tb_blocks t = metas_of 0 bs -> len (body_of bs) <= max_uint32 ->
  len (payload_of b) <= maxSSTBlockPayload opts ->
  readBlock (header ++ body_of bs ++ rest) t opts i = Ok (b, block_of b).
Proof.
  intros Ho Hh [Hf Hs] Hne Hi Ht Hmax Hpay. unfold readBlock. rewrite Ht, (metas_of_lookup bs 0 i b Hi).
  cbn [bm_offset bm_length]. cbv zeta.
  pose proof (body_of_split bs i b Hi) as Hsplit. pose proof (len_block_of b) as Hlb.
  assert (sub (header ++ body_of bs ++ rest) (sstHeaderLen + (0 + len (body_of (take i bs))))
            (sstHeaderLen + (0 + len (body_of (take i bs))) + len (block_of b)) = block_of b) as ->.
  { rewrite Hsplit, <- !app_assoc, app_assoc. apply sub_app_mid; rewrite len_app, Hh; lia. }
  assert (len (block_of b) <= max_uint32) as Hbm.
  { rewrite Hsplit, !len_app in Hmax. pose proof (len_nonneg (body_of (take i bs))).
    pose proof (len_nonneg (body_of (drop (S i) bs))). lia. }
  destruct (block_fields (payload_of b) (len b)) as (F1 & F2 & F3 & F4 & F5). fold (block_of b) in *.
  pose proof (len_nonneg (payload_of b)). pose proof (payload_13 b). pose proof (len_nonneg b).
  assert (len b <> 0) by (intros ?%len_zero_nil; done).
  unfold blockHeaderLen, max_uint32 in *.
  rewrite F1, F2, F3, F4, F5, crc32.un_be_Checksum. repeat (rewrite un_be_be_small by solve_width).
  rewrite fail_if_false by (rewrite beq_refl; apply orb_false_iff; rewrite Z.ltb_ge; split; [unfold blockHeaderLen; lia|done]).
  rewrite fail_if_false.
  2:{ rewrite !orb_false_iff, !Z.ltb_ge, Z.eqb_refl, Z.eqb_neq, negb_false_iff, Z.eqb_eq.
      assert (len b <= len (payload_of b) / 13) by (apply Z.div_le_lower_bound; lia).
      assert (len (payload_of b) / 13 <= len (payload_of b)) by (apply Z.div_le_upper_bound; lia).
      unfold uint32. rewrite Z.mod_small by lia. unfold blockHeaderLen. split_and!; try done; lia. }
  rewrite decodeSSTBlock_ok by (done || unfold max_uint32; lia). done.
Qed.

(** *** The encoder's checks *)

Lemma check_entries_ok opts l : forall previous,
  check_entries opts previous l = Ok tt -> Sorted (key_le ent_key) l ->
  Forall (fun e => op_valid opts (op_of e)) l /\ keys_increasing (map ent_key l) = true /\
  (match previous, l with Some p, e :: _ => p <> ent_key e | _, _ => True end).
Proof.
  induction l as [|e l IH]; intros previous H Hs; cbn [check_entries] in H.
  { split; [constructor|]. by destruct previous. }
  inv_res. apply Sorted_inv in Hs as [Hs Hhd]. apply IH in H as (Hf & Hi & Hd); [|done].
  split; [by constructor|]. split.
  - cbn [map]. apply keys_increasing_cons. split; [|done]. destruct l as [|e' l]; [done|]. cbn [map].
    inversion Hhd as [|? ? Hle]; subst. unfold key_le in Hle. apply ble_cases in Hle as [?|?]; done.
  - destruct previous as [p|]; [|done]. by apply beq_false.
Qed.

Lemma header_fields level id maxLSN n m k (h := header_bytes level id maxLSN n m k) :
  sub h 0 4 = sstMagic /\ sub h 4 6 = [sstVersion; level] /\ un_be (sub h 6 8) = 0 /\
  sub h 36 40 = be 4 (crc32.Checksum (sub h 0 36)) /\ sub h 8 16 = be 8 id /\
  sub h 24 28 = be 4 n /\ sub h 28 32 = be 4 m /\ sub h 32 36 = be 4 k.
Proof. unfold h, header_bytes. split_and!; try done. Qed.

Lemma footer_fields a b c d (f := footer_bytes a b c d) :
  sub f 0 4 = footerMagic /\ sub f 4 6 = [sstVersion; x00] /\ un_be (sub f 6 8) = 0 /\
  sub f 20 24 = be 4 c /\ sub f 28 32 = be 4 (crc32.Checksum (sub f 0 28)) /\
  sub f 8 16 = be 8 a /\ sub f 16 20 = be 4 b /\ sub f 24 28 = be 4 d.
Proof. unfold f, footer_bytes. split_and!; try done. Qed.

Lemma decimal_digits k n : forallb is_digit (decimal k n) = true.
Proof.
  revert n. induction k as [|k IH]; intros n; cbn [decimal]; [done|].
  rewrite forallb_app, IH. cbn [forallb andb]. rewrite andb_true_r.
  apply digit_byte. pose proof (Z.mod_pos_bound n 10 ltac:(lia)). lia.
Qed.

Lemma fold_decimal k n :
  0 <= n < 10 ^ Z.of_nat k -> fold_left (fun acc b => acc * 10 + (u8 b - 48)) (decimal k n) 0 = n.
Proof.
  revert n. induction k as [|k IH]; intros n Hn; cbn [decimal].
  - cbn in *. lia.
  - pose proof (Z.mod_pos_bound n 10 ltac:(lia)). pose proof (Z.div_mod n 10 ltac:(lia)).
    rewrite fold_left_app, IH.
    2:{ split; [apply Z.div_pos; lia|]. apply Z.div_lt_upper_bound; [lia|].
        rewrite Nat2Z.inj_succ, Z.pow_succ_r in Hn by lia. lia. }
    cbn [fold_left]. destruct (digit_byte (n mod 10)) as [_ ->]; lia.
Qed.

Lemma parseNumberName_ok prefix suffix n :
  is_u64 n -> parseNumberName (prefix ++ decimal 20 n ++ suffix) prefix suffix = Some n.
Proof.
  intros Hn. unfold parseNumberName, cut_prefix. rewrite take_app_length, beq_refl, drop_app_length.
  cbn [mbind option_bind]. unfold cut_suffix. rewrite length_app.
  replace (length (decimal 20 n) + length suffix - length suffix)%nat with (length (decimal 20 n)) by lia.
  rewrite drop_app_length, beq_refl, take_app_length. cbn [mbind option_bind].
  unfold len. rewrite length_decimal, decimal_digits. cbn [negb orb].
  replace (negb (Z.of_nat 20 =? 20)) with false by done. cbn [orb]. unfold parse_uint, is_u64, max_uint64 in *.
  rewrite fold_decimal by (cbn; lia). by rewrite (proj2 (Z.leb_le _ _)) by lia.
Qed.

Lemma validSSTName_ok id : validSSTName (sstBaseName id) = true.
Proof.
  unfold validSSTName, sstBaseName.
  assert (len (lit "sst-" ++ decimal 20 id ++ lit ".sst") = 28) as Hl.
  { rewrite !len_app. unfold len at 2. by rewrite length_decimal. }
  rewrite Hl. change (take 4 (lit "sst-" ++ _)) with (lit "sst-").
  replace (length (lit "sst-" ++ decimal 20 id ++ lit ".sst") - 4)%nat with (length (lit "sst-" ++ decimal 20 id)).
  2:{ rewrite !length_app, length_decimal. done. }
  rewrite app_assoc, drop_app_length, !beq_refl, <- app_assoc. cbn [negb orb andb].
  replace (negb (28 =? 28) || (maxSSTNameLen <? 28) || (28 <? 9)) with false by done. cbn [negb orb andb].
  rewrite sub_app_mid; [apply decimal_digits|done|]. unfold len. by rewrite length_decimal.
Qed.

(** ** An encoded table loads and reads back *)

Section encoded.
Context (opts : Options) (Hopts : opts_ok opts).
Context (level : byte) (id maxLSN : Z) (bs : list (list sstEntry)).

Definition layout : bytes :=
  header_bytes level id maxLSN (len (concat bs)) (len bs) (len (body_of bs)) ++ body_of bs
  ++ concat (map index_entry (index_of 0 bs))
  ++ footer_bytes (sstHeaderLen + len (body_of bs)) (len (concat (map index_entry (index_of 0 bs)))) (len bs)
       (crc32.Checksum (body_of bs)).
Definition layout_meta : sstFile :=
  mkSstFile (sstBaseName id) level (first_key (concat bs)) (last_key (concat bs)) (len (concat bs)) (len layout).
Definition layout_table : sstTable :=
  mkTable (metas_of 0 bs) (len (concat bs)) (len (body_of bs)) (crc32.Checksum (body_of bs)).

Record layout_ok : Prop := {
  ly_level : u8 level <= 1;
  ly_id : is_u64 id;
  ly_blocks : bs <> [];
  ly_nonempty : Forall (fun b => b <> []) bs;
  ly_payload : Forall (fun b => len (payload_of b) <= maxSSTBlockPayload opts) bs;
  ly_entries : entries_ok opts (concat bs);
  ly_count : len (concat bs) <= max_uint32;
  ly_index : len (concat (map index_entry (index_of 0 bs))) <= max_uint32;
  ly_nblocks : len bs <= max_uint32;
  ly_body : len (body_of bs) <= max_uint32;
  ly_size : len layout <= MaxSSTBytes opts
}.
Context (Hok : layout_ok).

Lemma layout_len :
  len layout = sstHeaderLen + len (body_of bs) + len (concat (map index_entry (index_of 0 bs))) + sstFooterLen.
Proof.
  unfold layout. rewrite !len_app. change (len (header_bytes _ _ _ _ _ _)) with sstHeaderLen.
  change (len (footer_bytes _ _ _ _)) with sstFooterLen. lia.
Qed.

Lemma layout_body_pos : blockHeaderLen <= len (body_of bs) /\ 20 <= len (concat (map index_entry (index_of 0 bs))).
Proof.
  destruct bs as [|b bs'] eqn:E; [by destruct (ly_blocks Hok)|]. split.
  - unfold body_of. cbn [map concat]. rewrite len_app, len_block_of.
    pose proof (len_nonneg (payload_of b)). pose proof (len_nonneg (concat (map block_of bs'))). lia.
  - cbn [index_of map concat]. rewrite len_app. unfold index_entry at 1. rewrite !len_app, !len_be.
    cbn [bi_first bi_last]. pose proof (len_nonneg (first_key b)). pose proof (len_nonneg (last_key b)).
    pose proof (len_nonneg (concat (map index_entry (index_of (0 + len (block_of b)) bs')))). lia.
Qed.

Lemma layout_entries_pos : 1 <= len bs /\ 1 <= len (concat bs).
Proof.
  pose proof (ly_nonempty Hok) as Hne. pose proof (ly_blocks Hok) as Hb.
  destruct bs as [|b bs']; [done|]. apply Forall_cons in Hne as [Hb' _]. destruct b as [|e b]; [done|].
  rewrite len_cons. cbn [concat app]. rewrite len_cons. pose proof (len_nonneg bs'). pose proof (len_nonneg (b ++ concat bs')). lia.
Qed.

Lemma loadIndex_layout : loadIndex layout layout_meta opts = Ok layout_table.
Proof.
  pose proof layout_len as Hlen. pose proof layout_body_pos as [Hb1 Hb2]. pose proof layout_entries_pos as [He1 He2].
  destruct Hok as [_ Hid Hbs Hne Hpay Hents Hcnt Hidx Hnb Hbody Hsize].
  unfold loadIndex. cbv zeta. cbn [sst_bytes sst_level sst_name layout_meta].
  set (body := body_of bs) in *. set (index := concat (map index_entry (index_of 0 bs))) in *.
  set (n := len (concat bs)) in *. set (m := len bs) in *.
  destruct (header_fields level id maxLSN n m (len body)) as (H1 & H2 & H3 & H4 & H5 & H6 & H7 & H8).
  destruct (footer_fields (sstHeaderLen + len body) (len index) m (crc32.Checksum body))
    as (F1 & F2 & F3 & F4 & F5 & F6 & F7 & F8).
  set (h := header_bytes _ _ _ _ _ _) in *. set (f := footer_bytes _ _ _ _) in *.
  assert (layout = h ++ body ++ index ++ f) as Hlay by done.
  assert (len h = 40) as Hh by done. assert (len f = 32) as Hf by done.
  unfold sstHeaderLen, sstFooterLen, blockHeaderLen, opts_ok in *.
  assert (sub layout 0 40 = h) as ->.
  { rewrite Hlay. apply (sub_app_mid [] h); [done|]. rewrite len_nil. lia. }
  assert (sub layout (len layout - 32) (len layout) = f) as ->.
  { rewrite Hlay, !app_assoc. apply sub_suffix; rewrite !len_app; lia. }
  set (file := layout) in *. clearbody h f file.
  pose proof (len_nonneg body). pose proof (len_nonneg index). unfold max_uint32 in *.
  rewrite fail_if_false.
  2:{ rewrite !orb_false_iff, !Z.ltb_ge, Z.eqb_refl, andb_false_r. split_and!; try done; lia. }
  rewrite H1, H2, H3, H4, crc32.un_be_Checksum, !beq_refl, !Z.eqb_refl. rewrite fail_if_false by done.
  rewrite H5, H6, H7, H8. unfold is_u64, max_uint64 in *. repeat (rewrite un_be_be_small by solve_width).
  rewrite fail_if_false.
  2:{ unfold sstBaseName. rewrite parseNumberName_ok by done. by rewrite Z.eqb_refl. }
  rewrite fail_if_false by (rewrite !orb_false_iff, !Z.ltb_ge, !Z.eqb_neq; lia).
  rewrite F1, F2, F3, F4, F5, crc32.un_be_Checksum. repeat (rewrite un_be_be_small by solve_width).
  rewrite !beq_refl, !Z.eqb_refl. rewrite fail_if_false by done.
  rewrite F6, F7. repeat (rewrite un_be_be_small by solve_width).
  rewrite int64_small by (unfold max_int64; lia).
  rewrite fail_if_false.
  2:{ rewrite !orb_false_iff, !Z.ltb_ge, !negb_false_iff, !Z.eqb_eq. lia. }
  assert (sub file (40 + len body) (40 + len body + len index) = index) as ->.
  { rewrite Hlay, app_assoc. apply sub_app_mid; rewrite len_app; lia. }
  assert (read_index opts (Z.to_nat m) index 0 None (len body) [] = Ok (metas_of 0 bs, [], 0 + len body)) as ->.
  { unfold m. rewrite len_to_nat, <- (app_nil_r index). apply read_index_ok; try done. }
  cbn [mbind result_bind].
  rewrite Z.add_0_l. unfold uint32. rewrite int64_small by (unfold max_int64; lia).
  assert (len (metas_of 0 bs) = m) as -> by (unfold m, len; by rewrite length_metas_of).
  rewrite Z.mod_small by lia. rewrite fail_if_false by (by rewrite !Z.eqb_refl).
  rewrite F8, crc32.un_be_Checksum. done.
Qed.

Lemma layout_read i b : bs !! i = Some b -> readBlock layout layout_table opts i = Ok (b, block_of b).
Proof.
  intros Hi. destruct Hok as [_ _ _ Hne Hpay Hents _ _ _ Hbody _].
  rewrite Forall_lookup in Hne, Hpay. unfold layout.
  apply (readBlock_ok opts _ _ bs i b); try done; [|by eapply Hne|by eapply Hpay].
  rewrite (concat_take_drop_lookup bs i b Hi) in Hents.
  by apply entries_ok_app in Hents as [_ [? _]%entries_ok_app].
Qed.

Lemma layout_table_ok : table_ok layout layout_table opts bs.
Proof.
  split.
  - apply length_metas_of.
  - intros i b Hi. exists (block_of b). by apply layout_read.
  - apply (ly_nonempty Hok).
  - apply metas_of_last.
  - apply (ly_entries Hok).
  - done.
Qed.

Lemma in_order_strongly previous l :
  StronglySorted (key_lt ent_key) l ->
  (match previous with Some p => Forall (fun e => blt p (ent_key e) = true) l | None => True end) ->
  in_order previous l = true.
Proof.
  intros Hs. revert previous. induction Hs as [|e l Hs IH Hf]; intros previous Hp; [done|]. cbn [in_order].
  apply andb_true_iff. split.
  - destruct previous as [p|]; [|done]. apply Forall_cons in Hp as [Hp _]. by rewrite ble_blt, Hp.
  - by apply IH.
Qed.

Lemma validate_blocks_layout rest : forall done total previous,
  done ++ rest = bs -> total = len (concat done) ->
  (match previous with Some p => Forall (fun e => blt p (ent_key e) = true) (concat rest) | None => True end) ->
  validate_blocks layout layout_table opts layout_meta (length done)
    (metas_of (len (body_of done)) rest) (body_of done) total previous
  = Ok (body_of bs, len (concat bs)).
Proof.
  induction rest as [|b rest IH]; intros done total previous Hbs Ht Hp; cbn [metas_of validate_blocks].
  { rewrite app_nil_r in Hbs. by subst. }
  assert (bs !! length done = Some b) as Hi by (rewrite <- Hbs; by apply list_lookup_middle).
  rewrite (layout_read _ _ Hi). cbn [mbind result_bind].
  pose proof (ly_nonempty Hok) as Hne. pose proof (ly_entries Hok) as [_ Hs].
  rewrite <- Hbs in Hne, Hs. apply Forall_app in Hne as [_ [Hb _]%Forall_cons].
  rewrite concat_app in Hs. cbn [concat] in Hs, Hp. apply strongly_app in Hs as (_ & Hs & _).
  apply strongly_app in Hs as (Hsb & Hsr & Hcross).
  rewrite fail_if_false by (rewrite !beq_refl, bool_decide_eq_false_2 by done; done).
  rewrite fail_if_false.
  2:{ rewrite in_order_strongly; [done|done|]. destruct previous; [|done]. by apply Forall_app in Hp as [? _]. }
  assert (uint32 (total + len b) = len (concat (done ++ [b]))) as Htot.
  { rewrite concat_app, len_app. cbn [concat]. rewrite app_nil_r, Ht. unfold uint32.
    pose proof (ly_count Hok) as Hc. rewrite <- Hbs, concat_app, len_app in Hc. cbn [concat] in Hc. rewrite len_app in Hc.
    pose proof (len_nonneg (concat rest)). pose proof (len_nonneg (concat done)). pose proof (len_nonneg b).
    unfold max_uint32 in *. apply Z.mod_small. lia. }
  rewrite Htot.
  assert (body_of done ++ block_of b = body_of (done ++ [b])) as Hbody.
  { unfold body_of. rewrite map_app, concat_app. cbn [map concat]. by rewrite app_nil_r. }
  rewrite Hbody. replace (S (length done)) with (length (done ++ [b])) by (rewrite length_app; cbn; lia).
  replace (len (body_of done) + len (block_of b)) with (len (body_of (done ++ [b]))) by (rewrite <- Hbody; apply len_app).
  apply IH; [by rewrite <- app_assoc|done|].
  destruct (last_key_elem b Hb) as (e & He & _ & ->). apply Forall_forall. intros x Hx. by apply Hcross.
Qed.

Lemma first_key_concat b rest : b <> [] -> first_key (concat (b :: rest)) = first_key b.
Proof. by destruct b. Qed.

Lemma last_key_app l k : k <> [] -> last_key (l ++ k) = last_key k.
Proof.
  intros Hk. unfold last_key. destruct (exists_last Hk) as (k' & e & ->).
  by rewrite app_assoc, !last_snoc.
Qed.

Lemma validateAll_layout : validateAll layout layout_table opts layout_meta = Ok tt.
Proof.
  unfold validateAll. cbn [tb_blocks layout_table].
  pose proof (validate_blocks_layout bs [] 0 None eq_refl eq_refl I) as Hv. cbn [length] in Hv.
  change (body_of []) with (@nil byte) in Hv. rewrite (@len_nil byte) in Hv.
  rewrite Hv. cbn [mbind result_bind tb_entryCount tb_bodyCRC layout_table].
  rewrite !Z.eqb_refl. rewrite fail_if_false by done.
  pose proof (ly_nonempty Hok) as Hne. pose proof (ly_blocks Hok) as Hb.
  apply fail_if_Ok. unfold layout_meta. cbn [sst_minKey sst_maxKey sst_entryCount].
  destruct (exists_last Hb) as (init & b & E).
  assert (last (metas_of 0 bs) = Some (mkBlockMeta (0 + len (body_of init)) (len (block_of b)) (first_key b) (last_key b))) as ->.
  { rewrite last_lookup, length_metas_of. erewrite metas_of_lookup.
    2:{ rewrite E. rewrite length_app. cbn [length]. replace (pred (length init + 1)) with (length init) by lia.
        by apply list_lookup_middle. }
    rewrite E, length_app. cbn [length]. replace (pred (length init + 1)) with (length init) by lia.
    by rewrite take_app_length. }
  rewrite E in Hne. apply Forall_app in Hne as [_ [Hbne _]%Forall_cons].
  assert (last_key (concat bs) = last_key b) as ->.
  { rewrite E, concat_app. cbn [concat]. rewrite app_nil_r. by apply last_key_app. }
  pose proof (ly_nonempty Hok) as Hne'.
  assert (exists off n lk, head (metas_of 0 bs) = Some (mkBlockMeta off n (first_key (concat bs)) lk)) as (off & k & lk & ->).
  { destruct bs as [|b0 bs']; [done|]. apply Forall_cons in Hne' as [Hb0 _]. cbn [metas_of head].
    rewrite first_key_concat by done. by eexists _, _, _. }
  cbn [bm_first bm_last]. by rewrite !beq_refl.
Qed.

Lemma open_layout validate :
  openSSTReader (Some layout) layout_meta opts validate
  = Ok (mkReader layout layout_table opts 0 None 0 false).
Proof.
  unfold openSSTReader. cbn [sst_name sst_level layout_meta].
  rewrite fail_if_false.
  2:{ rewrite validSSTName_ok. cbn [negb orb]. apply Z.ltb_ge. apply (ly_level Hok). }
  rewrite loadIndex_layout. cbn [mbind result_bind].
  destruct validate; [|done]. by rewrite validateAll_layout.
Qed.

Lemma open_reader_ok : reader_ok bs (mkReader layout layout_table opts 0 None 0 false).
Proof. split; [apply layout_table_ok|done|done]. Qed.

Lemma find_at_least key l :
  StronglySorted (key_lt ent_key) l ->
  (match head (List.filter (at_least ent_key key) l) with
   | Some e => if beq (ent_key e) key then Some e else None
   | None => None
   end) = List.find (fun e => beq (ent_key e) key) l.
Proof.
  intros Hs. induction Hs as [|e l Hs IH Hf]; [done|]. cbn [List.filter List.find]. unfold at_least at 1.
  destruct (ble key (ent_key e)) eqn:Hle; cbn [head].
  - destruct (beq (ent_key e) key) eqn:Hb; [done|].
    apply beq_false in Hb. apply ble_cases in Hle as [Hlt|Heq]; [|congruence].
    symmetry. apply List_find_none. intros x Hx. rewrite Forall_forall in Hf. specialize (Hf x Hx).
    apply beq_false. intros <-. pose proof (blt_trans _ _ _ Hlt Hf) as Hc. by rewrite blt_irrefl in Hc.
  - rewrite IH. rewrite ble_blt, negb_false_iff in Hle.
    assert (beq (ent_key e) key = false) as ->; [|done].
    apply beq_false. intros E. rewrite E, blt_irrefl in Hle. done.
Qed.

Lemma lookup_layout key :
  lookupSST (Some layout) layout_meta key opts
  = Ok (List.find (fun e => beq (ent_key e) key) (concat bs)).
Proof.
  unfold lookupSST. rewrite open_layout. cbn [mbind result_bind].
  destruct (seek_ok bs _ (Some key) open_reader_ok) as (r' & -> & Hr' & Hrem). cbn [mbind result_bind].
  destruct (sst_next_ok bs r' Hr') as (r'' & -> & _). cbn [mbind result_bind].
  rewrite (proj2 (Nat.eqb_neq _ _)) in Hrem by (pose proof layout_entries_pos; unfold len in *; lia).
  rewrite Hrem, <- find_at_least by apply (ly_entries Hok).
  destruct (head _) as [e|]; [|done]. by destruct (beq (ent_key e) key).
Qed.
End encoded.

(** An encoding that succeeds is a layout of the sorted entries. *)
Lemma encodeSST_layout opts entries level id maxLSN file meta :
  opts_ok opts -> u8 level <= 1 -> is_u64 id ->
  encodeSST entries level id maxLSN opts = Ok (file, meta) ->
  exists bs, concat bs = sort_by ent_key entries /\ layout_ok opts level id maxLSN bs /\
             file = layout level id maxLSN bs /\ meta = layout_meta level id maxLSN bs.
Proof.
  intros Ho Hlev Hid H. unfold encodeSST in H. inv_res. destruct r2 as [body indexes]. inv_res. bool_to_prop.
  apply check_entries_ok in Hr1 as (Hf & Hi & _); [|apply sort_by_sorted].
  unfold opts_ok in Ho. apply build_blocks_spec in Hr2 as (bs & Hbs & Hne & Hpay & Hbody & Hidx); [|lia|done].
  cbn [app] in Hbody, Hidx. change (len (@nil byte)) with 0 in Hidx. subst body indexes. exists bs. rewrite <- Hbs in *.
  assert (len (index_of 0 bs) = len bs) as Hlen.
  { unfold len. clear. f_equal. generalize 0. induction bs; intros; cbn; auto. }
  rewrite Hlen in *. split; [done|]. split; [|done].
  assert (len (concat bs) = len entries) as Hcnt.
  { unfold len. rewrite Hbs. f_equal. apply Permutation_length, sort_by_perm. }
  split; try done; try lia.
  - intros ->. apply Hr. by rewrite <- Hcnt.
  - split; [done|]. by apply increasing_strongly.
Qed.

(** Reading a table to its end. *)
Fixpoint drain (fuel : nat) (r : sstReader) : result engine_error (list sstEntry) :=
  match fuel with
  | O => Ok []
  | S fuel' =>
      '(e, r') ← sst_next r;
      match e with
      | None => Ok []
      | Some e => l ← drain fuel' r'; Ok (e :: l)
      end
  end.

Lemma drain_ok bs fuel : forall r,
  reader_ok bs r -> (length (remaining bs r) < fuel)%nat -> drain fuel r = Ok (remaining bs r).
Proof.
  induction fuel as [|fuel IH]; intros r Hr Hf; [lia|]. cbn [drain].
  destruct (sst_next_ok bs r Hr) as (r' & -> & Hr' & Hrem). cbn [mbind result_bind].
  destruct (remaining bs r) as [|e l] eqn:E; [done|]. cbn [head tail] in *.
  rewrite IH by (rewrite ?Hrem; cbn in Hf; try done; lia). by rewrite Hrem.
Qed.

(** ** Theorems *)

(** a table that encodes opens with full validation, and reading it from
    any start key to the end returns exactly the entries with keys at or after
    the start, in key order; without a start key it returns them all. *)
Theorem encoded_table_reads_back o opts entries level id maxLSN file meta start :
  normalized o = Ok opts -> u8 level <= 1 -> is_u64 id ->
  encodeSST entries level id maxLSN opts = Ok (file, meta) ->
  exists r r', openSSTReader (Some file) meta opts true = Ok r /\ seek r start = Ok r' /\
    drain (S (length entries)) r'
    = Ok (match start with
          | None => sort_by ent_key entries
          | Some k => List.filter (fun e => ble k (ent_key e)) (sort_by ent_key entries)
          end).
Proof.
  intros Ho%normalized_ok Hl Hid He.
  destruct (encodeSST_layout _ _ _ _ _ _ _ Ho Hl Hid He) as (bs & Hbs & Hok & -> & ->).
  eexists. destruct (seek_ok bs _ start (open_reader_ok opts Ho level id maxLSN bs Hok)) as (r' & Hseek & Hr' & Hrem).
  exists r'. split; [by apply open_layout|]. split; [exact Hseek|].
  assert (length bs =? 0 = false)%nat as Hz.
  { apply Nat.eqb_neq. pose proof (layout_entries_pos opts level id maxLSN bs Hok) as [? _]. unfold len in *. lia. }
  rewrite Hz, Hbs in Hrem. rewrite (drain_ok bs); [|done|].
  - rewrite Hrem. by destruct start.
  - rewrite Hrem, <- (Permutation_length (sort_by_perm ent_key entries)).
    destruct start as [k|]; [|lia].
    clear. induction (sort_by ent_key entries) as [|e l IH]; cbn; [lia|]. destruct (at_least ent_key k e); cbn; lia.
Qed.

(** a point lookup in an encoded table returns the entry with the key, or
    nothing when the table has none. *)
Theorem encoded_table_lookup o opts entries level id maxLSN file meta key :
  normalized o = Ok opts -> u8 level <= 1 -> is_u64 id ->
  encodeSST entries level id maxLSN opts = Ok (file, meta) ->
  lookupSST (Some file) meta key opts
  = Ok (List.find (fun e => beq (ent_key e) key) (sort_by ent_key entries)).
Proof.
  intros Ho%normalized_ok Hl Hid He.
  destruct (encodeSST_layout _ _ _ _ _ _ _ Ho Hl Hid He) as (bs & <- & Hok & -> & ->).
  by apply lookup_layout.
Qed.

(** ** Instances at concrete inputs *)

Definition sample_entries : list sstEntry :=
  [mkEntry putOp (lit "b") (lit "2"); mkEntry deleteOp (lit "a") []; mkEntry putOp (lit "c") (lit "3")].
Definition sample_table : bytes * sstFile :=
  match encodeSST sample_entries x00 7 9 sample_opts with
  | Ok t => t
  | Fail _ => ([], mkSstFile [] x00 [] [] 0 0)
  end.

Lemma encoded_table_reads_back_witness :
  exists r r', openSSTReader (Some (fst sample_table)) (snd sample_table) sample_opts true = Ok r /\
    seek r (Some (lit "b")) = Ok r' /\
    drain 4 r' = Ok [mkEntry putOp (lit "b") (lit "2"); mkEntry putOp (lit "c") (lit "3")].
Proof.
  apply (encoded_table_reads_back (mkOptions 0 0 0 0 0 0 0 0 0 0 0) sample_opts sample_entries x00 7 9
           (fst sample_table) (snd sample_table) (Some (lit "b"))).
  - vm_compute. reflexivity.
  - vm_compute. discriminate.
  - vm_compute. split; discriminate.
  - vm_compute. reflexivity.
Defined.

Lemma encoded_table_lookup_witness :
  lookupSST (Some (fst sample_table)) (snd sample_table) (lit "a") sample_opts
  = Ok (Some (mkEntry deleteOp (lit "a") [])).
Proof.
  apply (encoded_table_lookup (mkOptions 0 0 0 0 0 0 0 0 0 0 0) sample_opts sample_entries x00 7 9
           (fst sample_table) (snd sample_table) (lit "a")).
  - vm_compute. reflexivity.
  - vm_compute. discriminate.
  - vm_compute. split; discriminate.
  - vm_compute. reflexivity.
Defined.
