(* ===== verification/View.v ===== *)
(** [internal/engine/view.go], the iterators of [api.go] and the read methods of
    [engine.go]: merged reads over the memtable and the sorted tables.

    The table directory maps names to file contents. The theorems compare the
    merge with a map in which newer sources shadow older ones. *)

From Stdlib Require Import ZArith Lia.
From stdpp Require Import base list gmap.
From S2P Require Import Prelude GoStd EngineOps Fs Sst.

Local Open Scope Z_scope.

Record engineView : Type := mkView {
  v_dir : gmap bytes bytes;
  v_opt : Options;
  v_active : list sstEntry;
  v_files : list sstFile
}.

Definition entriesFromActive (active : gmap bytes memEntry) : list sstEntry :=
  map snd (map_to_list active).

Definition newViewLocked (dir : gmap bytes bytes) (opts : Options) (active : gmap bytes memEntry)
    (files : list sstFile) : engineView :=
  mkView dir opts (sort_by ent_key (entriesFromActive active)) files.

(** ** Cursors *)

Inductive source : Type :=
| Active (l : list sstEntry) (index : nat)
| Reader (r : sstReader).

(** [cur] is [None] where the code has [have == false]. *)
Record sourceCursor : Type := mkCursor {
  c_src : source;
  c_cur : option sstEntry;
  c_prio : Z
}.

Definition advance (c : sourceCursor) : result engine_error sourceCursor :=
  match c_src c with
  | Reader r =>
      '(e, r') ← sst_next r;
      Ok (mkCursor (Reader r') e (c_prio c))
  | Active l i =>
      match l !! i with
      | None => Ok (mkCursor (Active l i) None (c_prio c))
      | Some e => Ok (mkCursor (Active l (S i)) (Some e) (c_prio c))
      end
  end.

Definition cursor_init (c : sourceCursor) (start : option bytes) : result engine_error sourceCursor :=
  src ← (match c_src c with
         | Reader r => r' ← seek r start; Ok (Reader r')
         | Active l _ =>
             Ok (Active l (sort.Search (length l)
                   (fun i => match start with None => true | Some k => key_at_least ent_key l k i end)))
         end);
  advance (mkCursor src (c_cur c) (c_prio c)).

(** Readers of the given files in order, with increasing priorities. *)
Fixpoint open_sources (v : engineView) (files : list sstFile) (priority : Z)
    : result engine_error (list sourceCursor) :=
  match files with
  | [] => Ok []
  | file :: files' =>
      reader ← openSSTReader (v_dir v !! sst_name file) file (v_opt v) false;
      rest ← open_sources v files' (priority + 1);
      Ok (mkCursor (Reader reader) None priority :: rest)
  end.

Definition level_files (level : byte) (files : list sstFile) : list sstFile :=
  List.filter (fun f => bool_decide (sst_level f = level)) files.

Fixpoint init_all (sources : list sourceCursor) (start : option bytes)
    : result engine_error (list sourceCursor) :=
  match sources with
  | [] => Ok []
  | c :: sources' =>
      c ← cursor_init c start;
      rest ← init_all sources' start;
      Ok (c :: rest)
  end.

(** L0 members are listed oldest to newest and exposed in reverse; the L1
    members follow. *)
Definition buildSources (v : engineView) (start : option bytes) : result engine_error (list sourceCursor) :=
  let active := if 0 <? len (v_active v) then [mkCursor (Active (v_active v) 0) None 0] else [] in
  let l0 := rev (level_files x00 (v_files v)) in
  let l1 := level_files x01 (v_files v) in
  files0 ← open_sources v l0 (len active);
  files1 ← open_sources v l1 (len active + len l0);
  init_all (active ++ files0 ++ files1) start.

(** ** The merge *)

(** The smallest current key. *)
Fixpoint min_key (sources : list sourceCursor) (key : option bytes) : option bytes :=
  match sources with
  | [] => key
  | c :: sources' =>
      min_key sources'
        (match c_cur c with
         | None => key
         | Some e => match key with
                     | None => Some (ent_key e)
                     | Some k => if blt (ent_key e) k then Some (ent_key e) else key
                     end
         end)
  end.

(** Among the sources at [key], the one with the smallest priority. *)
Fixpoint pick_winner (key : bytes) (sources : list sourceCursor) (winner : option (Z * sstEntry))
    : option (Z * sstEntry) :=
  match sources with
  | [] => winner
  | c :: sources' =>
      pick_winner key sources'
        (match c_cur c with
         | Some e =>
             if beq (ent_key e) key then
               match winner with
               | None => Some (c_prio c, e)
               | Some (p, _) => if c_prio c <? p then Some (c_prio c, e) else winner
               end
             else winner
         | None => winner
         end)
  end.

Fixpoint advance_at (key : bytes) (sources : list sourceCursor) : result engine_error (list sourceCursor) :=
  match sources with
  | [] => Ok []
  | c :: sources' =>
      c' ← (match c_cur c with
            | Some e => if beq (ent_key e) key then advance c else Ok c
            | None => Ok c
            end);
      rest ← advance_at key sources';
      Ok (c' :: rest)
  end.

Definition nextMergedRaw (sources : list sourceCursor)
    : result engine_error (option sstEntry * list sourceCursor) :=
  match min_key sources None with
  | None => Ok (None, sources)
  | Some key =>
      match pick_winner key sources None with
      | None => Ok (None, sources)
      | Some (_, chosen) =>
          sources' ← advance_at key sources;
          Ok (Some chosen, sources')
      end
  end.

(** ** Iterators *)

Record Entry : Type := mkKV { kv_key : bytes; kv_value : bytes }.

Record Iterator : Type := mkIterator {
  it_sources : list sourceCursor;
  it_end : option bytes;
  it_limit : Z;
  it_seen : Z;
  it_closed : bool;
  it_err : option engine_error
}.

Definition it_with (it : Iterator) (sources : list sourceCursor) (seen : Z) (closed : bool)
    (err : option engine_error) : Iterator :=
  mkIterator sources (it_end it) (it_limit it) seen closed err.

(** Sources whose current key is at or after the end are done. *)
Definition cut_end (end_ : option bytes) (c : sourceCursor) : sourceCursor :=
  match end_, c_cur c with
  | Some k, Some e => if ble k (ent_key e) then mkCursor (c_src c) None (c_prio c) else c
  | _, _ => c
  end.

(** An upper bound of the entries a source has left. *)
Definition source_size (c : sourceCursor) : nat :=
  match c_src c with
  | Active l _ => length l
  | Reader r => Z.to_nat (tb_entryCount (rd_table r))
  end.
Definition sources_size (sources : list sourceCursor) : nat :=
  foldr (fun c n => (source_size c + n)%nat) 0%nat sources.

(** The loop of [Next]; a round that goes on has consumed a tombstone. *)
Fixpoint next_visible (fuel : nat) (it : Iterator) (sources : list sourceCursor) : Iterator * option Entry :=
  match fuel with
  | O => (it_with it sources (it_seen it) true None, None)
  | S fuel' =>
      let sources := map (cut_end (it_end it)) sources in
      match nextMergedRaw sources with
      | Fail e => (it_with it sources (it_seen it) true (Some e), None)
      | Ok (None, sources') => (it_with it sources' (it_seen it) true None, None)
      | Ok (Some chosen, sources') =>
          if bool_decide (ent_kind chosen = deleteOp) then next_visible fuel' it sources'
          else (it_with it sources' (it_seen it + 1) false None, Some (mkKV (ent_key chosen) (ent_value chosen)))
      end
  end.

Definition Iterator_Next (it : Iterator) : Iterator * option Entry :=
  if it_closed it || (match it_err it with Some _ => true | None => false end) then (it, None)
  else if (0 <? it_limit it) && (it_limit it <=? it_seen it)
  then (it_with it (it_sources it) (it_seen it) true (it_err it), None)
  else next_visible (S (sources_size (it_sources it) + length (it_sources it))) it (it_sources it).

Definition validateRange (opts : Options) (start end_ : option bytes) : result engine_error unit :=
  (match start with Some k => validateKey k (MaxKeyBytes opts) | None => Ok tt end);;
  (match end_ with Some k => validateKey k (MaxKeyBytes opts) | None => Ok tt end).

Definition newIteratorRange (v : engineView) (start end_ : option bytes) (limit : Z)
    : result engine_error Iterator :=
  validateRange (v_opt v) start end_;;
  if (match start, end_ with Some s, Some e => ble e s | _, _ => false end)
  then Ok (mkIterator [] end_ limit 0 false None)
  else
    sources ← buildSources v start;
    Ok (mkIterator sources end_ limit 0 false None).

Definition newIterator (v : engineView) (start end_ : option bytes) (limit : Z)
    : result engine_error Iterator :=
  fail_if ((limit <=? 0) || (MaxScanItems (v_opt v) <? limit)) ErrInvalidLimit;;
  newIteratorRange v start end_ limit.

Definition newStreamingIterator (v : engineView) (start end_ : option bytes) : result engine_error Iterator :=
  newIteratorRange v start end_ 0.

(** The collection loop of [Scan], with [n] results wanted. *)
Fixpoint scan_loop (n : nat) (it : Iterator) : list Entry * option engine_error :=
  match n with
  | O => ([], it_err it)
  | S n' =>
      match Iterator_Next it with
      | (it', None) => ([], it_err it')
      | (it', Some e) => let '(l, err) := scan_loop n' it' in (e :: l, err)
      end
  end.

Definition view_Scan (v : engineView) (start end_ : option bytes) (limit : Z)
    : result engine_error (list Entry * option engine_error) :=
  it ← newIterator v start end_ limit;
  Ok (scan_loop (Z.to_nat limit) it).

(** [Last]: read to the end and keep the last entry; every round returns an
    entry, so the sizes of the sources bound the rounds. *)
Fixpoint last_loop (fuel : nat) (it : Iterator) (found : option Entry) : result engine_error Entry :=
  match fuel with
  | O => Fail ErrNotFound
  | S fuel' =>
      match Iterator_Next it with
      | (it', Some e) => last_loop fuel' it' (Some e)
      | (it', None) =>
          match it_err it' with
          | Some e => Fail e
          | None => match found with Some e => Ok e | None => Fail ErrNotFound end
          end
      end
  end.
Definition view_Last (v : engineView) (start end_ : option bytes) : result engine_error Entry :=
  it ← newStreamingIterator v start end_;
  last_loop (S (sources_size (it_sources it) + length (it_sources it))) it None.

(** ** Point lookups *)

Definition in_range (file : sstFile) (key : bytes) : bool :=
  negb (blt key (sst_minKey file) || blt (sst_maxKey file) key).

(** What a found entry means to the caller. *)
Definition entry_value (e : sstEntry) : result engine_error bytes :=
  if bool_decide (ent_kind e = deleteOp) then Fail ErrNotFound else Ok (ent_value e).

(** The L0 loop goes on when a table does not have the key ([next]); the L1
    loop stops at the first table whose range contains it. *)
Fixpoint lookup_l0 (v : engineView) (files : list sstFile) (key : bytes) (next : result engine_error bytes)
    : result engine_error bytes :=
  match files with
  | [] => next
  | file :: files' =>
      if negb (in_range file key) then lookup_l0 v files' key next
      else
        found ← lookupSST (v_dir v !! sst_name file) file key (v_opt v);
        match found with
        | None => lookup_l0 v files' key next
        | Some e => entry_value e
        end
  end.
Fixpoint lookup_l1 (v : engineView) (files : list sstFile) (key : bytes) : result engine_error bytes :=
  match files with
  | [] => Fail ErrNotFound
  | file :: files' =>
      if negb (in_range file key) then lookup_l1 v files' key
      else
        found ← lookupSST (v_dir v !! sst_name file) file key (v_opt v);
        match found with
        | None => Fail ErrNotFound
        | Some e => entry_value e
        end
  end.

Definition lookupView (v : engineView) (key : bytes) : result engine_error bytes :=
  validateKey key (MaxKeyBytes (v_opt v));;
  match List.find (fun e => beq (ent_key e) key) (v_active v) with
  | Some e => entry_value e
  | None =>
      lookup_l0 v (rev (level_files x00 (v_files v))) key
        (lookup_l1 v (level_files x01 (v_files v)) key)
  end.

(** ** What a cursor has left *)

Inductive yields : source -> list sstEntry -> Prop :=
| yields_active l i : yields (Active l i) (drop i l)
| yields_reader bs r : reader_ok bs r -> yields (Reader r) (remaining bs r).

(** The cursor's current entry and what follows it. *)
Definition cursor_at (c : sourceCursor) (l : list sstEntry) : Prop :=
  match c_cur c with
  | None => l = []
  | Some e => exists rest, l = e :: rest /\ yields (c_src c) rest
  end.

Lemma advance_ok c l :
  yields (c_src c) l ->
  exists c', advance c = Ok c' /\ cursor_at c' l /\ c_prio c' = c_prio c.
Proof.
  intros Hy. unfold advance. destruct Hy as [l i|bs r Hr].
  - destruct (l !! i) as [e|] eqn:Hi.
    + eexists. split; [done|]. split; [|done]. unfold cursor_at. cbn. rewrite (drop_S l e i Hi).
      eexists. split; [done|]. constructor.
    + eexists. split; [done|]. split; [|done]. unfold cursor_at. cbn. by apply drop_ge, lookup_ge_None.
  - destruct (sst_next_ok bs r Hr) as (r' & -> & Hr' & Hrem). cbn [mbind result_bind].
    eexists. split; [done|]. split; [|done]. unfold cursor_at. cbn.
    destruct (remaining bs r) as [|e l] eqn:E; [done|]. cbn in *.
    exists l. split; [done|]. rewrite <- Hrem. by constructor.
Qed.

Lemma advance_at_ok key sources ls :
  Forall2 cursor_at sources ls ->
  exists sources', advance_at key sources = Ok sources' /\
    Forall2 cursor_at sources'
      (map (fun l => match l with e :: l' => if beq (ent_key e) key then l' else l | [] => [] end) ls) /\
    map c_prio sources' = map c_prio sources.
Proof.
  induction 1 as [|c l sources ls Hc _ IH]; cbn [advance_at map].
  { exists []. split; [done|]. split; [constructor|done]. }
  destruct IH as (rest & Hrest & Hf & Hp).
  assert (exists c', (match c_cur c with
            | Some e => if beq (ent_key e) key then advance c else Ok c
            | None => Ok c end) = Ok c' /\
            cursor_at c' (match l with e :: l' => if beq (ent_key e) key then l' else l | [] => [] end) /\
            c_prio c' = c_prio c) as (c' & -> & Hc' & Hp').
  { pose proof Hc as Hc0. unfold cursor_at in Hc. destruct (c_cur c) as [e|] eqn:E.
    - destruct Hc as (l' & -> & Hy). destruct (beq (ent_key e) key); [by apply advance_ok|].
      exists c. split; [done|]. split; [done|done].
    - subst l. by exists c. }
  cbn [mbind result_bind]. rewrite Hrest. cbn [mbind result_bind].
  eexists. split; [done|]. split; [by constructor|]. cbn. congruence.
Qed.

(** ** Newest-wins maps *)

Definition lmap (l : list sstEntry) : gmap bytes sstEntry := list_to_map (map (fun e => (ent_key e, e)) l).
Definition umap (ls : list (list sstEntry)) : gmap bytes sstEntry := foldr (fun l m => lmap l ∪ m) ∅ ls.

Lemma umap_cons l ls : umap (l :: ls) = lmap l ∪ umap ls.
Proof. done. Qed.

Definition sorted (l : list sstEntry) : Prop := StronglySorted (key_lt ent_key) l.

Lemma sorted_cons e l : sorted (e :: l) <-> sorted l /\ Forall (key_lt ent_key e) l.
Proof.
  split; [intros [? ?]%StronglySorted_inv; done|]. intros [? ?]. by constructor.
Qed.

Lemma lmap_cons e l : lmap (e :: l) = <[ent_key e := e]> (lmap l).
Proof. done. Qed.

Lemma lmap_lookup l k e : lmap l !! k = Some e -> ent_key e = k /\ e ∈ l.
Proof.
  induction l as [|x l IH]; [done|]. rewrite lmap_cons, lookup_insert_Some.
  intros [[<- ->]|[_ H]]; [split; [done|left]|]. apply IH in H as [? ?]. split; [done|by right].
Qed.

Lemma lmap_none l k : (forall e, e ∈ l -> ent_key e <> k) -> lmap l !! k = None.
Proof.
  intros H. destruct (lmap l !! k) as [e|] eqn:E; [|done]. apply lmap_lookup in E as [Hk He].
  by destruct (H e He).
Qed.

Lemma sorted_tail_key e l x : sorted (e :: l) -> x ∈ l -> blt (ent_key e) (ent_key x) = true.
Proof. intros [_ Hf]%sorted_cons Hx. rewrite Forall_forall in Hf. by apply Hf. Qed.

Lemma lmap_elem l e : sorted l -> e ∈ l -> lmap l !! ent_key e = Some e.
Proof.
  induction l as [|x l IH]; intros Hs He; [by apply elem_of_nil in He|]. rewrite lmap_cons.
  apply elem_of_cons in He as [->|He]; [apply lookup_insert_eq|].
  pose proof (sorted_tail_key x l e Hs He) as Hlt. rewrite lookup_insert_ne.
  - apply sorted_cons in Hs as [Hs _]. by apply IH.
  - intros E. rewrite E, blt_irrefl in Hlt. done.
Qed.

(** The step of the merge on the lists: drop [k] where it is first. *)
Definition drop_key (k : bytes) (l : list sstEntry) : list sstEntry :=
  match l with e :: l' => if beq (ent_key e) k then l' else l | [] => [] end.

(** [k] is below every entry, or the first one. *)
Definition at_front (k : bytes) (l : list sstEntry) : Prop :=
  match l with e :: _ => ble k (ent_key e) = true | [] => True end.

Lemma drop_key_sorted k l : sorted l -> sorted (drop_key k l).
Proof. destruct l as [|e l]; [done|]. cbn. destruct (beq _ _); [|done]. by intros [? _]%sorted_cons. Qed.

Lemma lmap_drop_key k l : sorted l -> at_front k l -> lmap (drop_key k l) = delete k (lmap l).
Proof.
  destruct l as [|e l]; intros Hs Hk; cbn [drop_key at_front] in *; [symmetry; apply delete_empty|].
  destruct (beq (ent_key e) k) eqn:E.
  - apply beq_true in E as <-. rewrite lmap_cons, delete_insert_id; [done|].
    apply lmap_none. intros x Hx Heq. pose proof (sorted_tail_key e l x Hs Hx) as Hlt.
    by rewrite Heq, blt_irrefl in Hlt.
  - apply beq_false in E. rewrite delete_id; [done|]. apply lmap_none.
    apply ble_cases in Hk as [Hk|Hk]; [|congruence].
    intros x [->|Hx]%elem_of_cons Heq; [congruence|].
    pose proof (sorted_tail_key e l x Hs Hx) as Hlt. pose proof (blt_trans _ _ _ Hk Hlt) as Hc.
    by rewrite Heq, blt_irrefl in Hc.
Qed.

Lemma umap_drop_key k ls :
  Forall sorted ls -> Forall (at_front k) ls -> umap (map (drop_key k) ls) = delete k (umap ls).
Proof.
  intros Hs Hk. induction ls as [|l ls IH]; [symmetry; apply delete_empty|]. cbn [map]. rewrite !umap_cons.
  apply Forall_cons in Hs as [Hs1 Hs], Hk as [Hk1 Hk]. rewrite lmap_drop_key by done.
  rewrite IH by done. by rewrite delete_union.
Qed.

Lemma umap_key ls k e : umap ls !! k = Some e -> ent_key e = k.
Proof.
  induction ls as [|l ls IH]; [done|]. rewrite umap_cons.
  rewrite lookup_union_Some_raw. intros [H|[_ H]]; [apply lmap_lookup in H as [? _]; done|by apply IH].
Qed.

(** ** One step of the merge *)

Definition heads (ls : list (list sstEntry)) : list sstEntry := omap head ls.

Lemma cursor_head c l : cursor_at c l -> c_cur c = head l.
Proof. unfold cursor_at. destruct (c_cur c); [intros (? & -> & _)|intros ->]; done. Qed.

Lemma min_key_spec sources ls : forall key,
  Forall2 cursor_at sources ls ->
  match min_key sources key with
  | None => key = None /\ heads ls = []
  | Some k => (key = Some k \/ exists e, e ∈ heads ls /\ ent_key e = k) /\
              (forall e, e ∈ heads ls -> ble k (ent_key e) = true) /\
              (match key with Some k' => ble k k' = true | None => True end)
  end.
Proof.
  intros key Hf. revert key. induction Hf as [|c l sources ls Hc _ IH]; intros key; cbn [min_key].
  - destruct key as [k|]; [|done]. split; [by left|]. split; [by intros e ?%elem_of_nil|apply ble_refl].
  - rewrite (cursor_head c l Hc). unfold heads in *. cbn [omap list_omap]. destruct (head l) as [e|]; cbn.
    + set (key' := match key with None => Some (ent_key e) | Some k => if blt (ent_key e) k then Some (ent_key e) else key end).
      specialize (IH key'). destruct (min_key sources key') as [m|] eqn:E.
      * destruct IH as (H1 & H2 & H3).
        assert (key' = key \/ key' = Some (ent_key e)) as Hkey'.
        { unfold key'. destruct key as [k|]; [|by right]. destruct (blt (ent_key e) k); auto. }
        assert (ble m (ent_key e) = true /\ match key with Some k' => ble m k' = true | None => True end) as [He Hkk].
        { unfold key' in H3. destruct key as [k|]; [|done]. destruct (blt (ent_key e) k) eqn:Hlt.
          - split; [done|]. eapply ble_trans; [exact H3|]. by apply blt_ble.
          - split; [|done]. eapply ble_trans; [exact H3|]. by apply blt_false. }
        split; [|split; [|done]].
        -- destruct H1 as [H1|(e' & He' & Hk')].
           ++ destruct Hkey' as [Hk|Hk]; rewrite Hk in H1; [by left|]. injection H1 as H1. right. exists e. split; [left|done].
           ++ right. exists e'. split; [by right|done].
        -- intros e' [->|He']%elem_of_cons; [done|by apply H2].
      * destruct IH as [IH _]. unfold key' in IH. destruct key as [k|]; [|done]. by destruct (blt (ent_key e) k).
    + apply IH.
Qed.

Lemma pick_winner_some key sources w : forall p e,
  w = Some (p, e) -> Forall (fun q => p < q) (map c_prio sources) -> pick_winner key sources w = w.
Proof.
  induction sources as [|c sources IH]; intros p e -> Hp; [done|]. cbn [pick_winner map] in *.
  apply Forall_cons in Hp as [Hp1 Hp]. destruct (c_cur c) as [x|]; [|by eapply IH].
  destruct (beq (ent_key x) key); [|by eapply IH].
  rewrite (proj2 (Z.ltb_ge _ _)) by lia. by eapply IH.
Qed.

(** With priorities increasing along the sources the winner is the first
    source at the key: the entry the newest-wins map has there. *)
Lemma pick_winner_first key sources ls :
  Forall2 cursor_at sources ls -> Forall sorted ls -> Forall (at_front key) ls ->
  StronglySorted Z.lt (map c_prio sources) ->
  snd <$> pick_winner key sources None = umap ls !! key.
Proof.
  intros Hf. induction Hf as [|c l sources ls Hc _ IH]; intros Hs Hk Hp; [done|].
  cbn [pick_winner map] in *. rewrite umap_cons. apply Forall_cons in Hs as [Hs1 Hs], Hk as [Hk1 Hk].
  apply StronglySorted_inv in Hp as [Hp Hp1].
  rewrite (cursor_head c l Hc), lookup_union.
  assert (lmap l !! key = match head l with Some e => if beq (ent_key e) key then Some e else None | None => None end) as Hl.
  { destruct l as [|e l]; [done|]. cbn [head]. destruct (beq (ent_key e) key) eqn:E.
    - apply beq_true in E as <-. rewrite lmap_cons. apply lookup_insert_eq.
    - pose proof (lmap_drop_key key (e :: l) Hs1 Hk1) as Hd. cbn [drop_key] in Hd. rewrite E in Hd.
      rewrite Hd. apply lookup_delete_eq. }
  rewrite Hl. destruct (head l) as [e|].
  - destruct (beq (ent_key e) key).
    + erewrite pick_winner_some by done. cbn. by destruct (umap ls !! key).
    + rewrite IH by done. by rewrite (left_id_L None (∪)).
  - rewrite IH by done. by rewrite (left_id_L None (∪)).
Qed.

Lemma nextMergedRaw_ok sources ls :
  Forall2 cursor_at sources ls -> Forall sorted ls -> StronglySorted Z.lt (map c_prio sources) ->
  (umap ls = ∅ /\ nextMergedRaw sources = Ok (None, sources)) \/
  exists e sources', nextMergedRaw sources = Ok (Some e, sources') /\
    umap ls !! ent_key e = Some e /\ (forall k x, umap ls !! k = Some x -> ble (ent_key e) k = true) /\
    Forall2 cursor_at sources' (map (drop_key (ent_key e)) ls) /\
    umap (map (drop_key (ent_key e)) ls) = delete (ent_key e) (umap ls) /\
    map c_prio sources' = map c_prio sources.
Proof.
  intros Hf Hs Hp. unfold nextMergedRaw. pose proof (min_key_spec sources ls None Hf) as Hm.
  assert (forall k x, umap ls !! k = Some x -> exists h, h ∈ heads ls /\ ble (ent_key h) k = true) as Hheads.
  { clear Hm Hf Hp. intros k x. induction ls as [|l ls IH]; [done|]. rewrite umap_cons.
    apply Forall_cons in Hs as [Hs1 Hs]. rewrite lookup_union_Some_raw. intros [H|[_ H]].
    - apply lmap_lookup in H as [<- Hx]. destruct l as [|h l]; [by apply elem_of_nil in Hx|].
      exists h. split; [left|]. apply elem_of_cons in Hx as [->|Hx]; [apply ble_refl|].
      apply blt_ble. by eapply sorted_tail_key.
    - destruct (IH Hs H) as (h & Hh & Hle). exists h. split; [|done]. unfold heads. cbn.
      destruct (head l); [by right|done]. }
  destruct (min_key sources None) as [key|].
  - right. destruct Hm as (Hex & Hmin & _). destruct Hex as [?|(h & Hh & <-)]; [done|].
    assert (Forall (at_front (ent_key h)) ls) as Hfront.
    { apply Forall_forall. intros l Hl. destruct l as [|e l]; [done|]. cbn. apply Hmin.
      unfold heads. apply list_elem_of_omap. by exists (e :: l). }
    pose proof (pick_winner_first (ent_key h) sources ls Hf Hs Hfront Hp) as Hw.
    assert (is_Some (umap ls !! ent_key h)) as [e He].
    { clear -Hh Hs. induction ls as [|l ls IH]; [by apply elem_of_nil in Hh|]. rewrite umap_cons.
      apply Forall_cons in Hs as [Hs1 Hs]. unfold heads in Hh. cbn in Hh. apply lookup_union_is_Some.
      destruct l as [|x l]; cbn in Hh; [right; by apply IH|].
      apply elem_of_cons in Hh as [->|Hh]; [left|right; by apply IH].
      rewrite lmap_cons, lookup_insert_eq. by eexists. }
    rewrite He in Hw. destruct (pick_winner (ent_key h) sources None) as [[p e']|]; [|done].
    cbn in Hw. injection Hw as ->. pose proof (umap_key ls _ _ He) as Hek.
    destruct (advance_at_ok (ent_key h) sources ls Hf) as (sources' & -> & Hf' & Hp').
    exists e, sources'. rewrite Hek. split; [done|]. split; [done|]. split.
    + intros k x Hx. destruct (Hheads k x Hx) as (h' & Hh' & Hle). eapply ble_trans; [by apply Hmin|done].
    + split; [done|]. split; [by apply umap_drop_key|done].
  - left. destruct Hm as [_ Hnil]. split; [|done]. apply map_eq. intros k. rewrite lookup_empty.
    destruct (umap ls !! k) as [x|] eqn:E; [|done]. destruct (Hheads k x E) as (h & Hh & _).
    rewrite Hnil in Hh. by apply elem_of_nil in Hh.
Qed.

(** ** The sequence a merge produces *)

Definition sorted_entries (m : gmap bytes sstEntry) : list sstEntry :=
  sort_by ent_key (map snd (map_to_list m)).

Definition keyed (m : gmap bytes sstEntry) : Prop := forall k e, m !! k = Some e -> ent_key e = k.

Lemma elem_of_sorted_entries m e : keyed m -> e ∈ sorted_entries m <-> m !! ent_key e = Some e.
Proof.
  intros Hm. unfold sorted_entries. rewrite sort_by_perm. split.
  - intros ([k x] & -> & Hx)%list_elem_of_fmap. apply elem_of_map_to_list in Hx. cbn.
    by rewrite (Hm k x Hx).
  - intros H. apply list_elem_of_fmap. exists (ent_key e, e). split; [done|]. by apply elem_of_map_to_list.
Qed.

Lemma sorted_entries_keys m : keyed m -> map ent_key (map snd (map_to_list m)) = map fst (map_to_list m).
Proof.
  intros Hm. rewrite List.map_map. apply List.map_ext_in. intros [k e] H. cbn.
  apply list_elem_of_In, elem_of_map_to_list in H. by apply Hm.
Qed.

Lemma sorted_entries_sorted m : keyed m -> sorted (sorted_entries m).
Proof.
  intros Hm. apply increasing_strongly. apply sort_by_increasing.
  rewrite sorted_entries_keys by done. apply NoDup_fst_map_to_list.
Qed.

Lemma sorted_unique l k : sorted l -> sorted k -> (forall e, e ∈ l <-> e ∈ k) -> l = k.
Proof.
  assert (forall l, sorted l -> NoDup l) as Hnd.
  { intros l0. induction l0 as [|e l' IH]; intros Hs; [constructor|]. constructor.
    - intros He. pose proof (sorted_tail_key e l' e Hs He) as Hc. by rewrite blt_irrefl in Hc.
    - apply sorted_cons in Hs as [? _]. auto. }
  intros Hl Hk Hiff. apply (StronglySorted_unique_strong (key_lt ent_key)); [|done|done|].
  - intros x y _ _ Hxy Hyx. pose proof (blt_trans _ _ _ Hxy Hyx) as Hc. by rewrite blt_irrefl in Hc.
  - apply NoDup_Permutation; auto.
Qed.

Lemma keyed_delete m k : keyed m -> keyed (delete k m).
Proof. intros Hm k' e [_ H]%lookup_delete_Some. by apply Hm. Qed.

Lemma sorted_entries_min m e :
  keyed m -> m !! ent_key e = Some e -> (forall k x, m !! k = Some x -> ble (ent_key e) k = true) ->
  sorted_entries m = e :: sorted_entries (delete (ent_key e) m).
Proof.
  intros Hm He Hmin. pose proof (keyed_delete m (ent_key e) Hm) as Hd.
  apply sorted_unique; [by apply sorted_entries_sorted| |].
  - apply sorted_cons. split; [by apply sorted_entries_sorted|]. apply Forall_forall. intros x Hx.
    apply elem_of_sorted_entries in Hx; [|done]. apply lookup_delete_Some in Hx as [Hne Hx].
    apply Hmin, ble_cases in Hx as [?|?]; done.
  - intros x. rewrite elem_of_cons, !elem_of_sorted_entries by done. rewrite lookup_delete_Some. split.
    + intros Hx. destruct (decide (x = e)) as [->|Hne]; [by left|right]. split; [|done].
      intros Heq. rewrite <- Heq in Hx. congruence.
    + intros [->|[_ Hx]]; done.
Qed.

(** *** The end bound *)

Definition before (end_ : option bytes) (k : bytes) : bool :=
  match end_ with None => true | Some e => blt k e end.
Definition upto (end_ : option bytes) (m : gmap bytes sstEntry) : gmap bytes sstEntry :=
  filter (fun p => before end_ (fst p) = true) m.

Lemma upto_lookup end_ m k : upto end_ m !! k = if before end_ k then m !! k else None.
Proof.
  unfold upto. destruct (before end_ k) eqn:E.
  - destruct (m !! k) as [e|] eqn:Hk.
    + by apply map_lookup_filter_Some.
    + apply map_lookup_filter_None. by left.
  - apply map_lookup_filter_None. right. cbn. congruence.
Qed.

Lemma upto_keyed end_ m : keyed m -> keyed (upto end_ m).
Proof. intros Hm k e. rewrite upto_lookup. destruct (before end_ k); [apply Hm|done]. Qed.

(** The list a cut source stands for. *)
Definition cut_list (end_ : option bytes) (l : list sstEntry) : list sstEntry :=
  match end_, l with
  | Some k, e :: _ => if ble k (ent_key e) then [] else l
  | _, _ => l
  end.

Lemma cut_end_at end_ c l : cursor_at c l -> cursor_at (cut_end end_ c) (cut_list end_ l).
Proof.
  intros Hc. pose proof (cursor_head c l Hc) as Hh. unfold cut_end, cut_list.
  destruct end_ as [k|]; [|done]. rewrite Hh. destruct l as [|e l]; cbn [head]; [done|].
  destruct (ble k (ent_key e)); [|done]. done.
Qed.

Lemma cut_list_sorted end_ l : sorted l -> sorted (cut_list end_ l).
Proof.
  destruct end_ as [k|], l as [|e l]; cbn; try done. destruct (ble k (ent_key e)); [constructor|done].
Qed.

Lemma cut_list_lookup end_ l k :
  sorted l -> before end_ k = true -> lmap (cut_list end_ l) !! k = lmap l !! k.
Proof.
  destruct end_ as [x|], l as [|e l]; cbn [cut_list]; try done. intros Hs Hk.
  destruct (ble x (ent_key e)) eqn:Hle; [|done]. symmetry. apply lmap_none.
  intros y Hy Heq. cbn in Hk. rewrite <- Heq in Hk.
  assert (ble (ent_key e) (ent_key y) = true) as Hey.
  { apply elem_of_cons in Hy as [->|Hy]; [apply ble_refl|]. apply blt_ble. by eapply sorted_tail_key. }
  pose proof (ble_trans _ _ _ Hle Hey) as Hxy. apply blt_false in Hxy. congruence.
Qed.

Lemma umap_cut end_ ls : Forall sorted ls -> upto end_ (umap (map (cut_list end_) ls)) = upto end_ (umap ls).
Proof.
  intros Hs. apply map_eq. intros k. rewrite !upto_lookup. destruct (before end_ k) eqn:E; [|done].
  induction Hs as [|l ls Hs1 Hs IH]; [done|]. cbn [map]. rewrite !umap_cons, !lookup_union, IH.
  by rewrite cut_list_lookup.
Qed.

Lemma dom_umap_cut end_ ls : dom (umap (map (cut_list end_) ls)) ⊆ dom (umap ls).
Proof.
  induction ls as [|l ls IH]; [done|]. cbn [map]. rewrite !umap_cons, !dom_union.
  assert (dom (lmap (cut_list end_ l)) ⊆ dom (lmap l)); [|set_solver].
  destruct end_ as [k|], l as [|e l]; cbn [cut_list]; try done.
  destruct (ble k (ent_key e)); [|done]. set_solver.
Qed.

(** ** Iteration *)

(** The merged entries before the end, without the deleted ones. *)
Definition kv_of (e : sstEntry) : Entry := mkKV (ent_key e) (ent_value e).
Definition live (e : sstEntry) : bool := negb (bool_decide (ent_kind e = deleteOp)).
Definition visible (end_ : option bytes) (m : gmap bytes sstEntry) : list Entry :=
  map kv_of (List.filter live (sorted_entries (upto end_ m))).

Record merging (sources : list sourceCursor) (ls : list (list sstEntry)) : Prop := {
  mg_at : Forall2 cursor_at sources ls;
  mg_sorted : Forall sorted ls;
  mg_prio : StronglySorted Z.lt (map c_prio sources)
}.

Lemma umap_keyed ls : keyed (umap ls).
Proof. intros k e. apply umap_key. Qed.

Lemma merging_cut end_ sources ls :
  merging sources ls -> merging (map (cut_end end_) sources) (map (cut_list end_) ls).
Proof.
  intros [Hf Hs Hp]. split.
  - apply Forall2_fmap. eapply Forall2_impl; [exact Hf|]. intros c l. apply cut_end_at.
  - apply Forall_fmap. eapply Forall_impl; [exact Hs|]. intros l. apply cut_list_sorted.
  - rewrite List.map_map. erewrite List.map_ext; [exact Hp|]. intros c. unfold cut_end.
    destruct end_ as [k|]; [|done]. destruct (c_cur c) as [e|]; [|done]. by destruct (ble k (ent_key e)).
Qed.

(** After a cut every key left in front is before the end. *)
Lemma cut_heads_before end_ ls e :
  Forall sorted ls -> umap (map (cut_list end_) ls) !! ent_key e = Some e ->
  (forall k x, umap (map (cut_list end_) ls) !! k = Some x -> ble (ent_key e) k = true) ->
  before end_ (ent_key e) = true.
Proof.
  intros Hs He Hmin. destruct end_ as [b|]; [|done]. cbn.
  induction ls as [|l ls IH]; [done|]. apply Forall_cons in Hs as [Hs1 Hs]. cbn [map] in *.
  rewrite umap_cons in He, Hmin. apply lookup_union_Some_raw in He as [He|[_ He]].
  - apply lmap_lookup in He as [_ Hin]. destruct l as [|h l]; [by apply elem_of_nil in Hin|].
    cbn [cut_list] in *. destruct (ble b (ent_key h)) eqn:Hle; [by apply elem_of_nil in Hin|].
    rewrite ble_blt, negb_false_iff in Hle.
    assert (ble (ent_key e) (ent_key h) = true) as Hh.
    { apply (Hmin _ h). apply lookup_union_Some_raw. left. rewrite lmap_cons. apply lookup_insert_eq. }
    by eapply ble_lt_trans.
  - apply IH; [done|done|]. intros k x Hx.
    destruct (lmap (cut_list (Some b) l) !! k) as [y|] eqn:E.
    + apply (Hmin k y). apply lookup_union_Some_raw. by left.
    + apply (Hmin k x). apply lookup_union_Some_raw. by right.
Qed.

Lemma size_delete_lt (m : gmap bytes sstEntry) k e : m !! k = Some e -> (size (delete k m) < size m)%nat.
Proof. intros H. rewrite <- (insert_delete_id m k e H) at 2. rewrite map_size_insert_None; [lia|apply lookup_delete_eq]. Qed.

Lemma next_visible_ok fuel it : forall sources ls,
  merging sources ls -> (size (umap ls) < fuel)%nat ->
  match visible (it_end it) (umap ls) with
  | [] => exists s', next_visible fuel it sources = (it_with it s' (it_seen it) true None, None)
  | e :: rest => exists s' ls',
      next_visible fuel it sources = (it_with it s' (it_seen it + 1) false None, Some e) /\
      merging s' ls' /\ visible (it_end it) (umap ls') = rest
  end.
Proof.
  induction fuel as [|fuel IH]; intros sources ls Hm Hf; [lia|]. cbn [next_visible].
  pose proof (merging_cut (it_end it) sources ls Hm) as Hm'. pose proof Hm as [_ Hs _].
  set (ls1 := map (cut_list (it_end it)) ls) in *.
  assert (visible (it_end it) (umap ls) = visible (it_end it) (umap ls1)) as ->.
  { unfold visible. by rewrite <- (umap_cut (it_end it) ls) by done. }
  assert (size (umap ls1) <= size (umap ls))%nat as Hsz.
  { rewrite <- !size_dom. apply subseteq_size, dom_umap_cut. }
  destruct Hm' as [Hf1 Hs1 Hp1].
  destruct (nextMergedRaw_ok _ _ Hf1 Hs1 Hp1) as [[Hnil ->]|(e & s' & -> & He & Hmin & Hf2 & Hu & Hp2)].
  { assert (visible (it_end it) (umap ls1) = []) as ->.
    { rewrite Hnil. unfold visible, upto. by rewrite map_filter_empty. }
    by eexists. }
  assert (before (it_end it) (ent_key e) = true) as Hb by (by eapply cut_heads_before).
  assert (merging s' (map (drop_key (ent_key e)) ls1)) as Hm2.
  { split; [done| |by rewrite Hp2]. apply Forall_fmap. eapply Forall_impl; [exact Hs1|]. intros l. apply drop_key_sorted. }
  assert (sorted_entries (upto (it_end it) (umap ls1))
          = e :: sorted_entries (upto (it_end it) (umap (map (drop_key (ent_key e)) ls1)))) as Hstep.
  { rewrite Hu. rewrite (sorted_entries_min _ e).
    - do 2 f_equal. apply map_eq. intros k. rewrite upto_lookup, !lookup_delete, upto_lookup.
      destruct (decide (ent_key e = k)); by destruct (before (it_end it) k).
    - apply upto_keyed, umap_keyed.
    - by rewrite upto_lookup, Hb.
    - intros k x. rewrite upto_lookup. destruct (before (it_end it) k); [apply Hmin|done]. }
  unfold visible at 1. rewrite Hstep. cbn [List.filter].
  destruct (bool_decide (ent_kind e = deleteOp)) eqn:Hk; unfold live at 1; rewrite Hk; cbn [negb map].
  - fold (visible (it_end it) (umap (map (drop_key (ent_key e)) ls1))). apply IH; [done|].
    rewrite Hu. pose proof (size_delete_lt _ _ _ He). lia.
  - eexists _, _. split; [done|]. split; [done|]. done.
Qed.

(** *** Fuel *)

Lemma yields_length src l : yields src l ->
  (length l <= match src with Active k _ => length k | Reader r => Z.to_nat (tb_entryCount (rd_table r)) end)%nat.
Proof.
  intros [k i|bs r Hr].
  - rewrite length_drop. lia.
  - destruct Hr as [[_ _ _ _ _ Hc] _ He]. rewrite Hc, len_to_nat. unfold remaining.
    destruct (rd_entries r) as [b|].
    + rewrite (concat_take_drop_lookup bs _ b He), !length_app, length_drop. lia.
    + rewrite <- (take_drop (rd_block r) bs) at 2. rewrite concat_app, length_app. lia.
Qed.

Lemma size_lmap l : (size (lmap l) <= length l)%nat.
Proof.
  induction l as [|e l IH]; [done|]. rewrite lmap_cons, map_size_insert. cbn [length].
  destruct (lmap l !! ent_key e); cbn; lia.
Qed.

Lemma size_umap_cons l ls : (size (umap (l :: ls)) <= length l + size (umap ls))%nat.
Proof.
  rewrite umap_cons, <- size_dom, dom_union_L. pose proof (size_lmap l) as H.
  rewrite size_union_alt, size_dom.
  assert (size (dom (umap ls) ∖ dom (lmap l)) <= size (dom (umap ls)))%nat by (apply subseteq_size; set_solver).
  rewrite size_dom in *. lia.
Qed.

Lemma sources_bound sources ls :
  Forall2 cursor_at sources ls -> (size (umap ls) <= sources_size sources + length sources)%nat.
Proof.
  induction 1 as [|c l sources ls Hc _ IH]; [done|].
  pose proof (size_umap_cons l ls). cbn [sources_size foldr length]. fold (sources_size sources).
  assert (length l <= S (source_size c))%nat; [|lia].
  unfold cursor_at in Hc. destruct (c_cur c) as [e|]; [|subst; cbn; lia].
  destruct Hc as (rest & -> & Hy). apply yields_length in Hy. unfold source_size. cbn. lia.
Qed.

(** *** [Next], [Scan] and [Last] over merging sources *)

Definition running (it : Iterator) (ls : list (list sstEntry)) : Prop :=
  it_closed it = false /\ it_err it = None /\ merging (it_sources it) ls.

Lemma Iterator_Next_ok it ls :
  running it ls -> it_limit it <= 0 \/ it_seen it < it_limit it ->
  match visible (it_end it) (umap ls) with
  | [] => exists it', Iterator_Next it = (it', None) /\ it_err it' = None
  | e :: rest => exists it' ls', Iterator_Next it = (it', Some e) /\ running it' ls' /\
      visible (it_end it) (umap ls') = rest /\ it_end it' = it_end it /\ it_limit it' = it_limit it /\
      it_seen it' = it_seen it + 1
  end.
Proof.
  intros (Hc & He & Hm) Hl. unfold Iterator_Next. rewrite Hc, He. cbn [orb].
  assert ((0 <? it_limit it) && (it_limit it <=? it_seen it) = false) as ->.
  { apply andb_false_iff. rewrite Z.ltb_ge, Z.leb_gt. lia. }
  pose proof (next_visible_ok (S (sources_size (it_sources it) + length (it_sources it))) it (it_sources it) ls Hm) as H.
  pose proof (sources_bound _ _ (mg_at _ _ Hm)).
  specialize (H ltac:(lia)). destruct (visible (it_end it) (umap ls)) as [|e rest].
  - destruct H as (s' & ->). by eexists.
  - destruct H as (s' & ls' & -> & Hm' & Hv). eexists _, ls'. split; [done|]. by split.
Qed.

Lemma scan_loop_ok n : forall it ls,
  running it ls -> it_limit it <= 0 \/ it_seen it + Z.of_nat n <= it_limit it ->
  scan_loop n it = (take n (visible (it_end it) (umap ls)), None).
Proof.
  induction n as [|n IH]; intros it ls Hr Hl; cbn [scan_loop]; [by destruct Hr as (_ & -> & _)|].
  pose proof (Iterator_Next_ok it ls Hr ltac:(lia)) as H.
  destruct (visible (it_end it) (umap ls)) as [|e rest].
  - destruct H as (it' & -> & He). by rewrite He.
  - destruct H as (it' & ls' & -> & Hr' & Hv & Hend & Hlim & Hseen).
    rewrite (IH it' ls') by (try done; rewrite Hlim, Hseen; lia). by rewrite Hend, Hv.
Qed.

Lemma last_loop_ok fuel : forall it ls found,
  running it ls -> it_limit it <= 0 -> (length (visible (it_end it) (umap ls)) < fuel)%nat ->
  last_loop fuel it found
  = match last (visible (it_end it) (umap ls)) with
    | Some e => Ok e
    | None => match found with Some e => Ok e | None => Fail ErrNotFound end
    end.
Proof.
  induction fuel as [|fuel IH]; intros it ls found Hr Hl Hf; [lia|]. cbn [last_loop].
  pose proof (Iterator_Next_ok it ls Hr ltac:(lia)) as H.
  destruct (visible (it_end it) (umap ls)) as [|e rest] eqn:Hv.
  - destruct H as (it' & -> & He). by rewrite He.
  - destruct H as (it' & ls' & -> & Hr' & Hv' & Hend & Hlim & _).
    rewrite (IH it' ls') by (try done; rewrite ?Hlim, ?Hend, ?Hv'; cbn in Hf; lia).
    rewrite Hend, Hv'. rewrite last_cons. by destruct (last rest).
Qed.

(** ** Opening the sources of a view *)

(** The table file holds the entries [l]. *)
Definition file_ok (opts : Options) (dir : gmap bytes bytes) (f : sstFile) (l : list sstEntry) : Prop :=
  exists level id maxLSN bs, layout_ok opts level id maxLSN bs /\
    dir !! sst_name f = Some (layout level id maxLSN bs) /\ f = layout_meta level id maxLSN bs /\ l = concat bs.

Lemma file_ok_sorted opts dir f l : file_ok opts dir f l -> sorted l.
Proof. intros (level & id & maxLSN & bs & Hok & _ & _ & ->). apply (ly_entries _ _ _ _ _ Hok). Qed.

(** A freshly opened source. *)
Inductive fresh_source : sourceCursor -> list sstEntry -> Prop :=
| fresh_active l p : fresh_source (mkCursor (Active l 0) None p) l
| fresh_reader bs r p : reader_ok bs r -> bs <> [] -> fresh_source (mkCursor (Reader r) None p) (concat bs).

Definition from_start (start : option bytes) (l : list sstEntry) : list sstEntry :=
  match start with None => l | Some k => List.filter (at_least ent_key k) l end.

Lemma from_start_sorted start l : sorted l -> sorted (from_start start l).
Proof.
  intros Hs. destruct start as [k|]; [|done]. cbn [from_start]. rewrite <- drop_Search by done.
  set (n := sort.Search _ _). unfold sorted in Hs. rewrite <- (take_drop n l) in Hs.
  by apply strongly_app in Hs as (_ & Hs & _).
Qed.

Lemma cursor_init_ok c l start :
  fresh_source c l -> sorted l ->
  exists c', cursor_init c start = Ok c' /\ cursor_at c' (from_start start l) /\ c_prio c' = c_prio c.
Proof.
  intros Hfr Hs. unfold cursor_init. destruct Hfr as [l p|bs r p Hr Hne]; cbn [c_src c_cur c_prio].
  - cbn [mbind result_bind]. apply (advance_ok (mkCursor (Active l _) None p)). cbn [c_src].
    assert (from_start start l = drop (sort.Search (length l)
       (fun i => match start with None => true | Some k => key_at_least ent_key l k i end)) l) as ->; [|constructor].
    destruct start as [k|]; cbn [from_start]; [symmetry; by apply drop_Search|].
    destruct (sort.Search_spec (length l) (fun _ => true)) as (_ & Hlo & _); [by intros ? ? ? ?|].
    destruct (sort.Search (length l) (fun _ => true)) as [|n]; [done|]. specialize (Hlo 0%nat ltac:(lia)). done.
  - destruct (seek_ok bs r start Hr) as (r' & -> & Hr' & Hrem). cbn [mbind result_bind].
    apply (advance_ok (mkCursor (Reader r') None p)). cbn [c_src].
    assert (length bs =? 0 = false)%nat as Hz by (apply Nat.eqb_neq; by destruct bs).
    rewrite Hz in Hrem. destruct start as [k|]; cbn [from_start]; rewrite <- Hrem; by constructor.
Qed.

Lemma init_all_ok start sources ls :
  Forall2 fresh_source sources ls -> Forall sorted ls ->
  exists sources', init_all sources start = Ok sources' /\
    Forall2 cursor_at sources' (map (from_start start) ls) /\ map c_prio sources' = map c_prio sources.
Proof.
  intros Hf. induction Hf as [|c l sources ls Hc _ IH]; intros Hs; cbn [init_all map].
  { exists []. split; [done|]. split; [constructor|done]. }
  apply Forall_cons in Hs as [Hs1 Hs]. destruct (cursor_init_ok c l start Hc Hs1) as (c' & -> & Hc' & Hp).
  destruct (IH Hs) as (rest & Hrest & Hat & Hps). cbn [mbind result_bind]. rewrite Hrest. cbn [mbind result_bind].
  eexists. split; [done|]. split; [by constructor|]. cbn. congruence.
Qed.

Lemma open_sources_ok v : opts_ok (v_opt v) -> forall files ls p,
  Forall2 (file_ok (v_opt v) (v_dir v)) files ls ->
  exists cs, open_sources v files p = Ok cs /\ Forall2 fresh_source cs ls /\
             map c_prio cs = seqZ p (len files).
Proof.
  intros Ho files ls p Hf. revert p. induction Hf as [|f l files ls Hfile _ IH]; intros p; cbn [open_sources].
  { exists []. split; [done|]. split; [constructor|done]. }
  destruct Hfile as (level & id & maxLSN & bs & Hok & Hdir & -> & ->).
  rewrite Hdir, open_layout by done. cbn [mbind result_bind].
  destruct (IH (p + 1)) as (cs & -> & Hfr & Hp). cbn [mbind result_bind].
  eexists. split; [done|]. split.
  - constructor; [|done]. constructor; [by apply open_reader_ok|]. apply (ly_blocks _ _ _ _ _ Hok).
  - cbn [map c_prio]. rewrite Hp, len_cons. pose proof (len_nonneg files).
    rewrite (seqZ_cons p (1 + len files)) by lia. do 2 f_equal; lia.
Qed.

Lemma seqZ_strongly s n : StronglySorted Z.lt (seqZ s (Z.of_nat n)).
Proof.
  revert s. induction n as [|n IH]; intros s; [constructor|]. rewrite seqZ_cons by lia.
  replace (Z.pred (Z.of_nat (S n))) with (Z.of_nat n) by lia. constructor; [apply IH|].
  apply Forall_forall. intros x Hx%elem_of_seqZ. lia.
Qed.

(** ** The contents of a store *)

(** The live memtable, the L0 tables oldest first, the L1 tables in order. *)
Record store_ok (opts : Options) (dir : gmap bytes bytes) (active : gmap bytes memEntry)
    (files : list sstFile) (t0 t1 : list (list sstEntry)) : Prop := {
  so_opts : opts_ok opts;
  so_active : keyed active;
  so_l0 : Forall2 (file_ok opts dir) (level_files x00 files) t0;
  so_l1 : Forall2 (file_ok opts dir) (level_files x01 files) t1;
  so_disjoint : sorted (concat t1)
}.

(** Newer sources shadow older ones. *)
Definition contents (active : gmap bytes memEntry) (t0 t1 : list (list sstEntry)) : gmap bytes sstEntry :=
  active ∪ umap (rev t0 ++ t1).

(** The live key-value pairs from [start] on, before [end_], in key order. *)
Definition starting (start : option bytes) (m : gmap bytes sstEntry) : gmap bytes sstEntry :=
  match start with None => m | Some s => filter (fun p => ble s (fst p) = true) m end.
Definition range_of (start end_ : option bytes) (m : gmap bytes sstEntry) : list Entry :=
  visible end_ (starting start m).

Lemma lmap_active m : keyed m -> lmap (sort_by ent_key (entriesFromActive m)) = m.
Proof.
  intros Hm. apply map_eq. intros k. fold (sorted_entries m).
  pose proof (sorted_entries_sorted m Hm) as Hs.
  destruct (m !! k) as [e|] eqn:E.
  - pose proof (Hm k e E) as Hk. subst k. apply lmap_elem; [done|]. by apply elem_of_sorted_entries.
  - apply lmap_none. intros e He Hk. apply elem_of_sorted_entries in He; [|done]. congruence.
Qed.

Lemma starting_lookup start m k :
  starting start m !! k = if (match start with None => true | Some s => ble s k end) then m !! k else None.
Proof.
  destruct start as [s|]; [|done]. cbn [starting]. destruct (ble s k) eqn:E.
  - destruct (m !! k) as [e|] eqn:Hk.
    + by apply map_lookup_filter_Some.
    + apply map_lookup_filter_None. by left.
  - apply map_lookup_filter_None. right. cbn. congruence.
Qed.

Lemma lmap_from start l k :
  sorted l -> lmap (from_start start l) !! k
              = if (match start with None => true | Some s => ble s k end) then lmap l !! k else None.
Proof.
  intros Hs. destruct start as [s|]; [|done]. cbn [from_start].
  induction l as [|e l IH]; [by destruct (ble s k)|]. pose proof Hs as [Hs' Hf]%sorted_cons. cbn [List.filter].
  unfold at_least at 1. destruct (ble s (ent_key e)) eqn:E.
  - rewrite !lmap_cons. destruct (decide (ent_key e = k)) as [<-|Hne].
    + by rewrite !lookup_insert_eq, E.
    + rewrite !lookup_insert_ne by done. by apply IH.
  - rewrite IH by done. destruct (ble s k) eqn:Ek; [|done]. rewrite lmap_cons, lookup_insert_ne; [done|].
    intros <-. congruence.
Qed.

Lemma umap_from start ls : Forall sorted ls -> umap (map (from_start start) ls) = starting start (umap ls).
Proof.
  intros Hs. apply map_eq. intros k. rewrite starting_lookup.
  induction Hs as [|l ls Hs1 Hs IH]; [by destruct start as [s|]; [destruct (ble s k)|]|].
  cbn [map]. rewrite !umap_cons, !lookup_union, IH, lmap_from by done.
  by destruct (match start with None => true | Some s => ble s k end).
Qed.

Section views.
Context (opts : Options) (dir : gmap bytes bytes) (active : gmap bytes memEntry) (files : list sstFile).
Context (t0 t1 : list (list sstEntry)) (Hst : store_ok opts dir active files t0 t1).
Let v := newViewLocked dir opts active files.

Lemma store_tables_sorted : Forall sorted (rev t0 ++ t1).
Proof.
  destruct Hst as [_ _ H0 H1 _]. apply Forall_app. split.
  - apply Forall_forall. intros l Hl. apply list_elem_of_In, in_rev, list_elem_of_In in Hl.
    eapply Forall2_Forall_r in H0; [|apply Forall_forall; intros x _ y; apply file_ok_sorted].
    rewrite Forall_forall in H0. by apply H0.
  - eapply Forall2_Forall_r in H1; [exact H1|]. apply Forall_forall. intros x _ y. apply file_ok_sorted.
Qed.

Lemma buildSources_ok start :
  exists sources ls, buildSources v start = Ok sources /\ merging sources ls /\
                     umap ls = starting start (contents active t0 t1).
Proof.
  pose proof Hst as [Ho Hka H0 H1 _]. unfold buildSources. cbv zeta. change (v_files v) with files.
  set (act := if 0 <? len (v_active v) then _ else _).
  set (la := if 0 <? len (v_active v) then [v_active v] else []).
  assert (Forall2 fresh_source act la /\ map c_prio act = seqZ 0 (len act) /\ 0 <= len act) as (Hfa & Hpa & Hla).
  { unfold act, la. destruct (0 <? len (v_active v)); (split; [repeat constructor|]); split; try done. }
  assert (Forall2 (file_ok opts dir) (rev (level_files x00 files)) (rev t0)) as H0r by (by apply Forall2_reverse in H0; rewrite !rev_alt).
  destruct (open_sources_ok v Ho _ _ (len act) H0r) as (c0 & -> & Hf0 & Hp0). cbn [mbind result_bind].
  destruct (open_sources_ok v Ho _ _ (len act + len (rev (level_files x00 files))) H1) as (c1 & -> & Hf1 & Hp1).
  cbn [mbind result_bind].
  assert (Forall sorted (la ++ rev t0 ++ t1)) as Hsort.
  { apply Forall_app. split; [|apply store_tables_sorted]. unfold la.
    destruct (0 <? len (v_active v)); [|constructor]. constructor; [|constructor]. by apply sorted_entries_sorted. }
  destruct (init_all_ok start (act ++ c0 ++ c1) (la ++ rev t0 ++ t1)) as (sources & -> & Hat & Hp).
  { by repeat apply Forall2_app. }
  { done. }
  exists sources, (map (from_start start) (la ++ rev t0 ++ t1)). split; [done|]. split.
  - split; [done| |].
    + apply Forall_fmap. eapply Forall_impl; [exact Hsort|]. intros l. apply from_start_sorted.
    + rewrite Hp, !map_app, Hpa, Hp0, Hp1.
      pose proof (len_nonneg (rev (level_files x00 files))). pose proof (len_nonneg (level_files x01 files)).
      cbn [v_files v newViewLocked]. change (seqZ (len act) (len (rev (level_files x00 files))))
        with (seqZ (0 + len act) (len (rev (level_files x00 files)))).
      rewrite app_assoc, <- seqZ_app by lia.
      replace (len act + len (rev (level_files x00 files))) with (0 + (len act + len (rev (level_files x00 files)))) at 2 by lia.
      rewrite <- seqZ_app by lia.
      rewrite <- (Z2Nat.id (len act + len (rev (level_files x00 files)) + len (level_files x01 files))) by lia.
      apply seqZ_strongly.
  - rewrite umap_from by done. f_equal. unfold contents, la.
    destruct (Z.ltb_spec 0 (len (v_active v))) as [Hl|Hl]; cbn [app].
    + rewrite umap_cons. f_equal. by apply lmap_active.
    + pose proof (len_nonneg (v_active v)). assert (v_active v = []) as Hnil by (apply len_zero_nil; lia).
      pose proof (lmap_active active Hka) as Hm. cbn [v newViewLocked v_active] in Hnil. rewrite Hnil in Hm.
      rewrite <- Hm. cbn. by rewrite (left_id_L ∅ (∪)).
Qed.

Lemma empty_range start end_ m :
  (match start, end_ with Some s, Some e => ble e s | _, _ => false end) = true -> range_of start end_ m = [].
Proof.
  destruct start as [s|], end_ as [e|]; try done. intros H. unfold range_of, visible.
  assert (upto (Some e) (starting (Some s) m) = ∅) as ->; [|done].
  apply map_eq. intros k. rewrite upto_lookup, starting_lookup, lookup_empty. cbn.
  destruct (blt k e) eqn:E1, (ble s k) eqn:E2; try done.
  pose proof (ble_trans _ _ _ H E2) as Hc. apply blt_false in Hc. congruence.
Qed.

Lemma newIteratorRange_ok start end_ limit :
  validateRange opts start end_ = Ok tt ->
  exists it ls, newIteratorRange v start end_ limit = Ok it /\ running it ls /\ it_end it = end_ /\
    it_limit it = limit /\ it_seen it = 0 /\
    visible end_ (umap ls) = range_of start end_ (contents active t0 t1).
Proof.
  intros Hr. unfold newIteratorRange. change (v_opt v) with opts. rewrite Hr. cbn [mbind result_bind].
  destruct (match start, end_ with Some s, Some e => ble e s | _, _ => false end) eqn:E.
  - eexists _, []. split; [done|]. split; [split; [done|]; split; [done|]; split; constructor|].
    split; [done|]. split; [done|]. split; [done|].
    rewrite empty_range by done. unfold visible, upto. cbn. by rewrite map_filter_empty.
  - destruct (buildSources_ok start) as (sources & ls & -> & Hm & Hu). cbn [mbind result_bind].
    eexists _, ls. split; [done|]. split; [by split|]. split; [done|]. split; [done|]. split; [done|].
    by rewrite Hu.
Qed.

(** *** Lookups *)

Lemma find_lmap key l : sorted l -> List.find (fun e => beq (ent_key e) key) l = lmap l !! key.
Proof.
  induction l as [|e l IH]; intros Hs; [done|]. cbn [List.find]. rewrite lmap_cons.
  apply sorted_cons in Hs as [Hs _]. destruct (beq (ent_key e) key) eqn:E.
  - apply beq_true in E as <-. by rewrite lookup_insert_eq.
  - apply beq_false in E. rewrite lookup_insert_ne by done. by apply IH.
Qed.

Lemma file_ok_lookup f l key :
  file_ok opts dir f l ->
  lookupSST (dir !! sst_name f) f key opts = Ok (lmap l !! key) /\
  (in_range f key = false -> lmap l !! key = None).
Proof.
  intros Hf. pose proof (file_ok_sorted _ _ _ _ Hf) as Hs.
  destruct Hf as (level & id & maxLSN & bs & Hok & Hdir & -> & ->).
  pose proof Hst as [Ho _ _ _ _]. split.
  - rewrite Hdir, lookup_layout by done. by rewrite find_lmap.
  - intros Hr. apply lmap_none. intros e He Hk. unfold in_range in Hr.
    cbn [layout_meta sst_minKey sst_maxKey] in Hr. apply negb_false_iff, orb_true_iff in Hr as [Hr|Hr].
    + destruct (concat bs) as [|x l] eqn:E; [by apply elem_of_nil in He|]. cbn [first_key] in Hr.
      apply elem_of_cons in He as [->|He]; [by rewrite Hk, blt_irrefl in Hr|].
      pose proof (sorted_tail_key x l e Hs He) as Hlt. rewrite Hk in Hlt.
      pose proof (blt_trans _ _ _ Hr Hlt) as Hc. by rewrite blt_irrefl in Hc.
    + pose proof (last_key_max _ e Hs He) as Hle. rewrite Hk in Hle. apply blt_false in Hle. congruence.
Qed.

(** What a lookup reports of an entry of the map, or of its absence. *)
Definition reported (e : option sstEntry) : result engine_error bytes :=
  match e with Some e => entry_value e | None => Fail ErrNotFound end.

Lemma lookup_l0_ok fs ls key next :
  Forall2 (file_ok opts dir) fs ls ->
  lookup_l0 v fs key next = match umap ls !! key with Some e => entry_value e | None => next end.
Proof.
  induction 1 as [|f l fs ls Hf _ IH]; [done|]. cbn [lookup_l0]. rewrite umap_cons, lookup_union.
  destruct (file_ok_lookup f l key Hf) as [Hl Hr]. destruct (in_range f key); cbn [negb].
  - change (v_dir v) with dir. change (v_opt v) with opts. rewrite Hl. cbn [mbind result_bind].
    destruct (lmap l !! key) as [e|]; [by destruct (umap ls !! key)|]. rewrite IH. by rewrite (left_id_L None (∪)).
  - rewrite IH, Hr by done. by rewrite (left_id_L None (∪)).
Qed.

Lemma lookup_l1_ok fs ls key :
  Forall2 (file_ok opts dir) fs ls -> sorted (concat ls) ->
  lookup_l1 v fs key = reported (umap ls !! key).
Proof.
  induction 1 as [|f l fs ls Hf Hfs IH]; intros Hs; [done|]. cbn [lookup_l1 concat] in *.
  rewrite umap_cons, lookup_union. apply strongly_app in Hs as (Hsl & Hs & Hcross).
  destruct (file_ok_lookup f l key Hf) as [Hl Hr]. destruct (in_range f key) eqn:Hin; cbn [negb].
  - change (v_dir v) with dir. change (v_opt v) with opts. rewrite Hl. cbn [mbind result_bind].
    destruct (lmap l !! key) as [e|]; [by destruct (umap ls !! key)|].
    (* the key lies within this table's range, so no later table has it *)
    assert (umap ls !! key = None) as ->; [|done].
    destruct (umap ls !! key) as [x|] eqn:E; [|done]. exfalso.
    assert (ent_key x = key /\ x ∈ concat ls) as [Hk Hx].
    { clear -E. induction ls as [|l ls IH]; [done|]. rewrite umap_cons in E. cbn [concat].
      apply lookup_union_Some_raw in E as [E|[_ E]]; [apply lmap_lookup in E|apply IH in E];
        destruct E as [? ?]; (split; [done|]); apply elem_of_app; auto. }
    destruct Hf as (level & id & maxLSN & bs & Hok & _ & -> & ->). unfold in_range in Hin.
    cbn [layout_meta sst_minKey sst_maxKey] in Hin. apply negb_true_iff, orb_false_iff in Hin as [_ Hmax].
    pose proof (layout_entries_pos _ _ _ _ _ Hok) as [_ Hpos].
    destruct (last_key_elem (concat bs)) as (y & Hy & _ & Hyk); [by intros Hnil; rewrite Hnil in Hpos|].
    specialize (Hcross y x Hy Hx). unfold key_lt in Hcross. rewrite <- Hyk, Hk in Hcross. congruence.
  - rewrite IH, Hr by done. by rewrite (left_id_L None (∪)).
Qed.

Lemma lookupView_ok key :
  validateKey key (MaxKeyBytes opts) = Ok tt ->
  lookupView v key = reported (contents active t0 t1 !! key).
Proof.
  intros Hk. unfold lookupView. change (v_opt v) with opts. rewrite Hk. cbn [mbind result_bind].
  pose proof Hst as [Ho Hka H0 H1 Hd].
  rewrite find_lmap by (by apply sorted_entries_sorted). change (v_active v) with (sort_by ent_key (entriesFromActive active)).
  rewrite lmap_active by done. unfold contents. rewrite lookup_union.
  destruct (active !! key) as [e|]; [by destruct (umap (rev t0 ++ t1) !! key)|].
  rewrite (left_id_L None (∪)). change (v_files v) with files.
  assert (Forall2 (file_ok opts dir) (rev (level_files x00 files)) (rev t0)) as H0r
    by (by apply Forall2_reverse in H0; rewrite !rev_alt).
  rewrite (lookup_l0_ok _ _ key _ H0r), (lookup_l1_ok _ _ key H1 Hd).
  assert (umap (rev t0 ++ t1) = umap (rev t0) ∪ umap t1) as ->.
  { generalize (rev t0). intros a. induction a as [|l a IH]; cbn [app]; [symmetry; apply (left_id_L ∅ (∪))|].
    by rewrite !umap_cons, IH, (assoc_L (∪)). }
  rewrite lookup_union. destruct (umap (rev t0) !! key) as [e|]; [by destruct (umap t1 !! key)|].
  by rewrite (left_id_L None (∪)).
Qed.
End views.

(** A written table holds its sorted entries. *)
Lemma encodeSST_file_ok opts dir entries level id maxLSN file meta :
  opts_ok opts -> u8 level <= 1 -> is_u64 id -> encodeSST entries level id maxLSN opts = Ok (file, meta) ->
  dir !! sst_name meta = Some file -> file_ok opts dir meta (sort_by ent_key entries).
Proof.
  intros Ho Hl Hid He Hd. destruct (encodeSST_layout _ _ _ _ _ _ _ Ho Hl Hid He) as (bs & <- & Hok & -> & ->).
  by exists level, id, maxLSN, bs.
Qed.

(** ** Theorems *)

(** a point read returns what the newest source says of the key: the
    memtable before the L0 tables, newer L0 tables before older ones, all of
    them before the L1 tables; a tombstone or no entry is [ErrNotFound], and
    an invalid key is refused. *)
Theorem Get_newest opts dir active files t0 t1 key :
  store_ok opts dir active files t0 t1 ->
  lookupView (newViewLocked dir opts active files) key
  = match validateKey key (MaxKeyBytes opts) with
    | Fail e => Fail e
    | Ok _ => match contents active t0 t1 !! key with
              | Some e => if bool_decide (ent_kind e = deleteOp) then Fail ErrNotFound else Ok (ent_value e)
              | None => Fail ErrNotFound
              end
    end.
Proof.
  intros Hst. destruct (validateKey key (MaxKeyBytes opts)) as [[]|e] eqn:Hk.
  - rewrite (lookupView_ok opts dir active files t0 t1 Hst key Hk). done.
  - unfold lookupView. cbn [newViewLocked v_opt]. by rewrite Hk.
Qed.

(** a bounded scan returns the first [limit] live key-value pairs of the
    range in key order, each with its newest value, without duplicates or
    deleted keys; limits and bounds out of range are refused. *)
Theorem Scan_range opts dir active files t0 t1 start end_ limit :
  store_ok opts dir active files t0 t1 ->
  view_Scan (newViewLocked dir opts active files) start end_ limit
  = if (limit <=? 0) || (MaxScanItems opts <? limit) then Fail ErrInvalidLimit
    else match validateRange opts start end_ with
         | Fail e => Fail e
         | Ok _ => Ok (take (Z.to_nat limit) (range_of start end_ (contents active t0 t1)), None)
         end.
Proof.
  intros Hst. unfold view_Scan, newIterator. change (v_opt (newViewLocked dir opts active files)) with opts.
  destruct ((limit <=? 0) || (MaxScanItems opts <? limit)) eqn:Hl; [done|]. cbn [fail_if mbind result_bind].
  apply orb_false_iff in Hl as [Hl%Z.leb_gt _].
  destruct (validateRange opts start end_) as [[]|e] eqn:Hr.
  - destruct (newIteratorRange_ok opts dir active files t0 t1 Hst start end_ limit Hr)
      as (it & ls & -> & Hrun & Hend & Hlim & Hseen & Hv). cbn [mbind result_bind].
    rewrite (scan_loop_ok _ it ls) by (try done; rewrite Hlim, Hseen; lia). by rewrite Hend, Hv.
  - unfold newIteratorRange. change (v_opt (newViewLocked dir opts active files)) with opts. by rewrite Hr.
Qed.

(** [Last] returns the live pair with the greatest key of the range, and
    [ErrNotFound] when there is none. *)
Theorem Last_range opts dir active files t0 t1 start end_ :
  store_ok opts dir active files t0 t1 -> validateRange opts start end_ = Ok tt ->
  view_Last (newViewLocked dir opts active files) start end_
  = match last (range_of start end_ (contents active t0 t1)) with
    | Some e => Ok e
    | None => Fail ErrNotFound
    end.
Proof.
  intros Hst Hr. unfold view_Last, newStreamingIterator.
  destruct (newIteratorRange_ok opts dir active files t0 t1 Hst start end_ 0 Hr)
    as (it & ls & -> & Hrun & Hend & Hlim & Hseen & Hv). cbn [mbind result_bind].
  rewrite (last_loop_ok _ it ls None Hrun); [by rewrite Hend, Hv|lia|].
  destruct Hrun as (_ & _ & Hm). pose proof (sources_bound _ _ (mg_at _ _ Hm)).
  assert (length (visible (it_end it) (umap ls)) <= size (umap ls))%nat; [|lia].
  unfold visible. rewrite length_map. etrans; [apply List.filter_length_le|].
  unfold sorted_entries. rewrite (Permutation_length (sort_by_perm _ _)), length_map, length_map_to_list.
  unfold upto. apply map_size_filter.
Qed.

(** ** Instances at concrete inputs *)

Definition sample_dir : gmap bytes bytes := {[sst_name (snd sample_table) := fst sample_table]}.
Definition sample_active : gmap bytes memEntry := {[lit "b" := mkEntry putOp (lit "b") (lit "9")]}.

Lemma sample_store_ok :
  store_ok sample_opts sample_dir sample_active [snd sample_table] [sort_by ent_key sample_entries] [].
Proof.
  assert (opts_ok sample_opts) as Ho by (vm_compute; intuition discriminate).
  split; [done| | | |constructor].
  - intros k e. unfold sample_active. rewrite lookup_singleton_Some. by intros [<- <-].
  - change (level_files x00 [snd sample_table]) with [snd sample_table]. constructor; [|constructor].
    apply (encodeSST_file_ok sample_opts sample_dir sample_entries x00 7 9 (fst sample_table)).
    + done.
    + vm_compute. discriminate.
    + vm_compute. split; discriminate.
    + vm_compute. reflexivity.
    + apply lookup_singleton_eq.
  - constructor.
Qed.

Lemma Get_newest_witness :
  lookupView (newViewLocked sample_dir sample_opts sample_active [snd sample_table]) (lit "b") = Ok (lit "9") /\
  lookupView (newViewLocked sample_dir sample_opts sample_active [snd sample_table]) (lit "c") = Ok (lit "3") /\
  lookupView (newViewLocked sample_dir sample_opts sample_active [snd sample_table]) (lit "a") = Fail ErrNotFound.
Proof.
  rewrite !(Get_newest _ _ _ _ _ _ _ sample_store_ok). vm_compute. done.
Defined.

Lemma Scan_range_witness :
  view_Scan (newViewLocked sample_dir sample_opts sample_active [snd sample_table]) (Some (lit "a")) None 5
  = Ok ([mkKV (lit "b") (lit "9"); mkKV (lit "c") (lit "3")], None).
Proof. rewrite (Scan_range _ _ _ _ _ _ _ _ _ sample_store_ok). vm_compute. reflexivity. Defined.

Lemma Last_range_witness :
  view_Last (newViewLocked sample_dir sample_opts sample_active [snd sample_table]) None (Some (lit "c"))
  = Ok (mkKV (lit "b") (lit "9")).
Proof.
  rewrite (Last_range _ _ _ _ _ _ None (Some (lit "c")) sample_store_ok eq_refl). vm_compute. reflexivity.
Defined.
