(* ===== verification/Manifest.v ===== *)
(** [internal/engine/manifest.go]: the manifest and CURRENT formats. *)

From Stdlib Require Import ZArith Lia.
From stdpp Require Import base list gmap.
From S2P Require Import Prelude GoStd EngineOps Fs Sst.

Local Open Scope Z_scope.

Definition manifestMagic : bytes := lit "VBMF".
Definition manifestVersion : byte := x01.
Definition manifestHeaderLen : Z := 44.
Definition currentMagic : bytes := lit "VBCT".
Definition currentVersion : byte := x01.
Definition currentHeaderLen : Z := 8.
Definition manifestMaxBytes : Z := 2 ^ 20.
Definition maxManifestFiles : Z := 4096.

Record manifest : Type := mkManifest {
  generation : Z;
  flushedLSN : Z;
  mf_files : list sstFile;
  nextSST : Z
}.

(** ** Names *)

Definition allDigits (s : bytes) : bool := negb (bool_decide (s = [])) && forallb is_digit s.

Definition validManifestName (name : bytes) : bool :=
  (len name =? 29) && beq (take 9 name) (lit "MANIFEST-") && allDigits (drop 9 name).

Definition manifestName (gen : Z) : bytes := lit "MANIFEST-" ++ decimal 20 gen.

Definition maxIDOrOne (id : Z) : Z := if id =? 0 then 1 else id.

(** [highestManifest] over the names of the root directory. *)
Fixpoint highest_of (names : list bytes) (best : option (bytes * Z)) : option (bytes * Z) :=
  match names with
  | [] => best
  | name :: names' =>
      highest_of names'
        (match parseNumberName name (lit "MANIFEST-") [] with
         | None => best
         | Some id => match best with
                      | None => Some (name, id)
                      | Some (_, bestID) => if bestID <? id then Some (name, id) else best
                      end
         end)
  end.
Definition highestManifest (names : list bytes) : option bytes := fst <$> highest_of names None.

(** ** Encoding *)

Definition member_fixed (f : sstFile) : bytes :=
  be 2 (len (sst_name f)) ++ [sst_level f; x00] ++ be 4 (sst_entryCount f) ++ be 8 (sst_bytes f)
  ++ be 2 (len (sst_minKey f)) ++ be 2 (len (sst_maxKey f)).
Definition member_bytes (f : sstFile) : bytes :=
  member_fixed f ++ sst_name f ++ sst_minKey f ++ sst_maxKey f.

Definition member_bad (f : sstFile) : bool :=
  negb (validSSTName (sst_name f)) || (maxSSTNameLen <? len (sst_name f)) || (1 <? u8 (sst_level f))
  || (len (sst_minKey f) <? 1) || (len (sst_maxKey f) <? 1)
  || (max_uint16 <? len (sst_minKey f)) || (max_uint16 <? len (sst_maxKey f)).

(** Bytes 0 to 39 of a manifest, and its header. *)
Definition manifest_head (m : manifest) (count bodyLen bodyCRC : Z) : bytes :=
  manifestMagic ++ [manifestVersion; x00; x00; x00] ++ be 8 (generation m) ++ be 8 (flushedLSN m)
  ++ be 4 count ++ be 4 bodyLen ++ be 4 bodyCRC ++ be 4 0.
Definition manifest_header (m : manifest) (count bodyLen bodyCRC : Z) : bytes :=
  let h := manifest_head m count bodyLen bodyCRC in h ++ be 4 (crc32.Checksum h).

Definition encodeManifest (m : manifest) : result engine_error bytes :=
  fail_if (existsb member_bad (mf_files m)) (ErrCorrupt "invalid manifest file");;
  let body := concat (map member_bytes (mf_files m)) in
  fail_if ((manifestMaxBytes - manifestHeaderLen <? len body) || (maxManifestFiles <? len (mf_files m)))
    (ErrBatchTooLarge "manifest too large");;
  Ok (manifest_header m (len (mf_files m)) (len body) (crc32.Checksum body) ++ body).

Definition current_head (name : bytes) : bytes :=
  currentMagic ++ [currentVersion; x00] ++ be 2 (len name) ++ name.
Definition encodeCurrent (name : bytes) : result engine_error bytes :=
  fail_if (negb (validManifestName name) || (max_uint16 <? len name)) (ErrCorrupt "invalid CURRENT target");;
  Ok (current_head name ++ be 4 (crc32.Checksum (current_head name))).

(** ** Decoding *)

Definition decodeCurrent (data : bytes) : result engine_error bytes :=
  fail_if ((len data <? currentHeaderLen + 4) || negb (beq (sub data 0 4) currentMagic)
           || negb (beq (sub data 4 6) [currentVersion; x00])
           || negb (un_be (sub data (len data - 4) (len data)) =? crc32.Checksum (sub data 0 (len data - 4))))
    (ErrCorrupt "invalid CURRENT");;
  let nameLen := un_be (sub data 6 8) in
  fail_if ((nameLen <? 1) || negb (currentHeaderLen + nameLen + 4 =? len data)) (ErrCorrupt "invalid CURRENT length");;
  let name := sub data 8 (8 + nameLen) in
  fail_if (negb (validManifestName name)) (ErrCorrupt "invalid CURRENT target");;
  Ok name.

(** The member loop with [n] members left; [data] is the unread part and
    [lastL1] the last key of the last L1 member, if there was one. *)
Fixpoint read_members (opts : Options) (n : nat) (data : bytes) (lastL1 : option bytes) (maxID : Z)
    (files : list sstFile) : result engine_error (list sstFile * bytes * Z) :=
  match n with
  | O => Ok (files, data, maxID)
  | S n' =>
      fail_if (len data <? 20) (ErrCorrupt "truncated manifest member");;
      let nameLen := un_be (sub data 0 2) in
      let level := match data !! 2%nat with Some b => b | None => x00 end in
      fail_if (negb (beq (sub data 3 4) [x00]) || (nameLen <? 1) || (maxSSTNameLen <? nameLen)
               || (len data <? 20 + nameLen)) (ErrCorrupt "invalid manifest member bounds");;
      let memberName := sub data 20 (20 + nameLen) in
      fail_if (negb (validSSTName memberName) || (1 <? u8 level)) (ErrCorrupt "invalid manifest member name/level");;
      fail_if (bool_decide (level = x00) && match lastL1 with Some _ => true | None => false end)
        (ErrCorrupt "L0 member follows L1");;
      let entryCount := un_be (sub data 4 8) in
      let fileBytes := int64 (un_be (sub data 8 16)) in
      let minLen := un_be (sub data 16 18) in
      let maxLen := un_be (sub data 18 20) in
      fail_if ((minLen <? 1) || (maxLen <? 1) || (MaxKeyBytes opts <? minLen) || (MaxKeyBytes opts <? maxLen))
        (ErrCorrupt "invalid manifest key bounds");;
      let keyPos := 20 + nameLen in
      let memberEnd := keyPos + minLen + maxLen in
      fail_if ((len data <? memberEnd) || (entryCount =? 0) || (fileBytes <? sstHeaderLen + sstFooterLen)
               || (MaxSSTBytes opts <? fileBytes)) (ErrCorrupt "invalid manifest member metadata");;
      let minKey := sub data keyPos (keyPos + minLen) in
      let maxKey := sub data (keyPos + minLen) memberEnd in
      fail_if (bool_decide (level = x01) && match lastL1 with Some p => ble minKey p | None => false end)
        (ErrCorrupt "overlapping L1 ranges");;
      let lastL1 := if bool_decide (level = x01) then Some maxKey else lastL1 in
      let maxID := match parseNumberName memberName (lit "sst-") (lit ".sst") with
                   | Some id => if maxID <=? id then uint64 (id + 1) else maxID
                   | None => maxID
                   end in
      read_members opts n' (drop (Z.to_nat memberEnd) data) lastL1 maxID
        (files ++ [mkSstFile memberName level minKey maxKey entryCount fileBytes])
  end.

(** [data] is what the file system holds under the manifest's name, within
    the size bound. *)
Definition readManifest (name : bytes) (data : option bytes) (opts : Options) : result engine_error manifest :=
  fail_if (negb (validManifestName name)) (ErrCorrupt "invalid CURRENT manifest name");;
  match data with
  | None => Fail (ErrCorrupt "read manifest")
  | Some data =>
      fail_if (manifestMaxBytes <? len data) (ErrCorrupt "read manifest");;
      fail_if ((len data <? manifestHeaderLen) || negb (beq (sub data 0 4) manifestMagic)
               || negb (beq (sub data 4 5) [manifestVersion]) || negb (un_be (sub data 6 8) =? 0))
        (ErrCorrupt "invalid manifest header");;
      fail_if (negb (un_be (sub data 40 44) =? crc32.Checksum (sub data 0 40))) (ErrCorrupt "manifest header checksum");;
      let gen := un_be (sub data 8 16) in
      fail_if (match parseNumberName name (lit "MANIFEST-") [] with
               | Some id => negb (id =? gen)
               | None => true
               end) (ErrCorrupt "manifest name/generation mismatch");;
      let flushed := un_be (sub data 16 24) in
      let fileCount := un_be (sub data 24 28) in
      let bodyLen := un_be (sub data 28 32) in
      fail_if (negb (un_be (sub data 36 40) =? 0) || (uint32 (MaxSSTFiles opts) <? fileCount)
               || (maxManifestFiles <? fileCount) || (bodyLen <? 0)
               || negb (manifestHeaderLen + bodyLen =? len data)
               || negb (un_be (sub data 32 36) =? crc32.Checksum (sub data 44 (len data))))
        (ErrCorrupt "invalid manifest bounds/checksum");;
      '(files, rest, maxID) ← read_members opts (Z.to_nat fileCount) (drop 44 data) None 0 [];
      fail_if (negb (bool_decide (rest = []))) (ErrCorrupt "trailing manifest bytes");;
      Ok (mkManifest gen flushed files (maxIDOrOne maxID))
  end.

(** ** Well-formed manifests *)

(** Members of a manifest in order: L0 members first, then L1 members with
    increasing disjoint ranges; [lastL1] is the last L1 key so far. *)
Fixpoint members_ok (opts : Options) (lastL1 : option bytes) (files : list sstFile) : Prop :=
  match files with
  | [] => True
  | f :: files' =>
      (exists id, is_u64 id /\ id < max_uint64 /\ sst_name f = sstBaseName id) /\
      1 <= sst_entryCount f <= max_uint32 /\
      sstHeaderLen + sstFooterLen <= sst_bytes f <= MaxSSTBytes opts /\
      1 <= len (sst_minKey f) <= MaxKeyBytes opts /\ 1 <= len (sst_maxKey f) <= MaxKeyBytes opts /\
      ((sst_level f = x00 /\ lastL1 = None /\ members_ok opts None files') \/
       (sst_level f = x01 /\ match lastL1 with Some p => blt p (sst_minKey f) = true | None => True end /\
        members_ok opts (Some (sst_maxKey f)) files'))
  end.

(** One past the greatest table number in use. *)
Fixpoint next_id (files : list sstFile) (maxID : Z) : Z :=
  match files with
  | [] => maxID
  | f :: files' =>
      next_id files' (match parseNumberName (sst_name f) (lit "sst-") (lit ".sst") with
                      | Some id => if maxID <=? id then id + 1 else maxID
                      | None => maxID
                      end)
  end.

Record manifest_ok (opts : Options) (m : manifest) : Prop := {
  mo_generation : is_u64 (generation m);
  mo_flushed : is_u64 (flushedLSN m);
  mo_count : len (mf_files m) <= MaxSSTFiles opts;
  mo_members : members_ok opts None (mf_files m)
}.

(** ** Decoding what was encoded *)

Lemma len_member_bytes f :
  len (member_bytes f) = 20 + len (sst_name f) + len (sst_minKey f) + len (sst_maxKey f).
Proof.
  unfold member_bytes, member_fixed. rewrite !len_app, !len_be. change (len [sst_level f; x00]) with 2. lia.
Qed.

Lemma len_sstBaseName id : len (sstBaseName id) = 28.
Proof. unfold sstBaseName. rewrite !len_app. unfold len at 2. by rewrite length_decimal. Qed.

Lemma member_fields f rest (data := member_bytes f ++ rest) :
  sub data 0 2 = be 2 (len (sst_name f)) /\ data !! 2%nat = Some (sst_level f) /\ sub data 3 4 = [x00] /\
  sub data 4 8 = be 4 (sst_entryCount f) /\ sub data 8 16 = be 8 (sst_bytes f) /\
  sub data 16 18 = be 2 (len (sst_minKey f)) /\ sub data 18 20 = be 2 (len (sst_maxKey f)).
Proof. unfold data, member_bytes, member_fixed. rewrite <- !app_assoc. done. Qed.

Lemma member_parts f rest (data := member_bytes f ++ rest) (n := len (sst_name f)) (a := len (sst_minKey f)) (b := len (sst_maxKey f)) :
  sub data 20 (20 + n) = sst_name f /\ sub data (20 + n) (20 + n + a) = sst_minKey f /\
  sub data (20 + n + a) (20 + n + a + b) = sst_maxKey f /\ drop (Z.to_nat (20 + n + a + b)) data = rest.
Proof.
  assert (len (member_fixed f) = 20) as Hf by done.
  unfold data, member_bytes. rewrite <- !app_assoc. split_and!.
  - apply sub_app_mid; lia.
  - rewrite app_assoc. apply sub_app_mid; rewrite len_app; lia.
  - rewrite (app_assoc (member_fixed f)), (app_assoc (member_fixed f ++ sst_name f)).
    apply sub_app_mid; rewrite !len_app; lia.
  - rewrite (app_assoc (member_fixed f)), (app_assoc (member_fixed f ++ sst_name f)), (app_assoc _ (sst_maxKey f)).
    replace (20 + n + a + b) with (len (((member_fixed f ++ sst_name f) ++ sst_minKey f) ++ sst_maxKey f))
      by (rewrite !len_app; lia).
    by rewrite len_to_nat, drop_app_length.
Qed.

Lemma sstFile_eta f :
  mkSstFile (sst_name f) (sst_level f) (sst_minKey f) (sst_maxKey f) (sst_entryCount f) (sst_bytes f) = f.
Proof. by destruct f. Qed.

Lemma read_members_ok opts files : forall rest lastL1 maxID acc,
  MaxSSTBytes opts <= max_int64 -> 0 <= maxID ->
  members_ok opts lastL1 files -> existsb member_bad files = false ->
  read_members opts (length files) (concat (map member_bytes files) ++ rest) lastL1 maxID acc
  = Ok (acc ++ files, rest, next_id files maxID).
Proof.
  induction files as [|f files IH]; intros rest lastL1 maxID acc Hmax Hid Hok Hbad.
  { cbn. by rewrite app_nil_r. }
  cbn [existsb] in Hbad. apply orb_false_iff in Hbad as [Hb Hbad].
  destruct Hok as ((id & Hu & Hlt & Hname) & Hcnt & Hbytes & Hmin & Hmx & Hlevel).
  cbn [length map concat read_members next_id]. rewrite <- app_assoc.
  set (tail := concat (map member_bytes files) ++ rest).
  destruct (member_fields f tail) as (F1 & F2 & F3 & F4 & F5 & F6 & F7).
  destruct (member_parts f tail) as (P1 & P2 & P3 & P4).
  assert (len (member_bytes f ++ tail) = 20 + len (sst_name f) + len (sst_minKey f) + len (sst_maxKey f) + len tail) as Hlen
    by (rewrite len_app, len_member_bytes; lia).
  cbv zeta in F1, F2, F3, F4, F5, F6, F7, P1, P2, P3, P4.
  set (data := member_bytes f ++ tail) in *. clearbody data.
  pose proof (len_nonneg tail). pose proof (len_sstBaseName id) as Hnl. rewrite <- Hname in Hnl.
  unfold member_bad in Hb. bool_to_prop. unfold max_uint16, max_uint32, max_int64, sstHeaderLen, sstFooterLen in *.
  rewrite fail_if_false by (apply Z.ltb_ge; lia). rewrite F1, F2, F3, F4, F5, F6, F7.
  repeat (rewrite un_be_be_small by solve_width). rewrite Hnl in *. cbv zeta.
  rewrite fail_if_false.
  2:{ rewrite beq_refl, !orb_false_iff, !Z.ltb_ge. unfold maxSSTNameLen. split_and!; try done; lia. }
  rewrite P1. rewrite fail_if_false.
  2:{ rewrite Hname, validSSTName_ok. cbn [negb orb]. apply Z.ltb_ge. destruct Hlevel as [[-> _]|[-> _]]; vm_compute; done. }
  rewrite fail_if_false.
  2:{ destruct Hlevel as [(_ & -> & _)|(-> & _)]; [apply andb_false_r|done]. }
  rewrite int64_small by (unfold max_int64; lia).
  rewrite fail_if_false by (rewrite !orb_false_iff, !Z.ltb_ge; lia).
  rewrite fail_if_false.
  2:{ unfold sstHeaderLen, sstFooterLen. rewrite !orb_false_iff, !Z.ltb_ge, Z.eqb_neq. lia. }
  rewrite P2, P3, P4, sstFile_eta. rewrite fail_if_false.
  2:{ destruct Hlevel as [(-> & _)|(-> & Hp & _)]; [done|]. destruct lastL1 as [p|]; [|apply andb_false_r].
      by rewrite ble_blt, Hp, andb_false_r. }
  assert (parseNumberName (sst_name f) (lit "sst-") (lit ".sst") = Some id) as ->.
  { rewrite Hname. unfold sstBaseName. by apply parseNumberName_ok. }
  assert (uint64 (id + 1) = id + 1) as ->.
  { unfold uint64, is_u64, max_uint64 in *. apply Z.mod_small. lia. }
  unfold tail. rewrite IH; [by rewrite <- app_assoc|done| | |done].
  - unfold is_u64 in Hu. destruct (Z.leb_spec maxID id); lia.
  - destruct Hlevel as [(-> & -> & Hm)|(-> & _ & Hm)]; done.
Qed.

Lemma manifest_fields m n bl bc rest (d := manifest_header m n bl bc ++ rest) :
  sub d 0 4 = manifestMagic /\ sub d 4 5 = [manifestVersion] /\ un_be (sub d 6 8) = 0 /\
  sub d 40 44 = be 4 (crc32.Checksum (sub d 0 40)) /\ sub d 8 16 = be 8 (generation m) /\
  sub d 16 24 = be 8 (flushedLSN m) /\ sub d 24 28 = be 4 n /\ sub d 28 32 = be 4 bl /\
  sub d 32 36 = be 4 bc /\ un_be (sub d 36 40) = 0 /\ drop 44 d = rest.
Proof. unfold d, manifest_header. rewrite <- !app_assoc. split_and!; try done. Qed.

Lemma validManifestName_ok gen : validManifestName (manifestName gen) = true.
Proof.
  unfold validManifestName, manifestName.
  assert (len (lit "MANIFEST-" ++ decimal 20 gen) = 29) as -> by (rewrite len_app; unfold len at 2; by rewrite length_decimal).
  change (take 9 (lit "MANIFEST-" ++ decimal 20 gen)) with (lit "MANIFEST-").
  change (drop 9 (lit "MANIFEST-" ++ decimal 20 gen)) with (decimal 20 gen).
  unfold allDigits. rewrite decimal_digits, beq_refl. rewrite bool_decide_eq_false_2; [done|].
  intros E. apply (f_equal length) in E. rewrite length_decimal in E. done.
Qed.

Lemma encodeManifest_Ok m data :
  encodeManifest m = Ok data ->
  existsb member_bad (mf_files m) = false /\
  len (concat (map member_bytes (mf_files m))) <= manifestMaxBytes - manifestHeaderLen /\
  len (mf_files m) <= maxManifestFiles /\
  data = manifest_header m (len (mf_files m)) (len (concat (map member_bytes (mf_files m))))
           (crc32.Checksum (concat (map member_bytes (mf_files m)))) ++ concat (map member_bytes (mf_files m)).
Proof.
  unfold encodeManifest. destruct (existsb member_bad (mf_files m)); [done|]. cbn [fail_if mbind result_bind].
  destruct (_ || _) eqn:E; [done|]. cbn [fail_if mbind result_bind]. intros He. bool_to_prop.
  split; [done|]. split; [done|]. split; [done|]. congruence.
Qed.

Lemma readManifest_image opts m data :
  MaxSSTFiles opts <= max_uint32 -> MaxSSTBytes opts <= max_int64 ->
  manifest_ok opts m -> encodeManifest m = Ok data ->
  readManifest (manifestName (generation m)) (Some data) opts
  = Ok (mkManifest (generation m) (flushedLSN m) (mf_files m) (maxIDOrOne (next_id (mf_files m) 0))).
Proof.
  intros Hfiles Hbytes [Hg Hfl Hcount Hmem] He.
  apply encodeManifest_Ok in He as (Hr & H & H0 & ->).
  set (body := concat (map member_bytes (mf_files m))) in *.
  destruct (manifest_fields m (len (mf_files m)) (len body) (crc32.Checksum body) body)
    as (F1 & F2 & F3 & F4 & F5 & F6 & F7 & F8 & F9 & F10 & F11).
  set (h := manifest_header _ _ _ _) in *. assert (len h = 44) as Hh by done.
  cbv zeta in *. pose proof (len_nonneg body). pose proof (len_nonneg (mf_files m)).
  assert (len (h ++ body) = 44 + len body) as Hlen by (rewrite len_app; lia).
  assert (sub (h ++ body) 44 (len (h ++ body)) = body) as Hbody by (apply sub_suffix; lia).
  set (data := h ++ body) in *. clearbody data h.
  unfold readManifest. rewrite fail_if_false by (by rewrite validManifestName_ok).
  unfold manifestMaxBytes, manifestHeaderLen, maxManifestFiles, is_u64, max_uint64, max_uint32 in *.
  rewrite fail_if_false by (apply Z.ltb_ge; lia).
  rewrite F1, F2, F3. rewrite fail_if_false.
  2:{ rewrite !beq_refl, !orb_false_iff, Z.ltb_ge. split_and!; try done; lia. }
  rewrite F4, crc32.un_be_Checksum, Z.eqb_refl. rewrite fail_if_false by done.
  rewrite F5, F6, F7, F8, F9, F10, F11, Hbody, crc32.un_be_Checksum. repeat (rewrite un_be_be_small by solve_width).
  assert (parseNumberName (manifestName (generation m)) (lit "MANIFEST-") [] = Some (generation m)) as ->.
  { unfold manifestName. rewrite <- (app_nil_r (decimal 20 _)). by apply parseNumberName_ok. }
  rewrite fail_if_false by (by rewrite Z.eqb_refl). rewrite fail_if_false.
  2:{ rewrite !orb_false_iff, !Z.ltb_ge, !negb_false_iff, !Z.eqb_eq. unfold uint32.
      rewrite Z.mod_small by lia. split_and!; try done; lia. }
  rewrite len_to_nat, <- (app_nil_r body). unfold body. rewrite read_members_ok by (done || lia). done.
Qed.

(** ** Theorems *)

(** a manifest that encodes reads back under its own name as the same
    generation, checkpoint and files in the same order; the next table number
    is recomputed as one past the greatest number in use. *)
Theorem readManifest_encodeManifest opts m data :
  MaxSSTFiles opts <= max_uint32 -> MaxSSTBytes opts <= max_int64 ->
  manifest_ok opts m -> encodeManifest m = Ok data ->
  readManifest (manifestName (generation m)) (Some data) opts
  = Ok (mkManifest (generation m) (flushedLSN m) (mf_files m) (maxIDOrOne (next_id (mf_files m) 0))).
Proof. apply readManifest_image. Qed.

(** CURRENT round-trips: the encoding of the name of a generation decodes
    to that name. *)
Theorem decodeCurrent_encodeCurrent gen data :
  encodeCurrent (manifestName gen) = Ok data -> decodeCurrent data = Ok (manifestName gen).
Proof.
  unfold encodeCurrent. destruct (negb _ || _) eqn:Hbad; [done|]. cbn [fail_if mbind result_bind].
  set (name := manifestName gen) in *. intros H.
  assert (data = current_head name ++ be 4 (crc32.Checksum (current_head name))) as -> by congruence. clear H.
  assert (len name = 29) as Hn by (unfold name, manifestName; rewrite len_app; unfold len at 2; by rewrite length_decimal).
  assert (len (current_head name) = 37) as Hh.
  { unfold current_head. rewrite !len_app, len_be, Hn. done. }
  set (data := current_head name ++ be 4 (crc32.Checksum (current_head name))).
  assert (len data = 41) as Hd by (unfold data; rewrite len_app, len_be, Hh; done).
  unfold decodeCurrent. rewrite Hd.
  assert (sub data (41 - 4) 41 = be 4 (crc32.Checksum (current_head name))) as ->.
  { unfold data. apply sub_suffix; [lia|]. rewrite len_be. lia. }
  assert (sub data 0 (41 - 4) = current_head name) as ->.
  { unfold data. apply (sub_app_mid [] (current_head name)); [done|]. rewrite len_nil. lia. }
  assert (sub data 0 4 = currentMagic /\ sub data 4 6 = [currentVersion; x00] /\ sub data 6 8 = be 2 (len name)) as (-> & -> & ->).
  { unfold data, current_head. rewrite <- !app_assoc. done. }
  rewrite !beq_refl, crc32.un_be_Checksum. rewrite fail_if_false by (by rewrite Z.eqb_refl).
  rewrite Hn, un_be_be_small by solve_width. rewrite fail_if_false by done.
  assert (sub data 8 (8 + 29) = name) as ->.
  { unfold data, current_head.
    replace ((currentMagic ++ [currentVersion; x00] ++ be 2 (len name) ++ name) ++ be 4 (crc32.Checksum (currentMagic ++ [currentVersion; x00] ++ be 2 (len name) ++ name)))
      with ((currentMagic ++ [currentVersion; x00] ++ be 2 (len name)) ++ name ++ be 4 (crc32.Checksum (currentMagic ++ [currentVersion; x00] ++ be 2 (len name) ++ name)))
      by (by rewrite <- !app_assoc).
    apply sub_app_mid; rewrite !len_app, len_be; [done|]. rewrite Hn. done. }
  by rewrite fail_if_false by (unfold name; by rewrite validManifestName_ok).
Qed.

Lemma highest_of_spec names : forall best,
    match highest_of names best with
    | Some (b, id) => (best = Some (b, id) \/ b ∈ names /\ parseNumberName b (lit "MANIFEST-") [] = Some id) /\
        (forall name id', name ∈ names -> parseNumberName name (lit "MANIFEST-") [] = Some id' -> id' <= id) /\
        (match best with Some (_, id') => id' <= id | None => True end)
    | None => best = None /\ forall name, name ∈ names -> parseNumberName name (lit "MANIFEST-") [] = None
    end.
Proof.
  induction names as [|name names IH]; intros best; cbn [highest_of].
    - destruct best as [[b id]|]; [|split; [done|by intros ? ?%elem_of_nil]].
      split; [by left|]. split; [by intros ? ? ?%elem_of_nil|lia].
    - set (best' := match parseNumberName name (lit "MANIFEST-") [] with None => best | Some id => _ end).
      specialize (IH best'). destruct (highest_of names best') as [[b id]|].
      + destruct IH as (H1 & H2 & H3). unfold best' in H1, H3. clear best'.
        destruct (parseNumberName name (lit "MANIFEST-") []) as [n|] eqn:En.
        * destruct best as [[b0 id0]|].
          -- destruct (Z.ltb_spec id0 n).
             ++ split; [|split; [|lia]].
                ** destruct H1 as [[= <- <-]|[? ?]]; right; (split; [|done]); [left|by right].
                ** intros x id' [->|Hx]%elem_of_cons Hp; [|by eapply H2]. assert (id' = n) by congruence. lia.
             ++ split; [|split; [|lia]].
                ** destruct H1 as [?|[? ?]]; [by left|right; split; [by right|done]].
                ** intros x id' [->|Hx]%elem_of_cons Hp; [|by eapply H2]. assert (id' = n) by congruence. lia.
          -- split; [|split; [|done]].
             ++ destruct H1 as [[= <- <-]|[? ?]]; right; (split; [|done]); [left|by right].
             ++ intros x id' [->|Hx]%elem_of_cons Hp; [|by eapply H2]. assert (id' = n) by congruence. lia.
        * split; [|split; [|done]].
          -- destruct H1 as [?|[? ?]]; [by left|right; split; [by right|done]].
          -- intros x id' [->|Hx]%elem_of_cons Hp; [congruence|by eapply H2].
      + destruct IH as [Hb Hn]. unfold best' in Hb.
        destruct (parseNumberName name (lit "MANIFEST-") []) as [n|] eqn:En.
        * destruct best as [[b0 id0]|]; [by destruct (id0 <? n)|done].
        * split; [done|]. intros x [->|Hx]%elem_of_cons; [done|by apply Hn].
Qed.

(** When CURRENT is missing, the highest manifest is chosen: the result is
    one of the listed names, a manifest name, and no listed manifest has a
    greater generation; no manifest at all means a fresh directory. *)
Theorem highestManifest_max names :
  match highestManifest names with
  | Some best => exists id, best ∈ names /\ parseNumberName best (lit "MANIFEST-") [] = Some id /\
                 forall name id', name ∈ names -> parseNumberName name (lit "MANIFEST-") [] = Some id' -> id' <= id
  | None => forall name, name ∈ names -> parseNumberName name (lit "MANIFEST-") [] = None
  end.
Proof.
  unfold highestManifest. pose proof (highest_of_spec names None) as H. destruct (highest_of names None) as [[b id]|]; cbn.
  - destruct H as ([?|[? ?]] & Hmax & _); [done|]. by exists id.
  - by destruct H as [_ H].
Qed.

(** ** Instances at concrete inputs *)

Definition sample_manifest : manifest := mkManifest 3 9 [snd sample_table] 8.
Definition sample_manifest_bytes : bytes := match encodeManifest sample_manifest with Ok b => b | Fail _ => [] end.

Lemma readManifest_encodeManifest_witness :
  readManifest (manifestName 3) (Some sample_manifest_bytes) sample_opts = Ok sample_manifest.
Proof.
  apply (readManifest_encodeManifest sample_opts sample_manifest sample_manifest_bytes).
  - vm_compute. discriminate.
  - vm_compute. discriminate.
  - split.
    + vm_compute. split; discriminate.
    + vm_compute. split; discriminate.
    + vm_compute. discriminate.
    + cbn [mf_files sample_manifest members_ok].
      split; [exists 7; split_and!; [vm_compute; split; discriminate|vm_compute; reflexivity|vm_compute; reflexivity]|].
      do 4 (split; [vm_compute; split; discriminate|]).
      left. split; [vm_compute; reflexivity|done].
  - vm_compute. reflexivity.
Defined.

Lemma decodeCurrent_encodeCurrent_witness :
  decodeCurrent (match encodeCurrent (manifestName 3) with Ok b => b | Fail _ => [] end) = Ok (manifestName 3).
Proof. apply (decodeCurrent_encodeCurrent 3). vm_compute. reflexivity. Defined.
