(* ===== verification/Tree.v ===== *)
(** The data directory of the storage engine: the root with CURRENT and the
    manifests, the table directory and the log directory, reached through the
    file system seam of [internal/engine/fs.go].

    Files of the root and of the table directory are written under a
    temporary name, synced and renamed.  A directory keeps its entries and the
    ones it had since its last sync; a crash gives every name one of these
    entries, independently of the others, and anything at all as the bytes of
    a file that was not synced.  The log directory is that of [Fs].  Every call
    answers from a script, as in [Fs]. *)

From Stdlib Require Import ZArith Lia.
From stdpp Require Import base list gmap.
From S2P Require Import Prelude EngineOps Fs.

Local Open Scope Z_scope.

(** ** Directories with a history *)

Record hfile : Type := mkF { f_data : bytes; f_synced : bool }.
Record hdir : Type := mkH { now : gmap bytes hfile; past : list (gmap bytes hfile) }.

#[export] Instance hfile_eq_dec : EqDecision hfile.
Proof. solve_decision. Defined.

Definition change (f : gmap bytes hfile -> gmap bytes hfile) (h : hdir) : hdir := mkH (f (now h)) (now h :: past h).
Definition settle (h : hdir) : hdir := mkH (now h) [].

(** What a name may be found to be. *)
Definition may_be (h : hdir) (name : bytes) (o : option hfile) : Prop := exists m, m ∈ now h :: past h /\ m !! name = o.

Definition survived (o o' : option hfile) : Prop :=
  match o, o' with
  | Some f, Some g => f_synced g = true /\ (f_synced f = true -> f_data g = f_data f)
  | None, None => True
  | _, _ => False
  end.

Definition hcrash (h h' : hdir) : Prop :=
  past h' = [] /\ forall name, exists o, may_be h name o /\ survived o (now h' !! name).

Inductive place : Type := Root | Tables.

Record tree : Type := mkTree { t_root : hdir; t_tables : hdir; t_wal : gmap bytes wfile }.

Definition dir_at (p : place) (t : tree) : hdir := match p with Root => t_root t | Tables => t_tables t end.
Definition set_dir (p : place) (h : hdir) (t : tree) : tree :=
  match p with
  | Root => mkTree h (t_tables t) (t_wal t)
  | Tables => mkTree (t_root t) h (t_wal t)
  end.

Definition tree_crash (t t' : tree) : Prop :=
  hcrash (t_root t) (t_root t') /\ hcrash (t_tables t) (t_tables t') /\ crash (t_wal t) (t_wal t').

(** ** Calls in sequence *)

Definition eio (A : Type) : Type := tree -> list response -> result engine_error A * tree * list response.
#[export] Instance eio_ret : MRet eio := fun A a t s => (Ok a, t, s).
#[export] Instance eio_bind : MBind eio :=
  fun A B f m t s => match m t s with (Ok a, t', s') => f a t' s' | (Fail e, t', s') => (Fail e, t', s') end.

Definition e_lift {A} (m : result engine_error A) : eio A := fun t s => (m, t, s).
Definition e_fail {A} (e : engine_error) : eio A := e_lift (Fail e).
Definition e_fail_if (c : bool) (e : engine_error) : eio unit := e_lift (fail_if c e).
Definition e_wrap {A} (f : engine_error -> engine_error) (m : eio A) : eio A :=
  fun t s => let '(r, t', s') := m t s in (map_err f r, t', s').
Definition e_ignore {A} (m : eio A) : eio unit := fun t s => let '(_, t', s') := m t s in (Ok tt, t', s').
(** [if err := m; err != nil { _ = cleanup; return err }] *)
Definition e_or {A B} (m : eio A) (cleanup : eio B) : eio A :=
  fun t s => match m t s with
             | (Fail e, t', s') => let '(_, t'', s'') := cleanup t' s' in (Fail e, t'', s'')
             | r => r
             end.

(** [m] with [cleanup] deferred: it runs last and its answer is dropped. *)
Definition e_defer {A B} (m : eio A) (cleanup : eio B) : eio A :=
  fun t s => let '(r, t', s') := m t s in let '(_, t'', s'') := cleanup t' s' in (r, t'', s'').

Definition e_respond (want : Z) : eio response :=
  fun t s => match s with [] => (Ok (mkResponse want false), t, []) | r :: s' => (Ok r, t, s') end.
Definition e_call : eio unit := r ← e_respond 0; e_fail_if (r_err r) ErrIO.

Definition get_dir (p : place) : eio hdir := fun t s => (Ok (dir_at p t), t, s).
Definition put_dir (p : place) (h : hdir) : eio unit := fun t s => (Ok tt, set_dir p h t, s).
Definition update (p : place) (f : hdir -> hdir) : eio unit := h ← get_dir p; put_dir p (f h).

(** A step of the log, on its directory and the same script. *)
Definition in_wal {A} (m : io A) : eio A :=
  fun t s => let '(r, d) := m (mkDir (t_wal t) s) in (r, mkTree (t_root t) (t_tables t) (files d), script d).

(** ** The calls of the engine *)

(** [OpenFile] with [O_CREATE|O_EXCL]. *)
Definition e_create (p : place) (name : bytes) : eio unit :=
  e_call;;
  h ← get_dir p;
  match now h !! name with
  | Some _ => e_fail ErrIO
  | None => put_dir p (change (insert name (mkF [] false)) h)
  end.

Definition e_lookup (p : place) (name : bytes) : eio hfile :=
  h ← get_dir p;
  match now h !! name with Some f => mret f | None => e_fail ErrIO end.

Definition e_WriteAt (p : place) (name data : bytes) (offset : Z) : eio response :=
  r ← e_respond (len data);
  f ← e_lookup p name;
  update p (change (insert name (mkF (write_at (f_data f) offset (take (Z.to_nat (r_bytes r)) data)) false)));;
  mret r.

Definition e_Sync (p : place) (name : bytes) : eio unit :=
  e_call;;
  f ← e_lookup p name;
  update p (change (insert name (mkF (f_data f) true))).

Definition e_Close : eio unit := e_call.

(** [Remove]; that the file does not exist is no error to any caller. *)
Definition e_Remove (p : place) (name : bytes) : eio unit := e_call;; update p (change (delete name)).

Definition e_Rename (p : place) (old new : bytes) : eio unit :=
  e_call;;
  f ← e_lookup p old;
  update p (change (fun m => <[new := f]> (delete old m))).

Definition e_syncDirectory (p : place) : eio unit :=
  e_wrap (fun _ => ErrFilesystem "open directory for sync") e_call;;
  e_or (e_wrap (fun _ => ErrFilesystem "sync directory") (e_call;; update p settle)) e_Close;;
  e_wrap (fun _ => ErrFilesystem "close directory") e_Close.

Fixpoint e_write_loop (fuel : nat) (p : place) (name data : bytes) (offset : Z) : eio unit :=
  match fuel with
  | O => mret tt
  | S fuel' =>
      if len data <=? 0 then mret tt
      else
        r ← e_WriteAt p name data offset;
        let n := r_bytes r in
        e_fail_if ((n <? 0) || (len data <? n)) ErrShortWrite;;
        e_fail_if (r_err r) ErrIO;;
        e_fail_if (n =? 0) ErrShortWrite;;
        e_write_loop fuel' p name (drop (Z.to_nat n) data) (offset + n)
  end.
Definition e_writeFullAt (p : place) (name data : bytes) (offset : Z) : eio unit :=
  e_write_loop (length data) p name data offset.

(** [ReadDir]: the names in order. *)
Definition e_ReadDir (p : place) : eio (list bytes) :=
  e_call;; h ← get_dir p; mret (sort_by (fun n => n) (elements (dom (now h)))).

(** [OpenFile] for reading; [None] where it answers that the file does not
    exist. *)
Definition e_open (p : place) (name : bytes) : eio (option hfile) := e_call;; h ← get_dir p; mret (now h !! name).

(** The files published under a temporary name: [writeAtomicRoot], and the
    file part of [writeSST]; the strings are the messages of the errors. *)
Definition write_atomic (p : place) (temp final data : bytes) (create write sync close rename : String.string) : eio unit :=
  e_ignore (e_Remove p temp);;
  e_wrap (fun _ => ErrFilesystem create) (e_create p temp);;
  e_or (e_wrap (fun _ => ErrFilesystem write) (e_writeFullAt p temp data 0)) (e_ignore e_Close;; e_Remove p temp);;
  e_or (e_wrap (fun _ => ErrFilesystem sync) (e_Sync p temp)) (e_ignore e_Close;; e_Remove p temp);;
  e_or (e_wrap (fun _ => ErrFilesystem close) e_Close) (e_Remove p temp);;
  e_or (e_wrap (fun _ => ErrFilesystem rename) (e_Rename p temp final)) (e_Remove p temp);;
  e_syncDirectory p.

(** ** Specifications over every script *)

(** [ewp b m Q X t]: run on [t] against any script, against the empty one when
    [b] is false, [m] returns a value satisfying [Q] with the tree it leaves,
    or fails and leaves a tree satisfying [X]. *)
Definition ewp {A} (b : bool) (m : eio A) (Q : A -> tree -> Prop) (X : tree -> Prop) (t : tree) : Prop :=
  forall s, (b = false -> s = []) ->
  match m t s with
  | (Ok a, t', s') => Q a t' /\ (b = false -> s' = [])
  | (Fail _, t', _) => X t'
  end.

Section rules.
Context {A : Type} (b : bool).
Implicit Types (Q : A -> tree -> Prop) (X : tree -> Prop) (t : tree).

Lemma ewp_ret (a : A) Q X t : Q a t -> ewp b (mret a) Q X t.
Proof. by intros ? s. Qed.

Lemma ewp_bind {B} (m : eio B) (k : B -> eio A) Q X t :
  ewp b m (fun a t' => ewp b (k a) Q X t') X t -> ewp b (m ≫= k) Q X t.
Proof.
  intros H s Hs. specialize (H s Hs). unfold mbind, eio_bind. destruct (m t s) as [[[a|e] t'] s']; [|done].
  destruct H as [H Hs']. by apply H.
Qed.

Lemma ewp_mono (m : eio A) Q Q' X X' t :
  ewp b m Q X t -> (forall a t', Q a t' -> Q' a t') -> (forall t', X t' -> X' t') -> ewp b m Q' X' t.
Proof.
  intros H HQ HX s Hs. specialize (H s Hs). destruct (m t s) as [[[a|e] t'] s']; [|by apply HX]. destruct H. auto.
Qed.

Lemma ewp_wrap f (m : eio A) Q X t : ewp b m Q X t -> ewp b (e_wrap f m) Q X t.
Proof. intros H s Hs. specialize (H s Hs). unfold e_wrap. by destruct (m t s) as [[[a|e] t'] s']. Qed.

Lemma ewp_lift (m : result engine_error A) Q X t :
  match m with Ok a => Q a t | Fail _ => X t end -> ewp b (e_lift m) Q X t.
Proof. intros H s Hs. unfold e_lift. destruct m; [|done]. by split. Qed.

Lemma ewp_or {B} (m : eio A) (cleanup : eio B) Q X X' t :
  ewp b m Q X' t -> (forall t', X' t' -> ewp true cleanup (fun _ => X) X t') -> ewp b (e_or m cleanup) Q X t.
Proof.
  intros H Hc s Hs. specialize (H s Hs). unfold e_or. destruct (m t s) as [[[a|e] t'] s']; [done|].
  specialize (Hc t' H s'). destruct (cleanup t' s') as [[[c|e'] t''] s'']; [apply Hc; done|by apply Hc].
Qed.

Lemma ewp_or_id {B} (m : eio A) (cleanup : eio B) Q X t :
  ewp b m Q X t -> (forall t', X t' -> ewp true cleanup (fun _ => X) X t') -> ewp b (e_or m cleanup) Q X t.
Proof. apply ewp_or. Qed.
End rules.

Lemma ewp_ignore {A} b (m : eio A) Q X t : ewp b m (fun _ => Q tt) (fun t' => b = true /\ Q tt t') t -> ewp b (e_ignore m) Q X t.
Proof.
  intros H s Hs. specialize (H s Hs). unfold e_ignore. destruct (m t s) as [[[a|e] t'] s']; [done|].
  destruct H as [-> H]. by split.
Qed.

Lemma ewp_fail_if b c e Q (X : tree -> Prop) t : (c = true -> X t) -> (c = false -> Q tt t) -> ewp b (e_fail_if c e) Q X t.
Proof. intros HX HQ. apply ewp_lift. destruct c; [by apply HX|by apply HQ]. Qed.

Lemma ewp_respond b n Q X t : (forall r, (b = false -> r = mkResponse n false) -> Q r t) -> ewp b (e_respond n) Q X t.
Proof.
  intros H [|r s] Hs; cbn.
  - split; [by apply H|done].
  - destruct b; [|by discriminate (Hs eq_refl)]. split; [by apply H|done].
Qed.

Lemma ewp_call b Q (X : tree -> Prop) t : (b = true -> X t) -> Q tt t -> ewp b e_call Q X t.
Proof.
  intros HX HQ. apply ewp_bind, ewp_respond. intros r Hr. apply ewp_fail_if; [|done].
  intros He. destruct b; [by apply HX|]. by rewrite Hr in He.
Qed.

Lemma ewp_defer_close {A} b (m : eio A) Q X t : ewp b m Q X t -> ewp b (e_defer m e_Close) Q X t.
Proof.
  intros H s Hs. specialize (H s Hs). unfold e_defer, e_Close, e_call, e_respond, mbind, eio_bind.
  destruct (m t s) as [[r t'] [|x s']]; cbn; [done|]. destruct (r_err x); cbn; destruct r; try done; destruct H as [H Hb]; (split; [done|]); intros E; by discriminate (Hb E).
Qed.

Lemma ewp_get b p Q X t : Q (dir_at p t) t -> ewp b (get_dir p) Q X t.
Proof. intros H s Hs. by split. Qed.

Lemma ewp_put b p h Q X t : Q tt (set_dir p h t) -> ewp b (put_dir p h) Q X t.
Proof. intros H s Hs. by split. Qed.

Lemma ewp_update b p f Q X t : Q tt (set_dir p (f (dir_at p t)) t) -> ewp b (update p f) Q X t.
Proof. intros H. by apply ewp_bind, ewp_get, ewp_put. Qed.

Lemma ewp_lookup b p name f Q X t : now (dir_at p t) !! name = Some f -> Q f t -> ewp b (e_lookup p name) Q X t.
Proof. intros Hf HQ. apply ewp_bind, ewp_get. rewrite Hf. by apply ewp_ret. Qed.

(** A step of the log. *)
Lemma ewp_wal {A} (b : bool) (m : io A) (Q : A -> gmap bytes wfile -> Prop) (X : gmap bytes wfile -> Prop) QT XT t :
  wp m Q X (t_wal t) -> (b = false -> exists a f, m (mkDir (t_wal t) []) = (Ok a, mkDir f [])) ->
  (forall a f, Q a f -> QT a (mkTree (t_root t) (t_tables t) f)) ->
  (forall f, b = true -> X f -> XT (mkTree (t_root t) (t_tables t) f)) -> ewp b (in_wal m) QT XT t.
Proof.
  intros Hw Hrun HQ HX s Hs. unfold in_wal. specialize (Hw s). destruct b.
  - destruct (m (mkDir (t_wal t) s)) as [[a|e] d']; [split; [by apply HQ|done]|by apply HX].
  - rewrite (Hs eq_refl) in *. destruct (Hrun eq_refl) as (a & f & E). rewrite E in *. split; [by apply HQ|done].
Qed.

Lemma set_dir_at p t : set_dir p (dir_at p t) t = t.
Proof. by destruct t, p. Qed.
Lemma dir_at_set p h t : dir_at p (set_dir p h t) = h.
Proof. by destruct p. Qed.
Lemma set_dir_set p h h' t : set_dir p h (set_dir p h' t) = set_dir p h t.
Proof. by destruct p. Qed.

(** ** Publishing a file *)

Lemma may_be_now h name : may_be h name (now h !! name).
Proof. exists (now h). split; [by left|done]. Qed.

Lemma may_be_change f h name o : may_be (change f h) name o <-> o = f (now h) !! name \/ may_be h name o.
Proof.
  unfold may_be, change. cbn [now past]. split.
  - intros (m & [->|Hm]%elem_of_cons & <-); [by left|right]. by exists m.
  - intros [->|(m & Hm & <-)]; [exists (f (now h)); split; [by left|done]|exists m; split; [by right|done]].
Qed.

Lemma may_be_settle h name o : may_be (settle h) name o <-> o = now h !! name.
Proof.
  unfold may_be, settle. cbn [now past]. split.
  - by intros (m & ->%list_elem_of_singleton & <-).
  - intros ->. exists (now h). split; [by left|done].
Qed.

(** [h] is [h0] but for the temporary name, and the final name may be the new
    file. *)
Definition spread (temp final : bytes) (new : hfile) (h0 h : hdir) : Prop :=
  forall n o, may_be h n o -> n = temp \/ may_be h0 n o \/ n = final /\ o = Some new.

Lemma put_twice (name : bytes) (o o' : option hfile) (m : gmap bytes hfile) :
  partial_alter (fun _ => o') name (partial_alter (fun _ => o) name m) = partial_alter (fun _ => o') name m.
Proof.
  apply map_eq. intros k. destruct (decide (name = k)) as [<-|Hne]; [by rewrite !lookup_partial_alter_eq|by rewrite !lookup_partial_alter_ne].
Qed.

Section atomic.
Context (p : place) (temp final data : bytes) (t : tree).
Let h0 := dir_at p t.
Let new := mkF data true.
Let base := delete temp (now h0).

(** The tree while the file is written: the temporary name holds [o]. *)
Definition writing (o : option hfile) (t' : tree) : Prop :=
  exists h, t' = set_dir p h t /\ spread temp final new h0 h /\ now h = partial_alter (fun _ => o) temp (now h0).

Lemma writing_spread o t' : writing o t' -> exists h, t' = set_dir p h t /\ spread temp final new h0 h.
Proof. intros (h & ? & ? & _). by exists h. Qed.

Lemma writing_change o o' t' f : writing o t' -> (forall m, f m = partial_alter (fun _ => o') temp m) ->
  writing o' (set_dir p (change f (dir_at p t')) t').
Proof.
  intros (h & -> & Hs & Hn) Hf. exists (change f h). rewrite dir_at_set, set_dir_set. split; [done|]. split.
  - intros n x [->|Hx]%may_be_change; [|by apply Hs]. rewrite Hf. destruct (decide (n = temp)) as [->|Hnt]; [by left|].
    rewrite lookup_partial_alter_ne by done. right; left. rewrite Hn, lookup_partial_alter_ne by done. apply may_be_now.
  - cbn [change now]. rewrite Hf, Hn. apply put_twice.
Qed.

(** Every step before the renaming keeps to the temporary name. *)
Definition halfway (t' : tree) : Prop := exists o, writing o t'.

Lemma halfway_remove b : forall t', halfway t' -> ewp b (e_Remove p temp) (fun _ => writing None) halfway t'.
Proof.
  intros t' [o Ho]. apply ewp_bind, ewp_call; [intros _; by exists o|]. apply ewp_update. by apply (writing_change o).
Qed.

Lemma halfway_cleanup t' : halfway t' -> ewp true (e_ignore e_Close;; e_Remove p temp) (fun _ => halfway) halfway t'.
Proof.
  intros H. assert (ewp true (e_Remove p temp) (fun _ => halfway) halfway t') as Hr.
  { eapply ewp_mono; [by apply halfway_remove|intros [] t1 ?; by exists None|done]. }
  by apply ewp_bind, ewp_ignore, ewp_call.
Qed.

Lemma writing_lookup f t' : writing (Some f) t' -> now (dir_at p t') !! temp = Some f.
Proof. intros (h & -> & _ & Hn). by rewrite dir_at_set, Hn, lookup_partial_alter_eq. Qed.

Lemma halfway_write b fuel : forall old rest t', (length rest <= fuel)%nat -> writing (Some (mkF old false)) t' ->
  ewp b (e_write_loop fuel p temp rest (len old)) (fun _ => writing (Some (mkF (old ++ rest) false))) (fun t' => b = true /\ halfway t') t'.
Proof.
  induction fuel as [|fuel IH]; intros old rest t' Hfuel Hw; cbn [e_write_loop].
  { destruct rest; [|cbn in Hfuel; lia]. apply ewp_ret. by rewrite app_nil_r. }
  pose proof (len_nonneg rest). destruct (Z.leb_spec (len rest) 0) as [Hl|Hl].
  { destruct rest; [|unfold len in Hl; cbn in Hl; lia]. apply ewp_ret. by rewrite app_nil_r. }
  apply ewp_bind. apply ewp_bind, ewp_respond. intros [n err] Hr. apply ewp_bind. eapply ewp_lookup; [by apply writing_lookup|].
  cbn [f_data r_bytes]. rewrite write_at_end. set (q := take (Z.to_nat n) rest).
  apply ewp_bind, ewp_update, ewp_ret. cbn [r_bytes r_err].
  assert (writing (Some (mkF (old ++ q) false)) (set_dir p (change (insert temp (mkF (old ++ q) false)) (dir_at p t')) t')) as Hw'
    by (by apply (writing_change (Some (mkF old false)))).
  assert (halfway (set_dir p (change (insert temp (mkF (old ++ q) false)) (dir_at p t')) t')) as Hh by (by eexists).
  apply ewp_bind, ewp_fail_if; [|intros [Hn1%Z.ltb_ge Hn2%Z.ltb_ge]%orb_false_iff].
  { intros E. split; [|done]. destruct b; [done|]. injection (Hr eq_refl) as -> ->. apply orb_true_iff in E as [E%Z.ltb_lt|E%Z.ltb_lt]; lia. }
  apply ewp_bind, ewp_fail_if; [|intros _].
  { intros E. split; [|done]. destruct b; [done|]. injection (Hr eq_refl) as _ ->. discriminate E. }
  apply ewp_bind, ewp_fail_if; [|intros Hz%Z.eqb_neq].
  { intros E%Z.eqb_eq. split; [|done]. destruct b; [done|]. injection (Hr eq_refl) as -> _. lia. }
  assert (len q = n) as Hlq by (unfold len in *; unfold q; rewrite length_take; lia).
  assert (rest = q ++ drop (Z.to_nat n) rest) as Hd by (unfold q; by rewrite take_drop).
  replace (len old + n) with (len (old ++ q)) by (rewrite len_app; lia).
  eapply ewp_mono; [apply (IH (old ++ q)); [rewrite length_drop; lia|done]| |done].
  intros a t1. cbn beta. by rewrite <- app_assoc, <- Hd.
Qed.

Lemma settled_spread h : spread temp final new h0 h -> spread temp final new h0 (settle h).
Proof. intros H n o ->%may_be_settle. apply H, may_be_now. Qed.

Lemma ewp_syncDirectory b q h Q (X : tree -> Prop) :
  Q tt (set_dir q (settle h) t) -> (b = true -> X (set_dir q h t) /\ X (set_dir q (settle h) t)) ->
  ewp b (e_syncDirectory q) Q X (set_dir q h t).
Proof.
  intros HQ HX. apply ewp_bind, ewp_wrap, ewp_call; [intros ->; by apply HX|].
  apply ewp_bind. apply (ewp_or _ _ _ _ _ (fun t' => b = true /\ t' = set_dir q h t)).
  - apply ewp_wrap, ewp_bind, ewp_call; [done|]. apply ewp_update. rewrite dir_at_set, set_dir_set.
    apply ewp_wrap, ewp_call; [intros ->; by apply HX|done].
  - intros t' [-> ->]. by apply ewp_call; [intros _|]; apply HX.
Qed.

Definition published : tree := set_dir p (mkH (<[final := new]> (delete temp (now h0))) []) t.
Definition unpublished (t' : tree) : Prop := exists h, t' = set_dir p h t /\ spread temp final new h0 h.

Lemma halfway_unpublished t' : halfway t' -> unpublished t'.
Proof. intros [o Ho]. by apply (writing_spread o). Qed.

Lemma halfway_start : halfway t.
Proof.
  exists (now h0 !! temp), h0. split; [symmetry; apply set_dir_at|]. split; [by intros n o ?; right; left|].
  symmetry. apply partial_alter_self.
Qed.

Lemma ewp_create_temp b t' : halfway t' -> (b = false -> writing None t') ->
  ewp b (e_create p temp) (fun _ => writing (Some (mkF [] false))) (fun t1 => b = true /\ halfway t1) t'.
Proof.
  intros Hh Hb. apply ewp_bind, ewp_call; [done|]. apply ewp_bind, ewp_get. destruct (now (dir_at p t') !! temp) as [f|] eqn:E.
  - apply ewp_lift. split; [|done]. destruct b; [done|]. destruct (Hb eq_refl) as (h & -> & _ & Hn).
    by rewrite dir_at_set, Hn, lookup_partial_alter_eq in E.
  - apply ewp_put. destruct Hh as [o Ho]. by apply (writing_change o).
Qed.

Lemma ewp_rename_temp b t' : writing (Some new) t' ->
  ewp b (e_Rename p temp final)
    (fun _ t1 => exists h, t1 = set_dir p h t /\ spread temp final new h0 h /\ now h = <[final := new]> (delete temp (now h0)))
    (fun t1 => b = true /\ halfway t1) t'.
Proof.
  intros Hw. apply ewp_bind, ewp_call; [intros ->; split; [done|by exists (Some new)]|].
  apply ewp_bind. eapply ewp_lookup; [by apply writing_lookup|]. apply ewp_update. destruct Hw as (h & -> & Hs & Hn).
  rewrite dir_at_set, set_dir_set. eexists. split; [done|]. assert (delete temp (now h) = delete temp (now h0)) as Hd.
  { rewrite Hn. apply map_eq. intros k. destruct (decide (temp = k)) as [<-|Hk]; [by rewrite !lookup_delete_eq|].
    by rewrite !lookup_delete_ne, lookup_partial_alter_ne by done. }
  split; [|cbn [change now]; by rewrite Hd]. intros n o [->|Ho]%may_be_change; [|by apply Hs]. rewrite Hd.
  destruct (decide (n = temp)) as [->|Hnt]; [by left|]. right. destruct (decide (n = final)) as [->|Hnf].
  - right. by rewrite lookup_insert_eq.
  - left. rewrite lookup_insert_ne, lookup_delete_ne by done. apply may_be_now.
Qed.

Lemma ewp_publish b create write sync close rename t' : halfway t' -> (b = false -> writing None t') ->
  ewp b (e_wrap (fun _ => ErrFilesystem create) (e_create p temp);;
         e_or (e_wrap (fun _ => ErrFilesystem write) (e_writeFullAt p temp data 0)) (e_ignore e_Close;; e_Remove p temp);;
         e_or (e_wrap (fun _ => ErrFilesystem sync) (e_Sync p temp)) (e_ignore e_Close;; e_Remove p temp);;
         e_or (e_wrap (fun _ => ErrFilesystem close) e_Close) (e_Remove p temp);;
         e_or (e_wrap (fun _ => ErrFilesystem rename) (e_Rename p temp final)) (e_Remove p temp);;
         e_syncDirectory p)
    (fun _ t1 => t1 = published) (fun t1 => b = true /\ unpublished t1) t'.
Proof.
  intros Hh Hb. pose (X := fun t1 => b = true /\ halfway t1).
  assert (forall t1, X t1 -> b = true /\ unpublished t1) as HX by (intros t1 [? ?]; split; [done|by apply halfway_unpublished]).
  assert (forall t1, X t1 -> ewp true (e_Remove p temp) (fun _ => X) X t1) as Hrm.
  { intros t1 [-> H1]. eapply ewp_mono; [by apply halfway_remove|intros a t2 ?; split; [done|by exists None]|by split]. }
  assert (forall t1, X t1 -> ewp true (e_ignore e_Close;; e_Remove p temp) (fun _ => X) X t1) as Hcl.
  { intros t1 [-> H1]. eapply ewp_mono; [by apply halfway_cleanup|by split|by split]. }
  apply ewp_bind, ewp_wrap. eapply ewp_mono; [by apply ewp_create_temp| |done]. clear t' Hh Hb. intros [] t' Hw.
  apply ewp_bind. eapply ewp_mono; [apply (ewp_or_id b _ _ (fun _ => writing (Some (mkF data false))) X); [|done]| |done].
  { apply ewp_wrap. unfold e_writeFullAt. exact (halfway_write b _ [] data t' (le_n _) Hw). }
  clear t' Hw. intros [] t' Hw.
  apply ewp_bind. eapply ewp_mono; [apply (ewp_or_id b _ _ (fun _ => writing (Some new)) X); [|done]| |done].
  { apply ewp_wrap, ewp_bind, ewp_call; [intros ->; split; [done|by eexists]|]. apply ewp_bind. eapply ewp_lookup; [by apply writing_lookup|].
    apply ewp_update. by apply (writing_change (Some (mkF data false))). }
  clear t' Hw. intros [] t' Hw.
  apply ewp_bind. eapply ewp_mono; [apply (ewp_or_id b _ _ (fun _ => writing (Some new)) X); [|done]| |done].
  { apply ewp_wrap, ewp_call; [intros ->; split; [done|by eexists]|done]. }
  clear t' Hw. intros [] t' Hw.
  apply ewp_bind. eapply ewp_mono; [apply (ewp_or_id b _ _ (fun _ t1 => exists h, t1 = set_dir p h t /\ spread temp final new h0 h /\ now h = <[final := new]> (delete temp (now h0))) X); [|done]| |done].
  { by apply ewp_wrap, ewp_rename_temp. }
  clear t' Hw. intros [] t' (h & -> & Hs & Hn). apply ewp_syncDirectory.
  - unfold settle. by rewrite Hn.
  - intros ->. split; (split; [done|]); eexists; (split; [done|]); [done|by apply settled_spread].
Qed.

Lemma ewp_write_atomic b create write sync close rename :
  ewp b (write_atomic p temp final data create write sync close rename)
    (fun _ t1 => t1 = published) (fun t1 => b = true /\ unpublished t1) t.
Proof.
  unfold write_atomic. apply ewp_bind, ewp_ignore. pose proof halfway_start as Hh.
  apply (ewp_mono b _ (fun _ => writing None) _ (fun t' => b = true /\ halfway t')).
  - apply ewp_bind, ewp_call; [done|]. apply ewp_update. destruct Hh as [o Ho]. by apply (writing_change o).
  - intros a t' Hw. apply ewp_publish; [by exists None|done].
  - intros t' [-> Ht']. split; [done|]. by apply ewp_publish.
Qed.
End atomic.
