(* ===== verification/Publish.v ===== *)
(** [internal/engine/manifest.go] over the data directory: publishing a
    manifest, opening the one CURRENT names, removing what no manifest uses;
    and writing a table file. *)

From Stdlib Require Import ZArith Lia.
From stdpp Require Import base list gmap.
From S2P Require Import Prelude EngineOps Fs Sst View Manifest Tree.

Local Open Scope Z_scope.

Definition currentName : bytes := lit "CURRENT".
Definition temp_of (name : bytes) : bytes := lit "." ++ name ++ lit ".tmp".

(** ** Writing *)

Definition writeAtomicRoot (temp final data : bytes) : eio unit :=
  write_atomic Root temp final data "create atomic file" "write atomic file" "sync atomic file" "close atomic file" "rename atomic file".

Definition publishManifest (m : manifest) : eio unit :=
  data ← e_lift (encodeManifest m);
  let name := manifestName (generation m) in
  writeAtomicRoot (temp_of name) name data;;
  current ← e_lift (encodeCurrent name);
  writeAtomicRoot (temp_of currentName) currentName current.

Definition writeSST (entries : list sstEntry) (level : byte) (id maxLSN : Z) (opts : Options) : eio sstFile :=
  '(data, meta) ← e_lift (encodeSST entries level id maxLSN opts);
  write_atomic Tables (temp_of (sst_name meta)) (sst_name meta) data "create SST" "write SST" "sync SST" "close SST" "publish SST";;
  mret meta.

(** ** Cleaning up *)

(** Removes the given names in order. *)
Fixpoint remove_all (p : place) (why : String.string) (names : list bytes) : eio unit :=
  match names with
  | [] => mret tt
  | name :: names' => e_wrap (fun _ => ErrFilesystem why) (e_Remove p name);; remove_all p why names'
  end.

(** [strings.HasSuffix(name, ".tmp")] *)
Definition is_temp (name : bytes) : bool := bool_decide (is_Some (cut_suffix (lit ".tmp") name)).

(** The loop of [cleanupSSTDirectory]. *)
Fixpoint cleanup_tables (keep : gset bytes) (names : list bytes) : eio unit :=
  match names with
  | [] => mret tt
  | name :: names' =>
      if is_temp name || (validSSTName name && negb (bool_decide (name ∈ keep))) then
        e_wrap (fun _ => ErrFilesystem "remove orphan SST") (e_Remove Tables name);;
        cleanup_tables keep names'
      else
        e_fail_if (negb (validSSTName name)) (ErrCorrupt "unexpected SST member");;
        cleanup_tables keep names'
  end.

Definition file_names (files : list sstFile) : gset bytes := list_to_set (map sst_name files).

Definition cleanupSSTDirectory (files : list sstFile) : eio unit :=
  names ← e_wrap (fun _ => ErrFilesystem "list SST directory") (e_ReadDir Tables);
  cleanup_tables (file_names files) names;;
  e_syncDirectory Tables.

Definition cleanupManifests (current : bytes) : eio unit :=
  names ← e_wrap (fun _ => ErrFilesystem "list root") (e_ReadDir Root);
  remove_all Root "remove obsolete manifest" (List.filter (fun name => validManifestName name && negb (beq name current)) names);;
  e_syncDirectory Root.

(** ** Opening *)

(** [readRootFile]; [None] is [fs.ErrNotExist]. *)
Definition readRootFile (name : bytes) (max : Z) : eio (option bytes) :=
  f ← e_open Root name;
  match f with
  | None => mret None
  | Some f =>
      e_defer (e_call;;
               e_fail_if (max <? len (f_data f)) (ErrCorrupt "file exceeds bound");;
               e_call;;
               mret (Some (f_data f)))
        e_Close
  end.

Definition read_manifest (name : bytes) (opts : Options) : eio manifest :=
  e_fail_if (negb (validManifestName name)) (ErrCorrupt "invalid CURRENT manifest name");;
  data ← e_wrap (fun _ => ErrCorrupt "read manifest") (readRootFile name manifestMaxBytes);
  e_lift (readManifest name data opts).

(** What the table directory holds; one answer stands for opening and reading a
    table. *)
Definition table_dir (h : hdir) : gmap bytes bytes := f_data <$> now h.

Fixpoint validateSSTFiles (files : list sstFile) (opts : Options) : eio unit :=
  match files with
  | [] => mret tt
  | file :: files' =>
      e_wrap (fun _ => ErrCorrupt "open SST") e_call;;
      h ← get_dir Tables;
      e_lift (openSSTReader (table_dir h !! sst_name file) file opts true);;
      e_wrap (fun _ => ErrCorrupt "close SST") e_Close;;
      validateSSTFiles files' opts
  end.

(** [Lstat] of a directory that [MkdirAll] has just made sure of; the number it
    answers are the mode bits that make a directory unusable: a symbolic link,
    no directory, or permissions beyond the owner's. *)
Definition e_prepareDirectory (name : String.string) : eio unit :=
  mode ← e_respond 0;
  e_fail_if (r_err mode) (ErrFilesystem name);;
  e_fail_if (negb (r_bytes mode =? 0)) ErrInvalidDataDir.

Definition e_ensureDirectory (name : String.string) : eio unit :=
  e_wrap (fun _ => ErrFilesystem name) e_call;;
  e_prepareDirectory name.

Definition fresh_manifest : manifest := mkManifest 0 0 [] 1.

(** The manifest when CURRENT is missing: a crash can leave a complete manifest
    that CURRENT does not name yet. *)
Definition recover_current (opts : Options) : eio manifest :=
  names ← e_wrap (fun _ => ErrFilesystem "list root") (e_ReadDir Root);
  match highestManifest names with
  | Some name =>
      m ← read_manifest name opts;
      validateSSTFiles (mf_files m) opts;;
      currentData ← e_lift (encodeCurrent name);
      writeAtomicRoot (temp_of currentName) currentName currentData;;
      cleanupSSTDirectory (mf_files m);;
      cleanupManifests name;;
      mret m
  | None => cleanupSSTDirectory [];; mret fresh_manifest
  end.

Definition openManifest (opts : Options) : eio manifest :=
  e_ensureDirectory "sst";;
  current ← e_wrap (fun _ => ErrCorrupt "read CURRENT") (readRootFile currentName 4096);
  match current with
  | None => recover_current opts
  | Some current =>
      name ← e_lift (decodeCurrent current);
      m ← read_manifest name opts;
      validateSSTFiles (mf_files m) opts;;
      cleanupSSTDirectory (mf_files m);;
      cleanupManifests name;;
      mret m
  end.

Lemma ewp_ensureDirectory b name Q (X : tree -> Prop) t : (b = true -> X t) -> Q tt t -> ewp b (e_ensureDirectory name) Q X t.
Proof.
  intros HX HQ. apply ewp_bind, ewp_wrap, ewp_call; [done|]. apply ewp_bind, ewp_respond. intros r Hr.
  destruct b; [|rewrite Hr by done; by apply ewp_bind, ewp_fail_if; [|intros _; apply ewp_fail_if]].
  apply ewp_bind, ewp_fail_if; [auto|intros _]. apply ewp_fail_if; auto.
Qed.
