(* ===== verification/Lsm.v ===== *)
(** [internal/engine/lsm.go]: the engine's state, the flush of the memtable to
    a table of level zero, and the compaction of all tables into level one. *)

From Stdlib Require Import ZArith Lia.
From stdpp Require Import base list gmap.
From S2P Require Import Prelude GoStd EngineOps Fs Wal WalLog Sst View Manifest Tree Publish.

Local Open Scope Z_scope.

(** ** The engine *)

(** [lock] is the LOCK file as [Open] acquired it: whether it is held by a
    process lock, and whether [Open] created it as a presence lock. *)
Record Engine : Type := mkEngine {
  e_opts : Options;
  e_wal : wal;
  e_lsn : Z;
  e_active : gmap bytes memEntry;
  e_activeBytes : Z;
  e_manifest : manifest;
  e_pins : Z;
  e_obsolete : list sstFile;
  e_lockFlock : bool;
  e_lockFile : bool;
  e_closed : bool;
  e_poisoned : option engine_error;
  e_snapshots : Z
}.

(** Methods change the engine also when they fail. *)
Definition em (A : Type) : Type := Engine -> tree -> list response -> result engine_error A * Engine * tree * list response.
#[export] Instance em_ret : MRet em := fun A a e t s => (Ok a, e, t, s).
#[export] Instance em_bind : MBind em :=
  fun A B f m e t s => match m e t s with (Ok a, e', t', s') => f a e' t' s' | (Fail err, e', t', s') => (Fail err, e', t', s') end.

Definition m_io {A} (m : eio A) : em A := fun e t s => let '(r, t', s') := m t s in (r, e, t', s').
Definition m_get : em Engine := fun e t s => (Ok e, e, t, s).
Definition m_put (e' : Engine) : em unit := fun _ t s => (Ok tt, e', t, s).
Definition m_fail {A} (err : engine_error) : em A := m_io (e_fail err).
Definition m_fail_if (c : bool) (err : engine_error) : em unit := m_io (e_fail_if c err).

Definition with_wal (e : Engine) (w : wal) : Engine :=
  mkEngine (e_opts e) w (e_lsn e) (e_active e) (e_activeBytes e) (e_manifest e) (e_pins e) (e_obsolete e) (e_lockFlock e) (e_lockFile e)
    (e_closed e) (e_poisoned e) (e_snapshots e).
Definition with_memtable (e : Engine) (lsn : Z) (active : gmap bytes memEntry) (activeBytes : Z) : Engine :=
  mkEngine (e_opts e) (e_wal e) lsn active activeBytes (e_manifest e) (e_pins e) (e_obsolete e) (e_lockFlock e) (e_lockFile e)
    (e_closed e) (e_poisoned e) (e_snapshots e).
Definition with_manifest (e : Engine) (m : manifest) : Engine :=
  mkEngine (e_opts e) (e_wal e) (e_lsn e) (e_active e) (e_activeBytes e) m (e_pins e) (e_obsolete e) (e_lockFlock e) (e_lockFile e)
    (e_closed e) (e_poisoned e) (e_snapshots e).
Definition with_pins (e : Engine) (pins : Z) : Engine :=
  mkEngine (e_opts e) (e_wal e) (e_lsn e) (e_active e) (e_activeBytes e) (e_manifest e) pins (e_obsolete e) (e_lockFlock e) (e_lockFile e)
    (e_closed e) (e_poisoned e) (e_snapshots e).
Definition with_obsolete (e : Engine) (obsolete : list sstFile) : Engine :=
  mkEngine (e_opts e) (e_wal e) (e_lsn e) (e_active e) (e_activeBytes e) (e_manifest e) (e_pins e) obsolete (e_lockFlock e) (e_lockFile e)
    (e_closed e) (e_poisoned e) (e_snapshots e).
Definition with_closed (e : Engine) : Engine :=
  mkEngine (e_opts e) (e_wal e) (e_lsn e) (e_active e) (e_activeBytes e) (e_manifest e) (e_pins e) (e_obsolete e) (e_lockFlock e) (e_lockFile e)
    true (e_poisoned e) (e_snapshots e).
Definition with_poison (e : Engine) (err : engine_error) : Engine :=
  mkEngine (e_opts e) (e_wal e) (e_lsn e) (e_active e) (e_activeBytes e) (e_manifest e) (e_pins e) (e_obsolete e) (e_lockFlock e) (e_lockFile e)
    (e_closed e) (Some err) (e_snapshots e).
Definition with_snapshots (e : Engine) (n : Z) : Engine :=
  mkEngine (e_opts e) (e_wal e) (e_lsn e) (e_active e) (e_activeBytes e) (e_manifest e) (e_pins e) (e_obsolete e) (e_lockFlock e) (e_lockFile e)
    (e_closed e) (e_poisoned e) n.

(** ** Compaction *)

Definition countLevel (files : list sstFile) (level : byte) : Z := len (level_files level files).

(** The obsolete files to remove: not in the current manifest, each once. *)
Fixpoint to_remove (current seen : gset bytes) (files : list sstFile) : list bytes :=
  match files with
  | [] => []
  | file :: files' =>
      if bool_decide (sst_name file ∈ current) || bool_decide (sst_name file ∈ seen) then to_remove current seen files'
      else sst_name file :: to_remove current ({[sst_name file]} ∪ seen) files'
  end.

Definition cleanupObsoleteLocked : em unit :=
  e ← m_get;
  if negb (e_pins e =? 0) || bool_decide (e_obsolete e = []) then mret tt
  else
    m_io (remove_all Tables "remove obsolete SST" (to_remove (file_names (mf_files (e_manifest e))) ∅ (e_obsolete e)));;
    m_put (with_obsolete e []);;
    m_io (e_syncDirectory Tables).

(** [flushEntries]: a chunk that does not encode is split in half.  The halves
    of two and more entries are shorter, so the number of entries bounds the
    depth. *)
Fixpoint flushEntries (fuel : nat) (lsn : Z) (opts : Options) (entries : list sstEntry) (nextID : Z) (outputs : list sstFile)
    : eio (Z * list sstFile) :=
  match fuel with
  | O => mret (nextID, outputs)
  | S fuel' =>
      if bool_decide (entries = []) then mret (nextID, outputs)
      else match encodeSST entries x01 nextID lsn opts with
           | Fail err =>
               if len entries =? 1 then e_fail err
               else
                 let mid := Nat.div (length entries) 2 in
                 '(nextID, outputs) ← flushEntries fuel' lsn opts (take mid entries) nextID outputs;
                 flushEntries fuel' lsn opts (drop mid entries) nextID outputs
           | Ok _ =>
               file ← writeSST entries x01 nextID lsn opts;
               mret (uint64 (nextID + 1), outputs ++ [file])
           end
  end.

Definition flush_chunk (lsn : Z) (opts : Options) (chunk : list sstEntry) (nextID : Z) (outputs : list sstFile) : eio (Z * list sstFile) :=
  flushEntries (length chunk) lsn opts chunk nextID outputs.

Definition compaction_target (opts : Options) : Z :=
  let target := MaxSSTBytes opts - SSTBlockBytes opts - sstHeaderLen - sstFooterLen - 64 in
  if target <? 1 then SSTBlockBytes opts else target.

(** The merge loop; every round consumes an entry of the sources.  One answer
    stands for the block reads of a round. *)
Fixpoint compact_loop (fuel : nat) (lsn : Z) (opts : Options) (sources : list sourceCursor) (chunk : list sstEntry) (chunkBytes nextID : Z)
    (outputs : list sstFile) : eio (Z * list sstFile) :=
  match fuel with
  | O => flush_chunk lsn opts chunk nextID outputs
  | S fuel' =>
      e_call;;
      '(entry, sources) ← e_lift (nextMergedRaw sources);
      match entry with
      | None => flush_chunk lsn opts chunk nextID outputs
      | Some entry =>
          if bool_decide (ent_kind entry = deleteOp) then compact_loop fuel' lsn opts sources chunk chunkBytes nextID outputs
          else
            let entryBytes := entry_size entry in
            if (0 <? len chunk) && (compaction_target opts <? chunkBytes + entryBytes) then
              '(nextID, outputs) ← flush_chunk lsn opts chunk nextID outputs;
              compact_loop fuel' lsn opts sources [entry] entryBytes nextID outputs
            else compact_loop fuel' lsn opts sources (chunk ++ [entry]) (chunkBytes + entryBytes) nextID outputs
      end
  end.

Definition compact_view (e : Engine) (h : hdir) : engineView := mkView (table_dir h) (e_opts e) [] (mf_files (e_manifest e)).

(** The tables of level one that replace all tables, and the next number. *)
Definition compact_tables (e : Engine) : eio (Z * list sstFile) :=
  e_call;;
  h ← get_dir Tables;
  sources ← e_lift (buildSources (compact_view e h) None);
  compact_loop (S (sources_size sources + length sources)) (e_lsn e) (e_opts e) sources [] 0 (nextSST (e_manifest e)) [].

Definition compactLevels : em unit :=
  e ← m_get;
  if countLevel (mf_files (e_manifest e)) x00 =? 0 then mret tt
  else
    '(nextID, outputs) ← m_io (compact_tables e);
    m_fail_if (MaxSSTFiles (e_opts e) - l0CompactionTrigger <? len outputs) (ErrBatchTooLarge "compaction produced too many SST files");;
    let old := e_manifest e in
    let updated := mkManifest (uint64 (generation old + 1)) (e_lsn e) outputs nextID in
    m_io (publishManifest updated);;
    m_put (with_obsolete (with_manifest e updated) (e_obsolete e ++ mf_files old));;
    cleanupObsoleteLocked;;
    m_io (cleanupManifests (manifestName (generation updated))).

(** ** Flushing *)

Definition flushActive : em unit :=
  e ← m_get;
  if bool_decide (e_active e = ∅) then mret tt
  else
    let entries := sort_by ent_key (entriesFromActive (e_active e)) in
    let old := e_manifest e in
    let id := if nextSST old =? 0 then 1 else nextSST old in
    newFile ← m_io (writeSST entries x00 id (e_lsn e) (e_opts e));
    w ← m_io (e_wrap (fun _ => ErrFilesystem "rotate WAL for checkpoint") (in_wal (rotate (e_wal e) (uint64 (e_lsn e + 1)))));
    m_put (with_wal e w);;
    let files := level_files x00 (mf_files old) ++ [newFile] ++ level_files x01 (mf_files old) in
    m_fail_if (MaxSSTFiles (e_opts e) <? len files) (ErrBatchTooLarge "flush would exceed manifest SST limit");;
    let updated := mkManifest (uint64 (generation old + 1)) (e_lsn e) files (uint64 (id + 1)) in
    m_io (publishManifest updated);;
    m_put (with_memtable (with_manifest (with_wal e w) updated) (e_lsn e) ∅ 0);;
    m_io (in_wal (removeBefore (wal_seg w)));;
    if (l0CompactionTrigger <=? countLevel files x00) || (MaxSSTFiles (e_opts e) <=? len files) then compactLevels else mret tt.

Definition checkpoint (full : bool) : em unit :=
  e ← m_get;
  if negb full && bool_decide (e_active e = ∅) then mret tt
  else if bool_decide (e_active e = ∅) then mret tt
  else flushActive.
