(* ===== verification/Engine.v ===== *)
(** [internal/engine/engine.go] and the snapshots, iterators and streams of
    [api.go]: opening, writing, reading and closing the storage engine. *)

From Stdlib Require Import ZArith Lia.
From stdpp Require Import base list gmap.
From S2P Require Import Prelude GoStd EngineOps Fs Wal WalLog Sst View Manifest Tree Publish Lsm.

Local Open Scope Z_scope.

(** ** The base directory *)

Record finfo : Type := mkInfo { fi_symlink : bool; fi_dir : bool; fi_perm : Z }.

(** What [Lstat] answers. *)
Inductive stat_answer : Type :=
| NotExist
| StatError
| Info (i : finfo).

Definition private_directory (i : finfo) : bool := negb (fi_symlink i || negb (fi_dir i) || negb (Z.land (fi_perm i) 0x3f =? 0)).

(** [prepareBaseDirectory], given the answers of [Lstat], [MkdirAll] and
    [Lstat] again. *)
Definition prepareBaseDirectory (before : stat_answer) (mkdir : bool) (after : stat_answer) : result engine_error bool :=
  match before with
  | NotExist =>
      fail_if (negb mkdir) (ErrFilesystem "create data directory");;
      match after with
      | Info i => fail_if (negb (private_directory i)) ErrInvalidDataDir;; Ok true
      | _ => Fail (ErrFilesystem "stat data directory")
      end
  | StatError => Fail (ErrFilesystem "stat data directory")
  | Info i => fail_if (negb (private_directory i)) ErrInvalidDataDir;; Ok false
  end.

(** The operating system's side of [Open]: the answers for the directory and
    its parent, whether the default file system is used, the handle opened on
    the directory and whether it is the directory seen before, what kind of
    lock files have and how an attempt to lock answers ([Some true] when it is
    held elsewhere). *)
Record host : Type := mkHost {
  h_before : stat_answer;
  h_mkdir : bool;
  h_after : stat_answer;
  h_default : bool;
  h_syncParent : bool;
  h_lstat : stat_answer;
  h_openRoot : bool;
  h_rootStat : stat_answer;
  h_sameFile : bool;
  h_lockable : bool;
  h_tryLock : option bool
}.

Definition open_root (h : host) : result engine_error unit :=
  createdBase ← prepareBaseDirectory (h_before h) (h_mkdir h) (h_after h);
  fail_if (createdBase && h_default h && negb (h_syncParent h)) (ErrFilesystem "sync parent directory");;
  if h_default h then
    fail_if (match h_lstat h with Info _ => false | _ => true end) (ErrFilesystem "stat data directory before root");;
    fail_if (negb (h_openRoot h)) (ErrFilesystem "open descriptor root");;
    match h_rootStat h with
    | Info i => fail_if (negb (h_sameFile h) || negb (Z.land (fi_perm i) 0x3f =? 0)) ErrInvalidDataDir
    | _ => Fail (ErrFilesystem "stat data directory after root")
    end
  else Ok tt.

(** ** The lock *)

Definition lockName : bytes := lit "LOCK".

Definition lock_error (busy : bool) : engine_error := if busy then ErrLocked else ErrFilesystem "lock".

Definition acquireLock (h : host) : eio (bool * bool) :=
  e_wrap (fun _ => ErrFilesystem "probe lock") e_call;;
  d ← get_dir Root;
  match now d !! lockName with
  | Some _ =>
      if h_lockable h then
        match h_tryLock h with
        | None => mret (true, false)
        | Some busy => e_ignore e_Close;; e_fail (lock_error busy)
        end
      else e_ignore e_Close;; e_fail ErrLocked
  | None =>
      e_wrap (fun _ => ErrFilesystem "create lock") (e_create Root lockName);;
      if h_lockable h then
        match h_tryLock h with
        | None => mret (true, false)
        | Some busy => e_ignore e_Close;; e_ignore (e_Remove Root lockName);; e_fail (lock_error busy)
        end
      else mret (false, true)
  end.

(** [releaseLock]: every step is tried, the first error is returned. *)
Definition releaseLock (flock created : bool) : eio unit :=
  fun t s =>
    let '(r1, t, s) := (if flock then e_call else mret tt) t s in
    let '(r2, t, s) := e_Close t s in
    let '(r3, t, s) := (if created then e_Remove Root lockName else mret tt) t s in
    (r1;; r2;; r3, t, s).

(** ** Opening *)

(** The checkpoint of what the log holds beyond the manifest; when it fails
    the log is closed. *)
Definition open_checkpoint (e : Engine) : eio Engine :=
  fun t s =>
    match checkpoint true e t s with
    | (Ok _, e', t', s') => (Ok e', t', s')
    | (Fail err, e', t', s') => let '(_, t', s') := in_wal (snd (wal_close (e_wal e'))) t' s' in (Fail err, t', s')
    end.

Definition open_engine (h : host) (opts : Options) : eio Engine :=
  e_ensureDirectory "wal";;
  e_syncDirectory Root;;
  '(flock, created) ← acquireLock h;
  e_or (m ← openManifest opts;
        '(w, recovered, lsn) ← in_wal (openWAL opts (Some emptyState) (flushedLSN m));
        let active := entriesMap recovered in
        let e := mkEngine opts w lsn active (memtableBytes active) m 0 [] flock created false None 0 in
        if bool_decide (active = ∅) then mret e else open_checkpoint e)
       (releaseLock flock created).

Definition Open (dir : bytes) (h : host) (o : Options) : eio Engine :=
  e_fail_if (bool_decide (dir = [])) ErrInvalidDataDir;;
  opts ← e_lift (normalized o);
  e_lift (open_root h);;
  open_engine h opts.

(** ** Writing *)

Definition Engine_stateErr (e : Engine) : result engine_error unit :=
  if e_closed e then Fail ErrClosed
  else match e_poisoned e with Some err => Fail err | None => Ok tt end.

Definition poisonError (err : engine_error) : engine_error :=
  match err with ErrPoisoned why => ErrPoisoned why | _ => ErrPoisoned "engine: poisoned after uncertain durability" end.

Inductive apply_input : Type :=
| BatchValue (b : Batch)
| BatchPointer (b : option Batch)
| OtherInput.

Definition batchValue (input : apply_input) : result engine_error Batch :=
  match input with
  | BatchValue b => Ok b
  | BatchPointer (Some b) => Ok b
  | BatchPointer None => Fail (ErrInvalidBatch "nil batch")
  | OtherInput => Fail (ErrInvalidBatch "Apply expects Batch or *Batch")
  end.

(** The mark left on the caller's batch. *)
Definition seal (input : apply_input) : apply_input :=
  match input with
  | BatchPointer (Some b) => BatchPointer (Some (mkBatch (ops b) (batch_bytes b) (maxOps b) (maxBytes b) (maxKey b) (maxValue b) true))
  | _ => input
  end.

(** [if err := m; err != nil { e.poisoned = poisonError(err); return e.poisoned }] *)
Definition or_poison {A} (m : em A) : em A :=
  fun e t s => match m e t s with
               | (Fail err, e', t', s') => (Fail (poisonError err), with_poison e' (poisonError err), t', s')
               | r => r
               end.

(** [Apply] up to the publication of the new memtable. *)
Definition apply_append (input : apply_input) : em Z :=
  e ← m_get;
  m_io (e_lift (Engine_stateErr e));;
  batch ← m_io (e_lift (batchValue input));
  m_fail_if (e_lsn e =? max_uint64) (ErrPoisoned "LSN exhausted");;
  '(l, _) ← m_io (e_lift (canonicalOperations (Some batch) (e_opts e)));
  '(active, activeBytes) ← m_io (e_lift (applyToMemtable (cloneMemtable (e_active e)) (e_activeBytes e) l (e_opts e)));
  let nextLSN := uint64 (e_lsn e + 1) in
  '(frame, _) ← m_io (e_lift (encodeFrame nextLSN (Some batch) (e_opts e)));
  w ← or_poison (m_io (in_wal (appendFrame (e_opts e) (e_wal e) frame nextLSN)));
  m_put (with_memtable (with_wal e w) nextLSN active activeBytes);;
  mret nextLSN.

(** The flush at the end of [Apply]. *)
Definition apply_flush : em unit :=
  e ← m_get;
  if MemtableBytes (e_opts e) <=? e_activeBytes e then or_poison flushActive else mret tt.

Definition Apply (input : apply_input) (e : Engine) (t : tree) (s : list response)
    : (result engine_error Z * apply_input) * Engine * tree * list response :=
  match apply_append input e t s with
  | (Fail err, e, t, s) => ((Fail err, input), e, t, s)
  | (Ok lsn, e, t, s) =>
      match apply_flush e t s with
      | (Fail err, e, t, s) => ((Fail err, seal input), e, t, s)
      | (Ok _, e, t, s) => ((Ok lsn, seal input), e, t, s)
      end
  end.

(** ** Reading *)

Definition current_view (e : Engine) (h : hdir) : engineView :=
  newViewLocked (table_dir h) (e_opts e) (e_active e) (mf_files (e_manifest e)).

Definition Engine_Get (key : bytes) : em bytes :=
  e ← m_get;
  m_io (e_lift (Engine_stateErr e));;
  m_io (e_lift (validateKey key (MaxKeyBytes (e_opts e))));;
  h ← m_io (get_dir Tables);
  m_io (e_lift (lookupView (current_view e h) key)).

Definition Engine_Scan (start end_ : option bytes) (limit : Z) : em (list Entry * option engine_error) :=
  e ← m_get;
  m_io (e_lift (Engine_stateErr e));;
  h ← m_io (get_dir Tables);
  m_io (e_lift (view_Scan (current_view e h) start end_ limit)).

Definition LSN : em Z :=
  e ← m_get;
  m_io (e_lift (Engine_stateErr e));;
  mret (e_lsn e).

(** *** Views that outlive the call *)

(** [_ = m] *)
Definition m_ignore {A} (m : em A) : em unit := fun e t s => match m e t s with (_, e', t', s') => (Ok tt, e', t', s') end.

Definition releaseView : em unit :=
  e ← m_get;
  let e := if 0 <? e_pins e then with_pins e (e_pins e - 1) else e in
  m_put e;;
  if e_pins e =? 0 then m_ignore cleanupObsoleteLocked else mret tt.

Definition pinViewLocked : em unit := e ← m_get; m_put (with_pins e (e_pins e + 1)).

(** [Iterator] and [Iterate]: the pin is given back when no iterator is made. *)
Definition pinned_iterator (make : engineView -> result engine_error Iterator) : em Iterator :=
  e ← m_get;
  m_io (e_lift (Engine_stateErr e));;
  pinViewLocked;;
  h ← m_io (get_dir Tables);
  match make (current_view e h) with
  | Ok it => mret it
  | Fail err => e ← m_get; m_put (with_pins e (e_pins e - 1));; m_fail err
  end.
Definition Engine_Iterator (start end_ : option bytes) (limit : Z) : em Iterator :=
  pinned_iterator (fun v => newIterator v start end_ limit).
Definition Engine_Iterate (start end_ : option bytes) : em Iterator :=
  pinned_iterator (fun v => newStreamingIterator v start end_).

Definition close_iterator (it : Iterator) : Iterator := it_with it (it_sources it) (it_seen it) true (it_err it).

Definition Iterator_Close (it : Iterator) : em Iterator :=
  if it_closed it then mret it else releaseView;; mret (close_iterator it).

(** [Next]; the call that closes the iterator releases its view. *)
Definition iterator_next (it : Iterator) : em (Iterator * option Entry) :=
  let '(it', e) := Iterator_Next it in
  (if negb (it_closed it) && it_closed it' then releaseView else mret tt);;
  mret (it', e).

(** [Last] opens a streaming iterator and reads it to the end, which closes
    it. *)
Definition Engine_Last (start end_ : option bytes) : em Entry :=
  it ← Engine_Iterate start end_;
  let last := last_loop (S (sources_size (it_sources it) + length (it_sources it))) it None in
  releaseView;;
  m_io (e_lift last).

(** *** Streams *)

Record Stream : Type := mkStream { st_iterator : Iterator; st_err : option engine_error }.

Definition Engine_Stream (start end_ : option bytes) : em Stream :=
  it ← Engine_Iterate start end_; mret (mkStream it None).

Definition Stream_Next (st : Stream) : em (Stream * option Entry * option engine_error) :=
  match st_err st with
  | Some err => mret (st, None, Some err)
  | None =>
      '(it, e) ← iterator_next (st_iterator st);
      mret (mkStream it (it_err it), e, it_err it)
  end.

Definition Stream_Close (st : Stream) : em Stream :=
  it ← Iterator_Close (st_iterator st); mret (mkStream it (st_err st)).

(** *** Snapshots *)

(** The view of a snapshot, nil once it is closed. *)
Record Snapshot : Type := mkSnapshot { sn_view : option engineView; sn_lsn : Z }.

Definition Engine_Snapshot : em Snapshot :=
  e ← m_get;
  m_io (e_lift (Engine_stateErr e));;
  m_fail_if (MaxSnapshots (e_opts e) <=? e_snapshots e) ErrTooManySnapshot;;
  m_put (with_snapshots e (e_snapshots e + 1));;
  pinViewLocked;;
  h ← m_io (get_dir Tables);
  mret (mkSnapshot (Some (current_view e h)) (e_lsn e)).

(** A view reads the table directory as it is when it is used. *)
Definition view_on (h : hdir) (v : engineView) : engineView := mkView (table_dir h) (v_opt v) (v_active v) (v_files v).

Definition with_view {A} (sn : Snapshot) (f : engineView -> result engine_error A) : em A :=
  match sn_view sn with
  | None => m_fail ErrClosed
  | Some v => h ← m_io (get_dir Tables); m_io (e_lift (f (view_on h v)))
  end.
Definition Snapshot_Get (sn : Snapshot) (key : bytes) : em bytes := with_view sn (fun v => lookupView v key).
Definition Snapshot_Scan (sn : Snapshot) (start end_ : option bytes) (limit : Z) : em (list Entry * option engine_error) :=
  with_view sn (fun v => view_Scan v start end_ limit).

Definition snapshot_iterator (sn : Snapshot) (make : engineView -> result engine_error Iterator) : em Iterator :=
  match sn_view sn with
  | None => m_fail ErrClosed
  | Some v =>
      pinViewLocked;;
      h ← m_io (get_dir Tables);
      match make (view_on h v) with
      | Ok it => mret it
      | Fail err => releaseView;; m_fail err
      end
  end.
Definition Snapshot_Iterator (sn : Snapshot) (start end_ : option bytes) (limit : Z) : em Iterator :=
  snapshot_iterator sn (fun v => newIterator v start end_ limit).
Definition Snapshot_Iterate (sn : Snapshot) (start end_ : option bytes) : em Iterator :=
  snapshot_iterator sn (fun v => newStreamingIterator v start end_).

Definition Snapshot_Last (sn : Snapshot) (start end_ : option bytes) : em Entry :=
  it ← Snapshot_Iterate sn start end_;
  let last := last_loop (S (sources_size (it_sources it) + length (it_sources it))) it None in
  releaseView;;
  m_io (e_lift last).

Definition Snapshot_Stream (sn : Snapshot) (start end_ : option bytes) : em Stream :=
  it ← Snapshot_Iterate sn start end_; mret (mkStream it None).

Definition Snapshot_Close (sn : Snapshot) : em Snapshot :=
  match sn_view sn with
  | None => mret sn
  | Some _ =>
      e ← m_get;
      m_put (if 0 <? e_snapshots e then with_snapshots e (e_snapshots e - 1) else e);;
      releaseView;;
      mret (mkSnapshot None (sn_lsn sn))
  end.

(** ** Closing *)

(** Every part is closed; the first error is reported. [closeRoot] has no
    answer of its own under an injected file system. *)
Definition close_parts (closeWal : io unit) (flock created closeRoot : bool) : eio unit :=
  fun t s =>
    let '(walErr, t, s) := in_wal closeWal t s in
    let '(lockErr, t, s) := releaseLock flock created t s in
    (map_err (fun _ => ErrFilesystem "close WAL") walErr;;
     map_err (fun _ => ErrFilesystem "close lock") lockErr;;
     fail_if (negb closeRoot) (ErrFilesystem "close root"), t, s).
Definition Engine_Close (closeRoot : bool) : em unit :=
  e ← m_get;
  if e_closed e then mret tt
  else
    let '(w, closeWal) := wal_close (e_wal e) in
    m_put (with_wal (with_closed e) w);;
    m_io (close_parts closeWal (e_lockFlock e) (e_lockFile e) closeRoot).
