(* ===== verification/PublishSafe.v ===== *)
(** Publication is atomic: while a manifest is published the root names the
    old one or the new one, whatever the calls answer and wherever a crash
    falls, and opening then returns the manifest the root names. *)

From Stdlib Require Import ZArith Lia.
From stdpp Require Import base list gmap.
From S2P Require Import Prelude EngineOps Fs Sst View Manifest Tree Publish.

Local Open Scope Z_scope.

(** ** Crashes, name by name *)

Lemma crash_certain h h' name f : hcrash h h' -> f_synced f = true -> (forall o, may_be h name o -> o = Some f) -> now h' !! name = Some f.
Proof.
  intros [_ Hc] Hs Ho. destruct (Hc name) as (o & Hm & Hv). rewrite (Ho o Hm) in Hv. destruct (now h' !! name) as [g|]; [|done].
  destruct Hv as [Hg Hd]. destruct f as [df sf], g as [dg sg]. cbn in *. subst sf sg. by rewrite Hd.
Qed.

Lemma crash_absent h h' name : hcrash h h' -> (forall o, may_be h name o -> o = None) -> now h' !! name = None.
Proof. intros [_ Hc] Ho. destruct (Hc name) as (o & Hm & Hv). rewrite (Ho o Hm) in Hv. by destruct (now h' !! name). Qed.

Lemma crash_either h h' name (P : option hfile -> Prop) : hcrash h h' -> (forall o, may_be h name o -> P o) ->
  (forall f, P (Some f) -> f_synced f = true) -> P (now h' !! name).
Proof.
  intros [_ Hc] Ho Hs. destruct (Hc name) as (o & Hm & Hv). specialize (Ho o Hm). destruct o as [f|], (now h' !! name) as [g|]; try done.
  specialize (Hs f Ho). destruct Hv as [Hg Hd]. destruct f as [df sf], g as [dg sg]. cbn in *. subst sf sg. by rewrite Hd.
Qed.

Lemma crash_may_be h h' name o : hcrash h h' -> may_be h' name o -> o = now h' !! name.
Proof. intros [Hp _] (m & Hm & <-). rewrite Hp in Hm. by apply list_elem_of_singleton in Hm as ->. Qed.

(** ** Names *)

Definition is_manifest (name : bytes) : Prop := is_Some (parseNumberName name (lit "MANIFEST-") []).

Lemma cut_prefix_Some p s r : cut_prefix p s = Some r -> s = p ++ r.
Proof.
  unfold cut_prefix. destruct (beq (take (length p) s) p) eqn:E; [|done]. apply beq_true in E. intros [= <-]. rewrite <- E at 1. by rewrite take_drop.
Qed.

Lemma is_manifest_head name : is_manifest name -> exists r, name = lit "MANIFEST-" ++ r.
Proof.
  intros [n H]. unfold parseNumberName in H. apply bind_Some in H as (r & H & _). exists r. by apply cut_prefix_Some.
Qed.

Lemma manifestName_parse gen : is_u64 gen -> parseNumberName (manifestName gen) (lit "MANIFEST-") [] = Some gen.
Proof. intros H. unfold manifestName. rewrite <- (app_nil_r (decimal 20 gen)). by apply parseNumberName_ok. Qed.

Lemma manifestName_is gen : is_u64 gen -> is_manifest (manifestName gen).
Proof. intros H. by eexists; apply manifestName_parse. Qed.

Lemma manifestName_inj a b : is_u64 a -> is_u64 b -> manifestName a = manifestName b -> a = b.
Proof. intros Ha Hb E. apply (f_equal (fun n => parseNumberName n (lit "MANIFEST-") [])) in E. rewrite !manifestName_parse in E by done. by injection E. Qed.

Lemma temp_not_manifest n : ~ is_manifest (temp_of n).
Proof. intros [r E]%is_manifest_head. discriminate E. Qed.

Lemma current_not_manifest : ~ is_manifest currentName.
Proof. intros [r E]%is_manifest_head. discriminate E. Qed.

Lemma temp_not_current n : temp_of n <> currentName.
Proof. discriminate. Qed.

(** ** What a root directory names *)

Section root.
Context (opts : Options) (Hfiles : MaxSSTFiles opts <= max_uint32) (Hbytes : MaxSSTBytes opts <= max_int64).

Definition current_bytes (gen : Z) : bytes :=
  let name := manifestName gen in current_head name ++ be 4 (GoStd.crc32.Checksum (current_head name)).
Definition current_file (gen : Z) : hfile := mkF (current_bytes gen) true.

Lemma encodeCurrent_name gen : encodeCurrent (manifestName gen) = Ok (current_bytes gen).
Proof.
  unfold encodeCurrent. rewrite validManifestName_ok. rewrite fail_if_false; [done|].
  unfold manifestName. rewrite len_app. unfold len at 2. by rewrite length_decimal.
Qed.

(** The manifest encodes, and its file is [data]. *)
Definition encodes (m : manifest) (data : bytes) : Prop := manifest_ok opts m /\ encodeManifest m = Ok data.

(** The root while nothing is being published. *)
Inductive steady (h : hdir) (m : manifest) : Prop :=
| steady_fresh : m = fresh_manifest -> (forall o, may_be h currentName o -> o = None) ->
    (forall n o, is_manifest n -> may_be h n o -> o = None) -> steady h m
| steady_published data : encodes m data -> (forall o, may_be h currentName o -> o = Some (current_file (generation m))) ->
    (forall o, may_be h (manifestName (generation m)) o -> o = Some (mkF data true)) -> steady h m.

(** What opening finds. *)
Inductive names_manifest (r : gmap bytes hfile) (m : manifest) : Prop :=
| nm_fresh : m = fresh_manifest -> r !! currentName = None -> (forall n, is_manifest n -> r !! n = None) -> names_manifest r m
| nm_current data : encodes m data -> r !! currentName = Some (current_file (generation m)) ->
    r !! manifestName (generation m) = Some (mkF data true) -> names_manifest r m
| nm_highest data : encodes m data -> r !! currentName = None -> r !! manifestName (generation m) = Some (mkF data true) ->
    (forall n, is_manifest n -> is_Some (r !! n) -> n = manifestName (generation m)) -> names_manifest r m.

Lemma steady_crash h h' m : steady h m -> hcrash h h' -> names_manifest (now h') m.
Proof.
  intros [E Hc Hm|data He Hc Hm] Hcr.
  - apply nm_fresh; [done|by apply (crash_absent h)|]. intros n Hn. apply (crash_absent h); [done|]. intros o. by apply Hm.
  - apply (nm_current _ _ data); [done|by apply (crash_certain h)|by apply (crash_certain h)].
Qed.

Lemma steady_crash_steady h h' m : steady h m -> hcrash h h' -> steady h' m.
Proof.
  intros [E Hc Hm|data He Hc Hm] Hcr.
  - apply steady_fresh; [done| |].
    + intros o ->%(crash_may_be h); [|done]. by apply (crash_absent h).
    + intros n o Hn ->%(crash_may_be h); [|done]. apply (crash_absent h); [done|]. intros o. by apply Hm.
  - apply (steady_published _ _ data); [done| |].
    + intros o ->%(crash_may_be h); [|done]. by apply (crash_certain h).
    + intros o ->%(crash_may_be h); [|done]. by apply (crash_certain h).
Qed.

(** While [new] replaces [old]. *)
Definition turning (h : hdir) (old new : manifest) : Prop :=
  forall h', hcrash h h' -> names_manifest (now h') old \/ names_manifest (now h') new.

Lemma steady_turning h old new : steady h old -> turning h old new.
Proof. intros H h' Hc. left. by apply (steady_crash h). Qed.

Lemma steady_turned h old new : steady h new -> turning h old new.
Proof. intros H h' Hc. right. by apply (steady_crash h). Qed.

(** The manifest file is written, CURRENT not yet. *)
Definition announced (h : hdir) (old new : manifest) (data : bytes) : Prop :=
  (forall o, may_be h (manifestName (generation new)) o -> o = Some (mkF data true)) /\
  ((old = fresh_manifest /\ (forall o, may_be h currentName o -> o = None) /\
    (forall n o, is_manifest n -> n <> manifestName (generation new) -> may_be h n o -> o = None))
   \/ exists old_data, encodes old old_data /\ (forall o, may_be h currentName o -> o = Some (current_file (generation old))) /\
      (forall o, may_be h (manifestName (generation old)) o -> o = Some (mkF old_data true))).

Lemma announced_crash h old new data h' : encodes new data -> announced h old new data -> hcrash h h' ->
  names_manifest (now h') old \/ names_manifest (now h') new.
Proof.
  intros He [Hn [(-> & Hc & Hm)|(od & Ho & Hc & Hm)]] Hcr.
  - right. apply (nm_highest _ _ data); [done|by apply (crash_absent h)|by apply (crash_certain h)|].
    intros n Hn1 [f Hf]. destruct (decide (n = manifestName (generation new))) as [|Hne]; [done|].
    rewrite (crash_absent h) in Hf; [done|done|]. intros o. by apply Hm.
  - left. apply (nm_current _ _ od); [done|by apply (crash_certain h)|by apply (crash_certain h)].
Qed.

(** *** Publishing *)

Section publish.
Context (t : tree) (old new : manifest) (data : bytes).
Context (Hold : steady (t_root t) old) (Hnew : encodes new data) (Hgen : generation old < generation new).

Lemma old_generation : old = fresh_manifest \/ is_u64 (generation old).
Proof. destruct Hold as [?|? [[] _]]; [by left|by right]. Qed.

Lemma names_differ : is_u64 (generation old) -> manifestName (generation old) <> manifestName (generation new).
Proof. intros Ho E%manifestName_inj; [lia|done|]. by destruct Hnew as [[] _]. Qed.

Lemma new_is_manifest : is_manifest (manifestName (generation new)).
Proof. apply manifestName_is. by destruct Hnew as [[] _]. Qed.

(** While the manifest file is written. *)
Lemma file_written h : spread (temp_of (manifestName (generation new))) (manifestName (generation new)) (mkF data true) (t_root t) h ->
  turning h old new.
Proof.
  intros Hs h' Hc. pose proof new_is_manifest as Hnm.
  assert (forall o, may_be h currentName o -> may_be (t_root t) currentName o) as Hcur.
  { intros o [E|[?|[E _]]]%Hs; [by destruct (temp_not_current _ (eq_sym E))|done|]. destruct current_not_manifest. by rewrite E. }
  destruct Hold as [-> Hoc Hom|od Hoe Hoc Hom].
  - assert (forall n o, is_manifest n -> n <> manifestName (generation new) -> may_be h n o -> o = None) as Hother.
    { intros n o Hn Hne [->|[Ho|[? _]]]%Hs; [by apply temp_not_manifest in Hn|by apply (Hom n)|done]. }
    destruct (crash_either h h' (manifestName (generation new)) (fun o => o = None \/ o = Some (mkF data true))) as [E|E]; [done| | | |].
    + intros o [E|[Ho|[_ ->]]]%Hs; [by rewrite E in Hnm; apply temp_not_manifest in Hnm|left; by apply (Hom _ o Hnm)|by right].
    + intros f [?|[= ->]]; done.
    + left. apply nm_fresh; [done|apply (crash_absent h); [done|]; intros o Ho%Hcur; by apply Hoc|].
      intros n Hn. destruct (decide (n = manifestName (generation new))) as [->|Hne]; [done|]. apply (crash_absent h); [done|]. intros o. by apply Hother.
    + right. apply (nm_highest _ _ data); [done|apply (crash_absent h); [done|]; intros o Ho%Hcur; by apply Hoc|done|].
      intros n Hn [f Hf]. destruct (decide (n = manifestName (generation new))) as [|Hne]; [done|].
      rewrite (crash_absent h) in Hf; [done|done|]. intros o. by apply Hother.
  - left. pose proof names_differ as Hd. apply (nm_current _ _ od); [done|apply (crash_certain h); [done..|]; intros o Ho%Hcur; by apply Hoc|].
    destruct Hoe as [[Hg _ _ _] _]. apply (crash_certain h); [done|done|]. intros o [E|[Ho|[E _]]]%Hs; [|by apply Hom|by destruct (Hd Hg)].
    destruct (temp_not_manifest (manifestName (generation new))). rewrite <- E. by apply manifestName_is.
Qed.

(** The manifest file is there. *)
Lemma file_published : announced (t_root (published Root (temp_of (manifestName (generation new))) (manifestName (generation new)) data t)) old new data.
Proof.
  unfold published. cbn [set_dir t_root]. set (name := manifestName (generation new)). pose proof new_is_manifest as Hnm. fold name in Hnm.
  assert (forall n o, may_be (mkH (<[name := mkF data true]> (delete (temp_of name) (now (t_root t)))) []) n o ->
            n <> name -> n <> temp_of name -> may_be (t_root t) n o) as Hs.
  { intros n o (m & ->%list_elem_of_singleton & <-) H1 H2. cbn [now]. rewrite lookup_insert_ne, lookup_delete_ne by done. apply may_be_now. }
  assert (currentName <> name) as Hcn by (intros E; destruct current_not_manifest; by rewrite E).
  split.
  - intros o (m & ->%list_elem_of_singleton & <-). cbn [now]. by rewrite lookup_insert_eq.
  - pose proof names_differ as Hd. destruct Hold as [-> Hoc Hom|od Hoe Hoc Hom]; [left|right].
    + split; [done|]. split; [intros o Ho%Hs; [by apply Hoc|done|by apply not_eq_sym, temp_not_current]|].
      intros n o Hn Hne Ho%Hs; [by apply (Hom n)|done|]. intros ->. by apply temp_not_manifest in Hn.
    + exists od. split; [done|]. split; [intros o Ho%Hs; [by apply Hoc|done|by apply not_eq_sym, temp_not_current]|].
      destruct Hoe as [[Hg _ _ _] _]. intros o Ho%Hs; [by apply Hom|by apply Hd|]. intros E.
      destruct (temp_not_manifest name). rewrite <- E. by apply manifestName_is.
Qed.

(** While CURRENT is written. *)
Lemma current_spread h1 h n o : spread (temp_of currentName) currentName (current_file (generation new)) h1 h -> is_manifest n ->
  may_be h n o -> may_be h1 n o.
Proof.
  intros Hs Hm [E|[?|[E _]]]%Hs; [|done|]; [destruct (temp_not_manifest currentName)|destruct current_not_manifest]; by rewrite <- E.
Qed.

Lemma current_value h1 h h' v : spread (temp_of currentName) currentName (current_file (generation new)) h1 h -> hcrash h h' ->
  (forall o, may_be h1 currentName o -> o = v) -> match v with Some f => f_synced f = true | None => True end ->
  now h' !! currentName = v \/ now h' !! currentName = Some (current_file (generation new)).
Proof.
  intros Hs Hc Hv Hsv. apply (crash_either h h' currentName (fun o => o = v \/ o = Some (current_file (generation new)))); [done| |].
  - intros o [E|[Ho|[_ ->]]]%Hs; [discriminate E|left; by apply Hv|by right].
  - intros f [<-|[= ->]]; done.
Qed.

(** No CURRENT was there: the manifest is the only one. *)
Lemma current_over_none h1 h h' : spread (temp_of currentName) currentName (current_file (generation new)) h1 h -> hcrash h h' ->
  (forall o, may_be h1 (manifestName (generation new)) o -> o = Some (mkF data true)) -> (forall o, may_be h1 currentName o -> o = None) ->
  (forall n o, is_manifest n -> n <> manifestName (generation new) -> may_be h1 n o -> o = None) -> names_manifest (now h') new.
Proof.
  intros Hs Hc Hn Hc0 Hm0. pose proof new_is_manifest as Hnm.
  assert (now h' !! manifestName (generation new) = Some (mkF data true)) as Hfile.
  { apply (crash_certain h); [done..|]. intros o Ho%(current_spread h1 h); [by apply Hn|done|done]. }
  destruct (current_value h1 h h' None Hs Hc Hc0 I) as [E|E]; [|by apply (nm_current _ _ data)].
  apply (nm_highest _ _ data); [done|done|done|]. intros n Hm [f Hf]. destruct (decide (n = manifestName (generation new))) as [|Hne]; [done|].
  rewrite (crash_absent h) in Hf; [done|done|]. intros o Ho%(current_spread h1 h); [by apply (Hm0 n)|done|done].
Qed.

Lemma current_written h1 h : announced h1 old new data ->
  spread (temp_of currentName) currentName (current_file (generation new)) h1 h -> turning h old new.
Proof.
  intros [Hn Hcase] Hs h' Hc. pose proof new_is_manifest as Hnm. destruct Hcase as [(-> & Hc0 & Hm0)|(od & Ho & Hc0 & Hm0)].
  - right. by apply (current_over_none h1 h).
  - destruct (current_value h1 h h' (Some (current_file (generation old))) Hs Hc Hc0 eq_refl) as [E|E]; [left|right].
    + apply (nm_current _ _ od); [done|done|]. apply (crash_certain h); [done..|]. intros o Hmo%(current_spread h1 h); [by apply Hm0|done|].
      apply manifestName_is. by destruct Ho as [[] _].
    + apply (nm_current _ _ data); [done|done|]. apply (crash_certain h); [done..|]. intros o Hmo%(current_spread h1 h); [by apply Hn|done|done].
Qed.

Lemma current_published h1 : announced h1 old new data ->
  steady (mkH (<[currentName := current_file (generation new)]> (delete (temp_of currentName) (now h1))) []) new.
Proof.
  intros [Hn _]. pose proof new_is_manifest as Hnm. apply (steady_published _ _ data); [done| |].
  - intros o (m & ->%list_elem_of_singleton & <-). cbn [now]. by rewrite lookup_insert_eq.
  - intros o (m & ->%list_elem_of_singleton & <-). cbn [now]. rewrite lookup_insert_ne, lookup_delete_ne.
    + apply Hn, may_be_now.
    + intros E. destruct (temp_not_manifest currentName). by rewrite E.
    + intros E. destruct current_not_manifest. by rewrite E.
Qed.

Lemma ewp_publishManifest b :
  ewp b (publishManifest new) (fun _ t' => exists h, t' = set_dir Root h t /\ steady h new)
    (fun t' => b = true /\ exists h, t' = set_dir Root h t /\ turning h old new) t.
Proof.
  unfold publishManifest. destruct Hnew as [_ Hdata]. rewrite Hdata. apply ewp_bind, ewp_lift. set (name := manifestName (generation new)).
  apply ewp_bind. eapply ewp_mono; [apply ewp_write_atomic| |].
  2:{ intros t' [-> (h & -> & Hs)]. split; [done|]. exists h. split; [done|]. by apply file_written. }
  intros [] t1 ->. pose proof file_published as Ha. fold name in Ha. unfold name at 1. rewrite encodeCurrent_name. apply ewp_bind, ewp_lift.
  eapply ewp_mono; [apply ewp_write_atomic| |].
  - intros [] t2 ->. eexists. split; [|by apply current_published]. done.
  - intros t' [-> (h & -> & Hs)]. split; [done|]. exists h. split; [done|]. by apply (current_written _ h Ha).
Qed.
End publish.
End root.
