(* ===== verification/OpenManifest.v ===== *)
(** Opening the manifest a root directory names: what is read back, and that
    cleaning up removes nothing the manifest uses. *)

From Stdlib Require Import ZArith Lia.
From stdpp Require Import base list gmap.
From S2P Require Import Prelude EngineOps Fs Sst View Manifest Tree Publish PublishSafe.

Local Open Scope Z_scope.

(** ** Removing names *)

(** [h] is [h0] but that names satisfying [P] may be gone. *)
Definition shrunk (P : bytes -> Prop) (h0 h : hdir) : Prop := forall n o, may_be h n o -> may_be h0 n o \/ P n /\ o = None.

Lemma shrunk_refl P h : shrunk P h h.
Proof. by left. Qed.

Lemma shrunk_delete (P : bytes -> Prop) h0 h name : P name -> shrunk P h0 h -> shrunk P h0 (change (delete name) h).
Proof.
  intros HP Hs n o [->|Ho]%may_be_change; [|by apply Hs]. destruct (decide (name = n)) as [<-|Hne]; [right; by rewrite lookup_delete_eq|].
  rewrite lookup_delete_ne by done. apply Hs, may_be_now.
Qed.

Lemma shrunk_settle P h0 h : shrunk P h0 h -> shrunk P h0 (settle h).
Proof. intros Hs n o ->%may_be_settle. apply Hs, may_be_now. Qed.

Lemma shrunk_kept P h0 h n o : shrunk P h0 h -> ~ P n -> may_be h n o -> may_be h0 n o.
Proof. intros Hs Hn [?|[? _]]%Hs; done. Qed.

Section shrinking.
Context (p : place) (P : bytes -> Prop) (t : tree).
Let h0 := dir_at p t.

Definition shrinking (t' : tree) : Prop := exists h, t' = set_dir p h t /\ shrunk P h0 h.

Lemma shrinking_start : shrinking t.
Proof. exists h0. split; [symmetry; apply set_dir_at|apply shrunk_refl]. Qed.

Lemma ewp_remove b name t' : P name -> shrinking t' -> ewp b (e_Remove p name) (fun _ => shrinking) (fun t1 => b = true /\ shrinking t1) t'.
Proof.
  intros HP (h & -> & Hs). apply ewp_bind, ewp_call; [intros ->; split; [done|by exists h]|]. apply ewp_update. rewrite dir_at_set, set_dir_set.
  eexists. split; [done|]. by apply shrunk_delete.
Qed.

Lemma ewp_remove_all b why names t' : Forall P names -> shrinking t' ->
  ewp b (remove_all p why names) (fun _ => shrinking) (fun t1 => b = true /\ shrinking t1) t'.
Proof.
  intros Hall. revert t'. induction Hall as [|name names HP Hall IH]; intros t' Hs; cbn [remove_all]; [by apply ewp_ret|].
  apply ewp_bind, ewp_wrap. eapply ewp_mono; [by apply (ewp_remove b name)| |done]. intros [] t1 H1. by apply IH.
Qed.

Lemma ewp_settle b t' : shrinking t' -> ewp b (e_syncDirectory p) (fun _ t1 => exists h, t1 = set_dir p (settle h) t /\ shrunk P h0 h) (fun t1 => b = true /\ shrinking t1) t'.
Proof.
  intros (h & -> & Hs). apply ewp_syncDirectory; [by exists h|]. intros ->. split; (split; [done|]); eexists; (split; [done|]); [done|by apply shrunk_settle].
Qed.
End shrinking.

(** ** Table files *)

Section tables.
Context (opts : Options).

(** The name holds the table of the entries [l], whatever a crash does. *)
Definition file_held (h : hdir) (f : sstFile) (l : list sstEntry) : Prop :=
  exists level id maxLSN bs, layout_ok opts level id maxLSN bs /\
    (forall o, may_be h (sst_name f) o -> o = Some (mkF (layout level id maxLSN bs) true)) /\ f = layout_meta level id maxLSN bs /\ l = concat bs.

Definition proper_names (h : hdir) : Prop := forall n f, may_be h n (Some f) -> validSSTName n = true \/ is_temp n = true.

Lemma file_held_ok h f l : file_held h f l -> file_ok opts (table_dir h) f l.
Proof.
  intros (level & id & maxLSN & bs & Hok & Hm & Hf & Hl). exists level, id, maxLSN, bs. split; [done|]. split; [|done].
  unfold table_dir. rewrite lookup_fmap. by rewrite (Hm _ (may_be_now h _)).
Qed.

Lemma file_held_mono h h' f l : (forall o, may_be h' (sst_name f) o -> may_be h (sst_name f) o) -> file_held h f l -> file_held h' f l.
Proof.
  intros Hi (level & id & maxLSN & bs & Hok & Hm & Hf & Hl). exists level, id, maxLSN, bs. split; [done|]. split; [|done]. intros o Ho. by apply Hm, Hi.
Qed.

Lemma file_held_crash h h' f l : hcrash h h' -> file_held h f l -> file_held h' f l.
Proof.
  intros Hc (level & id & maxLSN & bs & Hok & Hm & Hf & Hl). exists level, id, maxLSN, bs. split; [done|]. split; [|done].
  intros o ->%(crash_may_be h); [|done]. by apply (crash_certain h).
Qed.

Lemma proper_names_crash h h' : hcrash h h' -> proper_names h -> proper_names h'.
Proof.
  intros Hc Hp n f Hf. apply (crash_may_be h) in Hf; [|done]. destruct Hc as [_ Hc]. destruct (Hc n) as ([f0|] & Hm & Hs).
  - by apply (Hp n f0).
  - by rewrite <- Hf in Hs.
Qed.

Lemma proper_names_shrunk P h0 h : shrunk P h0 h -> proper_names h0 -> proper_names h.
Proof. intros Hs Hp n f [Hm|[_ ?]]%Hs; [by apply (Hp n f)|done]. Qed.

Lemma file_held_shrunk P h0 h f l : shrunk P h0 h -> ~ P (sst_name f) -> file_held h0 f l -> file_held h f l.
Proof. intros Hs Hn. apply file_held_mono. intros o. by apply (shrunk_kept P). Qed.

Lemma ewp_validate (Hopts : opts_ok opts) b files ls t : Forall2 (file_held (t_tables t)) files ls ->
  ewp b (validateSSTFiles files opts) (fun _ t' => t' = t) (fun t' => b = true /\ t' = t) t.
Proof.
  induction 1 as [|f l files ls Hf _ IH]; cbn [validateSSTFiles]; [by apply ewp_ret|].
  apply ewp_bind, ewp_wrap, ewp_call; [done|]. apply ewp_bind, ewp_get. destruct (file_held_ok _ _ _ Hf) as (level & id & maxLSN & bs & Hok & Hd & -> & _).
  apply ewp_bind, ewp_lift. cbn [dir_at]. rewrite Hd, open_layout by done. by apply ewp_bind, ewp_wrap, ewp_call.
Qed.

Lemma ewp_cleanup_tables b keep t names : forall t', (forall n, n ∈ names -> validSSTName n = true \/ is_temp n = true) ->
  Forall (fun n => is_temp n = false) (elements keep) -> shrinking Tables (fun n => n ∉ keep) t t' ->
  ewp b (cleanup_tables keep names) (fun _ => shrinking Tables (fun n => n ∉ keep) t) (fun t1 => b = true /\ shrinking Tables (fun n => n ∉ keep) t t1) t'.
Proof.
  induction names as [|name names IH]; intros t' Hn Hk Hs; cbn [cleanup_tables]; [by apply ewp_ret|].
  assert (forall t1, shrinking Tables (fun n => n ∉ keep) t t1 -> ewp b (cleanup_tables keep names) (fun _ => shrinking Tables (fun n => n ∉ keep) t)
     (fun t1 => b = true /\ shrinking Tables (fun n => n ∉ keep) t t1) t1) as Hrest by (intros t1 H1; apply IH; [intros n ?; apply Hn; by right|done|done]).
  destruct (is_temp name || (validSSTName name && negb (bool_decide (name ∈ keep)))) eqn:E.
  - assert (name ∉ keep) as Hnk.
    { apply orb_true_iff in E as [E|[_ E]%andb_true_iff]; [|by apply negb_true_iff, bool_decide_eq_false in E].
      intros Hin. rewrite Forall_forall in Hk. rewrite (Hk name) in E; [done|by apply elem_of_elements]. }
    apply ewp_bind, ewp_wrap. eapply ewp_mono; [by apply (ewp_remove Tables (fun n => n ∉ keep) t)| |done]. intros [] t1 H1. by apply Hrest.
  - apply orb_false_iff in E as [E1 _]. apply ewp_bind, ewp_fail_if; [|intros _; by apply Hrest].
    intros E%negb_true_iff. destruct (Hn name); [by left|congruence|congruence].
Qed.

Lemma sst_not_temp id : is_temp (sstBaseName id) = false.
Proof.
  unfold is_temp, cut_suffix. apply bool_decide_eq_false_2. unfold sstBaseName.
  replace (length (lit "sst-" ++ decimal 20 id ++ lit ".sst") - length (lit ".tmp"))%nat with (length (lit "sst-" ++ decimal 20 id)).
  2:{ rewrite !length_app. cbn [length]. change (length (lit ".tmp")) with 4%nat. change (length (lit ".sst")) with 4%nat. lia. }
  rewrite app_assoc, drop_app_length. change (beq (lit ".sst") (lit ".tmp")) with false. intros [? ?]. done.
Qed.

Lemma file_held_not_temp h f l : file_held h f l -> is_temp (sst_name f) = false.
Proof. intros (level & id & maxLSN & bs & _ & _ & -> & _). apply sst_not_temp. Qed.

Lemma ewp_cleanupSST b files ls t : Forall2 (file_held (t_tables t)) files ls -> proper_names (t_tables t) ->
  ewp b (cleanupSSTDirectory files)
    (fun _ t' => exists h, t' = set_dir Tables (settle h) t /\ shrunk (fun n => n ∉ file_names files) (t_tables t) h)
    (fun t' => b = true /\ shrinking Tables (fun n => n ∉ file_names files) t t') t.
Proof.
  intros Hf Hp. pose proof (shrinking_start Tables (fun n => n ∉ file_names files) t) as Hs. unfold cleanupSSTDirectory.
  apply ewp_bind, ewp_wrap, ewp_bind, ewp_call; [done|]. apply ewp_bind, ewp_get, ewp_ret. cbn [dir_at].
  apply ewp_bind. eapply ewp_mono; [apply (ewp_cleanup_tables b (file_names files) t)| |done]; [| |done|].
  - intros n Hn. rewrite (sort_by_perm _ _), elem_of_elements, elem_of_dom in Hn. destruct Hn as [f Hn]. apply (Hp n f). rewrite <- Hn. apply may_be_now.
  - apply Forall_forall. intros n Hn. rewrite elem_of_elements in Hn. unfold file_names in Hn. rewrite elem_of_list_to_set in Hn.
    apply list_elem_of_fmap in Hn as (f & -> & (i & Hi)%list_elem_of_lookup).
    destruct (Forall2_lookup_l _ _ _ _ _ Hf Hi) as (l & _ & Hl). by apply file_held_not_temp in Hl.
  - intros [] t1 H1. by apply ewp_settle.
Qed.
End tables.

(** ** Manifests *)

Definition other_manifest (current n : bytes) : Prop := validManifestName n = true /\ n <> current.

Lemma ewp_cleanupManifests b current t :
  ewp b (cleanupManifests current) (fun _ t' => exists h, t' = set_dir Root (settle h) t /\ shrunk (other_manifest current) (t_root t) h)
    (fun t' => b = true /\ shrinking Root (other_manifest current) t t') t.
Proof.
  pose proof (shrinking_start Root (other_manifest current) t) as Hs. unfold cleanupManifests.
  apply ewp_bind, ewp_wrap, ewp_bind, ewp_call; [done|]. apply ewp_bind, ewp_get, ewp_ret.
  apply ewp_bind. eapply ewp_mono; [apply (ewp_remove_all Root (other_manifest current) t)| |done]; [|done|].
  - apply Forall_forall. intros n Hn. rewrite list_elem_of_In, List.filter_In in Hn. destruct Hn as [_ [Hv Hne]%andb_true_iff].
    split; [done|]. apply negb_true_iff in Hne. by apply beq_false.
  - intros [] t1 H1. by apply ewp_settle.
Qed.

(** The manifest as it is read back: the next number is recomputed. *)
Definition reopened (m : manifest) : manifest :=
  mkManifest (generation m) (flushedLSN m) (mf_files m) (maxIDOrOne (next_id (mf_files m) 0)).

Section opening.
Context (opts : Options) (Hopts : opts_ok opts) (Hfiles : MaxSSTFiles opts <= max_uint32) (Hbytes : MaxSSTBytes opts <= max_int64).

Lemma encodes_reopened m data : encodes opts m data -> encodes opts (reopened m) data.
Proof. intros [[H1 H2 H3 H4] He]. split; [by split|]. by destruct m. Qed.

Lemma encoded_size m data : encodeManifest m = Ok data -> len data <= manifestMaxBytes.
Proof. intros (_ & Hb & _ & ->)%encodeManifest_Ok. rewrite len_app. change (len (manifest_header _ _ _ _)) with 44. unfold manifestHeaderLen in Hb. lia. Qed.

Lemma ewp_read_manifest b m data t : encodes opts m data -> now (t_root t) !! manifestName (generation m) = Some (mkF data true) ->
  ewp b (read_manifest (manifestName (generation m)) opts) (fun m' t' => m' = reopened m /\ t' = t) (fun t' => b = true /\ t' = t) t.
Proof.
  intros [Hok He] Hf. unfold read_manifest. rewrite validManifestName_ok. apply ewp_bind, ewp_fail_if; [done|intros _].
  apply ewp_bind, ewp_wrap, ewp_bind, ewp_bind, ewp_call; [done|]. apply ewp_bind, ewp_get, ewp_ret. cbn [dir_at]. rewrite Hf.
  apply ewp_defer_close, ewp_bind, ewp_call; [done|]. cbn [f_data].
  apply ewp_bind, ewp_fail_if; [intros E%Z.ltb_lt; apply encoded_size in He; lia|intros _]. apply ewp_bind, ewp_call; [done|]. apply ewp_ret, ewp_lift.
  by rewrite (readManifest_image opts m data).
Qed.

Lemma current_size gen : len (current_bytes gen) = 41.
Proof. unfold current_bytes, current_head, manifestName. rewrite !len_app, !len_be. unfold len. by rewrite !length_decimal. Qed.

Lemma valid_not_current : validManifestName currentName = false.
Proof. done. Qed.

(** Removing the manifests that CURRENT does not name. *)
Lemma steady_shrunk h0 h m data : encodes opts m data -> shrunk (other_manifest (manifestName (generation m))) h0 h ->
  (forall o, may_be h0 currentName o -> o = Some (current_file (generation m))) ->
  (forall o, may_be h0 (manifestName (generation m)) o -> o = Some (mkF data true)) -> steady opts h m.
Proof.
  intros He Hs Hc Hm. apply (steady_published _ _ _ data); [done| |].
  - intros o Ho. apply Hc. apply (shrunk_kept _ h0 h _ _ Hs); [|done]. intros [Hv _]. by rewrite valid_not_current in Hv.
  - intros o Ho. apply Hm. apply (shrunk_kept _ h0 h _ _ Hs); [|done]. by intros [_ ?].
Qed.

(** The tree an opening leaves: the root names [m], the tables are as before
    but for names no manifest uses. *)
Definition opening (t : tree) (files : list sstFile) (P : hdir -> Prop) (t' : tree) : Prop :=
  exists hr ht, t' = mkTree hr ht (t_wal t) /\ P hr /\ shrunk (fun n => n ∉ file_names files) (t_tables t) ht.

(** The last steps of [openManifest], from a root that names [m] for good. *)
Lemma ewp_finish_open b t0 m data ls t : encodes opts m data -> t_tables t = t_tables t0 -> t_wal t = t_wal t0 ->
  (forall o, may_be (t_root t) currentName o -> o = Some (current_file (generation m))) ->
  (forall o, may_be (t_root t) (manifestName (generation m)) o -> o = Some (mkF data true)) ->
  Forall2 (file_held opts (t_tables t)) (mf_files m) ls -> proper_names (t_tables t) ->
  ewp b (cleanupSSTDirectory (mf_files m);; cleanupManifests (manifestName (generation m));; mret (reopened m))
    (fun m' t' => m' = reopened m /\ opening t0 (mf_files m) (fun h => steady opts h m') t')
    (fun t' => b = true /\ opening t0 (mf_files m) (fun h => turning opts h m m) t') t.
Proof.
  intros He Ht Hw Hc Hm Hf Hp. pose proof (encodes_reopened _ _ He) as He'.
  assert (forall h, shrunk (other_manifest (manifestName (generation m))) (t_root t) h -> turning opts h m m) as Hturn.
  { intros h Hs. apply steady_turned. by apply (steady_shrunk (t_root t) h m data). }
  apply ewp_bind. eapply ewp_mono; [by apply (ewp_cleanupSST opts b (mf_files m) ls)| |].
  2:{ intros t' [-> (h & -> & Hs)]. split; [done|]. exists (t_root t), h. cbn [set_dir]. rewrite Hw. split; [done|]. split; [apply Hturn, shrunk_refl|by rewrite <- Ht]. }
  intros [] t1 (ht & -> & Hst). cbn [set_dir]. apply shrunk_settle in Hst. rewrite Ht in Hst.
  apply ewp_bind. eapply ewp_mono; [apply ewp_cleanupManifests| |].
  - intros [] t2 (hr & -> & Hsr). apply ewp_ret. split; [done|]. cbn [set_dir t_root t_tables t_wal] in *. exists (settle hr), (settle ht). rewrite Hw.
    split; [done|]. split; [|done]. apply shrunk_settle in Hsr.
    by apply (steady_shrunk (t_root t) (settle hr) (reopened m) data).
  - intros t' [-> (h & -> & Hsr)]. split; [done|]. cbn [set_dir t_root t_tables t_wal] in *. exists h, (settle ht). rewrite Hw.
    split; [done|]. split; [by apply Hturn|done].
Qed.

(** CURRENT and the manifests are as they are, whatever a crash does. *)
Definition calm (h : hdir) : Prop := forall n o, n = currentName \/ is_manifest n -> may_be h n o -> o = now h !! n.

Lemma calm_current h o : calm h -> may_be h currentName o -> o = now h !! currentName.
Proof. intros Hc. apply Hc. by left. Qed.

Lemma calm_manifest h n o : calm h -> is_manifest n -> may_be h n o -> o = now h !! n.
Proof. intros Hc Hn. apply Hc. by right. Qed.

Lemma settled_calm h : past h = [] -> calm h.
Proof. intros Hp n o _ (r & Hr & <-). rewrite Hp in Hr. by apply list_elem_of_singleton in Hr as ->. Qed.

Section open_manifest.
Context (b : bool) (t : tree) (m : manifest) (ls : list (list sstEntry)) (Hsettled : calm (t_root t)).
Context (Hnames : names_manifest opts (now (t_root t)) m).
Context (Htables : Forall2 (file_held opts (t_tables t)) (mf_files m) ls) (Hproper : proper_names (t_tables t)).

Lemma names_turning : turning opts (t_root t) m m.
Proof.
  intros h' Hc. left.
  assert (forall n f, n = currentName \/ is_manifest n -> now (t_root t) !! n = Some (mkF f true) -> now h' !! n = Some (mkF f true)) as Hs.
  { intros n f Hi Hf. apply (crash_certain (t_root t)); [done|done|]. intros o ->%Hsettled; done. }
  assert (forall n, n = currentName \/ is_manifest n -> now (t_root t) !! n = None -> now h' !! n = None) as Hn.
  { intros n Hi Hf. apply (crash_absent (t_root t)); [done|]. intros o ->%Hsettled; done. }
  assert (forall data, encodes opts m data -> is_manifest (manifestName (generation m))) as Hi by (intros data [[] _]; by apply manifestName_is).
  destruct Hnames as [E Hc0 Hm0|data He Hc0 Hm0|data He Hc0 Hm0 Ho].
  - apply nm_fresh; [done|apply Hn; [by left|done]|]. intros n Hm. apply Hn; [by right|by apply Hm0].
  - apply (nm_current _ _ _ data); [done|apply Hs; [by left|done]|apply Hs; [right; by apply (Hi data)|done]].
  - apply (nm_highest _ _ _ data); [done|apply Hn; [by left|done]|apply Hs; [right; by apply (Hi data)|done]|]. intros n Hm [f Hf]. apply Ho; [done|].
    destruct (now (t_root t) !! n) eqn:E; [done|]. by rewrite Hn in Hf by auto.
Qed.

Lemma opening_unchanged P : P (t_root t) -> opening t (mf_files m) P t.
Proof. intros HP. exists (t_root t), (t_tables t). split; [by destruct t|]. split; [done|apply shrunk_refl]. Qed.

Lemma highest_is data : encodes opts m data -> now (t_root t) !! manifestName (generation m) = Some (mkF data true) ->
  (forall n, is_manifest n -> is_Some (now (t_root t) !! n) -> n = manifestName (generation m)) ->
  highestManifest (sort_by (fun n => n) (elements (dom (now (t_root t))))) = Some (manifestName (generation m)).
Proof.
  intros [[Hg _ _ _] _] Hf Ho. set (names := sort_by _ _).
  assert (forall n, n ∈ names <-> is_Some (now (t_root t) !! n)) as Hin.
  { intros n. unfold names. by rewrite (sort_by_perm _ _), elem_of_elements, elem_of_dom. }
  pose proof (highestManifest_max names) as H. destruct (highestManifest names) as [best|].
  - destruct H as (id & Hb & Hp & _). f_equal. apply Ho; [by exists id|by apply Hin].
  - specialize (H (manifestName (generation m))). rewrite manifestName_parse in H by done. discriminate H. apply Hin. by eexists.
Qed.

Lemma no_highest : (forall n, is_manifest n -> now (t_root t) !! n = None) ->
  highestManifest (sort_by (fun n => n) (elements (dom (now (t_root t))))) = None.
Proof.
  intros Hn. set (names := sort_by _ _). pose proof (highestManifest_max names) as H. destruct (highestManifest names) as [best|]; [|done].
  destruct H as (id & Hb & Hp & _). unfold names in Hb. rewrite (sort_by_perm _ _), elem_of_elements, elem_of_dom in Hb.
  rewrite Hn in Hb; [by destruct Hb|by exists id].
Qed.

Lemma ewp_openManifest :
  ewp b (openManifest opts) (fun m' t' => m' = reopened m /\ opening t (mf_files m) (fun h => steady opts h m') t')
    (fun t' => b = true /\ opening t (mf_files m) (fun h => turning opts h m m) t') t.
Proof.
  pose proof (opening_unchanged (fun h => turning opts h m m) names_turning) as HX. unfold openManifest.
  apply ewp_bind, ewp_ensureDirectory; [done|].
  apply ewp_bind, ewp_wrap. unfold readRootFile, e_open. apply ewp_bind, ewp_bind, ewp_call; [done|]. apply ewp_bind, ewp_get, ewp_ret. cbn [dir_at].
  pose proof Hnames as Hnm. destruct Hnm as [E Hc0 Hm0|data He Hc0 Hm0|data He Hc0 Hm0 Ho]; rewrite Hc0.
  - apply ewp_ret. unfold recover_current. apply ewp_bind, ewp_wrap, ewp_bind, ewp_call; [done|]. apply ewp_bind, ewp_get, ewp_ret. cbn [dir_at].
    rewrite no_highest by done. apply ewp_bind. eapply ewp_mono; [apply (ewp_cleanupSST opts b [] [] t); [constructor|done]| |].
    + intros [] t1 (h & -> & Hs). apply ewp_ret. split; [by rewrite E|]. rewrite E. exists (t_root t), (settle h). split; [done|]. split; [|by apply shrunk_settle].
      apply steady_fresh; [done|by intros o ->%calm_current|]. intros n o Hn ->%calm_manifest; [by apply Hm0|done|done].
    + intros t' [-> (h & -> & Hs)]. split; [done|]. exists (t_root t), h. split; [done|]. split; [apply names_turning|by rewrite E].
  - apply ewp_defer_close, ewp_bind, ewp_call; [done|]. cbn [f_data current_file].
    pose proof (encodeCurrent_name (generation m)) as Hcur. apply ewp_bind, ewp_fail_if; [|intros _].
    { intros E%Z.ltb_lt. rewrite current_size in E. lia. }
    apply ewp_bind, ewp_call; [done|]. apply ewp_ret. rewrite (decodeCurrent_encodeCurrent _ _ Hcur). apply ewp_bind, ewp_lift.
    apply ewp_bind. eapply ewp_mono; [by apply (ewp_read_manifest b m data)| |by intros t' [-> ->]]. intros m' t1 [-> ->].
    apply ewp_bind. eapply ewp_mono; [by apply (ewp_validate opts Hopts b (mf_files m) ls)| |by intros t' [-> ->]]. intros [] t1 ->.
    apply (ewp_finish_open b t m data ls); try done; [by intros o ->%calm_current|]. intros o ->%calm_manifest; [done|done|].
    apply manifestName_is. by destruct He as [[] _].
  - apply ewp_ret. unfold recover_current. apply ewp_bind, ewp_wrap, ewp_bind, ewp_call; [done|]. apply ewp_bind, ewp_get, ewp_ret. cbn [dir_at].
    rewrite (highest_is data) by done.
    apply ewp_bind. eapply ewp_mono; [by apply (ewp_read_manifest b m data)| |by intros t' [-> ->]]. intros m' t1 [-> ->].
    apply ewp_bind. eapply ewp_mono; [by apply (ewp_validate opts Hopts b (mf_files m) ls)| |by intros t' [-> ->]]. intros [] t1 ->.
    rewrite encodeCurrent_name. apply ewp_bind, ewp_lift. apply ewp_bind. eapply ewp_mono; [apply ewp_write_atomic| |].
    + intros [] t1 ->. apply (ewp_finish_open b t m data ls); try done.
      * intros o (r & ->%list_elem_of_singleton & <-). unfold published. cbn [set_dir t_root now]. by rewrite lookup_insert_eq.
      * intros o (r & ->%list_elem_of_singleton & <-). unfold published. cbn [set_dir t_root now]. destruct He as [[Hg _ _ _] _]. pose proof (manifestName_is _ Hg) as Hi.
        rewrite lookup_insert_ne, lookup_delete_ne; [done| |]; intros E; rewrite <- E in Hi; [by apply temp_not_manifest in Hi|by apply current_not_manifest in Hi].
    + intros t' [-> (h & -> & Hs)]. split; [done|]. exists h, (t_tables t). split; [done|]. split; [|apply shrunk_refl]. intros h' Hc. left.
      apply (current_over_none opts m data He (t_root t) h h'); [done|done| | |].
      * intros o ->%calm_manifest; [done|done|]. apply manifestName_is. by destruct He as [[] _].
      * by intros o ->%calm_current.
      * intros n o Hn Hne ->%calm_manifest; [|done|done]. destruct (now (t_root t) !! n) eqn:E; [|done]. destruct Hne. apply Ho; [done|]. by rewrite E.
Qed.
End open_manifest.
End opening.
