(* ===== verification/WalCheckpoint.v ===== *)
(** Rotating the log and reclaiming its segments against any file system
    behaviour: at every point a crash leaves a log of the same batches, or of
    the ones from a later segment on. *)

From Stdlib Require Import ZArith Lia.
From stdpp Require Import base list gmap.
From S2P Require Import Prelude EngineOps Fs Wal WalLog.

Local Open Scope Z_scope.

(** ** Rotation *)

Section rotate.
Context (opts : Options) (s l : Z).

Lemma wp_rotate segs w :
  log_ok opts s l segs -> opened s segs w -> s + len segs + 1 < max_uint64 ->
  wp (rotate w (l + len (batches segs) + 1))
    (fun w' f' => exists init, log_ok opts s l (init ++ [[]]) /\ batches init = batches segs /\ len init <= len segs /\
       opened s (init ++ [[]]) w' /\ wal_seg w' = s + len init /\ f' = log_files s l (init ++ [[]]))
    (crash_safe opts s l (fun x => x = batches segs)) (log_files s l segs).
Proof.
  intros Hlog (init & ls & Hsegs & ->) Hmax. pose proof Hlog as [Ho Hc [Hs1 Hs2] _ _ Hint]. specialize (Hint _ _ Hsegs). pose proof (len_nonneg init).
  assert (segs <> []) as Hne by (rewrite Hsegs; by destruct init).
  assert (len segs = len init + 1) as Hlen by (rewrite Hsegs, len_app, len_cons, len_nil; lia).
  pose proof (log_crash_safe opts s l segs (fun x => x = batches segs) Hlog Hne eq_refl) as HX.
  unfold rotate. cbn [wal_closed wal_file wal_size wal_seg]. destruct (decide (ls = [])) as [->|Hls].
  { apply wp_ret. exists init. rewrite <- Hsegs. split_and!; try done; [by rewrite Hsegs, batches_snoc, app_nil_r|lia|by exists init, []]. }
  rewrite segment_nonempty by done.
  assert (Forall (fun ls => ls <> []) segs) as Hall by (rewrite Hsegs, Forall_app; auto).
  assert (uint64 (s + len init + 1) = s + len segs) as -> by (unfold uint64, max_uint64 in *; rewrite Z.mod_small; lia).
  assert (log_files s l segs !! segmentName (s + len init) = Some (synced (segment_bytes (s + len init) (l + len (batches init) + 1) ls))) as Hf.
  { rewrite Hsegs, log_files_snoc by lia. apply lookup_insert_eq. }
  apply wp_bind. eapply wp_sync; [exact Hf|done|]. cbn [volatile linked regular synced]. rewrite insert_id by done.
  apply wp_bind, wp_call; [done|]. apply wp_bind. apply (wp_createSegment opts s l segs (batches segs)); try done.
  apply wp_ret. exists segs. split_and!; try done; [by apply log_ok_new|by exists segs, []].
Qed.
End rotate.

(** ** Listing *)

(** A call that only reads: it fails, or answers as it does without faults. *)
Definition reads_only {A} (m : io A) (f : gmap bytes wfile) : Prop :=
  forall sc, match m (mkDir f sc) with
             | (Ok a, d) => files d = f /\ m (mkDir f []) = (Ok a, mkDir f [])
             | (Fail _, d) => files d = f
             end.

Lemma reads_only_wp {A} (m : io A) f a Q (X : _ -> Prop) :
  reads_only m f -> m (mkDir f []) = (Ok a, mkDir f []) -> X f -> Q a f -> wp m Q X f.
Proof.
  intros Hr Hm HX HQ sc. specialize (Hr sc). destruct (m (mkDir f sc)) as [[a'|e] d'].
  - destruct Hr as [-> E]. rewrite Hm in E. by injection E as <-.
  - by rewrite Hr.
Qed.

Lemma reads_only_ret {A} (a : A) f : reads_only (mret a) f.
Proof. by intros sc. Qed.

Lemma reads_only_bind {A B} (m : io A) (k : A -> io B) f : reads_only m f -> (forall a, reads_only (k a) f) -> reads_only (m ≫= k) f.
Proof.
  intros Hm Hk sc. specialize (Hm sc). unfold mbind, io_bind. destruct (m (mkDir f sc)) as [[a|e] [f' sc']]; [|done].
  cbn [files] in Hm. destruct Hm as [-> ->]. apply Hk.
Qed.

Lemma reads_only_wrap {A} g (m : io A) f : reads_only m f -> reads_only (io_wrap g m) f.
Proof.
  intros Hm sc. specialize (Hm sc). unfold io_wrap. destruct (m (mkDir f sc)) as [[a|e] d]; [|done]. destruct Hm as [? ->]. done.
Qed.

Lemma reads_only_call f : reads_only call f.
Proof. intros [|r sc]; [done|]. destruct r as [n []]; done. Qed.

Lemma reads_only_lift {A} (m : result engine_error A) f : reads_only (io_lift m) f.
Proof. intros sc. by destruct m. Qed.

Lemma reads_only_lookup name f : reads_only (lookup_file name) f.
Proof. intros sc. unfold lookup_file, get_files, mbind, io_bind. cbn. by destruct (f !! name). Qed.

Lemma reads_only_members names f : reads_only (list_members names) f.
Proof.
  induction names as [|name names IH]; cbn [list_members]; [apply reads_only_ret|].
  destruct (validSegmentName name); [|apply (reads_only_lift (Fail _))].
  repeat (apply reads_only_bind; [|intros ?]); auto using reads_only_wrap, reads_only_call, reads_only_lookup, reads_only_ret.
  apply reads_only_lift.
Qed.

Lemma reads_only_list f : reads_only listSegments f.
Proof.
  apply reads_only_bind; [apply reads_only_wrap, reads_only_call|intros []]. apply reads_only_bind; [by intros sc|intros m].
  apply reads_only_bind; [apply reads_only_members|intros segs]. destruct (merge_sort Z.le segs); [apply reads_only_ret|].
  apply reads_only_bind; [apply reads_only_lift|intros []; apply reads_only_ret].
Qed.

(** ** Reclaiming *)

Lemma log_ok_tail opts s l x segs : log_ok opts s l (x :: segs) -> segs <> [] -> log_ok opts (s + 1) (l + len x) segs.
Proof.
  intros [Ho Hc [Hs1 Hs2] [Hl1 Hl2] Hok Hint] Hne. rewrite len_cons in Hs2. cbn [concat] in Hl2. rewrite len_app in Hl2.
  pose proof (len_nonneg x). split; try done.
  - lia.
  - lia.
  - by apply Forall_cons in Hok as [_ ?].
  - intros init last E. specialize (Hint (x :: init) last). rewrite E in Hint. specialize (Hint eq_refl). by apply Forall_cons in Hint as [_ ?].
Qed.

Lemma log_ok_last opts s l init ls : log_ok opts s l (init ++ [ls]) -> log_ok opts (s + len init) (l + len (batches init)) [ls].
Proof.
  revert s l. induction init as [|x init IH]; intros s l Hlog; cbn [app] in Hlog.
  - change (len (@nil (list (list operation)))) with 0. change (len (batches [])) with 0. by rewrite !Z.add_0_r.
  - apply log_ok_tail in Hlog; [|by destruct init]. apply IH in Hlog. cbn [concat]. rewrite len_app, len_cons.
    replace (s + (1 + len init)) with (s + 1 + len init) by lia. by rewrite Z.add_assoc.
Qed.

(** The log without its first segments. *)
Definition suffix_log (opts : Options) (s l : Z) (init : list (list (list operation))) (ls : list (list operation)) (f : gmap bytes wfile) : Prop :=
  exists pre post, init = pre ++ post /\ log_ok opts (s + len pre) (l + len (batches pre)) (post ++ [ls]) /\
    f = log_files (s + len pre) (l + len (batches pre)) (post ++ [ls]).

Lemma suffix_all opts s l init ls : log_ok opts s l (init ++ [ls]) -> suffix_log opts s l init ls (log_files s l (init ++ [ls])).
Proof.
  intros H. exists [], init. change (len (@nil (list (list operation)))) with 0. change (len (batches [])) with 0. by rewrite !Z.add_0_r.
Qed.

Lemma suffix_cons opts s l x init ls f : suffix_log opts (s + 1) (l + len x) init ls f -> suffix_log opts s l (x :: init) ls f.
Proof.
  intros (pre & post & -> & Hlog & ->). exists (x :: pre), post. cbn [concat]. rewrite len_app, len_cons.
  replace (s + (1 + len pre)) with (s + 1 + len pre) by lia. by replace (l + (len x + len (batches pre))) with (l + len x + len (batches pre)) by lia.
Qed.

Lemma wp_remove_segments opts init ls Q : forall s l (X : gmap bytes wfile -> Prop),
  log_ok opts s l (init ++ [ls]) -> (forall f, suffix_log opts s l init ls f -> X f) ->
  Q tt (log_files (s + len init) (l + len (batches init)) [ls]) ->
  wp (remove_segments (s + len init) (seqZ s (len init + 1))) Q X (log_files s l (init ++ [ls])).
Proof.
  induction init as [|x init IH]; intros s l X Hlog HX HQ.
  - change (len (@nil (list (list operation)))) with 0 in *. change (len (batches [])) with 0 in HQ. rewrite !Z.add_0_r in *.
    change (seqZ s (0 + 1)) with [s]. cbn [remove_segments app]. rewrite (proj2 (Z.leb_le _ _)) by lia. apply wp_bind, wp_ret. by apply wp_ret.
  - pose proof Hlog as [_ _ [Hs1 Hs2] _ _ _]. rewrite len_app, len_cons in Hs2. change (len [ls]) with 1 in Hs2. rewrite len_cons in HQ |- *. pose proof (len_nonneg init).
    rewrite seqZ_cons by lia. cbn [remove_segments]. rewrite (proj2 (Z.leb_gt _ _)) by lia.
    apply wp_bind, wp_wrap, wp_bind, wp_call; [apply HX; by apply suffix_all|]. intros sc. cbn [del_file files script app log_files]. rewrite delete_insert_id.
    2:{ apply log_files_none; rewrite ?len_app, ?len_cons, ?len_nil; unfold is_u64; lia. }
    replace (s + (1 + len init)) with (Z.succ s + len init) by lia. replace (Z.pred (1 + len init + 1)) with (len init + 1) by lia.
    replace (s + 1) with (Z.succ s) by lia. cbn [app] in Hlog. apply log_ok_tail in Hlog; [|by destruct init]. replace (s + 1) with (Z.succ s) in Hlog by lia.
    apply (IH (Z.succ s) (l + len x) X); [done| |].
    + intros f Hf. apply HX, suffix_cons. by replace (s + 1) with (Z.succ s) by lia.
    + cbn [concat] in HQ. rewrite len_app in HQ. replace (s + (1 + len init)) with (Z.succ s + len init) in HQ by lia.
      by replace (l + (len x + len (batches init))) with (l + len x + len (batches init)) in HQ by lia.
Qed.

Lemma wp_removeBefore opts s l init ls :
  log_ok opts s l (init ++ [ls]) ->
  wp (removeBefore (s + len init)) (fun _ f => f = log_files (s + len init) (l + len (batches init)) [ls]) (suffix_log opts s l init ls)
    (log_files s l (init ++ [ls])).
Proof.
  intros Hlog. pose proof Hlog as [_ _ [Hs1 Hs2] _ _ _]. pose proof (len_nonneg init).
  assert (len (init ++ [ls]) = len init + 1) as Hlen by (rewrite len_app, len_cons, len_nil; lia).
  unfold removeBefore. apply wp_bind. eapply (reads_only_wp listSegments _ (seqZ s (len init + 1))).
  - apply reads_only_list.
  - rewrite <- Hlen. apply (listSegments_ok _ s (length (init ++ [ls]))); [lia|unfold len in *; lia|apply dom_log_files|].
    intros name w Hw%log_files_synced. by rewrite Hw.
  - by apply suffix_all.
  - apply wp_bind. apply (wp_remove_segments opts); [done|done|].
    assert (suffix_log opts s l init ls (log_files (s + len init) (l + len (batches init)) [ls])) as Hsuf.
    { exists init, []. rewrite app_nil_r. split; [done|]. split; [|done]. by apply log_ok_last. }
    apply wp_syncDirectory; rewrite ?link_all_synced by apply log_files_synced; done.
Qed.
