(* ===== verification/Compact.v ===== *)
(** Compaction writes the live entries of all tables, in key order, to tables
    of level one, and leaves every other table as it is. *)

From Stdlib Require Import ZArith Lia.
From stdpp Require Import base list gmap.
From S2P Require Import Prelude GoStd EngineOps Fs Wal WalLog Sst View Manifest Tree Publish Lsm PublishSafe OpenManifest.

Local Open Scope Z_scope.

(** ** New tables *)

(** [h] is [h0] but for temporary names and the tables numbered [P]. *)
Definition written (P : Z -> Prop) (h0 h : hdir) : Prop :=
  forall n o, may_be h n o -> may_be h0 n o \/ is_temp n = true \/ exists i, P i /\ n = sstBaseName i.

Lemma written_refl P h : written P h h.
Proof. by left. Qed.

Lemma written_mono (P P' : Z -> Prop) h0 h : (forall i, P i -> P' i) -> written P h0 h -> written P' h0 h.
Proof. intros Hi Hw n o [?|[?|(i & Hp & ->)]]%Hw; [by left|right; by left|right; right]. exists i. auto. Qed.

Lemma written_trans P h0 h1 h2 : written P h0 h1 -> written P h1 h2 -> written P h0 h2.
Proof. intros H1 H2 n o [Hm|[?|?]]%H2; [by apply H1|by right; left|by right; right]. Qed.

Lemma written_proper P h0 h : written P h0 h -> proper_names h0 -> proper_names h.
Proof. intros Hw Hp n f [Hm|[?|(i & _ & ->)]]%Hw; [by apply (Hp n f)|by right|left; apply validSSTName_ok]. Qed.

Lemma sstBaseName_inj a b : is_u64 a -> is_u64 b -> sstBaseName a = sstBaseName b -> a = b.
Proof.
  intros Ha Hb E. apply (f_equal (fun n => parseNumberName n (lit "sst-") (lit ".sst"))) in E. unfold sstBaseName in E.
  rewrite !parseNumberName_ok in E by done. by injection E.
Qed.

Section held.
Context (opts : Options).

Lemma written_held (P : Z -> Prop) h0 h f l id : written P h0 h -> sst_name f = sstBaseName id -> is_u64 id -> ~ P id -> (forall i, P i -> is_u64 i) ->
  file_held opts h0 f l -> file_held opts h f l.
Proof.
  intros Hw Hn Hid HP Hu. apply file_held_mono. intros o [?|[E|(i & Hi & E)]]%Hw; [done|by rewrite Hn, sst_not_temp in E|].
  rewrite Hn in E. apply sstBaseName_inj in E; [|done|by apply Hu]. congruence.
Qed.

Lemma temp_is_temp n : is_temp (temp_of n) = true.
Proof.
  unfold is_temp, temp_of, cut_suffix. apply bool_decide_eq_true_2. rewrite app_assoc, length_app.
  replace (length (lit "." ++ n) + length (lit ".tmp") - length (lit ".tmp"))%nat with (length (lit "." ++ n)) by lia.
  rewrite drop_app_length, beq_refl. by eexists.
Qed.

Lemma ewp_writeSST b entries level id lsn data meta t : opts_ok opts -> u8 level <= 1 -> is_u64 id ->
  encodeSST entries level id lsn opts = Ok (data, meta) ->
  ewp b (writeSST entries level id lsn opts)
    (fun m t' => m = meta /\ exists h, t' = set_dir Tables h t /\ written (fun i => i = id) (t_tables t) h /\ file_held opts h meta (sort_by ent_key entries))
    (fun t' => exists h, t' = set_dir Tables h t /\ written (fun i => i = id) (t_tables t) h) t.
Proof.
  intros Ho Hl Hid He. destruct (encodeSST_layout _ _ _ _ _ _ _ Ho Hl Hid He) as (bs & Hbs & Hok & Hd & Hm).
  unfold writeSST. rewrite He. apply ewp_bind, ewp_lift. assert (sst_name meta = sstBaseName id) as Hn by (by rewrite Hm).
  apply ewp_bind. eapply ewp_mono; [apply ewp_write_atomic| |].
  - intros [] t1 ->. apply ewp_ret. split; [done|]. unfold published. eexists. split; [done|]. split.
    + intros n o (r & ->%list_elem_of_singleton & <-). cbn [now]. destruct (decide (sst_name meta = n)) as [<-|Hne]; [right; right; by exists id|].
      rewrite lookup_insert_ne by done. destruct (decide (temp_of (sst_name meta) = n)) as [<-|Hnt]; [right; left; apply temp_is_temp|].
      rewrite lookup_delete_ne by done. left. apply (may_be_now (t_tables t)).
    + exists level, id, lsn, bs. split; [done|]. split; [|by rewrite Hbs]. intros o (r & ->%list_elem_of_singleton & <-). cbn [now]. by rewrite lookup_insert_eq, Hd.
  - intros t' [_ (h & -> & Hs)]. exists h. split; [done|]. intros n o [->|[?|[-> _]]]%Hs; [right; left; apply temp_is_temp|by left|].
    right; right. by exists id.
Qed.
End held.

(** ** Chunks *)

(** The files numbered from [id] on, at level one. *)
Definition numbered (id : Z) (fs : list sstFile) : Prop :=
  forall i f, fs !! i = Some f -> sst_name f = sstBaseName (id + Z.of_nat i) /\ sst_level f = x01.

Lemma numbered_app id fs gs : numbered id fs -> numbered (id + len fs) gs -> numbered id (fs ++ gs).
Proof.
  intros Hf Hg i f [Hi|[Hi Hj]]%lookup_app_Some; [by apply Hf|]. apply Hg in Hj as [-> ?]. split; [|done]. f_equal. unfold len. lia.
Qed.

Lemma sort_by_sorted_id l : sorted l -> sort_by ent_key l = l.
Proof.
  intros Hs. pose proof (proj2 (increasing_strongly ent_key l) Hs) as Hi. apply (increasing_perm_unique ent_key); [apply sort_by_perm| |done].
  apply sort_by_increasing. clear -Hi. apply (increasing_NoDup ent_key) in Hi. done.
Qed.

Lemma StronglySorted_filter_List {A} (R : A -> A -> Prop) f l : StronglySorted R l -> StronglySorted R (List.filter f l).
Proof.
  induction 1 as [|x l Hs IH Hx]; cbn [List.filter]; [constructor|]. destruct (f x); [|done]. constructor; [done|].
  rewrite Forall_forall in *. intros y Hy. apply Hx. rewrite list_elem_of_In in *. by apply List.filter_In in Hy as [? _].
Qed.

Section chunks.
Context (opts : Options) (Hopts : opts_ok opts) (lsn : Z).

(** What writing the entries to new tables from number [id] on leads to. *)
Definition spilled (t : tree) (entries : list sstEntry) (id : Z) (r : Z * list sstFile) (outputs : list sstFile) (t' : tree) : Prop :=
  exists h fs ls, t' = set_dir Tables h t /\ r = (id + len fs, outputs ++ fs) /\ numbered id fs /\ Forall2 (file_held opts h) fs ls /\
    concat ls = entries /\ Forall (fun l => l <> []) ls /\ written (fun i => id <= i < id + len fs) (t_tables t) h.

Definition spilling (t : tree) (id last : Z) (t' : tree) : Prop :=
  exists h, t' = set_dir Tables h t /\ written (fun i => id <= i < last) (t_tables t) h.

Lemma nonempty_length (ls : list (list sstEntry)) : Forall (fun l => l <> []) ls -> (length ls <= length (concat ls))%nat.
Proof. induction 1 as [|l ls Hl _ IH]; [done|]. cbn [concat length]. rewrite length_app. destruct l; [done|]. cbn [length]. lia. Qed.

Lemma spilled_bound t entries id r outputs t' : spilled t entries id r outputs t' -> id <= fst r <= id + len entries.
Proof.
  intros (h & fs & ls & _ & -> & _ & H2 & <- & Hne & _). cbn [fst]. apply nonempty_length in Hne. apply Forall2_length in H2. unfold len. lia.
Qed.

Lemma spilled_nil t id outputs : spilled t [] id (id, outputs) outputs t.
Proof.
  exists (t_tables t), [], []. change (len (@nil sstFile)) with 0. rewrite Z.add_0_r, app_nil_r. split_and!; try done; [by destruct t|constructor..|apply written_refl].
Qed.

(** One spill after another. *)
Lemma spilled_trans t t1 t2 a c id id1 r outputs outputs1 : 0 <= id -> id1 + len c < 2 ^ 64 ->
  spilled t a id (id1, outputs1) outputs t1 -> spilled t1 c id1 r outputs1 t2 -> spilled t (a ++ c) id r outputs t2.
Proof.
  intros H0 Hmax (h1 & fs1 & ls1 & -> & E1 & Hn1 & H1 & <- & Hne1 & Hw1) H2'. pose proof (spilled_bound _ _ _ _ _ _ H2') as Hb.
  destruct H2' as (h2 & fs2 & ls2 & -> & -> & Hn2 & H2 & <- & Hne2 & Hw2).
  injection E1 as -> ->. cbn [set_dir t_tables t_root t_wal fst] in *. pose proof (len_nonneg fs1). pose proof (len_nonneg fs2).
  exists h2, (fs1 ++ fs2), (ls1 ++ ls2). rewrite concat_app, !len_app, app_assoc, Z.add_assoc. split; [done|]. split; [done|].
  split; [by apply numbered_app|]. split; [|split; [done|]; split; [by apply Forall_app|]].
  - apply Forall2_app; [|done]. apply Forall2_same_length_lookup_2; [by apply Forall2_length in H1|].
    intros i f l Hf Hl. pose proof (Forall2_lookup_lr _ _ _ _ _ _ H1 Hf Hl) as Hh. apply lookup_lt_Some in Hf as Hlt. destruct (Hn1 i f Hf) as [Hnm _].
    pose proof (len_nonneg (concat ls2)). unfold len in *. apply (written_held opts _ h1 h2 f l _ Hw2 Hnm); [unfold is_u64, max_uint64; lia|lia|unfold is_u64, max_uint64; lia|done].
  - apply (written_trans _ _ h1).
    + apply (written_mono (fun i => id <= i < id + len fs1)); [intros i; lia|done].
    + apply (written_mono (fun i => id + len fs1 <= i < id + len fs1 + len fs2)); [intros i; lia|done].
Qed.

Lemma spilling_after t t1 a id id1 outputs outputs1 last t2 : id1 <= last -> 0 <= id -> spilled t a id (id1, outputs1) outputs t1 ->
  spilling t1 id1 last t2 -> spilling t id last t2.
Proof.
  intros Hl H0 (h1 & fs1 & ls1 & -> & E1 & _ & _ & _ & _ & Hw1) (h2 & -> & Hw2). injection E1 as -> ->. pose proof (len_nonneg fs1). exists h2.
  cbn [set_dir t_tables t_root t_wal] in *. split; [done|]. apply (written_trans _ _ h1).
  - apply (written_mono (fun i => id <= i < id + len fs1)); [intros i; lia|done].
  - apply (written_mono (fun i => id + len fs1 <= i < last)); [intros i; lia|done].
Qed.

(** Splitting a chunk ends, and what is written is the chunk. *)
Lemma ewp_flushEntries b fuel : forall entries id outputs t, (length entries <= fuel)%nat -> sorted entries -> 0 <= id -> id + len entries < 2 ^ 64 ->
  ewp b (flushEntries fuel lsn opts entries id outputs) (fun r t' => spilled t entries id r outputs t') (spilling t id (id + len entries)) t.
Proof.
  induction fuel as [|fuel IH]; intros entries id outputs t Hf Hs Hid Hmax; cbn [flushEntries].
  { destruct entries; [|cbn in Hf; lia]. apply ewp_ret, spilled_nil. }
  pose proof (len_nonneg entries). case_bool_decide as Hnil; [subst; apply ewp_ret, spilled_nil|].
  destruct (encodeSST entries x01 id lsn opts) as [[data meta]|err] eqn:He.
  - assert (1 <= len entries) as Hpos by (destruct entries; [done|rewrite len_cons; pose proof (len_nonneg entries); lia]).
    assert (is_u64 id) as Hu by (unfold is_u64, max_uint64; lia).
    assert (u8 x01 <= 1) as Hlev by (vm_compute; discriminate).
    destruct (encodeSST_layout _ _ _ _ _ _ _ Hopts Hlev Hu He) as (bs & _ & _ & _ & Hm).
    apply ewp_bind. eapply ewp_mono; [by apply (ewp_writeSST opts b entries x01 id lsn data meta)| |].
    + intros f t1 [-> (h & -> & Hw & Hh)]. apply ewp_ret. exists h, [meta], [entries]. change (len [meta]) with 1.
      rewrite sort_by_sorted_id in Hh by done. assert (uint64 (id + 1) = id + 1) as -> by (unfold uint64; rewrite Z.mod_small; lia).
      split_and!; [done|done| | |cbn [concat]; by rewrite app_nil_r|by constructor|].
      * intros i f Hi. apply list_lookup_singleton_Some in Hi as [-> <-]. rewrite Z.add_0_r. by rewrite Hm.
      * by constructor.
      * apply (written_mono (fun i => i = id)); [intros i ->; lia|done].
    + intros t' (h & -> & Hw). exists h. split; [done|]. apply (written_mono (fun i => i = id)); [intros i ->; lia|done].
  - destruct (Z.eqb_spec (len entries) 1) as [|Hne1]; [apply ewp_lift; exists (t_tables t); split; [by destruct t|apply written_refl]|].
    set (mid := Nat.div (length entries) 2). assert (2 <= length entries)%nat as Hlen by (unfold len in *; destruct entries as [|x [|y l]]; cbn in *; try lia; done).
    assert (0 < mid < length entries)%nat as [Hm1 Hm2].
    { unfold mid. split; [apply Nat.div_str_pos; lia|apply Nat.div_lt; lia]. }
    assert (len (take mid entries) + len (drop mid entries) = len entries) as Hsum by (rewrite <- len_app, take_drop; done).
    pose proof (len_nonneg (take mid entries)). pose proof (len_nonneg (drop mid entries)).
    rewrite <- (take_drop mid entries) in Hs. apply strongly_app in Hs as (Hs1 & Hs2 & _).
    apply ewp_bind. eapply ewp_mono; [apply IH; [rewrite length_take; lia|done|done|lia]| |].
    + intros [id1 outputs1] t1 Hr1. pose proof (spilled_bound _ _ _ _ _ _ Hr1) as Hb. cbn [fst] in Hb.
      eapply ewp_mono; [apply IH; [rewrite length_drop; lia|done|lia|lia]| |].
      * intros r t2 Hr2. rewrite <- (take_drop mid entries). apply (spilled_trans t t1 t2 _ _ id id1 r outputs outputs1); [done|lia|done|done].
      * intros t2 Hr2. apply (spilling_after t t1 (take mid entries) id id1 outputs outputs1); [lia|done|done|].
        destruct Hr2 as (h & -> & Hw). exists h. split; [done|]. apply (written_mono (fun i => id1 <= i < id1 + len (drop mid entries))); [intros i; lia|done].
    + intros t' (h & -> & Hw). exists h. split; [done|]. apply (written_mono (fun i => id <= i < id + len (take mid entries))); [intros i; lia|done].
Qed.

(** *** The merge *)

Definition live_entries (m : gmap bytes sstEntry) : list sstEntry := List.filter live (sorted_entries m).

Lemma live_entries_sorted m : keyed m -> sorted (live_entries m).
Proof. intros Hm. apply StronglySorted_filter_List, sorted_entries_sorted, Hm. Qed.

Lemma ewp_flush_chunk b chunk id outputs t : sorted chunk -> 0 <= id -> id + len chunk < 2 ^ 64 ->
  ewp b (flush_chunk lsn opts chunk id outputs) (fun r t' => spilled t chunk id r outputs t') (spilling t id (id + len chunk)) t.
Proof. intros. by apply ewp_flushEntries. Qed.

Lemma spilling_start t id last : spilling t id last t.
Proof. exists (t_tables t). split; [by destruct t|apply written_refl]. Qed.

Lemma spilling_mono t id last last' t' : last <= last' -> spilling t id last t' -> spilling t id last' t'.
Proof. intros Hl (h & -> & Hw). exists h. split; [done|]. apply (written_mono (fun i => id <= i < last)); [intros i; lia|done]. Qed.

Lemma ewp_compact_loop b fuel : forall sources ls chunk chunkBytes id outputs t,
  merging sources ls -> (size (umap ls) < fuel)%nat -> sorted (chunk ++ live_entries (umap ls)) -> 0 <= id ->
  id + len (chunk ++ live_entries (umap ls)) < 2 ^ 64 ->
  ewp b (compact_loop fuel lsn opts sources chunk chunkBytes id outputs)
    (fun r t' => spilled t (chunk ++ live_entries (umap ls)) id r outputs t') (spilling t id (id + len (chunk ++ live_entries (umap ls)))) t.
Proof.
  induction fuel as [|fuel IH]; intros sources ls chunk chunkBytes id outputs t Hm Hf Hs Hid Hmax; [lia|]. cbn [compact_loop].
  apply ewp_bind, ewp_call; [intros _; apply spilling_start|]. destruct Hm as [Hf1 Hs1 Hp1].
  destruct (nextMergedRaw_ok _ _ Hf1 Hs1 Hp1) as [[Hnil E]|(e & s' & E & He & Hmin & Hf2 & Hu & Hp2)]; rewrite E; apply ewp_bind, ewp_lift.
  { assert (live_entries (umap ls) = []) as Hl by (by rewrite Hnil). rewrite Hl, app_nil_r in *. by apply ewp_flush_chunk. }
  set (ls' := map (drop_key (ent_key e)) ls) in *.
  assert (merging s' ls') as Hm'.
  { split; [done| |by rewrite Hp2]. apply Forall_fmap. eapply Forall_impl; [exact Hs1|]. intros l. apply drop_key_sorted. }
  assert (size (umap ls') < fuel)%nat as Hf' by (rewrite Hu; pose proof (size_delete_lt _ _ _ He); lia).
  assert (sorted_entries (umap ls) = e :: sorted_entries (umap ls')) as Hstep by (rewrite Hu; apply sorted_entries_min; [apply umap_keyed|done|done]).
  assert (live_entries (umap ls) = if live e then e :: live_entries (umap ls') else live_entries (umap ls')) as Hlive.
  { unfold live_entries. rewrite Hstep. cbn [List.filter]. by destruct (live e). }
  unfold live in Hlive at 1. destruct (bool_decide (ent_kind e = deleteOp)); cbn [negb] in Hlive; rewrite Hlive in *.
  { by apply IH. }
  assert (sorted ((chunk ++ [e]) ++ live_entries (umap ls'))) as Hs' by (by rewrite <- app_assoc).
  destruct ((0 <? len chunk) && (compaction_target opts <? chunkBytes + entry_size e)).
  - apply strongly_app in Hs as (Hs2 & Hs3 & _). rewrite len_app in Hmax |- *. pose proof (len_nonneg (e :: live_entries (umap ls'))).
    pose proof (len_nonneg chunk). apply ewp_bind. eapply ewp_mono; [by apply ewp_flush_chunk; [done|done|lia]| |].
    + intros [id1 outputs1] t1 H1. pose proof (spilled_bound _ _ _ _ _ _ H1) as Hb. cbn [fst] in Hb.
      eapply ewp_mono; [apply (IH s' ls' [e]); [done|done|done|lia|cbn [app]; lia]| |].
      * intros r t2 H2. cbn [app] in H2. apply (spilled_trans t t1 t2 _ _ id id1 r outputs outputs1); [done|lia|done|done].
      * intros t2 H2. cbn [app] in H2. apply (spilling_after t t1 chunk id id1 outputs outputs1); [lia|done|done|]. revert H2. apply spilling_mono. lia.
    + intros t'. apply spilling_mono. lia.
  - assert (chunk ++ e :: live_entries (umap ls') = (chunk ++ [e]) ++ live_entries (umap ls')) as Ea by (by rewrite <- app_assoc).
    rewrite Ea in *. by apply (IH s' ls' (chunk ++ [e])).
Qed.
End chunks.

(** ** All tables *)

Lemma ewp_compact_tables b e t t0 t1 (m := umap (rev t0 ++ t1)) :
  store_ok (e_opts e) (table_dir (t_tables t)) ∅ (mf_files (e_manifest e)) t0 t1 ->
  0 <= nextSST (e_manifest e) -> nextSST (e_manifest e) + len (live_entries m) < 2 ^ 64 ->
  ewp b (compact_tables e) (fun r t' => spilled (e_opts e) t (live_entries m) (nextSST (e_manifest e)) r [] t')
    (spilling t (nextSST (e_manifest e)) (nextSST (e_manifest e) + len (live_entries m))) t.
Proof.
  intros Hst Hid Hmax. unfold compact_tables. apply ewp_bind, ewp_call; [intros _; apply spilling_start|]. apply ewp_bind, ewp_get. cbn [dir_at].
  change (compact_view e (t_tables t)) with (newViewLocked (table_dir (t_tables t)) (e_opts e) ∅ (mf_files (e_manifest e))).
  destruct (buildSources_ok (e_opts e) (table_dir (t_tables t)) ∅ (mf_files (e_manifest e)) t0 t1 Hst None) as (sources & ls & -> & Hm & Hu).
  assert (umap ls = m) as Hum by (rewrite Hu; unfold contents; cbn [starting]; by rewrite (left_id_L ∅ (∪))).
  apply ewp_bind, ewp_lift. rewrite <- Hum in *.
  apply (ewp_compact_loop (e_opts e) (so_opts _ _ _ _ _ _ Hst) (e_lsn e) b _ sources ls []); try done.
  - pose proof (sources_bound _ _ (mg_at _ _ Hm)). lia.
  - apply live_entries_sorted, umap_keyed.
Qed.
