(* ===== verification/Contents.v ===== *)
(** The key-value map a sequence of batches leads to, and the memtables and
    tables that hold it. *)

From Stdlib Require Import ZArith Lia.
From stdpp Require Import base list gmap.
From S2P Require Import Prelude GoStd EngineOps Fs Wal WalLog Sst View Tree Publish Lsm PublishSafe OpenManifest Compact.

Local Open Scope Z_scope.

(** ** Batches *)

Definition apply_to (m : gmap bytes bytes) (o : operation) : gmap bytes bytes :=
  if bool_decide (op_kind o = deleteOp) then delete (op_key o) m else <[op_key o := op_value o]> m.
Definition apply_batch (m : gmap bytes bytes) (l : list operation) : gmap bytes bytes := fold_left apply_to l m.

(** What the engine holds after the batches [bs]. *)
Definition model (bs : list (list operation)) : gmap bytes bytes := fold_left apply_batch bs ∅.

(** The memtable of the batches [bs]. *)
Definition remember (m : gmap bytes memEntry) (o : operation) : gmap bytes memEntry := <[op_key o := entry_of o]> m.
Definition memtable (m : gmap bytes memEntry) (bs : list (list operation)) : gmap bytes memEntry :=
  fold_left (fun m l => fold_left remember l m) bs m.

Lemma model_app a b : model (a ++ b) = fold_left apply_batch b (model a).
Proof. apply fold_left_app. Qed.

(** ** Live entries *)

Definition live_of (m : gmap bytes sstEntry) : gmap bytes bytes :=
  omap (fun e => if live e then Some (ent_value e) else None) m.

Lemma live_of_lookup m k : live_of m !! k = match m !! k with Some e => if live e then Some (ent_value e) else None | None => None end.
Proof. unfold live_of. rewrite lookup_omap. by destruct (m !! k). Qed.

Lemma live_remember m o : live_of (remember m o) = apply_to (live_of m) o.
Proof.
  apply map_eq. intros k. unfold remember, apply_to. rewrite live_of_lookup. unfold entry_of. destruct (decide (op_key o = k)) as [<-|Hne].
  - rewrite lookup_insert_eq. unfold live. cbn [ent_kind ent_value]. case_bool_decide; cbn [negb]; [by rewrite lookup_delete_eq|by rewrite lookup_insert_eq].
  - rewrite lookup_insert_ne by done. case_bool_decide; [rewrite lookup_delete_ne by done|rewrite lookup_insert_ne by done]; by rewrite live_of_lookup.
Qed.

Lemma remember_union m base o : remember m o ∪ base = remember (m ∪ base) o.
Proof. unfold remember. by rewrite insert_union_l. Qed.

Lemma fold_remember_union l m base : fold_left remember l m ∪ base = fold_left remember l (m ∪ base).
Proof. revert m. induction l as [|o l IH]; intros m; [done|]. cbn [fold_left]. by rewrite IH, remember_union. Qed.

Lemma memtable_union bs m base : memtable m bs ∪ base = memtable (m ∪ base) bs.
Proof. revert m. induction bs as [|l bs IH]; intros m; [done|]. unfold memtable in *. cbn [fold_left]. by rewrite IH, fold_remember_union. Qed.

Lemma live_memtable bs m : live_of (memtable m bs) = fold_left apply_batch bs (live_of m).
Proof.
  revert m. induction bs as [|l bs IH]; intros m; [done|]. unfold memtable in *. cbn [fold_left]. rewrite IH. f_equal.
  unfold apply_batch. clear IH. revert m. induction l as [|o l IH]; intros m; [done|]. cbn [fold_left]. by rewrite IH, live_remember.
Qed.

(** A memtable of the last batches over tables that hold the ones before. *)
Lemma live_over bs n base : live_of base = model (take n bs) -> live_of (memtable ∅ (drop n bs) ∪ base) = model bs.
Proof.
  intros Hb. rewrite memtable_union, (left_id_L ∅ (∪)), live_memtable, Hb, <- model_app. by rewrite take_drop.
Qed.

Lemma memtable_keyed bs m : keyed m -> keyed (memtable m bs).
Proof.
  revert m. induction bs as [|l bs IH]; intros m Hm; [done|]. unfold memtable in *. cbn [fold_left]. apply IH. clear IH. revert m Hm.
  induction l as [|o l IH]; intros m Hm; [done|]. cbn [fold_left]. apply IH. intros k e He. unfold remember in He.
  apply lookup_insert_Some in He as [[<- <-]|[_ He]]; [done|by apply Hm].
Qed.

Lemma put_entries m n l : fst (fold_left put_entry l (m, n)) = fold_left remember l m.
Proof. revert m n. induction l as [|o l IH]; intros m n; [done|]. cbn [fold_left put_entry]. apply IH. Qed.

Lemma memtable_snoc m bs l : memtable m (bs ++ [l]) = fold_left remember l (memtable m bs).
Proof. unfold memtable. by rewrite fold_left_app. Qed.

(** ** Recovery *)

Lemma replay_same opts flushed bs : forall lsn st m, Forall (canonical opts) bs -> same_entries (values st) (tombstones st) m -> lsn - 1 <= flushed ->
  same_entries (values (replay flushed lsn bs st)) (tombstones (replay flushed lsn bs st)) (memtable m (drop (Z.to_nat (flushed - (lsn - 1))) bs)).
Proof.
  induction bs as [|l bs IH]; intros lsn st m Hc Hs Hf; cbn [replay]; [by rewrite drop_nil|]. apply Forall_cons in Hc as [Hl Hc].
  destruct (Z.ltb_spec flushed lsn) as [Hlt|Hge].
  - replace (Z.to_nat (flushed - (lsn - 1))) with O by lia. cbn [drop]. clear IH Hf.
    assert (forall bs lsn st m, Forall (canonical opts) bs -> flushed < lsn -> same_entries (values st) (tombstones st) m ->
      same_entries (values (replay flushed lsn bs st)) (tombstones (replay flushed lsn bs st)) (memtable m bs)) as Hall.
    { clear. induction bs as [|l bs IH]; intros lsn st m Hc Hlt Hs; cbn [replay]; [done|]. apply Forall_cons in Hc as [Hl Hc].
      rewrite (proj2 (Z.ltb_lt _ _)) by lia. unfold memtable. cbn [fold_left]. apply IH; [done|lia|]. rewrite <- (put_entries m 0 l).
      destruct Hl as [(_ & Hv & _) _]. by apply (fold_same_entries opts). }
    unfold memtable. cbn [fold_left]. apply Hall; [done|lia|]. rewrite <- (put_entries m 0 l). destruct Hl as [(_ & Hv & _) _]. by apply (fold_same_entries opts).
  - replace (Z.to_nat (flushed - (lsn - 1))) with (S (Z.to_nat (flushed - (lsn + 1 - 1)))) by lia. cbn [drop]. apply IH; [done|done|lia].
Qed.

Lemma replay_memtable opts flushed lsn bs : Forall (canonical opts) bs -> lsn - 1 <= flushed ->
  entriesMap (replay flushed lsn bs emptyState) = memtable ∅ (drop (Z.to_nat (flushed - (lsn - 1))) bs).
Proof.
  intros Hc Hf. apply map_eq. intros k. rewrite entriesMap_lookup. symmetry. by apply (replay_same opts flushed bs lsn emptyState ∅).
Qed.

(** ** Compacted tables *)

Lemma umap_concat ls : sorted (concat ls) -> umap ls = lmap (concat ls).
Proof.
  induction ls as [|l ls IH]; intros Hs; [done|]. cbn [concat] in *. apply strongly_app in Hs as (H1 & H2 & Hx). rewrite umap_cons, IH by done.
  unfold lmap. by rewrite map_app, list_to_map_app.
Qed.

Lemma live_compacted m ls : keyed m -> concat ls = live_entries m -> live_of (umap ls) = live_of m.
Proof.
  intros Hm Hls. pose proof (live_entries_sorted m Hm) as Hs. rewrite umap_concat, Hls by (by rewrite Hls). apply map_eq. intros k. rewrite !live_of_lookup.
  assert (forall e, e ∈ live_entries m <-> m !! ent_key e = Some e /\ live e = true) as Hin.
  { intros e. unfold live_entries. rewrite list_elem_of_In, List.filter_In, <- list_elem_of_In. by rewrite elem_of_sorted_entries. }
  destruct (m !! k) as [e|] eqn:Hk.
  - pose proof (Hm k e Hk) as Ek. subst k. destruct (live e) eqn:Hl.
    + rewrite (lmap_elem _ e Hs); [by rewrite Hl|]. by apply Hin.
    + destruct (lmap (live_entries m) !! ent_key e) as [x|] eqn:Hx; [|done]. apply lmap_lookup in Hx as [Ex Hx]. apply Hin in Hx as [Hx Hlx]. congruence.
  - destruct (lmap (live_entries m) !! k) as [x|] eqn:Hx; [|done]. apply lmap_lookup in Hx as [Ex Hx]. apply Hin in Hx as [Hx _]. congruence.
Qed.
