(* ===== verification/Members.v ===== *)
(** The members of manifests: level zero before level one, the numbers in use,
    and that flushes and compactions lead to well-formed members again. *)

From Stdlib Require Import ZArith Lia.
From stdpp Require Import base list gmap.
From S2P Require Import Prelude EngineOps Fs Sst View Manifest Tree Publish PublishSafe OpenManifest Compact.

Local Open Scope Z_scope.

(** ** One member *)

Definition member_ok (opts : Options) (f : sstFile) : Prop :=
  (exists id, is_u64 id /\ id < max_uint64 /\ sst_name f = sstBaseName id) /\
  1 <= sst_entryCount f <= max_uint32 /\
  sstHeaderLen + sstFooterLen <= sst_bytes f <= MaxSSTBytes opts /\
  1 <= len (sst_minKey f) <= MaxKeyBytes opts /\ 1 <= len (sst_maxKey f) <= MaxKeyBytes opts.

Lemma held_member opts h f l id : file_held opts h f l -> sst_name f = sstBaseName id -> 0 <= id < max_uint64 -> member_ok opts f.
Proof.
  intros (level & id' & maxLSN & bs & Hok & _ & -> & _) Hn Hid. pose proof (layout_entries_pos _ _ _ _ _ Hok) as [_ Hpos].
  pose proof (layout_len level id' maxLSN bs) as Hlen. pose proof (layout_body_pos _ _ _ _ _ Hok) as [Hb1 Hb2].
  destruct (block_keys opts (concat bs)) as (Hk1 & Hk2 & _); [apply (ly_entries _ _ _ _ _ Hok)|by intros Hnil; rewrite Hnil in Hpos|].
  pose proof (ly_count _ _ _ _ _ Hok). pose proof (ly_size _ _ _ _ _ Hok). unfold member_ok. cbn [layout_meta sst_name sst_entryCount sst_bytes sst_minKey sst_maxKey] in *.
  split; [exists id; split; [unfold is_u64; lia|split; [lia|done]]|]. split; [lia|]. split; [unfold blockHeaderLen in *; lia|done].
Qed.

Lemma held_nonempty opts h f l : file_held opts h f l -> l <> [].
Proof. intros (level & id & maxLSN & bs & Hok & _ & -> & ->) Hnil. pose proof (layout_entries_pos _ _ _ _ _ Hok) as [_ Hpos]. by rewrite Hnil in Hpos. Qed.

Lemma held_keys opts h f l : file_held opts h f l -> sst_minKey f = first_key l /\ sst_maxKey f = last_key l /\ sorted l.
Proof. intros (level & id & maxLSN & bs & Hok & _ & -> & ->). split; [done|]. split; [done|]. apply (ly_entries _ _ _ _ _ Hok). Qed.

(** ** Levels *)

Lemma members_after_l1 opts p files : members_ok opts (Some p) files -> level_files x00 files = [] /\ level_files x01 files = files.
Proof.
  revert p. induction files as [|f files IH]; intros p; [done|]. cbn [members_ok]. intros (_ & _ & _ & _ & _ & [(_ & ? & _)|(Hl & _ & Hm)]); [done|].
  apply IH in Hm as [H0 H1]. unfold level_files in *. cbn [List.filter]. rewrite Hl. rewrite H1. done.
Qed.

Lemma members_levels opts files : members_ok opts None files ->
  files = level_files x00 files ++ level_files x01 files /\ Forall (member_ok opts) (level_files x00 files) /\ members_ok opts None (level_files x01 files).
Proof.
  induction files as [|f files IH]; [done|]. intros (H1 & H2 & H3 & H4 & H5 & [(Hl & _ & Hm)|(Hl & Hp & Hm)]).
  - apply IH in Hm as (E & H0 & Hl1). unfold level_files in *. cbn [List.filter]. rewrite Hl.
    rewrite (bool_decide_eq_true_2 (x00 = x00)), (bool_decide_eq_false_2 (x00 = x01)) by done. cbn [app]. split; [by rewrite <- E|]. split; [|done].
    by constructor.
  - pose proof (members_after_l1 _ _ _ Hm) as [E0 E1]. unfold level_files in *. cbn [List.filter]. rewrite Hl.
    rewrite (bool_decide_eq_true_2 (x01 = x01)), (bool_decide_eq_false_2 (x01 = x00)) by done. rewrite E0, E1. split; [done|].
    split; [constructor|]. cbn [members_ok]. do 5 (split; [done|]). by right.
Qed.

Lemma members_l0 opts a b : Forall (fun f => member_ok opts f /\ sst_level f = x00) a -> members_ok opts None b -> members_ok opts None (a ++ b).
Proof.
  induction 1 as [|f a [(H1 & H2 & H3 & H4 & H5) Hl] _ IH]; intros Hb; [done|]. cbn [app members_ok]. do 5 (split; [done|]). left. split; [done|]. split; [done|].
  by apply IH.
Qed.

Lemma level_files_level level files f : f ∈ level_files level files -> sst_level f = level /\ f ∈ files.
Proof. unfold level_files. rewrite list_elem_of_In, List.filter_In, <- list_elem_of_In. by intros [? ?%bool_decide_eq_true]. Qed.

Lemma level_files_all level files : Forall (fun f => sst_level f = level) files -> level_files level files = files.
Proof. induction 1 as [|f files Hf _ IH]; [done|]. unfold level_files in *. cbn [List.filter]. rewrite bool_decide_eq_true_2 by done. by rewrite IH. Qed.

Lemma level_files_none level files : Forall (fun f => sst_level f <> level) files -> level_files level files = [].
Proof. induction 1 as [|f files Hf _ IH]; [done|]. unfold level_files in *. cbn [List.filter]. by rewrite bool_decide_eq_false_2. Qed.

Lemma level_files_app level a b : level_files level (a ++ b) = level_files level a ++ level_files level b.
Proof. unfold level_files. apply List.filter_app. Qed.

(** The levels of what a flush writes. *)
Lemma flushed_levels files new : sst_level new = x00 ->
  level_files x00 (level_files x00 files ++ [new] ++ level_files x01 files) = level_files x00 files ++ [new] /\
  level_files x01 (level_files x00 files ++ [new] ++ level_files x01 files) = level_files x01 files.
Proof.
  intros Hn. rewrite !level_files_app.
  assert (Forall (fun f => sst_level f = x00) (level_files x00 files)) as H0 by (apply Forall_forall; by intros f [? _]%level_files_level).
  assert (Forall (fun f => sst_level f = x01) (level_files x01 files)) as H1 by (apply Forall_forall; by intros f [? _]%level_files_level).
  rewrite (level_files_all x00 _ H0), (level_files_all x01 _ H1), (level_files_all x00 [new]) by (by constructor).
  rewrite (level_files_none x01 (level_files x00 files)) by (eapply Forall_impl; [exact H0|]; intros f ->; done).
  rewrite (level_files_none x00 (level_files x01 files)) by (eapply Forall_impl; [exact H1|]; intros f ->; done).
  rewrite (level_files_none x01 [new]) by (constructor; [by rewrite Hn|constructor]). by rewrite app_nil_r.
Qed.

(** Tables of level one in key order. *)
Lemma members_l1 opts h fs ls : forall last id, Forall2 (file_held opts h) fs ls -> numbered id fs -> 0 <= id -> id + len fs <= max_uint64 ->
  sorted (concat ls) -> match last with Some p => forall e, e ∈ concat ls -> blt p (ent_key e) = true | None => True end -> members_ok opts last fs.
Proof.
  intros last id H2. revert last id. induction H2 as [|f l fs ls Hf _ IH]; intros last id Hn Hid Hmax Hs Hlast; [done|]. cbn [members_ok concat] in *.
  destruct (Hn 0%nat f eq_refl) as [Hnm Hlev]. rewrite Z.add_0_r in Hnm. rewrite len_cons in Hmax. pose proof (len_nonneg fs).
  assert (member_ok opts f) as (H1 & H3 & H4 & H5 & H6) by (apply (held_member opts h f l id); [done|done|lia]). do 5 (split; [done|]).
  destruct (held_keys _ _ _ _ Hf) as (Hmin & Hmaxk & Hsl). pose proof (held_nonempty _ _ _ _ Hf) as Hne. apply strongly_app in Hs as (_ & Hs & Hcross).
  right. split; [done|]. split.
  - destruct last as [p|]; [|done]. rewrite Hmin. destruct l as [|e l]; [done|]. apply Hlast. by left.
  - apply (IH _ (id + 1)); [|lia|lia|done|].
    + intros i g Hi. destruct (Hn (S i) g Hi) as [-> ?]. split; [|done]. f_equal. lia.
    + intros e He. rewrite Hmaxk. destruct (last_key_elem l Hne) as (x & Hx & _ & ->). by apply Hcross.
Qed.

(** ** Numbers in use *)

Definition numbers_below (n : Z) (files : list sstFile) : Prop := Forall (fun f => exists id, 0 <= id < n /\ sst_name f = sstBaseName id) files.

Lemma numbers_below_mono n n' files : n <= n' -> numbers_below n files -> numbers_below n' files.
Proof. intros Hn Hf. eapply Forall_impl; [exact Hf|]. intros f (id & ? & ?). exists id. split; [lia|done]. Qed.

Lemma numbered_below id fs : 0 <= id -> numbered id fs -> numbers_below (id + len fs) fs.
Proof.
  intros Hid Hn. apply Forall_lookup. intros i f Hi. exists (id + Z.of_nat i). apply lookup_lt_Some in Hi as Hlt. split; [unfold len; lia|]. by apply Hn.
Qed.

Lemma next_id_bounds opts files : forall last maxID, members_ok opts last files -> 0 <= maxID <= max_uint64 ->
  maxID <= next_id files maxID <= max_uint64 /\ numbers_below (next_id files maxID) files.
Proof.
  induction files as [|f files IH]; intros last maxID Hm Hid; [split; [cbn; lia|constructor]|]. cbn [next_id members_ok] in *.
  destruct Hm as ((id & Hu & Hlt & Hn) & _ & _ & _ & _ & Hm).
  assert (parseNumberName (sst_name f) (lit "sst-") (lit ".sst") = Some id) as -> by (rewrite Hn; unfold sstBaseName; by apply parseNumberName_ok).
  set (next := if maxID <=? id then id + 1 else maxID). unfold is_u64 in Hu.
  assert (maxID <= next /\ id < next /\ 0 <= next <= max_uint64) as (H1 & H2 & H3) by (unfold next; destruct (Z.leb_spec maxID id); lia).
  assert (exists last', members_ok opts last' files) as [last' Hm'] by (destruct Hm as [(_ & _ & ?)|(_ & _ & ?)]; eauto).
  destruct (IH _ _ Hm' H3) as [Hb Hall]. split; [lia|]. constructor; [|done]. exists id. split; [lia|done].
Qed.

Lemma reopened_numbers opts m : members_ok opts None (mf_files m) ->
  1 <= nextSST (reopened m) <= max_uint64 /\ numbers_below (nextSST (reopened m)) (mf_files m).
Proof.
  intros Hm. destruct (next_id_bounds opts (mf_files m) None 0 Hm) as [Hb Hall]; [unfold max_uint64; lia|]. unfold reopened, maxIDOrOne. cbn [nextSST].
  destruct (Z.eqb_spec (next_id (mf_files m) 0) 0) as [E|E]; [|split; [lia|done]]. split; [unfold max_uint64; lia|].
  apply (numbers_below_mono (next_id (mf_files m) 0)); [lia|done].
Qed.
