(* ===== verification/Running.v ===== *)
(** What a data directory holds for a sequence of batches: while the engine
    runs, and after the process ends. *)

From Stdlib Require Import ZArith Lia.
From stdpp Require Import base list gmap.
From S2P Require Import Prelude EngineOps Fs Wal WalLog Sst View Manifest Tree Publish Lsm PublishSafe OpenManifest WalCheckpoint Compact Contents Members.

Local Open Scope Z_scope.

(** Options under which every field of a record fits its width. *)
Record config_ok (opts : Options) : Prop := {
  cf_opts : opts_ok opts;
  cf_count : count_fits opts;
  cf_files : MaxSSTFiles opts <= max_uint32;
  cf_bytes : MaxSSTBytes opts <= max_int64
}.

(** A prefix of the batches by their number. *)
Definition upto_lsn (n : Z) (bs : list (list operation)) : list (list operation) := take (Z.to_nat n) bs.
Definition past_lsn (n : Z) (bs : list (list operation)) : list (list operation) := drop (Z.to_nat n) bs.

Section states.
Context (opts : Options).

(** ** Tables *)

(** The tables of the manifest are there for good, oldest level-zero table
    first. *)
Record tables_ok (h : hdir) (files : list sstFile) (t0 t1 : list (list sstEntry)) : Prop := {
  to_l0 : Forall2 (file_held opts h) (level_files x00 files) t0;
  to_l1 : Forall2 (file_held opts h) (level_files x01 files) t1;
  to_sorted : sorted (concat t1);
  to_members : members_ok opts None files;
  to_proper : proper_names h
}.

(** They hold the batches up to the checkpoint of the manifest. *)
Definition supports (h : hdir) (m : manifest) (bs : list (list operation)) : Prop :=
  exists t0 t1, tables_ok h (mf_files m) t0 t1 /\ live_of (umap (rev t0 ++ t1)) = model (upto_lsn (flushedLSN m) bs).

(** ** The log *)

(** The log holds the batches after some number up to [L]; a crash may have
    left an unfinished frame or segment at its end. *)
Definition log_kept (bs : list (list operation)) (L : Z) (f : gmap bytes wfile) : Prop :=
  exists s l segs, log_ok opts s l segs /\ segs <> [] /\ l <= L /\ l <= len bs /\ batches segs = past_lsn l bs /\ after_crash opts s l segs f.

(** Before the first opening there is no segment at all. *)
Definition log_holds (bs : list (list operation)) (L : Z) (f : gmap bytes wfile) : Prop := log_kept bs L f \/ f = ∅ /\ bs = [].

(** ** After the process ends *)

(** The directory as it is found, holding exactly the batches [bs]. *)
Definition stopped (t : tree) (bs : list (list operation)) : Prop :=
  exists m L, calm (t_root t) /\ names_manifest opts (now (t_root t)) m /\ L <= flushedLSN m <= len bs /\
    supports (t_tables t) m bs /\ log_holds bs L (t_wal t).

(** Every crash leaves the batches of some [bs] satisfying [B]. *)
Definition root_safe (t : tree) (B : list (list operation) -> Prop) (L : Z) : Prop :=
  forall r, hcrash (t_root t) r ->
  exists m, names_manifest opts (now r) m /\ L <= flushedLSN m /\ forall bs, B bs -> flushedLSN m <= len bs /\ supports (t_tables t) m bs.
Definition log_safe (f : gmap bytes wfile) (B : list (list operation) -> Prop) (L : Z) : Prop :=
  forall f', crash f f' -> exists bs, B bs /\ log_holds bs L f'.
Definition safe (t : tree) (B : list (list operation) -> Prop) : Prop := exists L, root_safe t B L /\ log_safe (t_wal t) B L.

Lemma Forall2_held_crash h h' files ls : hcrash h h' -> Forall2 (file_held opts h) files ls -> Forall2 (file_held opts h') files ls.
Proof. intros Hc Hf. eapply Forall2_impl; [exact Hf|]. intros f l. by apply file_held_crash. Qed.

Lemma supports_crash h h' m bs : hcrash h h' -> supports h m bs -> supports h' m bs.
Proof.
  intros Hc (t0 & t1 & [H0 H1 Hs Hm Hp] & Hl). exists t0, t1. split; [|done].
  split; [by apply (Forall2_held_crash h)|by apply (Forall2_held_crash h)|done|done|by apply (proper_names_crash h)].
Qed.

Lemma safe_crash t B t' : safe t B -> tree_crash t t' -> exists bs, B bs /\ stopped t' bs.
Proof.
  intros (L & Hr & Hl) (Hcr & Hct & Hcw). destruct (Hr _ Hcr) as (m & Hn & HL & HB). destruct (Hl _ Hcw) as (bs & Hbs & Hh).
  exists bs. split; [done|]. destruct (HB _ Hbs) as [Hf Hsup]. exists m, L. split_and!; try done; [|by apply (supports_crash (t_tables t))].
  destruct Hcr as [Hp _]. by apply settled_calm.
Qed.

(** Wherever the process ends, the directory holds batches satisfying [P]. *)
Definition secures (t : tree) (P : list (list operation) -> Prop) : Prop := exists B, (forall bs, B bs -> P bs) /\ safe t B.

Lemma safe_secures t (B P : list (list operation) -> Prop) : safe t B -> (forall bs, B bs -> P bs) -> secures t P.
Proof. intros Hs HP. by exists B. Qed.

Lemma secures_crash t P t' : secures t P -> tree_crash t t' -> exists bs, P bs /\ stopped t' bs.
Proof. intros (B & HP & Hs) Hc. destruct (safe_crash t B t' Hs Hc) as (bs & Hb & Hst). eauto. Qed.
End states.

(** ** Engine steps over every script *)

Definition mwp {A} (b : bool) (m : em A) (Q : A -> Engine -> tree -> Prop) (X : Engine -> tree -> Prop) (e : Engine) (t : tree) : Prop :=
  forall s, (b = false -> s = []) ->
  match m e t s with
  | (Ok a, e', t', s') => Q a e' t' /\ (b = false -> s' = [])
  | (Fail _, e', t', _) => X e' t'
  end.

Section mwp_rules.
Context {A : Type} (b : bool).
Implicit Types (Q : A -> Engine -> tree -> Prop) (X : Engine -> tree -> Prop) (e : Engine) (t : tree).

Lemma mwp_ret (a : A) Q X e t : Q a e t -> mwp b (mret a) Q X e t.
Proof. by intros ? s. Qed.

Lemma mwp_bind {B} (m : em B) (k : B -> em A) Q X e t :
  mwp b m (fun a e' t' => mwp b (k a) Q X e' t') X e t -> mwp b (m ≫= k) Q X e t.
Proof.
  intros H s Hs. specialize (H s Hs). unfold mbind, em_bind. destruct (m e t s) as [[[[a|er] e'] t'] s']; [|done].
  destruct H as [H Hs']. by apply H.
Qed.

Lemma mwp_mono (m : em A) Q Q' X X' e t :
  mwp b m Q X e t -> (forall a e' t', Q a e' t' -> Q' a e' t') -> (forall e' t', X e' t' -> X' e' t') -> mwp b m Q' X' e t.
Proof.
  intros H HQ HX s Hs. specialize (H s Hs). destruct (m e t s) as [[[[a|er] e'] t'] s']; [|by apply HX]. destruct H. auto.
Qed.

Lemma mwp_io (m : eio A) Q X e t : ewp b m (fun a t' => Q a e t') (fun t' => X e t') t -> mwp b (m_io m) Q X e t.
Proof. intros H s Hs. specialize (H s Hs). unfold m_io. by destruct (m t s) as [[[a|er] t'] s']. Qed.
End mwp_rules.

Lemma mwp_get b Q X e t : Q e e t -> mwp b m_get Q X e t.
Proof. by intros ? s. Qed.
Lemma mwp_put b e' (Q : unit -> Engine -> tree -> Prop) X e t : Q tt e' t -> mwp b (m_put e') Q X e t.
Proof. by intros ? s. Qed.

(** ** While the engine runs *)

Definition log_open (opts : Options) (w : wal) (bs : list (list operation)) (L : Z) (f : gmap bytes wfile) : Prop :=
  exists s l segs, log_ok opts s l segs /\ opened s segs w /\ l <= L /\ l <= len bs /\ batches segs = past_lsn l bs /\ f = log_files s l segs.

(** The engine serves the batches [bs] and nothing else. *)
Record serving (e : Engine) (t : tree) (bs : list (list operation)) : Prop := {
  sv_config : config_ok (e_opts e);
  sv_root : steady (e_opts e) (t_root t) (e_manifest e);
  sv_tables : supports (e_opts e) (t_tables t) (e_manifest e) bs;
  sv_flushed : 0 <= flushedLSN (e_manifest e) <= len bs;
  sv_log : log_open (e_opts e) (e_wal e) bs (flushedLSN (e_manifest e)) (t_wal t);
  sv_lsn : e_lsn e = len bs;
  sv_active : e_active e = memtable ∅ (past_lsn (flushedLSN (e_manifest e)) bs);
  sv_next : 1 <= nextSST (e_manifest e) /\ numbers_below (nextSST (e_manifest e)) (mf_files (e_manifest e))
}.

Definition running (e : Engine) (t : tree) (bs : list (list operation)) : Prop :=
  serving e t bs /\ e_closed e = false /\ e_poisoned e = None.

(** Room left in the counters for one more flush and compaction of [n] live
    keys. *)
Definition room (e : Engine) (n : Z) : Prop :=
  e_lsn e + 2 < max_uint64 /\ wal_seg (e_wal e) + 4 < max_uint64 /\ generation (e_manifest e) + 2 <= max_uint64 /\
  nextSST (e_manifest e) + n + 2 < max_uint64.

Lemma log_open_holds opts w bs L f : log_open opts w bs L f -> log_holds opts bs L f.
Proof.
  intros (s & l & segs & Hlog & (init & ls & Hs & _) & HL & Hb & Hbs & ->). left. exists s, l, segs. split_and!; try done; [by rewrite Hs; destruct init|constructor].
Qed.

Lemma log_open_safe opts w bs L f : log_open opts w bs L f -> log_safe opts f (fun x => x = bs) L.
Proof.
  intros Ho f' Hc. exists bs. split; [done|]. pose proof Ho as (s & l & segs & _ & _ & _ & _ & _ & ->).
  apply crash_all_synced in Hc as ->; [|apply log_files_synced]. by apply (log_open_holds _ w).
Qed.

Lemma steady_safe opts t m bs : steady opts (t_root t) m -> supports opts (t_tables t) m bs -> flushedLSN m <= len bs ->
  root_safe opts t (fun x => x = bs) (flushedLSN m).
Proof.
  intros Hs Hsup Hf r Hc. exists m. split; [by apply (steady_crash opts (t_root t))|]. split; [lia|]. by intros x ->.
Qed.

Lemma serving_safe e t bs : serving e t bs -> safe (e_opts e) t (fun x => x = bs).
Proof.
  intros [_ Hr Ht [_ Hf] Hl _ _ _]. exists (flushedLSN (e_manifest e)). split; [by apply steady_safe|by apply (log_open_safe _ (e_wal e))].
Qed.
