(* ===== verification/FlushLog.v ===== *)
(** The log during a flush: it is rotated before the manifest is published and
    its earlier segments are removed afterwards. *)

From Stdlib Require Import ZArith Lia.
From stdpp Require Import base list gmap.
From S2P Require Import Prelude EngineOps Fs Wal WalLog Sst View Manifest Tree Publish Lsm PublishSafe OpenManifest WalCheckpoint Compact Contents Members Running.

Local Open Scope Z_scope.

Section flush_log.
Context (opts : Options) (bs : list (list operation)).

Lemma past_lsn_len l : 0 <= l <= len bs -> len (past_lsn l bs) = len bs - l.
Proof. unfold past_lsn, len. rewrite length_drop. lia. Qed.

Lemma past_lsn_drop a b : 0 <= a -> 0 <= b -> drop (Z.to_nat b) (past_lsn a bs) = past_lsn (a + b) bs.
Proof. intros Ha Hb. unfold past_lsn. rewrite drop_drop. f_equal. lia. Qed.

Lemma crash_safe_log s l L f : crash_safe opts s l (fun x => x = past_lsn l bs) f -> l <= L -> l <= len bs -> log_safe opts f (fun x => x = bs) L.
Proof. intros Hc HL Hb f' Hf. destruct (Hc f' Hf) as (segs & H1 & H2 & H3 & H4). exists bs. split; [done|]. left. by exists s, l, segs. Qed.

Lemma log_open_mono w f L L' : L <= L' -> log_open opts w bs L f -> log_open opts w bs L' f.
Proof. intros HL (s & l & segs & H1 & H2 & H3 & H4). exists s, l, segs. split_and!; try done; [lia|apply H4..]. Qed.

(** The log ends in an empty segment. *)
Definition rotated (w : wal) (L : Z) (f : gmap bytes wfile) : Prop :=
  exists s l init, log_ok opts s l (init ++ [[]]) /\ opened s (init ++ [[]]) w /\ wal_seg w = s + len init /\ l <= L /\ l <= len bs /\
    batches init = past_lsn l bs /\ f = log_files s l (init ++ [[]]).

Lemma rotated_open w L f : rotated w L f -> log_open opts w bs L f.
Proof.
  intros (s & l & init & H1 & H2 & _ & H3 & H4 & H5 & ->). exists s, l, (init ++ [[]]). split_and!; try done. by rewrite batches_snoc, app_nil_r.
Qed.

Lemma ewp_rotate b w L t : log_open opts w bs L (t_wal t) -> wal_seg w + 2 < max_uint64 -> len bs < max_uint64 ->
  ewp b (in_wal (rotate w (uint64 (len bs + 1)))) (fun w' t' => exists f, t' = mkTree (t_root t) (t_tables t) f /\ rotated w' L f /\ wal_seg w' <= wal_seg w + 1)
    (fun t' => exists f, t' = mkTree (t_root t) (t_tables t) f /\ log_safe opts f (fun x => x = bs) L) t.
Proof.
  intros (s & l & segs & Hlog & Ho & HL & Hb & Hbs & Hf) Hseg Hmax. pose proof Hlog as [_ _ [Hs1 Hs2] [Hl1 Hl2] _ _].
  assert (wal_seg w = s + len segs - 1) as Hws.
  { destruct Ho as (init & ls & -> & ->). cbn [wal_seg]. rewrite len_app, len_cons, len_nil. lia. }
  assert (uint64 (len bs + 1) = l + len (batches segs) + 1) as ->.
  { rewrite Hbs, past_lsn_len by lia. unfold uint64, max_uint64 in *. rewrite Z.mod_small; [lia|]. pose proof (len_nonneg bs). lia. }
  destruct (rotate_log opts s l segs w Hlog Ho) as (init & _ & _ & Hrun); [lia|].
  eapply ewp_wal; [rewrite Hf; by apply (wp_rotate opts s l segs w Hlog Ho); lia|rewrite Hf; intros _; by eexists _, _| |].
  - intros w' f (init' & H1 & H2 & H3 & H4 & H5 & ->). eexists. split; [done|]. split; [|lia]. exists s, l, init'. split_and!; try done. by rewrite H2.
  - intros f _ Hx. eexists. split; [done|]. apply (crash_safe_log s l); [|lia|lia]. by rewrite <- Hbs.
Qed.

Lemma suffix_holds s l init f : log_ok opts s l (init ++ [[]]) -> 0 <= l <= len bs -> batches init = past_lsn l bs -> suffix_log opts s l init [] f ->
  log_holds opts bs (len bs) f.
Proof.
  intros Hlog Hl Hi (pre & post & -> & Hok & ->). pose proof (past_lsn_len l Hl) as Hlen. rewrite <- Hi, concat_app, len_app in Hlen.
  pose proof (len_nonneg (batches post)). pose proof (len_nonneg (batches pre)).
  left. exists (s + len pre), (l + len (batches pre)), (post ++ [[]]). split_and!; try done; [by destruct post|lia|lia| |constructor].
  rewrite batches_snoc, app_nil_r, <- past_lsn_drop, <- Hi, concat_app by lia. by rewrite len_to_nat, drop_app_length.
Qed.

Lemma ewp_reclaim b w L t : rotated w L (t_wal t) ->
  ewp b (in_wal (removeBefore (wal_seg w))) (fun _ t' => exists f, t' = mkTree (t_root t) (t_tables t) f /\ log_open opts w bs (len bs) f)
    (fun t' => exists f, t' = mkTree (t_root t) (t_tables t) f /\ log_safe opts f (fun x => x = bs) (len bs)) t.
Proof.
  intros (s & l & init & Hlog & Ho & Hseg & HL & Hb & Hi & Hf). rewrite Hseg. pose proof Hlog as [_ _ _ [Hl1 _] _ _].
  eapply ewp_wal; [rewrite Hf; by apply (wp_removeBefore opts s l init [])|rewrite Hf; intros _; eexists _, _; by apply (removeBefore_log opts)| |].
  - intros _ f ->. eexists. split; [done|]. rewrite Hi, past_lsn_len by lia. replace (l + (len bs - l)) with (len bs) by lia.
    apply log_ok_last in Hlog. rewrite Hi, past_lsn_len in Hlog by lia. replace (l + (len bs - l)) with (len bs) in Hlog by lia.
    exists (s + len init), (len bs), [[]]. split_and!; try done; [|cbn; unfold past_lsn; rewrite len_to_nat, drop_all; done].
    destruct Ho as (init' & ls & E & ->). apply app_inj_tail in E as [<- <-]. exists [], []. split; [done|].
    change (len (@nil (list (list operation)))) with 0. by rewrite Z.add_0_r.
  - intros f _ Hsuf. eexists. split; [done|]. intros f' Hc. exists bs. split; [done|].
    assert (f' = f) as -> by (destruct Hsuf as (pre & post & _ & _ & ->); by apply crash_all_synced; [apply log_files_synced|]).
    by apply (suffix_holds s l init).
Qed.
End flush_log.
