(* ===== verification/FlushSafe.v ===== *)
(** Flushing and compacting keep the batches of the engine: at every point,
    whatever the calls answer and wherever a crash falls, the directory holds
    the batches it held before. *)

From Stdlib Require Import ZArith Lia.
From stdpp Require Import base list gmap.
From S2P Require Import Prelude EngineOps Fs Wal WalLog Sst View Manifest Tree Publish Lsm PublishSafe OpenManifest WalCheckpoint Compact Contents Members Running FlushLog.

Local Open Scope Z_scope.

(** ** Tables that stay *)

(** Every table numbered below [n] stays. *)
Definition kept (opts : Options) (n : Z) (h h' : hdir) : Prop :=
  forall f l id, sst_name f = sstBaseName id -> 0 <= id < n -> file_held opts h f l -> file_held opts h' f l.

Lemma kept_refl opts n h : kept opts n h h.
Proof. by intros f l id. Qed.

Lemma kept_trans opts n n' h1 h2 h3 : n <= n' -> kept opts n h1 h2 -> kept opts n' h2 h3 -> kept opts n h1 h3.
Proof. intros Hn H1 H2 f l id Hf Hid Hh. apply (H2 f l id Hf); [lia|]. by apply (H1 f l id). Qed.

Lemma kept_written opts (P : Z -> Prop) n h h' : n <= max_uint64 -> (forall i, P i -> n <= i <= max_uint64) -> 0 <= n -> written P h h' -> kept opts n h h'.
Proof.
  intros Hn HP H0 Hw f l id Hf Hid. apply (written_held opts P h h' f l id Hw Hf); [unfold is_u64; lia| |].
  - intros Hi%HP. lia.
  - intros i Hi%HP. unfold is_u64. lia.
Qed.

Lemma numbers_elem n files f : numbers_below n files -> f ∈ files -> exists id, 0 <= id < n /\ sst_name f = sstBaseName id.
Proof. intros Hn. unfold numbers_below in Hn. rewrite Forall_forall in Hn. apply Hn. Qed.

Lemma kept_files opts n h h' files level ls : kept opts n h h' -> numbers_below n files ->
  Forall2 (file_held opts h) (level_files level files) ls -> Forall2 (file_held opts h') (level_files level files) ls.
Proof.
  intros Hk Hn H2. apply Forall2_same_length_lookup_2; [by apply Forall2_length in H2|]. intros i f l Hf Hl.
  assert (f ∈ files) as Hin by (apply (level_files_level level); apply list_elem_of_lookup; eauto). destruct (numbers_elem _ _ _ Hn Hin) as (id & Hid & Hnm).
  apply (Hk f l id Hnm Hid). by apply (Forall2_lookup_lr _ _ _ _ _ _ H2 Hf Hl).
Qed.

Lemma supports_kept opts n h h' m bs : kept opts n h h' -> numbers_below n (mf_files m) -> proper_names h' -> supports opts h m bs -> supports opts h' m bs.
Proof.
  intros Hk Hn Hp (t0 & t1 & [H0 H1 Hs Hm _] & Hl). exists t0, t1. split; [|done].
  split; [by apply (kept_files opts n h)|by apply (kept_files opts n h)|done|done|done].
Qed.

Lemma supports_proper opts h m bs : supports opts h m bs -> proper_names h.
Proof. by intros (t0 & t1 & [] & _). Qed.

Lemma file_names_elem files f : f ∈ files -> sst_name f ∈ file_names files.
Proof. intros Hf. unfold file_names. apply elem_of_list_to_set, list_elem_of_fmap. eauto. Qed.

Lemma supports_shrunk opts h h' m bs : shrunk (fun n => n ∉ file_names (mf_files m)) h h' -> supports opts h m bs -> supports opts h' m bs.
Proof.
  intros Hs (t0 & t1 & [H0 H1 Hsort Hm Hp] & Hl).
  assert (forall level ls, Forall2 (file_held opts h) (level_files level (mf_files m)) ls -> Forall2 (file_held opts h') (level_files level (mf_files m)) ls) as Hk.
  { intros level ls H2. apply Forall2_same_length_lookup_2; [by apply Forall2_length in H2|]. intros i f l Hf Hf2.
    apply (file_held_shrunk opts _ h h' f l Hs); [|by apply (Forall2_lookup_lr _ _ _ _ _ _ H2 Hf Hf2)]. intros Hn. apply Hn, file_names_elem.
    apply (level_files_level level). apply list_elem_of_lookup. eauto. }
  exists t0, t1. split; [|done]. split; [by apply Hk|by apply Hk|done|done|by eapply proper_names_shrunk].
Qed.

Lemma supports_view opts h m bs active : config_ok opts -> keyed active -> supports opts h m bs ->
  exists t0 t1, store_ok opts (table_dir h) active (mf_files m) t0 t1 /\ live_of (umap (rev t0 ++ t1)) = model (upto_lsn (flushedLSN m) bs) /\
    tables_ok opts h (mf_files m) t0 t1.
Proof.
  intros [Ho _ _ _] Hk (t0 & t1 & Hok & Hl). exists t0, t1. split; [|done]. pose proof Hok as [H0 H1 Hs _ _].
  split; [done|done| | |done]; eapply Forall2_impl; try done; intros f l; apply file_held_ok.
Qed.

(** ** What a step leaves alone *)

Record frame (e : Engine) (t : tree) (e' : Engine) (t' : tree) : Prop := {
  fr_opts : e_opts e' = e_opts e;
  fr_lsn : e_lsn e' = e_lsn e;
  fr_pins : e_pins e' = e_pins e;
  fr_snapshots : e_snapshots e' = e_snapshots e;
  fr_closed : e_closed e' = e_closed e;
  fr_poisoned : e_poisoned e' = e_poisoned e;
  fr_next : nextSST (e_manifest e) <= nextSST (e_manifest e');
  fr_kept : e_pins e <> 0 -> kept (e_opts e) (nextSST (e_manifest e)) (t_tables t) (t_tables t')
}.

Lemma frame_refl e t : frame e t e t.
Proof. split; try done. intros _. apply kept_refl. Qed.

Lemma frame_trans e1 t1 e2 t2 e3 t3 : frame e1 t1 e2 t2 -> frame e2 t2 e3 t3 -> frame e1 t1 e3 t3.
Proof.
  intros [A1 A2 A3 A4 A5 A6 A7 A8] [B1 B2 B3 B4 B5 B6 B7 B8]. split; try congruence; [lia|]. intros Hp.
  apply (kept_trans _ _ (nextSST (e_manifest e2)) _ (t_tables t2)); [lia|by apply A8|]. rewrite <- A1. apply B8. congruence.
Qed.

(** Only the root, the log, or tables from the next number on change. *)
Lemma frame_same e t h r w : kept (e_opts e) (nextSST (e_manifest e)) (t_tables t) h -> frame e t e (mkTree r h w).
Proof. by split. Qed.

(** ** Obsolete tables *)

Lemma to_remove_not_current current seen files : Forall (fun n => n ∉ current) (to_remove current seen files).
Proof.
  revert seen. induction files as [|f files IH]; intros seen; cbn [to_remove]; [constructor|]. destruct (_ || _) eqn:E; [apply IH|].
  apply orb_false_iff in E as [E%bool_decide_eq_false _]. by constructor.
Qed.

Definition cleaned (e : Engine) (t : tree) (e' : Engine) (t' : tree) : Prop :=
  (e' = e \/ e' = with_obsolete e []) /\
  exists h, t' = set_dir Tables h t /\ shrunk (fun n => n ∉ file_names (mf_files (e_manifest e))) (t_tables t) h /\ (e_pins e <> 0 -> h = t_tables t).

Lemma mwp_cleanupObsolete b e t : mwp b cleanupObsoleteLocked (fun _ => cleaned e t) (fun e' t' => b = true /\ cleaned e t e' t') e t.
Proof.
  unfold cleanupObsoleteLocked. apply mwp_bind, mwp_get. destruct (negb (e_pins e =? 0) || _) eqn:E.
  { apply mwp_ret. split; [by left|]. exists (t_tables t). split; [by destruct t|]. split; [apply shrunk_refl|done]. }
  apply orb_false_iff in E as [Hp%negb_false_iff%Z.eqb_eq _]. set (P := fun n => n ∉ file_names (mf_files (e_manifest e))).
  assert (forall t' e', e' = e \/ e' = with_obsolete e [] -> shrinking Tables P t t' -> cleaned e t e' t') as Hc.
  { intros t' e' He (h & -> & Hs). split; [done|]. exists h. split; [done|]. split; [done|]. congruence. }
  apply mwp_bind, mwp_io. eapply ewp_mono; [apply (ewp_remove_all Tables P t b); [apply to_remove_not_current|apply shrinking_start]| |].
  2:{ intros t' [-> Hs]. split; [done|]. apply Hc; [by left|done]. }
  intros [] t1 H1. apply mwp_bind, mwp_put, mwp_io. eapply ewp_mono; [by apply (ewp_settle Tables P t)| |].
  - intros [] t2 (h & -> & Hs). apply Hc; [by right|]. exists (settle h). split; [done|]. by apply shrunk_settle.
  - intros t2 [-> Hs]. split; [done|]. apply Hc; [by right|done].
Qed.

Lemma serving_cleaned e t e' t' bs : serving e t bs -> cleaned e t e' t' -> serving e' t' bs /\ frame e t e' t'.
Proof.
  intros [H1 H2 H3 H4 H5 H6 H7 H8] [He (h & -> & Hs & Hp)]. assert (e_manifest e' = e_manifest e /\ e_opts e' = e_opts e) as [Em Eo] by (by destruct He as [-> | ->]).
  split; [destruct He as [-> | ->]; split; try done; by apply (supports_shrunk _ (t_tables t))|].
  split; try (by destruct He as [-> | ->]). intros Hn. cbn [set_dir t_tables]. rewrite (Hp Hn). apply kept_refl.
Qed.

(** ** Publishing *)

Lemma steady_generation opts h m : steady opts h m -> 0 <= generation m.
Proof. by intros [-> _ _|data [[[? _] _ _ _] _] _ _]. Qed.

(** While one manifest replaces another, both of which the tables support. *)
Lemma turning_safe opts t old new bs : turning opts (t_root t) old new -> supports opts (t_tables t) old bs -> supports opts (t_tables t) new bs ->
  flushedLSN old <= flushedLSN new <= len bs -> root_safe opts t (fun x => x = bs) (flushedLSN old).
Proof.
  intros Ht Ho Hn Hf r Hc. destruct (Ht r Hc) as [Hm|Hm]; [exists old|exists new]; (split; [done|]); (split; [lia|]); intros x ->; (split; [lia|done]).
Qed.

(** [publishManifest] of a well-formed successor. *)
Lemma ewp_publish_next opts b t old new bs : steady opts (t_root t) old -> manifest_ok opts new -> generation old < generation new ->
  supports opts (t_tables t) old bs -> supports opts (t_tables t) new bs -> flushedLSN old <= flushedLSN new <= len bs ->
  ewp b (publishManifest new) (fun _ t' => exists h, t' = set_dir Root h t /\ steady opts h new)
    (fun t' => t_tables t' = t_tables t /\ t_wal t' = t_wal t /\ root_safe opts t' (fun x => x = bs) (flushedLSN old)) t.
Proof.
  intros Hs Hok Hg Ho Hn Hf. destruct (encodeManifest new) as [data|err] eqn:He.
  - eapply ewp_mono; [by apply (ewp_publishManifest opts t old new data)|done|]. intros t' [_ (h & -> & Ht)]. split; [done|]. split; [done|].
    by apply (turning_safe _ _ old new).
  - unfold publishManifest. rewrite He. apply ewp_bind, ewp_lift. split; [done|]. split; [done|]. apply steady_safe; [done|done|lia].
Qed.

(** ** Compaction *)

Lemma live_of_size m : keyed m -> len (live_entries m) = Z.of_nat (size (live_of m)).
Proof.
  intros Hm. pose proof (live_entries_sorted m Hm) as Hs. unfold len. f_equal. rewrite <- size_dom.
  assert (dom (live_of m) = (list_to_set (map ent_key (live_entries m)) : gset bytes)) as ->.
  { apply set_eq. intros k. rewrite elem_of_dom, elem_of_list_to_set, list_elem_of_fmap, live_of_lookup.
    assert (forall e, e ∈ live_entries m <-> m !! ent_key e = Some e /\ live e = true) as Hin.
    { intros e. unfold live_entries. rewrite list_elem_of_In, List.filter_In, <- list_elem_of_In. by rewrite elem_of_sorted_entries. }
    split.
    - intros [v Hv]. destruct (m !! k) as [e|] eqn:E; [|done]. destruct (live e) eqn:El; [|done]. exists e. pose proof (Hm _ _ E). subst k. split; [done|]. by apply Hin.
    - intros (e & -> & [-> ->]%Hin). by eexists. }
  rewrite size_list_to_set; [by rewrite length_map|]. apply increasing_strongly in Hs. by apply (increasing_NoDup ent_key).
Qed.

Lemma past_lsn_all bs n : n = len bs -> past_lsn n bs = [].
Proof. intros ->. unfold past_lsn. rewrite len_to_nat. apply drop_all. Qed.

Lemma upto_lsn_all bs n : n = len bs -> upto_lsn n bs = bs.
Proof. intros ->. unfold upto_lsn. rewrite len_to_nat. apply take_ge. lia. Qed.

Lemma serving_keyed e t bs : serving e t bs -> keyed (e_active e).
Proof. intros [_ _ _ _ _ _ -> _]. apply memtable_keyed. by intros k x Hx%lookup_empty_Some. Qed.

(** Other table files while the root and the log stay. *)
Lemma serving_tables_safe e t bs h : serving e t bs -> kept (e_opts e) (nextSST (e_manifest e)) (t_tables t) h -> proper_names h ->
  safe (e_opts e) (set_dir Tables h t) (fun x => x = bs).
Proof.
  intros [Hc Hr Ht [_ Hf] Hl _ _ [_ Hn]] Hk Hp. exists (flushedLSN (e_manifest e)). cbn [set_dir t_wal]. split; [|by apply (log_open_safe _ (e_wal e))].
  apply steady_safe; [done| |done]. by apply (supports_kept _ (nextSST (e_manifest e)) (t_tables t)).
Qed.

(** Removing the manifests CURRENT does not name. *)
Lemma serving_old_manifests e t r bs : serving e t bs -> 0 < generation (e_manifest e) ->
  shrunk (other_manifest (manifestName (generation (e_manifest e)))) (t_root t) r -> serving e (set_dir Root r t) bs.
Proof.
  intros [Hc Hr Ht Hf Hl Hlsn Ha Hn] Hg Hsh. split; try done. cbn [set_dir t_root].
  inversion Hr as [E _ _|data He Hcur Hman]; [rewrite E in Hg; cbn in Hg; lia|]. by apply (steady_shrunk (e_opts e) (t_root t) r (e_manifest e) data).
Qed.

Section compaction.
Context (b : bool) (e : Engine) (t : tree) (bs : list (list operation)) (Hs : serving e t bs) (Hall : flushedLSN (e_manifest e) = len bs).
Context (Hgen : generation (e_manifest e) + 1 <= max_uint64) (Hlsn : len bs < max_uint64)
  (Hids : nextSST (e_manifest e) + Z.of_nat (size (model bs)) < max_uint64).

(** Tables written from the next number on. *)
Lemma new_tables n h : proper_names (t_tables t) -> nextSST (e_manifest e) + n <= max_uint64 + 1 ->
  written (fun i => nextSST (e_manifest e) <= i < nextSST (e_manifest e) + n) (t_tables t) h ->
  kept (e_opts e) (nextSST (e_manifest e)) (t_tables t) h /\ proper_names h.
Proof.
  intros Hp Hb Hw. destruct (sv_next _ _ _ Hs) as [Hn _]. split; [|by eapply written_proper]. eapply kept_written; [| |lia|exact Hw]; [lia|]. cbn. lia.
Qed.

(** The manifest of the compacted tables. *)
Lemma compacted_manifest m h fs ls (updated := mkManifest (uint64 (generation (e_manifest e) + 1)) (e_lsn e) fs (nextSST (e_manifest e) + len fs)) :
  keyed m -> live_of m = model bs -> numbered (nextSST (e_manifest e)) fs -> Forall2 (file_held (e_opts e) h) fs ls -> concat ls = live_entries m ->
  len fs <= Z.of_nat (size (model bs)) -> proper_names h -> len fs <= MaxSSTFiles (e_opts e) - l0CompactionTrigger ->
  manifest_ok (e_opts e) updated /\ generation (e_manifest e) < generation updated /\ supports (e_opts e) h updated bs /\
  1 <= nextSST updated /\ numbers_below (nextSST updated) (mf_files updated).
Proof.
  intros Hm Hv Hn Hf Hcc Hlen Hp Hmax. pose proof Hs as [Hc Hr _ _ _ Hl _ [Hn1 Hn2]]. pose proof (steady_generation _ _ _ Hr) as Hg.
  assert (uint64 (generation (e_manifest e) + 1) = generation (e_manifest e) + 1) as Hu by (unfold uint64, max_uint64 in *; rewrite Z.mod_small; lia).
  pose proof (live_entries_sorted m Hm) as Hsort. rewrite <- Hcc in Hsort. pose proof (len_nonneg fs). pose proof (len_nonneg bs).
  assert (members_ok (e_opts e) None fs) as Hmem by (apply (members_l1 _ h fs ls None (nextSST (e_manifest e))); try done; lia).
  assert (Forall (fun f => sst_level f = x01) fs) as Hlev by (apply Forall_lookup; intros i f [_ ?]%Hn; done).
  unfold updated. cbn [generation nextSST mf_files]. rewrite Hu. split_and!; [|lia| |lia|apply numbered_below; [lia|done]].
  - split; cbn [generation flushedLSN mf_files]; [unfold is_u64; lia|rewrite Hl; unfold is_u64; lia|unfold l0CompactionTrigger in *; lia|done].
  - exists [], ls. cbn [mf_files flushedLSN]. rewrite upto_lsn_all by done. cbn [rev app]. split; [|by rewrite (live_compacted m ls)].
    split; [|by rewrite level_files_all|done|done|done]. rewrite level_files_none; [constructor|]. eapply Forall_impl; [exact Hlev|]. by intros f ->.
Qed.

Lemma compacted_serving updated h r : manifest_ok (e_opts e) updated -> flushedLSN updated = len bs -> supports (e_opts e) h updated bs -> steady (e_opts e) r updated ->
  1 <= nextSST updated /\ numbers_below (nextSST updated) (mf_files updated) -> nextSST (e_manifest e) <= nextSST updated ->
  kept (e_opts e) (nextSST (e_manifest e)) (t_tables t) h -> forall old,
  serving (with_obsolete (with_manifest e updated) old) (mkTree r h (t_wal t)) bs /\
  frame e t (with_obsolete (with_manifest e updated) old) (mkTree r h (t_wal t)).
Proof.
  intros Hok Hf Hsup Hr Hn Hle Hk old. pose proof Hs as [Hc _ _ _ Hl Hlsn' Ha _]. pose proof (len_nonneg bs). split; [|by split].
  split; try done; cbn [with_obsolete with_manifest e_manifest e_active e_opts t_wal e_wal]; rewrite Hf; [lia|by rewrite <- Hall|]. by rewrite <- Hall.
Qed.

Lemma mwp_compactLevels :
  mwp b compactLevels (fun _ e' t' => serving e' t' bs /\ frame e t e' t' /\ flushedLSN (e_manifest e') = len bs)
    (fun e' t' => safe (e_opts e) t' (fun x => x = bs) /\ frame e t e' t') e t.
Proof.
  pose proof Hs as [Hc Hr Ht Hf Hl Hlsn' _ [Hn1 Hn2]]. unfold compactLevels. apply mwp_bind, mwp_get. destruct (_ =? 0).
  { apply mwp_ret. split; [done|]. split; [apply frame_refl|done]. }
  destruct (supports_view (e_opts e) (t_tables t) (e_manifest e) bs ∅ Hc) as (t0 & t1 & Hst & Hv & Hok); [by intros k x Hx%lookup_empty_Some|done|].
  rewrite Hall, upto_lsn_all in Hv by done. set (m := umap (rev t0 ++ t1)) in *. assert (keyed m) as Hkm by apply umap_keyed.
  assert (len (live_entries m) = Z.of_nat (size (model bs))) as Hsize by (by rewrite live_of_size, Hv).
  assert (proper_names (t_tables t)) as Hp by apply (to_proper _ _ _ _ _ Hok).
  apply mwp_bind, mwp_io. eapply ewp_mono; [apply (ewp_compact_tables b e t t0 t1 Hst); fold m; unfold max_uint64 in *; lia| |].
  2:{ fold m. intros t' (h & -> & [Hk Hp']%new_tables); [|done|rewrite Hsize; lia]. split; [by apply serving_tables_safe|by split]. }
  fold m. intros [nextID outputs] t' Hspill. pose proof (spilled_bound _ _ _ _ _ _ _ Hspill) as Hbound. destruct Hspill as (h & fs & ls & -> & E & Hnum & Hheld & Hcc & Hne & Hwr).
  rewrite app_nil_l in E. injection E as -> ->. cbn [fst] in Hbound. rewrite Hsize in Hbound. pose proof (len_nonneg fs).
  destruct (new_tables (len fs) h) as [Hk Hp']; [done|lia|done|].
  apply mwp_bind, mwp_io, ewp_fail_if; [intros _; split; [by apply serving_tables_safe|by split]|intros Hmax%Z.ltb_ge].
  destruct (compacted_manifest m h fs ls) as (Hmok & Hgn & Hsup & Hnx); [done|done|done|done|done|lia|done|lia|].
  set (updated := mkManifest _ _ _ _) in *.
  apply mwp_bind, mwp_io. eapply ewp_mono; [apply (ewp_publish_next (e_opts e) b _ (e_manifest e) updated bs)| |]; try done.
  { by apply (supports_kept _ (nextSST (e_manifest e)) (t_tables t)). }
  { cbn [updated flushedLSN]. lia. }
  2:{ intros t' (Ht' & Hw' & Hsafe). split; [exists (flushedLSN (e_manifest e)); split; [done|]; rewrite Hw'; by apply (log_open_safe _ (e_wal e))|].
      split; try done. intros _. by rewrite Ht'. }
  intros [] t' (r & -> & Hsteady). cbn [set_dir t_root t_tables t_wal] in *.
  destruct (compacted_serving updated h r Hmok Hlsn' Hsup Hsteady Hnx) with (old := e_obsolete e ++ mf_files (e_manifest e)) as [Hs1 Hf1]; [cbn [updated nextSST]; lia|done|].
  apply mwp_bind, mwp_put. apply mwp_bind. eapply mwp_mono; [apply mwp_cleanupObsolete| |].
  2:{ intros e' t' [_ Hcl]. destruct (serving_cleaned _ _ _ _ _ Hs1 Hcl) as [Hs2 Hf2]. pose proof (frame_trans _ _ _ _ _ _ Hf1 Hf2) as Hf3. split; [|done].
      rewrite <- (fr_opts _ _ _ _ Hf3). by apply serving_safe. }
  intros [] e2 t2 Hcl. destruct (serving_cleaned _ _ _ _ _ Hs1 Hcl) as [Hs2 Hf2]. pose proof (frame_trans _ _ _ _ _ _ Hf1 Hf2) as Hf3.
  assert (e_manifest e2 = updated) as Em by (by destruct Hcl as [[-> | ->] _]).
  assert (0 < generation (e_manifest e2)) as Hg2 by (rewrite Em; pose proof (steady_generation _ _ _ Hr); lia). rewrite <- Em.
  apply mwp_io. eapply ewp_mono; [apply ewp_cleanupManifests| |].
  - intros [] t3 (r' & -> & Hsh%shrunk_settle). split; [by apply serving_old_manifests|]. split; [|by rewrite Em].
    apply (frame_trans _ _ _ _ _ _ Hf3), frame_same, kept_refl.
  - intros t3 [_ (r' & -> & Hsh)]. split; [|apply (frame_trans _ _ _ _ _ _ Hf3), frame_same, kept_refl].
    rewrite <- (fr_opts _ _ _ _ Hf3). by apply serving_safe, serving_old_manifests.
Qed.
End compaction.

(** ** Flushing *)

Lemma ewp_writeTable opts b entries level id lsn t : opts_ok opts -> u8 level <= 1 -> is_u64 id -> sorted entries ->
  ewp b (writeSST entries level id lsn opts)
    (fun f t' => sst_name f = sstBaseName id /\ sst_level f = level /\
       exists h, t' = set_dir Tables h t /\ written (fun i => i = id) (t_tables t) h /\ file_held opts h f entries)
    (fun t' => exists h, t' = set_dir Tables h t /\ written (fun i => i = id) (t_tables t) h) t.
Proof.
  intros Ho Hl Hid Hs. destruct (encodeSST entries level id lsn opts) as [[data meta]|err] eqn:He.
  - destruct (encodeSST_layout _ _ _ _ _ _ _ Ho Hl Hid He) as (bs & _ & _ & _ & Hm).
    eapply ewp_mono; [by apply (ewp_writeSST opts b entries level id lsn data meta)| |done]. intros f t' [-> (h & -> & Hw & Hh)].
    rewrite sort_by_sorted_id in Hh by done. split; [by rewrite Hm|]. split; [by rewrite Hm|]. by exists h.
  - unfold writeSST. rewrite He. apply ewp_bind, ewp_lift. exists (t_tables t). split; [by destruct t|apply written_refl].
Qed.

Section flushing.
Context (b : bool) (e : Engine) (t : tree) (bs : list (list operation)) (Hs : serving e t bs) (Hroom : room e (Z.of_nat (size (model bs)))).
Local Notation m := (e_manifest e).
Let entries := sort_by ent_key (entriesFromActive (e_active e)).

Lemma flush_written h : written (fun i => i = nextSST m) (t_tables t) h -> kept (e_opts e) (nextSST m) (t_tables t) h /\ proper_names h.
Proof.
  intros Hw. destruct (sv_next _ _ _ Hs) as [Hn _]. destruct Hroom as (_ & _ & _ & Hr).
  split; [|eapply written_proper; [exact Hw|]; by eapply supports_proper, (sv_tables _ _ _ Hs)].
  eapply kept_written; [| |lia|exact Hw]; [lia|]. cbn. lia.
Qed.

(** The engine with the new table written and the log rotated. *)
Lemma flush_rotated h w f : kept (e_opts e) (nextSST m) (t_tables t) h -> proper_names h -> log_open (e_opts e) w bs (flushedLSN m) f ->
  serving (with_wal e w) (mkTree (t_root t) h f) bs /\ frame e t (with_wal e w) (mkTree (t_root t) h f).
Proof.
  intros Hk Hp Hl. pose proof Hs as [Hc Hr Ht Hf _ Hlsn Ha [Hn1 Hn2]]. split; [|by split]. split; try done.
  by apply (supports_kept _ (nextSST m) (t_tables t)).
Qed.

(** The manifest with the new table. *)
Lemma flushed_manifest h f
    (updated := mkManifest (uint64 (generation m + 1)) (e_lsn e) (level_files x00 (mf_files m) ++ [f] ++ level_files x01 (mf_files m)) (uint64 (nextSST m + 1))) :
  kept (e_opts e) (nextSST m) (t_tables t) h -> proper_names h -> sst_name f = sstBaseName (nextSST m) -> sst_level f = x00 -> file_held (e_opts e) h f entries ->
  len (mf_files updated) <= MaxSSTFiles (e_opts e) ->
  manifest_ok (e_opts e) updated /\ generation m < generation updated /\ supports (e_opts e) h updated bs /\ nextSST updated = nextSST m + 1 /\
  generation updated = generation m + 1 /\ numbers_below (nextSST updated) (mf_files updated).
Proof.
  intros Hk Hp Hnm Hlev Hh Hmax. pose proof Hs as [Hc Hr Ht Hf _ Hlsn Ha [Hn1 Hn2]]. destruct Hroom as (R1 & R2 & R3 & R4).
  pose proof (steady_generation _ _ _ Hr) as Hg.
  assert (uint64 (generation m + 1) = generation m + 1) as Hu by (unfold uint64, max_uint64 in *; rewrite Z.mod_small; lia).
  assert (uint64 (nextSST m + 1) = nextSST m + 1) as Hu2 by (unfold uint64, max_uint64 in *; rewrite Z.mod_small; lia).
  apply (supports_kept _ (nextSST m) (t_tables t) h) in Ht; [|done|done|done]. destruct Ht as (t0 & t1 & [H0 H1 Hsort Hmem _] & Hv).
  destruct (members_levels _ _ Hmem) as (Hsplit & Hm0 & Hm1). destruct (flushed_levels (mf_files m) f Hlev) as [E0 E1].
  assert (members_ok (e_opts e) None (level_files x00 (mf_files m) ++ [f] ++ level_files x01 (mf_files m))) as Hnew.
  { apply members_l0; [|apply (members_l0 _ [f]); [|done]].
    - apply Forall_forall. intros g Hg2. split; [|by apply (level_files_level x00 (mf_files m))]. rewrite Forall_forall in Hm0. by apply Hm0.
    - constructor; [|constructor]. split; [|done]. apply (held_member _ h f entries (nextSST m)); [done|done|lia]. }
  pose proof (len_nonneg bs). unfold updated in *. cbn [generation nextSST mf_files] in *. rewrite Hu, Hu2. split_and!; [|lia| |done|done|].
  - split; cbn [generation flushedLSN mf_files]; [unfold is_u64; lia|unfold is_u64; lia|done|done].
  - exists (t0 ++ [entries]), t1. cbn [mf_files flushedLSN]. rewrite upto_lsn_all by done. split.
    + split; [|by rewrite E1|done|done|done]. rewrite E0. apply Forall2_app; [done|]. by constructor.
    + rewrite rev_app_distr. cbn [rev app]. rewrite umap_cons. unfold entries. rewrite lmap_active by (by apply (serving_keyed e t bs)).
      rewrite Ha. by apply live_over.
  - assert (forall level, numbers_below (nextSST m + 1) (level_files level (mf_files m))) as Hold.
    { intros level. apply Forall_forall. intros g [_ Hg2]%level_files_level. destruct (numbers_elem _ _ _ Hn2 Hg2) as (i & ? & ?). exists i. split; [lia|done]. }
    apply Forall_app. split; [apply Hold|]. constructor; [|apply Hold]. exists (nextSST m). split; [lia|done].
Qed.

(** Once the manifest is published the memtable is empty. *)
Lemma flushed_serving e1 updated r h f w : e_opts e1 = e_opts e -> e_lsn e1 = e_lsn e -> e_wal e1 = w ->
  steady (e_opts e) r updated -> supports (e_opts e) h updated bs -> flushedLSN updated = len bs ->
  1 <= nextSST updated -> numbers_below (nextSST updated) (mf_files updated) -> log_open (e_opts e) w bs (len bs) f ->
  serving (with_memtable (with_manifest e1 updated) (e_lsn e) ∅ 0) (mkTree r h f) bs.
Proof.
  intros Eo El Ew Hr Hsup Hfl Hn1 Hn2 Hl. pose proof Hs as [Hc _ _ _ _ Hlsn _ _]. pose proof (len_nonneg bs).
  split; cbn [with_memtable with_manifest e_opts e_manifest e_wal e_lsn e_active t_root t_tables t_wal]; rewrite ?Eo, ?Ew, ?Hfl; try done.
  by rewrite past_lsn_all.
Qed.

Lemma mwp_flushActive :
  mwp b flushActive (fun _ e' t' => serving e' t' bs /\ frame e t e' t') (fun e' t' => safe (e_opts e) t' (fun x => x = bs) /\ frame e t e' t') e t.
Proof.
  pose proof Hs as [Hc Hr Ht Hf Hl Hlsn _ [Hn1 Hn2]]. pose proof Hroom as (R1 & R2 & R3 & R4). pose proof (len_nonneg bs). unfold flushActive.
  apply mwp_bind, mwp_get. case_bool_decide as Hemp; [apply mwp_ret; split; [done|apply frame_refl]|]. fold entries.
  rewrite (proj2 (Z.eqb_neq (nextSST m) 0)) by lia. pose proof (sorted_entries_sorted _ (serving_keyed _ _ _ Hs)) as Hsort. cbv zeta.
  apply mwp_bind, mwp_io. eapply ewp_mono; [apply (ewp_writeTable (e_opts e) b entries x00 (nextSST m)); [apply Hc|vm_compute; discriminate|unfold is_u64; lia|done]| |].
  2:{ intros t' (h & -> & [Hk Hp]%flush_written). split; [by apply serving_tables_safe|by split]. }
  intros newFile t' (Hnm & Hlev & h & -> & [Hk Hp]%flush_written & Hh).
  apply mwp_bind, mwp_io, ewp_wrap. rewrite Hlsn. eapply ewp_mono; [apply (ewp_rotate (e_opts e) bs b (e_wal e) (flushedLSN m) (set_dir Tables h t)); [done|lia|lia]| |].
  2:{ intros t' (f & -> & Hsafe). cbn [set_dir t_root t_tables]. split; [|by apply frame_same]. exists (flushedLSN m). split; [|done].
      apply steady_safe; [done| |lia]. by apply (supports_kept _ (nextSST m) (t_tables t)). }
  intros w t' (f & -> & Hrot & Hseg). cbn [set_dir t_root t_tables]. destruct (flush_rotated h w f Hk Hp (rotated_open _ _ _ _ _ Hrot)) as [Hs1 Hf1].
  apply mwp_bind, mwp_put, mwp_bind, mwp_io, ewp_fail_if.
  { intros _. split; [|done]. by apply (serving_safe (with_wal e w)). }
  intros Hmax%Z.ltb_ge. destruct (flushed_manifest h newFile Hk Hp Hnm Hlev Hh Hmax) as (Hmok & Hg & Hsup & Hnx & Hgn & Hnb). rewrite Hlsn in *.
  set (updated := mkManifest _ _ _ _) in *.
  apply mwp_bind, mwp_io. eapply ewp_mono; [apply (ewp_publish_next (e_opts e) b _ m updated bs); try done| |].
  { by apply (supports_kept _ (nextSST m) (t_tables t)). }
  { cbn [updated flushedLSN]. lia. }
  2:{ intros t' (E1 & E2 & Hsafe). split; [exists (flushedLSN m); split; [done|]; rewrite E2; by apply (log_open_safe _ w), rotated_open|].
    destruct t' as [r' h' f']. cbn [t_tables] in E1. rewrite E1. by split. }
  intros [] t' (r & -> & Hsteady). cbn [set_dir t_root t_tables t_wal] in *. apply mwp_bind, mwp_put.
  assert (forall f', log_open (e_opts e) w bs (len bs) f' -> serving (with_memtable (with_manifest (with_wal e w) updated) (len bs) ∅ 0) (mkTree r h f') bs) as Hserve.
  { intros f' Hf'. rewrite <- Hlsn. apply (flushed_serving _ _ _ _ _ w); try done. lia. }
  assert (forall f', frame e t (with_memtable (with_manifest (with_wal e w) updated) (len bs) ∅ 0) (mkTree r h f')) as Hframe.
  { intros f'. split; try done. cbn [with_memtable with_manifest e_manifest]. lia. }
  apply mwp_bind, mwp_io. eapply ewp_mono; [apply (ewp_reclaim (e_opts e) bs b w (flushedLSN m)); done| |].
  2:{ intros t' (f' & -> & Hsafe). split; [|done]. exists (len bs). split; [|done]. by apply (steady_safe _ _ updated). }
  intros [] t' (f' & -> & Hopen). cbn [t_root t_tables] in *. specialize (Hserve f' Hopen). specialize (Hframe f').
  destruct (_ || _); [|by apply mwp_ret].
  eapply mwp_mono; [apply (mwp_compactLevels b _ _ bs Hserve)| |].
  - done.
  - cbn [with_memtable with_manifest e_manifest]. lia.
  - lia.
  - cbn [with_memtable with_manifest e_manifest]. lia.
  - intros [] e' t' (Hs' & Hf' & _). split; [done|]. by apply (frame_trans _ _ _ _ _ _ Hframe).
  - intros e' t' [Hsafe Hf']. split; [done|]. by apply (frame_trans _ _ _ _ _ _ Hframe).
Qed.
End flushing.
