(* ===== verification/ApplySafe.v ===== *)
(** [Apply] against any file system behaviour: an acknowledged batch is served
    and durable, a refused one changes nothing, and after a failure the
    directory holds the batches before it, or these and the failed one. *)

From Stdlib Require Import ZArith Lia.
From stdpp Require Import base list gmap.
From S2P Require Import Prelude EngineOps Fs Wal WalLog Sst View Manifest Tree Publish Lsm Engine PublishSafe OpenManifest WalCheckpoint Compact Contents Members Running FlushLog FlushSafe.

Local Open Scope Z_scope.

(** ** One more batch *)

Lemma upto_lsn_app bs k n : n <= len bs -> upto_lsn n (bs ++ k) = upto_lsn n bs.
Proof. intros Hn. unfold upto_lsn. apply take_app_le. unfold len in *. lia. Qed.

Lemma past_lsn_app bs k n : n <= len bs -> past_lsn n (bs ++ k) = past_lsn n bs ++ k.
Proof. intros Hn. unfold past_lsn. apply drop_app_le. unfold len in *. lia. Qed.

Lemma supports_app opts h m bs k : flushedLSN m <= len bs -> supports opts h m bs -> supports opts h m (bs ++ k).
Proof. intros Hf (t0 & t1 & H1 & H2). exists t0, t1. by rewrite upto_lsn_app. Qed.

Section append.
Context (opts : Options) (bs : list (list operation)) (l : list operation).

Lemma log_holds_next s l0 L segs f : log_ok opts s l0 segs -> segs <> [] -> l0 <= L -> l0 <= len bs -> or_next (past_lsn l0 bs) l (batches segs) ->
  after_crash opts s l0 segs f -> exists x, or_next bs l x /\ log_holds opts x L f.
Proof.
  intros H1 H2 H3 H4 [E|E] H5; [exists bs; split; [by left|]|exists (bs ++ [l]); split; [by right|]]; left; exists s, l0, segs; split_and!; try done.
  - rewrite len_app. pose proof (len_nonneg [l]). lia.
  - by rewrite past_lsn_app.
Qed.

Lemma ewp_append w L t : log_open opts w bs L (t_wal t) -> canonical opts l -> wal_seg w + 2 < max_uint64 -> len bs + 1 < max_uint64 ->
  ewp true (in_wal (appendFrame opts w (frame_bytes (len bs + 1) l (ops_size l)) (len bs + 1)))
    (fun w' t' => exists f, t' = mkTree (t_root t) (t_tables t) f /\ log_open opts w' (bs ++ [l]) L f /\ wal_seg w' <= wal_seg w + 1)
    (fun t' => exists f, t' = mkTree (t_root t) (t_tables t) f /\ log_safe opts f (or_next bs l) L) t.
Proof.
  intros (s & l0 & segs & Hlog & Ho & HL & Hb & Hbs & Hf) Hc Hseg Hmax. pose proof Hlog as [_ _ [Hs1 Hs2] [Hl1 Hl2] _ _].
  assert (wal_seg w = s + len segs - 1) as Hws.
  { destruct Ho as (init & ls & -> & ->). cbn [wal_seg]. rewrite len_app, len_cons, len_nil. lia. }
  assert (len bs + 1 = l0 + len (batches segs) + 1) as E by (rewrite Hbs, past_lsn_len; lia). rewrite E.
  eapply ewp_wal; [rewrite Hf; apply (wp_appendFrame opts s l0 segs w l); try done; lia|done| |].
  - intros w' f (segs' & H1 & H2 & H3 & H4 & ->). eexists. split; [done|]. split; [|destruct H2 as (i & x & -> & ->); cbn [wal_seg]; rewrite len_app in H4; change (len [x]) with 1 in H4; lia].
    exists s, l0, segs'. rewrite past_lsn_app, <- Hbs by done. split_and!; try done. rewrite len_app. pose proof (len_nonneg [l]). lia.
  - intros f _ Hx. eexists. split; [done|]. intros f' Hc'. destruct (Hx f' Hc') as (segs' & H1 & H2 & H3 & H4). rewrite Hbs in H3. by apply (log_holds_next s l0 L segs').
Qed.
End append.

(** ** Applying a batch *)

(** Room for one more batch, its flush and the compaction after it. *)
Definition room_to_apply (e : Engine) (bs : list (list operation)) : Prop :=
  e_lsn e + 3 < max_uint64 /\ wal_seg (e_wal e) + 5 < max_uint64 /\ generation (e_manifest e) + 2 <= max_uint64 /\
  nextSST (e_manifest e) + Z.of_nat (size (model bs)) + MaxBatchOps (e_opts e) + 2 < max_uint64.

Lemma size_apply_to m o : (size (apply_to m o) <= S (size m))%nat.
Proof.
  unfold apply_to. case_bool_decide; [|rewrite map_size_insert; destruct (m !! op_key o); unfold id; lia].
  rewrite map_size_delete. destruct (m !! op_key o); unfold id; lia.
Qed.

Lemma size_apply_batch l m : Z.of_nat (size (apply_batch m l)) <= Z.of_nat (size m) + len l.
Proof.
  revert m. induction l as [|o l IH]; intros m; [unfold len; cbn; lia|]. rewrite len_cons.
  change (apply_batch m (o :: l)) with (apply_batch (apply_to m o) l). specialize (IH (apply_to m o)). pose proof (size_apply_to m o). lia.
Qed.

(** The batch the input holds, in key order. *)
Definition batch_ops (input : apply_input) : list operation :=
  match batchValue input with Ok b => sort_by op_key (ops b) | Fail _ => [] end.

(** What [Apply] of the input may leave. *)
Definition appended (e : Engine) (t : tree) (bs : list (list operation)) (l : list operation) (e' : Engine) (t' : tree) : Prop :=
  serving e' t' (bs ++ [l]) /\ canonical (e_opts e) l /\ e_opts e' = e_opts e /\ e_manifest e' = e_manifest e /\ t_tables t' = t_tables t /\
  e_pins e' = e_pins e /\ e_closed e' = e_closed e /\ e_poisoned e' = e_poisoned e /\ wal_seg (e_wal e') <= wal_seg (e_wal e) + 1.

Definition refused (e : Engine) (t : tree) (e' : Engine) (t' : tree) : Prop := e' = e /\ t' = t.
Definition poisoned (e : Engine) (t : tree) (bs : list (list operation)) (l : list operation) (e' : Engine) (t' : tree) : Prop :=
  is_Some (e_poisoned e') /\ e_closed e' = e_closed e /\ e_opts e' = e_opts e /\ e_pins e' = e_pins e /\ secures (e_opts e) t' (or_next bs l) /\
  (e_pins e <> 0 -> kept (e_opts e) (nextSST (e_manifest e)) (t_tables t) (t_tables t')).

Section apply.
Context (e : Engine) (t : tree) (bs : list (list operation)) (Hs : serving e t bs) (Hroom : room_to_apply e bs).

Lemma mwp_poison {A} (m : em A) Q X e0 t0 : mwp true m Q (fun e' t' => forall err, X (with_poison e' err) t') e0 t0 -> mwp true (or_poison m) Q X e0 t0.
Proof. intros H s Hs'. specialize (H s Hs'). unfold or_poison. destruct (m e0 t0 s) as [[[[a|er] e'] t'] s']; [done|]. apply H. Qed.

Lemma appended_serving w l f active n : canonical (e_opts e) l -> log_open (e_opts e) w (bs ++ [l]) (flushedLSN (e_manifest e)) f ->
  active = fold_left remember l (e_active e) -> wal_seg w <= wal_seg (e_wal e) + 1 ->
  appended e t bs l (with_memtable (with_wal e w) (len bs + 1) active n) (mkTree (t_root t) (t_tables t) f).
Proof.
  intros Hc Hl -> Hw. pose proof Hs as [Hcf Hr Ht Hf _ Hlsn Ha Hn]. split_and!; try done.
  assert (len (bs ++ [l]) = len bs + 1) as Hlen by (rewrite len_app; done).
  split; try done; cbn [with_memtable with_wal e_manifest e_lsn e_active e_opts t_tables]; rewrite ?Hlen; [apply supports_app; [lia|done]|lia|].
  rewrite past_lsn_app, memtable_snoc by lia. by rewrite Ha.
Qed.

Lemma mwp_append input :
  mwp true (apply_append input) (fun n e' t' => n = len bs + 1 /\ appended e t bs (batch_ops input) e' t')
    (fun e' t' => refused e t e' t' \/ poisoned e t bs (batch_ops input) e' t') e t.
Proof.
  assert (refused e t e t) as Href by done. destruct Hroom as (R1 & R2 & R3 & R4). pose proof Hs as [Hcf Hr Ht Hf Hl Hlsn Ha Hn].
  unfold apply_append. apply mwp_bind, mwp_get. apply mwp_bind, mwp_io, ewp_lift. destruct (Engine_stateErr e) as [[]|?]; [|by left].
  apply mwp_bind, mwp_io, ewp_lift. unfold batch_ops. destruct (batchValue input) as [batch|?]; [|by left].
  apply mwp_bind, mwp_io, ewp_fail_if; [by left|intros _]. apply mwp_bind, mwp_io, ewp_lift.
  destruct (canonicalOperations (Some batch) (e_opts e)) as [[l n]|?] eqn:Hc; [|by left]. apply canonicalOperations_Ok in Hc as (_ & El & _).
  apply mwp_bind, mwp_io, ewp_lift. unfold cloneMemtable. destruct (applyToMemtable _ _ _ _) as [[active used]|?] eqn:Hm; [|by left].
  apply applyToMemtable_valid in Hm as [_ Hm]. apply (f_equal fst) in Hm. cbn [fst] in Hm. rewrite put_entries in Hm.
  apply mwp_bind, mwp_io, ewp_lift. pose proof (len_nonneg bs). rewrite Hlsn.
  assert (uint64 (len bs + 1) = len bs + 1) as -> by (unfold uint64, max_uint64 in *; rewrite Z.mod_small; lia).
  destruct (encodeFrame _ _ _) as [[frame fl]|?] eqn:He; [|by left]. apply encodeFrame_Ok in He as (Hc & -> & ->). rewrite <- El in *.
  apply mwp_bind, mwp_poison, mwp_io. eapply ewp_mono; [apply (ewp_append (e_opts e) bs l (e_wal e) (flushedLSN (e_manifest e))); [done|done|lia|lia]| |].
  - intros w t' (f & -> & Hopen & Hw). apply mwp_bind, mwp_put, mwp_ret. split; [done|]. by apply appended_serving.
  - intros t' (f & -> & Hsafe) err. right. split; [by exists err|]. do 3 (split; [done|]). split; [|intros _; apply kept_refl]. apply (safe_secures _ _ (or_next bs l)); [|done]. exists (flushedLSN (e_manifest e)). split; [|done].
    intros r Hcr. exists (e_manifest e). split; [by apply (steady_crash (e_opts e) (t_root t))|]. split; [lia|]. intros x [-> | ->]; [split; [lia|done]|].
    split; [rewrite len_app; pose proof (len_nonneg [l]); lia|]. apply supports_app; [lia|done].
Qed.

(** The flush after the batch. *)
Lemma mwp_apply_flush l e1 t1 : appended e t bs l e1 t1 ->
  mwp true apply_flush (fun _ e' t' => serving e' t' (bs ++ [l]) /\ frame e1 t1 e' t') (fun e' t' => poisoned e t bs l e' t') e1 t1.
Proof.
  intros (Hs1 & Hc & Eo & Em & Et & Ep & Ecl & Epo & Hw). destruct Hroom as (R1 & R2 & R3 & R4). unfold apply_flush. apply mwp_bind, mwp_get.
  destruct (_ <=? _); [|apply mwp_ret; split; [done|apply frame_refl]]. apply mwp_poison.
  assert (room e1 (Z.of_nat (size (model (bs ++ [l]))))) as Hr1.
  { rewrite model_app. cbn [fold_left]. pose proof (size_apply_batch l (model bs)) as Hsz. destruct Hc as [((_ & Hlen) & _) _].
    pose proof (sv_lsn _ _ _ Hs1) as El. rewrite len_app in El. change (len [l]) with 1 in El. pose proof (sv_lsn _ _ _ Hs).
    unfold room. rewrite Em. split_and!; lia. }
  eapply mwp_mono; [apply (mwp_flushActive true e1 t1 _ Hs1 Hr1)|done|]. intros e' t' [Hsafe [F1 F2 F3 F4 F5 F6 F7 F8]] err.
  split; [by exists err|]. cbn [with_poison e_closed e_opts e_pins]. do 3 (split; [congruence|]). split.
  - rewrite <- Eo. apply (safe_secures _ _ (fun x => x = bs ++ [l])); [done|]. intros x ->. by right.
  - intros Hp. rewrite <- Eo, <- Em, <- Et. apply F8. congruence.
Qed.

(** What [Apply] answers and leaves. *)
Definition applied (input : apply_input) (r : result engine_error Z) (e' : Engine) (t' : tree) : Prop :=
  match r with
  | Ok n => n = len bs + 1 /\ serving e' t' (bs ++ [batch_ops input]) /\ e_closed e' = e_closed e /\ e_poisoned e' = e_poisoned e /\
      e_opts e' = e_opts e /\ e_pins e' = e_pins e /\ nextSST (e_manifest e) <= nextSST (e_manifest e') /\
      (e_pins e <> 0 -> kept (e_opts e) (nextSST (e_manifest e)) (t_tables t) (t_tables t'))
  | Fail _ => refused e t e' t' \/ poisoned e t bs (batch_ops input) e' t'
  end.

Lemma Apply_outcome input s : let '((r, _), e', t', _) := Apply input e t s in applied input r e' t'.
Proof.
  unfold Apply. pose proof (mwp_append input s) as Ha. destruct (apply_append input e t s) as [[[[n|err] e1] t1] s1]; [|by apply Ha].
  destruct Ha as [[-> Happ] _]; [done|]. pose proof (mwp_apply_flush _ e1 t1 Happ s1) as Hf.
  destruct (apply_flush e1 t1 s1) as [[[[[]|err] e2] t2] s2]; [|right; by apply Hf]. destruct Hf as [[Hs2 [F1 F2 F3 F4 F5 F6 F7 F8]] _]; [done|].
  destruct Happ as (_ & _ & Eo & Em & Et & Ep & Ecl & Epo & _). cbn [applied]. rewrite Em, Et, Ep, Eo in *. split_and!; try done; congruence.
Qed.
End apply.
