(* ===== verification/OpenSafe.v ===== *)
(** [Open] on a directory a process left behind: it serves exactly the batches
    the directory holds, or fails and leaves them there. *)

From Stdlib Require Import ZArith Lia.
From stdpp Require Import base list gmap.
From S2P Require Import Prelude EngineOps Fs Wal WalLog Sst View Manifest Tree Publish Lsm Engine PublishSafe OpenManifest WalCheckpoint Compact Contents Members Running FlushLog FlushSafe.

Local Open Scope Z_scope.

(** ** The lock file *)

Lemma lock_not_manifest : ~ is_manifest lockName.
Proof. intros [r E]%is_manifest_head. discriminate E. Qed.

Definition of_manifest (n : bytes) : Prop := n = currentName \/ is_manifest n.

Lemma lock_other n : of_manifest n -> n <> lockName.
Proof. intros [-> | Hn]; [discriminate|]. intros ->. by apply lock_not_manifest. Qed.

(** The same manifests and CURRENT. *)
Definition same_names (r r' : gmap bytes hfile) : Prop := forall n, of_manifest n -> r' !! n = r !! n.

Lemma names_same opts r r' m : same_names r r' -> names_manifest opts r m -> names_manifest opts r' m.
Proof.
  intros Hs Hn. assert (forall n, is_manifest n -> r' !! n = r !! n) as Hm by (intros n ?; apply Hs; by right).
  assert (r' !! currentName = r !! currentName) as Hc by (apply Hs; by left).
  destruct Hn as [E H1 H2|data He H1 H2|data He H1 H2 H3].
  - apply nm_fresh; [done|by rewrite Hc|]. intros n Hi. rewrite Hm by done. by apply H2.
  - apply (nm_current _ _ _ data); [done|by rewrite Hc|]. rewrite Hm; [done|]. apply manifestName_is. by destruct He as [[] _].
  - apply (nm_highest _ _ _ data); [done|by rewrite Hc| |].
    + rewrite Hm; [done|]. apply manifestName_is. by destruct He as [[] _].
    + intros n Hi Hl. apply H3; [done|]. by rewrite <- Hm.
Qed.

(** A crash after a change of one name is a crash before it but for that name. *)
Lemma hcrash_other o name h r : hcrash (change (partial_alter (fun _ => o) name) h) r ->
  exists r', hcrash h r' /\ forall n, n <> name -> now r' !! n = now r !! n.
Proof.
  intros [Hp Hc]. exists (mkH (partial_alter (fun _ => (fun f => mkF (f_data f) true) <$> now h !! name) name (now r)) []). split; [split; [done|]|].
  - intros n. cbn [now]. destruct (decide (n = name)) as [->|Hne].
    + exists (now h !! name). split; [apply may_be_now|]. rewrite lookup_partial_alter_eq. by destruct (now h !! name).
    + destruct (Hc n) as (o' & Ho & Hs). rewrite lookup_partial_alter_ne by done. exists o'. split; [|done].
      apply may_be_change in Ho as [->|Ho]; [|done]. rewrite lookup_partial_alter_ne by done. apply may_be_now.
  - intros n Hne. cbn [now]. by rewrite lookup_partial_alter_ne.
Qed.

Section lock.
Context (opts : Options) (B : list (list operation) -> Prop).

Lemma safe_lock o t : safe opts t B -> safe opts (set_dir Root (change (partial_alter (fun _ => o) lockName) (t_root t)) t) B.
Proof.
  intros (L & Hr & Hl). exists L. split; [|done]. intros r Hc. apply hcrash_other in Hc as (r' & Hc & Hn). destruct (Hr r' Hc) as (m & Hm & HB).
  exists m. split; [|done]. apply (names_same _ (now r')); [|done]. intros n Hof. symmetry. apply Hn. by apply lock_other.
Qed.

Lemma calm_lock o h : calm h -> calm (change (partial_alter (fun _ => o) lockName) h).
Proof.
  intros Hc n x Hof [->|Hx]%may_be_change; [done|]. cbn [change now]. rewrite lookup_partial_alter_ne by (apply not_eq_sym; by apply lock_other). by apply Hc.
Qed.

(** Removing the lock file. *)
Lemma ewp_remove_lock b t : safe opts t B -> ewp b (e_Remove Root lockName) (fun _ t' => safe opts t' B) (fun t' => b = true /\ safe opts t' B) t.
Proof. intros Hs. apply ewp_bind, ewp_call; [done|]. apply ewp_update. by apply (safe_lock None). Qed.

Lemma ewp_releaseLock b flock created t : safe opts t B -> ewp b (releaseLock flock created) (fun _ t' => safe opts t' B) (fun t' => safe opts t' B) t.
Proof.
  intros Hs. assert (forall (c : bool) s, (b = false -> s = []) -> let '(_, t', s') := (if c then e_call else mret tt) t s in t' = t /\ (b = false -> s' = [])) as Hcall.
  { intros [] s Hb; [|done]. unfold e_call, e_respond, mbind, eio_bind. destruct s as [|r s]; [done|]. cbn. destruct (r_err r); cbn; (split; [done|]); intros ->; by discriminate Hb. }
  intros s Hb. unfold releaseLock. specialize (Hcall flock s Hb) as H1. destruct ((if flock then e_call else mret tt) t s) as [[r1 t1] s1]. destruct H1 as [-> Hb1].
  specialize (Hcall true s1 Hb1) as H2. unfold e_Close. destruct (e_call t s1) as [[r2 t2] s2]. destruct H2 as [-> Hb2].
  assert (forall s, (b = false -> s = []) -> let '(_, t', s') := (if created then e_Remove Root lockName else mret tt) t s in safe opts t' B /\ (b = false -> s' = [])) as H3.
  { destruct created; [|done]. clear -Hs. intros s Hb. unfold e_Remove, e_call, e_respond, mbind, eio_bind. destruct s as [|r s]; cbn.
    - split; [|done]. by apply (safe_lock None).
    - destruct (r_err r); cbn; (split; [|intros ->; by discriminate Hb]); [done|by apply (safe_lock None)]. }
  specialize (H3 s2 Hb2). destruct ((if created then e_Remove Root lockName else mret tt) t s2) as [[r3 t3] s3]. destruct H3 as [H3 Hb3].
  destruct r1 as [[]|], r2 as [[]|], r3 as [[]|]; done.
Qed.
End lock.

(** The lock is taken, or somebody else holds it. *)
Lemma ewp_acquireLock b h opts B t : safe opts t B -> calm (t_root t) ->
  ewp b (acquireLock h) (fun _ t' => safe opts t' B /\ exists r, t' = set_dir Root r t /\ calm r /\ same_names (now (t_root t)) (now r)) (fun t' => safe opts t' B) t.
Proof.
  intros Hs Hc. unfold acquireLock. apply ewp_bind, ewp_wrap, ewp_call; [done|]. apply ewp_bind, ewp_get. cbn [dir_at].
  assert (safe opts t B /\ exists r, t = set_dir Root r t /\ calm r /\ same_names (now (t_root t)) (now r)) as Hstay.
  { split; [done|]. exists (t_root t). split; [by destruct t|]. by split. }
  assert (forall t', safe opts t' B -> ewp b (e_ignore e_Close) (fun _ t1 => safe opts t1 B) (fun t1 => safe opts t1 B) t') as Hclose.
  { intros t' Ht'. apply ewp_ignore. apply ewp_call; [done|done]. }
  destruct (now (t_root t) !! lockName) as [f|] eqn:E.
  - destruct (h_lockable h); [destruct (h_tryLock h) as [busy|]; [|by apply ewp_ret]|];
      (apply ewp_bind; eapply ewp_mono; [by apply Hclose| |done]); intros [] t' Ht'; by apply ewp_lift.
  - set (t1 := set_dir Root (change (insert lockName (mkF [] false)) (t_root t)) t). pose proof (safe_lock opts B (Some (mkF [] false)) t Hs) as Hs1. fold t1 in Hs1.
    assert (safe opts t1 B /\ exists r, t1 = set_dir Root r t /\ calm r /\ same_names (now (t_root t)) (now r)) as Hmade.
    { split; [done|]. eexists. split; [done|]. split; [by apply (calm_lock (Some _))|]. intros n Hn. cbn [change now].
      rewrite lookup_insert_ne by (apply not_eq_sym; by apply lock_other). done. }
    apply ewp_bind, ewp_wrap. eapply (ewp_mono b _ (fun _ t' => t' = t1) _ (fun t' => t' = t)); [|intros [] t' ->|by intros t' ->].
    { apply ewp_bind, ewp_call; [done|]. apply ewp_bind, ewp_get. cbn [dir_at]. rewrite E. by apply ewp_put. }
    destruct (h_lockable h); [|by apply ewp_ret]. destruct (h_tryLock h) as [busy|]; [|by apply ewp_ret].
    apply ewp_bind. eapply ewp_mono; [by apply Hclose| |done]. intros [] t2 H2. apply ewp_bind, ewp_ignore.
    eapply ewp_mono; [by apply (ewp_remove_lock opts B b)|intros [] t3 H3; by apply ewp_lift|]. intros t3 [-> H3]. split; [done|by apply ewp_lift].
Qed.

(** ** What is found *)

Lemma after_crash_synced opts s l segs f : after_crash opts s l segs f -> all_synced f.
Proof.
  intros [|init ls torn _ _ _|h _ _]; [apply log_files_synced|..]; intros n w [[_ <-]|[_ Hw]]%lookup_insert_Some; try done; by apply log_files_synced in Hw.
Qed.

Lemma stopped_safe opts t bs : stopped opts t bs -> safe opts t (fun x => x = bs).
Proof.
  intros (m & L & Hc & Hn & HL & Hsup & Hlog). exists L. split.
  - intros r Hcr. exists m. destruct (names_turning opts t m Hc Hn r Hcr) as [Hm|Hm]; (split; [done|]); (split; [lia|]); intros x ->; (split; [lia|done]).
  - intros f' Hf. exists bs. split; [done|]. enough (f' = t_wal t) as -> by done. apply crash_all_synced; [|done].
    destruct Hlog as [(s & l & segs & _ & _ & _ & _ & _ & Hac)|[-> _]]; [by apply after_crash_synced in Hac|]. by intros n w Hw%lookup_empty_Some.
Qed.

Lemma supports_files opts h m bs : supports opts h m bs -> exists ls, Forall2 (file_held opts h) (mf_files m) ls.
Proof.
  intros (t0 & t1 & [H0 H1 _ Hm _] & _). exists (t0 ++ t1). destruct (members_levels _ _ Hm) as [E _]. rewrite E. by apply Forall2_app.
Qed.

(** Opening the log gives the batches after the checkpoint. *)
Lemma open_log opts bs L f flushed : config_ok opts -> log_holds opts bs L f -> L <= flushed <= len bs -> len bs + 1 < max_uint64 -> 0 <= flushed ->
  exists w st f', openWAL opts (Some emptyState) flushed (mkDir f []) = (Ok (w, st, len bs), mkDir f' []) /\
    log_open opts w bs flushed f' /\ entriesMap st = memtable ∅ (past_lsn flushed bs) /\
    (wal_seg w = 1 \/ exists x, f !! segmentName (wal_seg w) = Some x).
Proof.
  intros [Ho Hcnt _ _] [(s & l & segs & Hlog & Hne & HL & Hb & Hbs & Hac)|[-> ->]] Hf Hmax H0.
  - pose proof Hlog as [_ _ [Hs1 Hs2] [Hl1 Hl2] Hok _]. assert (len (batches segs) = len bs - l) as Hlen by (rewrite Hbs, past_lsn_len; lia).
    destruct (openWAL_after_crash opts flushed s l segs Hlog) with (m := f) (st := emptyState) as (w & Hopen & Hrun); [lia|done|done|].
    exists w, (replay flushed (l + 1) (batches segs) emptyState), (log_files s l segs). rewrite Hrun. split; [by replace (l + len (batches segs)) with (len bs) by lia|].
    split; [exists s, l, segs; split_and!; try done; lia|]. split.
    + rewrite (replay_memtable opts); [|apply Forall_concat; eapply Forall_impl; [exact Hok|]; by intros ls [? _]|lia].
      rewrite Hbs. replace (flushed - (l + 1 - 1)) with (flushed - l) by lia. rewrite past_lsn_drop by lia. by replace (l + (flushed - l)) with flushed by lia.
    + right. destruct Hopen as (init & ls & -> & ->). cbn [wal_seg]. rewrite len_app in Hs2. change (len [ls]) with 1 in Hs2. pose proof (len_nonneg init).
      assert (is_Some (log_files s l (init ++ [ls]) !! segmentName (s + len init))) as [x Hx] by (rewrite log_files_snoc, lookup_insert_eq by lia; by eexists).
      destruct Hac as [|init' ls' torn E _ _|h _ _]; [by exists x|..]; [apply app_inj_tail in E as [<- <-]; rewrite lookup_insert_eq; by eexists|].
      destruct (decide (segmentName (s + len (init ++ [ls])) = segmentName (s + len init))) as [E|E]; [rewrite E, lookup_insert_eq; by eexists|].
      rewrite lookup_insert_ne by done. by exists x.
  - assert (flushed = 0) as -> by (unfold len in *; cbn in *; lia).
    exists (mkWal (Some (segmentName 1)) 1 segmentHeaderLen false), emptyState, (log_files 1 0 [[]]). split; [done|]. split; [|split; [done|by left]].
    exists 1, 0, [[]]. split; [apply log_ok_fresh; [done|done|unfold max_uint64; lia]|]. split; [by exists [], []|]. split_and!; done || lia.
Qed.

(** ** Opening *)

Lemma ewp_wal_run {A} (m : io A) a f Q X t : m (mkDir (t_wal t) []) = (Ok a, mkDir f []) -> Q a (mkTree (t_root t) (t_tables t) f) -> ewp false (in_wal m) Q X t.
Proof. intros E HQ s Hs. rewrite (Hs eq_refl). unfold in_wal. by rewrite E. Qed.

Lemma in_wal_close w t s : let '(_, t', _) := in_wal (snd (wal_close w)) t s in t' = t.
Proof.
  unfold in_wal, wal_close. destruct (wal_closed w); [by destruct t|]. cbn [snd]. destruct (wal_file w); [|by destruct t].
  unfold Close, call, respond, mbind, io_bind. destruct s as [|x s]; [by destruct t|]. cbn. by destruct (r_err x), t.
Qed.

(** Room for a checkpoint of what is found. *)
Definition roomy (opts : Options) (t : tree) (bs : list (list operation)) : Prop :=
  len bs + 2 < max_uint64 /\
  (forall m, names_manifest opts (now (t_root t)) m ->
     generation m + 2 <= max_uint64 /\ nextSST (reopened m) + Z.of_nat (size (model bs)) + 2 < max_uint64) /\
  (forall s x, t_wal t !! segmentName s = Some x -> s + 4 < max_uint64).

Section opening.
Context (opts : Options) (Hconfig : config_ok opts) (bs : list (list operation)).

(** The engine [Open] makes before the checkpoint. *)
Lemma opened_serving w m r h f flock created active : log_open opts w bs (flushedLSN m) f -> steady opts r (reopened m) ->
  supports opts h m bs -> 0 <= flushedLSN m <= len bs -> active = memtable ∅ (past_lsn (flushedLSN m) bs) ->
  serving (mkEngine opts w (len bs) active (memtableBytes active) (reopened m) 0 [] flock created false None 0) (mkTree r h f) bs.
Proof.
  intros Hl Hr Hsup Hf Ha. split; try done. destruct Hsup as (t0 & t1 & [_ _ _ Hm _] & _). destruct (reopened_numbers opts m Hm) as [[? _] ?]. done.
Qed.

(** The checkpoint; on failure the log file is closed. *)
Lemma ewp_open_checkpoint e t : e_opts e = opts -> serving e t bs -> e_closed e = false -> e_poisoned e = None -> room e (Z.of_nat (size (model bs))) ->
  ewp false (open_checkpoint e) (fun e' t' => running e' t' bs /\ e_opts e' = opts) (fun t' => safe opts t' (fun x => x = bs)) t.
Proof.
  intros Eo Hs Hcl Hpo Hroom s Hb. rewrite (Hb eq_refl). unfold open_checkpoint.
  assert (mwp false (checkpoint true) (fun _ e' t' => serving e' t' bs /\ frame e t e' t') (fun e' t' => safe opts t' (fun x => x = bs)) e t) as Hck.
  { unfold checkpoint. apply mwp_bind, mwp_get. cbn [negb andb]. case_bool_decide; [apply mwp_ret; split; [done|apply frame_refl]|].
    eapply mwp_mono; [by apply (mwp_flushActive false e t bs)|done|]. intros e' t' [Hsafe _]. by rewrite <- Eo. }
  specialize (Hck [] (fun _ => eq_refl)). destruct (checkpoint true e t []) as [[[[[]|err] e'] t'] s'].
  - destruct Hck as [[Hs' [F1 F2 F3 F4 F5 F6 F7 F8]] Hs'']. split; [|done]. split; [split; [done|split; congruence]|congruence].
  - pose proof (in_wal_close (e_wal e') t' s') as Hclose. destruct (in_wal (snd (wal_close (e_wal e'))) t' s') as [[r t2] s2]. by subst t2.
Qed.

Lemma open_manifest_part r t m L : calm r -> names_manifest opts (now r) m -> L <= flushedLSN m <= len bs -> 0 <= flushedLSN m -> supports opts (t_tables t) m bs ->
  log_holds opts bs L (t_wal t) -> roomy opts t bs -> same_names (now (t_root t)) (now r) -> forall flock created,
  ewp false (m ← openManifest opts;
        '(w, recovered, lsn) ← in_wal (openWAL opts (Some emptyState) (flushedLSN m));
        let active := entriesMap recovered in
        let e := mkEngine opts w lsn active (memtableBytes active) m 0 [] flock created false None 0 in
        if bool_decide (active = ∅) then mret e else open_checkpoint e)
    (fun e' t' => running e' t' bs /\ e_opts e' = opts) (fun t' => safe opts t' (fun x => x = bs)) (set_dir Root r t).
Proof.
  intros Hc Hn HL H0 Hsup Hlog (R1 & R2 & R3) Hsame flock created. destruct (supports_files _ _ _ _ Hsup) as [ls Hls]. pose proof Hconfig as [Ho _ Hfi Hby].
  destruct (R2 m) as [Rg Rn]; [apply (names_same _ (now r)); [|done]; intros n Hof; symmetry; by apply Hsame|].
  apply ewp_bind. eapply ewp_mono; [apply (ewp_openManifest opts Ho Hfi Hby false (set_dir Root r t) m ls); try done; by eapply supports_proper| |by intros t' [? _]].
  intros m' t' (-> & hr & ht & -> & Hsteady & Hshr). cbn [set_dir t_tables t_wal] in *. apply (supports_shrunk opts) with (m := m) (bs := bs) in Hshr; [|done].
  cbn [flushedLSN reopened]. destruct (open_log opts bs L (t_wal t) (flushedLSN m) Hconfig Hlog) as (w & st & f' & Hrun & Hopen & Hact & Hseg); [lia|lia|done|].
  apply ewp_bind. eapply ewp_wal_run; [exact Hrun|]. cbn [t_root t_tables]. pose proof (opened_serving w m hr ht f' flock created (entriesMap st) Hopen Hsteady Hshr) as Hserve.
  specialize (Hserve ltac:(lia) Hact). case_bool_decide; [by apply ewp_ret|]. apply ewp_open_checkpoint; try done.
  pose proof (len_nonneg bs). split_and!; cbn [e_lsn e_wal e_manifest reopened generation]; [lia| |lia|lia].
  destruct Hseg as [-> |[x Hx]]; [unfold max_uint64; lia|]. by apply (R3 _ x).
Qed.

Lemma names_flushed m r : names_manifest opts r m -> 0 <= flushedLSN m.
Proof. by intros [-> _ _|data [[_ [? _] _ _] _] _ _|data [[_ [? _] _ _] _] _ _ _]. Qed.

Lemma ewp_open_engine h t : stopped opts t bs -> roomy opts t bs ->
  ewp false (open_engine h opts) (fun e' t' => running e' t' bs /\ e_opts e' = opts) (fun t' => safe opts t' (fun x => x = bs)) t.
Proof.
  intros Hst Hroom. pose proof (stopped_safe _ _ _ Hst) as Hsafe. pose proof Hst as (m & L & Hc & Hn & HL & Hsup & Hlog). pose proof (names_flushed _ _ Hn) as H0.
  unfold open_engine. apply ewp_bind, ewp_ensureDirectory; [done|].
  set (t1 := set_dir Root (settle (t_root t)) t). assert (stopped opts t1 bs) as Hst1.
  { exists m, L. split; [by apply settled_calm|]. done. }
  apply ewp_bind. replace t with (set_dir Root (t_root t) t) at 1 by (by destruct t). apply ewp_syncDirectory; [|done]. fold t1.
  apply ewp_bind. eapply ewp_mono; [apply (ewp_acquireLock false h opts (fun x => x = bs) t1); [by apply stopped_safe|by apply settled_calm]| |done].
  intros [flock created] t2 (Hs2 & r & -> & Hcr & Hsame). apply ewp_or with (X' := fun t' => safe opts t' (fun x => x = bs)).
  - apply (open_manifest_part r t1 m L); try done. apply (names_same _ (now (t_root t))); [|done]. done.
  - intros t' Ht'. eapply ewp_mono; [by apply (ewp_releaseLock opts (fun x => x = bs) true)|done|done].
Qed.
End opening.
