(* ===== verification/EngineReads.v ===== *)
(** Reads of a running engine and of its snapshots: they answer from the map
    the acknowledged batches lead to. *)

From Stdlib Require Import ZArith Lia.
From stdpp Require Import base list gmap.
From S2P Require Import Prelude EngineOps Fs Wal WalLog Sst View Manifest Tree Publish Lsm Engine PublishSafe OpenManifest WalCheckpoint Compact Contents Members Running FlushLog FlushSafe.

Local Open Scope Z_scope.

(** ** Answers by the map *)

Definition map_get (m : gmap bytes bytes) (key : bytes) : result engine_error bytes :=
  match m !! key with Some v => Ok v | None => Fail ErrNotFound end.

Definition from_key (start : option bytes) (k : bytes) : bool := match start with None => true | Some s => ble s k end.

(** The pairs of the range in key order. *)
Definition map_range (start end_ : option bytes) (m : gmap bytes bytes) : list Entry :=
  sort_by kv_key (map (fun p => mkKV (fst p) (snd p)) (map_to_list (filter (fun p => from_key start (fst p) && before end_ (fst p) = true) m))).

(** A bounded scan of the map. *)
Definition map_scan (opts : Options) (m : gmap bytes bytes) (start end_ : option bytes) (limit : Z) : result engine_error (list Entry * option engine_error) :=
  fail_if ((limit <=? 0) || (MaxScanItems opts <? limit)) ErrInvalidLimit;;
  validateRange opts start end_;;
  Ok (take (Z.to_nat limit) (map_range start end_ m), None).

Lemma map_range_elem start end_ m x :
  x ∈ map_range start end_ m <-> m !! kv_key x = Some (kv_value x) /\ from_key start (kv_key x) = true /\ before end_ (kv_key x) = true.
Proof.
  unfold map_range. rewrite (sort_by_perm _ _), list_elem_of_fmap. split.
  - intros ([k v] & -> & Hp%elem_of_map_to_list). apply map_lookup_filter_Some in Hp as [Hl [? ?]%andb_true_iff]. done.
  - intros (Hl & H1 & H2). exists (kv_key x, kv_value x). split; [by destruct x|]. apply elem_of_map_to_list, map_lookup_filter_Some. split; [done|]. cbn. by rewrite H1, H2.
Qed.

Lemma map_range_increasing start end_ m : keys_increasing (map kv_key (map_range start end_ m)) = true.
Proof.
  apply sort_by_increasing. rewrite map_map. cbn [kv_key]. apply NoDup_fst_map_to_list.
Qed.

Lemma increasing_same_elems (a b : list Entry) : keys_increasing (map kv_key a) = true -> keys_increasing (map kv_key b) = true ->
  (forall x, x ∈ a <-> x ∈ b) -> a = b.
Proof.
  intros Ha Hb Hi. apply (increasing_perm_unique kv_key); [|done|done].
  apply NoDup_Permutation; [apply (NoDup_fmap_1 kv_key); by apply (increasing_NoDup kv_key)|apply (NoDup_fmap_1 kv_key); by apply (increasing_NoDup kv_key)|done].
Qed.

Lemma starting_keyed start m : keyed m -> keyed (starting start m).
Proof. intros Hm k e He. rewrite starting_lookup in He. destruct (match start with None => true | Some s => ble s k end); [by apply Hm|done]. Qed.

Lemma range_of_map start end_ m : keyed m -> range_of start end_ m = map_range start end_ (live_of m).
Proof.
  intros Hm. assert (keyed (upto end_ (starting start m))) as Hk by (by apply upto_keyed, starting_keyed).
  apply increasing_same_elems; [|apply map_range_increasing|].
  - unfold range_of, visible. rewrite map_map. cbn [kv_of kv_key].
    apply (increasing_strongly ent_key). apply StronglySorted_filter_List, sorted_entries_sorted, Hk.
  - intros x. rewrite map_range_elem, live_of_lookup. unfold range_of, visible. rewrite list_elem_of_fmap. split.
    + intros (e & -> & [He Hl]%list_elem_of_In%List.filter_In). apply list_elem_of_In, elem_of_sorted_entries in He; [|done].
      rewrite upto_lookup, starting_lookup in He. cbn [kv_of kv_key kv_value]. unfold from_key. destruct (before end_ (ent_key e)); [|done].
      destruct (match start with None => true | Some s => ble s (ent_key e) end); [|done]. by rewrite He, Hl.
    + intros (Hl & H1 & H2). destruct (m !! kv_key x) as [e|] eqn:E; [|done]. destruct (live e) eqn:El; [|done]. apply (inj Some) in Hl.
      pose proof (Hm _ _ E) as Ek. exists e. split; [destruct x; cbn in *; by subst|]. apply list_elem_of_In, List.filter_In. split; [|done].
      apply list_elem_of_In, elem_of_sorted_entries; [done|]. rewrite upto_lookup, starting_lookup, Ek, H2. unfold from_key in H1. by rewrite H1.
Qed.

Lemma reported_live m key : reported (m !! key) = map_get (live_of m) key.
Proof. unfold reported, map_get, entry_value, live. rewrite live_of_lookup. destruct (m !! key) as [e|]; [|done]. unfold live. by destruct (bool_decide (ent_kind e = deleteOp)). Qed.

(** ** Views *)

(** A view that shows the map. *)
Definition shows (v : engineView) (m : gmap bytes bytes) : Prop :=
  exists files active t0 t1, v = newViewLocked (v_dir v) (v_opt v) active files /\ store_ok (v_opt v) (v_dir v) active files t0 t1 /\
    live_of (contents active t0 t1) = m.

Lemma contents_keyed active t0 t1 : keyed active -> keyed (contents active t0 t1).
Proof. intros Ha k e [He|[_ He]]%lookup_union_Some_raw; [by apply Ha|by apply umap_keyed in He]. Qed.

Lemma shows_get v m key : shows v m -> validateKey key (MaxKeyBytes (v_opt v)) = Ok tt -> lookupView v key = map_get m key.
Proof.
  intros (files & active & t0 & t1 & Hv & Hst & <-) Hk. rewrite Hv, <- reported_live. by apply (lookupView_ok (v_opt v) (v_dir v) active files t0 t1 Hst).
Qed.

Lemma shows_scan v m start end_ limit : shows v m -> view_Scan v start end_ limit = map_scan (v_opt v) m start end_ limit.
Proof.
  intros (files & active & t0 & t1 & Hv & Hst & <-). unfold view_Scan, newIterator, map_scan. destruct ((limit <=? 0) || _) eqn:Hl; [done|].
  cbn [fail_if mbind result_bind]. apply orb_false_iff in Hl as [Hl%Z.leb_gt _]. destruct (validateRange (v_opt v) start end_) as [[]|err] eqn:Hr.
  - rewrite Hv. destruct (newIteratorRange_ok (v_opt v) (v_dir v) active files t0 t1 Hst start end_ limit Hr) as (it & ls & -> & Hrun & Hend & Hlim & Hseen & Hvis).
    cbn [mbind result_bind]. rewrite (scan_loop_ok _ it ls) by (try done; rewrite Hlim, Hseen; lia).
    rewrite Hend, Hvis, range_of_map; [done|]. apply contents_keyed, Hst.
  - unfold newIteratorRange. by rewrite Hr.
Qed.

(** ** The engine *)

Section serving.
Context (e : Engine) (t : tree) (bs : list (list operation)) (Hs : serving e t bs).

Lemma current_shows h : kept (e_opts e) (nextSST (e_manifest e)) (t_tables t) h -> shows (current_view e h) (model bs).
Proof.
  intros Hk. pose proof Hs as [Hc _ Ht Hf _ _ Ha [_ Hn]]. destruct Ht as (t0 & t1 & [H0 H1 Hsort Hm Hp] & Hv).
  exists (mf_files (e_manifest e)), (e_active e), t0, t1. split; [done|]. split.
  - split; [apply Hc|by apply (serving_keyed e t bs)| | |done]; (eapply Forall2_impl; [by apply (kept_files _ _ _ h _ _ _ Hk Hn)|]); intros f l; apply file_held_ok.
  - unfold contents. rewrite Ha. by apply live_over.
Qed.
End serving.

Lemma Engine_Get_answer e t bs key s : running e t bs ->
  Engine_Get key e t s = (validateKey key (MaxKeyBytes (e_opts e));; map_get (model bs) key, e, t, s).
Proof.
  intros (Hs & Hcl & Hpo). unfold Engine_Get, m_get, m_io, e_lift, mbind, em_bind, Engine_stateErr. rewrite Hcl, Hpo. cbn.
  destruct (validateKey key (MaxKeyBytes (e_opts e))) as [[]|err] eqn:E; cbn; [|done].
  pose proof (current_shows e t bs Hs (t_tables t) (kept_refl _ _ _)) as Hsh. by rewrite (shows_get _ _ _ Hsh E).
Qed.

Lemma Engine_Scan_answer e t bs start end_ limit s : running e t bs ->
  Engine_Scan start end_ limit e t s = (map_scan (e_opts e) (model bs) start end_ limit, e, t, s).
Proof.
  intros (Hs & Hcl & Hpo). unfold Engine_Scan, m_get, m_io, e_lift, mbind, em_bind, Engine_stateErr. rewrite Hcl, Hpo. cbn.
  pose proof (current_shows e t bs Hs (t_tables t) (kept_refl _ _ _)) as Hsh. by rewrite (shows_scan _ _ _ _ _ Hsh).
Qed.
