(* ===== verification/EngineLife.v ===== *)
(** The storage engine as its clients see it: over any sequence of openings,
    writes, reads, closings and crashes it behaves as a log of batches that
    keeps what it acknowledged. *)

From Stdlib Require Import ZArith Lia.
From stdpp Require Import base list gmap.
From S2P Require Import Prelude EngineOps Fs Wal WalLog Sst View Manifest Tree Publish Lsm Engine PublishSafe OpenManifest WalCheckpoint Compact Contents Members Running FlushLog FlushSafe ApplySafe OpenSafe EngineReads.

Local Open Scope Z_scope.

(** ** Room in the counters *)

(** A bound on the number of keys. *)
Definition entry_bound (e : Engine) : Z :=
  Z.of_nat (size (e_active e)) + fold_right Z.add 0 (map sst_entryCount (mf_files (e_manifest e))).

Definition has_room (e : Engine) : Prop :=
  e_lsn e + 3 < max_uint64 /\ wal_seg (e_wal e) + 5 < max_uint64 /\ generation (e_manifest e) + 2 <= max_uint64 /\
  nextSST (e_manifest e) + entry_bound e + MaxBatchOps (e_opts e) + 2 < max_uint64.

Lemma size_list_keys (l : list bytes) : (size (list_to_set l : gset bytes) <= length l)%nat.
Proof.
  induction l as [|k l IH]; [done|]. cbn [list_to_set length]. rewrite size_union_alt, size_singleton.
  assert (size ((list_to_set l : gset bytes) ∖ {[k]}) <= size (list_to_set l : gset bytes))%nat by (apply subseteq_size; set_solver). lia.
Qed.

Lemma umap_dom ls k e : umap ls !! k = Some e -> k ∈ map ent_key (concat ls).
Proof.
  induction ls as [|l ls IH]; [done|]. rewrite umap_cons. cbn [concat]. rewrite map_app, elem_of_app.
  intros [H|[_ H]]%lookup_union_Some_raw; [left|right; by apply IH]. apply lmap_lookup in H as [<- He]. by apply list_elem_of_fmap_2.
Qed.

Lemma length_concat_rev (ls : list (list sstEntry)) : length (concat (rev ls)) = length (concat ls).
Proof. induction ls as [|l ls IH]; [done|]. cbn [rev concat]. rewrite concat_app, !length_app, IH. cbn. rewrite app_nil_r. lia. Qed.

Lemma size_live_bound active ls : (size (live_of (active ∪ umap ls)) <= size active + length (concat ls))%nat.
Proof.
  rewrite <- !size_dom. set (keys := map ent_key (concat ls)).
  assert (dom (live_of (active ∪ umap ls)) ⊆ dom active ∪ (list_to_set keys : gset bytes)) as Hsub.
  { intros k [v Hk]%elem_of_dom. rewrite live_of_lookup in Hk. destruct (_ !! k) as [x|] eqn:E; [|done].
    apply lookup_union_Some_raw in E as [E|[_ E]]; apply elem_of_union; [left; by apply elem_of_dom_2 in E|right]. apply elem_of_list_to_set. by apply umap_dom in E. }
  apply subseteq_size in Hsub. rewrite size_union_alt in Hsub.
  assert (size ((list_to_set keys : gset bytes) ∖ dom active) <= size (list_to_set keys : gset bytes))%nat by (apply subseteq_size; set_solver).
  pose proof (size_list_keys keys) as Hk. unfold keys in *. rewrite length_map in Hk. lia.
Qed.

Lemma model_bound e t bs : serving e t bs -> Z.of_nat (size (model bs)) <= entry_bound e.
Proof.
  intros Hs. pose proof Hs as [_ _ (t0 & t1 & [H0 H1 _ Hm _] & Hv) _ _ _ Ha _].
  assert (live_of (e_active e ∪ umap (rev t0 ++ t1)) = model bs) as Hl by (rewrite Ha; by apply live_over).
  assert (forall files ls, Forall2 (file_held (e_opts e) (t_tables t)) files ls -> fold_right Z.add 0 (map sst_entryCount files) = len (concat ls)) as Hcount.
  { induction 1 as [|f l files ls (lv & id & lsn & bl & _ & _ & -> & ->) _ IH]; [done|]. cbn [map fold_right concat]. rewrite len_app, IH. done. }
  assert (fold_right Z.add 0 (map sst_entryCount (mf_files (e_manifest e))) = len (concat (t0 ++ t1))) as Hsum.
  { destruct (members_levels _ _ Hm) as [E _]. rewrite E. apply Hcount. by apply Forall2_app. }
  unfold entry_bound. rewrite Hsum, <- Hl. pose proof (size_live_bound (e_active e) (rev t0 ++ t1)) as Hb.
  rewrite concat_app, length_app, length_concat_rev, <- length_app, <- concat_app in Hb. unfold len. lia.
Qed.

(** ** Sequences of events *)

Inductive world : Type :=
| Up (e : Engine) (t : tree)
| Down (t : tree).

Inductive event : Type :=
| EvOpen (ok : bool)
| EvApply (input : apply_input) (answer : result engine_error Z)
| EvGet (key : bytes) (answer : result engine_error bytes)
| EvScan (start end_ : option bytes) (limit : Z) (answer : result engine_error (list Entry * option engine_error))
| EvClose
| EvCrash.

Section life.
Context (dir : bytes) (o opts : Options).

(** Room to open what is left behind. *)
Definition room_below (t : tree) : Prop := forall bs, stopped opts t bs -> roomy opts t bs.

(** The program and its file system.  A process that ends leaves its directory
    to a crash, which may lose nothing.  Calls during an opening do not fail;
    those of every other operation answer by an arbitrary script, and a crash
    during an operation is a script that fails from there on. *)
Inductive cstep : world -> event -> world -> Prop :=
| c_open h t e t' s' : room_below t -> Open dir h o t [] = (Ok e, t', s') -> cstep (Down t) (EvOpen true) (Up e t')
| c_no_open h t err t' s' t'' : room_below t -> Open dir h o t [] = (Fail err, t', s') -> tree_crash t' t'' -> cstep (Down t) (EvOpen false) (Down t'')
| c_apply input s e t r sealed e' t' s' : has_room e -> Apply input e t s = ((r, sealed), e', t', s') -> cstep (Up e t) (EvApply input r) (Up e' t')
| c_get key s e t r e' t' s' : Engine_Get key e t s = (r, e', t', s') -> cstep (Up e t) (EvGet key r) (Up e' t')
| c_scan start end_ limit s e t r e' t' s' : Engine_Scan start end_ limit e t s = (r, e', t', s') -> cstep (Up e t) (EvScan start end_ limit r) (Up e' t')
| c_close closeRoot s e t r e' t' s' t'' : Engine_Close closeRoot e t s = (r, e', t', s') -> tree_crash t' t'' -> cstep (Up e t) EvClose (Down t'')
| c_crash e t t' : tree_crash t t' -> cstep (Up e t) EvCrash (Down t').

(** *** The log of batches *)

(** Serving the batches; in doubt about the last write; not running. *)
Inductive status : Type :=
| Serves (bs : list (list operation))
| InDoubt (bs : list (list operation)) (l : list operation)
| Stopped (bs : list (list operation)).

Inductive astep : status -> event -> status -> Prop :=
| a_open bs : astep (Stopped bs) (EvOpen true) (Serves bs)
| a_no_open bs : astep (Stopped bs) (EvOpen false) (Stopped bs)
| a_ack bs input : astep (Serves bs) (EvApply input (Ok (len bs + 1))) (Serves (bs ++ [batch_ops input]))
| a_refuse bs input err : astep (Serves bs) (EvApply input (Fail err)) (Serves bs)
| a_fail bs input err : astep (Serves bs) (EvApply input (Fail err)) (InDoubt bs (batch_ops input))
| a_doubt bs l input err : astep (InDoubt bs l) (EvApply input (Fail err)) (InDoubt bs l)
| a_get bs key : astep (Serves bs) (EvGet key (validateKey key (MaxKeyBytes opts);; map_get (model bs) key)) (Serves bs)
| a_no_get bs l key err : astep (InDoubt bs l) (EvGet key (Fail err)) (InDoubt bs l)
| a_scan bs start end_ limit : astep (Serves bs) (EvScan start end_ limit (map_scan opts (model bs) start end_ limit)) (Serves bs)
| a_no_scan bs l start end_ limit err : astep (InDoubt bs l) (EvScan start end_ limit (Fail err)) (InDoubt bs l)
| a_stop bs ev : ev = EvClose \/ ev = EvCrash -> astep (Serves bs) ev (Stopped bs)
| a_settle bs l bs' ev : ev = EvClose \/ ev = EvCrash -> or_next bs l bs' -> astep (InDoubt bs l) ev (Stopped bs').

Definition stands (w : world) (a : status) : Prop :=
  match w, a with
  | Up e t, Serves bs => running e t bs /\ e_opts e = opts
  | Up e t, InDoubt bs l => is_Some (e_poisoned e) /\ e_closed e = false /\ e_opts e = opts /\ secures opts t (or_next bs l)
  | Down t, Stopped bs => stopped opts t bs
  | _, _ => False
  end.

Inductive csteps : world -> list event -> world -> Prop :=
| cs_nil w : csteps w [] w
| cs_cons w ev w1 evs w2 : cstep w ev w1 -> csteps w1 evs w2 -> csteps w (ev :: evs) w2.
Inductive asteps : status -> list event -> status -> Prop :=
| as_nil a : asteps a [] a
| as_cons a ev a1 evs a2 : astep a ev a1 -> asteps a1 evs a2 -> asteps a (ev :: evs) a2.

(** *** One event *)

Context (Hnorm : normalized o = Ok opts) (Hconfig : config_ok opts).

Lemma Open_outcome h t bs : stopped opts t bs -> roomy opts t bs ->
  ewp false (Open dir h o) (fun e t' => running e t' bs /\ e_opts e = opts) (fun t' => safe opts t' (fun x => x = bs)) t.
Proof.
  intros Hst Hr. pose proof (stopped_safe _ _ _ Hst) as Hsafe. unfold Open. apply ewp_bind, ewp_fail_if; [done|intros _].
  rewrite Hnorm. apply ewp_bind, ewp_lift, ewp_bind, ewp_lift. destruct (open_root h); [|done]. by apply ewp_open_engine.
Qed.

Lemma running_room e t bs : running e t bs -> has_room e -> room_to_apply e bs.
Proof. intros [Hs _] (R1 & R2 & R3 & R4). pose proof (model_bound e t bs Hs). unfold room_to_apply. split_and!; lia. Qed.

Lemma close_tree closeRoot e t s P : e_opts e = opts -> secures opts t P ->
  let '(_, _, t', _) := Engine_Close closeRoot e t s in secures opts t' P.
Proof.
  intros Eo (B & HP & Hs). unfold Engine_Close, m_get, mbind, em_bind. destruct (e_closed e); [by exists B|].
  destruct (wal_close (e_wal e)) as [w cl] eqn:Ew. unfold m_put, m_io, close_parts.
  pose proof (in_wal_close (e_wal e) t s) as Hw. rewrite Ew in Hw. cbn [snd] in Hw. destruct (in_wal cl t s) as [[r1 t1] s1]. subst t1.
  pose proof (ewp_releaseLock opts B true (e_lockFlock e) (e_lockFile e) t Hs s1) as Hl.
  destruct (releaseLock (e_lockFlock e) (e_lockFile e) t s1) as [[r2 t2] s2]. assert (safe opts t2 B) as Hs2 by (destruct r2; [by apply Hl|by apply Hl]).
  exists B. done.
Qed.

Lemma poisoned_refuses e t s : is_Some (e_poisoned e) -> e_closed e = false ->
  (forall input, exists err x, Apply input e t s = ((Fail err, x), e, t, s)) /\ (forall key, exists err, Engine_Get key e t s = (Fail err, e, t, s)) /\
  (forall start end_ limit, exists err, Engine_Scan start end_ limit e t s = (Fail err, e, t, s)).
Proof.
  intros [err Hp] Hc. assert (Engine_stateErr e = Fail err) as Hst by (unfold Engine_stateErr; by rewrite Hc, Hp).
  split; [|split].
  - intros input. exists err, input. unfold Apply, apply_append, m_get, m_io, e_lift, mbind, em_bind. by rewrite Hst.
  - intros key. exists err. unfold Engine_Get, m_get, m_io, e_lift, mbind, em_bind. by rewrite Hst.
  - intros start end_ limit. exists err. unfold Engine_Scan, m_get, m_io, e_lift, mbind, em_bind. by rewrite Hst.
Qed.

Lemma serving_secures e t bs : running e t bs -> secures (e_opts e) t (fun x => x = bs).
Proof. intros [Hs _]. apply (safe_secures _ _ (fun x => x = bs)); [by apply serving_safe|done]. Qed.

(** From the status of a running engine or one in doubt to the stopped one. *)
Lemma stop_step e t a t' t'' ev : stands (Up e t) a -> ev = EvClose \/ ev = EvCrash -> (forall P, secures opts t P -> secures opts t' P) -> tree_crash t' t'' ->
  exists a', astep a ev a' /\ stands (Down t'') a'.
Proof.
  intros Hw Hev Hsec Hc. destruct a as [bs|bs l|bs]; [| |done].
  - destruct Hw as [Hr Eo]. pose proof (serving_secures _ _ _ Hr) as Hs. rewrite Eo in Hs. apply Hsec in Hs. destruct (secures_crash _ _ _ _ Hs Hc) as (x & -> & Hx).
    exists (Stopped bs). split; [by apply a_stop|done].
  - destruct Hw as (_ & _ & _ & Hs). apply Hsec in Hs. destruct (secures_crash _ _ _ _ Hs Hc) as (x & Hx & Hst). exists (Stopped x). split; [by apply a_settle|done].
Qed.

Lemma apply_step e t a input s r sealed e' t' s' : stands (Up e t) a -> has_room e -> Apply input e t s = ((r, sealed), e', t', s') ->
  exists a', astep a (EvApply input r) a' /\ stands (Up e' t') a'.
Proof.
  intros Hw Hroom HA. destruct a as [bs|bs l|bs]; [| |done].
  - destruct Hw as [Hr Eo]. pose proof Hr as (Hs & Hcl & Hpo). pose proof (Apply_outcome e t bs Hs (running_room _ _ _ Hr Hroom) input s) as H. rewrite HA in H.
    destruct r as [n|err]; cbn [applied] in H.
    + destruct H as (-> & Hs' & Ecl & Epo & Eo' & _). eexists. split; [apply a_ack|]. split; [|congruence]. split; [done|]. split; congruence.
    + destruct H as [[-> ->]|(Hp & Ecl & Eo' & _ & Hsec & _)]; [exists (Serves bs)|exists (InDoubt bs (batch_ops input))].
      * split; [apply a_refuse|done].
      * split; [apply a_fail|]. split; [done|]. split; [congruence|]. split; [congruence|]. by rewrite <- Eo.
  - destruct Hw as (Hp & Hcl & Eo & Hsec). destruct (poisoned_refuses e t s Hp Hcl) as (H & _ & _). destruct (H input) as (err & x & E). rewrite E in HA.
    injection HA as <- _ <- <- _. exists (InDoubt bs l). split; [apply a_doubt|done].
Qed.

Lemma engine_step w a ev w' : stands w a -> cstep w ev w' -> exists a', astep a ev a' /\ stands w' a'.
Proof.
  intros Hw Hstep. destruct Hstep as [h t e t' s' Hroom HO|h t err t' s' t'' Hroom HO Hc|input s e t r sealed e' t' s' Hroom HA|key s e t r e' t' s' HG
    |start end_ limit s e t r e' t' s' HG|closeRoot s e t r e' t' s' t'' HC Hc|e t t' Hc].
  - destruct a as [| |bs]; [done|done|]. pose proof (Open_outcome h t bs Hw (Hroom _ Hw) [] (fun _ => eq_refl)) as H. rewrite HO in H. destruct H as [H _].
    exists (Serves bs). split; [apply a_open|done].
  - destruct a as [| |bs]; [done|done|]. pose proof (Open_outcome h t bs Hw (Hroom _ Hw) [] (fun _ => eq_refl)) as H. rewrite HO in H.
    destruct (safe_crash _ _ _ _ H Hc) as (x & -> & Hx). exists (Stopped bs). split; [apply a_no_open|done].
  - by apply (apply_step e t a input s r sealed e' t' s').
  - destruct a as [bs|bs l|bs]; [| |done].
    + destruct Hw as [Hr Eo]. rewrite (Engine_Get_answer _ _ _ _ _ Hr) in HG. injection HG as <- <- <- _. rewrite Eo. exists (Serves bs). split; [apply a_get|done].
    + destruct Hw as (Hp & Hcl & Hrest). destruct (poisoned_refuses e t s Hp Hcl) as (_ & H & _). destruct (H key) as (err & E). rewrite E in HG.
      injection HG as <- <- <- _. exists (InDoubt bs l). split; [apply a_no_get|done].
  - destruct a as [bs|bs l|bs]; [| |done].
    + destruct Hw as [Hr Eo]. rewrite (Engine_Scan_answer _ _ _ _ _ _ _ Hr) in HG. injection HG as <- <- <- _. rewrite Eo. exists (Serves bs). split; [apply a_scan|done].
    + destruct Hw as (Hp & Hcl & Hrest). destruct (poisoned_refuses e t s Hp Hcl) as (_ & _ & H). destruct (H start end_ limit) as (err & E). rewrite E in HG.
      injection HG as <- <- <- _. exists (InDoubt bs l). split; [apply a_no_scan|done].
  - apply (stop_step e t a t' t''); [done|by left| |done]. intros P HP. assert (e_opts e = opts) as Eo by (destruct a; [apply Hw|apply Hw|done]).
    pose proof (close_tree closeRoot e t s P Eo HP) as H. by rewrite HC in H.
  - apply (stop_step e t a t t'); [done|by right|done|done].
Qed.

Lemma engine_steps w a evs w' : stands w a -> csteps w evs w' -> exists a', asteps a evs a' /\ stands w' a'.
Proof.
  intros Hw Hs. revert a Hw. induction Hs as [w|w ev w1 evs w2 H1 _ IH]; intros a Hw; [exists a; split; [constructor|done]|].
  destruct (engine_step w a ev w1 Hw H1) as (a1 & Ha & Hw1). destruct (IH a1 Hw1) as (a2 & Has & Hw2). exists a2. split; [by econstructor|done].
Qed.
End life.

(** ** A blank directory *)

Definition blank : tree := mkTree (mkH ∅ []) (mkH ∅ []) ∅.

Lemma blank_stopped opts : config_ok opts -> stopped opts blank [].
Proof.
  intros Hc. exists fresh_manifest, 0. split; [by apply settled_calm|]. split; [by apply nm_fresh|]. split; [done|]. split; [|by right].
  exists [], []. split; [|done]. split; [constructor|constructor|constructor|done|]. by intros n f (m & ->%list_elem_of_singleton & H).
Qed.

(** *** What is known for certain *)

Definition certain (a : status) : list (list operation) := match a with Serves bs | InDoubt bs _ | Stopped bs => bs end.

Lemma certain_grows opts a ev a' : astep opts a ev a' -> certain a `prefix_of` certain a'.
Proof. intros []; cbn [certain]; try done; [by apply prefix_app_r|]. destruct H0 as [-> | ->]; [done|by apply prefix_app_r]. Qed.

Lemma certain_grows_all opts a evs a' : asteps opts a evs a' -> certain a `prefix_of` certain a'.
Proof. induction 1 as [|a ev a1 evs a2 H _ IH]; [done|]. etrans; [by apply (certain_grows opts a ev a1)|done]. Qed.

Lemma astep_ack opts a input n a' : astep opts a (EvApply input (Ok n)) a' -> n = len (certain a) + 1 /\ certain a' = certain a ++ [batch_ops input].
Proof. inversion 1 as [| |bs i| | | | | | | |bs ev Hev|bs l bs' ev Hev]; subst; [done|by destruct Hev|by destruct Hev]. Qed.

Lemma acknowledged_at opts a evs a' input n : asteps opts a evs a' -> EvApply input (Ok n) ∈ evs ->
  certain a' !! Z.to_nat (n - 1) = Some (batch_ops input).
Proof.
  induction 1 as [|a ev a1 evs a2 H Hs IH]; [by intros ?%elem_of_nil|]. intros [<-|Hin]%elem_of_cons; [|by apply IH].
  apply astep_ack in H as [-> Hc]. apply certain_grows_all in Hs. rewrite Hc in Hs. eapply prefix_lookup_Some; [|exact Hs].
  replace (Z.to_nat (len (certain a) + 1 - 1)) with (length (certain a)) by (unfold len; lia). by rewrite lookup_app_r, Nat.sub_diag by lia.
Qed.

(** ** Snapshots *)

(** Any number of writes against any scripts. *)
Inductive writes : Engine -> tree -> Engine -> tree -> Prop :=
| wr_nil e t : writes e t e t
| wr_apply input s e t r sealed e1 t1 s1 e2 t2 : has_room e -> Apply input e t s = ((r, sealed), e1, t1, s1) -> writes e1 t1 e2 t2 -> writes e t e2 t2.

Lemma writes_poisoned e t e' t' : writes e t e' t' -> is_Some (e_poisoned e) -> e_closed e = false -> e' = e /\ t' = t.
Proof.
  induction 1 as [|input s e t r sealed e1 t1 s1 e2 t2 _ HA _ IH]; intros Hp Hcl; [done|]. destruct (poisoned_refuses e t s Hp Hcl) as (H & _ & _).
  destruct (H input) as (err & x & E). rewrite E in HA. injection HA as _ _ <- <- _. by apply IH.
Qed.

Lemma writes_kept e t e' t' : writes e t e' t' -> forall bs, running e t bs -> e_pins e <> 0 ->
  kept (e_opts e) (nextSST (e_manifest e)) (t_tables t) (t_tables t').
Proof.
  induction 1 as [|input s e t r sealed e1 t1 s1 e2 t2 Hroom HA Hw IH]; intros bs Hr Hp; [apply kept_refl|].
  pose proof Hr as (Hs & Hcl & Hpo). pose proof (Apply_outcome e t bs Hs (running_room _ _ _ Hr Hroom) input s) as H. rewrite HA in H.
  destruct r as [n|err]; cbn [applied] in H.
  - destruct H as (_ & Hs' & Ecl & Epo & Eo & Ep & Hn & Hk). apply (kept_trans _ _ (nextSST (e_manifest e1)) _ (t_tables t1)); [done|by apply Hk|].
    rewrite <- Eo. apply (IH (bs ++ [batch_ops input])); [|congruence]. split; [done|]. split; congruence.
  - destruct H as [[-> ->]|(Hpois & Ecl & _ & _ & _ & Hk)]; [by apply (IH bs)|]. apply writes_poisoned in Hw as [-> ->]; [by apply Hk|done|congruence].
Qed.

Lemma snapshot_state e t bs s sn e1 t1 s1 : running e t bs -> Engine_Snapshot e t s = (Ok sn, e1, t1, s1) ->
  running e1 t1 bs /\ e_pins e1 = e_pins e + 1 /\ e_manifest e1 = e_manifest e /\ e_opts e1 = e_opts e /\ t1 = t /\ sn = mkSnapshot (Some (current_view e (t_tables t))) (len bs).
Proof.
  intros Hr. pose proof Hr as (Hs & Hcl & Hpo). unfold Engine_Snapshot, m_get, m_io, e_lift, m_fail_if, e_fail_if, m_put, pinViewLocked, mbind, em_bind, Engine_stateErr.
  rewrite Hcl, Hpo. cbn. unfold fail_if. destruct (_ <=? _); cbn; [done|]. intros [= <- <- <- _]. rewrite (sv_lsn _ _ _ Hs). split_and!; try done.
  split; [|done]. destruct Hs. by split.
Qed.
