(* ===== verification/EngineStore.v ===== *)
(** The theorems on the storage engine: what a client may rely on over any
    sequence of operations, faults and crashes. *)

From Stdlib Require Import ZArith Lia.
From stdpp Require Import base list gmap.
From S2P Require Import Prelude EngineOps Fs Wal WalLog Sst View Manifest Tree Publish Lsm Engine PublishSafe OpenManifest WalCheckpoint Compact Contents Members Running FlushLog FlushSafe ApplySafe OpenSafe EngineReads EngineLife.

Local Open Scope Z_scope.

(** ** Splitting *)

Lemma flushEntries_more fuel : forall fuel' lsn opts entries nextID outputs t s, (length entries <= fuel)%nat -> (length entries <= fuel')%nat ->
  flushEntries fuel lsn opts entries nextID outputs t s = flushEntries fuel' lsn opts entries nextID outputs t s.
Proof.
  induction fuel as [|fuel IH]; intros [|fuel'] lsn opts entries nextID outputs t s H1 H2; cbn [flushEntries]; [done| | |].
  - destruct entries; [done|cbn in H1; lia].
  - destruct entries; [done|cbn in H2; lia].
  - case_bool_decide as Hnil; [done|]. destruct (encodeSST _ _ _ _ _); [done|]. destruct (Z.eqb_spec (len entries) 1) as [|Hne]; [done|].
    set (mid := Nat.div (length entries) 2).
    assert (2 <= length entries)%nat as Hlen by (unfold len in *; destruct entries as [|x [|y l]]; cbn in *; try lia; done).
    assert (0 < mid < length entries)%nat as [Hm1 Hm2] by (unfold mid; split; [apply Nat.div_str_pos; lia|apply Nat.div_lt; lia]).
    unfold mbind, eio_bind. rewrite (IH fuel') by (rewrite length_take; lia). destruct (flushEntries fuel' lsn opts (take mid entries) nextID outputs t s) as [[[[id1 out1]|err] t1] s1]; [|done].
    apply IH; rewrite length_drop; lia.
Qed.

(** ** Compacted tables *)

Lemma spilled_shows opts t m id r outputs t' : opts_ok opts -> keyed m -> spilled opts t (live_entries m) id r outputs t' -> outputs = [] ->
  shows (newViewLocked (table_dir (t_tables t')) opts ∅ (snd r)) (live_of m).
Proof.
  intros Ho Hm (h & fs & ls & -> & -> & Hn & Hf & Hcc & _ & _) ->. cbn [snd app set_dir t_tables]. exists fs, ∅, [], ls. split; [done|].
  assert (Forall (fun f => sst_level f = x01) fs) as Hlev by (apply Forall_lookup; intros i f [_ ?]%Hn; done). split.
  - split; [done|by intros k x Hx%lookup_empty_Some| | |].
    + rewrite level_files_none; [constructor|]. eapply Forall_impl; [exact Hlev|]. by intros f ->.
    + rewrite level_files_all by done. eapply Forall2_impl; [exact Hf|]. intros f l. apply file_held_ok.
    + rewrite Hcc. by apply live_entries_sorted.
  - unfold contents. cbn [rev app]. rewrite (left_id_L ∅ (∪)). by apply live_compacted.
Qed.

(** ** Theorems *)



(** C3: a snapshot is stable.  Whatever is written after it, with flushes,
    compactions and failures, its point reads and scans answer from the map of
    the batches at the time it was taken. *)
Theorem snapshot_reads_are_stable e t bs s sn e1 t1 s1 e2 t2 :
  running e t bs -> 0 <= e_pins e -> Engine_Snapshot e t s = (Ok sn, e1, t1, s1) -> writes e1 t1 e2 t2 ->
  (forall key s2, Snapshot_Get sn key e2 t2 s2 = (validateKey key (MaxKeyBytes (e_opts e));; map_get (model bs) key, e2, t2, s2)) /\
  (forall start end_ limit s2, Snapshot_Scan sn start end_ limit e2 t2 s2 = (map_scan (e_opts e) (model bs) start end_ limit, e2, t2, s2)).
Proof.
  intros Hr Hp Hsn Hw. destruct (snapshot_state _ _ _ _ _ _ _ _ Hr Hsn) as (Hr1 & Ep & Em & Eo & -> & ->).
  pose proof (writes_kept _ _ _ _ Hw bs Hr1 ltac:(lia)) as Hk. rewrite Em, Eo in Hk. destruct Hr as [Hs _].
  pose proof (current_shows e t bs Hs (t_tables t2) Hk) as Hsh. unfold Snapshot_Get, Snapshot_Scan, with_view, m_io, e_lift, mbind, em_bind. cbn [sn_view]. split.
  - intros key s2. cbn. change (view_on (t_tables t2) (current_view e (t_tables t))) with (current_view e (t_tables t2)).
    destruct (validateKey key (MaxKeyBytes (e_opts e))) as [[]|err] eqn:E; [by rewrite (shows_get _ _ _ Hsh E)|].
    unfold lookupView. cbn [current_view newViewLocked v_opt]. by rewrite E.
  - intros start end_ limit s2. cbn. change (view_on (t_tables t2) (current_view e (t_tables t))) with (current_view e (t_tables t2)).
    by rewrite (shows_scan _ _ _ _ _ Hsh).
Qed.

(** C4: publishing a manifest is atomic.  While a manifest replaces another,
    whatever each call answers and wherever the process ends, opening the
    directory finds one of the two complete; once the publication has returned
    it finds the new one. *)
Theorem publication_is_atomic opts t old new data old_tables new_tables s t1 :
  config_ok opts -> steady opts (t_root t) old -> encodes opts new data -> generation old < generation new ->
  Forall2 (file_held opts (t_tables t)) (mf_files old) old_tables -> Forall2 (file_held opts (t_tables t)) (mf_files new) new_tables ->
  proper_names (t_tables t) ->
  let '(r, t', _) := publishManifest new t s in
  tree_crash t' t1 ->
  let '(found, _, _) := openManifest opts t1 [] in
  found = Ok (reopened new) \/ r <> Ok tt /\ found = Ok (reopened old).
Proof.
  intros [Ho _ Hf Hb] Hold Hnew Hg H1 H2 Hp. pose proof (ewp_publishManifest opts t old new data Hold Hnew Hg true s (fun E => False_ind _ (Bool.diff_true_false E))) as H.
  destruct (publishManifest new t s) as [[r t'] s']. intros Hc.
  assert (exists h, t' = set_dir Root h t) as (h & ->) by (destruct r; [by destruct H as [(h & -> & _) _]; exists h|by destruct H as [_ (h & -> & _)]; exists h]).
  destruct Hc as (Hcr & Hct & _). cbn [set_dir t_root t_tables] in *.
  assert (forall m ls, names_manifest opts (now (t_root t1)) m -> Forall2 (file_held opts (t_tables t)) (mf_files m) ls ->
            let '(found, _, _) := openManifest opts t1 [] in found = Ok (reopened m)) as Hopen.
  { intros m ls Hm Hls. pose proof (ewp_openManifest opts Ho Hf Hb false t1 m ls) as He. destruct Hcr as [Hpast _].
    specialize (He (settled_calm _ Hpast) Hm (Forall2_held_crash opts _ _ _ _ Hct Hls) (proper_names_crash _ _ Hct Hp) [] (fun _ => eq_refl)).
    destruct (openManifest opts t1 []) as [[[m'|err] t2] s2]; [by destruct He as [[-> _] _]|by destruct He]. }
  destruct r as [[]|err].
  - destruct H as [(h' & E & Hst) _]. assert (h' = h) as -> by (by injection E). pose proof (steady_crash opts h (t_root t1) new Hst Hcr) as Hm.
    specialize (Hopen new new_tables Hm H2). destruct (openManifest opts t1 []) as [[found t2] s2]. by left.
  - destruct H as [_ (h' & E & Hst)]. assert (h' = h) as -> by (by injection E). destruct (Hst _ Hcr) as [Hm|Hm].
    + specialize (Hopen old old_tables Hm H1). destruct (openManifest opts t1 []) as [[found t2] s2]. right. split; [discriminate|done].
    + specialize (Hopen new new_tables Hm H2). destruct (openManifest opts t1 []) as [[found t2] s2]. by left.
Qed.

(** C5: compaction preserves every read.  The tables it writes, alone, answer
    each point read and each scan as all tables did before, tombstones and
    shadowed entries gone; on its way it removes and changes no table. *)
Theorem compaction_preserves_reads e t s t0 t1 nextID outputs t' s' :
  store_ok (e_opts e) (table_dir (t_tables t)) ∅ (mf_files (e_manifest e)) t0 t1 -> 0 <= nextSST (e_manifest e) ->
  nextSST (e_manifest e) + len (concat (t0 ++ t1)) < 2 ^ 64 -> compact_tables e t s = (Ok (nextID, outputs), t', s') ->
  let before := newViewLocked (table_dir (t_tables t)) (e_opts e) ∅ (mf_files (e_manifest e)) in
  let after := newViewLocked (table_dir (t_tables t')) (e_opts e) ∅ outputs in
  (forall key, lookupView after key = lookupView before key) /\
  (forall start end_ limit, view_Scan after start end_ limit = view_Scan before start end_ limit) /\
  (forall f l id, sst_name f = sstBaseName id -> 0 <= id < nextSST (e_manifest e) -> file_held (e_opts e) (t_tables t) f l -> file_held (e_opts e) (t_tables t') f l).
Proof.
  intros Hst Hn Hmax Hrun. pose proof (so_opts _ _ _ _ _ _ Hst) as Ho. set (m := umap (rev t0 ++ t1)). assert (keyed m) as Hm by apply umap_keyed.
  assert (len (live_entries m) <= len (concat (t0 ++ t1))) as Hlen.
  { rewrite live_of_size by done. pose proof (size_live_bound ∅ (rev t0 ++ t1)) as Hb. rewrite (left_id_L ∅ (∪)) in Hb. fold m in Hb.
    rewrite concat_app, length_app, length_concat_rev, <- length_app, <- concat_app in Hb. unfold len. change (size (∅ : gmap bytes memEntry)) with 0%nat in Hb. lia. }
  pose proof (ewp_compact_tables true e t t0 t1 Hst Hn) as H. fold m in H. specialize (H ltac:(lia) s (fun E => False_ind _ (Bool.diff_true_false E))).
  rewrite Hrun in H. destruct H as [Hsp _]. pose proof (spilled_shows _ _ _ _ _ _ _ Ho Hm Hsp eq_refl) as Hafter. cbn [snd] in Hafter.
  assert (shows (newViewLocked (table_dir (t_tables t)) (e_opts e) ∅ (mf_files (e_manifest e))) (live_of m)) as Hbefore.
  { exists (mf_files (e_manifest e)), ∅, t0, t1. split; [done|]. split; [done|]. unfold contents. by rewrite (left_id_L ∅ (∪)). }
  cbv zeta. split; [|split].
  - intros key. destruct (validateKey key (MaxKeyBytes (e_opts e))) as [[]|err] eqn:E; [by rewrite (shows_get _ _ _ Hafter E), (shows_get _ _ _ Hbefore E)|].
    unfold lookupView. cbn [newViewLocked v_opt]. by rewrite E.
  - intros start end_ limit. by rewrite (shows_scan _ _ _ _ _ Hafter), (shows_scan _ _ _ _ _ Hbefore).
  - pose proof (spilled_bound _ _ _ _ _ _ _ Hsp) as Hb. destruct Hsp as (h & fs & ls & -> & E & _ & _ & _ & _ & Hw). injection E as -> ->. cbn [fst] in Hb.
    pose proof (len_nonneg (concat (t0 ++ t1))). apply (kept_written (e_opts e)) with (4 := Hw); unfold max_uint64; [lia| |done]. intros i Hi. lia.
Qed.

(** splitting what does not fit a table ends.  The number of entries bounds
    the depth of [flushEntries]: any larger bound gives the same answers, the
    same files and the same calls. *)
Theorem flushEntries_terminates fuel lsn opts entries nextID outputs t s :
  (length entries <= fuel)%nat ->
  flushEntries fuel lsn opts entries nextID outputs t s = flush_chunk lsn opts entries nextID outputs t s.
Proof. intros Hf. by apply flushEntries_more. Qed.

(** ** Instances at concrete inputs *)

Definition life_options : Options := mkOptions 8 600 4 1024 16 2 4096 16 1024 4096 8.
Definition quiet_host : host := mkHost (Info (mkInfo false true 0x1c0)) true NotExist false true NotExist true NotExist true true None.
Definition put_input (opts : Options) (k v : bytes) : apply_input := BatchPointer (Some (fst (Batch_Put (Engine_NewBatch opts) k v))).

Lemma life_config : config_ok life_options.
Proof. split; vm_compute; repeat split; discriminate. Qed.

(** A world from the outcome of an operation. *)
Definition opened_world (r : result engine_error Engine * tree * list response) : Engine * tree :=
  match r with (Ok e, t, _) => (e, t) | (Fail _, t, _) => (mkEngine life_options (mkWal None 0 0 true) 0 ∅ 0 fresh_manifest 0 [] false false true None 0, t) end.
Definition applied_world (r : (result engine_error Z * apply_input) * Engine * tree * list response) : Engine * tree :=
  match r with (_, e, t, _) => (e, t) end.
Definition world_0 : Engine * tree := opened_world (Open (lit "d") quiet_host life_options blank []).
Definition first_put : apply_input := put_input life_options (lit "a") (repeat x00 8).
Definition world_1 : Engine * tree := applied_world (Apply first_put (fst world_0) (snd world_0) []).

Lemma blank_room opts : room_below opts blank.
Proof.
  intros bs (m & L & _ & _ & _ & _ & Hlog).
  assert (bs = []) as ->.
  { destruct Hlog as [(s & l & segs & Hok & Hne & _ & _ & _ & Hac)|[_ ->]]; [|done]. destruct (exists_last Hne) as (init & ls & ->).
    pose proof (lo_seg _ _ _ _ Hok) as [Hs1 Hs2]. rewrite len_app in Hs2. change (len [ls]) with 1 in Hs2. pose proof (len_nonneg init).
    inversion Hac as [E|init' ls' torn _ _ _ E|h _ _ E].
    - assert (log_files s l (init ++ [ls]) !! segmentName (s + len init) = None) as Hx by (by rewrite E). rewrite log_files_snoc, lookup_insert_eq in Hx by lia. done.
    - by apply insert_non_empty in E.
    - by apply insert_non_empty in E. }
  split; [vm_compute; done|]. split; [|by intros s x Hx].
  intros m' [-> _ _|data _ Hx _|data _ _ Hx _]; [vm_compute; split; [discriminate|done]|done|done].
Qed.

(** The crash that loses nothing. *)
Definition kept_whole (h : hdir) : hdir := mkH ((fun f => mkF (f_data f) true) <$> now h) [].
Lemma kept_whole_crash h : hcrash h (kept_whole h).
Proof.
  split; [done|]. intros n. exists (now h !! n). split; [apply may_be_now|]. cbn [kept_whole now]. rewrite lookup_fmap. by destruct (now h !! n).
Qed.

Lemma quiet_crash t : bool_decide (map_Forall (fun _ w => w = synced (volatile w)) (t_wal t)) = true ->
  tree_crash t (mkTree (kept_whole (t_root t)) (kept_whole (t_tables t)) (t_wal t)).
Proof.
  intros Hall%bool_decide_eq_true. split; [apply kept_whole_crash|]. split; [apply kept_whole_crash|]. intros n. cbn [t_wal]. destruct (t_wal t !! n) as [w|] eqn:E; [|done].
  pose proof (Hall _ _ E) as Hw. cbn beta in Hw. rewrite Hw. cbn [synced volatile durable linked regular]. split_and!; try done. left. by split.
Qed.

Definition stopped_tree (t : tree) : tree := mkTree (kept_whole (t_root t)) (kept_whole (t_tables t)) (t_wal t).

Lemma life_events evs w : csteps (lit "d") life_options life_options (Up (fst world_1) (snd world_1)) evs w ->
  csteps (lit "d") life_options life_options (Down blank) (EvOpen true :: EvApply first_put (Ok 1) :: EvGet (lit "a") (Ok (repeat x00 8)) :: evs) w.
Proof.
  intros Hrest.
  eapply cs_cons; [apply (c_open _ _ _ quiet_host blank (fst world_0) (snd world_0) []); [apply blank_room|vm_compute; reflexivity]|].
  eapply cs_cons; [apply (c_apply _ _ _ first_put [] (fst world_0) (snd world_0) (Ok 1) (seal first_put) (fst world_1) (snd world_1) []); [vm_compute; repeat split; done|vm_compute; reflexivity]|].
  eapply cs_cons; [apply (c_get _ _ _ (lit "a") [] (fst world_1) (snd world_1) (Ok (repeat x00 8)) (fst world_1) (snd world_1) []); vm_compute; reflexivity|]. exact Hrest.
Qed.



Lemma world_0_running : running (fst world_0) (snd world_0) [] /\ e_opts (fst world_0) = life_options.
Proof.
  pose proof (Open_outcome (lit "d") life_options life_options eq_refl life_config quiet_host blank [] (blank_stopped _ life_config) (blank_room _ _ (blank_stopped _ life_config)) [] (fun _ => eq_refl)) as H.
  replace (Open (lit "d") quiet_host life_options blank []) with (@Ok engine_error Engine (fst world_0), snd world_0, @nil response) in H by (vm_compute; reflexivity). apply H.
Qed.

Definition taken : Snapshot * (Engine * tree) :=
  match Engine_Snapshot (fst world_0) (snd world_0) [] with
  | (Ok sn, e, t, _) => (sn, (e, t))
  | (Fail _, e, t, _) => (mkSnapshot None 0, (e, t))
  end.
Definition world_2 : Engine * tree := applied_world (Apply first_put (fst (snd taken)) (snd (snd taken)) []).

Lemma snapshot_reads_are_stable_witness :
  Snapshot_Get (fst taken) (lit "a") (fst world_2) (snd world_2) [] = (Fail ErrNotFound, fst world_2, snd world_2, []) /\
  fst (fst (fst (Engine_Get (lit "a") (fst world_2) (snd world_2) []))) = Ok (repeat x00 8).
Proof.
  split; [|vm_compute; reflexivity]. destruct world_0_running as [Hr _].
  apply (snapshot_reads_are_stable (fst world_0) (snd world_0) [] [] (fst taken) (fst (snd taken)) (snd (snd taken)) [] (fst world_2) (snd world_2) Hr).
  - vm_compute. discriminate.
  - vm_compute. reflexivity.
  - apply (wr_apply first_put [] _ _ (Ok 1) (seal first_put) (fst world_2) (snd world_2) []); [vm_compute; repeat split; done|vm_compute; reflexivity|apply wr_nil].
Defined.

Definition next_manifest : manifest := mkManifest 1 0 [] 1.
Definition failing : list response := [mkResponse 0 false; mkResponse 0 true].

Lemma publication_is_atomic_witness :
  let '(r, t', _) := publishManifest next_manifest blank failing in
  r <> Ok tt /\ let '(found, _, _) := openManifest life_options (stopped_tree t') [] in
  found = Ok (reopened next_manifest) \/ r <> Ok tt /\ found = Ok (reopened fresh_manifest).
Proof.
  destruct (encodeManifest next_manifest) as [data|] eqn:E; [|vm_compute in E; discriminate E].
  pose proof (publication_is_atomic life_options blank fresh_manifest next_manifest data [] [] failing (stopped_tree (snd (fst (publishManifest next_manifest blank failing))))
    life_config) as H.
  destruct (publishManifest next_manifest blank failing) as [[r t'] s'] eqn:Ep. split.
  - vm_compute in Ep. injection Ep as <- _ _. discriminate.
  - apply H; [apply steady_fresh; [done|..]| | |constructor|constructor| |].
    + by intros x (m & ->%list_elem_of_singleton & <-).
    + by intros n x _ (m & ->%list_elem_of_singleton & <-).
    + split; [|done]. split; [vm_compute; split; discriminate|vm_compute; split; discriminate|vm_compute; discriminate|done].
    + vm_compute. reflexivity.
    + by intros n f (m & ->%list_elem_of_singleton & Hx).
    + apply quiet_crash. vm_compute in Ep. injection Ep as _ <- _. vm_compute. reflexivity.
Defined.

Definition merged : Z * list sstFile * tree :=
  match compact_tables (fst world_1) (snd world_1) [] with (Ok (n, outputs), t, _) => (n, outputs, t) | (Fail _, t, _) => (0, [], t) end.
Definition first_table : bytes * sstFile :=
  match encodeSST [mkEntry putOp (lit "a") (repeat x00 8)] x00 1 1 life_options with Ok r => r | Fail _ => ([], mkSstFile [] x00 [] [] 0 0) end.

Lemma world_1_opts : e_opts (fst world_1) = life_options.
Proof. vm_compute. reflexivity. Qed.

Lemma world_1_l0 : level_files x00 (mf_files (e_manifest (fst world_1))) = [snd first_table].
Proof. vm_compute. reflexivity. Qed.
Lemma world_1_l1 : level_files x01 (mf_files (e_manifest (fst world_1))) = [].
Proof. vm_compute. reflexivity. Qed.

Lemma world_1_store : store_ok life_options (table_dir (t_tables (snd world_1))) ∅ (mf_files (e_manifest (fst world_1))) [[mkEntry putOp (lit "a") (repeat x00 8)]] [].
Proof.
  split; [apply (cf_opts _ life_config)|by intros k x Hx%lookup_empty_Some| |rewrite world_1_l1; constructor|constructor].
  rewrite world_1_l0. constructor; [|constructor].
  apply (encodeSST_file_ok life_options _ [mkEntry putOp (lit "a") (repeat x00 8)] x00 1 1 (fst first_table)).
  - apply (cf_opts _ life_config).
  - vm_compute. discriminate.
  - vm_compute. split; discriminate.
  - vm_compute. reflexivity.
  - vm_compute. reflexivity.
Qed.

Lemma compaction_preserves_reads_witness :
  lookupView (newViewLocked (table_dir (t_tables (snd merged))) life_options ∅ (snd (fst merged))) (lit "a")
  = lookupView (newViewLocked (table_dir (t_tables (snd world_1))) life_options ∅ (mf_files (e_manifest (fst world_1)))) (lit "a").
Proof.
  rewrite <- world_1_opts.
  apply (compaction_preserves_reads (fst world_1) (snd world_1) [] [[mkEntry putOp (lit "a") (repeat x00 8)]] [] (fst (fst merged)) (snd (fst merged)) (snd merged) []).
  - rewrite world_1_opts. apply world_1_store.
  - vm_compute. discriminate.
  - vm_compute. reflexivity.
  - vm_compute. reflexivity.
Defined.

Lemma flushEntries_terminates_witness :
  flushEntries 7 1 life_options [mkEntry putOp (lit "a") (lit "1"); mkEntry putOp (lit "b") (lit "2")] 1 [] blank []
  = flush_chunk 1 life_options [mkEntry putOp (lit "a") (lit "1"); mkEntry putOp (lit "b") (lit "2")] 1 [] blank [].
Proof. apply flushEntries_terminates. cbn. lia. Defined.

(** ** A limit that is not checked *)

(** Tables of at most 1 KiB, a memtable of up to 1 MiB. *)
Definition small_tables : Options := mkOptions 8 600 4 1024 16 2 4096 (2 ^ 20) 1024 1024 8.
Definition small_0 : Engine * tree := opened_world (Open (lit "d") quiet_host small_tables blank []).
Definition small_1 : Engine * tree := applied_world (Apply (put_input small_tables (lit "a") (repeat x00 600)) (fst small_0) (snd small_0) []).
Definition small_2 : Engine * tree := applied_world (Apply (put_input small_tables (lit "b") (repeat x00 600)) (fst small_1) (snd small_1) []).

