(* ===== verification/Range.v ===== *)
(** Range descriptors and the routing catalog (src/internal/raftstore/range.go
    and catalog.go): validation of descriptors, atomic replacement of the
    routing image with its fences, routing, and the canonical binary image.

    A Go map is iterated in an unspecified order; the operations that range
    over a map take that order as an argument, a list of the map's keys, and
    the theorems hold for every order.  A nil slice and an empty slice are
    told apart only in the [End] field, where nil means plus infinity. *)

From Stdlib Require Import ZArith List Lia Sorting.Sorted.
From Stdlib Require Import Strings.Byte.
From stdpp Require Import base list gmap sorting relations.
From S2P Require Import Prelude.
From S2P Require Import GoStd.

#[local] Open Scope Z_scope.

(** ** Data *)

Definition rangeMagic : bytes := lit "VBRG".
Definition rangeFormat : byte := x01.
Definition maxRangeDescriptors : Z := 4096.
Definition maxRangeIDBytes : Z := 128.
Definition maxRangeKeyBytes : Z := 1024.
Definition maxRangeCatalogSize : Z := 8 * 2 ^ 20.
Definition rangeInfinity : Z := max_uint32.

(** The serving phases, a [uint8]; only the first four values are valid. *)
Definition ServingPhase : Type := byte.
Definition RangeCopying : ServingPhase := x01.
Definition RangeCatchingUp : ServingPhase := x02.
Definition RangeServing : ServingPhase := x03.
Definition RangeRetired : ServingPhase := x04.

Definition is_phase (p q : ServingPhase) : bool := bool_decide (p = q).

Definition validPhaseTransition (previous next : ServingPhase) : bool :=
  if is_phase previous next then true
  else if is_phase previous RangeCopying then is_phase next RangeCatchingUp
  else if is_phase previous RangeCatchingUp then is_phase next RangeServing
  else if is_phase previous RangeServing then is_phase next RangeRetired
  else false.

Record RangeDescriptor : Type := mkRange {
  RangeID : bytes;
  Start : bytes;
  End_ : option bytes;
  Generation : Z;
  OwnerEpoch : Z;
  GroupID : Z;
  Voters : list Z;
  Phase : ServingPhase
}.

#[export] Instance RangeDescriptor_eq_dec : EqDecision RangeDescriptor.
Proof. solve_decision. Defined.

(** The bytes of [End]: a nil slice has none. *)
Definition end_bytes (d : RangeDescriptor) : bytes := default [] (End_ d).

Definition with_phase (d : RangeDescriptor) (p : ServingPhase) : RangeDescriptor :=
  mkRange (RangeID d) (Start d) (End_ d) (Generation d) (OwnerEpoch d) (GroupID d) (Voters d) p.

Record RangeMovedError : Type := mkMoved {
  RequestedRangeID : bytes;
  RequestedGeneration : Z;
  RequestedOwnerEpoch : Z;
  RequestedGroupID : Z;
  Newest : list RangeDescriptor
}.

Inductive range_error : Type :=
  | ErrRangeInvalid (what : String.string)
  | ErrRangeOverlap
  | ErrRangeGap
  | ErrCatalogStale (what : String.string)
  | ErrRangeMoved (e : RangeMovedError)
  | ErrRangeNotServing
  | ErrCatalogCorrupt
  | ErrBackpressure.

(** ** Descriptors *)

(** [append([]byte(nil), d.End...)] of an empty slice is nil. *)
Definition Clone (d : RangeDescriptor) : RangeDescriptor :=
  mkRange (RangeID d) (Start d)
    (match End_ d with Some [] => None | e => e end)
    (Generation d) (OwnerEpoch d) (GroupID d) (Voters d) (Phase d).

Definition cloneDescriptors (l : list RangeDescriptor) : list RangeDescriptor := map Clone l.

(** The voter loop: each voter is non-zero and greater than the one before. *)
Fixpoint voters_sorted (previous : option Z) (l : list Z) : bool :=
  match l with
  | [] => true
  | v :: l' => negb ((v =? 0) || match previous with Some p => v <=? p | None => false end)
               && voters_sorted (Some v) l'
  end.

Definition Validate (d : RangeDescriptor) : result range_error unit :=
  fail_if (bool_decide (RangeID d = []) || (maxRangeIDBytes <? len (RangeID d)) || negb (utf8.Valid (RangeID d)))
    (ErrRangeInvalid "range id");;
  fail_if ((maxRangeKeyBytes <? len (Start d)) || (maxRangeKeyBytes <? len (end_bytes d)))
    (ErrRangeInvalid "key bound");;
  fail_if (match End_ d with Some e => ble e (Start d) | None => false end)
    (ErrRangeInvalid "empty or reversed span");;
  fail_if ((Generation d =? 0) || (OwnerEpoch d =? 0) || (GroupID d =? 0)) (ErrRangeInvalid "zero fence");;
  fail_if (negb (len (Voters d) =? 3)) (ErrRangeInvalid "RF3 requires three voters");;
  fail_if (negb (voters_sorted None (Voters d))) (ErrRangeInvalid "voters must be sorted and distinct");;
  fail_if (negb (is_phase (Phase d) RangeCopying || is_phase (Phase d) RangeCatchingUp
                 || is_phase (Phase d) RangeServing || is_phase (Phase d) RangeRetired))
    (ErrRangeInvalid "phase").

Definition Contains (d : RangeDescriptor) (key : bytes) : bool :=
  ble (Start d) key && match End_ d with None => true | Some e => blt key e end.

Fixpoint equalUint64 (a b : list Z) : bool :=
  match a, b with
  | [], [] => true
  | x :: a', y :: b' => (x =? y) && equalUint64 a' b'
  | _, _ => false
  end.

Definition EqualRangeDescriptor (a b : RangeDescriptor) : bool :=
  beq (RangeID a) (RangeID b) && beq (Start a) (Start b) && beq (end_bytes a) (end_bytes b)
  && (Generation a =? Generation b) && (OwnerEpoch a =? OwnerEpoch b) && (GroupID a =? GroupID b)
  && equalUint64 (Voters a) (Voters b) && is_phase (Phase a) (Phase b).

Definition RangeMovedError_Clone (e : RangeMovedError) : RangeMovedError :=
  mkMoved (RequestedRangeID e) (RequestedGeneration e) (RequestedOwnerEpoch e) (RequestedGroupID e)
    (map Clone (Newest e)).

(** ** The catalog *)

Record RangeCatalog : Type := mkCatalog {
  version : Z;
  descriptors : list RangeDescriptor;
  byID : gmap bytes RangeDescriptor;
  history : gmap bytes RangeDescriptor
}.

Definition zero_catalog : RangeCatalog := mkCatalog 0 [] ∅ ∅.

Definition Version (c : option RangeCatalog) : Z :=
  match c with None => 0 | Some c => version c end.

Definition Descriptors (c : option RangeCatalog) : list RangeDescriptor :=
  match c with None => [] | Some c => cloneDescriptors (descriptors c) end.

(** The span loop of [replaceLocked] over the sorted descriptors. *)
Fixpoint check_spans (previous : option RangeDescriptor) (l : list RangeDescriptor)
    (ids : gmap bytes RangeDescriptor) : result range_error (gmap bytes RangeDescriptor) :=
  match l with
  | [] => Ok ids
  | d :: l' =>
      fail_if (bool_decide (is_Some (ids !! RangeID d))) (ErrRangeInvalid "duplicate range id");;
      match previous with
      | None => fail_if (negb (len (Start d) =? 0)) ErrRangeGap
      | Some p =>
          match End_ p with
          | None => Fail ErrRangeOverlap
          | Some e => if beq e (Start d) then Ok tt
                      else if blt (Start d) e then Fail ErrRangeOverlap else Fail ErrRangeGap
          end
      end;;
      fail_if (bool_decide (l' = []) && bool_decide (is_Some (End_ d))) ErrRangeGap;;
      check_spans (Some d) l' (<[RangeID d := d]> ids)
  end.

(** The fence checks of one range ID that stays in the image: [old] is its
    entry in the history, [previous] its entry in the current image. *)
Definition check_fence (previous : option RangeDescriptor) (old current : RangeDescriptor)
    : result range_error unit :=
  match previous with
  | None => Fail (ErrCatalogStale "tombstone resurrected")
  | Some previous =>
      fail_if (negb (beq (Start previous) (Start current)) || negb (beq (end_bytes previous) (end_bytes current)))
        (ErrCatalogStale "immutable span changed");;
      fail_if ((Generation current <? Generation old) || (OwnerEpoch current <? OwnerEpoch old))
        (ErrCatalogStale "fence regressed");;
      fail_if (is_phase (Phase previous) RangeRetired && negb (is_phase (Phase current) RangeRetired))
        (ErrCatalogStale "retired resurrected");;
      fail_if (negb (validPhaseTransition (Phase previous) (Phase current))) (ErrCatalogStale "phase");;
      fail_if ((negb (GroupID previous =? GroupID current) || negb (equalUint64 (Voters previous) (Voters current)))
               && (OwnerEpoch current <=? OwnerEpoch old))
        (ErrCatalogStale "owner epoch did not advance")
  end.

(** The history loop, in the order the map is iterated.  It writes the
    history as it goes, so a failure leaves the writes made so far. *)
Fixpoint check_history (current : gmap bytes RangeDescriptor) (next : gmap bytes RangeDescriptor)
    (order : list bytes) (hist : gmap bytes RangeDescriptor)
    : gmap bytes RangeDescriptor * result range_error unit :=
  match order with
  | [] => (hist, Ok tt)
  | id :: order' =>
      match hist !! id with
      | None => check_history current next order' hist
      | Some old =>
          match next !! id with
          | None => check_history current next order'
                      (if is_phase (Phase old) RangeRetired then hist
                       else <[id := with_phase old RangeRetired]> hist)
          | Some d =>
              match check_fence (current !! id) old d with
              | Ok _ => check_history current next order' hist
              | Fail e => (hist, Fail e)
              end
          end
      end
  end.

Definition replaceLocked (c : RangeCatalog) (v : Z) (ds : list RangeDescriptor) (requireAdvance : bool)
    (order : list bytes) : RangeCatalog * result range_error unit :=
  let check :=
    fail_if ((v =? 0) || (requireAdvance && (v <=? version c))) (ErrCatalogStale "version");;
    fail_if ((len ds =? 0) || (maxRangeDescriptors <? len ds)) (ErrRangeInvalid "descriptor count");;
    let next := cloneDescriptors ds in
    for_all Validate next;;
    let next := sort_by Start next in
    ids ← check_spans None next ∅;
    Ok (next, ids) in
  match check with
  | Fail e => (c, Fail e)
  | Ok (next, ids) =>
      let '(hist, r) :=
        if negb (version c =? 0) then check_history (byID c) ids order (history c) else (history c, Ok tt) in
      let c := mkCatalog (version c) (descriptors c) (byID c) hist in
      match r with
      | Fail e => (c, Fail e)
      | Ok _ =>
          if 2 * maxRangeDescriptors <? Z.of_nat (size hist) + Z.of_nat (size ids) then (c, Fail ErrBackpressure)
          else (mkCatalog v next ids ((Clone <$> ids) ∪ hist), Ok tt)
      end
  end.

Definition NewRangeCatalog (v : Z) (ds : list RangeDescriptor) : result range_error RangeCatalog :=
  match replaceLocked zero_catalog v ds false [] with
  | (c, Ok _) => Ok c
  | (_, Fail e) => Fail e
  end.

Definition Replace (c : option RangeCatalog) (v : Z) (ds : list RangeDescriptor) (order : list bytes)
    : option RangeCatalog * result range_error unit :=
  match c with
  | None => (None, Fail ErrCatalogCorrupt)
  | Some c => let '(c, r) := replaceLocked c v ds true order in (Some c, r)
  end.

(** ** Routing *)

Definition descriptorForKey (c : RangeCatalog) (key : bytes) : option RangeDescriptor :=
  List.find (fun d => Contains d key) (descriptors c).

Definition Route (c : option RangeCatalog) (key : bytes) : result range_error RangeDescriptor :=
  match c with
  | None => Fail ErrCatalogCorrupt
  | Some c =>
      match descriptorForKey c key with
      | None => Fail ErrRangeGap
      | Some d => if is_phase (Phase d) RangeServing then Ok (Clone d) else Fail ErrRangeNotServing
      end
  end.

Definition RouteAt (c : option RangeCatalog) (key rangeID : bytes) (generation ownerEpoch groupID : Z)
    : result range_error RangeDescriptor :=
  match c with
  | None => Fail ErrCatalogCorrupt
  | Some c =>
      match descriptorForKey c key with
      | None => Fail ErrRangeGap
      | Some d =>
          if negb (beq (RangeID d) rangeID) || negb (Generation d =? generation)
             || negb (OwnerEpoch d =? ownerEpoch) || negb (GroupID d =? groupID)
             || negb (is_phase (Phase d) RangeServing)
          then Fail (ErrRangeMoved (mkMoved rangeID generation ownerEpoch groupID [Clone d]))
          else Ok (Clone d)
      end
  end.

Definition VerifyGeneration (c : option RangeCatalog) (d : RangeDescriptor) : result range_error unit :=
  match c with
  | None => Fail ErrCatalogCorrupt
  | Some c =>
      Validate d;;
      match history c !! RangeID d with
      | None => Ok tt
      | Some old =>
          match byID c !! RangeID d with
          | None => Fail (ErrCatalogStale "")
          | Some previous =>
              fail_if (negb (beq (Start previous) (Start d)) || negb (beq (end_bytes previous) (end_bytes d))
                       || (Generation d <? Generation old) || (OwnerEpoch d <? OwnerEpoch old)) (ErrCatalogStale "");;
              fail_if (is_phase (Phase previous) RangeRetired && negb (is_phase (Phase d) RangeRetired))
                (ErrCatalogStale "");;
              fail_if (negb (validPhaseTransition (Phase previous) (Phase d))) (ErrCatalogStale "");;
              fail_if ((negb (GroupID previous =? GroupID d) || negb (equalUint64 (Voters previous) (Voters d)))
                       && (OwnerEpoch d <=? OwnerEpoch old)) (ErrCatalogStale "")
          end
      end
  end.

Definition ValidateAgainstVoters (c : option RangeCatalog) (voters : list Z) : result range_error unit :=
  match c, voters with
  | Some c, [v0; v1; v2] =>
      fail_if ((v0 =? 0) || (v1 <=? v0) || (v2 <=? v1)) (ErrRangeInvalid "ConfState must contain sorted RF3 voters");;
      for_all (fun d => fail_if (negb (equalUint64 (Voters d) voters))
                          (ErrRangeInvalid "descriptor voters differ from ConfState")) (descriptors c)
  | _, _ => Fail (ErrRangeInvalid "ConfState must contain sorted RF3 voters")
  end.

Definition DescriptorByID (c : option RangeCatalog) (id : bytes) : option RangeDescriptor :=
  match c with
  | None => None
  | Some c => Clone <$> match byID c !! id with Some d => Some d | None => history c !! id end
  end.

(** ** The binary image *)

Definition historyDescriptors (c : RangeCatalog) : list RangeDescriptor :=
  let ids := sort_by id (map fst (map_to_list (history c))) in
  Clone <$> omap (fun id => history c !! id) ids.

Definition writeCount (count : Z) : result range_error bytes :=
  fail_if ((count <? 0) || (2 * maxRangeDescriptors <? count)) ErrBackpressure;; Ok (be 4 count).

Definition writeBytes (value : bytes) (max : Z) : result range_error bytes :=
  fail_if (max <? len value) (ErrRangeInvalid "");; Ok (be 4 (len value) ++ value).

Definition writeDescriptor (d : RangeDescriptor) : result range_error bytes :=
  Validate d;;
  id ← writeBytes (RangeID d) maxRangeIDBytes;
  start ← writeBytes (Start d) maxRangeKeyBytes;
  endb ← match End_ d with
         | None => Ok (be 4 rangeInfinity)
         | Some e => writeBytes e maxRangeKeyBytes
         end;
  count ← writeCount (len (Voters d));
  Ok (id ++ start ++ endb ++ be 8 (Generation d) ++ be 8 (OwnerEpoch d) ++ be 8 (GroupID d)
      ++ [Phase d] ++ count ++ concat (map (be 8) (Voters d))).

Fixpoint writeDescriptors (l : list RangeDescriptor) : result range_error bytes :=
  match l with
  | [] => Ok []
  | d :: l' => b ← writeDescriptor d; rest ← writeDescriptors l'; Ok (b ++ rest)
  end.

Definition MarshalBinary (c : option RangeCatalog) : result range_error bytes :=
  match c with
  | None => Fail ErrCatalogCorrupt
  | Some c =>
      fail_if ((version c =? 0) || (len (descriptors c) =? 0)
               || (2 * maxRangeDescriptors <? Z.of_nat (size (history c)))) ErrCatalogCorrupt;;
      count ← writeCount (len (descriptors c));
      ds ← writeDescriptors (descriptors c);
      let hist := historyDescriptors c in
      hcount ← writeCount (len hist);
      hs ← writeDescriptors hist;
      let body := rangeMagic ++ [rangeFormat] ++ be 8 (version c) ++ count ++ ds ++ hcount ++ hs in
      fail_if (maxRangeCatalogSize <? len body + 4) ErrBackpressure;;
      Ok (body ++ be 4 (crc32.Checksum body))
  end.

(** The readers advance a position in the image; they are modelled on the
    bytes from that position on. *)
Definition reader (A : Type) : Type := bytes -> option (A * bytes).

Definition readU64 : reader Z := fun data =>
  if len data <? 8 then None else Some (un_be (sub data 0 8), drop 8 data).

Definition readCount : reader Z := fun data =>
  if len data <? 4 then None
  else let value := un_be (sub data 0 4) in
       if 2 * maxRangeDescriptors <? value then None else Some (value, drop 4 data).

Definition readBytes (max : Z) : reader bytes := fun data =>
  if len data <? 4 then None
  else let length := un_be (sub data 0 4) in
       let rest := drop 4 data in
       if (uint32 max <? length) || (len rest <? length) then None
       else Some (sub rest 0 length, drop (Z.to_nat length) rest).

(** The [End] field: [rangeInfinity] stands for nil, and a length of zero
    reads as nil too ([append] onto a nil slice). *)
Definition read_end : reader (option bytes) := fun data =>
  if len data <? 4 then None
  else let length := un_be (sub data 0 4) in
       let rest := drop 4 data in
       if length =? rangeInfinity then Some (None, rest)
       else if (maxRangeKeyBytes <? length) || (len rest <? length) then None
       else Some (if length =? 0 then None else Some (sub rest 0 length), drop (Z.to_nat length) rest).

Definition readByte : reader byte := fun data =>
  match data with [] => None | b :: rest => Some (b, rest) end.

Fixpoint read_many {A} (n : nat) (r : reader A) : reader (list A) := fun data =>
  match n with
  | O => Some ([], data)
  | S n' =>
      '(x, data) ← r data;
      '(xs, data) ← read_many n' r data;
      Some (x :: xs, data)
  end.

Definition readDescriptor : reader RangeDescriptor := fun data =>
  '(id, data) ← readBytes maxRangeIDBytes data;
  '(start, data) ← readBytes maxRangeKeyBytes data;
  '(end_, data) ← read_end data;
  '(generation, data) ← readU64 data;
  '(ownerEpoch, data) ← readU64 data;
  '(groupID, data) ← readU64 data;
  '(phase, data) ← readByte data;
  '(voterCount, data) ← readCount data;
  if negb (voterCount =? 3) then None
  else '(voters, data) ← read_many 3 readU64 data;
       let d := mkRange id start end_ generation ownerEpoch groupID voters phase in
       if is_ok (Validate d) then Some (d, data) else None.

(** The loop that attaches the tombstones of the image to the new catalog. *)
Fixpoint attach_history (ids : gmap bytes RangeDescriptor) (l : list RangeDescriptor) (seen : gset bytes)
    (hist : gmap bytes RangeDescriptor) : option (gmap bytes RangeDescriptor) :=
  match l with
  | [] => Some hist
  | d :: l' =>
      if bool_decide (RangeID d ∈ seen) then None
      else
        let seen := {[RangeID d]} ∪ seen in
        match ids !! RangeID d with
        | Some current =>
            if EqualRangeDescriptor current d then attach_history ids l' seen hist else None
        | None =>
            if is_phase (Phase d) RangeRetired then attach_history ids l' seen (<[RangeID d := Clone d]> hist)
            else None
        end
  end.

(** Every failure of the parser is reported as [ErrCatalogCorrupt]. *)
Definition parse_image (encoded : bytes) : option RangeCatalog :=
  let data := drop 5 encoded in
  '(v, data) ← readU64 data;
  '(count, data) ← readCount data;
  if (count =? 0) || (maxRangeDescriptors <? count) then None
  else
    '(ds, data) ← read_many (Z.to_nat count) readDescriptor data;
    '(historyCount, data) ← readCount data;
    if 2 * maxRangeDescriptors <? historyCount then None
    else
      '(hs, data) ← read_many (Z.to_nat historyCount) readDescriptor data;
      if negb (len data =? 4) then None
      else match NewRangeCatalog v ds with
           | Fail _ => None
           | Ok c =>
               hist ← attach_history (byID c) hs ∅ (history c);
               Some (mkCatalog (version c) (descriptors c) (byID c) hist)
           end.

Definition UnmarshalRangeCatalog (encoded : bytes) : result range_error RangeCatalog :=
  fail_if ((len encoded <? 5 + 8 + 4 + 4) || (maxRangeCatalogSize <? len encoded)) ErrCatalogCorrupt;;
  fail_if (negb (beq (sub encoded 0 4) rangeMagic) || negb (beq (sub encoded 4 5) [rangeFormat])) ErrCatalogCorrupt;;
  fail_if (negb (crc32.Checksum (sub encoded 0 (len encoded - 4))
                 =? un_be (sub encoded (len encoded - 4) (len encoded)))) ErrCatalogCorrupt;;
  match parse_image encoded with
  | None => Fail ErrCatalogCorrupt
  | Some c =>
      match MarshalBinary (Some c) with
      | Ok canonical => if beq canonical encoded then Ok c else Fail ErrCatalogCorrupt
      | Fail _ => Fail ErrCatalogCorrupt
      end
  end.

(** ** catalog.go *)

(** The loop over the previous history: it completes the history of [next]
    with the fences that are not in its image. *)
Fixpoint carry_history (ids previous : gmap bytes RangeDescriptor) (order : list bytes)
    (hist : gmap bytes RangeDescriptor) : result range_error (gmap bytes RangeDescriptor) :=
  match order with
  | [] => Ok hist
  | id :: order' =>
      match previous !! id with
      | None => carry_history ids previous order' hist
      | Some fence =>
          if bool_decide (is_Some (ids !! id)) then carry_history ids previous order' hist
          else
            fail_if (match hist !! id with
                     | Some existing => negb (EqualRangeDescriptor existing fence)
                     | None => false
                     end) (ErrCatalogStale "");;
            carry_history ids previous order' (<[id := with_phase (Clone fence) RangeRetired]> hist)
      end
  end.

(** [validateCatalogReplacement]; the result is [next] with its history
    completed. *)
Definition validateCatalogReplacement (previous next : option RangeCatalog) (order : list bytes)
    : result range_error RangeCatalog :=
  match previous, next with
  | Some p, Some n =>
      fail_if (Version next <=? Version previous) (ErrCatalogStale "");;
      for_all (VerifyGeneration previous) (Descriptors next);;
      hist ← carry_history (byID n) (history p) order (history n);
      Ok (mkCatalog (version n) (descriptors n) (byID n) hist)
  | _, _ => Fail ErrCatalogCorrupt
  end.

(** ** Specification *)

(** The values of the Go types: 64-bit unsigned fields. *)
Definition desc_width (d : RangeDescriptor) : Prop :=
  is_u64 (Generation d) /\ is_u64 (OwnerEpoch d) /\ is_u64 (GroupID d) /\ Forall is_u64 (Voters d).

Definition span_ok (d : RangeDescriptor) : Prop :=
  match End_ d with Some e => blt (Start d) e = true | None => True end.

(** The spans of [l] tile the key space from [from] up to plus infinity. *)
Fixpoint tiles (from : bytes) (l : list RangeDescriptor) : Prop :=
  match l with
  | [] => False
  | d :: l' => Start d = from /\ match End_ d with None => l' = [] | Some e => l' <> [] /\ tiles e l' end
  end.

Definition index (l : list RangeDescriptor) : gmap bytes RangeDescriptor :=
  list_to_map (map (fun d => (RangeID d, d)) l).

(** A complete image: bounded, valid descriptors with distinct IDs that tile
    the key space in order. *)
Record image_ok (l : list RangeDescriptor) : Prop := {
  image_count : 1 <= len l <= maxRangeDescriptors;
  image_valid : Forall (fun d => Validate d = Ok tt) l;
  image_ids : NoDup (map RangeID l);
  image_tiles : tiles [] l
}.

(** The invariant of a published catalog: its image is complete, the index
    and the history agree with it, and whatever else the history holds is a
    retired tombstone. *)
Record catalog_ok (c : RangeCatalog) : Prop := {
  cat_version : 1 <= version c <= max_uint64;
  cat_image : image_ok (descriptors c);
  cat_byID : byID c = index (descriptors c);
  cat_current : byID c ⊆ history c;
  cat_tombstones : forall id d, history c !! id = Some d ->
    RangeID d = id /\ Validate d = Ok tt /\ (byID c !! id = None -> Phase d = RangeRetired);
  cat_width : (forall d, d ∈ descriptors c -> desc_width d) /\ (forall id d, history c !! id = Some d -> desc_width d);
  cat_size : Z.of_nat (size (history c)) <= 2 * maxRangeDescriptors
}.

(** What a later descriptor of the same range must satisfy. *)
Record advances (a b : RangeDescriptor) : Prop := {
  adv_start : Start a = Start b;
  adv_end : End_ a = End_ b;
  adv_generation : Generation a <= Generation b;
  adv_epoch : OwnerEpoch a <= OwnerEpoch b;
  adv_phase : validPhaseTransition (Phase a) (Phase b) = true;
  adv_owner : GroupID a <> GroupID b \/ Voters a <> Voters b -> OwnerEpoch a < OwnerEpoch b
}.

Definition retire_absent (next hist : gmap bytes RangeDescriptor) : gmap bytes RangeDescriptor :=
  map_imap (fun id old => Some (match next !! id with Some _ => old | None => with_phase old RangeRetired end)) hist.

Definition next_image (ds : list RangeDescriptor) : list RangeDescriptor := sort_by Start (cloneDescriptors ds).

(** The replacements a catalog accepts, and the catalog it becomes. *)
Record admissible (c : RangeCatalog) (v : Z) (ds : list RangeDescriptor) : Prop := {
  adm_version : version c < v;
  adm_image : image_ok (next_image ds);
  adm_fences : forall d old, d ∈ next_image ds -> history c !! RangeID d = Some old ->
    byID c !! RangeID d = Some old /\ advances old d;
  adm_size : Z.of_nat (size (history c)) + len ds <= 2 * maxRangeDescriptors
}.

Definition replaced (c : RangeCatalog) (v : Z) (ds : list RangeDescriptor) : RangeCatalog :=
  let ids := index (next_image ds) in
  mkCatalog v (next_image ds) ids (ids ∪ retire_absent ids (history c)).

(** [order] is an order in which the history of [c] can be iterated. *)
Definition map_order {A} (m : gmap bytes A) (order : list bytes) : Prop := order ≡ₚ map fst (map_to_list m).

(** ** Descriptors: lemmas *)

Lemma is_phase_true p q : is_phase p q = true <-> p = q.
Proof. apply bool_decide_eq_true. Qed.

Lemma equalUint64_spec a b : equalUint64 a b = true <-> a = b.
Proof.
  revert b. induction a as [|x a IH]; intros [|y b]; cbn; try done.
  rewrite andb_true_iff, Z.eqb_eq, IH. split; [by intros [-> ->]|by intros [= -> ->]].
Qed.

Lemma Validate_span d : Validate d = Ok tt -> span_ok d.
Proof.
  unfold Validate. intros H. inv_res. unfold span_ok. destruct (End_ d) as [e|]; [|done].
  rewrite ble_blt in *. by destruct (blt (Start d) e).
Qed.

Lemma Validate_bounds d : Validate d = Ok tt ->
  RangeID d <> [] /\ len (RangeID d) <= maxRangeIDBytes /\ len (Start d) <= maxRangeKeyBytes /\
  len (end_bytes d) <= maxRangeKeyBytes /\ len (Voters d) = 3.
Proof. unfold Validate. intros H. inv_res. bool_to_prop. split_and!; done || lia. Qed.

Lemma Clone_valid d : Validate d = Ok tt -> Clone d = d.
Proof.
  intros H%Validate_span. destruct d as [i s e g o gr v p]. unfold span_ok, Clone in *. cbn in *.
  destruct e as [[|b e]|]; try done. by destruct s.
Qed.

Lemma map_Clone_valid l : Forall (fun d => Validate d = Ok tt) l -> map Clone l = l.
Proof. induction 1 as [|d l Hd _ IH]; cbn; [done|]. by rewrite IH, Clone_valid. Qed.

Lemma end_bytes_inj a b : span_ok a -> span_ok b -> end_bytes a = end_bytes b -> End_ a = End_ b.
Proof.
  unfold span_ok, end_bytes. destruct (End_ a) as [ea|], (End_ b) as [eb|]; cbn; intros Ha Hb E; subst; try done.
  - by destruct (Start a).
  - by destruct (Start b).
Qed.

Lemma EqualRangeDescriptor_spec a b :
  span_ok a -> span_ok b -> EqualRangeDescriptor a b = true <-> a = b.
Proof.
  intros Ha Hb. unfold EqualRangeDescriptor.
  rewrite !andb_true_iff, !beq_true, !Z.eqb_eq, equalUint64_spec, is_phase_true. split.
  - intros [[[[[[[? ?] ?%end_bytes_inj] ?] ?] ?] ?] ?]; [|done..]. destruct a, b; cbn in *. by subst.
  - intros ->. done.
Qed.

Lemma with_phase_same d : Phase d = RangeRetired -> with_phase d RangeRetired = d.
Proof. destruct d; cbn. by intros ->. Qed.

Lemma Validate_retire d : Validate d = Ok tt -> Validate (with_phase d RangeRetired) = Ok tt.
Proof.
  unfold Validate, end_bytes. cbn. intros H. inv_res.
  by repeat (rewrite fail_if_false by done).
Qed.

(** ** Tilings: lemmas *)

Lemma tiles_contains_some key l : forall from,
  tiles from l -> ble from key = true ->
  exists d, List.find (fun d => Contains d key) l = Some d /\ d ∈ l /\ Contains d key = true.
Proof.
  induction l as [|d l IH]; intros from; [done|]. cbn [tiles List.find]. intros [<- Ht] Hk.
  destruct (Contains d key) eqn:E; [exists d; split_and!; [done|by left|done]|].
  unfold Contains in E. rewrite Hk in E. destruct (End_ d) as [e|]; [|done]. cbn in E.
  destruct Ht as [_ Ht]. destruct (IH e Ht ltac:(by apply blt_false)) as (d' & -> & ? & ?).
  exists d'. split_and!; [done|by right|done].
Qed.

Lemma tiles_start_le l : forall from d,
  tiles from l -> Forall span_ok l -> d ∈ l -> ble from (Start d) = true.
Proof.
  induction l as [|x l IH]; intros from d; [done|]. intros [<- Ht] [Hx Hl]%Forall_cons [->|Hd]%elem_of_cons; [apply ble_refl|].
  unfold span_ok in Hx. destruct (End_ x) as [e|]; [|subst; by apply not_elem_of_nil in Hd].
  eapply ble_trans; [by apply blt_ble|]. by apply IH; [apply Ht|..].
Qed.

Lemma tiles_contains_unique key l : forall from d d',
  tiles from l -> Forall span_ok l -> d ∈ l -> d' ∈ l ->
  Contains d key = true -> Contains d' key = true -> d = d'.
Proof.
  induction l as [|x l IH]; intros from d d'; [by intros _ _ H%not_elem_of_nil|].
  intros [<- Ht] [Hx Hl]%Forall_cons Hd Hd'.
  assert (forall y, y ∈ l -> Contains x key = true -> Contains y key = true -> False) as Hex.
  { intros y Hy Cx Cy. unfold Contains in Cx, Cy. bool_to_prop.
    destruct (End_ x) as [e|]; [|subst; by apply not_elem_of_nil in Hy].
    assert (ble e (Start y) = true) as Hle by (apply (tiles_start_le l); [apply Ht|done|done]).
    assert (ble e key = true) as Hk by (by eapply ble_trans).
    rewrite ble_blt in Hk. by destruct (blt key e). }
  apply elem_of_cons in Hd as [->|Hd], Hd' as [->|Hd']; intros C C'; try done.
  - destruct (Hex d' Hd' C C').
  - destruct (Hex d Hd C' C).
  - destruct (End_ x) as [e|]; [|subst; by apply not_elem_of_nil in Hd]. by apply (IH e); [apply Ht|..].
Qed.

Lemma tiles_increasing l : forall from,
  tiles from l -> Forall span_ok l -> keys_increasing (map Start l) = true.
Proof.
  induction l as [|x l IH]; intros from; [done|]. intros [<- Ht] [Hx Hl]%Forall_cons.
  unfold span_ok in Hx. cbn [map]. apply keys_increasing_cons.
  destruct (End_ x) as [e|]; [|subst; done]. destruct Ht as [Hne Ht]. split; [|by apply (IH e)].
  destruct l as [|y l]; [done|]. destruct Ht as [<- _]. done.
Qed.

(** Sorting leaves a tiling as it is. *)
Lemma sort_tiling l : tiles [] l -> Forall span_ok l -> NoDup (map Start l) -> sort_by Start l = l.
Proof.
  intros Ht Hs Hn. apply (increasing_perm_unique Start).
  - apply sort_by_perm.
  - by apply sort_by_increasing.
  - by apply (tiles_increasing l []).
Qed.

Lemma index_cons d l : index (d :: l) = <[RangeID d := d]> (index l).
Proof. done. Qed.

Lemma index_lookup l id d :
  NoDup (map RangeID l) -> index l !! id = Some d <-> d ∈ l /\ RangeID d = id.
Proof.
  intros Hn. unfold index. rewrite <- elem_of_list_to_map.
  - rewrite list_elem_of_fmap. split; [by intros (x & [= -> ->] & ?)|intros [? <-]; by exists d].
  - by rewrite <- list_fmap_compose.
Qed.

Lemma index_lookup_None l id : index l !! id = None <-> id ∉ map RangeID l.
Proof. unfold index. rewrite <- not_elem_of_list_to_map, <- list_fmap_compose. done. Qed.

Lemma size_index l : NoDup (map RangeID l) -> Z.of_nat (size (index l)) = len l.
Proof.
  intros Hn. unfold index, len. rewrite map_size_list_to_map.
  - by rewrite length_fmap.
  - by rewrite <- list_fmap_compose.
Qed.

(** Where the first span of the rest must start. *)
Definition resumes (previous : option RangeDescriptor) (from : bytes) : Prop :=
  match previous with None => from = [] | Some p => End_ p = Some from end.

Lemma check_spans_Ok l : forall previous ids ids',
  l <> [] ->
  check_spans previous l ids = Ok ids' <->
  (exists from, resumes previous from /\ tiles from l) /\ NoDup (map RangeID l) /\
  (forall d, d ∈ l -> ids !! RangeID d = None) /\ ids' = index l ∪ ids.
Proof.
  induction l as [|d l IH]; intros previous ids ids' Hne; [done|]. clear Hne.
  assert (forall k : result range_error (gmap bytes RangeDescriptor), 
    (match previous with
     | None => fail_if (negb (len (Start d) =? 0)) ErrRangeGap
     | Some p => match End_ p with
                 | None => Fail ErrRangeOverlap
                 | Some e => if beq e (Start d) then Ok tt
                             else if blt (Start d) e then Fail ErrRangeOverlap else Fail ErrRangeGap
                 end
     end;; k) = Ok ids' <-> resumes previous (Start d) /\ k = Ok ids') as Hstart.
  { intros k. unfold resumes. destruct previous as [p|].
    - destruct (End_ p) as [e|]; [|naive_solver]. destruct (beq e (Start d)) eqn:E.
      + apply beq_true in E as ->. naive_solver.
      + apply beq_false in E. destruct (blt (Start d) e); naive_solver.
    - destruct (len (Start d) =? 0) eqn:E; cbn.
      + apply Z.eqb_eq, len_zero_nil in E. naive_solver.
      + split; [done|]. intros [E' _]. by rewrite E' in E. }
  cbn [check_spans]. destruct (ids !! RangeID d) as [x|] eqn:Hid.
  { split; [done|]. intros (_ & _ & Hf & _). specialize (Hf d ltac:(left)). congruence. }
  rewrite fail_if_false by (apply bool_decide_eq_false_2; by intros [? ?]).
  rewrite Hstart. clear Hstart. cbn [tiles map]. rewrite NoDup_cons, index_cons.
  destruct (decide (l = [])) as [->|Hne].
  - destruct (End_ d) as [e|] eqn:He; cbn.
    + split; [naive_solver|]. intros ((from & _ & _ & ? & _) & _). done.
    + rewrite insert_empty, <- insert_union_singleton_l. split.
      * intros [? [= <-]]. split_and!; [by exists (Start d)|by intros ?%elem_of_nil|constructor| |done].
        intros d' [->|[]%elem_of_nil]%elem_of_cons. done.
      * intros ((from & ? & <- & _) & _ & _ & ->). done.
  - rewrite fail_if_false by (by rewrite bool_decide_eq_false_2).
    rewrite IH by done. split.
    + intros (Hr & (from & Hf & Ht) & Hn & Hfresh & ->). cbn in Hf.
      assert (RangeID d ∉ map RangeID l) as Hd.
      { intros (d' & Heq & Hd')%list_elem_of_fmap. specialize (Hfresh d' Hd').
        apply lookup_insert_None in Hfresh as [_ ?]. done. }
      split_and!; [|done|done| |].
      * exists (Start d). by rewrite Hf.
      * intros d' [->|Hd']%elem_of_cons; [done|]. by apply Hfresh, lookup_insert_None in Hd' as [? _].
      * by rewrite <- insert_union_r, insert_union_l by by apply index_lookup_None.
    + intros ((from & Hr & <- & Ht) & [Hd Hn] & Hfresh & ->).
      destruct (End_ d) as [e|] eqn:He; [|done]. split_and!; [done|by exists e; split; [|apply Ht]|done| |].
      * intros d' Hd'. apply lookup_insert_None. split; [apply Hfresh; by right|].
        intros Heq. apply Hd. rewrite Heq. by apply list_elem_of_fmap_2.
      * by rewrite <- insert_union_r, insert_union_l by by apply index_lookup_None.
Qed.

(** ** The history loop *)

Lemma check_fence_Ok previous old d :
  span_ok old -> span_ok d -> previous = Some old ->
  check_fence previous old d = Ok tt <-> advances old d.
Proof.
  intros Ho Hd ->. unfold check_fence. split.
  - intros H. inv_res. bool_to_prop.
    repeat match goal with E : beq _ _ = true |- _ => apply beq_true in E end.
    assert (End_ old = End_ d) by (by apply end_bytes_inj).
    split; try done; [lia..|]. intros Hown. apply Z.nle_gt. intros Hle.
    assert (negb (GroupID old =? GroupID d) || negb (equalUint64 (Voters old) (Voters d)) = true) as Hc.
    { apply orb_true_iff. rewrite !negb_true_iff, Z.eqb_neq. destruct Hown; [by left|right].
      apply not_true_iff_false. by rewrite equalUint64_spec. }
    rewrite Hc in *. by apply Z.leb_le in Hle; rewrite Hle in *.
  - intros [Hs He Hg Hep Hp Hown]. unfold end_bytes. rewrite Hs, He, !beq_refl, Hp. cbn.
    rewrite fail_if_false by (apply orb_false_iff; split; apply Z.ltb_ge; lia).
    rewrite fail_if_false.
    2:{ destruct (is_phase (Phase old) RangeRetired) eqn:Er; [|done]. apply is_phase_true in Er.
        rewrite Er in Hp. unfold validPhaseTransition in Hp. revert Hp.
        destruct (is_phase RangeRetired (Phase d)) eqn:E; [|done]. apply is_phase_true in E. by rewrite <- E. }
    apply fail_if_Ok, andb_false_iff. destruct (decide (GroupID old = GroupID d /\ Voters old = Voters d)) as [[-> ->]|Hn].
    + left. rewrite Z.eqb_refl. cbn. by rewrite (proj2 (equalUint64_spec _ _)).
    + right. apply Z.leb_gt, Hown. destruct (decide (GroupID old = GroupID d)); [right|by left]. naive_solver.
Qed.

(** The history after the loop: absent IDs are retired, the rest is kept. *)
Lemma check_history_Ok cur next order : forall hist hist' r,
  NoDup order -> check_history cur next order hist = (hist', r) ->
  (r = Ok tt <-> forall id old d, id ∈ order -> hist !! id = Some old -> next !! id = Some d ->
                   check_fence (cur !! id) old d = Ok tt) /\
  (r = Ok tt -> forall id, hist' !! id =
     if decide (id ∈ order /\ next !! id = None) then (fun old => with_phase old RangeRetired) <$> hist !! id
     else hist !! id).
Proof.
  induction order as [|i order IH]; intros hist hist' r Hn; cbn [check_history].
  { intros [= <- <-]. split; [split; [by intros _ ? ? ? ?%elem_of_nil|done]|].
    intros _ id. by rewrite decide_False by (by intros [?%elem_of_nil _]). }
  apply NoDup_cons in Hn as [Hi Hn]. destruct (hist !! i) as [old|] eqn:Hh.
  2:{ intros H. destruct (IH _ _ _ Hn H) as [IH1 IH2]. split.
      - rewrite IH1. split.
        + intros Hall id o d [->|Hid]%elem_of_cons ? ?; [congruence|]. by eapply Hall.
        + intros Hall id o d Hid. apply Hall. by right.
      - intros Hr id. rewrite (IH2 Hr). destruct (decide (id = i)) as [->|Hne].
        + rewrite Hh. by repeat case_decide.
        + apply decide_ext. set_solver. }
  destruct (next !! i) as [d|] eqn:Hx.
  - destruct (check_fence (cur !! i) old d) as [[]|e] eqn:Hf.
    + intros H. destruct (IH _ _ _ Hn H) as [IH1 IH2]. split.
      * rewrite IH1. split.
        -- intros Hall id o d' [->|Hid]%elem_of_cons ? ?; [congruence|]. by eapply Hall.
        -- intros Hall id o d' Hid. apply Hall. by right.
      * intros Hr id. rewrite (IH2 Hr). destruct (decide (id = i)) as [->|Hne].
        -- rewrite Hx, !decide_False by naive_solver. done.
        -- apply decide_ext. set_solver.
    + intros [= <- <-]. split; [|done]. split; [done|]. intros Hall.
      rewrite (Hall i old d) in Hf; [done|by left|done|done].
  - set (hist1 := if is_phase _ _ then _ else _). intros H.
    assert (forall id, id <> i -> hist1 !! id = hist !! id) as Hother.
    { intros id Hid. unfold hist1. destruct (is_phase _ _); [done|]. by rewrite lookup_insert_ne. }
    assert (hist1 !! i = Some (with_phase old RangeRetired)) as Hself.
    { unfold hist1. destruct (is_phase _ _) eqn:Hp; [|by rewrite lookup_insert_eq].
      apply is_phase_true in Hp. by rewrite with_phase_same. }
    destruct (IH _ _ _ Hn H) as [IH1 IH2]. split.
    + rewrite IH1. split.
      * intros Hall id o d' [->|Hid]%elem_of_cons ? ?; [congruence|].
        apply (Hall id o d' Hid); [|done]. rewrite Hother; [done|]. by intros ->.
      * intros Hall id o d' Hid Ho. apply (Hall id o d'); [by right|]. rewrite Hother in Ho; [done|]. by intros ->.
    + intros Hr id. rewrite (IH2 Hr). destruct (decide (id = i)) as [->|Hne].
      * rewrite (decide_False (P := i ∈ order /\ _)) by naive_solver.
        rewrite decide_True by (split; [by left|done]). by rewrite Hself, Hh.
      * rewrite Hother by done. apply decide_ext. set_solver.
Qed.

Lemma retire_absent_lookup next hist id :
  retire_absent next hist !! id =
  (fun old => match next !! id with Some _ => old | None => with_phase old RangeRetired end) <$> hist !! id.
Proof. unfold retire_absent. rewrite map_lookup_imap. by destruct (hist !! id). Qed.

Lemma map_order_spec {A} (m : gmap bytes A) order id :
  map_order m order -> id ∈ order <-> is_Some (m !! id).
Proof.
  intros ->. rewrite list_elem_of_fmap. split.
  - intros ([k v] & -> & H%elem_of_map_to_list). by exists v.
  - intros [v H]. exists (id, v). by rewrite elem_of_map_to_list.
Qed.

Lemma map_order_NoDup {A} (m : gmap bytes A) order : map_order m order -> NoDup order.
Proof. intros ->. apply NoDup_fst_map_to_list. Qed.

Lemma check_history_full cur next hist hist' order r :
  map_order hist order -> check_history cur next order hist = (hist', r) ->
  (r = Ok tt <-> forall id old d, hist !! id = Some old -> next !! id = Some d ->
                   check_fence (cur !! id) old d = Ok tt) /\
  (r = Ok tt -> hist' = retire_absent next hist).
Proof.
  intros Hord H. destruct (check_history_Ok _ _ _ _ _ _ (map_order_NoDup _ _ Hord) H) as [H1 H2]. split.
  - rewrite H1. split; [|naive_solver]. intros Hall id old d Ho. apply Hall; [|done].
    apply (map_order_spec _ _ _ Hord). by exists old.
  - intros Hr. apply map_eq. intros id. rewrite (H2 Hr), retire_absent_lookup.
    destruct (hist !! id) as [old|] eqn:Ho; [|by case_decide].
    destruct (next !! id) eqn:Hx; [by rewrite decide_False by naive_solver|].
    rewrite decide_True; [done|]. split; [|done]. apply (map_order_spec _ _ _ Hord). by exists old.
Qed.

Lemma size_retire_absent next hist : size (retire_absent next hist) = size hist.
Proof.
  rewrite <- !size_dom. f_equal. apply set_eq. intros id. rewrite !elem_of_dom, retire_absent_lookup.
  by rewrite fmap_is_Some.
Qed.

(** ** Replacement *)

Lemma next_image_perm ds : next_image ds ≡ₚ cloneDescriptors ds.
Proof. apply sort_by_perm. Qed.

Lemma len_next_image ds : len (next_image ds) = len ds.
Proof. unfold len. rewrite (Permutation_length (next_image_perm ds)). unfold cloneDescriptors. by rewrite length_map. Qed.

(** The checks of the new image alone accept exactly the complete images. *)
Lemma image_checks_Ok ds r :
  (fail_if ((len ds =? 0) || (maxRangeDescriptors <? len ds)) (ErrRangeInvalid "descriptor count");;
   for_all Validate (cloneDescriptors ds);;
   ids ← check_spans None (next_image ds) ∅;
   Ok (next_image ds, ids)) = Ok r <->
  image_ok (next_image ds) /\ r = (next_image ds, index (next_image ds)).
Proof.
  pose proof (len_next_image ds) as Hlen. pose proof (len_nonneg ds). split.
  - intros Hr. inv_res. bool_to_prop.
    match goal with E : for_all _ _ = Ok _ |- _ => apply for_all_Ok in E; rename E into Hv end.
    match goal with E : check_spans _ _ _ = Ok _ |- _ => apply check_spans_Ok in E as ((from & -> & Ht) & Hn & _ & ->) end.
    2:{ intros E. rewrite E in Hlen. rewrite (@len_nil RangeDescriptor) in Hlen. lia. }
    rewrite (right_id_L ∅ (∪)). split; [|done]. split; [lia| |done|done]. by rewrite next_image_perm.
  - intros [[Hc Hv Hn Ht] ->]. rewrite fail_if_false.
    2:{ apply orb_false_iff. split; [apply Z.eqb_neq|apply Z.ltb_ge]; lia. }
    rewrite next_image_perm in Hv. apply for_all_Ok in Hv. rewrite Hv. cbn.
    assert (check_spans None (next_image ds) ∅ = Ok (index (next_image ds) ∪ ∅)) as Hs.
    { apply check_spans_Ok; [by intros E; rewrite E in Ht|]. split_and!; [by exists []|done| |done].
      intros. apply lookup_empty. }
    rewrite Hs. cbn. by rewrite (right_id_L ∅ (∪)).
Qed.

Lemma index_Clone l : Forall (fun d => Validate d = Ok tt) l -> Clone <$> index l = index l.
Proof.
  intros Hv. induction Hv as [|d l Hd _ IH]; [done|].
  by rewrite index_cons, fmap_insert, IH, Clone_valid.
Qed.

Lemma fences_iff c ds :
  catalog_ok c -> image_ok (next_image ds) ->
  (forall id old d, history c !! id = Some old -> index (next_image ds) !! id = Some d ->
     check_fence (byID c !! id) old d = Ok tt) <->
  (forall d old, d ∈ next_image ds -> history c !! RangeID d = Some old ->
     byID c !! RangeID d = Some old /\ advances old d).
Proof.
  intros Hc Hi. assert (forall id d, index (next_image ds) !! id = Some d <-> d ∈ next_image ds /\ RangeID d = id) as Hl.
  { intros. apply index_lookup, Hi. }
  assert (forall d old, d ∈ next_image ds -> history c !! RangeID d = Some old ->
    check_fence (byID c !! RangeID d) old d = Ok tt <-> byID c !! RangeID d = Some old /\ advances old d) as Hf.
  { intros d old Hd Ho. assert (span_ok d) as Hsd.
    { apply Validate_span. pose proof (image_valid _ Hi) as Hv. rewrite Forall_forall in Hv. by apply Hv. }
    assert (span_ok old) as Hso by (apply Validate_span; by apply (cat_tombstones c Hc) in Ho as (_ & ? & _)).
    destruct (byID c !! RangeID d) as [p|] eqn:Hp; [|naive_solver].
    pose proof (lookup_weaken _ _ _ _ Hp (cat_current c Hc)). assert (p = old) as -> by congruence.
    rewrite check_fence_Ok by done. naive_solver. }
  split.
  - intros H d old Hd Ho. apply Hf; [done..|]. apply (H _ _ _ Ho). by apply Hl.
  - intros H id old d Ho [Hd <-]%Hl. apply Hf; [done..|]. by apply H.
Qed.

Lemma replaceLocked_Ok c v ds order c' r :
  catalog_ok c -> map_order (history c) order ->
  replaceLocked c v ds true order = (c', r) ->
  (r = Ok tt <-> admissible c v ds) /\ (r = Ok tt -> c' = replaced c v ds).
Proof.
  intros Hc Hord. pose proof (cat_version c Hc) as Hver. unfold replaceLocked.
  change (sort_by Start (cloneDescriptors ds)) with (next_image ds).
  destruct (decide (version c < v)) as [Hv|Hv].
  2:{ replace ((v =? 0) || (true && (v <=? version c))) with true.
      2:{ symmetry. apply orb_true_iff. right. cbn. apply Z.leb_le. lia. }
      cbn. intros [= <- <-]. split; [|done]. split; [done|]. intros [? _ _ _]. lia. }
  rewrite fail_if_false by (apply orb_false_iff; split; [apply Z.eqb_neq; lia|apply Z.leb_gt; lia]).
  match goal with |- context [match ?m with Ok _ => _ | Fail _ => _ end] => destruct m as [x|e] eqn:Hchk end.
  2:{ intros [= <- <-]. split; [|done]. split; [done|]. intros Ha.
      rewrite (proj2 (image_checks_Ok ds _) (conj (adm_image _ _ _ Ha) eq_refl)) in Hchk. done. }
  apply image_checks_Ok in Hchk as [Hi ->].
  replace (negb (version c =? 0)) with true by (symmetry; apply negb_true_iff, Z.eqb_neq; lia).
  destruct (check_history _ _ _ _) as [hist r1] eqn:Hh.
  destruct (check_history_full _ _ _ _ _ _ Hord Hh) as [H1 H2]. rewrite fences_iff in H1 by done.
  destruct r1 as [[]|e].
  2:{ intros [= <- <-]. split; [|done]. split; [done|]. intros Ha. by apply H1, Ha. }
  specialize (H2 eq_refl) as ->. rewrite size_retire_absent, size_index, len_next_image by apply Hi.
  destruct (2 * maxRangeDescriptors <? _) eqn:Hs; intros [= <- <-].
  - apply Z.ltb_lt in Hs. split; [|done]. split; [done|]. intros [_ _ _ ?]. lia.
  - apply Z.ltb_ge in Hs. split.
    + split; [|done]. intros _. split; [done|done|by apply H1|lia].
    + intros _. unfold replaced. by rewrite index_Clone by apply Hi.
Qed.

Lemma replaced_ok c v ds :
  catalog_ok c -> is_u64 v -> Forall desc_width ds -> admissible c v ds -> catalog_ok (replaced c v ds).
Proof.
  intros Hc Hv Hw Ha. pose proof (adm_image _ _ _ Ha) as Hi.
  assert (forall d, d ∈ next_image ds -> desc_width d) as Hwi.
  { intros d. rewrite next_image_perm. intros (d' & -> & Hd')%list_elem_of_fmap.
    rewrite Forall_forall in Hw. by apply Hw in Hd'. }
  assert (forall id d, (index (next_image ds) ∪ retire_absent (index (next_image ds)) (history c)) !! id = Some d ->
     (d ∈ next_image ds /\ RangeID d = id) \/
     (index (next_image ds) !! id = None /\ exists old, history c !! id = Some old /\ d = with_phase old RangeRetired)) as Hcase.
  { intros id d [H|[Hn H]]%lookup_union_Some_raw; [left; by apply index_lookup in H; [|apply Hi]|right].
    rewrite retire_absent_lookup, Hn in H. split; [done|]. apply fmap_Some in H as (old & ? & ->). by exists old. }
  pose proof (image_valid _ Hi) as Hval. rewrite Forall_forall in Hval.
  split; cbn.
  - pose proof (adm_version _ _ _ Ha). pose proof (cat_version c Hc). unfold is_u64 in Hv. lia.
  - done.
  - done.
  - apply map_union_subseteq_l.
  - intros id d H. apply Hcase in H as [[Hd <-]|(Hn & old & Ho & ->)].
    + split; [done|]. split; [by apply Hval|]. intros Hn. exfalso. apply index_lookup_None in Hn. apply Hn.
      by apply list_elem_of_fmap_2.
    + apply (cat_tombstones c Hc) in Ho as (<- & Ho & _). split_and!; [done| |done]. by apply Validate_retire.
  - split; [done|]. intros id d H. apply Hcase in H as [[Hd <-]|(Hn & old & Ho & ->)]; [by apply Hwi|].
    apply (proj2 (cat_width c Hc)) in Ho. done.
  - rewrite <- size_dom, dom_union_L, size_union_alt.
    pose proof (adm_size _ _ _ Ha). pose proof (size_index (next_image ds) (image_ids _ Hi)) as Hsz.
    rewrite len_next_image in Hsz. rewrite size_dom.
    assert (size (dom (retire_absent (index (next_image ds)) (history c)) ∖ dom (index (next_image ds)))
            <= size (history c))%nat; [|lia].
    rewrite <- (size_retire_absent (index (next_image ds))), <- (size_dom (retire_absent _ _)).
    apply subseteq_size, subseteq_difference_l. done.
Qed.

Lemma NewRangeCatalog_Ok v ds c :
  NewRangeCatalog v ds = Ok c <->
  v <> 0 /\ image_ok (next_image ds) /\
  c = mkCatalog v (next_image ds) (index (next_image ds)) (index (next_image ds)).
Proof.
  unfold NewRangeCatalog, replaceLocked.
  change (sort_by Start (cloneDescriptors ds)) with (next_image ds).
  destruct (decide (v = 0)) as [->|Hv]; [by cbn; naive_solver|].
  rewrite fail_if_false by (apply orb_false_iff; split; [by apply Z.eqb_neq|done]).
  match goal with |- context [match ?m with Ok _ => _ | Fail _ => _ end] => destruct m as [x|e] eqn:Hchk end.
  2:{ split; [done|]. intros (_ & Hi & _).
      rewrite (proj2 (image_checks_Ok ds _) (conj Hi eq_refl)) in Hchk. done. }
  apply image_checks_Ok in Hchk as [Hi ->]. cbn [version zero_catalog Z.eqb negb history].
  rewrite map_size_empty, size_index by apply Hi. pose proof (image_count _ Hi).
  replace (2 * maxRangeDescriptors <? _) with false by (symmetry; apply Z.ltb_ge; lia).
  rewrite index_Clone by apply Hi. rewrite (right_id_L ∅ (∪)). split; [by intros [= <-]|by intros (_ & _ & ->)].
Qed.

Lemma next_image_width ds d : Forall desc_width ds -> d ∈ next_image ds -> desc_width d.
Proof.
  intros Hw. rewrite next_image_perm. intros (d' & -> & Hd')%list_elem_of_fmap.
  rewrite Forall_forall in Hw. by apply Hw in Hd'.
Qed.

Lemma NewRangeCatalog_catalog_ok v ds c :
  is_u64 v -> Forall desc_width ds -> NewRangeCatalog v ds = Ok c -> catalog_ok c.
Proof.
  intros Hv Hw (Hv0 & Hi & ->)%NewRangeCatalog_Ok. unfold is_u64 in Hv.
  pose proof (image_valid _ Hi) as Hval. rewrite Forall_forall in Hval.
  split; cbn; [lia|done|done|done| | |].
  - intros id d [Hd <-]%index_lookup; [|apply Hi]. split_and!; [done|by apply Hval|]. intros Hn.
    apply index_lookup_None in Hn. destruct Hn. by apply list_elem_of_fmap_2.
  - split; [intros d; by apply next_image_width|].
    intros id d [Hd _]%index_lookup; [|apply Hi]. by apply (next_image_width ds).
  - rewrite size_index by apply Hi. pose proof (image_count _ Hi). lia.
Qed.

(** ** Fences along the life of a catalog *)

(** One accepted replacement, whatever the order of the map iteration. *)
Inductive evolves (c c' : RangeCatalog) : Prop :=
| evolves_replace v ds order :
    is_u64 v -> Forall desc_width ds -> map_order (history c) order ->
    Replace (Some c) v ds order = (Some c', Ok tt) -> evolves c c'.

Lemma evolves_replaced c c' :
  catalog_ok c -> evolves c c' -> exists v ds, admissible c v ds /\ c' = replaced c v ds /\ catalog_ok c'.
Proof.
  intros Hc [v ds order Hv Hw Hord H]. unfold Replace in H.
  destruct (replaceLocked c v ds true order) as [c1 r] eqn:Hr. injection H as -> ->.
  destruct (replaceLocked_Ok _ _ _ _ _ _ Hc Hord Hr) as [H1 H2].
  exists v, ds. rewrite (H2 eq_refl). split_and!; [by apply H1|done|]. apply replaced_ok; try done. by apply H1.
Qed.

(** The order between the fences of one range at two points in time. *)
Record fenced (a b : RangeDescriptor) : Prop := {
  fen_start : Start a = Start b;
  fen_end : End_ a = End_ b;
  fen_generation : Generation a <= Generation b;
  fen_epoch : OwnerEpoch a <= OwnerEpoch b;
  fen_retired : Phase a = RangeRetired -> Phase b = RangeRetired;
  fen_owner : GroupID a <> GroupID b \/ Voters a <> Voters b -> OwnerEpoch a < OwnerEpoch b
}.

#[export] Instance fenced_preorder : PreOrder fenced.
Proof.
  split.
  - intros a. split; done || lia || naive_solver.
  - intros a b c [? ? ? ? Hr Ho] [? ? ? ? Hr' Ho']. split; [congruence|congruence|lia|lia|by auto|]. intros H.
    destruct (decide (GroupID a = GroupID b /\ Voters a = Voters b)) as [[Eg Ev]|Hn].
    + enough (OwnerEpoch b < OwnerEpoch c) by lia. apply Ho'. rewrite <- Eg, <- Ev. done.
    + enough (OwnerEpoch a < OwnerEpoch b) by lia. apply Ho.
      destruct (decide (GroupID a = GroupID b)); [right|by left]. naive_solver.
Qed.

Lemma advances_fenced a b : advances a b -> fenced a b.
Proof.
  intros [? ? ? ? Hp ?]. split; try done. intros E. rewrite E in Hp. unfold validPhaseTransition in Hp.
  destruct (is_phase RangeRetired (Phase b)) eqn:Eb; [|done]. by apply is_phase_true in Eb.
Qed.

Lemma retire_fenced d : fenced d (with_phase d RangeRetired).
Proof. destruct d. split; cbn; done || lia || naive_solver. Qed.

Lemma evolves_fences c c' id d :
  catalog_ok c -> evolves c c' -> history c !! id = Some d ->
  exists d', history c' !! id = Some d' /\ fenced d d'.
Proof.
  intros Hc He Hd. apply evolves_replaced in He as (v & ds & Ha & -> & _); [|done]. cbn.
  destruct (index (next_image ds) !! id) as [d'|] eqn:Hi.
  - exists d'. split; [by apply lookup_union_Some_l|]. apply advances_fenced.
    apply index_lookup in Hi as [Hd' <-]; [|apply (adm_image _ _ _ Ha)]. by apply (adm_fences _ _ _ Ha).
  - exists (with_phase d RangeRetired). split; [|apply retire_fenced].
    by rewrite lookup_union_r, retire_absent_lookup, Hd, Hi by done.
Qed.

Lemma evolves_rtc c c' :
  catalog_ok c -> rtc evolves c c' ->
  catalog_ok c' /\ forall id d, history c !! id = Some d -> exists d', history c' !! id = Some d' /\ fenced d d'.
Proof.
  intros Hc H. induction H as [c|c c1 c' He _ IH].
  - split; [done|]. intros id d Hd. exists d. split; [done|]. reflexivity.
  - pose proof (evolves_replaced _ _ Hc He) as (_ & _ & _ & _ & Hc1). destruct (IH Hc1) as [Hc' Hf].
    split; [done|]. intros id d Hd. destruct (evolves_fences _ _ _ _ Hc He Hd) as (d1 & Hd1 & F1).
    destruct (Hf _ _ Hd1) as (d' & Hd' & F2). exists d'. split; [done|]. by transitivity d1.
Qed.

Lemma descriptorForKey_spec c key d :
  catalog_ok c -> descriptorForKey c key = Some d <-> d ∈ descriptors c /\ Contains d key = true.
Proof.
  intros Hc. pose proof (cat_image c Hc) as Hi.
  destruct (tiles_contains_some key _ _ (image_tiles _ Hi) (ble_nil key)) as (d0 & Hf & Hd0 & Hk).
  unfold descriptorForKey. rewrite Hf. split; [by intros [= <-]|]. intros [Hd Hkd]. f_equal.
  apply (tiles_contains_unique key _ _ _ _ (image_tiles _ Hi)); try done.
  eapply Forall_impl; [exact (image_valid _ Hi)|]. intros x. apply Validate_span.
Qed.

Lemma current_in_history c d : catalog_ok c -> d ∈ descriptors c -> history c !! RangeID d = Some d.
Proof.
  intros Hc Hd. apply (lookup_weaken (byID c)); [|apply Hc]. rewrite (cat_byID c Hc).
  apply index_lookup; [apply Hc|done].
Qed.

Lemma descriptor_Clone c d : catalog_ok c -> d ∈ descriptors c -> Clone d = d.
Proof.
  intros Hc Hd. apply Clone_valid. pose proof (image_valid _ (cat_image c Hc)) as Hv.
  rewrite Forall_forall in Hv. by apply Hv.
Qed.

Lemma RouteAt_Ok c key id g e gr d :
  catalog_ok c -> RouteAt (Some c) key id g e gr = Ok d <->
  d ∈ descriptors c /\ Contains d key = true /\ RangeID d = id /\ Generation d = g /\ OwnerEpoch d = e /\
  GroupID d = gr /\ Phase d = RangeServing.
Proof.
  intros Hc. unfold RouteAt. destruct (descriptorForKey c key) as [d0|] eqn:Hk.
  2:{ split; [done|]. intros (Hd & Hx & _). rewrite (proj2 (descriptorForKey_spec c key d Hc)) in Hk by done. done. }
  apply descriptorForKey_spec in Hk as [Hd0 Hk0]; [|done]. rewrite (descriptor_Clone c) by done.
  destruct (_ || _) eqn:Hg.
  - split; [done|]. intros (Hd & Hx & <- & <- & <- & <- & Hp). exfalso.
    assert (d = d0) as ->.
    { assert (descriptorForKey c key = Some d) as E1 by (by apply descriptorForKey_spec).
      assert (descriptorForKey c key = Some d0) as E2 by (by apply descriptorForKey_spec). congruence. }
    by rewrite beq_refl, !Z.eqb_refl, Hp in Hg.
  - bool_to_prop. split.
    + intros [= <-]. split_and!; try done; [by apply beq_true|by apply is_phase_true].
    + intros (Hd & Hx & _). f_equal.
      assert (descriptorForKey c key = Some d) as E1 by (by apply descriptorForKey_spec).
      assert (descriptorForKey c key = Some d0) as E2 by (by apply descriptorForKey_spec). congruence.
Qed.

(** ** Theorems *)

(** routing is total and unambiguous: in a published catalog every key
    lies in the span of exactly one descriptor; [Route] returns that
    descriptor when it is serving and refuses it otherwise, and never reports
    a gap. *)
Theorem Route_total c key :
  catalog_ok c ->
  exists d, d ∈ descriptors c /\ Contains d key = true /\
    (forall d', d' ∈ descriptors c -> Contains d' key = true -> d' = d) /\
    Route (Some c) key = if is_phase (Phase d) RangeServing then Ok d else Fail ErrRangeNotServing.
Proof.
  intros Hc. destruct (tiles_contains_some key _ _ (image_tiles _ (cat_image c Hc)) (ble_nil key)) as (d & Hf & Hd & Hk).
  exists d. split_and!; [done|done| |].
  - intros d' Hd' Hk'. assert (descriptorForKey c key = Some d') by (by apply descriptorForKey_spec).
    unfold descriptorForKey in *. congruence.
  - unfold Route. assert (descriptorForKey c key = Some d) as -> by done. by rewrite (descriptor_Clone c).
Qed.

(** C35: [Replace] accepts exactly the admissible images, in whatever order the
    history is iterated: a newer version, a complete tiling of valid
    descriptors, every range that was known before still current and
    advancing from its fence, and room in the history.  An accepted image
    becomes the current one, the ranges it drops become retired tombstones,
    and the catalog invariant is kept. *)
Theorem Replace_admissible c v ds order :
  catalog_ok c -> is_u64 v -> Forall desc_width ds -> map_order (history c) order ->
  (snd (Replace (Some c) v ds order) = Ok tt <-> admissible c v ds) /\
  (admissible c v ds -> Replace (Some c) v ds order = (Some (replaced c v ds), Ok tt) /\ catalog_ok (replaced c v ds)).
Proof.
  intros Hc Hv Hw Hord. unfold Replace. destruct (replaceLocked c v ds true order) as [c1 r] eqn:Hr.
  destruct (replaceLocked_Ok _ _ _ _ _ _ Hc Hord Hr) as [H1 H2]. split; [done|]. intros Ha.
  pose proof (proj2 H1 Ha) as ->. rewrite (H2 eq_refl). split; [done|]. by apply replaced_ok.
Qed.

(** C36: along any sequence of accepted replacements no range is forgotten and
    no fence regresses: the span of a range never changes, its generation and
    owner epoch never decrease, a retired range stays retired, and a change
    of group or voters always comes with a greater owner epoch. *)
Theorem fences_never_regress c c' :
  catalog_ok c -> rtc evolves c c' ->
  forall id d, history c !! id = Some d -> exists d', history c' !! id = Some d' /\ fenced d d'.
Proof. intros Hc H. by apply evolves_rtc. Qed.

(** a route fence is honoured by one owner only: when the same range ID,
    generation, owner epoch and group are accepted by [RouteAt] at two points
    of the catalog's life, for any keys, both routes have the same span and
    the same voters. *)
Theorem RouteAt_one_owner c c' key key' id g e gr d d' :
  catalog_ok c -> rtc evolves c c' ->
  RouteAt (Some c) key id g e gr = Ok d -> RouteAt (Some c') key' id g e gr = Ok d' ->
  Start d = Start d' /\ End_ d = End_ d' /\ Voters d = Voters d'.
Proof.
  intros Hc H Hd Hd'. destruct (evolves_rtc _ _ Hc H) as [Hc' Hf].
  apply RouteAt_Ok in Hd as (Hd & _ & <- & <- & <- & <- & _); [|done].
  apply RouteAt_Ok in Hd' as (Hd' & _ & Eid & Eg & Ee & Egr & _); [|done].
  destruct (Hf _ _ (current_in_history _ _ Hc Hd)) as (d1 & Hd1 & [Hs He _ _ _ Ho]).
  rewrite <- Eid, current_in_history in Hd1 by done. injection Hd1 as <-. split_and!; [done|done|].
  destruct (decide (Voters d = Voters d')) as [?|Hne]; [done|]. specialize (Ho (or_intror Hne)). lia.
Qed.

(** ** The binary image: lemmas *)

(** The bytes of one valid descriptor, and of the image of a catalog. *)
Definition descriptor_bytes (d : RangeDescriptor) : bytes :=
  (be 4 (len (RangeID d)) ++ RangeID d) ++ (be 4 (len (Start d)) ++ Start d)
  ++ match End_ d with None => be 4 rangeInfinity | Some e => be 4 (len e) ++ e end
  ++ be 8 (Generation d) ++ be 8 (OwnerEpoch d) ++ be 8 (GroupID d)
  ++ [Phase d] ++ be 4 (len (Voters d)) ++ concat (map (be 8) (Voters d)).

Definition image_body (c : RangeCatalog) : bytes :=
  rangeMagic ++ [rangeFormat] ++ be 8 (version c) ++ be 4 (len (descriptors c))
  ++ concat (map descriptor_bytes (descriptors c)) ++ be 4 (len (historyDescriptors c))
  ++ concat (map descriptor_bytes (historyDescriptors c)).

Lemma writeDescriptor_Ok d : Validate d = Ok tt -> writeDescriptor d = Ok (descriptor_bytes d).
Proof.
  intros Hv. destruct (Validate_bounds d Hv) as (_ & Hid & Hs & He & Hvo).
  unfold writeDescriptor, writeBytes, writeCount. rewrite Hv. cbn [mbind result_bind].
  rewrite Hvo. rewrite (fail_if_false _ _ (maxRangeIDBytes <? len (RangeID d))) by (apply Z.ltb_ge; lia). cbn [mbind result_bind].
  rewrite (fail_if_false _ _ (maxRangeKeyBytes <? len (Start d))) by (apply Z.ltb_ge; lia). cbn [mbind result_bind].
  unfold descriptor_bytes, end_bytes in *. rewrite Hvo. destruct (End_ d) as [e|]; [|done].
  change (len e <= maxRangeKeyBytes) in He.
  rewrite (fail_if_false _ _ (maxRangeKeyBytes <? len e)) by (apply Z.ltb_ge; lia). done.
Qed.

Lemma writeDescriptors_Ok l :
  Forall (fun d => Validate d = Ok tt) l -> writeDescriptors l = Ok (concat (map descriptor_bytes l)).
Proof.
  induction 1 as [|d l Hd _ IH]; [done|]. cbn [writeDescriptors map concat].
  rewrite writeDescriptor_Ok by done. cbn. by rewrite IH.
Qed.

Lemma readU64_be z rest : is_u64 z -> readU64 (be 8 z ++ rest) = Some (z, rest).
Proof.
  unfold is_u64, max_uint64. intros Hz. unfold readU64. pose proof (len_nonneg rest).
  rewrite sub_app_head by apply len_be. rewrite drop_app_head by apply length_be.
  rewrite len_app, len_be, un_be_be_small by (cbn; lia).
  by replace (_ <? 8) with false by (symmetry; apply Z.ltb_ge; lia).
Qed.

Lemma readCount_be n rest : 0 <= n <= 2 * maxRangeDescriptors -> readCount (be 4 n ++ rest) = Some (n, rest).
Proof.
  unfold maxRangeDescriptors. intros Hn. unfold readCount, maxRangeDescriptors. pose proof (len_nonneg rest).
  rewrite sub_app_head by apply len_be. rewrite drop_app_head by apply length_be.
  rewrite len_app, len_be, un_be_be_small by (cbn; lia).
  replace (_ <? 4) with false by (symmetry; apply Z.ltb_ge; lia).
  by replace (_ <? n) with false by (symmetry; apply Z.ltb_ge; lia).
Qed.

Lemma readBytes_write max v rest :
  0 <= max < 2 ^ 32 -> len v <= max -> readBytes max ((be 4 (len v) ++ v) ++ rest) = Some (v, rest).
Proof.
  intros Hm Hv. unfold readBytes. pose proof (len_nonneg rest). pose proof (len_nonneg v).
  rewrite <- app_assoc. rewrite sub_app_head by apply len_be. rewrite drop_app_head by apply length_be.
  rewrite !len_app, len_be, un_be_be_small by (cbn; lia).
  replace (_ <? 4) with false by (symmetry; apply Z.ltb_ge; lia). unfold uint32. rewrite Z.mod_small by lia.
  replace (_ || _) with false by (symmetry; apply orb_false_iff; split; apply Z.ltb_ge; lia).
  rewrite sub_app_head by done. by rewrite len_to_nat, drop_app_length.
Qed.

Lemma read_end_write d rest :
  Validate d = Ok tt ->
  read_end (match End_ d with None => be 4 rangeInfinity | Some e => be 4 (len e) ++ e end ++ rest) = Some (End_ d, rest).
Proof.
  intros Hv. pose proof (Validate_span _ Hv) as Hs. pose proof (Validate_bounds _ Hv) as (_ & _ & _ & He & _).
  unfold read_end, span_ok, end_bytes, maxRangeKeyBytes in *. pose proof (len_nonneg rest).
  destruct (End_ d) as [e|]; cbn [from_option] in He.
  - pose proof (len_nonneg e). rewrite <- app_assoc, sub_app_head by apply len_be.
    rewrite drop_app_head by apply length_be. rewrite !len_app, len_be, un_be_be_small by (change (len e <= 1024) in He; cbn; lia).
    replace (_ <? 4) with false by (symmetry; apply Z.ltb_ge; lia).
    change (len e <= 1024) in He. replace (len e =? rangeInfinity) with false by (symmetry; apply Z.eqb_neq; unfold rangeInfinity, max_uint32; lia).
    replace (_ || _) with false.
    2:{ symmetry. change (len e <= 1024) in He. apply orb_false_iff. split; apply Z.ltb_ge; [exact He|lia]. }
    rewrite sub_app_head by done. rewrite len_to_nat, drop_app_length.
    destruct (len e =? 0) eqn:E; [|done]. apply Z.eqb_eq, len_zero_nil in E as ->. by destruct (Start d).
  - rewrite sub_app_head by apply len_be. rewrite drop_app_head by apply length_be. rewrite len_app, len_be.
    replace (_ <? 4) with false by (symmetry; apply Z.ltb_ge; lia). done.
Qed.

Lemma read_many_be8 l rest : Forall is_u64 l -> read_many (length l) readU64 (concat (map (be 8) l) ++ rest) = Some (l, rest).
Proof.
  induction 1 as [|z l Hz _ IH]; [done|]. cbn [length read_many map concat]. rewrite <- app_assoc, readU64_be by done.
  cbn [mbind option_bind]. by rewrite IH.
Qed.

Lemma readDescriptor_write d rest :
  Validate d = Ok tt -> desc_width d -> readDescriptor (descriptor_bytes d ++ rest) = Some (d, rest).
Proof.
  intros Hv (Hg & Ho & Hgr & Hvo). destruct (Validate_bounds d Hv) as (_ & Hid & Hs & He & Hlen).
  unfold readDescriptor, descriptor_bytes. rewrite <- !app_assoc.
  rewrite (app_assoc (be 4 (len (RangeID d)))), readBytes_write by (unfold maxRangeIDBytes in *; lia). cbn [mbind option_bind].
  rewrite (app_assoc (be 4 (len (Start d)))), readBytes_write by (unfold maxRangeKeyBytes in *; lia). cbn [mbind option_bind].
  rewrite read_end_write by done. cbn [mbind option_bind].
  do 3 (rewrite readU64_be by done; cbn [mbind option_bind]). cbn [readByte app mbind option_bind].
  rewrite readCount_be by (rewrite Hlen; done). cbn [mbind option_bind]. rewrite Hlen. cbn [Z.eqb Pos.eqb negb].
  pose proof (read_many_be8 (Voters d) rest Hvo) as Hm.
  replace (length (Voters d)) with 3%nat in Hm by (unfold len in Hlen; lia). rewrite Hm.
  cbn [mbind option_bind]. destruct d; cbn in *. by rewrite Hv.
Qed.

Lemma read_descriptors_write l rest :
  Forall (fun d => Validate d = Ok tt) l -> (forall d, d ∈ l -> desc_width d) ->
  read_many (length l) readDescriptor (concat (map descriptor_bytes l) ++ rest) = Some (l, rest).
Proof.
  induction 1 as [|d l Hd _ IH]; intros Hw; [done|]. cbn [length read_many map concat].
  rewrite <- app_assoc, readDescriptor_write by (done || apply Hw; left).
  cbn [mbind option_bind]. by rewrite IH by (intros; apply Hw; by right).
Qed.

Lemma historyDescriptors_spec c :
  catalog_ok c ->
  map RangeID (historyDescriptors c) ≡ₚ map fst (map_to_list (history c)) /\
  Forall (fun d => Validate d = Ok tt) (historyDescriptors c) /\
  (forall d, d ∈ historyDescriptors c <-> history c !! RangeID d = Some d).
Proof.
  intros Hc. unfold historyDescriptors. set (ids := sort_by id _).
  assert (forall id, id ∈ ids <-> is_Some (history c !! id)) as Hids.
  { intros i. apply map_order_spec. apply sort_by_perm. }
  assert (forall i, i ∈ ids -> exists d, history c !! i = Some d /\ Clone d = d /\ RangeID d = i /\ Validate d = Ok tt) as Hd.
  { intros i [d Hi]%Hids. destruct (cat_tombstones c Hc _ _ Hi) as (? & ? & _). exists d.
    split_and!; try done. by apply Clone_valid. }
  assert (map RangeID (Clone <$> omap (fun id => history c !! id) ids) = ids /\
          Forall (fun d => Validate d = Ok tt /\ history c !! RangeID d = Some d)
            (Clone <$> omap (fun id => history c !! id) ids)) as [Hmap Hall].
  { clearbody ids. clear Hids. induction ids as [|i ids IH]; [done|]. cbn [omap list_omap].
    destruct (Hd i ltac:(left)) as (d & Hi & Hcl & Hid & Hv). rewrite Hi. cbn [fmap list_fmap map]. rewrite Hcl.
    destruct IH as [IH1 IH2]; [intros j Hj; apply Hd; by right|]. split; [by f_equal|]. constructor; [|done].
    by rewrite Hid. }
  split_and!.
  - rewrite Hmap. apply sort_by_perm.
  - eapply Forall_impl; [exact Hall|]. by intros d [? _].
  - intros d. rewrite Forall_forall in Hall. split; [intros H; by apply Hall in H as [_ ?]|]. intros H.
    assert (RangeID d ∈ ids) as Hi by (apply Hids; by exists d). rewrite <- Hmap in Hi.
    apply list_elem_of_fmap in Hi as (d' & E & Hd'). destruct (Hall _ Hd') as [_ H']. rewrite <- E, H in H'.
    by injection H' as ->.
Qed.

Lemma len_historyDescriptors c : catalog_ok c -> len (historyDescriptors c) = Z.of_nat (size (history c)).
Proof.
  intros Hc. destruct (historyDescriptors_spec c Hc) as (Hp & _). apply Permutation_length in Hp.
  rewrite !length_map, length_map_to_list in Hp. unfold len. lia.
Qed.

Lemma historyDescriptors_NoDup c : catalog_ok c -> NoDup (map RangeID (historyDescriptors c)).
Proof. intros Hc. destruct (historyDescriptors_spec c Hc) as (-> & _). apply NoDup_fst_map_to_list. Qed.

(** A catalog marshals to its image unless the image is too large. *)
Lemma MarshalBinary_eq c :
  catalog_ok c ->
  MarshalBinary (Some c) =
  if maxRangeCatalogSize <? len (image_body c) + 4 then Fail ErrBackpressure
  else Ok (image_body c ++ be 4 (crc32.Checksum (image_body c))).
Proof.
  intros Hc. pose proof (cat_version c Hc). pose proof (image_count _ (cat_image c Hc)). pose proof (cat_size c Hc).
  unfold MarshalBinary, writeCount. rewrite len_historyDescriptors by done. rewrite fail_if_false.
  2:{ rewrite !orb_false_iff, !Z.eqb_neq, Z.ltb_ge. lia. }
  rewrite (fail_if_false _ _ ((len (descriptors c) <? 0) || (2 * maxRangeDescriptors <? len (descriptors c)))).
  2:{ rewrite orb_false_iff, !Z.ltb_ge. unfold maxRangeDescriptors in *. lia. }
  cbn [mbind result_bind]. rewrite (writeDescriptors_Ok (descriptors c)) by apply (cat_image c Hc). cbn [mbind result_bind].
  rewrite (fail_if_false _ _ ((Z.of_nat (size (history c)) <? 0) || (2 * maxRangeDescriptors <? Z.of_nat (size (history c))))).
  2:{ rewrite orb_false_iff, !Z.ltb_ge. lia. }
  cbn [mbind result_bind]. rewrite (writeDescriptors_Ok (historyDescriptors c)) by by apply historyDescriptors_spec. cbn [mbind result_bind].
  unfold image_body. rewrite len_historyDescriptors by done.
  destruct (maxRangeCatalogSize <? _); done.
Qed.

(** ** Reading an image back *)

Lemma attach_history_Some ids l : forall seen hist hist',
  Forall (fun d => Validate d = Ok tt) l -> (forall id d, ids !! id = Some d -> Validate d = Ok tt) ->
  attach_history ids l seen hist = Some hist' <->
  NoDup (map RangeID l) /\ (forall d, d ∈ l -> RangeID d ∉ seen) /\
  (forall d, d ∈ l -> ids !! RangeID d = Some d \/ (ids !! RangeID d = None /\ Phase d = RangeRetired)) /\
  hist' = filter (fun kv => ids !! kv.1 = None) (index l) ∪ hist.
Proof.
  induction l as [|d l IH]; intros seen hist hist' Hv Hids; cbn [attach_history].
  { unfold index. cbn. rewrite map_filter_empty, (left_id_L ∅ (∪)). split.
    - intros [= ->]. split_and!; [constructor|by intros ? ?%elem_of_nil..|done].
    - by intros (_ & _ & _ & ->). }
  apply Forall_cons in Hv as [Hd Hv]. rewrite index_cons.
  destruct (decide (RangeID d ∈ seen)) as [Hs|Hs].
  { rewrite bool_decide_eq_true_2 by done. split; [done|]. intros (_ & H & _). destruct (H d ltac:(left)). done. }
  rewrite bool_decide_eq_false_2 by done. cbn [map]. rewrite NoDup_cons.
  assert (forall hist1,
    attach_history ids l ({[RangeID d]} ∪ seen) hist1 = Some hist' <->
    (RangeID d ∉ map RangeID l /\ NoDup (map RangeID l)) /\ (forall x, x ∈ d :: l -> RangeID x ∉ seen) /\
    (forall x, x ∈ l -> ids !! RangeID x = Some x \/ (ids !! RangeID x = None /\ Phase x = RangeRetired)) /\
    hist' = filter (fun kv => ids !! kv.1 = None) (index l) ∪ hist1) as Hrest.
  { intros hist1. rewrite IH by done. split.
    - intros (Hn & Hf & Hp & ->). split_and!; try done.
      + intros (x & E & Hx)%list_elem_of_fmap. apply (Hf x Hx). rewrite E. set_solver.
      + intros x [->|Hx]%elem_of_cons; [done|]. specialize (Hf x Hx). set_solver.
    - intros ([Hd' Hn] & Hf & Hp & ->). split_and!; try done. intros x Hx.
      specialize (Hf x ltac:(by right)). apply not_elem_of_union. split; [|done].
      rewrite elem_of_singleton. intros E. apply Hd'. rewrite <- E. by apply list_elem_of_fmap_2. }
  clear IH. destruct (ids !! RangeID d) as [cur|] eqn:Hc.
  - rewrite map_filter_insert_False by (cbn; by rewrite Hc).
    assert (RangeID d ∉ map RangeID l -> delete (RangeID d) (index l) = index l) as Hdel.
    { intros. by apply delete_id, index_lookup_None. }
    destruct (EqualRangeDescriptor cur d) eqn:E.
    + apply EqualRangeDescriptor_spec in E as ->; [|by eapply Validate_span, Hids|by apply Validate_span].
      rewrite Hrest. split.
      * intros ([? ?] & ? & Hp & ->). rewrite Hdel by done. split_and!; try done.
        intros x [->|?]%elem_of_cons; [by left|by apply Hp].
      * intros ([? ?] & ? & Hp & ->). rewrite Hdel by done. split_and!; try done. intros x ?. apply Hp. by right.
    + split; [done|]. intros (_ & _ & Hp & _). destruct (Hp d ltac:(left)) as [Hx|[? _]]; [|congruence].
      rewrite Hc in Hx. injection Hx as ->. 
      assert (EqualRangeDescriptor d d = true) by (apply EqualRangeDescriptor_spec; [by apply Validate_span..|done]).
      congruence.
  - rewrite map_filter_insert_True by done. destruct (is_phase (Phase d) RangeRetired) eqn:E.
    + apply is_phase_true in E. rewrite Hrest, Clone_valid by done.
      assert (RangeID d ∉ map RangeID l ->
        filter (fun kv => ids !! kv.1 = None) (index l) ∪ <[RangeID d := d]> hist
        = <[RangeID d := d]> (filter (fun kv => ids !! kv.1 = None) (index l)) ∪ hist) as Hins.
      { intros Hn. rewrite <- insert_union_r, insert_union_l; [done|]. apply map_lookup_filter_None.
        left. by apply index_lookup_None. }
      split.
      * intros ([? ?] & ? & Hp & ->). rewrite Hins by done. split_and!; try done.
        intros x [->|?]%elem_of_cons; [by right|by apply Hp].
      * intros ([? ?] & ? & Hp & ->). rewrite Hins by done. split_and!; try done. intros x ?. apply Hp. by right.
    + split; [done|]. intros (_ & _ & Hp & _). destruct (Hp d ltac:(left)) as [?|[_ Hx]]; [congruence|].
      apply is_phase_true in Hx. congruence.
Qed.

Lemma parse_image_body c crc :
  catalog_ok c -> parse_image (image_body c ++ be 4 crc) = Some c.
Proof.
  intros Hc. pose proof (cat_image c Hc) as Hi. pose proof (cat_version c Hc). pose proof (image_count _ Hi).
  pose proof (cat_size c Hc). pose proof (len_historyDescriptors c Hc) as Hlh.
  destruct (historyDescriptors_spec c Hc) as (_ & Hhv & Hhm). destruct (cat_width c Hc) as [Hwd Hwh].
  unfold parse_image, image_body. rewrite <- !app_assoc.
  change (drop 5 (rangeMagic ++ [rangeFormat] ++ ?r)) with r. cbv zeta.
  rewrite readU64_be by (unfold is_u64; lia). cbn [mbind option_bind].
  rewrite readCount_be by (unfold maxRangeDescriptors in *; lia). cbn [mbind option_bind].
  replace (_ || _) with false by (symmetry; apply orb_false_iff; split; [apply Z.eqb_neq|apply Z.ltb_ge]; lia).
  rewrite len_to_nat, read_descriptors_write by (done || apply Hi). cbn [mbind option_bind].
  rewrite readCount_be by lia. cbn [mbind option_bind].
  replace (_ <? _) with false by (symmetry; apply Z.ltb_ge; lia).
  rewrite len_to_nat, read_descriptors_write.
  2: done.
  2:{ intros d Hd%Hhm. by eapply Hwh. }
  cbn [mbind option_bind]. rewrite len_be. cbn [Z.of_nat Pos.of_succ_nat Pos.succ Z.eqb Pos.eqb negb].
  assert (next_image (descriptors c) = descriptors c) as Hnext.
  { unfold next_image, cloneDescriptors. rewrite map_Clone_valid by apply Hi.
    assert (Forall span_ok (descriptors c)) as Hsp.
    { eapply Forall_impl; [apply Hi|]. intros x. apply Validate_span. }
    apply sort_tiling; [apply Hi|done|]. apply (increasing_NoDup Start). by apply (tiles_increasing _ []); [apply Hi|]. }
  assert (NewRangeCatalog (version c) (descriptors c) = Ok (mkCatalog (version c) (descriptors c) (byID c) (byID c))) as ->.
  { apply NewRangeCatalog_Ok. rewrite Hnext, <- (cat_byID c Hc). split_and!; [lia|done|done]. }
  cbn [byID history version descriptors].
  assert (attach_history (byID c) (historyDescriptors c) ∅ (byID c) = Some (history c)) as ->.
  2:{ cbn. by destruct c. }
  apply attach_history_Some; [done| |].
  - intros id d Hd. by apply (cat_tombstones c Hc id), (lookup_weaken (byID c)); [|apply Hc].
  - split_and!; [by apply historyDescriptors_NoDup|by intros; apply not_elem_of_empty| |].
    + intros d Hd%Hhm. destruct (cat_tombstones c Hc _ _ Hd) as (_ & _ & Hr).
      destruct (byID c !! RangeID d) as [x|] eqn:Hx; [left|by right; auto].
      pose proof (lookup_weaken _ _ _ _ Hx (cat_current c Hc)). congruence.
    + apply map_eq. intros id. destruct (history c !! id) as [d|] eqn:Hd; symmetry.
      * destruct (cat_tombstones c Hc _ _ Hd) as (<- & Hv & Hr). destruct (byID c !! RangeID d) as [x|] eqn:Hx.
        -- apply lookup_union_Some_raw. right. split; [|].
           ++ apply map_lookup_filter_None. right. intros y _. cbn. congruence.
           ++ pose proof (lookup_weaken _ _ _ _ Hx (cat_current c Hc)). congruence.
        -- apply lookup_union_Some_raw. left. apply map_lookup_filter_Some. split; [|done].
           apply index_lookup; [by apply historyDescriptors_NoDup|]. split; [by apply Hhm|done].
      * apply lookup_union_None. split.
        -- apply map_lookup_filter_None. left. apply index_lookup_None. intros (d & -> & Hd'%Hhm)%list_elem_of_fmap. congruence.
        -- destruct (byID c !! id) eqn:Hx; [|done]. pose proof (lookup_weaken _ _ _ _ Hx (cat_current c Hc)). congruence.
Qed.

Lemma image_len c : catalog_ok c -> 21 <= len (image_body c ++ be 4 (crc32.Checksum (image_body c))).
Proof.
  intros Hc. unfold image_body. rewrite !len_app, !len_be.
  pose proof (len_nonneg (concat (map descriptor_bytes (descriptors c)))).
  pose proof (len_nonneg (concat (map descriptor_bytes (historyDescriptors c)))).
  change (len rangeMagic) with 4. change (len [rangeFormat]) with 1. lia.
Qed.

Lemma readU64_range data z rest : readU64 data = Some (z, rest) -> is_u64 z.
Proof.
  unfold readU64. destruct (len data <? 8) eqn:E; [done|]. intros [= <- _]. apply Z.ltb_ge in E.
  pose proof (un_be_range (sub data 0 8)) as H. rewrite len_sub in H by lia.
  unfold is_u64, max_uint64. change (256 ^ (8 - 0)) with (2 ^ 64) in H. lia.
Qed.

Lemma read_many_Forall {A} (r : reader A) (P : A -> Prop) n : forall data l rest,
  (forall data x rest, r data = Some (x, rest) -> P x) -> read_many n r data = Some (l, rest) -> Forall P l.
Proof.
  induction n as [|n IH]; intros data l rest HP; cbn [read_many].
  - intros [= <- _]. constructor.
  - intros ([x d1] & Hx & H)%bind_Some. apply bind_Some in H as ([xs d2] & Hxs & [= <- _]).
    constructor; [by eapply HP|by eapply IH].
Qed.

Lemma readDescriptor_valid data d rest : readDescriptor data = Some (d, rest) -> Validate d = Ok tt /\ desc_width d.
Proof.
  unfold readDescriptor. intros H.
  repeat match type of H with
  | _ ≫= _ = Some _ => apply bind_Some in H as ([? ?] & ? & H)
  | (if ?c then None else _) = Some _ => destruct c; [discriminate H|]
  end.
  destruct (is_ok _) eqn:Hv; [|done]. injection H as <- <-. split.
  - by destruct (Validate _) as [[]|].
  - unfold desc_width. cbn. split_and!; [by eapply readU64_range..|].
    eapply read_many_Forall; [|done]. apply readU64_range.
Qed.

Lemma attached_ok c hs hist :
  catalog_ok c -> history c = byID c ->
  Forall (fun d => Validate d = Ok tt /\ desc_width d) hs ->
  attach_history (byID c) hs ∅ (history c) = Some hist -> Z.of_nat (size hist) <= 2 * maxRangeDescriptors ->
  catalog_ok (mkCatalog (version c) (descriptors c) (byID c) hist).
Proof.
  intros Hc Heq Hhs Ha Hsz. apply attach_history_Some in Ha as (Hn & _ & Hp & ->).
  2:{ eapply Forall_impl; [exact Hhs|]. by intros d [? _]. }
  2:{ intros id d Hd. by apply (cat_tombstones c Hc id), (lookup_weaken (byID c)); [|apply Hc]. }
  rewrite Forall_forall in Hhs. rewrite Heq in *.
  assert (forall id d, (filter (fun kv => byID c !! kv.1 = None) (index hs) ∪ byID c) !! id = Some d ->
    (d ∈ hs /\ RangeID d = id /\ byID c !! id = None) \/ byID c !! id = Some d) as Hcase.
  { intros id d [H|[_ H]]%lookup_union_Some_raw; [left|by right].
    apply map_lookup_filter_Some in H as [H Hb]. by apply index_lookup in H as [? <-]. }
  split; cbn; try apply Hc; [| | |done].
  - apply map_union_subseteq_r. apply map_disjoint_spec. intros id x y Hx Hy.
    apply map_lookup_filter_Some in Hx as [_ Hx]. cbn in Hx. congruence.
  - intros id d [(Hd & <- & Hb)|H]%Hcase.
    + split_and!; [done|by apply Hhs|]. intros _. destruct (Hp d Hd) as [?|[_ ?]]; [congruence|done].
    + rewrite <- Heq in H. apply (cat_tombstones c Hc) in H. naive_solver.
  - destruct (cat_width c Hc) as [Hw1 Hw2]. split; [done|].
    intros id d [(Hd & _)|H]%Hcase; [by apply Hhs|]. rewrite <- Heq in H. by eapply Hw2.
Qed.

Lemma parse_image_ok encoded c :
  parse_image encoded = Some c -> Z.of_nat (size (history c)) <= 2 * maxRangeDescriptors -> catalog_ok c.
Proof.
  unfold parse_image. intros H Hsz.
  apply bind_Some in H as ([v d1] & Hv & H). apply bind_Some in H as ([count d2] & _ & H).
  destruct (_ || _); [done|]. apply bind_Some in H as ([ds d3] & Hds & H).
  apply bind_Some in H as ([hcount d4] & _ & H). destruct (_ <? _); [done|].
  apply bind_Some in H as ([hs d5] & Hhs & H). destruct (negb _); [done|].
  destruct (NewRangeCatalog v ds) as [c0|] eqn:Hc0; [|done]. apply bind_Some in H as (hist & Ha & [= <-]).
  apply readU64_range in Hv.
  apply (read_many_Forall _ (fun d => Validate d = Ok tt /\ desc_width d)) in Hds, Hhs; try exact readDescriptor_valid.
  assert (catalog_ok c0) as Hok.
  { eapply NewRangeCatalog_catalog_ok; [exact Hv| |exact Hc0]. eapply Forall_impl; [exact Hds|]. by intros d [_ ?]. }
  apply (attached_ok c0 hs); try done. by apply NewRangeCatalog_Ok in Hc0 as (_ & _ & ->).
Qed.

(** a published catalog survives its binary image: [MarshalBinary]
    succeeds unless the image exceeds the size bound, and the image it
    produces unmarshals to exactly that catalog, history included. *)
Theorem Unmarshal_MarshalBinary c :
  catalog_ok c ->
  match MarshalBinary (Some c) with
  | Ok image => UnmarshalRangeCatalog image = Ok c
  | Fail e => e = ErrBackpressure /\ maxRangeCatalogSize < len (image_body c) + 4
  end.
Proof.
  intros Hc. pose proof (MarshalBinary_eq c Hc) as Hm. rewrite Hm.
  destruct (maxRangeCatalogSize <? _) eqn:Hs; [by apply Z.ltb_lt in Hs|]. apply Z.ltb_ge in Hs.
  pose proof (image_len c Hc) as Hlen. pose proof (parse_image_body c (crc32.Checksum (image_body c)) Hc) as Hp.
  set (body := image_body c) in *. set (img := body ++ be 4 (crc32.Checksum body)) in *.
  assert (len img = len body + 4) as Hl by (unfold img; by rewrite len_app, len_be).
  assert (sub img 0 (len img - 4) = body) as Hbody by (rewrite Hl; apply sub_app_head; lia).
  assert (sub img (len img - 4) (len img) = be 4 (crc32.Checksum body)) as Hcrc.
  { rewrite Hl. rewrite <- (app_nil_r img). unfold img. rewrite <- app_assoc. apply sub_app_mid; [lia|].
    rewrite len_be. lia. }
  unfold UnmarshalRangeCatalog. rewrite Hbody, Hcrc, crc32.un_be_Checksum, Z.eqb_refl, Hp, Hm, beq_refl.
  rewrite fail_if_false by (apply orb_false_iff; split; apply Z.ltb_ge; lia).
  assert (sub img 0 4 = rangeMagic) as -> by done. assert (sub img 4 5 = [rangeFormat]) as -> by done.
  by rewrite !beq_refl.
Qed.

(** only canonical images become routing authority: an image that
    [UnmarshalRangeCatalog] accepts is byte for byte the marshalled form of
    the catalog it returns, and that catalog satisfies the invariant. *)
Theorem UnmarshalRangeCatalog_sound image c :
  UnmarshalRangeCatalog image = Ok c -> MarshalBinary (Some c) = Ok image /\ catalog_ok c.
Proof.
  unfold UnmarshalRangeCatalog. intros H. inv_res. destruct (parse_image image) as [c0|] eqn:Hp; [|done].
  destruct (MarshalBinary (Some c0)) as [b|] eqn:Hm; [|done]. destruct (beq b image) eqn:Hb; [|done].
  injection H as <-. apply beq_true in Hb as ->. split; [done|].
  apply (parse_image_ok image); [done|]. unfold MarshalBinary in Hm. apply bind_Ok in Hm as (u & Hg & _).
  apply fail_if_Ok in Hg. rewrite !orb_false_iff, Z.ltb_ge in Hg. apply Hg.
Qed.

(** ** Replacement of an installed catalog (catalog.go) *)

Lemma VerifyGeneration_Ok c d :
  catalog_ok c -> Validate d = Ok tt ->
  VerifyGeneration (Some c) d = Ok tt <->
  (forall old, history c !! RangeID d = Some old -> byID c !! RangeID d = Some old /\ advances old d).
Proof.
  intros Hc Hd. unfold VerifyGeneration. rewrite Hd. cbn [mbind result_bind].
  destruct (history c !! RangeID d) as [old|] eqn:Ho; [|naive_solver].
  destruct (cat_tombstones c Hc _ _ Ho) as (_ & Hov & _).
  destruct (byID c !! RangeID d) as [p|] eqn:Hp; [|split; [done|naive_solver]].
  pose proof (lookup_weaken _ _ _ _ Hp (cat_current c Hc)). assert (p = old) as -> by congruence.
  transitivity (advances old d); [|naive_solver].
  rewrite <- (check_fence_Ok (Some old)) by (done || by apply Validate_span). unfold check_fence.
  destruct (negb (beq (Start old) (Start d))), (negb (beq (end_bytes old) (end_bytes d))); cbn; try done.
  destruct (Generation d <? Generation old), (OwnerEpoch d <? OwnerEpoch old); cbn; try done.
  destruct (is_phase (Phase old) RangeRetired && negb (is_phase (Phase d) RangeRetired)); cbn; [done|].
  destruct (negb (validPhaseTransition (Phase old) (Phase d))); cbn; [done|].
  destruct (_ && _); cbn; done.
Qed.

Lemma carry_history_Ok ids prev order : forall hist hist',
  NoDup order -> (forall id d, prev !! id = Some d -> Validate d = Ok tt) ->
  carry_history ids prev order hist = Ok hist' ->
  (forall id fence, id ∈ order -> prev !! id = Some fence -> ids !! id = None ->
     forall existing, hist !! id = Some existing -> EqualRangeDescriptor existing fence = true) /\
  (forall id, hist' !! id =
     if decide (id ∈ order /\ ids !! id = None /\ is_Some (prev !! id))
     then (fun fence => with_phase fence RangeRetired) <$> prev !! id else hist !! id).
Proof.
  induction order as [|i order IH]; intros hist hist' Hn Hv; cbn [carry_history].
  { intros [= <-]. split; [by intros ? ? ?%elem_of_nil|].
    intros id. by rewrite decide_False by (by intros [?%elem_of_nil _]). }
  apply NoDup_cons in Hn as [Hi Hn].
  assert (forall h, carry_history ids prev order h = Ok hist' -> (ids !! i = None -> prev !! i = None) -> h = hist ->
    (forall id fence, id ∈ i :: order -> prev !! id = Some fence -> ids !! id = None ->
       forall existing, hist !! id = Some existing -> EqualRangeDescriptor existing fence = true) /\
    (forall id, hist' !! id =
       if decide (id ∈ i :: order /\ ids !! id = None /\ is_Some (prev !! id))
       then (fun fence => with_phase fence RangeRetired) <$> prev !! id else hist !! id)) as Hskip.
  { intros h H Hcur ->. destruct (IH _ _ Hn Hv H) as [IH1 IH2]. split.
    - intros id fence [->|Hid]%elem_of_cons Hf Hx; [specialize (Hcur Hx); congruence|by apply IH1].
    - intros id. rewrite IH2. apply decide_ext. split; [set_solver|]. intros ([->|?]%elem_of_cons & Hx & [f Hf]); [|eauto].
      specialize (Hcur Hx). congruence. }
  destruct (prev !! i) as [fence|] eqn:Hp; [|intros H; by apply (Hskip hist)].
  destruct (decide (is_Some (ids !! i))) as [Hs|Hs].
  { rewrite bool_decide_eq_true_2 by done. intros H. apply (Hskip hist); [done| |done]. destruct Hs as [? ->]. done. }
  rewrite bool_decide_eq_false_2 by done. intros (u & Hg & H)%bind_Ok. apply fail_if_Ok in Hg.
  rewrite Clone_valid in H by by eapply Hv. destruct (IH _ _ Hn Hv H) as [IH1 IH2]. clear Hskip. split.
  - intros id f [->|Hid]%elem_of_cons Hf Hx existing He.
    + rewrite He in Hg. assert (f = fence) as -> by congruence. by apply negb_false_iff.
    + apply (IH1 id f Hid Hf Hx). rewrite lookup_insert_ne; [done|]. by intros ->.
  - intros id. rewrite IH2. destruct (decide (id = i)) as [->|Hne].
    + rewrite decide_False by naive_solver. rewrite lookup_insert_eq, decide_True, Hp; [done|].
      split_and!; [by left|by apply eq_None_not_Some|by exists fence].
    + rewrite lookup_insert_ne by done. apply decide_ext. set_solver.
Qed.

(** an installed catalog is only replaced by a newer one that keeps every
    fence: when [validateCatalogReplacement] accepts [n] after [p], the image
    of [n] is kept, every range [p] knew is in the completed history with a
    fence that has not regressed, dropped ranges as retired tombstones, and
    the completed catalog satisfies the invariant when its history is within
    the bound. *)
Theorem validateCatalogReplacement_fences p n order n' :
  catalog_ok p -> catalog_ok n -> map_order (history p) order ->
  validateCatalogReplacement (Some p) (Some n) order = Ok n' ->
  version p < version n' /\ descriptors n' = descriptors n /\
  (forall id d, history p !! id = Some d -> exists d', history n' !! id = Some d' /\ fenced d d' /\
     (byID n !! id = None -> Phase d' = RangeRetired)) /\
  (Z.of_nat (size (history n')) <= 2 * maxRangeDescriptors -> catalog_ok n').
Proof.
  intros Hp Hn Hord H. unfold validateCatalogReplacement in H. cbn [Version Descriptors] in H.
  apply bind_Ok in H as (u & Hver & H). apply fail_if_Ok, Z.leb_gt in Hver.
  apply bind_Ok in H as (u' & Hall & H). destruct u'. apply for_all_Ok in Hall.
  apply bind_Ok in H as (hist & Hcarry & [= <-]). cbn.
  pose proof (image_valid _ (cat_image n Hn)) as Hval. unfold cloneDescriptors in Hall.
  rewrite map_Clone_valid in Hall by done. rewrite Forall_forall in Hall, Hval.
  destruct (carry_history_Ok _ _ _ _ _ (map_order_NoDup _ _ Hord)
              (fun id d H => proj1 (proj2 (cat_tombstones p Hp id d H))) Hcarry) as [_ Hh].
  assert (forall id, hist !! id = match byID n !! id with
            | Some d => Some d
            | None => match history p !! id with
                      | Some fence => Some (with_phase fence RangeRetired)
                      | None => history n !! id end end) as Hlk.
  { intros id. rewrite Hh. destruct (byID n !! id) as [d|] eqn:Hb.
    - rewrite decide_False by naive_solver. by apply (lookup_weaken (byID n)); [|apply Hn].
    - destruct (history p !! id) as [f|] eqn:Hf.
      + rewrite decide_True; [done|]. split_and!; [|done|by exists f]. apply (map_order_spec _ _ _ Hord). by exists f.
      + rewrite decide_False; [done|]. intros (_ & _ & [? ?]). done. }
  split_and!; [lia|done| |].
  - intros id d Hd. rewrite Hlk, Hd. destruct (byID n !! id) as [d'|] eqn:Hb.
    + exists d'. split_and!; [done| |done]. rewrite (cat_byID n Hn) in Hb.
      apply index_lookup in Hb as [Hd' <-]; [|apply (cat_image n Hn)]. apply advances_fenced.
      by apply (VerifyGeneration_Ok p d' Hp (Hval _ Hd')); [apply Hall|].
    + exists (with_phase d RangeRetired). split_and!; [done|apply retire_fenced|done].
  - intros Hsz. split; cbn; try apply Hn; [| | |done].
    + apply map_subseteq_spec. intros id d Hd. by rewrite Hlk, Hd.
    + intros id d. rewrite Hlk. destruct (byID n !! id) as [d'|] eqn:Hb.
      * intros [= <-]. apply (lookup_weaken _ (history n)) in Hb; [|apply Hn]. apply (cat_tombstones n Hn) in Hb. naive_solver.
      * destruct (history p !! id) as [f|] eqn:Hf; [|by intros ?%(cat_tombstones n Hn); naive_solver].
        intros [= <-]. destruct (cat_tombstones p Hp _ _ Hf) as (<- & ? & _). split_and!; [done|by apply Validate_retire|done].
    + split; [apply Hn|]. intros id d. rewrite Hlk. destruct (byID n !! id) as [d'|] eqn:Hb.
      * intros [= <-]. apply (lookup_weaken _ (history n)) in Hb; [|apply Hn]. by apply (cat_width n Hn) in Hb.
      * destruct (history p !! id) as [f|] eqn:Hf; [|apply (cat_width n Hn)].
        intros [= <-]. by apply (cat_width p Hp) in Hf.
Qed.

(** a catalog that was evolved with [Replace] and drops a range that was
    not yet retired is never accepted as the replacement of the catalog it
    evolved from: the tombstone [Replace] wrote differs from the installed
    fence.  The retirement of a split's source is such a replacement. *)
Theorem evolved_catalog_refused c c' id d order :
  catalog_ok c -> evolves c c' -> map_order (history c) order ->
  history c !! id = Some d -> Phase d <> RangeRetired -> byID c' !! id = None ->
  is_ok (validateCatalogReplacement (Some c) (Some c') order) = false.
Proof.
  intros Hc He Hord Hd Hph Hb. destruct (validateCatalogReplacement _ _ _) as [n'|e] eqn:H; [|done]. exfalso.
  apply evolves_replaced in He as (v & ds & Ha & -> & Hc'); [|done]. cbn in Hb.
  unfold validateCatalogReplacement in H. apply bind_Ok in H as (_ & _ & H). apply bind_Ok in H as (_ & _ & H).
  apply bind_Ok in H as (hist & Hcarry & _).
  destruct (carry_history_Ok _ _ _ _ _ (map_order_NoDup _ _ Hord)
              (fun id d H => proj1 (proj2 (cat_tombstones c Hc id d H))) Hcarry) as [Hex _].
  assert (EqualRangeDescriptor (with_phase d RangeRetired) d = true) as E.
  { apply (Hex id d); [|done|done|].
    - apply (map_order_spec _ _ _ Hord). by exists d.
    - cbn. by rewrite lookup_union_r, retire_absent_lookup, Hd, Hb. }
  unfold EqualRangeDescriptor in E. apply andb_true_iff in E as [_ E]. apply is_phase_true in E. by destruct Hph.
Qed.

(** ** A sample catalog *)

Definition sample_range (id start : bytes) (end_ : option bytes) (gen : Z) : RangeDescriptor :=
  mkRange id start end_ gen gen 7 [1; 2; 3] RangeServing.

Definition sample_left : RangeDescriptor := sample_range (lit "a") [] (Some (lit "m")) 1.
Definition sample_right : RangeDescriptor := sample_range (lit "b") (lit "m") None 1.

Definition sample_catalog : RangeCatalog :=
  match NewRangeCatalog 1 [sample_right; sample_left] with Ok c => c | Fail _ => zero_catalog end.

(** The left range is split at "g"; the right range stays. *)
Definition sample_split : list RangeDescriptor :=
  [sample_right; sample_range (lit "c") [] (Some (lit "g")) 1;
   sample_range (lit "d") (lit "g") (Some (lit "m")) 1].

Definition sample_order : list bytes := [lit "a"; lit "b"].
Definition sample_evolved : RangeCatalog := replaced sample_catalog 2 sample_split.

Lemma sample_width l : Forall (fun d => is_u64 (Generation d) /\ is_u64 (OwnerEpoch d) /\ GroupID d = 7 /\ Voters d = [1; 2; 3]) l ->
  Forall desc_width l.
Proof.
  intros H. eapply Forall_impl; [exact H|]. intros d (? & ? & E & Ev). unfold desc_width. rewrite E, Ev.
  split_and!; try done. repeat constructor; unfold is_u64, max_uint64; lia.
Qed.

Lemma sample_widths : Forall desc_width [sample_right; sample_left] /\ Forall desc_width sample_split.
Proof. split; apply sample_width; repeat constructor; unfold is_u64, max_uint64; cbn; lia. Qed.

Lemma sample_catalog_ok : catalog_ok sample_catalog.
Proof.
  apply (NewRangeCatalog_catalog_ok 1 [sample_right; sample_left]).
  - unfold is_u64, max_uint64. lia.
  - apply sample_widths.
  - vm_compute. reflexivity.
Qed.

Lemma sample_map_order : map_order (history sample_catalog) sample_order.
Proof.
  unfold map_order. set (l := map fst _). assert (l = [lit "b"; lit "a"] \/ l = sample_order) as [->| ->].
  - first [left; vm_compute; reflexivity|right; vm_compute; reflexivity].
  - apply perm_swap.
  - done.
Qed.

Lemma sample_evolves : evolves sample_catalog sample_evolved.
Proof.
  apply (evolves_replace _ _ 2 sample_split sample_order).
  - unfold is_u64, max_uint64. lia.
  - apply sample_widths.
  - apply sample_map_order.
  - vm_compute. reflexivity.
Qed.

Lemma sample_evolved_ok : catalog_ok sample_evolved.
Proof. by destruct (evolves_replaced _ _ sample_catalog_ok sample_evolves) as (_ & _ & _ & _ & ?). Qed.

(** a replacement that fails can still change the catalog: a refused
    [Replace] may have retired, in the history, a range that stays current;
    the image such a catalog marshals to is then refused by
    [UnmarshalRangeCatalog]. *)
Theorem failed_Replace_changes_history :
  exists c v ds order c1 e image,
    catalog_ok c /\ map_order (history c) order /\
    Replace (Some c) v ds order = (Some c1, Fail e) /\ c1 <> c /\
    MarshalBinary (Some c1) = Ok image /\ UnmarshalRangeCatalog image = Fail ErrCatalogCorrupt.
Proof.
  set (c1 := match fst (Replace (Some sample_catalog) 2 [sample_range (lit "b") [] None 2] sample_order) with
             | Some c => c | None => zero_catalog end).
  set (image := match MarshalBinary (Some c1) with Ok b => b | Fail _ => [] end).
  exists sample_catalog, 2, [sample_range (lit "b") [] None 2], sample_order, c1,
    (ErrCatalogStale "immutable span changed"), image.
  split_and!; [apply sample_catalog_ok|apply sample_map_order|vm_compute; reflexivity| |vm_compute; reflexivity..].
  intros E. apply (f_equal (fun c => Phase <$> history c !! lit "a")) in E. vm_compute in E. done.
Qed.

(** ** Instances at concrete inputs *)

Lemma Route_total_witness :
  exists d, d ∈ descriptors sample_catalog /\ Contains d (lit "zz") = true /\
    (forall d', d' ∈ descriptors sample_catalog -> Contains d' (lit "zz") = true -> d' = d) /\
    Route (Some sample_catalog) (lit "zz") = if is_phase (Phase d) RangeServing then Ok d else Fail ErrRangeNotServing.
Proof. apply (Route_total sample_catalog (lit "zz")). exact sample_catalog_ok. Defined.

Lemma Replace_admissible_witness :
  snd (Replace (Some sample_catalog) 2 sample_split sample_order) = Ok tt /\
  catalog_ok (replaced sample_catalog 2 sample_split).
Proof.
  destruct (Replace_admissible sample_catalog 2 sample_split sample_order) as [H1 H2].
  - exact sample_catalog_ok.
  - unfold is_u64, max_uint64. lia.
  - apply sample_widths.
  - exact sample_map_order.
  - assert (snd (Replace (Some sample_catalog) 2 sample_split sample_order) = Ok tt) as E by (vm_compute; reflexivity).
    split; [exact E|]. apply H2, H1, E.
Defined.

Lemma fences_never_regress_witness :
  exists d', history sample_evolved !! lit "a" = Some d' /\ fenced sample_left d'.
Proof.
  apply (fences_never_regress sample_catalog sample_evolved).
  - exact sample_catalog_ok.
  - apply rtc_once, sample_evolves.
  - vm_compute. reflexivity.
Defined.

Lemma RouteAt_one_owner_witness :
  Start sample_right = Start sample_right /\ End_ sample_right = End_ sample_right /\ Voters sample_right = Voters sample_right.
Proof.
  apply (RouteAt_one_owner sample_catalog sample_evolved (lit "n") (lit "z") (lit "b") 1 1 7 sample_right sample_right).
  - exact sample_catalog_ok.
  - apply rtc_once, sample_evolves.
  - vm_compute. reflexivity.
  - vm_compute. reflexivity.
Defined.

Definition sample_image : bytes := match MarshalBinary (Some sample_evolved) with Ok b => b | Fail _ => [] end.

Lemma Unmarshal_MarshalBinary_witness :
  match MarshalBinary (Some sample_evolved) with
  | Ok image => UnmarshalRangeCatalog image = Ok sample_evolved
  | Fail e => e = ErrBackpressure /\ maxRangeCatalogSize < len (image_body sample_evolved) + 4
  end /\ is_ok (MarshalBinary (Some sample_evolved)) = true.
Proof. split; [apply (Unmarshal_MarshalBinary sample_evolved); exact sample_evolved_ok|vm_compute; reflexivity]. Defined.

Lemma UnmarshalRangeCatalog_sound_witness :
  MarshalBinary (Some sample_evolved) = Ok sample_image /\ catalog_ok sample_evolved.
Proof. apply (UnmarshalRangeCatalog_sound sample_image sample_evolved). vm_compute. reflexivity. Defined.

(** A catalog built afresh for the same split, without the old history. *)
Definition sample_rebuilt : RangeCatalog :=
  match NewRangeCatalog 2 sample_split with Ok c => c | Fail _ => zero_catalog end.

Lemma sample_rebuilt_ok : catalog_ok sample_rebuilt.
Proof.
  apply (NewRangeCatalog_catalog_ok 2 sample_split); [unfold is_u64, max_uint64; lia|apply sample_widths|].
  vm_compute. reflexivity.
Qed.

Lemma validateCatalogReplacement_fences_witness :
  exists n', validateCatalogReplacement (Some sample_catalog) (Some sample_rebuilt) sample_order = Ok n' /\
    descriptors n' = descriptors sample_rebuilt /\ catalog_ok n'.
Proof.
  exists sample_evolved.
  assert (validateCatalogReplacement (Some sample_catalog) (Some sample_rebuilt) sample_order = Ok sample_evolved) as E
    by (vm_compute; reflexivity).
  split; [exact E|].
  destruct (validateCatalogReplacement_fences sample_catalog sample_rebuilt sample_order sample_evolved) as (_ & H & _ & Hc).
  - exact sample_catalog_ok.
  - exact sample_rebuilt_ok.
  - exact sample_map_order.
  - exact E.
  - split; [exact H|]. apply Hc. vm_compute. discriminate.
Defined.

Lemma evolved_catalog_refused_witness :
  is_ok (validateCatalogReplacement (Some sample_catalog) (Some sample_evolved) sample_order) = false.
Proof.
  apply (evolved_catalog_refused sample_catalog sample_evolved (lit "a") sample_left sample_order).
  - exact sample_catalog_ok.
  - exact sample_evolves.
  - exact sample_map_order.
  - vm_compute. reflexivity.
  - discriminate.
  - vm_compute. reflexivity.
Defined.
