(* ===== verification/Command.v ===== *)
(** Replicated commands (src/internal/raftstore/command.go): the deterministic
    input of the shard state machine and its canonical binary form.

    A row value must already be canonical JSON.  The canonicalizer of
    [pkg/jsondoc] is reached through the interface [Canonicalizer]; nothing
    here depends on what it computes, only on the comparison of its result
    with the value. *)

From Stdlib Require Import ZArith Lia.
From stdpp Require Import base list.
From S2P Require Import Prelude GoStd Uuidv7 Coordinates.

Local Open Scope Z_scope.

(** [jsondoc.Canonicalize]: the canonical bytes, or [None] on an error. *)
Class Canonicalizer : Type := Canonicalize : bytes -> option bytes.

(** ** Data *)

Definition commandMagic : bytes := lit "VBCM".
Definition commandFormat : byte := x01.
Definition commandPut : byte := x01.
Definition maxCommandTable : Z := Coordinates.MaxTableBytes.
Definition maxCommandKey : Z := Coordinates.MaxKeyBytes.
Definition maxCommandValue : Z := 2 ^ 20.
Definition commandHeaderBytes : Z := 4 + 1 + 1 + 16 + 16 + 2 + 2 + 4 + 1.

(** The sentinel errors of the package that commands and retries return. *)
Inductive command_error : Type :=
| ErrInvalidCommand (what : String.string)
| ErrInvalidOperationID
| ErrOperationConflict
| ErrGenerate.

(** [storage.Condition] *)
Record Condition : Type := mkCondition { IfMatch : option UUID; CreateOnly : bool }.

Record Command : Type := mkCommand {
  OperationID : UUID;
  Table : bytes;
  Key : bytes;
  Value : bytes;
  Cond : Condition;
  Version : UUID
}.

#[export] Instance Condition_eq_dec : EqDecision Condition.
Proof. solve_decision. Defined.
#[export] Instance Command_eq_dec : EqDecision Command.
Proof. solve_decision. Defined.

(** ** Validation *)

Definition validTable (table : bytes) : bool := Coordinates.ValidTable table.
Definition validKey (key : bytes) : bool := Coordinates.ValidKey key.

Section command.
Context {canon : Canonicalizer}.

(** [validateCanonicalValue]: [None] when the value is accepted. *)
Definition validateCanonicalValue (value : bytes) : option String.string :=
  if maxCommandValue <? len value then Some "value too large"%string
  else match Canonicalize value with
       | None => Some "not valid JSON"%string
       | Some canonical =>
           if maxCommandValue <? len canonical then Some "canonical value too large"%string
           else if negb (beq canonical value) then Some "value is not canonical JSON"%string
           else None
       end.

Definition canonical_value (value : bytes) : bool := bool_decide (validateCanonicalValue value = None).

Definition validateCommand (command : Command) : result command_error unit :=
  fail_if (negb (is_ok (UUIDFromBytes (OperationID command)))) ErrInvalidOperationID;;
  fail_if (negb (is_ok (UUIDFromBytes (Version command)))) (ErrInvalidCommand "row version");;
  fail_if (negb (validTable (Table command)) || negb (validKey (Key command))) (ErrInvalidCommand "coordinates");;
  fail_if (negb (canonical_value (Value command))) (ErrInvalidCommand "value");;
  fail_if (CreateOnly (Cond command) && bool_decide (is_Some (IfMatch (Cond command))))
    (ErrInvalidCommand "create-only and if-match cannot be combined");;
  match IfMatch (Cond command) with
  | Some v => fail_if (negb (is_ok (UUIDFromBytes v))) (ErrInvalidCommand "if-match")
  | None => Ok tt
  end.

(** [NewPut]; [first] and [second] are the outcomes of the two calls of the
    identifier generator. *)
Definition NewPut (table key value : bytes) (condition : Condition) (first second : option UUID)
    : result command_error Command :=
  match first with
  | None => Fail ErrGenerate
  | Some op =>
      match second with
      | None => Fail ErrGenerate
      | Some version =>
          let command := mkCommand op table key value condition version in
          validateCommand command;; Ok command
      end
  end.

(** ** Encoding *)

Definition command_flags (condition : Condition) : Z :=
  Z.lor (if CreateOnly condition then 1 else 0)
        (if bool_decide (is_Some (IfMatch condition)) then 2 else 0).

(** The encoding up to the checksum. *)
Definition command_body (command : Command) : bytes :=
  commandMagic ++ [commandFormat; commandPut] ++ OperationID command ++ Version command
  ++ be 2 (len (Table command)) ++ be 2 (len (Key command)) ++ be 4 (len (Value command))
  ++ [byte_of (command_flags (Cond command))]
  ++ default [] (IfMatch (Cond command))
  ++ Table command ++ Key command ++ Value command.

Definition EncodeCommand (command : Command) : result command_error bytes :=
  validateCommand command;;
  let encoded := command_body command in
  Ok (encoded ++ be 4 (crc32.Checksum encoded)).

Definition DecodeCommand (encoded : bytes) : result command_error Command :=
  let n := len encoded in
  fail_if ((n <? commandHeaderBytes + 4) || negb (beq (sub encoded 0 4) commandMagic)
           || negb (beq (sub encoded 4 5) [commandFormat]) || negb (beq (sub encoded 5 6) [commandPut]))
    (ErrInvalidCommand "header");;
  fail_if ((n <? 4) || negb (crc32.Checksum (sub encoded 0 (n - 4)) =? un_be (sub encoded (n - 4) n)))
    (ErrInvalidCommand "checksum");;
  let operationID := sub encoded 6 22 in
  let version := sub encoded 22 38 in
  let tableLen := un_be (sub encoded 38 40) in
  let keyLen := un_be (sub encoded 40 42) in
  let valueLen := un_be (sub encoded 42 46) in
  let flags := un_be (sub encoded 46 47) in
  fail_if (negb (Z.ldiff flags 3 =? 0) || (negb (Z.land flags 1 =? 0) && negb (Z.land flags 2 =? 0)))
    (ErrInvalidCommand "flags");;
  fail_if ((tableLen =? 0) || (maxCommandTable <? tableLen) || (keyLen =? 0) || (maxCommandKey <? keyLen)
           || (maxCommandValue <? valueLen)) (ErrInvalidCommand "lengths");;
  let position := commandHeaderBytes in
  '(ifMatch, position) ←
    (if negb (Z.land flags 2 =? 0) then
       fail_if (n <? position + 16) (ErrInvalidCommand "if-match length");;
       Ok (Some (sub encoded position (position + 16)), position + 16)
     else Ok (None, position));
  fail_if (negb (n =? position + tableLen + keyLen + valueLen + 4)) (ErrInvalidCommand "payload length");;
  let command := mkCommand operationID
    (sub encoded position (position + tableLen))
    (sub encoded (position + tableLen) (position + tableLen + keyLen))
    (sub encoded (position + tableLen + keyLen) (position + tableLen + keyLen + valueLen))
    (mkCondition ifMatch (negb (Z.land flags 1 =? 0))) version in
  validateCommand command;;
  match EncodeCommand command with
  | Ok canonical => if beq canonical encoded then Ok command else Fail (ErrInvalidCommand "non-canonical encoding")
  | Fail _ => Fail (ErrInvalidCommand "non-canonical encoding")
  end.

(** ** Lemmas *)

Record command_ok (c : Command) : Prop := {
  cmd_op : length (OperationID c) = 16%nat /\ is_v7 (OperationID c) = true;
  cmd_version : length (Version c) = 16%nat /\ is_v7 (Version c) = true;
  cmd_table : validTable (Table c) = true;
  cmd_key : validKey (Key c) = true;
  cmd_value : validateCanonicalValue (Value c) = None;
  cmd_cond : CreateOnly (Cond c) = true -> IfMatch (Cond c) = None;
  cmd_match : forall v, IfMatch (Cond c) = Some v -> length v = 16%nat /\ is_v7 v = true
}.

Lemma UUIDFromBytes_is_ok u : is_ok (UUIDFromBytes u) = true <-> length u = 16%nat /\ is_v7 u = true.
Proof.
  destruct (UUIDFromBytes u) as [v|e] eqn:E; cbn.
  - apply UUIDFromBytes_Ok in E as (_ & ? & ?). done.
  - split; [done|]. intros [? ?]. assert (UUIDFromBytes u = Ok u) by (by apply UUIDFromBytes_Ok). congruence.
Qed.

Lemma validateCommand_Ok c : validateCommand c = Ok tt <-> command_ok c.
Proof.
  unfold validateCommand, canonical_value. split.
  - intros H. inv_res. bool_to_prop. rewrite UUIDFromBytes_is_ok in *. split; try done.
    + intros E. match goal with G : _ && bool_decide _ = false |- _ => rewrite E in G; cbn in G; apply bool_decide_eq_false in G end.
      by apply eq_None_not_Some.
    + intros v E. rewrite E in H. by apply fail_if_Ok, negb_false_iff, UUIDFromBytes_is_ok in H.
  - intros [Ho Hv Ht Hk Hc Hco Hm].
    apply UUIDFromBytes_is_ok in Ho, Hv. rewrite Ho, Hv, Ht, Hk, Hc. cbn.
    destruct (IfMatch (Cond c)) as [v|]; cbn.
    + destruct (CreateOnly (Cond c)); [by specialize (Hco eq_refl)|]. cbn.
      by rewrite (proj2 (UUIDFromBytes_is_ok _)) by by apply Hm.
    + by rewrite andb_false_r.
Qed.

Lemma validKey_len k : validKey k = true -> 1 <= len k <= maxCommandKey.
Proof.
  intros (Hne & Hl & _)%ValidKey_spec. split; [|done]. pose proof (len_nonneg k).
  destruct (decide (len k = 0)) as [E|]; [by apply len_zero_nil in E|lia].
Qed.

Lemma validTable_len t : validTable t = true -> 1 <= len t <= maxCommandTable.
Proof.
  intros (c & rest & -> & Hl & _)%ValidTable_spec. rewrite len_cons in *. pose proof (len_nonneg rest).
  split; [lia|done].
Qed.

Lemma canonical_value_len v : validateCanonicalValue v = None -> len v <= maxCommandValue.
Proof. unfold validateCanonicalValue. destruct (_ <? len v) eqn:E; [done|]. by apply Z.ltb_ge in E. Qed.

(** The fields of an encoding, at the offsets the decoder reads them. *)
Lemma command_fields c crc (m := default [] (IfMatch (Cond c))) (e := command_body c ++ crc) :
  length (OperationID c) = 16%nat -> length (Version c) = 16%nat ->
  (sub e 0 4 = commandMagic /\ sub e 4 5 = [commandFormat] /\ sub e 5 6 = [commandPut]) /\
  sub e 6 22 = OperationID c /\ sub e 22 38 = Version c /\
  sub e 38 40 = be 2 (len (Table c)) /\ sub e 40 42 = be 2 (len (Key c)) /\ sub e 42 46 = be 4 (len (Value c)) /\
  sub e 46 47 = [byte_of (command_flags (Cond c))] /\
  (forall lo hi, 47 <= lo -> sub e lo hi = sub (m ++ Table c ++ Key c ++ Value c ++ crc) (lo - 47) (hi - 47)).
Proof.
  intros Ho Hv. assert (len (OperationID c) = 16) as Lo by (unfold len; lia).
  assert (len (Version c) = 16) as Lv by (unfold len; lia).
  set (h := commandMagic ++ [commandFormat; commandPut]). assert (len h = 6) as Lh by done.
  set (t := default [] (IfMatch (Cond c)) ++ Table c ++ Key c ++ Value c).
  assert (e = h ++ OperationID c ++ Version c ++ be 2 (len (Table c)) ++ be 2 (len (Key c)) ++ be 4 (len (Value c))
            ++ [byte_of (command_flags (Cond c))] ++ t ++ crc) as ->.
  { unfold e, command_body, t, h. by rewrite <- !app_assoc. }
  assert (m ++ Table c ++ Key c ++ Value c ++ crc = t ++ crc) as -> by (unfold t, m; by rewrite <- !app_assoc).
  split_and!; try done.
  all: intros; repeat (rewrite sub_skip by (rewrite ?Lh, ?Lo, ?Lv, ?len_be; cbn; lia)).
  all: rewrite ?Lh, ?Lo, ?Lv, ?len_be; try (apply sub_app_head; rewrite ?Lo, ?Lv, ?len_be; done).
  rewrite sub_skip; change (len [byte_of (command_flags (Cond c))]) with 1; [f_equal; lia|lia].
Qed.

Lemma command_flags_spec k (f := un_be [byte_of (command_flags k)]) :
  (CreateOnly k = true -> IfMatch k = None) ->
  Z.ldiff f 3 = 0 /\ (Z.land f 1 =? 0) = negb (CreateOnly k) /\
  (Z.land f 2 =? 0) = negb (bool_decide (is_Some (IfMatch k))) /\
  negb (Z.land f 1 =? 0) && negb (Z.land f 2 =? 0) = false.
Proof.
  unfold f, command_flags. destruct k as [[v|] []]; cbn [CreateOnly IfMatch]; intros H; try done.
  by specialize (H eq_refl).
Qed.

Lemma command_len c : command_ok c ->
  len (command_body c) = 47 + len (default [] (IfMatch (Cond c))) + len (Table c) + len (Key c) + len (Value c).
Proof.
  intros Hc. destruct (cmd_op c Hc) as [Ho _], (cmd_version c Hc) as [Hv _]. unfold command_body.
  rewrite !len_app, !len_be. change (len commandMagic) with 4. change (len [commandFormat; commandPut]) with 2.
  change (len [byte_of _]) with 1. unfold len at 1 2. rewrite Ho, Hv. lia.
Qed.

Lemma Command_eta c :
  c = mkCommand (OperationID c) (Table c) (Key c) (Value c) (mkCondition (IfMatch (Cond c)) (CreateOnly (Cond c))) (Version c).
Proof. by destruct c as [? ? ? ? [? ?] ?]. Qed.

Lemma EncodeCommand_Ok c b :
  EncodeCommand c = Ok b <-> command_ok c /\ b = command_body c ++ be 4 (crc32.Checksum (command_body c)).
Proof.
  unfold EncodeCommand. rewrite bind_Ok. split.
  - intros ([] & H & [= <-]). split; [by apply validateCommand_Ok|done].
  - intros [H ->]. exists tt. split; [by apply validateCommand_Ok|done].
Qed.

(** The end of decoding, once the payload has been cut at [p]. *)
Lemma decode_payload c b p : EncodeCommand c = Ok b -> len b = p + len (Table c) + len (Key c) + len (Value c) + 4 ->
  sub b p (p + len (Table c)) = Table c /\ sub b (p + len (Table c)) (p + len (Table c) + len (Key c)) = Key c
  /\ sub b (p + len (Table c) + len (Key c)) (p + len (Table c) + len (Key c) + len (Value c)) = Value c ->
  (fail_if (negb (len b =? p + len (Table c) + len (Key c) + len (Value c) + 4)) (ErrInvalidCommand "payload length");;
   let command := mkCommand (OperationID c) (sub b p (p + len (Table c)))
     (sub b (p + len (Table c)) (p + len (Table c) + len (Key c)))
     (sub b (p + len (Table c) + len (Key c)) (p + len (Table c) + len (Key c) + len (Value c)))
     (mkCondition (IfMatch (Cond c)) (CreateOnly (Cond c))) (Version c) in
   validateCommand command;;
   match EncodeCommand command with
   | Ok canonical => if beq canonical b then Ok command else Fail (ErrInvalidCommand "non-canonical encoding")
   | Fail _ => Fail (ErrInvalidCommand "non-canonical encoding")
   end) = Ok c.
Proof.
  intros He Hl (-> & -> & ->). pose proof He as [Hc _]%EncodeCommand_Ok. rewrite fail_if_false by (by apply negb_false_iff, Z.eqb_eq).
  cbv zeta. rewrite <- Command_eta. rewrite (proj2 (validateCommand_Ok c) Hc). cbn [mbind result_bind]. by rewrite He, beq_refl.
Qed.

Lemma DecodeCommand_EncodeCommand c b : EncodeCommand c = Ok b -> DecodeCommand b = Ok c.
Proof.
  intros He. pose proof He as He'. apply EncodeCommand_Ok in He' as [Hc Hb].
  destruct (cmd_op c Hc) as [Ho _], (cmd_version c Hc) as [Hv _].
  destruct (command_fields c (be 4 (crc32.Checksum (command_body c))) Ho Hv)
    as ((F1 & F2 & F3) & F4 & F5 & F6 & F7 & F8 & F9 & F10).
  pose proof (command_len c Hc) as Hlen. pose proof (validTable_len _ (cmd_table c Hc)) as Ht.
  pose proof (validKey_len _ (cmd_key c Hc)) as Hk. pose proof (canonical_value_len _ (cmd_value c Hc)) as Hval.
  pose proof (len_nonneg (Value c)). pose proof (len_nonneg (default [] (IfMatch (Cond c)))).
  set (body := command_body c) in *. rewrite <- Hb in *.
  assert (len b = len body + 4) as Hn by (rewrite Hb, len_app, len_be; lia).
  assert (sub b 0 (len b - 4) = body) as Hbody by (rewrite Hn, Hb; apply sub_app_head; lia).
  assert (sub b (len b - 4) (len b) = be 4 (crc32.Checksum body)) as Hcrc.
  { rewrite Hn, Hb. apply sub_suffix; rewrite ?len_be; lia. }
  destruct (command_flags_spec (Cond c) (cmd_cond c Hc)) as (G1 & G2 & G3 & G4).
  unfold maxCommandTable, maxCommandKey, maxCommandValue, Coordinates.MaxTableBytes, Coordinates.MaxKeyBytes in *.
  unfold DecodeCommand. rewrite F1, F2, F3, Hbody, Hcrc, crc32.un_be_Checksum, !beq_refl, Z.eqb_refl.
  rewrite fail_if_false by (rewrite !orb_false_iff, Z.ltb_ge; unfold commandHeaderBytes; split_and!; done || lia).
  rewrite fail_if_false by (rewrite orb_false_iff, Z.ltb_ge; split; [lia|done]).
  rewrite F4, F5, F6, F7, F8, F9, G1, G4. repeat (rewrite un_be_be_small by (cbn; lia)).
  rewrite fail_if_false by done.
  rewrite fail_if_false by (rewrite !orb_false_iff, !Z.ltb_ge, !Z.eqb_neq; unfold maxCommandTable, maxCommandKey, maxCommandValue, Coordinates.MaxTableBytes, Coordinates.MaxKeyBytes; lia).
  rewrite G2, G3, !negb_involutive. unfold commandHeaderBytes. cbn [Z.add Pos.add Pos.succ Pos.add_carry].
  set (T := Table c ++ Key c ++ Value c ++ be 4 (crc32.Checksum body)) in *.
  assert (forall p, p = 47 + len (default [] (IfMatch (Cond c))) ->
    sub b p (p + len (Table c)) = Table c /\
    sub b (p + len (Table c)) (p + len (Table c) + len (Key c)) = Key c /\
    sub b (p + len (Table c) + len (Key c)) (p + len (Table c) + len (Key c) + len (Value c)) = Value c) as Hparts.
  { intros p ->. rewrite !F10 by lia. unfold T. split_and!;
      repeat (rewrite sub_skip by lia); apply sub_field; lia. }
  assert (forall p, p = 47 + len (default [] (IfMatch (Cond c))) -> len b = p + len (Table c) + len (Key c) + len (Value c) + 4) as Hend by (intros p ->; lia).
  pose proof (fun p Hp => decode_payload c b p He (Hend p Hp) (Hparts p Hp)) as Hrest.
  destruct (IfMatch (Cond c)) as [v|] eqn:Hm.
  - assert (len v = 16) as Lv by (destruct (cmd_match c Hc v Hm) as [E _]; unfold len; lia).
    cbn [default] in *. rewrite bool_decide_eq_true_2 by done.
    rewrite fail_if_false by (apply Z.ltb_ge; cbn in *; lia). cbn [mbind result_bind].
    change (4 + 1 + 1 + 16 + 16 + 2 + 2 + 4 + 1) with 47. change (47 + 16) with 63.
    assert (sub b 47 63 = v) as -> by (rewrite F10 by lia; apply sub_field; [done|by rewrite Lv]).
    apply Hrest. change (63 = 47 + len v). lia.
  - rewrite bool_decide_eq_false_2 by (by intros [? ?]). cbn [mbind result_bind]. apply Hrest. done.
Qed.

Lemma DecodeCommand_canonical b c : DecodeCommand b = Ok c -> EncodeCommand c = Ok b.
Proof.
  unfold DecodeCommand. intros H.
  repeat match type of H with
  | _ ≫= _ = Ok _ => let x := fresh in apply bind_Ok in H as (x & _ & H); try destruct x as [? ?]
  end.
  cbv zeta in H.
  match type of H with context [EncodeCommand ?k] => destruct (EncodeCommand k) as [b'|] eqn:E; [|done] end.
  destruct (beq b' b) eqn:Hb; [|done]. apply beq_true in Hb as <-. by injection H as <-.
Qed.

(** ** Theorems *)

(** C31: the command format is canonical in both directions: a byte string
    decodes to a command exactly when that command is valid and encodes to
    that byte string.  So no two commands share an encoding and no command
    has two. *)
Theorem DecodeCommand_iff_EncodeCommand b c : DecodeCommand b = Ok c <-> EncodeCommand c = Ok b.
Proof. split; [apply DecodeCommand_canonical|apply DecodeCommand_EncodeCommand]. Qed.

End command.
