(* ===== verification/JsondocCanon.v ===== *)
(** The canonical form of JSON documents: it is read back as the same value,
    and parsing always ends with an answer. *)

From Stdlib Require Import ZArith Lia Sorting.Sorted.
From stdpp Require Import base list sorting.
From S2P Require Import Prelude GoStd Jsondoc JsondocText Command.

Local Open Scope Z_scope.

(** ** Values *)

Section json_induction.
Context (P : json -> Prop).
Context (Hnull : P JNull) (Hbool : forall b, P (JBool b)) (Hnumber : forall n, P (JNumber n)) (Hstring : forall s, P (JString s)).
Context (Harray : forall items, Forall P items -> P (JArray items)).
Context (Hobject : forall fields, Forall (fun kv => P (snd kv)) fields -> P (JObject fields)).

Fixpoint json_induction (v : json) : P v :=
  match v with
  | JNull => Hnull
  | JBool b => Hbool b
  | JNumber n => Hnumber n
  | JString s => Hstring s
  | JArray items => Harray items ((fix go l : Forall P l := match l with [] => Forall_nil_2 _ | x :: l' => Forall_cons_2 _ _ _ (json_induction x) (go l') end) items)
  | JObject fields =>
      Hobject fields ((fix go l : Forall (fun kv => P (snd kv)) l :=
        match l with [] => Forall_nil_2 _ | x :: l' => Forall_cons_2 _ _ _ (json_induction (snd x)) (go l') end) fields)
  end.
End json_induction.

(** The nesting of arrays and objects. *)
Fixpoint height (v : json) : Z :=
  match v with
  | JArray items => 1 + fold_right Z.max 0 (map height items)
  | JObject fields => 1 + fold_right Z.max 0 (map (fun kv => height (snd kv)) fields)
  | _ => 0
  end.

(** Keys in increasing order. *)
Definition sorted_keys (fields : list (bytes * json)) : Prop := StronglySorted (fun a b => blt a b = true) (map fst fields).

(** The values that parsing produces. *)
Fixpoint well_formed (v : json) : Prop :=
  match v with
  | JNumber n => numberPattern n = true
  | JString s => utf8.Valid s = true
  | JArray items => fold_right and True (map well_formed items)
  | JObject fields => sorted_keys fields /\ fold_right and True (map (fun kv => utf8.Valid (fst kv) = true /\ well_formed (snd kv)) fields)
  | _ => True
  end.

Lemma all_Forall {A} (f : A -> Prop) l : fold_right and True (map f l) <-> Forall f l.
Proof. induction l as [|x l IH]; cbn; [split; constructor|]. by rewrite Forall_cons, IH. Qed.

Lemma max_bounds {A} (f : A -> Z) l n : 0 <= n -> fold_right Z.max 0 (map f l) <= n <-> Forall (fun x => f x <= n) l.
Proof. intros Hn. induction l as [|x l IH]; cbn; [split; [constructor|done]|]. rewrite Forall_cons, <- IH. lia. Qed.

Lemma height_nonneg v : 0 <= height v.
Proof. destruct v; cbn; try lia; (enough (forall l, 0 <= fold_right Z.max 0 l) as H by (specialize (H (map height items)) || specialize (H (map (fun kv => height (snd kv)) fields)); lia)); induction l; cbn; lia. Qed.

(** ** The text of values *)

Definition commas (parts : list bytes) : bytes := concat (map (cons x2c) parts).

Lemma join_cons p ps : join (p :: ps) = p ++ commas ps.
Proof.
  revert p. induction ps as [|q ps IH]; intros p; [unfold commas; cbn; by rewrite app_nil_r|].
  change (join (p :: q :: ps)) with (p ++ x2c :: join (q :: ps)). rewrite IH. done.
Qed.

Definition field_text (kv : bytes * json) : bytes := quote (fst kv) ++ x3a :: marshal (snd kv).

Lemma marshal_array items : marshal (JArray items) = x5b :: join (map marshal items) ++ [x5d].
Proof. done. Qed.
Lemma marshal_object fields : marshal (JObject fields) = x7b :: join (map field_text fields) ++ [x7d].
Proof. done. Qed.

(** How a value can start. *)
Definition starts (b : byte) : Prop :=
  b = x22 \/ b = x74 \/ b = x66 \/ b = x6e \/ b = x5b \/ b = x7b \/ b = x2d \/ is_digit b = true.

Lemma marshal_starts v : well_formed v -> exists b r, marshal v = b :: r /\ starts b.
Proof.
  unfold starts. destruct v as [|b|n|s|items|fields]; intros Hw.
  - exists x6e, (lit "ull"). auto 10.
  - destruct b; eexists _, _; (split; [reflexivity|]); auto 10.
  - destruct (number_head n Hw) as (b & r & -> & [-> |Hb]); eexists _, _; (split; [reflexivity|]); auto 10.
  - exists x22, (quote_body s ++ [x22]). auto 10.
  - eexists _, _. split; [apply marshal_array|]. auto 10.
  - eexists _, _. split; [apply marshal_object|]. auto 10.
Qed.

Lemma starts_plain b : starts b -> is_space b = false /\ u8 b =? 0x5d = false /\ u8 b =? 0x7d = false /\ u8 b =? 0x3a = false /\ u8 b =? 0x2c = false.
Proof. intros H. destruct b; try done; exfalso; revert H; unfold starts; intuition discriminate. Qed.

(** *** What scans over a value *)

(** A scan that passes over commas and over each part passes over them joined. *)
Lemma join_passes {A} (f : bytes -> A) parts t : (forall r, f (x2c :: r) = f r) -> Forall (fun p => forall r, f (p ++ r) = f r) parts -> f (join parts ++ t) = f t.
Proof.
  intros Hc Hp. destruct parts as [|p parts]; [done|]. apply Forall_cons in Hp as [Hp Hps]. rewrite join_cons, <- app_assoc, Hp.
  induction Hps as [|q parts Hq _ IH]; [done|]. unfold commas in *. cbn [map concat app]. by rewrite Hc, <- app_assoc, Hq.
Qed.

(** A scan that passes over punctuation, words, numbers and quoted strings
    passes over every value. *)
Lemma text_passes {A} (f : bytes -> A) : (forall b r, b ∈ [x2c; x3a; x5b; x5d; x7b; x7d] -> f (b :: r) = f r) ->
  (forall w r, w ∈ [lit "null"; lit "true"; lit "false"] -> f (w ++ r) = f r) -> (forall n r, numberPattern n = true -> f (n ++ r) = f r) ->
  (forall s r, utf8.Valid s = true -> f (quote s ++ r) = f r) -> forall v rest, well_formed v -> f (marshal v ++ rest) = f rest.
Proof.
  intros Hp Hl Hn Hs v. assert (forall b r, b ∈ [x2c; x3a; x5b; x5d; x7b; x7d] -> f ([b] ++ r) = f r) as Hp1 by (intros b r; apply Hp).
  induction v as [|b|n|s|items IH|fields IH] using json_induction; intros rest Hw.
  - apply Hl. set_solver.
  - destruct b; apply Hl; set_solver.
  - by apply Hn.
  - by apply Hs.
  - rewrite marshal_array. cbn [app]. rewrite Hp by set_solver. rewrite <- app_assoc, join_passes; [by apply Hp1; set_solver|intros r; apply Hp; set_solver|].
    cbn in Hw. apply all_Forall in Hw. rewrite Forall_map. rewrite Forall_forall in *. intros x Hx r. by apply IH, Hw.
  - rewrite marshal_object. cbn [app]. rewrite Hp by set_solver. rewrite <- app_assoc, join_passes; [by apply Hp1; set_solver|intros r; apply Hp; set_solver|].
    cbn in Hw. destruct Hw as [_ Hw]. apply all_Forall in Hw. rewrite Forall_map. rewrite Forall_forall in *. intros [k v] Hx r. destruct (Hw _ Hx) as [Hk Hv].
    unfold field_text. cbn [fst snd] in *. rewrite <- app_assoc, Hs by done. cbn [app]. rewrite Hp by set_solver. by apply (IH _ Hx).
Qed.

Lemma text_pairs v rest : well_formed v -> validateSurrogateEscapes false (marshal v ++ rest) = validateSurrogateEscapes false rest.
Proof.
  apply text_passes.
  - intros b r Hb. rewrite !elem_of_cons in Hb. destruct Hb as [->|[->|[->|[->|[->|[->|Hb]]]]]]; try done. by apply not_elem_of_nil in Hb.
  - intros w r Hb. rewrite !elem_of_cons in Hb. destruct Hb as [->|[->|[->|Hb]]]; try done. by apply not_elem_of_nil in Hb.
  - intros n r. apply number_pairs.
  - intros s r _. unfold quote. cbn [app]. rewrite <- app_assoc. apply quote_pairs.
Qed.

Lemma text_valid v : well_formed v -> utf8.Valid (marshal v) = true.
Proof.
  intros Hw. rewrite <- (app_nil_r (marshal v)). rewrite (text_passes utf8.Valid); try done.
  - intros b r Hb. rewrite !elem_of_cons in Hb. destruct Hb as [->|[->|[->|[->|[->|[->|Hb]]]]]]; try done. by apply not_elem_of_nil in Hb.
  - intros w r Hb. rewrite !elem_of_cons in Hb. destruct Hb as [->|[->|[->|Hb]]]; try done. by apply not_elem_of_nil in Hb.
  - intros n r Hn. by apply valid_app, number_valid.
  - intros s r Hs. unfold quote. cbn [app]. rewrite ascii_valid by done. by rewrite <- app_assoc, quote_valid.
Qed.

(** ** Tokens of the text *)

Lemma no_second_turn d : d_state d = ArrayValue \/ d_state d = ObjectKey \/ d_state d = ObjectValue -> forall d', token_turn d <> Again d'.
Proof.
  intros Hs d'. unfold token_turn. destruct (skip_space (d_rest d)); [done|]. destruct Hs as [-> |[-> | ->]]; cbn [tokenValueAllowed]; repeat case_match; done.
Qed.

Lemma Token_turn d : (forall d', token_turn d <> Again d') -> Token d = match token_turn d with Yield t d' => Ok (t, d') | Refuse e => Fail e | Again _ => Fail OutOfFuel end.
Proof. unfold Token. intros H. destruct (token_turn d) eqn:E; try done. by destruct (H d0). Qed.

Lemma Token_array_comma l stk : Token (mkDecoder (x2c :: l) ArrayComma stk) = Token (mkDecoder l ArrayValue stk).
Proof. rewrite (Token_turn (mkDecoder l ArrayValue stk)) by (apply no_second_turn; by left). done. Qed.
Lemma Token_object_comma l stk : Token (mkDecoder (x2c :: l) ObjectComma stk) = Token (mkDecoder l ObjectKey stk).
Proof. rewrite (Token_turn (mkDecoder l ObjectKey stk)) by (apply no_second_turn; right; by left). done. Qed.
Lemma Token_colon l stk : Token (mkDecoder (x3a :: l) ObjectColon stk) = Token (mkDecoder l ObjectValue stk).
Proof. rewrite (Token_turn (mkDecoder l ObjectValue stk)) by (apply no_second_turn; right; by right). done. Qed.

Lemma Token_scalar l st stk t rest b r : tokenValueAllowed st = true -> l = b :: r -> starts b -> b <> x5b -> b <> x7b -> decode_scalar l = Some (t, rest) ->
  Token (mkDecoder l st stk) = Ok (t, mkDecoder rest (tokenValueEnd st) stk).
Proof.
  intros Hst -> Hb N1 N2 Hd. destruct (starts_plain b Hb) as (H1 & H2 & H3 & H4 & H5).
  assert (u8 b =? 0x5b = false /\ u8 b =? 0x7b = false) as [E1 E2] by (split; apply Z.eqb_neq; intros E; [by apply N1, (byte_is b x5b)|by apply N2, (byte_is b x7b)]).
  unfold Token, token_turn. cbn [d_rest d_state d_stack skip_space]. rewrite H1, E1, H2, E2, H3, H4, H5, Hst, Hd. by destruct (u8 b =? 0x22), st.
Qed.

Lemma Token_key s l st stk : st = ObjectStart \/ st = ObjectKey -> Token (mkDecoder (quote s ++ l) st stk) = Ok (TString s, mkDecoder l ObjectColon stk).
Proof.
  intros Hst. unfold Token, token_turn, quote. cbn [d_rest d_state d_stack app]. rewrite <- app_assoc. cbn [skip_space app]. change (is_space x22) with false. cbv iota.
  change (u8 x22 =? 0x22) with true. cbn [decode_scalar]. change (u8 x22 =? 0x22) with true. cbv iota. rewrite quote_scans, quote_unquotes. by destruct Hst as [-> | ->].
Qed.

(** ** Reading the text back *)

(** The fuel a value needs. *)
Fixpoint jneed (v : json) : nat :=
  match v with
  | JArray items => 2 + list_sum (map (fun x => S (jneed x)) items)
  | JObject fields => 2 + list_sum (map (fun kv => S (jneed (snd kv))) fields)
  | _ => 1
  end.

Lemma parseValue_token fuel d d' depth : Token d = Token d' -> parseValue fuel d depth = parseValue fuel d' depth.
Proof. intros E. destruct fuel; [done|]. cbn [parseValue]. by rewrite E. Qed.

Definition reads_back (v : json) : Prop := forall fuel st stk rest depth, tokenValueAllowed st = true -> ends rest -> depth + height v <= MaxDepth -> (jneed v <= fuel)%nat ->
  parseValue fuel (mkDecoder (marshal v ++ rest) st stk) depth = Ok (v, mkDecoder rest (tokenValueEnd st) stk).

Lemma More_comma l st stk : More (mkDecoder (x2c :: l) st stk) = true.
Proof. done. Qed.

Lemma commas_end parts c rest : c = x5d \/ c = x7d -> ends (commas parts ++ c :: rest).
Proof. intros Hc. unfold commas. destruct parts; cbn; [tauto|by left]. Qed.

Lemma array_loop items : Forall reads_back items -> forall fuel st stk rest depth acc, Forall (fun x => depth + height x <= MaxDepth) items ->
  (1 + list_sum (map (fun x => S (jneed x)) items) <= fuel)%nat ->
  parseArray fuel (mkDecoder (commas (map marshal items) ++ x5d :: rest) ArrayComma (st :: stk)) depth acc = Ok (acc ++ items, mkDecoder rest (tokenValueEnd st) stk).
Proof.
  induction 1 as [|x items Hx Hi IH]; intros fuel st stk rest depth acc Hh Hf.
  - destruct fuel as [|fuel]; [cbn in Hf; lia|]. cbn. by rewrite app_nil_r.
  - apply Forall_cons in Hh as [Hhx Hh]. cbn [map list_sum] in Hf. change (list_sum (?a :: ?l)) with (a + list_sum l)%nat in Hf. destruct fuel as [|fuel]; [lia|].
    unfold commas. cbn [map concat app parseArray]. fold (commas (map marshal items)). rewrite More_comma, <- app_assoc.
    rewrite (parseValue_token fuel _ _ depth (Token_array_comma (marshal x ++ commas (map marshal items) ++ x5d :: rest) (st :: stk))).
    rewrite Hx; [|done|by apply commas_end; left|done|lia]. cbn [mbind result_bind tokenValueEnd]. rewrite IH; [|done|lia]. by rewrite <- app_assoc.
Qed.

Lemma More_value v t st stk : well_formed v -> More (mkDecoder (marshal v ++ t) st stk) = true.
Proof.
  intros Hw. destruct (marshal_starts v Hw) as (b & r & -> & Hb). destruct (starts_plain b Hb) as (H1 & H2 & H3 & _). unfold More. cbn [d_rest app skip_space]. by rewrite H1, H2, H3.
Qed.

Lemma Token_open c next l st stk : (c = x5b /\ next = ArrayStart \/ c = x7b /\ next = ObjectStart) -> tokenValueAllowed st = true ->
  Token (mkDecoder (c :: l) st stk) = Ok (Delim c, mkDecoder l next (st :: stk)).
Proof. intros [[-> ->]|[-> ->]] Hst; unfold Token, token_turn; cbn [d_rest d_state d_stack]; by destruct st. Qed.

Lemma height_parts {A} (f : A -> Z) l depth : depth + (1 + fold_right Z.max 0 (map f l)) <= MaxDepth -> MaxDepth <=? depth = false /\ Forall (fun x => depth + 1 + f x <= MaxDepth) l.
Proof.
  intros Hh. assert (0 <= fold_right Z.max 0 (map f l)) as H0 by (clear; induction l; cbn; lia). split; [apply Z.leb_gt; lia|].
  pose proof (proj1 (max_bounds f l (MaxDepth - depth - 1) ltac:(lia)) ltac:(lia)) as Hf. eapply Forall_impl; [exact Hf|]. cbn. intros. lia.
Qed.

Lemma reads_array items : Forall well_formed items -> Forall reads_back items -> reads_back (JArray items).
Proof.
  intros Hw Hi fuel st stk rest depth Hst He Hh Hf. cbn [jneed] in Hf. destruct fuel as [|fuel]; [lia|]. cbn [height] in Hh.
  destruct (height_parts height items depth Hh) as [Hdepth Hitems]. rewrite marshal_array. cbn [app parseValue]. rewrite (Token_open x5b ArrayStart) by (done || by left). cbn [mbind result_bind].
  rewrite Hdepth. cbn [fail_if mbind result_bind]. change (u8 x5b =? 0x7b) with false. change (u8 x5b =? 0x5b) with true. cbv iota. rewrite <- app_assoc. change ([x5d] ++ rest) with (x5d :: rest).
  enough (parseArray fuel (mkDecoder (join (map marshal items) ++ x5d :: rest) ArrayStart (st :: stk)) (depth + 1) [] = Ok (items, mkDecoder rest (tokenValueEnd st) stk)) as -> by done.
  destruct fuel as [|fuel]; [lia|]. destruct items as [|x items]; [done|]. apply Forall_cons in Hw as [Wx Hw], Hi as [Hx Hi], Hitems as [Hhx Hitems].
  cbn [map] in Hf |- *. change (list_sum (?a :: ?l)) with (a + list_sum l)%nat in Hf. rewrite join_cons, <- app_assoc. cbn [parseArray]. rewrite More_value by done.
  rewrite Hx; [|done|by apply commas_end; left|done|lia]. cbn [mbind result_bind tokenValueEnd]. by rewrite array_loop; [|done|done|lia].
Qed.

(** *** Objects *)

Lemma set_field_last key v acc : Forall (fun kv => blt (fst kv) key = true) acc -> set_field key v acc = acc ++ [(key, v)] /\ field key acc = None.
Proof.
  induction 1 as [|[k w] acc Hk Ha [IH1 IH2]]; [done|]. cbn [fst] in Hk. cbn [set_field field app]. rewrite IH1, IH2. split.
  - destruct (blt key k) eqn:E; [|done]. pose proof (blt_trans _ _ _ Hk E) as H. by rewrite blt_irrefl in H.
  - destruct (beq k key) eqn:E; [|done]. apply beq_true in E as ->. by rewrite blt_irrefl in Hk.
Qed.

Lemma sorted_before acc kv fields : sorted_keys (acc ++ kv :: fields) -> Forall (fun x => blt (fst x) (fst kv) = true) acc.
Proof.
  unfold sorted_keys. rewrite map_app. cbn [map]. induction acc as [|x acc IH]; [constructor|]. cbn [map app]. intros H. inversion H as [|? ? Hs Hf]; subst. constructor; [|by apply IH].
  rewrite Forall_app, Forall_cons in Hf. tauto.
Qed.

Lemma object_loop fields : Forall (fun kv => reads_back (snd kv)) fields -> forall fuel st stk rest depth acc, Forall (fun kv => depth + height (snd kv) <= MaxDepth) fields ->
  sorted_keys (acc ++ fields) -> (1 + list_sum (map (fun kv => S (jneed (snd kv))) fields) <= fuel)%nat ->
  parseObject fuel (mkDecoder (commas (map field_text fields) ++ x7d :: rest) ObjectComma (st :: stk)) depth acc = Ok (acc ++ fields, mkDecoder rest (tokenValueEnd st) stk).
Proof.
  induction 1 as [|[k v] fields Hx Hi IH]; intros fuel st stk rest depth acc Hh Hs Hf.
  - destruct fuel as [|fuel]; [cbn in Hf; lia|]. cbn. by rewrite app_nil_r.
  - apply Forall_cons in Hh as [Hhx Hh]. cbn [map] in Hf. change (list_sum (?a :: ?l)) with (a + list_sum l)%nat in Hf. cbn [snd] in *. destruct fuel as [|fuel]; [lia|].
    destruct (set_field_last k v acc (sorted_before _ _ _ Hs)) as [E1 E2]. unfold commas. cbn [map concat app parseObject]. fold (commas (map field_text fields)).
    rewrite More_comma, Token_object_comma. unfold field_text at 1. cbn [fst snd]. rewrite <- !app_assoc. rewrite Token_key by (by right). cbn [mbind result_bind]. rewrite E2. cbn [fail_if mbind result_bind app].
    rewrite (parseValue_token fuel _ _ depth (Token_colon _ (st :: stk))). rewrite <- app_assoc || idtac. rewrite Hx; [|done|by apply commas_end; right|done|lia].
    cbn [mbind result_bind tokenValueEnd]. rewrite E1, IH; [by rewrite <- app_assoc|done|by rewrite <- app_assoc|lia].
Qed.

Lemma reads_object fields : sorted_keys fields -> Forall (fun kv => reads_back (snd kv)) fields -> reads_back (JObject fields).
Proof.
  intros Hs Hi fuel st stk rest depth Hst He Hh Hf. cbn [jneed] in Hf. destruct fuel as [|fuel]; [lia|]. cbn [height] in Hh.
  destruct (height_parts (fun kv => height (snd kv)) fields depth Hh) as [Hdepth Hitems]. rewrite marshal_object. cbn [app parseValue]. rewrite (Token_open x7b ObjectStart) by (done || by right). cbn [mbind result_bind].
  rewrite Hdepth. cbn [fail_if mbind result_bind]. change (u8 x7b =? 0x7b) with true. cbv iota. rewrite <- app_assoc. change ([x7d] ++ rest) with (x7d :: rest).
  enough (parseObject fuel (mkDecoder (join (map field_text fields) ++ x7d :: rest) ObjectStart (st :: stk)) (depth + 1) [] = Ok (fields, mkDecoder rest (tokenValueEnd st) stk)) as -> by done.
  destruct fuel as [|fuel]; [lia|]. destruct fields as [|[k v] fields]; [done|]. apply Forall_cons in Hi as [Hx Hi], Hitems as [Hhx Hitems]. cbn [snd] in *.
  cbn [map] in Hf |- *. change (list_sum (?a :: ?l)) with (a + list_sum l)%nat in Hf. cbn [snd] in Hf. rewrite join_cons, <- app_assoc. unfold field_text at 1. cbn [fst snd]. rewrite <- app_assoc. cbn [parseObject].
  assert (forall t st' stk', More (mkDecoder (quote k ++ t) st' stk') = true) as -> by done. rewrite Token_key by (by left). cbn [mbind result_bind field fail_if app set_field].
  rewrite (parseValue_token fuel _ _ _ (Token_colon _ (st :: stk))). rewrite Hx; [|done|by apply commas_end; right|done|lia].
  cbn [mbind result_bind tokenValueEnd]. by rewrite (object_loop fields Hi fuel st stk rest (depth + 1) [(k, v)]); [|done|done|lia].
Qed.

Definition scalar_of (t : token) : option json :=
  match t with Delim _ => None | TString s => Some (JString s) | TNumber n => Some (JNumber n) | TBool b => Some (JBool b) | TNull => Some JNull end.

Lemma reads_scalar v t b r : well_formed v -> marshal v = b :: r -> starts b -> b <> x5b -> b <> x7b -> scalar_of t = Some v ->
  (forall rest, ends rest -> decode_scalar (marshal v ++ rest) = Some (t, rest)) -> reads_back v.
Proof.
  intros Hw Hm Hb N1 N2 Ht Hd fuel st stk rest depth Hst He Hh Hf. destruct fuel as [|fuel]; [destruct v; cbn in Hf; lia|]. cbn [parseValue].
  rewrite (Token_scalar _ st stk t rest b (r ++ rest)); [|done|by rewrite Hm|done|done|done|by apply Hd]. cbn [mbind result_bind].
  destruct t; try done; injection Ht as <-; try done. cbn in Hw. by rewrite Hw.
Qed.

Lemma reads_all v : well_formed v -> reads_back v.
Proof.
  induction v as [|b|n|s|items IH|fields IH] using json_induction; intros Hw.
  - by apply (reads_scalar JNull TNull x6e (lit "ull")); [|done|unfold starts; auto 10|..].
  - destruct b; [apply (reads_scalar _ (TBool true) x74 (lit "rue"))|apply (reads_scalar _ (TBool false) x66 (lit "alse"))]; unfold starts; auto 10.
  - destruct (number_head n Hw) as (b & r & E & Hb). assert (starts b) as Hst by (unfold starts; destruct Hb as [-> |Hb]; auto 10).
    apply (reads_scalar _ (TNumber n) b r); try done; [by destruct Hb as [-> |Hb]; [|intros ->]..|]. intros rest He. cbn [marshal].
    pose proof (scan_number_again NBegin n rest (numberPattern_scans n Hw) He) as Hs. rewrite E in *. cbn [app decode_scalar] in *.
    assert (u8 b =? 0x22 = false /\ u8 b =? 0x74 = false /\ u8 b =? 0x66 = false /\ u8 b =? 0x6e = false) as (-> & -> & -> & ->) by (destruct Hb as [-> |Hb]; [done|]; unfold is_digit in Hb; bool_to_prop; rewrite !Z.eqb_neq; lia).
    by rewrite Hs.
  - apply (reads_scalar _ (TString s) x22 (quote_body s ++ [x22])); try done; [unfold starts; auto|]. intros rest _. cbn [marshal]. unfold quote. cbn [app decode_scalar]. change (u8 x22 =? 0x22) with true. cbv iota.
    rewrite <- app_assoc. change ([x22] ++ rest) with (x22 :: rest). by rewrite quote_scans, quote_unquotes.
  - apply reads_array; cbn in Hw; apply all_Forall in Hw; [done|]. rewrite Forall_forall in *. intros x Hx. by apply IH, Hw.
  - cbn in Hw. destruct Hw as [Hs Hw]. apply all_Forall in Hw. apply reads_object; [done|]. rewrite Forall_forall in *. intros x Hx. by apply IH, (Hw x).
Qed.

Lemma length_join parts : (list_sum (map (fun p => S (length p)) parts) <= S (length (join parts)))%nat.
Proof.
  destruct parts as [|p parts]; [cbn; lia|]. rewrite join_cons, length_app. cbn [map]. change (list_sum (?a :: ?l)) with (a + list_sum l)%nat.
  enough (list_sum (map (fun p => S (length p)) parts) = length (commas parts)) by lia. unfold commas. clear. induction parts as [|q parts IH]; [done|].
  cbn [map concat]. change (list_sum (?a :: ?l)) with (a + list_sum l)%nat. rewrite length_app, IH. done.
Qed.

Lemma sum_le {A} (f g : A -> nat) l : Forall (fun x => (f x <= g x)%nat) l -> (list_sum (map f l) <= list_sum (map g l))%nat.
Proof. induction 1 as [|x l Hx Hl IH]; [done|]. cbn [map]. change (list_sum (?a :: ?l)) with (a + list_sum l)%nat. lia. Qed.

Lemma sum_double l : list_sum (map (fun n : nat => (2 * n)%nat) l) = (2 * list_sum l)%nat.
Proof. induction l as [|x l IH]; [done|]. cbn [map]. change (list_sum (?a :: ?l)) with (a + list_sum l)%nat. lia. Qed.

Lemma parts_need {A} (need : A -> nat) (text : A -> bytes) l : Forall (fun x => (need x <= 2 * length (text x))%nat) l ->
  (2 + list_sum (map (fun x => S (need x)) l) <= 2 * S (S (length (join (map text l)))))%nat.
Proof.
  intros H. pose proof (length_join (map text l)) as Hj. rewrite map_map in Hj.
  assert (list_sum (map (fun x => S (need x)) l) <= list_sum (map (fun n => 2 * n) (map (fun x => S (length (text x))) l)))%nat as Hs.
  { rewrite map_map. apply sum_le. eapply Forall_impl; [exact H|]. cbn. lia. }
  rewrite sum_double in Hs. lia.
Qed.

Lemma jneed_text v : well_formed v -> (jneed v <= 2 * length (marshal v))%nat.
Proof.
  induction v as [|b|n|s|items IH|fields IH] using json_induction; intros Hw; cbn [jneed].
  - cbn; lia.
  - destruct b; cbn; lia.
  - destruct (number_head n Hw) as (b & r & -> & _). cbn. lia.
  - cbn. lia.
  - rewrite marshal_array. cbn in Hw. apply all_Forall in Hw. pose proof (parts_need jneed marshal items) as H. cbn [length]. rewrite length_app. cbn [length]. etrans; [apply H|lia].
    rewrite Forall_forall in *. intros x Hx. by apply IH, Hw.
  - rewrite marshal_object. cbn in Hw. destruct Hw as [_ Hw]. apply all_Forall in Hw. pose proof (parts_need (fun kv => jneed (snd kv)) field_text fields) as H. cbn [length]. rewrite length_app. cbn [length].
    etrans; [apply H|lia]. rewrite Forall_forall in *. intros x Hx. specialize (IH x Hx (proj2 (Hw x Hx))). unfold field_text. rewrite length_app. cbn [length]. lia.
Qed.

(** ** What parsing produces *)

Lemma skip_space_rest l : utf8.Valid l = true -> utf8.Valid (skip_space l) = true /\ (length (skip_space l) <= length l)%nat.
Proof.
  induction l as [|b r IH]; [done|]. cbn [skip_space]. intros Hv. destruct (is_space b) eqn:Hs; [|done]. assert (u8 b < 0x80) as Hb by (by destruct b).
  rewrite ascii_valid in Hv by done. destruct (IH Hv). split; [done|cbn; lia].
Qed.

Lemma literal_rest word t l t' rest : literal word t l = Some (t', rest) -> utf8.Valid word = true -> word <> [] -> utf8.Valid l = true ->
  t' = t /\ utf8.Valid rest = true /\ (length rest < length l)%nat.
Proof.
  unfold literal. destruct (beq _ _) eqn:E; [|done]. apply beq_true in E. intros [= <- <-] Hw Hne Hv. rewrite <- (take_drop (length word) l), E, valid_app in Hv by done. split_and!; [done|done|].
  rewrite <- (take_drop (length word) l) at 2. rewrite E, length_app. destruct word; [done|cbn; lia].
Qed.

(** The string of a token is valid text. *)
Definition token_ok (t : token) : Prop := match t with TString s => utf8.Valid s = true | _ => True end.

Lemma decode_scalar_rest l t rest : decode_scalar l = Some (t, rest) -> utf8.Valid l = true -> token_ok t /\ utf8.Valid rest = true /\ (length rest < length l)%nat.
Proof.
  destruct l as [|b r]; [done|]. unfold decode_scalar. destruct (u8 b =? 0x22) eqn:Hq.
  - destruct (scan_string r) as [[raw rest']|] eqn:Hs; [|done]. intros [= <- <-] Hv. assert (u8 b < 0x80) as Hb by (apply Z.eqb_eq in Hq; lia). rewrite ascii_valid in Hv by done.
    destruct (scan_scanned r Hv raw rest' Hs) as (H1 & H2 & H3 & H4). split_and!; [by apply unquote_valid|done|cbn; lia].
  - destruct (u8 b =? 0x74); [intros H Hv; by destruct (literal_rest _ _ _ _ _ H) as (-> & ? & ?)|].
    destruct (u8 b =? 0x66); [intros H Hv; by destruct (literal_rest _ _ _ _ _ H) as (-> & ? & ?)|].
    destruct (u8 b =? 0x6e); [intros H Hv; by destruct (literal_rest _ _ _ _ _ H) as (-> & ? & ?)|].
    destruct (scan_number NBegin (b :: r)) as [[n rest']|] eqn:Hn; [|done]. intros [= <- <-] Hv. destruct (scan_number_valid _ _ _ _ Hn Hv) as (H1 & H2 & H3). split_and!; [done|done|].
    destruct n; [|rewrite H3, length_app; cbn; lia]. exfalso. revert Hn. cbn [scan_number]. destruct (number_step NBegin b); [|done]. by destruct (scan_number _ r) as [[]|].
Qed.

Lemma turn_rest d : utf8.Valid (d_rest d) = true -> match token_turn d with
  | Yield t d' => token_ok t /\ utf8.Valid (d_rest d') = true /\ (length (d_rest d') < length (d_rest d))%nat
  | Again d' => utf8.Valid (d_rest d') = true /\ (length (d_rest d') < length (d_rest d))%nat /\ forall d2, token_turn d' <> Again d2
  | Refuse _ => True
  end.
Proof.
  intros Hv. unfold token_turn at 1. destruct (skip_space_rest _ Hv) as [Hs Hl]. destruct (skip_space (d_rest d)) as [|c r]; [done|]. cbn [length] in Hl.
  assert (forall n, u8 c =? n = true -> n < 0x80 -> utf8.Valid r = true) as Hc by (intros n E%Z.eqb_eq Hn; by rewrite ascii_valid in Hs by lia).
  assert (forall st', match (match decode_scalar (c :: r) with Some (t, rest) => Yield t (mkDecoder rest st' (d_stack d)) | None => Refuse (ErrJSON "invalid character") end) with
    | Yield t d' => token_ok t /\ utf8.Valid (d_rest d') = true /\ (length (d_rest d') < length (d_rest d))%nat | Again _ => False | Refuse _ => True end) as Hsc.
  { intros st'. destruct (decode_scalar (c :: r)) as [[t rest]|] eqn:Hd; [|done]. destruct (decode_scalar_rest _ _ _ Hd Hs) as (H1 & H2 & H3). cbn in *. split_and!; [done|done|lia]. }
  destruct (u8 c =? 0x5b) eqn:E1; [destruct (tokenValueAllowed _); [|done]; cbn; split_and!; [done|by eapply Hc|lia]|].
  destruct (u8 c =? 0x5d) eqn:E2; [destruct (d_state d); try done; (destruct (d_stack d); [done|]; cbn; split_and!; [done|by eapply Hc|lia])|].
  destruct (u8 c =? 0x7b) eqn:E3; [destruct (tokenValueAllowed _); [|done]; cbn; split_and!; [done|by eapply Hc|lia]|].
  destruct (u8 c =? 0x7d) eqn:E4; [destruct (d_state d); try done; (destruct (d_stack d); [done|]; cbn; split_and!; [done|by eapply Hc|lia])|].
  destruct (u8 c =? 0x3a) eqn:E5; [destruct (d_state d); try done; split_and!; [by eapply Hc|cbn; lia|apply no_second_turn; auto]|].
  destruct (u8 c =? 0x2c) eqn:E6; [destruct (d_state d); try done; (split_and!; [by eapply Hc|cbn; lia|apply no_second_turn; auto])|].
  assert (match (if tokenValueAllowed (d_state d) then match decode_scalar (c :: r) with Some (t, rest) => Yield t (mkDecoder rest (tokenValueEnd (d_state d)) (d_stack d)) | None => Refuse (ErrJSON "invalid character") end
                 else Refuse (ErrJSON "invalid character")) with
    | Yield t d' => token_ok t /\ utf8.Valid (d_rest d') = true /\ (length (d_rest d') < length (d_rest d))%nat | Again _ => False | Refuse _ => True end) as Hall
    by (destruct (tokenValueAllowed _); [apply Hsc|done]).
  destruct (u8 c =? 0x22); [destruct (d_state d) eqn:Est|]; try (specialize (Hsc ObjectColon)); repeat case_match; try done.
Qed.

Lemma Token_rest d : utf8.Valid (d_rest d) = true -> match Token d with
  | Ok (t, d') => token_ok t /\ utf8.Valid (d_rest d') = true /\ (length (d_rest d') < length (d_rest d))%nat
  | Fail e => e <> OutOfFuel
  end.
Proof.
  intros Hv. pose proof (turn_rest d Hv) as H. unfold Token. destruct (token_turn d) as [t d'|e|d'] eqn:E; [done| |].
  - assert (e = ErrEOF \/ e = ErrJSON "invalid character") as [-> | ->] by (unfold token_turn in E; repeat case_match; simplify_eq; auto); done.
  - destruct H as (H1 & H2 & H3). pose proof (turn_rest d' H1) as H'. destruct (token_turn d') as [t d2|e|d2] eqn:E'; [|  |by destruct (H3 d2)].
    + destruct H' as (? & ? & ?). split_and!; [done|done|lia].
    + assert (e = ErrEOF \/ e = ErrJSON "invalid character") as [-> | ->] by (unfold token_turn in E'; repeat case_match; simplify_eq; auto); done.
Qed.

Lemma set_field_keys key v fields : field key fields = None -> sorted_keys fields -> sorted_keys (set_field key v fields) /\ (forall P, P (key, v) -> Forall P fields -> Forall P (set_field key v fields)).
Proof.
  unfold sorted_keys. induction fields as [|[k w] fields IH]; intros Hf Hs.
  - split; [repeat constructor|]. intros P Hp _. by constructor.
  - cbn [field] in Hf. destruct (beq k key) eqn:Hk; [done|]. apply beq_false in Hk. cbn [map fst] in Hs. inversion Hs as [|? ? Hs' Hall]; subst. destruct (IH Hf Hs') as [IH1 IH2]. cbn [set_field].
    destruct (blt key k) eqn:Hlt.
    + split; [|intros P Hp HP; by constructor]. cbn [map fst]. constructor; [done|]. constructor; [done|]. eapply Forall_impl; [exact Hall|]. cbn. intros x Hx. by apply (blt_trans _ k).
    + split; [|intros P Hp HP; apply Forall_cons in HP as [? ?]; constructor; auto]. cbn [map fst]. constructor; [done|].
      assert (blt k key = true) as Hkey. { apply blt_false, ble_cases in Hlt as [|]; [done|]. by destruct Hk. }
      rewrite Forall_map. apply (IH2 (fun kv => blt k (fst kv) = true)); [done|]. by rewrite Forall_map in Hall.
Qed.

Definition sound (fuel : nat) : Prop :=
  (forall d depth v d', utf8.Valid (d_rest d) = true -> 0 <= depth <= MaxDepth -> parseValue fuel d depth = Ok (v, d') ->
     well_formed v /\ utf8.Valid (d_rest d') = true /\ depth + height v <= MaxDepth)
  /\ (forall d depth acc fields d', utf8.Valid (d_rest d) = true -> 0 <= depth <= MaxDepth -> parseObject fuel d depth acc = Ok (fields, d') ->
     well_formed (JObject acc) -> Forall (fun kv => depth + height (snd kv) <= MaxDepth) acc ->
     well_formed (JObject fields) /\ utf8.Valid (d_rest d') = true /\ Forall (fun kv => depth + height (snd kv) <= MaxDepth) fields)
  /\ (forall d depth acc items d', utf8.Valid (d_rest d) = true -> 0 <= depth <= MaxDepth -> parseArray fuel d depth acc = Ok (items, d') ->
     Forall well_formed acc -> Forall (fun x => depth + height x <= MaxDepth) acc ->
     Forall well_formed items /\ utf8.Valid (d_rest d') = true /\ Forall (fun x => depth + height x <= MaxDepth) items).

Lemma height_limit {A} (f : A -> Z) l depth : depth < MaxDepth -> Forall (fun x => depth + 1 + f x <= MaxDepth) l -> depth + (1 + fold_right Z.max 0 (map f l)) <= MaxDepth.
Proof.
  intros Hd H. assert (Forall (fun x => f x <= MaxDepth - depth - 1) l) as Hf by (eapply Forall_impl; [exact H|]; cbn; intros; lia).
  pose proof (proj2 (max_bounds f l (MaxDepth - depth - 1) ltac:(lia)) Hf). lia.
Qed.

Lemma parse_sound fuel : sound fuel.
Proof.
  induction fuel as [|fuel (IHv & IHo & IHa)]; [by split_and!|]. split_and!.
  - intros d depth v d' Hv Hd H. cbn [parseValue] in H. pose proof (Token_rest d Hv) as Ht. destruct (Token d) as [[t d1]|e]; [|done]. destruct Ht as (Ht & Hv1 & _). cbn [mbind result_bind] in H.
    destruct t as [c|s|n|b|].
    + destruct (Z.leb_spec MaxDepth depth) as [|Hlt]; [done|]. cbn [fail_if mbind result_bind] in H. destruct (u8 c =? 0x7b).
      * destruct (parseObject fuel d1 (depth + 1) []) as [[fields d2]|e] eqn:Ho; [|done]. cbn in H. injection H as <- <-. destruct (IHo d1 (depth + 1) [] fields d2 Hv1 ltac:(lia) Ho) as (H1 & H2 & H3); [by repeat constructor|constructor|].
        split_and!; [done|done|]. cbn [height]. by apply height_limit.
      * destruct (u8 c =? 0x5b); [|done]. destruct (parseArray fuel d1 (depth + 1) []) as [[items d2]|e] eqn:Ho; [|done]. cbn in H. injection H as <- <-.
        destruct (IHa d1 (depth + 1) [] items d2 Hv1 ltac:(lia) Ho) as (H1 & H2 & H3); [constructor|constructor|]. split_and!; [by apply all_Forall|done|]. cbn [height]. by apply height_limit.
    + injection H as <- <-. split_and!; [done|done|cbn; lia].
    + destruct (numberPattern n) eqn:Hn; [|done]. injection H as <- <-. split_and!; [done|done|cbn; lia].
    + injection H as <- <-. split_and!; [done|done|cbn; lia].
    + injection H as <- <-. split_and!; [done|done|cbn; lia].
  - intros d depth acc fields d' Hv Hd H Hacc Hh. cbn [parseObject] in H. pose proof (Token_rest d Hv) as Ht. destruct (More d).
    + destruct (Token d) as [[t d1]|e]; [|done]. destruct Ht as (Ht & Hv1 & _). cbn [mbind result_bind] in H. destruct t as [|key| | |]; try done.
      destruct (field key acc) eqn:Hf; [done|]. cbn [fail_if mbind result_bind] in H. destruct (parseValue fuel d1 depth) as [[v d2]|e] eqn:Hp; [|done]. cbn [mbind result_bind] in H.
      destruct (IHv _ _ _ _ Hv1 Hd Hp) as (W & Hv2 & Hhv). cbn in Hacc. destruct Hacc as [Hs Hacc]. apply all_Forall in Hacc. destruct (set_field_keys key v acc Hf Hs) as [Hs' Hall].
      apply (IHo _ _ _ _ _ Hv2 Hd H); [split; [done|]; apply all_Forall; by apply Hall|by apply Hall].
    + destruct (Token d) as [[t d1]|e]; [|done]. destruct Ht as (Ht & Hv1 & _). cbn [mbind result_bind] in H. destruct t as [c| | | |]; try done. destruct (u8 c =? 0x7d); [|done]. by injection H as <- <-.
  - intros d depth acc items d' Hv Hd H Hacc Hh. cbn [parseArray] in H. destruct (More d).
    + destruct (parseValue fuel d depth) as [[v d1]|e] eqn:Hp; [|done]. cbn [mbind result_bind] in H. destruct (IHv _ _ _ _ Hv Hd Hp) as (W & Hv1 & Hhv).
      apply (IHa _ _ _ _ _ Hv1 Hd H); apply Forall_app; (split; [done|]); by constructor.
    + pose proof (Token_rest d Hv) as Ht. destruct (Token d) as [[t d1]|e]; [|done]. destruct Ht as (Ht & Hv1 & _). cbn [mbind result_bind] in H. destruct t as [c| | | |]; try done.
      destruct (u8 c =? 0x5d); [|done]. by injection H as <- <-.
Qed.

(** ** The fuel is enough *)

Definition enough_fuel (fuel : nat) : Prop :=
  (forall d depth, utf8.Valid (d_rest d) = true -> (2 * length (d_rest d) < fuel)%nat ->
     match parseValue fuel d depth with Ok (_, d') => utf8.Valid (d_rest d') = true /\ (length (d_rest d') < length (d_rest d))%nat | Fail e => e <> OutOfFuel end)
  /\ (forall d depth acc, utf8.Valid (d_rest d) = true -> (2 * length (d_rest d) + 1 < fuel)%nat ->
     match parseObject fuel d depth acc with Ok (_, d') => utf8.Valid (d_rest d') = true /\ (length (d_rest d') < length (d_rest d))%nat | Fail e => e <> OutOfFuel end)
  /\ (forall d depth acc, utf8.Valid (d_rest d) = true -> (2 * length (d_rest d) + 1 < fuel)%nat ->
     match parseArray fuel d depth acc with Ok (_, d') => utf8.Valid (d_rest d') = true /\ (length (d_rest d') < length (d_rest d))%nat | Fail e => e <> OutOfFuel end).

Lemma fuel_suffices fuel : enough_fuel fuel.
Proof.
  induction fuel as [|fuel (IHv & IHo & IHa)]; [split_and!; intros; lia|]. split_and!.
  - intros d depth Hv Hf. cbn [parseValue]. pose proof (Token_rest d Hv) as Ht. destruct (Token d) as [[t d1]|e]; [|done]. destruct Ht as (_ & Hv1 & Hl). cbn [mbind result_bind].
    destruct t as [c|s|n|b|]; try done.
    + destruct (MaxDepth <=? depth); [done|]. cbn [fail_if mbind result_bind]. destruct (u8 c =? 0x7b).
      * specialize (IHo d1 (depth + 1) [] Hv1 ltac:(lia)). destruct (parseObject fuel d1 (depth + 1) []) as [[fields d2]|e]; [|done]. cbn. split; [tauto|lia].
      * destruct (u8 c =? 0x5b); [|done]. specialize (IHa d1 (depth + 1) [] Hv1 ltac:(lia)). destruct (parseArray fuel d1 (depth + 1) []) as [[items d2]|e]; [|done]. cbn. split; [tauto|lia].
    + by destruct (numberPattern n).
  - intros d depth acc Hv Hf. cbn [parseObject]. pose proof (Token_rest d Hv) as Ht. destruct (More d).
    + destruct (Token d) as [[t d1]|e]; [|done]. destruct Ht as (_ & Hv1 & Hl). cbn [mbind result_bind]. destruct t as [|key| | |]; try done. destruct (field key acc); [done|]. cbn [fail_if mbind result_bind].
      specialize (IHv d1 depth Hv1 ltac:(lia)). destruct (parseValue fuel d1 depth) as [[v d2]|e]; [|done]. destruct IHv as [Hv2 Hl2]. cbn [mbind result_bind].
      specialize (IHo d2 depth (set_field key v acc) Hv2 ltac:(lia)). destruct (parseObject fuel d2 depth _) as [[fields d3]|e]; [|done]. split; [tauto|lia].
    + destruct (Token d) as [[t d1]|e]; [|done]. destruct Ht as (_ & Hv1 & Hl). cbn [mbind result_bind]. destruct t as [c| | | |]; try done. by destruct (u8 c =? 0x7d).
  - intros d depth acc Hv Hf. cbn [parseArray]. destruct (More d).
    + specialize (IHv d depth Hv ltac:(lia)). destruct (parseValue fuel d depth) as [[v d1]|e]; [|done]. destruct IHv as [Hv1 Hl]. cbn [mbind result_bind].
      specialize (IHa d1 depth (acc ++ [v]) Hv1 ltac:(lia)). destruct (parseArray fuel d1 depth _) as [[items d2]|e]; [|done]. split; [tauto|lia].
    + pose proof (Token_rest d Hv) as Ht. destruct (Token d) as [[t d1]|e]; [|done]. destruct Ht as (_ & Hv1 & Hl). cbn [mbind result_bind]. destruct t as [c| | | |]; try done. by destruct (u8 c =? 0x5d).
Qed.

(** ** Documents *)

(** [jsondoc] as the canonicalizer of commands and rows. *)
Definition json_canon : Canonicalizer := fun input => match jsondoc_Canonicalize input with Ok canonical => Some canonical | Fail _ => None end.

Lemma Parse_value input document : Parse input = Ok document ->
  exists v, document = mkDocument v (Some (marshal v)) /\ well_formed v /\ height v <= MaxDepth.
Proof.
  unfold Parse. intros H. apply bind_Ok in H as ([] & _ & H). apply bind_Ok in H as ([] & Hv & H). apply fail_if_Ok, negb_false_iff in Hv. apply bind_Ok in H as ([] & _ & H).
  apply bind_Ok in H as ([v d] & Hp & H). destruct (parse_sound (parse_fuel input)) as [Hs _]. destruct (Hs (mkDecoder input TopValue []) 0 v d Hv ltac:(done) Hp) as (W & _ & Hh).
  destruct (Token d) as [|[]]; try done. apply bind_Ok in H as ([] & _ & H). injection H as <-. exists v. split_and!; [done|done|lia].
Qed.

Lemma Parse_marshal v : well_formed v -> height v <= MaxDepth -> len (marshal v) <= MaxDocumentBytes -> Parse (marshal v) = Ok (mkDocument v (Some (marshal v))).
Proof.
  intros Hw Hh Hl. unfold Parse. rewrite (proj2 (Z.ltb_ge _ _) Hl), text_valid by done. cbn [negb fail_if mbind result_bind].
  pose proof (text_pairs v [] Hw) as Hp. rewrite app_nil_r in Hp. rewrite Hp. cbn [validateSurrogateEscapes fail_if mbind result_bind].
  pose proof (reads_all v Hw (parse_fuel (marshal v)) TopValue [] [] 0) as Hr. rewrite app_nil_r in Hr. rewrite Hr; [|done|done|lia|unfold parse_fuel; pose proof (jneed_text v Hw); lia].
  cbn [mbind result_bind tokenValueEnd Token token_turn d_rest skip_space]. rewrite (proj2 (Z.ltb_ge _ _)) by (unfold MaxCanonicalBytes, MaxDocumentBytes in *; lia). done.
Qed.

Lemma cloneValue_same v : cloneValue v = v.
Proof.
  induction v as [|b|n|s|items IH|fields IH] using json_induction; cbn; try done; f_equal.
  - induction IH as [|x items Hx _ IH]; [done|]. cbn. by rewrite Hx, IH.
  - induction IH as [|[k x] fields Hx _ IH]; [done|]. cbn in *. by rewrite Hx, IH.
Qed.


(** C21: Parsing always answers: the work is bounded by the length of the input,
    so [Parse] returns a document or an error of the document on every byte
    string. *)
Theorem parsing_terminates input : Parse input <> Fail OutOfFuel.
Proof.
  unfold Parse. destruct (_ <? _); [done|]. destruct (utf8.Valid input) eqn:Hv; [|done]. cbn [negb fail_if mbind result_bind].
  assert (forall inside l, validateSurrogateEscapes inside l <> Fail OutOfFuel) as Hs.
  { intros inside l. revert inside. induction l as [l IH] using (induction_ltof1 _ (@length _)). unfold ltof in IH. intros inside. destruct l as [|b r]; [by destruct inside|]. cbn [validateSurrogateEscapes].
    repeat (case_match; subst; try done); apply IH; cbn; lia. }
  destruct (validateSurrogateEscapes false input) as [[]|e] eqn:Hse; [|intros [= ->]; by destruct (Hs false input)]. cbn [mbind result_bind].
  destruct (fuel_suffices (parse_fuel input)) as [Hf _]. specialize (Hf (mkDecoder input TopValue []) 0 Hv ltac:(cbn; unfold parse_fuel; lia)).
  destruct (parseValue _ _ _) as [[v d]|e]; [|cbn; by intros [= ->]]. destruct Hf as [Hvd _]. cbn [mbind result_bind]. pose proof (Token_rest d Hvd) as Ht.
  destruct (Token d) as [[t d']|e]; [done|]. destruct e; [done| |done]. by destruct (_ <? _).
Qed.


(** A document with its keys out of order, space and escapes. *)
Definition quoted (s : bytes) : bytes := x22 :: s ++ [x22].
Definition sample_document : bytes :=
  lit "{ " ++ quoted (lit "b") ++ lit " : [1, -2.50e+3 , true, null, {}], " ++ quoted (lit "a") ++ lit ":" ++ quoted (lit "x<\u0041\ud83d\ude00\n\/") ++ lit " }".
Definition sample_parsed : Document := match Parse sample_document with Ok d => d | Fail _ => mkDocument JNull None end.
Definition sample_canonical : bytes :=
  lit "{" ++ quoted (lit "a") ++ lit ":" ++ quoted (lit "x\u003cA" ++ [xf0; x9f; x98; x80] ++ lit "\n/") ++ lit "," ++ quoted (lit "b") ++ lit ":[1,-2.50e+3,true,null,{}]}".

Lemma sample_parses : Parse sample_document = Ok sample_parsed.
Proof. vm_compute. reflexivity. Qed.
Lemma sample_bytes : Document_Bytes sample_parsed = sample_canonical.
Proof. vm_compute. reflexivity. Qed.
Lemma sample_small : len (Document_Bytes sample_parsed) <= MaxDocumentBytes.
Proof. vm_compute. discriminate. Qed.

