(* ===== verification/State.v ===== *)
(** The replicated row state machine (src/internal/raftstore/state.go): rows
    with their version history, durable operation results, and the application
    of committed entries.  The snapshot image is in Snapshot.v.

    Raft entries are data here: an index, whether the entry is a normal one,
    and its bytes.  The engine batch that makes an application durable and
    the recovery from engine records are not part of this file. *)

From Stdlib Require Import ZArith Lia.
From stdpp Require Import base list gmap sorting.
From S2P Require Import Prelude GoStd Uuidv7 Coordinates Command.

Local Open Scope Z_scope.

(** ** Data *)

Definition resultSuccess : byte := x01.
Definition resultPrecondition : byte := x02.
Definition resultVersionConflict : byte := x03.
Definition stateFormat : byte := x01.
Definition snapshotMagic : bytes := lit "VBS3".
Definition maxResultBytes : Z := 2 * 2 ^ 20 + 64 * 2 ^ 10.
Definition maxSnapshotBytes : Z := 64 * 2 ^ 20.

(** [storage.Row] *)
Record Row : Type := mkRow {
  row_Table : bytes;
  row_Key : bytes;
  row_Version : UUID;
  row_Sequence : Z;
  row_Value : bytes
}.

#[export] Instance Row_eq_dec : EqDecision Row.
Proof. solve_decision. Defined.

(** The zero value of [Row]. *)
Definition zero_uuid : UUID := replicate 16 x00.
Definition zero_row : Row := mkRow [] [] zero_uuid 0 [].

Record Result : Type := mkResult {
  res_Command : Command;
  res_Row : Row;
  res_Created : bool;
  res_Status : byte
}.

#[export] Instance Result_eq_dec : EqDecision Result.
Proof. solve_decision. Defined.

Inductive state_error : Type :=
| ErrStateCorrupt (what : String.string)
| ErrState (what : String.string)
| ErrStateCommand (e : command_error).

(** [rowVersion] only wraps a row, so the history of a row is a list of rows. *)
Record logicalState : Type := mkState {
  rows : gmap bytes Row;
  history : gmap bytes (list Row);
  results : gmap UUID Result;
  versions : gset UUID;
  lastApplied : Z;
  generation : Z
}.

Definition newLogicalState : logicalState := mkState ∅ ∅ ∅ ∅ 0 0.

(** [clone] copies every map and slice; values are immutable here. *)
Definition clone (s : logicalState) : logicalState :=
  mkState (rows s) (history s) (results s) (versions s) (lastApplied s) (generation s).

Record Entry : Type := mkEntry { entry_Index : Z; entry_Normal : bool; entry_Data : bytes }.

Definition rowID (table key : bytes) : bytes := be 4 (len table) ++ be 4 (len key) ++ table ++ key.

Definition Succeeded (r : Result) : bool := bool_decide (res_Status r = resultSuccess).
Definition PreconditionFailed (r : Result) : bool := bool_decide (res_Status r = resultPrecondition).
Definition VersionConflict (r : Result) : bool := bool_decide (res_Status r = resultVersionConflict).

Section state.
Context {canon : Canonicalizer}.

(** ** Rows *)

Definition row_bytes (row : Row) : bytes :=
  be 8 (row_Sequence row) ++ row_Version row ++ be 4 (len (row_Value row)) ++ row_Value row.

Definition encodeStateRow (row : Row) : result state_error bytes :=
  fail_if (negb (canonical_value (row_Value row))) (ErrState "state row value");;
  Ok (row_bytes row).

Definition decodeStateRow (encoded table key : bytes) : result state_error Row :=
  fail_if (len encoded <? 28) (ErrState "state row too short");;
  let length := un_be (sub encoded 24 28) in
  fail_if ((length <? 0) || negb (len encoded =? 28 + length)) (ErrState "state row length");;
  let version := sub encoded 8 24 in
  fail_if (negb (is_ok (UUIDFromBytes version))) (ErrState "state row version");;
  let sequence := un_be (sub encoded 0 8) in
  fail_if (sequence =? 0) (ErrState "state row sequence is zero");;
  let value := drop 28 encoded in
  fail_if (negb (canonical_value value)) (ErrState "state row value");;
  Ok (mkRow table key version sequence value).

(** ** Results *)

Definition is_failure (r : Result) : bool := PreconditionFailed r || VersionConflict r.

Definition encodeResult (r : Result) : result state_error bytes :=
  command ← map_err ErrStateCommand (EncodeCommand (res_Command r));
  fail_if (negb (Succeeded r) && negb (PreconditionFailed r) && negb (VersionConflict r)) (ErrState "invalid result status");;
  (if is_failure r then
     fail_if (res_Created r || negb (row_Sequence (res_Row r) =? 0) || negb (len (row_Value (res_Row r)) =? 0)
              || negb (bool_decide (row_Table (res_Row r) = [])) || negb (bool_decide (row_Key (res_Row r) = [])))
       (ErrState "precondition result contains a row")
   else
     fail_if (row_Sequence (res_Row r) =? 0) (ErrState "successful result has no row");;
     fail_if (negb (beq (row_Table (res_Row r)) (Table (res_Command r))) || negb (beq (row_Key (res_Row r)) (Key (res_Command r))))
       (ErrState "successful result coordinates mismatch");;
     fail_if (negb (beq (row_Version (res_Row r)) (Version (res_Command r)))) (ErrState "successful result version mismatch");;
     fail_if (negb (beq (row_Value (res_Row r)) (Value (res_Command r)))) (ErrState "successful result value mismatch"));;
  row ← (if Succeeded r then encodeStateRow (res_Row r) else Ok []);
  let encoded := [stateFormat; res_Status r; if res_Created r then x01 else x00]
                 ++ be 4 (len command) ++ command ++ be 4 (len row) in
  fail_if (maxResultBytes <? len encoded + len row) (ErrState "result exceeds bounded record size");;
  Ok (encoded ++ row).

Definition decodeResult (encoded : bytes) : result state_error Result :=
  let status := at_ encoded 1 in
  let created := at_ encoded 2 in
  fail_if ((len encoded <? 11) || negb (bool_decide (at_ encoded 0 = stateFormat))
           || (negb (bool_decide (status = resultSuccess)) && negb (bool_decide (status = resultPrecondition))
               && negb (bool_decide (status = resultVersionConflict)))
           || (negb (bool_decide (created = x00)) && negb (bool_decide (created = x01))))
    (ErrState "invalid result header");;
  let commandLen := un_be (sub encoded 3 7) in
  fail_if ((commandLen <=? 0) || (len encoded <? 7 + commandLen + 4)) (ErrState "invalid result command");;
  command ← map_err ErrStateCommand (DecodeCommand (sub encoded 7 (7 + commandLen)));
  let rowLenOffset := 7 + commandLen in
  let rowLen := un_be (sub encoded rowLenOffset (rowLenOffset + 4)) in
  fail_if (negb (len encoded =? rowLenOffset + 4 + rowLen)) (ErrState "invalid result row");;
  let r := mkResult command zero_row (negb (bool_decide (created = x00))) status in
  fail_if (is_failure r && (res_Created r || negb (rowLen =? 0))) (ErrState "precondition result contains a row");;
  fail_if (Succeeded r && (rowLen =? 0)) (ErrState "successful result has no row");;
  if rowLen =? 0 then Ok r
  else
    row ← decodeStateRow (sub encoded (rowLenOffset + 4) (len encoded)) (Table command) (Key command);
    fail_if (Succeeded r && (negb (beq (row_Version row) (Version command)) || negb (beq (row_Value row) (Value command))))
      (ErrState "successful result row mismatch");;
    Ok (mkResult command row (res_Created r) status).

(** ** Application of committed entries *)

(** What an application tells the waiters: results and conflicts by
    operation ID. *)
Record applied : Type := mkApplied {
  app_state : logicalState;
  app_results : gmap UUID Result;
  app_conflicts : gmap UUID command_error
}.

Definition set_applied (s : logicalState) (index : Z) : logicalState :=
  mkState (rows s) (history s) (results s) (versions s) index (generation s).

Definition put_result (s : logicalState) (r : Result) : logicalState :=
  mkState (rows s) (history s) (<[OperationID (res_Command r) := r]> (results s)) (versions s) (lastApplied s) (generation s).

Definition reserve (s : logicalState) (v : UUID) : logicalState :=
  mkState (rows s) (history s) (results s) ({[v]} ∪ versions s) (lastApplied s) (generation s).

Definition put_row (s : logicalState) (id : bytes) (row : Row) : logicalState :=
  mkState (<[id := row]> (rows s)) (<[id := default [] (history s !! id) ++ [row]]> (history s))
    (results s) (versions s) (lastApplied s) (generation s).

(** The precondition of a command against the current row. *)
Definition condition_fails (c : Command) (current : option Row) : bool :=
  (CreateOnly (Cond c) && bool_decide (is_Some current))
  || match IfMatch (Cond c) with
     | None => false
     | Some v => match current with None => true | Some row => negb (beq (row_Version row) v) end
     end.

(** A command that is not a replay: the body of the loop after the lookup of
    its operation ID. *)
Definition execute (s : logicalState) (index : Z) (c : Command) : logicalState * Result :=
  if bool_decide (Version c ∈ versions s) then
    let r := mkResult c zero_row false resultVersionConflict in (put_result s r, r)
  else
    let s := reserve s (Version c) in
    let id := rowID (Table c) (Key c) in
    let current := rows s !! id in
    if condition_fails c current then
      let r := mkResult c zero_row false resultPrecondition in (put_result s r, r)
    else
      let row := mkRow (Table c) (Key c) (Version c) index (Value c) in
      let r := mkResult c row (negb (bool_decide (is_Some current))) resultSuccess in
      (put_result (put_row s id row) r, r).

Definition apply_entry (a : applied) (e : Entry) : result state_error applied :=
  let s := app_state a in
  fail_if (negb (entry_Index e =? uint64 (lastApplied s + 1))) (ErrStateCorrupt "apply index");;
  if entry_Normal e && (0 <? len (entry_Data e)) then
    c ← map_err ErrStateCommand (DecodeCommand (entry_Data e));
    match results s !! OperationID c with
    | Some existing =>
        stored ← map_err (fun _ => ErrStateCorrupt "stored result command") (EncodeCommand (res_Command existing));
        if negb (beq stored (entry_Data e)) then
          Ok (mkApplied (set_applied s (entry_Index e)) (app_results a)
                (<[OperationID c := ErrOperationConflict]> (app_conflicts a)))
        else
          Ok (mkApplied (set_applied s (entry_Index e)) (<[OperationID c := existing]> (app_results a)) (app_conflicts a))
    | None =>
        let '(s, r) := execute s (entry_Index e) c in
        Ok (mkApplied (set_applied s (entry_Index e)) (<[OperationID c := r]> (app_results a)) (app_conflicts a))
    end
  else Ok (mkApplied (set_applied s (entry_Index e)) (app_results a) (app_conflicts a)).

Fixpoint apply_loop (a : applied) (entries : list Entry) : result state_error applied :=
  match entries with
  | [] => Ok a
  | e :: entries' => a ← apply_entry a e; apply_loop a entries'
  end.

(** The loop of [apply] over a batch of committed entries. *)
Definition apply_entries (s : logicalState) (entries : list Entry) : result state_error applied :=
  apply_loop (mkApplied (clone s) ∅ ∅) entries.

Definition get (s : logicalState) (table key : bytes) : option Row := rows s !! rowID table key.

(** ** The invariant of the state machine *)

Record row_ok (last : Z) (id : bytes) (r : Row) : Prop := {
  ro_id : id = rowID (row_Table r) (row_Key r);
  ro_table : validTable (row_Table r) = true;
  ro_key : validKey (row_Key r) = true;
  ro_version : length (row_Version r) = 16%nat /\ is_v7 (row_Version r) = true;
  ro_value : validateCanonicalValue (row_Value r) = None;
  ro_sequence : 1 <= row_Sequence r <= last
}.

Definition seq_lt (a b : Row) : Prop := row_Sequence a < row_Sequence b.

Definition in_history (s : logicalState) (r : Row) : Prop := exists id l, history s !! id = Some l /\ r ∈ l.

(** What is stored for an operation: the row it wrote, at its place in the
    history, or a failure without a row. *)
Definition outcome_ok (s : logicalState) (r : Result) : Prop :=
  let c := res_Command r in
  (res_Status r = resultSuccess /\
   exists before after, history s !! rowID (Table c) (Key c) = Some (before ++ res_Row r :: after) /\
     res_Row r = mkRow (Table c) (Key c) (Version c) (row_Sequence (res_Row r)) (Value c) /\
     res_Created r = bool_decide (before = [])) \/
  ((res_Status r = resultPrecondition \/ res_Status r = resultVersionConflict) /\
   res_Row r = zero_row /\ res_Created r = false).

Record state_ok (s : logicalState) : Prop := {
  so_last : 0 <= lastApplied s <= max_uint64;
  so_rows : forall id, rows s !! id = history s !! id ≫= last;
  so_history : forall id l, history s !! id = Some l ->
    l <> [] /\ Forall (row_ok (lastApplied s) id) l /\ StronglySorted seq_lt l;
  so_sequences : forall r r', in_history s r -> in_history s r' -> row_Sequence r = row_Sequence r' -> r = r';
  so_results : forall id r, results s !! id = Some r ->
    OperationID (res_Command r) = id /\ command_ok (res_Command r) /\ outcome_ok s r;
  so_origin : forall row, in_history s row ->
    exists id r, results s !! id = Some r /\ res_Status r = resultSuccess /\ res_Row r = row /\ Version (res_Command r) = row_Version row;
  so_versions : forall v, v ∈ versions s <-> exists id r, results s !! id = Some r /\ Version (res_Command r) = v;
  so_reserved : forall id r id' r', results s !! id = Some r -> results s !! id' = Some r' ->
    res_Status r <> resultVersionConflict -> res_Status r' <> resultVersionConflict ->
    Version (res_Command r) = Version (res_Command r') -> id = id';
  so_conflicts : forall id r, results s !! id = Some r -> res_Status r = resultVersionConflict ->
    exists id' r', results s !! id' = Some r' /\ res_Status r' <> resultVersionConflict /\
      Version (res_Command r') = Version (res_Command r)
}.

(** The states a replica can be in: every batch of entries it has applied. *)
Inductive reachable : logicalState -> Prop :=
| reach_new : reachable newLogicalState
| reach_apply s entries a :
    reachable s -> lastApplied s + len entries <= max_uint64 ->
    apply_entries s entries = Ok a -> reachable (app_state a).

Lemma newLogicalState_ok : state_ok newLogicalState.
Proof.
  assert (forall id l, history newLogicalState !! id = Some l -> False) as Hl by (cbn; intros ? ?; apply lookup_empty_Some).
  assert (forall r, in_history newLogicalState r -> False) as Hh by (intros r (id & l & H & _); by apply Hl in H).
  assert (forall id r, results newLogicalState !! id = Some r -> False) as Hr by (cbn; intros ? ?; apply lookup_empty_Some).
  split; try (intros; exfalso; by eauto).
  - done.
  - done.
  - intros v. split; [by intros ?%elem_of_empty|]. intros (id & r & H & _). by apply Hr in H.
Qed.

Lemma row_ok_mono last last' id r : last <= last' -> row_ok last id r -> row_ok last' id r.
Proof. intros H [? ? ? ? ? ?]. split; try done. lia. Qed.

Lemma set_applied_ok s i : state_ok s -> lastApplied s <= i <= max_uint64 -> state_ok (set_applied s i).
Proof.
  intros [Hl Hr Hh Hs Hres Ho Hv Hrv Hc] Hi. split; cbn; try done; [lia|].
  intros id l H. apply Hh in H as (? & Hf & ?). split_and!; try done.
  eapply Forall_impl; [exact Hf|]. intros x. apply row_ok_mono. lia.
Qed.

(** A new result keeps the invariant when the history it comes with is well
    formed, keeps the outcomes recorded so far and holds no other new row. *)
Lemma add_result_ok s rows' history' r (v := Version (res_Command r))
    (s' := mkState rows' history' (<[OperationID (res_Command r) := r]> (results s)) ({[v]} ∪ versions s)
             (lastApplied s) (generation s)) :
  state_ok s -> results s !! OperationID (res_Command r) = None -> command_ok (res_Command r) ->
  (res_Status r = resultVersionConflict <-> v ∈ versions s) ->
  (forall id, rows' !! id = history' !! id ≫= last) ->
  (forall id l, history' !! id = Some l -> l <> [] /\ Forall (row_ok (lastApplied s) id) l /\ StronglySorted seq_lt l) ->
  (forall x y, in_history s' x -> in_history s' y -> row_Sequence x = row_Sequence y -> x = y) ->
  outcome_ok s' r -> (forall r0, outcome_ok s r0 -> outcome_ok s' r0) ->
  (forall row, in_history s' row -> in_history s row \/ (res_Status r = resultSuccess /\ res_Row r = row /\ v = row_Version row)) ->
  state_ok s'.
Proof.
  intros [Hl Hr Hh Hs Hres Ho Hv Hrv Hc] Hfresh Hcmd Hst Hrows Hhist Hseq Hout Hkeep Hnew.
  assert (forall id r0, results s' !! id = Some r0 ->
    (id = OperationID (res_Command r) /\ r0 = r) \/ results s !! id = Some r0) as Hcase.
  { intros id r0. cbn. intros [[<- <-]|[_ ?]]%lookup_insert_Some; [by left|by right]. }
  assert (forall id r0, results s !! id = Some r0 -> results s' !! id = Some r0) as Hold.
  { intros id r0 H. cbn. rewrite lookup_insert_ne; [done|]. congruence. }
  assert (results s' !! OperationID (res_Command r) = Some r) as Hself by apply lookup_insert_eq.
  assert (forall id r0, results s !! id = Some r0 -> Version (res_Command r0) ∈ versions s) as Hin.
  { intros id r0 H. apply Hv. by exists id, r0. }
  split; try done.
  - intros id r0 [[-> ->]|H]%Hcase; [done|]. apply Hres in H as (? & ? & ?). split_and!; try done. by apply Hkeep.
  - intros row [H|(? & ? & ?)]%Hnew; [|by exists (OperationID (res_Command r)), r].
    apply Ho in H as (id & r0 & H & ? & ? & ?). exists id, r0. split_and!; try done. by apply Hold.
  - intros x. cbn. rewrite elem_of_union, elem_of_singleton, Hv. split.
    + intros [->|(id & r0 & H & ?)]; [by exists (OperationID (res_Command r)), r|]. exists id, r0. split; [by apply Hold|done].
    + intros (id & r0 & [[-> ->]|H]%Hcase & <-); [by left|right]. by exists id, r0.
  - intros id r1 id' r2 [[-> ->]|H1]%Hcase [[-> ->]|H2]%Hcase N1 N2 E; try done.
    + exfalso. apply N1, Hst. unfold v. rewrite E. by eapply Hin.
    + exfalso. apply N2, Hst. unfold v. rewrite <- E. by eapply Hin.
    + by eapply Hrv.
  - intros id r0 [[-> ->]|H]%Hcase Hconf.
    + apply Hst, Hv in Hconf as (id' & r' & H' & Hver).
      destruct (decide (res_Status r' = resultVersionConflict)) as [Hc'|Hc'].
      * destruct (Hc _ _ H' Hc') as (id2 & r2 & H2 & ? & E). exists id2, r2. split_and!; [by apply Hold|done|by rewrite E, Hver].
      * exists id', r'. split_and!; [by apply Hold|done|done].
    + destruct (Hc _ _ H Hconf) as (id2 & r2 & H2 & ? & E). exists id2, r2. split_and!; [by apply Hold|done|done].
Qed.

Lemma failure_ok s c st :
  state_ok s -> results s !! OperationID c = None -> command_ok c ->
  st = resultVersionConflict /\ Version c ∈ versions s \/ st = resultPrecondition /\ Version c ∉ versions s ->
  state_ok (mkState (rows s) (history s) (<[OperationID c := mkResult c zero_row false st]> (results s))
              ({[Version c]} ∪ versions s) (lastApplied s) (generation s)).
Proof.
  intros Hs Hf Hc Hst. apply (add_result_ok s (rows s) (history s) (mkResult c zero_row false st)); try done.
  - cbn. destruct Hst as [[-> ?]|[-> ?]]; naive_solver.
  - apply Hs.
  - apply Hs.
  - apply (so_sequences s Hs).
  - right. cbn. naive_solver.
  - intros row H. by left.
Qed.

Lemma success_ok s c id (row := mkRow (Table c) (Key c) (Version c) (lastApplied s) (Value c)) :
  id = rowID (Table c) (Key c) -> state_ok s -> 1 <= lastApplied s -> (forall x, in_history s x -> row_Sequence x < lastApplied s) ->
  results s !! OperationID c = None -> command_ok c -> Version c ∉ versions s ->
  state_ok (put_result (put_row (reserve s (Version c)) id row)
              (mkResult c row (negb (bool_decide (is_Some (rows s !! id)))) resultSuccess)).
Proof.
  intros Hid Hs Hlast Hbefore Hf Hc Hv. set (r := mkResult _ _ _ _).
  set (old := default [] (history s !! id)).
  assert (forall x, x ∈ old -> in_history s x) as Hold.
  { intros x. unfold old. destruct (history s !! id) as [l|] eqn:E; [|by intros ?%elem_of_nil]. intros Hx. by exists id, l. }
  apply (add_result_ok s (<[id := row]> (rows s)) (<[id := old ++ [row]]> (history s)) r); try done.
  - intros i. destruct (decide (i = id)) as [->|Hne].
    + rewrite !lookup_insert_eq. cbn. by rewrite last_snoc.
    + rewrite !lookup_insert_ne by done. apply (so_rows s Hs).
  - intros i l [[<- <-]|[_ H]]%lookup_insert_Some; [|by apply (so_history s Hs)].
    assert (Forall (row_ok (lastApplied s) id) old /\ StronglySorted seq_lt old) as [Hfo Hso].
    { unfold old. destruct (history s !! id) as [l|] eqn:E; [|by split; constructor]. by apply (so_history s Hs) in E as (_ & ? & ?). }
    split_and!; [by destruct old| |].
    + apply Forall_app. split; [done|]. apply Forall_singleton. split; cbn; try apply Hc; [done|lia].
    + apply StronglySorted_app_2; [|done|by repeat constructor]. intros x y Hx ->%list_elem_of_singleton.
      unfold seq_lt. cbn. by apply Hbefore, Hold.
  - assert (forall x, in_history (mkState (<[id:=row]> (rows s)) (<[id := old ++ [row]]> (history s)) (results s) (versions s) 0 0) x ->
      in_history s x \/ x = row) as Hcase.
    { intros x (i & l & H & Hx). cbn in H. apply lookup_insert_Some in H as [[<- <-]|[_ H]]; [|left; by exists i, l].
      apply elem_of_app in Hx as [Hx| ->%list_elem_of_singleton]; [left; by apply Hold|by right]. }
    intros x y Hx%Hcase Hy%Hcase E. destruct Hx as [Hx| ->], Hy as [Hy| ->]; try done.
    + by apply (so_sequences s Hs).
    + specialize (Hbefore x Hx). cbn in E. lia.
    + specialize (Hbefore y Hy). cbn in E. lia.
  - left. split; [done|]. exists old, []. split_and!; [|done|].
    { change (<[id := old ++ [row]]> (history s) !! rowID (Table c) (Key c) = Some (old ++ [row])).
      by rewrite <- Hid, lookup_insert_eq. }
    change (negb (bool_decide (is_Some (rows s !! id))) = bool_decide (old = [])). unfold old. rewrite (so_rows s Hs). destruct (history s !! id) as [l|] eqn:E; cbn.
    + destruct (so_history s Hs _ _ E) as (Hne & _). rewrite (bool_decide_eq_false_2 (l = [])) by done.
      rewrite bool_decide_eq_true_2; [done|]. destruct (last l) eqn:El; [done|]. by apply last_None in El.
    + done.
  - intros r0 [(E & before & after & H & ? & ?)|H]; [left|by right]. split; [done|]. cbn [history].
    destruct (decide (rowID (Table (res_Command r0)) (Key (res_Command r0)) = id)) as [Ei|Hne].
    + rewrite Ei, lookup_insert_eq. exists before, (after ++ [row]). split_and!; try done.
      unfold old. rewrite <- Ei, H. cbn. by rewrite <- app_assoc.
    + rewrite lookup_insert_ne by done. by exists before, after.
  - intros x (i & l & H & Hx). cbn in H. apply lookup_insert_Some in H as [[<- <-]|[_ H]]; [|left; by exists i, l].
    apply elem_of_app in Hx as [Hx| ->%list_elem_of_singleton]; [left; by apply Hold|by right].
Qed.

Lemma execute_ok s c :
  state_ok s -> 1 <= lastApplied s -> (forall x, in_history s x -> row_Sequence x < lastApplied s) ->
  results s !! OperationID c = None -> command_ok c -> state_ok (fst (execute s (lastApplied s) c)).
Proof.
  intros Hs Hlast Hb Hf Hc. unfold execute. destruct (decide (Version c ∈ versions s)) as [Hv|Hv].
  - rewrite bool_decide_eq_true_2 by done. cbn [fst]. unfold put_result. cbn [res_Command].
    replace (versions s) with ({[Version c]} ∪ versions s) by set_solver. apply failure_ok; try done. by left.
  - rewrite bool_decide_eq_false_2 by done. cbv zeta. cbn [rows reserve].
    destruct (condition_fails c (rows s !! rowID (Table c) (Key c))); cbn [fst].
    + apply (failure_ok s c resultPrecondition); try done. by right.
    + by apply success_ok.
Qed.

(** The next index does not wrap around. *)
Lemma next_index s e : 0 <= lastApplied s < max_uint64 -> (entry_Index e =? uint64 (lastApplied s + 1)) = true ->
  entry_Index e = lastApplied s + 1.
Proof. intros H E. apply Z.eqb_eq in E. rewrite E. unfold uint64, max_uint64 in *. apply Z.mod_small. lia. Qed.

Lemma apply_entry_ok a e a' :
  state_ok (app_state a) -> lastApplied (app_state a) < max_uint64 -> apply_entry a e = Ok a' ->
  state_ok (app_state a') /\ lastApplied (app_state a') = lastApplied (app_state a) + 1.
Proof.
  intros Hs Hmax. pose proof (so_last _ Hs) as Hl. unfold apply_entry. intros H.
  apply bind_Ok in H as (u & Hi & H). apply fail_if_Ok, negb_false_iff, next_index in Hi; [|lia].
  assert (state_ok (set_applied (app_state a) (entry_Index e))) as Hs1 by (apply set_applied_ok; [done|lia]).
  destruct (entry_Normal e && (0 <? len (entry_Data e))); [|by injection H as <-].
  apply bind_Ok in H as (c & Hd & H). apply map_err_Ok, DecodeCommand_canonical, EncodeCommand_Ok in Hd as [Hc _].
  destruct (results (app_state a) !! OperationID c) as [existing|] eqn:Hr.
  - apply bind_Ok in H as (stored & _ & H). destruct (negb _); by injection H as <-.
  - assert (set_applied (fst (execute (app_state a) (entry_Index e) c)) (entry_Index e)
            = fst (execute (set_applied (app_state a) (entry_Index e)) (entry_Index e) c)) as E.
    { unfold execute. cbn [versions rows reserve set_applied]. destruct (bool_decide _); [done|]. by destruct (condition_fails _ _). }
    pose proof (execute_ok (set_applied (app_state a) (entry_Index e)) c Hs1) as Hex. cbn [lastApplied set_applied] in Hex.
    destruct (execute (app_state a) (entry_Index e) c) as [s1 r] eqn:Hx. injection H as <-. cbn [app_state].
    cbn [fst] in E. rewrite E. split; [|by rewrite <- E]. apply Hex; try done; [lia|].
    intros x (id & l & Hh & Hin). cbn in Hh. apply (so_history _ Hs) in Hh as (_ & Hf & _). rewrite Forall_forall in Hf.
    apply Hf in Hin as [_ _ _ _ _ ?]. lia.
Qed.

Lemma apply_loop_ok entries : forall a a',
  state_ok (app_state a) -> lastApplied (app_state a) + len entries <= max_uint64 -> apply_loop a entries = Ok a' ->
  state_ok (app_state a') /\ lastApplied (app_state a') = lastApplied (app_state a) + len entries.
Proof.
  induction entries as [|e entries IH]; intros a a' Hs Hmax; cbn [apply_loop].
  - intros [= <-]. split; [done|]. rewrite (@len_nil Entry). lia.
  - intros (a1 & H1 & H2)%bind_Ok. rewrite len_cons in *. pose proof (len_nonneg entries).
    destruct (apply_entry_ok _ _ _ Hs ltac:(lia) H1) as [Hs1 E1]. destruct (IH _ _ Hs1 ltac:(lia) H2) as [? ?].
    split; [done|lia].
Qed.

Lemma reachable_state_ok s : reachable s -> state_ok s.
Proof.
  induction 1 as [|s entries a _ IH Hmax H]; [apply newLogicalState_ok|].
  apply (apply_loop_ok entries (mkApplied (clone s) ∅ ∅)) in H as [? _]; try done. by destruct s.
Qed.

(** ** Theorems *)

Lemma apply_single s e a' :
  apply_entry (mkApplied (clone s) ∅ ∅) e = Ok a' -> apply_entries s [e] = Ok a'.
Proof. intros H. unfold apply_entries. cbn [apply_loop]. by rewrite H. Qed.

Lemma clone_id s : clone s = s.
Proof. by destruct s. Qed.

(** The entry that carries the encoding of a command at the next index. *)
Definition command_entry (s : logicalState) (b : bytes) : Entry := mkEntry (lastApplied s + 1) true b.

Lemma encoded_nonempty c b : EncodeCommand c = Ok b -> 0 < len b.
Proof.
  intros [Hc ->]%EncodeCommand_Ok. rewrite len_app, len_be. pose proof (len_nonneg (command_body c)). lia.
Qed.

Lemma apply_command s c b :
  0 <= lastApplied s < max_uint64 -> EncodeCommand c = Ok b ->
  apply_entries s [command_entry s b] =
  match results s !! OperationID c with
  | Some existing =>
      stored ← map_err (fun _ => ErrStateCorrupt "stored result command") (EncodeCommand (res_Command existing));
      if negb (beq stored b) then
        Ok (mkApplied (set_applied s (lastApplied s + 1)) ∅ {[OperationID c := ErrOperationConflict]})
      else Ok (mkApplied (set_applied s (lastApplied s + 1)) {[OperationID c := existing]} ∅)
  | None =>
      let '(s', r) := execute s (lastApplied s + 1) c in
      Ok (mkApplied (set_applied s' (lastApplied s + 1)) {[OperationID c := r]} ∅)
  end.
Proof.
  intros Hl He. unfold apply_entries, apply_loop, apply_entry. cbn [app_state app_results app_conflicts]. rewrite clone_id.
  cbn [entry_Index entry_Normal entry_Data command_entry].
  assert (uint64 (lastApplied s + 1) = lastApplied s + 1) as -> by (unfold uint64, max_uint64 in *; apply Z.mod_small; lia).
  rewrite Z.eqb_refl. cbn [negb fail_if mbind result_bind].
  rewrite (proj2 (Z.ltb_lt _ _) (encoded_nonempty _ _ He)), (DecodeCommand_EncodeCommand _ _ He). cbn [andb map_err mbind result_bind].
  destruct (results s !! OperationID c) as [existing|].
  - destruct (EncodeCommand (res_Command existing)) as [stored|]; [|done]. cbn. by destruct (negb _).
  - by destruct (execute s (lastApplied s + 1) c).
Qed.

(** C25: replays are idempotent and conflicts are inert.  When an operation ID
    already has a result, a further committed entry with that ID changes only
    the applied index: the same command is answered with the stored result,
    a different one with the conflict error. *)
Theorem replay_is_idempotent s c b r :
  reachable s -> lastApplied s < max_uint64 ->
  EncodeCommand c = Ok b -> results s !! OperationID c = Some r ->
  apply_entries s [command_entry s b] =
  Ok (if bool_decide (res_Command r = c)
      then mkApplied (set_applied s (lastApplied s + 1)) {[OperationID c := r]} ∅
      else mkApplied (set_applied s (lastApplied s + 1)) ∅ {[OperationID c := ErrOperationConflict]}).
Proof.
  intros Hs%reachable_state_ok Hl He Hr. pose proof (so_last s Hs). rewrite (apply_command s c b) by (done || lia). rewrite Hr.
  destruct (so_results s Hs _ _ Hr) as (_ & Hc & _).
  assert (exists enc, EncodeCommand (res_Command r) = Ok enc) as [enc Es] by (eexists; by apply EncodeCommand_Ok).
  rewrite Es. cbn [map_err mbind result_bind]. destruct (decide (res_Command r = c)) as [E|E].
  - rewrite bool_decide_eq_true_2 by done. rewrite E in Es. assert (enc = b) as -> by congruence. by rewrite beq_refl.
  - rewrite bool_decide_eq_false_2 by done. destruct (beq enc b) eqn:Eb; [|done]. exfalso. apply E.
    apply beq_true in Eb as ->. apply DecodeCommand_EncodeCommand in Es, He. congruence.
Qed.

(** When a put may write: the condition of the command against the current row. *)
Definition condition_holds (c : Command) (current : option Row) : Prop :=
  (CreateOnly (Cond c) = true -> current = None) /\
  (forall v, IfMatch (Cond c) = Some v -> exists row, current = Some row /\ row_Version row = v).

Lemma condition_fails_spec c current : condition_fails c current = false <-> condition_holds c current.
Proof.
  unfold condition_fails, condition_holds. rewrite orb_false_iff, andb_false_iff, bool_decide_eq_false, <- eq_None_not_Some. split.
  - intros [H1 H2]. split; [intros E; destruct H1; congruence|]. intros v E. rewrite E in H2. destruct current as [row|]; [|done].
    apply negb_false_iff, beq_true in H2. by exists row.
  - intros [H1 H2]. split; [destruct (CreateOnly (Cond c)); [right; by apply H1|by left]|].
    destruct (IfMatch (Cond c)) as [v|]; [|done]. destruct (H2 v eq_refl) as (row & -> & <-). by rewrite beq_refl.
Qed.

(** C24: a new operation is decided once, on exactly three outcomes.  A row
    version that was ever reserved is a version conflict; a version not yet
    reserved whose condition does not hold is a precondition failure; both
    leave every row and history alone.  Otherwise the put writes its row at
    the entry's index, appends it to the history of that row only, and
    reports whether the row is new.  In every case the version is reserved,
    the result is stored and it is the one reported. *)
Theorem new_operation_decided s c b (id := rowID (Table c) (Key c)) :
  reachable s -> lastApplied s < max_uint64 -> EncodeCommand c = Ok b -> results s !! OperationID c = None ->
  exists s' r, apply_entries s [command_entry s b] = Ok (mkApplied s' {[OperationID c := r]} ∅) /\
    results s' = <[OperationID c := r]> (results s) /\ versions s' = {[Version c]} ∪ versions s /\
    lastApplied s' = lastApplied s + 1 /\ res_Command r = c /\
    (if decide (Version c ∈ versions s) then
       r = mkResult c zero_row false resultVersionConflict /\ rows s' = rows s /\ history s' = history s
     else if condition_fails c (get s (Table c) (Key c)) then
       r = mkResult c zero_row false resultPrecondition /\ rows s' = rows s /\ history s' = history s
     else
       let row := mkRow (Table c) (Key c) (Version c) (lastApplied s + 1) (Value c) in
       condition_holds c (get s (Table c) (Key c)) /\
       r = mkResult c row (bool_decide (get s (Table c) (Key c) = None)) resultSuccess /\
       rows s' = <[id := row]> (rows s) /\ history s' = <[id := default [] (history s !! id) ++ [row]]> (history s)).
Proof.
  intros Hs%reachable_state_ok Hl He Hr. pose proof (so_last s Hs). rewrite (apply_command s c b) by (done || lia). rewrite Hr.
  unfold execute, get. fold id. destruct (decide (Version c ∈ versions s)) as [Hv|Hv].
  - rewrite bool_decide_eq_true_2 by done. eexists _, _. split_and!; try done. cbn. set_solver.
  - rewrite bool_decide_eq_false_2 by done. cbv zeta. cbn [rows reserve].
    destruct (condition_fails c (rows s !! id)) eqn:Hf; eexists _, _; split_and!; try done.
    + by apply condition_fails_spec.
    + f_equal. by destruct (rows s !! id).
Qed.

(** C26: history is linear and row versions are never reused: in every
    reachable state the head of a row is the last version of its history,
    the versions of a row are in strictly increasing sequence order, and no
    two versions anywhere in the state share a sequence number or a row
    version (so an entity tag that matched once never matches another value). *)
Theorem history_is_linear s :
  reachable s ->
  (forall id, rows s !! id = history s !! id ≫= last) /\
  (forall id l, history s !! id = Some l -> StronglySorted seq_lt l /\ Forall (row_ok (lastApplied s) id) l) /\
  (forall r r', in_history s r -> in_history s r' ->
     row_Sequence r = row_Sequence r' \/ row_Version r = row_Version r' -> r = r').
Proof.
  intros Hs%reachable_state_ok. split_and!.
  - apply (so_rows s Hs).
  - intros id l H. by apply (so_history s Hs) in H as (_ & ? & ?).
  - intros r r' Hr Hr' [E|E]; [by apply (so_sequences s Hs)|].
    destruct (so_origin s Hs r Hr) as (id & x & Hx & Sx & <- & Vx).
    destruct (so_origin s Hs r' Hr') as (id' & x' & Hx' & Sx' & <- & Vx').
    assert (id = id') as ->; [|congruence].
    apply (so_reserved s Hs id x id' x'); try done; [by rewrite Sx|by rewrite Sx'|congruence].
Qed.

Lemma execute_grows s i c :
  results s !! OperationID c = None ->
  let '(s', r) := execute s i c in
  results s' = <[OperationID c := r]> (results s) /\
  forall id l, history s !! id = Some l -> exists l', history s' !! id = Some (l ++ l').
Proof.
  intros Hf. unfold execute. destruct (bool_decide _).
  { cbn. split; [done|]. intros id l H. exists []. by rewrite app_nil_r. }
  cbv zeta. destruct (condition_fails _ _); cbn [results history put_result put_row reserve res_Command].
  - split; [done|]. intros id l H. exists []. by rewrite app_nil_r.
  - split; [done|]. intros id l H. destruct (decide (id = rowID (Table c) (Key c))) as [->|Hne].
    + rewrite lookup_insert_eq, H. cbn [default from_option]. by eexists.
    + rewrite lookup_insert_ne by done. exists []. by rewrite app_nil_r.
Qed.

Lemma apply_entry_grows a e a' :
  apply_entry a e = Ok a' ->
  (results (app_state a) ⊆ results (app_state a') /\
   forall id l, history (app_state a) !! id = Some l -> exists l', history (app_state a') !! id = Some (l ++ l')) /\
  ((forall op r, app_results a !! op = Some r -> results (app_state a) !! op = Some r) ->
   forall op r, app_results a' !! op = Some r -> results (app_state a') !! op = Some r).
Proof.
  unfold apply_entry. intros (u & _ & H)%bind_Ok.
  assert (forall s i, (results s ⊆ results (set_applied s i) /\
    forall id l, history s !! id = Some l -> exists l', history (set_applied s i) !! id = Some (l ++ l'))) as Hsame.
  { intros s i. split; [done|]. intros id l Hh. exists []. by rewrite app_nil_r. }
  destruct (entry_Normal e && _); [|injection H as <-; split; [apply Hsame|done]].
  apply bind_Ok in H as (c & _ & H). destruct (results (app_state a) !! OperationID c) as [existing|] eqn:Hr.
  - apply bind_Ok in H as (stored & _ & H). destruct (negb _); injection H as <-; (split; [apply Hsame|]); cbn.
    + done.
    + intros Ha op r [[<- <-]|[_ ?]]%lookup_insert_Some; [done|by apply Ha].
  - pose proof (execute_grows (app_state a) (entry_Index e) c Hr) as Hg.
    destruct (execute (app_state a) (entry_Index e) c) as [s' r] eqn:Hx. destruct Hg as [Hres Hh]. injection H as <-. cbn.
    rewrite Hres. split; [split|].
    + by apply insert_subseteq.
    + done.
    + intros Ha op r0 [[<- <-]|[Hne ?]]%lookup_insert_Some; [by rewrite lookup_insert_eq|].
      rewrite lookup_insert_ne by done. by apply Ha.
Qed.

Lemma apply_loop_grows entries : forall a a',
  apply_loop a entries = Ok a' ->
  (results (app_state a) ⊆ results (app_state a') /\
   forall id l, history (app_state a) !! id = Some l -> exists l', history (app_state a') !! id = Some (l ++ l')) /\
  ((forall op r, app_results a !! op = Some r -> results (app_state a) !! op = Some r) ->
   forall op r, app_results a' !! op = Some r -> results (app_state a') !! op = Some r).
Proof.
  induction entries as [|e entries IH]; intros a a'; cbn [apply_loop].
  - intros [= <-]. split; [|done]. split; [done|]. intros id l H. exists []. by rewrite app_nil_r.
  - intros (a1 & H1 & H2)%bind_Ok. apply apply_entry_grows in H1 as [[R1 Hh1] Q1]. apply IH in H2 as [[R2 Hh2] Q2].
    split; [split|].
    + by transitivity (results (app_state a1)).
    + intros id l H. destruct (Hh1 _ _ H) as [l1 H1]. destruct (Hh2 _ _ H1) as [l2 H2]. exists (l1 ++ l2). by rewrite app_assoc.
    + intros H. by apply Q2, Q1.
Qed.

(** outcomes are permanent: applying further committed entries never
    changes or drops the result of an operation, only appends to histories,
    and every result it reports is the stored one. *)
Theorem outcomes_are_permanent s entries a :
  apply_entries s entries = Ok a ->
  results s ⊆ results (app_state a) /\
  (forall id l, history s !! id = Some l -> exists l', history (app_state a) !! id = Some (l ++ l')) /\
  (forall op r, app_results a !! op = Some r -> results (app_state a) !! op = Some r).
Proof.
  unfold apply_entries. intros H. apply apply_loop_grows in H as [[H1 H2] H3]. cbn [app_state] in *. rewrite clone_id in *.
  split_and!; [done|done|]. apply H3. intros op r Hx. cbn [app_results] in Hx. by apply lookup_empty_Some in Hx.
Qed.

(** *** Batch boundaries *)

Lemma apply_entry_state a1 a2 e a1' :
  app_state a1 = app_state a2 -> apply_entry a1 e = Ok a1' ->
  exists a2', apply_entry a2 e = Ok a2' /\ app_state a2' = app_state a1'.
Proof.
  intros E. unfold apply_entry. rewrite E. intros (u & -> & H)%bind_Ok. cbn [mbind result_bind].
  destruct (entry_Normal e && _); [|injection H as <-; by eexists].
  apply bind_Ok in H as (c & -> & H). cbn [mbind result_bind]. destruct (results (app_state a2) !! OperationID c) as [x|].
  - apply bind_Ok in H as (stored & -> & H). cbn [mbind result_bind]. destruct (negb _); injection H as <-; by eexists.
  - destruct (execute _ _ _) as [s r]. injection H as <-. by eexists.
Qed.

Lemma apply_loop_state entries : forall a1 a2 a1',
  app_state a1 = app_state a2 -> apply_loop a1 entries = Ok a1' ->
  exists a2', apply_loop a2 entries = Ok a2' /\ app_state a2' = app_state a1'.
Proof.
  induction entries as [|e entries IH]; intros a1 a2 a1' E; cbn [apply_loop].
  - intros [= <-]. by exists a2.
  - intros (x1 & H1 & H2)%bind_Ok. destruct (apply_entry_state _ _ _ _ E H1) as (x2 & -> & E2). cbn [mbind result_bind].
    by apply (IH x1 x2 a1').
Qed.

Lemma apply_loop_app l1 l2 a a' :
  apply_loop a (l1 ++ l2) = Ok a' <-> exists a1, apply_loop a l1 = Ok a1 /\ apply_loop a1 l2 = Ok a'.
Proof.
  revert a. induction l1 as [|e l1 IH]; intros a; cbn [app apply_loop]; [naive_solver|]. rewrite bind_Ok. split.
  - intros (x & H & (a1 & H1 & H2)%IH). exists a1. by rewrite H.
  - intros (a1 & (x & H & H1)%bind_Ok & H2). exists x. split; [done|]. apply IH. by exists a1.
Qed.

(** replicas that apply the same committed entries reach the same state
    however the entries are grouped into batches: applying a batch succeeds
    exactly when applying its two parts in turn does, and leaves the same
    state. *)
Theorem batching_is_irrelevant s l1 l2 s' :
  (exists a, apply_entries s (l1 ++ l2) = Ok a /\ app_state a = s') <->
  (exists a1 a2, apply_entries s l1 = Ok a1 /\ apply_entries (app_state a1) l2 = Ok a2 /\ app_state a2 = s').
Proof.
  unfold apply_entries. split.
  - intros (a & (a1 & H1 & H2)%apply_loop_app & <-). exists a1.
    destruct (apply_loop_state l2 a1 (mkApplied (clone (app_state a1)) ∅ ∅) a) as (a2 & H & E).
    { cbn. by rewrite clone_id. } { done. } by exists a2.
  - intros (a1 & a2 & H1 & H2 & <-).
    destruct (apply_loop_state l2 (mkApplied (clone (app_state a1)) ∅ ∅) a1 a2) as (a & H & E).
    { cbn. by rewrite clone_id. } { done. } exists a. split; [|done]. apply apply_loop_app. by exists a1.
Qed.
End state.

(** ** Instances at concrete inputs *)

(** A canonicalizer for documents that are a single positive decimal number. *)
Definition number_canon : Canonicalizer := fun v =>
  match v with
  | [] => None
  | d :: _ => if negb (u8 d =? 0x30) && forallb (fun b => (0x30 <=? u8 b) && (u8 b <=? 0x39)) v then Some v else None
  end.

Definition uuid_of (n : byte) : UUID :=
  [x01; x8f; x00; x01; x02; x03; x70; x04; x80; x05; x06; x07; x08; x09; x0a; n].

Definition sample_put (op version : byte) (value : bytes) (ifMatch : option byte) : Command :=
  mkCommand (uuid_of op) (lit "users") (lit "alice") value (mkCondition (uuid_of <$> ifMatch) false) (uuid_of version).

Definition encoded (c : Command) : bytes :=
  match EncodeCommand (canon := number_canon) c with Ok b => b | Fail _ => [] end.

Definition first_put : Command := sample_put x01 x11 (lit "10") None.
Definition second_put : Command := sample_put x02 x12 (lit "20") (Some x11).
Definition stale_put : Command := sample_put x03 x13 (lit "30") (Some x11).

Definition sample_entries : list Entry :=
  [mkEntry 1 false []; mkEntry 2 true (encoded first_put); mkEntry 3 true (encoded second_put)].

Definition run (entries : list Entry) : applied :=
  match apply_entries (canon := number_canon) newLogicalState entries with Ok a => a | Fail _ => mkApplied newLogicalState ∅ ∅ end.

Definition sample_state : logicalState := app_state (run sample_entries).

Lemma sample_reachable : reachable (canon := number_canon) sample_state.
Proof.
  apply (reach_apply newLogicalState sample_entries (run sample_entries)).
  - apply reach_new.
  - vm_compute. discriminate.
  - vm_compute. reflexivity.
Qed.

Lemma replay_is_idempotent_witness :
  apply_entries (canon := number_canon) sample_state [command_entry sample_state (encoded first_put)] =
  Ok (if bool_decide (first_put = first_put)
      then mkApplied (set_applied sample_state (lastApplied sample_state + 1))
             {[OperationID first_put := mkResult first_put (mkRow (lit "users") (lit "alice") (uuid_of x11) 2 (lit "10")) true resultSuccess]} ∅
      else mkApplied (set_applied sample_state (lastApplied sample_state + 1)) ∅ {[OperationID first_put := ErrOperationConflict]}).
Proof.
  apply (replay_is_idempotent (canon := number_canon) sample_state first_put (encoded first_put)
    (mkResult first_put (mkRow (lit "users") (lit "alice") (uuid_of x11) 2 (lit "10")) true resultSuccess)).
  - exact sample_reachable.
  - vm_compute. reflexivity.
  - vm_compute. reflexivity.
  - vm_compute. reflexivity.
Defined.

Lemma new_operation_decided_witness :
  exists s' r, apply_entries (canon := number_canon) sample_state [command_entry sample_state (encoded stale_put)]
      = Ok (mkApplied s' {[OperationID stale_put := r]} ∅) /\ res_Status r = resultPrecondition /\ rows s' = rows sample_state.
Proof.
  destruct (new_operation_decided (canon := number_canon) sample_state stale_put (encoded stale_put)) as (s' & r & H & _ & _ & _ & _ & D).
  - exact sample_reachable.
  - vm_compute. reflexivity.
  - vm_compute. reflexivity.
  - vm_compute. reflexivity.
  - exists s', r. split; [exact H|].
    destruct (decide _) as [Hv|Hv]; [exfalso; revert Hv; apply (bool_decide_eq_false_1 _); vm_compute; reflexivity|].
    assert (condition_fails stale_put (get sample_state (Table stale_put) (Key stale_put)) = true) as E by (vm_compute; reflexivity).
    rewrite E in D. destruct D as (-> & D & _). split; [reflexivity|exact D].
Defined.

Lemma history_is_linear_witness :
  rows sample_state !! rowID (lit "users") (lit "alice") = history sample_state !! rowID (lit "users") (lit "alice") ≫= last /\
  is_Some (rows sample_state !! rowID (lit "users") (lit "alice")).
Proof.
  split; [|vm_compute; by eexists].
  apply (proj1 (history_is_linear (canon := number_canon) sample_state sample_reachable)).
Defined.

(** A later entry, whose if-match names a version that is no longer current. *)
Definition later : applied :=
  match apply_entries (canon := number_canon) sample_state [mkEntry 4 true (encoded stale_put)] with
  | Ok a => a | Fail _ => mkApplied newLogicalState ∅ ∅
  end.

Lemma outcomes_are_permanent_witness :
  results sample_state ⊆ results (app_state later) /\ is_Some (results sample_state !! uuid_of x01).
Proof.
  split; [|vm_compute; by eexists].
  apply (outcomes_are_permanent (canon := number_canon) sample_state [mkEntry 4 true (encoded stale_put)] later).
  assert (is_ok (apply_entries (canon := number_canon) sample_state [mkEntry 4 true (encoded stale_put)]) = true) as E
    by (vm_compute; reflexivity).
  unfold later. destruct (apply_entries sample_state [mkEntry 4 true (encoded stale_put)]); [reflexivity|discriminate E].
Defined.
