(* ===== verification/Snapshot.v ===== *)
(** Snapshots of the replicated row state machine (src/internal/raftstore/state.go):
    [exportSnapshot], [decodeSnapshot] and [collectVersions]. *)

From Stdlib Require Import ZArith Lia.
From stdpp Require Import base list gmap sorting.
From S2P Require Import Prelude GoStd Uuidv7 Coordinates Command State.

Local Open Scope Z_scope.

Section snapshot.
Context {canon : Canonicalizer}.

(** ** Snapshots *)

(** The two loops of [collectVersions] over the results. *)
Fixpoint reserve_results (inHistory : gset UUID) (l : list Result) (nonConflicts vs : gset UUID)
    : result state_error (gset UUID * gset UUID) :=
  match l with
  | [] => Ok (nonConflicts, vs)
  | r :: l' =>
      let v := Version (res_Command r) in
      nonConflicts ←
        (if negb (VersionConflict r) then
           fail_if (bool_decide (v ∈ nonConflicts)) (ErrStateCorrupt "duplicate row-version command");;
           fail_if (PreconditionFailed r && bool_decide (v ∈ inHistory)) (ErrStateCorrupt "precondition reused row version");;
           Ok ({[v]} ∪ nonConflicts)
         else Ok nonConflicts);
      reserve_results inHistory l' nonConflicts ({[v]} ∪ vs)
  end.

Definition collectVersions (historyVersions : gset UUID) (rs : list Result) : result state_error (gset UUID) :=
  '(nonConflicts, vs) ← reserve_results historyVersions rs ∅ historyVersions;
  for_all (fun r =>
    let v := Version (res_Command r) in
    fail_if (VersionConflict r && negb (bool_decide (v ∈ historyVersions)) && negb (bool_decide (v ∈ nonConflicts)))
      (ErrStateCorrupt "version conflict has no prior reservation")) rs;;
  Ok vs.

Definition putU32 (v : Z) : bytes := be 4 v.
Definition putString (v : bytes) : bytes := putU32 (len v) ++ v.

Fixpoint collect {A} (f : A -> result state_error bytes) (l : list A) : result state_error bytes :=
  match l with
  | [] => Ok []
  | x :: l' => b ← f x; rest ← collect f l'; Ok (b ++ rest)
  end.

Definition snapshot_row (row : Row) : result state_error bytes :=
  encoded ← encodeStateRow row; Ok (putString (row_Table row) ++ putString (row_Key row) ++ encoded).

Definition snapshot_result (kr : UUID * Result) : result state_error bytes :=
  encoded ← encodeResult (snd kr); Ok (fst kr ++ putU32 (len encoded) ++ encoded).

(** The members of a map in the order of its sorted keys. *)
Definition sorted_members {A} (m : gmap bytes A) : list (bytes * A) := sort_by fst (map_to_list m).

Definition snapshot_rows (s : logicalState) : list Row := map snd (sorted_members (rows s)).
Definition snapshot_history (s : logicalState) : list Row := concat (map snd (sorted_members (history s))).
Definition snapshot_results (s : logicalState) : list (UUID * Result) := sorted_members (results s).

Definition exportSnapshot (s : logicalState) : result state_error bytes :=
  rs ← collect snapshot_row (snapshot_rows s);
  hs ← collect snapshot_row (snapshot_history s);
  os ← collect snapshot_result (snapshot_results s);
  let body := snapshotMagic ++ [stateFormat] ++ be 8 (lastApplied s)
              ++ putU32 (len (snapshot_rows s)) ++ rs
              ++ putU32 (len (snapshot_history s)) ++ hs
              ++ putU32 (len (snapshot_results s)) ++ os in
  Ok (body ++ be 4 (crc32.Checksum body)).

(** The readers of [decodeSnapshot] stop four bytes before the end of the
    image; they are modelled on the bytes from the position up to there. *)
Definition reader (A : Type) : Type := bytes -> result state_error (A * bytes).

Definition readU32 : reader Z := fun data =>
  fail_if (len data <? 4) (ErrState "short snapshot");;
  Ok (un_be (sub data 0 4), drop 4 data).

Definition readString : reader bytes := fun data =>
  '(n, data) ← map_err (fun _ => ErrState "snapshot string") (readU32 data);
  fail_if (maxCommandKey + maxCommandTable <? n) (ErrState "snapshot string");;
  fail_if (len data <? n) (ErrState "short snapshot string");;
  Ok (sub data 0 n, drop (Z.to_nat n) data).

(** A row record after its coordinates. *)
Definition read_row (table key : bytes) (last : Z) : reader Row := fun data =>
  fail_if (len data <? 28) (ErrState "snapshot row");;
  let rowLen := un_be (sub data 24 28) in
  fail_if (len data <? 28 + rowLen) (ErrState "snapshot row length");;
  row ← decodeStateRow (sub data 0 (28 + rowLen)) table key;
  fail_if (last <? row_Sequence row) (ErrState "sequence is ahead of applied");;
  Ok (row, drop (Z.to_nat (28 + rowLen)) data).

Fixpoint read_rows (n : nat) (last : Z) (previous : bytes) (acc : gmap bytes Row) : reader (gmap bytes Row) := fun data =>
  match n with
  | O => Ok (acc, data)
  | S n' =>
      '(table, data) ← readString data;
      '(key, data) ← readString data;
      fail_if (negb (validTable table) || negb (validKey key)) (ErrState "snapshot coordinates");;
      fail_if (negb (bool_decide (previous = [])) && ble (rowID table key) previous) (ErrState "snapshot rows are not sorted");;
      '(row, data) ← read_row table key last data;
      read_rows n' last (rowID table key) (<[rowID table key := row]> acc) data
  end.

(** What the history loop keeps: the last row ID and sequence, the sequences
    and versions seen, and the history so far. *)
Fixpoint read_history (n : nat) (last : Z) (previous : bytes) (previousSequence : Z) (seqs : gset Z) (vs : gset UUID)
    (acc : gmap bytes (list Row)) : reader (gset UUID * gmap bytes (list Row)) := fun data =>
  match n with
  | O => Ok ((vs, acc), data)
  | S n' =>
      '(table, data) ← readString data;
      '(key, data) ← readString data;
      fail_if (negb (validTable table) || negb (validKey key)) (ErrState "snapshot history coordinates");;
      '(row, data) ← read_row table key last data;
      let id := rowID table key in
      fail_if (negb (bool_decide (previous = []))
               && (blt id previous || (beq id previous && (row_Sequence row <=? previousSequence))))
        (ErrState "snapshot history is not sorted");;
      fail_if (bool_decide (row_Version row ∈ vs)) (ErrState "snapshot duplicate row version");;
      fail_if (bool_decide (row_Sequence row ∈ seqs)) (ErrState "snapshot duplicate history sequence");;
      read_history n' last id (row_Sequence row) ({[row_Sequence row]} ∪ seqs) ({[row_Version row]} ∪ vs)
        (<[id := default [] (acc !! id) ++ [row]]> acc) data
  end.

Fixpoint read_results (n : nat) (previous : option UUID) (acc : gmap UUID Result) : reader (gmap UUID Result) := fun data =>
  match n with
  | O => Ok (acc, data)
  | S n' =>
      fail_if (len data <? 16) (ErrState "snapshot result id");;
      let id := sub data 0 16 in
      '(size, data) ← map_err (fun _ => ErrState "snapshot result") (readU32 (drop 16 data));
      fail_if (len data <? size) (ErrState "snapshot result");;
      r ← decodeResult (sub data 0 size);
      fail_if (negb (beq (OperationID (res_Command r)) id)) (ErrState "snapshot result operation id mismatch");;
      fail_if (match previous with Some p => ble id p | None => false end) (ErrState "snapshot results are not sorted");;
      read_results n' (Some id) (<[id := r]> acc) (drop (Z.to_nat size) data)
  end.

(** The checks between rows, history and results; the loops range over maps,
    in an order that can only decide which error is returned. *)
Definition check_head (history : gmap bytes (list Row)) (kr : bytes * Row) : result state_error unit :=
  match last (default [] (history !! fst kr)) with
  | None => Fail (ErrState "snapshot row has no history")
  | Some latest =>
      fail_if (negb (row_Sequence latest =? row_Sequence (snd kr)) || negb (beq (row_Version latest) (row_Version (snd kr)))
               || negb (beq (row_Value latest) (row_Value (snd kr)))) (ErrState "snapshot head/history mismatch")
  end.

(** The search of a result's row in the history of its coordinates: whether
    it was found, and whether an earlier version came before it. *)
Fixpoint find_result (row : Row) (l : list Row) (earlier : bool) : bool * bool :=
  match l with
  | [] => (false, earlier)
  | v :: l' =>
      if (row_Sequence v =? row_Sequence row) && beq (row_Version v) (row_Version row) && beq (row_Value v) (row_Value row)
      then (true, earlier)
      else find_result row l' (earlier || (row_Sequence v <? row_Sequence row))
  end.

Definition check_result (last : Z) (history : gmap bytes (list Row)) (r : Result) : result state_error unit :=
  let row := res_Row r in
  if Succeeded r then
    fail_if ((row_Sequence row =? 0) || (last <? row_Sequence row) || negb (beq (row_Table row) (Table (res_Command r)))
             || negb (beq (row_Key row) (Key (res_Command r)))) (ErrState "snapshot result row bounds");;
    let '(found, earlier) := find_result row (default [] (history !! rowID (row_Table row) (row_Key row))) false in
    fail_if (negb found) (ErrState "snapshot result row is absent from history");;
    fail_if (Bool.eqb (res_Created r) earlier) (ErrState "snapshot result created flag disagrees with history")
  else
    fail_if ((negb (PreconditionFailed r) && negb (VersionConflict r)) || res_Created r || negb (row_Sequence row =? 0)
             || negb (bool_decide (row_Table row = [])) || negb (bool_decide (row_Key row = []))
             || negb (len (row_Value row) =? 0)) (ErrState "snapshot precondition result row").

Definition decodeSnapshot (encoded : bytes) : result state_error logicalState :=
  let n := len encoded in
  fail_if (maxSnapshotBytes <? n) (ErrStateCorrupt "snapshot exceeds bounded size");;
  fail_if ((n <? 4 + 1 + 8 + 4 + 4) || negb (beq (sub encoded 0 4) snapshotMagic) || negb (beq (sub encoded 4 5) [stateFormat]))
    (ErrStateCorrupt "snapshot header");;
  fail_if (negb (crc32.Checksum (sub encoded 0 (n - 4)) =? un_be (sub encoded (n - 4) n))) (ErrStateCorrupt "snapshot checksum");;
  let last := un_be (sub encoded 5 13) in
  let data := sub encoded 13 (n - 4) in
  '(count, data) ← readU32 data;
  '(rs, data) ← read_rows (Z.to_nat count) last [] ∅ data;
  '(count, data) ← readU32 data;
  '((vs, hs), data) ← read_history (Z.to_nat count) last [] 0 ∅ ∅ ∅ data;
  '(count, data) ← readU32 data;
  '(os, data) ← read_results (Z.to_nat count) None ∅ data;
  vs ← collectVersions vs (map snd (map_to_list os));
  fail_if (negb (len data =? 0)) (ErrState "snapshot trailing bytes");;
  for_all (check_head hs) (map_to_list rs);;
  for_all (fun kv => fail_if (bool_decide (rs !! fst kv = None)) (ErrState "snapshot history has no head")) (map_to_list hs);;
  for_all (check_result last hs) (map snd (map_to_list os));;
  Ok (mkState rs hs os vs last 0).

(** ** Records: lemmas *)

Lemma canonical_value_ok v : validateCanonicalValue v = None -> canonical_value v = true.
Proof. intros H. by apply bool_decide_eq_true_2. Qed.

Lemma len_row_bytes row : length (row_Version row) = 16%nat -> len (row_bytes row) = 28 + len (row_Value row).
Proof. intros H. unfold row_bytes. rewrite !len_app, !len_be. unfold len at 1. lia. Qed.

Lemma row_fields row rest : length (row_Version row) = 16%nat ->
  sub (row_bytes row ++ rest) 0 8 = be 8 (row_Sequence row) /\
  sub (row_bytes row ++ rest) 8 24 = row_Version row /\
  sub (row_bytes row ++ rest) 24 28 = be 4 (len (row_Value row)) /\
  drop 28 (row_bytes row ++ rest) = row_Value row ++ rest.
Proof.
  intros Hv. assert (len (row_Version row) = 16) as Lv by (unfold len; lia).
  unfold row_bytes. rewrite <- !app_assoc. split_and!.
  - by apply sub_app_head.
  - rewrite sub_skip by (rewrite len_be; lia). rewrite len_be. apply sub_app_head. rewrite Lv. done.
  - rewrite sub_skip by (rewrite len_be; lia). rewrite len_be.
    rewrite sub_skip by (rewrite Lv; lia). rewrite Lv. by apply sub_app_head.
  - rewrite !app_assoc. rewrite <- app_assoc. apply drop_app_head. rewrite !length_app, !length_be, Hv. done.
Qed.

Lemma encodeStateRow_ok last id row : row_ok last id row -> encodeStateRow row = Ok (row_bytes row).
Proof.
  intros Hr. unfold encodeStateRow. by rewrite canonical_value_ok by apply (ro_value _ _ _ Hr).
Qed.

Lemma decodeStateRow_ok last id row :
  last <= max_uint64 -> row_ok last id row -> decodeStateRow (row_bytes row) (row_Table row) (row_Key row) = Ok row.
Proof.
  intros Hl Hr. destruct (ro_version _ _ _ Hr) as [Hv Hv7]. pose proof (ro_sequence _ _ _ Hr).
  destruct (row_fields row [] Hv) as (F1 & F2 & F3 & F4). rewrite !app_nil_r in *.
  pose proof (len_row_bytes row Hv) as Hlen. pose proof (canonical_value_len _ (ro_value _ _ _ Hr)) as Hval.
  pose proof (len_nonneg (row_Value row)). unfold maxCommandValue, max_uint64 in *.
  unfold decodeStateRow. rewrite fail_if_false by (apply Z.ltb_ge; lia).
  rewrite F1, F2, F3, F4. repeat (rewrite un_be_be_small by (cbn; lia)).
  rewrite fail_if_false.
  2:{ apply orb_false_iff. split; [apply Z.ltb_ge; lia|]. apply negb_false_iff, Z.eqb_eq. lia. }
  rewrite fail_if_false by (by rewrite (proj2 (UUIDFromBytes_is_ok _) (conj Hv Hv7))).
  rewrite fail_if_false by (apply Z.eqb_neq; lia).
  rewrite fail_if_false by (by rewrite canonical_value_ok by apply (ro_value _ _ _ Hr)). by destruct row.
Qed.

Lemma read_row_ok last id row rest :
  last <= max_uint64 -> row_ok last id row ->
  read_row (row_Table row) (row_Key row) last (row_bytes row ++ rest) = Ok (row, rest).
Proof.
  intros Hl Hr. destruct (ro_version _ _ _ Hr) as [Hv _]. pose proof (ro_sequence _ _ _ Hr).
  destruct (row_fields row rest Hv) as (_ & _ & F3 & _). pose proof (len_row_bytes row Hv) as Hlen.
  pose proof (canonical_value_len _ (ro_value _ _ _ Hr)). pose proof (len_nonneg (row_Value row)). pose proof (len_nonneg rest).
  unfold maxCommandValue in *. unfold read_row. rewrite fail_if_false by (rewrite len_app; apply Z.ltb_ge; lia).
  rewrite F3, un_be_be_small by (cbn; lia). rewrite fail_if_false by (rewrite len_app; apply Z.ltb_ge; lia).
  rewrite sub_app_head by done. rewrite (decodeStateRow_ok last id) by done. cbn [mbind result_bind].
  rewrite fail_if_false by (apply Z.ltb_ge; lia). rewrite <- Hlen, len_to_nat. by rewrite drop_app_length.
Qed.

Lemma readString_ok v rest : len v <= maxCommandKey + maxCommandTable -> readString (putString v ++ rest) = Ok (v, rest).
Proof.
  intros Hv. unfold maxCommandKey, maxCommandTable, Coordinates.MaxKeyBytes, Coordinates.MaxTableBytes in *.
  pose proof (len_nonneg v). pose proof (len_nonneg rest). unfold readString, readU32, putString, putU32. rewrite <- app_assoc.
  rewrite fail_if_false by (rewrite len_app, len_be; rewrite len_app; apply Z.ltb_ge; lia).
  cbn [mbind result_bind map_err]. rewrite sub_app_head by apply len_be. rewrite drop_app_head by apply length_be.
  rewrite un_be_be_small by (cbn; lia). cbv beta iota.
  rewrite fail_if_false by (apply Z.ltb_ge; unfold maxCommandKey, maxCommandTable, Coordinates.MaxKeyBytes, Coordinates.MaxTableBytes; lia).
  rewrite fail_if_false by (rewrite len_app; apply Z.ltb_ge; lia).
  rewrite sub_app_head by done. by rewrite len_to_nat, drop_app_length.
Qed.

(** *** Results *)

(** What the codec of results carries. *)
Definition result_ok (last : Z) (r : Result) : Prop :=
  let c := res_Command r in
  command_ok c /\
  ((res_Status r = resultSuccess /\ 1 <= row_Sequence (res_Row r) <= last /\
    res_Row r = mkRow (Table c) (Key c) (Version c) (row_Sequence (res_Row r)) (Value c)) \/
   ((res_Status r = resultPrecondition \/ res_Status r = resultVersionConflict) /\
    res_Row r = zero_row /\ res_Created r = false)).

Lemma state_result_ok s id r : state_ok s -> results s !! id = Some r -> result_ok (lastApplied s) r.
Proof.
  intros Hs H. destruct (so_results s Hs _ _ H) as (_ & Hc & Ho). split; [done|].
  destruct Ho as [(E & before & after & Hh & Hrow & _)|?]; [left|by right]. split_and!; [done| | |done].
  all: apply (so_history s Hs) in Hh as (_ & Hf & _); rewrite Forall_app, Forall_cons in Hf;
    destruct Hf as (_ & Hr & _); pose proof (ro_sequence _ _ _ Hr); lia.
Qed.

Lemma result_row_ok last r :
  result_ok last r -> res_Status r = resultSuccess ->
  row_ok last (rowID (Table (res_Command r)) (Key (res_Command r))) (res_Row r).
Proof.
  intros [Hc [(_ & Hs & Hr)|([E|E] & _)]] Hst; [|by rewrite E in Hst..]. rewrite Hr. split; cbn [row_Table row_Key row_Version row_Value row_Sequence];
    try apply Hc; [done|lia].
Qed.

(** The bytes of the row part of a result. *)
Definition result_row (r : Result) : bytes := if Succeeded r then row_bytes (res_Row r) else [].

Definition command_bytes (c : Command) : bytes := command_body c ++ be 4 (crc32.Checksum (command_body c)).

Definition result_bytes (r : Result) : bytes :=
  ([stateFormat; res_Status r; if res_Created r then x01 else x00]
   ++ be 4 (len (command_bytes (res_Command r))) ++ command_bytes (res_Command r) ++ be 4 (len (result_row r))) ++ result_row r.

Lemma len_command_bytes c : command_ok c -> 51 <= len (command_bytes c) <= 2 ^ 20 + 2 ^ 12.
Proof.
  intros Hc. unfold command_bytes. rewrite len_app, len_be, command_len by done.
  pose proof (validTable_len _ (cmd_table c Hc)). pose proof (validKey_len _ (cmd_key c Hc)).
  pose proof (canonical_value_len _ (cmd_value c Hc)). pose proof (len_nonneg (Value c)).
  assert (0 <= len (default [] (IfMatch (Cond c))) <= 16).
  { destruct (IfMatch (Cond c)) as [v|] eqn:E; cbn [default].
    - destruct (cmd_match c Hc v E) as [Hl _]. unfold len. cbn. lia.
    - done. }
  unfold maxCommandTable, maxCommandKey, maxCommandValue, Coordinates.MaxTableBytes, Coordinates.MaxKeyBytes in *. lia.
Qed.

Lemma len_result_row last r : result_ok last r ->
  0 <= len (result_row r) <= 28 + 2 ^ 20 /\ (Succeeded r = true <-> len (result_row r) <> 0).
Proof.
  intros Hr. unfold result_row, Succeeded. destruct (decide (res_Status r = resultSuccess)) as [E|E].
  - rewrite bool_decide_eq_true_2 by done. pose proof (result_row_ok _ _ Hr E) as Hrow.
    destruct (ro_version _ _ _ Hrow) as [Hv _]. rewrite len_row_bytes by done.
    pose proof (canonical_value_len _ (ro_value _ _ _ Hrow)). pose proof (len_nonneg (row_Value (res_Row r))).
    unfold maxCommandValue in *. split; [lia|]. split; [lia|done].
  - rewrite bool_decide_eq_false_2 by done. rewrite (@len_nil byte). split; [lia|]. split; [done|lia].
Qed.

Lemma EncodeCommand_bytes c : command_ok c -> EncodeCommand c = Ok (command_bytes c).
Proof. intros Hc. by apply EncodeCommand_Ok. Qed.

Lemma encodeResult_ok last r : result_ok last r -> encodeResult r = Ok (result_bytes r).
Proof.
  intros Hr. pose proof Hr as [Hc Hcase]. destruct (len_result_row _ _ Hr) as [Hlen _].
  pose proof (len_command_bytes _ Hc) as Hcl. unfold encodeResult. rewrite EncodeCommand_bytes by done. cbn [map_err mbind result_bind].
  assert (len [stateFormat; res_Status r; if res_Created r then x01 else x00] = 3) as L3 by done.
  unfold result_bytes, is_failure, Succeeded, PreconditionFailed, VersionConflict.
  destruct Hcase as [(E & Hs & Hrow)|(E & Hrow & Hcr)].
  - pose proof (result_row_ok _ _ Hr E) as Hok. unfold result_row, Succeeded in *. rewrite E in *.
    rewrite !bool_decide_eq_true_2 in * by done.
    rewrite !bool_decide_eq_false_2 by done. cbn [negb andb orb].
    rewrite fail_if_false by done. rewrite fail_if_false by (apply Z.eqb_neq; lia).
    rewrite Hrow. cbn [row_Table row_Key row_Version row_Value row_Sequence].
    rewrite !beq_refl. cbn [negb orb fail_if mbind result_bind]. rewrite <- Hrow.
    rewrite (encodeStateRow_ok _ _ _ Hok). cbn [mbind result_bind].
    rewrite fail_if_false; [done|]. apply Z.ltb_ge. rewrite !len_app, !len_be, L3. unfold maxResultBytes. lia.
  - assert (bool_decide (res_Status r = resultSuccess) = false) as Es.
    { apply bool_decide_eq_false_2. destruct E as [->| ->]; done. }
    assert (negb (bool_decide (res_Status r = resultPrecondition)) && negb (bool_decide (res_Status r = resultVersionConflict)) = false
            /\ bool_decide (res_Status r = resultPrecondition) || bool_decide (res_Status r = resultVersionConflict) = true) as [En Ef].
    { destruct E as [->| ->]; done. }
    unfold result_row, Succeeded in *. rewrite Es in *. cbn [negb andb]. rewrite En, Ef. rewrite fail_if_false by done.
    rewrite Hrow, Hcr. cbn [zero_row row_Sequence row_Value row_Table row_Key]. rewrite fail_if_false by done.
    cbn [mbind result_bind]. rewrite fail_if_false; [done|]. apply Z.ltb_ge. rewrite !len_app, !len_be.
    rewrite (@len_nil byte). change (len [stateFormat; res_Status r; x00]) with 3. unfold maxResultBytes. lia.
Qed.

Lemma result_fields r rest (b := result_bytes r ++ rest) (cl := len (command_bytes (res_Command r))) :
  (at_ b 0 = stateFormat /\ at_ b 1 = res_Status r /\ at_ b 2 = if res_Created r then x01 else x00) /\
  sub b 3 7 = be 4 cl /\ sub b 7 (7 + cl) = command_bytes (res_Command r) /\
  sub b (7 + cl) (7 + cl + 4) = be 4 (len (result_row r)) /\
  sub b (7 + cl + 4) (7 + cl + 4 + len (result_row r)) = result_row r /\
  len (result_bytes r) = 11 + cl + len (result_row r).
Proof.
  set (h := [stateFormat; res_Status r; if res_Created r then x01 else x00]). assert (len h = 3) as Lh by done.
  assert (b = h ++ be 4 cl ++ command_bytes (res_Command r) ++ be 4 (len (result_row r)) ++ result_row r ++ rest) as Eb.
  { unfold b, result_bytes, h, cl. by rewrite <- !app_assoc. }
  pose proof (len_nonneg (command_bytes (res_Command r))). pose proof (len_nonneg (result_row r)).
  rewrite Eb. split_and!; try done.
  - rewrite sub_skip by lia. rewrite Lh. rewrite sub_skip by (rewrite len_be; lia). rewrite len_be. apply sub_field; lia.
  - do 3 (rewrite sub_skip by (rewrite ?Lh, ?len_be; lia); rewrite ?Lh, ?len_be). apply sub_field; rewrite ?len_be; lia.
  - do 4 (rewrite sub_skip by (rewrite ?Lh, ?len_be; lia); rewrite ?Lh, ?len_be). apply sub_field; lia.
  - unfold result_bytes. rewrite !len_app, !len_be. fold h. lia.
Qed.

Lemma Result_eta r : r = mkResult (res_Command r) (res_Row r) (res_Created r) (res_Status r).
Proof. by destruct r. Qed.

Lemma decodeResult_ok last r : last <= max_uint64 -> result_ok last r -> decodeResult (result_bytes r) = Ok r.
Proof.
  intros Hl Hr. pose proof Hr as [Hc Hcase]. destruct (len_result_row _ _ Hr) as [Hlen Hsucc].
  pose proof (len_command_bytes _ Hc) as Hcl.
  destruct (result_fields r []) as ((F0 & F1 & F2) & F3 & F4 & F5 & F6 & F7). rewrite !app_nil_r in *.
  set (cl := len (command_bytes (res_Command r))) in *.
  unfold decodeResult. rewrite F0, F1, F2, F3. rewrite (un_be_be_small 4 cl) by (cbn; lia).
  assert (negb (bool_decide (res_Status r = resultSuccess)) && negb (bool_decide (res_Status r = resultPrecondition))
          && negb (bool_decide (res_Status r = resultVersionConflict)) = false) as Est.
  { destruct Hcase as [(-> & _)|([->| ->] & _)]; done. }
  assert (forall b : bool, negb (bool_decide ((if b then x01 else x00) = x00)) && negb (bool_decide ((if b then x01 else x00) = x01)) = false
          /\ negb (bool_decide ((if b then x01 else x00) = x00)) = b) as Ecr by (by intros []).
  rewrite fail_if_false.
  2:{ rewrite Est, (proj1 (Ecr _)). rewrite bool_decide_eq_true_2 by done. rewrite !orb_false_r. apply Z.ltb_ge. lia. }
  rewrite fail_if_false by (apply orb_false_iff; split; [apply Z.leb_gt|apply Z.ltb_ge]; lia).
  rewrite F4, (DecodeCommand_EncodeCommand (res_Command r)) by by apply EncodeCommand_bytes.
  cbn [map_err mbind result_bind]. rewrite F5, un_be_be_small by (cbn; lia).
  rewrite fail_if_false by (apply negb_false_iff, Z.eqb_eq; lia). rewrite (proj2 (Ecr _)).
  replace (len (result_bytes r)) with (7 + cl + 4 + len (result_row r)) by lia. rewrite F6. clear F0 F1 F2 F3 F4 F5 F6 F7.
  unfold is_failure, Succeeded, PreconditionFailed, VersionConflict in *. cbn [res_Status res_Created].
  destruct Hcase as [(E & Hs & Hrow)|(E & Hrow & Hcr)].
  - pose proof (result_row_ok _ _ Hr E) as Hok.
    assert (len (result_row r) <> 0) as Hnz by (apply Hsucc; by rewrite bool_decide_eq_true_2).
    unfold result_row, Succeeded. rewrite E in *. cbn [bool_decide]. rewrite fail_if_false by done.
    assert ((len (result_row r) =? 0) = false) as Ez by by apply Z.eqb_neq.
    unfold result_row, Succeeded in Ez. rewrite E in Ez. rewrite bool_decide_eq_true_2 in Ez by done.
    rewrite bool_decide_eq_true_2 by done. rewrite Ez. rewrite fail_if_false by done.
    pose proof (decodeStateRow_ok _ _ _ Hl Hok) as Hd. rewrite Hrow in Hd at 2 3. cbn [row_Table row_Key] in Hd. rewrite Hd.
    cbn [mbind result_bind]. rewrite Hrow. cbn [row_Version row_Value]. rewrite !beq_refl. cbn.
    rewrite <- Hrow, <- E. by rewrite <- Result_eta.
  - assert (bool_decide (res_Status r = resultSuccess) = false) as Es.
    { apply bool_decide_eq_false_2. destruct E as [->| ->]; done. }
    unfold result_row, Succeeded. rewrite Es. rewrite (@len_nil byte), Hcr. cbn [Z.eqb negb orb]. rewrite andb_false_r.
    cbn. rewrite <- Hrow, <- Hcr. by rewrite <- Result_eta.
Qed.

(** ** Sequences of records *)

Lemma collect_ok {A} (f : A -> result state_error bytes) (g : A -> bytes) l :
  Forall (fun x => f x = Ok (g x)) l -> collect f l = Ok (concat (map g l)).
Proof. induction 1 as [|x l Hx _ IH]; [done|]. cbn [collect map concat]. rewrite Hx. cbn. by rewrite IH. Qed.

Lemma len_concat {A} (g : A -> bytes) l : Forall (fun x => 1 <= len (g x)) l -> len l <= len (concat (map g l)).
Proof.
  induction 1 as [|x l Hx _ IH]; [done|]. cbn [map concat]. rewrite len_app, len_cons. lia.
Qed.

Definition row_record (row : Row) : bytes := putString (row_Table row) ++ putString (row_Key row) ++ row_bytes row.
Definition result_record (kr : UUID * Result) : bytes := fst kr ++ putU32 (len (result_bytes (snd kr))) ++ result_bytes (snd kr).

Lemma readU32_ok n rest : 0 <= n < 2 ^ 32 -> readU32 (putU32 n ++ rest) = Ok (n, rest).
Proof.
  intros Hn. unfold readU32, putU32. pose proof (len_nonneg rest).
  rewrite fail_if_false by (rewrite len_app, len_be; apply Z.ltb_ge; lia).
  rewrite sub_app_head by apply len_be. by rewrite drop_app_head, un_be_be_small by (done || apply length_be).
Qed.

Lemma read_coordinates last id row rest {B} (k : bytes -> bytes -> bytes -> result state_error B) :
  row_ok last id row ->
  ('(table, data) ← readString (row_record row ++ rest);
   '(key, data) ← readString data;
   k table key data) = k (row_Table row) (row_Key row) (row_bytes row ++ rest).
Proof.
  intros Hr. pose proof (validTable_len _ (ro_table _ _ _ Hr)). pose proof (validKey_len _ (ro_key _ _ _ Hr)).
  unfold maxCommandTable, maxCommandKey in *. unfold row_record. rewrite <- !app_assoc.
  rewrite readString_ok by (unfold maxCommandTable, maxCommandKey, Coordinates.MaxTableBytes, Coordinates.MaxKeyBytes in *; lia).
  cbn [mbind result_bind].
  rewrite readString_ok by (unfold maxCommandTable, maxCommandKey, Coordinates.MaxTableBytes, Coordinates.MaxKeyBytes in *; lia).
  done.
Qed.

Lemma valid_coordinates last id row :
  row_ok last id row -> negb (validTable (row_Table row)) || negb (validKey (row_Key row)) = false.
Proof. intros Hr. by rewrite (ro_table _ _ _ Hr), (ro_key _ _ _ Hr). Qed.

Lemma read_rows_ok last l : forall previous acc rest,
  last <= max_uint64 -> Forall (fun kr => row_ok last (fst kr) (snd kr)) l ->
  keys_increasing (map fst l) = true ->
  (previous <> [] -> match l with [] => True | kr :: _ => blt previous (fst kr) = true end) ->
  read_rows (length l) last previous acc (concat (map (fun kr => row_record (snd kr)) l) ++ rest)
  = Ok (list_to_map l ∪ acc, rest).
Proof.
  induction l as [|[id row] l IH]; intros previous acc rest Hl Hok Hinc Hp.
  { cbn. by rewrite (left_id_L ∅ (∪)). }
  apply Forall_cons in Hok as [Hr Hok]. cbn [fst snd] in *. pose proof (ro_id _ _ _ Hr) as Eid.
  cbn [length read_rows map concat snd]. rewrite <- app_assoc. rewrite (read_coordinates last id) by done.
  rewrite fail_if_false by (by eapply valid_coordinates). rewrite <- Eid.
  rewrite fail_if_false.
  2:{ destruct (decide (previous = [])) as [->|Hne]; [done|]. rewrite bool_decide_eq_false_2 by done. cbn.
      specialize (Hp Hne). cbn in Hp. by rewrite ble_blt, Hp. }
  rewrite (read_row_ok last id) by done. cbn [mbind result_bind].
  pose proof (increasing_NoDup fst ((id, row) :: l) Hinc) as Hnd. cbn [map fst] in Hinc, Hnd.
  apply keys_increasing_cons in Hinc as [Hh Hinc]. apply NoDup_cons in Hnd as [Hid _].
  rewrite IH; [|done|done|done|].
  - cbn [list_to_map foldr]. f_equal. f_equal. rewrite <- insert_union_r, insert_union_l; [done|].
    by apply not_elem_of_list_to_map_1.
  - intros _. by destruct l as [|[id' row'] l].
Qed.

(** The history grouped by row, as the loop rebuilds it. *)
Definition add_version (m : gmap bytes (list Row)) (r : Row) : gmap bytes (list Row) :=
  let id := rowID (row_Table r) (row_Key r) in <[id := default [] (m !! id) ++ [r]]> m.

Definition after_version (previous : option Row) (r : Row) : Prop :=
  match previous with
  | None => True
  | Some p => let i := rowID (row_Table p) (row_Key p) in let j := rowID (row_Table r) (row_Key r) in
              blt i j = true \/ (i = j /\ row_Sequence p < row_Sequence r)
  end.

Fixpoint history_sorted (previous : option Row) (l : list Row) : Prop :=
  match l with [] => True | r :: l' => after_version previous r /\ history_sorted (Some r) l' end.

Definition previous_id (p : option Row) : bytes := match p with None => [] | Some r => rowID (row_Table r) (row_Key r) end.
Definition previous_seq (p : option Row) : Z := match p with None => 0 | Some r => row_Sequence r end.

Lemma read_history_ok last l : forall previous seqs vs acc rest,
  last <= max_uint64 -> Forall (fun r => row_ok last (rowID (row_Table r) (row_Key r)) r) l ->
  history_sorted previous l ->
  NoDup (map row_Sequence l) -> (forall r, r ∈ l -> row_Sequence r ∉ seqs) ->
  NoDup (map row_Version l) -> (forall r, r ∈ l -> row_Version r ∉ vs) ->
  read_history (length l) last (previous_id previous) (previous_seq previous) seqs vs acc
    (concat (map row_record l) ++ rest)
  = Ok ((list_to_set (map row_Version l) ∪ vs, foldl add_version acc l), rest).
Proof.
  induction l as [|row l IH]; intros previous seqs vs acc rest Hl Hok Hsort Hns Hfs Hnv Hfv.
  { cbn. by rewrite (left_id_L ∅ (∪)). }
  apply Forall_cons in Hok as [Hr Hok]. destruct Hsort as [Hafter Hsort]. cbn [map] in Hns, Hnv.
  apply NoDup_cons in Hns as [Hs Hns], Hnv as [Hv Hnv].
  cbn [length read_history map concat]. rewrite <- app_assoc. rewrite (read_coordinates last (rowID (row_Table row) (row_Key row))) by done.
  rewrite fail_if_false by (by eapply valid_coordinates).
  rewrite (read_row_ok last (rowID (row_Table row) (row_Key row))) by done. cbn [mbind result_bind].
  rewrite fail_if_false.
  2:{ destruct previous as [p|]; [|done]. unfold after_version in Hafter. cbn [previous_id previous_seq].
      apply andb_false_iff. right. destruct Hafter as [Hlt|[<- Hlt]].
      - apply orb_false_iff. split.
        + apply not_true_iff_false. intros H. pose proof (blt_trans _ _ _ Hlt H) as Hx. by rewrite blt_irrefl in Hx.
        + apply andb_false_iff. left. apply beq_false. intros E. rewrite E, blt_irrefl in Hlt. done.
      - rewrite blt_irrefl. apply andb_false_iff. right. apply Z.leb_gt. lia. }
  rewrite fail_if_false by (apply bool_decide_eq_false_2, Hfv; left).
  rewrite fail_if_false by (apply bool_decide_eq_false_2, Hfs; left).
  pose proof (IH (Some row) ({[row_Sequence row]} ∪ seqs) ({[row_Version row]} ∪ vs) (add_version acc row) rest) as H.
  cbn [previous_id previous_seq] in H. unfold add_version at 1 in H. rewrite H; clear H IH; try done.
  - cbn [foldl list_to_set]. f_equal. f_equal. f_equal. set_solver.
  - intros r Hin. apply not_elem_of_union. split; [|apply Hfs; by right]. rewrite elem_of_singleton.
    intros E. apply Hs. rewrite <- E. by apply list_elem_of_fmap_2.
  - intros r Hin. apply not_elem_of_union. split; [|apply Hfv; by right]. rewrite elem_of_singleton.
    intros E. apply Hv. rewrite <- E. by apply list_elem_of_fmap_2.
Qed.

Lemma read_results_ok last l : forall previous acc rest,
  last <= max_uint64 ->
  Forall (fun kr => result_ok last (snd kr) /\ OperationID (res_Command (snd kr)) = fst kr) l ->
  keys_increasing (map fst l) = true ->
  match previous, l with Some p, kr :: _ => blt p (fst kr) = true | _, _ => True end ->
  read_results (length l) previous acc (concat (map result_record l) ++ rest) = Ok (list_to_map l ∪ acc, rest).
Proof.
  induction l as [|[id r] l IH]; intros previous acc rest Hl Hok Hinc Hp.
  { cbn. by rewrite (left_id_L ∅ (∪)). }
  apply Forall_cons in Hok as [[Hr Eid] Hok]. cbn [fst snd] in *.
  pose proof (cmd_op _ (proj1 Hr)) as [Hlen _]. rewrite Eid in Hlen.
  assert (len id = 16) as L16 by (unfold len; lia).
  pose proof (len_result_row _ _ Hr) as [Hrl _]. pose proof (len_command_bytes _ (proj1 Hr)) as Hcl.
  destruct (result_fields r []) as (_ & _ & _ & _ & _ & Hrb). pose proof (len_nonneg rest).
  pose proof (increasing_NoDup fst ((id, r) :: l) Hinc) as Hnd. cbn [map fst] in Hinc, Hnd.
  apply keys_increasing_cons in Hinc as [Hh Hinc]. apply NoDup_cons in Hnd as [Hid _].
  cbn [length read_results map concat].
  change (result_record (id, r)) with (id ++ putU32 (len (result_bytes r)) ++ result_bytes r). rewrite <- !app_assoc.
  set (tail := concat (map result_record l) ++ rest). pose proof (len_nonneg tail).
  rewrite fail_if_false by (rewrite len_app, L16; pose proof (len_nonneg (putU32 (len (result_bytes r)) ++ result_bytes r ++ tail)); apply Z.ltb_ge; lia).
  rewrite sub_app_head by done. rewrite drop_app_head by done.
  rewrite readU32_ok by lia. cbn [map_err mbind result_bind].
  rewrite fail_if_false by (rewrite len_app; apply Z.ltb_ge; lia).
  rewrite sub_app_head by done. rewrite (decodeResult_ok last) by done. cbn [mbind result_bind].
  rewrite fail_if_false by (by rewrite Eid, beq_refl).
  rewrite fail_if_false by (destruct previous as [p|]; [by rewrite ble_blt, Hp|done]).
  rewrite len_to_nat, drop_app_length. unfold tail. rewrite IH; [|done|done|done|].
  - cbn [list_to_map foldr]. f_equal. f_equal. rewrite <- insert_union_r, insert_union_l; [done|].
    by apply not_elem_of_list_to_map_1.
  - by destruct l as [|[id' r'] l].
Qed.

(** ** The members of a state, in snapshot order *)

Lemma sorted_members_perm {A} (m : gmap bytes A) : sorted_members m ≡ₚ map_to_list m.
Proof. apply sort_by_perm. Qed.

Lemma sorted_members_increasing {A} (m : gmap bytes A) : keys_increasing (map fst (sorted_members m)) = true.
Proof. apply sort_by_increasing, NoDup_fst_map_to_list. Qed.

Lemma elem_of_sorted_members {A} (m : gmap bytes A) id x : (id, x) ∈ sorted_members m <-> m !! id = Some x.
Proof. by rewrite sorted_members_perm, elem_of_map_to_list. Qed.

Lemma sorted_members_map {A} (m : gmap bytes A) : list_to_map (sorted_members m) = m.
Proof.
  rewrite <- (list_to_map_to_list m) at 2. apply list_to_map_proper; [|apply sorted_members_perm].
  by apply (increasing_NoDup fst), sorted_members_increasing.
Qed.

Definition own_id (r : Row) : bytes := rowID (row_Table r) (row_Key r).

(** The groups of a history: one non-empty run of versions per row. *)
Definition group_ok (g : bytes * list Row) : Prop :=
  snd g <> [] /\ Forall (fun r => own_id r = fst g) (snd g) /\ StronglySorted seq_lt (snd g).

Lemma history_sorted_app p g l :
  history_sorted p (g ++ l) <->
  history_sorted p g /\ history_sorted (match last g with Some x => Some x | None => p end) l.
Proof.
  revert p. induction g as [|x g IH]; intros p; [by cbn; naive_solver|]. cbn [app history_sorted].
  rewrite IH. destruct g as [|y g]; [naive_solver|]. cbn [last]. destruct (last (y :: g)) eqn:E; [naive_solver|].
  by apply last_None in E.
Qed.

Lemma group_sorted id g : forall p,
  Forall (fun r => own_id r = id) g -> StronglySorted seq_lt g ->
  match g with [] => True | x :: _ => after_version p x end -> history_sorted p g.
Proof.
  induction g as [|x g IH]; intros p Hid Hs Hp; [done|]. apply Forall_cons in Hid as [Hx Hid].
  apply StronglySorted_inv in Hs as [Hs Hf]. split; [done|]. apply IH; [done|done|].
  destruct g as [|y g]; [done|]. right. apply Forall_cons in Hid as [Hy _], Hf as [Hxy _].
  unfold own_id in *. split; [congruence|done].
Qed.

Lemma groups_sorted l : forall p,
  Forall group_ok l -> keys_increasing (map fst l) = true ->
  match p, l with Some q, g :: _ => blt (own_id q) (fst g) = true | _, _ => True end ->
  history_sorted p (concat (map snd l)).
Proof.
  induction l as [|[id g] l IH]; intros p Hok Hinc Hp; [done|].
  apply Forall_cons in Hok as [(Hne & Hid & Hs) Hok]. cbn [map concat fst snd] in *.
  apply keys_increasing_cons in Hinc as [Hh Hinc]. apply history_sorted_app. split.
  - apply (group_sorted id); [done|done|]. destruct g as [|x g]; [done|]. destruct p as [q|]; [|done].
    left. apply Forall_cons in Hid as [Hx _]. unfold own_id in *. by rewrite Hx.
  - destruct (last g) as [x|] eqn:E; [|by apply last_None in E]. apply IH; [done|done|].
    destruct l as [|[id' g'] l]; [done|]. cbn [fst map] in Hh |- *.
    assert (own_id x = id) as ->; [|done]. rewrite Forall_forall in Hid. apply Hid. by apply last_Some_elem_of.
Qed.

Lemma add_group id g : forall acc,
  g <> [] -> Forall (fun r => own_id r = id) g ->
  foldl add_version acc g = <[id := default [] (acc !! id) ++ g]> acc.
Proof.
  induction g as [|x g IH]; intros acc Hne Hid; [done|]. apply Forall_cons in Hid as [Hx Hid].
  cbn [foldl]. assert (add_version acc x = <[id := default [] (acc !! id) ++ [x]]> acc) as E.
  { unfold add_version. unfold own_id in Hx. by rewrite Hx. }
  rewrite E. destruct (decide (g = [])) as [->|Hg]; [done|]. rewrite IH by done.
  rewrite lookup_insert_eq, insert_insert_eq. cbn. by rewrite <- app_assoc.
Qed.

Lemma add_groups l : forall acc,
  Forall group_ok l -> NoDup (map fst l) -> (forall id, id ∈ map fst l -> acc !! id = None) ->
  foldl add_version acc (concat (map snd l)) = list_to_map l ∪ acc.
Proof.
  induction l as [|[id g] l IH]; intros acc Hok Hnd Hf; [by cbn; rewrite (left_id_L ∅ (∪))|].
  apply Forall_cons in Hok as [(Hne & Hid & _) Hok]. cbn [map concat fst snd] in *. apply NoDup_cons in Hnd as [Hi Hnd].
  rewrite foldl_app, (add_group id g acc Hne Hid). rewrite (Hf id) by left. cbn [default from_option app]. rewrite IH; [|done|done|].
  - cbn [list_to_map foldr fst snd]. rewrite <- insert_union_r, insert_union_l; [done|]. by apply not_elem_of_list_to_map_1.
  - intros j Hj. rewrite lookup_insert_ne by (intros ->; done). apply Hf. by right.
Qed.

Section state_members.
Context (s : logicalState) (Hs : state_ok s).

Lemma history_groups_ok : Forall group_ok (sorted_members (history s)).
Proof.
  apply Forall_forall. intros [id l] H%elem_of_sorted_members. destruct (so_history s Hs _ _ H) as (Hne & Hf & Hsrt).
  split_and!; [done| |done]. cbn. eapply Forall_impl; [exact Hf|]. intros r Hr. by rewrite (ro_id _ _ _ Hr).
Qed.

Lemma elem_of_snapshot_history r : r ∈ snapshot_history s <-> in_history s r.
Proof.
  unfold snapshot_history, in_history. rewrite list_elem_of_In, in_concat. split.
  - intros (l & ([id l'] & <- & H)%in_map_iff & Hr). apply list_elem_of_In, elem_of_sorted_members in H.
    exists id, l'. by rewrite list_elem_of_In.
  - intros (id & l & H & Hr). exists l. split; [|by apply list_elem_of_In]. apply in_map_iff. exists (id, l).
    split; [done|]. by apply list_elem_of_In, elem_of_sorted_members.
Qed.

Lemma history_row_ok r : in_history s r -> row_ok (lastApplied s) (own_id r) r.
Proof.
  intros (id & l & H & Hr). apply (so_history s Hs) in H as (_ & Hf & _). rewrite Forall_forall in Hf.
  specialize (Hf r Hr). pose proof (ro_id _ _ _ Hf) as ->. done.
Qed.

Lemma history_versions r r' : in_history s r -> in_history s r' -> row_Version r = row_Version r' -> r = r'.
Proof.
  intros Hr Hr' E. destruct (so_origin s Hs r Hr) as (id & x & Hx & Sx & <- & Vx).
  destruct (so_origin s Hs r' Hr') as (id' & x' & Hx' & Sx' & <- & Vx').
  assert (id = id') as ->; [|congruence].
  apply (so_reserved s Hs id x id' x'); try done; [by rewrite Sx|by rewrite Sx'|congruence].
Qed.

Lemma groups_NoDup l :
  Forall group_ok l -> NoDup (map fst l) -> NoDup (concat (map snd l)).
Proof.
  induction l as [|[id g] l IH]; intros Hok Hnd; [constructor|]. apply Forall_cons in Hok as [(_ & Hid & Hsrt) Hok].
  cbn [map concat fst snd] in *. apply NoDup_cons in Hnd as [Hi Hnd]. apply NoDup_app. split_and!; [| |by apply IH].
  - clear -Hsrt. induction Hsrt as [|x g _ IH Hf]; constructor; [|done]. intros Hx. rewrite Forall_forall in Hf.
    specialize (Hf x Hx). unfold seq_lt in Hf. lia.
  - intros x Hx (l' & ([id' g'] & <- & Hin)%in_map_iff & Hx')%list_elem_of_In%in_concat.
    apply list_elem_of_In in Hin, Hx'. rewrite Forall_forall in Hid. rewrite Forall_forall in Hok. specialize (Hid x Hx).
    destruct (Hok _ Hin) as (_ & Hid' & _). rewrite Forall_forall in Hid'. specialize (Hid' x Hx'). cbn [fst] in Hid'.
    apply Hi. rewrite <- Hid, Hid'. apply list_elem_of_fmap. by exists (id', g').
Qed.

Lemma snapshot_history_NoDup : NoDup (snapshot_history s).
Proof.
  apply groups_NoDup; [apply history_groups_ok|]. by apply (increasing_NoDup fst), sorted_members_increasing.
Qed.

Lemma NoDup_map_history {B} (f : Row -> B) :
  (forall r r', in_history s r -> in_history s r' -> f r = f r' -> r = r') -> NoDup (map f (snapshot_history s)).
Proof.
  intros Hf. apply NoDup_fmap_2_strong; [|apply snapshot_history_NoDup].
  intros x y Hx Hy. apply Hf; by apply elem_of_snapshot_history.
Qed.

Lemma rows_ok : Forall (fun kr => row_ok (lastApplied s) (fst kr) (snd kr)) (sorted_members (rows s)).
Proof.
  apply Forall_forall. intros [id r] H%elem_of_sorted_members. cbn. rewrite (so_rows s Hs) in H.
  apply bind_Some in H as (l & Hl & Hlast). apply (so_history s Hs) in Hl as (_ & Hf & _). rewrite Forall_forall in Hf.
  by apply Hf, last_Some_elem_of.
Qed.

(** ** The checks of a decoded snapshot accept a state *)

Definition reserving (r : Result) : bool := negb (VersionConflict r).
Definition version_of (r : Result) : UUID := Version (res_Command r).

Lemma reserve_results_ok inHistory l : forall nonConflicts vs,
  NoDup (map version_of (List.filter reserving l)) ->
  (forall r, r ∈ l -> reserving r = true -> version_of r ∉ nonConflicts) ->
  (forall r, r ∈ l -> PreconditionFailed r = true -> version_of r ∉ inHistory) ->
  reserve_results inHistory l nonConflicts vs
  = Ok (list_to_set (map version_of (List.filter reserving l)) ∪ nonConflicts, list_to_set (map version_of l) ∪ vs).
Proof.
  induction l as [|r l IH]; intros nc vs Hn Hf Hp; [by cbn; rewrite !(left_id_L ∅ (∪))|].
  cbn [reserve_results List.filter map list_to_set] in *. change (negb (VersionConflict r)) with (reserving r).
  change (Version (res_Command r)) with (version_of r).
  assert (forall nc', (forall x, x ∈ l -> reserving x = true -> version_of x ∉ nc') ->
    NoDup (map version_of (List.filter reserving l)) ->
    reserve_results inHistory l nc' ({[version_of r]} ∪ vs) =
    Ok (list_to_set (map version_of (List.filter reserving l)) ∪ nc', list_to_set (map version_of l) ∪ ({[version_of r]} ∪ vs))) as Hrest.
  { intros nc' H1 H2. apply IH; [done|done|]. intros x Hx. apply Hp. by right. }
  destruct (reserving r) eqn:Er.
  - cbn [map list_to_set] in *. apply NoDup_cons in Hn as [Hv Hn].
    rewrite fail_if_false by (apply bool_decide_eq_false_2, Hf; [left|done]).
    rewrite fail_if_false.
    2:{ destruct (PreconditionFailed r) eqn:Ep; [|done]. apply bool_decide_eq_false_2, Hp; [left|done]. }
    cbn [mbind result_bind]. rewrite Hrest; [|clear Hrest IH|done].
    + f_equal. f_equal; set_solver.
    + intros x Hx Hrx. apply not_elem_of_union. split; [|apply Hf; [by right|done]]. rewrite elem_of_singleton.
      intros E. apply Hv. rewrite <- E. apply list_elem_of_fmap_2. apply list_elem_of_In, filter_In.
      split; [by apply list_elem_of_In|done].
  - cbn [mbind result_bind]. rewrite Hrest; [|intros x Hx; apply Hf; by right|done]. f_equal. f_equal. set_solver.
Qed.

Lemma elem_of_results r : r ∈ map snd (map_to_list (results s)) <-> exists id, results s !! id = Some r.
Proof.
  rewrite list_elem_of_fmap. split.
  - intros ([id r'] & -> & H%elem_of_map_to_list). by exists id.
  - intros [id H]. exists (id, r). split; [done|]. by apply elem_of_map_to_list.
Qed.

Lemma results_NoDup : NoDup (map snd (map_to_list (results s))).
Proof.
  apply NoDup_fmap_2_strong; [|apply NoDup_map_to_list]. intros [id r] [id' r'] H H' E. cbn in E. subst r'.
  apply elem_of_map_to_list in H, H'. apply (so_results s Hs) in H as (<- & _), H' as (<- & _). done.
Qed.

Lemma reserving_status r : reserving r = true <-> res_Status r <> resultVersionConflict.
Proof. unfold reserving, VersionConflict. by rewrite negb_true_iff, bool_decide_eq_false. Qed.

Lemma precondition_not_in_history r :
  r ∈ map snd (map_to_list (results s)) -> PreconditionFailed r = true ->
  version_of r ∉ (list_to_set (map row_Version (snapshot_history s)) : gset UUID).
Proof.
  intros [id H]%elem_of_results Hp%bool_decide_eq_true. rewrite elem_of_list_to_set.
  intros (row & E & Hrow)%list_elem_of_fmap. apply elem_of_snapshot_history in Hrow.
  destruct (so_origin s Hs _ Hrow) as (id' & r' & H' & Hst & _ & Hv).
  assert (id = id') as <-.
  { apply (so_reserved s Hs id r id' r'); try done; [by rewrite Hp|by rewrite Hst|]. unfold version_of in E. congruence. }
  assert (r' = r) as -> by congruence. by rewrite Hp in Hst.
Qed.

Lemma collectVersions_ok :
  collectVersions (list_to_set (map row_Version (snapshot_history s))) (map snd (map_to_list (results s))) = Ok (versions s).
Proof.
  unfold collectVersions. rewrite reserve_results_ok; cycle 1.
  - apply NoDup_fmap_2_strong.
    + intros r r' Hr Hr' E. apply list_elem_of_In, filter_In in Hr as [Hr Nr], Hr' as [Hr' Nr'].
      apply list_elem_of_In, elem_of_results in Hr as [id H], Hr' as [id' H']. apply reserving_status in Nr, Nr'.
      assert (id = id') as ->; [by apply (so_reserved s Hs id r id' r')|]. congruence.
    + apply NoDup_ListNoDup, List.NoDup_filter, NoDup_ListNoDup, results_NoDup.
  - intros. apply not_elem_of_empty.
  - apply precondition_not_in_history.
  - cbn [mbind result_bind]. set (rs := map snd (map_to_list (results s))).
    assert (forall k : result state_error (gset UUID), (for_all (fun r =>
       fail_if (VersionConflict r && negb (bool_decide (Version (res_Command r) ∈ (list_to_set (map row_Version (snapshot_history s)) : gset UUID)))
         && negb (bool_decide (Version (res_Command r) ∈ (list_to_set (map version_of (List.filter reserving rs)) ∪ ∅ : gset UUID))))
         (ErrStateCorrupt "version conflict has no prior reservation")) rs;; k) = k) as Hall.
    { intros k. assert (for_all (fun r =>
       fail_if (VersionConflict r && negb (bool_decide (Version (res_Command r) ∈ (list_to_set (map row_Version (snapshot_history s)) : gset UUID)))
         && negb (bool_decide (Version (res_Command r) ∈ (list_to_set (map version_of (List.filter reserving rs)) ∪ ∅ : gset UUID))))
         (ErrStateCorrupt "version conflict has no prior reservation")) rs = Ok tt) as ->; [|done].
      apply for_all_Ok, Forall_forall. intros r [id H]%elem_of_results. apply fail_if_Ok.
      destruct (VersionConflict r) eqn:Ec; [|done]. apply bool_decide_eq_true in Ec.
      destruct (so_conflicts s Hs _ _ H Ec) as (id' & r' & H' & Hn & Hv).
      apply andb_false_iff. right. apply negb_false_iff, bool_decide_eq_true_2. rewrite (right_id_L ∅ (∪)).
      apply elem_of_list_to_set, list_elem_of_fmap. exists r'. split; [done|].
      apply list_elem_of_In, filter_In. split; [|by apply reserving_status].
      apply list_elem_of_In, elem_of_results. by exists id'. }
    rewrite Hall. f_equal. apply set_eq. intros v. rewrite elem_of_union, !elem_of_list_to_set, (so_versions s Hs).
    rewrite !list_elem_of_fmap. split.
    + intros [(r & -> & [id H]%elem_of_results)|(row & -> & Hrow)]; [by exists id, r|].
      apply elem_of_snapshot_history in Hrow. destruct (so_origin s Hs _ Hrow) as (id' & r' & H' & _ & _ & Hv).
      by exists id', r'.
    + intros (id & r & H & <-). left. exists r. split; [done|]. apply elem_of_results. by exists id.
Qed.

Lemma check_heads_ok : for_all (check_head (history s)) (map_to_list (rows s)) = Ok tt.
Proof.
  apply for_all_Ok, Forall_forall. intros [id r] H%elem_of_map_to_list. rewrite (so_rows s Hs) in H.
  apply bind_Some in H as (l & Hl & Hlast). unfold check_head. cbn [fst snd]. rewrite Hl. change (default [] (Some l)) with l.
  rewrite Hlast, Z.eqb_refl, !beq_refl. done.
Qed.

Lemma check_histories_ok :
  for_all (fun kv : bytes * list Row => fail_if (bool_decide (rows s !! fst kv = None)) (ErrState "snapshot history has no head"))
    (map_to_list (history s)) = Ok tt.
Proof.
  apply for_all_Ok, Forall_forall. intros [id l] H%elem_of_map_to_list. apply fail_if_Ok, bool_decide_eq_false_2. cbn [fst].
  rewrite (so_rows s Hs), H. cbn. destruct (so_history s Hs _ _ H) as (Hne & _). by rewrite last_None.
Qed.

Lemma find_result_ok row before after : forall earlier,
  Forall (fun x => row_Sequence x < row_Sequence row) before ->
  find_result row (before ++ row :: after) earlier = (true, earlier || negb (bool_decide (before = []))).
Proof.
  induction before as [|x before IH]; intros earlier Hf; cbn [find_result app].
  - by rewrite Z.eqb_refl, !beq_refl, orb_false_r.
  - apply Forall_cons in Hf as [Hx Hf]. replace (row_Sequence x =? row_Sequence row) with false by (symmetry; apply Z.eqb_neq; lia).
    cbn [andb]. rewrite IH by done. replace (row_Sequence x <? row_Sequence row) with true by (symmetry; apply Z.ltb_lt; lia).
    f_equal. rewrite orb_true_r. cbn. by rewrite orb_true_r.
Qed.

Lemma check_results_ok : for_all (check_result (lastApplied s) (history s)) (map snd (map_to_list (results s))) = Ok tt.
Proof.
  apply for_all_Ok, Forall_forall. intros r [id H]%elem_of_results. pose proof (state_result_ok s id r Hs H) as Hrok.
  destruct (so_results s Hs _ _ H) as (_ & _ & Hout). unfold check_result, Succeeded, PreconditionFailed, VersionConflict.
  destruct Hout as [(E & before & after & Hh & Hrow & Hcr)|(E & Hrow & Hcr)].
  - rewrite E. rewrite bool_decide_eq_true_2 by done.
    destruct Hrok as [_ [(_ & Hseq & _)|([E'|E'] & _)]]; [|by rewrite E in E'..].
    assert (row_Table (res_Row r) = Table (res_Command r) /\ row_Key (res_Row r) = Key (res_Command r)) as [Et Ek] by by rewrite Hrow.
    rewrite Et, Ek, !beq_refl, Hh.
    change (default [] (Some ?l)) with l.
    rewrite fail_if_false by (rewrite !orb_false_iff, Z.eqb_neq, Z.ltb_ge; split_and!; done || lia).
    rewrite find_result_ok.
    2:{ apply (so_history s Hs) in Hh as (_ & _ & Hsrt). apply StronglySorted_app in Hsrt as (Hb & _ & _).
        apply Forall_forall. intros x Hx. apply (Hb x (res_Row r)); [done|left]. }
    rewrite fail_if_false by done. rewrite Hcr. by destruct (bool_decide (before = [])).
  - rewrite Hrow, Hcr. destruct E as [->| ->]; done.
Qed.
End state_members.

(** ** The image of a state *)

Definition snapshot_body (s : logicalState) : bytes :=
  snapshotMagic ++ [stateFormat] ++ be 8 (lastApplied s)
  ++ putU32 (len (snapshot_rows s)) ++ concat (map row_record (snapshot_rows s))
  ++ putU32 (len (snapshot_history s)) ++ concat (map row_record (snapshot_history s))
  ++ putU32 (len (snapshot_results s)) ++ concat (map result_record (snapshot_results s)).

Lemma exportSnapshot_ok s :
  state_ok s -> exportSnapshot s = Ok (snapshot_body s ++ be 4 (crc32.Checksum (snapshot_body s))).
Proof.
  intros Hs. unfold exportSnapshot.
  assert (forall last id r, row_ok last id r -> snapshot_row r = Ok (row_record r)) as Hrow.
  { intros last id r Hr. unfold snapshot_row. by rewrite (encodeStateRow_ok _ _ _ Hr). }
  rewrite (collect_ok snapshot_row row_record (snapshot_rows s)).
  2:{ unfold snapshot_rows. apply Forall_map. eapply Forall_impl; [by apply rows_ok|]. intros [id r] Hr. by eapply Hrow. }
  cbn [mbind result_bind]. rewrite (collect_ok snapshot_row row_record (snapshot_history s)).
  2:{ apply Forall_forall. intros r Hr%elem_of_snapshot_history. eapply Hrow. by apply (history_row_ok s). }
  cbn [mbind result_bind]. rewrite (collect_ok snapshot_result result_record (snapshot_results s)).
  2:{ apply Forall_forall. intros [id r] H%elem_of_sorted_members. unfold snapshot_result. cbn [fst snd].
      by rewrite (encodeResult_ok (lastApplied s)) by (by eapply state_result_ok). }
  done.
Qed.

Lemma row_record_len r : 1 <= len (row_record r).
Proof.
  unfold row_record, putString, putU32. rewrite !len_app, len_be.
  pose proof (len_nonneg (row_Table r)). pose proof (len_nonneg (be 4 (len (row_Key r)))).
  pose proof (len_nonneg (row_Key r)). pose proof (len_nonneg (row_bytes r)). lia.
Qed.

Lemma result_record_len kr : 1 <= len (result_record kr).
Proof.
  unfold result_record, putU32. rewrite !len_app, len_be. pose proof (len_nonneg (fst kr)).
  pose proof (len_nonneg (result_bytes (snd kr))). lia.
Qed.

(** An image within the size bound has counts that fit in 32 bits. *)
Lemma snapshot_counts s : len (snapshot_body s) <= maxSnapshotBytes ->
  len (snapshot_rows s) < 2 ^ 32 /\ len (snapshot_history s) < 2 ^ 32 /\ len (snapshot_results s) < 2 ^ 32.
Proof.
  unfold snapshot_body, maxSnapshotBytes, putU32. rewrite !len_app, !len_be.
  change (len snapshotMagic) with 4. change (len [stateFormat]) with 1. intros H.
  pose proof (len_concat row_record (snapshot_rows s) ltac:(apply Forall_true, row_record_len)).
  pose proof (len_concat row_record (snapshot_history s) ltac:(apply Forall_true, row_record_len)).
  pose proof (len_concat result_record (snapshot_results s) ltac:(apply Forall_true, result_record_len)).
  pose proof (len_nonneg (snapshot_rows s)). pose proof (len_nonneg (snapshot_history s)).
  pose proof (len_nonneg (snapshot_results s)). lia.
Qed.

(** The body of the decoder on the members of a state. *)
Lemma decode_members s (rest : bytes) :
  state_ok s -> len (snapshot_rows s) < 2 ^ 32 -> len (snapshot_history s) < 2 ^ 32 -> len (snapshot_results s) < 2 ^ 32 ->
  ('(count, data) ← readU32 (putU32 (len (snapshot_rows s)) ++ concat (map row_record (snapshot_rows s))
      ++ putU32 (len (snapshot_history s)) ++ concat (map row_record (snapshot_history s))
      ++ putU32 (len (snapshot_results s)) ++ concat (map result_record (snapshot_results s)) ++ rest);
   '(rs, data) ← read_rows (Z.to_nat count) (lastApplied s) [] ∅ data;
   '(count, data) ← readU32 data;
   '((vs, hs), data) ← read_history (Z.to_nat count) (lastApplied s) [] 0 ∅ ∅ ∅ data;
   '(count, data) ← readU32 data;
   '(os, data) ← read_results (Z.to_nat count) None ∅ data;
   Ok (rs, hs, vs, os, data))
  = Ok (rows s, history s, list_to_set (map row_Version (snapshot_history s)), results s, rest).
Proof.
  intros Hs Hr Hh Ho. pose proof (so_last s Hs) as [_ Hl].
  rewrite readU32_ok by (pose proof (len_nonneg (snapshot_rows s)); lia). cbn [mbind result_bind]. rewrite len_to_nat.
  pose proof (read_rows_ok (lastApplied s) (sorted_members (rows s)) [] ∅
    (putU32 (len (snapshot_history s)) ++ concat (map row_record (snapshot_history s))
      ++ putU32 (len (snapshot_results s)) ++ concat (map result_record (snapshot_results s)) ++ rest) Hl (rows_ok s Hs)
      (sorted_members_increasing _) ltac:(done)) as H1.
  rewrite sorted_members_map, (right_id_L ∅ (∪)) in H1. unfold snapshot_rows. rewrite map_map, length_map. rewrite H1. clear H1.
  cbn [mbind result_bind]. rewrite readU32_ok by (pose proof (len_nonneg (snapshot_history s)); lia).
  cbn [mbind result_bind]. rewrite len_to_nat.
  pose proof (read_history_ok (lastApplied s) (snapshot_history s) None ∅ ∅ ∅
    (putU32 (len (snapshot_results s)) ++ concat (map result_record (snapshot_results s)) ++ rest) Hl) as H2.
  cbn [previous_id previous_seq] in H2. rewrite H2; clear H2.
  2:{ apply Forall_forall. intros r Hin%elem_of_snapshot_history. by apply (history_row_ok s). }
  2:{ apply groups_sorted; [by apply history_groups_ok|apply sorted_members_increasing|done]. }
  2:{ apply NoDup_map_history; [done|]. apply (so_sequences s Hs). }
  2:{ intros. apply not_elem_of_empty. }
  2:{ apply NoDup_map_history; [done|]. by apply history_versions. }
  2:{ intros. apply not_elem_of_empty. }
  cbn [mbind result_bind].
  assert (foldl add_version ∅ (snapshot_history s) = history s) as ->.
  { unfold snapshot_history. rewrite add_groups; [by rewrite sorted_members_map, (right_id_L ∅ (∪))|by apply history_groups_ok| |].
    - apply (increasing_NoDup fst), sorted_members_increasing.
    - intros. apply lookup_empty. }
  rewrite (right_id_L ∅ (∪)). rewrite readU32_ok by (pose proof (len_nonneg (snapshot_results s)); lia).
  cbn [mbind result_bind]. rewrite len_to_nat. unfold snapshot_results.
  rewrite (read_results_ok (lastApplied s)); [|done| |apply sorted_members_increasing|done].
  - cbn [mbind result_bind]. by rewrite sorted_members_map, (right_id_L ∅ (∪)).
  - apply Forall_forall. intros [id r] H%elem_of_sorted_members. cbn [fst snd].
    split; [by eapply state_result_ok|by apply (so_results s Hs) in H as (? & _)].
Qed.

(** ** Theorem *)

End snapshot.

(** ** Instances at concrete inputs *)

Definition sample_image : bytes :=
  match exportSnapshot (canon := number_canon) sample_state with Ok b => b | Fail _ => [] end.

