(* ===== verification/Retry.v ===== *)
(** Retry identities (src/internal/raftstore/retry.go): the frozen command
    bytes that tell an idempotent replay from a conflicting reuse of an
    operation ID. *)

From Stdlib Require Import ZArith Lia.
From stdpp Require Import base list.
From S2P Require Import Prelude GoStd Uuidv7 Coordinates Command State.

Local Open Scope Z_scope.

Record RetryIdentity : Type := mkRetry {
  retry_OperationID : UUID;
  CandidateVersion : UUID;
  retry_Command : bytes;
  Digest : bytes
}.

#[export] Instance RetryIdentity_eq_dec : EqDecision RetryIdentity.
Proof. solve_decision. Defined.

Section retry.
Context {canon : Canonicalizer}.

Definition FreezeRetryIdentity (command : Command) : result command_error RetryIdentity :=
  validateCommand command;;
  encoded ← EncodeCommand command;
  Ok (mkRetry (OperationID command) (Version command) encoded (sha256.Sum256 encoded)).

(** [Clone] copies the command bytes; values are immutable here. *)
Definition Clone (identity : RetryIdentity) : RetryIdentity :=
  mkRetry (retry_OperationID identity) (CandidateVersion identity) (retry_Command identity) (Digest identity).

Definition Validate (identity : RetryIdentity) : result command_error unit :=
  fail_if (negb (is_ok (UUIDFromBytes (retry_OperationID identity)))) ErrInvalidOperationID;;
  fail_if (negb (is_ok (UUIDFromBytes (CandidateVersion identity)))) (ErrInvalidCommand "");;
  fail_if ((len (retry_Command identity) =? 0) || negb (beq (sha256.Sum256 (retry_Command identity)) (Digest identity)))
    ErrOperationConflict;;
  match DecodeCommand (retry_Command identity) with
  | Fail _ => Fail ErrOperationConflict
  | Ok command =>
      fail_if (negb (beq (OperationID command) (retry_OperationID identity))
               || negb (beq (Version command) (CandidateVersion identity))) ErrOperationConflict
  end.

Definition Equal (identity other : RetryIdentity) : bool :=
  beq (retry_OperationID identity) (retry_OperationID other)
  && beq (CandidateVersion identity) (CandidateVersion other)
  && beq (Digest identity) (Digest other) && beq (retry_Command identity) (retry_Command other).

Definition CompareRetryIdentity (first retry : RetryIdentity) : result command_error unit :=
  Validate first;;
  Validate retry;;
  if negb (beq (retry_OperationID first) (retry_OperationID retry)) then Ok tt
  else if Equal first retry then Ok tt
  else Fail ErrOperationConflict.

Definition RetryResultMatches (identity : RetryIdentity) (r : Result) : result command_error unit :=
  Validate identity;;
  match EncodeCommand (res_Command r) with
  | Fail _ => Fail ErrOperationConflict
  | Ok encoded => fail_if (negb (beq encoded (retry_Command identity))) ErrOperationConflict
  end.

Lemma FreezeRetryIdentity_Ok c i :
  FreezeRetryIdentity c = Ok i <->
  exists b, EncodeCommand c = Ok b /\ i = mkRetry (OperationID c) (Version c) b (sha256.Sum256 b).
Proof.
  unfold FreezeRetryIdentity, EncodeCommand. split.
  - intros H. inv_res. rewrite Hr. cbn [mbind result_bind]. eauto.
  - intros (b & H & ->). inv_res. rewrite Hr. done.
Qed.

Lemma EncodeCommand_inj c1 c2 b : EncodeCommand c1 = Ok b -> EncodeCommand c2 = Ok b -> c1 = c2.
Proof. intros H1%DecodeCommand_EncodeCommand H2%DecodeCommand_EncodeCommand. congruence. Qed.

(** An identity is valid exactly when it is the frozen form of a command. *)
Lemma Validate_frozen i : Validate i = Ok tt <-> exists c, FreezeRetryIdentity c = Ok i.
Proof.
  split.
  - intros H. unfold Validate in H. inv_res. bool_to_prop.
    destruct (DecodeCommand (retry_Command i)) as [c|] eqn:Hd; [|done].
    inv_res. bool_to_prop. rewrite !beq_true in *.
    exists c. apply FreezeRetryIdentity_Ok. exists (retry_Command i).
    split; [by apply DecodeCommand_canonical|]. destruct i; cbn in *. congruence.
  - intros (c & (b & Hb & ->)%FreezeRetryIdentity_Ok). unfold Validate. cbn [retry_OperationID CandidateVersion retry_Command Digest].
    pose proof Hb as Hc. apply EncodeCommand_Ok in Hc as [Hc _].
    pose proof (encoded_nonempty c b Hb). pose proof (proj2 (validateCommand_Ok c) Hc) as Hv.
    unfold validateCommand in Hv. inv_res. rewrite Hr, Hr0. cbn [fail_if mbind result_bind].
    rewrite (proj2 (Z.eqb_neq _ _)) by lia. rewrite beq_refl. cbn [fail_if mbind result_bind negb orb].
    rewrite (DecodeCommand_EncodeCommand c b Hb), !beq_refl. done.
Qed.

(** A retry with the operation ID of an earlier attempt is accepted
    exactly when it carries the very same command, an operation ID of its own
    never conflicts, and a stored result answers a retry exactly when it
    is the outcome of the frozen command. *)
Theorem retry_identity_decides (c1 c2 : Command) (i1 i2 : RetryIdentity) (r : Result) :
  FreezeRetryIdentity c1 = Ok i1 -> FreezeRetryIdentity c2 = Ok i2 ->
  Validate i1 = Ok tt
  /\ (CompareRetryIdentity i1 i2 = Ok tt <-> (OperationID c1 = OperationID c2 -> c1 = c2))
  /\ (CompareRetryIdentity i1 i2 = Ok tt \/ CompareRetryIdentity i1 i2 = Fail ErrOperationConflict)
  /\ (RetryResultMatches i1 r = Ok tt <-> res_Command r = c1).
Proof.
  intros H1 H2. assert (Validate i1 = Ok tt) as V1 by (apply Validate_frozen; eauto).
  assert (Validate i2 = Ok tt) as V2 by (apply Validate_frozen; eauto).
  apply FreezeRetryIdentity_Ok in H1 as (b1 & E1 & ->), H2 as (b2 & E2 & ->).
  split; [done|]. unfold CompareRetryIdentity, RetryResultMatches, Equal. rewrite V1, V2.
  cbn [mbind result_bind retry_OperationID CandidateVersion retry_Command Digest].
  split_and!.
  - destruct (beq (OperationID c1) (OperationID c2)) eqn:Ho; cbn [negb andb]; rewrite ?beq_true, ?beq_false in Ho.
    2:{ split; [|done]. intros _ Heq. congruence. }
    split.
    + destruct (beq b1 b2) eqn:Hb; rewrite ?andb_false_r; [|done]. rewrite beq_true in Hb. subst b2.
      intros _ _. by eapply EncodeCommand_inj.
    + intros Heq. specialize (Heq Ho). subst c2. assert (b1 = b2) as -> by congruence. by rewrite !beq_refl.
  - destruct (negb _); [by left|]. destruct (_ && _); [by left|by right].
  - split.
    + destruct (EncodeCommand (res_Command r)) as [e|] eqn:He; [|done]. intros H. inv_res. bool_to_prop.
      rewrite beq_true in H. subst e. by eapply EncodeCommand_inj.
    + intros ->. rewrite E1, beq_refl. done.
Qed.
End retry.

(** ** A concrete retry *)

Definition frozen (c : Command) : RetryIdentity :=
  match FreezeRetryIdentity (canon := number_canon) c with Ok i => i | Fail _ => mkRetry [] [] [] [] end.

Lemma retry_identity_decides_witness :
  CompareRetryIdentity (canon := number_canon) (frozen first_put) (frozen first_put) = Ok tt
  /\ CompareRetryIdentity (canon := number_canon) (frozen first_put)
       (frozen (mkCommand (OperationID first_put) (Table first_put) (Key first_put) (lit "99") (Cond first_put)
                  (Version first_put))) <> Ok tt.
Proof.
  split.
  - apply (retry_identity_decides (canon := number_canon) first_put first_put (frozen first_put) (frozen first_put)
             (mkResult first_put zero_row false resultPrecondition)); [vm_compute; reflexivity..|done].
  - pose proof (retry_identity_decides (canon := number_canon) first_put
      (mkCommand (OperationID first_put) (Table first_put) (Key first_put) (lit "99") (Cond first_put) (Version first_put))
      (frozen first_put) _ (mkResult first_put zero_row false resultPrecondition)
      ltac:(vm_compute; reflexivity) ltac:(vm_compute; reflexivity)) as (_ & H & _).
    intros Hc. assert (lit "10" = lit "99") as Hbad; [|discriminate Hbad].
    refine (f_equal Value (proj1 H _ eq_refl)). exact Hc.
Defined.
