(* ===== verification/SplitTypes.v ===== *)
(** Split snapshots (src/internal/raftstore/split_types.go, split_budget.go
    and split_recovery.go): the bounded image of a source range, its binary
    form, its transfer in chunks, the memory budgets, the ordered deltas after
    the image, and the evidence checked before and after a cutover.

    Go's [int] has 64 bits here.  The decoder's position in the image is
    modelled as the bytes from that position on. *)

From Stdlib Require Import ZArith Lia Sorting.Sorted.
From stdpp Require Import base list gmap sorting.
From S2P Require Import Prelude GoStd Uuidv7 Coordinates Range Command State Snapshot.

Local Open Scope Z_scope.

(** ** Bounds and errors *)

Definition maxSplitRows : Z := 2 ^ 20.
Definition maxSplitDeltaBytes : Z := 2 ^ 20.
Definition maxSplitDeltas : Z := 2 ^ 20.
Definition maxSplitSnapshotBytes : Z := 8 * 2 ^ 20.
Definition maxSplitDeltaBytesTotal : Z := 8 * 2 ^ 20.
Definition maxSplitCopyChunkBytes : Z := 64 * 2 ^ 10.
Definition splitChunkHeaderBytes : Z := 17.
Definition maxSplitValidationBytes : Z := 64 * 2 ^ 20.
Definition maxSplitRetainedBytes : Z := 128 * 2 ^ 20.
Definition splitMapEntryBytes : Z := 96.

(** The errors a split returns: its own sentinels, [storage.ErrNotFound], the
    message of the stale-owner helper, the bare sentinel [ErrRangeMoved], and
    the errors of ranges and commands.  [SplitPanic] is a nil dereference. *)
Inductive split_error : Type :=
| ErrSplitActive
| ErrSplitNotActive
| ErrSplitUnsafeCopy
| ErrSplitChecksum
| ErrSplitBarrier
| ErrSplitGeneration
| ErrSplitDeltaOrder
| ErrSplitPending
| ErrSplitQuorum
| ErrSplitNotFound
| ErrSplitHelper
| SplitRangeMoved
| SplitPanic
| SplitRange (e : range_error)
| SplitCommand (e : command_error).

Definition split_backpressure : split_error := SplitRange ErrBackpressure.

(** ** Memory budgets *)

Definition splitMemoryAdd (a b : Z) : result split_error Z :=
  fail_if ((a <? 0) || (b <? 0) || (max_int64 - b <? a)) split_backpressure;; Ok (a + b).

(** The loop of [splitMemorySum] from a running total. *)
Fixpoint memory_sum (total : Z) (values : list Z) : result split_error Z :=
  match values with
  | [] => Ok total
  | v :: values' => total ← splitMemoryAdd total v; memory_sum total values'
  end.
Definition splitMemorySum (values : list Z) : result split_error Z := memory_sum 0 values.

Definition splitMemoryMul (a b : Z) : result split_error Z :=
  fail_if ((a <? 0) || (b <? 0) || (negb (a =? 0) && (max_int64 / a <? b))) split_backpressure;; Ok (a * b).

Definition splitDescriptorMemory (d : RangeDescriptor) : Z :=
  int64 (64 + len (RangeID d) + len (Start d) + len (end_bytes d) + len (Voters d) * 8).

Definition splitRowMemory (row : Row) : result split_error Z :=
  splitMemorySum [64; len (row_Table row); len (row_Key row); 16; len (row_Value row)].

Definition splitRowValidationScratchMemoryCount (count : Z) : result split_error Z :=
  fail_if (count <? 0) split_backpressure;;
  splitMemorySum [int64 (count * 64); int64 (count * 32); int64 (count * 32)].

(** ** Snapshots *)

Record SplitSnapshot : Type := mkSnapshot {
  snap_Source : RangeDescriptor;
  snap_Barrier : Z;
  snap_SourceEpoch : Z;
  snap_Rows : list Row;
  snap_Checksum : Z
}.

(** [cloneSplitRows] and [cloneTransferRow] copy values, which are immutable here. *)
Definition cloneTransferRow (row : Row) : Row :=
  mkRow (row_Table row) (row_Key row) (row_Version row) (row_Sequence row) (row_Value row).
Definition cloneSplitRows (rows : list Row) : list Row := map cloneTransferRow rows.

Definition SplitSnapshot_Clone (s : SplitSnapshot) : SplitSnapshot :=
  mkSnapshot (Clone (snap_Source s)) (snap_Barrier s) (snap_SourceEpoch s) (cloneSplitRows (snap_Rows s)) (snap_Checksum s).

Definition putSplitBytes (value : bytes) : bytes := be 4 (len value) ++ value.
Definition putSplitString (value : bytes) : bytes := putSplitBytes value.

Definition encodeRangeDescriptor (d : RangeDescriptor) : bytes :=
  putSplitString (RangeID d) ++ putSplitBytes (Start d)
  ++ match End_ d with None => be 4 max_uint32 | Some e => putSplitBytes e end
  ++ be 8 (Generation d) ++ be 8 (OwnerEpoch d) ++ be 8 (GroupID d) ++ [Phase d]
  ++ be 4 (len (Voters d)) ++ concat (map (be 8) (Voters d)).

Definition split_row_bytes (row : Row) : bytes :=
  putSplitString (row_Table row) ++ putSplitString (row_Key row) ++ row_Version row
  ++ be 8 (row_Sequence row) ++ putSplitBytes (row_Value row).

Definition encodeSplitSnapshotBody (s : SplitSnapshot) : bytes :=
  lit "VBS4" ++ [x01] ++ encodeRangeDescriptor (snap_Source s) ++ be 8 (snap_Barrier s) ++ be 8 (snap_SourceEpoch s)
  ++ be 4 (len (snap_Rows s)) ++ concat (map split_row_bytes (snap_Rows s)).

Definition encodeSplitSnapshot (s : SplitSnapshot) : bytes := encodeSplitSnapshotBody s ++ be 4 (snap_Checksum s).

Definition calculateChecksum (s : SplitSnapshot) : Z := crc32.Checksum (encodeSplitSnapshotBody s).

Definition splitSnapshotBaseEncodedSize (source : RangeDescriptor) : result split_error Z :=
  splitMemorySum [4 + 1; len (encodeRangeDescriptor source); 8; 8; 4; 4].

Fixpoint rows_encoded_size (size : Z) (rows : list Row) : result split_error Z :=
  match rows with
  | [] => Ok size
  | row :: rows' =>
      size ← splitMemorySum [size; 4 + len (row_Table row); 4 + len (row_Key row); 16; 8; 4 + len (row_Value row)];
      rows_encoded_size size rows'
  end.

Definition splitSnapshotEncodedSize (source : RangeDescriptor) (rows : list Row) : result split_error Z :=
  size ← splitSnapshotBaseEncodedSize source;
  size ← rows_encoded_size size rows;
  splitMemoryAdd size 4.

Definition splitRowLess (a b : Row) : bool :=
  if negb (beq (row_Table a) (row_Table b)) then blt (row_Table a) (row_Table b) else blt (row_Key a) (row_Key b).

(** [fmt.Sprintf("%d:%s%d:%s", len(table), table, len(key), key)] *)
Definition splitRowID (table key : bytes) : bytes :=
  strconv.Itoa (len table) ++ lit ":" ++ table ++ strconv.Itoa (len key) ++ lit ":" ++ key.

(** [sort.Slice] with [splitRowLess]. *)
Definition row_le (a b : Row) : Prop := splitRowLess b a = false.
#[export] Instance row_le_dec : RelDecision row_le.
Proof. intros a b. unfold row_le. apply _. Defined.
Definition sort_rows (rows : list Row) : list Row := merge_sort row_le rows.

Section split_types.
Context {canon : Canonicalizer}.

(** The row loop of [validateSplitRows], with the running size and the
    versions, sequences and coordinates seen so far. *)
Fixpoint check_split_rows (source : RangeDescriptor) (barrier : Z) (rows : list Row) (size : Z)
    (versions : gset UUID) (sequences : gset Z) (coordinates : gset bytes) : result split_error unit :=
  match rows with
  | [] => Ok tt
  | row :: rows' =>
      fail_if (negb (validTable (row_Table row)) || negb (validKey (row_Key row)) || negb (Contains source (row_Key row))
               || (row_Sequence row =? 0) || (barrier <? row_Sequence row) || (maxSplitDeltaBytes <? len (row_Value row))
               || negb (canonical_value (row_Value row))) ErrSplitChecksum;;
      fail_if (negb (is_ok (UUIDFromBytes (row_Version row)))) ErrSplitChecksum;;
      let rowSize := 4 + len (row_Table row) + 4 + len (row_Key row) + 16 + 8 + 4 + len (row_Value row) in
      fail_if ((rowSize <? 0) || (maxSplitSnapshotBytes - 4 - rowSize <? size)) split_backpressure;;
      fail_if (bool_decide (row_Version row ∈ versions)) ErrSplitChecksum;;
      fail_if (bool_decide (row_Sequence row ∈ sequences)) ErrSplitChecksum;;
      let id := splitRowID (row_Table row) (row_Key row) in
      fail_if (bool_decide (id ∈ coordinates)) ErrSplitChecksum;;
      check_split_rows source barrier rows' (size + rowSize) ({[row_Version row]} ∪ versions)
        ({[row_Sequence row]} ∪ sequences) ({[id]} ∪ coordinates)
  end.

Fixpoint rows_in_order (rows : list Row) : bool :=
  match rows with
  | a :: (b :: _) as rows' => negb (splitRowLess b a) && rows_in_order rows'
  | _ => true
  end.

Definition validateSplitRows (rows : list Row) (source : RangeDescriptor) (barrier : Z) : result split_error unit :=
  fail_if (maxSplitRows <? len rows) split_backpressure;;
  size ← splitSnapshotBaseEncodedSize source;
  check_split_rows source barrier rows size ∅ ∅ ∅;;
  match splitRowValidationScratchMemoryCount (len rows) with
  | Fail _ => Fail split_backpressure
  | Ok scratch => fail_if (maxSplitValidationBytes <? scratch) split_backpressure
  end;;
  fail_if (negb (rows_in_order rows)) ErrSplitChecksum.

Definition SplitSnapshot_Validate (s : SplitSnapshot) (source : RangeDescriptor) (expectedBarrier expectedEpoch : Z)
    : result split_error unit :=
  fail_if (negb (is_ok (Validate source)) || negb (is_phase (Phase source) RangeServing)) ErrSplitChecksum;;
  fail_if (negb (EqualRangeDescriptor (snap_Source s) source) || negb (snap_Barrier s =? expectedBarrier)
           || negb (snap_SourceEpoch s =? expectedEpoch) || negb (expectedEpoch =? OwnerEpoch source)) ErrSplitGeneration;;
  fail_if (snap_Checksum s =? 0) ErrSplitChecksum;;
  validateSplitRows (snap_Rows s) (snap_Source s) (snap_Barrier s);;
  fail_if (negb (calculateChecksum s =? snap_Checksum s)) ErrSplitChecksum;;
  encoded ← splitSnapshotEncodedSize (snap_Source s) (snap_Rows s);
  fail_if (maxSplitSnapshotBytes <? encoded) split_backpressure.

Definition BuildSplitSnapshot (source : RangeDescriptor) (barrier sourceEpoch : Z) (rows : list Row)
    : result split_error SplitSnapshot :=
  fail_if (negb (is_ok (Validate source)) || negb (is_phase (Phase source) RangeServing) || (barrier =? 0)
           || (sourceEpoch =? 0) || negb (sourceEpoch =? OwnerEpoch source)) ErrSplitGeneration;;
  let ordered := sort_rows (cloneSplitRows rows) in
  validateSplitRows ordered source barrier;;
  let snapshot := mkSnapshot (Clone source) barrier sourceEpoch ordered 0 in
  let snapshot := mkSnapshot (Clone source) barrier sourceEpoch ordered (calculateChecksum snapshot) in
  size ← splitSnapshotEncodedSize source ordered;
  fail_if (maxSplitSnapshotBytes <? size) split_backpressure;;
  Ok snapshot.

(** ** Chunks *)

Definition chunkPayload : Z := maxSplitCopyChunkBytes - splitChunkHeaderBytes.
Definition maxChunks : Z := maxSplitSnapshotBytes / chunkPayload + 1.

Definition chunk_of (total index : Z) (part : bytes) : bytes :=
  lit "VBCP" ++ [x01] ++ be 4 total ++ be 4 index ++ be 4 (len part) ++ part.

(** The loop of [CopyChunks] over the bytes from [offset] on; each turn takes
    at least one byte, so the length of the payload is enough fuel. *)
Fixpoint copy_chunks (fuel : nat) (total index : Z) (rest : bytes) : list bytes :=
  match fuel, rest with
  | S fuel', _ :: _ =>
      chunk_of total index (take (Z.to_nat chunkPayload) rest)
      :: copy_chunks fuel' total (index + 1) (drop (Z.to_nat chunkPayload) rest)
  | _, _ => []
  end.

Definition CopyChunks (s : SplitSnapshot) : result split_error (list bytes) :=
  SplitSnapshot_Validate s (snap_Source s) (snap_Barrier s) (snap_SourceEpoch s);;
  let payload := encodeSplitSnapshot s in
  let total := (len payload + chunkPayload - 1) / chunkPayload in
  fail_if ((total =? 0) || (maxChunks <? total)) split_backpressure;;
  Ok (copy_chunks (length payload) total 0 payload).

(** ** The decoder *)

Definition split_take (length : Z) : Range.reader bytes := fun data =>
  if (length <? 0) || (len data <? length) then None
  else Some (sub data 0 length, drop (Z.to_nat length) data).

Definition split_byte : Range.reader byte := fun data =>
  '(value, data) ← split_take 1 data; Some (at_ value 0, data).

Definition split_u32 : Range.reader Z := fun data =>
  '(value, data) ← split_take 4 data; Some (un_be value, data).

Definition split_u64 : Range.reader Z := fun data =>
  '(value, data) ← split_take 8 data; Some (un_be value, data).

Definition split_bytes (max : Z) : Range.reader bytes := fun data =>
  '(length, data) ← split_u32 data;
  if uint32 max <? length then None else split_take length data.

Definition split_string (max : Z) : Range.reader bytes := fun data =>
  '(value, data) ← split_bytes max data;
  if utf8.Valid value then Some (value, data) else None.

(** The [End] field; a length of zero reads as nil ([append] onto a nil slice). *)
Definition split_end : Range.reader (option bytes) := fun data =>
  '(endMarker, data) ← split_u32 data;
  if endMarker =? max_uint32 then Some (None, data)
  else if maxRangeKeyBytes <? endMarker then None
  else '(end_, data) ← split_take endMarker data;
       Some (if endMarker =? 0 then None else Some end_, data).

Definition decodeRangeDescriptor : Range.reader RangeDescriptor := fun data =>
  '(rangeID, data) ← split_string maxRangeIDBytes data;
  '(start, data) ← split_bytes maxRangeKeyBytes data;
  '(end_, data) ← split_end data;
  '(generation, data) ← split_u64 data;
  '(ownerEpoch, data) ← split_u64 data;
  '(groupID, data) ← split_u64 data;
  '(phase, data) ← split_byte data;
  '(voterCount, data) ← split_u32 data;
  if negb (voterCount =? 3) then None
  else '(voters, data) ← Range.read_many 3 split_u64 data;
       let d := mkRange rangeID start end_ generation ownerEpoch groupID voters phase in
       if is_ok (Validate d) then Some (d, data) else None.

Definition decode_split_row : Range.reader Row := fun data =>
  '(table, data) ← split_string maxCommandTable data;
  '(key, data) ← split_string maxCommandKey data;
  '(version, data) ← split_take 16 data;
  '(sequence, data) ← split_u64 data;
  '(value, data) ← split_bytes maxSplitDeltaBytes data;
  Some (mkRow table key version sequence value, data).

(** A failed read of the decoder becomes the error [e]. *)
Definition or_error {A} (e : split_error) (m : option A) : result split_error A :=
  match m with Some a => Ok a | None => Fail e end.

Definition decodeSplitSnapshot (encoded : bytes) : result split_error SplitSnapshot :=
  fail_if ((len encoded <? 4 + 1 + 4) || negb (beq (sub encoded 0 4) (lit "VBS4"))) ErrSplitChecksum;;
  '(format, data) ← or_error ErrSplitChecksum (split_byte (drop 4 encoded));
  fail_if (negb (bool_decide (format = x01))) ErrSplitChecksum;;
  '(source, data) ← or_error ErrSplitChecksum (decodeRangeDescriptor data);
  '(barrier, data) ← or_error ErrSplitChecksum (split_u64 data);
  '(epoch, data) ← or_error ErrSplitChecksum (split_u64 data);
  '(count, data) ← or_error split_backpressure (split_u32 data);
  fail_if ((maxSplitRows <? count) || (len data / 16 <? count)) split_backpressure;;
  match splitRowValidationScratchMemoryCount count with
  | Fail _ => Fail split_backpressure
  | Ok scratch => fail_if (maxSplitValidationBytes <? scratch) split_backpressure
  end;;
  '(rows, data) ← or_error ErrSplitChecksum (Range.read_many (Z.to_nat count) decode_split_row data);
  fail_if (negb (len data =? 4)) ErrSplitChecksum;;
  '(checksum, data) ← or_error ErrSplitChecksum (split_u32 data);
  fail_if (negb (len data =? 0)) ErrSplitChecksum;;
  let snapshot := mkSnapshot source barrier epoch rows checksum in
  SplitSnapshot_Validate snapshot source barrier epoch;;
  Ok snapshot.

(** The chunk loop of [receiveSplitChunks]: the parts by index and the
    announced number of chunks, zero before the first chunk. *)
Fixpoint collect_chunks (chunks : list bytes) (parts : gmap Z bytes) (total : Z)
    : result split_error (gmap Z bytes * Z) :=
  match chunks with
  | [] => Ok (parts, total)
  | chunk :: chunks' =>
      fail_if ((len chunk <? splitChunkHeaderBytes) || (maxSplitCopyChunkBytes <? len chunk)
               || negb (beq (sub chunk 0 4) (lit "VBCP")) || negb (bool_decide (at_ chunk 4 = x01))) ErrSplitChecksum;;
      let chunkTotal := un_be (sub chunk 5 9) in
      let index := un_be (sub chunk 9 13) in
      let length := un_be (sub chunk 13 17) in
      fail_if ((chunkTotal =? 0) || (maxChunks <? chunkTotal) || (chunkTotal <=? index) || (uint32 chunkPayload <? length)
               || negb (length + splitChunkHeaderBytes =? len chunk)) ErrSplitChecksum;;
      total ← (if total =? 0 then Ok chunkTotal
               else if negb (total =? chunkTotal) then Fail ErrSplitChecksum else Ok total);
      let part := drop (Z.to_nat splitChunkHeaderBytes) chunk in
      match parts !! index with
      | Some previous =>
          if negb (beq previous part) then Fail ErrSplitChecksum else collect_chunks chunks' parts total
      | None => collect_chunks chunks' (<[index := part]> parts) total
      end
  end.

(** The sum of the part sizes, in the order the map is iterated. *)
Fixpoint parts_size (totalBytes : Z) (parts : list (Z * bytes)) : result split_error Z :=
  match parts with
  | [] => Ok totalBytes
  | (_, part) :: parts' =>
      match splitMemoryAdd totalBytes (len part) with
      | Fail _ => Fail split_backpressure
      | Ok totalBytes => fail_if (maxSplitSnapshotBytes <? totalBytes) split_backpressure;; parts_size totalBytes parts'
      end
  end.

(** The assembly loop from index [i] on, [n] indexes long. *)
Fixpoint assemble (n : nat) (i : Z) (parts : gmap Z bytes) : result split_error bytes :=
  match n with
  | O => Ok []
  | S n' =>
      match parts !! i with
      | None => Fail ErrSplitChecksum
      | Some part => rest ← assemble n' (i + 1) parts; Ok (part ++ rest)
      end
  end.

Definition receiveSplitChunks (chunks : list bytes) : result split_error SplitSnapshot :=
  fail_if ((len chunks =? 0) || (maxChunks <? len chunks)) ErrSplitChecksum;;
  '(parts, total) ← collect_chunks chunks ∅ 0;
  fail_if (negb (uint32 (Z.of_nat (size parts)) =? total)) ErrSplitChecksum;;
  parts_size 0 (map_to_list parts);;
  assembled ← assemble (Z.to_nat total) 0 parts;
  decodeSplitSnapshot assembled.

(** ** Deltas *)

Record SplitDelta : Type := mkDelta {
  delta_Sequence : Z;
  SourceRangeID : bytes;
  SourceStart : bytes;
  SourceEnd : bytes;
  SourceEndIsInfinity : bool;
  SourceGeneration : Z;
  SourceEpoch : Z;
  SourceOwnerEpoch : Z;
  SourceGroupID : Z;
  SourceVoters : list Z;
  SourceConfigFingerprint : bytes;
  SourcePhase : ServingPhase;
  delta_Command : Command;
  delta_Result : Result
}.

#[export] Instance SplitDelta_eq_dec : EqDecision SplitDelta.
Proof. solve_decision. Defined.

Definition splitConfigFingerprint (source : RangeDescriptor) : bytes := sha256.Sum256 (encodeRangeDescriptor source).

(** [cloneCommand] and [cloneSplitDelta] copy slices, which are immutable here. *)
Definition cloneCommand (c : Command) : Command :=
  mkCommand (OperationID c) (Table c) (Key c) (Value c) (Cond c) (Version c).
Definition cloneSplitDelta (d : SplitDelta) : SplitDelta :=
  mkDelta (delta_Sequence d) (SourceRangeID d) (SourceStart d) (SourceEnd d) (SourceEndIsInfinity d)
    (SourceGeneration d) (SourceEpoch d) (SourceOwnerEpoch d) (SourceGroupID d) (SourceVoters d)
    (SourceConfigFingerprint d) (SourcePhase d) (cloneCommand (delta_Command d)) (delta_Result d).

Definition splitDeltaFor (source : RangeDescriptor) (epoch sequence : Z) (command : Command) (r : Result) : SplitDelta :=
  mkDelta sequence (RangeID source) (Start source) (end_bytes source) (bool_decide (End_ source = None))
    (Generation source) epoch (OwnerEpoch source) (GroupID source) (Voters source)
    (splitConfigFingerprint source) (Phase source) (cloneCommand command) r.

(** The bytes under the digest of a delta, given its encoded command and result. *)
Definition delta_bytes (d : SplitDelta) (command r : bytes) : bytes :=
  putSplitString (SourceRangeID d) ++ putSplitBytes (SourceStart d)
  ++ (if SourceEndIsInfinity d then [x01] else x00 :: putSplitBytes (SourceEnd d))
  ++ be 8 (delta_Sequence d) ++ be 8 (SourceGeneration d) ++ be 8 (SourceEpoch d) ++ be 8 (SourceOwnerEpoch d)
  ++ be 8 (SourceGroupID d) ++ concat (map (be 8) (SourceVoters d)) ++ SourceConfigFingerprint d ++ [SourcePhase d]
  ++ command ++ r.

(** The digest; the error is not looked at by any caller. *)
Definition splitDeltaDigest (d : SplitDelta) : option bytes :=
  match EncodeCommand (delta_Command d), encodeResult (delta_Result d) with
  | Ok command, Ok r => Some (sha256.Sum256 (delta_bytes d command r))
  | _, _ => None
  end.

(** ** Budgets of snapshots and deltas *)

Fixpoint rows_memory (total : Z) (rows : list Row) : result split_error Z :=
  match rows with
  | [] => Ok total
  | row :: rows' =>
      rowBytes ← splitRowMemory row;
      total ← splitMemoryAdd total rowBytes;
      rows_memory total rows'
  end.

Definition splitSnapshotMemory (s : SplitSnapshot) : result split_error Z :=
  total ← splitMemorySum [splitDescriptorMemory (snap_Source s); int64 (len (snap_Rows s) * 64);
                          int64 (len (snap_Rows s) * splitMapEntryBytes)];
  rows_memory total (snap_Rows s).

Definition splitDeltaMemory (d : SplitDelta) : result split_error Z :=
  match EncodeCommand (delta_Command d), encodeResult (delta_Result d) with
  | Ok command, Ok r =>
      splitMemorySum [128; len (SourceRangeID d); len (SourceStart d); len (SourceEnd d);
                      int64 (len (SourceVoters d) * 8); len command; len r]
  | _, _ => Fail ErrSplitChecksum
  end.

Definition splitTransferScratchMemory (source : RangeDescriptor) (rows : list Row) : result split_error Z :=
  match splitSnapshotEncodedSize source rows with
  | Fail _ => Fail split_backpressure
  | Ok encoded =>
      fail_if (maxSplitSnapshotBytes <? encoded) split_backpressure;;
      let chunks := (encoded + maxSplitCopyChunkBytes - splitChunkHeaderBytes - 1) / (maxSplitCopyChunkBytes - splitChunkHeaderBytes) in
      chunkBytes ← splitMemoryMul chunks maxSplitCopyChunkBytes;
      validation ← splitRowValidationScratchMemoryCount (len rows);
      splitMemorySum [encoded; chunkBytes; validation; splitDescriptorMemory source]
  end.

Fixpoint deltas_memory (total : Z) (deltas : list SplitDelta) : result split_error Z :=
  match deltas with
  | [] => Ok total
  | d :: deltas' =>
      memory ← splitDeltaMemory d;
      match splitMemoryAdd total memory with
      | Fail _ => Fail split_backpressure
      | Ok total => fail_if (maxSplitRetainedBytes <? total) split_backpressure;; deltas_memory total deltas'
      end
  end.

Definition splitCatchUpScratchMemory (deltas : list SplitDelta) : result split_error Z :=
  fail_if (maxSplitDeltas <? len deltas) split_backpressure;;
  total ← splitMemoryMul (len deltas) splitMapEntryBytes;
  deltas_memory total deltas.

(** The key loop of [splitRowValidationScratchMemoryMap], over the keys in
    the order the map is iterated. *)
Fixpoint keys_memory (total : Z) (keys : list bytes) : result split_error Z :=
  match keys with
  | [] => Ok total
  | key :: keys' =>
      fail_if (maxCommandTable + maxCommandKey + 8 <? len key) ErrSplitChecksum;;
      match splitMemoryAdd total (len key) with
      | Fail _ => Fail split_backpressure
      | Ok total => fail_if (maxSplitValidationBytes <? total) split_backpressure;; keys_memory total keys'
      end
  end.

Definition splitRowValidationScratchMemoryMap (order : list bytes) : result split_error Z :=
  total ← splitRowValidationScratchMemoryCount (len order);
  keys_memory total order.

Definition splitRowsDigest (rows : gmap bytes Row) : bytes :=
  sha256.Sum256 (concat (map (fun kr =>
    putSplitString (fst kr) ++ row_Version (snd kr) ++ be 8 (row_Sequence (snd kr)) ++ putSplitBytes (row_Value (snd kr)))
    (sorted_members rows))).

(** ** Evidence *)

(** The [ConfState] message is reduced to its voters. *)
Record SplitTargetProof : Type := mkProof {
  proof_Source : RangeDescriptor;
  proof_Left : RangeDescriptor;
  proof_Right : RangeDescriptor;
  proof_Barrier : Z;
  FinalSequence : Z;
  SnapshotHash : bytes;
  LeftHash : bytes;
  RightHash : bytes;
  ConfState : option (list Z);
  Quorum : bool
}.

Definition same_shape (p : SplitTargetProof) : bool :=
  beq (end_bytes (proof_Left p)) (Start (proof_Right p)) && beq (Start (proof_Left p)) (Start (proof_Source p))
  && beq (end_bytes (proof_Right p)) (end_bytes (proof_Source p))
  && negb (beq (RangeID (proof_Left p)) (RangeID (proof_Right p)))
  && negb (beq (RangeID (proof_Source p)) (RangeID (proof_Left p)))
  && negb (beq (RangeID (proof_Source p)) (RangeID (proof_Right p))).

Definition SplitTargetProof_Validate (p : SplitTargetProof) : result split_error unit :=
  fail_if (negb (is_ok (Validate (proof_Source p))) || negb (is_phase (Phase (proof_Source p)) RangeServing)
           || (proof_Barrier p =? 0) || (FinalSequence p <? proof_Barrier p)) ErrSplitQuorum;;
  fail_if (negb (is_phase (Phase (proof_Left p)) RangeCatchingUp) || negb (is_phase (Phase (proof_Right p)) RangeCatchingUp)
           || negb (len (Voters (proof_Left p)) =? 3) || negb (equalUint64 (Voters (proof_Left p)) (Voters (proof_Source p)))
           || negb (equalUint64 (Voters (proof_Right p)) (Voters (proof_Source p)))) ErrSplitQuorum;;
  fail_if (negb (same_shape p)) ErrSplitQuorum;;
  match ConfState p with
  | None => Fail ErrSplitQuorum
  | Some voters => fail_if (negb (equalUint64 voters (Voters (proof_Source p))) || negb (Quorum p)) ErrSplitQuorum
  end.

Definition ValidateShape (p : SplitTargetProof) : result split_error unit :=
  fail_if (negb (is_ok (Validate (proof_Source p))) || negb (is_phase (Phase (proof_Source p)) RangeServing)
           || (proof_Barrier p =? 0) || (FinalSequence p <? proof_Barrier p)) ErrSplitQuorum;;
  fail_if (negb (is_phase (Phase (proof_Left p)) RangeCatchingUp) || negb (is_phase (Phase (proof_Right p)) RangeCatchingUp)
           || negb (equalUint64 (Voters (proof_Left p)) (Voters (proof_Source p)))
           || negb (equalUint64 (Voters (proof_Right p)) (Voters (proof_Source p)))) ErrSplitQuorum;;
  fail_if (negb (same_shape p)) ErrSplitQuorum.

Definition ValidateWithoutConfState (p : SplitTargetProof) (voters : list Z) : result split_error unit :=
  ValidateShape p;;
  fail_if (negb (equalUint64 voters (Voters (proof_Source p)))) ErrSplitQuorum.

(** ** Recovery markers *)

Record SplitRecoveryManifest : Type := mkRecovery {
  rec_Generation : Z;
  rec_Source : RangeDescriptor;
  rec_Barrier : Z;
  rec_SnapshotChecksum : Z;
  CatalogVersion : Z;
  rec_Digest : bytes;
  Complete : bool
}.

Definition SplitRecoveryManifest_Validate (m : SplitRecoveryManifest) : result split_error unit :=
  fail_if (negb (Complete m)) ErrSplitPending;;
  fail_if ((rec_Generation m =? 0) || (rec_Barrier m =? 0) || (rec_SnapshotChecksum m =? 0) || (CatalogVersion m =? 0)
           || beq (rec_Digest m) (replicate 32 x00)) ErrSplitChecksum;;
  fail_if (negb (is_ok (Validate (rec_Source m))) || is_phase (Phase (rec_Source m)) RangeRetired) ErrSplitGeneration.

Definition RecoverSplitGeneration (m : SplitRecoveryManifest) : result split_error unit := SplitRecoveryManifest_Validate m.

Definition ValidateRecoveryCatalog (c : option RangeCatalog) (voters : list Z) : result range_error unit :=
  match c with
  | None => Fail ErrCatalogCorrupt
  | Some _ => fail_if (Range.Version c =? 0) ErrCatalogCorrupt;; ValidateAgainstVoters c voters
  end.

Definition IsCompleteSplitGeneration (m : SplitRecoveryManifest) : bool := is_ok (SplitRecoveryManifest_Validate m).
End split_types.
