(* ===== verification/SplitCodec.v ===== *)
(** The transfer of a split snapshot: what its validation establishes, the
    round trip through its binary image, and the reassembly of its chunks in
    any order and with repetitions. *)

From Stdlib Require Import ZArith Lia Sorting.Sorted.
From stdpp Require Import base list gmap sorting.
From S2P Require Import Prelude GoStd Uuidv7 Coordinates Range Command State Snapshot SplitTypes.

Local Open Scope Z_scope.

(** ** Budget arithmetic *)

Definition sum_Z (l : list Z) : Z := fold_right Z.add 0 l.

Lemma splitMemoryAdd_Ok a b c : splitMemoryAdd a b = Ok c <-> 0 <= a /\ 0 <= b /\ a + b <= max_int64 /\ c = a + b.
Proof.
  unfold splitMemoryAdd. split.
  - intros H. inv_res. bool_to_prop. lia.
  - intros (? & ? & ? & ->). rewrite fail_if_false; [done|].
    apply orb_false_iff. rewrite orb_false_iff. split_and!; apply Z.ltb_ge; lia.
Qed.

Lemma memory_sum_Ok values : forall total r, 0 <= total ->
  memory_sum total values = Ok r <->
  Forall (fun v => 0 <= v) values /\ r = total + sum_Z values /\ (values = [] \/ total + sum_Z values <= max_int64).
Proof.
  induction values as [|v values IH]; intros total r Ht; cbn [memory_sum sum_Z fold_right].
  - split; [intros [= <-]|intros (_ & -> & _)]; [|f_equal; lia]. split_and!; [constructor|lia|by left].
  - fold (sum_Z values). rewrite bind_Ok. split.
    + intros (t & (Ha & Hv & Hm & ->)%splitMemoryAdd_Ok & H). apply IH in H as (Hf & -> & Hb); [|lia].
      split_and!; [by constructor|lia|]. right. destruct Hb as [->|]; [cbn in *; lia|lia].
    + intros ([Hv Hf]%Forall_cons & -> & [|Hb]); [done|].
      assert (0 <= sum_Z values) as Hs.
      { clear -Hf. induction Hf; cbn [sum_Z fold_right]; [done|]. fold (sum_Z l). lia. }
      exists (total + v). split; [apply splitMemoryAdd_Ok; lia|]. apply IH; [lia|]. split_and!; [done|lia|right; lia].
Qed.

Lemma splitMemorySum_Ok values r :
  splitMemorySum values = Ok r -> Forall (fun v => 0 <= v) values /\ r = sum_Z values.
Proof. intros (? & -> & _)%memory_sum_Ok; [|done]. split; [done|lia]. Qed.

(** ** What validation establishes *)

Definition snapshot_width (s : SplitSnapshot) : Prop :=
  desc_width (snap_Source s) /\ is_u64 (snap_Barrier s) /\ is_u64 (snap_SourceEpoch s)
  /\ is_u32 (snap_Checksum s) /\ Forall (fun r => is_u64 (row_Sequence r)) (snap_Rows s).

Lemma len_encodeRangeDescriptor_bound d : Validate d = Ok tt -> len (encodeRangeDescriptor d) <= 2 ^ 12.
Proof.
  intros Hv. destruct (Validate_bounds d Hv) as (_ & Hid & Hs & He & Hlen).
  unfold encodeRangeDescriptor, putSplitString, putSplitBytes. rewrite !len_app, !len_be.
  assert (len (concat (map (be 8) (Voters d))) = 8 * len (Voters d)) as ->.
  { clear. induction (Voters d) as [|v l IH]; [done|]. cbn [map concat]. rewrite len_app, len_be, IH, len_cons. lia. }
  unfold end_bytes in He. rewrite Hlen. change (len [Phase d]) with 1. unfold maxRangeIDBytes, maxRangeKeyBytes in *.
  destruct (End_ d) as [e|]; rewrite ?len_app, ?len_be; [change (len e <= 1024) in He|]; lia.
Qed.

Section codec.
Context {canon : Canonicalizer}.

(** What [validateSplitRows] asks of one row. *)
Definition split_row_ok (source : RangeDescriptor) (barrier : Z) (r : Row) : Prop :=
  validTable (row_Table r) = true /\ validKey (row_Key r) = true /\ Contains source (row_Key r) = true
  /\ row_Sequence r <> 0 /\ row_Sequence r <= barrier /\ len (row_Value r) <= maxSplitDeltaBytes
  /\ canonical_value (row_Value r) = true /\ is_ok (UUIDFromBytes (row_Version r)) = true.

Definition row_coordinate (r : Row) : bytes := splitRowID (row_Table r) (row_Key r).

Definition row_size (row : Row) : Z :=
  4 + len (row_Table row) + 4 + len (row_Key row) + 16 + 8 + 4 + len (row_Value row).

Lemma check_split_rows_Ok source barrier rows : forall size versions sequences coordinates,
  check_split_rows source barrier rows size versions sequences coordinates = Ok tt ->
  Forall (split_row_ok source barrier) rows
  /\ NoDup (map row_Version rows) /\ (forall v, v ∈ map row_Version rows -> v ∉ versions)
  /\ NoDup (map row_Sequence rows) /\ (forall v, v ∈ map row_Sequence rows -> v ∉ sequences)
  /\ NoDup (map row_coordinate rows) /\ (forall v, v ∈ map row_coordinate rows -> v ∉ coordinates)
  /\ (rows = [] \/ size + sum_Z (map row_size rows) <= maxSplitSnapshotBytes - 4).
Proof.
  induction rows as [|row rows IH]; intros size versions sequences coordinates H.
  { cbn [map]. split_and!; try (intros ? ?%elem_of_nil; done); by constructor. }
  cbn [check_split_rows] in H. inv_res. bool_to_prop.
  apply IH in H as (Hf & Hv1 & Hv2 & Hs1 & Hs2 & Hc1 & Hc2 & Hb).
  assert (Forall (split_row_ok source barrier) (row :: rows)) as Hall by (constructor; [|done]; unfold split_row_ok; by split_and!).
  cbn [map]. split_and!; [done|..].
  - constructor; [|done]. intros Hin. apply (Hv2 _ Hin). set_solver.
  - intros v [->|Hin]%elem_of_cons; [done|]. specialize (Hv2 _ Hin). set_solver.
  - constructor; [|done]. intros Hin. apply (Hs2 _ Hin). set_solver.
  - intros v [->|Hin]%elem_of_cons; [done|]. specialize (Hs2 _ Hin). set_solver.
  - constructor; [|done]. intros Hin. apply (Hc2 _ Hin). unfold row_coordinate. set_solver.
  - intros v [->|Hin]%elem_of_cons; [done|]. specialize (Hc2 _ Hin). set_solver.
  - right. unfold sum_Z. cbn [fold_right]. fold (sum_Z (map row_size rows)).
    unfold row_size at 1. destruct Hb as [->|Hb]; [cbn [map sum_Z fold_right]|]; lia.
Qed.

Lemma len_split_row_bytes row : is_ok (UUIDFromBytes (row_Version row)) = true -> len (split_row_bytes row) = row_size row.
Proof.
  intros [Hv _]%UUIDFromBytes_is_ok. unfold split_row_bytes, putSplitString, putSplitBytes, row_size.
  rewrite !len_app, !len_be. unfold len at 3. rewrite Hv. lia.
Qed.

Lemma len_split_rows rows : Forall (fun r => is_ok (UUIDFromBytes (row_Version r)) = true) rows ->
  len (concat (map split_row_bytes rows)) = sum_Z (map row_size rows).
Proof.
  induction 1 as [|r rows Hr _ IH]; [done|]. cbn [map concat sum_Z fold_right]. rewrite len_app, IH, len_split_row_bytes by done.
  done.
Qed.

Lemma rows_encoded_size_Ok rows : forall size n,
  rows_encoded_size size rows = Ok n -> n = size + sum_Z (map row_size rows).
Proof.
  induction rows as [|r rows IH]; intros size n H; cbn [rows_encoded_size] in H.
  - injection H as <-. cbn. lia.
  - inv_res. apply splitMemorySum_Ok in Hr as [_ ->]. apply IH in H as ->.
    cbn [map sum_Z fold_right]. fold (sum_Z (map row_size rows)). set (q := sum_Z _). unfold row_size. lia.
Qed.

(** The size the budget uses is four bytes more than the image: the checksum
    is counted in the base size and again at the end. *)
Lemma splitSnapshotEncodedSize_Ok s n :
  Forall (fun r => is_ok (UUIDFromBytes (row_Version r)) = true) (snap_Rows s) ->
  splitSnapshotEncodedSize (snap_Source s) (snap_Rows s) = Ok n -> n = len (encodeSplitSnapshot s) + 4.
Proof.
  intros Hf H. unfold splitSnapshotEncodedSize, splitSnapshotBaseEncodedSize in H. inv_res.
  apply splitMemorySum_Ok in Hr as [_ ->]. apply rows_encoded_size_Ok in Hr0 as ->.
  apply splitMemoryAdd_Ok in H as (_ & _ & _ & ->).
  unfold encodeSplitSnapshot, encodeSplitSnapshotBody. rewrite !len_app, !len_be, len_split_rows by done.
  change (len (lit "VBS4")) with 4. change (len [x01]) with 1. cbn [sum_Z fold_right]. lia.
Qed.

Lemma validateSplitRows_Ok rows source barrier :
  validateSplitRows rows source barrier = Ok tt ->
  len rows <= maxSplitRows /\ Forall (split_row_ok source barrier) rows /\ NoDup (map row_Version rows)
  /\ NoDup (map row_Sequence rows) /\ NoDup (map row_coordinate rows) /\ rows_in_order rows = true
  /\ (exists scratch, splitRowValidationScratchMemoryCount (len rows) = Ok scratch /\ scratch <= maxSplitValidationBytes).
Proof.
  unfold validateSplitRows. intros H. inv_res. bool_to_prop.
  apply check_split_rows_Ok in Hr1 as (Hf & Hv & _ & Hs & _ & Hc & _ & _).
  destruct (splitRowValidationScratchMemoryCount (len rows)) as [scratch|] eqn:Hm; [|done].
  inv_res. bool_to_prop. split_and!; eauto.
Qed.

(** The facts a validated snapshot carries. *)
Record snapshot_valid (s : SplitSnapshot) : Prop := {
  sv_source : Validate (snap_Source s) = Ok tt;
  sv_serving : Phase (snap_Source s) = RangeServing;
  sv_epoch : snap_SourceEpoch s = OwnerEpoch (snap_Source s);
  sv_checksum : calculateChecksum s = snap_Checksum s;
  sv_rows : validateSplitRows (snap_Rows s) (snap_Source s) (snap_Barrier s) = Ok tt;
  sv_size : len (encodeSplitSnapshot s) + 4 <= maxSplitSnapshotBytes
}.

Definition self_valid (s : SplitSnapshot) : Prop :=
  SplitSnapshot_Validate s (snap_Source s) (snap_Barrier s) (snap_SourceEpoch s) = Ok tt.

Lemma is_ok_unit {E} (m : result E unit) : is_ok m = true <-> m = Ok tt.
Proof. destruct m as [[]|]; done. Qed.

Lemma self_valid_valid s : self_valid s -> snapshot_valid s.
Proof.
  unfold self_valid, SplitSnapshot_Validate. intros H. inv_res. bool_to_prop.
  match goal with Hv : is_ok (Validate _) = true |- _ => apply is_ok_unit in Hv end.
  pose proof (validateSplitRows_Ok _ _ _ Hr2) as (_ & Hf & _).
  assert (Forall (fun r => is_ok (UUIDFromBytes (row_Version r)) = true) (snap_Rows s)) as Hu.
  { eapply Forall_impl; [exact Hf|]. intros r Hr'. apply Hr'. }
  apply splitSnapshotEncodedSize_Ok in Hr4; [|done].
  constructor; try done; [|lia]. unfold is_phase in *. bool_to_prop. done.
Qed.

(** ** The decoder reads back what the encoder writes *)

Lemma split_take_app v rest n : n = len v -> split_take n (v ++ rest) = Some (v, rest).
Proof.
  intros ->. unfold split_take. pose proof (len_nonneg v). pose proof (len_nonneg rest). rewrite len_app.
  replace (_ || _) with false by (symmetry; apply orb_false_iff; split; apply Z.ltb_ge; lia).
  rewrite sub_app_head by done. by rewrite len_to_nat, drop_app_length.
Qed.

Lemma split_u64_be z rest : is_u64 z -> split_u64 (be 8 z ++ rest) = Some (z, rest).
Proof.
  unfold is_u64, max_uint64. intros Hz. unfold split_u64. rewrite split_take_app by (rewrite len_be; done).
  cbn [mbind option_bind]. rewrite un_be_be_small by (cbn; lia). done.
Qed.

Lemma split_u32_be z rest : is_u32 z -> split_u32 (be 4 z ++ rest) = Some (z, rest).
Proof.
  unfold is_u32, max_uint32. intros Hz. unfold split_u32. rewrite split_take_app by (rewrite len_be; done).
  cbn [mbind option_bind]. rewrite un_be_be_small by (cbn; lia). done.
Qed.

Lemma split_byte_cons b rest : split_byte (b :: rest) = Some (b, rest).
Proof. unfold split_byte. change (b :: rest) with ([b] ++ rest). by rewrite split_take_app. Qed.

Lemma split_bytes_put max v rest : 0 <= max < 2 ^ 32 -> len v <= max -> split_bytes max (putSplitBytes v ++ rest) = Some (v, rest).
Proof.
  intros Hm Hv. unfold split_bytes, putSplitBytes. pose proof (len_nonneg v).
  rewrite <- app_assoc, split_u32_be by (unfold is_u32, max_uint32; lia). cbn [mbind option_bind].
  unfold uint32. rewrite Z.mod_small by lia. rewrite (proj2 (Z.ltb_ge _ _)) by lia. by apply split_take_app.
Qed.

Lemma split_string_put max v rest : 0 <= max < 2 ^ 32 -> len v <= max -> utf8.Valid v = true ->
  split_string max (putSplitString v ++ rest) = Some (v, rest).
Proof. intros Hm Hv Hu. unfold split_string, putSplitString. rewrite split_bytes_put by done. cbn [mbind option_bind]. by rewrite Hu. Qed.

Lemma split_end_put d rest : Validate d = Ok tt ->
  split_end ((match End_ d with None => be 4 max_uint32 | Some e => putSplitBytes e end) ++ rest) = Some (End_ d, rest).
Proof.
  intros Hv. destruct (Validate_bounds d Hv) as (_ & _ & _ & He & _). pose proof (Validate_span d Hv) as Hspan.
  unfold split_end, end_bytes, span_ok, maxRangeKeyBytes in *. destruct (End_ d) as [e|].
  - change (len e <= 1024) in He. pose proof (len_nonneg e). unfold putSplitBytes.
    rewrite <- app_assoc, split_u32_be by (unfold is_u32, max_uint32; lia). cbn [mbind option_bind].
    rewrite (proj2 (Z.eqb_neq _ max_uint32)) by (unfold max_uint32; lia). rewrite (proj2 (Z.ltb_ge _ _)) by lia.
    rewrite split_take_app by done. cbn [mbind option_bind].
    rewrite (proj2 (Z.eqb_neq (len e) 0)); [done|]. intros ->%len_zero_nil. by destruct (Start d).
  - rewrite split_u32_be by (unfold is_u32, max_uint32; lia). done.
Qed.

Lemma split_many_be8 l rest : Forall is_u64 l ->
  Range.read_many (length l) split_u64 (concat (map (be 8) l) ++ rest) = Some (l, rest).
Proof.
  induction 1 as [|z l Hz _ IH]; [done|]. cbn [length Range.read_many map concat].
  rewrite <- app_assoc, split_u64_be by done. cbn [mbind option_bind]. by rewrite IH.
Qed.

Lemma decodeRangeDescriptor_encode d rest :
  Validate d = Ok tt -> desc_width d -> decodeRangeDescriptor (encodeRangeDescriptor d ++ rest) = Some (d, rest).
Proof.
  intros Hv (Hg & Ho & Hgr & Hvo). destruct (Validate_bounds d Hv) as (_ & Hid & Hs & He & Hlen).
  unfold decodeRangeDescriptor, encodeRangeDescriptor. rewrite <- !app_assoc. unfold maxRangeIDBytes, maxRangeKeyBytes in *.
  rewrite split_string_put; [|lia|lia|].
  2:{ unfold Validate in Hv. inv_res. bool_to_prop. done. }
  cbn [mbind option_bind]. rewrite split_bytes_put by lia. cbn [mbind option_bind].
  rewrite split_end_put by done. cbn [mbind option_bind].
  do 3 (rewrite split_u64_be by done; cbn [mbind option_bind]).
  cbn [app]. rewrite split_byte_cons. cbn [mbind option_bind].
  rewrite split_u32_be by (rewrite Hlen; unfold is_u32, max_uint32; lia). cbn [mbind option_bind].
  rewrite Hlen. cbn [Z.eqb Pos.eqb negb].
  pose proof (split_many_be8 (Voters d) rest Hvo) as Hm.
  replace (length (Voters d)) with 3%nat in Hm by (unfold len in Hlen; lia). rewrite Hm.
  cbn [mbind option_bind]. destruct d; cbn in *. by rewrite Hv.
Qed.

Lemma Row_eta r : mkRow (row_Table r) (row_Key r) (row_Version r) (row_Sequence r) (row_Value r) = r.
Proof. by destruct r. Qed.

Lemma decode_split_row_encode source barrier r rest :
  split_row_ok source barrier r -> is_u64 (row_Sequence r) ->
  decode_split_row (split_row_bytes r ++ rest) = Some (r, rest).
Proof.
  intros (Ht & Hk & _ & _ & _ & Hl & _ & [Hv _]%UUIDFromBytes_is_ok) Hs.
  pose proof (validTable_len _ Ht). pose proof (validKey_len _ Hk).
  unfold decode_split_row, split_row_bytes. rewrite <- !app_assoc.
  assert (utf8.Valid (row_Table r) = true) as Hut.
  { apply ascii_utf8. eapply Forall_impl; [apply ValidTable_ascii, Ht|]. cbn. lia. }
  assert (utf8.Valid (row_Key r) = true) as Huk by (apply ValidKey_spec in Hk; tauto).
  rewrite split_string_put; [|done|lia|done]. cbn [mbind option_bind].
  rewrite split_string_put; [|done|lia|done]. cbn [mbind option_bind].
  rewrite split_take_app by (unfold len; lia). cbn [mbind option_bind].
  rewrite split_u64_be by done. cbn [mbind option_bind].
  rewrite split_bytes_put; [|done|done]. cbn [mbind option_bind]. by rewrite Row_eta.
Qed.

Lemma decode_split_rows_encode source barrier rows rest :
  Forall (split_row_ok source barrier) rows -> Forall (fun r => is_u64 (row_Sequence r)) rows ->
  Range.read_many (length rows) decode_split_row (concat (map split_row_bytes rows) ++ rest) = Some (rows, rest).
Proof.
  induction rows as [|r rows IH]; intros H1 H2; [done|]. apply Forall_cons in H1 as [Hr H1], H2 as [Hs H2].
  cbn [length Range.read_many map concat]. rewrite <- app_assoc.
  erewrite decode_split_row_encode by done. cbn [mbind option_bind]. by rewrite IH.
Qed.

Lemma row_size_lower r : 36 <= row_size r.
Proof. unfold row_size. pose proof (len_nonneg (row_Table r)). pose proof (len_nonneg (row_Key r)). pose proof (len_nonneg (row_Value r)). lia. Qed.

Lemma rows_bytes_lower source barrier rows : Forall (split_row_ok source barrier) rows ->
  36 * len rows <= len (concat (map split_row_bytes rows)).
Proof.
  intros H. rewrite len_split_rows by (eapply Forall_impl; [exact H|]; intros r Hr; apply Hr). clear H.
  induction rows as [|r rows IH]; [done|]. cbn [map sum_Z fold_right]. fold (sum_Z (map row_size rows)).
  rewrite len_cons. pose proof (row_size_lower r). lia.
Qed.

Lemma decodeSplitSnapshot_encode s : self_valid s -> snapshot_width s -> decodeSplitSnapshot (encodeSplitSnapshot s) = Ok s.
Proof.
  intros Hself (Hwd & Hwb & Hwe & Hwc & Hwr). destruct (self_valid_valid s Hself) as [Hsrc _ _ _ Hrows _].
  apply validateSplitRows_Ok in Hrows as (Hn & Hf & _ & _ & _ & _ & scratch & Hm & Hsc).
  pose proof (rows_bytes_lower _ _ _ Hf) as Hlow. pose proof (len_nonneg (snap_Rows s)).
  unfold decodeSplitSnapshot, encodeSplitSnapshot, encodeSplitSnapshotBody. rewrite <- !app_assoc.
  rewrite fail_if_false.
  2:{ rewrite sub_app_head by done. rewrite beq_refl, orb_false_r. apply Z.ltb_ge. rewrite !len_app, !len_be.
      change (len (lit "VBS4")) with 4. pose proof (len_nonneg (encodeRangeDescriptor (snap_Source s))).
      pose proof (len_nonneg (concat (map split_row_bytes (snap_Rows s)))). change (len [x01]) with 1. lia. }
  rewrite drop_app_head by done. cbn [app]. rewrite split_byte_cons. cbn [or_error mbind result_bind].
  rewrite fail_if_false by done. rewrite decodeRangeDescriptor_encode by done. cbn [or_error mbind result_bind].
  do 2 (rewrite split_u64_be by done; cbn [or_error mbind result_bind]). unfold maxSplitRows in Hn.
  rewrite split_u32_be by (unfold is_u32, max_uint32; lia). cbn [or_error mbind result_bind].
  rewrite fail_if_false.
  2:{ apply orb_false_iff. split; apply Z.ltb_ge; [done|]. apply Z.div_le_lower_bound; [lia|]. rewrite len_app, len_be. lia. }
  rewrite Hm. rewrite fail_if_false by (apply Z.ltb_ge; done). rewrite len_to_nat.
  erewrite decode_split_rows_encode by done. cbn [or_error mbind result_bind].
  rewrite fail_if_false by (rewrite len_be; done).
  rewrite <- (app_nil_r (be 4 (snap_Checksum s))), split_u32_be by done. cbn [or_error mbind result_bind].
  rewrite fail_if_false by done. unfold self_valid in Hself. destruct s; cbn in *. by rewrite Hself.
Qed.

(** ** Chunks *)

Lemma chunk_fields total index part (c := chunk_of total index part) :
  0 < total <= maxChunks -> 0 <= index < total -> len part <= chunkPayload ->
  len c = len part + 17 /\ sub c 0 4 = lit "VBCP" /\ at_ c 4 = x01 /\ un_be (sub c 5 9) = total
  /\ un_be (sub c 9 13) = index /\ un_be (sub c 13 17) = len part /\ drop 17 c = part.
Proof.
  intros Ht Hi Hp. change maxChunks with 129 in Ht. change chunkPayload with 65519 in Hp. pose proof (len_nonneg part).
  assert (forall z, len (be 4 z) = 4) as H4 by (intros; by rewrite len_be).
  unfold c, chunk_of. split_and!.
  - rewrite !len_app, !H4. change (len (lit "VBCP")) with 4. change (len [x01]) with 1. lia.
  - by rewrite sub_app_head.
  - done.
  - rewrite sub_skip by done. change (len (lit "VBCP")) with 4. rewrite sub_skip by done. change (len [x01]) with 1.
    rewrite sub_field, un_be_be_small by (rewrite ?H4; cbn; lia). done.
  - rewrite sub_skip by done. change (len (lit "VBCP")) with 4. rewrite sub_skip by done. change (len [x01]) with 1.
    rewrite sub_skip by (rewrite H4; lia). rewrite H4. rewrite sub_field, un_be_be_small by (rewrite ?H4; cbn; lia). done.
  - rewrite sub_skip by done. change (len (lit "VBCP")) with 4. rewrite sub_skip by done. change (len [x01]) with 1.
    do 2 (rewrite sub_skip by (rewrite H4; lia); rewrite H4).
    rewrite sub_field, un_be_be_small by (rewrite ?H4; cbn; lia). done.
  - rewrite !app_assoc. rewrite drop_app_head; [done|]. rewrite !length_app, !length_be. done.
Qed.

(** The payloads of the chunks. *)
Fixpoint split_parts (fuel : nat) (rest : bytes) : list bytes :=
  match fuel, rest with
  | S fuel', _ :: _ => take (Z.to_nat chunkPayload) rest :: split_parts fuel' (drop (Z.to_nat chunkPayload) rest)
  | _, _ => []
  end.

Lemma elem_of_copy_chunks c total fuel : forall i rest,
  c ∈ copy_chunks fuel total i rest <->
  exists j p, split_parts fuel rest !! j = Some p /\ c = chunk_of total (i + Z.of_nat j) p.
Proof.
  induction fuel as [|fuel IH]; intros i [|b rest]; cbn [copy_chunks split_parts].
  1-3: split; [by intros ?%elem_of_nil|]; intros (j & p & Hj & _); by destruct j.
  rewrite elem_of_cons, IH. split.
  - intros [->|(j & p & Hj & ->)].
    + exists 0%nat. eexists. split; [done|]. f_equal. lia.
    + exists (S j), p. split; [done|]. f_equal. lia.
  - intros ([|j] & p & Hj & ->); cbn [lookup list_lookup] in Hj.
    + apply (inj Some) in Hj as <-. left. f_equal. lia.
    + right. exists j, p. split; [done|]. f_equal. lia.
Qed.

Lemma chunkPayload_nat : (0 < Z.to_nat chunkPayload)%nat.
Proof. change (Z.to_nat chunkPayload) with (Z.to_nat 65519). lia. Qed.

Lemma split_parts_spec fuel : forall rest, (length rest <= fuel)%nat ->
  concat (split_parts fuel rest) = rest /\ Forall (fun p => len p <= chunkPayload) (split_parts fuel rest)
  /\ len (split_parts fuel rest) = (len rest + chunkPayload - 1) / chunkPayload.
Proof.
  assert (0 < chunkPayload) as HP by (change chunkPayload with 65519; lia).
  pose proof chunkPayload_nat as Hn. assert (Z.of_nat (Z.to_nat chunkPayload) = chunkPayload) as Hz by lia.
  set (n := Z.to_nat chunkPayload) in *.
  induction fuel as [|fuel IH]; intros [|b rest] Hl; cbn [split_parts length] in *; try lia.
  1-2: split_and!; [done|by apply Forall_nil|]; rewrite !len_nil; symmetry; apply Z.div_small; change (len (@nil byte)) with 0; lia.
  fold n. destruct (IH (drop n (b :: rest))) as (Hc & Hf & Hlen).
  { rewrite length_drop. cbn [length]. lia. }
  split_and!.
  - cbn [concat]. rewrite Hc. apply take_drop.
  - constructor; [|done]. unfold len. rewrite length_take. lia.
  - rewrite len_cons, Hlen. unfold len. rewrite length_drop. set (m := length (b :: rest)).
    assert (0 < m)%nat by (cbn; lia). destruct (Nat.le_gt_cases n m) as [Hle|Hgt].
    + rewrite Nat2Z.inj_sub by done. rewrite Hz.
      replace (Z.of_nat m + chunkPayload - 1) with ((Z.of_nat m - chunkPayload + chunkPayload - 1) + 1 * chunkPayload) by lia.
      rewrite Z.div_add by lia. lia.
    + replace (m - n)%nat with 0%nat by lia. rewrite Z.div_small by (cbn; lia).
      apply Z.div_unique with (Z.of_nat m - 1); lia.
Qed.

Section receive.
Context (parts : list bytes) (total : Z).
Context (Htotal : total = len parts) (Hrange : 0 < total <= maxChunks).
Context (Hparts : Forall (fun p => len p <= chunkPayload) parts).

Definition is_chunk (c : bytes) : Prop := exists j p, parts !! j = Some p /\ c = chunk_of total (Z.of_nat j) p.

Lemma collect_chunks_ok received : forall m t,
  Forall is_chunk received -> m ⊆ (map_seqZ 0 parts : gmap Z bytes) -> t = 0 \/ t = total ->
  exists m', collect_chunks received m t = Ok (m', if bool_decide (received = []) then t else total)
    /\ m ⊆ m' /\ m' ⊆ map_seqZ 0 parts
    /\ (forall j p, parts !! j = Some p -> chunk_of total (Z.of_nat j) p ∈ received -> m' !! Z.of_nat j = Some p).
Proof.
  induction received as [|c received IH]; intros m t Hf Hm Ht.
  { exists m. split_and!; [done..|]. intros ? ? ? ?%elem_of_nil. done. }
  apply Forall_cons in Hf as [(j & p & Hj & Hc) Hf]. subst c. rewrite Forall_forall in Hparts.
  assert (len p <= chunkPayload) as Hp by (eapply Hparts, list_elem_of_lookup_2; exact Hj).
  assert (0 <= Z.of_nat j < total) as Hjt.
  { rewrite Htotal. unfold len. apply lookup_lt_Some in Hj. lia. }
  destruct (chunk_fields total (Z.of_nat j) p Hrange Hjt Hp) as (E1 & E2 & E3 & E4 & E5 & E6 & E7).
  assert ((map_seqZ 0 parts : gmap Z bytes) !! Z.of_nat j = Some p) as Hjm.
  { apply lookup_map_seqZ_Some. split; [lia|]. by rewrite Z.sub_0_r, Nat2Z.id. }
  pose proof (len_nonneg p). change chunkPayload with 65519 in *.
  set (c := chunk_of total (Z.of_nat j) p) in *. cbn [collect_chunks].
  rewrite E1, E2, E3, beq_refl. change splitChunkHeaderBytes with 17. change maxSplitCopyChunkBytes with 65536.
  rewrite fail_if_false.
  2:{ rewrite !orb_false_iff. split_and!; [apply Z.ltb_ge; lia..|done|done]. }
  rewrite E4, E5, E6. change (uint32 chunkPayload) with 65519. rewrite fail_if_false.
  2:{ rewrite !orb_false_iff. split_and!; try (apply Z.eqb_neq; lia); try (apply Z.ltb_ge; lia); [apply Z.leb_gt; lia|].
      apply negb_false_iff, Z.eqb_eq. lia. }
  replace (if t =? 0 then _ else _) with (Ok total : result split_error Z).
  2:{ destruct Ht as [->| ->]; [done|]. rewrite (proj2 (Z.eqb_neq total 0)) by lia. by rewrite Z.eqb_refl. }
  cbn [mbind result_bind]. change (Z.to_nat 17) with 17%nat. rewrite E7. clear E1 E2 E3 E4 E5 E6 E7.
  assert (forall m1, m ⊆ m1 -> m1 ⊆ (map_seqZ 0 parts : gmap Z bytes) -> m1 !! Z.of_nat j = Some p ->
    exists m', collect_chunks received m1 total = Ok (m', total)
      /\ m ⊆ m' /\ m' ⊆ map_seqZ 0 parts
      /\ (forall j p, parts !! j = Some p -> chunk_of total (Z.of_nat j) p ∈ c :: received -> m' !! Z.of_nat j = Some p)) as Hnext.
  { intros m1 H1 H2 H3. destruct (IH m1 total Hf H2 ltac:(by right)) as (m' & Hm' & Hs1 & Hs2 & Hin).
    exists m'. split_and!.
    - rewrite Hm'. by destruct (bool_decide (received = [])).
    - by etrans.
    - done.
    - intros j' p' Hj' [Heq|?]%elem_of_cons; [|by apply Hin].
      assert (0 <= Z.of_nat j' < total) by (rewrite Htotal; unfold len; apply lookup_lt_Some in Hj'; lia).
      assert (len p' <= 65519) by (eapply Hparts, list_elem_of_lookup_2; exact Hj').
      destruct (chunk_fields total (Z.of_nat j') p') as (_ & _ & _ & _ & F & _ & G); [lia|lia|assumption|].
      destruct (chunk_fields total (Z.of_nat j) p) as (_ & _ & _ & _ & F' & _ & G'); [lia|lia|assumption|].
      rewrite Heq in F, G. fold c in F', G'. rewrite F' in F. rewrite G' in G. subst p'. rewrite <- F.
      by eapply lookup_weaken. }
  rewrite bool_decide_eq_false_2 by done.
  destruct (m !! Z.of_nat j) as [q|] eqn:Hq.
  - assert (q = p) as -> by (eapply lookup_weaken in Hm; [|exact Hq]; congruence).
    rewrite beq_refl. cbn [negb]. by apply Hnext.
  - apply Hnext; [by apply insert_subseteq| |by rewrite lookup_insert_eq].
    apply insert_subseteq_l; done.
Qed.
End receive.

Lemma seqZ_insert_fresh (parts : list bytes) i : (map_seqZ (i + 1) parts : gmap Z bytes) !! i = None.
Proof. apply lookup_map_seqZ_None. left. lia. Qed.

Lemma size_seqZ parts : forall i, Z.of_nat (size (map_seqZ i parts : gmap Z bytes)) = len parts.
Proof.
  induction parts as [|p parts IH]; intros i; [done|].
  rewrite map_seqZ_cons, map_size_insert_None by (replace (Z.succ i) with (i + 1) by lia; by apply seqZ_insert_fresh).
  rewrite Nat2Z.inj_succ, IH, len_cons. lia.
Qed.

Definition sizes (l : list (Z * bytes)) : Z := sum_Z (map (fun kp => len (snd kp)) l).

Lemma sizes_perm l k : l ≡ₚ k -> sizes l = sizes k.
Proof.
  unfold sizes, sum_Z. induction 1 as [|x l k _ IH|x y l|l k m _ IH1 _ IH2]; cbn [map fold_right]; [done|lia|lia|].
  by rewrite IH1.
Qed.

Lemma sizes_seqZ parts : forall i, sizes (map_to_list (map_seqZ i parts : gmap Z bytes)) = len (concat parts).
Proof.
  induction parts as [|p parts IH]; intros i.
  { cbn [map_seqZ]. by rewrite map_to_list_empty. }
  rewrite map_seqZ_cons. erewrite sizes_perm.
  2:{ apply map_to_list_insert. replace (Z.succ i) with (i + 1) by lia. by apply seqZ_insert_fresh. }
  cbn [concat]. rewrite len_app, <- (IH (Z.succ i)). done.
Qed.

Lemma parts_size_ok l : forall t, 0 <= t -> t + sizes l <= maxSplitSnapshotBytes -> parts_size t l = Ok (t + sizes l).
Proof.
  unfold maxSplitSnapshotBytes. induction l as [|[k p] l IH]; intros t Ht Hs.
  { cbn [parts_size sizes map sum_Z fold_right]. f_equal. lia. }
  unfold sizes, sum_Z in *. cbn [map fold_right snd] in *.
  assert (forall l : list (Z * bytes), 0 <= fold_right Z.add 0 (map (fun kp => len (snd kp)) l)) as Hpos.
  { clear. induction l as [|[k p] l IH]; cbn [map fold_right snd]; [done|]. pose proof (len_nonneg p). lia. }
  specialize (Hpos l). pose proof (len_nonneg p). cbn [parts_size].
  rewrite (proj2 (splitMemoryAdd_Ok t (len p) (t + len p))) by (unfold max_int64; lia).
  rewrite fail_if_false by (apply Z.ltb_ge; unfold maxSplitSnapshotBytes; lia). rewrite IH by lia. f_equal. lia.
Qed.

Lemma assemble_ok parts : forall i (m : gmap Z bytes),
  (forall j p, parts !! j = Some p -> m !! (i + Z.of_nat j) = Some p) -> assemble (length parts) i m = Ok (concat parts).
Proof.
  induction parts as [|p parts IH]; intros i m Hm; [done|]. cbn [length assemble concat].
  pose proof (Hm 0%nat p eq_refl) as H0. rewrite Z.add_0_r in H0. rewrite H0.
  rewrite IH; [done|]. intros j q Hj. specialize (Hm (S j) q Hj). by replace (i + 1 + Z.of_nat j) with (i + Z.of_nat (S j)) by lia.
Qed.

Lemma receive_parts parts received :
  0 < len parts <= maxChunks -> Forall (fun p => len p <= chunkPayload) parts ->
  len (concat parts) <= maxSplitSnapshotBytes -> 0 < len received <= maxChunks ->
  Forall (is_chunk parts (len parts)) received ->
  (forall j p, parts !! j = Some p -> chunk_of (len parts) (Z.of_nat j) p ∈ received) ->
  receiveSplitChunks received = decodeSplitSnapshot (concat parts).
Proof.
  intros Hn Hp Hs Hr Hf Hall. unfold receiveSplitChunks.
  rewrite fail_if_false by (apply orb_false_iff; split; [apply Z.eqb_neq|apply Z.ltb_ge]; lia).
  destruct (collect_chunks_ok parts (len parts) eq_refl Hn Hp received ∅ 0 Hf) as (m & -> & _ & Hsub & Hin);
    [apply map_empty_subseteq|by left|].
  rewrite bool_decide_eq_false_2 by (intros ->; change (len (@nil bytes)) with 0 in Hr; lia). cbn [mbind result_bind].
  assert (m = map_seqZ 0 parts) as ->.
  { apply (anti_symm (⊆)); [done|]. apply map_subseteq_spec. intros i p [Hi Hip]%lookup_map_seqZ_Some.
    rewrite Z.sub_0_r in Hip. specialize (Hin _ _ Hip (Hall _ _ Hip)). by rewrite Z2Nat.id in Hin by lia. }
  rewrite size_seqZ. change maxChunks with 129 in *.
  rewrite fail_if_false by (apply negb_false_iff, Z.eqb_eq; unfold uint32; rewrite Z.mod_small; lia).
  rewrite parts_size_ok by (rewrite ?sizes_seqZ; lia). cbn [mbind result_bind]. rewrite len_to_nat.
  rewrite assemble_ok; [done|]. intros j p Hj. apply lookup_map_seqZ_Some. split; [lia|].
  by rewrite Z.add_0_l, Z.sub_0_r, Nat2Z.id.
Qed.

Lemma BuildSplitSnapshot_Ok source barrier epoch rows s :
  BuildSplitSnapshot source barrier epoch rows = Ok s ->
  s = mkSnapshot source barrier epoch (sort_rows rows) (snap_Checksum s) /\ barrier <> 0
  /\ (snap_Checksum s <> 0 -> self_valid s).
Proof.
  unfold BuildSplitSnapshot. intros H. inv_res. bool_to_prop.
  match goal with Hv : is_ok (Validate _) = true |- _ => apply is_ok_unit in Hv; rename Hv into Hval end.
  assert (cloneSplitRows rows = rows) as Hcl.
  { unfold cloneSplitRows. rewrite <- (map_id rows) at 2. apply map_ext. intros r. apply Row_eta. }
  rewrite Hcl in *. rewrite (Clone_valid _ Hval). cbn [snap_Checksum]. split_and!; [done|done|].
  intros Hc. unfold self_valid, SplitSnapshot_Validate. cbn [snap_Source snap_Barrier snap_SourceEpoch snap_Rows snap_Checksum].
  pose proof (Validate_span _ Hval) as Hsp.
  rewrite Hval, (proj2 (EqualRangeDescriptor_spec _ _ Hsp Hsp) eq_refl), !Z.eqb_refl. cbn [is_ok negb orb].
  rewrite (proj2 (Z.eqb_neq (calculateChecksum _) 0) Hc), (proj2 (Z.eqb_eq epoch _)), Hr0, Hr1 by done.
  match goal with Hp : is_phase _ _ = true |- _ => rewrite Hp end. cbn [negb fail_if mbind result_bind].
  by rewrite (proj2 (Z.ltb_ge _ _)).
Qed.

Lemma sort_rows_perm rows : sort_rows rows ≡ₚ rows.
Proof. apply merge_sort_Permutation. Qed.

(** A snapshot built from a range's rows (in whatever order they come)
    travels intact: the copy succeeds, and the receiver rebuilds exactly the
    same snapshot from any reordering of its chunks, with repetitions, as long
    as every chunk arrives and the number received stays within the bound; the
    rows it holds are the rows the snapshot was built from. *)
Theorem snapshot_transfer source barrier epoch rows s :
  desc_width source -> is_u64 barrier -> Forall (fun r => is_u64 (row_Sequence r)) rows ->
  BuildSplitSnapshot source barrier epoch rows = Ok s -> snap_Checksum s <> 0 ->
  snap_Rows s ≡ₚ rows /\
  exists chunks, CopyChunks s = Ok chunks /\
    forall received, Forall (fun c => c ∈ chunks) received -> (forall c, c ∈ chunks -> c ∈ received) ->
      len received <= maxChunks -> receiveSplitChunks received = Ok s.
Proof.
  intros Hw Hb Hrows Hbuild Hc. destruct (BuildSplitSnapshot_Ok _ _ _ _ _ Hbuild) as (Hs & Hb0 & Hself).
  specialize (Hself Hc). destruct (self_valid_valid s Hself) as [_ _ Hep Hcs _ Hsize].
  assert (snapshot_width s) as Hwidth.
  { rewrite Hs in Hep |- *. unfold snapshot_width. cbn [snap_Source snap_Barrier snap_SourceEpoch snap_Rows snap_Checksum] in *.
    split_and!; [done|done| | |].
    - rewrite Hep. apply Hw.
    - rewrite <- Hcs. pose proof (crc32.Checksum_range (encodeSplitSnapshotBody s)). unfold is_u32, max_uint32, calculateChecksum. lia.
    - by rewrite sort_rows_perm. }
  split; [rewrite Hs; apply sort_rows_perm|]. unfold CopyChunks. unfold self_valid in Hself. rewrite Hself. cbn [mbind result_bind].
  set (payload := encodeSplitSnapshot s) in *.
  destruct (split_parts_spec (length payload) payload (le_n _)) as (Hcat & Hf & Hlen).
  set (parts := split_parts (length payload) payload) in *. rewrite <- Hlen.
  assert (0 < len parts <= maxChunks) as Hn.
  { split.
    - destruct parts as [|p parts'] eqn:Hp; [|rewrite len_cons; pose proof (len_nonneg parts'); lia].
      exfalso. subst payload. cbn [concat] in Hcat. apply (f_equal len) in Hcat.
      unfold encodeSplitSnapshot in Hcat. rewrite len_app, len_be, len_nil in Hcat.
      pose proof (len_nonneg (encodeSplitSnapshotBody s)). lia.
    - rewrite Hlen. unfold maxSplitSnapshotBytes in Hsize. change maxChunks with 129. change chunkPayload with 65519.
      assert ((len payload + 65519 - 1) / 65519 < 130); [apply Z.div_lt_upper_bound; lia|lia]. }
  rewrite fail_if_false by (apply orb_false_iff; split; [apply Z.eqb_neq|apply Z.ltb_ge]; lia).
  eexists. split; [done|]. intros received Hsub Hall Hnum.
  rewrite (receive_parts parts).
  - rewrite Hcat. by apply decodeSplitSnapshot_encode.
  - done.
  - done.
  - rewrite Hcat. lia.
  - split; [|done]. destruct received; [|rewrite len_cons; pose proof (len_nonneg received); lia].
    destruct parts as [|p parts'] eqn:Hp; [change (len (@nil bytes)) with 0 in Hn; lia|].
    exfalso. eapply elem_of_nil, (Hall (chunk_of _ 0 p)), elem_of_copy_chunks. exists 0%nat, p. fold parts. rewrite Hp. done.
  - eapply Forall_impl; [exact Hsub|]. cbn beta. intros c (j & p & Hj & ->)%elem_of_copy_chunks. exists j, p. done.
  - intros j p Hj. apply Hall, elem_of_copy_chunks. exists j, p. done.
Qed.
End codec.

(** ** A concrete transfer *)

Definition sample_source : RangeDescriptor := mkRange (lit "r1") [] None 1 1 1 [1; 2; 3] RangeServing.

Definition sample_row (key : bytes) (version : byte) (sequence : Z) (value : bytes) : Row :=
  mkRow (lit "users") key (uuid_of version) sequence value.

Definition sample_rows : list Row := [sample_row (lit "zed") x21 2 (lit "10"); sample_row (lit "ada") x22 1 (lit "20")].

Definition sample_snapshot : SplitSnapshot :=
  match BuildSplitSnapshot (canon := number_canon) sample_source 2 1 sample_rows with
  | Ok s => s
  | Fail _ => mkSnapshot sample_source 0 0 [] 0
  end.

Definition sample_chunks : list bytes :=
  match CopyChunks (canon := number_canon) sample_snapshot with Ok l => l | Fail _ => [] end.

Lemma snapshot_transfer_witness :
  receiveSplitChunks (canon := number_canon) (sample_chunks ++ sample_chunks) = Ok sample_snapshot.
Proof.
  destruct (snapshot_transfer (canon := number_canon) sample_source 2 1 sample_rows sample_snapshot) as (_ & chunks & Hc & Hr).
  - repeat constructor; unfold is_u64, max_uint64; cbn; lia.
  - unfold is_u64, max_uint64. lia.
  - repeat constructor; unfold max_uint64; cbn; lia.
  - vm_compute. reflexivity.
  - vm_compute. discriminate.
  - assert (chunks = sample_chunks) as -> by (unfold sample_chunks; by rewrite Hc).
    apply Hr.
    + apply Forall_app. split; apply Forall_forall; intros c H; exact H.
    + intros c H. apply elem_of_app. left. exact H.
    + vm_compute. discriminate.
Defined.
