(* ===== verification/SplitHarness.v ===== *)
(** The split harness (src/internal/raftstore/split_transfer.go and
    split_cutover.go): a source range that keeps serving while its rows are
    copied, the ordered deltas after the barrier, the catch-up of the two child
    images, and the cutover that publishes them.

    A method of the harness is a function from the state to the new state and
    its outcome; it holds the harness lock throughout, so calls do not
    interleave ([WriteAtLeader] and [WriteAtOwner] check under the lock, release
    it and call [Write]).  The maps that are iterated into a sorted slice are
    iterated in one fixed order here: their keys determine the coordinates the
    slice is sorted by. *)

From Stdlib Require Import ZArith Lia Sorting.Sorted.
From stdpp Require Import base list gmap sorting.
From S2P Require Import Prelude GoStd Uuidv7 Coordinates Range Command State Snapshot SplitTypes.

Local Open Scope Z_scope.

(** ** Data *)

Record SplitReplica : Type := mkReplica {
  rep_ID : Z;
  rep_RangeID : bytes;
  rep_GroupID : Z;
  rep_Generation : Z;
  rep_OwnerEpoch : Z;
  rep_Voters : list Z;
  ConfigFingerprint : bytes;
  Term : Z;
  Applied : Z;
  Available : bool;
  rep_Rows : gmap bytes Row
}.

Record splitOperationRecord : Type := mkRecord {
  rcd_Sequence : Z;
  rcd_Digest : bytes;
  rcd_Result : Result
}.

Record splitOperation : Type := mkOperation {
  op_source : RangeDescriptor;
  op_left : RangeDescriptor;
  op_right : RangeDescriptor;
  op_barrier : Z;
  op_snapshot : SplitSnapshot;
  leftRows : gmap bytes Row;
  rightRows : gmap bytes Row;
  leftApplied : Z;
  rightApplied : Z;
  op_deltas : gmap Z SplitDelta;
  deltaDigests : gmap Z bytes;
  operationRecords : gmap UUID splitOperationRecord
}.

Record SplitHarness : Type := mkHarness {
  catalog : option RangeCatalog;
  h_source : RangeDescriptor;
  sourceRows : gmap bytes Row;
  sourceSequence : Z;
  sourceEpoch : Z;
  leader : Z;
  leaderTerm : Z;
  replicas : gmap Z SplitReplica;
  h_deltas : list SplitDelta;
  deltaBytes : Z;
  operation : option splitOperation;
  operations : gmap UUID splitOperationRecord;
  cutover : bool
}.

(** Assignments to fields. *)
Definition set_catalog (h : SplitHarness) (c : option RangeCatalog) : SplitHarness :=
  mkHarness c (h_source h) (sourceRows h) (sourceSequence h) (sourceEpoch h) (leader h) (leaderTerm h) (replicas h)
    (h_deltas h) (deltaBytes h) (operation h) (operations h) (cutover h).
Definition set_sequence (h : SplitHarness) (n : Z) : SplitHarness :=
  mkHarness (catalog h) (h_source h) (sourceRows h) n (sourceEpoch h) (leader h) (leaderTerm h) (replicas h)
    (h_deltas h) (deltaBytes h) (operation h) (operations h) (cutover h).
Definition set_leader (h : SplitHarness) (id term : Z) : SplitHarness :=
  mkHarness (catalog h) (h_source h) (sourceRows h) (sourceSequence h) (sourceEpoch h) id term (replicas h)
    (h_deltas h) (deltaBytes h) (operation h) (operations h) (cutover h).
Definition set_replicas (h : SplitHarness) (m : gmap Z SplitReplica) : SplitHarness :=
  mkHarness (catalog h) (h_source h) (sourceRows h) (sourceSequence h) (sourceEpoch h) (leader h) (leaderTerm h) m
    (h_deltas h) (deltaBytes h) (operation h) (operations h) (cutover h).
Definition set_operation (h : SplitHarness) (op : splitOperation) : SplitHarness :=
  mkHarness (catalog h) (h_source h) (sourceRows h) (sourceSequence h) (sourceEpoch h) (leader h) (leaderTerm h) (replicas h)
    (h_deltas h) (deltaBytes h) (Some op) (operations h) (cutover h).
Definition put_record (h : SplitHarness) (id : UUID) (r : splitOperationRecord) : SplitHarness :=
  mkHarness (catalog h) (h_source h) (sourceRows h) (sourceSequence h) (sourceEpoch h) (leader h) (leaderTerm h) (replicas h)
    (h_deltas h) (deltaBytes h) (operation h) (<[id := r]> (operations h)) (cutover h).
Definition set_source_rows (h : SplitHarness) (m : gmap bytes Row) : SplitHarness :=
  mkHarness (catalog h) (h_source h) m (sourceSequence h) (sourceEpoch h) (leader h) (leaderTerm h) (replicas h)
    (h_deltas h) (deltaBytes h) (operation h) (operations h) (cutover h).
Definition retain_delta (h : SplitHarness) (d : SplitDelta) (n : Z) : SplitHarness :=
  mkHarness (catalog h) (h_source h) (sourceRows h) (sourceSequence h) (sourceEpoch h) (leader h) (leaderTerm h) (replicas h)
    (h_deltas h ++ [d]) n (operation h) (operations h) (cutover h).
Definition set_cutover (h : SplitHarness) : SplitHarness :=
  mkHarness (catalog h) (with_phase (h_source h) RangeRetired) (sourceRows h) (sourceSequence h) (sourceEpoch h) (leader h)
    (leaderTerm h) (replicas h) (h_deltas h) (deltaBytes h) (operation h) (operations h) true.

Definition with_rows (op : splitOperation) (left right : gmap bytes Row) : splitOperation :=
  mkOperation (op_source op) (op_left op) (op_right op) (op_barrier op) (op_snapshot op) left right
    (leftApplied op) (rightApplied op) (op_deltas op) (deltaDigests op) (operationRecords op).
Definition with_applied (op : splitOperation) (left right : Z) : splitOperation :=
  mkOperation (op_source op) (op_left op) (op_right op) (op_barrier op) (op_snapshot op) (leftRows op) (rightRows op)
    left right (op_deltas op) (deltaDigests op) (operationRecords op).
Definition with_delta (op : splitOperation) (d : SplitDelta) (digest : bytes) : splitOperation :=
  mkOperation (op_source op) (op_left op) (op_right op) (op_barrier op) (op_snapshot op) (leftRows op) (rightRows op)
    (leftApplied op) (rightApplied op) (<[delta_Sequence d := cloneSplitDelta d]> (op_deltas op))
    (<[delta_Sequence d := digest]> (deltaDigests op)) (operationRecords op).
Definition with_children (op : splitOperation) (left right : RangeDescriptor) : splitOperation :=
  mkOperation (op_source op) left right (op_barrier op) (op_snapshot op) (leftRows op) (rightRows op)
    (leftApplied op) (rightApplied op) (op_deltas op) (deltaDigests op) (operationRecords op).

(** ** Helpers *)

Definition childGroups (group : Z) : option (Z * Z) :=
  if (group =? 0) || (max_uint64 / 2 - 1 <? group) then None
  else Some (uint64 (group * 2), uint64 (group * 2 + 1)).

Definition containsSplitVoter (voters : list Z) (id : Z) : bool := existsb (fun voter => voter =? id) voters.

Definition cloneTransferMap (rows : gmap bytes Row) : gmap bytes Row := cloneTransferRow <$> rows.

(** The rows of a map in the order of [splitRowLess]. *)
Definition ordered_rows (rows : gmap bytes Row) : list Row := sort_rows (map snd (map_to_list rows)).

Definition evaluateTransferCommand (rows : gmap bytes Row) (command : Command) (sequence : Z) : Result :=
  let current := rows !! splitRowID (Table command) (Key command) in
  let exists_ := bool_decide (is_Some current) in
  if CreateOnly (Cond command) && exists_ then mkResult (cloneCommand command) zero_row false resultPrecondition
  else if match IfMatch (Cond command) with
          | None => false
          | Some v => match current with None => true | Some row => negb (beq (row_Version row) v) end
          end
  then mkResult (cloneCommand command) zero_row false resultPrecondition
  else mkResult (cloneCommand command)
         (mkRow (Table command) (Key command) (Version command) sequence (Value command))
         (negb exists_) resultSuccess.

(** [target[splitRowID(result.Row.Table, result.Row.Key)] = result.Row] when
    the result is a success. *)
Definition store_result (rows : gmap bytes Row) (r : Result) : gmap bytes Row :=
  if Succeeded r then
    <[splitRowID (row_Table (res_Row r)) (row_Key (res_Row r)) := cloneTransferRow (res_Row r)]> rows
  else rows.

(** [append([]byte(nil), end...)]: an empty slice becomes nil. *)
Definition copy_end (e : option bytes) : option bytes := match e with Some [] => None | _ => e end.

Section harness.
Context {canon : Canonicalizer}.

Definition validateSplitRowMap (rows : gmap bytes Row) (source : RangeDescriptor) (barrier : Z) : result split_error unit :=
  fail_if (negb (forallb (fun kr => beq (fst kr) (splitRowID (row_Table (snd kr)) (row_Key (snd kr)))) (map_to_list rows)))
    ErrSplitChecksum;;
  validateSplitRows (ordered_rows rows) source barrier.

Definition validateSplitDelta (op : splitOperation) (d : SplitDelta) : result split_error unit :=
  let source := op_source op in
  fail_if (negb (beq (SourceRangeID d) (RangeID source)) || negb (beq (SourceStart d) (Start source))
           || negb (bool_decide (SourceEndIsInfinity d = bool_decide (End_ source = None)))
           || (negb (SourceEndIsInfinity d) && negb (beq (SourceEnd d) (end_bytes source)))
           || negb (SourceGeneration d =? Generation source) || negb (SourceEpoch d =? OwnerEpoch source)
           || negb (SourceOwnerEpoch d =? OwnerEpoch source) || negb (SourceGroupID d =? GroupID source)
           || negb (equalUint64 (SourceVoters d) (Voters source))
           || negb (beq (SourceConfigFingerprint d) (splitConfigFingerprint source))
           || negb (is_phase (SourcePhase d) (Phase source))) ErrSplitGeneration;;
  fail_if (negb (is_ok (validateCommand (delta_Command d)))) ErrSplitChecksum;;
  match EncodeCommand (delta_Command d), EncodeCommand (res_Command (delta_Result d)) with
  | Ok commandA, Ok commandB => fail_if (negb (beq commandA commandB)) ErrSplitChecksum
  | _, _ => Fail ErrSplitChecksum
  end;;
  fail_if (negb (is_ok (encodeResult (delta_Result d)))) ErrSplitChecksum;;
  let key := Key (delta_Command d) in
  fail_if (negb (Contains source key) || (negb (Contains (op_left op) key) && negb (Contains (op_right op) key)))
    (SplitRange ErrRangeGap);;
  let row := res_Row (delta_Result d) in
  fail_if (Succeeded (delta_Result d)
           && (negb (row_Sequence row =? delta_Sequence d) || negb (beq (row_Table row) (Table (delta_Command d)))
               || negb (beq (row_Key row) (Key (delta_Command d))) || negb (beq (row_Version row) (Version (delta_Command d)))
               || negb (beq (row_Value row) (Value (delta_Command d))))) ErrSplitChecksum.

(** The images and applied sequences after one delta. *)
Definition applyTransferDelta (left right : gmap bytes Row) (d : SplitDelta) (op : splitOperation)
    : gmap bytes Row * gmap bytes Row * Z * Z :=
  let r := delta_Result d in
  if VersionConflict r || PreconditionFailed r then (left, right, delta_Sequence d, delta_Sequence d)
  else if Contains (op_left op) (Key (delta_Command d))
  then (store_result left r, right, delta_Sequence d, delta_Sequence d)
  else (left, store_result right r, delta_Sequence d, delta_Sequence d).

(** ** Construction and membership *)

(** A secondary of the range at term 1, with the source's rows. *)
Definition new_replica (source : RangeDescriptor) (rows : gmap bytes Row) (sequence id : Z) : SplitReplica :=
  mkReplica id (RangeID source) (GroupID source) (Generation source) (OwnerEpoch source) (Voters source)
    (splitConfigFingerprint source) 1 sequence true (cloneTransferMap rows).

Definition NewSplitHarness (source : RangeDescriptor) (rows : list Row) : result split_error SplitHarness :=
  fail_if (negb (is_phase (Phase source) RangeServing)) (SplitRange ErrRangeNotServing);;
  map_err SplitRange (Validate source);;
  let ordered := sort_rows (cloneSplitRows rows) in
  validateSplitRows ordered source max_uint64;;
  c ← map_err SplitRange (NewRangeCatalog (Generation source) [source]);
  match Voters source with
  | [] => Fail SplitPanic
  | first :: rest =>
      let sourceRows := fold_left (fun m row => <[splitRowID (row_Table row) (row_Key row) := cloneTransferRow row]> m) ordered ∅ in
      let sequence := fold_left (fun n row => if n <? row_Sequence row then row_Sequence row else n) ordered 0 in
      let reps := fold_left (fun m id => <[id := new_replica source sourceRows sequence id]> m) rest ∅ in
      Ok (mkHarness (Some c) (Clone source) sourceRows sequence (OwnerEpoch source) first 1 reps [] 0 None ∅ false)
  end.

(** [Catalog]: a private copy of the catalog, nil when it cannot be made. *)
Definition Catalog (h : SplitHarness) : option RangeCatalog :=
  match catalog h with
  | None => None
  | Some c =>
      match MarshalBinary (Some c) with
      | Fail _ => None
      | Ok encoded => match UnmarshalRangeCatalog encoded with Ok c => Some c | Fail _ => None end
      end
  end.

Definition SourceDescriptor (h : SplitHarness) : RangeDescriptor := Clone (h_source h).

Definition RegisterSecondary (h : SplitHarness) (replica : SplitReplica) : SplitHarness * result split_error unit :=
  let source := h_source h in
  let check :=
    fail_if ((rep_ID replica =? 0) || (rep_ID replica =? leader h) || negb (containsSplitVoter (Voters source) (rep_ID replica)))
      ErrSplitUnsafeCopy;;
    fail_if (negb (beq (rep_RangeID replica) (RangeID source)) || negb (rep_GroupID replica =? GroupID source)
             || negb (rep_Generation replica =? Generation source) || negb (rep_OwnerEpoch replica =? OwnerEpoch source)
             || negb (equalUint64 (rep_Voters replica) (Voters source))
             || negb (beq (ConfigFingerprint replica) (splitConfigFingerprint source))
             || negb (Term replica =? leaderTerm h)) ErrSplitGeneration;;
    fail_if (sourceSequence h <? Applied replica) ErrSplitGeneration;;
    validateSplitRowMap (rep_Rows replica) source (Applied replica) in
  match check with
  | Fail e => (h, Fail e)
  | Ok _ => (set_replicas h (<[rep_ID replica := replica]> (replicas h)), Ok tt)
  end.

Definition with_term (r : SplitReplica) (term : Z) : SplitReplica :=
  mkReplica (rep_ID r) (rep_RangeID r) (rep_GroupID r) (rep_Generation r) (rep_OwnerEpoch r) (rep_Voters r)
    (ConfigFingerprint r) term (Applied r) (Available r) (rep_Rows r).
Definition with_available (r : SplitReplica) (available : bool) : SplitReplica :=
  mkReplica (rep_ID r) (rep_RangeID r) (rep_GroupID r) (rep_Generation r) (rep_OwnerEpoch r) (rep_Voters r)
    (ConfigFingerprint r) (Term r) (Applied r) available (rep_Rows r).
Definition with_write (r : SplitReplica) (rows : gmap bytes Row) (applied : Z) : SplitReplica :=
  mkReplica (rep_ID r) (rep_RangeID r) (rep_GroupID r) (rep_Generation r) (rep_OwnerEpoch r) (rep_Voters r)
    (ConfigFingerprint r) (Term r) applied (Available r) rows.

Definition SetLeader (h : SplitHarness) (id : Z) : SplitHarness :=
  if containsSplitVoter (Voters (h_source h)) id && negb (id =? leader h) then
    let term := uint64 (leaderTerm h + 1) in
    let h := set_leader h id term in
    set_replicas h ((fun r => with_term r term) <$> replicas h)
  else h.

Definition SetSecondaryAvailable (h : SplitHarness) (id : Z) (available : bool) : SplitHarness :=
  match replicas h !! id with
  | Some r => set_replicas h (<[id := with_available r available]> (replicas h))
  | None => h
  end.

(** ** The split *)

(** A replica the barrier can be copied from. *)
Definition safe_secondary (h : SplitHarness) (barrier id : Z) (r : SplitReplica) : bool :=
  negb ((id =? leader h) || negb (Available r) || negb (Term r =? leaderTerm h) || (Applied r <? barrier)
        || negb (beq (rep_RangeID r) (RangeID (h_source h))) || negb (rep_GroupID r =? GroupID (h_source h))
        || negb (rep_Generation r =? Generation (h_source h)) || negb (rep_OwnerEpoch r =? OwnerEpoch (h_source h))
        || negb (equalUint64 (rep_Voters r) (Voters (h_source h)))).

(** The part of a row map whose keys a descriptor contains. *)
Definition rows_of (keep : bytes -> bool) (rows : gmap bytes Row) : gmap bytes Row :=
  filter (fun kr => keep (row_Key (snd kr)) = true) rows.

Definition BeginSplit (h : SplitHarness) (boundary leftID rightID : bytes) (allowLeaderFallback : bool)
    : SplitHarness * result split_error unit :=
  let source := h_source h in
  let barrier := sourceSequence h in
  let prepared :=
    fail_if (bool_decide (is_Some (operation h))) ErrSplitActive;;
    fail_if ((len boundary =? 0) || negb (Contains source boundary) || beq boundary (Start source)
             || match End_ source with Some e => beq boundary e | None => false end
             || bool_decide (leftID = []) || bool_decide (rightID = []) || beq leftID rightID
             || beq leftID (RangeID source) || beq rightID (RangeID source)) (SplitRange (ErrRangeInvalid ""));;
    let secondaryFound := existsb (fun ir => safe_secondary h barrier (fst ir) (snd ir)) (map_to_list (replicas h)) in
    fail_if (negb secondaryFound && negb allowLeaderFallback) ErrSplitUnsafeCopy;;
    snapshot ← BuildSplitSnapshot source barrier (sourceEpoch h) (ordered_rows (sourceRows h));
    match childGroups (GroupID source) with
    | None => Fail ErrSplitGeneration
    | Some (leftGroup, rightGroup) =>
        let generation := uint64 (Generation source + 1) in
        let epoch := uint64 (OwnerEpoch source + 1) in
        let left := mkRange leftID (Start source) (Some boundary) generation epoch leftGroup (Voters source) RangeCatchingUp in
        let right := mkRange rightID boundary (copy_end (End_ source)) generation epoch rightGroup (Voters source) RangeCatchingUp in
        fail_if ((generation =? 0) || (epoch =? 0)) ErrSplitGeneration;;
        Ok (mkOperation (Clone source) left right barrier snapshot
              (cloneTransferMap (rows_of (Contains left) (sourceRows h)))
              (cloneTransferMap (rows_of (fun k => negb (Contains left k) && Contains right k) (sourceRows h)))
              barrier barrier ∅ ∅ ∅)
    end in
  match prepared with
  | Fail e => (h, Fail e)
  | Ok op => (set_operation h op, Ok tt)
  end.

(** The branch of [Write] after the cutover, on the child that owns the key. *)
Definition write_child (h : SplitHarness) (op : splitOperation) (command : Command) : SplitHarness * result split_error Result :=
  let inLeft := Contains (op_left op) (Key command) in
  if negb inLeft && negb (Contains (op_right op) (Key command)) then (h, Fail (SplitRange ErrRangeGap))
  else
    let target := if inLeft then leftRows op else rightRows op in
    let sequence := uint64 (sourceSequence h + 1) in
    let r := evaluateTransferCommand target command sequence in
    let h := set_sequence h sequence in
    let target := store_result target r in
    let h := set_operation h (if inLeft then with_rows op target (rightRows op) else with_rows op (leftRows op) target) in
    match splitDeltaDigest (splitDeltaFor (op_source op) (sourceEpoch h) sequence command r) with
    | None => (h, Fail ErrSplitChecksum)
    | Some digest => (put_record h (OperationID command) (mkRecord sequence digest r), Ok r)
    end.

(** The branch of [Write] while the source serves. *)
Definition write_source (h : SplitHarness) (command : Command) : SplitHarness * result split_error Result :=
  let active := bool_decide (is_Some (operation h)) in
  if active && ((maxSplitDeltas <=? len (h_deltas h)) || (maxSplitDeltaBytesTotal <? deltaBytes h + len (Value command)))
  then (h, Fail split_backpressure)
  else if sourceSequence h =? max_uint64 then (h, Fail split_backpressure)
  else
    let sequence := sourceSequence h + 1 in
    let r := evaluateTransferCommand (sourceRows h) command sequence in
    let h := set_sequence h sequence in
    let delta := splitDeltaFor (h_source h) (sourceEpoch h) sequence command r in
    match splitDeltaDigest delta with
    | None => (h, Fail ErrSplitChecksum)
    | Some digest =>
        let h := put_record h (OperationID command) (mkRecord sequence digest r) in
        let h := set_source_rows h (store_result (sourceRows h) r) in
        let h := if active then retain_delta h (cloneSplitDelta delta) (deltaBytes h + len (Value command)) else h in
        let h := set_replicas h ((fun rep => if Available rep && Succeeded r
                                             then with_write rep (store_result (rep_Rows rep) r) sequence
                                             else rep) <$> replicas h) in
        (h, Ok r)
    end.

Definition Write (h : SplitHarness) (command : Command) : SplitHarness * result split_error Result :=
  match validateCommand command with
  | Fail e => (h, Fail (SplitCommand e))
  | Ok _ =>
      match operations h !! OperationID command with
      | Some stored => (h, Ok (rcd_Result stored))
      | None =>
          if cutover h then
            match operation h with
            | None => (h, Fail SplitPanic)
            | Some op => write_child h op command
            end
          else write_source h command
      end
  end.

Definition WriteAtLeader (h : SplitHarness) (command : Command) (leaderID term ownerEpoch : Z)
    : SplitHarness * result split_error Result :=
  let valid := (leaderID =? leader h) && (term =? leaderTerm h) && (ownerEpoch =? sourceEpoch h) in
  if negb valid || cutover h then (h, Fail ErrSplitGeneration) else Write h command.

Definition WriteAtOwner (h : SplitHarness) (command : Command) (rangeID : bytes) (generation ownerEpoch : Z) (groupID : list Z)
    : SplitHarness * result split_error Result :=
  let group := match groupID with [g] => g | _ => GroupID (h_source h) end in
  let leftID := match operation h with Some op => RangeID (op_left op) | None => [] end in
  let rightID := match operation h with Some op => RangeID (op_right op) | None => [] end in
  match RouteAt (catalog h) (Key command) rangeID generation ownerEpoch group with
  | Fail e => (h, Fail (SplitRange e))
  | Ok d =>
      if negb (beq (RangeID d) (RangeID (h_source h))) && negb (beq (RangeID d) leftID) && negb (beq (RangeID d) rightID)
      then (h, Fail SplitRangeMoved)
      else Write h command
  end.

Definition DeliverDelta (h : SplitHarness) (delta : SplitDelta) : SplitHarness * result split_error unit :=
  match operation h with
  | None => (h, Fail ErrSplitNotActive)
  | Some op =>
      if (delta_Sequence delta <=? op_barrier op) || (sourceSequence h <? delta_Sequence delta)
      then (h, Fail ErrSplitDeltaOrder)
      else
        match validateSplitDelta op delta with
        | Fail e => (h, Fail e)
        | Ok _ =>
            match splitDeltaDigest delta with
            | None => (h, Fail ErrSplitChecksum)
            | Some digest =>
                match deltaDigests op !! delta_Sequence delta with
                | Some previous => if negb (beq previous digest) then (h, Fail ErrSplitChecksum) else (h, Ok tt)
                | None =>
                    if (maxSplitDeltas <=? Z.of_nat (size (op_deltas op))) || (maxSplitDeltaBytesTotal <? deltaBytes h)
                    then (h, Fail split_backpressure)
                    else (set_operation h (with_delta op delta digest), Ok tt)
                end
            end
        end
  end.

(** The delivered deltas in the order of their sequence numbers. *)
Definition delta_le (a b : SplitDelta) : Prop := delta_Sequence a <= delta_Sequence b.
#[export] Instance delta_le_dec : RelDecision delta_le.
Proof. intros a b. unfold delta_le. apply _. Defined.
Definition ordered_deltas (m : gmap Z SplitDelta) : list SplitDelta := merge_sort delta_le (map snd (map_to_list m)).

(** The loop of [CatchUp]: the child images and their applied sequences. *)
Fixpoint catch_up_loop (op : splitOperation) (deltas : list SplitDelta) (left right : gmap bytes Row) (leftApplied rightApplied : Z)
    : result split_error (gmap bytes Row * gmap bytes Row * Z * Z) :=
  match deltas with
  | [] => Ok (left, right, leftApplied, rightApplied)
  | d :: deltas' =>
      validateSplitDelta op d;;
      match splitDeltaDigest d with
      | None => Fail ErrSplitChecksum
      | Some digest =>
          fail_if (negb (beq (default (replicate 32 x00) (deltaDigests op !! delta_Sequence d)) digest)) ErrSplitChecksum
      end;;
      fail_if (negb (delta_Sequence d =? uint64 (leftApplied + 1)) || negb (delta_Sequence d =? uint64 (rightApplied + 1)))
        ErrSplitDeltaOrder;;
      let '(newLeft, newRight, newLeftApplied, newRightApplied) := applyTransferDelta left right d op in
      catch_up_loop op deltas' newLeft newRight newLeftApplied newRightApplied
  end.

Definition CatchUp (h : SplitHarness) : SplitHarness * result split_error unit :=
  match operation h with
  | None => (h, Fail ErrSplitNotActive)
  | Some op =>
      let ordered := ordered_deltas (op_deltas op) in
      match splitCatchUpScratchMemory ordered with
      | Fail e => (h, Fail e)
      | Ok _ =>
          match catch_up_loop op ordered (cloneTransferMap (leftRows op)) (cloneTransferMap (rightRows op)) (leftApplied op) (rightApplied op) with
          | Fail e => (h, Fail e)
          | Ok (newLeft, newRight, newLeftApplied, newRightApplied) =>
              let h := set_operation h (with_applied (with_rows op newLeft newRight) newLeftApplied newRightApplied) in
              if negb (newLeftApplied =? sourceSequence h) || negb (newRightApplied =? sourceSequence h)
              then (h, Fail ErrSplitBarrier) else (h, Ok tt)
          end
      end
  end.

Definition Snapshot_ (h : SplitHarness) : result split_error SplitSnapshot :=
  match operation h with
  | None => Fail ErrSplitNotActive
  | Some op => Ok (SplitSnapshot_Clone (op_snapshot op))
  end.

Definition Read (h : SplitHarness) (table key : bytes) : result split_error Row :=
  let rows :=
    match cutover h, operation h with
    | true, Some op =>
        if Contains (op_left op) key then leftRows op
        else if Contains (op_right op) key then rightRows op else sourceRows h
    | _, _ => sourceRows h
    end in
  match rows !! splitRowID table key with
  | None => Fail ErrSplitNotFound
  | Some row => Ok (cloneTransferRow row)
  end.

(** The proof and the outcome of its validation. *)
Definition TargetProof (h : SplitHarness) : result split_error (SplitTargetProof * result split_error unit) :=
  match operation h with
  | None => Fail ErrSplitNotActive
  | Some op =>
      fail_if (negb (leftApplied op =? sourceSequence h) || negb (rightApplied op =? sourceSequence h)) ErrSplitBarrier;;
      let proof := mkProof (Clone (op_source op)) (Clone (op_left op)) (Clone (op_right op)) (op_barrier op) (sourceSequence h)
        (replicate 32 x00) (splitRowsDigest (leftRows op)) (splitRowsDigest (rightRows op)) (Some (Voters (h_source h))) true in
      Ok (proof, SplitTargetProof_Validate proof)
  end.

(** ** Cutover *)

(** [order] is the order in which [Replace] iterates the catalog's history. *)
Definition Cutover (h : SplitHarness) (order : list bytes) : SplitHarness * result split_error unit :=
  match operation h with
  | None => (h, Fail ErrSplitNotActive)
  | Some op =>
      if cutover h then (h, Ok tt)
      else if negb (leftApplied op =? sourceSequence h) || negb (rightApplied op =? sourceSequence h)
      then (h, Fail ErrSplitBarrier)
      else
        let proof := mkProof (Clone (op_source op)) (Clone (op_left op)) (Clone (op_right op)) (op_barrier op) (sourceSequence h)
          (replicate 32 x00) (splitRowsDigest (leftRows op)) (splitRowsDigest (rightRows op)) None true in
        match ValidateWithoutConfState proof (Voters (h_source h)) with
        | Fail e => (h, Fail e)
        | Ok _ =>
            let left := with_phase (Clone (op_left op)) RangeServing in
            let right := with_phase (Clone (op_right op)) RangeServing in
            if negb (beq (end_bytes left) (Start right)) || negb (beq (Start left) (Start (h_source h)))
               || negb (beq (end_bytes right) (end_bytes (h_source h)))
            then (h, Fail ErrSplitQuorum)
            else if bool_decide (catalog h = None) || (Range.Version (catalog h) =? max_uint64)
            then (h, Fail (SplitRange (ErrCatalogStale "")))
            else
              let '(c, r) := Replace (catalog h) (uint64 (Range.Version (catalog h) + 1)) [left; right] order in
              let h := set_catalog h c in
              match r with
              | Fail e => (h, Fail (SplitRange e))
              | Ok _ => (set_cutover (set_operation h (with_children op left right)), Ok tt)
              end
        end
  end.

Definition StaleOwnerWrite (h : SplitHarness) (command : Command) (generation ownerEpoch groupID : Z) : split_error :=
  if cutover h then SplitRangeMoved
  else if negb (generation =? Generation (h_source h)) || negb (ownerEpoch =? OwnerEpoch (h_source h))
          || negb (groupID =? GroupID (h_source h))
  then SplitRangeMoved
  else ErrSplitHelper.
End harness.
