(* ===== verification/SplitRefine.v ===== *)
(** A split is invisible to clients: the harness, through the copy, the
    catch-up and the cutover, implements one plain row store.  The file states
    that store, the invariant of the reachable harness states and the
    simulation. *)

From Stdlib Require Import ZArith Lia Sorting.Sorted.
From stdpp Require Import base list gmap sorting relations.
From S2P Require Import Prelude GoStd Uuidv7 Coordinates Range Command State Snapshot SplitTypes SplitCodec SplitHarness.

Local Open Scope Z_scope.

(** ** The abstract store *)

Record store : Type := mkStore {
  st_rows : gmap bytes Row;
  st_sequence : Z;
  st_results : gmap UUID Result
}.

(** A write: a known operation ID is answered from its stored result; another
    one takes the next sequence number, and stores its row when its condition
    holds. *)
Definition store_write (s : store) (c : Command) : store * Result :=
  match st_results s !! OperationID c with
  | Some r => (s, r)
  | None =>
      let r := evaluateTransferCommand (st_rows s) c (st_sequence s + 1) in
      (mkStore (store_result (st_rows s) r) (st_sequence s + 1) (<[OperationID c := r]> (st_results s)), r)
  end.

(** The rows a harness serves. *)
Definition serving_rows (h : SplitHarness) : gmap bytes Row :=
  match cutover h, operation h with
  | true, Some op => leftRows op ∪ rightRows op
  | _, _ => sourceRows h
  end.

Definition abs (h : SplitHarness) : store :=
  mkStore (serving_rows h) (sourceSequence h) (rcd_Result <$> operations h).

(** ** Row maps *)

Definition keyed (m : gmap bytes Row) : Prop := forall id r, m !! id = Some r -> id = row_coordinate r.

Lemma splitRowID_inj t k t' k' : splitRowID t k = splitRowID t' k' -> t = t' /\ k = k'.
Proof.
  unfold splitRowID. intros H. change (lit ":") with [x3a] in H. cbn [app] in H.
  apply strconv.Itoa_prefix_inj in H as [Hl H]; [|done|apply len_nonneg..].
  assert (length t = length t') as Hl' by (unfold len in Hl; lia).
  apply app_inj_1 in H as [-> H]; [|done]. split; [done|].
  apply strconv.Itoa_prefix_inj in H as [_ ->]; [done|done|apply len_nonneg..].
Qed.

Lemma keyed_lookup m t k r : keyed m -> m !! splitRowID t k = Some r -> row_Table r = t /\ row_Key r = k.
Proof. intros Hm Hr. specialize (Hm _ _ Hr). unfold row_coordinate in Hm. apply splitRowID_inj in Hm as [<- <-]. done. Qed.

Lemma cloneTransferRow_id r : cloneTransferRow r = r.
Proof. apply Row_eta. Qed.

Lemma cloneTransferMap_id m : cloneTransferMap m = m.
Proof. unfold cloneTransferMap. rewrite <- (map_fmap_id m) at 2. apply map_fmap_ext. intros. apply cloneTransferRow_id. Qed.

Lemma cloneCommand_id c : cloneCommand c = c.
Proof. by destruct c. Qed.

Lemma cloneSplitDelta_id d : cloneSplitDelta d = d.
Proof. destruct d. unfold cloneSplitDelta. cbn. by rewrite cloneCommand_id. Qed.

Lemma store_result_keyed m r : keyed m -> keyed (store_result m r).
Proof.
  intros Hm. unfold store_result. destruct (Succeeded r); [|done]. rewrite cloneTransferRow_id.
  intros id x [[<- <-]|[_ H]]%lookup_insert_Some; [done|by apply Hm].
Qed.

Lemma lookup_rows_of keep m id r : rows_of keep m !! id = Some r <-> m !! id = Some r /\ keep (row_Key r) = true.
Proof. unfold rows_of. by rewrite map_lookup_filter_Some. Qed.

Lemma rows_of_keyed keep m : keyed m -> keyed (rows_of keep m).
Proof. intros Hm id r [H _]%lookup_rows_of. by apply Hm. Qed.

(** A split by a predicate on the key loses no row. *)
Lemma rows_of_union keep m : rows_of keep m ∪ rows_of (fun k => negb (keep k)) m = m.
Proof.
  apply map_eq. intros id. apply option_eq. intros r. rewrite lookup_union_Some.
  - rewrite !lookup_rows_of. destruct (keep (row_Key r)); cbn; tauto.
  - apply map_disjoint_spec. intros i x y [Hx Hk]%lookup_rows_of [Hy Hk']%lookup_rows_of.
    assert (x = y) as -> by congruence. by rewrite Hk in Hk'.
Qed.

(** Storing a result in the part that owns its key. *)
Lemma rows_of_store keep m r : (Succeeded r = true -> keep (row_Key (res_Row r)) = true) -> keyed m ->
  rows_of keep (store_result m r) = store_result (rows_of keep m) r.
Proof.
  intros Hk Hm. unfold store_result. destruct (Succeeded r); [|done]. rewrite cloneTransferRow_id.
  unfold rows_of. rewrite map_filter_insert_True; [done|]. cbn. by apply Hk.
Qed.

Lemma rows_of_other keep m r : (Succeeded r = true -> keep (row_Key (res_Row r)) = false) -> keyed m ->
  rows_of keep (store_result m r) = rows_of keep m.
Proof.
  intros Hk Hm. unfold store_result. destruct (Succeeded r); [|done]. rewrite cloneTransferRow_id. specialize (Hk eq_refl).
  apply map_eq. intros id. apply option_eq. intros x. rewrite !lookup_rows_of, lookup_insert_Some. split.
  - intros [[[_ <-]|[_ ?]] ?]; [congruence|done].
  - intros [Hx Hkx]. split; [|done]. right. split; [|done]. intros <-.
    apply (keyed_lookup m) in Hx as [_ Hx]; [|done]. congruence.
Qed.

(** ** Evaluation of a command *)

Lemma evaluate_lookup m m' c n :
  m !! splitRowID (Table c) (Key c) = m' !! splitRowID (Table c) (Key c) ->
  evaluateTransferCommand m c n = evaluateTransferCommand m' c n.
Proof. unfold evaluateTransferCommand. by intros ->. Qed.

Lemma evaluate_cases m c n (r := evaluateTransferCommand m c n) :
  res_Command r = c /\
  ((res_Status r = resultPrecondition /\ res_Row r = zero_row /\ res_Created r = false)
   \/ (res_Status r = resultSuccess /\ res_Row r = mkRow (Table c) (Key c) (Version c) n (Value c))).
Proof.
  unfold r, evaluateTransferCommand. rewrite cloneCommand_id. destruct (_ && _); [cbn; tauto|].
  destruct (match IfMatch (Cond c) with Some _ => _ | None => _ end); cbn; tauto.
Qed.

Section refine.
Context {canon : Canonicalizer}.

Lemma evaluate_encodes m c n (r := evaluateTransferCommand m c n) :
  validateCommand c = Ok tt -> 1 <= n -> encodeResult r = Ok (result_bytes r).
Proof.
  intros Hc%validateCommand_Ok Hn. apply (encodeResult_ok n).
  destruct (evaluate_cases m c n) as (Hcmd & Hcase). fold r in Hcmd, Hcase. split; [by rewrite Hcmd|]. rewrite Hcmd.
  destruct Hcase as [(Hs & Hr & Hcr)|(Hs & Hr)]; [right; tauto|left]. rewrite Hr. cbn [row_Sequence]. split_and!; [done|lia..|done].
Qed.

Lemma evaluate_digest source epoch m c n (r := evaluateTransferCommand m c n) :
  validateCommand c = Ok tt -> 1 <= n -> is_Some (splitDeltaDigest (splitDeltaFor source epoch n c r)).
Proof.
  intros Hc Hn. unfold splitDeltaDigest. cbn [splitDeltaFor delta_Command delta_Result]. rewrite cloneCommand_id.
  rewrite (EncodeCommand_bytes c) by (by apply validateCommand_Ok). unfold r. rewrite evaluate_encodes by done. eauto.
Qed.

(** ** The invariant *)

(** The source as it was when it served. *)
Definition served (h : SplitHarness) : RangeDescriptor := with_phase (h_source h) RangeServing.

Definition apply_deltas (base : gmap bytes Row) (ds : list SplitDelta) : gmap bytes Row :=
  fold_left (fun m d => store_result m (delta_Result d)) ds base.

(** A delta of the source with its [n]th sequence number. *)
Definition genuine (h : SplitHarness) (n : Z) (d : SplitDelta) : Prop :=
  exists m c, validateCommand c = Ok tt /\ 1 <= n
    /\ d = splitDeltaFor (served h) (sourceEpoch h) n c (evaluateTransferCommand m c n).

Definition in_left (op : splitOperation) (k : bytes) : bool := Contains (op_left op) k.
Definition in_right (op : splitOperation) (k : bytes) : bool := negb (in_left op k).

(** The children tile the keyspace at a boundary, with fences of their own. *)
Record children_ok (h : SplitHarness) (op : splitOperation) : Prop := {
  ch_boundary : exists b, b <> [] /\ Start (op_left op) = [] /\ End_ (op_left op) = Some b
                          /\ Start (op_right op) = b /\ End_ (op_right op) = None;
  ch_left : RangeID (op_left op) <> RangeID (h_source h);
  ch_right : RangeID (op_right op) <> RangeID (h_source h);
  ch_distinct : RangeID (op_left op) <> RangeID (op_right op);
  ch_voters : Voters (op_left op) = Voters (h_source h) /\ Voters (op_right op) = Voters (h_source h);
  ch_phase : Phase (op_left op) = (if cutover h then RangeServing else RangeCatchingUp)
             /\ Phase (op_right op) = (if cutover h then RangeServing else RangeCatchingUp);
  ch_generation : Generation (h_source h) < max_uint64
}.

(** The state of a split whose source has the deltas [h_deltas h]. *)
Record split_ok (h : SplitHarness) (op : splitOperation) : Prop := {
  sp_source : op_source op = served h;
  sp_children : children_ok h op;
  sp_applied : rightApplied op = leftApplied op;
  sp_barrier : 0 < op_barrier op <= leftApplied op /\ leftApplied op <= sourceSequence h;
  sp_deltas : forall i d, h_deltas h !! i = Some d -> genuine h (op_barrier op + 1 + Z.of_nat i) d;
  sp_delivered : forall n d, op_deltas op !! n = Some d -> d ∈ h_deltas h /\ delta_Sequence d = n;
  sp_digests : forall n, deltaDigests op !! n = op_deltas op !! n ≫= splitDeltaDigest;
  sp_caught_up : forall n, op_barrier op < n <= leftApplied op -> is_Some (op_deltas op !! n);
  sp_images :
    if cutover h then
      keyed (leftRows op) /\ keyed (rightRows op)
      /\ (forall id r, leftRows op !! id = Some r -> in_left op (row_Key r) = true)
      /\ (forall id r, rightRows op !! id = Some r -> in_right op (row_Key r) = true)
      /\ op_barrier op + len (h_deltas h) = leftApplied op
    else
      op_barrier op + len (h_deltas h) = sourceSequence h
      /\ exists base, keyed base /\ sourceRows h = apply_deltas base (h_deltas h)
         /\ let m := apply_deltas base (take (Z.to_nat (leftApplied op - op_barrier op)) (h_deltas h)) in
            leftRows op = rows_of (in_left op) m /\ rightRows op = rows_of (in_right op) m
}.

Record harness_ok (h : SplitHarness) : Prop := {
  ho_source : Validate (served h) = Ok tt;
  ho_span : Start (h_source h) = [] /\ End_ (h_source h) = None;
  ho_phase : Phase (h_source h) = if cutover h then RangeRetired else RangeServing;
  ho_epoch : sourceEpoch h = OwnerEpoch (h_source h);
  ho_sequence : 0 <= sourceSequence h <= max_uint64;
  ho_rows : keyed (sourceRows h);
  ho_catalog : match catalog h with
               | None => False
               | Some c =>
                   if cutover h then exists op, operation h = Some op /\ descriptors c = [op_left op; op_right op]
                   else catalog_ok c /\ Range.version c = Generation (h_source h)
                        /\ Range.history c = {[RangeID (h_source h) := h_source h]}
               end;
  ho_operation : match operation h with
                 | None => cutover h = false /\ h_deltas h = [] /\ deltaBytes h = 0
                 | Some op => split_ok h op
                 end
}.

(** ** Steps *)

(** The calls a client and a transport make.  A delivered delta is one of the
    retained ones, in any order and any number of times; the sequence numbers
    are not exhausted after the cutover. *)
Inductive internal (h : SplitHarness) : SplitHarness -> Prop :=
| step_register r : internal h (fst (RegisterSecondary h r))
| step_leader id : internal h (SetLeader h id)
| step_available id b : internal h (SetSecondaryAvailable h id b)
| step_begin boundary leftID rightID fallback : internal h (fst (BeginSplit h boundary leftID rightID fallback))
| step_deliver d : d ∈ h_deltas h -> internal h (fst (DeliverDelta h d))
| step_catch_up : internal h (fst (CatchUp h))
| step_cutover order : (forall c, catalog h = Some c -> map_order (Range.history c) order) -> internal h (fst (Cutover h order)).

Inductive step (h : SplitHarness) : SplitHarness -> Prop :=
| step_internal h' : internal h h' -> step h h'
| step_write c : (cutover h = true -> sourceSequence h < max_uint64) -> step h (fst (Write h c)).

Inductive reachable : SplitHarness -> Prop :=
| reach_new source rows h : NewSplitHarness source rows = Ok h -> desc_width source -> Forall (fun r => is_u64 (row_Sequence r)) rows -> reachable h
| reach_step h h' : reachable h -> step h h' -> reachable h'.

(** ** The invariant holds *)

Lemma apply_deltas_app m ds ds' : apply_deltas m (ds ++ ds') = apply_deltas (apply_deltas m ds) ds'.
Proof. apply fold_left_app. Qed.

Lemma apply_deltas_keyed ds : forall m, keyed m -> keyed (apply_deltas m ds).
Proof. induction ds as [|d ds IH]; intros m Hm; [done|]. cbn. by apply IH, store_result_keyed. Qed.

Lemma split_ok_frame h h' op :
  h_source h' = h_source h -> sourceRows h' = sourceRows h -> sourceSequence h' = sourceSequence h ->
  sourceEpoch h' = sourceEpoch h -> h_deltas h' = h_deltas h -> cutover h' = cutover h -> split_ok h op -> split_ok h' op.
Proof.
  intros E1 E2 E3 E4 E5 E6 [? [] ? ? ? ? ? ? ?]. constructor; unfold genuine, served in *; rewrite ?E1, ?E2, ?E3, ?E4, ?E5, ?E6; try done.
  constructor; by rewrite ?E1, ?E6.
Qed.

Lemma harness_ok_frame h h' :
  h_source h' = h_source h -> sourceRows h' = sourceRows h -> sourceSequence h' = sourceSequence h ->
  sourceEpoch h' = sourceEpoch h -> h_deltas h' = h_deltas h -> cutover h' = cutover h -> deltaBytes h' = deltaBytes h ->
  operation h' = operation h -> catalog h' = catalog h -> harness_ok h -> harness_ok h'.
Proof.
  intros E1 E2 E3 E4 E5 E6 E7 E8 E9 [? ? ? ? ? ? ? Hop].
  constructor; unfold served in *; rewrite ?E1, ?E2, ?E3, ?E4, ?E6, ?E8, ?E9; try done. destruct (operation h) as [op|]; [|by rewrite E5, E7]. by eapply split_ok_frame.
Qed.

Lemma set_operation_ok h op : harness_ok h -> split_ok (set_operation h op) op ->
  (forall old, operation h = Some old -> op_left op = op_left old /\ op_right op = op_right old) ->
  (operation h = None -> cutover h = false) -> harness_ok (set_operation h op).
Proof.
  intros [? ? ? ? ? ? Hc ?] Hop Hch Hno. constructor; try done. cbn [catalog set_operation cutover operation h_source].
  destruct (catalog h) as [c|]; [|done]. destruct (cutover h); [|done]. destruct Hc as (old & Hold & Hd). exists op.
  destruct (Hch old Hold) as [-> ->]. done.
Qed.

Lemma fold_max_range l : forall n, Forall (fun r => is_u64 (row_Sequence r)) l -> 0 <= n <= max_uint64 ->
  0 <= fold_left (fun n row => if n <? row_Sequence row then row_Sequence row else n) l n <= max_uint64.
Proof.
  induction l as [|r l IH]; intros n Hf Hn; [done|]. apply Forall_cons in Hf as [Hr Hf]. cbn [fold_left]. unfold is_u64 in Hr.
  apply IH; [done|]. destruct (n <? row_Sequence r); lia.
Qed.

Lemma fold_rows_keyed l : forall m, keyed m ->
  keyed (fold_left (fun m row => <[splitRowID (row_Table row) (row_Key row) := cloneTransferRow row]> m) l m).
Proof.
  induction l as [|r l IH]; intros m Hm; [done|]. cbn [fold_left]. apply IH. rewrite cloneTransferRow_id.
  intros id x [[<- <-]|[_ H]]%lookup_insert_Some; [done|by apply Hm].
Qed.

(** A catalog of one range makes that range the whole keyspace. *)
Lemma single_range_span v d c : desc_width d -> is_u64 v -> Validate d = Ok tt -> NewRangeCatalog v [d] = Ok c ->
  Start d = [] /\ End_ d = None /\ catalog_ok c /\ Range.version c = v /\ Range.history c = {[RangeID d := d]}.
Proof.
  intros Hw Hv Hd Hc.
  assert (catalog_ok c) as Hok by (eapply NewRangeCatalog_catalog_ok; [exact Hv| |exact Hc]; by constructor).
  apply NewRangeCatalog_Ok in Hc as (_ & Hi & ->).
  assert (next_image [d] = [d]) as Hn by (unfold next_image; cbn [cloneDescriptors map]; by rewrite Clone_valid).
  rewrite Hn in *. destruct (image_tiles _ Hi) as [Hs He]. destruct (End_ d); [by destruct He|].
  by split_and!.
Qed.

Lemma NewSplitHarness_ok source rows h :
  NewSplitHarness source rows = Ok h -> desc_width source -> Forall (fun r => is_u64 (row_Sequence r)) rows -> harness_ok h.
Proof.
  unfold NewSplitHarness. intros H Hw Hrows. inv_res. bool_to_prop.
  destruct (Voters source) as [|first rest]; [done|]. inv_res.
  assert (Phase source = RangeServing) as Hp by (unfold is_phase in *; by bool_to_prop).
  destruct (single_range_span _ _ _ Hw (proj1 Hw) Hr0 Hr2) as (Hs & He & Hcok & Hcv & Hch).
  assert (with_phase source RangeServing = source) as Hserved by (destruct source; cbn in *; by subst).
  constructor; unfold served; cbn [h_source sourceRows sourceSequence sourceEpoch operation cutover h_deltas deltaBytes];
    rewrite ?(Clone_valid _ Hr0), ?Hserved; try done.
  - apply fold_max_range; [|unfold max_uint64; lia]. rewrite sort_rows_perm. unfold cloneSplitRows. apply Forall_map.
    eapply Forall_impl; [exact Hrows|]. done.
  - by apply fold_rows_keyed.
Qed.

Lemma rows_of_ext f g m : (forall k, f k = g k) -> rows_of f m = rows_of g m.
Proof. intros H. unfold rows_of. apply map_filter_ext. intros id r _. cbn. by rewrite H. Qed.

Lemma served_serving h : harness_ok h -> cutover h = false -> served h = h_source h.
Proof. intros Hh Hc. pose proof (ho_phase h Hh) as Hp. rewrite Hc in Hp. unfold served. destruct (h_source h). cbn in *. by subst. Qed.

Lemma in_right_spec h op k : children_ok h op -> Contains (op_right op) k = in_right op k.
Proof.
  intros Hc. destruct (ch_boundary h op Hc) as (b & _ & H1 & H2 & H3 & H4). unfold in_right, in_left, Contains.
  rewrite H1, H2, H3, H4, ble_nil, andb_true_r. cbn [andb]. apply ble_blt.
Qed.

Lemma BeginSplit_ok h boundary leftID rightID fallback :
  harness_ok h -> harness_ok (fst (BeginSplit h boundary leftID rightID fallback)).
Proof.
  intros Hh. unfold BeginSplit.
  set (prepared := fail_if (bool_decide (is_Some (operation h))) _ ≫= _).
  destruct prepared as [op|e] eqn:Hp; [|done]. subst prepared. cbn [fst]. inv_res. bool_to_prop.
  destruct (childGroups (GroupID (h_source h))) as [[lg rg]|] eqn:Hg; [|done]. inv_res. bool_to_prop.
  pose proof (ho_operation h Hh) as Hop. destruct (operation h) as [?|] eqn:Hno; [exfalso; naive_solver|].
  destruct Hop as (Hcut & Hd & Hdb). pose proof (ho_span h Hh) as [Hs He]. pose proof (ho_sequence h Hh) as Hseq.
  destruct (BuildSplitSnapshot_Ok _ _ _ _ _ Hr2) as (_ & Hb0 & _).
  apply set_operation_ok; [done| |by rewrite Hno|done].
  constructor; cbn [op_source op_left op_right op_barrier leftRows rightRows leftApplied rightApplied op_deltas deltaDigests
                    set_operation sourceSequence sourceRows h_deltas cutover]; rewrite ?Hd, ?Hcut.
  - transitivity (Clone (served h)); [by rewrite served_serving|exact (Clone_valid _ (ho_source h Hh))].
  - assert (boundary <> []) by (intros ->; done). rewrite !beq_false in *.
    constructor; cbn [op_left op_right RangeID Start End_ Voters Phase set_operation h_source cutover]; rewrite ?Hcut; try done.
    { exists boundary. rewrite Hs, He. done. }
    pose proof (ho_catalog h Hh) as Hcat. rewrite Hcut in Hcat. destruct (catalog h) as [ct|]; [|done].
    destruct Hcat as (Hcok & Hver & _). pose proof (cat_version ct Hcok). rewrite Hver in *. unfold uint64 in *.
    destruct (Z.eq_dec (Generation (h_source h)) max_uint64) as [E|]; [rewrite E in *; done|lia].
  - done.
  - lia.
  - done.
  - intros n d. by rewrite lookup_empty.
  - intros n. by rewrite !lookup_empty.
  - intros n Hn. lia.
  - split; [rewrite len_nil; lia|]. exists (sourceRows h). rewrite take_nil. cbn [apply_deltas fold_left].
    rewrite !cloneTransferMap_id. split_and!; [apply ho_rows, Hh|done|done|].
    apply rows_of_ext. intros k. unfold in_right, in_left. cbn [op_left]. unfold Contains. cbn [Start End_].
    rewrite Hs, He, ble_nil, ble_blt. cbn [andb copy_end]. by destruct (blt k boundary).
Qed.

(** The state after an acknowledged write to the source. *)
Definition written (h : SplitHarness) (c : Command) (digest : bytes) : SplitHarness :=
  let n := sourceSequence h + 1 in
  let r := evaluateTransferCommand (sourceRows h) c n in
  let delta := splitDeltaFor (h_source h) (sourceEpoch h) n c r in
  let active := bool_decide (is_Some (operation h)) in
  mkHarness (catalog h) (h_source h) (store_result (sourceRows h) r) n (sourceEpoch h) (leader h) (leaderTerm h)
    ((fun rep => if Available rep && Succeeded r then with_write rep (store_result (rep_Rows rep) r) n else rep) <$> replicas h)
    (if active then h_deltas h ++ [delta] else h_deltas h)
    (if active then deltaBytes h + len (Value c) else deltaBytes h)
    (operation h) (<[OperationID c := mkRecord n digest r]> (operations h)) (cutover h).

Lemma write_source_cases h c : harness_ok h -> validateCommand c = Ok tt ->
  write_source h c = (h, Fail split_backpressure)
  \/ (sourceSequence h < max_uint64 /\ exists digest,
      write_source h c = (written h c digest, Ok (evaluateTransferCommand (sourceRows h) c (sourceSequence h + 1)))).
Proof.
  intros Hh Hc. pose proof (ho_sequence h Hh). unfold write_source. destruct (_ && _); [by left|].
  destruct (Z.eqb_spec (sourceSequence h) max_uint64); [by left|]. right. split; [lia|].
  destruct (evaluate_digest (h_source h) (sourceEpoch h) (sourceRows h) c (sourceSequence h + 1) Hc ltac:(lia)) as [digest Hd].
  exists digest. cbn [set_sequence h_source sourceEpoch]. rewrite Hd. unfold written. rewrite cloneSplitDelta_id.
  destruct (bool_decide (is_Some (operation h))); done.
Qed.

Lemma written_ok h c digest : harness_ok h -> cutover h = false -> sourceSequence h < max_uint64 ->
  validateCommand c = Ok tt -> harness_ok (written h c digest).
Proof.
  intros Hh Hcut Hseq Hc. pose proof (ho_sequence h Hh). pose proof (served_serving h Hh Hcut) as Hsv.
  pose proof (ho_rows h Hh) as Hk. set (r := evaluateTransferCommand (sourceRows h) c (sourceSequence h + 1)).
  constructor; unfold served; cbn [written h_source sourceRows sourceSequence sourceEpoch cutover operation h_deltas deltaBytes];
    fold r; try apply Hh; [lia|by apply store_result_keyed|].
  pose proof (ho_operation h Hh) as Hop. destruct (operation h) as [op|] eqn:Ho; [|done].
  destruct Hop as [E1 E2 E3 E4 E5 E6 E7 E8 E9]. rewrite Hcut in E9.
  destruct E9 as (Hn & base & Hb & Hrows & Hl & Hr).
  set (d := splitDeltaFor (h_source h) (sourceEpoch h) (sourceSequence h + 1) c r).
  assert (genuine h (sourceSequence h + 1) d) as Hg.
  { exists (sourceRows h), c. rewrite Hsv. split_and!; [done|lia|done]. }
  constructor; unfold written; cbn [h_source sourceRows sourceSequence sourceEpoch cutover operation h_deltas deltaBytes];
    rewrite ?Ho, ?bool_decide_eq_true_2 by eauto; fold r; fold d; rewrite ?Hcut.
  - done.
  - destruct E2 as [? ? ? ? ? Hph ?]. rewrite Hcut in Hph. by constructor.
  - done.
  - lia.
  - intros i x [Hi|[Hi ->]]%lookup_snoc_Some; [exact (E5 i x (proj2 Hi))|]. subst i.
    unfold len in Hn. replace (op_barrier op + 1 + Z.of_nat (length (h_deltas h))) with (sourceSequence h + 1) by lia. exact Hg.
  - intros n x Hx. destruct (E6 n x Hx). split; [|done]. apply elem_of_app. by left.
  - done.
  - done.
  - split; [rewrite len_app; change (len [d]) with 1; lia|]. exists base. rewrite apply_deltas_app, <- Hrows.
    split_and!; [done|done|..]; rewrite take_app_le by (unfold len in Hn; lia); done.
Qed.

(** ** Writes after the cutover *)

Section children.
Context (h : SplitHarness) (op : splitOperation) (Hop : split_ok h op) (Hcut : cutover h = true).

Lemma children_images :
  keyed (leftRows op) /\ keyed (rightRows op)
  /\ (forall id r, leftRows op !! id = Some r -> in_left op (row_Key r) = true)
  /\ (forall id r, rightRows op !! id = Some r -> in_right op (row_Key r) = true)
  /\ op_barrier op + len (h_deltas h) = leftApplied op.
Proof. pose proof (sp_images h op Hop) as H. by rewrite Hcut in H. Qed.

Lemma children_lookup t k :
  (leftRows op ∪ rightRows op) !! splitRowID t k
  = (if in_left op k then leftRows op else rightRows op) !! splitRowID t k.
Proof.
  destruct children_images as (Hkl & Hkr & Hl & Hr & _). destruct (in_left op k) eqn:Hk.
  - destruct (rightRows op !! splitRowID t k) as [r|] eqn:E; [|by rewrite lookup_union, E; destruct (leftRows op !! _)].
    exfalso. pose proof (keyed_lookup _ _ _ _ Hkr E) as [_ <-]. apply Hr in E. unfold in_right in E. by rewrite Hk in E.
  - destruct (leftRows op !! splitRowID t k) as [r|] eqn:E; [|by rewrite lookup_union, E, (left_id None _)].
    exfalso. pose proof (keyed_lookup _ _ _ _ Hkl E) as [_ <-]. apply Hl in E. congruence.
Qed.

(** The owner's rows after a command, and the other child's. *)
Lemma store_in_child c n (r := evaluateTransferCommand (leftRows op ∪ rightRows op) c n) :
  let op' := if in_left op (Key c) then with_rows op (store_result (leftRows op) r) (rightRows op)
             else with_rows op (leftRows op) (store_result (rightRows op) r) in
  leftRows op' ∪ rightRows op' = store_result (leftRows op ∪ rightRows op) r
  /\ keyed (leftRows op') /\ keyed (rightRows op')
  /\ (forall id x, leftRows op' !! id = Some x -> in_left op (row_Key x) = true)
  /\ (forall id x, rightRows op' !! id = Some x -> in_right op (row_Key x) = true).
Proof.
  destruct children_images as (Hkl & Hkr & Hl & Hr & _).
  destruct (evaluate_cases (leftRows op ∪ rightRows op) c n) as (_ & Hcase). fold r in Hcase.
  assert (Succeeded r = true -> res_Row r = mkRow (Table c) (Key c) (Version c) n (Value c)) as Hrow.
  { unfold Succeeded. intros Hs. apply bool_decide_eq_true in Hs. destruct Hcase as [(Hp & _)|(_ & ->)]; [by rewrite Hp in Hs|done]. }
  assert (forall m (P : bytes -> Prop), (forall id x, m !! id = Some x -> P (row_Key x)) -> P (Key c) ->
          forall id x, store_result m r !! id = Some x -> P (row_Key x)) as Hstore.
  { intros m P Hm HP id x. unfold store_result. destruct (Succeeded r) eqn:Hs; [|apply Hm]. rewrite cloneTransferRow_id, Hrow by done.
    intros [[_ <-]|[_ H]]%lookup_insert_Some; [done|by eapply Hm]. }
  pose proof (children_lookup (Table c) (Key c)) as Hlk. destruct (in_left op (Key c)) eqn:Hk; cbn zeta;
    cbn [with_rows leftRows rightRows]; split_and!; try done; try by apply store_result_keyed.
  - unfold store_result. destruct (Succeeded r); [|done]. symmetry. apply insert_union_l.
  - by eapply (Hstore _ (fun k => in_left op k = true)).
  - unfold store_result. destruct (Succeeded r) eqn:Hs; [|done]. rewrite cloneTransferRow_id, Hrow by done. cbn [row_Table row_Key].
    symmetry. apply insert_union_r. destruct (leftRows op !! splitRowID (Table c) (Key c)) as [x|] eqn:E; [|done].
    pose proof (keyed_lookup _ _ _ _ Hkl E) as [_ Hx]. apply Hl in E. congruence.
  - eapply (Hstore _ (fun k => in_right op k = true)); [done|]. unfold in_right. by rewrite Hk.
Qed.

Lemma write_child_ok c : harness_ok h -> sourceSequence h < max_uint64 -> validateCommand c = Ok tt ->
  let n := sourceSequence h + 1 in
  let r := evaluateTransferCommand (leftRows op ∪ rightRows op) c n in
  exists op' digest,
    write_child h op c = (put_record (set_operation (set_sequence h n) op') (OperationID c) (mkRecord n digest r), Ok r)
    /\ leftRows op' ∪ rightRows op' = store_result (leftRows op ∪ rightRows op) r
    /\ split_ok (set_operation (set_sequence h n) op') op'
    /\ op_left op' = op_left op /\ op_right op' = op_right op.
Proof.
  intros Hh Hseq Hc n r. pose proof (ho_sequence h Hh) as Hs.
  assert (uint64 (sourceSequence h + 1) = n) as Hn by (unfold uint64, n; rewrite Z.mod_small by (unfold max_uint64 in *; lia); done).
  destruct (store_in_child c n) as (E1 & E2 & E3 & E4 & E5). fold r in E1, E2, E3, E4, E5. cbn zeta in *.
  destruct (evaluate_digest (op_source op) (sourceEpoch h) (leftRows op ∪ rightRows op) c n Hc ltac:(unfold n; lia)) as [digest Hd].
  fold r in Hd.
  exists (if in_left op (Key c) then with_rows op (store_result (leftRows op) r) (rightRows op)
          else with_rows op (leftRows op) (store_result (rightRows op) r)), digest.
  split_and!.
  - unfold write_child. rewrite Hn, (in_right_spec h op (Key c)) by apply (sp_children _ _ Hop). unfold in_right.
    change (Contains (op_left op) (Key c)) with (in_left op (Key c)).
    replace (evaluateTransferCommand (if in_left op (Key c) then leftRows op else rightRows op) c n) with r
      by (apply evaluate_lookup, children_lookup).
    cbn [set_operation set_sequence sourceEpoch]. rewrite Hd. by destruct (in_left op (Key c)).
  - done.
  - destruct Hop as [P1 [Q1 Q2 Q3 Q4 Q5 Q6 Q7] P3 P4 P5 P6 P7 P8 P9]. rewrite Hcut in P9, Q6. destruct P9 as (_ & _ & _ & _ & P9).
    constructor; cbn [set_operation set_sequence sourceSequence sourceRows h_deltas cutover]; rewrite ?Hcut;
      try (by destruct (in_left op (Key c))).
    + constructor; cbn [set_operation set_sequence h_source cutover]; rewrite ?Hcut; by destruct (in_left op (Key c)).
    + unfold n. destruct (in_left op (Key c)); cbn [with_rows leftApplied op_barrier]; lia.
  - by destruct (in_left op (Key c)).
  - by destruct (in_left op (Key c)).
Qed.
End children.

(** ** Delivery and catch-up *)

Lemma genuine_sequence h n d : genuine h n d -> delta_Sequence d = n.
Proof. by intros (m & c & _ & _ & ->). Qed.

(** A retained delta sits at the place its sequence number says. *)
Lemma retained_at h op d : split_ok h op -> d ∈ h_deltas h ->
  op_barrier op < delta_Sequence d <= op_barrier op + len (h_deltas h)
  /\ h_deltas h !! Z.to_nat (delta_Sequence d - op_barrier op - 1) = Some d.
Proof.
  intros Hop [i Hi]%list_elem_of_lookup_1. pose proof (genuine_sequence _ _ _ (sp_deltas _ _ Hop i d Hi)) as Hn.
  pose proof (lookup_lt_Some _ _ _ Hi). unfold len. split; [lia|].
  by replace (Z.to_nat (delta_Sequence d - op_barrier op - 1)) with i by lia.
Qed.

Lemma DeliverDelta_ok h d : harness_ok h -> d ∈ h_deltas h -> harness_ok (fst (DeliverDelta h d)).
Proof.
  intros Hh Hd. unfold DeliverDelta. destruct (operation h) as [op|] eqn:Ho; [|done].
  destruct ((_ <=? _) || (_ <? delta_Sequence d)); [done|]. destruct (validateSplitDelta op d) as [[]|]; [|done].
  destruct (splitDeltaDigest d) as [digest|] eqn:Hdig; [|done].
  destruct (deltaDigests op !! delta_Sequence d) as [p|] eqn:Hp; [by destruct (negb _)|].
  destruct ((maxSplitDeltas <=? _) || _); [done|]. cbn [fst]. pose proof (ho_operation h Hh) as Hop. rewrite Ho in Hop.
  apply set_operation_ok; [done| |by rewrite Ho; intros ? [= <-]|congruence].
  destruct Hop as [P1 [Q1 Q2 Q3 Q4 Q5 Q6 Q7] P3 P4 P5 P6 P7 P8 P9].
  constructor; cbn [set_operation with_delta op_deltas deltaDigests h_deltas sourceSequence]; try done.
  - intros n x [[<- <-]|[_ Hx]]%lookup_insert_Some; [by rewrite cloneSplitDelta_id|by apply P6].
  - intros n. rewrite cloneSplitDelta_id. destruct (decide (n = delta_Sequence d)) as [->|Hne].
    + rewrite !lookup_insert_eq. cbn [mbind option_bind]. by rewrite Hdig.
    + rewrite !lookup_insert_ne by done. apply P7.
  - intros n Hn. apply lookup_insert_is_Some'. right. by apply P8.
Qed.

Lemma validateSplitDelta_Ok op d : validateSplitDelta op d = Ok tt ->
  Succeeded (delta_Result d) = true -> row_Key (res_Row (delta_Result d)) = Key (delta_Command d).
Proof.
  unfold validateSplitDelta. intros H Hs. inv_res. rewrite Hs in H. bool_to_prop. cbn [andb] in H. bool_to_prop.
  by repeat match goal with E : beq _ _ = true |- _ => apply beq_true in E end.
Qed.

Lemma store_failure m r : VersionConflict r || PreconditionFailed r = true -> store_result m r = m.
Proof.
  unfold store_result, Succeeded, VersionConflict, PreconditionFailed. intros H.
  apply orb_true_iff in H as [H|H]; apply bool_decide_eq_true in H; by rewrite H.
Qed.

(** One delta on the two images of a row map. *)
Lemma applyTransferDelta_images op m d : keyed m -> validateSplitDelta op d = Ok tt ->
  applyTransferDelta (rows_of (in_left op) m) (rows_of (in_right op) m) d op
  = (rows_of (in_left op) (store_result m (delta_Result d)), rows_of (in_right op) (store_result m (delta_Result d)),
     delta_Sequence d, delta_Sequence d).
Proof.
  intros Hm Hv0. pose proof (validateSplitDelta_Ok op d Hv0) as Hv. unfold applyTransferDelta.
  destruct (VersionConflict _ || PreconditionFailed _) eqn:Hf; [by rewrite store_failure|]. clear Hf.
  change (Contains (op_left op) (Key (delta_Command d))) with (in_left op (Key (delta_Command d))).
  destruct (in_left op (Key (delta_Command d))) eqn:Hk.
  - rewrite rows_of_store; [|by intros Hs; rewrite Hv|done]. rewrite (rows_of_other (in_right op)); [done| |done].
    intros Hs. unfold in_right. by rewrite Hv, Hk.
  - rewrite (rows_of_store (in_right op)); [|intros Hs; unfold in_right; by rewrite Hv, Hk|done].
    rewrite rows_of_other; [done| |done]. intros Hs. by rewrite Hv.
Qed.

(** Applied in order from sequence [a] on, retained deltas turn the images of
    the rows at [a] into the images of the rows at the last sequence. *)
Lemma catch_up_loop_images h op base ds : split_ok h op -> keyed base -> op_barrier op + len (h_deltas h) <= max_uint64 ->
  forall a left right l r la ra,
  Forall (fun d => d ∈ h_deltas h) ds -> op_barrier op <= a <= op_barrier op + len (h_deltas h) ->
  let rows_at := fun a => apply_deltas base (take (Z.to_nat (a - op_barrier op)) (h_deltas h)) in
  left = rows_of (in_left op) (rows_at a) -> right = rows_of (in_right op) (rows_at a) ->
  catch_up_loop op ds left right a a = Ok (l, r, la, ra) ->
  la = ra /\ a <= la <= op_barrier op + len (h_deltas h)
  /\ l = rows_of (in_left op) (rows_at la) /\ r = rows_of (in_right op) (rows_at la)
  /\ (forall n, a < n <= la -> exists d, d ∈ ds /\ delta_Sequence d = n).
Proof.
  intros Hop Hb Hmax. induction ds as [|d ds IH]; intros a left right l r la ra Hf Ha rows_at -> -> H.
  { injection H as <- <- <- <-. split_and!; try done; [lia..|]. intros n Hn. lia. }
  apply Forall_cons in Hf as [Hd Hf]. destruct (retained_at h op d Hop Hd) as [Hrange Hat].
  cbn [catch_up_loop] in H. inv_res. destruct (splitDeltaDigest d) as [digest|]; [|done]. inv_res. bool_to_prop.
  pose proof (sp_barrier h op Hop).
  assert (delta_Sequence d = a + 1) as Hseq.
  { unfold uint64 in *. destruct (Z.eq_dec a max_uint64) as [->|].
    - change ((max_uint64 + 1) mod 2 ^ 64) with 0 in *. lia.
    - rewrite Z.mod_small in * by (unfold max_uint64 in *; lia). lia. }
  rewrite applyTransferDelta_images in H; [|by apply apply_deltas_keyed|done].
  assert (store_result (rows_at a) (delta_Result d) = rows_at (a + 1)) as Hnext.
  { unfold rows_at. replace (Z.to_nat (a + 1 - op_barrier op)) with (S (Z.to_nat (a - op_barrier op))) by lia.
    replace (delta_Sequence d - op_barrier op - 1) with (a - op_barrier op) in Hat by lia.
    rewrite (take_S_r _ _ _ Hat), apply_deltas_app. done. }
  rewrite Hnext, Hseq in H. apply IH in H as (-> & Hla & -> & -> & Hex); [|done|lia|done|done].
  split_and!; try done; try lia. intros n Hn. destruct (Z.eq_dec n (a + 1)) as [->|].
  - exists d. split; [by left|done].
  - destruct (Hex n) as (x & Hx & Hxn); [lia|]. exists x. split; [by right|done].
Qed.

Lemma elem_of_ordered_deltas m d : d ∈ ordered_deltas m <-> exists n, m !! n = Some d.
Proof.
  unfold ordered_deltas. rewrite merge_sort_Permutation, list_elem_of_fmap. split.
  - intros ([n x] & -> & H%elem_of_map_to_list). by exists n.
  - intros [n H]. exists (n, d). by rewrite elem_of_map_to_list.
Qed.

Lemma ordered_retained h op : split_ok h op -> Forall (fun d => d ∈ h_deltas h) (ordered_deltas (op_deltas op)).
Proof. intros Hop. apply Forall_forall. intros d [n Hn]%elem_of_ordered_deltas. apply (sp_delivered _ _ Hop n d Hn). Qed.

(** A delta that was already applied stops the catch-up. *)
Lemma catch_up_loop_stale op d ds left right a x :
  0 < delta_Sequence d <= a -> a <= max_uint64 -> catch_up_loop op (d :: ds) left right a a <> Ok x.
Proof.
  intros Hd Ha H. cbn [catch_up_loop] in H. inv_res. bool_to_prop. unfold uint64 in *.
  destruct (Z.eq_dec a max_uint64) as [->|].
  - change ((max_uint64 + 1) mod 2 ^ 64) with 0 in *. lia.
  - rewrite Z.mod_small in * by (unfold max_uint64 in *; lia). lia.
Qed.

(** Once a catch-up has applied something, no later one applies anything: the
    first delivered delta is not the next one. *)
Lemma CatchUp_stuck h op : harness_ok h -> operation h = Some op ->
  op_barrier op < leftApplied op \/ cutover h = true -> fst (CatchUp h) = h
  \/ op_deltas op = ∅ /\ fst (CatchUp h) = set_operation h (with_applied (with_rows op (leftRows op) (rightRows op)) (leftApplied op) (rightApplied op)).
Proof.
  intros Hh Ho Hlt. pose proof (ho_operation h Hh) as Hop. rewrite Ho in Hop. pose proof (ho_sequence h Hh) as Hseq.
  pose proof (sp_barrier _ _ Hop) as Hb. unfold CatchUp. rewrite Ho, (sp_applied _ _ Hop), !cloneTransferMap_id.
  destruct (splitCatchUpScratchMemory _) as [?|]; [|by left].
  destruct (ordered_deltas (op_deltas op)) as [|d ds] eqn:Hds.
  - right. split; [|cbn [catch_up_loop]; by destruct (_ || _)]. apply map_empty. intros n.
    destruct (op_deltas op !! n) as [d|] eqn:Hn; [|done].
    assert (d ∈ ordered_deltas (op_deltas op)) as Hd by (apply elem_of_ordered_deltas; eauto). rewrite Hds in Hd. by apply elem_of_nil in Hd.
  - left. assert (0 < delta_Sequence d <= leftApplied op) as Hd.
    { assert (exists n, op_deltas op !! n = Some d) as [n Hn] by (apply elem_of_ordered_deltas; rewrite Hds; left).
      destruct (sp_delivered _ _ Hop n d Hn) as [Hin _]. destruct (retained_at h op d Hop Hin) as [Hr _]. split; [lia|].
      pose proof (sp_images _ _ Hop) as Him. destruct (cutover h); [destruct Him as (_ & _ & _ & _ & Him); lia|].
      destruct Hlt as [Hlt|]; [|done]. destruct (sp_caught_up _ _ Hop (op_barrier op + 1)) as [d1 Hd1]; [lia|].
      destruct (sp_delivered _ _ Hop _ _ Hd1) as [_ Hs1].
      assert (Sorted delta_le (d :: ds)) as Hsort.
      { rewrite <- Hds. apply Sorted_merge_sort. intros x y. unfold delta_le. lia. }
      assert (d1 ∈ d :: ds) as [->|Hin1]%elem_of_cons by (rewrite <- Hds; apply elem_of_ordered_deltas; eauto); [lia|].
      apply Sorted_StronglySorted in Hsort; [|intros x y z; unfold delta_le; lia].
      apply StronglySorted_inv in Hsort as [_ Hall]. rewrite Forall_forall in Hall. specialize (Hall d1 Hin1). unfold delta_le in Hall. lia. }
    destruct (catch_up_loop _ _ _ _ _ _) as [x|] eqn:Hx; [|done]. exfalso. eapply catch_up_loop_stale, Hx; [done|lia].
Qed.

Lemma with_applied_id op : with_applied (with_rows op (leftRows op) (rightRows op)) (leftApplied op) (rightApplied op) = op.
Proof. by destruct op. Qed.

Lemma set_operation_same h op : operation h = Some op -> set_operation h op = h.
Proof. destruct h; cbn. by intros ->. Qed.

Lemma CatchUp_ok h : harness_ok h -> harness_ok (fst (CatchUp h)).
Proof.
  intros Hh. destruct (operation h) as [op|] eqn:Ho; [|unfold CatchUp; by rewrite Ho].
  destruct (cutover h) eqn:Hcut.
  { destruct (CatchUp_stuck h op Hh Ho ltac:(by right)) as [->|[_ ->]]; [done|]. by rewrite with_applied_id, set_operation_same. }
  pose proof (ho_operation h Hh) as Hop. rewrite Ho in Hop. pose proof (ho_sequence h Hh) as Hseq.
  unfold CatchUp. rewrite Ho, (sp_applied _ _ Hop), !cloneTransferMap_id.
  destruct (splitCatchUpScratchMemory _) as [?|]; [|done].
  destruct (catch_up_loop _ _ _ _ _ _) as [[[[l r] la] ra]|] eqn:Hx; [|done].
  assert (harness_ok (set_operation h (with_applied (with_rows op l r) la ra))) as Hok; [|by destruct (_ || _)].
  pose proof (sp_images _ _ Hop) as Him. rewrite Hcut in Him. destruct Him as (Hn & base & Hb & Hrows & Hl & Hr).
  pose proof (sp_barrier _ _ Hop) as Hbar.
  destruct (catch_up_loop_images h op base _ Hop Hb ltac:(lia) (leftApplied op) _ _ _ _ _ _ (ordered_retained h op Hop) ltac:(lia) Hl Hr Hx)
    as (<- & Hla & El & Er & Hex).
  apply set_operation_ok; [done| |by rewrite Ho; intros ? [= <-]|congruence].
  destruct Hop as [P1 [Q1 Q2 Q3 Q4 Q5 Q6 Q7] P3 P4 P5 P6 P7 P8 P9].
  constructor; cbn [set_operation with_applied with_rows op_deltas leftApplied rightApplied op_barrier h_deltas sourceSequence cutover leftRows rightRows];
    rewrite ?Hcut; try done; [lia| |].
  - intros n Hn'. destruct (Z.le_gt_cases n (leftApplied op)); [apply P8; lia|].
    destruct (Hex n) as (d & [n' Hd]%elem_of_ordered_deltas & <-); [lia|]. destruct (P6 _ _ Hd) as [_ ->]. eauto.
  - split; [done|]. exists base. done.
Qed.

(** ** Cutover *)

(** A refused replacement whose range IDs are all new leaves the catalog as it was. *)
Lemma replaceLocked_refused c v ds order c' e :
  catalog_ok c -> (forall d, d ∈ next_image ds -> Range.history c !! RangeID d = None) ->
  Z.of_nat (size (Range.history c)) + len ds <= 2 * maxRangeDescriptors -> map_order (Range.history c) order ->
  replaceLocked c v ds true order = (c', Fail e) -> c' = c.
Proof.
  intros Hc Hnew Hsize Hord. unfold replaceLocked. change (sort_by Start (cloneDescriptors ds)) with (next_image ds).
  destruct (fail_if ((v =? 0) || (true && (v <=? version c))) _) as [[]|e1]; cbn [mbind result_bind]; [|by intros [= <-]].
  match goal with |- context [match ?m with Ok _ => _ | Fail _ => _ end] => destruct m as [x|e2] eqn:Hchk end; [|by intros [= <-]].
  apply image_checks_Ok in Hchk as [Hi ->]. pose proof (cat_version c Hc).
  replace (negb (version c =? 0)) with true by (symmetry; apply negb_true_iff, Z.eqb_neq; lia).
  destruct (check_history _ _ _ _) as [hist r1] eqn:Hh.
  destruct (check_history_full _ _ _ _ _ _ Hord Hh) as [H1 H2].
  assert (r1 = Ok tt) as ->.
  { apply H1. intros id old d Ho [Hd <-]%index_lookup; [|apply Hi]. rewrite Hnew in Ho by done. done. }
  rewrite H2, size_retire_absent, size_index, len_next_image by (done || apply Hi).
  rewrite (proj2 (Z.ltb_ge _ _)) by lia. done.
Qed.

Lemma Contains_with_phase d p k : Contains (with_phase d p) k = Contains d k.
Proof. done. Qed.

Lemma Clone_child h op : children_ok h op -> Clone (op_left op) = op_left op /\ Clone (op_right op) = op_right op.
Proof.
  intros Hc. destruct (ch_boundary h op Hc) as (b & Hb & _ & H2 & _ & H4). unfold Clone. rewrite H2, H4.
  split; [|destruct (op_right op); cbn in *; by subst]. destruct b; [done|]. destruct (op_left op); cbn in *; by subst.
Qed.

(** The descriptors a cutover publishes. *)
Definition serving_left (op : splitOperation) : RangeDescriptor := with_phase (op_left op) RangeServing.
Definition serving_right (op : splitOperation) : RangeDescriptor := with_phase (op_right op) RangeServing.

Lemma next_image_children h op : children_ok h op ->
  next_image [serving_left op; serving_right op] = [serving_left op; serving_right op].
Proof.
  intros Hc. destruct (ch_boundary h op Hc) as (b & Hb & H1 & H2 & H3 & H4).
  unfold next_image. cbn [cloneDescriptors map].
  replace (Clone (serving_left op)) with (serving_left op).
  2:{ unfold Clone, serving_left, with_phase. cbn. rewrite H2. by destruct b. }
  replace (Clone (serving_right op)) with (serving_right op).
  2:{ unfold Clone, serving_right, with_phase. cbn. by rewrite H4. }
  apply sort_tiling.
  - cbn. rewrite H1, H2, H3, H4. done.
  - repeat constructor; unfold span_ok, serving_left, serving_right, with_phase; cbn; rewrite ?H1, ?H2, ?H3, ?H4; [by destruct b|done].
  - cbn. rewrite H1, H3. apply NoDup_cons. split; [|apply NoDup_singleton]. intros ?%list_elem_of_singleton. by subst.
Qed.

Definition cut_over (h : SplitHarness) (op : splitOperation) (c : RangeCatalog) : SplitHarness :=
  set_cutover (set_operation (set_catalog h (Some c)) (with_children op (serving_left op) (serving_right op))).

(** What a cutover does: nothing, or the switch to both children at once. *)
Lemma Cutover_cases h op order : harness_ok h -> operation h = Some op -> cutover h = false ->
  (forall c, catalog h = Some c -> map_order (Range.history c) order) ->
  (exists e, Cutover h order = (h, Fail e))
  \/ leftApplied op = sourceSequence h /\ exists c, Cutover h order = (cut_over h op c, Ok tt)
     /\ descriptors c = [serving_left op; serving_right op].
Proof.
  intros Hh Ho Hcut Hord. pose proof (ho_operation h Hh) as Hop. rewrite Ho in Hop. pose proof (sp_children _ _ Hop) as Hch.
  destruct (Clone_child h op Hch) as [E1 E2]. unfold Cutover. rewrite Ho, Hcut, E1, E2, (sp_applied _ _ Hop).
  destruct (Z.eqb_spec (leftApplied op) (sourceSequence h)) as [Ha|]; cbn [negb orb]; [|left; eauto].
  destruct (ValidateWithoutConfState _ _) as [[]|e]; [|left; eauto]. change (with_phase (op_left op) RangeServing) with (serving_left op).
  change (with_phase (op_right op) RangeServing) with (serving_right op).
  match goal with |- context [if ?b then (h, Fail ErrSplitQuorum) else _] => destruct b; [left; eauto|] end.
  match goal with |- context [if ?b then (h, Fail (SplitRange (ErrCatalogStale ""))) else _] => destruct b; [left; eauto|] end.
  pose proof (ho_catalog h Hh) as Hc. rewrite Hcut in Hc. destruct (catalog h) as [c|] eqn:Hcat; [|done]. destruct Hc as (Hcok & Hv & Hhist).
  specialize (Hord c eq_refl). unfold Replace. destruct (replaceLocked c _ _ true order) as [c' r] eqn:Hr.
  pose proof (next_image_children h op Hch) as Hnext.
  destruct r as [[]|e].
  - right. split; [done|]. exists c'. destruct (replaceLocked_Ok _ _ _ _ _ _ Hcok Hord Hr) as [_ Hc']. rewrite (Hc' eq_refl).
    split; [done|]. unfold replaced. cbn [descriptors]. exact Hnext.
  - left. exists (SplitRange e). assert (c' = c) as ->; [|by destruct h; cbn in *; subst].
    eapply replaceLocked_refused; [done| | |done|done].
    + rewrite Hnext, Hhist. intros d Hd. apply lookup_singleton_ne. intros E.
      apply elem_of_cons in Hd as [->|Hd%list_elem_of_singleton]; [|subst d].
      * by apply (ch_left _ _ Hch).
      * by apply (ch_right _ _ Hch).
    + rewrite Hhist, map_size_singleton. unfold maxRangeDescriptors. change (len [serving_left op; serving_right op]) with 2. lia.
Qed.

Lemma cut_over_ok h op c : harness_ok h -> operation h = Some op -> cutover h = false ->
  leftApplied op = sourceSequence h -> descriptors c = [serving_left op; serving_right op] -> harness_ok (cut_over h op c).
Proof.
  intros Hh Ho Hcut Ha Hd. pose proof (ho_operation h Hh) as Hop. rewrite Ho in Hop.
  pose proof (sp_images _ _ Hop) as Him. rewrite Hcut in Him. destruct Him as (Hn & base & Hb & Hrows & Hl & Hr).
  constructor; cbn [cut_over set_cutover set_operation set_catalog catalog h_source sourceRows sourceSequence sourceEpoch operation cutover];
    try apply Hh.
  - done.
  - eauto.
  - destruct Hop as [P1 [Q1 Q2 Q3 Q4 Q5 Q6 Q7] P3 P4 P5 P6 P7 P8 P9].
    constructor; try done.
    cbn [cut_over set_cutover set_operation set_catalog cutover with_children leftRows rightRows op_barrier h_deltas leftApplied].
    rewrite Hl, Hr. split_and!; [by apply rows_of_keyed, apply_deltas_keyed..| | |lia].
    + intros id x [_ Hx]%lookup_rows_of. done.
    + intros id x [_ Hx]%lookup_rows_of. done.
Qed.

Lemma Cutover_ok h order : harness_ok h -> (forall c, catalog h = Some c -> map_order (Range.history c) order) ->
  harness_ok (fst (Cutover h order)).
Proof.
  intros Hh Hord. destruct (operation h) as [op|] eqn:Ho; [|unfold Cutover; by rewrite Ho].
  destruct (cutover h) eqn:Hcut; [unfold Cutover; by rewrite Ho, Hcut|].
  destruct (Cutover_cases h op order Hh Ho Hcut Hord) as [[e ->]|(Ha & c & -> & Hd)]; [done|]. by apply cut_over_ok.
Qed.

Lemma write_ok h c : harness_ok h -> (cutover h = true -> sourceSequence h < max_uint64) -> harness_ok (fst (Write h c)).
Proof.
  intros Hh Hseq. unfold Write. destruct (validateCommand c) as [[]|] eqn:Hc; [|done].
  destruct (operations h !! OperationID c); [done|]. destruct (cutover h) eqn:Hcut.
  - pose proof (ho_operation h Hh) as Hop. destruct (operation h) as [op|] eqn:Ho; [|done].
    destruct (write_child_ok h op Hop Hcut c Hh (Hseq eq_refl) Hc) as (op' & digest & -> & _ & Hs & E1 & E2). cbn [fst].
    apply (harness_ok_frame (set_operation (set_sequence h (sourceSequence h + 1)) op')); try done.
    apply set_operation_ok; [|done| |by intros H; cbn in H; congruence].
    + pose proof (ho_sequence h Hh). specialize (Hseq eq_refl). destruct Hh as [? ? ? ? ? ? ? Hop']. constructor; try done.
      * cbn. lia.
      * cbn [set_sequence operation]. rewrite Ho in *. destruct Hop as [P1 [] P3 P4 P5 P6 P7 P8 P9].
        constructor; try done; cbn [set_sequence cutover sourceSequence]; [lia|]. rewrite Hcut in *. done.
    + intros old Hold. cbn in Hold. rewrite Ho in Hold. injection Hold as <-. done.
  - destruct (write_source_cases h c Hh Hc) as [->|(Hm & digest & ->)]; [done|]. cbn [fst]. by apply written_ok.
Qed.

Lemma step_ok h h' : harness_ok h -> step h h' -> harness_ok h'.
Proof.
  intros Hh [h1 []|]; [| | |by apply BeginSplit_ok|by apply DeliverDelta_ok|by apply CatchUp_ok|by apply Cutover_ok|by apply write_ok].
  - unfold RegisterSecondary. match goal with |- context [match ?m with Ok _ => _ | Fail _ => _ end] => destruct m end; [|done].
    by apply (harness_ok_frame h).
  - unfold SetLeader. destruct (_ && _); [|done]. by apply (harness_ok_frame h).
  - unfold SetSecondaryAvailable. destruct (replicas h !! id); [|done]. by apply (harness_ok_frame h).
Qed.

Lemma reachable_harness_ok h : reachable h -> harness_ok h.
Proof. induction 1; [by eapply NewSplitHarness_ok|by eapply step_ok]. Qed.

(** ** The simulation *)

Lemma Read_abs h t k : harness_ok h ->
  Read h t k = match st_rows (abs h) !! splitRowID t k with Some r => Ok r | None => Fail ErrSplitNotFound end.
Proof.
  intros Hh. unfold Read, abs, serving_rows. cbn [st_rows]. pose proof (ho_operation h Hh) as Hop.
  destruct (cutover h) eqn:Hcut; [|by destruct (sourceRows h !! _); rewrite ?cloneTransferRow_id].
  destruct (operation h) as [op|] eqn:Ho; [|by destruct Hop]. rewrite (children_lookup h op Hop Hcut).
  rewrite (in_right_spec h op k (sp_children _ _ Hop)). unfold in_right. change (Contains (op_left op) k) with (in_left op k).
  destruct (in_left op k); cbn [negb]; by destruct (_ !! _); rewrite ?cloneTransferRow_id.
Qed.

Lemma CatchUp_abs h : harness_ok h -> abs (fst (CatchUp h)) = abs h.
Proof.
  intros Hh. destruct (operation h) as [op|] eqn:Ho; [|unfold CatchUp; by rewrite Ho].
  destruct (cutover h) eqn:Hcut.
  { destruct (CatchUp_stuck h op Hh Ho ltac:(by right)) as [->|[_ ->]]; [done|]. by rewrite with_applied_id, set_operation_same. }
  unfold CatchUp. rewrite Ho. destruct (splitCatchUpScratchMemory _) as [?|]; [|done].
  destruct (catch_up_loop _ _ _ _ _ _) as [[[[l r] la] ra]|]; [|done].
  destruct (_ || _); unfold abs, serving_rows; cbn; by rewrite Hcut.
Qed.

Lemma Cutover_abs h order : harness_ok h -> (forall c, catalog h = Some c -> map_order (Range.history c) order) ->
  abs (fst (Cutover h order)) = abs h.
Proof.
  intros Hh Hord. destruct (operation h) as [op|] eqn:Ho; [|unfold Cutover; by rewrite Ho].
  destruct (cutover h) eqn:Hcut; [unfold Cutover; by rewrite Ho, Hcut|].
  destruct (Cutover_cases h op order Hh Ho Hcut Hord) as [[e ->]|(Ha & c & -> & Hd)]; [done|].
  pose proof (ho_operation h Hh) as Hop. rewrite Ho in Hop. pose proof (sp_images _ _ Hop) as Him. rewrite Hcut in Him.
  destruct Him as (Hn & base & Hb & Hrows & Hl & Hr). unfold abs, serving_rows. cbn. rewrite Hcut, Hl, Hr. f_equal.
  rewrite firstn_all2 by (unfold len in Hn; lia). rewrite <- Hrows. apply rows_of_union.
Qed.

Lemma internal_abs h h' : harness_ok h -> internal h h' -> abs h' = abs h.
Proof.
  intros Hh []; [| | | | |by apply CatchUp_abs|by apply Cutover_abs].
  - unfold RegisterSecondary. match goal with |- context [match ?m with Ok _ => _ | Fail _ => _ end] => by destruct m end.
  - unfold SetLeader. by destruct (_ && _).
  - unfold SetSecondaryAvailable. by destruct (replicas h !! id).
  - unfold BeginSplit. pose proof (ho_operation h Hh) as Hop.
    match goal with |- context [match ?m with Ok _ => _ | Fail _ => _ end] => destruct m as [op|] eqn:Hm; [|done] end.
    inv_res. bool_to_prop. destruct (operation h) eqn:Ho; [exfalso; naive_solver|]. destruct Hop as [Hcut _].
    unfold abs, serving_rows. cbn. by rewrite Hcut.
  - unfold DeliverDelta. destruct (operation h) as [op|] eqn:Ho; [|done].
    destruct ((_ <=? _) || (_ <? delta_Sequence d)); [done|]. destruct (validateSplitDelta op d) as [[]|]; [|done].
    destruct (splitDeltaDigest d) as [digest|]; [|done].
    destruct (deltaDigests op !! delta_Sequence d) as [p|]; [by destruct (negb _)|].
    destruct ((maxSplitDeltas <=? _) || _); [done|]. unfold abs, serving_rows. cbn. rewrite Ho. by destruct (cutover h).
Qed.

Lemma Write_abs h c : harness_ok h -> (cutover h = true -> sourceSequence h < max_uint64) -> validateCommand c = Ok tt ->
  Write h c = (h, Fail split_backpressure)
  \/ snd (Write h c) = Ok (snd (store_write (abs h) c)) /\ abs (fst (Write h c)) = fst (store_write (abs h) c).
Proof.
  intros Hh Hseq Hc. unfold Write. rewrite Hc. unfold store_write. cbn [abs st_results st_rows st_sequence]. rewrite lookup_fmap.
  destruct (operations h !! OperationID c) as [stored|]; [by right|]. cbn [fmap option_fmap option_map].
  unfold serving_rows. destruct (cutover h) eqn:Hcut.
  - pose proof (ho_operation h Hh) as Hop. destruct (operation h) as [op|] eqn:Ho; [|destruct Hop; congruence]. right.
    destruct (write_child_ok h op Hop Hcut c Hh (Hseq eq_refl) Hc) as (op' & digest & -> & E & _). cbn [fst snd].
    split; [done|]. unfold abs, serving_rows. cbn. by rewrite Hcut, E, fmap_insert.
  - destruct (write_source_cases h c Hh Hc) as [->|(Hm & digest & ->)]; [by left|right]. split; [done|]. cbn [fst snd].
    unfold abs, serving_rows. cbn. by rewrite Hcut, fmap_insert.
Qed.

End refine.
