(* ===== verification/SplitOutcome.v ===== *)
(** How a split ends: the old owner is fenced by the cutover, a catch-up that
    starts with every retained delta delivered leads to the cutover, and a
    write between a catch-up and the cutover stops the split for good.
    Concrete runs of the harness are at the end. *)

From Stdlib Require Import ZArith Lia Sorting.Sorted.
From stdpp Require Import base list gmap sorting relations.
From S2P Require Import Prelude GoStd Uuidv7 Coordinates Range Command State Snapshot.
From S2P Require Import SplitTypes SplitCodec SplitHarness SplitRefine.

Local Open Scope Z_scope.

Section outcome.
Context {canon : Canonicalizer}.

(** ** Fencing *)

(** The child that owns a key after the cutover. *)
Definition owner (op : splitOperation) (key : bytes) : RangeDescriptor :=
  if in_left op key then op_left op else op_right op.

Lemma owner_routes h op key : harness_ok h -> operation h = Some op -> cutover h = true ->
  exists c, catalog h = Some c /\ descriptorForKey c key = Some (owner op key) /\ Clone (owner op key) = owner op key
    /\ Phase (owner op key) = RangeServing /\ RangeID (owner op key) <> RangeID (h_source h).
Proof.
  intros Hh Ho Hcut. pose proof (ho_operation h Hh) as Hop. rewrite Ho in Hop. pose proof (sp_children _ _ Hop) as Hch.
  pose proof (ho_catalog h Hh) as Hc. rewrite Hcut in Hc. destruct (catalog h) as [c|]; [|done].
  destruct Hc as (op' & Hop' & Hd). rewrite Ho in Hop'. injection Hop' as <-. exists c.
  destruct (Clone_child h op Hch) as [E1 E2]. destruct (ch_phase _ _ Hch) as [F1 F2]. rewrite Hcut in F1, F2.
  split; [done|]. unfold descriptorForKey. rewrite Hd. cbn [List.find]. change (Contains (op_left op) key) with (in_left op key).
  rewrite (in_right_spec h op key Hch). unfold owner, in_right.
  destruct (in_left op key); cbn [negb]; split_and!; try done; apply Hch.
Qed.

(** C38: After the cutover the old owner is fenced and the children serve: a
    write addressed to the source range, at whatever generation, epoch and
    group, is refused without any effect and is told the child that owns the
    key now; the source's leader and the stale-owner path are refused too; and
    the child's own address reaches the write path. *)
Theorem old_owner_is_fenced h op c : reachable h -> operation h = Some op -> cutover h = true ->
  (forall generation epoch group,
     WriteAtOwner h c (RangeID (h_source h)) generation epoch [group]
     = (h, Fail (SplitRange (ErrRangeMoved (mkMoved (RangeID (h_source h)) generation epoch group [owner op (Key c)])))))
  /\ (forall id term epoch, WriteAtLeader h c id term epoch = (h, Fail ErrSplitGeneration))
  /\ (forall generation epoch group, StaleOwnerWrite h c generation epoch group = SplitRangeMoved)
  /\ let d := owner op (Key c) in
     WriteAtOwner h c (RangeID d) (Generation d) (OwnerEpoch d) [GroupID d] = Write h c.
Proof.
  intros Hh%reachable_harness_ok Ho Hcut. destruct (owner_routes h op (Key c) Hh Ho Hcut) as (ct & Hc & Hk & Hcl & Hph & Hid).
  split_and!.
  - intros generation epoch group. unfold WriteAtOwner, RouteAt. rewrite Hc, Hk, (proj2 (beq_false _ _) Hid). cbn [negb orb]. by rewrite Hcl.
  - intros. unfold WriteAtLeader. by rewrite Hcut, orb_true_r.
  - intros. unfold StaleOwnerWrite. by rewrite Hcut.
  - cbn zeta. unfold WriteAtOwner, RouteAt. rewrite Hc, Hk, Ho, !beq_refl, !Z.eqb_refl, Hph, Hcl. cbn [negb orb is_phase].
    change (is_phase RangeServing RangeServing) with true. cbn [negb].
    unfold owner. destruct (in_left op (Key c)); rewrite beq_refl; cbn [negb]; by rewrite ?andb_false_r.
Qed.

(** ** The stop *)

(** A split that applied some deltas and then fell behind its source. *)
Definition wedged (h : SplitHarness) : Prop :=
  exists op, operation h = Some op /\ cutover h = false /\ op_barrier op < leftApplied op < sourceSequence h.

Lemma wedged_step h h' : harness_ok h -> wedged h -> step h h' -> wedged h'.
Proof.
  intros Hh (op & Ho & Hcut & Hlt) [h1 []|c _].
  - unfold RegisterSecondary. match goal with |- context [match ?m with Ok _ => _ | Fail _ => _ end] => destruct m end; by exists op.
  - unfold SetLeader. destruct (_ && _); by exists op.
  - unfold SetSecondaryAvailable. destruct (replicas h !! id); by exists op.
  - unfold BeginSplit. rewrite Ho, (bool_decide_eq_true_2 (is_Some (Some op))) by eauto. by exists op.
  - unfold DeliverDelta. rewrite Ho. destruct ((_ <=? _) || (_ <? delta_Sequence d)); [by exists op|].
    destruct (validateSplitDelta op d) as [[]|]; [|by exists op]. destruct (splitDeltaDigest d) as [digest|]; [|by exists op].
    destruct (deltaDigests op !! delta_Sequence d) as [p|]; [destruct (negb _); by exists op|].
    destruct ((maxSplitDeltas <=? _) || _); [by exists op|]. by exists (with_delta op d digest).
  - destruct (CatchUp_stuck h op Hh Ho ltac:(left; lia)) as [->|[_ ->]]; [by exists op|]. rewrite with_applied_id. by exists op.
  - unfold Cutover. rewrite Ho, Hcut. rewrite (proj2 (Z.eqb_neq _ _)) by lia. by exists op.
  - unfold Write. destruct (validateCommand c) as [[]|] eqn:Hc; [|by exists op].
    destruct (operations h !! OperationID c); [by exists op|]. rewrite Hcut.
    destruct (write_source_cases h c Hh Hc) as [->|(Hm & digest & ->)]; [by exists op|]. exists op. cbn. split_and!; [done..|lia|lia].
Qed.

(** A split cannot recover from a write between a catch-up and the
    cutover.  Once a catch-up has applied a delta and the source has moved on,
    whatever is called afterwards (deliveries and catch-ups included) the
    split stays active and every cutover is refused with the barrier error. *)
Theorem late_write_stops_split h op h' order : reachable h -> operation h = Some op -> cutover h = false ->
  op_barrier op < leftApplied op < sourceSequence h -> rtc step h h' ->
  cutover h' = false /\ Cutover h' order = (h', Fail ErrSplitBarrier).
Proof.
  intros Hr Ho Hcut Hlt Hsteps. assert (wedged h) as Hw by (by exists op). clear op Ho Hcut Hlt.
  assert (wedged h') as (op & Ho & Hcut & Hlt).
  { induction Hsteps as [h|h h1 h2 Hs _ IH]; [done|]. apply IH; [by eapply reach_step|].
    eapply wedged_step; [by apply reachable_harness_ok|done|done]. }
  split; [done|]. unfold Cutover. rewrite Ho, Hcut. by rewrite (proj2 (Z.eqb_neq _ _)) by lia.
Qed.

(** ** The happy path *)

Lemma genuine_valid h op n d : harness_ok h -> split_ok h op -> genuine h n d ->
  validateSplitDelta op d = Ok tt /\ is_Some (splitDeltaDigest d).
Proof.
  intros Hh Hop (m & c & Hc & Hn & ->). pose proof (sp_source _ _ Hop) as Hs. pose proof (ho_span h Hh) as [H1 H2].
  split; [|by apply evaluate_digest]. unfold validateSplitDelta. rewrite Hs. unfold splitDeltaFor.
  cbn [SourceRangeID SourceStart SourceEndIsInfinity SourceEnd SourceGeneration SourceEpoch SourceOwnerEpoch SourceGroupID
       SourceVoters SourceConfigFingerprint SourcePhase delta_Command delta_Result delta_Sequence].
  rewrite !beq_refl, !Z.eqb_refl, (proj2 (equalUint64_spec _ _) eq_refl), (ho_epoch h Hh), cloneCommand_id.
  change (OwnerEpoch (served h)) with (OwnerEpoch (h_source h)). rewrite Z.eqb_refl, Hc.
  rewrite bool_decide_eq_true_2 by done. change (is_phase (Phase (served h)) (Phase (served h))) with true.
  rewrite andb_false_r. cbn [negb orb fail_if mbind result_bind is_ok].
  destruct (evaluate_cases m c n) as (Hcmd & Hcase). set (r := evaluateTransferCommand m c n) in *.
  rewrite Hcmd, (EncodeCommand_bytes c) by (by apply validateCommand_Ok). rewrite beq_refl. cbn [negb fail_if mbind result_bind].
  unfold r. rewrite evaluate_encodes by done. fold r. cbn [is_ok negb fail_if mbind result_bind].
  assert (Contains (served h) (Key c) = true) as ->.
  { unfold Contains. cbn. by rewrite H1, H2, ble_nil. }
  rewrite (in_right_spec h op _ (sp_children _ _ Hop)). unfold in_right. change (Contains (op_left op) (Key c)) with (in_left op (Key c)).
  destruct (in_left op (Key c)); cbn [negb orb andb fail_if mbind result_bind];
    (destruct Hcase as [(Hst & _)|(Hst & Hrow)]; unfold Succeeded; rewrite Hst; [done|]; rewrite Hrow;
     cbn [row_Sequence row_Table row_Key row_Version row_Value]; by rewrite Z.eqb_refl, !beq_refl).
Qed.

(** The delivered deltas, all of them, come back in the source's order. *)
Lemma ordered_all h op : split_ok h op -> (forall d, d ∈ h_deltas h -> op_deltas op !! delta_Sequence d = Some d) ->
  ordered_deltas (op_deltas op) = h_deltas h.
Proof.
  intros Hop Hall.
  assert (forall i d, h_deltas h !! i = Some d -> delta_Sequence d = op_barrier op + 1 + Z.of_nat i) as Hseq.
  { intros i d Hi. by apply (genuine_sequence h), (sp_deltas _ _ Hop). }
  assert (StronglySorted delta_le (h_deltas h)) as Hs.
  { clear Hall. revert Hseq. generalize (op_barrier op + 1). induction (h_deltas h) as [|d ds IH]; intros z Hz; constructor.
    - apply (IH (z + 1)). intros i x Hi. rewrite (Hz (S i) x Hi). lia.
    - apply Forall_forall. intros x [i Hi]%list_elem_of_lookup_1. unfold delta_le. rewrite (Hz 0%nat d eq_refl), (Hz (S i) x Hi). lia. }
  assert (NoDup (h_deltas h)) as Hn.
  { apply NoDup_alt. intros i j d Hi Hj. apply Hseq in Hi, Hj. lia. }
  assert (ordered_deltas (op_deltas op) ≡ₚ h_deltas h) as Hp.
  { apply NoDup_Permutation; [|done|].
    - unfold ordered_deltas. rewrite merge_sort_Permutation. apply NoDup_fmap_2_strong; [|apply NoDup_map_to_list].
      intros [n x] [n' y] Hx Hy E. cbn in E. subst y. apply elem_of_map_to_list in Hx, Hy.
      apply (sp_delivered _ _ Hop) in Hx as [_ <-], Hy as [_ <-]. done.
    - intros d. rewrite elem_of_ordered_deltas. split; [|by eauto]. intros [n Hd]. by apply (sp_delivered _ _ Hop n d). }
  assert (StronglySorted delta_le (ordered_deltas (op_deltas op))) as Hso.
  { apply Sorted_StronglySorted; [intros x y z; unfold delta_le; lia|]. apply Sorted_merge_sort. intros x y. unfold delta_le. lia. }
  revert Hso Hp. generalize (ordered_deltas (op_deltas op)). intros l Hso Hp.
  assert (forall a b, a ∈ h_deltas h -> b ∈ h_deltas h -> delta_le a b -> delta_le b a -> a = b) as Hanti.
  { intros a b [i Hi]%list_elem_of_lookup_1 [j Hj]%list_elem_of_lookup_1 H1 H2. unfold delta_le in *.
    pose proof (Hseq i a Hi). pose proof (Hseq j b Hj). assert (i = j) as -> by lia. congruence. }
  clear -Hs Hso Hp Hanti. revert Hs Hp Hanti. generalize (h_deltas h). induction Hso as [|a l Hl IH Ha]; intros k Hk Hp Hanti.
  - by apply Permutation_nil_l in Hp.
  - destruct Hk as [|b k Hk Hb]; [by apply Permutation_nil_r in Hp|]. rewrite Forall_forall in Ha. rewrite Forall_forall in Hb.
    assert (a = b) as ->.
    { assert (a ∈ b :: k) as Hab by (rewrite <- Hp; left). assert (b ∈ a :: l) as Hba by (rewrite Hp; left).
      apply elem_of_cons in Hab as [?|Hab]; [done|]. apply elem_of_cons in Hba as [?|Hba]; [done|].
      apply Hanti; [by right|by left|by apply Ha|by apply Hb]. }
    f_equal. apply IH; [done|by apply Permutation_cons_inv in Hp|]. intros x y Hx Hy. apply Hanti; by right.
Qed.

Lemma catch_up_loop_all h op : harness_ok h -> split_ok h op -> op_barrier op + len (h_deltas h) <= max_uint64 ->
  (forall d, d ∈ h_deltas h -> op_deltas op !! delta_Sequence d = Some d) ->
  forall ds i left right, ds = drop i (h_deltas h) -> (i <= length (h_deltas h))%nat ->
  let a := op_barrier op + Z.of_nat i in
  exists l r, catch_up_loop op ds left right a a
    = Ok (l, r, op_barrier op + len (h_deltas h), op_barrier op + len (h_deltas h)).
Proof.
  intros Hh Hop Hmax Hall. pose proof (sp_barrier _ _ Hop). induction ds as [|d ds IH]; intros i left right Hds Hi a.
  - exists left, right. cbn [catch_up_loop]. apply (f_equal length) in Hds. rewrite length_drop in Hds. cbn in Hds.
    replace a with (op_barrier op + len (h_deltas h)) by (unfold a, len; lia). done.
  - assert (h_deltas h !! i = Some d) as Hd by (rewrite <- (Nat.add_0_r i), <- lookup_drop, <- Hds; done).
    pose proof (sp_deltas _ _ Hop i d Hd) as Hg. destruct (genuine_valid h op _ d Hh Hop Hg) as [Hv [digest Hdig]].
    pose proof (genuine_sequence _ _ _ Hg) as Hs. pose proof (lookup_lt_Some _ _ _ Hd) as Hlt.
    cbn [catch_up_loop]. rewrite Hv, Hdig, (sp_digests _ _ Hop), (Hall d) by (by eapply list_elem_of_lookup_2).
    cbn [mbind option_bind result_bind]. rewrite Hdig.
    change (default (replicate 32 x00) (Some digest)) with digest. rewrite beq_refl. cbn [negb fail_if mbind result_bind].
    assert (uint64 (a + 1) = a + 1) as -> by (unfold uint64; rewrite Z.mod_small; unfold a, len, max_uint64 in *; lia).
    rewrite Hs. replace (op_barrier op + 1 + Z.of_nat i =? a + 1) with true by (symmetry; apply Z.eqb_eq; unfold a; lia).
    cbn [negb orb fail_if mbind result_bind].
    destruct (applyTransferDelta left right d op) as [[[l1 r1] la] ra] eqn:Happ.
    assert (la = op_barrier op + Z.of_nat (S i) /\ ra = op_barrier op + Z.of_nat (S i)) as [-> ->].
    { unfold applyTransferDelta in Happ. destruct (_ || _); [|destruct (Contains _ _)]; injection Happ as <- <- <- <-; lia. }
    apply IH; [|lia]. apply (f_equal (drop 1)) in Hds. rewrite drop_drop in Hds. change (drop 1 (d :: ds)) with ds in Hds.
    rewrite Hds. f_equal. lia.
Qed.

(** The replacement of the source by two valid children is accepted. *)
Lemma Replace_children h op c order : harness_ok h -> split_ok h op -> cutover h = false -> catalog h = Some c ->
  map_order (Range.history c) order -> Validate (serving_left op) = Ok tt -> Validate (serving_right op) = Ok tt ->
  snd (Replace (Some c) (uint64 (Range.version c + 1)) [serving_left op; serving_right op] order) = Ok tt.
Proof.
  intros Hh Hop Hcut Hc Hord Hl Hr. pose proof (sp_children _ _ Hop) as Hch. pose proof (ho_catalog h Hh) as Hcat.
  rewrite Hc, Hcut in Hcat. destruct Hcat as (Hcok & Hv & Hhist). pose proof (next_image_children h op Hch) as Hnext.
  pose proof (cat_version c Hcok). pose proof (ch_generation _ _ Hch).
  assert (uint64 (version c + 1) = version c + 1) as -> by (unfold uint64; rewrite Z.mod_small; unfold max_uint64 in *; lia).
  unfold Replace. destruct (replaceLocked c _ _ true order) as [c' r] eqn:Hrep. cbn [snd].
  apply (replaceLocked_Ok _ _ _ _ _ _ Hcok Hord Hrep).
  destruct (ch_boundary _ _ Hch) as (b & Hb & H1 & H2 & H3 & H4).
  constructor.
  - lia.
  - rewrite Hnext. constructor; [change (1 <= 2 <= 4096); lia|by repeat constructor| |].
    + apply NoDup_cons. split; [|apply NoDup_singleton]. intros E%list_elem_of_singleton. by apply (ch_distinct _ _ Hch).
    + cbn. rewrite H1, H2, H3, H4. done.
  - rewrite Hnext, Hhist. intros d old Hd Ho. apply lookup_singleton_Some in Ho as [E _]. exfalso.
    apply elem_of_cons in Hd as [->|Hd%list_elem_of_singleton]; [by apply (ch_left _ _ Hch)|subst d; by apply (ch_right _ _ Hch)].
  - rewrite Hhist, map_size_singleton. change (1 + 2 <= 8192). lia.
Qed.

(** The evidence of a caught-up split has the right shape. *)
Lemma caught_up_shape h op sh lh rh cs q : harness_ok h -> split_ok h op -> cutover h = false ->
  ValidateWithoutConfState (mkProof (served h) (op_left op) (op_right op) (op_barrier op) (sourceSequence h) sh lh rh cs q)
    (Voters (h_source h)) = Ok tt.
Proof.
  intros Hh Hop Hcut. pose proof (sp_children _ _ Hop) as Hch. pose proof (sp_barrier _ _ Hop) as Hbar.
  destruct (ch_boundary _ _ Hch) as (b & Hb & H1 & H2 & H3 & H4). destruct (ho_span h Hh) as [H5 H6].
  destruct (ch_voters _ _ Hch) as [V1 V2]. destruct (ch_phase _ _ Hch) as [F1 F2]. rewrite Hcut in F1, F2.
  unfold ValidateWithoutConfState, ValidateShape.
  cbn [proof_Source proof_Left proof_Right proof_Barrier FinalSequence]. rewrite (ho_source _ Hh), F1, F2, V1, V2.
  cbn [served with_phase Voters Phase]. rewrite !(proj2 (equalUint64_spec _ _) eq_refl).
  rewrite (proj2 (Z.eqb_neq (op_barrier op) 0)), (proj2 (Z.ltb_ge (sourceSequence h) (op_barrier op))) by lia.
  change (is_phase RangeServing RangeServing) with true. change (is_phase RangeCatchingUp RangeCatchingUp) with true.
  cbn [is_ok negb orb fail_if mbind result_bind]. unfold same_shape, end_bytes, served.
  cbn [proof_Source proof_Left proof_Right with_phase RangeID Start End_]. rewrite H1, H2, H3, H4, H5, H6.
  change (default [] (Some b)) with b. rewrite !beq_refl.
  rewrite (proj2 (beq_false _ _) (ch_distinct _ _ Hch)), (proj2 (beq_false (RangeID (h_source h)) (RangeID (op_left op)))),
    (proj2 (beq_false (RangeID (h_source h)) (RangeID (op_right op)))) by (intros E; symmetry in E; revert E; apply Hch).
  done.
Qed.

Lemma ready_cutover h op c order : harness_ok h -> operation h = Some op -> cutover h = false -> catalog h = Some c ->
  map_order (Range.history c) order -> leftApplied op = sourceSequence h ->
  Validate (serving_left op) = Ok tt -> Validate (serving_right op) = Ok tt ->
  exists h', Cutover h order = (h', Ok tt) /\ cutover h' = true.
Proof.
  intros Hh Ho Hcut Hc Hord Happ Hvl Hvr. pose proof (ho_operation h Hh) as Hop. rewrite Ho in Hop.
  pose proof (sp_children _ _ Hop) as Hch. destruct (Clone_child h op Hch) as [E1 E2].
  destruct (ch_boundary _ _ Hch) as (b & Hb & H1 & H2 & H3 & H4). destruct (ho_span h Hh) as [H5 H6].
  pose proof (Replace_children h op c order Hh Hop Hcut Hc Hord Hvl Hvr) as Hrep. pose proof (ch_generation _ _ Hch).
  pose proof (ho_catalog h Hh) as Hcat. rewrite Hc, Hcut in Hcat. destruct Hcat as (_ & Hver & _).
  assert (Clone (op_source op) = served h) as Hsrc by (rewrite (sp_source _ _ Hop); apply Clone_valid, ho_source, Hh).
  unfold Cutover. rewrite Ho, Hcut, E1, E2, (sp_applied _ _ Hop), Happ, Z.eqb_refl, Hsrc, caught_up_shape by done. cbn [negb orb].
  unfold end_bytes. cbn [with_phase End_ Start]. rewrite H1, H2, H3, H4, H5, H6.
  change (default [] (Some b)) with b. rewrite !beq_refl, Hc. cbn [negb orb Range.Version]. rewrite bool_decide_eq_false_2 by done.
  rewrite (proj2 (Z.eqb_neq (version c) max_uint64)) by lia. cbn [orb].
  change (with_phase (op_left op) RangeServing) with (serving_left op). change (with_phase (op_right op) RangeServing) with (serving_right op).
  destruct (Replace _ _ _ _) as [c' r']. cbn [snd] in Hrep. subst r'. eauto.
Qed.

End outcome.

(** ** Concrete runs *)

#[local] Existing Instance number_canon.

Definition no_harness : SplitHarness := mkHarness None sample_source ∅ 0 0 0 0 ∅ [] 0 None ∅ false.
Definition no_operation : splitOperation :=
  mkOperation sample_source sample_source sample_source 0 sample_snapshot ∅ ∅ 0 0 ∅ ∅ ∅.
Definition started (rows : list Row) : SplitHarness :=
  match NewSplitHarness sample_source rows with Ok h => h | Fail _ => no_harness end.
Definition the_operation (h : SplitHarness) : splitOperation := default no_operation (operation h).
Definition the_catalog (h : SplitHarness) : RangeCatalog := default zero_catalog (catalog h).

Lemma started_reachable rows : is_ok (NewSplitHarness sample_source rows) = true ->
  Forall (fun r => is_u64 (row_Sequence r)) rows -> reachable (started rows).
Proof.
  intros Hok Hrows. unfold started. destruct (NewSplitHarness sample_source rows) as [h|] eqn:E; [|done].
  eapply reach_new; [exact E| |done]. repeat constructor; unfold max_uint64; cbn; lia.
Qed.

Lemma the_operation_Some h : bool_decide (is_Some (operation h)) = true -> operation h = Some (the_operation h).
Proof. unfold the_operation. destruct (operation h); done. Qed.

Lemma the_catalog_Some h : bool_decide (is_Some (catalog h)) = true -> catalog h = Some (the_catalog h).
Proof. unfold the_catalog. destruct (catalog h); done. Qed.

(** A split at "m" with one write after the barrier, delivered. *)
Definition split_rows : list Row := sample_rows.
Definition during : SplitHarness := fst (BeginSplit (started split_rows) (lit "m") (lit "left") (lit "right") false).
Definition late_put (op version : byte) (key value : bytes) : Command :=
  mkCommand (uuid_of op) (lit "users") key value (mkCondition None false) (uuid_of version).
Definition after_write : SplitHarness := fst (Write during (late_put x31 x41 (lit "bob") (lit "30"))).
Definition delivered : SplitHarness :=
  match h_deltas after_write with d :: _ => fst (DeliverDelta after_write d) | [] => after_write end.
Definition caught_up : SplitHarness := fst (CatchUp delivered).
Definition moved : SplitHarness := fst (Cutover caught_up [lit "r1"]).
Definition stopped : SplitHarness := fst (Write caught_up (late_put x32 x42 (lit "zoe") (lit "40"))).

Lemma sample_order h : map fst (map_to_list (Range.history (the_catalog h))) = [lit "r1"] ->
  forall c, catalog h = Some c -> map_order (Range.history c) [lit "r1"].
Proof. unfold the_catalog, map_order. intros H c Hc. rewrite Hc in H. cbn [default from_option id] in H. by rewrite H. Qed.

Lemma delivered_reachable : reachable delivered.
Proof.
  assert (reachable after_write) as Ha.
  { apply (reach_step during); [apply (reach_step (started split_rows)); [apply started_reachable|]|].
    - vm_compute. reflexivity.
    - repeat constructor; unfold max_uint64; cbn; lia.
    - apply step_internal, step_begin.
    - apply step_write. vm_compute. discriminate. }
  unfold delivered. destruct (h_deltas after_write) as [|d ds] eqn:Hd; [done|].
  eapply reach_step; [done|]. apply step_internal, step_deliver. rewrite Hd. left.
Qed.

Lemma caught_up_reachable : reachable caught_up.
Proof. eapply reach_step; [apply delivered_reachable|]. apply step_internal, step_catch_up. Qed.

Lemma moved_reachable : reachable moved.
Proof.
  eapply reach_step; [apply caught_up_reachable|]. apply step_internal, step_cutover, sample_order. vm_compute. reflexivity.
Qed.


Lemma old_owner_is_fenced_witness :
  WriteAtOwner moved (late_put x33 x43 (lit "bob") (lit "50")) (lit "r1") 1 1 [1]
  = (moved, Fail (SplitRange (ErrRangeMoved (mkMoved (lit "r1") 1 1 1 [op_left (the_operation moved)])))).
Proof.
  exact (proj1 (old_owner_is_fenced moved (the_operation moved) (late_put x33 x43 (lit "bob") (lit "50")) moved_reachable
    (the_operation_Some moved ltac:(vm_compute; reflexivity)) ltac:(vm_compute; reflexivity)) 1 1 1).
Defined.

Lemma late_write_stops_split_witness :
  Cutover stopped [lit "r1"] = (stopped, Fail ErrSplitBarrier).
Proof.
  apply (late_write_stops_split stopped (the_operation stopped) stopped [lit "r1"]).
  - eapply reach_step; [apply caught_up_reachable|]. apply step_write. vm_compute. discriminate.
  - apply the_operation_Some. vm_compute. reflexivity.
  - vm_compute. reflexivity.
  - vm_compute. split; reflexivity.
  - apply rtc_refl.
Defined.


(** A range whose last row has the last sequence number, split and cut over. *)
Definition last_row : Row := sample_row (lit "ada") x51 max_uint64 (lit "10").
Definition exhausted : SplitHarness :=
  fst (Cutover (fst (CatchUp (fst (BeginSplit (started [last_row]) (lit "m") (lit "left") (lit "right") true)))) [lit "r1"]).

(** After a cutover nothing guards the end of the sequence numbers: a
    write then wraps to sequence zero, is answered with the checksum error,
    and is stored all the same, so a reader sees the refused value.  (While the
    source serves, the same write is refused without effect.) *)
Theorem exhausted_write_refused_but_stored (c := late_put x34 x44 (lit "ada") (lit "60")) :
  reachable exhausted
  /\ Read exhausted (lit "users") (lit "ada") = Ok last_row
  /\ snd (Write exhausted c) = Fail ErrSplitChecksum
  /\ Read (fst (Write exhausted c)) (lit "users") (lit "ada") = Ok (mkRow (lit "users") (lit "ada") (uuid_of x44) 0 (lit "60"))
  /\ Write (started [last_row]) c = (started [last_row], Fail split_backpressure).
Proof.
  split_and!; [|vm_compute; reflexivity..].
  eapply reach_step; [eapply reach_step; [apply (reach_step (started [last_row])); [apply started_reachable|]|]|].
  - vm_compute. reflexivity.
  - apply Forall_singleton. change (0 <= max_uint64 <= max_uint64). unfold max_uint64. lia.
  - apply step_internal, step_begin.
  - apply step_internal, step_catch_up.
  - apply step_internal, step_cutover, sample_order. vm_compute. reflexivity.
Qed.
