(* ===== verification/Disk.v ===== *)
(** The raft storage adapter (src/internal/raftstore/disk.go): enveloped
    records in the owned engine, the recovery of the raft log, hard state and
    snapshot from them, the persistence of a [Ready], and the reads raft makes.

    The engine is its map of records: a batch is applied to it as a whole, and
    the stream over it yields the records in key order.  Applying a batch can
    fail; [faults] scripts how.  The raft messages are reduced to the fields
    the adapter uses, and their wire format is reached through the interface
    [Protobuf]; the theorems that need it to round-trip say so. *)

From Stdlib Require Import ZArith Lia Sorting.Sorted.
From stdpp Require Import base list gmap sorting.
From S2P Require Import Prelude GoStd EngineOps Fs Manifest Range Snapshot.

Local Open Scope Z_scope.

(** ** Messages *)

(** [raftpb.Entry]; type zero is [EntryNormal]. *)
Record pbEntry : Type := mkPbEntry { pe_Type : Z; pe_Term : Z; pe_Index : Z; pe_Data : bytes }.
Record HardState : Type := mkHard { hs_Term : Z; hs_Vote : Z; hs_Commit : Z }.
Record ConfState : Type := mkConf {
  cs_Voters : list Z;
  cs_Learners : list Z;
  cs_VotersOutgoing : list Z;
  cs_LearnersNext : list Z;
  cs_AutoLeave : bool
}.
Record pbSnapshot : Type := mkPbSnapshot { sn_ConfState : ConfState; sn_Index : Z; sn_Term : Z; sn_Data : bytes }.

#[export] Instance pbEntry_eq_dec : EqDecision pbEntry.
Proof. solve_decision. Defined.
#[export] Instance HardState_eq_dec : EqDecision HardState.
Proof. solve_decision. Defined.

Definition no_hard_state : HardState := mkHard 0 0 0.
Definition no_conf_state : ConfState := mkConf [] [] [] [] false.
Definition no_snapshot : pbSnapshot := mkPbSnapshot no_conf_state 0 0 [].

(** [raft.IsEmptySnap] and [raft.IsEmptyHardState]. *)
Definition IsEmptySnap (s : pbSnapshot) : bool := sn_Index s =? 0.
Definition IsEmptyHardState (h : HardState) : bool := bool_decide (h = no_hard_state).

(** The wire format of the messages ([proto.Marshal], [proto.Unmarshal]). *)
Class Protobuf : Type := {
  marshal_entry : pbEntry -> bytes;
  unmarshal_entry : bytes -> option pbEntry;
  marshal_hard : HardState -> bytes;
  unmarshal_hard : bytes -> option HardState;
  marshal_conf : ConfState -> bytes;
  unmarshal_conf : bytes -> option ConfState;
  marshal_snapshot : pbSnapshot -> bytes;
  unmarshal_snapshot : bytes -> option pbSnapshot
}.

(** What a [Ready] asks to be made durable; an entry can be a nil pointer. *)
Record Ready : Type := mkReady {
  rd_Entries : list (option pbEntry);
  rd_HardState : HardState;
  rd_Snapshot : pbSnapshot
}.

(** ** Records *)

Definition diskMagic : bytes := lit "VBR3".
Definition diskFormat : byte := x01.
Definition kHardState : bytes := lit "m3/raft/hardstate".
Definition kApplied : bytes := lit "m3/raft/applied".
Definition kConfState : bytes := lit "m3/raft/confstate".
Definition kConfIndex : bytes := lit "m3/raft/confstate-index".
Definition kSnapshot : bytes := lit "m3/raft/snapshot".
Definition kSnapshotPre : bytes := lit "m3/raft/snapshot/".
Definition kNodeID : bytes := lit "m3/raft/node-id".
Definition kBootstrap : bytes := lit "m3/raft/bootstrap".
Definition kEntryPre : bytes := lit "m3/raft/entry/".
Definition kRowPre : bytes := lit "m3/state/row/".
Definition kHistPre : bytes := lit "m3/state/history/".
Definition kDedupePre : bytes := lit "m3/state/dedupe/".
Definition kResultPre : bytes := lit "m3/state/result/".
Definition kStateGenerations : bytes := lit "m3/state/g/".
Definition kStateMeta : bytes := lit "m3/state/meta".
Definition kStateGeneration : bytes := lit "m3/state/generation".
Definition kCatalog : bytes := lit "m4/catalog/complete".
Definition kReadNonce : bytes := lit "m4/read/boot-nonce".
Definition maxSnapshotChunk : Z := 256 * 2 ^ 10.
Definition maxReadyEntries : Z := 32.
Definition maxReadyBytes : Z := 8 * 2 ^ 20.

Definition HasPrefix (s p : bytes) : bool := beq (take (length p) s) p.
Definition HasSuffix (s p : bytes) : bool := (len p <=? len s) && beq (drop (length s - length p) s) p.

Inductive disk_error : Type :=
| ErrDiskCorrupt (what : String.string)
| ErrDisk (what : String.string)
| ErrSync (kind : String.string)
| ErrApply (kind : String.string)
| ErrEngine (e : engine_error)
| ErrCatalog (e : range_error)
| ErrCompacted
| ErrUnavailable
| ErrSnapOutOfDate.

Definition disk_envelope (kind : byte) (payload : bytes) : bytes :=
  diskMagic ++ [diskFormat; kind] ++ be 4 (len payload) ++ payload.

Definition wrapDisk (kind : byte) (payload : bytes) : bytes :=
  let out := disk_envelope kind payload in out ++ be 4 (crc32.Checksum out).

Definition unwrapDisk (encoded : bytes) (kind : byte) : option bytes :=
  let n := len encoded in
  if (n <? 14) || negb (beq (sub encoded 0 4) diskMagic) || negb (beq (sub encoded 4 5) [diskFormat])
     || negb (beq (sub encoded 5 6) [kind]) then None
  else
    let length := un_be (sub encoded 6 10) in
    if (length <? 0) || negb (n =? 14 + length)
       || negb (crc32.Checksum (sub encoded 0 (n - 4)) =? un_be (sub encoded (n - 4) n)) then None
    else Some (sub encoded 10 (10 + length)).

Definition entryKey (index : Z) : bytes := kEntryPre ++ be 8 index.

(** [fmt.Sprintf("%s%020d/", kSnapshotPre, index)] and the key of a chunk. *)
Definition snapshot_prefix (index : Z) : bytes := kSnapshotPre ++ decimal 20 index ++ lit "/".
Definition snapshot_key (index chunk : Z) : bytes := snapshot_prefix index ++ decimal 8 chunk.

Definition isKnownRaftKey (key : bytes) : bool :=
  beq key kHardState || beq key kApplied || beq key kConfState || beq key kConfIndex || beq key kSnapshot
  || HasPrefix key kSnapshotPre || beq key kNodeID || beq key kBootstrap || HasPrefix key kEntryPre
  || beq key kStateGeneration || beq key kCatalog || beq key kReadNonce.

Definition isAnyLogicalKey (key : bytes) : bool :=
  HasPrefix key kRowPre || HasPrefix key kHistPre || HasPrefix key kDedupePre || HasPrefix key kResultPre
  || HasPrefix key kStateGenerations || beq key kStateMeta || beq key kStateGeneration.

(** The membership loop: identifiers are non-zero and distinct. *)
Fixpoint check_members (seen : gset Z) (ids : list Z) : option String.string :=
  match ids with
  | [] => None
  | id :: ids' =>
      if id =? 0 then Some "membership node id is zero"%string
      else if bool_decide (id ∈ seen) then Some "duplicate membership node id"%string
      else check_members ({[id]} ∪ seen) ids'
  end.

(** [validateConfState]: [None] when the state is accepted. *)
Definition validateConfState (state : option ConfState) : option String.string :=
  match state with
  | None => Some "nil conf state"%string
  | Some s =>
      if negb (len (cs_VotersOutgoing s) =? 0) || negb (len (cs_LearnersNext s) =? 0) || cs_AutoLeave s
      then Some "joint membership is outside the M3 contract"%string
      else check_members ∅ (cs_Voters s ++ cs_Learners s ++ cs_VotersOutgoing s)
  end.

(** [rejectPebbleDirectory], given the names in the directory. *)
Definition pebble_name (name : bytes) : bool :=
  beq name (lit "CURRENT") || HasPrefix name (lit "MANIFEST-") || HasPrefix name (lit "OPTIONS-")
  || (HasPrefix name (lit "000") && HasSuffix name (lit ".log")).
Definition rejectPebbleDirectory (names : list bytes) : result disk_error unit :=
  fail_if (existsb pebble_name names) (ErrDisk "obsolete Pebble directory rejected").

(** ** The store *)

(** How the next batch ends: applied; refused by the sync hook; or failed in
    the engine, after which the batch may or may not be durable. *)
Inductive outcome : Type :=
| Synced
| SyncRefused
| ApplyFailed (durable : bool).

Record diskStore : Type := mkDisk {
  db : gmap bytes bytes;
  options : Options;
  faults : list outcome;
  disk_entries : gmap Z pbEntry;
  hardState : HardState;
  confState : ConfState;
  confStateIndex : Z;
  snapshot : pbSnapshot;
  applied_index : Z;
  failed : option disk_error;
  nodeID : Z;
  hadNodeID : bool;
  bootstrapPeers : list Z;
  bootstrapIncomplete : bool;
  catalogData : bytes;
  readNonce : bytes
}.

(** Assignments to fields. *)
Definition set_db (d : diskStore) (m : gmap bytes bytes) (fs : list outcome) (e : option disk_error) : diskStore :=
  mkDisk m (options d) fs (disk_entries d) (hardState d) (confState d) (confStateIndex d) (snapshot d) (applied_index d) e
    (nodeID d) (hadNodeID d) (bootstrapPeers d) (bootstrapIncomplete d) (catalogData d) (readNonce d).
Definition set_failed (d : diskStore) (e : disk_error) : diskStore := set_db d (db d) (faults d) (Some e).
Definition set_raft (d : diskStore) (es : gmap Z pbEntry) (h : HardState) (s : pbSnapshot) : diskStore :=
  mkDisk (db d) (options d) (faults d) es h (confState d) (confStateIndex d) s (applied_index d) (failed d)
    (nodeID d) (hadNodeID d) (bootstrapPeers d) (bootstrapIncomplete d) (catalogData d) (readNonce d).
Definition set_conf (d : diskStore) (c : ConfState) (index : Z) : diskStore :=
  mkDisk (db d) (options d) (faults d) (disk_entries d) (hardState d) c index (snapshot d) (applied_index d) (failed d)
    (nodeID d) (hadNodeID d) (bootstrapPeers d) (bootstrapIncomplete d) (catalogData d) (readNonce d).
Definition set_applied_index (d : diskStore) (n : Z) : diskStore :=
  mkDisk (db d) (options d) (faults d) (disk_entries d) (hardState d) (confState d) (confStateIndex d) (snapshot d) n (failed d)
    (nodeID d) (hadNodeID d) (bootstrapPeers d) (bootstrapIncomplete d) (catalogData d) (readNonce d).
Definition set_identity (d : diskStore) (id : Z) (had : bool) (peers : list Z) (incomplete : bool) : diskStore :=
  mkDisk (db d) (options d) (faults d) (disk_entries d) (hardState d) (confState d) (confStateIndex d) (snapshot d) (applied_index d)
    (failed d) id had peers incomplete (catalogData d) (readNonce d).
Definition set_catalog_data (d : diskStore) (data : bytes) : diskStore :=
  mkDisk (db d) (options d) (faults d) (disk_entries d) (hardState d) (confState d) (confStateIndex d) (snapshot d) (applied_index d)
    (failed d) (nodeID d) (hadNodeID d) (bootstrapPeers d) (bootstrapIncomplete d) data (readNonce d).
Definition set_read_nonce (d : diskStore) (nonce : bytes) : diskStore :=
  mkDisk (db d) (options d) (faults d) (disk_entries d) (hardState d) (confState d) (confStateIndex d) (snapshot d) (applied_index d)
    (failed d) (nodeID d) (hadNodeID d) (bootstrapPeers d) (bootstrapIncomplete d) (catalogData d) nonce.

(** The records a batch leaves behind. *)
Definition apply_operation (m : gmap bytes bytes) (o : operation) : gmap bytes bytes :=
  if bool_decide (op_kind o = deleteOp) then delete (op_key o) m else <[op_key o := op_value o]> m.
Definition apply_operations (m : gmap bytes bytes) (l : list operation) : gmap bytes bytes := fold_left apply_operation l m.

(** A sequence of [Put]s on a batch, stopping at the first error. *)
Fixpoint put_all (b : Batch) (records : list (bytes * bytes)) : result engine_error Batch :=
  match records with
  | [] => Ok b
  | (key, value) :: records' =>
      match Batch_Put b key value with
      | (b, Ok _) => put_all b records'
      | (_, Fail e) => Fail e
      end
  end.

(** The sync hook, and [Engine.Apply]. *)
Definition beforeSync (d : diskStore) (kind : String.string) : diskStore * result disk_error unit :=
  match faults d with
  | SyncRefused :: fs => (set_db d (db d) fs (failed d), Fail (ErrSync kind))
  | _ => (d, Ok tt)
  end.

Definition engine_Apply (d : diskStore) (b : Batch) : diskStore * bool :=
  match faults d with
  | ApplyFailed durable :: fs => (set_db d (if durable then apply_operations (db d) (ops b) else db d) fs (failed d), false)
  | fs => (set_db d (apply_operations (db d) (ops b)) (tail fs) (failed d), true)
  end.

Definition applyBatch (d : diskStore) (b : Batch) (kind : String.string) : diskStore * result disk_error unit :=
  match beforeSync d kind with
  | (d, Fail e) => (set_failed d e, Fail e)
  | (d, Ok _) =>
      match engine_Apply d b with
      | (d, false) => (set_failed d (ErrApply kind), Fail (ErrApply kind))
      | (d, true) => (d, Ok tt)
      end
  end.

(** [put_all] on a new batch, then [applyBatch]. *)
Definition write_records (d : diskStore) (records : list (bytes * bytes)) (kind : String.string)
    : diskStore * result disk_error unit :=
  match put_all (Engine_NewBatch (options d)) records with
  | Fail e => (d, Fail (ErrEngine e))
  | Ok b => applyBatch d b kind
  end.

(** [scan]: every record in key order. *)
Definition scan (d : diskStore) : list (bytes * bytes) := sorted_members (db d).

Section disk.
Context {pb : Protobuf}.

(** ** Recovery *)

(** The bootstrap peers of a record: increasing, non-zero identifiers. *)
Fixpoint read_peers (n : nat) (previous : option Z) (payload : bytes) : option (list Z) :=
  match n with
  | O => Some []
  | S n' =>
      let id := un_be (take 8 payload) in
      if (id =? 0) || match previous with Some p => id <=? p | None => false end then None
      else ids ← read_peers n' (Some id) (drop 8 payload); Some (id :: ids)
  end.

Definition corrupt (what : String.string) {A} : result disk_error A := Fail (ErrDiskCorrupt what).

(** A record of an envelope kind with a payload of fixed length. *)
Definition unwrap_u64 (value : bytes) (kind : byte) : option Z :=
  match unwrapDisk value kind with
  | Some payload => if len payload =? 8 then Some (un_be payload) else None
  | None => None
  end.

(** The body of the loop of [load] for one record. *)
Definition load_record (expectedNodeID : Z) (d : diskStore) (key value : bytes) : result disk_error diskStore :=
  if beq key kNodeID then
    match unwrap_u64 value x06 with
    | None => corrupt "node identity"
    | Some stored =>
        if (stored =? 0) || negb (stored =? expectedNodeID) then Fail (ErrDisk "node identity mismatch")
        else Ok (set_identity d stored true (bootstrapPeers d) (bootstrapIncomplete d))
    end
  else if beq key kBootstrap then
    match unwrapDisk value x07 with
    | None => corrupt "bootstrap peers"
    | Some payload =>
        if (len payload =? 0) || negb (len payload mod 8 =? 0) then corrupt "bootstrap peers"
        else match read_peers (Z.to_nat (len payload / 8)) None payload with
             | None => corrupt "bootstrap peers"
             | Some peers => Ok (set_identity d (nodeID d) (hadNodeID d) peers (bootstrapIncomplete d))
             end
    end
  else if beq key kCatalog then
    match unwrapDisk value x0e with
    | None => corrupt "range catalog"
    | Some payload =>
        match UnmarshalRangeCatalog payload with
        | Fail _ => corrupt "range catalog"
        | Ok catalog =>
            match MarshalBinary (Some catalog) with
            | Fail _ => corrupt "range catalog canonicality"
            | Ok canonical => if negb (beq canonical payload) then corrupt "range catalog canonicality"
                              else Ok (set_catalog_data d payload)
            end
        end
    end
  else if beq key kReadNonce then
    match unwrapDisk value x0f with
    | Some payload => if negb (len payload =? 16) then corrupt "read boot nonce" else Ok (set_read_nonce d payload)
    | None => corrupt "read boot nonce"
    end
  else if beq key kHardState then
    match unwrapDisk value x01 ≫= unmarshal_hard with
    | None => corrupt "hard state"
    | Some h => Ok (set_raft d (disk_entries d) h (snapshot d))
    end
  else if beq key kApplied then
    match unwrap_u64 value x02 with
    | None => corrupt "applied"
    | Some n => Ok (set_applied_index d n)
    end
  else if beq key kConfState then
    match unwrapDisk value x03 ≫= unmarshal_conf with
    | None => corrupt "conf state"
    | Some c => Ok (set_conf d c (confStateIndex d))
    end
  else if beq key kConfIndex then
    match unwrap_u64 value x08 with
    | None => corrupt "conf state index"
    | Some n => Ok (set_conf d (confState d) n)
    end
  else if beq key kSnapshot then
    match unwrapDisk value x04 ≫= unmarshal_snapshot with
    | None => corrupt "snapshot metadata"
    | Some s => Ok (set_raft d (disk_entries d) (hardState d) s)
    end
  else if HasPrefix key kSnapshotPre then
    match unwrapDisk value x0b with None => corrupt "snapshot chunk" | Some _ => Ok d end
  else if HasPrefix key kEntryPre then
    if negb (len key =? len kEntryPre + 8) then corrupt "entry key"
    else
      let index := un_be (drop (length kEntryPre) key) in
      match unwrapDisk value x05 with
      | None => corrupt "entry"
      | Some payload =>
          match unmarshal_entry payload with
          | None => corrupt "entry protobuf"
          | Some e =>
              if negb (pe_Index e =? index) || (index =? 0) || (pe_Term e =? 0) then corrupt "entry protobuf"
              else Ok (set_raft d (<[index := e]> (disk_entries d)) (hardState d) (snapshot d))
          end
      end
  else if HasPrefix key kRowPre || HasPrefix key kHistPre || HasPrefix key kDedupePre || HasPrefix key kResultPre
          || HasPrefix key kStateGenerations || beq key kStateMeta || beq key kStateGeneration then
    match unwrapDisk value x0a with None => corrupt "logical record" | Some _ => Ok d end
  else corrupt "unknown keyspace".

Fixpoint load_records (expectedNodeID : Z) (d : diskStore) (items : list (bytes * bytes)) : result disk_error diskStore :=
  match items with
  | [] => Ok d
  | (key, value) :: items' => d ← load_record expectedNodeID d key value; load_records expectedNodeID d items'
  end.

(** [strconv.Atoi] on a string of at most 18 digits: an optional sign, then digits. *)
Definition Atoi (s : bytes) : option Z :=
  let '(sign, digits) := match s with
                         | b :: s' => if bool_decide (b = x2d) then (-1, s') else if bool_decide (b = x2b) then (1, s') else (1, s)
                         | [] => (1, s)
                         end in
  if (len digits =? 0) || negb (forallb strconv.is_digit digits) then None else Some (sign * strconv.value digits).

(** The chunk loop of [snapshotDataLocked] over the scanned records. *)
Fixpoint collect_parts (prefix : bytes) (items : list (bytes * bytes)) (parts : gmap Z bytes) : option (gmap Z bytes) :=
  match items with
  | [] => Some parts
  | (key, value) :: items' =>
      if negb (HasPrefix key prefix) then collect_parts prefix items' parts
      else
        let suffix := drop (length prefix) key in
        if negb (len suffix =? 8) then None
        else match Atoi suffix with
             | None => None
             | Some offset =>
                 if offset <? 0 then None
                 else match unwrapDisk value x0b with
                      | None => None
                      | Some part =>
                          if maxSnapshotChunk <? len part then None
                          else if bool_decide (is_Some (parts !! offset)) then None
                          else collect_parts prefix items' (<[offset := part]> parts)
                      end
             end
  end.

(** Consecutive parts from [next] on; [n] bounds their number. *)
Fixpoint join_parts (n : nat) (next : Z) (parts : gmap Z bytes) : bytes * Z :=
  match n with
  | O => ([], next)
  | S n' =>
      match parts !! next with
      | None => ([], next)
      | Some part => let '(data, last) := join_parts n' (next + 1) parts in (part ++ data, last)
      end
  end.

Definition snapshotDataLocked (d : diskStore) : option bytes :=
  let index := sn_Index (snapshot d) in
  if index =? 0 then Some []
  else
    parts ← collect_parts (snapshot_prefix index) (scan d) ∅;
    let '(data, next) := join_parts (size parts) 0 parts in
    if negb (Z.of_nat (size parts) =? 0) && negb (Z.of_nat (size parts) =? next) then None else Some data.

(** The indexes after the snapshot are consecutive. *)
Fixpoint no_gap (want : Z) (indices : list Z) : bool :=
  match indices with
  | [] => true
  | i :: indices' => (i =? want) && no_gap (uint64 (want + 1)) indices'
  end.

Definition sorted_indices (d : diskStore) : list Z :=
  merge_sort Z.le (filter (fun i => sn_Index (snapshot d) < i) (map fst (map_to_list (disk_entries d)))).

Definition load (d : diskStore) (expectedNodeID : Z) : result disk_error diskStore :=
  let items := scan d in
  d ← load_records expectedNodeID d items;
  fail_if (bool_decide (snapshotDataLocked d = None)) (ErrDiskCorrupt "snapshot data");;
  fail_if (bool_decide (is_Some (validateConfState (Some (confState d))))) (ErrDiskCorrupt "conf state");;
  fail_if (negb (hadNodeID d) && negb (bool_decide (items = []))) (ErrDiskCorrupt "node identity missing");;
  fail_if (hadNodeID d && (len (bootstrapPeers d) =? 0)) (ErrDiskCorrupt "bootstrap peer set missing");;
  let d := if hadNodeID d && bool_decide (disk_entries d = ∅) && (hs_Term (hardState d) =? 0)
           then set_identity d (nodeID d) (hadNodeID d) (bootstrapPeers d) true else d in
  fail_if ((hs_Commit (hardState d) <? sn_Index (snapshot d)) && negb (hs_Commit (hardState d) =? 0))
    (ErrDiskCorrupt "snapshot ahead of commit");;
  fail_if (hs_Commit (hardState d) <? applied_index d) (ErrDiskCorrupt "applied ahead of commit");;
  let first := if sn_Index (snapshot d) =? 0 then 1 else uint64 (sn_Index (snapshot d) + 1) in
  fail_if (negb (no_gap first (sorted_indices d))) (ErrDiskCorrupt "entry gap");;
  Ok d.

(** A store before it is loaded, and [openDisk] on the names and the records
    the engine recovered. *)
Definition diskOptions : Options := mkOptions 0 (2 * 2 ^ 20 + 64 * 2 ^ 10 + 32) 0 0 0 0 0 0 0 0 0.

Definition new_disk (m : gmap bytes bytes) (opts : Options) (fs : list outcome) (expectedNodeID : Z) : diskStore :=
  mkDisk m opts fs ∅ no_hard_state no_conf_state 0 no_snapshot 0 None expectedNodeID false [] false [] [].

Definition openDisk (names : list bytes) (m : gmap bytes bytes) (fs : list outcome) (expectedNodeID : Z)
    : result disk_error diskStore :=
  rejectPebbleDirectory names;;
  opts ← map_err ErrEngine (normalized diskOptions);
  load (new_disk m opts fs expectedNodeID) expectedNodeID.

(** ** Persistence *)

(** Neighbours of a sorted list differ.  A bootstrap peer is its identifier
    and its context. *)
Fixpoint distinct_sorted (l : list Z) : bool :=
  match l with
  | a :: (b :: _) as l' => negb (b =? a) && distinct_sorted l'
  | _ => true
  end.

Definition persistIdentityAndBootstrap (d : diskStore) (peers : list (Z * bytes)) : diskStore * result disk_error unit :=
  if existsb (fun p => (fst p =? 0) || negb (len (snd p) =? 0)) peers then (d, Fail (ErrDisk "invalid bootstrap peer"))
  else
    let ids := merge_sort Z.le (map fst peers) in
    if negb (distinct_sorted ids) then (d, Fail (ErrDisk "duplicate bootstrap peer"))
    else
      match put_all (Engine_NewBatch (options d))
              [(kNodeID, wrapDisk x06 (be 8 (nodeID d))); (kBootstrap, wrapDisk x07 (concat (map (be 8) ids)))] with
      | Fail e => (d, Fail (ErrEngine e))
      | Ok b =>
          match beforeSync d "bootstrap" with
          | (d, Fail e) => (set_failed d e, Fail e)
          | (d, Ok _) =>
              match engine_Apply d b with
              | (d, false) => (set_failed d (ErrApply "bootstrap"), Fail (ErrApply "bootstrap"))
              | (d, true) => (set_identity d (nodeID d) true ids (bootstrapIncomplete d), Ok tt)
              end
          end
      end.

(** A record written on its own, behind the sync hook ([rotateReadNonce] and
    [persistCatalog] share this sequence). *)
Definition write_one (d : diskStore) (key value : bytes) (kind : String.string) : diskStore * result disk_error unit :=
  match failed d with
  | Some e => (d, Fail e)
  | None =>
      match beforeSync d kind with
      | (d, Fail e) => (set_failed d e, Fail e)
      | (d, Ok _) =>
          match put_all (Engine_NewBatch (options d)) [(key, value)] with
          | Fail e => (d, Fail (ErrEngine e))
          | Ok b =>
              match engine_Apply d b with
              | (d, false) => (set_failed d (ErrApply kind), Fail (ErrApply kind))
              | (d, true) => (d, Ok tt)
              end
          end
      end
  end.

(** [nonce] is what the random source returned, sixteen bytes, or [None]. *)
Definition rotateReadNonce (d : diskStore) (nonce : option bytes) : diskStore * result disk_error bytes :=
  match nonce with
  | None => (d, Fail (ErrDisk "generate read boot nonce"))
  | Some nonce =>
      match write_one d kReadNonce (wrapDisk x0f nonce) "read-boot-nonce" with
      | (d, Fail e) => (d, Fail e)
      | (d, Ok _) => (set_read_nonce d nonce, Ok nonce)
      end
  end.

Definition persistCatalog (d : diskStore) (encoded : bytes) : diskStore * result disk_error unit :=
  match UnmarshalRangeCatalog encoded with
  | Fail e => (d, Fail (ErrCatalog e))
  | Ok catalog =>
      match MarshalBinary (Some catalog) with
      | Ok canonical =>
          if negb (beq canonical encoded) then (d, Fail (ErrCatalog ErrCatalogCorrupt))
          else match write_one d kCatalog (wrapDisk x0e encoded) "range-catalog" with
               | (d, Fail e) => (d, Fail e)
               | (d, Ok _) => (set_catalog_data d encoded, Ok tt)
               end
      | Fail _ => (d, Fail (ErrCatalog ErrCatalogCorrupt))
      end
  end.

(** The chunk loop of [stageSnapshotLocked] over the bytes left; each turn
    takes at least one byte, so their number is enough fuel. *)
Fixpoint stage_chunks (fuel : nat) (d : diskStore) (index chunk : Z) (rest : bytes) : diskStore * result disk_error unit :=
  match fuel, rest with
  | S fuel', _ :: _ =>
      match write_records d [(snapshot_key index chunk, wrapDisk x0b (take (Z.to_nat maxSnapshotChunk) rest))] "snapshot-chunk" with
      | (d, Fail e) => (d, Fail e)
      | (d, Ok _) => stage_chunks fuel' d index (chunk + 1) (drop (Z.to_nat maxSnapshotChunk) rest)
      end
  | _, _ => (d, Ok tt)
  end.

Definition stageSnapshotLocked (d : diskStore) (s : pbSnapshot) : diskStore * result disk_error unit :=
  if 64 * 2 ^ 20 <? len (sn_Data s) then (d, Fail (ErrDisk "snapshot exceeds bounded size"))
  else if sn_Index s =? 0 then (d, Fail (ErrDisk "empty snapshot index"))
  else stage_chunks (length (sn_Data s)) d (sn_Index s) 0 (sn_Data s).

Definition without_data (s : pbSnapshot) : pbSnapshot := mkPbSnapshot (sn_ConfState s) (sn_Index s) (sn_Term s) [].

(** The entry checks of [persistReady], with the bytes counted so far. *)
Fixpoint check_ready (readyBytes : Z) (entries : list (option pbEntry)) : result disk_error unit :=
  match entries with
  | [] => Ok tt
  | None :: _ => corrupt "ready entry"
  | Some e :: entries' =>
      if (pe_Index e =? 0) || (pe_Term e =? 0) then corrupt "ready entry"
      else
        let readyBytes := readyBytes + len (marshal_entry e) in
        if maxReadyBytes <? readyBytes then Fail (ErrDisk "ready exceeds bounded entry bytes")
        else check_ready readyBytes entries'
  end.

(** The records of the batch of a [Ready]. *)
Definition ready_records (rd : Ready) : list (bytes * bytes) :=
  map (fun e => (entryKey (pe_Index e), wrapDisk x05 (marshal_entry e))) (omap id (rd_Entries rd))
  ++ (if IsEmptyHardState (rd_HardState rd) then [] else [(kHardState, wrapDisk x01 (marshal_hard (rd_HardState rd)))])
  ++ (if IsEmptySnap (rd_Snapshot rd) then [] else [(kSnapshot, wrapDisk x04 (marshal_snapshot (without_data (rd_Snapshot rd))))]).

(** The in-memory state after the batch is durable. *)
Definition publish_ready (d : diskStore) (rd : Ready) : diskStore :=
  set_raft d (fold_left (fun m e => <[pe_Index e := e]> m) (omap id (rd_Entries rd)) (disk_entries d))
    (if IsEmptyHardState (rd_HardState rd) then hardState d else rd_HardState rd)
    (if IsEmptySnap (rd_Snapshot rd) then snapshot d else without_data (rd_Snapshot rd)).

Definition persistReady (d : diskStore) (rd : Ready) : diskStore * result disk_error unit :=
  match failed d with
  | Some e => (d, Fail e)
  | None =>
      if maxReadyEntries <? len (rd_Entries rd) then (d, Fail (ErrDisk "ready exceeds bounded entry count"))
      else
        match check_ready 0 (rd_Entries rd) with
        | Fail e => (d, Fail e)
        | Ok _ =>
            match (if IsEmptySnap (rd_Snapshot rd) then (d, Ok tt) else stageSnapshotLocked d (rd_Snapshot rd)) with
            | (d, Fail e) => (set_failed d e, Fail e)
            | (d, Ok _) =>
                match put_all (Engine_NewBatch (options d)) (ready_records rd) with
                | Fail e => (d, Fail (ErrEngine e))
                | Ok b =>
                    if bool_decide (rd_Entries rd = []) && IsEmptyHardState (rd_HardState rd) && IsEmptySnap (rd_Snapshot rd)
                    then (d, Ok tt)
                    else match applyBatch d b "raft-ready" with
                         | (d, Fail e) => (d, Fail e)
                         | (d, Ok _) => (publish_ready d rd, Ok tt)
                         end
                end
            end
        end
  end.

Definition persistLocalSnapshot (d : diskStore) (s : option pbSnapshot) : diskStore * result disk_error unit :=
  match s with
  | None => (d, Fail (ErrDisk "nil snapshot"))
  | Some s =>
      match failed d with
      | Some e => (d, Fail e)
      | None =>
          match stageSnapshotLocked d s with
          | (d, Fail e) => (set_failed d e, Fail e)
          | (d, Ok _) =>
              match write_records d [(kSnapshot, wrapDisk x04 (marshal_snapshot (without_data s)))] "snapshot-metadata" with
              | (d, Fail e) => (d, Fail e)
              | (d, Ok _) => (set_raft d (disk_entries d) (hardState d) (without_data s), Ok tt)
              end
          end
      end
  end.

(** ** The reads of raft *)

Definition InitialState (d : diskStore) : result disk_error (HardState * ConfState) :=
  match failed d with Some e => Fail e | None => Ok (hardState d, confState d) end.

Definition lastIndexLocked (d : diskStore) : Z :=
  map_fold (fun i _ last => if last <? i then i else last) (sn_Index (snapshot d)) (disk_entries d).
Definition LastIndex (d : diskStore) : Z := lastIndexLocked d.

Definition firstIndexLocked (d : diskStore) : Z :=
  if 0 <? sn_Index (snapshot d) then uint64 (sn_Index (snapshot d) + 1)
  else if bool_decide (disk_entries d = ∅) then 1
  else map_fold (fun i _ first => if i <? first then i else first) max_uint64 (disk_entries d).
Definition FirstIndex (d : diskStore) : Z := firstIndexLocked d.

(** The loop of [Entries] from index [i], [n] indexes long. *)
Fixpoint collect_entries (m : gmap Z pbEntry) (n : nat) (i total maxSize : Z) (empty : bool) : result disk_error (list pbEntry) :=
  match n with
  | O => Ok []
  | S n' =>
      match m !! i with
      | None => Fail ErrUnavailable
      | Some e =>
          let size := len (marshal_entry e) in
          if negb empty && (maxSize <? uint64 (total + size)) then Ok []
          else rest ← collect_entries m n' (i + 1) (uint64 (total + size)) maxSize false; Ok (e :: rest)
      end
  end.

Definition Entries (d : diskStore) (lo hi maxSize : Z) : result disk_error (list pbEntry) :=
  if lo <? firstIndexLocked d then Fail ErrCompacted
  else if uint64 (lastIndexLocked d + 1) <? hi then Fail ErrUnavailable
  else if hi <=? lo then Ok []
  else collect_entries (disk_entries d) (Z.to_nat (hi - lo)) lo 0 maxSize true.

Definition Term (d : diskStore) (index : Z) : result disk_error Z :=
  if index =? sn_Index (snapshot d) then Ok (sn_Term (snapshot d))
  else match disk_entries d !! index with
       | None => if index <? sn_Index (snapshot d) then Fail ErrCompacted else Fail ErrUnavailable
       | Some e => Ok (pe_Term e)
       end.

Definition disk_Snapshot (d : diskStore) : result disk_error pbSnapshot :=
  match failed d with
  | Some e => Fail e
  | None =>
      match snapshotDataLocked d with
      | None => Fail (ErrDiskCorrupt "")
      | Some data => Ok (mkPbSnapshot (sn_ConfState (snapshot d)) (sn_Index (snapshot d)) (sn_Term (snapshot d)) data)
      end
  end.

Definition confStateCopy (d : diskStore) : ConfState := confState d.
Definition catalogCopy (d : diskStore) : bytes := catalogData d.
Definition commitIndex (d : diskStore) : Z := hs_Commit (hardState d).
End disk.
