(* ===== verification/DiskLog.v ===== *)
(** The raft log kept by the storage adapter: envelopes round-trip, the reads
    raft makes are those of an abstract log, a [Ready] that extends or exactly
    replaces the end of the log appends to it, and a shorter one leaves the
    entries it should have cut off. *)

From Stdlib Require Import ZArith Lia Sorting.Sorted.
From stdpp Require Import base list gmap sorting.
From S2P Require Import Prelude GoStd EngineOps Fs Manifest Range Snapshot Disk.

Local Open Scope Z_scope.

(** ** Envelopes *)

Lemma len_disk_envelope kind payload : len (disk_envelope kind payload) = 10 + len payload.
Proof. unfold disk_envelope. rewrite !len_app, len_be. change (len diskMagic) with 4. change (len [diskFormat; kind]) with 2. lia. Qed.

Lemma envelope_fields kind payload rest (e := disk_envelope kind payload ++ rest) : len payload < 2 ^ 32 ->
  sub e 0 4 = diskMagic /\ sub e 4 5 = [diskFormat] /\ sub e 5 6 = [kind] /\ un_be (sub e 6 10) = len payload
  /\ sub e 10 (10 + len payload) = payload.
Proof.
  intros Hp. pose proof (len_nonneg payload). unfold e, disk_envelope. rewrite <- !app_assoc.
  change ([diskFormat; kind] ++ be 4 (len payload) ++ payload ++ rest) with ([diskFormat] ++ [kind] ++ be 4 (len payload) ++ payload ++ rest).
  assert (len diskMagic = 4) as H4 by done. assert (forall x : byte, len [x] = 1) as H1 by done.
  split_and!.
  - by rewrite sub_app_head.
  - rewrite sub_skip, H4 by (rewrite ?H4; lia). by apply sub_field.
  - rewrite sub_skip, H4 by (rewrite ?H4; lia). rewrite sub_skip, H1 by (rewrite ?H1; lia). by apply sub_field.
  - rewrite sub_skip, H4 by (rewrite ?H4; lia). rewrite sub_skip, H1 by (rewrite ?H1; lia).
    rewrite sub_skip, H1 by (rewrite ?H1; lia). rewrite sub_field by (rewrite ?len_be; lia). apply un_be_be_small. cbn. lia.
  - rewrite sub_skip, H4 by (rewrite ?H4; lia). rewrite sub_skip, H1 by (rewrite ?H1; lia).
    rewrite sub_skip, H1 by (rewrite ?H1; lia). rewrite sub_skip, len_be by (rewrite ?len_be; lia). apply sub_field; cbn; lia.
Qed.

Lemma unwrapDisk_wrapDisk kind payload : len payload < 2 ^ 32 -> unwrapDisk (wrapDisk kind payload) kind = Some payload.
Proof.
  intros Hp. unfold unwrapDisk, wrapDisk. set (e := disk_envelope kind payload).
  destruct (envelope_fields kind payload (be 4 (crc32.Checksum e)) Hp) as (E1 & E2 & E3 & E4 & E5). fold e in E1, E2, E3, E4, E5.
  assert (len (e ++ be 4 (crc32.Checksum e)) = 14 + len payload) as Hlen
    by (rewrite len_app, len_be; unfold e; rewrite len_disk_envelope; lia).
  assert (len e = 10 + len payload) as He by apply len_disk_envelope. pose proof (len_nonneg payload).
  rewrite Hlen, E1, E2, E3, !beq_refl, E4, E5. cbn [negb orb]. rewrite (proj2 (Z.ltb_ge _ 14)) by lia. cbn [orb].
  rewrite sub_app_head by lia. rewrite sub_suffix by (rewrite ?len_be; lia).
  rewrite crc32.un_be_Checksum, !Z.eqb_refl, (proj2 (Z.ltb_ge _ 0)) by lia. done.
Qed.

Lemma unwrapDisk_canonical encoded kind payload : unwrapDisk encoded kind = Some payload -> encoded = wrapDisk kind payload.
Proof.
  unfold unwrapDisk. set (n := len encoded). destruct (_ || _) eqn:Hh; [done|]. bool_to_prop.
  destruct (_ || _) eqn:Hc; [done|]. bool_to_prop. intros Heq. injection Heq as <-. rewrite !beq_true in *.
  set (l := un_be (sub encoded 6 10)) in *.
  assert (Hbody : sub encoded 0 (n - 4) = disk_envelope kind (sub encoded 10 (10 + l))).
  { unfold disk_envelope. change ([diskFormat; kind] ++ ?x) with ([diskFormat] ++ [kind] ++ x).
    assert (len (sub encoded 10 (10 + l)) = l) as -> by (rewrite len_sub; lia).
    assert (be 4 l = sub encoded 6 10) as ->.
    { unfold l. apply be_un_be. assert (len (sub encoded 6 10) = 4) as HL4 by (rewrite len_sub; lia). unfold len in HL4. lia. }
    repeat match goal with E : sub encoded _ _ = _ |- _ => rewrite <- E; clear E end.
    rewrite !sub_cat by lia. f_equal. lia. }
  unfold wrapDisk. rewrite <- Hbody.
  match goal with E : crc32.Checksum _ = _ |- _ => rewrite E end.
  rewrite be_un_be by (assert (len (sub encoded (n - 4) n) = 4) as HL4 by (rewrite len_sub; lia); unfold len in HL4; lia).
  rewrite sub_cat by lia. symmetry. by apply sub_all.
Qed.

(** ** The abstract log *)

(** A raft log: the last index and term a snapshot covers, and the entries
    after it. *)
Record raft_log : Type := mkLog { log_index : Z; log_term : Z; log_tail : list pbEntry }.

Definition log_first (l : raft_log) : Z := log_index l + 1.
Definition log_last (l : raft_log) : Z := log_index l + len (log_tail l).

(** The entry at an index after the snapshot, the term at an index from the
    snapshot on, and the entries of a range. *)
Definition log_at (l : raft_log) (i : Z) : option pbEntry :=
  if i <=? log_index l then None else log_tail l !! Z.to_nat (i - log_first l).
Definition log_term_at (l : raft_log) (i : Z) : option Z :=
  if i =? log_index l then Some (log_term l) else pe_Term <$> log_at l i.
Definition log_slice (l : raft_log) (lo hi : Z) : list pbEntry := sub (log_tail l) (lo - log_first l) (hi - log_first l).

(** The entries have consecutive indexes from [start] on. *)
Fixpoint consecutive (start : Z) (es : list pbEntry) : Prop :=
  match es with
  | [] => True
  | e :: es' => pe_Index e = start /\ consecutive (start + 1) es'
  end.

(** What raft asks of its storage: entries from an index on replace every
    entry at or after that index. *)
Definition log_append (l : raft_log) (start : Z) (es : list pbEntry) : raft_log :=
  mkLog (log_index l) (log_term l) (take (Z.to_nat (start - log_first l)) (log_tail l) ++ es).

(** Entries written over those they share an index with. *)
Definition log_overwrite (l : raft_log) (start : Z) (es : list pbEntry) : raft_log :=
  mkLog (log_index l) (log_term l)
    (take (Z.to_nat (start - log_first l)) (log_tail l) ++ es
     ++ drop (Z.to_nat (start - log_first l + len es)) (log_tail l)).

(** The store holds the log: the snapshot's metadata, the entries after it
    and nothing beyond them; entries the snapshot covers may still be there. *)
Record represents (d : diskStore) (l : raft_log) : Prop := {
  rep_index : sn_Index (snapshot d) = log_index l;
  rep_term : sn_Term (snapshot d) = log_term l;
  rep_range : 0 <= log_index l /\ log_last l < 2 ^ 64 - 1;
  rep_entries : forall i, log_index l < i -> disk_entries d !! i = log_at l i;
  rep_positive : forall i e, disk_entries d !! i = Some e -> 0 < i
}.

Lemma log_at_some l i e : log_at l i = Some e -> log_index l < i <= log_last l.
Proof.
  unfold log_at, log_first, log_last. case_match; [done|]. intros Hlt%lookup_lt_Some. bool_to_prop. unfold len. lia.
Qed.

Lemma log_at_inside l i : log_index l < i <= log_last l -> is_Some (log_at l i).
Proof.
  unfold log_at, log_first, log_last, len. intros H. rewrite (proj2 (Z.leb_gt _ _)) by lia. apply lookup_lt_is_Some. lia.
Qed.

Lemma log_at_tail l n : log_at l (log_first l + Z.of_nat n) = log_tail l !! n.
Proof. unfold log_at, log_first. rewrite (proj2 (Z.leb_gt _ _)) by lia. f_equal. lia. Qed.

(** The folds over a Go map that keep its greatest, or its least, key: [better]
    decides whether a key replaces the one kept. *)
Lemma map_fold_extreme {A} (better : Z -> Z -> bool) (le : Z -> Z -> Prop) (m : gmap Z A) init :
  (forall a, le a a) -> (forall a b c, le a b -> le b c -> le a c) ->
  (forall i r, if better i r then le r i else le i r) ->
  let r := map_fold (fun i _ kept => if better i kept then i else kept) init m in
  le init r /\ (forall i x, m !! i = Some x -> le i r) /\ (r = init \/ is_Some (m !! r)).
Proof.
  intros Hrefl Htrans Hbetter.
  apply (map_fold_weak_ind (fun r m => le init r /\ (forall i x, m !! i = Some x -> le i r) /\ (r = init \/ is_Some (m !! r)))).
  - split_and!; [done| |by left]. intros i x. by rewrite lookup_empty.
  - intros j y m' r Hj (H1 & H2 & H3). cbn beta. specialize (Hbetter j r). destruct (better j r).
    + split_and!; [by eapply Htrans| |right; rewrite lookup_insert_eq; eauto].
      intros i x [[-> _]|[_ Hi]]%lookup_insert_Some; eauto.
    + split_and!; [done| |].
      * intros i x [[-> _]|[_ Hi]]%lookup_insert_Some; eauto.
      * destruct H3 as [->|H3]; [by left|right]. destruct (decide (r = j)) as [->|Hne]; [rewrite lookup_insert_eq; eauto|].
        by rewrite lookup_insert_ne.
Qed.

Lemma map_fold_greatest {A} (m : gmap Z A) init :
  let r := map_fold (fun i _ last => if last <? i then i else last) init m in
  init <= r /\ (forall i x, m !! i = Some x -> i <= r) /\ (r = init \/ is_Some (m !! r)).
Proof. apply (map_fold_extreme (fun i r => r <? i) Z.le); intros; [lia..|]. case_match; bool_to_prop; lia. Qed.

Lemma map_fold_least {A} (m : gmap Z A) init :
  let r := map_fold (fun i _ first => if i <? first then i else first) init m in
  r <= init /\ (forall i x, m !! i = Some x -> r <= i) /\ (r = init \/ is_Some (m !! r)).
Proof. apply (map_fold_extreme (fun i r => i <? r) (fun a b => b <= a)); intros; [lia..|]. case_match; bool_to_prop; lia. Qed.

Section reads.
Context {pb : Protobuf} (d : diskStore) (l : raft_log) (Hrep : represents d l).

Lemma LastIndex_log : LastIndex d = log_last l.
Proof.
  destruct Hrep as [Hi Ht [Hr1 Hr2] He Hp]. unfold LastIndex, lastIndexLocked. rewrite Hi.
  destruct (map_fold_greatest (disk_entries d) (log_index l)) as (H1 & H2 & H3). cbv zeta in *.
  set (r := map_fold _ _ _) in *. pose proof (len_nonneg (log_tail l)). unfold log_last in *.
  destruct (decide (r = log_index l + len (log_tail l))) as [|Hne]; [done|exfalso].
  destruct (decide (log_index l < r)) as [Hlt|Hge].
  - destruct H3 as [?|[x Hx]]; [lia|]. rewrite He in Hx by done. apply log_at_some in Hx. unfold log_last in Hx.
    destruct (log_at_inside l (log_last l)) as [y Hy]; unfold log_last; [lia|].
    rewrite <- He in Hy by (unfold log_last; lia). apply H2 in Hy. unfold log_last in Hy. lia.
  - destruct (log_at_inside l (log_last l)) as [y Hy]; unfold log_last; [lia|].
    rewrite <- He in Hy by (unfold log_last; lia). apply H2 in Hy. unfold log_last in Hy. lia.
Qed.

Lemma FirstIndex_log : FirstIndex d = log_first l.
Proof.
  destruct Hrep as [Hi Ht [Hr1 Hr2] He Hp]. unfold FirstIndex, firstIndexLocked, log_first. rewrite Hi.
  pose proof (len_nonneg (log_tail l)). unfold log_last in *.
  destruct (Z.ltb_spec 0 (log_index l)) as [Hlt|Hge]; [unfold uint64; rewrite Z.mod_small; lia|].
  assert (log_index l = 0) as H0 by lia. case_bool_decide as Hd; [lia|].
  destruct (map_fold_least (disk_entries d) max_uint64) as (H1 & H2 & H3). cbv zeta in *. set (r := map_fold _ _ _) in *.
  apply map_choose in Hd as (i & x & Hx). pose proof (Hp i x Hx) as Hi0. pose proof (H2 i x Hx).
  rewrite He in Hx by lia. apply log_at_some in Hx. unfold log_last in Hx.
  destruct (log_at_inside l 1) as [y Hy]; [unfold log_last; lia|]. rewrite <- He in Hy by lia. apply H2 in Hy.
  destruct H3 as [Hr|[z Hz]]; [unfold max_uint64 in Hr; lia|]. apply Hp in Hz. lia.
Qed.

Lemma Term_log i t : log_term_at l i = Some t -> Term d i = Ok t.
Proof.
  destruct Hrep as [Hi Ht [Hr1 Hr2] He Hp]. unfold log_term_at, Term. rewrite Hi, Ht. case_match; [by intros [= ->]|].
  destruct (log_at l i) as [e|] eqn:Hat; [|done]. intros [= <-]. rewrite He by (apply log_at_some in Hat; lia). by rewrite Hat.
Qed.

Lemma Term_beyond i : log_last l < i -> Term d i = Fail ErrUnavailable.
Proof.
  destruct Hrep as [Hi Ht [Hr1 Hr2] He Hp]. intros Hlt. unfold Term. rewrite Hi.
  pose proof (len_nonneg (log_tail l)). unfold log_last in *. rewrite (proj2 (Z.eqb_neq _ _)) by lia. rewrite He by lia.
  destruct (log_at l i) as [e|] eqn:Hat; [apply log_at_some in Hat; unfold log_last in Hat; lia|].
  by rewrite (proj2 (Z.ltb_ge _ _)) by lia.
Qed.

(** The bytes of entries, and the longest prefix that fits a limit: it is not
    empty when there is an entry, it is within the limit unless it is one
    entry, and the next entry does not fit. *)
Definition entries_size (es : list pbEntry) : Z := foldr (fun e n => len (marshal_entry e) + n) 0 es.

Record limited (maxSize : Z) (es out : list pbEntry) : Prop := {
  lim_prefix : out `prefix_of` es;
  lim_some : es <> [] -> out <> [];
  lim_size : length out = 1%nat \/ entries_size out <= maxSize \/ es = [];
  lim_longest : forall e rest, es = out ++ e :: rest -> maxSize < entries_size (out ++ [e])
}.

Lemma entries_size_nonneg es : 0 <= entries_size es.
Proof. induction es as [|e es IH]; [done|]. cbn [entries_size foldr]. fold (entries_size es). pose proof (len_nonneg (marshal_entry e)). lia. Qed.

(** The loop after its first turn. *)
Lemma collect_entries_more m es i total maxSize :
  (forall n e, es !! n = Some e -> m !! (i + Z.of_nat n) = Some e) -> 0 <= total -> total + entries_size es < 2 ^ 64 ->
  exists out rest, collect_entries m (length es) i total maxSize false = Ok out /\ es = out ++ rest
    /\ (out = [] \/ total + entries_size out <= maxSize)
    /\ (forall e rest', rest = e :: rest' -> maxSize < total + entries_size (out ++ [e])).
Proof.
  revert i total. induction es as [|e es IH]; intros i total Hm Ht Hs; [exists [], []; split_and!; [done|done|by left|done]|].
  pose proof (Hm O e eq_refl) as Hhead. rewrite Z.add_0_r in Hhead. cbn [collect_entries length]. rewrite Hhead.
  cbn [entries_size foldr] in Hs. fold (entries_size es) in Hs. pose proof (entries_size_nonneg es).
  pose proof (len_nonneg (marshal_entry e)) as Hle. set (n := len (marshal_entry e)) in *.
  assert (uint64 (total + n) = total + n) as Hu by (unfold uint64; rewrite Z.mod_small; lia). rewrite Hu. cbn [negb andb].
  destruct (Z.ltb_spec maxSize (total + n)) as [Hlt|Hge].
  - exists [], (e :: es). split_and!; [done|done|by left|]. intros e' rest' [= -> ->]. cbn. fold n. lia.
  - destruct (IH (i + 1) (total + n)) as (out & rest & -> & -> & Hsize & Hnext); [|lia|lia|].
    { intros k x Hk. rewrite <- Z.add_assoc. replace (1 + Z.of_nat k) with (Z.of_nat (S k)) by lia. by apply Hm. }
    exists (e :: out), rest. cbn [mbind result_bind]. split_and!; [done|done|right|].
    + cbn [entries_size foldr]. fold n (entries_size out). destruct Hsize as [->|?]; [cbn; lia|lia].
    + intros e' rest' Hr. specialize (Hnext e' rest' Hr). cbn [entries_size foldr app]. fold n (entries_size (out ++ [e'])). lia.
Qed.

Lemma collect_entries_limited m es i maxSize :
  (forall n e, es !! n = Some e -> m !! (i + Z.of_nat n) = Some e) -> entries_size es < 2 ^ 64 ->
  exists out, collect_entries m (length es) i 0 maxSize true = Ok out /\ limited maxSize es out.
Proof.
  destruct es as [|e es]; intros Hm Hs.
  { exists []. split; [done|]. split; [by exists []|done|by right; right|]. done. }
  pose proof (Hm O e eq_refl) as Hhead. rewrite Z.add_0_r in Hhead. cbn [collect_entries length]. rewrite Hhead.
  cbn [entries_size foldr] in Hs. fold (entries_size es) in Hs. pose proof (entries_size_nonneg es).
  pose proof (len_nonneg (marshal_entry e)) as Hle. set (n := len (marshal_entry e)) in *.
  cbn [negb andb]. rewrite Z.add_0_l. assert (uint64 n = n) as -> by (unfold uint64; rewrite Z.mod_small; lia).
  destruct (collect_entries_more m es (i + 1) n maxSize) as (out & rest & -> & -> & Hsize & Hnext); [|lia|lia|].
  { intros k x Hk. rewrite <- Z.add_assoc. replace (1 + Z.of_nat k) with (Z.of_nat (S k)) by lia. by apply Hm. }
  exists (e :: out). split; [done|]. split; [by exists rest|done| |].
  - destruct Hsize as [->|?]; [by left|]. right. left. cbn [entries_size foldr]. fold n (entries_size out). lia.
  - intros e' rest' [= Heq]. apply app_inv_head in Heq. specialize (Hnext e' rest' Heq).
    cbn [entries_size foldr app]. fold n (entries_size (out ++ [e'])). lia.
Qed.

Lemma Entries_log lo hi maxSize : log_first l <= lo <= hi -> hi <= log_last l + 1 -> entries_size (log_slice l lo hi) < 2 ^ 64 ->
  exists out, Entries d lo hi maxSize = Ok out /\ limited maxSize (log_slice l lo hi) out.
Proof.
  intros [H1 H2] H3 Hs. unfold Entries. fold (FirstIndex d) (LastIndex d). rewrite FirstIndex_log, LastIndex_log.
  destruct Hrep as [Hi Ht [Hr1 Hr2] He Hp]. pose proof (len_nonneg (log_tail l)).
  assert (uint64 (log_last l + 1) = log_last l + 1) as -> by (unfold uint64, log_last in *; rewrite Z.mod_small; lia).
  rewrite (proj2 (Z.ltb_ge _ _)) by lia. rewrite (proj2 (Z.ltb_ge _ hi)) by lia.
  assert (len (log_slice l lo hi) = hi - lo) as Hlen
    by (unfold log_slice; rewrite len_sub; unfold log_last, log_first in *; lia).
  destruct (Z.leb_spec hi lo) as [Hle|Hlt].
  - exists []. split; [done|]. assert (log_slice l lo hi = []) as -> by (apply len_zero_nil; lia).
    split; [by exists []|done|by right; right|]. done.
  - replace (Z.to_nat (hi - lo)) with (length (log_slice l lo hi)) by (unfold len in Hlen; lia).
    apply collect_entries_limited; [|done]. intros n e Hn. unfold log_slice, sub in Hn. apply lookup_take_Some in Hn as [Hn Hn'].
    rewrite lookup_drop in Hn. rewrite He by (unfold log_first in *; lia). rewrite <- Hn, <- log_at_tail. f_equal. lia.
Qed.

Lemma Entries_compacted lo hi maxSize : lo < log_first l -> Entries d lo hi maxSize = Fail ErrCompacted.
Proof. intros H. unfold Entries. fold (FirstIndex d). rewrite FirstIndex_log. by rewrite (proj2 (Z.ltb_lt _ _)) by done. Qed.

Lemma Entries_unavailable lo hi maxSize : log_first l <= lo -> log_last l + 1 < hi -> Entries d lo hi maxSize = Fail ErrUnavailable.
Proof.
  intros H1 H2. unfold Entries. fold (FirstIndex d) (LastIndex d). rewrite FirstIndex_log, LastIndex_log.
  destruct Hrep as [Hi Ht [Hr1 Hr2] He Hp]. pose proof (len_nonneg (log_tail l)).
  assert (uint64 (log_last l + 1) = log_last l + 1) as -> by (unfold uint64, log_last in *; rewrite Z.mod_small; lia).
  rewrite (proj2 (Z.ltb_ge _ _)) by lia. by rewrite (proj2 (Z.ltb_lt _ hi)) by lia.
Qed.
End reads.

(** ** Persisting a Ready *)

Section persist.
Context {pb : Protobuf}.

(** The fields the reads of raft depend on. *)
Definition raft_fields (d : diskStore) : gmap Z pbEntry * HardState * pbSnapshot := (disk_entries d, hardState d, snapshot d).

Lemma applyBatch_fields d b kind : raft_fields (fst (applyBatch d b kind)) = raft_fields d.
Proof. unfold applyBatch, beforeSync, engine_Apply. destruct (faults d) as [|[| |[]] fs] eqn:Hf; cbn; rewrite ?Hf; done. Qed.

Lemma write_records_fields d records kind : raft_fields (fst (write_records d records kind)) = raft_fields d.
Proof. unfold write_records. case_match; [apply applyBatch_fields|done]. Qed.

Lemma stage_chunks_fields fuel d index chunk rest : raft_fields (fst (stage_chunks fuel d index chunk rest)) = raft_fields d.
Proof.
  revert d chunk rest. induction fuel as [|fuel IH]; intros d chunk rest; [done|]. destruct rest as [|x rest]; [done|].
  cbn [stage_chunks]. match goal with |- context [write_records d ?r ?k] =>
    pose proof (write_records_fields d r k) as Hw; destruct (write_records d r k) as [d' [[]|e]] end; [|done].
  rewrite IH. exact Hw.
Qed.

Lemma stageSnapshotLocked_fields d s : raft_fields (fst (stageSnapshotLocked d s)) = raft_fields d.
Proof. unfold stageSnapshotLocked. repeat case_match; try done. apply stage_chunks_fields. Qed.

Lemma publish_ready_fields d d' rd : raft_fields d' = raft_fields d -> raft_fields (publish_ready d' rd) = raft_fields (publish_ready d rd).
Proof. unfold raft_fields, publish_ready. cbn. intros [= -> -> ->]. done. Qed.

(** A [Ready] is published whole after its batch is applied, or not at all. *)
Lemma persistReady_fields d rd :
  raft_fields (fst (persistReady d rd)) =
    match snd (persistReady d rd) with Ok _ => raft_fields (publish_ready d rd) | Fail _ => raft_fields d end.
Proof.
  unfold persistReady. destruct (failed d); [done|]. destruct (_ <? _); [done|]. destruct (check_ready _ _) as [[]|e]; [|done].
  set (staged := if IsEmptySnap _ then _ else _).
  assert (raft_fields (fst staged) = raft_fields d) as Hst
    by (unfold staged; destruct (IsEmptySnap _); [done|apply stageSnapshotLocked_fields]).
  destruct staged as [d1 [[]|e]]; cbn [fst] in Hst; [|exact Hst].
  destruct (put_all _ _) as [b|e]; [|exact Hst].
  destruct (bool_decide _ && _ && _) eqn:Hnone.
  - bool_to_prop. cbn [fst snd]. rewrite <- (publish_ready_fields d d1 rd Hst). unfold raft_fields, publish_ready. cbn.
    repeat match goal with E : _ = true |- _ => rewrite E; clear E | E : bool_decide _ = true |- _ => apply bool_decide_eq_true in E end.
    by match goal with E : rd_Entries rd = [] |- _ => rewrite E end.
  - pose proof (applyBatch_fields d1 b "raft-ready") as Ha. destruct (applyBatch d1 b _) as [d2 [[]|e]]; cbn [fst snd] in *.
    + apply publish_ready_fields. by rewrite Ha.
    + by rewrite Ha.
Qed.

(** ** Writing entries over the log *)

Definition put_entries (m : gmap Z pbEntry) (es : list pbEntry) : gmap Z pbEntry :=
  fold_left (fun m e => <[pe_Index e := e]> m) es m.

Lemma put_entries_lookup es : forall m start i, consecutive start es ->
  put_entries m es !! i = if (start <=? i) && (i <? start + len es) then es !! Z.to_nat (i - start) else m !! i.
Proof.
  unfold put_entries. induction es as [|e es IH]; intros m start i Hc; cbn [fold_left].
  { destruct (_ && _) eqn:Hb; [|done]. bool_to_prop. rewrite len_nil in *. lia. }
  destruct Hc as [He Hc]. rewrite (IH _ (start + 1) i Hc). rewrite len_cons. pose proof (len_nonneg es).
  destruct (decide (i = start)) as [->|Hne].
  - rewrite (proj2 (Z.leb_gt _ _)) by lia. cbn [andb]. rewrite He, lookup_insert_eq.
    rewrite Z.leb_refl, (proj2 (Z.ltb_lt _ _)) by lia. cbn [andb]. by rewrite Z.sub_diag.
  - rewrite He, lookup_insert_ne by done.
    destruct ((start + 1 <=? i) && _) eqn:H1; destruct ((start <=? i) && _) eqn:H2; bool_to_prop; try lia; [|done].
    replace (Z.to_nat (i - start)) with (S (Z.to_nat (i - (start + 1)))) by lia. done.
Qed.

Lemma consecutive_nonempty start es : consecutive start es -> forall e, e ∈ es -> start <= pe_Index e.
Proof.
  revert start. induction es as [|x es IH]; intros start Hc e He; [by apply not_elem_of_nil in He|].
  destruct Hc as [Hx Hc]. apply elem_of_cons in He as [->|He]; [lia|]. specialize (IH _ Hc e He). lia.
Qed.

Lemma log_at_overwrite l start es i : log_first l <= start <= log_last l + 1 ->
  log_at (log_overwrite l start es) i
  = if (start <=? i) && (i <? start + len es) then es !! Z.to_nat (i - start) else log_at l i.
Proof.
  intros Hs. unfold log_at, log_overwrite, log_last, log_first in *. cbn [log_index log_tail]. pose proof (len_nonneg es).
  destruct (Z.leb_spec i (log_index l)) as [Hle|Hlt].
  { rewrite (proj2 (Z.leb_gt _ _)) by lia. done. }
  set (k := Z.to_nat (start - (log_index l + 1))). set (n := Z.to_nat (i - (log_index l + 1))).
  assert (length (take k (log_tail l)) = k) as Hk by (rewrite length_take; unfold k, len in *; lia).
  destruct (Z.leb_spec start i) as [Hsi|His]; cbn [andb].
  - rewrite lookup_app_r by (rewrite Hk; unfold k, n; lia). rewrite Hk.
    replace (n - k)%nat with (Z.to_nat (i - start)) by (unfold n, k; lia).
    destruct (Z.ltb_spec i (start + len es)) as [Hin|Hout].
    + by rewrite lookup_app_l by (unfold len in Hin; lia).
    + rewrite lookup_app_r by (unfold len in Hout; lia). rewrite lookup_drop. f_equal. unfold n, len in *. lia.
  - rewrite lookup_app_l by (rewrite Hk; unfold k, n; lia). rewrite lookup_take_lt by (unfold n, k; lia). done.
Qed.

Lemma log_last_overwrite l start es : log_first l <= start <= log_last l + 1 ->
  log_last (log_overwrite l start es) = Z.max (log_last l) (start + len es - 1).
Proof.
  intros Hs. unfold log_overwrite. unfold log_last, log_first, len in *. cbn [log_index log_tail].
  rewrite !length_app, length_take, length_drop. lia.
Qed.

Lemma represents_overwrite d d' l start es : represents d l -> consecutive start es -> log_first l <= start <= log_last l + 1 ->
  start + len es < 2 ^ 64 -> disk_entries d' = put_entries (disk_entries d) es -> snapshot d' = snapshot d ->
  represents d' (log_overwrite l start es).
Proof.
  intros [Hi Ht [Hr1 Hr2] He Hp] Hc Hs Hbound Hes Hsn. pose proof (len_nonneg es).
  split; [by rewrite Hsn|by rewrite Hsn| | |].
  - split; [done|]. rewrite log_last_overwrite by done. lia.
  - intros i Hlt. rewrite Hes, (put_entries_lookup es _ start i Hc), log_at_overwrite by done.
    case_match; [done|]. by apply He.
  - intros i e. rewrite Hes, (put_entries_lookup es _ start i Hc). destruct (_ && _) eqn:Hb; [|apply Hp].
    bool_to_prop. unfold log_first in Hs. lia.
Qed.

(** Overwriting is appending exactly when no entry lies beyond the new ones. *)
Lemma overwrite_is_append l start es : log_first l <= start <= log_last l + 1 -> log_last l < start + len es ->
  log_overwrite l start es = log_append l start es.
Proof.
  intros Hs Hend. unfold log_overwrite, log_append. f_equal. rewrite (drop_ge (log_tail l)), app_nil_r; [done|].
  unfold log_last, log_first, len in *. lia.
Qed.

(** A [Ready] of entries and a hard state, without a snapshot. *)
Definition entries_ready (rd : Ready) (es : list pbEntry) : Prop :=
  rd_Entries rd = map Some es /\ IsEmptySnap (rd_Snapshot rd) = true.

Lemma omap_map_Some {A} (l : list A) : omap id (map Some l) = l.
Proof. induction l as [|x l IH]; [done|]. cbn. by f_equal. Qed.

Lemma persistReady_log d l rd start es : represents d l -> entries_ready rd es -> consecutive start es ->
  log_first l <= start <= log_last l + 1 -> start + len es < 2 ^ 64 ->
  match snd (persistReady d rd) with
  | Ok _ => represents (fst (persistReady d rd)) (log_overwrite l start es)
  | Fail _ => represents (fst (persistReady d rd)) l
  end.
Proof.
  intros Hrep [Hes Hsn] Hc Hs Hb. pose proof (persistReady_fields d rd) as Hf.
  destruct (persistReady d rd) as [d' [[]|e]]; cbn [fst snd] in *; unfold raft_fields in Hf.
  - unfold publish_ready in Hf. cbn in Hf. rewrite Hsn, Hes, omap_map_Some in Hf. injection Hf as He _ Hsnap.
    by apply (represents_overwrite d).
  - injection Hf as He _ Hsnap. destruct Hrep as [H1 H2 H3 H4 H5]. split; rewrite ?He, ?Hsnap; done.
Qed.

(** The storage reads are those of the raft log the store holds.  The
    first and last index are the log's; a term between the snapshot and the
    last entry is the log's, and none is reported beyond it; a range inside
    the log yields the longest prefix of its entries within the size limit, at
    least one; a range that starts in the snapshot is compacted, and one that
    ends beyond the log is unavailable. *)
Theorem storage_reads_are_the_log d l : represents d l ->
  FirstIndex d = log_first l /\ LastIndex d = log_last l
  /\ (forall i, log_index l <= i <= log_last l -> exists t, log_term_at l i = Some t /\ Term d i = Ok t)
  /\ (forall i, log_last l < i -> Term d i = Fail ErrUnavailable)
  /\ (forall lo hi maxSize, log_first l <= lo <= hi -> hi <= log_last l + 1 -> entries_size (log_slice l lo hi) < 2 ^ 64 ->
        exists out, Entries d lo hi maxSize = Ok out /\ limited maxSize (log_slice l lo hi) out)
  /\ (forall lo hi maxSize, lo < log_first l -> Entries d lo hi maxSize = Fail ErrCompacted)
  /\ (forall lo hi maxSize, log_first l <= lo -> log_last l + 1 < hi -> Entries d lo hi maxSize = Fail ErrUnavailable).
Proof.
  intros Hrep. split_and!.
  - by apply FirstIndex_log.
  - by apply LastIndex_log.
  - intros i Hi. assert (is_Some (log_term_at l i)) as [t Ht]; [|exists t; split; [done|by apply (Term_log d l)]].
    unfold log_term_at. case_match; [done|]. bool_to_prop. apply fmap_is_Some, log_at_inside. lia.
  - by apply Term_beyond.
  - intros lo hi maxSize. by apply Entries_log.
  - intros lo hi maxSize. by apply Entries_compacted.
  - intros lo hi maxSize. by apply Entries_unavailable.
Qed.

(** Persisting a [Ready] whose entries reach at least to the end of the
    log makes the store hold the log raft asked for: the entries from the
    first new index on are replaced.  When persisting fails, the store holds
    the log it held before. *)
Theorem ready_replaces_the_end d l rd start es : represents d l -> entries_ready rd es -> consecutive start es ->
  log_first l <= start <= log_last l + 1 -> log_last l < start + len es < 2 ^ 64 ->
  match persistReady d rd with
  | (d', Ok _) => represents d' (log_append l start es)
  | (d', Fail _) => represents d' l
  end.
Proof.
  intros Hrep Hrd Hc Hs Hend. pose proof (persistReady_log d l rd start es Hrep Hrd Hc Hs (proj2 Hend)) as H.
  rewrite overwrite_is_append in H by lia. by destruct (persistReady d rd) as [d' [[]|e]].
Qed.

(** C29: Persisting a [Ready] whose entries end before the end of the log
    leaves the entries behind them in place: the last index does not go back
    to the last new entry, and the store keeps reporting the terms of the
    entries the new ones were to replace.  Raft asks its storage to discard
    every entry at or after the first new index. *)
Theorem ready_keeps_stale_entries d l rd start es d' : represents d l -> entries_ready rd es -> consecutive start es ->
  log_first l <= start -> start + len es <= log_last l -> persistReady d rd = (d', Ok tt) ->
  LastIndex d' = log_last l /\ log_last (log_append l start es) < LastIndex d'
  /\ forall i, start + len es <= i <= log_last l -> exists e, log_at l i = Some e /\ disk_entries d' !! i = Some e /\ Term d' i = Ok (pe_Term e).
Proof.
  intros Hrep Hrd Hc Hs Hend Hp. pose proof (len_nonneg es). pose proof (rep_range _ _ Hrep) as [Hr1 Hr2].
  pose proof (persistReady_log d l rd start es Hrep Hrd Hc ltac:(lia) ltac:(lia)) as H'. rewrite Hp in H'. cbn [fst snd] in H'.
  pose proof (LastIndex_log d' _ H') as Hlast. rewrite log_last_overwrite in Hlast by lia.
  split_and!; [lia| |].
  - rewrite Hlast. unfold log_last, log_append, log_first, len in *. cbn [log_index log_tail]. rewrite length_app, length_take. lia.
  - intros i Hi. assert (log_at (log_overwrite l start es) i = log_at l i) as Hat.
    { rewrite log_at_overwrite by lia. rewrite (proj2 (Z.ltb_ge i _)) by lia. by rewrite andb_false_r. }
    destruct (log_at_inside l i) as [e He]; [unfold log_first in *; lia|]. exists e.
    assert (disk_entries d' !! i = Some e) as Hd.
    { rewrite (rep_entries _ _ H') by (cbn; unfold log_first in *; lia). by rewrite Hat. }
    split_and!; [done|done|]. apply (Term_log d' _ H'). unfold log_term_at. rewrite Hat, He. cbn [log_index log_overwrite].
    rewrite (proj2 (Z.eqb_neq _ _)) by (unfold log_first in *; lia). done.
Qed.
End persist.

(** ** An instance *)

(** A wire format for the messages: the bits of their numbering. *)
Fixpoint positive_bytes (p : positive) : bytes :=
  match p with xH => [] | xO p' => x00 :: positive_bytes p' | xI p' => x01 :: positive_bytes p' end.
Fixpoint bytes_positive (b : bytes) : positive :=
  match b with [] => xH | x :: b' => if bool_decide (x = x00) then xO (bytes_positive b') else xI (bytes_positive b') end.

Lemma bytes_positive_bytes p : bytes_positive (positive_bytes p) = p.
Proof. induction p as [p IH|p IH|]; cbn; [by rewrite IH..|done]. Qed.

Definition number_bytes `{Countable A} (x : A) : bytes := positive_bytes (encode x).
Definition bytes_number `{Countable A} (b : bytes) : option A := decode (bytes_positive b).

Lemma bytes_number_bytes `{Countable A} (x : A) : bytes_number (number_bytes x) = Some x.
Proof. unfold bytes_number, number_bytes. by rewrite bytes_positive_bytes, decode_encode. Qed.

#[export] Instance ConfState_eq_dec : EqDecision ConfState.
Proof. solve_decision. Defined.
#[export] Instance pbSnapshot_eq_dec : EqDecision pbSnapshot.
Proof. solve_decision. Defined.
#[export] Program Instance pbEntry_countable : Countable pbEntry :=
  inj_countable' (fun e => (pe_Type e, pe_Term e, pe_Index e, pe_Data e)) (fun '(a, b, c, x) => mkPbEntry a b c x) _.
Next Obligation. by intros []. Qed.
#[export] Program Instance HardState_countable : Countable HardState :=
  inj_countable' (fun h => (hs_Term h, hs_Vote h, hs_Commit h)) (fun '(a, b, c) => mkHard a b c) _.
Next Obligation. by intros []. Qed.
#[export] Program Instance ConfState_countable : Countable ConfState :=
  inj_countable' (fun c => (cs_Voters c, cs_Learners c, cs_VotersOutgoing c, cs_LearnersNext c, cs_AutoLeave c))
    (fun '(a, b, c, x, y) => mkConf a b c x y) _.
Next Obligation. by intros []. Qed.
#[export] Program Instance pbSnapshot_countable : Countable pbSnapshot :=
  inj_countable' (fun s => (sn_ConfState s, sn_Index s, sn_Term s, sn_Data s)) (fun '(a, b, c, x) => mkPbSnapshot a b c x) _.
Next Obligation. by intros []. Qed.

Definition numbered : Protobuf := {|
  marshal_entry := number_bytes; unmarshal_entry := bytes_number;
  marshal_hard := number_bytes; unmarshal_hard := bytes_number;
  marshal_conf := number_bytes; unmarshal_conf := bytes_number;
  marshal_snapshot := number_bytes; unmarshal_snapshot := bytes_number |}.

(** A store with three entries of term one. *)
Definition sample_entry (index term : Z) : pbEntry := mkPbEntry 0 term index [x41].
Definition sample_options : Options := match normalized diskOptions with Ok o => o | Fail _ => diskOptions end.
Definition empty_store : diskStore := new_disk ∅ sample_options [] 1.
Definition first_entries : list pbEntry := [sample_entry 1 1; sample_entry 2 1; sample_entry 3 1].
Definition entries_only (es : list pbEntry) : Ready := mkReady (map Some es) no_hard_state no_snapshot.
Definition three_store : diskStore := fst (@persistReady numbered empty_store (entries_only first_entries)).
Definition three_log : raft_log := mkLog 0 0 first_entries.

Lemma empty_store_log : represents empty_store (mkLog 0 0 []).
Proof.
  split; [done|done|by vm_compute| |].
  - intros i Hi. cbn in Hi. cbn [disk_entries empty_store new_disk]. rewrite lookup_empty. unfold log_at. case_match; [done|].
    symmetry. apply lookup_nil.
  - intros i e. cbn [disk_entries empty_store new_disk]. by rewrite lookup_empty.
Qed.

Lemma three_store_log : represents three_store three_log.
Proof.
  pose proof (@persistReady_log numbered empty_store (mkLog 0 0 []) (entries_only first_entries) 1 first_entries
    empty_store_log (conj eq_refl eq_refl) ltac:(by vm_compute) ltac:(by vm_compute) ltac:(by vm_compute)) as H.
  assert (is_ok (snd (@persistReady numbered empty_store (entries_only first_entries))) = true) as Hok by (vm_compute; reflexivity).
  destruct (snd _); [exact H|discriminate Hok].
Qed.

Lemma storage_reads_are_the_log_witness : LastIndex three_store = 3 /\ exists out,
  @Entries numbered three_store 2 4 1 = Ok out /\ @limited numbered 1 [sample_entry 2 1; sample_entry 3 1] out.
Proof.
  split.
  - exact (proj1 (proj2 (@storage_reads_are_the_log numbered three_store three_log three_store_log))).
  - apply (@storage_reads_are_the_log numbered three_store three_log three_store_log); by vm_compute.
Defined.

(** Entries two to four of term two replace those of term one. *)
Definition later_entries : list pbEntry := [sample_entry 2 2; sample_entry 3 2; sample_entry 4 2].

Lemma ready_replaces_the_end_witness :
  represents (fst (@persistReady numbered three_store (entries_only later_entries))) (mkLog 0 0 (sample_entry 1 1 :: later_entries)).
Proof.
  pose proof (@ready_replaces_the_end numbered three_store three_log (entries_only later_entries) 2 later_entries three_store_log
    (conj eq_refl eq_refl) ltac:(by vm_compute) ltac:(by vm_compute) ltac:(by vm_compute)) as H.
  assert (is_ok (snd (@persistReady numbered three_store (entries_only later_entries))) = true) as Hok by (vm_compute; reflexivity).
  destruct (@persistReady numbered three_store (entries_only later_entries)) as [d' [[]|e]]; [exact H|discriminate Hok].
Defined.

(** A new leader's entry two leaves entry three of the old term in place. *)
Lemma ready_keeps_stale_entries_witness : exists d',
  @persistReady numbered three_store (entries_only [sample_entry 2 2]) = (d', Ok tt) /\ LastIndex d' = 3.
Proof.
  assert (consecutive 2 [sample_entry 2 2]) as Hc by done.
  assert (log_first three_log <= 2) as Hs by (vm_compute; discriminate).
  assert (2 + len [sample_entry 2 2] <= log_last three_log) as He by (vm_compute; discriminate).
  assert (exists d', @persistReady numbered three_store (entries_only [sample_entry 2 2]) = (d', Ok tt)) as [d' Hd'].
  { eexists. vm_compute. reflexivity. }
  exists d'. split; [exact Hd'|].
  exact (proj1 (@ready_keeps_stale_entries numbered three_store three_log (entries_only [sample_entry 2 2]) 2 [sample_entry 2 2] d'
    three_store_log (conj eq_refl eq_refl) Hc Hs He Hd')).
Defined.
