(* ===== verification/DiskLoad.v ===== *)
(** Recovery of the raft storage adapter: a store whose records mirror its
    fields is read back exactly. *)

From Stdlib Require Import ZArith Lia Sorting.Sorted.
From stdpp Require Import base list gmap sorting.
From S2P Require Import Prelude GoStd EngineOps Fs Manifest Range Snapshot Disk DiskLog.

Local Open Scope Z_scope.

(** ** What recovery relies on *)

(** The messages the wire format carries: its integers have 64 bits. *)
Definition entry_wire (e : pbEntry) : Prop := 0 <= pe_Type e < 2 ^ 31 /\ is_u64 (pe_Term e) /\ is_u64 (pe_Index e).
Definition hard_wire (h : HardState) : Prop := is_u64 (hs_Term h) /\ is_u64 (hs_Vote h) /\ is_u64 (hs_Commit h).
Definition conf_wire (c : ConfState) : Prop :=
  Forall is_u64 (cs_Voters c) /\ Forall is_u64 (cs_Learners c) /\ Forall is_u64 (cs_VotersOutgoing c)
  /\ Forall is_u64 (cs_LearnersNext c).
Definition snapshot_wire (s : pbSnapshot) : Prop := conf_wire (sn_ConfState s) /\ is_u64 (sn_Index s) /\ is_u64 (sn_Term s).

(** Unmarshalling is the inverse of marshalling. *)
Class ProtobufLaws `{Protobuf} : Prop := {
  entry_round : forall e, entry_wire e -> unmarshal_entry (marshal_entry e) = Some e;
  hard_round : forall h, hard_wire h -> unmarshal_hard (marshal_hard h) = Some h;
  conf_round : forall c, conf_wire c -> unmarshal_conf (marshal_conf c) = Some c;
  snapshot_round : forall s, snapshot_wire s -> unmarshal_snapshot (marshal_snapshot s) = Some s
}.

#[export] Instance numbered_laws : @ProtobufLaws numbered.
Proof. split; intros x _; apply bytes_number_bytes. Qed.

Section load.
Context {pb : Protobuf} {laws : ProtobufLaws}.

(** A payload an envelope can carry. *)
Definition fits (payload : bytes) : Prop := len payload < 2 ^ 32.

(** Identifiers of the bootstrap record: increasing and not zero. *)
Fixpoint peers_ok (previous : Z) (ids : list Z) : Prop :=
  match ids with
  | [] => True
  | id :: ids' => previous < id < 2 ^ 64 /\ peers_ok id ids'
  end.

(** The record of a key, for a store with the fields of [T]. *)
Inductive recorded (T : diskStore) : bytes -> bytes -> Prop :=
| rec_node : 0 < nodeID T < 2 ^ 64 -> recorded T kNodeID (wrapDisk x06 (be 8 (nodeID T)))
| rec_bootstrap : bootstrapPeers T <> [] -> peers_ok 0 (bootstrapPeers T) -> fits (concat (map (be 8) (bootstrapPeers T))) ->
    recorded T kBootstrap (wrapDisk x07 (concat (map (be 8) (bootstrapPeers T))))
| rec_catalog c : UnmarshalRangeCatalog (catalogData T) = Ok c -> MarshalBinary (Some c) = Ok (catalogData T) ->
    fits (catalogData T) -> recorded T kCatalog (wrapDisk x0e (catalogData T))
| rec_nonce : len (readNonce T) = 16 -> recorded T kReadNonce (wrapDisk x0f (readNonce T))
| rec_hard : hard_wire (hardState T) -> fits (marshal_hard (hardState T)) ->
    recorded T kHardState (wrapDisk x01 (marshal_hard (hardState T)))
| rec_applied : is_u64 (applied_index T) -> recorded T kApplied (wrapDisk x02 (be 8 (applied_index T)))
| rec_conf : conf_wire (confState T) -> fits (marshal_conf (confState T)) ->
    recorded T kConfState (wrapDisk x03 (marshal_conf (confState T)))
| rec_confindex : is_u64 (confStateIndex T) -> recorded T kConfIndex (wrapDisk x08 (be 8 (confStateIndex T)))
| rec_snapshot : snapshot_wire (snapshot T) -> fits (marshal_snapshot (snapshot T)) ->
    recorded T kSnapshot (wrapDisk x04 (marshal_snapshot (snapshot T)))
| rec_chunk key value part : HasPrefix key kSnapshotPre = true -> unwrapDisk value x0b = Some part -> recorded T key value
| rec_entry i e : disk_entries T !! i = Some e -> pe_Index e = i -> entry_wire e -> 0 < i -> pe_Term e <> 0 ->
    fits (marshal_entry e) -> recorded T (entryKey i) (wrapDisk x05 (marshal_entry e))
| rec_logical key value payload : isAnyLogicalKey key = true -> unwrapDisk value x0a = Some payload -> recorded T key value.

(** A field as recovery has it once the records of the keys [P] are read. *)
Definition seen {A : Type} (P : gset bytes) (key : bytes) (x y : A) : A := if bool_decide (key ∈ P) then x else y.

Definition overlay (P : gset bytes) (T : diskStore) : diskStore :=
  mkDisk (db T) (options T) (faults T) (filter (fun '(i, _) => entryKey i ∈ P) (disk_entries T))
    (seen P kHardState (hardState T) no_hard_state) (seen P kConfState (confState T) no_conf_state)
    (seen P kConfIndex (confStateIndex T) 0) (seen P kSnapshot (snapshot T) no_snapshot) (seen P kApplied (applied_index T) 0)
    None (nodeID T) (seen P kNodeID true false) (seen P kBootstrap (bootstrapPeers T) []) false
    (seen P kCatalog (catalogData T) []) (seen P kReadNonce (readNonce T) []).

Lemma seen_same {A : Type} (P : gset bytes) key (x y : A) : seen ({[key]} ∪ P) key x y = x.
Proof. unfold seen. rewrite bool_decide_eq_true_2; [done|]. apply elem_of_union_l, elem_of_singleton_2. done. Qed.

Lemma seen_other {A : Type} (P : gset bytes) key key' (x y : A) : key' <> key -> seen ({[key]} ∪ P) key' x y = seen P key' x y.
Proof. intros H. unfold seen. rewrite (bool_decide_ext (key' ∈ {[key]} ∪ P) (key' ∈ P)); [done|]. rewrite elem_of_union, elem_of_singleton. tauto. Qed.

(** The first bytes of a key tell the keyspaces apart. *)
Lemma HasPrefix_app p s : HasPrefix (p ++ s) p = true.
Proof. unfold HasPrefix. rewrite take_app_length. apply beq_refl. Qed.

Lemma HasPrefix_ne p key key' : HasPrefix key p = true -> HasPrefix key' p = false -> key <> key'.
Proof. by intros H H' ->; rewrite H in H'. Qed.

Lemma entry_prefix i : HasPrefix (entryKey i) kEntryPre = true.
Proof. apply HasPrefix_app. Qed.

Lemma overlay_entries_other (P : gset bytes) key (m : gmap Z pbEntry) : HasPrefix key kEntryPre = false ->
  filter (fun '(i, _) => entryKey i ∈ {[key]} ∪ P) m = filter (fun '(i, _) => entryKey i ∈ P) m.
Proof.
  intros H. apply map_filter_ext. intros i e _. rewrite elem_of_union, elem_of_singleton.
  assert (entryKey i <> key) by (apply (HasPrefix_ne kEntryPre); [apply entry_prefix|done]). tauto.
Qed.

Lemma beq_prefix_ne p key key' : HasPrefix key p = true -> HasPrefix key' p = false -> beq key key' = false.
Proof. intros H H'. unfold beq. apply bool_decide_eq_false. by apply (HasPrefix_ne p). Qed.

Lemma HasPrefix_clash p q key : HasPrefix key p = true -> HasPrefix p q = false -> HasPrefix q p = false -> HasPrefix key q = false.
Proof.
  unfold HasPrefix. rewrite !beq_true. intros Hp Hpq Hqp. apply not_true_iff_false. rewrite beq_true. intros Hq.
  apply not_true_iff_false in Hpq. apply not_true_iff_false in Hqp. rewrite beq_true in Hpq, Hqp.
  destruct (decide (length p <= length q)%nat).
  - apply Hqp. transitivity (take (length p) (take (length q) key)); [by rewrite Hq|]. rewrite take_take, Nat.min_l by done. done.
  - apply Hpq. transitivity (take (length q) (take (length p) key)); [by rewrite Hp|]. rewrite take_take, Nat.min_l by lia. done.
Qed.

Definition kState : bytes := lit "m3/state/".

Lemma HasPrefix_trans p q key : HasPrefix key p = true -> HasPrefix p q = true -> HasPrefix key q = true.
Proof.
  unfold HasPrefix. rewrite !beq_true. intros Hp Hq.
  assert (length q <= length p)%nat by (rewrite <- Hq, length_take; lia).
  transitivity (take (length q) (take (length p) key)); [rewrite take_take; f_equal; lia|by rewrite Hp].
Qed.

Lemma logical_prefix key : isAnyLogicalKey key = true -> HasPrefix key kState = true.
Proof.
  unfold isAnyLogicalKey. rewrite !orb_true_iff, !beq_true.
  intros [[[[[[H|H]|H]|H]|H]| ->]| ->]; try done; by apply (HasPrefix_trans _ _ _ H).
Qed.

(** One record read on top of those already read. *)
Lemma unwrap_u64_wrap kind n : is_u64 n -> unwrap_u64 (wrapDisk kind (be 8 n)) kind = Some n.
Proof.
  intros H. unfold unwrap_u64. rewrite unwrapDisk_wrapDisk by (rewrite len_be; lia). rewrite len_be. cbn [Z.of_nat].
  rewrite un_be_be_small; [done|]. unfold is_u64, max_uint64 in H. cbn. lia.
Qed.

Lemma read_peers_ok ids : forall previous prev, peers_ok previous ids -> 0 <= previous ->
  match prev with Some p => p = previous | None => True end ->
  read_peers (length ids) prev (concat (map (be 8) ids)) = Some ids.
Proof.
  induction ids as [|id ids IH]; intros previous prev Hok H0 Hprev; [done|]. destruct Hok as [Hid Hok].
  cbn [length read_peers map concat]. rewrite take_app_length' by (symmetry; apply length_be). rewrite drop_app_length' by (symmetry; apply length_be).
  rewrite un_be_be_small by (cbn; lia). rewrite (proj2 (Z.eqb_neq id 0)) by lia. cbn [orb].
  assert (match prev with Some p => id <=? p | None => false end = false) as ->.
  { destruct prev as [p|]; [|done]. subst. apply Z.leb_gt. lia. }
  rewrite (IH id (Some id)) by (done || lia). done.
Qed.

Lemma len_concat_be ids : len (concat (map (be 8) ids)) = 8 * len ids.
Proof. induction ids as [|id ids IH]; [done|]. cbn [map concat]. rewrite len_app, len_be, len_cons, IH. lia. Qed.

(** Keys of [load_record] compared, and the fields it leaves alone. *)
Ltac compare_keys :=
  repeat match goal with
  | |- context [beq ?a ?b] => let r := eval vm_compute in (beq a b) in change (beq a b) with r; cbn iota
  | |- context [HasPrefix ?a ?b] => let r := eval vm_compute in (HasPrefix a b) in change (HasPrefix a b) with r; cbn iota
  end.
Ltac same_fields :=
  unfold overlay; rewrite ?seen_same; rewrite ?seen_other by (vm_compute; discriminate);
  rewrite ?overlay_entries_other by (vm_compute; reflexivity).

Lemma load_fixed T P key value : recorded T key value ->
  HasPrefix key kSnapshotPre = false -> HasPrefix key kEntryPre = false -> HasPrefix key kState = false ->
  load_record (nodeID T) (overlay P T) key value = Ok (overlay ({[key]} ∪ P) T).
Proof.
  intros Hrec Hsn Hen Hst. unfold load_record.
  destruct Hrec as [Hn|Hne Hp Hf|c Hu Hm Hf|Hl|Hw Hf|Ha|Hw Hf|Hi|Hw Hf|key value part H|i e He H1 H2 H3 H4 H5|key value payload H Hu].
  - compare_keys. rewrite unwrap_u64_wrap by (unfold is_u64, max_uint64; lia). rewrite Z.eqb_refl, (proj2 (Z.eqb_neq _ 0)) by lia.
    cbn [orb negb]. unfold set_identity. cbn. same_fields. done.
  - compare_keys. rewrite unwrapDisk_wrapDisk by exact Hf. rewrite len_concat_be.
    assert (0 < len (bootstrapPeers T)) as Hpos by (destruct (bootstrapPeers T); [done|rewrite len_cons; pose proof (len_nonneg l); lia]).
    rewrite (proj2 (Z.eqb_neq _ 0)) by lia. rewrite (Z.mul_comm 8), Z.mod_mul by lia. cbn [orb negb Z.eqb].
    rewrite Z.div_mul by lia. rewrite len_to_nat. rewrite (read_peers_ok _ 0) by (done || lia).
    unfold set_identity. cbn. same_fields. done.
  - compare_keys. rewrite unwrapDisk_wrapDisk by exact Hf. rewrite Hu, Hm, beq_refl. cbn [negb]. unfold set_catalog_data. cbn. same_fields. done.
  - compare_keys. rewrite unwrapDisk_wrapDisk by lia. rewrite Hl. cbn [negb Z.eqb Pos.eqb]. unfold set_read_nonce. cbn. same_fields. done.
  - compare_keys. rewrite unwrapDisk_wrapDisk by exact Hf. cbn [mbind option_bind]. rewrite hard_round by done.
    unfold set_raft. cbn. same_fields. done.
  - compare_keys. rewrite unwrap_u64_wrap by done. unfold set_applied_index. cbn. same_fields. done.
  - compare_keys. rewrite unwrapDisk_wrapDisk by exact Hf. cbn [mbind option_bind]. rewrite conf_round by done.
    unfold set_conf. cbn. same_fields. done.
  - compare_keys. rewrite unwrap_u64_wrap by done. unfold set_conf. cbn. same_fields. done.
  - compare_keys. rewrite unwrapDisk_wrapDisk by exact Hf. cbn [mbind option_bind]. rewrite snapshot_round by done.
    unfold set_raft. cbn. same_fields. done.
  - by rewrite H in Hsn.
  - by rewrite entry_prefix in Hen.
  - by rewrite (logical_prefix key H) in Hst.
Qed.

(** The keys with a field of their own. *)
Definition field_keys : list bytes :=
  [kNodeID; kBootstrap; kCatalog; kReadNonce; kHardState; kApplied; kConfState; kConfIndex; kSnapshot].

(** Keys of a keyspace [p] that holds none of them. *)
Definition apart (p : bytes) : bool := forallb (fun k => negb (HasPrefix k p)) field_keys.

Lemma apart_ne p key k : apart p = true -> HasPrefix key p = true -> k ∈ field_keys -> k <> key.
Proof.
  unfold apart. rewrite forallb_forall. intros Hall Hkey Hk. apply not_eq_sym, (HasPrefix_ne p); [done|].
  apply negb_true_iff, Hall, list_elem_of_In, Hk.
Qed.

Ltac among := unfold field_keys; rewrite !elem_of_cons; tauto.

Lemma load_beyond_fields T d p key value : apart p = true -> HasPrefix key p = true ->
  load_record (nodeID T) d key value =
    if HasPrefix key kSnapshotPre then
      match unwrapDisk value x0b with None => corrupt "snapshot chunk" | Some _ => Ok d end
    else if HasPrefix key kEntryPre then
      if negb (len key =? len kEntryPre + 8) then corrupt "entry key"
      else
        let index := un_be (drop (length kEntryPre) key) in
        match unwrapDisk value x05 with
        | None => corrupt "entry"
        | Some payload =>
            match unmarshal_entry payload with
            | None => corrupt "entry protobuf"
            | Some e =>
                if negb (pe_Index e =? index) || (index =? 0) || (pe_Term e =? 0) then corrupt "entry protobuf"
                else Ok (set_raft d (<[index := e]> (disk_entries d)) (hardState d) (snapshot d))
            end
        end
    else if isAnyLogicalKey key then
      match unwrapDisk value x0a with None => corrupt "logical record" | Some _ => Ok d end
    else corrupt "unknown keyspace".
Proof.
  intros Hp Hkey. unfold load_record.
  assert (forall k, k ∈ field_keys -> beq key k = false) as Hne.
  { intros k Hk. unfold beq. apply bool_decide_eq_false, not_eq_sym. by apply (apart_ne p). }
  rewrite !Hne by among. done.
Qed.

Lemma overlay_beyond_fields T P p key : apart p = true -> HasPrefix key p = true -> HasPrefix key kEntryPre = false ->
  overlay ({[key]} ∪ P) T = overlay P T.
Proof.
  intros Hp Hkey He. unfold overlay. rewrite overlay_entries_other by done.
  rewrite !seen_other by (apply (apart_ne p); [done|done|among]). done.
Qed.

(** The records mirror the fields: each record says what a field holds, and a
    field without a record has its initial value. *)
Record stored (T : diskStore) : Prop := {
  st_records : forall key value, db T !! key = Some value -> recorded T key value;
  st_index : forall i e, disk_entries T !! i = Some e -> is_u64 i;
  st_entries : forall i e, disk_entries T !! i = Some e -> is_Some (db T !! entryKey i);
  st_node : is_Some (db T !! kNodeID) /\ hadNodeID T = true;
  st_bootstrap : is_Some (db T !! kBootstrap);
  st_catalog : db T !! kCatalog = None -> catalogData T = [];
  st_nonce : db T !! kReadNonce = None -> readNonce T = [];
  st_hard : db T !! kHardState = None -> hardState T = no_hard_state;
  st_applied : db T !! kApplied = None -> applied_index T = 0;
  st_conf : db T !! kConfState = None -> confState T = no_conf_state;
  st_confindex : db T !! kConfIndex = None -> confStateIndex T = 0;
  st_snapshot : db T !! kSnapshot = None -> snapshot T = no_snapshot
}.

Lemma entryKey_inj i j : is_u64 i -> is_u64 j -> entryKey i = entryKey j -> i = j.
Proof.
  unfold is_u64, max_uint64, entryKey. intros Hi Hj H%app_inv_head.
  rewrite <- (un_be_be_small 8 i), <- (un_be_be_small 8 j), H by (cbn; lia). done.
Qed.

Lemma overlay_entry T P i e : stored T -> disk_entries T !! i = Some e ->
  overlay ({[entryKey i]} ∪ P) T = set_raft (overlay P T) (<[i := e]> (disk_entries (overlay P T)))
    (hardState (overlay P T)) (snapshot (overlay P T)).
Proof.
  intros Hst He. unfold overlay, set_raft. cbn.
  rewrite !seen_other by (apply (apart_ne kEntryPre); [done|apply entry_prefix|among]). f_equal.
  apply map_eq. intros j. destruct (decide (i = j)) as [<-|Hne].
  - rewrite lookup_insert_eq. apply map_lookup_filter_Some. split; [done|]. apply elem_of_union_l, elem_of_singleton_2. done.
  - rewrite lookup_insert_ne by done. apply option_eq. intros e'. rewrite !map_lookup_filter_Some.
    rewrite elem_of_union, elem_of_singleton. split; [|tauto]. intros [Hj [Heq|?]]; [|done].
    exfalso. apply Hne. symmetry. eapply entryKey_inj; [by eapply st_index..|done].
Qed.

Lemma load_step T P key value : stored T -> db T !! key = Some value ->
  load_record (nodeID T) (overlay P T) key value = Ok (overlay ({[key]} ∪ P) T).
Proof.
  intros Hst Hkv. pose proof (st_records T Hst key value Hkv) as Hrec.
  destruct (HasPrefix key kSnapshotPre) eqn:Hsn.
  { rewrite (load_beyond_fields T _ kSnapshotPre), Hsn by done.
    assert (HasPrefix key kEntryPre = false) as Hne by (by apply (HasPrefix_clash kSnapshotPre)).
    rewrite (overlay_beyond_fields T P kSnapshotPre) by done.
    destruct Hrec; try done; [by match goal with H : unwrapDisk _ _ = Some _ |- _ => rewrite H end|].
    assert (HasPrefix key kState = false) as Hl by (by apply (HasPrefix_clash kSnapshotPre)). by rewrite logical_prefix in Hl. }
  destruct (HasPrefix key kEntryPre) eqn:Hen.
  { rewrite (load_beyond_fields T _ kEntryPre), Hsn, Hen by done. clear Hkv.
    destruct Hrec as [| | | | | | | | |key value part H|i e He H1 H2 H3 H4 H5|key value payload H Hu]; try done.
    - by rewrite H in Hsn.
    - rewrite unwrapDisk_wrapDisk by done. rewrite entry_round by done. rewrite (overlay_entry T P i e) by done.
      assert (len (entryKey i) = len kEntryPre + 8) as -> by (unfold entryKey; rewrite len_app, len_be; lia).
      rewrite Z.eqb_refl. cbn [negb]. unfold entryKey at 1 2 3. rewrite drop_app_length.
      pose proof (st_index T Hst i e He) as Hu. unfold is_u64, max_uint64 in Hu. rewrite un_be_be_small by (cbn; lia).
      rewrite H1, Z.eqb_refl, !(proj2 (Z.eqb_neq _ 0)) by lia. done.
    - assert (HasPrefix key kState = false) as Hl by (by apply (HasPrefix_clash kEntryPre)). by rewrite logical_prefix in Hl. }
  destruct (HasPrefix key kState) eqn:Hs; [|by apply load_fixed].
  rewrite (load_beyond_fields T _ kState), Hsn, Hen by done. rewrite (overlay_beyond_fields T P kState) by done.
  destruct Hrec as [| | | | | | | | |key value part H|i e He H1 H2 H3 H4 H5|key value payload H Hu]; try done.
  - by rewrite H in Hsn.
  - by rewrite H, Hu.
Qed.

Lemma load_all T items : forall P, stored T -> (forall key value, (key, value) ∈ items -> db T !! key = Some value) ->
  load_records (nodeID T) (overlay P T) items = Ok (overlay (list_to_set (map fst items) ∪ P) T).
Proof.
  induction items as [|[key value] items IH]; intros P Hst Hin.
  { cbn [load_records map list_to_set]. by rewrite union_empty_l_L. }
  cbn [load_records map list_to_set fst]. rewrite load_step; [|done|apply Hin; left]. cbn [mbind result_bind].
  rewrite IH; [|done|intros k v H; apply Hin; by right]. do 2 f_equal. set_solver.
Qed.

(** ** A restart *)

(** The store a restart produces from the records of [T]: its fields, with
    nothing failed, and the bootstrap known to be incomplete when raft has
    written nothing yet. *)
Definition reopened (T : diskStore) : diskStore :=
  mkDisk (db T) (options T) (faults T) (disk_entries T) (hardState T) (confState T) (confStateIndex T) (snapshot T)
    (applied_index T) None (nodeID T) true (bootstrapPeers T)
    (bool_decide (disk_entries T = ∅) && (hs_Term (hardState T) =? 0)) (catalogData T) (readNonce T).

(** What recovery checks of the fields together. *)
Record coherent (T : diskStore) (l : raft_log) : Prop := {
  co_log : represents T l;
  co_data : is_Some (snapshotDataLocked T);
  co_conf : validateConfState (Some (confState T)) = None;
  co_commit : sn_Index (snapshot T) <= hs_Commit (hardState T) \/ hs_Commit (hardState T) = 0;
  co_applied : applied_index T <= hs_Commit (hardState T)
}.

Lemma seen_all {A : Type} T key (x y : A) : (db T !! key = None -> x = y) -> seen (dom (db T)) key x y = x.
Proof.
  unfold seen. case_bool_decide as H; [done|]. intros Hd. symmetry. apply Hd. by apply not_elem_of_dom.
Qed.

Lemma overlay_all T : stored T -> overlay (dom (db T)) T =
  mkDisk (db T) (options T) (faults T) (disk_entries T) (hardState T) (confState T) (confStateIndex T) (snapshot T)
    (applied_index T) None (nodeID T) true (bootstrapPeers T) false (catalogData T) (readNonce T).
Proof.
  intros Hst. unfold overlay. destruct (st_node T Hst) as [[v Hv] _]. destruct (st_bootstrap T Hst) as [w Hw].
  rewrite (seen_all T kHardState), (seen_all T kConfState), (seen_all T kConfIndex), (seen_all T kSnapshot), (seen_all T kApplied),
    (seen_all T kNodeID), (seen_all T kBootstrap), (seen_all T kCatalog), (seen_all T kReadNonce)
    by (destruct Hst; first [done|congruence]).
  f_equal. apply map_filter_id. intros i e He. apply elem_of_dom. by eapply st_entries.
Qed.

Lemma scan_set T : list_to_set (map fst (scan T)) ∪ ∅ = dom (db T).
Proof.
  rewrite union_empty_r_L. apply set_eq. intros k. rewrite elem_of_list_to_set, elem_of_dom, list_elem_of_fmap. unfold scan.
  split.
  - intros ([k' v] & -> & H). apply elem_of_sorted_members in H. by exists v.
  - intros [v H]. exists (k, v). split; [done|]. by apply elem_of_sorted_members.
Qed.

(** The indexes after the snapshot are those of the log. *)
Lemma sorted_seqZ m n : Sorted Z.le (seqZ m n).
Proof.
  apply StronglySorted_Sorted. destruct (Z_le_gt_dec n 0); [rewrite seqZ_nil by done; constructor|].
  revert m. apply (Zlt_0_ind (fun n => forall m, StronglySorted Z.le (seqZ m n))); [|lia].
  intros k IH Hk m. destruct (decide (k = 0)) as [->|]; [rewrite seqZ_nil by done; constructor|].
  rewrite seqZ_cons by lia. constructor; [apply IH; lia|]. apply Forall_forall. intros x Hx%elem_of_seqZ. lia.
Qed.

Lemma sorted_indices_log T l : represents T l -> sorted_indices T = seqZ (log_first l) (len (log_tail l)).
Proof.
  intros [Hi Ht [Hr1 Hr2] He Hp]. unfold sorted_indices. apply (Sorted_unique Z.le).
  - apply Sorted_merge_sort, _.
  - apply sorted_seqZ.
  - rewrite merge_sort_Permutation. apply NoDup_Permutation.
    + apply NoDup_filter, NoDup_fst_map_to_list.
    + apply NoDup_seqZ.
    + intros i. rewrite list_elem_of_filter, elem_of_seqZ, Hi. rewrite list_elem_of_fmap. split.
      * intros [Hlt ([i' e] & -> & Hin)]. cbn [fst] in *. apply elem_of_map_to_list in Hin. rewrite He in Hin by done.
        apply log_at_some in Hin. unfold log_last, log_first in *. lia.
      * intros Hin. unfold log_first in Hin. split; [lia|].
        destruct (log_at_inside l i) as [e Hat]; [unfold log_last; lia|]. exists (i, e). split; [done|].
        apply elem_of_map_to_list. rewrite He by lia. done.
Qed.

Lemma no_gap_seqZ n : forall m, 0 <= m -> m + Z.of_nat n < 2 ^ 64 -> no_gap m (seqZ m (Z.of_nat n)) = true.
Proof.
  induction n as [|n IH]; intros m H0 Hm; [done|]. rewrite seqZ_cons by lia. cbn [no_gap]. rewrite Z.eqb_refl. cbn [andb].
  unfold uint64. rewrite Z.mod_small by lia. replace (Z.pred (Z.of_nat (S n))) with (Z.of_nat n) by lia.
  rewrite <- Z.add_1_r. apply IH; lia.
Qed.

Lemma load_exact T l : stored T -> coherent T l ->
  load (new_disk (db T) (options T) (faults T) (nodeID T)) (nodeID T) = Ok (reopened T).
Proof.
  intros Hst [Hlog [data Hdata] Hconf Hcommit Happ]. unfold load.
  assert (new_disk (db T) (options T) (faults T) (nodeID T) = overlay ∅ T) as ->.
  { unfold overlay, new_disk, seen. rewrite !bool_decide_eq_false_2 by apply not_elem_of_empty. f_equal. symmetry.
    apply map_empty. intros i. apply eq_None_not_Some. intros [e [_ H]%map_lookup_filter_Some]. by apply not_elem_of_empty in H. }
  assert (scan (overlay ∅ T) = scan T) as -> by done. rewrite load_all; [|done|].
  2: { intros k v H. by apply elem_of_sorted_members. }
  rewrite scan_set, overlay_all by done. cbn [mbind result_bind].
  set (d := mkDisk _ _ _ _ _ _ _ _ _ _ _ _ _ _ _ _).
  assert (snapshotDataLocked d = snapshotDataLocked T) as Hsd by done.
  assert (represents d l) as Hd by (destruct Hlog; by split).
  assert (0 < len (bootstrapPeers T)) as Hpeers.
  { destruct (st_bootstrap T Hst) as [w Hw]. apply (st_records T Hst) in Hw. inversion Hw; subst; try done.
    destruct (bootstrapPeers T) as [|x ps]; [done|]. rewrite len_cons. pose proof (len_nonneg ps). lia. }
  rewrite fail_if_false by (apply bool_decide_eq_false; rewrite Hsd, Hdata; done).
  rewrite fail_if_false by (apply bool_decide_eq_false; change (confState d) with (confState T); rewrite Hconf; apply is_Some_None).
  rewrite fail_if_false by done.
  rewrite fail_if_false by (cbn; apply Z.eqb_neq; lia). cbv zeta.
  set (d' := if hadNodeID d && _ && _ then _ else d).
  assert (d' = reopened T) as ->.
  { unfold d', reopened, set_identity. cbn. destruct (bool_decide _), (hs_Term _ =? 0); done. }
  rewrite fail_if_false by (cbn; apply andb_false_iff; rewrite negb_false_iff, Z.ltb_ge, Z.eqb_eq; lia).
  rewrite fail_if_false by (cbn; apply Z.ltb_ge; lia).
  rewrite fail_if_false; [done|]. apply negb_false_iff. rewrite (sorted_indices_log _ l) by (destruct Hlog; by split).
  destruct Hlog as [Hi Ht [Hr1 Hr2] He Hp]. cbn [snapshot reopened]. rewrite Hi.
  assert ((if log_index l =? 0 then 1 else uint64 (log_index l + 1)) = log_first l) as ->.
  { unfold log_first, uint64, log_last in *. pose proof (len_nonneg (log_tail l)).
    destruct (Z.eqb_spec (log_index l) 0); [lia|]. rewrite Z.mod_small; lia. }
  apply no_gap_seqZ; unfold log_first, log_last in *; fold (len (log_tail l)); lia.
Qed.
End load.
