(* ===== verification/DiskCrash.v ===== *)
(** Crashes while the raft storage adapter persists a [Ready]: whichever way
    the batch ends, reopening the store finds the fields before the [Ready] or
    after it, and after it once [persistReady] has returned. *)

From Stdlib Require Import ZArith Lia Sorting.Sorted.
From stdpp Require Import base list gmap sorting.
From S2P Require Import Prelude GoStd EngineOps Fs Manifest Range Snapshot Disk DiskLog DiskLoad.

Local Open Scope Z_scope.

(** ** The records of a batch *)

Definition put_records (m : gmap bytes bytes) (records : list (bytes * bytes)) : gmap bytes bytes :=
  fold_left (fun m '(key, value) => <[key := value]> m) records m.

Definition put_of (kv : bytes * bytes) : operation := mkOp putOp (fst kv) (snd kv).

Lemma Batch_Put_ops b key value b' u : Batch_Put b key value = (b', Ok u) -> ops b' = ops b ++ [mkOp putOp key value].
Proof.
  unfold Batch_Put. repeat case_match; try done. intros [= <- _]. done.
Qed.

Lemma put_all_ops records : forall b b', put_all b records = Ok b' -> ops b' = ops b ++ map put_of records.
Proof.
  induction records as [|[key value] records IH]; intros b b' H; cbn [put_all] in H.
  - injection H as <-. by rewrite app_nil_r.
  - destruct (Batch_Put b key value) as [b1 [u|e]] eqn:Hp; [|done]. apply IH in H. apply Batch_Put_ops in Hp.
    rewrite H, Hp, <- app_assoc. done.
Qed.

Lemma apply_puts records : forall m, apply_operations m (map put_of records) = put_records m records.
Proof.
  unfold apply_operations, put_records. induction records as [|[key value] records IH]; intros m; [done|]. cbn [map fold_left]. by rewrite IH.
Qed.

Lemma new_batch_db opts records b m : put_all (Engine_NewBatch opts) records = Ok b -> apply_operations m (ops b) = put_records m records.
Proof. intros H%put_all_ops. rewrite H. apply apply_puts. Qed.

(** The records of chunks do not change when other keys are written. *)
Lemma filter_sorted_members (p : bytes) (m : gmap bytes bytes) :
  filter (fun kv => HasPrefix (fst kv) p = true) (sorted_members m) = sorted_members (filter (fun kv => HasPrefix (fst kv) p = true) m).
Proof.
  apply (increasing_perm_unique fst).
  - rewrite !sorted_members_perm. apply NoDup_Permutation; [apply NoDup_filter, NoDup_map_to_list|apply NoDup_map_to_list|].
    intros [k v]. rewrite list_elem_of_filter, !elem_of_map_to_list, map_lookup_filter_Some. naive_solver.
  - apply increasing_strongly. apply StronglySorted_filter. apply increasing_strongly. apply sorted_members_increasing.
  - apply sorted_members_increasing.
Qed.

Lemma collect_parts_filter prefix items : forall parts,
  collect_parts prefix items parts = collect_parts prefix (filter (fun kv => HasPrefix (fst kv) prefix = true) items) parts.
Proof.
  induction items as [|[key value] items IH]; intros parts; [done|]. rewrite filter_cons. cbn [fst].
  destruct (HasPrefix key prefix) eqn:Hp.
  - rewrite decide_True by done. cbn [collect_parts]. rewrite Hp. cbn [negb]. repeat case_match; done.
  - rewrite decide_False by done. cbn [collect_parts]. rewrite Hp. cbn [negb]. apply IH.
Qed.

Lemma snapshot_data_ext d d' : snapshot d' = snapshot d ->
  filter (fun kv => HasPrefix (fst kv) (snapshot_prefix (sn_Index (snapshot d))) = true) (db d')
  = filter (fun kv => HasPrefix (fst kv) (snapshot_prefix (sn_Index (snapshot d))) = true) (db d) ->
  snapshotDataLocked d' = snapshotDataLocked d.
Proof.
  intros Hs Hf. unfold snapshotDataLocked. rewrite Hs. case_match; [done|].
  rewrite (collect_parts_filter _ (scan d')), (collect_parts_filter _ (scan d)). unfold scan. by rewrite !filter_sorted_members, Hf.
Qed.

(** A decidable fact about closed keys. *)
Ltac field_key := match goal with |- ?P => apply (bool_decide_eq_true_1 P); vm_compute; reflexivity end.

Section crash.
Context {pb : Protobuf} {laws : ProtobufLaws}.

(** ** One record and its field *)

Definition put_entry (T : diskStore) (e : pbEntry) : diskStore :=
  set_raft (set_db T (<[entryKey (pe_Index e) := wrapDisk x05 (marshal_entry e)]> (db T)) (faults T) (failed T))
    (<[pe_Index e := e]> (disk_entries T)) (hardState T) (snapshot T).
Definition put_hard (T : diskStore) (h : HardState) : diskStore :=
  set_raft (set_db T (<[kHardState := wrapDisk x01 (marshal_hard h)]> (db T)) (faults T) (failed T))
    (disk_entries T) h (snapshot T).

(** What [persistReady] and raft make sure of the entries and the hard state. *)
Definition entry_ok (e : pbEntry) : Prop := entry_wire e /\ 0 < pe_Index e /\ pe_Term e <> 0 /\ fits (marshal_entry e).
Definition hard_ok (h : HardState) : Prop := hard_wire h /\ fits (marshal_hard h).

Lemma field_key_entry k i : k ∈ field_keys -> entryKey i <> k.
Proof. intros Hk. apply not_eq_sym, (apart_ne kEntryPre); [done|apply entry_prefix|done]. Qed.

(** A record stays what the fields say when its own field does not change. *)
Lemma recorded_keep T d key value : recorded T key value ->
  (nodeID d, bootstrapPeers d, catalogData d, readNonce d, snapshot d)
  = (nodeID T, bootstrapPeers T, catalogData T, readNonce T, snapshot T) ->
  (key = kApplied -> applied_index d = applied_index T) -> (key = kConfState -> confState d = confState T) ->
  (key = kConfIndex -> confStateIndex d = confStateIndex T) -> (key = kHardState -> hardState d = hardState T) ->
  (forall i, key = entryKey i -> disk_entries d !! i = disk_entries T !! i) -> recorded d key value.
Proof.
  intros Hrec [= E1 E2 E3 E4 E8] E5 E6 E7 Hhard Hent.
  destruct Hrec as [| |c Hu Hm Hf| | | | | | |key value part Hp Hu|i e He|key value payload Hp Hu].
  - rewrite <- E1 in *. by apply rec_node.
  - rewrite <- E2 in *. by apply rec_bootstrap.
  - rewrite <- E3 in *. by eapply rec_catalog.
  - rewrite <- E4 in *. by apply rec_nonce.
  - specialize (Hhard eq_refl). rewrite <- Hhard in *. by apply rec_hard.
  - specialize (E5 eq_refl). rewrite <- E5 in *. by apply rec_applied.
  - specialize (E6 eq_refl). rewrite <- E6 in *. by apply rec_conf.
  - specialize (E7 eq_refl). rewrite <- E7 in *. by apply rec_confindex.
  - rewrite <- E8 in *. by apply rec_snapshot.
  - by eapply rec_chunk.
  - rewrite <- (Hent i eq_refl) in He. by apply rec_entry.
  - by eapply rec_logical.
Qed.

Lemma stored_put_entry T e : entry_ok e -> stored T -> stored (put_entry T e).
Proof.
  intros (Hw & Hi & Ht & Hf) Hst. assert (is_u64 (pe_Index e)) as Hu by apply Hw.
  assert (forall k, k ∈ field_keys -> db (put_entry T e) !! k = db T !! k) as Hk.
  { intros k Hk. cbn. rewrite lookup_insert_ne by (by apply field_key_entry). done. }
  split; [| | |rewrite Hk by field_key; exact (st_node T Hst)|rewrite Hk by field_key; exact (st_bootstrap T Hst)|rewrite Hk by field_key; exact (st_catalog T Hst)|rewrite Hk by field_key; exact (st_nonce T Hst)|rewrite Hk by field_key; exact (st_hard T Hst)|rewrite Hk by field_key; exact (st_applied T Hst)|rewrite Hk by field_key; exact (st_conf T Hst)|rewrite Hk by field_key; exact (st_confindex T Hst)|rewrite Hk by field_key; exact (st_snapshot T Hst)].
  - intros key value. cbn [db put_entry set_raft set_db]. intros [[<- <-]|[Hne Hkv]]%lookup_insert_Some.
    + apply rec_entry; try done. cbn. apply lookup_insert_eq.
    + apply (st_records T Hst) in Hkv. apply (recorded_keep T); [done..|]. intros i Hi'. apply lookup_insert_ne. intros Heq. apply Hne. by rewrite Heq, Hi'.
  - intros i e'. cbn [disk_entries put_entry set_raft set_db]. intros [[<- _]|[_ H]]%lookup_insert_Some; [done|]. by apply (st_index T Hst i e').
  - intros i e'. cbn [db disk_entries put_entry set_raft set_db]. intros [[<- _]|[Hne H]]%lookup_insert_Some; [rewrite lookup_insert_eq; eauto|].
    rewrite lookup_insert_ne; [by apply (st_entries T Hst i e')|]. intros Heq%entryKey_inj; [done..|by apply (st_index T Hst i e')].
Qed.

Lemma stored_put_hard T h : hard_ok h -> stored T -> stored (put_hard T h).
Proof.
  intros [Hw Hf] Hst.
  assert (forall k, k <> kHardState -> db (put_hard T h) !! k = db T !! k) as Hk.
  { intros k Hk. cbn. rewrite lookup_insert_ne by done. done. }
  split; [|exact (st_index T Hst)| 
    |rewrite Hk by field_key; exact (st_node T Hst)
    |rewrite Hk by field_key; exact (st_bootstrap T Hst)
    |rewrite Hk by field_key; exact (st_catalog T Hst)
    |rewrite Hk by field_key; exact (st_nonce T Hst)| 
    |rewrite Hk by field_key; exact (st_applied T Hst)
    |rewrite Hk by field_key; exact (st_conf T Hst)
    |rewrite Hk by field_key; exact (st_confindex T Hst)
    |rewrite Hk by field_key; exact (st_snapshot T Hst)].
  - intros key value. cbn [db put_hard set_raft set_db]. intros [[<- <-]|[Hne Hkv]]%lookup_insert_Some; [by apply rec_hard|].
    apply (st_records T Hst) in Hkv. by apply (recorded_keep T).
  - intros i e H. rewrite Hk by (apply field_key_entry; field_key). by apply (st_entries T Hst i e).
  - cbn. rewrite lookup_insert_eq. done.
Qed.

(** ** A whole Ready *)

(** The store after a [Ready]: its records written and its fields published. *)
Definition after (d : diskStore) (rd : Ready) : diskStore :=
  set_db (publish_ready d rd) (put_records (db d) (ready_records rd)) (faults d) (failed d).

Definition entry_record (e : pbEntry) : bytes * bytes := (entryKey (pe_Index e), wrapDisk x05 (marshal_entry e)).

Lemma fold_put_entry es : forall d, fold_left put_entry es d =
  set_raft (set_db d (put_records (db d) (map entry_record es)) (faults d) (failed d)) (put_entries (disk_entries d) es)
    (hardState d) (snapshot d).
Proof.
  unfold put_records, put_entries. induction es as [|e es IH]; intros d; [by destruct d|]. cbn [fold_left map]. rewrite IH. done.
Qed.

Lemma after_steps d rd es : entries_ready rd es -> after d rd =
  if IsEmptyHardState (rd_HardState rd) then fold_left put_entry es d else put_hard (fold_left put_entry es d) (rd_HardState rd).
Proof.
  intros [Hes Hsn]. rewrite fold_put_entry. unfold after, publish_ready, ready_records, put_hard.
  rewrite Hes, Hsn, !omap_map_Some, app_nil_r. unfold put_records, put_entries. fold entry_record.
  change (map (fun e => (entryKey (pe_Index e), wrapDisk x05 (marshal_entry e))) es) with (map entry_record es).
  destruct (IsEmptyHardState _); rewrite ?app_nil_r, ?fold_left_app; done.
Qed.

(** What the hard state of a [Ready] is held to: commits do not go back. *)
Definition hard_follows (d : diskStore) (h : HardState) : Prop :=
  IsEmptyHardState h = true
  \/ hard_ok h /\ hs_Commit (hardState d) <= hs_Commit h /\ sn_Index (snapshot d) <= hs_Commit h.

Lemma stored_after d rd es : entries_ready rd es -> Forall entry_ok es -> hard_follows d (rd_HardState rd) -> stored d ->
  stored (after d rd).
Proof.
  intros Hrd Hes Hh Hst. rewrite (after_steps d rd es) by done.
  assert (stored (fold_left put_entry es d)) as H.
  { clear Hrd Hh. revert d Hst. induction Hes as [|e es He _ IH]; intros d Hst; [done|]. cbn [fold_left].
    by apply IH, stored_put_entry. }
  destruct Hh as [->|[Hok _]]; [done|]. case_match; [done|]. by apply stored_put_hard.
Qed.

Lemma put_records_filter p records : forall m, forallb (fun kv => negb (HasPrefix (fst kv) p)) records = true ->
  filter (fun kv => HasPrefix (fst kv) p = true) (put_records m records) = filter (fun kv => HasPrefix (fst kv) p = true) m.
Proof.
  unfold put_records. induction records as [|[k v] records IH]; intros m Hall; [done|]. cbn [forallb fold_left fst] in *.
  apply andb_true_iff in Hall as [Hk%negb_true_iff Hall]. rewrite IH by done. apply map_filter_insert_not'.
  - cbn. by rewrite Hk.
  - intros y _. cbn. by rewrite Hk.
Qed.

Lemma ready_records_apart rd es index : entries_ready rd es ->
  forallb (fun kv => negb (HasPrefix (fst kv) (snapshot_prefix index))) (ready_records rd) = true.
Proof.
  intros [Hes Hsn]. unfold ready_records. rewrite Hes, Hsn, omap_map_Some, app_nil_r, forallb_app. apply andb_true_iff. split.
  - apply forallb_forall. intros kv (e & <- & _)%in_map_iff. done.
  - by destruct (IsEmptyHardState _).
Qed.

Lemma coherent_after d l rd start es : coherent d l -> entries_ready rd es -> consecutive start es ->
  log_first l <= start <= log_last l + 1 -> start + len es < 2 ^ 64 -> hard_follows d (rd_HardState rd) ->
  coherent (after d rd) (log_overwrite l start es).
Proof.
  intros [Hlog Hdata Hconf Hcommit Happ] Hrd Hc Hs Hb Hh. pose proof Hrd as [Hes Hsn]. split.
  - apply (represents_overwrite d); try done; unfold after, publish_ready; cbn; rewrite ?Hsn; [|done].
    by rewrite Hes, omap_map_Some.
  - rewrite (snapshot_data_ext d); [done|unfold after, publish_ready; cbn; by rewrite Hsn|].
    cbn [db after set_db]. apply put_records_filter. by apply (ready_records_apart rd es).
  - done.
  - unfold after, publish_ready. cbn. rewrite Hsn. destruct Hh as [->|(_ & H1 & H2)]; [done|]. case_match; [done|]. by left.
  - unfold after, publish_ready. cbn. destruct Hh as [->|(_ & H1 & H2)]; [done|]. case_match; [done|]. lia.
Qed.

(** The records after [persistReady]: those of before, or with the batch. *)
Lemma applyBatch_db d b kind : match applyBatch d b kind with
  | (d', Ok _) => db d' = apply_operations (db d) (ops b)
  | (d', Fail _) => db d' = db d \/ db d' = apply_operations (db d) (ops b)
  end.
Proof.
  unfold applyBatch, beforeSync, engine_Apply. destruct (faults d) as [|[| |[]] fs] eqn:Hf; cbn; rewrite ?Hf; cbn; auto.
Qed.

Lemma persistReady_db d rd es : entries_ready rd es -> match persistReady d rd with
  | (d', Ok _) => db d' = put_records (db d) (ready_records rd)
  | (d', Fail _) => db d' = db d \/ db d' = put_records (db d) (ready_records rd)
  end.
Proof.
  intros [Hes Hsn]. unfold persistReady. destruct (failed d); [by left|]. destruct (_ <? _); [by left|].
  destruct (check_ready _ _) as [[]|e]; [|by left]. rewrite Hsn. destruct (put_all _ _) as [b|e] eqn:Hp; [|by left].
  apply (new_batch_db _ _ _ (db d)) in Hp. destruct (bool_decide _ && _ && _) eqn:Hnone.
  - bool_to_prop. unfold ready_records. rewrite Hsn.
    repeat match goal with E : _ = true |- _ => rewrite E; clear E | E : bool_decide _ = true |- _ => apply bool_decide_eq_true in E end.
    by match goal with E : rd_Entries rd = [] |- _ => rewrite E end.
  - pose proof (applyBatch_db d b "raft-ready") as Ha. destruct (applyBatch d b _) as [d' [[]|e]]; [|by rewrite <- Hp].
    by rewrite <- Hp.
Qed.

(** Opening the records of [m]: [fs] scripts the faults of the new store. *)
Definition restarted (T : diskStore) (fs : list outcome) : diskStore := reopened (set_db T (db T) fs (failed T)).

Lemma openDisk_exact T l names fs : stored T -> coherent T l -> existsb pebble_name names = false ->
  normalized diskOptions = Ok (options T) -> openDisk names (db T) fs (nodeID T) = Ok (restarted T fs).
Proof.
  intros Hst Hco Hn Ho. unfold openDisk, rejectPebbleDirectory. rewrite fail_if_false by done. rewrite Ho.
  cbn [map_err mbind result_bind]. set (T' := set_db T (db T) fs (failed T)).
  assert (stored T') as Hst'.
  { destruct Hst as [H1 H2 H3 H4 H5 H6 H7 H8 H9 H10 H11 H12]. split; try done.
    intros k v Hk. apply (recorded_keep T); [by apply H1|done..]. }
  assert (coherent T' l) as Hco' by (destruct Hco as [[]]; by split).
  exact (load_exact T' l Hst' Hco').
Qed.
End crash.

(** A restart is exact.  When the records mirror the fields of the store
    and the fields pass the checks of recovery, opening the same records
    yields a store with the same log, hard state, membership, snapshot,
    applied index, identity, peers, catalog and nonce, and nothing failed. *)
Theorem reopen_is_exact `{ProtobufLaws} T l names fs : stored T -> coherent T l -> existsb pebble_name names = false ->
  normalized diskOptions = Ok (options T) ->
  exists d, openDisk names (db T) fs (nodeID T) = Ok d /\ represents d l /\ raft_fields d = raft_fields T
    /\ confState d = confState T /\ confStateIndex d = confStateIndex T /\ applied_index d = applied_index T
    /\ bootstrapPeers d = bootstrapPeers T /\ catalogData d = catalogData T /\ readNonce d = readNonce T
    /\ db d = db T /\ hadNodeID d = true /\ failed d = None.
Proof.
  intros Hst Hco Hn Ho. exists (restarted T fs). split; [by apply (openDisk_exact T l)|].
  split; [destruct Hco as [[]]; by split|done].
Qed.


(** A directory in which the engine has published a manifest is refused.
    The names of the manifest and of [CURRENT], which the engine writes with
    its first flush and keeps from then on, are among those the adapter takes
    for another engine's: such a store cannot be opened again. *)
Theorem flushed_store_is_refused `{Protobuf} names m fs expectedNodeID gen :
  lit "CURRENT" ∈ names \/ manifestName gen ∈ names ->
  openDisk names m fs expectedNodeID = Fail (ErrDisk "obsolete Pebble directory rejected").
Proof.
  intros Hin. unfold openDisk, rejectPebbleDirectory. rewrite (proj2 (existsb_exists pebble_name names)); [done|].
  destruct Hin as [Hin|Hin]; [exists (lit "CURRENT")|exists (manifestName gen)]; (split; [by apply list_elem_of_In|]); [done|].
  unfold pebble_name, manifestName. rewrite HasPrefix_app. by rewrite orb_true_r.
Qed.

(** ** An instance *)

(** A store that knows its identity and its only peer. *)
Definition booted : diskStore :=
  set_identity (set_db empty_store (<[kBootstrap := wrapDisk x07 (be 8 1)]> (<[kNodeID := wrapDisk x06 (be 8 1)]> ∅)) [] None) 1 true [1] false.

Lemma booted_persisted : fst (@persistIdentityAndBootstrap empty_store [(1, [])]) = booted.
Proof. vm_compute. reflexivity. Qed.

Lemma booted_stored : @stored numbered booted.
Proof.
  split; try done.
  - intros key value. cbn [db booted set_identity set_db].
    intros [[<- <-]|[_ [[<- <-]|[_ Hkv]]%lookup_insert_Some]]%lookup_insert_Some.
    + by apply (@rec_bootstrap numbered booted).
    + by apply (@rec_node numbered booted).
    + by rewrite lookup_empty in Hkv.
Qed.

Lemma booted_coherent : coherent booted (mkLog 0 0 []).
Proof. split; [destruct empty_store_log; by split|by eexists|done|by right|done]. Qed.

Lemma reopen_is_exact_witness : exists d, @openDisk numbered [] (db booted) [] 1 = Ok d /\ bootstrapPeers d = [1].
Proof.
  destruct (@reopen_is_exact numbered numbered_laws booted (mkLog 0 0 []) [] [] booted_stored booted_coherent eq_refl
    ltac:(vm_compute; reflexivity)) as (d & H1 & _ & _ & _ & _ & _ & H2 & _).
  exists d. split; [exact H1|exact H2].
Defined.

(** The sync hook passes, the engine fails, and the batch turns out durable. *)
Definition failing : diskStore := set_db booted (db booted) [ApplyFailed true] None.

Lemma failing_stored : @stored numbered failing.
Proof. destruct booted_stored as [H1 H2 H3 H4 H5 H6 H7 H8 H9 H10 H11 H12]. split; try done. intros k v Hk. by apply (recorded_keep booted); [apply H1|..]. Qed.

Lemma first_entries_ok : Forall (@entry_ok numbered) first_entries.
Proof. repeat apply Forall_cons_2; [..|by apply Forall_nil]; (split; [by vm_compute|split; [done|split; [done|by vm_compute]]]). Qed.


Lemma flushed_store_is_refused_witness :
  @openDisk numbered [manifestName 1; lit "CURRENT"; lit "sst"; lit "wal"] (db booted) [] 1
  = Fail (ErrDisk "obsolete Pebble directory rejected").
Proof. apply (@flushed_store_is_refused numbered _ _ _ _ 1). left. right. left. Defined.
