(* ===== verification/Durable.v ===== *)
(** The durable form of the replicated row state (src/internal/raftstore/state.go):
    the engine keys of rows, history, results and operation identities, the
    recovery of the state from the records, the application of committed
    entries as one engine batch, and the installation of a snapshot under a
    new generation of keys.

    Go ranges over maps in an unspecified order; the loops here use one order.
    It decides only which error is returned first and in which order the
    records of one batch are put. *)

From Stdlib Require Import ZArith Lia Sorting.Sorted.
From stdpp Require Import base list gmap sorting.
From S2P Require Import Prelude GoStd Codec Uuidv7 Coordinates EngineOps Fs Range Command State Snapshot Disk.

Local Open Scope Z_scope.

Inductive durable_error : Type :=
| ErrDurableCorrupt (what : String.string)
| ErrDurable (what : String.string)
| ErrDurableState (e : state_error)
| ErrDurableCodec (e : codec_error)
| ErrDurableDisk (e : disk_error)
| ErrDurableEngine (e : engine_error).

(** ** Keys *)

Definition stateKey (table key : bytes) : result durable_error bytes :=
  t ← map_err ErrDurableCodec (Codec.String table);
  k ← map_err ErrDurableCodec (Codec.String key);
  tuple ← map_err ErrDurableCodec (EncodeTuple [t; k]);
  Ok (kRowPre ++ tuple).

Definition historyKey3 (table key : bytes) (sequence : Z) : result durable_error bytes :=
  keyBytes ← stateKey table key;
  Ok (kHistPre ++ drop (length kRowPre) keyBytes ++ be 8 sequence).

Definition dedupeKey (id : UUID) : bytes := kDedupePre ++ id ++ [x00].
Definition resultKey (id : UUID) : bytes := kResultPre ++ id.

(** [strings.TrimPrefix] *)
Definition trim_prefix (s p : bytes) : bytes := if HasPrefix s p then drop (length p) s else s.

Definition statePrefix (generation : Z) (prefix : bytes) : bytes :=
  if generation =? 0 then prefix
  else lit "m3/state/g/" ++ decimal 20 generation ++ lit "/" ++ trim_prefix prefix (lit "m3/state/").

Definition stateKeyAt (generation : Z) (table key : bytes) : result durable_error bytes :=
  base ← stateKey table key;
  if generation =? 0 then Ok base else Ok (statePrefix generation kRowPre ++ drop (length kRowPre) base).

Definition historyKeyAt (generation : Z) (table key : bytes) (sequence : Z) : result durable_error bytes :=
  base ← historyKey3 table key sequence;
  if generation =? 0 then Ok base else Ok (statePrefix generation kHistPre ++ drop (length kHistPre) base).

Definition dedupeKeyAt (generation : Z) (id : UUID) : bytes :=
  if generation =? 0 then dedupeKey id else statePrefix generation kDedupePre ++ id ++ [x00].

Definition resultKeyAt (generation : Z) (id : UUID) : bytes :=
  if generation =? 0 then resultKey id else statePrefix generation kResultPre ++ id.

Definition decodeStateCoordinates (encoded : bytes) : result durable_error (bytes * bytes) :=
  match DecodeTuple encoded with
  | Ok [a; b] =>
      fail_if (negb (bool_decide (Component_Kind a = StringKind)) || negb (bool_decide (Component_Kind b = StringKind)))
        (ErrDurable "state coordinates are not strings");;
      table ← map_err ErrDurableCodec (Component_Text a);
      key ← map_err ErrDurableCodec (Component_Text b);
      fail_if (negb (validTable table) || negb (validKey key)) (ErrDurable "state coordinates bounds");;
      Ok (table, key)
  | _ => Fail (ErrDurable "invalid state tuple")
  end.

Section durable.
Context {canon : Canonicalizer} {pb : Protobuf}.

(** ** Recovery *)

(** What one record contributes. *)
Inductive effect : Type :=
| ERow (id : bytes) (row : Row)
| EHistory (id : bytes) (row : Row)
| EResult (id : UUID) (r : Result)
| EDedupe (id : UUID)
| EMeta (n : Z)
| ENone.

#[export] Instance effect_eq_dec : EqDecision effect.
Proof. solve_decision. Defined.

Definition corrupted {E A} (what : String.string) (m : result E A) : result durable_error A :=
  map_err (fun _ => ErrDurableCorrupt what) m.
Definition unwrap_state (what : String.string) (value : bytes) : result durable_error bytes :=
  match unwrapDisk value x0a with Some payload => Ok payload | None => Fail (ErrDurableCorrupt what) end.

(** The switch of [load] on one record. *)
Definition load_effect (gen : Z) (key value : bytes) : result durable_error effect :=
  if HasPrefix key (statePrefix gen kRowPre) then
    let keyOffset := length (statePrefix gen kRowPre) in
    '(table, rowKey) ← corrupted "row key" (decodeStateCoordinates (drop keyOffset key));
    payload ← unwrap_state "row" value;
    row ← corrupted "row" (decodeStateRow payload table rowKey);
    Ok (ERow (rowID table rowKey) row)
  else if HasPrefix key (statePrefix gen kHistPre) then
    let keyOffset := len (statePrefix gen kHistPre) in
    fail_if (len key <? keyOffset + 8) (ErrDurableCorrupt "history key");;
    '(table, rowKey) ← corrupted "history key" (decodeStateCoordinates (sub key keyOffset (len key - 8)));
    payload ← unwrap_state "history" value;
    row ← corrupted "history" (decodeStateRow payload table rowKey);
    let keySequence := un_be (sub key (len key - 8) (len key)) in
    fail_if ((keySequence =? 0) || negb (keySequence =? row_Sequence row)) (ErrDurableCorrupt "history sequence mismatch");;
    Ok (EHistory (rowID table rowKey) row)
  else if HasPrefix key (statePrefix gen kResultPre) then
    let keyOffset := len (statePrefix gen kResultPre) in
    fail_if (negb (len key =? keyOffset + 16)) (ErrDurableCorrupt "result key");;
    payload ← unwrap_state "result" value;
    r ← corrupted "result" (decodeResult payload);
    Ok (EResult (drop (Z.to_nat keyOffset) key) r)
  else if HasPrefix key (statePrefix gen kDedupePre) then
    let keyOffset := len (statePrefix gen kDedupePre) in
    fail_if (negb (len key =? keyOffset + 17) || negb (beq (sub key (len key - 1) (len key)) [x00]))
      (ErrDurableCorrupt "dedupe key");;
    payload ← unwrap_state "dedupe payload" value;
    fail_if (negb (beq payload [x01])) (ErrDurableCorrupt "dedupe payload");;
    Ok (EDedupe (sub key keyOffset (keyOffset + 16)))
  else if beq key kStateMeta then
    payload ← unwrap_state "state metadata" value;
    fail_if (negb (len payload =? 8)) (ErrDurableCorrupt "state metadata");;
    Ok (EMeta (un_be payload))
  else
    fail_if (negb (isKnownRaftKey key) && negb (isAnyLogicalKey key)) (ErrDurableCorrupt "unknown state keyspace");;
    Ok ENone.

(** The state being loaded, with the operation IDs of the result and dedupe
    records. *)
Record loading : Type := mkLoading {
  l_rows : gmap bytes Row;
  l_history : gmap bytes (list Row);
  l_results : gmap UUID Result;
  l_applied : Z;
  dedupeIDs : gset UUID;
  resultIDs : gset UUID
}.

Definition no_loading : loading := mkLoading ∅ ∅ ∅ 0 ∅ ∅.

Definition add_effect (l : loading) (e : effect) : loading :=
  match e with
  | ERow id row => mkLoading (<[id := row]> (l_rows l)) (l_history l) (l_results l) (l_applied l) (dedupeIDs l) (resultIDs l)
  | EHistory id row => mkLoading (l_rows l) (<[id := default [] (l_history l !! id) ++ [row]]> (l_history l)) (l_results l)
                         (l_applied l) (dedupeIDs l) (resultIDs l)
  | EResult id r => mkLoading (l_rows l) (l_history l) (<[id := r]> (l_results l)) (l_applied l) (dedupeIDs l) ({[id]} ∪ resultIDs l)
  | EDedupe id => mkLoading (l_rows l) (l_history l) (l_results l) (l_applied l) ({[id]} ∪ dedupeIDs l) (resultIDs l)
  | EMeta n => mkLoading (l_rows l) (l_history l) (l_results l) n (dedupeIDs l) (resultIDs l)
  | ENone => l
  end.

Fixpoint load_effects (gen : Z) (l : loading) (items : list (bytes * bytes)) : result durable_error loading :=
  match items with
  | [] => Ok l
  | (key, value) :: items' => e ← load_effect gen key value; load_effects gen (add_effect l e) items'
  end.

(** The first loop: the generation record. *)
Fixpoint load_generation (gen : Z) (items : list (bytes * bytes)) : result durable_error Z :=
  match items with
  | [] => Ok gen
  | (key, value) :: items' =>
      if beq key kStateGeneration then
        payload ← unwrap_state "state generation" value;
        fail_if (negb (len payload =? 8)) (ErrDurableCorrupt "state generation");;
        load_generation (un_be payload) items'
      else load_generation gen items'
  end.

(** [sort.Slice] of a history by sequence. *)
Definition seq_le (a b : Row) : Prop := row_Sequence a <= row_Sequence b.
#[export] Instance seq_le_dec : RelDecision seq_le.
Proof. intros a b. unfold seq_le. apply _. Defined.
Definition sort_history (l : list Row) : list Row := merge_sort seq_le l.

Fixpoint adjacent_duplicate (l : list Row) : bool :=
  match l with
  | a :: (b :: _) as l' => (row_Sequence a =? row_Sequence b) || adjacent_duplicate l'
  | _ => false
  end.

(** Sequences and versions are unique across the histories. *)
Fixpoint check_unique (seqs : gset Z) (vs : gset UUID) (l : list Row) : result durable_error (gset Z * gset UUID) :=
  match l with
  | [] => Ok (seqs, vs)
  | r :: l' =>
      fail_if (bool_decide (row_Sequence r ∈ seqs)) (ErrDurableCorrupt "duplicate history sequence");;
      fail_if (bool_decide (row_Version r ∈ vs)) (ErrDurableCorrupt "duplicate row version");;
      check_unique ({[row_Sequence r]} ∪ seqs) ({[row_Version r]} ∪ vs) l'
  end.

Fixpoint check_histories (last_applied : Z) (seqs : gset Z) (vs : gset UUID) (l : list (bytes * list Row))
    : result durable_error (gset UUID) :=
  match l with
  | [] => Ok vs
  | (_, h) :: l' =>
      match last h with
      | None => Fail (ErrDurableCorrupt "history bounds")
      | Some latest =>
          fail_if (last_applied <? row_Sequence latest) (ErrDurableCorrupt "history bounds");;
          fail_if (adjacent_duplicate h) (ErrDurableCorrupt "duplicate history sequence");;
          '(seqs, vs) ← check_unique seqs vs h;
          check_histories last_applied seqs vs l'
      end
  end.

Definition check_row (last_applied : Z) (history : gmap bytes (list Row)) (kr : bytes * Row) : result durable_error unit :=
  let row := snd kr in
  fail_if ((row_Sequence row =? 0) || (last_applied <? row_Sequence row)) (ErrDurableCorrupt "row bounds");;
  match last (default [] (history !! fst kr)) with
  | None => Fail (ErrDurableCorrupt "row has no history")
  | Some latest =>
      fail_if (negb (row_Sequence latest =? row_Sequence row) || negb (beq (row_Version latest) (row_Version row))
               || negb (beq (row_Value latest) (row_Value row))) (ErrDurableCorrupt "head/history mismatch")
  end.

Definition same_version (row v : Row) : bool :=
  (row_Sequence v =? row_Sequence row) && beq (row_Version v) (row_Version row) && beq (row_Value v) (row_Value row).

Definition check_stored_result (last_applied : Z) (history : gmap bytes (list Row)) (kr : UUID * Result) : result durable_error unit :=
  let '(id, r) := kr in
  let row := res_Row r in
  fail_if (negb (beq (OperationID (res_Command r)) id)) (ErrDurableCorrupt "result operation id mismatch");;
  if Succeeded r then
    fail_if ((row_Sequence row =? 0) || (last_applied <? row_Sequence row) || negb (beq (row_Table row) (Table (res_Command r)))
             || negb (beq (row_Key row) (Key (res_Command r)))) (ErrDurableCorrupt "result bounds");;
    let versions := default [] (history !! rowID (row_Table row) (row_Key row)) in
    fail_if (negb (existsb (same_version row) versions)) (ErrDurableCorrupt "result row is absent from history");;
    fail_if (Bool.eqb (res_Created r) (existsb (fun v => row_Sequence v <? row_Sequence row) versions))
      (ErrDurableCorrupt "result created flag disagrees with history")
  else if PreconditionFailed r || VersionConflict r then
    fail_if (res_Created r || negb (row_Sequence row =? 0) || negb (bool_decide (row_Table row = []))
             || negb (bool_decide (row_Key row = [])) || negb (len (row_Value row) =? 0)) (ErrDurableCorrupt "precondition result row")
  else Fail (ErrDurableCorrupt "result status").

(** [load] into a new state. *)
Definition load_state (d : diskStore) : result durable_error logicalState :=
  let items := scan d in
  gen ← load_generation 0 items;
  l ← load_effects gen no_loading items;
  let history := sort_history <$> l_history l in
  historyVersions ← check_histories (l_applied l) ∅ ∅ (map_to_list history);
  for_all (check_row (l_applied l) history) (map_to_list (l_rows l));;
  for_all (fun kv => fail_if (bool_decide (l_rows l !! fst kv = None)) (ErrDurableCorrupt "history has no head")) (map_to_list history);;
  for_all (check_stored_result (l_applied l) history) (map_to_list (l_results l));;
  versions ← map_err ErrDurableState (collectVersions historyVersions (map snd (map_to_list (l_results l))));
  for_all (fun id => fail_if (bool_decide (l_results l !! id = None)) (ErrDurableCorrupt "dedupe result missing")) (elements (dedupeIDs l));;
  for_all (fun id => fail_if (negb (bool_decide (id ∈ dedupeIDs l))) (ErrDurableCorrupt "result dedupe missing")) (elements (resultIDs l));;
  fail_if (negb (l_applied l =? applied_index d)) (ErrDurableCorrupt "applied index mismatch");;
  Ok (mkState (l_rows l) history (l_results l) versions (l_applied l) gen).

(** ** Application *)

Definition put (b : Batch) (key value : bytes) : result durable_error Batch :=
  match Batch_Put b key value with
  | (b, Ok _) => Ok b
  | (_, Fail e) => Fail (ErrDurableEngine e)
  end.

Definition put_row_record (gen : Z) (b : Batch) (row : Row) : result durable_error Batch :=
  keyBytes ← stateKeyAt gen (row_Table row) (row_Key row);
  encodedRow ← map_err ErrDurableState (encodeStateRow row);
  put b keyBytes (wrapDisk x0a encodedRow).

Definition put_version_record (gen : Z) (b : Batch) (row : Row) : result durable_error Batch :=
  keyBytes ← historyKeyAt gen (row_Table row) (row_Key row) (row_Sequence row);
  encodedRow ← map_err ErrDurableState (encodeStateRow row);
  put b keyBytes (wrapDisk x0a encodedRow).

Definition put_result_records (gen : Z) (b : Batch) (kr : UUID * Result) : result durable_error Batch :=
  encodedResult ← map_err ErrDurableState (encodeResult (snd kr));
  b ← put b (resultKeyAt gen (fst kr)) (wrapDisk x0a encodedResult);
  put b (dedupeKeyAt gen (fst kr)) (wrapDisk x0a [x01]).

Fixpoint put_each {A} (f : Batch -> A -> result durable_error Batch) (b : Batch) (l : list A) : result durable_error Batch :=
  match l with
  | [] => Ok b
  | x :: l' => b ← f b x; put_each f b l'
  end.

(** What an application changes: rows that are new or differ, results that are
    new, and the versions appended to each history. *)
Definition changed_rows (s next : logicalState) : list Row :=
  map snd (List.filter (fun kr => match rows s !! fst kr with
                                  | None => true
                                  | Some old => negb (row_Sequence old =? row_Sequence (snd kr)) || negb (beq (row_Value old) (row_Value (snd kr)))
                                  end) (map_to_list (rows next))).
Definition new_results (s next : logicalState) : list (UUID * Result) :=
  List.filter (fun kr => bool_decide (results s !! fst kr = None)) (map_to_list (results next)).
Definition new_versions (s next : logicalState) : list Row :=
  concat (map (fun kh => drop (length (default [] (history s !! fst kh))) (snd kh)) (map_to_list (history next))).

(** The batch of an application. *)
Definition apply_batch (d : diskStore) (s next : logicalState) (conf : option ConfState) (confIndex : Z) : result durable_error Batch :=
  b ← put_each (put_row_record (generation s)) (Engine_NewBatch (options d)) (changed_rows s next);
  b ← put_each (put_result_records (generation s)) b (new_results s next);
  b ← put_each (put_version_record (generation s)) b (new_versions s next);
  b ← put b kApplied (wrapDisk x02 (be 8 (lastApplied next)));
  b ← put b kStateMeta (wrapDisk x0a (be 8 (lastApplied next)));
  match conf with
  | None => Ok b
  | Some c =>
      fail_if (confIndex =? 0) (ErrDurableCorrupt "conf state index is zero");;
      b ← put b kConfState (wrapDisk x03 (marshal_conf c));
      put b kConfIndex (wrapDisk x08 (be 8 confIndex))
  end.

Definition to_entry (e : pbEntry) : Entry := mkEntry (pe_Index e) (pe_Type e =? 0) (pe_Data e).

(** The fields an application publishes. *)
Definition publish_apply (d : diskStore) (next : logicalState) (conf : option ConfState) (confIndex : Z) : diskStore :=
  let d := set_applied_index d (lastApplied next) in
  match conf with None => d | Some c => set_conf d c confIndex end.

Definition apply (d : diskStore) (s : logicalState) (entries : list pbEntry) (conf : option ConfState) (confIndex : Z)
    : diskStore * logicalState * result durable_error (gmap UUID Result * gmap UUID command_error) :=
  match failed d with
  | Some e => (d, s, Fail (ErrDurableDisk e))
  | None =>
      if match conf with Some c => bool_decide (is_Some (validateConfState (Some c))) | None => false end
      then (d, s, Fail (ErrDurableCorrupt "conf state"))
      else
        match apply_entries s (map to_entry entries) with
        | Fail e => (d, s, Fail (ErrDurableState e))
        | Ok a =>
            let next := app_state a in
            match apply_batch d s next conf confIndex with
            | Fail e => (d, s, Fail e)
            | Ok b =>
                match (if bool_decide (entries = []) then (d, Ok tt) else applyBatch d b "state-apply") with
                | (d, Fail e) => (d, s, Fail (ErrDurableDisk e))
                | (d, Ok _) => (publish_apply d next conf confIndex, next, Ok (app_results a, app_conflicts a))
                end
            end
        end
  end.

(** ** Installation of a snapshot *)

(** The batch being filled, with the number of records in it. *)
Record staging : Type := mkStaging { st_disk : diskStore; st_batch : Batch; st_count : Z }.

Definition flush (t : staging) : staging * result durable_error unit :=
  match applyBatch (st_disk t) (st_batch t) "snapshot-stage" with
  | (d, Fail e) => (mkStaging d (st_batch t) (st_count t), Fail (ErrDurableDisk e))
  | (d, Ok _) => (mkStaging d (Engine_NewBatch (options d)) 0, Ok tt)
  end.

(** [engine.ErrBatchTooLarge], by [errors.Is]. *)
Definition batch_too_large (e : engine_error) : bool := match e with ErrBatchTooLarge _ => true | _ => false end.

Definition putBounded (t : staging) (key value : bytes) : staging * result durable_error unit :=
  match Batch_Put (st_batch t) key value with
  | (b, Ok _) => (mkStaging (st_disk t) b (st_count t + 1), Ok tt)
  | (b, Fail e) =>
      if negb (batch_too_large e) then (mkStaging (st_disk t) b (st_count t), Fail (ErrDurableEngine e))
      else
        match flush (mkStaging (st_disk t) b (st_count t)) with
        | (t, Fail e) => (t, Fail e)
        | (t, Ok _) =>
            match Batch_Put (st_batch t) key value with
            | (b, Ok _) => (mkStaging (st_disk t) b (st_count t + 1), Ok tt)
            | (b, Fail e) => (mkStaging (st_disk t) b (st_count t), Fail (ErrDurableEngine e))
            end
        end
  end.

(** The records of a state under a generation, in the order they are staged. *)
Definition row_record_at (gen : Z) (row : Row) : result durable_error (bytes * bytes) :=
  keyBytes ← stateKeyAt gen (row_Table row) (row_Key row);
  encodedRow ← map_err ErrDurableState (encodeStateRow row);
  Ok (keyBytes, wrapDisk x0a encodedRow).

Definition version_record_at (gen : Z) (row : Row) : result durable_error (bytes * bytes) :=
  keyBytes ← historyKeyAt gen (row_Table row) (row_Key row) (row_Sequence row);
  encodedRow ← map_err ErrDurableState (encodeStateRow row);
  Ok (keyBytes, wrapDisk x0a encodedRow).

Fixpoint stage_each {A} (f : staging -> A -> staging * result durable_error unit) (t : staging) (l : list A)
    : staging * result durable_error unit :=
  match l with
  | [] => (t, Ok tt)
  | x :: l' =>
      match f t x with
      | (t, Fail e) => (t, Fail e)
      | (t, Ok _) => stage_each f t l'
      end
  end.

Definition stage_record {A} (record : A -> result durable_error (bytes * bytes)) (t : staging) (x : A)
    : staging * result durable_error unit :=
  match record x with
  | Fail e => (t, Fail e)
  | Ok (key, value) => putBounded t key value
  end.

Definition stage_result (gen : Z) (t : staging) (kr : UUID * Result) : staging * result durable_error unit :=
  match encodeResult (snd kr) with
  | Fail e => (t, Fail (ErrDurableState e))
  | Ok encodedResult =>
      match putBounded t (resultKeyAt gen (fst kr)) (wrapDisk x0a encodedResult) with
      | (t, Fail e) => (t, Fail e)
      | (t, Ok _) => putBounded t (dedupeKeyAt gen (fst kr)) (wrapDisk x0a [x01])
      end
  end.

Definition stage_state (gen : Z) (t : staging) (decoded : logicalState) : staging * result durable_error unit :=
  match stage_each (stage_record (row_record_at gen)) t (snapshot_rows decoded) with
  | (t, Fail e) => (t, Fail e)
  | (t, Ok _) =>
      match stage_each (stage_record (version_record_at gen)) t (snapshot_history decoded) with
      | (t, Fail e) => (t, Fail e)
      | (t, Ok _) =>
          match stage_each (stage_result gen) t (snapshot_results decoded) with
          | (t, Fail e) => (t, Fail e)
          | (t, Ok _) => if negb (st_count t =? 0) then flush t else (t, Ok tt)
          end
      end
  end.

(** The records that switch to the new generation. *)
Definition install_records (index : Z) (conf : ConfState) (confIndex newGeneration : Z) : list (bytes * bytes) :=
  [(kApplied, wrapDisk x02 (be 8 index)); (kStateMeta, wrapDisk x0a (be 8 index)); (kConfState, wrapDisk x03 (marshal_conf conf));
   (kConfIndex, wrapDisk x08 (be 8 confIndex)); (kStateGeneration, wrapDisk x0a (be 8 newGeneration))].

Definition set_generation (s : logicalState) (index gen : Z) : logicalState :=
  mkState (rows s) (history s) (results s) (versions s) index gen.

(** The checks of [installSnapshot] on the metadata and the decoded state. *)
Definition check_install (d : diskStore) (s : logicalState) (snap : pbSnapshot) : result durable_error logicalState :=
  fail_if (bool_decide (is_Some (validateConfState (Some (sn_ConfState snap))))) (ErrDurableCorrupt "snapshot conf state");;
  decoded ← map_err ErrDurableState (decodeSnapshot (sn_Data snap));
  fail_if (negb (lastApplied decoded =? sn_Index snap)) (ErrDurableCorrupt "snapshot index mismatch");;
  fail_if ((sn_Index snap =? 0) || (sn_Term snap =? 0)) (ErrDurableCorrupt "snapshot metadata is empty");;
  match failed d with
  | Some e => Fail (ErrDurableDisk e)
  | None =>
      fail_if (sn_Index snap <? sn_Index (snapshot d)) (ErrDurableDisk ErrSnapOutOfDate);;
      fail_if ((sn_Index snap =? sn_Index (snapshot d)) && negb (sn_Term snap =? sn_Term (snapshot d)))
        (ErrDurableCorrupt "snapshot term mismatch");;
      fail_if (uint64 (generation s + 1) =? 0) (ErrDurableCorrupt "snapshot generation exhausted");;
      Ok decoded
  end.

Definition installSnapshot (d : diskStore) (s : logicalState) (snap : pbSnapshot) : diskStore * logicalState * result durable_error unit :=
  match check_install d s snap with
  | Fail e => (d, s, Fail e)
  | Ok decoded =>
      let '(conf, confIndex) :=
        if sn_Index snap <? confStateIndex d then (confState d, confStateIndex d) else (sn_ConfState snap, sn_Index snap) in
      let newGeneration := uint64 (generation s + 1) in
      match stage_state newGeneration (mkStaging d (Engine_NewBatch (options d)) 0) decoded with
      | (t, Fail e) => (st_disk t, s, Fail e)
      | (t, Ok _) =>
          let d := st_disk t in
          match put_all (Engine_NewBatch (options d)) (install_records (sn_Index snap) conf confIndex newGeneration) with
          | Fail e => (d, s, Fail (ErrDurableEngine e))
          | Ok b =>
              match applyBatch d b "snapshot-apply" with
              | (d, Fail e) => (d, s, Fail (ErrDurableDisk e))
              | (d, Ok _) =>
                  (set_conf (set_applied_index d (sn_Index snap)) conf confIndex,
                   set_generation decoded (sn_Index snap) newGeneration, Ok tt)
              end
          end
      end
  end.
End durable.
