(* ===== verification/DurableLoad.v ===== *)
(** Recovery of the replicated row state: the records of a state are read back
    to exactly that state. *)

From Stdlib Require Import ZArith Lia Sorting.Sorted.
From stdpp Require Import base list gmap sorting.
From S2P Require Import Prelude GoStd Codec Uuidv7 Coordinates EngineOps Fs Range Command State Snapshot Disk DiskLog DiskLoad Durable.

Local Open Scope Z_scope.

(** ** Keys *)

(** The keyspace of a generation, and the keys as concatenations. *)
Definition space (gen : Z) : bytes := if gen =? 0 then kState else kStateGenerations ++ decimal 20 gen ++ lit "/".
Definition tuple (table key : bytes) : bytes := tuple_bytes [str table; str key].
Definition row_key (gen : Z) (table key : bytes) : bytes := space gen ++ lit "row/" ++ tuple table key.
Definition version_key (gen : Z) (table key : bytes) (sequence : Z) : bytes :=
  space gen ++ lit "history/" ++ tuple table key ++ be 8 sequence.

Lemma statePrefix_row gen : statePrefix gen kRowPre = space gen ++ lit "row/".
Proof. unfold statePrefix, space. case_match; [done|]. rewrite <- !app_assoc. done. Qed.
Lemma statePrefix_history gen : statePrefix gen kHistPre = space gen ++ lit "history/".
Proof. unfold statePrefix, space. case_match; [done|]. rewrite <- !app_assoc. done. Qed.
Lemma statePrefix_result gen : statePrefix gen kResultPre = space gen ++ lit "result/".
Proof. unfold statePrefix, space. case_match; [done|]. rewrite <- !app_assoc. done. Qed.
Lemma statePrefix_dedupe gen : statePrefix gen kDedupePre = space gen ++ lit "dedupe/".
Proof. unfold statePrefix, space. case_match; [done|]. rewrite <- !app_assoc. done. Qed.

Lemma resultKeyAt_space gen id : resultKeyAt gen id = space gen ++ lit "result/" ++ id.
Proof. unfold resultKeyAt. rewrite statePrefix_result, <- app_assoc. unfold space. by case_match. Qed.
Lemma dedupeKeyAt_space gen id : dedupeKeyAt gen id = space gen ++ lit "dedupe/" ++ id ++ [x00].
Proof. unfold dedupeKeyAt. rewrite statePrefix_dedupe, <- app_assoc. unfold space. by case_match. Qed.

Section coordinates.
Context (table key : bytes) (Ht : validTable table = true) (Hk : validKey key = true).

Lemma coordinates_utf8 : utf8.Valid table = true /\ utf8.Valid key = true.
Proof.
  split; [|by destruct (proj1 (ValidKey_spec key) Hk) as (_ & _ & ? & _)]. apply ascii_utf8. eapply Forall_impl; [by apply ValidTable_ascii|]. simpl. lia.
Qed.

Lemma tuple_fits : len (tuple table key) <= 2120.
Proof.
  pose proof (len_str_table table Ht). pose proof (len_str_key key Hk).
  unfold tuple, tuple_bytes, components_bytes. cbn [map concat]. autorewrite with len. lia.
Qed.

Lemma tuple_encodes : EncodeTuple [str table; str key] = Ok (tuple table key).
Proof.
  apply EncodeTuple_spec. pose proof tuple_fits. destruct coordinates_utf8.
  split_and!; [unfold MaxComponents, len; cbn; lia|by repeat constructor|unfold MaxTupleBytes; unfold tuple in *; lia|done].
Qed.

Lemma tuple_decodes : DecodeTuple (tuple table key) = Ok [str table; str key].
Proof. apply DecodeTuple_spec, EncodeTuple_spec, tuple_encodes. Qed.

Lemma stateKey_ok : stateKey table key = Ok (kRowPre ++ tuple table key).
Proof.
  unfold stateKey. rewrite (valid_table_String table Ht). cbn [map_err mbind result_bind]. rewrite (valid_key_String key Hk).
  cbn [map_err mbind result_bind]. by rewrite tuple_encodes.
Qed.

Lemma stateKeyAt_ok gen : stateKeyAt gen table key = Ok (row_key gen table key).
Proof.
  unfold stateKeyAt, row_key. rewrite stateKey_ok. cbn [mbind result_bind]. rewrite drop_app_length, statePrefix_row, <- app_assoc.
  unfold space. by case_match.
Qed.

Lemma historyKeyAt_ok gen sequence : historyKeyAt gen table key sequence = Ok (version_key gen table key sequence).
Proof.
  unfold historyKeyAt, historyKey3, version_key. rewrite stateKey_ok. cbn [mbind result_bind].
  rewrite drop_app_length, drop_app_length, statePrefix_history, <- app_assoc. unfold space. by case_match.
Qed.

Lemma coordinates_kind : Component_Kind (str table) = StringKind /\ Component_Kind (str key) = StringKind.
Proof.
  destruct coordinates_utf8. pose proof (len_str_table table Ht). pose proof (len_str_key key Hk).
  assert (forall l, utf8.Valid l = true -> 1 + len (component_bytes (str l)) + 1 <= MaxTupleBytes -> Component_Kind (str l) = StringKind) as Hkind.
  { intros l Hu Hl. unfold Component_Kind, Component_Err. by rewrite (proj2 (validate_spec (str l) tt)). }
  split; apply Hkind; try done; unfold MaxTupleBytes; lia.
Qed.

Lemma decodeStateCoordinates_ok : decodeStateCoordinates (tuple table key) = Ok (table, key).
Proof.
  unfold decodeStateCoordinates. rewrite tuple_decodes. destruct coordinates_kind as [K1 K2].
  rewrite fail_if_false by (by rewrite K1, K2).
  change (Component_Text (str table)) with (@Ok codec_error bytes table). change (Component_Text (str key)) with (@Ok codec_error bytes key).
  cbn [map_err mbind result_bind]. rewrite Ht, Hk. done.
Qed.
End coordinates.

Lemma HasPrefix_common b x y : HasPrefix (b ++ x) (b ++ y) = HasPrefix x y.
Proof.
  unfold HasPrefix. rewrite length_app, take_app_add. unfold beq. apply bool_decide_ext. split; [apply app_inv_head|by intros ->].
Qed.

Lemma space_prefix gen : HasPrefix (space gen) kState = true.
Proof. unfold space. by case_match. Qed.

Lemma space_key gen x : HasPrefix (space gen ++ x) kState = true.
Proof. apply (HasPrefix_trans (space gen)); [apply HasPrefix_app|apply space_prefix]. Qed.

(** The parts of a keyspace do not overlap, and the two records outside any
    part are in none. *)
Definition parts : list bytes := [lit "row/"; lit "history/"; lit "result/"; lit "dedupe/"].
Definition in_space (gen : Z) (key : bytes) : bool := existsb (fun part => HasPrefix key (space gen ++ part)) parts.

Lemma outside_space gen key : HasPrefix key kStateGenerations = false -> forallb (fun part => negb (HasPrefix key (kState ++ part))) parts = true ->
  in_space gen key = false.
Proof.
  intros Hg Hp. unfold in_space. apply not_true_iff_false. intros (part & Hin & H)%existsb_exists.
  unfold space in H. destruct (gen =? 0).
  - rewrite forallb_forall in Hp. apply Hp in Hin. by rewrite H in Hin.
  - apply not_true_iff_false in Hg. apply Hg. apply (HasPrefix_trans _ _ _ H). rewrite <- app_assoc. apply HasPrefix_app.
Qed.


(** ** Records *)

Section records.
Context {canon : Canonicalizer} {pb : Protobuf}.

(** The records of a state, with what each contributes to recovery. *)
Inductive logical_record (s : logicalState) : bytes -> bytes -> effect -> Prop :=
| lr_row id row : rows s !! id = Some row ->
    logical_record s (row_key (generation s) (row_Table row) (row_Key row)) (wrapDisk x0a (row_bytes row)) (ERow id row)
| lr_version id l row : history s !! id = Some l -> row ∈ l ->
    logical_record s (version_key (generation s) (row_Table row) (row_Key row) (row_Sequence row)) (wrapDisk x0a (row_bytes row))
      (EHistory id row)
| lr_result id r : results s !! id = Some r ->
    logical_record s (resultKeyAt (generation s) id) (wrapDisk x0a (result_bytes r)) (EResult id r)
| lr_dedupe id r : results s !! id = Some r ->
    logical_record s (dedupeKeyAt (generation s) id) (wrapDisk x0a [x01]) (EDedupe id).

(** The records [m] are those of the state: in the keyspace of its generation
    there are exactly its records, the applied index and the generation are
    recorded unless they are still zero, and every other key is known. *)
Record state_stored (m : gmap bytes bytes) (s : logicalState) : Prop := {
  ss_records : forall key value, m !! key = Some value -> in_space (generation s) key = true ->
    exists e, logical_record s key value e;
  ss_present : forall key value e, logical_record s key value e -> m !! key = Some value;
  ss_meta : m !! kStateMeta = Some (wrapDisk x0a (be 8 (lastApplied s))) \/ m !! kStateMeta = None /\ lastApplied s = 0;
  ss_generation : m !! kStateGeneration = Some (wrapDisk x0a (be 8 (generation s))) \/ m !! kStateGeneration = None /\ generation s = 0;
  ss_known : forall key value, m !! key = Some value -> isKnownRaftKey key || isAnyLogicalKey key = true
}.

Lemma space_part gen x part key : key = space gen ++ part ++ x -> HasPrefix key (space gen ++ part) = true.
Proof. intros ->. rewrite app_assoc. apply HasPrefix_app. Qed.

Lemma other_part gen x part part' key : key = space gen ++ part ++ x -> HasPrefix part part' = false -> HasPrefix part' part = false ->
  HasPrefix key (space gen ++ part') = false.
Proof.
  intros -> H1 H2. rewrite HasPrefix_common. by apply (HasPrefix_clash part); [apply HasPrefix_app|..].
Qed.

Ltac pick_part E := rewrite ?(other_part _ _ _ (lit "row/") _ E), ?(other_part _ _ _ (lit "history/") _ E),
  ?(other_part _ _ _ (lit "result/") _ E) by done; rewrite (space_part _ _ _ _ E).

Section effects.
Context (s : logicalState) (Hs : state_ok s) (Hgen : is_u64 (generation s)).

Lemma row_fits row last id : row_ok last id row -> len (row_bytes row) < 2 ^ 32.
Proof.
  intros Hr. destruct (ro_version _ _ _ Hr) as [Hv _]. rewrite len_row_bytes by done.
  pose proof (canonical_value_len _ (ro_value _ _ _ Hr)). unfold maxCommandValue in *. lia.
Qed.

Lemma row_effect id row : rows s !! id = Some row ->
  load_effect (generation s) (row_key (generation s) (row_Table row) (row_Key row)) (wrapDisk x0a (row_bytes row)) = Ok (ERow id row).
Proof.
  intros H. assert (row_ok (lastApplied s) id row) as Hr.
  { pose proof (rows_ok s Hs) as Hf. rewrite Forall_forall in Hf. apply (Hf (id, row)). by apply elem_of_sorted_members. }
  unfold load_effect. rewrite statePrefix_row. pose proof (eq_refl (row_key (generation s) (row_Table row) (row_Key row))) as E.
  unfold row_key at 2 in E. rewrite (space_part _ _ _ _ E). unfold row_key. rewrite app_assoc, drop_app_length.
  rewrite decodeStateCoordinates_ok by apply Hr. cbn [corrupted map_err mbind result_bind].
  unfold unwrap_state. rewrite unwrapDisk_wrapDisk by (by eapply row_fits). cbn [mbind result_bind].
  pose proof (so_last s Hs). rewrite (decodeStateRow_ok (lastApplied s) id) by (done || lia). cbn [corrupted map_err mbind result_bind].
  by rewrite <- (ro_id _ _ _ Hr).
Qed.

Lemma version_effect id l row : history s !! id = Some l -> row ∈ l ->
  load_effect (generation s) (version_key (generation s) (row_Table row) (row_Key row) (row_Sequence row)) (wrapDisk x0a (row_bytes row))
  = Ok (EHistory id row).
Proof.
  intros Hh Hin. assert (row_ok (lastApplied s) id row) as Hr.
  { apply (so_history s Hs) in Hh as (_ & Hf & _). rewrite Forall_forall in Hf. by apply Hf. }
  pose proof (so_last s Hs). pose proof (ro_sequence _ _ _ Hr). unfold max_uint64 in *.
  unfold load_effect. rewrite statePrefix_row, statePrefix_history.
  set (key := version_key _ _ _ _). assert (key = space (generation s) ++ lit "history/" ++ tuple (row_Table row) (row_Key row) ++ be 8 (row_Sequence row)) as E by done.
  rewrite (other_part _ _ _ (lit "row/") _ E), (space_part _ _ _ _ E) by done.
  assert (key = (space (generation s) ++ lit "history/") ++ tuple (row_Table row) (row_Key row) ++ be 8 (row_Sequence row)) as E' by (by rewrite <- app_assoc).
  set (prefix := space (generation s) ++ lit "history/") in *. set (t := tuple (row_Table row) (row_Key row)) in *.
  assert (len key = len prefix + len t + 8) as Hlen by (rewrite E', !len_app, len_be; lia).
  pose proof (len_nonneg t). pose proof (len_nonneg prefix).
  rewrite fail_if_false by (apply Z.ltb_ge; lia).
  assert (sub key (len prefix) (len key - 8) = t) as -> by (rewrite E'; apply sub_app_mid; [done|rewrite <- E', Hlen; lia]).
  unfold t. rewrite decodeStateCoordinates_ok by apply Hr. cbn [corrupted map_err mbind result_bind].
  unfold unwrap_state. rewrite unwrapDisk_wrapDisk by (by eapply row_fits). cbn [mbind result_bind].
  rewrite (decodeStateRow_ok (lastApplied s) id) by (done || unfold max_uint64; lia). cbn [corrupted map_err mbind result_bind].
  assert (sub key (len key - 8) (len key) = be 8 (row_Sequence row)) as ->.
  { rewrite E', app_assoc. apply sub_suffix; rewrite ?len_app, len_be; unfold t in *; lia. }
  rewrite un_be_be_small by (cbn; lia).
  rewrite fail_if_false by (rewrite Z.eqb_refl, (proj2 (Z.eqb_neq _ 0)) by lia; done).
  by rewrite <- (ro_id _ _ _ Hr).
Qed.

Lemma operation_id_len id r : results s !! id = Some r -> length id = 16%nat.
Proof. intros H. destruct (so_results s Hs _ _ H) as (<- & Hc & _). apply (cmd_op _ Hc). Qed.

Lemma result_effect id r : results s !! id = Some r ->
  load_effect (generation s) (resultKeyAt (generation s) id) (wrapDisk x0a (result_bytes r)) = Ok (EResult id r).
Proof.
  intros H. pose proof (operation_id_len id r H) as Hid. pose proof (state_result_ok s id r Hs H) as Hr.
  unfold load_effect. rewrite statePrefix_row, statePrefix_history, statePrefix_result.
  set (key := resultKeyAt _ _). assert (key = space (generation s) ++ lit "result/" ++ id) as E by apply resultKeyAt_space.
  rewrite (other_part _ _ _ (lit "row/") _ E), (other_part _ _ _ (lit "history/") _ E), (space_part _ _ _ _ E) by done.
  rewrite E, app_assoc. set (prefix := space (generation s) ++ lit "result/").
  rewrite fail_if_false by (rewrite len_app; unfold len; rewrite Hid; apply negb_false_iff, Z.eqb_eq; lia).
  unfold unwrap_state. rewrite unwrapDisk_wrapDisk.
  2:{ pose proof (len_result_row _ _ Hr) as [Hl _]. pose proof (len_command_bytes _ (proj1 Hr)).
      unfold result_bytes. rewrite !len_app, !len_be. change (len [stateFormat; _; _]) with 3. lia. }
  cbn [mbind result_bind]. pose proof (so_last s Hs). rewrite (decodeResult_ok (lastApplied s)) by (done || lia).
  cbn [corrupted map_err mbind result_bind]. by rewrite len_to_nat, drop_app_length.
Qed.

Lemma dedupe_effect id r : results s !! id = Some r ->
  load_effect (generation s) (dedupeKeyAt (generation s) id) (wrapDisk x0a [x01]) = Ok (EDedupe id).
Proof.
  intros H. pose proof (operation_id_len id r H) as Hid. unfold load_effect.
  rewrite statePrefix_row, statePrefix_history, statePrefix_result, statePrefix_dedupe.
  set (key := dedupeKeyAt _ _). assert (key = space (generation s) ++ lit "dedupe/" ++ id ++ [x00]) as E by apply dedupeKeyAt_space.
  rewrite (other_part _ _ _ (lit "row/") _ E), (other_part _ _ _ (lit "history/") _ E), (other_part _ _ _ (lit "result/") _ E),
    (space_part _ _ _ _ E) by done.
  rewrite E, app_assoc. set (prefix := space (generation s) ++ lit "dedupe/"). assert (len id = 16) as L by (unfold len; lia).
  assert (len [x00 : byte] = 1) as L1 by done.
  rewrite fail_if_false.
  2:{ rewrite !len_app, L, L1. apply orb_false_iff. split; [apply negb_false_iff, Z.eqb_eq; lia|].
      rewrite app_assoc, sub_suffix by (rewrite ?len_app, L, ?L1; lia). done. }
  unfold unwrap_state. rewrite unwrapDisk_wrapDisk by done. cbn [mbind result_bind]. rewrite fail_if_false by done.
  rewrite sub_app_mid by (rewrite ?L; lia). done.
Qed.

Lemma record_effect key value e : logical_record s key value e -> load_effect (generation s) key value = Ok e.
Proof. intros []; [by apply row_effect|by eapply version_effect|by apply result_effect|by eapply dedupe_effect]. Qed.
End effects.

(** A key outside the keyspace of the generation. *)
Lemma outside_effect gen key value : in_space gen key = false -> isKnownRaftKey key || isAnyLogicalKey key = true ->
  load_effect gen key value =
    if beq key kStateMeta then
      payload ← unwrap_state "state metadata" value;
      fail_if (negb (len payload =? 8)) (ErrDurableCorrupt "state metadata");;
      Ok (EMeta (un_be payload))
    else Ok ENone.
Proof.
  intros Hout Hk. unfold load_effect. rewrite statePrefix_row, statePrefix_history, statePrefix_result, statePrefix_dedupe.
  unfold in_space, parts in Hout. cbn [existsb] in Hout. rewrite !orb_false_iff in Hout. destruct Hout as (-> & -> & -> & -> & _).
  case_match; [done|]. rewrite fail_if_false; [done|]. apply orb_true_iff in Hk as [->| ->]; [done|]. by rewrite andb_false_r.
Qed.

(** ** The loop over the records *)

Definition version_of_row (id : bytes) (e : effect) : option Row :=
  match e with EHistory id' row => if bool_decide (id' = id) then Some row else None | _ => None end.

(** What the loop has collected after the effects [es]. *)
Record collected (es : list effect) (l : loading) : Prop := {
  col_rows : forall id row, l_rows l !! id = Some row -> ERow id row ∈ es;
  col_rows_all : forall id row, ERow id row ∈ es -> is_Some (l_rows l !! id);
  col_history : forall id, l_history l !! id = match omap (version_of_row id) es with [] => None | h => Some h end;
  col_results : forall id r, l_results l !! id = Some r -> EResult id r ∈ es;
  col_results_all : forall id r, EResult id r ∈ es -> is_Some (l_results l !! id);
  col_meta : l_applied l = 0 /\ (forall n, EMeta n ∉ es) \/ EMeta (l_applied l) ∈ es;
  col_dedupe : forall id, id ∈ dedupeIDs l <-> EDedupe id ∈ es;
  col_resultIDs : forall id, id ∈ resultIDs l <-> exists r, EResult id r ∈ es
}.

Lemma collected_none : collected [] no_loading.
Proof.
  split.
  - intros id row H. cbn in H. by apply lookup_empty_Some in H.
  - intros id row H. by apply not_elem_of_nil in H.
  - done.
  - intros id r H. cbn in H. by apply lookup_empty_Some in H.
  - intros id r H. by apply not_elem_of_nil in H.
  - left. split; [done|]. intros n. apply not_elem_of_nil.
  - intros id. split; [by intros ?%elem_of_empty|by intros ?%not_elem_of_nil].
  - intros id. split; [by intros ?%elem_of_empty|by intros [r ?%not_elem_of_nil]].
Qed.

Lemma collected_add es l e : collected es l -> collected (es ++ [e]) (add_effect l e).
Proof.
  intros [H1 H2 H3 H4 H5 H6 H7 H8]. split; intros; rewrite ?omap_app in *; rewrite ?elem_of_snoc in *.
  - destruct e; cbn in *; try (left; by apply H1).
    match goal with H : <[_ := _]> _ !! _ = Some _ |- _ => apply lookup_insert_Some in H as [[<- <-]|[_ H]] end; [by right|left; by apply H1].
  - destruct e as [id' row'| | | | |]; cbn; (destruct H as [H|H]; [apply H2 in H as Hs|]); try done.
    + destruct (decide (id' = id)) as [->|]; [rewrite lookup_insert_eq; eauto|by rewrite lookup_insert_ne].
    + injection H as -> ->. rewrite lookup_insert_eq. eauto.
  - destruct e as [| id' row'| | | |]; cbn; rewrite ?app_nil_r; try apply H3.
    destruct (decide (id' = id)) as [->|Hne].
    + rewrite lookup_insert_eq, bool_decide_eq_true_2, H3 by done. by destruct (omap (version_of_row id) es).
    + rewrite lookup_insert_ne, bool_decide_eq_false_2, H3 by done. by rewrite app_nil_r.
  - destruct e; cbn in *; try (left; by apply H4).
    match goal with H : <[_ := _]> _ !! _ = Some _ |- _ => apply lookup_insert_Some in H as [[<- <-]|[_ H]] end; [by right|left; by apply H4].
  - destruct e as [| |id' r'| | |]; cbn; (destruct H as [H|H]; [apply H5 in H as Hs|]); try done.
    + destruct (decide (id' = id)) as [->|]; [rewrite lookup_insert_eq; eauto|by rewrite lookup_insert_ne].
    + injection H as -> ->. rewrite lookup_insert_eq. eauto.
  - destruct e; cbn; try (destruct H6 as [[? ?]|?]; [left; split; [done|]; intros n'; rewrite elem_of_snoc; naive_solver|right; by left]).
    right. by right.
  - destruct e; cbn; rewrite ?elem_of_union, ?elem_of_singleton, H7; naive_solver.
  - destruct e; cbn; rewrite ?elem_of_union, ?elem_of_singleton, H8; setoid_rewrite elem_of_snoc; naive_solver.
Qed.

Lemma collected_all es es' l : collected es l -> collected (es ++ es') (foldl add_effect l es').
Proof.
  revert es l. induction es' as [|e es' IH]; intros es l H; [by rewrite app_nil_r|]. cbn [foldl].
  change (e :: es') with ([e] ++ es'). rewrite app_assoc. by apply IH, collected_add.
Qed.

Lemma load_effects_all gen items es : forall l, Forall2 (fun kv e => load_effect gen (fst kv) (snd kv) = Ok e) items es ->
  load_effects gen l items = Ok (foldl add_effect l es).
Proof.
  intros l H. revert l. induction H as [|[key value] e items es He _ IH]; intros l; [done|]. cbn [load_effects foldl fst snd] in *.
  rewrite He. apply IH.
Qed.

(** ** Order and uniqueness *)

Lemma perm_sorted_unique l : forall k, l ≡ₚ k -> StronglySorted seq_le l -> StronglySorted seq_lt k -> l = k.
Proof.
  induction l as [|x l IH]; intros k Hp Hl Hk; [by apply Permutation_nil_l in Hp|].
  destruct k as [|y k]; [by apply Permutation_nil_r in Hp|].
  apply StronglySorted_inv in Hl as [Hl Hx], Hk as [Hk Hy]. rewrite Forall_forall in Hx, Hy.
  assert (x = y) as ->.
  { assert (x ∈ y :: k) as Hx' by (rewrite <- Hp; by left). assert (y ∈ x :: l) as Hy' by (rewrite Hp; by left).
    apply elem_of_cons in Hx' as [?|Hx'], Hy' as [?|Hy']; try done. apply Hx in Hy'. apply Hy in Hx'. unfold seq_le, seq_lt in *. lia. }
  f_equal. apply IH; [by apply Permutation_cons_inv in Hp|done..].
Qed.

Lemma sort_history_perm l k : l ≡ₚ k -> StronglySorted seq_lt k -> sort_history l = k.
Proof.
  intros Hp Hk. apply perm_sorted_unique; [by unfold sort_history; rewrite merge_sort_Permutation| |done].
  apply Sorted_StronglySorted; [intros a b c; unfold seq_le; lia|]. apply Sorted_merge_sort. intros a b. unfold seq_le. lia.
Qed.

Lemma sorted_not_adjacent l : StronglySorted seq_lt l -> adjacent_duplicate l = false.
Proof.
  induction 1 as [|a l Hl IH Ha]; [done|]. destruct l as [|b l]; [done|]. cbn [adjacent_duplicate].
  apply Forall_cons in Ha as [Ha _]. unfold seq_lt in Ha. apply orb_false_iff. split; [apply Z.eqb_neq; lia|exact IH].
Qed.

Lemma check_unique_ok l : forall seqs vs,
  NoDup (map row_Sequence l) -> NoDup (map row_Version l) ->
  (forall r, r ∈ l -> row_Sequence r ∉ seqs) -> (forall r, r ∈ l -> row_Version r ∉ vs) ->
  check_unique seqs vs l = Ok (list_to_set (map row_Sequence l) ∪ seqs, list_to_set (map row_Version l) ∪ vs).
Proof.
  induction l as [|r l IH]; intros seqs vs Hn Hv Hs Hvs; cbn [check_unique map list_to_set] in *; [by rewrite !(left_id_L ∅ (∪))|].
  apply NoDup_cons in Hn as [Hn1 Hn2], Hv as [Hv1 Hv2].
  rewrite fail_if_false by (apply bool_decide_eq_false_2, Hs; left). rewrite fail_if_false by (apply bool_decide_eq_false_2, Hvs; left).
  rewrite IH; [f_equal; f_equal; set_solver|done|done|..].
  - intros x Hx. apply not_elem_of_union. split; [|apply Hs; by right]. rewrite elem_of_singleton. intros E. apply Hn1. rewrite <- E.
    by apply list_elem_of_fmap_2.
  - intros x Hx. apply not_elem_of_union. split; [|apply Hvs; by right]. rewrite elem_of_singleton. intros E. apply Hv1. rewrite <- E.
    by apply list_elem_of_fmap_2.
Qed.

Lemma check_histories_stored last_applied L : forall seqs vs,
  Forall (fun kh => snd kh <> [] /\ StronglySorted seq_lt (snd kh) /\ Forall (fun r => row_Sequence r <= last_applied) (snd kh)) L ->
  NoDup (map row_Sequence (concat (map snd L))) -> NoDup (map row_Version (concat (map snd L))) ->
  (forall r, r ∈ concat (map snd L) -> row_Sequence r ∉ seqs) -> (forall r, r ∈ concat (map snd L) -> row_Version r ∉ vs) ->
  check_histories last_applied seqs vs L = Ok (list_to_set (map row_Version (concat (map snd L))) ∪ vs).
Proof.
  induction L as [|[id h] L IH]; intros seqs vs Hok Hn Hv Hs Hvs; cbn [check_histories map concat snd list_to_set] in *; [by rewrite (left_id_L ∅ (∪))|].
  apply Forall_cons in Hok as [(Hne & Hsrt & Hle) Hok]. rewrite map_app in Hn, Hv.
  apply NoDup_app in Hn as (Hn1 & Hn2 & Hn3), Hv as (Hv1 & Hv2 & Hv3).
  destruct (last h) as [latest|] eqn:Hlast; [|by apply last_None in Hlast]. cbn [snd] in *.
  rewrite fail_if_false by (apply Z.ltb_ge; rewrite Forall_forall in Hle; apply Hle; by apply last_Some_elem_of).
  rewrite fail_if_false by (by apply sorted_not_adjacent).
  rewrite check_unique_ok; [|done|done|intros r Hr; apply Hs, elem_of_app; by left|intros r Hr; apply Hvs, elem_of_app; by left].
  cbn [mbind result_bind]. rewrite IH; [|done|done|done|..].
  - f_equal. rewrite map_app, list_to_set_app_L. set_solver.
  - intros r Hr. apply not_elem_of_union. split; [|apply Hs, elem_of_app; by right]. rewrite elem_of_list_to_set. intros Hin.
    apply (Hn2 _ Hin). by apply list_elem_of_fmap_2.
  - intros r Hr. apply not_elem_of_union. split; [|apply Hvs, elem_of_app; by right]. rewrite elem_of_list_to_set. intros Hin.
    apply (Hv2 _ Hin). by apply list_elem_of_fmap_2.
Qed.

Lemma load_generation_ok gen items : forall g, is_u64 gen ->
  (forall v, (kStateGeneration, v) ∈ items -> v = wrapDisk x0a (be 8 gen)) ->
  g = gen \/ (exists v, (kStateGeneration, v) ∈ items) -> load_generation g items = Ok gen.
Proof.
  intros g Hu. revert g. induction items as [|[key value] items IH]; intros g Hall Hg; cbn [load_generation].
  { destruct Hg as [->|[v H]]; [done|by apply not_elem_of_nil in H]. }
  destruct (beq key kStateGeneration) eqn:Hk.
  - apply beq_true in Hk as ->. rewrite (Hall value) by left. unfold is_u64, max_uint64 in Hu. unfold unwrap_state.
    rewrite unwrapDisk_wrapDisk by (rewrite len_be; lia). cbn [mbind result_bind]. rewrite len_be. cbn [Z.of_nat].
    rewrite fail_if_false by done. rewrite un_be_be_small by (cbn; lia). apply IH; [|by left]. intros v H. apply Hall. by right.
  - apply IH; [intros v H; apply Hall; by right|]. destruct Hg as [->|[v H]]; [by left|right]. exists v.
    apply elem_of_cons in H as [[= <- _]|H]; [by rewrite beq_refl in Hk|done].
Qed.

(** ** The records of a state *)

Lemma record_in_space s key value e : logical_record s key value e -> in_space (generation s) key = true.
Proof.
  unfold in_space, parts. cbn [existsb]. intros [id row _|id l row _ _|id r _|id r _].
  - by rewrite (space_part (generation s) (tuple (row_Table row) (row_Key row)) (lit "row/")).
  - rewrite (space_part (generation s) (tuple (row_Table row) (row_Key row) ++ be 8 (row_Sequence row)) (lit "history/")) by done.
    by rewrite !orb_true_r.
  - rewrite (space_part (generation s) id (lit "result/")) by apply resultKeyAt_space. by rewrite !orb_true_r.
  - rewrite (space_part (generation s) (id ++ [x00]) (lit "dedupe/")) by apply dedupeKeyAt_space. by rewrite !orb_true_r.
Qed.

Section recovery.
Context (s : logicalState) (d : diskStore) (Hs : state_ok s) (Hgen : is_u64 (generation s)) (Hst : state_stored (db d) s).

Definition effect_of (kv : bytes * bytes) : effect :=
  match load_effect (generation s) (fst kv) (snd kv) with Ok e => e | Fail _ => ENone end.
Definition effects : list effect := map effect_of (scan d).

Lemma meta_outside gen : in_space gen kStateMeta = false.
Proof. by apply outside_space. Qed.
Lemma generation_outside gen : in_space gen kStateGeneration = false.
Proof. by apply outside_space. Qed.

(** Each record has an effect: that of a record of the state, or of the
    applied index, or none. *)
Lemma item_effect key value : db d !! key = Some value ->
  load_effect (generation s) key value = Ok (effect_of (key, value)) /\
  (logical_record s key value (effect_of (key, value)) \/
   key = kStateMeta /\ effect_of (key, value) = EMeta (lastApplied s) \/
   key <> kStateMeta /\ effect_of (key, value) = ENone).
Proof.
  intros Hkv. unfold effect_of. cbn [fst snd]. destruct (in_space (generation s) key) eqn:Hin.
  - destruct (ss_records _ _ Hst key value Hkv Hin) as [e He]. rewrite (record_effect s Hs key value e He). auto.
  - rewrite (outside_effect (generation s) key value Hin (ss_known _ _ Hst key value Hkv)).
    destruct (beq key kStateMeta) eqn:Hm.
    + apply beq_true in Hm as ->. destruct (ss_meta _ _ Hst) as [Hv|[Hv _]]; [|congruence].
      assert (value = wrapDisk x0a (be 8 (lastApplied s))) as -> by congruence. pose proof (so_last s Hs). unfold max_uint64 in *.
      unfold unwrap_state. rewrite unwrapDisk_wrapDisk by (rewrite len_be; lia). cbn [mbind result_bind]. rewrite len_be. cbn [Z.of_nat].
      rewrite fail_if_false by done. rewrite un_be_be_small by (cbn; lia). auto.
    + split; [done|]. right. right. split; [|done]. intros ->. by rewrite beq_refl in Hm.
Qed.

Lemma scan_lookup key value : (key, value) ∈ scan d <-> db d !! key = Some value.
Proof. apply elem_of_sorted_members. Qed.

Lemma effects_Forall2 : Forall2 (fun kv e => load_effect (generation s) (fst kv) (snd kv) = Ok e) (scan d) effects.
Proof.
  unfold effects. apply Forall2_fmap_r, Forall_Forall2_diag, Forall_forall. intros [key value] H%scan_lookup. by apply item_effect.
Qed.

Lemma effects_logical e : (exists key value, logical_record s key value e) -> e ∈ effects.
Proof.
  intros (key & value & Hr). unfold effects. apply list_elem_of_fmap. exists (key, value). split.
  - unfold effect_of. cbn [fst snd]. by rewrite (record_effect s Hs key value e Hr).
  - apply scan_lookup. by apply (ss_present _ _ Hst key value e).
Qed.

Lemma effects_inv e : e ∈ effects ->
  (exists key value, (key, value) ∈ scan d /\ logical_record s key value e) \/ e = EMeta (lastApplied s) \/ e = ENone.
Proof.
  intros ([key value] & -> & Hkv)%list_elem_of_fmap. pose proof Hkv as Hdb. apply scan_lookup in Hdb.
  destruct (item_effect key value Hdb) as [_ [H|[[_ ->]|[_ ->]]]]; eauto.
Qed.

Lemma row_effects id row : ERow id row ∈ effects <-> rows s !! id = Some row.
Proof.
  split; [|intros H; apply effects_logical; by eexists _, _; apply lr_row].
  intros [(key & value & _ & H)|[?|?]]%effects_inv; [|done..]. by inversion H.
Qed.

Lemma version_effects id row : EHistory id row ∈ effects <-> exists l, history s !! id = Some l /\ row ∈ l.
Proof.
  split; [|intros (l & H & Hin); apply effects_logical; by eexists _, _; eapply lr_version].
  intros [(key & value & _ & H)|[?|?]]%effects_inv; [|done..]. inversion H; eauto.
Qed.

Lemma result_effects id r : EResult id r ∈ effects <-> results s !! id = Some r.
Proof.
  split; [|intros H; apply effects_logical; by eexists _, _; apply lr_result].
  intros [(key & value & _ & H)|[?|?]]%effects_inv; [|done..]. by inversion H.
Qed.

Lemma dedupe_effects id : EDedupe id ∈ effects <-> is_Some (results s !! id).
Proof.
  split; [|intros [r H]; apply effects_logical; by eexists _, _; eapply lr_dedupe].
  intros [(key & value & _ & H)|[?|?]]%effects_inv; [|done..]. inversion H; eauto.
Qed.

Lemma meta_effects : lastApplied s = 0 /\ (forall n, EMeta n ∈ effects -> n = 0) \/ EMeta (lastApplied s) ∈ effects.
Proof.
  destruct (ss_meta _ _ Hst) as [Hm|[Hm H0]].
  - right. unfold effects. apply list_elem_of_fmap. exists (kStateMeta, wrapDisk x0a (be 8 (lastApplied s))).
    destruct (item_effect _ _ Hm) as [_ [Hr|[[_ ->]|[Hne _]]]]; [|split; [done|by apply scan_lookup]|done].
    apply record_in_space in Hr. by rewrite meta_outside in Hr.
  - left. split; [done|]. intros n [(key & value & _ & H)|[[= ->]|?]]%effects_inv; [by inversion H|done|done].
Qed.

Lemma versions_NoDup id : NoDup (omap (version_of_row id) effects).
Proof.
  assert (NoDup (map fst (scan d))) as Hnd by (by apply (increasing_NoDup fst), sorted_members_increasing).
  assert (forall kv, kv ∈ scan d -> db d !! fst kv = Some (snd kv)) as Hin by (intros [k v] H; by apply scan_lookup).
  unfold effects. induction (scan d) as [|[key value] items IH]; [constructor|]. cbn [map fst] in Hnd. apply NoDup_cons in Hnd as [Hk Hnd].
  assert (forall kv row, kv ∈ (key, value) :: items -> version_of_row id (effect_of kv) = Some row ->
    fst kv = version_key (generation s) (row_Table row) (row_Key row) (row_Sequence row)) as Hkey.
  { intros [k v] row Hkv Hrow. apply Hin in Hkv. cbn [fst snd] in *. destruct (item_effect k v Hkv) as [_ [H|[[_ E]|[_ E]]]];
      [|by rewrite E in Hrow..]. destruct H; try done. cbn in Hrow. case_bool_decide; [|done]. by injection Hrow as ->. }
  specialize (IH Hnd ltac:(intros kv H; apply Hin; by right)). cbn [map]. cbn [omap list_omap].
  destruct (version_of_row id (effect_of (key, value))) as [row|] eqn:Hrow; [|exact IH]. constructor; [|exact IH].
  intros (e & (kv & -> & Hkv)%list_elem_of_fmap & He)%list_elem_of_omap. apply Hk. apply list_elem_of_fmap. exists kv. split; [|done].
  transitivity (version_key (generation s) (row_Table row) (row_Key row) (row_Sequence row)).
  - apply (Hkey (key, value) row); [left|done].
  - symmetry. apply Hkey; [by right|done].
Qed.

Lemma versions_elem id row : row ∈ omap (version_of_row id) effects <-> exists l, history s !! id = Some l /\ row ∈ l.
Proof.
  rewrite <- version_effects, list_elem_of_omap. split.
  - intros (e & He & Hrow). destruct e; cbn in Hrow; try done. case_bool_decide; [|done]. simplify_eq. done.
  - intros H. exists (EHistory id row). split; [done|]. cbn. by rewrite bool_decide_eq_true_2.
Qed.

(** The maps the loop leaves behind are those of the state. *)
Lemma loaded_maps l : collected effects l ->
  l_rows l = rows s /\ sort_history <$> l_history l = history s /\ l_results l = results s /\ l_applied l = lastApplied s
  /\ dedupeIDs l = dom (results s) /\ resultIDs l = dom (results s).
Proof.
  intros [H1 H2 H3 H4 H5 H6 H7 H8]. split_and!.
  - apply map_eq. intros id. destruct (l_rows l !! id) as [row|] eqn:Hr.
    + symmetry. by apply row_effects, H1.
    + symmetry. apply eq_None_not_Some. intros [row Hrow]. apply row_effects, H2 in Hrow as [x Hx]. congruence.
  - apply map_eq. intros id. rewrite lookup_fmap, H3. destruct (history s !! id) as [h|] eqn:Hh.
    + destruct (so_history s Hs _ _ Hh) as (Hne & _ & Hsrt).
      assert (omap (version_of_row id) effects ≡ₚ h) as Hp.
      { apply NoDup_Permutation; [apply versions_NoDup| |].
        - apply NoDup_fmap_1 with (f := row_Sequence). clear -Hsrt. induction Hsrt as [|x h Hs IH Hf]; cbn; constructor; [|done].
          intros (y & E & Hy)%list_elem_of_fmap. rewrite Forall_forall in Hf. apply Hf in Hy. unfold seq_lt in Hy. lia.
        - intros row. rewrite versions_elem. rewrite Hh. naive_solver. }
      destruct (omap (version_of_row id) effects) as [|x k] eqn:Eo; [by apply Permutation_nil_l in Hp|].
      change (Some (sort_history (x :: k)) = Some h). f_equal. by apply sort_history_perm.
    + destruct (omap (version_of_row id) effects) as [|x k] eqn:Eo; [done|]. exfalso.
      destruct (proj1 (versions_elem id x)) as (h & Hh' & _); [rewrite Eo; left|]. congruence.
  - apply map_eq. intros id. destruct (l_results l !! id) as [r|] eqn:Hr.
    + symmetry. by apply result_effects, H4.
    + symmetry. apply eq_None_not_Some. intros [r Hr']. apply result_effects, H5 in Hr' as [x Hx]. congruence.
  - destruct meta_effects as [[E0 Hm]|Hm], H6 as [[El Hno]|Hl]; [congruence|rewrite E0; by apply Hm|by apply Hno in Hm|].
    apply effects_inv in Hl as [(key & value & _ & H)|[[= ->]|?]]; [by inversion H|done|done].
  - apply set_eq. intros id. rewrite H7, dedupe_effects, elem_of_dom. done.
  - apply set_eq. intros id. rewrite H8, elem_of_dom. setoid_rewrite result_effects. done.
Qed.
End recovery.

(** ** The checks accept the state *)

Section checks.
Context (s : logicalState) (Hs : state_ok s).

Lemma history_lists_NoDup {B} (f : Row -> B) :
  (forall r r', in_history s r -> in_history s r' -> f r = f r' -> r = r') -> NoDup (map f (concat (map snd (map_to_list (history s))))).
Proof.
  intros Hf. apply NoDup_fmap_2_strong.
  - assert (forall r, r ∈ concat (map snd (map_to_list (history s))) -> in_history s r) as Hin.
    { intros r (l & ([id h] & <- & Hl)%in_map_iff & Hr)%list_elem_of_In%in_concat.
      exists id, h. split; [by apply elem_of_map_to_list, list_elem_of_In|by apply list_elem_of_In]. }
    intros x y Hx Hy. apply Hf; by apply Hin.
  - apply groups_NoDup; [|apply NoDup_fst_map_to_list]. pose proof (history_groups_ok s Hs) as Hg.
    by rewrite sorted_members_perm in Hg.
Qed.

Lemma stored_histories_ok :
  check_histories (lastApplied s) ∅ ∅ (map_to_list (history s)) = Ok (list_to_set (map row_Version (snapshot_history s))).
Proof.
  rewrite check_histories_stored.
  - f_equal. rewrite (right_id_L ∅ (∪)). apply list_to_set_perm_L. apply Permutation_map. unfold snapshot_history.
    rewrite <- !flat_map_concat_map. apply Permutation_flat_map. symmetry. apply sorted_members_perm.
  - apply Forall_forall. intros [id h] H%elem_of_map_to_list. cbn. destruct (so_history s Hs _ _ H) as (Hne & Hf & Hsrt).
    split_and!; [done|done|]. eapply Forall_impl; [exact Hf|]. intros r Hr. apply (ro_sequence _ _ _ Hr).
  - apply history_lists_NoDup, (so_sequences s Hs).
  - apply history_lists_NoDup. intros r r'. by apply history_versions.
  - intros r _. apply not_elem_of_empty.
  - intros r _. apply not_elem_of_empty.
Qed.

Lemma stored_rows_ok : for_all (check_row (lastApplied s) (history s)) (map_to_list (rows s)) = Ok tt.
Proof.
  apply for_all_Ok, Forall_forall. intros [id r] H%elem_of_map_to_list. unfold check_row. cbn [fst snd].
  assert (row_ok (lastApplied s) id r) as Hr.
  { pose proof (rows_ok s Hs) as Hf. rewrite Forall_forall in Hf. apply (Hf (id, r)). by apply elem_of_sorted_members. }
  pose proof (ro_sequence _ _ _ Hr). rewrite fail_if_false by (rewrite orb_false_iff, Z.eqb_neq, Z.ltb_ge; lia).
  rewrite (so_rows s Hs) in H. apply bind_Some in H as (l & Hl & Hlast). rewrite Hl. change (default [] (Some l)) with l.
  rewrite Hlast, Z.eqb_refl, !beq_refl. done.
Qed.

Lemma stored_heads_ok :
  for_all (fun kv : bytes * list Row => fail_if (bool_decide (rows s !! fst kv = None)) (ErrDurableCorrupt "history has no head"))
    (map_to_list (history s)) = Ok tt.
Proof.
  apply for_all_Ok, Forall_forall. intros [id l] H%elem_of_map_to_list. apply fail_if_Ok, bool_decide_eq_false_2. cbn [fst].
  rewrite (so_rows s Hs), H. cbn. destruct (so_history s Hs _ _ H) as (Hne & _). by rewrite last_None.
Qed.

(** The search over the whole history of a row. *)
Lemma search_result row before after : StronglySorted seq_lt (before ++ row :: after) ->
  existsb (same_version row) (before ++ row :: after) = true /\
  existsb (fun v => row_Sequence v <? row_Sequence row) (before ++ row :: after) = negb (bool_decide (before = [])).
Proof.
  intros Hsrt. apply StronglySorted_app in Hsrt as (Hb & _ & Ha). split.
  - apply existsb_exists. exists row. split; [apply in_app_iff; right; by left|]. unfold same_version. by rewrite Z.eqb_refl, !beq_refl.
  - destruct before as [|x before].
    + apply StronglySorted_inv in Ha as [_ Hf]. cbn [app existsb]. rewrite Z.ltb_irrefl. cbn [orb].
      apply not_true_iff_false. intros (y & Hy%list_elem_of_In & Hlt)%existsb_exists. rewrite Forall_forall in Hf. apply Hf in Hy.
      unfold seq_lt in Hy. bool_to_prop. lia.
    + cbn [app existsb]. rewrite bool_decide_eq_false_2 by done. apply orb_true_iff. left. apply Z.ltb_lt.
      apply (Hb x row); [left|left].
Qed.

Lemma stored_results_ok : for_all (check_stored_result (lastApplied s) (history s)) (map_to_list (results s)) = Ok tt.
Proof.
  apply for_all_Ok, Forall_forall. intros [id r] H%elem_of_map_to_list. pose proof (state_result_ok s id r Hs H) as Hrok.
  destruct (so_results s Hs _ _ H) as (Hid & _ & Hout). unfold check_stored_result.
  rewrite fail_if_false by (by rewrite Hid, beq_refl). unfold Succeeded, PreconditionFailed, VersionConflict.
  destruct Hout as [(E & before & after & Hh & Hrow & Hcr)|(E & Hrow & Hcr)].
  - rewrite E. rewrite bool_decide_eq_true_2 by done.
    destruct Hrok as [_ [(_ & Hseq & _)|([E'|E'] & _)]]; [|by rewrite E in E'..].
    assert (row_Table (res_Row r) = Table (res_Command r) /\ row_Key (res_Row r) = Key (res_Command r)) as [Et Ek] by by rewrite Hrow.
    rewrite Et, Ek, !beq_refl, Hh. change (default [] (Some ?l)) with l.
    rewrite fail_if_false by (rewrite !orb_false_iff, Z.eqb_neq, Z.ltb_ge; split_and!; done || lia).
    apply (so_history s Hs) in Hh as (_ & _ & Hsrt). destruct (search_result _ _ _ Hsrt) as [-> ->].
    rewrite fail_if_false by done. rewrite Hcr. by destruct (bool_decide (before = [])).
  - rewrite Hrow, Hcr. destruct E as [->| ->]; done.
Qed.
End checks.

Lemma load_state_ok s d : state_ok s -> is_u64 (generation s) -> state_stored (db d) s -> applied_index d = lastApplied s ->
  load_state d = Ok s.
Proof.
  intros Hs Hgen Hst Happ. unfold load_state.
  rewrite (load_generation_ok (generation s)); [|done| |]; cycle 1.
  { intros v H%scan_lookup. destruct (ss_generation _ _ Hst) as [Hg|[Hg _]]; congruence. }
  { destruct (ss_generation _ _ Hst) as [Hg|[_ ->]]; [right|by left]. eexists. by apply scan_lookup. }
  cbn [mbind result_bind]. rewrite (load_effects_all _ _ (effects s d)) by (by apply effects_Forall2). cbn [mbind result_bind].
  set (l := foldl add_effect no_loading (effects s d)).
  destruct (loaded_maps s d Hs Hst l) as (-> & -> & -> & -> & -> & ->).
  { apply (collected_all [] (effects s d) no_loading), collected_none. }
  rewrite stored_histories_ok by done. cbn [mbind result_bind].
  rewrite stored_rows_ok, stored_heads_ok, stored_results_ok by done. cbn [mbind result_bind].
  rewrite collectVersions_ok by done. cbn [map_err mbind result_bind].
  assert (forall (f : UUID -> result durable_error unit) (k : result durable_error logicalState), (forall id, id ∈ dom (results s) -> f id = Ok tt) ->
    (for_all f (elements (dom (results s)));; k) = k) as Hall.
  { intros f k Hf. assert (for_all f (elements (dom (results s))) = Ok tt) as ->; [|done].
    apply for_all_Ok, Forall_forall. intros id Hid%elem_of_elements. by apply Hf. }
  rewrite Hall by (intros id Hid%elem_of_dom; apply fail_if_Ok, bool_decide_eq_false_2; by intros E; rewrite E in Hid; destruct Hid).
  rewrite Hall by (intros id Hid; apply fail_if_Ok; by rewrite bool_decide_eq_true_2).
  rewrite Happ, Z.eqb_refl. rewrite fail_if_false by done. by destruct s.
Qed.
End records.
