(* ===== verification/DurableApply.v ===== *)
(** The durable application of committed entries: the batch of an application
    turns the records of a state into those of the next one, however the
    application ends the records are of one of the two, and the fields of the
    store follow them. *)

From Stdlib Require Import ZArith Lia Sorting.Sorted.
From stdpp Require Import base list gmap sorting.
From S2P Require Import Prelude GoStd Codec Uuidv7 Coordinates EngineOps Fs Range Command State Snapshot Disk DiskLog DiskLoad DiskCrash Durable DurableLoad.

Local Open Scope Z_scope.

(** ** Records put into a map *)

Lemma put_records_notin records : forall m key, key ∉ map fst records -> put_records m records !! key = m !! key.
Proof.
  unfold put_records. induction records as [|[k v] records IH]; intros m key Hn; [done|]. cbn [map fst fold_left] in *.
  apply not_elem_of_cons in Hn as [Hne Hn]. rewrite IH by done. by rewrite lookup_insert_ne.
Qed.

Lemma put_records_in m records key : key ∈ map fst records -> exists v, (key, v) ∈ records /\ put_records m records !! key = Some v.
Proof.
  revert m. unfold put_records. induction records as [|[k v] records IH]; intros m Hin; [by apply not_elem_of_nil in Hin|].
  cbn [map fst fold_left] in *. destruct (decide (key ∈ map fst records)) as [H|H].
  - destruct (IH (<[k := v]> m) H) as (v' & Hv' & E). exists v'. split; [by right|done].
  - apply elem_of_cons in Hin as [->|?]; [|done]. exists v. split; [left|].
    change (put_records (<[k := v]> m) records !! k = Some v). rewrite put_records_notin by done. apply lookup_insert_eq.
Qed.

Lemma put_records_inv m records key value : put_records m records !! key = Some value ->
  (key, value) ∈ records \/ key ∉ map fst records /\ m !! key = Some value.
Proof.
  intros H. destruct (decide (key ∈ map fst records)) as [Hin|Hn].
  - destruct (put_records_in m records key Hin) as (v & Hv & E). left. congruence.
  - right. split; [done|]. by rewrite put_records_notin in H.
Qed.

(** ** Records by what they contribute *)

Section members.
Context {canon : Canonicalizer} {pb : Protobuf}.

(** The key below the keyspace, the value, and membership in a state. *)
Definition effect_part (e : effect) : bytes :=
  match e with ERow _ _ => lit "row/" | EHistory _ _ => lit "history/" | EResult _ _ => lit "result/" | _ => lit "dedupe/" end.
Definition effect_rest (e : effect) : bytes :=
  match e with
  | ERow _ row => tuple (row_Table row) (row_Key row)
  | EHistory _ row => tuple (row_Table row) (row_Key row) ++ be 8 (row_Sequence row)
  | EResult id _ => id
  | EDedupe id => id ++ [x00]
  | _ => []
  end.
Definition effect_key (gen : Z) (e : effect) : bytes := space gen ++ effect_part e ++ effect_rest e.
Definition effect_value (e : effect) : bytes :=
  wrapDisk x0a match e with
               | ERow _ row | EHistory _ row => row_bytes row
               | EResult _ r => result_bytes r
               | _ => [x01]
               end.
Definition effect_record (gen : Z) (e : effect) : bytes * bytes := (effect_key gen e, effect_value e).

Definition member (s : logicalState) (e : effect) : Prop :=
  match e with
  | ERow id row => rows s !! id = Some row
  | EHistory id row => exists l, history s !! id = Some l /\ row ∈ l
  | EResult id r => results s !! id = Some r
  | EDedupe id => is_Some (results s !! id)
  | _ => False
  end.

Lemma record_iff s key value e :
  logical_record s key value e <-> key = effect_key (generation s) e /\ value = effect_value e /\ member s e.
Proof.
  split.
  - intros [id row H|id l row H Hin|id r H|id r H]; (split; [|split; [done|cbn; eauto]]); unfold effect_key; cbn [effect_part effect_rest].
    + done.
    + done.
    + apply resultKeyAt_space.
    + apply dedupeKeyAt_space.
  - intros (-> & -> & H). destruct e as [id row|id row|id r|id|n|]; try done; unfold effect_key; cbn [effect_part effect_rest effect_value].
    + by apply lr_row.
    + destruct H as (l & Hl & Hin). by eapply lr_version.
    + rewrite <- resultKeyAt_space. by apply lr_result.
    + destruct H as [r Hr]. rewrite <- dedupeKeyAt_space. by eapply lr_dedupe.
Qed.

Lemma rowID_inj t k t' k' : validTable t = true -> validKey k = true -> validTable t' = true -> validKey k' = true ->
  rowID t k = rowID t' k' -> t = t' /\ k = k'.
Proof.
  intros Ht%validTable_len Hk%validKey_len Ht'%validTable_len Hk'%validKey_len E.
  unfold maxCommandTable, maxCommandKey, Coordinates.MaxTableBytes, Coordinates.MaxKeyBytes in *. unfold rowID in E.
  apply app_inj_1 in E as [E1 E]; [|by rewrite !length_be]. apply app_inj_1 in E as [_ E]; [|by rewrite !length_be].
  apply (f_equal un_be) in E1. rewrite !un_be_be_small in E1 by (cbn; lia). apply app_inj_1 in E; [done|]. unfold len in E1. lia.
Qed.

Lemma tuple_inj t k t' k' : validTable t = true -> validKey k = true -> validTable t' = true -> validKey k' = true ->
  tuple t k = tuple t' k' -> t = t' /\ k = k'.
Proof.
  intros Ht Hk Ht' Hk' E. pose proof (decodeStateCoordinates_ok t k Ht Hk) as H1.
  pose proof (decodeStateCoordinates_ok t' k' Ht' Hk') as H2. rewrite E, H2 in H1. by injection H1.
Qed.

Lemma part_inj e e' x y : effect_part e ++ x = effect_part e' ++ y -> effect_part e = effect_part e' /\ x = y.
Proof.
  intros H. assert (effect_part e = effect_part e') as E; [|split; [done|]; rewrite E in H; by apply app_inv_head in H].
  assert (HasPrefix (effect_part e ++ x) (effect_part e') = true) as Hp by (rewrite H; apply HasPrefix_app).
  destruct (decide (effect_part e = effect_part e')) as [|Hne]; [done|]. exfalso.
  destruct e, e'; cbn in Hne, Hp; try done.
Qed.

(** A key belongs to one member. *)
Lemma member_inj s e e' : state_ok s -> member s e -> member s e' ->
  effect_key (generation s) e = effect_key (generation s) e' -> e = e'.
Proof.
  intros Hs He He' Hk%app_inv_head. apply part_inj in Hk as [Hpart Hrest].
  assert (forall id row, rows s !! id = Some row -> row_ok (lastApplied s) id row) as Hrow.
  { intros id row H. pose proof (rows_ok s Hs) as Hf. rewrite Forall_forall in Hf. apply (Hf (id, row)). by apply elem_of_sorted_members. }
  assert (forall id l row, history s !! id = Some l -> row ∈ l -> row_ok (lastApplied s) id row) as Hver.
  { intros id l row H Hin. apply (so_history s Hs) in H as (_ & Hf & _). rewrite Forall_forall in Hf. by apply Hf. }
  destruct e as [id row|id row|id r|id|n|], e' as [id' row'|id' row'|id' r'|id'|n'|]; try done; cbn [member effect_rest] in He, He', Hrest.
  - pose proof (Hrow _ _ He) as R. pose proof (Hrow _ _ He') as R'. apply tuple_inj in Hrest as [E1 E2]; [|apply R|apply R|apply R'|apply R'].
    pose proof (ro_id _ _ _ R). pose proof (ro_id _ _ _ R'). congruence.
  - destruct He as (l & Hl & Hin), He' as (l' & Hl' & Hin'). pose proof (Hver _ _ _ Hl Hin) as R. pose proof (Hver _ _ _ Hl' Hin') as R'.
    apply app_inj_2 in Hrest as [E1 E2]; [|by rewrite !length_be]. apply tuple_inj in E1 as [E3 E4]; [|apply R|apply R|apply R'|apply R'].
    pose proof (ro_id _ _ _ R). pose proof (ro_id _ _ _ R'). pose proof (ro_sequence _ _ _ R). pose proof (ro_sequence _ _ _ R').
    pose proof (so_last s Hs). unfold max_uint64 in *.
    assert (row_Sequence row = row_Sequence row').
    { rewrite <- (un_be_be_small 8 (row_Sequence row)), E2, un_be_be_small by (cbn; lia). done. }
    assert (row = row') as -> by (apply (so_sequences s Hs); [by exists id, l|by exists id', l'|done]). congruence.
  - subst id'. congruence.
  - apply app_inv_tail in Hrest as ->. done.
Qed.

(** ** The batch of an application *)

Lemma put_ops b key value b' : put b key value = Ok b' -> ops b' = ops b ++ map put_of [(key, value)].
Proof.
  unfold put. destruct (Batch_Put b key value) as [b1 [u|e]] eqn:Hp; [|done]. intros [= <-]. by apply Batch_Put_ops in Hp.
Qed.

Lemma put_each_ops {A} (f : Batch -> A -> result durable_error Batch) (records : A -> list (bytes * bytes)) l :
  (forall x b b', x ∈ l -> f b x = Ok b' -> ops b' = ops b ++ map put_of (records x)) ->
  forall b b', put_each f b l = Ok b' -> ops b' = ops b ++ map put_of (concat (map records l)).
Proof.
  induction l as [|x l IH]; intros Hf b b' H; cbn [put_each map concat] in *; [injection H as <-; by rewrite app_nil_r|].
  apply bind_Ok in H as (b1 & H1 & H2). apply Hf in H1; [|left]. apply IH in H2; [|intros y ? ? ?; apply Hf; by right].
  rewrite H2, H1, map_app, <- app_assoc. done.
Qed.

Definition row_effects_of (row : Row) : list effect := [ERow (own_id row) row].
Definition version_effects_of (row : Row) : list effect := [EHistory (own_id row) row].
Definition result_effects_of (kr : UUID * Result) : list effect := [EResult (fst kr) (snd kr); EDedupe (fst kr)].

(** The members an application adds or changes. *)
Definition new_effects (s next : logicalState) : list effect :=
  concat (map row_effects_of (changed_rows s next)) ++ concat (map result_effects_of (new_results s next))
  ++ concat (map version_effects_of (new_versions s next)).

Definition conf_records (conf : option ConfState) (confIndex : Z) : list (bytes * bytes) :=
  match conf with
  | None => []
  | Some c => [(kConfState, wrapDisk x03 (marshal_conf c)); (kConfIndex, wrapDisk x08 (be 8 confIndex))]
  end.

Definition apply_records (s next : logicalState) (conf : option ConfState) (confIndex : Z) : list (bytes * bytes) :=
  map (effect_record (generation s)) (new_effects s next)
  ++ [(kApplied, wrapDisk x02 (be 8 (lastApplied next))); (kStateMeta, wrapDisk x0a (be 8 (lastApplied next)))]
  ++ conf_records conf confIndex.

Lemma put_row_record_ops gen last id row b b' : row_ok last id row -> put_row_record gen b row = Ok b' ->
  ops b' = ops b ++ map put_of (map (effect_record gen) (row_effects_of row)).
Proof.
  intros Hr. unfold put_row_record. rewrite stateKeyAt_ok by apply Hr. rewrite (encodeStateRow_ok _ _ _ Hr).
  cbn [map_err mbind result_bind]. apply put_ops.
Qed.

Lemma put_version_record_ops gen last id row b b' : row_ok last id row -> put_version_record gen b row = Ok b' ->
  ops b' = ops b ++ map put_of (map (effect_record gen) (version_effects_of row)).
Proof.
  intros Hr. unfold put_version_record. rewrite historyKeyAt_ok by apply Hr. rewrite (encodeStateRow_ok _ _ _ Hr).
  cbn [map_err mbind result_bind]. apply put_ops.
Qed.

Lemma put_result_records_ops gen last kr b b' : result_ok last (snd kr) -> put_result_records gen b kr = Ok b' ->
  ops b' = ops b ++ map put_of (map (effect_record gen) (result_effects_of kr)).
Proof.
  intros Hr. unfold put_result_records. rewrite (encodeResult_ok _ _ Hr). cbn [map_err mbind result_bind].
  intros (b1 & H1%put_ops & H2%put_ops)%bind_Ok. rewrite H2, H1, resultKeyAt_space, dedupeKeyAt_space, <- app_assoc. done.
Qed.

Lemma concat_map_map {A B C} (g : B -> C) (f : A -> list B) l : concat (map (fun x => map g (f x)) l) = map g (concat (map f l)).
Proof. induction l as [|x l IH]; [done|]. cbn. by rewrite map_app, IH. Qed.

Section next.
Context (s next : logicalState) (Hs : state_ok s) (Hnext : state_ok next).
Context (Hgen : generation next = generation s) (Hresults : results s ⊆ results next).
Context (Hgrow : forall id l, history s !! id = Some l -> exists l', history next !! id = Some (l ++ l')).

Lemma changed_row row : row ∈ changed_rows s next <->
  exists id, rows next !! id = Some row /\
    match rows s !! id with None => True | Some old => row_Sequence old <> row_Sequence row \/ row_Value old <> row_Value row end.
Proof.
  unfold changed_rows. rewrite list_elem_of_fmap. split.
  - intros ([id row'] & -> & H). apply list_elem_of_In, filter_In in H as [H Hc]. apply list_elem_of_In, elem_of_map_to_list in H.
    exists id. cbn [fst snd] in *. split; [done|]. destruct (rows s !! id) as [old|]; [|done].
    rewrite orb_true_iff, !negb_true_iff, Z.eqb_neq in Hc. destruct Hc as [?|Hc]; [by left|right]. intros E. by rewrite E, beq_refl in Hc.
  - intros (id & H & Hc). exists (id, row). split; [done|]. apply list_elem_of_In, filter_In. cbn [fst snd].
    split; [by apply list_elem_of_In, elem_of_map_to_list|]. destruct (rows s !! id) as [old|]; [|done].
    rewrite orb_true_iff, !negb_true_iff, Z.eqb_neq. destruct Hc as [?|Hc]; [by left|right]. by apply bool_decide_eq_false_2.
Qed.

Lemma new_result kr : kr ∈ new_results s next <-> results next !! fst kr = Some (snd kr) /\ results s !! fst kr = None.
Proof.
  unfold new_results. destruct kr as [id r]. rewrite list_elem_of_In, filter_In, <- list_elem_of_In, elem_of_map_to_list. cbn [fst snd].
  by rewrite bool_decide_eq_true.
Qed.

Lemma new_version row : row ∈ new_versions s next <->
  exists id l, history next !! id = Some l /\ row ∈ drop (length (default [] (history s !! id))) l.
Proof.
  unfold new_versions. rewrite list_elem_of_In, in_concat. split.
  - intros (x & ([id l] & <- & H)%in_map_iff & Hin). exists id, l. split; [by apply elem_of_map_to_list, list_elem_of_In|by apply list_elem_of_In].
  - intros (id & l & H & Hin). eexists. split; [|by apply list_elem_of_In]. apply in_map_iff. exists (id, l).
    split; [done|]. by apply list_elem_of_In, elem_of_map_to_list.
Qed.

Lemma next_row id row : rows next !! id = Some row -> row_ok (lastApplied next) id row /\ in_history next row.
Proof.
  intros H. rewrite (so_rows next Hnext) in H. apply bind_Some in H as (l & Hl & Hlast). apply last_Some_elem_of in Hlast.
  split; [|by exists id, l]. apply (so_history next Hnext) in Hl as (_ & Hf & _). rewrite Forall_forall in Hf. by apply Hf.
Qed.

Lemma apply_batch_ops d conf confIndex b : apply_batch d s next conf confIndex = Ok b -> ops b = map put_of (apply_records s next conf confIndex).
Proof.
  unfold apply_batch. intros (b1 & H1 & (b2 & H2 & (b3 & H3 & (b4 & H4 & (b5 & H5 & H)%bind_Ok)%bind_Ok)%bind_Ok)%bind_Ok)%bind_Ok.
  apply (put_each_ops _ (fun r => map (effect_record (generation s)) (row_effects_of r))) in H1.
  2:{ intros row c c' (id & Hr & _)%changed_row. apply next_row in Hr as [Hr _]. by apply (put_row_record_ops _ _ _ _ _ _ Hr). }
  apply (put_each_ops _ (fun r => map (effect_record (generation s)) (result_effects_of r))) in H2.
  2:{ intros [id r] c c' [Hr _]%new_result. apply (state_result_ok next) in Hr; [|done]. by apply (put_result_records_ops _ (lastApplied next)). }
  apply (put_each_ops _ (fun r => map (effect_record (generation s)) (version_effects_of r))) in H3.
  2:{ intros row c c' (id & l & Hl & Hin)%new_version. apply (so_history next Hnext) in Hl as (_ & Hf & _).
      rewrite Forall_forall in Hf. apply (put_version_record_ops _ (lastApplied next) id). apply Hf.
      by eapply subseteq_drop. }
  apply put_ops in H4. apply put_ops in H5. rewrite !concat_map_map in *.
  assert (ops b = ops b5 ++ map put_of (conf_records conf confIndex)) as H6.
  { destruct conf as [c|]; [|injection H as <-; by rewrite app_nil_r]. apply bind_Ok in H as (u & _ & H).
    apply bind_Ok in H as (b6 & H6%put_ops & H7%put_ops). rewrite H7, H6, <- app_assoc. done. }
  rewrite H6, H5, H4, H3, H2, H1. unfold apply_records, new_effects. rewrite !map_app, <- !app_assoc. done.
Qed.

(** The members of the next state: those of the batch, and those it had. *)
Lemma new_effect_member e : e ∈ new_effects s next -> member next e.
Proof.
  unfold new_effects. rewrite !elem_of_app, !list_elem_of_In, !in_concat.
  intros [(x & (row & <- & H)%in_map_iff & [<-|[]])|[(x & (kr & <- & H)%in_map_iff & [<-|[<-|[]]])|(x & (row & <- & H)%in_map_iff & [<-|[]])]];
    apply list_elem_of_In in H.
  - apply changed_row in H as (id & Hr & _). destruct (next_row id row Hr) as [Hok _]. cbn [member]. unfold own_id. by rewrite <- (ro_id _ _ _ Hok).
  - apply new_result in H as [H _]. done.
  - apply new_result in H as [H _]. cbn. eauto.
  - apply new_version in H as (id & l & Hl & Hin%subseteq_drop). exists l. split; [|done].
    apply (so_history next Hnext) in Hl as Hf. destruct Hf as (_ & Hf & _). rewrite Forall_forall in Hf. specialize (Hf row Hin).
    unfold own_id. by rewrite <- (ro_id _ _ _ Hf).
Qed.

Lemma in_new_effects_row row : row ∈ changed_rows s next -> ERow (own_id row) row ∈ new_effects s next.
Proof.
  intros H. unfold new_effects. apply elem_of_app. left. apply list_elem_of_In, in_concat. exists (row_effects_of row).
  split; [apply in_map, list_elem_of_In, H|by left].
Qed.
Lemma in_new_effects_result id r : (id, r) ∈ new_results s next -> EResult id r ∈ new_effects s next /\ EDedupe id ∈ new_effects s next.
Proof.
  intros H. unfold new_effects. rewrite !elem_of_app. split; right; left; apply list_elem_of_In, in_concat; exists (result_effects_of (id, r));
    (split; [apply in_map, list_elem_of_In, H|]); [by left|right; by left].
Qed.
Lemma in_new_effects_version row : row ∈ new_versions s next -> EHistory (own_id row) row ∈ new_effects s next.
Proof.
  intros H. unfold new_effects. rewrite !elem_of_app. right. right. apply list_elem_of_In, in_concat. exists (version_effects_of row).
  split; [apply in_map, list_elem_of_In, H|by left].
Qed.

Lemma in_history_grows r : in_history s r -> in_history next r.
Proof. intros (id & l & H & Hin). destruct (Hgrow id l H) as [l' H']. exists id, (l ++ l'). split; [done|]. apply elem_of_app. by left. Qed.

Lemma member_next e : member next e -> e ∈ new_effects s next \/ member s e.
Proof.
  destruct e as [id row|id row|id r|id|n|]; cbn; try done.
  - intros H. destruct (next_row id row H) as [Hok Hin]. pose proof (ro_id _ _ _ Hok) as Hid.
    destruct (rows s !! id) as [old|] eqn:Hold.
    + destruct (decide (row_Sequence old = row_Sequence row)) as [E|E].
      * right. f_equal. apply (so_sequences next Hnext); [|done|done]. apply in_history_grows.
        rewrite (so_rows s Hs) in Hold. apply bind_Some in Hold as (l & Hl & Hlast). exists id, l. split; [done|by apply last_Some_elem_of].
      * left. rewrite Hid. apply in_new_effects_row, changed_row. exists id. rewrite Hold. auto.
    + left. rewrite Hid. apply in_new_effects_row, changed_row. exists id. by rewrite Hold.
  - intros (l & Hl & Hin). assert (id = own_id row) as Hid.
    { apply (so_history next Hnext) in Hl as (_ & Hf & _). rewrite Forall_forall in Hf. by apply (ro_id _ _ _ (Hf row Hin)). }
    rewrite <- (take_drop (length (default [] (history s !! id))) l) in Hin. apply elem_of_app in Hin as [Hin|Hin].
    + right. destruct (history s !! id) as [l0|] eqn:H0; [|by apply not_elem_of_nil in Hin]. exists l0. split; [done|].
      destruct (Hgrow id l0 H0) as [l' H']. assert (l = l0 ++ l') as -> by congruence. cbn [default from_option] in Hin.
      by rewrite take_app_length in Hin.
    + left. rewrite Hid. apply in_new_effects_version, new_version. exists id, l. done.
  - intros H. destruct (results s !! id) as [r0|] eqn:H0.
    + right. pose proof (lookup_weaken _ _ _ _ H0 Hresults). congruence.
    + left. by apply in_new_effects_result, new_result.
  - intros [r H]. destruct (results s !! id) as [r0|] eqn:H0; [by right; exists r0|]. left. by apply (in_new_effects_result id r), new_result.
Qed.

Lemma member_kept e : member s e -> member next e \/ exists e', e' ∈ new_effects s next /\ effect_key (generation s) e' = effect_key (generation s) e.
Proof.
  destruct e as [id row|id row|id r|id|n|]; cbn [member]; try done.
  - intros H. pose proof H as Hold. rewrite (so_rows s Hs) in H. apply bind_Some in H as (l & Hl & Hlast).
    assert (row_ok (lastApplied s) id row) as Hok.
    { apply (so_history s Hs) in Hl as (_ & Hf & _). rewrite Forall_forall in Hf. by apply Hf, last_Some_elem_of. }
    destruct (Hgrow id l Hl) as [l' Hl']. destruct (rows next !! id) as [row'|] eqn:Hr'.
    2:{ rewrite (so_rows next Hnext), Hl' in Hr'. cbn in Hr'. apply last_None, app_nil in Hr' as [-> _]. done. }
    destruct (member_next (ERow id row')) as [Hin|Hm]; [done| |left; cbn in Hm; congruence].
    right. exists (ERow id row'). split; [done|]. destruct (next_row id row' Hr') as [Hok' _].
    pose proof (ro_id _ _ _ Hok) as E. pose proof (ro_id _ _ _ Hok') as E'. rewrite E in E'.
    apply rowID_inj in E' as [E1 E2]; [|apply Hok|apply Hok|apply Hok'|apply Hok']. unfold effect_key. cbn [effect_part effect_rest]. by rewrite E1, E2.
  - intros (l & Hl & Hin). destruct (Hgrow id l Hl) as [l' Hl']. left. exists (l ++ l'). split; [done|]. apply elem_of_app. by left.
  - intros H. left. by apply (lookup_weaken _ _ _ _ H).
  - intros [r H]. left. exists r. by apply (lookup_weaken _ _ _ _ H).
Qed.

(** ** The records of the next state *)

Lemma record_in_recs conf confIndex key value : (key, value) ∈ apply_records s next conf confIndex ->
  (exists e, e ∈ new_effects s next /\ key = effect_key (generation s) e /\ value = effect_value e)
  \/ (key = kStateMeta /\ value = wrapDisk x0a (be 8 (lastApplied next)))
  \/ (key = kApplied /\ value = wrapDisk x02 (be 8 (lastApplied next)))
  \/ (key, value) ∈ conf_records conf confIndex.
Proof.
  unfold apply_records. rewrite !elem_of_app, elem_of_cons, list_elem_of_singleton.
  intros [(e & [= -> ->] & He)%list_elem_of_fmap|[[[= -> ->]|[= -> ->]]|H]]; eauto 6.
Qed.

Lemma effect_in_space gen e : member next e -> in_space gen (effect_key gen e) = true.
Proof.
  intros He. unfold in_space, effect_key. apply existsb_exists. exists (effect_part e). split; [destruct e; cbn; tauto|].
  rewrite app_assoc. apply HasPrefix_app.
Qed.

Lemma conf_record_key conf confIndex key value : (key, value) ∈ conf_records conf confIndex -> key = kConfState \/ key = kConfIndex.
Proof.
  destruct conf as [c|]; cbn [conf_records]; [|by intros ?%not_elem_of_nil].
  rewrite elem_of_cons, list_elem_of_singleton. intros [[= -> _]|[= -> _]]; auto.
Qed.

Lemma in_space_record conf confIndex gen key value : (key, value) ∈ apply_records s next conf confIndex -> in_space gen key = true ->
  exists e, e ∈ new_effects s next /\ key = effect_key (generation s) e /\ value = effect_value e.
Proof.
  intros [H|[[-> _]|[[-> _]|H]]]%record_in_recs Hin; [done| | |].
  - by rewrite meta_outside in Hin.
  - by rewrite outside_space in Hin.
  - apply conf_record_key in H as [->| ->]; by rewrite outside_space in Hin.
Qed.

Lemma effect_key_known gen e : member next e -> isAnyLogicalKey (effect_key gen e) = true.
Proof.
  intros He. unfold effect_key, space. destruct (gen =? 0).
  - destruct e; try done.
  - unfold isAnyLogicalKey. rewrite <- !app_assoc. rewrite (HasPrefix_app kStateGenerations). by rewrite !orb_true_r.
Qed.

Lemma state_stored_next m conf confIndex : state_stored m s -> state_stored (put_records m (apply_records s next conf confIndex)) next.
Proof.
  intros Hst. set (recs := apply_records s next conf confIndex).
  assert (forall e, e ∈ new_effects s next -> effect_key (generation s) e ∈ map fst recs) as Hnew.
  { intros e He. apply list_elem_of_fmap. exists (effect_record (generation s) e). split; [done|]. unfold recs, apply_records.
    apply elem_of_app. left. by apply list_elem_of_fmap_2. }
  split; rewrite ?Hgen.
  - intros key value [Hin|[Hnot Hm]]%put_records_inv Hsp.
    + destruct (in_space_record _ _ _ _ _ Hin Hsp) as (e & He & -> & ->). exists e. apply record_iff. rewrite Hgen.
      split_and!; [done|done|by apply new_effect_member].
    + destruct (ss_records _ _ Hst key value Hm Hsp) as [e He]. apply record_iff in He as (-> & -> & He).
      destruct (member_kept e He) as [Hn|(e' & He' & Hk)]; [exists e; apply record_iff; by rewrite Hgen|].
      exfalso. apply Hnot. rewrite <- Hk. by apply Hnew.
  - intros key value e (-> & -> & He)%record_iff. rewrite Hgen.
    destruct (decide (effect_key (generation s) e ∈ map fst recs)) as [Hin|Hnot].
    + destruct (put_records_in m recs _ Hin) as (v & Hv & ->).
      destruct (in_space_record _ _ _ _ _ Hv (effect_in_space _ _ He)) as (e' & He' & Hk & ->). do 2 f_equal.
      apply (member_inj next); [done|by apply new_effect_member|done|by rewrite Hgen].
    + rewrite put_records_notin by done. destruct (member_next e He) as [Hn|Hm]; [by apply Hnew in Hn|].
      apply (ss_present _ _ Hst _ _ e). by apply record_iff.
  - left. assert (kStateMeta ∈ map fst recs) as Hin.
    { apply list_elem_of_fmap. exists (kStateMeta, wrapDisk x0a (be 8 (lastApplied next))). split; [done|]. unfold recs, apply_records.
      rewrite !elem_of_app. right. left. right. left. }
    destruct (put_records_in m recs _ Hin) as (v & Hv & ->). f_equal.
    apply record_in_recs in Hv as [(e & He & Hk & _)|[[_ ->]|[[? _]|H]]]; [|done|done|].
    + pose proof (effect_in_space (generation s) e (new_effect_member e He)) as Hsp. by rewrite <- Hk, meta_outside in Hsp.
    + by apply conf_record_key in H as [?|?].
  - rewrite put_records_notin; [apply Hst|]. intros ([k v] & Hk & Hv)%list_elem_of_fmap. cbn [fst] in Hk. subst k.
    apply record_in_recs in Hv as [(e & He & Hk & _)|[[? _]|[[? _]|H]]]; [|done|done|].
    + pose proof (effect_in_space (generation s) e (new_effect_member e He)) as Hsp. by rewrite <- Hk, generation_outside in Hsp.
    + by apply conf_record_key in H as [?|?].
  - intros key value [Hin|[_ Hm]]%put_records_inv; [|by apply (ss_known _ _ Hst key value)].
    apply record_in_recs in Hin as [(e & He & -> & _)|[[-> _]|[[-> _]|H]]]; [|done|done|].
    + by rewrite effect_key_known, orb_true_r by (by apply new_effect_member).
    + by apply conf_record_key in H as [->| ->].
Qed.
End next.

(** ** Application *)

Lemma apply_entry_generation a e a' : apply_entry a e = Ok a' -> generation (app_state a') = generation (app_state a).
Proof.
  unfold apply_entry. intros (u & _ & H)%bind_Ok. destruct (entry_Normal e && _); [|by injection H as <-].
  apply bind_Ok in H as (c & _ & H). destruct (results (app_state a) !! OperationID c) as [existing|].
  - apply bind_Ok in H as (stored & _ & H). destruct (negb _); by injection H as <-.
  - unfold execute in H. destruct (bool_decide _); [by injection H as <-|]. destruct (condition_fails _ _); by injection H as <-.
Qed.

Lemma apply_loop_generation entries : forall a a', apply_loop a entries = Ok a' -> generation (app_state a') = generation (app_state a).
Proof.
  induction entries as [|e entries IH]; intros a a'; cbn [apply_loop]; [by intros [= <-]|].
  intros (a1 & H1%apply_entry_generation & H2%IH)%bind_Ok. congruence.
Qed.

(** What an application of entries leaves of the state it started from. *)
Lemma apply_entries_next s entries a : state_ok s -> lastApplied s + len entries <= max_uint64 -> apply_entries s entries = Ok a ->
  state_ok (app_state a) /\ lastApplied (app_state a) = lastApplied s + len entries /\ generation (app_state a) = generation s
  /\ results s ⊆ results (app_state a)
  /\ forall id l, history s !! id = Some l -> exists l', history (app_state a) !! id = Some (l ++ l').
Proof.
  intros Hs Hmax H. unfold apply_entries in H. pose proof (apply_loop_generation _ _ _ H) as Hg.
  apply apply_loop_grows in H as Hgrow. destruct Hgrow as [[H1 H2] _].
  apply apply_loop_ok in H as [H3 H4]; cbn [app_state] in *; rewrite clone_id in *; try done.
Qed.

(** The store keeps the state: its records are those of the state, and it
    knows how far the state has been applied. *)
Record durable_state (d : diskStore) (s : logicalState) : Prop := {
  du_ok : state_ok s;
  du_generation : is_u64 (generation s);
  du_records : state_stored (db d) s;
  du_applied : applied_index d = lastApplied s
}.

Lemma durable_state_loads d s : durable_state d s -> load_state d = Ok s.
Proof. intros [H1 H2 H3 H4]. by apply load_state_ok. Qed.

(** The store after an application: the batch written and the fields set. *)
Definition applied_store (d : diskStore) (s next : logicalState) (conf : option ConfState) (confIndex : Z) : diskStore :=
  publish_apply (set_db d (put_records (db d) (apply_records s next conf confIndex)) (faults d) (failed d)) next conf confIndex.

Lemma apply_cases d s entries conf confIndex : state_ok s -> lastApplied s + len entries <= max_uint64 -> entries <> [] ->
  match apply d s entries conf confIndex with
  | (d', s', Ok (rs, cs)) => exists a, apply_entries s (map to_entry entries) = Ok a /\ s' = app_state a /\ rs = app_results a
      /\ cs = app_conflicts a /\ db d' = put_records (db d) (apply_records s (app_state a) conf confIndex)
      /\ applied_index d' = lastApplied s' /\ (forall c, conf = Some c -> validateConfState (Some c) = None /\ confIndex <> 0)
  | (d', s', Fail _) => s' = s /\ (db d' = db d \/ exists a, apply_entries s (map to_entry entries) = Ok a
      /\ db d' = put_records (db d) (apply_records s (app_state a) conf confIndex)
      /\ (forall c, conf = Some c -> validateConfState (Some c) = None /\ confIndex <> 0))
  end.
Proof.
  intros Hs Hmax Hne. unfold apply. destruct (failed d); [auto|].
  destruct (match conf with Some c => _ | None => false end) eqn:Hconf; [auto|].
  destruct (apply_entries s (map to_entry entries)) as [a|e] eqn:Ha; [|auto].
  pose proof Ha as Hnext. apply apply_entries_next in Hnext as (Hok & _ & Hgen & Hres & Hgrow); [|done|by unfold len in *; rewrite length_map].
  destruct (apply_batch d s (app_state a) conf confIndex) as [b|e] eqn:Hb; [|auto].
  assert (forall c, conf = Some c -> validateConfState (Some c) = None /\ confIndex <> 0) as Hvalid.
  { intros c ->. split; [apply bool_decide_eq_false, eq_None_not_Some in Hconf; done|].
    unfold apply_batch in Hb. do 5 (apply bind_Ok in Hb as (? & _ & Hb)). apply bind_Ok in Hb as (u & Hu & _).
    apply fail_if_Ok, Z.eqb_neq in Hu. done. }
  apply apply_batch_ops in Hb; [|done..]. rewrite bool_decide_eq_false_2 by done.
  pose proof (applyBatch_db d b "state-apply") as Hdb. rewrite Hb, apply_puts in Hdb.
  destruct (applyBatch d b "state-apply") as [d' [[]|e]].
  - exists a. split_and!; try done.
    + rewrite <- Hdb. unfold publish_apply. by destruct conf.
    + unfold publish_apply. by destruct conf.
  - split; [done|]. destruct Hdb as [Hdb|Hdb]; [by left|right]. exists a. done.
Qed.
End members.
