(* ===== verification/DurableRestart.v ===== *)
(** A replica's restart: the storage adapter and the row state are opened from
    the same records, after an application of committed entries that returned,
    failed or was cut short. *)

From Stdlib Require Import ZArith Lia Sorting.Sorted.
From stdpp Require Import base list gmap sorting.
From S2P Require Import Prelude GoStd Codec Uuidv7 Coordinates EngineOps Fs Manifest Range Command State Snapshot Disk DiskLog DiskLoad DiskCrash.
From S2P Require Import Durable DurableLoad DurableApply.

Local Open Scope Z_scope.

Section restart.
Context {canon : Canonicalizer} {pb : Protobuf} {laws : ProtobufLaws}.

(** A membership the wire format carries. *)
Definition conf_ok (conf : option ConfState) (confIndex : Z) : Prop :=
  match conf with None => True | Some c => conf_wire c /\ fits (marshal_conf c) /\ is_u64 confIndex end.

Section applied.
Context (d : diskStore) (s next : logicalState) (conf : option ConfState) (confIndex : Z).
Context (Hs : state_ok s) (Hnext : state_ok next) (Hgen : generation next = generation s) (Hresults : results s ⊆ results next).
Context (Hgrow : forall id l, history s !! id = Some l -> exists l', history next !! id = Some (l ++ l')).
Context (Hconf : conf_ok conf confIndex).

Lemma effect_value_unwraps e : member next e -> exists payload, unwrapDisk (effect_value e) x0a = Some payload.
Proof.
  intros He. unfold effect_value. eexists. apply unwrapDisk_wrapDisk. destruct e as [id row|id row|id r|id|n|]; try done; cbn [member] in He.
  - destruct (next_row next Hnext id row He) as [Hr _]. by apply (row_fits _ _ _ Hr).
  - destruct He as (l & Hl & Hin). apply (so_history next Hnext) in Hl as (_ & Hf & _). rewrite Forall_forall in Hf.
    by apply (row_fits _ _ _ (Hf row Hin)).
  - pose proof (state_result_ok next id r Hnext He) as Hr. pose proof (len_result_row _ _ Hr) as [Hl _].
    pose proof (len_command_bytes _ (proj1 Hr)). unfold result_bytes. rewrite !len_app, !len_be. change (len [stateFormat; _; _]) with 3. lia.
Qed.

Lemma not_recorded key : HasPrefix key kState = false -> key <> kApplied -> conf = None \/ key <> kConfState /\ key <> kConfIndex ->
  key ∉ map fst (apply_records s next conf confIndex).
Proof.
  intros Hp H1 H2 ([k v] & Hk & Hv)%list_elem_of_fmap. cbn [fst] in Hk. subst k.
  apply record_in_recs in Hv as [(e & _ & -> & _)|[[-> _]|[[-> _]|H]]]; [|done|done|].
  - unfold effect_key in Hp. by rewrite space_key in Hp.
  - destruct H2 as [->|[H2 H3]]; [by apply not_elem_of_nil in H|by apply conf_record_key in H as [->| ->]].
Qed.

Lemma recorded_new key value (T := applied_store d s next conf confIndex) :
  (key, value) ∈ apply_records s next conf confIndex -> recorded T key value.
Proof.
  pose proof (so_last next Hnext) as Hlast. unfold max_uint64 in Hlast.
  intros [(e & He & -> & ->)|[[-> ->]|[[-> ->]|H]]]%record_in_recs.
  - apply (new_effect_member s next Hnext) in He. destruct (effect_value_unwraps e He) as [p Hp].
    eapply rec_logical; [|exact Hp]. by apply (effect_key_known next).
  - eapply rec_logical; [done|]. apply unwrapDisk_wrapDisk. rewrite len_be. lia.
  - assert (lastApplied next = applied_index T) as -> by (unfold T, applied_store, publish_apply; by destruct conf).
    apply rec_applied. unfold T, applied_store, publish_apply. destruct conf; unfold is_u64, max_uint64; cbn; lia.
  - destruct conf as [c|] eqn:Ec; [|by apply not_elem_of_nil in H]. destruct Hconf as (Hw & Hf & Hu). cbn [conf_records] in H.
    rewrite elem_of_cons, list_elem_of_singleton in H. destruct H as [[= -> ->]|[= -> ->]]; [by apply (rec_conf T)|by apply (rec_confindex T)].
Qed.

Lemma stored_applied : stored d -> stored (applied_store d s next conf confIndex).
Proof.
  intros Hst. set (T := applied_store d s next conf confIndex). set (recs := apply_records s next conf confIndex).
  assert (db T = put_records (db d) recs) as Hdb by (unfold T, applied_store, publish_apply; by destruct conf).
  assert (raft_fields T = raft_fields d) as Hraft by (unfold T, applied_store, publish_apply; by destruct conf).
  injection Hraft as Hent Hhard Hsnap.
  assert ((nodeID T, hadNodeID T, bootstrapPeers T, catalogData T, readNonce T)
    = (nodeID d, hadNodeID d, bootstrapPeers d, catalogData d, readNonce d)) as Hother by (unfold T, applied_store, publish_apply; by destruct conf).
  injection Hother as O1 O2 O3 O4 O5.
  assert (forall k, k ∉ map fst recs -> db T !! k = db d !! k) as Hkeep by (intros k Hk; rewrite Hdb; by apply put_records_notin).
  assert (forall k, k ∈ map fst recs -> db T !! k <> None) as Hput.
  { intros k Hk. rewrite Hdb. destruct (put_records_in (db d) recs k Hk) as (v & _ & ->). done. }
  assert (kApplied ∈ map fst recs) as Hin.
  { apply list_elem_of_fmap. exists (kApplied, wrapDisk x02 (be 8 (lastApplied next))). split; [done|]. unfold recs, apply_records.
    rewrite !elem_of_app. right. left. left. }
  assert (match conf with Some _ => kConfState ∈ map fst recs /\ kConfIndex ∈ map fst recs
          | None => confState T = confState d /\ confStateIndex T = confStateIndex d end) as Hc.
  { unfold T, recs, applied_store, publish_apply, apply_records. destruct conf as [c|]; [|done]. rewrite !map_app, !elem_of_app.
    split; right; right; [left|right; left]. }
  assert (conf = None -> kConfState ∉ map fst recs /\ kConfIndex ∉ map fst recs) as Hnone.
  { intros Hn. split; (apply not_recorded; [done|field_key|by left]). }
  split; rewrite ?Hent, ?Hhard, ?Hsnap, ?O2, ?O4, ?O5.
  - intros key value Hkv. rewrite Hdb in Hkv. apply put_records_inv in Hkv as [Hkv|[Hnot Hkv]]; [by apply recorded_new|].
    apply (st_records d Hst) in Hkv. apply (recorded_keep d); [done|congruence| | | |by intros _|].
    + by intros ->.
    + intros ->. destruct conf; [by destruct Hc|apply Hc].
    + intros ->. destruct conf; [by destruct Hc|apply Hc].
    + intros i _. by rewrite Hent.
  - apply (st_index d Hst).
  - intros i e H. rewrite Hkeep; [by apply (st_entries d Hst i e)|].
    apply not_recorded; [|apply field_key_entry; field_key|right; split; apply field_key_entry; field_key].
    apply (HasPrefix_clash kEntryPre); [apply entry_prefix|done|done].
  - rewrite Hkeep by (apply not_recorded; [done|field_key|right; split; field_key]). apply (st_node d Hst).
  - rewrite Hkeep by (apply not_recorded; [done|field_key|right; split; field_key]). apply (st_bootstrap d Hst).
  - rewrite Hkeep by (apply not_recorded; [done|field_key|right; split; field_key]). apply (st_catalog d Hst).
  - rewrite Hkeep by (apply not_recorded; [done|field_key|right; split; field_key]). apply (st_nonce d Hst).
  - rewrite Hkeep by (apply not_recorded; [done|field_key|right; split; field_key]). apply (st_hard d Hst).
  - intros H. by apply Hput in H.
  - destruct conf as [c|]; [intros H; by apply (Hput kConfState (proj1 Hc)) in H|]. destruct Hc as [-> _].
    rewrite Hkeep by (by apply Hnone). apply (st_conf d Hst).
  - destruct conf as [c|]; [intros H; by apply (Hput kConfIndex (proj2 Hc)) in H|]. destruct Hc as [_ ->].
    rewrite Hkeep by (by apply Hnone). apply (st_confindex d Hst).
  - rewrite Hkeep by (apply not_recorded; [done|field_key|right; split; field_key]). apply (st_snapshot d Hst).
Qed.

Lemma no_chunk key index : HasPrefix key kSnapshotPre = false -> HasPrefix key (snapshot_prefix index) = false.
Proof.
  intros H. apply not_true_iff_false. intros Hp. apply not_true_iff_false in H. apply H.
  apply (HasPrefix_trans (snapshot_prefix index)); [done|apply HasPrefix_app].
Qed.

Lemma apply_records_apart index :
  forallb (fun kv => negb (HasPrefix (fst kv) (snapshot_prefix index))) (apply_records s next conf confIndex) = true.
Proof.
  apply forallb_forall. intros [key value] H%list_elem_of_In. apply negb_true_iff, no_chunk. cbn [fst].
  apply record_in_recs in H as [(e & _ & -> & _)|[[-> _]|[[-> _]|H]]]; [|done|done|by apply conf_record_key in H as [->| ->]].
  apply (HasPrefix_clash kState); [apply space_key|done|done].
Qed.

Lemma coherent_applied l : coherent d l -> (forall c, conf = Some c -> validateConfState (Some c) = None) ->
  lastApplied next <= hs_Commit (hardState d) -> coherent (applied_store d s next conf confIndex) l.
Proof.
  intros [Hlog Hdata Hc Hcommit Happ] Hvalid Hle. set (T := applied_store d s next conf confIndex).
  assert (raft_fields T = raft_fields d) as Hraft by (unfold T, applied_store, publish_apply; by destruct conf).
  injection Hraft as Hent Hhard Hsnap. split.
  - destruct Hlog as [H1 H2 H3 H4 H5]. split; rewrite ?Hent, ?Hsnap; done.
  - rewrite (snapshot_data_ext d); [done|done|].
    assert (db T = put_records (db d) (apply_records s next conf confIndex)) as -> by (unfold T, applied_store, publish_apply; by destruct conf).
    apply put_records_filter, apply_records_apart.
  - unfold T, applied_store, publish_apply. destruct conf as [c|]; [by apply Hvalid|done].
  - by rewrite Hhard, Hsnap.
  - rewrite Hhard. unfold T, applied_store, publish_apply. by destruct conf.
Qed.

Lemma durable_applied : durable_state d s -> durable_state (applied_store d s next conf confIndex) next.
Proof.
  intros [H1 H2 H3 H4]. split; [done|by rewrite Hgen| |unfold applied_store, publish_apply; by destruct conf].
  assert (db (applied_store d s next conf confIndex) = put_records (db d) (apply_records s next conf confIndex)) as ->
    by (unfold applied_store, publish_apply; by destruct conf).
  by apply state_stored_next.
Qed.
End applied.

(** The row state of a restarted store is that of the store. *)
Lemma durable_restarted T s fs : durable_state T s -> durable_state (restarted T fs) s.
Proof. intros [H1 H2 H3 H4]. by split. Qed.

(** A store and a row state that agree: the records mirror the fields, the
    fields hold a log, and the records hold the state. *)
Record replica_ok (d : diskStore) (s : logicalState) (l : raft_log) : Prop := {
  rp_stored : stored d;
  rp_coherent : coherent d l;
  rp_state : durable_state d s;
  rp_options : normalized diskOptions = Ok (options d)
}.

Lemma replica_reopens d s l names fs : replica_ok d s l -> existsb pebble_name names = false ->
  openDisk names (db d) fs (nodeID d) = Ok (restarted d fs) /\ load_state (restarted d fs) = Ok s.
Proof.
  intros [H1 H2 H3 H4] Hn. split; [by apply (openDisk_exact d l)|]. by apply durable_state_loads, durable_restarted.
Qed.

Lemma replica_applied d s l a entries conf confIndex : replica_ok d s l -> conf_ok conf confIndex ->
  lastApplied s + len entries <= max_uint64 -> lastApplied s + len entries <= hs_Commit (hardState d) ->
  apply_entries s (map to_entry entries) = Ok a -> (forall c, conf = Some c -> validateConfState (Some c) = None) ->
  replica_ok (applied_store d s (app_state a) conf confIndex) (app_state a) l.
Proof.
  intros [H1 H2 H3 H4] Hconf Hmax Hcommit Ha Hvalid. pose proof (du_ok _ _ H3) as Hs.
  apply apply_entries_next in Ha as (Hok & Hlast & Hgen & Hres & Hgrow); [|done|by unfold len in *; rewrite length_map].
  assert (len (map to_entry entries) = len entries) as Hlen by (unfold len; by rewrite length_map). split.
  - by apply stored_applied.
  - apply coherent_applied; try done. by rewrite Hlast, Hlen.
  - by apply durable_applied.
  - unfold applied_store, publish_apply. by destruct conf.
Qed.
End restart.


(** ** Keys the engine does not take *)

Section long_keys.
Context {canon : Canonicalizer} {pb : Protobuf}.

Lemma put_limits b key value b' : maxKey b <> 0 -> put b key value = Ok b' -> len key <= maxKey b /\ maxKey b' = maxKey b.
Proof.
  intros H0. unfold put, Batch_Put. set (c := configureDefaults b).
  assert (maxKey c = maxKey b) as E by (cbn; unfold or_default; by rewrite (proj2 (Z.eqb_neq _ _) H0)).
  destruct (sealed c); [done|]. unfold validateKey. destruct ((len key =? 0) || (maxKey c <? len key)) eqn:Hk; [done|]. cbn [fail_if].
  apply orb_false_iff in Hk as [_ Hk%Z.ltb_ge]. destruct (_ <? _); [done|]. destruct (_ <=? _); [done|]. destruct (find_op _ _); [done|].
  destruct (checkedAdd _ _) as [need ok]. destruct (_ || _); [done|]. intros [= <-]. cbn [maxKey add_op]. lia.
Qed.

Lemma put_each_limits {A} (f : Batch -> A -> result durable_error Batch) (P : A -> Prop) (n : Z) l :
  (forall x b b', x ∈ l -> maxKey b = n -> f b x = Ok b' -> P x /\ maxKey b' = n) ->
  forall b b', maxKey b = n -> put_each f b l = Ok b' -> Forall P l /\ maxKey b' = n.
Proof.
  induction l as [|x l IH]; intros Hf b b' Hb H; cbn [put_each] in H; [by injection H as <-|].
  apply bind_Ok in H as (b1 & H1 & H2). apply Hf in H1 as [Hx Hb1]; [|left|done].
  apply IH in H2 as [Hl Hb']; [|intros y ? ? Hy; apply Hf; by right|done]. split; [by constructor|done].
Qed.

Lemma put_row_limits gen n row b b' : n <> 0 -> maxKey b = n -> put_row_record gen b row = Ok b' -> maxKey b' = n.
Proof.
  intros Hn Hb. unfold put_row_record. intros (k & _ & (p & _ & H)%bind_Ok)%bind_Ok. apply put_limits in H as [? ?]; [|by rewrite Hb]. lia.
Qed.

Lemma put_result_limits gen n kr b b' : n <> 0 -> maxKey b = n -> put_result_records gen b kr = Ok b' -> maxKey b' = n.
Proof.
  intros Hn Hb. unfold put_result_records. intros (p & _ & (b1 & H1 & H2)%bind_Ok)%bind_Ok. apply put_limits in H1 as [? ?]; [|by rewrite Hb].
  apply put_limits in H2 as [? ?]; [|congruence]. congruence.
Qed.

Lemma put_version_limits gen n row b b' : n <> 0 -> validTable (row_Table row) = true -> validKey (row_Key row) = true ->
  maxKey b = n -> put_version_record gen b row = Ok b' ->
  len (version_key gen (row_Table row) (row_Key row) (row_Sequence row)) <= n /\ maxKey b' = n.
Proof.
  intros Hn Ht Hk Hb. unfold put_version_record. rewrite historyKeyAt_ok by done. cbn [mbind result_bind].
  intros (p & _ & H)%bind_Ok. apply put_limits in H as [? ?]; [|by rewrite Hb]. lia.
Qed.

Lemma len_version_key gen table key sequence : 33 + len table + len key <= len (version_key gen table key sequence).
Proof.
  unfold version_key, tuple, tuple_bytes, components_bytes, component_bytes, payload, str. cbn [map concat kind data].
  rewrite !(bool_decide_eq_true_2 (StringKind = StringKind)) by done. rewrite orb_true_r. autorewrite with len. rewrite ?len_be.
  pose proof (len_escape_ge table). pose proof (len_escape_ge key). change (len (lit "history/")) with 8.
  assert (9 <= len (space gen)) as Hg.
  { unfold space. case_match; [done|]. rewrite !len_app. pose proof (len_nonneg (decimal 20 gen)). change (len kStateGenerations) with 11.
    change (len (lit "/")) with 1. lia. }
  lia.
Qed.

(** The history after a batch that begins with a command that writes. *)
Lemma first_version s c e l a (row := mkRow (Table c) (Key c) (Version c) (lastApplied s + 1) (Value c)) (id := rowID (Table c) (Key c)) :
  0 <= lastApplied s < max_uint64 -> EncodeCommand c = Ok (pe_Data e) -> pe_Type e = 0 -> pe_Index e = lastApplied s + 1 ->
  results s !! OperationID c = None -> Version c ∉ versions s -> condition_holds c (get s (Table c) (Key c)) ->
  apply_entries s (to_entry e :: l) = Ok a ->
  exists l', history (app_state a) !! id = Some (default [] (history s !! id) ++ row :: l').
Proof.
  intros Hl Hc Htype Hindex Hfresh Hversion Hcond Ha. unfold apply_entries in Ha. cbn [apply_loop] in Ha.
  apply bind_Ok in Ha as (a1 & H1 & H2).
  assert (to_entry e = command_entry s (pe_Data e)) as E by (unfold to_entry, command_entry; by rewrite Hindex, Htype).
  rewrite E in H1. apply apply_single in H1. rewrite (apply_command s c) in H1 by done. rewrite Hfresh in H1. unfold execute in H1.
  rewrite bool_decide_eq_false_2 in H1 by done. cbv zeta in H1. cbn [rows reserve] in H1. fold id in H1.
  apply condition_fails_spec in Hcond. unfold get in Hcond. fold id in Hcond. rewrite Hcond in H1. injection H1 as <-.
  apply apply_loop_grows in H2 as [[_ Hg] _]. destruct (Hg id (default [] (history s !! id) ++ [row])) as [l' Hl'].
  { cbn. apply lookup_insert_eq. }
  exists l'. rewrite Hl', <- app_assoc. done.
Qed.
End long_keys.

(** C30: A command whose table and key are too long for the engine's keys stops
    the replica.  The command is valid, so it is proposed and committed; but
    its history key exceeds the 1024 bytes the engine was opened with, so no
    batch that begins with its entry can be applied: [apply] fails, changes
    neither the store nor the state, and fails again on every attempt. *)
Theorem long_key_is_never_applied `{Canonicalizer} `{Protobuf} d s c e rest conf confIndex :
  state_ok s -> lastApplied s + len (e :: rest) <= max_uint64 -> MaxKeyBytes (options d) = DefaultMaxKeyBytes ->
  EncodeCommand c = Ok (pe_Data e) -> pe_Type e = 0 -> pe_Index e = lastApplied s + 1 ->
  results s !! OperationID c = None -> Version c ∉ versions s -> condition_holds c (get s (Table c) (Key c)) ->
  992 <= len (Table c) + len (Key c) ->
  exists err, apply d s (e :: rest) conf confIndex = (d, s, Fail err).
Proof.
  intros Hs Hmax Hopts Hc Htype Hindex Hfresh Hversion Hcond Hlong. unfold apply.
  destruct (failed d); [eauto|]. destruct (match conf with Some _ => _ | None => false end); [eauto|].
  destruct (apply_entries s (map to_entry (e :: rest))) as [a|err] eqn:Ha; [|eauto].
  destruct (apply_batch d s (app_state a) conf confIndex) as [b|err] eqn:Hb; [exfalso|eauto].
  rewrite len_cons in Hmax. pose proof (len_nonneg rest). pose proof (so_last s Hs). cbn [map] in Ha.
  destruct (first_version s c e (map to_entry rest) a) as [l' Hl']; [lia|done..|].
  assert (len (to_entry e :: map to_entry rest) = 1 + len rest) as Hlen by (rewrite len_cons; unfold len; rewrite length_map; lia).
  pose proof (apply_entries_next s _ a Hs ltac:(rewrite Hlen; lia) Ha) as (Hok & _).
  unfold apply_batch in Hb. apply bind_Ok in Hb as (b1 & P1 & Hb). apply bind_Ok in Hb as (b2 & P2 & Hb). apply bind_Ok in Hb as (b3 & P3 & _).
  set (n := DefaultMaxKeyBytes) in *. assert (n <> 0) as Hn by done.
  apply (put_each_limits _ (fun _ => True) n) in P1 as [_ M1]; [|intros x b0 b0' _ Hm Hp; split; [done|]; exact (put_row_limits _ _ _ _ _ Hn Hm Hp)|done].
  apply (put_each_limits _ (fun _ => True) n) in P2 as [_ M2]; [|intros x b0 b0' _ Hm Hp; split; [done|]; exact (put_result_limits _ _ _ _ _ Hn Hm Hp)|done].
  apply (put_each_limits _ (fun row => len (version_key (generation s) (row_Table row) (row_Key row) (row_Sequence row)) <= n) n) in P3 as [Hall _];
    [| |done].
  2:{ intros x b0 b0' (i & h & Hh & Hin%subseteq_drop)%new_version Hm Hp. apply (so_history _ Hok) in Hh as (_ & Hf & _).
      rewrite Forall_forall in Hf. specialize (Hf x Hin). by apply (put_version_limits _ _ _ _ _ Hn (ro_table _ _ _ Hf) (ro_key _ _ _ Hf) Hm Hp). }
  rewrite Forall_forall in Hall. specialize (Hall (mkRow (Table c) (Key c) (Version c) (lastApplied s + 1) (Value c))).
  pose proof (len_version_key (generation s) (Table c) (Key c) (lastApplied s + 1)). cbn [row_Table row_Key row_Sequence] in Hall.
  assert (n = 1024) as -> by done. cut (1024 < 1024); [lia|]. eapply Z.lt_le_trans; [|apply Hall]; [lia|].
  apply new_version. exists (rowID (Table c) (Key c)). eexists. split; [exact Hl'|]. rewrite drop_app_length. left.
Qed.

(** ** Instances *)

(** The first put is entry one, and raft has committed it. *)
Definition put_one : pbEntry := mkPbEntry 0 1 1 (encoded first_put).
Definition commit_one : Ready := mkReady [Some put_one] (mkHard 1 1 1) no_snapshot.
Definition committed : diskStore := @after numbered booted commit_one.

Lemma put_one_ok : Forall (@entry_ok numbered) [put_one].
Proof.
  apply Forall_singleton. split; [|split; [|split]].
  - by vm_compute.
  - done.
  - done.
  - vm_compute. reflexivity.
Qed.

Lemma commit_one_follows : @hard_follows numbered booted (mkHard 1 1 1).
Proof. right. split; [split; [by vm_compute|vm_compute; reflexivity]|split; vm_compute; discriminate]. Qed.

Lemma committed_records key value : db committed !! key = Some value -> key ∈ [kHardState; entryKey 1; kBootstrap; kNodeID].
Proof.
  assert (db committed = <[kHardState := wrapDisk x01 (@marshal_hard numbered (mkHard 1 1 1))]>
    (<[entryKey 1 := wrapDisk x05 (@marshal_entry numbered put_one)]> (db booted))) as -> by done.
  cbn [db booted set_identity set_db]. rewrite !elem_of_cons.
  intros [[<- _]|[_ [[<- _]|[_ [[<- _]|[_ [[<- _]|[_ H]]%lookup_insert_Some]]%lookup_insert_Some]]%lookup_insert_Some]]%lookup_insert_Some; auto.
  by apply lookup_empty_Some in H.
Qed.

Lemma committed_replica : @replica_ok number_canon numbered committed newLogicalState (mkLog 0 0 [put_one]).
Proof.
  assert (entries_ready commit_one [put_one]) as Hrd by done.
  assert (consecutive 1 [put_one]) as Hc by done. split.
  - apply (@stored_after numbered booted commit_one [put_one] Hrd put_one_ok commit_one_follows booted_stored).
  - apply (@coherent_after numbered booted (mkLog 0 0 []) commit_one 1 [put_one] booted_coherent Hrd Hc);
      [by vm_compute|by vm_compute|exact commit_one_follows].
  - split; [apply newLogicalState_ok|by vm_compute| |done]. split.
    + intros key value H%committed_records Hsp. exfalso. revert Hsp. rewrite !elem_of_cons in H.
      destruct H as [->|[->|[->|[->|H]]]]; [by vm_compute..|by apply not_elem_of_nil in H].
    + intros key value e (_ & _ & H)%record_iff. destruct e as [id row|id row|id r|id|n|]; cbn in H; try done.
      * destruct H as (x & H & _). by apply lookup_empty_Some in H.
      * destruct H as [x H]. by apply lookup_empty_Some in H.
    + right. split; [vm_compute; reflexivity|done].
    + right. split; [vm_compute; reflexivity|done].
    + intros key value H%committed_records. rewrite !elem_of_cons in H. destruct H as [->|[->|[->|[->|H]]]]; [by vm_compute..|by apply not_elem_of_nil in H].
  - vm_compute. reflexivity.
Qed.


(** A put to a valid key of a thousand bytes. *)
Definition long_put : Command := mkCommand (uuid_of x01) (lit "users") (repeat x61 1000) (lit "10") (mkCondition None false) (uuid_of x11).
Definition long_entry : pbEntry := mkPbEntry 0 1 1 (encoded long_put).

Lemma long_key_is_never_applied_witness : exists err,
  @apply number_canon numbered committed newLogicalState [long_entry] None 0 = (committed, newLogicalState, Fail err).
Proof.
  apply (@long_key_is_never_applied number_canon numbered committed newLogicalState long_put long_entry [] None 0).
  - apply newLogicalState_ok.
  - vm_compute. discriminate.
  - reflexivity.
  - vm_compute. reflexivity.
  - reflexivity.
  - reflexivity.
  - reflexivity.
  - apply not_elem_of_empty.
  - split; [discriminate|]. intros v. discriminate.
  - vm_compute. discriminate.
Defined.
