(* ===== verification/DurableInstall.v ===== *)
(** The installation of a snapshot: its records are staged under a new
    generation of keys, out of sight of recovery, and one batch switches to
    them.  However the batches end, the records hold the old state or the new
    one. *)

From Stdlib Require Import ZArith Lia Sorting.Sorted.
From stdpp Require Import base list gmap sorting.
From S2P Require Import Prelude GoStd Codec Uuidv7 Coordinates EngineOps Fs Range Command State Snapshot Disk DiskLog DiskLoad DiskCrash.
From S2P Require Import Durable DurableLoad DurableApply.

Local Open Scope Z_scope.

(** ** Staged records *)

(** The records put so far: those of the batches already applied to [base],
    and those of the batch being filled. *)
Definition writes (base : gmap bytes bytes) (t : staging) (recs : list (bytes * bytes)) : Prop :=
  exists flushed pending, recs = flushed ++ pending /\ db (st_disk t) = put_records base flushed
    /\ ops (st_batch t) = map put_of pending /\ st_count t = len pending.

(** Staging that stopped: some of the records are there. *)
Definition stopped_at (base : gmap bytes bytes) (d : diskStore) (recs : list (bytes * bytes)) : Prop :=
  exists done, done `prefix_of` recs /\ db d = put_records base done.

Lemma put_records_app m l k : put_records m (l ++ k) = put_records (put_records m l) k.
Proof. unfold put_records. apply fold_left_app. Qed.

Lemma Batch_Put_failed b key value b' e : Batch_Put b key value = (b', Fail e) -> ops b' = ops b.
Proof. unfold Batch_Put. repeat case_match; try done; by intros [= <- _]. Qed.

Lemma flush_writes base t recs : writes base t recs ->
  match flush t with
  | (t', Ok _) => db (st_disk t') = put_records base recs /\ writes base t' recs
  | (t', Fail _) => stopped_at base (st_disk t') recs
  end.
Proof.
  intros (flushed & pending & -> & Hdb & Hops & Hn). unfold flush. pose proof (applyBatch_db (st_disk t) (st_batch t) "snapshot-stage") as H.
  rewrite Hops, apply_puts, Hdb, <- put_records_app in H. destruct (applyBatch _ _ _) as [d [[]|e]]; cbn [st_disk].
  - split; [done|]. exists (flushed ++ pending), []. by rewrite app_nil_r.
  - destruct H as [H|H]; [exists flushed; split; [by apply prefix_app_r|done]|by exists (flushed ++ pending)].
Qed.

Lemma putBounded_writes base t recs key value : writes base t recs ->
  match putBounded t key value with
  | (t', Ok _) => writes base t' (recs ++ [(key, value)])
  | (t', Fail _) => stopped_at base (st_disk t') recs
  end.
Proof.
  intros Hw. pose proof Hw as (flushed & pending & -> & Hdb & Hops & Hn). unfold putBounded.
  assert (forall d b b' count (fl pe : list (bytes * bytes)), Batch_Put b key value = (b', Ok tt) -> db d = put_records base fl ->
    ops b = map put_of pe -> count = len pe -> writes base (mkStaging d b' (count + 1)) ((fl ++ pe) ++ [(key, value)])) as Hput.
  { intros d b b' count fl pe Hp Hd Ho ->. exists fl, (pe ++ [(key, value)]). apply Batch_Put_ops in Hp.
    split_and!; [by rewrite app_assoc|done|by rewrite map_app; cbn [st_batch]; rewrite Hp, Ho|by rewrite len_app]. }
  destruct (Batch_Put (st_batch t) key value) as [b [[]|e]] eqn:Hp; [by apply (Hput _ _ _ _ _ _ Hp)|].
  apply Batch_Put_failed in Hp. destruct (negb (batch_too_large e)); [exists flushed; split; [by apply prefix_app_r|done]|].
  assert (writes base (mkStaging (st_disk t) b (st_count t)) (flushed ++ pending)) as Hw' by (exists flushed, pending; cbn; by rewrite Hp).
  apply flush_writes in Hw'. destruct (flush _) as [t1 [[]|e1]]; [|done]. destruct Hw' as [Hdb1 (fl & pe & E & Hd1 & Ho1 & Hn1)].
  rewrite E. destruct (Batch_Put (st_batch t1) key value) as [b1 [[]|e2]] eqn:Hp1; [by apply (Hput _ _ _ _ _ _ Hp1)|].
  exists (flushed ++ pending). rewrite E in *. done.
Qed.

Lemma stopped_mono base d recs more : stopped_at base d recs -> stopped_at base d (recs ++ more).
Proof. intros (l & Hp & Hd). exists l. split; [by apply prefix_app_r|done]. Qed.

(** A loop of steps that each put the records [records x]. *)
Definition stages {A : Type} (base : gmap bytes bytes) (f : staging -> A -> staging * result durable_error unit) (records : A -> list (bytes * bytes))
    (x : A) : Prop :=
  forall t recs, writes base t recs ->
    match f t x with
    | (t', Ok _) => writes base t' (recs ++ records x)
    | (t', Fail _) => stopped_at base (st_disk t') (recs ++ records x)
    end.

Lemma stage_each_writes {A : Type} base f (records : A -> list (bytes * bytes)) l : Forall (stages base f records) l ->
  forall t recs, writes base t recs ->
    match stage_each f t l with
    | (t', Ok _) => writes base t' (recs ++ concat (map records l))
    | (t', Fail _) => stopped_at base (st_disk t') (recs ++ concat (map records l))
    end.
Proof.
  induction 1 as [|x l Hx _ IH]; intros t recs Hw; cbn [stage_each map concat]; [by rewrite app_nil_r|].
  specialize (Hx t recs Hw). destruct (f t x) as [t1 [[]|e]].
  - apply IH in Hx. by rewrite <- app_assoc in Hx.
  - rewrite app_assoc. by apply stopped_mono.
Qed.

Section install.
Context {canon : Canonicalizer} {pb : Protobuf}.

Lemma stages_row base gen last id row : row_ok last id row ->
  stages base (stage_record (row_record_at gen)) (fun r => map (effect_record gen) (row_effects_of r)) row.
Proof.
  intros Hr t recs Hw. unfold stage_record, row_record_at. rewrite stateKeyAt_ok by apply Hr. rewrite (encodeStateRow_ok _ _ _ Hr).
  cbn [map_err mbind result_bind]. apply (putBounded_writes _ _ _ (row_key gen (row_Table row) (row_Key row)) (wrapDisk x0a (row_bytes row))) in Hw.
  destruct (putBounded _ _ _) as [t' [[]|e]]; [exact Hw|by apply stopped_mono].
Qed.

Lemma stages_version base gen last id row : row_ok last id row ->
  stages base (stage_record (version_record_at gen)) (fun r => map (effect_record gen) (version_effects_of r)) row.
Proof.
  intros Hr t recs Hw. unfold stage_record, version_record_at. rewrite historyKeyAt_ok by apply Hr. rewrite (encodeStateRow_ok _ _ _ Hr).
  cbn [map_err mbind result_bind].
  apply (putBounded_writes _ _ _ (version_key gen (row_Table row) (row_Key row) (row_Sequence row)) (wrapDisk x0a (row_bytes row))) in Hw.
  destruct (putBounded _ _ _) as [t' [[]|e]]; [exact Hw|by apply stopped_mono].
Qed.

Lemma stages_result base gen last kr : result_ok last (snd kr) ->
  stages base (stage_result gen) (fun r => map (effect_record gen) (result_effects_of r)) kr.
Proof.
  intros Hr t recs Hw. unfold stage_result. rewrite (encodeResult_ok _ _ Hr).
  assert (map (effect_record gen) (result_effects_of kr)
    = [(resultKeyAt gen (fst kr), wrapDisk x0a (result_bytes (snd kr))); (dedupeKeyAt gen (fst kr), wrapDisk x0a [x01])]) as ->
    by (rewrite resultKeyAt_space, dedupeKeyAt_space; done).
  apply (putBounded_writes _ _ _ (resultKeyAt gen (fst kr)) (wrapDisk x0a (result_bytes (snd kr)))) in Hw.
  destruct (putBounded _ _ _) as [t1 [[]|e]]; [|by apply stopped_mono].
  apply (putBounded_writes _ _ _ (dedupeKeyAt gen (fst kr)) (wrapDisk x0a [x01])) in Hw. rewrite <- app_assoc in Hw.
  destruct (putBounded _ _ _) as [t2 [[]|e]]; [exact Hw|]. destruct Hw as (l & Hp & Hd). exists l. split; [|done].
  etransitivity; [exact Hp|]. by apply prefix_app, prefix_cons, prefix_nil.
Qed.

(** The members of a state, in the order they are staged. *)
Definition state_effects (s : logicalState) : list effect :=
  concat (map row_effects_of (snapshot_rows s)) ++ concat (map version_effects_of (snapshot_history s))
  ++ concat (map result_effects_of (snapshot_results s)).

Lemma state_effects_member s e : state_ok s -> e ∈ state_effects s <-> member s e.
Proof.
  intros Hs. unfold state_effects. rewrite !elem_of_app, !list_elem_of_In, !in_concat. split.
  - intros [(x & (row & <- & H)%in_map_iff & [<-|[]])|[(x & (row & <- & H)%in_map_iff & [<-|[]])|(x & (kr & <- & H)%in_map_iff & [<-|[<-|[]]])]];
      apply list_elem_of_In in H.
    + apply list_elem_of_fmap in H as ([id row'] & -> & H). pose proof (rows_ok s Hs) as Hf. rewrite Forall_forall in Hf. specialize (Hf _ H).
      apply elem_of_sorted_members in H. cbn [member snd fst] in *. unfold own_id. by rewrite <- (ro_id _ _ _ Hf).
    + apply elem_of_snapshot_history in H as (id & l & Hl & Hin). exists l. split; [|done].
      pose proof Hl as Hf. apply (so_history s Hs) in Hf as (_ & Hf & _). rewrite Forall_forall in Hf. unfold own_id.
      by rewrite <- (ro_id _ _ _ (Hf row Hin)).
    + destruct kr as [id r]. by apply elem_of_sorted_members in H.
    + destruct kr as [id r]. apply elem_of_sorted_members in H. cbn. eauto.
  - destruct e as [id row|id row|id r|id|n|]; cbn [member]; try done.
    + intros H. left. exists (row_effects_of row). pose proof (rows_ok s Hs) as Hf. rewrite Forall_forall in Hf.
      specialize (Hf (id, row) (proj2 (elem_of_sorted_members _ _ _) H)). split.
      * apply in_map, list_elem_of_In. apply list_elem_of_fmap. exists (id, row). split; [done|]. by apply elem_of_sorted_members.
      * left. unfold own_id. cbn [fst snd] in Hf. by rewrite <- (ro_id _ _ _ Hf).
    + intros (l & Hl & Hin). right. left. exists (version_effects_of row). split.
      * apply in_map, list_elem_of_In, elem_of_snapshot_history. by exists id, l.
      * left. apply (so_history s Hs) in Hl as (_ & Hf & _). rewrite Forall_forall in Hf. unfold own_id. by rewrite <- (ro_id _ _ _ (Hf row Hin)).
    + intros H. right. right. exists (result_effects_of (id, r)). split; [|by left]. apply in_map, list_elem_of_In. by apply elem_of_sorted_members.
    + intros [r H]. right. right. exists (result_effects_of (id, r)). split; [|right; by left].
      apply in_map, list_elem_of_In. by apply elem_of_sorted_members.
Qed.

Lemma stage_state_writes base gen t s : state_ok s -> writes base t [] ->
  match stage_state gen t s with
  | (t', Ok _) => db (st_disk t') = put_records base (map (effect_record gen) (state_effects s))
  | (t', Fail _) => stopped_at base (st_disk t') (map (effect_record gen) (state_effects s))
  end.
Proof.
  intros Hs Hw. unfold stage_state, state_effects. rewrite !map_app, <- !concat_map_map.
  set (R1 := concat (map (fun x => map (effect_record gen) (row_effects_of x)) (snapshot_rows s))).
  set (R2 := concat (map (fun x => map (effect_record gen) (version_effects_of x)) (snapshot_history s))).
  set (R3 := concat (map (fun x => map (effect_record gen) (result_effects_of x)) (snapshot_results s))).
  apply (stage_each_writes base (stage_record (row_record_at gen)) (fun r => map (effect_record gen) (row_effects_of r)) (snapshot_rows s)) in Hw.
  2:{ unfold snapshot_rows. apply Forall_map. eapply Forall_impl; [by apply rows_ok|]. intros [id r] Hr. by eapply stages_row. }
  destruct (stage_each _ t _) as [t1 [[]|e]]; [|by apply stopped_mono]. cbn [app] in Hw. fold R1 in Hw.
  apply (stage_each_writes base (stage_record (version_record_at gen)) (fun r => map (effect_record gen) (version_effects_of r)) (snapshot_history s)) in Hw.
  2:{ apply Forall_forall. intros r Hr%elem_of_snapshot_history. eapply stages_version. by apply (history_row_ok s). }
  fold R2 in Hw. destruct (stage_each _ t1 _) as [t2 [[]|e]]; [|rewrite app_assoc; by apply stopped_mono].
  apply (stage_each_writes base (stage_result gen) (fun r => map (effect_record gen) (result_effects_of r)) (snapshot_results s)) in Hw.
  2:{ apply Forall_forall. intros [id r] H%elem_of_sorted_members. eapply stages_result. by eapply (state_result_ok s). }
  fold R3 in Hw. rewrite <- app_assoc in Hw. destruct (stage_each _ t2 _) as [t3 [[]|e]]; [|exact Hw].
  destruct (Z.eqb_spec (st_count t3) 0) as [H0|H0]; cbn [negb].
  - destruct Hw as (fl & pe & E & Hd & _ & Hn). assert (pe = []) as -> by (apply len_zero_nil; lia). rewrite app_nil_r in E. by rewrite E.
  - apply flush_writes in Hw. destruct (flush t3) as [t4 [[]|e]]; [apply Hw|done].
Qed.

(** ** Generations do not see each other *)

Lemma decimal_inj a b : is_u64 a -> is_u64 b -> decimal 20 a = decimal 20 b -> a = b.
Proof.
  intros Ha Hb E. apply (f_equal (parse_digits 0)) in E. unfold is_u64, max_uint64 in *.
  rewrite !parse_decimal in E by (unfold max_uint64; cbn; lia). congruence.
Qed.

Lemma other_generation gen gen' e : is_u64 gen -> is_u64 gen' -> gen <> gen' -> in_space gen (effect_key gen' e) = false.
Proof.
  intros Hg Hg' Hne. unfold in_space. apply not_true_iff_false. intros (part & Hpart & H)%existsb_exists.
  unfold effect_key, space in H. destruct (Z.eqb_spec gen 0) as [->|H0], (Z.eqb_spec gen' 0) as [->|H0']; [done| | |].
  - assert (HasPrefix (kState ++ part) kStateGenerations = false /\ HasPrefix kStateGenerations (kState ++ part) = false) as [C1 C2]
      by (destruct Hpart as [<-|[<-|[<-|[<-|[]]]]]; done).
    rewrite (HasPrefix_clash kStateGenerations) in H; [done| |done|done]. rewrite <- app_assoc. apply HasPrefix_app.
  - assert (HasPrefix (kState ++ effect_part e) kStateGenerations = false /\ HasPrefix kStateGenerations (kState ++ effect_part e) = false) as [C1 C2]
      by (by destruct e).
    assert (HasPrefix (kState ++ effect_part e ++ effect_rest e) kStateGenerations = true) as Hp.
    { apply (HasPrefix_trans _ _ _ H). rewrite <- app_assoc. apply HasPrefix_app. }
    rewrite (HasPrefix_clash (kState ++ effect_part e)) in Hp; [done| |done|done]. rewrite app_assoc. apply HasPrefix_app.
  - rewrite <- !app_assoc, HasPrefix_common in H. apply Hne, decimal_inj; [done|done|].
    unfold HasPrefix in H. rewrite beq_true in H. rewrite length_app, length_decimal in H.
    apply (f_equal (take 20)) in H. rewrite take_take, Nat.min_l in H by lia.
    rewrite !take_app_le in H by (rewrite length_decimal; lia). rewrite !take_ge in H by (rewrite length_decimal; lia). done.
Qed.

(** Records staged under another generation leave the state where it is. *)
Lemma staged_out_of_sight m s gen es : state_stored m s -> is_u64 (generation s) -> is_u64 gen -> generation s <> gen ->
  Forall (fun e => exists s', member s' e) es -> state_stored (put_records m (map (effect_record gen) es)) s.
Proof.
  intros Hst Hg Hg' Hne Hes. set (recs := map (effect_record gen) es). rewrite Forall_forall in Hes.
  assert (forall key value, (key, value) ∈ recs -> exists e s', key = effect_key gen e /\ member s' e) as Hrec.
  { intros key value (e & [= -> ->] & He)%list_elem_of_fmap. destruct (Hes e He) as [s' Hs']. eauto. }
  assert (forall key, in_space (generation s) key = true \/ key = kStateMeta \/ key = kStateGeneration ->
    put_records m recs !! key = m !! key) as Hkeep.
  { intros key Hk. apply put_records_notin. intros ([k v] & E & Hin)%list_elem_of_fmap. cbn [fst] in E. subst k.
    destruct (Hrec _ _ Hin) as (e & s' & -> & Hs'). destruct Hk as [Hk|[Hk|Hk]].
    - by rewrite other_generation in Hk.
    - pose proof (effect_in_space s' gen e Hs') as Hsp. by rewrite Hk, meta_outside in Hsp.
    - pose proof (effect_in_space s' gen e Hs') as Hsp. by rewrite Hk, generation_outside in Hsp. }
  split.
  - intros key value H Hin. rewrite Hkeep in H by auto. by apply (ss_records _ _ Hst).
  - intros key value e H. rewrite Hkeep by (left; by apply record_in_space in H). by apply (ss_present _ _ Hst _ _ e).
  - rewrite Hkeep by auto. apply (ss_meta _ _ Hst).
  - rewrite Hkeep by auto. apply (ss_generation _ _ Hst).
  - intros key value [H|[_ H]]%put_records_inv; [|by apply (ss_known _ _ Hst key value)].
    destruct (Hrec _ _ H) as (e & s' & -> & Hs'). by rewrite (effect_key_known s'), orb_true_r.
Qed.

(** ** The switch *)

Lemma set_generation_ok s index gen : state_ok s -> lastApplied s = index -> state_ok (set_generation s index gen).
Proof. intros [H1 H2 H3 H4 H5 H6 H7 H8 H9] <-. by split. Qed.

Lemma member_set_generation s index gen e : member (set_generation s index gen) e <-> member s e.
Proof. by destruct e. Qed.

(** Records already in the new keyspace, left by an installation that was cut
    short, belong to rows and operations the snapshot has too. *)
Definition leftovers (m : gmap bytes bytes) (gen : Z) (decoded : logicalState) : Prop :=
  forall key value, m !! key = Some value -> in_space gen key = true -> exists e, member decoded e /\ key = effect_key gen e.

Lemma install_key index conf confIndex gen key value : (key, value) ∈ install_records index conf confIndex gen ->
  in_space gen key = false /\ isKnownRaftKey key || isAnyLogicalKey key = true.
Proof.
  unfold install_records. rewrite !elem_of_cons, elem_of_nil.
  intros [[= -> _]|[[= -> _]|[[= -> _]|[[= -> _]|[[= -> _]|[]]]]]]; (split; [by apply outside_space|done]).
Qed.

Lemma install_value m index conf confIndex gen key value : (key, value) ∈ install_records index conf confIndex gen ->
  put_records m (install_records index conf confIndex gen) !! key = Some value.
Proof.
  intros H. assert (key ∈ map fst (install_records index conf confIndex gen)) as Hin by (by apply (list_elem_of_fmap_2 fst) in H).
  destruct (put_records_in m _ key Hin) as (v & Hv & ->). f_equal. unfold install_records in H, Hv. rewrite !elem_of_cons, elem_of_nil in H, Hv.
  destruct H as [[= -> ->]|[[= -> ->]|[[= -> ->]|[[= -> ->]|[[= -> ->]|[]]]]]];
    destruct Hv as [[= ->]|[[= ->]|[[= ->]|[[= ->]|[[= ->]|[]]]]]]; done.
Qed.

Lemma state_stored_installed m s decoded index conf confIndex gen (next := set_generation decoded index gen) :
  state_stored m s -> state_ok decoded -> lastApplied decoded = index -> leftovers m gen decoded ->
  state_stored (put_records (put_records m (map (effect_record gen) (state_effects decoded))) (install_records index conf confIndex gen)) next.
Proof.
  intros Hst Hd Hindex Hleft. set (recs := map (effect_record gen) (state_effects decoded)). set (inst := install_records index conf confIndex gen).
  assert (state_ok next) as Hnext by (by apply set_generation_ok).
  assert (forall key, in_space gen key = true -> put_records (put_records m recs) inst !! key = put_records m recs !! key) as Hkeep.
  { intros key Hk. apply put_records_notin. intros ([k v] & E & Hin)%list_elem_of_fmap. cbn [fst] in E. subst k.
    apply install_key in Hin as [Hout _]. congruence. }
  assert (forall e, member decoded e -> effect_key gen e ∈ map fst recs) as Hall.
  { intros e He. apply list_elem_of_fmap. exists (effect_record gen e). split; [done|]. by apply list_elem_of_fmap_2, state_effects_member. }
  assert (forall key value, (key, value) ∈ recs -> exists e, member decoded e /\ key = effect_key gen e /\ value = effect_value e) as Hrec.
  { intros key value (e & [= -> ->] & He)%list_elem_of_fmap. exists e. split; [by apply state_effects_member|done]. }
  split.
  - cbn [generation next set_generation]. intros key value H Hin. rewrite Hkeep in H by done. apply put_records_inv in H as [H|[Hnot H]].
    + destruct (Hrec _ _ H) as (e & He & -> & ->). exists e. by apply record_iff.
    + destruct (Hleft key value H Hin) as (e & He & ->). by apply Hall in He.
  - intros key value e (-> & -> & He)%record_iff. cbn [generation next set_generation]. apply member_set_generation in He.
    rewrite Hkeep by (by apply (effect_in_space decoded)). destruct (put_records_in m recs _ (Hall e He)) as (v & Hv & ->).
    destruct (Hrec _ _ Hv) as (e' & He' & Hk & ->). do 2 f_equal. symmetry. by apply (member_inj next).
  - left. apply install_value. unfold install_records. rewrite !elem_of_cons. auto.
  - left. apply install_value. unfold install_records. rewrite !elem_of_cons. auto 10.
  - intros key value [H|[_ H]]%put_records_inv; [by apply install_key in H as [_ ?]|].
    apply put_records_inv in H as [H|[_ H]]; [|by apply (ss_known _ _ Hst key value)].
    destruct (Hrec _ _ H) as (e & He & -> & _). by rewrite (effect_key_known decoded), orb_true_r.
Qed.

(** The applied index recovery reads, and the state it then loads. *)
Definition applied_of (m : gmap bytes bytes) : Z :=
  match m !! kApplied with Some v => default 0 (unwrap_u64 v x02) | None => 0 end.
Definition recover (d : diskStore) : result durable_error logicalState := load_state (set_applied_index d (applied_of (db d))).

Lemma recover_ok d s : state_ok s -> is_u64 (generation s) -> state_stored (db d) s -> applied_of (db d) = lastApplied s -> recover d = Ok s.
Proof. intros H1 H2 H3 H4. unfold recover. by apply load_state_ok. Qed.

Lemma installed_applied m index conf confIndex gen : is_u64 index -> applied_of (put_records m (install_records index conf confIndex gen)) = index.
Proof.
  intros Hu. unfold applied_of. rewrite (install_value m index conf confIndex gen kApplied (wrapDisk x02 (be 8 index))) by left.
  by rewrite unwrap_u64_wrap.
Qed.

Lemma staged_applied m gen es : Forall (fun e => exists s', member s' e) es ->
  applied_of (put_records m (map (effect_record gen) es)) = applied_of m.
Proof.
  intros Hes. unfold applied_of. rewrite put_records_notin; [done|]. intros ([k v] & E & (e & [= -> ->] & He)%list_elem_of_fmap)%list_elem_of_fmap.
  cbn [fst] in E. rewrite Forall_forall in Hes. destruct (Hes e He) as [s' Hs']. pose proof (effect_in_space s' gen e Hs') as Hsp.
  rewrite <- E in Hsp. by rewrite outside_space in Hsp.
Qed.
End install.


(** ** An instance *)

(** The image of a state with one row, installed over an empty state. *)
Definition image : bytes := match @exportSnapshot number_canon sample_state with Ok b => b | Fail _ => [] end.
Definition sample_snapshot : pbSnapshot := mkPbSnapshot (mkConf [1] [] [] [] false) 3 1 image.

Lemma image_decodes : @decodeSnapshot number_canon image = Ok sample_state.
Proof. vm_compute. reflexivity. Qed.

Lemma booted_records key value : db booted !! key = Some value -> key = kBootstrap \/ key = kNodeID.
Proof.
  cbn [db booted set_identity set_db]. intros [[<- _]|[_ [[<- _]|[_ H]]%lookup_insert_Some]]%lookup_insert_Some; auto. by apply lookup_empty_Some in H.
Qed.

Lemma booted_state : @durable_state number_canon booted newLogicalState.
Proof.
  split; [apply newLogicalState_ok|by vm_compute| |done]. split.
  - intros key value [->| ->]%booted_records Hsp; by vm_compute in Hsp.
  - intros key value e (_ & _ & H)%record_iff. destruct e as [id row|id row|id r|id|n|]; cbn in H; try done.
    + destruct H as (x & H & _). by apply lookup_empty_Some in H.
    + destruct H as [x H]. by apply lookup_empty_Some in H.
  - right. split; [vm_compute; reflexivity|done].
  - right. split; [vm_compute; reflexivity|done].
  - intros key value [->| ->]%booted_records; by vm_compute.
Qed.

