(* ===== verification/Storage.v ===== *)
(** The single-node row store (src/internal/storage/storage.go): rows as
    records of the owned engine, each write a batch of a history record, the
    head of the row, the sequence and the index of its version; reads at a
    sequence; and the validation of every record when a store is opened.

    The engine is its map of records: [Get] and [Last] read it, [Stream]
    yields it in key order, and a batch is applied to it as a whole.  Applying
    a batch can poison the engine; [db_faults] scripts how.  The answers of
    the version generator are scripted too. *)

From Stdlib Require Import ZArith Lia.
From stdpp Require Import base list gmap sorting.
From S2P Require Import Prelude GoStd Codec Uuidv7 Coordinates EngineOps Command State Snapshot View.

Local Open Scope Z_scope.

(** ** Constants *)

Definition MaxValueBytes : Z := 2 ^ 20.
Definition maxHistoryKeyBytes : Z :=
  1 + (1 + len (lit "vbdb-version") + 2) + (1 + Coordinates.MaxTableBytes + 2) + (1 + 2 * Coordinates.MaxKeyBytes + 2) + (1 + 8) + 1.
Definition maxRowRecordBytes : Z := 4 + 1 + 1 + 8 + 16 + 4 + MaxValueBytes + 4.
Definition maxVersionIndexBytes : Z := 4 + 1 + 1 + 4 + maxHistoryKeyBytes + 16 + 4.
Definition maxStorageBatchBytes : Z := 4 * (maxHistoryKeyBytes + maxRowRecordBytes + 16).
Definition maxVersionAttempts : nat := 16.

Definition magic : bytes := lit "VBDB".
Definition recordFormat : byte := x01.
Definition recordHead : byte := x01.
Definition recordVersion : byte := x02.
Definition recordSequence : byte := x03.
Definition recordVersionIndex : byte := x04.

Inductive storage_error : Type :=
| ErrNotFound
| ErrPrecondition
| ErrClosed
| ErrTerminal
| ErrCorrupt (what : String.string)
| ErrValueTooLarge
| ErrInvalidCoordinates
| ErrInsecureDataDir
| ErrInvalidJSON
| ErrNonCanonicalJSON
| ErrInvalidVersion
| ErrInvalidCondition
| ErrVersionUsed
| ErrGenerator
| ErrStorage (what : String.string)
| ErrCodec (e : codec_error)
| ErrEngine (context : String.string) (e : engine_error).

(** ** The store *)

(** How the engine answers the next batch: it commits, or it is poisoned and
    the batch may or may not be durable. *)
Inductive commit : Type :=
| Committed
| Poisoned (durable : bool).

(** [generated] holds what the version generator answers next; [None] is an
    error, and so is an exhausted script. *)
Record Engine : Type := mkEngine {
  db : gmap bytes bytes;
  db_options : Options;
  db_faults : list commit;
  generated : list (option UUID);
  sequence : Z;
  closed : bool;
  terminalErr : option storage_error
}.

Record WriteResult : Type := mkWriteResult { wr_Row : Row; wr_Created : bool }.

Definition with_generated (e : Engine) (g : list (option UUID)) : Engine :=
  mkEngine (db e) (db_options e) (db_faults e) g (sequence e) (closed e) (terminalErr e).

(** [Engine.Get], [Engine.Last] and [Engine.Stream] of the owned engine. *)
Definition db_Get (opts : Options) (m : gmap bytes bytes) (key : bytes) : result engine_error bytes :=
  validateKey key (EngineOps.MaxKeyBytes opts);;
  match m !! key with Some v => Ok v | None => Fail EngineOps.ErrNotFound end.
Definition db_Last (opts : Options) (m : gmap bytes bytes) (start end_ : bytes) : result engine_error (bytes * bytes) :=
  validateRange opts (Some start) (Some end_);;
  match last (List.filter (fun kv => ble start (fst kv) && blt (fst kv) end_) (sorted_members m)) with
  | Some kv => Ok kv
  | None => Fail EngineOps.ErrNotFound
  end.
Definition db_Stream (m : gmap bytes bytes) : list (bytes * bytes) := sorted_members m.

Definition mapEngineError (context : String.string) (e : engine_error) : storage_error :=
  match e with
  | EngineOps.ErrInvalidDataDir => ErrInsecureDataDir
  | EngineOps.ErrNotFound => ErrNotFound
  | EngineOps.ErrClosed => ErrClosed
  | EngineOps.ErrPoisoned _ => ErrTerminal
  | EngineOps.ErrCorrupt _ => ErrCorrupt context
  | _ => ErrEngine context e
  end.

Definition stateErr (e : Engine) : storage_error :=
  match terminalErr e with Some err => err | None => ErrClosed end.
Definition unusable (e : Engine) : bool := bool_decide (is_Some (terminalErr e)) || closed e.

(** ** Keys *)

Definition validateCoordinates (table key : bytes) : result storage_error unit :=
  match Coordinates.Validate table key with Ok _ => Ok tt | Fail _ => Fail ErrInvalidCoordinates end.

Definition string_component (s : bytes) : result storage_error Component := map_err ErrCodec (Codec.String s).
Definition encode_key (cs : list Component) : result storage_error bytes := map_err ErrCodec (EncodeTuple cs).

Definition headKey (table key : bytes) : result storage_error bytes :=
  kind ← string_component (lit "vbdb-head");
  tableComponent ← string_component table;
  keyComponent ← string_component key;
  encode_key [kind; tableComponent; keyComponent].

Definition historyPrefix (table key : bytes) : result storage_error bytes :=
  kind ← string_component (lit "vbdb-version");
  tableComponent ← string_component table;
  keyComponent ← string_component key;
  encoded ← encode_key [kind; tableComponent; keyComponent];
  Ok (sub encoded 0 (len encoded - 1)).

Definition historyKey (table key : bytes) (sequence : Z) : result storage_error bytes :=
  kind ← string_component (lit "vbdb-version");
  tableComponent ← string_component table;
  keyComponent ← string_component key;
  encode_key [kind; tableComponent; keyComponent; Codec.Uint64 sequence].

Definition versionIndexKey (version : UUID) : result storage_error bytes :=
  kind ← string_component (lit "vbdb-version-index");
  encode_key [kind; Codec.Bytes version].

Definition sequenceKey : result storage_error bytes :=
  kind ← string_component (lit "vbdb-sequence");
  encode_key [kind].

(** [components[i]] of a tuple that is known to be long enough. *)
Definition component (cs : list Component) (i : nat) : Component := nth i cs (mkComponent InvalidKind [] None).

Definition decodePersistedCoordinates (components : list Component) (count : Z) : result storage_error (bytes * bytes) :=
  fail_if (negb (len components =? count) || negb (bool_decide (Component_Kind (component components 1) = StringKind))
           || negb (bool_decide (Component_Kind (component components 2) = StringKind)))
    (ErrStorage "table and key components must be strings");;
  table ← map_err ErrCodec (Component_Text (component components 1));
  key ← map_err ErrCodec (Component_Text (component components 2));
  fail_if (negb (is_ok (validateCoordinates table key))) ErrInvalidCoordinates;;
  Ok (table, key).

(** ** Records *)

Definition appendChecksum (encoded : bytes) : bytes := encoded ++ be 4 (crc32.Checksum encoded).

Definition validChecksum (encoded : bytes) : bool :=
  let n := len encoded in
  if n <? 4 then false else crc32.Checksum (sub encoded 0 (n - 4)) =? un_be (sub encoded (n - 4) n).

Definition encodeSequence (sequence : Z) : bytes := appendChecksum (magic ++ [recordFormat; recordSequence] ++ be 8 sequence).

Definition decodeSequence (encoded : bytes) : result storage_error Z :=
  fail_if (negb (len encoded =? 4 + 1 + 1 + 8 + 4) || negb (beq (sub encoded 0 4) magic) || negb (beq (sub encoded 4 5) [recordFormat])
           || negb (beq (sub encoded 5 6) [recordSequence]) || negb (validChecksum encoded)) (ErrStorage "invalid sequence record");;
  Ok (un_be (sub encoded 6 14)).

Definition encodeVersionIndex (row : Row) : result storage_error bytes :=
  history ← historyKey (row_Table row) (row_Key row) (row_Sequence row);
  fail_if (maxHistoryKeyBytes <? len history) (ErrStorage "history key exceeds persisted index bound");;
  Ok (appendChecksum (magic ++ [recordFormat; recordVersionIndex] ++ be 4 (len history) ++ history ++ row_Version row)).

Definition decodeVersionIndex (encoded : bytes) (expected : UUID) : result storage_error bytes :=
  let fixedBytes := 4 + 1 + 1 + 4 + 16 + 4 in
  fail_if ((len encoded <? fixedBytes) || (maxVersionIndexBytes <? len encoded) || negb (beq (sub encoded 0 4) magic)
           || negb (beq (sub encoded 4 5) [recordFormat]) || negb (beq (sub encoded 5 6) [recordVersionIndex]))
    (ErrStorage "invalid version index header");;
  let historyLength := un_be (sub encoded 6 10) in
  fail_if ((maxHistoryKeyBytes <? historyLength) || negb (historyLength + fixedBytes =? len encoded))
    (ErrStorage "invalid version index length");;
  fail_if (negb (validChecksum encoded)) (ErrStorage "version index checksum mismatch");;
  let version := sub encoded (10 + historyLength) (26 + historyLength) in
  fail_if (negb (is_ok (UUIDFromBytes version)) || negb (beq version expected)) (ErrStorage "version index UUID mismatch");;
  let history := sub encoded 10 (10 + historyLength) in
  components ← map_err (fun _ => ErrStorage "version index history key is malformed") (DecodeTuple history);
  fail_if (negb (len components =? 4) || negb (bool_decide (Component_Kind (component components 0) = StringKind)))
    (ErrStorage "version index history key is malformed");;
  kind ← map_err (fun _ => ErrStorage "version index history kind is malformed") (Component_Text (component components 0));
  fail_if (negb (beq kind (lit "vbdb-version"))) (ErrStorage "version index history kind is malformed");;
  '(table, key) ← decodePersistedCoordinates components 4;
  sequence ← map_err (fun _ => ErrStorage "version index history sequence is malformed") (Component_Uint64 (component components 3));
  fail_if (sequence =? 0) (ErrStorage "version index history sequence is malformed");;
  canonical ← map_err (fun _ => ErrStorage "version index history key is not canonical") (historyKey table key sequence);
  fail_if (negb (beq canonical history)) (ErrStorage "version index history key is not canonical");;
  Ok history.

Definition validateCondition (condition : Condition) : result storage_error unit :=
  fail_if (CreateOnly condition && bool_decide (is_Some (IfMatch condition))) ErrInvalidCondition;;
  match IfMatch condition with
  | None => Ok tt
  | Some v => fail_if (negb (is_ok (UUIDFromBytes v))) ErrInvalidCondition
  end.

Section storage.
Context {canon : Canonicalizer}.

Definition encodeRow (kind : byte) (row : Row) : result storage_error bytes :=
  fail_if ((negb (bool_decide (kind = recordHead)) && negb (bool_decide (kind = recordVersion))) || (MaxValueBytes <? len (row_Value row)))
    (ErrStorage "invalid row record");;
  match Canonicalize (row_Value row) with
  | Some canonical =>
      fail_if (negb (beq canonical (row_Value row))) (ErrStorage "row value is not canonical JSON");;
      Ok (appendChecksum (magic ++ [recordFormat; kind] ++ be 8 (row_Sequence row) ++ row_Version row
                          ++ be 4 (len (row_Value row)) ++ row_Value row))
  | None => Fail (ErrStorage "row value is not canonical JSON")
  end.

(** The row of a record has no coordinates; they are in its key. *)
Definition decodeRow (encoded : bytes) (expectedKind : byte) : result storage_error Row :=
  let fixedBytes := 4 + 1 + 1 + 8 + 16 + 4 + 4 in
  fail_if ((len encoded <? fixedBytes) || (maxRowRecordBytes <? len encoded) || negb (beq (sub encoded 0 4) magic)
           || negb (beq (sub encoded 4 5) [recordFormat]) || negb (beq (sub encoded 5 6) [expectedKind]))
    (ErrStorage "invalid row record header");;
  let valueLength := un_be (sub encoded 30 34) in
  fail_if ((MaxValueBytes <? valueLength) || negb (valueLength + fixedBytes =? len encoded)) (ErrStorage "invalid row record length");;
  fail_if (negb (validChecksum encoded)) (ErrStorage "row record checksum mismatch");;
  version ← map_err (fun _ => ErrStorage "invalid row UUID") (UUIDFromBytes (sub encoded 14 30));
  let value := sub encoded 34 (34 + valueLength) in
  match Canonicalize value with
  | None => Fail (ErrStorage "invalid JSON value")
  | Some canonical =>
      fail_if (negb (beq canonical value)) (ErrStorage "non-canonical JSON value");;
      Ok (mkRow [] [] version (un_be (sub encoded 6 14)) value)
  end.

Definition with_coordinates (row : Row) (table key : bytes) : Row :=
  mkRow table key (row_Version row) (row_Sequence row) (row_Value row).

(** ** Reads *)

Definition Sequence (e : Engine) : result storage_error Z :=
  if unusable e then Fail (stateErr e) else Ok (sequence e).

Definition readHeadLocked (e : Engine) (table key : bytes) : result storage_error Row :=
  encodedKey ← headKey table key;
  value ← map_err (mapEngineError "storage: read head") (db_Get (db_options e) (db e) encodedKey);
  row ← map_err (fun _ => ErrCorrupt "head") (decodeRow value recordHead);
  fail_if ((row_Sequence row =? 0) || (sequence e <? row_Sequence row)) (ErrCorrupt "head sequence");;
  Ok (with_coordinates row table key).

Definition readHistoryLocked (e : Engine) (table key : bytes) (seq : Z) : result storage_error Row :=
  prefix ← historyPrefix table key;
  upper ← historyKey table key (uint64 (seq + 1));
  entry ← map_err (mapEngineError "storage: history iterator") (db_Last (db_options e) (db e) prefix upper);
  components ← map_err (fun _ => ErrCorrupt "history key") (DecodeTuple (fst entry));
  fail_if (negb (len components =? 4)) (ErrCorrupt "history key");;
  storedTable ← map_err (fun _ => ErrCorrupt "history key coordinates") (Component_Text (component components 1));
  storedKey ← map_err (fun _ => ErrCorrupt "history key coordinates") (Component_Text (component components 2));
  storedSequence ← map_err (fun _ => ErrCorrupt "history key coordinates") (Component_Uint64 (component components 3));
  fail_if (negb (beq storedTable table) || negb (beq storedKey key) || (storedSequence =? 0) || (seq <? storedSequence)
           || (sequence e <? storedSequence)) (ErrCorrupt "history key coordinates");;
  decoded ← map_err (fun _ => ErrCorrupt "history value") (decodeRow (snd entry) recordVersion);
  fail_if (negb (row_Sequence decoded =? storedSequence)) (ErrCorrupt "history key/value sequence mismatch");;
  Ok (with_coordinates decoded table key).

Definition GetAt (e : Engine) (table key : bytes) (seq : Z) : result storage_error Row :=
  validateCoordinates table key;;
  if unusable e then Fail (stateErr e)
  else
    head ← readHeadLocked e table key;
    if (seq =? max_uint64) || (row_Sequence head <=? seq) then Ok head else readHistoryLocked e table key seq.

Definition Get (e : Engine) (table key : bytes) : result storage_error Row := GetAt e table key max_uint64.

Definition versionUsedLocked (e : Engine) (version : UUID) : result storage_error bool :=
  key ← versionIndexKey version;
  match db_Get (db_options e) (db e) key with
  | Fail EngineOps.ErrNotFound => Ok false
  | Fail err => Fail (mapEngineError "storage: read version index" err)
  | Ok value => map_err (fun _ => ErrCorrupt "version index") (decodeVersionIndex value version);; Ok true
  end.

(** ** Writes *)

(** The checks of [Put] before the lock is taken. *)
Definition check_put (table key value : bytes) (condition : Condition) : result storage_error unit :=
  validateCoordinates table key;;
  fail_if (MaxValueBytes <? len value) ErrValueTooLarge;;
  match Canonicalize value with
  | None => Fail ErrInvalidJSON
  | Some canonical =>
      fail_if (MaxValueBytes <? len canonical) ErrValueTooLarge;;
      fail_if (negb (beq canonical value)) ErrNonCanonicalJSON;;
      validateCondition condition
  end.

(** The head of the row under the condition of a write. *)
Definition check_condition (e : Engine) (table key : bytes) (condition : Condition) : result storage_error (option Row) :=
  head ← match readHeadLocked e table key with
         | Ok row => Ok (Some row)
         | Fail ErrNotFound => Ok None
         | Fail err => Fail err
         end;
  fail_if (CreateOnly condition && bool_decide (is_Some head)) ErrPrecondition;;
  fail_if (match IfMatch condition, head with
           | None, _ => false
           | Some _, None => true
           | Some v, Some row => negb (beq (row_Version row) v)
           end) ErrPrecondition;;
  Ok head.

(** The version loop, with the attempts left. *)
Fixpoint choose_version (attempts : nat) (e : Engine) : Engine * result storage_error UUID :=
  match attempts with
  | O => (e, Fail ErrVersionUsed)
  | S attempts' =>
      let e' := with_generated e (tail (generated e)) in
      match generated e with
      | Some version :: _ =>
          if negb (is_ok (UUIDFromBytes version)) then (e', Fail ErrInvalidVersion)
          else match versionUsedLocked e' version with
               | Fail err => (e', Fail err)
               | Ok true => choose_version attempts' e'
               | Ok false => (e', Ok version)
               end
      | _ => (e', Fail ErrGenerator)
      end
  end.

(** The four records of a write. *)
Definition row_records (row : Row) : result storage_error (list (bytes * bytes)) :=
  versionKey ← historyKey (row_Table row) (row_Key row) (row_Sequence row);
  headKeyBytes ← headKey (row_Table row) (row_Key row);
  versionRecord ← encodeRow recordVersion row;
  headRecord ← encodeRow recordHead row;
  let sequenceRecord := encodeSequence (row_Sequence row) in
  sequenceKeyBytes ← sequenceKey;
  indexKey ← versionIndexKey (row_Version row);
  versionIndexRecord ← encodeVersionIndex row;
  Ok [(versionKey, versionRecord); (headKeyBytes, headRecord); (sequenceKeyBytes, sequenceRecord); (indexKey, versionIndexRecord)].

(** The batch of a write, stopping at the first refused [Put]. *)
Fixpoint stage_records (b : Batch) (records : list (bytes * bytes)) : result storage_error Batch :=
  match records with
  | [] => Ok b
  | (key, value) :: records' =>
      match Batch_Put b key value with
      | (b, Ok _) => stage_records b records'
      | (_, Fail e) => Fail (ErrEngine "storage: stage" e)
      end
  end.

(** The records a batch of [Put]s leaves behind. *)
Definition apply_ops (m : gmap bytes bytes) (l : list operation) : gmap bytes bytes :=
  fold_left (fun m o => <[op_key o := op_value o]> m) l m.

(** [Engine.Apply] and what the store makes of its answer. *)
Definition commit_batch (e : Engine) (b : Batch) : Engine * result storage_error unit :=
  match db_faults e with
  | Poisoned durable :: faults =>
      (mkEngine (if durable then apply_ops (db e) (ops b) else db e) (db_options e) faults (generated e) (sequence e) (closed e)
         (Some ErrTerminal), Fail ErrTerminal)
  | faults =>
      (mkEngine (apply_ops (db e) (ops b)) (db_options e) (tail faults) (generated e) (sequence e) (closed e) (terminalErr e), Ok tt)
  end.

Definition with_sequence (e : Engine) (n : Z) : Engine :=
  mkEngine (db e) (db_options e) (db_faults e) (generated e) n (closed e) (terminalErr e).

Definition Put (e : Engine) (table key value : bytes) (condition : Condition) : Engine * result storage_error WriteResult :=
  match check_put table key value condition with
  | Fail err => (e, Fail err)
  | Ok _ =>
      if unusable e then (e, Fail (stateErr e))
      else match check_condition e table key condition with
      | Fail err => (e, Fail err)
      | Ok head =>
          if sequence e =? max_uint64 then (e, Fail (ErrStorage "commit sequence exhausted"))
          else
            let seq := uint64 (sequence e + 1) in
            match choose_version maxVersionAttempts e with
            | (e, Fail err) => (e, Fail err)
            | (e, Ok version) =>
                let row := mkRow table key version seq value in
                match row_records row with
                | Fail err => (e, Fail err)
                | Ok records =>
                    match stage_records (Engine_NewBatch (db_options e)) records with
                    | Fail err => (e, Fail err)
                    | Ok b =>
                        match commit_batch e b with
                        | (e, Fail err) => (e, Fail err)
                        | (e, Ok _) => (with_sequence e seq, Ok (mkWriteResult row (negb (bool_decide (is_Some head)))))
                        end
                    end
                end
            end
      end
  end.

(** [Close], given what the owned engine answers. *)
Definition Close (e : Engine) (closeErr : option engine_error) : Engine * result storage_error unit :=
  if closed e then (e, Ok tt)
  else
    let e := mkEngine (db e) (db_options e) (db_faults e) (generated e) (sequence e) true (terminalErr e) in
    match closeErr with
    | Some err => (e, Fail (mapEngineError "storage: close" err))
    | None => (e, Ok tt)
    end.

(** ** Opening *)

Definition hasUserKeys (m : gmap bytes bytes) : bool := match db_Stream m with [] => false | _ :: _ => true end.

(** What the validation has seen. *)
Record seen : Type := mkSeen {
  historyKeys : gset (bytes * bytes);
  latestHistories : gmap (bytes * bytes) Row;
  heads : gmap (bytes * bytes) Row;
  seenSequences : gset Z
}.

Definition nothing_seen : seen := mkSeen ∅ ∅ ∅ ∅.

Definition corrupt_if (c : bool) (what : String.string) : result storage_error unit := fail_if c (ErrCorrupt what).
Definition or_corrupt {E A} (what : String.string) (m : result E A) : result storage_error A := map_err (fun _ => ErrCorrupt what) m.

Definition validate_head (seq : Z) (s : seen) (components : list Component) (value : bytes) : result storage_error seen :=
  '(table, rowKey) ← or_corrupt "head key shape" (decodePersistedCoordinates components 3);
  row ← or_corrupt "head record" (decodeRow value recordHead);
  corrupt_if ((row_Sequence row =? 0) || (seq <? row_Sequence row)) "head record";;
  Ok (mkSeen (historyKeys s) (latestHistories s) (<[(table, rowKey) := row]> (heads s)) (seenSequences s)).

Definition validate_history (opts : Options) (m : gmap bytes bytes) (seq : Z) (s : seen) (key : bytes) (components : list Component)
    (value : bytes) : result storage_error seen :=
  corrupt_if (negb (len components =? 4)) "history key shape";;
  '(table, rowKey) ← or_corrupt "history key shape" (decodePersistedCoordinates components 4);
  storedSequence ← or_corrupt "history record" (Component_Uint64 (component components 3));
  row ← or_corrupt "history record" (decodeRow value recordVersion);
  corrupt_if ((storedSequence =? 0) || negb (storedSequence =? row_Sequence row) || (seq <? storedSequence)) "history record";;
  encodedHistoryKey ← or_corrupt "history key is not canonical" (historyKey table rowKey storedSequence);
  corrupt_if (negb (beq encodedHistoryKey key)) "history key is not canonical";;
  indexKey ← or_corrupt "version index key" (versionIndexKey (row_Version row));
  indexValue ← or_corrupt "history has no version index" (db_Get opts m indexKey);
  indexHistory ← or_corrupt "version index mismatch" (decodeVersionIndex indexValue (row_Version row));
  corrupt_if (negb (beq indexHistory key)) "version index mismatch";;
  let keyID := (table, rowKey) in
  corrupt_if (bool_decide (storedSequence ∈ seenSequences s)) "duplicate history sequence";;
  let latest := match latestHistories s !! keyID with
                | Some latest => if row_Sequence latest <? storedSequence then <[keyID := row]> (latestHistories s) else latestHistories s
                | None => <[keyID := row]> (latestHistories s)
                end in
  Ok (mkSeen ({[keyID]} ∪ historyKeys s) latest (heads s) ({[storedSequence]} ∪ seenSequences s)).

Definition validate_index (opts : Options) (m : gmap bytes bytes) (key : bytes) (components : list Component) (value : bytes)
    : result storage_error unit :=
  corrupt_if (negb (len components =? 2) || negb (bool_decide (Component_Kind (component components 1) = BytesKind)))
    "version index key shape";;
  versionBytes ← or_corrupt "version index key" (Component_Bytes (component components 1));
  version ← or_corrupt "version index key" (UUIDFromBytes versionBytes);
  canonicalIndexKey ← or_corrupt "version index key" (versionIndexKey version);
  corrupt_if (negb (beq canonicalIndexKey key)) "version index key";;
  history ← or_corrupt "version index value" (decodeVersionIndex value version);
  historyValue ← or_corrupt "version index points to missing history" (db_Get opts m history);
  historyRow ← or_corrupt "version index history mismatch" (decodeRow historyValue recordVersion);
  corrupt_if (negb (beq (row_Version historyRow) version)) "version index history mismatch".

(** The body of the record loop. *)
Definition validate_record (opts : Options) (m : gmap bytes bytes) (seq : Z) (s : seen) (key value : bytes) : result storage_error seen :=
  components ← or_corrupt "key" (DecodeTuple key);
  corrupt_if ((len components =? 0) || negb (bool_decide (Component_Kind (component components 0) = StringKind))) "unknown key";;
  kind ← or_corrupt "key kind" (Component_Text (component components 0));
  if beq kind (lit "vbdb-sequence") then
    corrupt_if (negb (len components =? 1)) "sequence key shape";;
    stored ← or_corrupt "sequence record mismatch" (decodeSequence value);
    corrupt_if (negb (stored =? seq)) "sequence record mismatch";;
    Ok s
  else if beq kind (lit "vbdb-head") then validate_head seq s components value
  else if beq kind (lit "vbdb-version") then validate_history opts m seq s key components value
  else if beq kind (lit "vbdb-version-index") then validate_index opts m key components value;; Ok s
  else Fail (ErrCorrupt "unknown record kind").

Fixpoint validate_records (opts : Options) (m : gmap bytes bytes) (seq : Z) (s : seen) (items : list (bytes * bytes))
    : result storage_error seen :=
  match items with
  | [] => Ok s
  | (key, value) :: items' => s ← validate_record opts m seq s key value; validate_records opts m seq s items'
  end.

(** The latest version of a row is its head. *)
Definition check_latest (s : seen) (kr : (bytes * bytes) * Row) : result storage_error unit :=
  let '(keyID, latest) := kr in
  match heads s !! keyID with
  | None => Fail (ErrCorrupt "history has no current head")
  | Some head =>
      corrupt_if (negb (row_Sequence head =? row_Sequence latest) || negb (beq (row_Version head) (row_Version latest))
                  || negb (beq (row_Value head) (row_Value latest))) "head does not match latest history"
  end.

Definition validatePersistedRecords (opts : Options) (m : gmap bytes bytes) (seq : Z) : result storage_error unit :=
  s ← validate_records opts m seq nothing_seen (db_Stream m);
  let seen_count := Z.of_nat (size (seenSequences s)) in
  corrupt_if (((seq =? 0) && negb (seen_count =? 0)) || (negb (seq =? 0) && negb (uint64 seen_count =? seq))) "sequence coverage mismatch";;
  for_all (check_latest s) (map_to_list (latestHistories s));;
  corrupt_if (negb (Nat.eqb (size (heads s)) (size (historyKeys s)))) "orphan current head".

Definition storage_options (o : Options) : Options :=
  mkOptions maxHistoryKeyBytes maxRowRecordBytes 4 maxStorageBatchBytes (MaxScanItems o) (MaxSnapshots o) (SegmentBytes o)
    (MemtableBytes o) (SSTBlockBytes o) (MaxSSTBytes o) (MaxSSTFiles o).

(** [Open] on the records the engine recovered. *)
Definition Open (dir : bytes) (o : Options) (m : gmap bytes bytes) (faults : list commit) (generate : list (option UUID))
    : result storage_error Engine :=
  fail_if (bool_decide (dir = [])) (ErrStorage "data directory is required");;
  opts ← map_err (mapEngineError "storage: open") (normalized (storage_options o));
  sequenceKeyBytes ← sequenceKey;
  seq ← match db_Get opts m sequenceKeyBytes with
        | Ok value => or_corrupt "sequence" (decodeSequence value)
        | Fail EngineOps.ErrNotFound => corrupt_if (hasUserKeys m) "sequence record is missing";; Ok 0
        | Fail err => Fail (mapEngineError "storage: read sequence" err)
        end;
  validatePersistedRecords opts m seq;;
  Ok (mkEngine m opts faults generate seq false None).
End storage.
