(* ===== verification/StorageRecords.v ===== *)
(** The keys and the records of the row store: which keys the constructors
    build, and that each record format round-trips and is canonical. *)

From Stdlib Require Import ZArith Lia.
From stdpp Require Import base list gmap sorting.
From S2P Require Import Prelude GoStd Codec Uuidv7 Coordinates EngineOps Command State Snapshot View Storage.

Local Open Scope Z_scope.

(** ** Keys as tuples *)

Definition head_cs (table key : bytes) : list Component := [str (lit "vbdb-head"); str table; str key].
Definition hist_cs (table key : bytes) (seq : Z) : list Component :=
  [str (lit "vbdb-version"); str table; str key; Codec.Uint64 seq].
Definition index_cs (version : UUID) : list Component := [str (lit "vbdb-version-index"); mkComponent BytesKind version None].
Definition seq_cs : list Component := [str (lit "vbdb-sequence")].

(** A tuple the codec accepts and the engine takes as a key. *)
Definition key_cs (cs : list Component) : Prop :=
  Forall shaped cs /\ 1 <= len cs <= 4 /\ len (tuple_bytes cs) <= maxHistoryKeyBytes.

Definition coords (table key : bytes) : Prop := ValidTable table = true /\ ValidKey key = true.
Definition uuid (v : UUID) : Prop := length v = 16%nat /\ is_v7 v = true.

Lemma uuid_ok v : is_ok (UUIDFromBytes v) = true <-> uuid v.
Proof.
  split.
  - destruct (UUIDFromBytes v) as [u|] eqn:E; [|done]. by apply UUIDFromBytes_Ok in E as (_ & ? & ?).
  - intros [H1 H2]. assert (UUIDFromBytes v = Ok v) as -> by (by apply UUIDFromBytes_Ok). done.
Qed.

Lemma coords_utf8 table key : coords table key -> utf8.Valid table = true /\ utf8.Valid key = true.
Proof.
  intros [Ht Hk]. split; [|by destruct (proj1 (ValidKey_spec key) Hk) as (_ & _ & ? & _)].
  apply ascii_utf8. eapply Forall_impl; [by apply ValidTable_ascii|]. simpl. lia.
Qed.

Lemma validateCoordinates_Ok table key : validateCoordinates table key = Ok tt <-> coords table key.
Proof.
  unfold validateCoordinates, Coordinates.Validate, coords.
  destruct (ValidTable table), (ValidKey key); cbn; split; (done || by intros [? ?] || by auto).
Qed.

Lemma key_cs_max cs : key_cs cs -> len (tuple_bytes cs) <= MaxTupleBytes /\ len cs <= MaxComponents.
Proof.
  intros (_ & Hc & Hl). assert (maxHistoryKeyBytes <= MaxTupleBytes) by (by vm_compute). assert (4 <= MaxComponents) by (by vm_compute). lia.
Qed.

Lemma key_encodes cs : key_cs cs -> EncodeTuple cs = Ok (tuple_bytes cs).
Proof. intros H. pose proof (key_cs_max cs H) as [? ?]. apply EncodeTuple_spec. by destruct H. Qed.

Lemma key_decodes cs : key_cs cs -> DecodeTuple (tuple_bytes cs) = Ok cs.
Proof. intros H. pose proof (key_cs_max cs H) as [? ?]. apply DecodeTuple_spec. by destruct H. Qed.

Lemma key_inj a b : key_cs a -> key_cs b -> tuple_bytes a = tuple_bytes b -> a = b.
Proof. intros [? _] [? _]. by apply tuple_bytes_inj. Qed.

Lemma key_validates opts cs : EngineOps.MaxKeyBytes opts = maxHistoryKeyBytes -> key_cs cs ->
  validateKey (tuple_bytes cs) (EngineOps.MaxKeyBytes opts) = Ok tt.
Proof.
  intros -> (_ & _ & Hl). unfold validateKey. apply fail_if_Ok, orb_false_iff. unfold tuple_bytes in *. rewrite len_cons in *.
  pose proof (len_nonneg (components_bytes cs ++ [x00])). rewrite Z.eqb_neq, Z.ltb_ge. lia.
Qed.

Lemma len_uint64_component n : len (component_bytes (Codec.Uint64 n)) = 9.
Proof. unfold component_bytes, payload. cbn [Codec.Uint64 kind data]. rewrite len_cons, bool_decide_eq_false_2, bool_decide_eq_false_2 by done. cbn [orb]. by rewrite len_be. Qed.

Lemma len_tuple cs : len (tuple_bytes cs) = 2 + len (components_bytes cs).
Proof. unfold tuple_bytes. autorewrite with len. lia. Qed.

Lemma head_key_cs table key : coords table key -> key_cs (head_cs table key).
Proof.
  intros H. destruct (coords_utf8 _ _ H), H as [Ht Hk]. split; [by repeat constructor|]. split; [unfold head_cs, len; cbn; lia|].
  pose proof (len_str_table table Ht). pose proof (len_str_key key Hk). rewrite len_tuple. unfold components_bytes, head_cs. cbn [map concat].
  autorewrite with len. change (len (component_bytes (str (lit "vbdb-head")))) with 12. change maxHistoryKeyBytes with 2143. lia.
Qed.

Lemma hist_key_cs table key seq : coords table key -> key_cs (hist_cs table key seq).
Proof.
  intros H. destruct (coords_utf8 _ _ H), H as [Ht Hk].
  assert (shaped (Codec.Uint64 seq)) by (split; [done|]; exact (len_be 8 seq)).
  split; [by repeat constructor|]. split; [unfold hist_cs, len; cbn; lia|].
  pose proof (len_str_table table Ht). pose proof (len_str_key key Hk). rewrite len_tuple. unfold components_bytes, hist_cs. cbn [map concat].
  autorewrite with len. rewrite len_uint64_component. change (len (component_bytes (str (lit "vbdb-version")))) with 15.
  change maxHistoryKeyBytes with 2143. lia.
Qed.

Lemma len_bytes_component v : len (component_bytes (mkComponent BytesKind v None)) <= 3 + 2 * len v.
Proof.
  unfold component_bytes, payload. cbn [kind data]. rewrite bool_decide_eq_true_2 by done. cbn [orb]. pose proof (len_escape_le v). autorewrite with len. lia.
Qed.

Lemma index_key_cs v : uuid v -> key_cs (index_cs v).
Proof.
  intros [Hv _]. split; [by repeat constructor|]. split; [unfold index_cs, len; cbn; lia|].
  pose proof (len_bytes_component v). rewrite len_tuple. unfold components_bytes, index_cs. cbn [map concat]. autorewrite with len.
  assert (len v = 16) as Lv by (unfold len; lia). change (len (component_bytes (str (lit "vbdb-version-index")))) with 21.
  change maxHistoryKeyBytes with 2143. lia.
Qed.

Lemma seq_key_cs : key_cs seq_cs.
Proof. split; [by repeat constructor|]. split; [unfold seq_cs, len; cbn; lia|]. by vm_compute. Qed.
#[export] Hint Resolve head_key_cs hist_key_cs index_key_cs seq_key_cs : storage.

(** ** The key constructors *)

Lemma string_ok s : utf8.Valid s = true -> 2 * len s + 5 <= MaxTupleBytes -> string_component s = Ok (str s).
Proof. intros. unfold string_component. by rewrite String_small. Qed.

Lemma coords_ok table key : coords table key -> string_component table = Ok (str table) /\ string_component key = Ok (str key).
Proof. intros [Ht Hk]. unfold string_component. by rewrite valid_table_String, valid_key_String. Qed.

Lemma encode_key_ok cs : key_cs cs -> encode_key cs = Ok (tuple_bytes cs).
Proof. intros H. unfold encode_key. by rewrite key_encodes. Qed.

Lemma headKey_ok table key : coords table key -> headKey table key = Ok (tuple_bytes (head_cs table key)).
Proof.
  intros H. unfold headKey. destruct (coords_ok _ _ H) as [-> ->]. change (string_component (lit "vbdb-head")) with (@Ok storage_error _ (str (lit "vbdb-head"))).
  cbn [mbind result_bind]. apply encode_key_ok. auto with storage.
Qed.

Lemma historyKey_ok table key seq : coords table key -> historyKey table key seq = Ok (tuple_bytes (hist_cs table key seq)).
Proof.
  intros H. unfold historyKey. destruct (coords_ok _ _ H) as [-> ->].
  change (string_component (lit "vbdb-version")) with (@Ok storage_error _ (str (lit "vbdb-version"))).
  cbn [mbind result_bind]. apply encode_key_ok. auto with storage.
Qed.

(** The prefix of the history keys of a row. *)
Definition hist_prefix (table key : bytes) : bytes :=
  formatVersion :: components_bytes [str (lit "vbdb-version"); str table; str key].

Lemma historyPrefix_ok table key : coords table key -> historyPrefix table key = Ok (hist_prefix table key).
Proof.
  intros H. unfold historyPrefix. destruct (coords_ok _ _ H) as [-> ->].
  change (string_component (lit "vbdb-version")) with (@Ok storage_error _ (str (lit "vbdb-version"))).
  cbn [mbind result_bind]. set (cs := [_; _; _]).
  assert (encode_key cs = Ok (tuple_bytes cs)) as ->.
  { apply encode_key_ok. destruct (hist_key_cs _ _ 0 H) as (Hs & _ & Hl). split; [|split; [unfold cs, len; cbn; lia|]].
    - rewrite Forall_forall in *. intros c Hc. apply Hs. unfold cs, hist_cs in *. set_solver.
    - rewrite len_tuple in *. unfold hist_cs, components_bytes, cs in *. cbn [map concat] in *. autorewrite with len in *.
      rewrite len_uint64_component in Hl. lia. }
  cbn [mbind result_bind]. unfold hist_prefix. fold cs. unfold tuple_bytes. f_equal.
  change (formatVersion :: components_bytes cs ++ [x00]) with ((formatVersion :: components_bytes cs) ++ [x00]).
  apply sub_app_head. rewrite !len_app. change (len [x00]) with 1. lia.
Qed.

Lemma versionIndexKey_ok v : uuid v -> versionIndexKey v = Ok (tuple_bytes (index_cs v)).
Proof.
  intros H. unfold versionIndexKey. change (string_component (lit "vbdb-version-index")) with (@Ok storage_error _ (str (lit "vbdb-version-index"))).
  cbn [mbind result_bind]. assert (Codec.Bytes v = mkComponent BytesKind v None) as ->.
  { unfold Codec.Bytes, bytesChecked. assert (checkVariableBytesBudget 1 v = Ok tt) as ->; [|done].
    apply checkVariableBytesBudget_spec. pose proof (len_escape_le v). destruct H as [Hv _]. assert (len v = 16) by (unfold len; lia).
    assert (1000 <= MaxTupleBytes) by (by vm_compute). lia. }
  apply encode_key_ok. auto with storage.
Qed.

Lemma sequenceKey_ok : sequenceKey = Ok (tuple_bytes seq_cs).
Proof. by vm_compute. Qed.

(** A key component read back. *)
Lemma Kind_str s : utf8.Valid s = true -> 1 + len (component_bytes (str s)) + 1 <= MaxTupleBytes -> Component_Kind (str s) = StringKind.
Proof. intros Hu Hl. unfold Component_Kind, Component_Err. by rewrite (proj2 (validate_spec (str s) tt)). Qed.

Lemma Kind_coords table key : coords table key -> Component_Kind (str table) = StringKind /\ Component_Kind (str key) = StringKind.
Proof.
  intros H. destruct (coords_utf8 _ _ H), H as [Ht Hk]. pose proof (len_str_table table Ht). pose proof (len_str_key key Hk).
  assert (3000 <= MaxTupleBytes) by (by vm_compute). split; apply Kind_str; (done || lia).
Qed.

(** ** Records *)

Lemma len_appendChecksum b : len (appendChecksum b) = len b + 4.
Proof. unfold appendChecksum. by rewrite len_app, len_be. Qed.

Lemma validChecksum_append b : validChecksum (appendChecksum b) = true.
Proof.
  unfold validChecksum. rewrite len_appendChecksum. pose proof (len_nonneg b). rewrite (proj2 (Z.ltb_ge _ 4)) by lia.
  unfold appendChecksum. rewrite sub_app_head by lia. rewrite sub_suffix by (rewrite ?len_be; lia).
  rewrite crc32.un_be_Checksum. apply Z.eqb_refl.
Qed.

Lemma validChecksum_canonical e : validChecksum e = true -> 4 <= len e /\ e = appendChecksum (sub e 0 (len e - 4)).
Proof.
  unfold validChecksum. set (n := len e). destruct (Z.ltb_spec n 4); [done|]. intros E%Z.eqb_eq. split; [done|].
  unfold appendChecksum. rewrite E. assert (len (sub e (n - 4) n) = 4) as Hl by (rewrite len_sub; lia).
  rewrite be_un_be by (unfold len in Hl; lia). rewrite sub_cat by lia. symmetry. by apply sub_all.
Qed.

(** The head of every record: the magic, the format and the kind. *)
Definition header (kind : byte) : bytes := magic ++ [recordFormat; kind].

Lemma storage_header kind rest (e := header kind ++ rest) :
  sub e 0 4 = magic /\ sub e 4 5 = [recordFormat] /\ sub e 5 6 = [kind] /\ forall lo hi, 6 <= lo -> sub e lo hi = sub rest (lo - 6) (hi - 6).
Proof.
  unfold e, header. rewrite <- app_assoc. assert (len magic = 4) as H4 by done. split_and!.
  - by rewrite sub_app_head.
  - rewrite sub_skip, H4 by (rewrite ?H4; lia). by apply (sub_field [recordFormat]).
  - rewrite sub_skip, H4 by (rewrite ?H4; lia). change ([recordFormat; kind] ++ rest) with ([recordFormat] ++ [kind] ++ rest).
    by apply sub_app_mid.
  - intros lo hi Hlo. rewrite sub_skip, H4 by (rewrite ?H4; lia). rewrite sub_skip by (change (len [recordFormat; kind]) with 2; lia).
    change (len [recordFormat; kind]) with 2. f_equal; lia.
Qed.

Lemma header_inv e kind : 6 <= len e -> sub e 0 4 = magic -> sub e 4 5 = [recordFormat] -> sub e 5 6 = [kind] ->
  sub e 0 6 = header kind.
Proof.
  intros Hl E1 E2 E3. unfold header. change [recordFormat; kind] with ([recordFormat] ++ [kind]). rewrite <- E1, <- E2, <- E3.
  by rewrite !sub_cat by lia.
Qed.

(** The fields of a record with a checksum. *)
Lemma record_fields kind r (e := appendChecksum (header kind ++ r)) :
  sub e 0 4 = magic /\ sub e 4 5 = [recordFormat] /\ sub e 5 6 = [kind] /\ validChecksum e = true /\ len e = 10 + len r
  /\ exists c, forall lo hi, 6 <= lo -> sub e lo hi = sub (r ++ c) (lo - 6) (hi - 6).
Proof.
  unfold e at 4 5. rewrite validChecksum_append, len_appendChecksum, len_app. change (len (header kind)) with 6.
  unfold e, appendChecksum. rewrite <- app_assoc. destruct (storage_header kind (r ++ be 4 (crc32.Checksum (header kind ++ r)))) as (E1 & E2 & E3 & Hf).
  split_and!; [done..|lia|]. eexists. exact Hf.
Qed.

Lemma decodeSequence_encode n : 0 <= n < 2 ^ 64 -> decodeSequence (encodeSequence n) = Ok n.
Proof.
  intros Hn. unfold decodeSequence. assert (encodeSequence n = appendChecksum (header recordSequence ++ be 8 n)) as -> by done.
  destruct (record_fields recordSequence (be 8 n)) as (-> & -> & -> & -> & -> & c & Hf). rewrite !beq_refl, len_be. rewrite fail_if_false by done.
  rewrite Hf by lia. cbn [mbind result_bind]. rewrite sub_field by (rewrite ?len_be; lia). by rewrite un_be_be_small.
Qed.

Lemma decodeSequence_canonical e n : decodeSequence e = Ok n -> e = encodeSequence n /\ 0 <= n < 2 ^ 64.
Proof.
  unfold decodeSequence. intros H. apply bind_Ok in H as (u & Hc%fail_if_Ok & [= <-]). bool_to_prop. rewrite !beq_true in *.
  assert (len (sub e 6 14) = 8) as H8 by (rewrite len_sub; lia). pose proof (un_be_range (sub e 6 14)) as Hr. rewrite H8 in Hr.
  split; [|cbn in *; lia]. match goal with E : validChecksum e = true |- _ => apply validChecksum_canonical in E as [_ E]; rewrite E at 1 end.
  unfold encodeSequence. f_equal. rewrite be_un_be by (unfold len in H8; lia).
  rewrite app_assoc. change (magic ++ [recordFormat; recordSequence]) with (header recordSequence).
  rewrite <- (header_inv e) by (done || lia). rewrite sub_cat by lia. f_equal. lia.
Qed.

(** A row without its coordinates, as a record holds it. *)
Definition bare (row : Row) : Row := mkRow [] [] (row_Version row) (row_Sequence row) (row_Value row).

Section rows.
Context {canon : Canonicalizer}.

Definition row_image (kind : byte) (row : Row) : bytes :=
  appendChecksum (header kind ++ be 8 (row_Sequence row) ++ row_Version row ++ be 4 (len (row_Value row)) ++ row_Value row).

(** What a record keeps of a row. *)
Record bare_ok (row : Row) : Prop := {
  bo_value : Canonicalize (row_Value row) = Some (row_Value row);
  bo_len : len (row_Value row) <= MaxValueBytes;
  bo_version : uuid (row_Version row);
  bo_sequence : 0 <= row_Sequence row < 2 ^ 64
}.

Lemma encodeRow_ok kind row : bare_ok row -> kind = recordHead \/ kind = recordVersion -> encodeRow kind row = Ok (row_image kind row).
Proof.
  intros [Hv Hl _ _] Hk. unfold encodeRow. rewrite fail_if_false.
  - rewrite Hv, beq_refl. cbn [negb]. rewrite fail_if_false by done. unfold row_image, header. by rewrite <- app_assoc.
  - apply orb_false_iff. split; [by destruct Hk as [-> | ->]|by apply Z.ltb_ge].
Qed.

Lemma decodeRow_image kind row : bare_ok row -> decodeRow (row_image kind row) kind = Ok (bare row).
Proof.
  intros [Hv Hl [Hu1 Hu2] Hs]. unfold decodeRow, row_image. set (r := be 8 _ ++ _).
  destruct (record_fields kind r) as (-> & -> & -> & -> & -> & c & Hf). rewrite !beq_refl.
  assert (len (row_Version row) = 16) as H16 by (unfold len; lia). pose proof (len_nonneg (row_Value row)).
  assert (len r = 28 + len (row_Value row)) as Hr by (unfold r; rewrite !len_app, !len_be, H16; lia).
  assert (sub (r ++ c) 0 8 = be 8 (row_Sequence row)) as F1 by (unfold r; rewrite <- !app_assoc; apply sub_field; rewrite ?len_be; lia).
  assert (sub (r ++ c) 8 24 = row_Version row) as F2.
  { unfold r. rewrite <- !app_assoc. rewrite sub_skip, len_be by (rewrite len_be; lia). apply sub_field; lia. }
  assert (sub (r ++ c) 24 28 = be 4 (len (row_Value row))) as F3.
  { unfold r. rewrite <- !app_assoc. rewrite sub_skip, len_be by (rewrite len_be; lia). rewrite sub_skip, H16 by lia. apply sub_field; rewrite ?len_be; lia. }
  assert (sub (r ++ c) 28 (28 + len (row_Value row)) = row_Value row) as F4.
  { unfold r. rewrite <- !app_assoc. rewrite sub_skip, len_be by (rewrite len_be; lia). rewrite sub_skip, H16 by lia.
    rewrite sub_skip, len_be by (rewrite len_be; lia). apply sub_field; lia. }
  assert (len (row_Value row) < 256 ^ 4) by (change MaxValueBytes with 1048576 in Hl; lia).
  rewrite fail_if_false by (rewrite Hr; change maxRowRecordBytes with (38 + 1048576); change MaxValueBytes with 1048576 in Hl; cbn [negb orb];
    rewrite !orb_false_iff, !Z.ltb_ge; split_and!; (done || lia)).
  rewrite !Hf by lia. cbn [mbind result_bind]. change (30 - 6) with 24. change (34 - 6) with 28. rewrite F3, un_be_be_small by (cbn; lia).
  rewrite fail_if_false by (rewrite Hr; rewrite orb_false_iff, negb_false_iff, Z.eqb_eq, Z.ltb_ge; split; lia).
  rewrite fail_if_false by done. change (14 - 6) with 8. change (6 - 6) with 0. rewrite F2, F1.
  assert (UUIDFromBytes (row_Version row) = Ok (row_Version row)) as -> by (by apply UUIDFromBytes_Ok). cbn [map_err mbind result_bind].
  replace (34 + len (row_Value row) - 6) with (28 + len (row_Value row)) by lia. rewrite F4, Hv, beq_refl. rewrite fail_if_false by done.
  by rewrite un_be_be_small.
Qed.

Lemma decodeRow_canonical e kind row : decodeRow e kind = Ok row -> e = row_image kind row /\ bare_ok row /\ bare row = row.
Proof.
  unfold decodeRow. intros H. apply bind_Ok in H as (u1 & H1%fail_if_Ok & H). apply bind_Ok in H as (u2 & H2%fail_if_Ok & H).
  apply bind_Ok in H as (u3 & H3%fail_if_Ok%negb_false_iff & H). apply bind_Ok in H as (v & Hv%map_err_Ok & H). cbv zeta in *.
  apply UUIDFromBytes_Ok in Hv as (-> & Hl16 & Hv7). set (l := un_be (sub e 30 34)) in *.
  destruct (Canonicalize (sub e 34 (34 + l))) as [w|] eqn:Hc; [|done]. apply bind_Ok in H as (u4 & H4%fail_if_Ok%negb_false_iff & [= <-]).
  apply beq_true in H4 as ->. bool_to_prop. rewrite !beq_true in *. cbn [row_Version row_Value row_Sequence].
  assert (len (sub e 30 34) = 4) as L4 by (rewrite len_sub; lia). assert (len (sub e 6 14) = 8) as L8 by (rewrite len_sub; lia).
  pose proof (un_be_range (sub e 6 14)) as R8. rewrite L8 in R8. pose proof (un_be_range (sub e 30 34)) as R4.
  assert (len (sub e 34 (34 + l)) = l) as Ll by (rewrite len_sub; lia).
  split_and!; [|split; cbn [row_Version row_Value row_Sequence]; (done || rewrite ?Ll; lia)|done].
  apply validChecksum_canonical in H3 as [_ H3]. rewrite H3 at 1. unfold row_image. f_equal. cbn [row_Version row_Value row_Sequence].
  rewrite be_un_be by (unfold len in L8; lia). rewrite Ll. assert (be 4 l = sub e 30 34) as -> by (apply be_un_be; unfold len in L4; lia).
  rewrite <- (header_inv e) by (done || lia). rewrite !sub_cat by lia. f_equal. lia.
Qed.
End rows.

(** The version index of a row. *)
Definition index_image (row : Row) : bytes :=
  let history := tuple_bytes (hist_cs (row_Table row) (row_Key row) (row_Sequence row)) in
  appendChecksum (header recordVersionIndex ++ be 4 (len history) ++ history ++ row_Version row).

Lemma encodeVersionIndex_ok row : coords (row_Table row) (row_Key row) -> encodeVersionIndex row = Ok (index_image row).
Proof.
  intros H. unfold encodeVersionIndex. rewrite historyKey_ok by done. cbn [mbind result_bind].
  pose proof (hist_key_cs _ _ (row_Sequence row) H) as (_ & _ & Hl). rewrite fail_if_false by (by apply Z.ltb_ge).
  unfold index_image, header. by rewrite <- app_assoc.
Qed.

Lemma text_str s : Component_Text (str s) = Ok s.
Proof. done. Qed.
Lemma uint64_component n : 0 <= n < 2 ^ 64 -> Component_Uint64 (Codec.Uint64 n) = Ok n.
Proof.
  intros Hn. unfold Component_Uint64. cbn [Codec.Uint64 err kind data]. rewrite bool_decide_eq_true_2 by done. cbn [negb].
  rewrite len_be. cbn [negb Z.eqb]. by rewrite un_be_be_small.
Qed.

Lemma decodePersistedCoordinates_ok a table key rest : coords table key ->
  decodePersistedCoordinates (a :: str table :: str key :: rest) (3 + len rest) = Ok (table, key).
Proof.
  intros H. destruct (Kind_coords _ _ H) as [K1 K2]. unfold decodePersistedCoordinates, component. cbn [nth]. rewrite K1, K2, !len_cons.
  rewrite fail_if_false by (rewrite !bool_decide_eq_true_2 by done; cbn [negb orb]; rewrite !orb_false_r, negb_false_iff, Z.eqb_eq; lia).
  rewrite !text_str. cbn [map_err mbind result_bind]. by rewrite (proj2 (validateCoordinates_Ok table key) H).
Qed.

Lemma decodeVersionIndex_image row : coords (row_Table row) (row_Key row) -> uuid (row_Version row) -> 0 < row_Sequence row < 2 ^ 64 ->
  decodeVersionIndex (index_image row) (row_Version row) = Ok (tuple_bytes (hist_cs (row_Table row) (row_Key row) (row_Sequence row))).
Proof.
  intros Hc Hu Hs. pose proof (hist_key_cs _ _ (row_Sequence row) Hc) as Hk. unfold decodeVersionIndex, index_image.
  set (h := tuple_bytes _) in *. set (r := be 4 (len h) ++ _). destruct (record_fields recordVersionIndex r) as (-> & -> & -> & -> & -> & c & Hf).
  rewrite !beq_refl. assert (len (row_Version row) = 16) as H16 by (destruct Hu; unfold len; lia). pose proof (len_nonneg h).
  assert (len h <= maxHistoryKeyBytes) as Hh by apply Hk.
  assert (len r = 20 + len h) as Hr by (unfold r; rewrite !len_app, len_be, H16; lia).
  rewrite fail_if_false by (rewrite Hr; change maxVersionIndexBytes with (30 + maxHistoryKeyBytes); cbn [negb orb]; rewrite !orb_false_iff, !Z.ltb_ge;
    split_and!; (done || lia)).
  cbn [mbind result_bind]. rewrite !Hf by lia.
  assert (sub (r ++ c) 0 4 = be 4 (len h)) as F1 by (unfold r; rewrite <- !app_assoc; apply sub_field; rewrite ?len_be; lia).
  assert (sub (r ++ c) 4 (4 + len h) = h) as F2.
  { unfold r. rewrite <- !app_assoc. rewrite sub_skip, len_be by (rewrite len_be; lia). apply sub_field; lia. }
  assert (sub (r ++ c) (4 + len h) (20 + len h) = row_Version row) as F3.
  { unfold r. rewrite <- !app_assoc. rewrite sub_skip, len_be by (rewrite len_be; lia). rewrite sub_skip by lia. apply sub_field; lia. }
  change (6 - 6) with 0. change (10 - 6) with 4. rewrite F1, un_be_be_small by (change maxHistoryKeyBytes with 2143 in Hh; cbn; lia).
  rewrite fail_if_false by (rewrite Hr, orb_false_iff, negb_false_iff, Z.eqb_eq, Z.ltb_ge; split; lia).
  rewrite fail_if_false by done. rewrite !Hf by lia.
  replace (10 + len h - 6) with (4 + len h) by lia. replace (26 + len h - 6) with (20 + len h) by lia. rewrite F2, F3.
  rewrite (proj2 (uuid_ok _) Hu), beq_refl. rewrite fail_if_false by done. assert (DecodeTuple h = Ok (hist_cs (row_Table row) (row_Key row) (row_Sequence row))) as -> by (by apply key_decodes). cbn [map_err mbind result_bind].
  unfold hist_cs, component. cbn [nth]. change (Component_Kind (str (lit "vbdb-version"))) with StringKind.
  rewrite fail_if_false by done. rewrite text_str. cbn [map_err mbind result_bind]. rewrite fail_if_false by done.
  rewrite (decodePersistedCoordinates_ok _ _ _ [Codec.Uint64 (row_Sequence row)]) by done. cbn [map_err mbind result_bind].
  rewrite uint64_component by lia. cbn [map_err mbind result_bind]. rewrite fail_if_false by (apply Z.eqb_neq; lia).
  rewrite historyKey_ok by done. cbn [map_err mbind result_bind]. fold h. by rewrite beq_refl.
Qed.

(** A tuple of coordinates has the strings it decodes to. *)
Lemma text_inv c s : Component_Text c = Ok s -> c = str s.
Proof.
  unfold Component_Text. destruct c as [k d [e|]]; cbn [err kind data]; [done|]. case_bool_decide; [|done]. cbn [negb]. intros [= ->]. by subst.
Qed.

Lemma decodePersistedCoordinates_inv cs count table key : decodePersistedCoordinates cs count = Ok (table, key) ->
  coords table key /\ len cs = count /\ component cs 1 = str table /\ component cs 2 = str key.
Proof.
  unfold decodePersistedCoordinates. intros H. apply bind_Ok in H as (u & Hc%fail_if_Ok & H). apply bind_Ok in H as (t & Ht%map_err_Ok%text_inv & H).
  apply bind_Ok in H as (k & Hk%map_err_Ok%text_inv & H). apply bind_Ok in H as (u' & Hv%fail_if_Ok%negb_false_iff & [= -> ->]). bool_to_prop.
  split; [|done]. apply validateCoordinates_Ok. destruct (validateCoordinates table key) as [[]|]; done.
Qed.

Lemma uint64_inv c n : Component_Uint64 c = Ok n -> c = Codec.Uint64 n /\ 0 <= n < 2 ^ 64.
Proof.
  unfold Component_Uint64. destruct c as [k d [e|]]; cbn [err kind data]; [done|]. case_bool_decide; [|done]. cbn [negb].
  destruct (Z.eqb_spec (len d) 8) as [L|]; [|done]. cbn [negb]. intros [= <-]. subst k. pose proof (un_be_range d) as R. rewrite L in R. split; [|cbn in *; lia].
  unfold Codec.Uint64. f_equal. symmetry. apply be_un_be. unfold len in L. lia.
Qed.

Lemma decodeVersionIndex_canonical e v history : decodeVersionIndex e v = Ok history ->
  uuid v /\ exists table key seq, coords table key /\ 0 < seq < 2 ^ 64 /\ history = tuple_bytes (hist_cs table key seq)
  /\ forall value, e = index_image (mkRow table key v seq value).
Proof.
  unfold decodeVersionIndex. intros H. apply bind_Ok in H as (u1 & H1%fail_if_Ok & H). apply bind_Ok in H as (u2 & H2%fail_if_Ok & H).
  apply bind_Ok in H as (u3 & H3%fail_if_Ok%negb_false_iff & H). apply bind_Ok in H as (u4 & H4%fail_if_Ok & H). cbv zeta in *.
  set (l := un_be (sub e 6 10)) in *. apply orb_false_iff in H4 as [Hu%negb_false_iff%uuid_ok Hv%negb_false_iff%beq_true].
  apply bind_Ok in H as (cs & _ & H). apply bind_Ok in H as (u5 & _ & H). apply bind_Ok in H as (k & _ & H). apply bind_Ok in H as (u6 & _ & H).
  apply bind_Ok in H as ([table key] & Hc & H). apply decodePersistedCoordinates_inv in Hc as (Hc & _).
  apply bind_Ok in H as (seq & Hs%map_err_Ok & H). apply uint64_inv in Hs as [_ Hs]. apply bind_Ok in H as (u7 & H7%fail_if_Ok%Z.eqb_neq & H).
  rewrite historyKey_ok in H by done. cbn [map_err mbind result_bind] in H. apply bind_Ok in H as (u8 & H8%fail_if_Ok%negb_false_iff%beq_true & [= <-]).
  rewrite Hv in Hu. split; [done|]. exists table, key, seq. split; [done|]. split; [lia|]. split; [done|]. intros value.
  bool_to_prop. rewrite !beq_true in *.
  assert (len (sub e 6 10) = 4) as L4 by (rewrite len_sub; lia). pose proof (un_be_range (sub e 6 10)).
  assert (len (sub e 10 (10 + l)) = l) as Ll by (rewrite len_sub; lia).
  apply validChecksum_canonical in H3 as [_ H3]. rewrite H3 at 1. unfold index_image. cbn [row_Version row_Table row_Key row_Sequence]. f_equal.
  rewrite H8, Ll. assert (be 4 l = sub e 6 10) as -> by (apply be_un_be; unfold len in L4; lia).
  rewrite <- Hv, <- (header_inv e) by (done || lia). rewrite !sub_cat by lia. f_equal. lia.
Qed.
