(* ===== verification/StorageLog.v ===== *)
(** The row store as a log of rows.  The records of a store are those of the
    list of rows written so far: a history and an index record for each, the
    head of each row, and the sequence.  Reads at a sequence are reads of the
    log, and a write appends one row to it or changes nothing. *)

From Stdlib Require Import ZArith Lia Sorting.Sorted.
From stdpp Require Import base list gmap sorting.
From S2P Require Import Prelude GoStd Codec Uuidv7 Coordinates EngineOps Command State Snapshot View Storage StorageRecords.

Local Open Scope Z_scope.

(** ** The log *)

Definition of_row (table key : bytes) (r : Row) : Prop := row_Table r = table /\ row_Key r = key.
#[export] Instance of_row_dec table key r : Decision (of_row table key r).
Proof. unfold of_row. apply _. Defined.

Definition versions_of (l : list Row) (table key : bytes) : list Row := filter (of_row table key) l.
Definition head_of (l : list Row) (table key : bytes) : option Row := last (versions_of l table key).
Definition row_at (l : list Row) (table key : bytes) (n : Z) : option Row :=
  last (filter (fun r => row_Sequence r <= n) (versions_of l table key)).

Lemma head_of_snoc l r table key :
  head_of (l ++ [r]) table key = if decide (of_row table key r) then Some r else head_of l table key.
Proof.
  unfold head_of, versions_of. rewrite filter_app, filter_cons, filter_nil. case_decide; [by rewrite last_snoc|by rewrite app_nil_r].
Qed.

Section log.
Context {canon : Canonicalizer}.

Record row_valid (r : Row) : Prop := {
  rv_coords : coords (row_Table r) (row_Key r);
  rv_bare : bare_ok r;
  rv_sequence : 0 < row_Sequence r
}.

Record log_ok (l : list Row) : Prop := {
  lo_rows : Forall row_valid l;
  lo_sequence : forall i r, l !! i = Some r -> row_Sequence r = Z.of_nat i + 1;
  lo_versions : NoDup (map row_Version l)
}.

Lemma log_ok_nil : log_ok [].
Proof. split; [constructor|done|constructor]. Qed.

Lemma log_ok_prefix l k : log_ok (l ++ k) -> log_ok l.
Proof.
  intros [H1 H2 H3]. split; [by apply Forall_app in H1 as [? ?]| |rewrite map_app in H3; by apply NoDup_app in H3 as (? & _)].
  intros i r Hi. apply H2. by apply lookup_app_l_Some.
Qed.

Lemma row_log_snoc l r : log_ok l -> row_valid r -> row_Sequence r = len l + 1 -> row_Version r ∉ map row_Version l -> log_ok (l ++ [r]).
Proof.
  intros [H1 H2 H3] Hr Hs Hv. split.
  - apply Forall_app. split; [done|]. by constructor.
  - intros i x [Hi|[Hi Hx]]%lookup_app_Some; [by apply H2|]. apply list_lookup_singleton_Some in Hx as [Hx <-]. unfold len in Hs. lia.
  - rewrite map_app. apply NoDup_app. split; [done|]. split; [|by apply NoDup_singleton]. intros x Hx ->%list_elem_of_singleton. done.
Qed.

Lemma log_row l r : log_ok l -> r ∈ l -> row_valid r.
Proof. intros H. exact (proj1 (Forall_forall _ _) (lo_rows l H) r). Qed.

Lemma log_sequence l r : log_ok l -> r ∈ l -> 1 <= row_Sequence r <= len l.
Proof. intros H (i & Hi)%list_elem_of_lookup. pose proof (lookup_lt_Some _ _ _ Hi). apply (lo_sequence l H) in Hi. unfold len. lia. Qed.

Lemma same_row_sequence l a b : log_ok l -> a ∈ l -> b ∈ l -> row_Sequence a = row_Sequence b -> a = b.
Proof.
  intros H (i & Hi)%list_elem_of_lookup (j & Hj)%list_elem_of_lookup E. pose proof (lo_sequence l H _ _ Hi). pose proof (lo_sequence l H _ _ Hj).
  assert (i = j) as -> by lia. congruence.
Qed.

Lemma same_row_version l a b : log_ok l -> a ∈ l -> b ∈ l -> row_Version a = row_Version b -> a = b.
Proof.
  intros H (i & Hi)%list_elem_of_lookup (j & Hj)%list_elem_of_lookup E.
  assert (i = j) as ->; [|congruence]. apply (proj1 (NoDup_alt _) (lo_versions l H) _ _ (row_Version a)); rewrite list_lookup_fmap; [by rewrite Hi|rewrite Hj, E]; done.
Qed.

Lemma log_sorted l : log_ok l -> StronglySorted seq_lt l.
Proof.
  intros H. assert (forall n k, k = drop n l -> StronglySorted seq_lt k) as Hk; [|by apply (Hk O)].
  intros n k. revert n. induction k as [|a k IH]; intros n E; constructor.
  - apply (IH (n + 1)%nat). by rewrite <- drop_drop, <- E.
  - apply Forall_forall. intros b (j & Hj)%list_elem_of_lookup. unfold seq_lt.
    assert (l !! n = Some a) as Ha by (rewrite <- (Nat.add_0_r n), <- lookup_drop, <- E; done).
    assert (l !! (n + S j)%nat = Some b) as Hb by (rewrite <- lookup_drop, <- E; done).
    apply (lo_sequence l H) in Ha, Hb. lia.
Qed.

Lemma head_of_spec l table key r : head_of l table key = Some r -> r ∈ l /\ of_row table key r.
Proof. intros H%last_Some_elem_of. by apply list_elem_of_filter in H as [? ?]. Qed.

Lemma head_of_None l table key r : head_of l table key = None -> r ∈ l -> ~ of_row table key r.
Proof. intros H%last_None Hr Ho. assert (r ∈ versions_of l table key) as Hin by (by apply list_elem_of_filter). rewrite H in Hin. by apply not_elem_of_nil in Hin. Qed.

Lemma row_at_Some l table key n r : log_ok l -> row_at l table key n = Some r ->
  r ∈ l /\ of_row table key r /\ row_Sequence r <= n
  /\ forall r', r' ∈ l -> of_row table key r' -> row_Sequence r' <= n -> row_Sequence r' <= row_Sequence r.
Proof.
  intros Hl H. pose proof (last_Some_elem_of _ _ H) as [Hn [Ho Hr]%list_elem_of_filter]%list_elem_of_filter. split_and!; [done..|].
  intros r' Hr' Ho' Hn'. destruct (strongly_last seq_lt _ _ r' (StronglySorted_filter _ _ _ (StronglySorted_filter _ _ _ (log_sorted l Hl))) H) as [->|Hlt].
  - apply list_elem_of_filter. split; [done|]. by apply list_elem_of_filter.
  - lia.
  - unfold seq_lt in Hlt. lia.
Qed.

Lemma row_at_None l table key n r : row_at l table key n = None -> r ∈ l -> of_row table key r -> ~ row_Sequence r <= n.
Proof.
  intros H%last_None Hr Ho Hn. assert (r ∈ filter (fun r => row_Sequence r <= n) (versions_of l table key)) as Hin.
  { apply list_elem_of_filter. split; [done|]. by apply list_elem_of_filter. }
  rewrite H in Hin. by apply not_elem_of_nil in Hin.
Qed.

(** The head is the row at every sequence from its own on. *)
Lemma row_at_head l table key n r : log_ok l -> head_of l table key = Some r -> row_Sequence r <= n -> row_at l table key n = Some r.
Proof.
  intros Hl Hh Hn. destruct (head_of_spec _ _ _ _ Hh) as [Hr Ho]. destruct (row_at l table key n) as [r'|] eqn:E.
  - apply row_at_Some in E as (Hr' & Ho' & _ & Hmax); [|done]. f_equal. apply (same_row_sequence l); [done..|]. specialize (Hmax r Hr Ho Hn).
    destruct (strongly_last seq_lt _ _ r' (StronglySorted_filter _ _ _ (log_sorted l Hl)) Hh) as [->|Hlt]; [by apply list_elem_of_filter|done|].
    unfold seq_lt in Hlt. lia.
  - by apply (row_at_None l table key n r) in E.
Qed.

(** ** The records of a log *)

Definition hist_of (r : Row) : list Component := hist_cs (row_Table r) (row_Key r) (row_Sequence r).

Definition commit_row (m : gmap bytes bytes) (r : Row) : gmap bytes bytes :=
  <[tuple_bytes (index_cs (row_Version r)) := index_image r]>
  (<[tuple_bytes seq_cs := encodeSequence (row_Sequence r)]>
  (<[tuple_bytes (head_cs (row_Table r) (row_Key r)) := row_image recordHead r]>
  (<[tuple_bytes (hist_of r) := row_image recordVersion r]> m))).

Definition log_records (l : list Row) : gmap bytes bytes := fold_left commit_row l ∅.

Inductive record (l : list Row) : list Component -> bytes -> Prop :=
| rec_version r : r ∈ l -> record l (hist_of r) (row_image recordVersion r)
| rec_index r : r ∈ l -> record l (index_cs (row_Version r)) (index_image r)
| rec_head table key r : head_of l table key = Some r -> record l (head_cs table key) (row_image recordHead r)
| rec_sequence : l <> [] -> record l seq_cs (encodeSequence (len l)).

Lemma record_key l cs v : log_ok l -> record l cs v -> key_cs cs.
Proof.
  intros Hl. destruct 1 as [r Hr|r Hr|table key r Hh|_]; [| | |auto with storage].
  - destruct (log_row l r Hl Hr). unfold hist_of. auto with storage.
  - destruct (log_row l r Hl Hr) as [_ [_ _ Hu _] _]. auto with storage.
  - apply head_of_spec in Hh as [Hr [<- <-]]. destruct (log_row l r Hl Hr). auto with storage.
Qed.

Lemma hist_cs_inj t k s t' k' s' : 0 <= s < 2 ^ 64 -> 0 <= s' < 2 ^ 64 -> hist_cs t k s = hist_cs t' k' s' -> t = t' /\ k = k' /\ s = s'.
Proof.
  intros Hs Hs' E. split_and!.
  - exact (f_equal (fun cs => data (component cs 1)) E).
  - exact (f_equal (fun cs => data (component cs 2)) E).
  - apply be8_inj; [done..|]. exact (f_equal (fun cs => data (component cs 3)) E).
Qed.

(** The four kinds of records, told apart by the first component. *)
Lemma record_cases l cs v : record l cs v ->
  (exists r, r ∈ l /\ cs = hist_of r /\ v = row_image recordVersion r)
  \/ (exists r, r ∈ l /\ cs = index_cs (row_Version r) /\ v = index_image r)
  \/ (exists table key r, head_of l table key = Some r /\ cs = head_cs table key /\ v = row_image recordHead r)
  \/ (l <> [] /\ cs = seq_cs /\ v = encodeSequence (len l)).
Proof.
  destruct 1 as [r Hr|r Hr|table key r Hh|Hn].
  - left. exists r. auto.
  - right. left. exists r. auto.
  - right. right. left. exists table, key, r. auto.
  - right. right. right. auto.
Qed.

Lemma record_nil cs v : ~ record [] cs v.
Proof. intros [(r & []%not_elem_of_nil & _)|[(r & []%not_elem_of_nil & _)|[(t & k & r & H & _)|(H & _)]]]%record_cases; done. Qed.

Lemma record_version l t k s v : log_ok l -> 0 <= s < 2 ^ 64 -> record l (hist_cs t k s) v ->
  exists r, r ∈ l /\ of_row t k r /\ row_Sequence r = s /\ v = row_image recordVersion r.
Proof.
  intros Hl Hs [(r & Hr & E & ->)|[(r & _ & E & _)|[(t' & k' & r & _ & E & _)|(_ & E & _)]]]%record_cases; [|discriminate E..].
  apply hist_cs_inj in E as (-> & -> & ->); [by exists r|done|]. by destruct (log_row l r Hl Hr) as [_ [_ _ _ ?] _].
Qed.
Lemma record_index l u v : record l (index_cs u) v -> exists r, r ∈ l /\ row_Version r = u /\ v = index_image r.
Proof.
  intros [(r & _ & E & _)|[(r & Hr & E & ->)|[(t' & k' & r & _ & E & _)|(_ & E & _)]]]%record_cases; [discriminate E| |discriminate E..].
  exists r. split_and!; [done|symmetry; exact (f_equal (fun cs => data (component cs 1)) E)|done].
Qed.
Lemma record_head l t k v : record l (head_cs t k) v -> exists r, head_of l t k = Some r /\ v = row_image recordHead r.
Proof.
  intros [(r & _ & E & _)|[(r & _ & E & _)|[(t' & k' & r & Hh & E & ->)|(_ & E & _)]]]%record_cases; [discriminate E..| |discriminate E].
  assert (t = t' /\ k = k') as [-> ->] by (split; [exact (f_equal (fun cs => data (component cs 1)) E)|exact (f_equal (fun cs => data (component cs 2)) E)]). by exists r.
Qed.
Lemma record_seq l v : record l seq_cs v -> l <> [] /\ v = encodeSequence (len l).
Proof. intros [(r & _ & E & _)|[(r & _ & E & _)|[(t' & k' & r & _ & E & _)|(? & _ & ?)]]]%record_cases; [discriminate E..|done]. Qed.

Lemma record_functional l cs v w : log_ok l -> record l cs v -> record l cs w -> v = w.
Proof.
  intros Hl [(r & Hr & -> & ->)|[(r & Hr & -> & ->)|[(t & k & r & Hh & -> & ->)|(_ & -> & ->)]]]%record_cases Hw.
  - apply record_version in Hw as (r' & Hr' & _ & E & ->); [|done|by destruct (log_row l r Hl Hr) as [_ [_ _ _ ?] _]]. by rewrite (same_row_sequence l r r').
  - apply record_index in Hw as (r' & Hr' & E & ->). by rewrite (same_row_version l r r').
  - apply record_head in Hw as (r' & Hh' & ->). congruence.
  - by apply record_seq in Hw as [_ ->].
Qed.

(** The records of one more row, and the others. *)
Lemma record_new l r : log_ok (l ++ [r]) ->
  record (l ++ [r]) (hist_of r) (row_image recordVersion r) /\ record (l ++ [r]) (index_cs (row_Version r)) (index_image r)
  /\ record (l ++ [r]) (head_cs (row_Table r) (row_Key r)) (row_image recordHead r) /\ record (l ++ [r]) seq_cs (encodeSequence (row_Sequence r)).
Proof.
  intros Hl. assert (r ∈ l ++ [r]) as Hr by (apply elem_of_app; right; by apply list_elem_of_singleton).
  split; [exact (rec_version _ r Hr)|]. split; [exact (rec_index _ r Hr)|]. split.
  - apply rec_head. rewrite head_of_snoc. by rewrite decide_True.
  - replace (row_Sequence r) with (len (l ++ [r])); [apply rec_sequence; by destruct l|].
    rewrite (lo_sequence _ Hl (length l) r) by (by apply list_lookup_middle). rewrite len_app. unfold len. cbn. lia.
Qed.

Lemma record_other l r cs v : cs <> hist_of r -> cs <> index_cs (row_Version r) -> cs <> head_cs (row_Table r) (row_Key r) -> cs <> seq_cs ->
  record (l ++ [r]) cs v <-> record l cs v.
Proof.
  intros N1 N2 N3 N4. split; intros [(x & Hx & -> & ->)|[(x & Hx & -> & ->)|[(t & k & x & Hh & -> & ->)|(_ & -> & _)]]]%record_cases; try done.
  - apply elem_of_app in Hx as [Hx| ->%list_elem_of_singleton]; [by apply rec_version|done].
  - apply elem_of_app in Hx as [Hx| ->%list_elem_of_singleton]; [by apply rec_index|done].
  - apply rec_head. rewrite head_of_snoc in Hh. case_decide as Ho; [|done]. destruct Ho as [<- <-]. done.
  - apply rec_version, elem_of_app. by left.
  - apply rec_index, elem_of_app. by left.
  - apply rec_head. rewrite head_of_snoc. case_decide as Ho; [|done]. destruct Ho as [<- <-]. done.
Qed.

Lemma log_records_lookup l key v : log_ok l -> log_records l !! key = Some v <-> exists cs, key = tuple_bytes cs /\ record l cs v.
Proof.
  revert key v. induction l as [|r l IH] using rev_ind; intros key v Hl.
  { unfold log_records. cbn. rewrite lookup_empty. split; [done|]. intros (cs & _ & H). by apply record_nil in H. }
  pose proof (log_ok_prefix l [r] Hl) as Hl'. destruct (record_new l r Hl) as (R1 & R2 & R3 & R4).
  assert (forall cs w, record (l ++ [r]) cs w -> key = tuple_bytes cs -> Some w = Some v <-> exists cs, key = tuple_bytes cs /\ record (l ++ [r]) cs v) as Hnew.
  { intros cs w Hw ->. split; [intros [= <-]; eauto|]. intros (cs' & E & Hv). f_equal.
    apply key_inj in E as <-; [|exact (record_key _ _ _ Hl Hw)|exact (record_key _ _ _ Hl Hv)]. exact (record_functional _ _ _ _ Hl Hw Hv). }
  unfold log_records. rewrite fold_left_app. cbn [fold_left]. fold (log_records l). unfold commit_row.
  destruct (decide (key = tuple_bytes (index_cs (row_Version r)))) as [->|N1]; [rewrite lookup_insert_eq; by apply (Hnew _ _ R2)|].
  rewrite lookup_insert_ne by done.
  destruct (decide (key = tuple_bytes seq_cs)) as [->|N2]; [rewrite lookup_insert_eq; by apply (Hnew _ _ R4)|]. rewrite lookup_insert_ne by done.
  destruct (decide (key = tuple_bytes (head_cs (row_Table r) (row_Key r)))) as [->|N3]; [rewrite lookup_insert_eq; by apply (Hnew _ _ R3)|].
  rewrite lookup_insert_ne by done.
  destruct (decide (key = tuple_bytes (hist_of r))) as [->|N4]; [rewrite lookup_insert_eq; by apply (Hnew _ _ R1)|]. rewrite lookup_insert_ne by done.
  rewrite IH by done. split; intros (cs & -> & H); exists cs; (split; [done|]).
  - apply record_other; [congruence..|done].
  - apply record_other in H; [done|congruence..].
Qed.

(** The records of a store that holds the log; before the first write the
    sequence may be recorded as zero. *)
Definition image (l : list Row) (m : gmap bytes bytes) : Prop :=
  m = log_records l \/ l = [] /\ m = {[tuple_bytes seq_cs := encodeSequence 0]}.

Lemma image_lookup l m cs v : log_ok l -> image l m -> key_cs cs -> cs <> seq_cs -> m !! tuple_bytes cs = Some v <-> record l cs v.
Proof.
  intros Hl Hm Hcs Hne. destruct Hm as [->|[-> ->]].
  - rewrite log_records_lookup by done. split; [|eauto]. intros (cs' & E & H). apply key_inj in E as <-; [done|done|exact (record_key _ _ _ Hl H)].
  - rewrite lookup_singleton_ne by (intros E; apply key_inj in E; auto with storage). split; [done|]. intros H. by apply record_nil in H.
Qed.

Lemma image_key l m key v : log_ok l -> image l m -> m !! key = Some v -> key = tuple_bytes seq_cs \/ exists cs, key = tuple_bytes cs /\ record l cs v.
Proof.
  intros Hl [->|[-> ->]] H; [right; by apply log_records_lookup|]. apply lookup_singleton_Some in H as [<- _]. by left.
Qed.

Lemma image_snoc l m r : log_ok (l ++ [r]) -> image l m -> image (l ++ [r]) (commit_row m r).
Proof.
  intros Hl Hm. left. unfold log_records. rewrite fold_left_app. cbn [fold_left]. fold (log_records l). destruct Hm as [->|[-> ->]]; [done|].
  assert (row_valid r) as [Hc Hb _] by (apply (log_row _ r Hl); by apply list_elem_of_singleton).
  unfold log_records. cbn [fold_left]. unfold commit_row. f_equal. apply map_eq. intros k.
  destruct (decide (k = tuple_bytes seq_cs)) as [->|Hk]; [by rewrite !lookup_insert_eq|]. rewrite !(lookup_insert_ne _ (tuple_bytes seq_cs)) by done.
  rewrite !lookup_insert. repeat case_decide; try done. rewrite lookup_empty. by apply lookup_singleton_ne.
Qed.
End log.
