(* ===== verification/StorageReads.v ===== *)
(** The operations of the row store over the log its records hold: reads
    return rows of the log, and a write appends one. *)

From Stdlib Require Import ZArith Lia Sorting.Sorted.
From stdpp Require Import base list gmap sorting.
From S2P Require Import Prelude GoStd Codec Uuidv7 Coordinates EngineOps Command State Snapshot View Storage StorageRecords StorageLog.

Local Open Scope Z_scope.

(** A byte string between a prefix and an extension of it has the prefix. *)
Lemma between_prefix p k r : ble p k = true -> blt k (p ++ r) = true -> exists q, k = p ++ q.
Proof.
  revert k. induction p as [|x p IH]; intros k; [by exists k|]. unfold ble, blt. destruct k as [|y k]; cbn [app bytes_compare]; [done|].
  rewrite (Z.compare_antisym (u8 x) (u8 y)). destruct (Z.compare_spec (u8 x) (u8 y)) as [E|Hlt|Hlt]; cbn [CompOpp]; [|done..].
  apply (inj u8) in E as ->. intros H1 H2. destruct (IH k) as [q ->]; [done..|]. by exists q.
Qed.

(** The bounds of the engine a store is opened with. *)
Record bounds_ok (opts : Options) : Prop := {
  bn_key : EngineOps.MaxKeyBytes opts = maxHistoryKeyBytes;
  bn_value : EngineOps.MaxValueBytes opts = maxRowRecordBytes;
  bn_ops : MaxBatchOps opts = 4;
  bn_bytes : MaxBatchBytes opts = maxStorageBatchBytes
}.

Lemma normalized_bounds o opts : normalized (storage_options o) = Ok opts -> bounds_ok opts.
Proof.
  unfold normalized, storage_options. cbn [EngineOps.MaxKeyBytes EngineOps.MaxValueBytes MaxBatchOps MaxBatchBytes]. intros H.
  repeat (apply bind_Ok in H as (? & _ & H)). injection H as <-. by split.
Qed.

Section reads.
Context {canon : Canonicalizer}.

Record represents (e : Engine) (l : list Row) : Prop := {
  re_log : log_ok l;
  re_image : image l (db e);
  re_sequence : sequence e = len l;
  re_bounded : len l <= max_uint64;
  re_options : bounds_ok (db_options e);
  re_open : closed e = false;
  re_live : terminalErr e = None
}.

Lemma represents_usable e l : represents e l -> unusable e = false.
Proof. intros H. unfold unusable. by rewrite (re_live e l H), (re_open e l H). Qed.

Lemma Get_record e l cs : represents e l -> key_cs cs -> cs <> seq_cs ->
  (exists v, record l cs v /\ db_Get (db_options e) (db e) (tuple_bytes cs) = Ok v)
  \/ (forall v, ~ record l cs v) /\ db_Get (db_options e) (db e) (tuple_bytes cs) = Fail EngineOps.ErrNotFound.
Proof.
  intros H Hk Hn. unfold db_Get. rewrite (key_validates _ _ (bn_key _ (re_options e l H)) Hk). cbn [mbind result_bind].
  pose proof (fun v => image_lookup l (db e) cs v (re_log e l H) (re_image e l H) Hk Hn) as Hi.
  destruct (db e !! tuple_bytes cs) as [v|]; [left; exists v; split; [by apply Hi|done]|right]. split; [|done]. intros v Hv. by apply Hi in Hv.
Qed.

Lemma with_bare r table key : of_row table key r -> with_coordinates (bare r) table key = r.
Proof. intros [<- <-]. by destruct r. Qed.

Lemma readHeadLocked_log e l table key : represents e l -> coords table key ->
  readHeadLocked e table key = match head_of l table key with Some r => Ok r | None => Fail ErrNotFound end.
Proof.
  intros H Hc. unfold readHeadLocked. rewrite headKey_ok by done. cbn [mbind result_bind].
  destruct (Get_record e l (head_cs table key) H) as [(v & Hv & ->)|[Hv ->]]; [auto with storage|discriminate| |].
  - apply record_head in Hv as (r & Hh & ->). rewrite Hh. apply head_of_spec in Hh as [Hr Ho].
    destruct (log_row l r (re_log e l H) Hr) as [_ Hb _]. pose proof (log_sequence l r (re_log e l H) Hr). cbn [map_err mbind result_bind].
    rewrite decodeRow_image by done. cbn [map_err mbind result_bind]. rewrite (re_sequence e l H). cbn [bare row_Sequence].
    rewrite fail_if_false by (rewrite orb_false_iff, Z.eqb_neq, Z.ltb_ge; lia). by rewrite with_bare.
  - cbn. destruct (head_of l table key) as [r|] eqn:Hh; [|done]. exfalso. by apply (Hv (row_image recordHead r)), rec_head.
Qed.

(** ** Reads of the history *)

Lemma hist_bytes table key s : tuple_bytes (hist_cs table key s) = hist_prefix table key ++ component_bytes (Codec.Uint64 s) ++ [x00].
Proof.
  unfold tuple_bytes, hist_prefix, hist_cs. cbn [app]. f_equal. unfold components_bytes. cbn [map concat]. rewrite app_nil_r, <- !app_assoc. done.
Qed.

Lemma hist_compare table key a b : 0 <= a < 2 ^ 64 -> 0 <= b < 2 ^ 64 ->
  bytes_compare (tuple_bytes (hist_cs table key a)) (tuple_bytes (hist_cs table key b)) = (a ?= b).
Proof.
  intros Ha Hb. rewrite !hist_bytes, bytes_compare_app_l.
  assert (forall s, component_bytes (Codec.Uint64 s) = [Uint64Kind] ++ be 8 s) as E by done. rewrite !E, <- !app_assoc, bytes_compare_app_l.
  destruct (decide (a = b)) as [->|Hne]; [by rewrite bytes_compare_refl, Z.compare_refl|].
  rewrite bytes_compare_app_same_len; [|by rewrite !length_be|by intros Ebe%be8_inj].
  by apply bytes_compare_be.
Qed.

(** The records between the prefix of a row and the next sequence are its
    versions up to that sequence. *)
Lemma history_range e l table key n k v : represents e l -> coords table key -> 0 <= n < max_uint64 ->
  (k, v) ∈ List.filter (fun kv => ble (hist_prefix table key) (fst kv) && blt (fst kv) (tuple_bytes (hist_cs table key (n + 1)))) (db_Stream (db e))
  <-> exists r, r ∈ l /\ of_row table key r /\ row_Sequence r <= n /\ k = tuple_bytes (hist_of r) /\ v = row_image recordVersion r.
Proof.
  intros H Hc Hn. pose proof (re_log e l H) as Hl. pose proof (re_image e l H) as Hm.
  rewrite list_elem_of_In, List.filter_In, <- list_elem_of_In. unfold db_Stream. rewrite elem_of_sorted_members. cbn [fst].
  rewrite andb_true_iff. split.
  - intros (Hk & Hlo & Hhi). rewrite hist_bytes in Hhi. destruct (between_prefix _ _ _ Hlo Hhi) as [q ->]. rewrite <- hist_bytes in Hhi.
    destruct (image_key l _ _ _ Hl Hm Hk) as [E|(cs & E & Hr)]; [discriminate E|].
    unfold hist_prefix, tuple_bytes in E. cbn [app] in E. injection E as E. pose proof (record_key l cs v Hl Hr) as [Hs _].
    destruct (hist_key_cs _ _ 0 Hc) as [Hp _]. symmetry in E.
    destruct (components_bytes_prefix [str (lit "vbdb-version"); str table; str key] cs q) as (c & -> & ->); [|done|done|].
    { rewrite Forall_forall in *. intros x Hx. apply Hp. unfold hist_cs. set_solver. }
    cbn [app] in Hr. apply record_cases in Hr as [(r & Hr & Ecs & ->)|[(r & _ & Ecs & _)|[(t & k' & r & _ & Ecs & _)|(_ & Ecs & _)]]]; [|discriminate Ecs..].
    exists r. assert (of_row table key r) as Ho.
    { split; [exact (eq_sym (f_equal (fun cs => data (component cs 1)) Ecs))|exact (eq_sym (f_equal (fun cs => data (component cs 2)) Ecs))]. }
    assert (hist_prefix table key ++ components_bytes c ++ [x00] = tuple_bytes (hist_of r)) as Ek.
    { rewrite <- Ecs. unfold tuple_bytes, hist_prefix. cbn [app]. f_equal. unfold components_bytes. cbn [map concat]. rewrite app_nil_r, <- !app_assoc. done. }
    rewrite Ek in *. split_and!; [done..| |done|done]. destruct Ho as [<- <-]. unfold hist_of, blt in Hhi.
    pose proof (log_sequence l r Hl Hr). pose proof (re_bounded e l H). unfold max_uint64 in *. rewrite hist_compare in Hhi by lia.
    destruct (Z.compare_spec (row_Sequence r) (n + 1)); [done|lia|done].
  - intros (r & Hr & [<- <-] & Hs & -> & ->). pose proof (log_sequence l r Hl Hr). pose proof (re_bounded e l H). unfold max_uint64 in *. split_and!.
    + apply (image_lookup l); [done..|exact (hist_key_cs _ _ _ Hc)|discriminate|]. by apply rec_version.
    + unfold hist_of. rewrite hist_bytes. unfold ble. generalize (hist_prefix (row_Table r) (row_Key r)). clear. intros p.
      rewrite <- (app_nil_r p) at 1. by rewrite bytes_compare_app_l.
    + unfold hist_of, blt. rewrite hist_compare by lia. destruct (Z.compare_spec (row_Sequence r) (n + 1)); (done || lia).
Qed.

Lemma Last_history e l table key n : represents e l -> coords table key -> 0 <= n < max_uint64 ->
  db_Last (db_options e) (db e) (hist_prefix table key) (tuple_bytes (hist_cs table key (n + 1)))
  = match row_at l table key n with
    | Some r => Ok (tuple_bytes (hist_of r), row_image recordVersion r)
    | None => Fail EngineOps.ErrNotFound
    end.
Proof.
  intros H Hc Hn. pose proof (re_log e l H) as Hl. unfold db_Last.
  assert (validateRange (db_options e) (Some (hist_prefix table key)) (Some (tuple_bytes (hist_cs table key (n + 1)))) = Ok tt) as ->.
  { unfold validateRange. rewrite (key_validates _ _ (bn_key _ (re_options e l H)) (hist_key_cs _ _ _ Hc)).
    destruct (hist_key_cs table key 0 Hc) as (_ & _ & Hk). rewrite hist_bytes, !len_app in Hk. unfold validateKey. rewrite (bn_key _ (re_options e l H)).
    pose proof (len_nonneg (component_bytes (Codec.Uint64 0))). pose proof (len_nonneg [x00]).
    assert (1 <= len (hist_prefix table key)) by (unfold hist_prefix; rewrite len_cons; pose proof (len_nonneg (components_bytes [str (lit "vbdb-version"); str table; str key])); lia).
    rewrite fail_if_false by (rewrite orb_false_iff, Z.eqb_neq, Z.ltb_ge; lia). done. }
  cbn [mbind result_bind]. pose proof (fun k v => history_range e l table key n k v H Hc Hn) as Hin. unfold db_Stream in Hin.
  set (L := List.filter _ _) in *. destruct (row_at l table key n) as [r|] eqn:Hr.
  - apply row_at_Some in Hr as (Hr & Ho & Hs & Hmax); [|done].
    assert ((tuple_bytes (hist_of r), row_image recordVersion r) ∈ L) as HL by (apply Hin; by exists r).
    destruct (last L) as [[k v]|] eqn:E; [|apply last_None in E; rewrite E in HL; by apply not_elem_of_nil in HL].
    f_equal. pose proof (last_Some_elem_of _ _ E) as (r' & Hr' & Ho' & Hs' & -> & ->)%Hin.
    assert (StronglySorted (key_lt fst) L) as Hsort.
    { apply increasing_filter, sorted_members_increasing. }
    destruct (strongly_last _ _ _ _ Hsort E HL) as [->|Hlt]; [done|]. exfalso.
    pose proof (log_sequence l r Hl Hr). pose proof (log_sequence l r' Hl Hr'). pose proof (re_bounded e l H). specialize (Hmax r' Hr' Ho' Hs').
    unfold key_lt, blt in Hlt. cbn [fst] in Hlt. destruct Ho as [E1 E2], Ho' as [E3 E4]. unfold hist_of in Hlt. rewrite E1, E2, E3, E4 in Hlt.
    unfold max_uint64 in *. rewrite hist_compare in Hlt by lia. destruct (Z.compare_spec (row_Sequence r) (row_Sequence r')); (done || lia).
  - destruct (last L) as [[k v]|] eqn:E; [|done]. pose proof (last_Some_elem_of _ _ E) as (r' & Hr' & Ho' & Hs' & _)%Hin.
    by apply (row_at_None l table key n r') in Hr.
Qed.

Lemma readHistoryLocked_log e l table key n : represents e l -> coords table key -> 0 <= n < max_uint64 ->
  readHistoryLocked e table key n = match row_at l table key n with Some r => Ok r | None => Fail ErrNotFound end.
Proof.
  intros H Hc Hn. unfold readHistoryLocked. rewrite historyPrefix_ok by done. cbn [mbind result_bind].
  assert (uint64 (n + 1) = n + 1) as -> by (unfold uint64, max_uint64 in *; rewrite Z.mod_small; lia).
  rewrite historyKey_ok by done. cbn [mbind result_bind]. rewrite (Last_history e l) by done.
  destruct (row_at l table key n) as [r|] eqn:E; [|done]. apply row_at_Some in E as (Hr & Ho & Hs & _); [|apply H].
  destruct (log_row l r (re_log e l H) Hr) as [Hcr Hb Hpos]. pose proof (log_sequence l r (re_log e l H) Hr). cbn [map_err mbind result_bind fst snd].
  rewrite key_decodes by (apply hist_key_cs; done). cbn [map_err mbind result_bind]. unfold hist_of, hist_cs, component. cbn [nth].
  rewrite fail_if_false by done. rewrite !text_str. cbn [map_err mbind result_bind]. rewrite uint64_component by apply Hb. cbn [map_err mbind result_bind].
  destruct Ho as [<- <-]. rewrite !beq_refl, (re_sequence e l H). cbn [negb orb].
  rewrite fail_if_false by (rewrite !orb_false_iff, Z.eqb_neq, !Z.ltb_ge; lia). rewrite decodeRow_image by done. cbn [map_err mbind result_bind].
  cbn [bare row_Sequence]. rewrite fail_if_false by (by rewrite Z.eqb_refl). f_equal. by apply with_bare.
Qed.

Lemma GetAt_log e l table key n : represents e l -> coords table key -> 0 <= n <= max_uint64 ->
  GetAt e table key n = match row_at l table key n with Some r => Ok r | None => Fail ErrNotFound end.
Proof.
  intros H Hc Hn. unfold GetAt. rewrite (proj2 (validateCoordinates_Ok _ _) Hc). cbn [mbind result_bind].
  rewrite (represents_usable e l H), (readHeadLocked_log e l) by done. pose proof (re_log e l H) as Hl.
  destruct (head_of l table key) as [r|] eqn:Hh; cbn [mbind result_bind].
  - pose proof (head_of_spec _ _ _ _ Hh) as [Hr _]. pose proof (log_sequence l r Hl Hr). pose proof (re_bounded e l H).
    destruct (Z.eqb_spec n max_uint64) as [->|Hne]; cbn [orb]; [by rewrite (row_at_head l table key _ r) by (done || lia)|].
    destruct (Z.leb_spec (row_Sequence r) n); [by rewrite (row_at_head l table key _ r) by (done || lia)|].
    apply readHistoryLocked_log; (done || lia).
  - destruct (row_at l table key n) as [r|] eqn:E; [|done]. apply row_at_Some in E as (Hr & Ho & _); [|done].
    by apply (head_of_None l table key r) in Hh.
Qed.
End reads.
