(* ===== verification/StorageWrites.v ===== *)
(** Writes to the row store: a [Put] that passes its checks appends one row to
    the log the records hold, in one batch; any other changes nothing. *)

From Stdlib Require Import ZArith Lia Sorting.Sorted.
From stdpp Require Import base list gmap sorting.
From S2P Require Import Prelude GoStd Codec Uuidv7 Coordinates EngineOps Command State Snapshot View Storage StorageRecords StorageLog StorageReads.

Local Open Scope Z_scope.

(** ** A write to the log *)

(** The first answer of the generator that no row carries, and the answers
    left. *)
Fixpoint pick (attempts : nat) (g : list (option UUID)) (l : list Row) : list (option UUID) * result storage_error UUID :=
  match attempts with
  | O => (g, Fail ErrVersionUsed)
  | S n =>
      match g with
      | Some v :: g' =>
          if negb (is_ok (UUIDFromBytes v)) then (g', Fail ErrInvalidVersion)
          else if bool_decide (v ∈ map row_Version l) then pick n g' l else (g', Ok v)
      | _ => (tail g, Fail ErrGenerator)
      end
  end.

Definition condition_met (c : Condition) (head : option Row) : bool :=
  negb (CreateOnly c && bool_decide (is_Some head))
  && match IfMatch c with None => true | Some v => bool_decide (row_Version <$> head = Some v) end.

Section writes.
Context {canon : Canonicalizer}.

(** The row a write appends, or the error it returns. *)
Definition log_put (l : list Row) (g : list (option UUID)) (table key value : bytes) (c : Condition)
    : list (option UUID) * result storage_error Row :=
  match check_put table key value c with
  | Fail err => (g, Fail err)
  | Ok _ =>
      if negb (condition_met c (head_of l table key)) then (g, Fail ErrPrecondition)
      else if len l =? max_uint64 then (g, Fail (ErrStorage "commit sequence exhausted"))
      else match pick maxVersionAttempts g l with
           | (g, Fail err) => (g, Fail err)
           | (g, Ok v) => (g, Ok (mkRow table key v (len l + 1) value))
           end
  end.

Lemma with_generated_self e : with_generated e (generated e) = e.
Proof. by destruct e. Qed.

Lemma represents_generated e l g : represents e l -> represents (with_generated e g) l.
Proof. by intros []. Qed.

Lemma versionUsedLocked_log e l v : represents e l -> uuid v -> versionUsedLocked e v = Ok (bool_decide (v ∈ map row_Version l)).
Proof.
  intros H Hu. unfold versionUsedLocked. rewrite versionIndexKey_ok by done. cbn [mbind result_bind].
  destruct (Get_record e l (index_cs v) H) as [(w & Hw & ->)|[Hw ->]]; [auto with storage|discriminate| |].
  - apply record_index in Hw as (r & Hr & <- & ->). destruct (log_row l r (re_log e l H) Hr) as [Hc [_ _ _ Hs] Hpos].
    rewrite decodeVersionIndex_image by (done || lia). cbn [map_err mbind result_bind]. rewrite bool_decide_eq_true_2; [done|].
    by apply list_elem_of_fmap_2.
  - rewrite bool_decide_eq_false_2; [done|]. intros (r & -> & Hr)%list_elem_of_fmap. by apply (Hw (index_image r)), rec_index.
Qed.

Lemma choose_version_log n : forall e l, represents e l ->
  choose_version n e = (with_generated e (fst (pick n (generated e) l)), snd (pick n (generated e) l)).
Proof.
  induction n as [|n IH]; intros e l H; cbn [choose_version pick]; [by rewrite with_generated_self|].
  destruct (generated e) as [|[v|] g] eqn:Hg; [done| |done]. cbn [tail].
  destruct (is_ok (UUIDFromBytes v)) eqn:Hv; cbn [negb]; [|done]. apply uuid_ok in Hv.
  rewrite (versionUsedLocked_log _ l) by (done || by apply represents_generated). case_bool_decide; [|done].
  rewrite (IH _ l) by (by apply represents_generated). done.
Qed.

Lemma pick_fresh n g l v : snd (pick n g l) = Ok v -> uuid v /\ v ∉ map row_Version l.
Proof.
  revert g. induction n as [|n IH]; intros g; cbn [pick]; [done|]. destruct g as [|[w|] g]; [done| |done].
  destruct (is_ok (UUIDFromBytes w)) eqn:Hw; cbn [negb]; [|done]. case_bool_decide; [by apply IH|]. intros [= <-]. by apply uuid_ok in Hw.
Qed.

Lemma check_condition_log e l table key c : represents e l -> coords table key ->
  check_condition e table key c = if condition_met c (head_of l table key) then Ok (head_of l table key) else Fail ErrPrecondition.
Proof.
  intros H Hc. unfold check_condition, condition_met. rewrite (readHeadLocked_log e l) by done.
  destruct (head_of l table key) as [r|]; cbn [mbind result_bind].
  - rewrite bool_decide_eq_true_2 by done. rewrite andb_true_r. destruct (CreateOnly c); cbn; [done|].
    destruct (IfMatch c) as [v|]; cbn; [|done]. unfold beq. destruct (bool_decide_reflect (row_Version r = v)) as [->|Hne]; cbn.
    + by rewrite bool_decide_eq_true_2.
    + rewrite bool_decide_eq_false_2; [done|congruence].
  - rewrite andb_false_r. cbn. by destruct (IfMatch c).
Qed.

(** ** The batch *)

Lemma row_records_ok row : row_valid row ->
  row_records row = Ok [(tuple_bytes (hist_of row), row_image recordVersion row);
    (tuple_bytes (head_cs (row_Table row) (row_Key row)), row_image recordHead row);
    (tuple_bytes seq_cs, encodeSequence (row_Sequence row));
    (tuple_bytes (index_cs (row_Version row)), index_image row)].
Proof.
  intros [Hc Hb _]. unfold row_records. rewrite historyKey_ok, headKey_ok by done. cbn [mbind result_bind].
  rewrite !encodeRow_ok by auto. cbn [mbind result_bind]. rewrite sequenceKey_ok. cbn [mbind result_bind].
  rewrite versionIndexKey_ok by apply Hb. cbn [mbind result_bind]. by rewrite encodeVersionIndex_ok.
Qed.

Fixpoint records_size (records : list (bytes * bytes)) : Z :=
  match records with [] => 0 | (key, value) :: records' => 9 + len key + len value + records_size records' end.

Lemma records_size_nonneg records : 0 <= records_size records.
Proof. induction records as [|[k v] l IH]; cbn; [lia|]. pose proof (len_nonneg k). pose proof (len_nonneg v). lia. Qed.

Lemma find_op_new b key : key ∉ map op_key (ops b) -> find_op b key = false.
Proof.
  intros H. unfold find_op. apply not_true_iff_false. intros (o & Ho & E%beq_true)%existsb_exists. apply H. rewrite <- E.
  apply list_elem_of_fmap_2. by apply list_elem_of_In.
Qed.

(** Records within the bounds of a batch are all staged. *)
Lemma stage_records_ok records : forall b, sealed b = false -> 0 < maxValue b -> maxBytes b < 2 ^ 62 -> 0 <= batch_bytes b ->
  Forall (fun kv => 1 <= len (fst kv) <= maxKey b /\ len (snd kv) <= maxValue b) records ->
  len (ops b) + len records <= maxOps b -> NoDup (map op_key (ops b) ++ map fst records) -> batch_bytes b + records_size records <= maxBytes b ->
  exists b', stage_records b records = Ok b' /\ ops b' = ops b ++ map (fun kv => mkOp putOp (fst kv) (snd kv)) records.
Proof.
  induction records as [|[key value] records IH]; intros b Hs Hpos H62 Hb Hf Ho Hnd Hsize.
  { exists b. split; [done|]. by rewrite app_nil_r. }
  apply Forall_cons in Hf as [[Hk Hv] Hf]. cbn [fst snd records_size map] in *. rewrite len_cons in Ho.
  pose proof (len_nonneg value). pose proof (len_nonneg (ops b)). pose proof (len_nonneg records). pose proof (records_size_nonneg records).
  assert (Batch_Put b key value = (add_op b (mkOp putOp key value) (9 + len key + len value + batch_bytes b), Ok tt)) as Hp.
  { assert (configureDefaults b = b) as Hd.
    { unfold configureDefaults, or_default. destruct b as [os n mo mb mk mv se]. cbn in *. by rewrite !(proj2 (Z.eqb_neq _ _)) by lia. }
    unfold Batch_Put. rewrite Hd, Hs. unfold validateKey, fail_if. rewrite (proj2 (Z.eqb_neq _ _)), (proj2 (Z.ltb_ge _ _)) by lia. cbn [orb].
    rewrite (proj2 (Z.ltb_ge _ _)), (proj2 (Z.leb_gt _ _)) by lia. rewrite find_op_new.
    - unfold checkedAdd, max_int64. rewrite !(proj2 (Z.ltb_ge _ _)) by lia. cbn [orb negb]. rewrite (proj2 (Z.ltb_ge _ _)) by lia. done.
    - intros Hin. apply NoDup_app in Hnd as (_ & Hd2 & _). apply (Hd2 key Hin). by left. }
  cbn [stage_records]. rewrite Hp. destruct (IH (add_op b (mkOp putOp key value) (9 + len key + len value + batch_bytes b))) as (b' & E & Hops);
    cbn [add_op sealed maxValue maxBytes maxKey maxOps batch_bytes ops]; try done; try lia.
  - rewrite len_app. change (len [mkOp putOp key value]) with 1. lia.
  - rewrite map_app, <- app_assoc. done.
  - exists b'. split; [done|]. rewrite Hops. cbn [add_op ops]. by rewrite <- app_assoc.
Qed.

Lemma len_row_image kind row : bare_ok row -> len (row_image kind row) = 38 + len (row_Value row).
Proof.
  intros [_ _ [Hv _] _]. unfold row_image. rewrite len_appendChecksum, !len_app, !len_be. change (len (header kind)) with 6.
  assert (len (row_Version row) = 16) by (unfold len; lia). lia.
Qed.

Lemma len_index_image row : row_valid row -> len (index_image row) <= 30 + maxHistoryKeyBytes.
Proof.
  intros [Hc [_ _ [Hv _] _] _]. unfold index_image. rewrite len_appendChecksum, !len_app, !len_be. change (len (header recordVersionIndex)) with 6.
  assert (len (row_Version row) = 16) by (unfold len; lia). destruct (hist_key_cs _ _ (row_Sequence row) Hc) as (_ & _ & ?). lia.
Qed.

Lemma len_key cs : key_cs cs -> 1 <= len (tuple_bytes cs) <= maxHistoryKeyBytes.
Proof. intros (_ & _ & H). rewrite len_tuple in *. pose proof (len_nonneg (components_bytes cs)). lia. Qed.

Lemma stage_row opts row : bounds_ok opts -> row_valid row ->
  exists recs b, row_records row = Ok recs /\ stage_records (Engine_NewBatch opts) recs = Ok b
  /\ forall m, apply_ops m (ops b) = commit_row m row.
Proof.
  intros [B1 B2 B3 B4] Hr. pose proof Hr as [Hc Hb Hpos].
  set (css := [hist_of row; head_cs (row_Table row) (row_Key row); seq_cs; index_cs (row_Version row)]).
  assert (Forall key_cs css) as Hk.
  { apply Forall_forall. intros x Hx. unfold css in Hx. rewrite !elem_of_cons, elem_of_nil in Hx.
    pose proof (bo_version _ Hb). unfold hist_of in Hx. destruct Hx as [->|[->|[->|[->|[]]]]]; auto with storage. }
  assert (NoDup (map tuple_bytes css)) as Hnd.
  { apply NoDup_fmap_2_strong; [intros x y Hx Hy; rewrite Forall_forall in Hk; by apply key_inj; apply Hk|].
    apply (NoDup_fmap_1 (fun cs => data (component cs 0))).
    change (NoDup [lit "vbdb-version"; lit "vbdb-head"; lit "vbdb-sequence"; lit "vbdb-version-index"]).
    apply (bool_decide_unpack _). by vm_compute. }
  pose proof (len_index_image _ Hr) as V2. assert (len (encodeSequence (row_Sequence row)) = 18) as V3
    by (unfold encodeSequence; rewrite len_appendChecksum, !len_app, len_be; done).
  pose proof (bo_len _ Hb) as V4. pose proof (len_row_image recordVersion _ Hb) as V5. pose proof (len_row_image recordHead _ Hb) as V6.
  eexists _. destruct (stage_records_ok [(tuple_bytes (hist_of row), row_image recordVersion row);
    (tuple_bytes (head_cs (row_Table row) (row_Key row)), row_image recordHead row); (tuple_bytes seq_cs, encodeSequence (row_Sequence row));
    (tuple_bytes (index_cs (row_Version row)), index_image row)] (Engine_NewBatch opts)) as (b & E & Hops);
    cbn [Engine_NewBatch sealed maxValue maxBytes maxKey maxOps batch_bytes ops fst snd map app].
  all: try rewrite !B1; try rewrite !B2; try rewrite !B3; try rewrite !B4.
  all: try done.
  - apply Forall_cons in Hk as [K1 Hk]. apply Forall_cons in Hk as [K2 Hk]. apply Forall_cons in Hk as [K3 Hk]. apply Forall_cons in Hk as [K4 _].
    apply len_key in K1, K2, K3, K4. change maxRowRecordBytes with (38 + MaxValueBytes). change (MaxValueBytes) with 1048576 in *.
    change maxHistoryKeyBytes with 2143 in *. repeat (apply Forall_cons; split); [..|apply Forall_nil; done]; cbn [fst snd]; lia.
  - apply Forall_cons in Hk as [K1 Hk]. apply Forall_cons in Hk as [K2 Hk]. apply Forall_cons in Hk as [K3 Hk]. apply Forall_cons in Hk as [K4 _].
    apply len_key in K1, K2, K3, K4. cbn [records_size]. change maxStorageBatchBytes with (4 * (2143 + (38 + 1048576) + 16)).
    change MaxValueBytes with 1048576 in *. change maxHistoryKeyBytes with 2143 in *. lia.
  - exists b. split; [by apply row_records_ok|]. split; [done|]. intros m. rewrite Hops. done.
Qed.

(** ** Put *)

Lemma check_put_Ok table key value c : check_put table key value c = Ok tt ->
  coords table key /\ Canonicalize value = Some value /\ len value <= MaxValueBytes.
Proof.
  unfold check_put. intros H. apply bind_Ok in H as ([] & Hc%validateCoordinates_Ok & H). apply bind_Ok in H as (u & Hl%fail_if_Ok%Z.ltb_ge & H).
  destruct (Canonicalize value) as [w|] eqn:Hw; [|done]. apply bind_Ok in H as (u' & _ & H).
  by apply bind_Ok in H as (u'' & ->%fail_if_Ok%negb_false_iff%beq_true & _).
Qed.

(** The row a write appends keeps the log well-formed. *)
Lemma log_put_ok l g table key value c g' row : log_ok l -> len l <= max_uint64 -> log_put l g table key value c = (g', Ok row) ->
  row_valid row /\ log_ok (l ++ [row]) /\ len (l ++ [row]) <= max_uint64 /\ row_Sequence row = len l + 1 /\ of_row table key row /\ row_Value row = value
  /\ condition_met c (head_of l table key) = true /\ row_Version row ∉ map row_Version l.
Proof.
  intros Hl Hb. unfold log_put. destruct (check_put table key value c) as [[]|] eqn:Hp; [|done]. apply check_put_Ok in Hp as (Hc & Hv & Hlen).
  destruct (condition_met c (head_of l table key)) eqn:Hm; cbn [negb]; [|done]. destruct (Z.eqb_spec (len l) max_uint64); [done|].
  pose proof (fun v => pick_fresh maxVersionAttempts g l v) as Hf. destruct (pick maxVersionAttempts g l) as [g1 [v|]]; [|done]. intros [= <- <-].
  destruct (Hf v eq_refl) as [Hu Hn]. pose proof (len_nonneg l).
  assert (row_valid (mkRow table key v (len l + 1) value)) as Hr.
  { split; [done|split; cbn [row_Value row_Version row_Sequence]; (done || (unfold max_uint64 in *; lia))|cbn [row_Sequence]; lia]. }
  split_and!; try done; [by apply row_log_snoc|]. rewrite len_app. change (len [_]) with 1. lia.
Qed.

Lemma Put_log e l table key value c : represents e l ->
  match log_put l (generated e) table key value c with
  | (g, Fail err) => Put e table key value c = (with_generated e g, Fail err)
  | (g, Ok row) =>
      exists e', represents e' (l ++ [row])
      /\ match db_faults e with
         | Poisoned durable :: faults =>
             exists e2, Put e table key value c = (e2, Fail ErrTerminal) /\ terminalErr e2 = Some ErrTerminal
             /\ db e2 = if durable then db e' else db e
         | faults => Put e table key value c = (e', Ok (mkWriteResult row (bool_decide (head_of l table key = None))))
         end
  end.
Proof.
  intros H. pose proof (log_put_ok l (generated e) table key value c) as Hok. unfold log_put in *. unfold Put.
  destruct (check_put table key value c) as [[]|err] eqn:Hp; [|by rewrite with_generated_self]. apply check_put_Ok in Hp as (Hc & _ & _).
  rewrite (represents_usable e l H), (check_condition_log e l) by done.
  destruct (condition_met c (head_of l table key)); cbn [negb] in *; [|by rewrite with_generated_self].
  rewrite (re_sequence e l H). destruct (Z.eqb_spec (len l) max_uint64) as [|Hmax]; [by rewrite with_generated_self|].
  rewrite (choose_version_log _ e l H). destruct (pick maxVersionAttempts (generated e) l) as [g [v|err]]; cbn [fst snd]; [|done].
  set (row := mkRow table key v (len l + 1) value) in *.
  destruct (Hok g row (re_log e l H) (re_bounded e l H) eq_refl) as (Hr & Hl & Hb & _). clear Hok.
  pose proof (re_bounded e l H). pose proof (len_nonneg l).
  assert (uint64 (len l + 1) = len l + 1) as -> by (unfold uint64, max_uint64 in *; rewrite Z.mod_small; lia). fold row.
  destruct (stage_row (db_options (with_generated e g)) row (re_options e l H) Hr) as (recs & b & -> & -> & Happly).
  exists (mkEngine (commit_row (db e) row) (db_options e) (tail (db_faults e)) g (len l + 1) (closed e) (terminalErr e)). split.
  { split; cbn [db sequence db_options closed terminalErr]; try apply H; try done; [|by rewrite len_app].
    apply image_snoc; [done|apply H]. }
  assert (negb (bool_decide (is_Some (head_of l table key))) = bool_decide (head_of l table key = None)) as E.
  { by destruct (head_of l table key). }
  unfold commit_batch. cbn [with_generated db db_options db_faults generated sequence closed terminalErr].
  destruct (db_faults e) as [|[|durable] faults]; rewrite ?Happly; [by rewrite E|by rewrite E|]. eexists. split; [done|]. split; [done|]. cbn [db]. by destruct durable.
Qed.
End writes.
