(* ===== verification/StorageOpen.v ===== *)
(** Opening the row store: the validation of its records accepts exactly the
    records of a log, and the store it returns holds that log. *)

From Stdlib Require Import ZArith Lia Sorting.Sorted.
From stdpp Require Import base list gmap sorting.
From S2P Require Import Prelude GoStd Codec Uuidv7 Coordinates EngineOps Command State Snapshot View Storage StorageRecords StorageLog StorageReads StorageWrites.

Local Open Scope Z_scope.

(** ** One record *)

(** What a record is taken for. *)
Inductive parsed : Type :=
| PSequence
| PHead (table key : bytes) (r : Row)
| PVersion (table key : bytes) (r : Row)
| PIndex (v : UUID).

Section open.
Context {canon : Canonicalizer}.

(** The records the validation takes, with the conditions on the record a
    history and its index point to. *)
Inductive accepted (m : gmap bytes bytes) (n : Z) : bytes -> bytes -> parsed -> Prop :=
| ac_sequence : accepted m n (tuple_bytes seq_cs) (encodeSequence n) PSequence
| ac_head table key r : coords table key -> bare_ok r -> bare r = r -> 0 < row_Sequence r <= n ->
    accepted m n (tuple_bytes (head_cs table key)) (row_image recordHead r) (PHead table key r)
| ac_version table key r : coords table key -> bare_ok r -> bare r = r -> 0 < row_Sequence r <= n ->
    m !! tuple_bytes (index_cs (row_Version r)) = Some (index_image (with_coordinates r table key)) ->
    accepted m n (tuple_bytes (hist_cs table key (row_Sequence r))) (row_image recordVersion r) (PVersion table key r)
| ac_index row r : coords (row_Table row) (row_Key row) -> uuid (row_Version row) -> 0 < row_Sequence row < 2 ^ 64 -> bare_ok r ->
    m !! tuple_bytes (hist_of row) = Some (row_image recordVersion r) -> row_Version r = row_Version row ->
    accepted m n (tuple_bytes (index_cs (row_Version row))) (index_image row) (PIndex (row_Version row)).

Definition fresh (s : seen) (p : parsed) : Prop :=
  match p with PVersion _ _ r => row_Sequence r ∉ seenSequences s | _ => True end.

Definition later (latest : gmap (bytes * bytes) Row) (id : bytes * bytes) (r : Row) : gmap (bytes * bytes) Row :=
  match latest !! id with
  | Some old => if row_Sequence old <? row_Sequence r then <[id := r]> latest else latest
  | None => <[id := r]> latest
  end.

Definition add (s : seen) (p : parsed) : seen :=
  match p with
  | PSequence | PIndex _ => s
  | PHead table key r => mkSeen (historyKeys s) (latestHistories s) (<[(table, key) := r]> (heads s)) (seenSequences s)
  | PVersion table key r =>
      mkSeen ({[(table, key)]} ∪ historyKeys s) (later (latestHistories s) (table, key) r) (heads s) ({[row_Sequence r]} ∪ seenSequences s)
  end.

Context (opts : Options) (Hopts : bounds_ok opts) (m : gmap bytes bytes) (n : Z) (Hn : 0 <= n < 2 ^ 64).

Lemma db_Get_Ok cs v : key_cs cs -> db_Get opts m (tuple_bytes cs) = Ok v <-> m !! tuple_bytes cs = Some v.
Proof.
  intros Hk. unfold db_Get. rewrite (key_validates _ _ (bn_key _ Hopts) Hk). cbn [mbind result_bind].
  destruct (m !! tuple_bytes cs); split; congruence.
Qed.

Lemma or_corrupt_Ok {E A} what (x : result E A) a : or_corrupt what x = Ok a <-> x = Ok a.
Proof. apply map_err_Ok. Qed.

Lemma Kind_lit s : utf8.Valid s = true -> len s <= 100 -> Component_Kind (str s) = StringKind.
Proof.
  intros Hu Hl. apply Kind_str; [done|]. unfold component_bytes, payload. cbn [kind data str]. rewrite bool_decide_eq_false_2, bool_decide_eq_true_2 by done.
  cbn [orb]. pose proof (len_escape_le s). autorewrite with len. assert (300 <= MaxTupleBytes) by (by vm_compute). lia.
Qed.

(** The list of a tuple whose length and components are known. *)
Lemma components2 cs a b : len cs = 2 -> component cs 0 = a -> component cs 1 = b -> cs = [a; b].
Proof. unfold component, len. destruct cs as [|x [|y [|]]]; cbn; try lia. by intros _ -> ->. Qed.
Lemma components3 cs a b c : len cs = 3 -> component cs 0 = a -> component cs 1 = b -> component cs 2 = c -> cs = [a; b; c].
Proof. unfold component, len. destruct cs as [|x [|y [|z [|]]]]; cbn; try lia. by intros _ -> -> ->. Qed.
Lemma components4 cs a b c d : len cs = 4 -> component cs 0 = a -> component cs 1 = b -> component cs 2 = c -> component cs 3 = d -> cs = [a; b; c; d].
Proof. unfold component, len. destruct cs as [|x [|y [|z [|w [|]]]]]; cbn; try lia. by intros _ -> -> -> ->. Qed.

Lemma validate_head_inv s cs v s' : component cs 0 = str (lit "vbdb-head") -> validate_head n s cs v = Ok s' ->
  exists p, accepted m n (tuple_bytes cs) v p /\ fresh s p /\ s' = add s p.
Proof.
  intros H0 H. unfold validate_head in H. apply bind_Ok in H as ([t k] & Hc%or_corrupt_Ok%decodePersistedCoordinates_inv & H).
  apply bind_Ok in H as (r & Hr%or_corrupt_Ok%decodeRow_canonical & H). apply bind_Ok in H as (u & Hs%fail_if_Ok & [= <-]).
  destruct Hc as (Hc & Hl & E1 & E2), Hr as (-> & Hb & He). rewrite (components3 _ _ _ _ Hl H0 E1 E2). bool_to_prop. pose proof (bo_sequence _ Hb).
  exists (PHead t k r). split; [|done]. apply ac_head; (done || lia).
Qed.

Lemma validate_history_inv s cs v s' : component cs 0 = str (lit "vbdb-version") -> validate_history opts m n s (tuple_bytes cs) cs v = Ok s' ->
  exists p, accepted m n (tuple_bytes cs) v p /\ fresh s p /\ s' = add s p.
Proof.
  intros H0 H. unfold validate_history in H. apply bind_Ok in H as (u0 & _ & H). apply bind_Ok in H as ([t k] & Hc%or_corrupt_Ok%decodePersistedCoordinates_inv & H).
  apply bind_Ok in H as (q & Hq%or_corrupt_Ok%uint64_inv & H). apply bind_Ok in H as (r & Hr%or_corrupt_Ok%decodeRow_canonical & H).
  apply bind_Ok in H as (u & Hs%fail_if_Ok & H). destruct Hc as (Hc & Hl & E1 & E2), Hr as (-> & Hb & He), Hq as [E3 Hq]. bool_to_prop. subst q.
  rewrite historyKey_ok in H by done. cbn [or_corrupt map_err mbind result_bind] in H. apply bind_Ok in H as (u1 & _ & H).
  rewrite versionIndexKey_ok in H by apply Hb. cbn [or_corrupt map_err mbind result_bind] in H.
  apply bind_Ok in H as (iv & Hi%or_corrupt_Ok & H). apply db_Get_Ok in Hi; [|apply index_key_cs, Hb].
  apply bind_Ok in H as (ih & Hx%or_corrupt_Ok%decodeVersionIndex_canonical & H). destruct Hx as (_ & t' & k' & q' & Hc' & Hq' & -> & Himg).
  apply bind_Ok in H as (u2 & E%fail_if_Ok%negb_false_iff%beq_true & H). apply bind_Ok in H as (u3 & Hf%fail_if_Ok%bool_decide_eq_false & [= <-]).
  assert (cs = hist_cs t k (row_Sequence r)) as -> by (by apply components4). apply key_inj in E; [|by apply hist_key_cs..].
  apply hist_cs_inj in E as (-> & -> & ->); [|lia|done]. exists (PVersion t k r). split; [|done].
  apply ac_version; [done..|lia|]. rewrite Hi. f_equal. apply (Himg (row_Value r)).
Qed.

Lemma validate_index_inv cs v : component cs 0 = str (lit "vbdb-version-index") -> validate_index opts m (tuple_bytes cs) cs v = Ok tt ->
  exists u, accepted m n (tuple_bytes cs) v (PIndex u).
Proof.
  intros H0 H. unfold validate_index in H. apply bind_Ok in H as (u0 & Hl%fail_if_Ok & H). apply bind_Ok in H as (vb & Hv%or_corrupt_Ok & H).
  apply bind_Ok in H as (w & Hw%or_corrupt_Ok & H). apply UUIDFromBytes_Ok in Hw as (-> & Hu). apply bind_Ok in H as (ck & _ & H).
  apply bind_Ok in H as (u1 & _ & H). apply bind_Ok in H as (h & Hh%or_corrupt_Ok%decodeVersionIndex_canonical & H).
  destruct Hh as (_ & t & k & q & Hc & Hq & -> & Himg). apply bind_Ok in H as (hv & Hg%or_corrupt_Ok & H). apply db_Get_Ok in Hg; [|by apply hist_key_cs].
  apply bind_Ok in H as (r & Hr%or_corrupt_Ok%decodeRow_canonical & Hver%fail_if_Ok%negb_false_iff%beq_true). destruct Hr as (-> & Hb & _).
  apply orb_false_iff in Hl as [Hl%negb_false_iff%Z.eqb_eq _].
  assert (component cs 1 = mkComponent BytesKind vb None) as E1.
  { unfold Component_Bytes in Hv. destruct (component cs 1) as [kd d [e|]]; cbn [err kind data] in Hv; [done|]. case_bool_decide; [|done].
    cbn [negb] in Hv. congruence. }
  rewrite (components2 _ _ _ Hl H0 E1). rewrite (Himg []). exists vb. by apply (ac_index m n (mkRow t k vb q []) r).
Qed.

Lemma validate_record_inv s key v s' : validate_record opts m n s key v = Ok s' ->
  exists p, accepted m n key v p /\ fresh s p /\ s' = add s p.
Proof.
  unfold validate_record. intros H. apply bind_Ok in H as (cs & Hd%or_corrupt_Ok%DecodeTuple_spec & H). destruct Hd as (_ & _ & _ & ->).
  apply bind_Ok in H as (u & _ & H). apply bind_Ok in H as (kd & Hk%or_corrupt_Ok%text_inv & H).
  destruct (beq kd (lit "vbdb-sequence")) eqn:E1; [apply beq_true in E1 as ->|clear E1].
  { apply bind_Ok in H as (u1 & Hl%fail_if_Ok%negb_false_iff%Z.eqb_eq & H). apply bind_Ok in H as (q & Hq%or_corrupt_Ok%decodeSequence_canonical & H).
    apply bind_Ok in H as (u2 & ->%fail_if_Ok%negb_false_iff%Z.eqb_eq & [= <-]). destruct Hq as [-> _]. exists PSequence. split; [|done].
    assert (cs = seq_cs) as -> by (unfold component, len in *; destruct cs as [|x [|]]; cbn in *; [lia|by rewrite Hk|lia]). apply ac_sequence. }
  destruct (beq kd (lit "vbdb-head")) eqn:E2; [apply beq_true in E2 as ->; by apply validate_head_inv|clear E2].
  destruct (beq kd (lit "vbdb-version")) eqn:E3; [apply beq_true in E3 as ->; by apply validate_history_inv|clear E3].
  destruct (beq kd (lit "vbdb-version-index")) eqn:E4; [apply beq_true in E4 as ->|done].
  apply bind_Ok in H as ([] & H & [= <-]). destruct (validate_index_inv cs v Hk H) as [w Hw]. by exists (PIndex w).
Qed.

Lemma validate_head_ok s table key r : coords table key -> bare_ok r -> bare r = r -> 0 < row_Sequence r <= n ->
  validate_head n s (head_cs table key) (row_image recordHead r) = Ok (add s (PHead table key r)).
Proof.
  intros Hc Hb He Hs. unfold validate_head, head_cs. rewrite (decodePersistedCoordinates_ok _ _ _ []) by done. cbn [or_corrupt map_err mbind result_bind].
  rewrite decodeRow_image by done. rewrite He. cbn [or_corrupt map_err mbind result_bind]. unfold corrupt_if.
  rewrite fail_if_false by (rewrite orb_false_iff, Z.eqb_neq, Z.ltb_ge; lia). done.
Qed.

Lemma validate_history_ok s table key r : coords table key -> bare_ok r -> bare r = r -> 0 < row_Sequence r <= n ->
  m !! tuple_bytes (index_cs (row_Version r)) = Some (index_image (with_coordinates r table key)) -> row_Sequence r ∉ seenSequences s ->
  validate_history opts m n s (tuple_bytes (hist_cs table key (row_Sequence r))) (hist_cs table key (row_Sequence r)) (row_image recordVersion r)
  = Ok (add s (PVersion table key r)).
Proof.
  intros Hc Hb He Hs Hi Hf. unfold validate_history, corrupt_if. rewrite fail_if_false by done.
  assert (decodePersistedCoordinates (hist_cs table key (row_Sequence r)) 4 = Ok (table, key)) as ->
    by (exact (decodePersistedCoordinates_ok _ _ _ [Codec.Uint64 (row_Sequence r)] Hc)). cbn [or_corrupt map_err mbind result_bind].
  change (component (hist_cs table key (row_Sequence r)) 3) with (Codec.Uint64 (row_Sequence r)). rewrite uint64_component by lia.
  cbn [or_corrupt map_err mbind result_bind]. rewrite decodeRow_image by done. rewrite He. cbn [or_corrupt map_err mbind result_bind].
  rewrite fail_if_false by (rewrite Z.eqb_refl, !orb_false_iff, Z.eqb_neq, Z.ltb_ge; cbn; lia).
  rewrite historyKey_ok by done. cbn [or_corrupt map_err mbind result_bind]. rewrite beq_refl, fail_if_false by done.
  rewrite versionIndexKey_ok by apply Hb. cbn [or_corrupt map_err mbind result_bind].
  rewrite (proj2 (db_Get_Ok _ _ (index_key_cs _ (bo_version _ Hb))) Hi). cbn [or_corrupt map_err mbind result_bind].
  pose proof (decodeVersionIndex_image (with_coordinates r table key) Hc (bo_version _ Hb)) as Hd. cbn [with_coordinates row_Table row_Key row_Version row_Sequence] in Hd.
  rewrite Hd by lia. cbn [or_corrupt map_err mbind result_bind]. rewrite beq_refl, fail_if_false by done.
  rewrite fail_if_false by (by apply bool_decide_eq_false). done.
Qed.

Lemma validate_index_ok row r : coords (row_Table row) (row_Key row) -> uuid (row_Version row) -> 0 < row_Sequence row < 2 ^ 64 -> bare_ok r ->
  m !! tuple_bytes (hist_of row) = Some (row_image recordVersion r) -> row_Version r = row_Version row ->
  validate_index opts m (tuple_bytes (index_cs (row_Version row))) (index_cs (row_Version row)) (index_image row) = Ok tt.
Proof.
  intros Hc Hu Hs Hb Hh Hv. unfold validate_index, corrupt_if. change (component (index_cs (row_Version row)) 1) with (mkComponent BytesKind (row_Version row) None).
  assert (Component_Kind (mkComponent BytesKind (row_Version row) None) = BytesKind) as ->.
  { unfold Component_Kind, Component_Err. rewrite (proj2 (validate_spec (mkComponent BytesKind (row_Version row) None) tt)); [done|]. split; [done|]. intros _.
    pose proof (len_bytes_component (row_Version row)). destruct Hu as [Hu _]. assert (len (row_Version row) = 16) by (unfold len; lia).
    assert (300 <= MaxTupleBytes) by (by vm_compute). lia. }
  rewrite fail_if_false by done. change (Component_Bytes (mkComponent BytesKind (row_Version row) None)) with (@Ok codec_error bytes (row_Version row)).
  cbn [or_corrupt map_err mbind result_bind]. assert (UUIDFromBytes (row_Version row) = Ok (row_Version row)) as -> by (by apply UUIDFromBytes_Ok).
  cbn [or_corrupt map_err mbind result_bind]. rewrite versionIndexKey_ok by done. cbn [or_corrupt map_err mbind result_bind]. rewrite beq_refl, fail_if_false by done.
  rewrite decodeVersionIndex_image by done. cbn [or_corrupt map_err mbind result_bind]. rewrite (proj2 (db_Get_Ok _ _ (hist_key_cs _ _ _ Hc)) Hh).
  cbn [or_corrupt map_err mbind result_bind]. rewrite decodeRow_image by done. cbn [or_corrupt map_err mbind result_bind bare row_Version].
  by rewrite Hv, beq_refl.
Qed.

Lemma validate_record_ok s key v p : accepted m n key v p -> fresh s p -> validate_record opts m n s key v = Ok (add s p).
Proof.
  intros Ha Hf. unfold validate_record, corrupt_if. destruct Ha as [|t k r Hc Hb He Hs|t k r Hc Hb He Hs Hi|row r Hc Hu Hs Hb Hh Hv].
  - rewrite (key_decodes _ seq_key_cs). cbn [or_corrupt map_err mbind result_bind]. change (component seq_cs 0) with (str (lit "vbdb-sequence")).
    rewrite Kind_lit by done. rewrite fail_if_false by done. rewrite text_str. cbn [or_corrupt map_err mbind result_bind]. rewrite beq_refl.
    rewrite fail_if_false by done. rewrite decodeSequence_encode by done. cbn [or_corrupt map_err mbind result_bind]. by rewrite Z.eqb_refl.
  - rewrite (key_decodes _ (head_key_cs _ _ Hc)). cbn [or_corrupt map_err mbind result_bind]. change (component (head_cs t k) 0) with (str (lit "vbdb-head")).
    rewrite Kind_lit by done. rewrite fail_if_false by done. rewrite text_str. cbn [or_corrupt map_err mbind result_bind].
    by apply validate_head_ok.
  - rewrite (key_decodes _ (hist_key_cs _ _ _ Hc)). cbn [or_corrupt map_err mbind result_bind].
    change (component (hist_cs t k (row_Sequence r)) 0) with (str (lit "vbdb-version")).
    rewrite Kind_lit by done. rewrite fail_if_false by done. rewrite text_str. cbn [or_corrupt map_err mbind result_bind].
    by apply validate_history_ok.
  - rewrite (key_decodes _ (index_key_cs _ Hu)). cbn [or_corrupt map_err mbind result_bind].
    change (component (index_cs (row_Version row)) 0) with (str (lit "vbdb-version-index")).
    rewrite Kind_lit by done. rewrite fail_if_false by done. rewrite text_str. cbn [or_corrupt map_err mbind result_bind].
    assert (validate_index opts m (tuple_bytes (index_cs (row_Version row))) (index_cs (row_Version row)) (index_image row) = Ok tt) as E by (by apply (validate_index_ok row r)).
    change (beq (lit "vbdb-version-index") (lit "vbdb-sequence")) with false. cbv iota. change (beq (lit "vbdb-version-index") (lit "vbdb-head")) with false. cbv iota.
    change (beq (lit "vbdb-version-index") (lit "vbdb-version")) with false. cbv iota. rewrite beq_refl, E. done.
Qed.

(** ** All records *)

Fixpoint all_fresh (s : seen) (ps : list parsed) : Prop :=
  match ps with [] => True | p :: ps' => fresh s p /\ all_fresh (add s p) ps' end.

Lemma validate_records_iff items : forall s s',
  validate_records opts m n s items = Ok s'
  <-> exists ps, Forall2 (fun kv p => accepted m n (fst kv) (snd kv) p) items ps /\ all_fresh s ps /\ s' = fold_left add ps s.
Proof.
  induction items as [|[key v] items IH]; intros s s'; cbn [validate_records].
  - split; [intros [= <-]; by exists []|]. intros (ps & ->%Forall2_nil_inv_l & _ & ->). done.
  - split.
    + intros H. apply bind_Ok in H as (s1 & Hr & H). apply validate_record_inv in Hr as (p & Ha & Hf & ->). apply IH in H as (ps & H2 & Hfs & ->).
      exists (p :: ps). split; [by constructor|done].
    + intros (ps & H2 & Hfs & ->). apply Forall2_cons_inv_l in H2 as (p & ps' & Ha & H2 & ->). destruct Hfs as [Hf Hfs]. cbn [fst snd] in Ha.
      rewrite (validate_record_ok s key v p) by done. cbn [mbind result_bind]. apply IH. by exists ps'.
Qed.

(** What the validation has seen after the records of [ps]. *)
Record seen_ok (s : seen) (ps : list parsed) : Prop := {
  sk_sequences : forall q, q ∈ seenSequences s <-> exists t k r, PVersion t k r ∈ ps /\ row_Sequence r = q;
  sk_keys : forall t k, (t, k) ∈ historyKeys s <-> exists r, PVersion t k r ∈ ps;
  sk_heads : forall t k r, heads s !! (t, k) = Some r -> PHead t k r ∈ ps;
  sk_headed : forall t k r, PHead t k r ∈ ps -> is_Some (heads s !! (t, k));
  sk_latest : forall t k r, latestHistories s !! (t, k) = Some r ->
    PVersion t k r ∈ ps /\ forall r', PVersion t k r' ∈ ps -> row_Sequence r' <= row_Sequence r;
  sk_recorded : forall t k r, PVersion t k r ∈ ps -> is_Some (latestHistories s !! (t, k))
}.

(** A record that is neither a head nor a version leaves what was seen. *)
Lemma seen_ok_keep s ps p : (forall t k r, p <> PHead t k r) -> (forall t k r, p <> PVersion t k r) -> seen_ok s ps -> seen_ok s (ps ++ [p]).
Proof.
  intros N1 N2 [H1 H2 H3 H4 H5 H6].
  assert (forall t k r, PVersion t k r ∈ ps ++ [p] <-> PVersion t k r ∈ ps) as Ev by (intros; rewrite elem_of_snoc; specialize (N2 t k r); naive_solver).
  assert (forall t k r, PHead t k r ∈ ps ++ [p] <-> PHead t k r ∈ ps) as Eh by (intros; rewrite elem_of_snoc; specialize (N1 t k r); naive_solver).
  split; setoid_rewrite Ev || setoid_rewrite Eh || idtac; try done; setoid_rewrite Eh; done.
Qed.

Lemma seen_ok_head s ps t k r : seen_ok s ps -> seen_ok (add s (PHead t k r)) (ps ++ [PHead t k r]).
Proof.
  intros [H1 H2 H3 H4 H5 H6].
  assert (forall t' k' r', PVersion t' k' r' ∈ ps ++ [PHead t k r] <-> PVersion t' k' r' ∈ ps) as Ev by (intros; rewrite elem_of_snoc; naive_solver).
  split; cbn [add seenSequences historyKeys heads latestHistories]; try (setoid_rewrite Ev; done).
  - intros t' k' r' [[[= <- <-] <-]|[_ H]]%lookup_insert_Some; apply elem_of_snoc; [by right|left; by apply H3].
  - intros t' k' r' [H|[= -> -> ->]]%elem_of_snoc; [|rewrite lookup_insert_eq; eauto].
    apply lookup_insert_is_Some'. right. by apply (H4 t' k' r').
Qed.

Lemma later_lookup latest id r id' : later latest id r !! id' =
  if decide (id' = id) then Some (match latest !! id with Some old => if row_Sequence old <? row_Sequence r then r else old | None => r end) else latest !! id'.
Proof.
  unfold later. case_decide as E; [subst id'|].
  - destruct (latest !! id) as [old|] eqn:Ho; [|by rewrite lookup_insert_eq]. case_match; [by rewrite lookup_insert_eq|done].
  - destruct (latest !! id) as [old|]; [|by rewrite lookup_insert_ne]. case_match; [by rewrite lookup_insert_ne|done].
Qed.

Lemma seen_ok_version s ps t k r : seen_ok s ps -> seen_ok (add s (PVersion t k r)) (ps ++ [PVersion t k r]).
Proof.
  intros [H1 H2 H3 H4 H5 H6]. split; cbn [add seenSequences historyKeys heads latestHistories].
  - intros q. rewrite elem_of_union, elem_of_singleton, H1. setoid_rewrite elem_of_snoc. naive_solver.
  - intros t' k'. rewrite elem_of_union, elem_of_singleton, H2. setoid_rewrite elem_of_snoc. naive_solver.
  - intros t' k' r' H. apply elem_of_snoc. left. by apply H3.
  - intros t' k' r' [H|?]%elem_of_snoc; [|done]. by apply (H4 t' k' r').
  - intros t' k' r'. rewrite later_lookup. case_decide as E.
    + injection E as -> ->. intros [= <-]. destruct (latestHistories s !! (t, k)) as [old|] eqn:Ho.
      * apply H5 in Ho as [Ho Hmax]. destruct (Z.ltb_spec (row_Sequence old) (row_Sequence r)).
        -- split; [apply elem_of_snoc; by right|]. intros r' [Hr'|[= ->]]%elem_of_snoc; [|lia]. specialize (Hmax r' Hr'). lia.
        -- split; [apply elem_of_snoc; by left|]. intros r' [Hr'|[= ->]]%elem_of_snoc; [by apply Hmax|lia].
      * split; [apply elem_of_snoc; by right|]. intros r' [Hr'|[= ->]]%elem_of_snoc; [|lia]. apply H6 in Hr' as [? E]. by rewrite Ho in E.
    + intros [Ho Hmax]%H5. split; [apply elem_of_snoc; by left|]. intros r0 [Hr'|[= -> -> ->]]%elem_of_snoc; [by apply Hmax|done].
  - intros t' k' r' Hin. rewrite later_lookup. case_decide as E; [eauto|]. apply elem_of_snoc in Hin as [Hin|[= -> -> ->]]; [|done]. by apply (H6 t' k' r').
Qed.

Lemma seen_ok_fold ps : seen_ok (fold_left add ps nothing_seen) ps.
Proof.
  induction ps as [|p ps IH] using rev_ind.
  { cbn. split; cbn; try setoid_rewrite elem_of_nil; set_solver. }
  rewrite fold_left_app. cbn [fold_left]. destruct p; [by apply seen_ok_keep|by apply seen_ok_head|by apply seen_ok_version|by apply seen_ok_keep].
Qed.

Lemma all_fresh_snoc ps : forall s p, all_fresh s (ps ++ [p]) <-> all_fresh s ps /\ fresh (fold_left add ps s) p.
Proof. induction ps as [|q ps IH]; intros s p; cbn; [naive_solver|]. rewrite IH. naive_solver. Qed.

(** Fresh versions are told apart by their sequences. *)
Lemma fresh_versions ps t k r t' k' r' : all_fresh nothing_seen ps -> PVersion t k r ∈ ps -> PVersion t' k' r' ∈ ps ->
  row_Sequence r = row_Sequence r' -> t = t' /\ k = k' /\ r = r'.
Proof.
  induction ps as [|p ps IH] using rev_ind; [intros _ []%not_elem_of_nil|]. intros [Hf Hp]%all_fresh_snoc H1 H2 E.
  pose proof (sk_sequences _ _ (seen_ok_fold ps)) as Hq. apply elem_of_snoc in H1 as [H1|<-], H2 as [H2|H2].
  - by apply IH.
  - subst p. cbn in Hp. exfalso. apply Hp, Hq. by exists t, k, r.
  - cbn in Hp. exfalso. apply Hp, Hq. by exists t', k', r'.
  - injection H2. naive_solver.
Qed.

Definition sequences : gset Z := list_to_set (seqZ 1 n).

Lemma elem_of_sequences q : q ∈ sequences <-> 1 <= q <= n.
Proof. unfold sequences. rewrite elem_of_list_to_set, elem_of_seqZ. lia. Qed.
Lemma size_sequences : size sequences = Z.to_nat n.
Proof. unfold sequences. rewrite size_list_to_set by apply NoDup_seqZ. by rewrite length_seqZ. Qed.

(** The final checks, in terms of the records. *)
Record consistent (ps : list parsed) : Prop := {
  cs_fresh : all_fresh nothing_seen ps;
  cs_cover : forall q, 1 <= q <= n <-> exists t k r, PVersion t k r ∈ ps /\ row_Sequence r = q;
  cs_head : forall t k r, PVersion t k r ∈ ps -> (forall r', PVersion t k r' ∈ ps -> row_Sequence r' <= row_Sequence r) ->
    exists h, PHead t k h ∈ ps /\ row_Sequence h = row_Sequence r /\ row_Version h = row_Version r /\ row_Value h = row_Value r;
  cs_orphan : forall t k r, PHead t k r ∈ ps -> exists r', PVersion t k r' ∈ ps
}.

(** The records behind a list of parsed ones: every record of the store, each
    under its own key. *)
Definition parses (ps : list parsed) : Prop :=
  Forall2 (fun kv p => accepted m n (fst kv) (snd kv) p) (db_Stream m) ps.

Lemma parses_record ps p : parses ps -> p ∈ ps -> exists key v, m !! key = Some v /\ accepted m n key v p.
Proof.
  intros H2 (i & Hi)%list_elem_of_lookup. destruct (Forall2_lookup_r _ _ _ _ _ H2 Hi) as ([key v] & Hkv & Ha). exists key, v. split; [|done].
  apply elem_of_sorted_members. by eapply list_elem_of_lookup_2.
Qed.

Lemma parses_lookup ps key v : parses ps -> m !! key = Some v -> exists p, p ∈ ps /\ accepted m n key v p.
Proof.
  intros H2 (i & Hi)%elem_of_sorted_members%list_elem_of_lookup. destruct (Forall2_lookup_l _ _ _ _ _ H2 Hi) as (p & Hp & Ha).
  exists p. split; [by eapply list_elem_of_lookup_2|done].
Qed.

(** The key and the record of a parsed head or version. *)
Lemma accepted_head key v t k r : accepted m n key v (PHead t k r) ->
  key = tuple_bytes (head_cs t k) /\ v = row_image recordHead r /\ coords t k /\ bare_ok r /\ bare r = r /\ 0 < row_Sequence r <= n.
Proof. inversion 1; subst. done. Qed.
Lemma accepted_version key v t k r : accepted m n key v (PVersion t k r) ->
  key = tuple_bytes (hist_cs t k (row_Sequence r)) /\ v = row_image recordVersion r /\ coords t k /\ bare_ok r /\ bare r = r /\ 0 < row_Sequence r <= n
  /\ m !! tuple_bytes (index_cs (row_Version r)) = Some (index_image (with_coordinates r t k)).
Proof. inversion 1; subst. done. Qed.

Lemma parsed_head ps t k r : parses ps -> PHead t k r ∈ ps ->
  m !! tuple_bytes (head_cs t k) = Some (row_image recordHead r) /\ coords t k /\ bare_ok r /\ bare r = r /\ 0 < row_Sequence r <= n.
Proof. intros H2 Hp. destruct (parses_record ps _ H2 Hp) as (key & v & Hm & (-> & -> & ?)%accepted_head). done. Qed.
Lemma parsed_version ps t k r : parses ps -> PVersion t k r ∈ ps ->
  m !! tuple_bytes (hist_cs t k (row_Sequence r)) = Some (row_image recordVersion r) /\ coords t k /\ bare_ok r /\ bare r = r /\ 0 < row_Sequence r <= n
  /\ m !! tuple_bytes (index_cs (row_Version r)) = Some (index_image (with_coordinates r t k)).
Proof. intros H2 Hp. destruct (parses_record ps _ H2 Hp) as (key & v & Hm & (-> & -> & ?)%accepted_version). done. Qed.

Lemma row_image_inj kind r r' : bare_ok r -> bare_ok r' -> row_image kind r = row_image kind r' -> bare r = bare r'.
Proof. intros Hr Hr' E. apply (f_equal (fun e => decodeRow e kind)) in E. rewrite !decodeRow_image in E by done. congruence. Qed.

Lemma head_unique ps t k r r' : parses ps -> PHead t k r ∈ ps -> PHead t k r' ∈ ps -> r = r'.
Proof.
  intros H2 (E & _ & Hb & <- & _)%(parsed_head ps) (E' & _ & Hb' & <- & _)%(parsed_head ps); [|done..].
  apply (row_image_inj recordHead); [done..|congruence].
Qed.

Lemma validate_all_iff ps : parses ps -> all_fresh nothing_seen ps ->
  (let s := fold_left add ps nothing_seen in
   let seen_count := Z.of_nat (size (seenSequences s)) in
   corrupt_if (((n =? 0) && negb (seen_count =? 0)) || (negb (n =? 0) && negb (uint64 seen_count =? n))) "sequence coverage mismatch";;
   for_all (check_latest s) (map_to_list (latestHistories s));;
   corrupt_if (negb (Nat.eqb (size (heads s)) (size (historyKeys s)))) "orphan current head") = Ok tt
  <-> consistent ps.
Proof.
  intros H2 Hf. pose proof (seen_ok_fold ps) as Hs. cbv zeta. set (s := fold_left add ps nothing_seen) in *.
  assert (seenSequences s ⊆ sequences) as Hsub.
  { intros q (t & k & r & Hp & <-)%(sk_sequences _ _ Hs). apply elem_of_sequences. destruct (parsed_version ps t k r H2 Hp) as (_ & _ & _ & _ & ? & _). lia. }
  assert (((n =? 0) && negb (Z.of_nat (size (seenSequences s)) =? 0)) || (negb (n =? 0) && negb (uint64 (Z.of_nat (size (seenSequences s))) =? n)) = false
    <-> forall q, 1 <= q <= n <-> exists t k r, PVersion t k r ∈ ps /\ row_Sequence r = q) as Hcount.
  { pose proof (subseteq_size _ _ Hsub) as Hle. rewrite size_sequences in Hle. unfold uint64. rewrite Z.mod_small by lia.
    transitivity (Z.of_nat (size (seenSequences s)) = n).
    { destruct (Z.eqb_spec n 0), (Z.eqb_spec (Z.of_nat (size (seenSequences s))) 0), (Z.eqb_spec (Z.of_nat (size (seenSequences s))) n); cbn; split; (done || lia). }
    setoid_rewrite <- (sk_sequences _ _ Hs). setoid_rewrite <- elem_of_sequences. split.
    - intros E. assert (seenSequences s = sequences) as ->; [|done]. apply set_subseteq_size_eq; [done|]. rewrite size_sequences. lia.
    - intros E. assert (seenSequences s = sequences) as -> by (apply set_eq; intros q; symmetry; apply E). rewrite size_sequences. lia. }
  assert (for_all (check_latest s) (map_to_list (latestHistories s)) = Ok tt <->
    forall t k r, PVersion t k r ∈ ps -> (forall r', PVersion t k r' ∈ ps -> row_Sequence r' <= row_Sequence r) ->
      exists h, PHead t k h ∈ ps /\ row_Sequence h = row_Sequence r /\ row_Version h = row_Version r /\ row_Value h = row_Value r) as Hlatest.
  { rewrite for_all_Ok, Forall_forall. split.
    - intros H t k r Hp Hmax. destruct (sk_recorded _ _ Hs t k r Hp) as [r' Hr']. specialize (H _ (proj2 (elem_of_map_to_list _ (t, k) r') Hr')).
      destruct (sk_latest _ _ Hs t k r' Hr') as [Hp' Hmax']. specialize (Hmax r' Hp'). specialize (Hmax' r Hp).
      assert (r = r') as <- by (apply (fresh_versions ps t k r t k r' Hf Hp Hp'); lia).
      cbn [check_latest] in H. destruct (heads s !! (t, k)) as [h|] eqn:Hh; [|done]. apply fail_if_Ok in H. bool_to_prop. rewrite !beq_true in *.
      exists h. split; [by apply (sk_heads _ _ Hs)|done].
    - intros H [[t k] r] Hin%elem_of_map_to_list. destruct (sk_latest _ _ Hs t k r Hin) as [Hp Hmax]. destruct (H t k r Hp Hmax) as (h & Hh & E1 & E2 & E3).
      cbn [check_latest]. destruct (sk_headed _ _ Hs t k h Hh) as [h' Hh']. rewrite Hh'. apply (sk_heads _ _ Hs) in Hh'.
      rewrite (head_unique ps t k h' h) by done. unfold corrupt_if. rewrite E1, E2, E3, Z.eqb_refl, !beq_refl. done. }
  assert ((forall t k r, PVersion t k r ∈ ps -> exists h, PHead t k h ∈ ps) ->
    Nat.eqb (size (heads s)) (size (historyKeys s)) = true <-> forall t k r, PHead t k r ∈ ps -> exists r', PVersion t k r' ∈ ps) as Horphan.
  { intros Hall. rewrite Nat.eqb_eq, <- (size_dom (D := gset (bytes * bytes))).
    assert (historyKeys s ⊆ dom (heads s)) as Hk.
    { intros [t k] (r & Hp)%(sk_keys _ _ Hs). destruct (Hall t k r Hp) as [h Hh]. apply elem_of_dom. by apply (sk_headed _ _ Hs t k h). }
    split.
    - intros E t k r Hp. apply (sk_keys _ _ Hs). assert (historyKeys s = dom (heads s)) as -> by (apply set_subseteq_size_eq; [done|lia]).
      apply elem_of_dom. by apply (sk_headed _ _ Hs t k r).
    - intros E. assert (dom (heads s) = historyKeys s) as ->; [|done]. apply set_eq. intros [t k]. split; [|apply Hk].
      intros [h Hh%(sk_heads _ _ Hs)]%elem_of_dom. apply (sk_keys _ _ Hs). by apply (E t k h). }
  assert (for_all (check_latest s) (map_to_list (latestHistories s)) = Ok tt -> forall t k r, PVersion t k r ∈ ps -> exists h, PHead t k h ∈ ps) as Hheaded.
  { intros Hall t k r Hp. pose proof (proj1 Hlatest Hall) as Hl. destruct (sk_recorded _ _ Hs t k r Hp) as [r' [Hp' Hmax]%(sk_latest _ _ Hs)].
    destruct (Hl t k r' Hp' Hmax) as (h & Hh & _). by exists h. }
  split.
  - intros H. apply bind_Ok in H as (u & H1%fail_if_Ok & H). apply bind_Ok in H as ([] & Hl & H%fail_if_Ok%negb_false_iff).
    split; [done|exact (proj1 Hcount H1)|exact (proj1 Hlatest Hl)|exact (proj1 (Horphan (Hheaded Hl)) H)].
  - intros [_ Hc Hl Ho]. pose proof (proj2 Hlatest Hl) as Hl'. unfold corrupt_if. rewrite (fail_if_false _ _ _ (proj2 Hcount Hc)), Hl'. cbn [mbind result_bind].
    apply fail_if_Ok, negb_false_iff. exact (proj2 (Horphan (Hheaded Hl')) Ho).
Qed.

Lemma validatePersistedRecords_iff : validatePersistedRecords opts m n = Ok tt <-> exists ps, parses ps /\ consistent ps.
Proof.
  unfold validatePersistedRecords. split.
  - intros H. apply bind_Ok in H as (s & (ps & H2 & Hf & ->)%validate_records_iff & H). exists ps. split; [done|]. by apply validate_all_iff in H.
  - intros (ps & H2 & Hc). rewrite (proj2 (validate_records_iff (db_Stream m) nothing_seen (fold_left add ps nothing_seen))).
    + cbn [mbind result_bind]. apply (proj2 (validate_all_iff ps H2 (cs_fresh _ Hc)) Hc).
    + exists ps. split; [done|]. split; [apply Hc|done].
Qed.

(** ** From a log to its records *)

(** A record under a history key is a version. *)
Lemma accepted_at_history t k q v p : coords t k -> 0 <= q < 2 ^ 64 -> accepted m n (tuple_bytes (hist_cs t k q)) v p ->
  exists r, p = PVersion t k r /\ row_Sequence r = q.
Proof.
  intros Hc Hq H. remember (tuple_bytes (hist_cs t k q)) as key eqn:E. destruct H as [|t' k' r Hc' _ _ _|t' k' r Hc' Hb' _ _ _|row r _ Hu _ _ _ _].
  - apply key_inj in E; [discriminate E|auto with storage..].
  - apply key_inj in E; [discriminate E|auto with storage..].
  - apply key_inj in E; [|auto with storage..]. apply hist_cs_inj in E as (-> & -> & <-); [by exists r|apply Hb'|done].
  - apply key_inj in E; [discriminate E|auto with storage..].
Qed.

Lemma accepted_at_head t k v p : coords t k -> accepted m n (tuple_bytes (head_cs t k)) v p -> exists r, p = PHead t k r.
Proof.
  intros Hc H. remember (tuple_bytes (head_cs t k)) as key eqn:E. destruct H as [|t' k' r Hc' _ _ _|t' k' r Hc' _ _ _ _|row r _ Hu _ _ _ _].
  - apply key_inj in E; [discriminate E|auto with storage..].
  - apply key_inj in E; [|auto with storage..]. exists r.
    assert (t' = t /\ k' = k) as [-> ->] by (split; [exact (f_equal (fun cs => data (component cs 1)) E)|exact (f_equal (fun cs => data (component cs 2)) E)]). done.
  - apply key_inj in E; [discriminate E|auto with storage..].
  - apply key_inj in E; [discriminate E|auto with storage..].
Qed.

Lemma all_fresh_intro ps : (forall i j t k r t' k' r', ps !! i = Some (PVersion t k r) -> ps !! j = Some (PVersion t' k' r') ->
  row_Sequence r = row_Sequence r' -> i = j) -> all_fresh nothing_seen ps.
Proof.
  induction ps as [|p ps IH] using rev_ind; [done|]. intros H. apply all_fresh_snoc. split.
  - apply IH. intros i j t k r t' k' r' Hi Hj. apply (H i j t k r t' k' r'); by apply lookup_app_l_Some.
  - destruct p as [| |t k r|]; [done..| |done]. cbn. intros (t' & k' & r' & (i & Hi)%list_elem_of_lookup & E)%(sk_sequences _ _ (seen_ok_fold ps)).
    pose proof (lookup_lt_Some _ _ _ Hi). assert (i = length ps); [|lia].
    apply (H i (length ps) t' k' r' t k r); [by apply lookup_app_l_Some|by apply list_lookup_middle|done].
Qed.

Lemma Forall2_choice {A B} (P : A -> B -> Prop) l : (forall x, x ∈ l -> exists y, P x y) -> exists k, Forall2 P l k.
Proof.
  induction l as [|x l IH]; intros H; [by exists []|]. destruct (H x) as [y Hy]; [by left|]. destruct IH as [k Hk]; [intros z Hz; apply H; by right|].
  exists (y :: k). by constructor.
Qed.

Section from_log.
Context (l : list Row) (Hl : log_ok l) (Hlen : len l = n) (Hm : image l m).

(** A parsed record comes from the log. *)
Definition of_log (p : parsed) : Prop :=
  match p with
  | PVersion t k r => exists row, row ∈ l /\ of_row t k row /\ r = bare row
  | PHead t k r => exists row, head_of l t k = Some row /\ r = bare row
  | _ => True
  end.

Lemma log_lookup cs v : key_cs cs -> cs <> seq_cs -> m !! tuple_bytes cs = Some v <-> record l cs v.
Proof. by apply image_lookup. Qed.

Lemma log_accepted key v : m !! key = Some v -> exists p, accepted m n key v p /\ of_log p.
Proof.
  intros Hkv. destruct (decide (key = tuple_bytes seq_cs)) as [->|Hne].
  { exists PSequence. split; [|done]. assert (v = encodeSequence n) as ->; [|constructor].
    destruct Hm as [E|[-> E]]; rewrite E in Hkv.
    - apply log_records_lookup in Hkv as (cs & Ecs & Hr); [|done]. apply key_inj in Ecs as <-; [|auto with storage|by apply (record_key l cs v)].
      apply record_seq in Hr as [_ ->]. by rewrite Hlen.
    - rewrite lookup_singleton_eq in Hkv. injection Hkv as <-. by rewrite <- Hlen. }
  destruct (image_key l m key v Hl Hm Hkv) as [|(cs & -> & Hr)]; [done|].
  apply record_cases in Hr as [(r & Hr & -> & ->)|[(r & Hr & -> & ->)|[(t & k & r & Hh & -> & ->)|(_ & -> & _)]]]; [| | |done].
  - destruct (log_row l r Hl Hr) as [Hc Hb Hpos]. pose proof (log_sequence l r Hl Hr). exists (PVersion (row_Table r) (row_Key r) (bare r)). split; [|by exists r].
    apply (ac_version m n (row_Table r) (row_Key r) (bare r)); [done|by destruct Hb|done|cbn [bare row_Sequence]; lia|].
    cbn [bare row_Version]. apply log_lookup; [apply index_key_cs, Hb|discriminate|]. rewrite with_bare by done. by apply rec_index.
  - destruct (log_row l r Hl Hr) as [Hc Hb Hpos]. exists (PIndex (row_Version r)). split; [|done].
    apply (ac_index m n r r); [done|apply Hb| |done| |done]; [pose proof (bo_sequence _ Hb); lia|]. apply log_lookup; [exact (hist_key_cs _ _ _ Hc)|discriminate|]. by apply rec_version.
  - pose proof (head_of_spec _ _ _ _ Hh) as [Hr [<- <-]]. destruct (log_row l r Hl Hr) as [Hc Hb Hpos]. pose proof (log_sequence l r Hl Hr).
    exists (PHead (row_Table r) (row_Key r) (bare r)). split; [|by exists r].
    apply (ac_head m n _ _ (bare r)); [done|by destruct Hb|done|cbn [bare row_Sequence]; lia].
Qed.

Lemma log_consistent : exists ps, parses ps /\ consistent ps.
Proof.
  destruct (Forall2_choice (fun kv p => accepted m n (fst kv) (snd kv) p /\ of_log p) (db_Stream m)) as [ps H2'].
  { intros [key v] Hkv%elem_of_sorted_members. by apply log_accepted. }
  assert (parses ps) as H2 by (apply (Forall2_impl _ _ _ _ H2'); by intros [key v] p [? _]).
  assert (forall p, p ∈ ps -> of_log p) as Hof.
  { intros p (i & Hi)%list_elem_of_lookup. by destruct (Forall2_lookup_r _ _ _ _ _ H2' Hi) as (? & _ & _ & ?). }
  assert (forall r, r ∈ l -> PVersion (row_Table r) (row_Key r) (bare r) ∈ ps) as Hversion.
  { intros r Hr. destruct (log_row l r Hl Hr) as [Hc Hb Hpos]. pose proof (bo_sequence _ Hb).
    destruct (parses_lookup ps (tuple_bytes (hist_of r)) (row_image recordVersion r) H2) as (p & Hp & Ha);
      [apply log_lookup; [exact (hist_key_cs _ _ _ Hc)|discriminate|by apply rec_version]|].
    destruct (accepted_at_history _ _ _ _ _ Hc (bo_sequence _ Hb) Ha) as (r' & -> & E). destruct (Hof _ Hp) as (row & Hrow & _ & ->).
    cbn [bare row_Sequence] in E. by rewrite (same_row_sequence l row r Hl Hrow Hr E) in Hp. }
  exists ps. split; [done|]. split.
  - apply all_fresh_intro. intros i j t k r t' k' r' Hi Hj E.
    destruct (Hof _ (list_elem_of_lookup_2 _ _ _ Hi)) as (row & Hrow & Ho & ->), (Hof _ (list_elem_of_lookup_2 _ _ _ Hj)) as (row' & Hrow' & Ho' & ->).
    assert (row = row') as <- by (by apply (same_row_sequence l)). destruct Ho as [<- <-], Ho' as [<- <-].
    destruct (Forall2_lookup_r _ _ _ _ _ H2 Hi) as ([k1 v1] & H1 & (E1 & _)%accepted_version), (Forall2_lookup_r _ _ _ _ _ H2 Hj) as ([k2 v2] & H2'' & (E2 & _)%accepted_version).
    cbn [fst] in E1, E2. subst k1 k2. pose proof (increasing_NoDup fst _ (sorted_members_increasing m)) as Hnd.
    apply (proj1 (NoDup_alt _) Hnd i j (tuple_bytes (hist_cs (row_Table row) (row_Key row) (row_Sequence (bare row))))); rewrite list_lookup_fmap.
    + unfold db_Stream in H1. by rewrite H1.
    + unfold db_Stream in H2''. by rewrite H2''.
  - intros q. split.
    + intros Hq. destruct (lookup_lt_is_Some_2 l (Z.to_nat (q - 1))) as [r Hr]; [unfold len in Hlen; lia|].
      exists (row_Table r), (row_Key r), (bare r). split; [apply Hversion; by eapply list_elem_of_lookup_2|]. cbn. rewrite (lo_sequence l Hl _ _ Hr). lia.
    + intros (t & k & r & Hp & <-). destruct (Hof _ Hp) as (row & Hrow & _ & ->). cbn. rewrite <- Hlen. pose proof (log_sequence l row Hl Hrow). lia.
  - intros t k r Hp Hmax. destruct (Hof _ Hp) as (row & Hrow & Ho & ->). destruct (head_of l t k) as [h|] eqn:Hh; [|by apply (head_of_None _ _ _ row) in Hh].
    pose proof (head_of_spec _ _ _ _ Hh) as [Hin Ho']. destruct (log_row l h Hl Hin) as [Hc Hb _]. destruct Ho' as [<- <-]. exists (bare h). split.
    + destruct (parses_lookup ps (tuple_bytes (head_cs (row_Table h) (row_Key h))) (row_image recordHead h) H2) as (p & Hp' & Ha);
        [apply log_lookup; [by apply head_key_cs|discriminate|by apply rec_head]|].
      destruct (accepted_at_head _ _ _ _ Hc Ha) as (r' & ->). destruct (Hof _ Hp') as (row' & Hh' & ->). rewrite Hh in Hh'. by injection Hh' as <-.
    + specialize (Hmax (bare h) (Hversion h Hin)). cbn in Hmax.
      destruct (strongly_last seq_lt _ _ row (StronglySorted_filter _ _ _ (log_sorted l Hl)) Hh) as [->|Hlt]; [by apply list_elem_of_filter|done|].
      unfold seq_lt in Hlt. lia.
  - intros t k r Hp. destruct (Hof _ Hp) as (row & Hh & ->). pose proof (head_of_spec _ _ _ _ Hh) as [Hin [<- <-]]. exists (bare row). by apply Hversion.
Qed.
End from_log.

(** ** From records to the log *)

Section to_log.
Context (ps : list parsed) (H2 : parses ps) (Hc : consistent ps).

Definition full (t k : bytes) (r : Row) : Row := with_coordinates r t k.

Definition version_of (p : parsed) : option (Z * Row) :=
  match p with PVersion t k r => Some (row_Sequence r, full t k r) | _ => None end.

(** The version of each sequence, and the log in their order. *)
Definition by_sequence : gmap Z Row := list_to_map (omap version_of ps).
Definition the_log : list Row := map (fun q => default zero_row (by_sequence !! q)) (seqZ 1 n).

Lemma in_versions q row : (q, row) ∈ omap version_of ps <-> exists t k r, PVersion t k r ∈ ps /\ q = row_Sequence r /\ row = full t k r.
Proof.
  rewrite list_elem_of_omap. split.
  - intros ([| |t k r|] & Hp & E); try done. injection E as <- <-. by exists t, k, r.
  - intros (t & k & r & Hp & -> & ->). by exists (PVersion t k r).
Qed.

Lemma by_sequence_spec q row : by_sequence !! q = Some row <-> exists t k r, PVersion t k r ∈ ps /\ q = row_Sequence r /\ row = full t k r.
Proof.
  rewrite <- in_versions. split; [apply elem_of_list_to_map_2|]. intros Hin. apply elem_of_list_to_map_1'; [|done]. intros row' Hin'.
  apply in_versions in Hin as (t & k & r & Hp & -> & ->), Hin' as (t' & k' & r' & Hp' & E & ->).
  destruct (fresh_versions ps t k r t' k' r' (cs_fresh _ Hc) Hp Hp' E) as (-> & -> & ->). done.
Qed.

Lemma len_the_log : len the_log = n.
Proof. unfold the_log, len. rewrite length_map, length_seqZ. lia. Qed.

Lemma the_log_lookup i row : the_log !! i = Some row <-> by_sequence !! (Z.of_nat i + 1) = Some row /\ Z.of_nat i < n.
Proof.
  unfold the_log. rewrite list_lookup_fmap. split.
  - intros (q & Hq & ->)%fmap_Some. apply lookup_seqZ in Hq as [-> Hi]. replace (1 + Z.of_nat i) with (Z.of_nat i + 1) by lia. split; [|done].
    destruct (proj1 (cs_cover _ Hc (Z.of_nat i + 1))) as (t & k & r & Hp & E); [lia|].
    assert (by_sequence !! (Z.of_nat i + 1) = Some (full t k r)) as -> by (apply by_sequence_spec; by exists t, k, r). done.
  - intros [Hb Hi]. apply fmap_Some. exists (1 + Z.of_nat i). split; [by apply lookup_seqZ|]. replace (1 + Z.of_nat i) with (Z.of_nat i + 1) by lia. by rewrite Hb.
Qed.

Lemma in_the_log row : row ∈ the_log <-> exists t k r, PVersion t k r ∈ ps /\ row = full t k r.
Proof.
  rewrite list_elem_of_lookup. setoid_rewrite the_log_lookup. setoid_rewrite by_sequence_spec. split.
  - intros (i & (t & k & r & Hp & _ & ->) & _). by exists t, k, r.
  - intros (t & k & r & Hp & ->). destruct (parsed_version ps t k r H2 Hp) as (_ & _ & _ & _ & Hs & _).
    exists (Z.to_nat (row_Sequence r - 1)). split; [|lia]. exists t, k, r. split; [done|]. split; [lia|done].
Qed.

Lemma version_in_log t k r : PVersion t k r ∈ ps -> full t k r ∈ the_log.
Proof. intros Hp. apply in_the_log. by exists t, k, r. Qed.

Lemma full_bare t k r : bare r = r -> bare (full t k r) = r.
Proof. by intros <-. Qed.

Lemma bare_ok_full t k r : bare_ok r -> bare_ok (full t k r).
Proof. by intros []. Qed.

Lemma the_log_ok : log_ok the_log.
Proof.
  split.
  - apply Forall_forall. intros row (t & k & r & Hp & ->)%in_the_log. destruct (parsed_version ps t k r H2 Hp) as (_ & Hk & Hb & _ & Hs & _).
    split; [done|by apply bare_ok_full|cbn; lia].
  - intros i row [(t & k & r & Hp & E & ->)%by_sequence_spec Hi]%the_log_lookup. cbn. lia.
  - apply NoDup_alt. intros i j v. rewrite !list_lookup_fmap. intros (a & Ha & ->)%fmap_Some (b & Hb & E)%fmap_Some.
    apply the_log_lookup in Ha as [(t & k & r & Hp & Ei & ->)%by_sequence_spec _], Hb as [(t' & k' & r' & Hp' & Ej & ->)%by_sequence_spec _].
    cbn in E. destruct (parsed_version ps t k r H2 Hp) as (_ & Hk & Hbr & _ & Hs & Hi), (parsed_version ps t' k' r' H2 Hp') as (_ & Hk' & Hbr' & _ & Hs' & Hj).
    rewrite E, Hj in Hi. apply (inj Some) in Hi. apply (f_equal (fun e => decodeVersionIndex e (row_Version r'))) in Hi.
    assert (0 < row_Sequence r < 2 ^ 64 /\ 0 < row_Sequence r' < 2 ^ 64) as [Q Q'] by lia.
    pose proof (decodeVersionIndex_image (full t k r) Hk (bo_version _ Hbr) Q) as D. pose proof (decodeVersionIndex_image (full t' k' r') Hk' (bo_version _ Hbr') Q') as D'.
    change (row_Version (full t k r)) with (row_Version r) in D. change (row_Version (full t' k' r')) with (row_Version r') in D'.
    rewrite E in D. unfold full in D, D'. rewrite D, D' in Hi. apply (inj Ok) in Hi. apply key_inj in Hi; [|by apply hist_key_cs..].
    apply hist_cs_inj in Hi as (_ & _ & Hi); cbn in *; lia.
Qed.

(** The head record of a row is the last of its versions. *)
Lemma parsed_head_is_last t k h : PHead t k h ∈ ps <-> head_of the_log t k = Some (full t k h) /\ bare h = h.
Proof.
  assert (forall row, head_of the_log t k = Some row -> exists h, PHead t k h ∈ ps /\ row = full t k h) as Hhead.
  { intros row Hrow. pose proof (head_of_spec _ _ _ _ Hrow) as [(t' & k' & r & Hp & ->)%in_the_log [E1 E2]]. cbn in E1, E2. subst t' k'.
    destruct (cs_head _ Hc t k r Hp) as (h' & Hh' & S1 & S2 & S3).
    { intros r' Hp'. destruct (strongly_last seq_lt _ _ (full t k r') (StronglySorted_filter _ _ _ (log_sorted _ the_log_ok)) Hrow) as [E|Hlt].
      - apply list_elem_of_filter. split; [done|]. by apply version_in_log.
      - apply (f_equal row_Sequence) in E. cbn in E. lia.
      - unfold seq_lt in Hlt. cbn in Hlt. lia. }
    exists h'. split; [done|]. unfold full, with_coordinates. by rewrite S1, S2, S3. }
  split.
  - intros Hp. destruct (parsed_head ps t k h H2 Hp) as (_ & _ & _ & He & _). split; [|done]. destruct (cs_orphan _ Hc t k h Hp) as [r Hr].
    destruct (head_of the_log t k) as [row|] eqn:E.
    + destruct (Hhead row eq_refl) as (h' & Hh' & ->). by rewrite (head_unique ps t k h h').
    + exfalso. by apply (head_of_None _ _ _ (full t k r) E); [apply version_in_log|].
  - intros [Hh He]. destruct (Hhead _ Hh) as (h' & Hh' & E). destruct (parsed_head ps t k h' H2 Hh') as (_ & _ & _ & He' & _).
    apply (f_equal bare) in E. rewrite !full_bare in E by done. by subst h'.
Qed.

Lemma the_log_records key v : key <> tuple_bytes seq_cs -> m !! key = Some v <-> exists cs, key = tuple_bytes cs /\ record the_log cs v.
Proof.
  intros Hne. split.
  - intros Hkv. destruct (parses_lookup ps key v H2 Hkv) as (p & Hp & Ha). destruct Ha as [|t k r Hk Hb He Hs|t k r Hk Hb He Hs Hi|row r Hk Hu Hs Hb Hh Hv].
    + done.
    + exists (head_cs t k). split; [done|]. apply parsed_head_is_last in Hp as [Hh _]. apply (rec_head _ _ _ _ Hh).
    + exists (hist_cs t k (row_Sequence r)). split; [done|]. apply (rec_version _ (full t k r)). by apply version_in_log.
    + exists (index_cs (row_Version row)). split; [done|]. destruct (parses_lookup ps _ _ H2 Hh) as (p' & Hp' & Ha').
      assert (0 <= row_Sequence row < 2 ^ 64) as Hq by lia. destruct (accepted_at_history _ _ _ _ _ Hk Hq Ha') as (r' & -> & E). apply accepted_version in Ha' as (_ & Er & _ & Hb' & He' & _).
      apply row_image_inj in Er; [|done..]. apply version_in_log in Hp'.
      assert (row_Version r' = row_Version row) as Ev by (rewrite <- Hv; rewrite He' in Er; rewrite <- Er; done).
      assert (index_image row = index_image (full (row_Table row) (row_Key row) r')) as -> by (unfold index_image; cbn; by rewrite E, Ev).
      rewrite <- Ev. apply (rec_index _ _ Hp').
  - intros (cs & -> & Hr). apply record_cases in Hr as [(row & Hr & -> & ->)|[(row & Hr & -> & ->)|[(t & k & row & Hh & -> & ->)|(_ & -> & _)]]]; [| | |done].
    + apply in_the_log in Hr as (t & k & r & Hp & ->). by destruct (parsed_version ps t k r H2 Hp) as (? & _).
    + apply in_the_log in Hr as (t & k & r & Hp & ->). by destruct (parsed_version ps t k r H2 Hp) as (_ & _ & _ & _ & _ & ?).
    + pose proof (head_of_spec _ _ _ _ Hh) as [_ [<- <-]].
      assert (PHead (row_Table row) (row_Key row) (bare row) ∈ ps) as Hp by (apply parsed_head_is_last; split; [rewrite Hh; by destruct row|done]).
      by destruct (parsed_head ps _ _ _ H2 Hp) as (? & _).
Qed.

Lemma the_log_image : match m !! tuple_bytes seq_cs with Some v => decodeSequence v = Ok n | None => m = ∅ /\ n = 0 end -> image the_log m.
Proof.
  intros Hseq. pose proof len_the_log as Hlen. destruct (decide (the_log = [])) as [E|Hne].
  - assert (forall key, key <> tuple_bytes seq_cs -> m !! key = None) as Hnone.
    { intros key Hk. destruct (m !! key) as [v|] eqn:Hkv; [|done]. apply the_log_records in Hkv as (cs & _ & Hr); [|done]. rewrite E in Hr. by apply record_nil in Hr. }
    rewrite E in *. change (len []) with 0 in Hlen. destruct (m !! tuple_bytes seq_cs) as [v|] eqn:Hv; [right|left; by destruct Hseq as [-> _]].
    split; [done|]. apply decodeSequence_canonical in Hseq as [-> _]. rewrite <- Hlen in Hv. apply map_eq. intros key.
    destruct (decide (key = tuple_bytes seq_cs)) as [->|Hk]; [by rewrite lookup_singleton_eq|]. rewrite lookup_singleton_ne by done. by apply Hnone.
  - left. apply map_eq. intros key. apply option_eq. intros v. rewrite log_records_lookup by apply the_log_ok.
    destruct (decide (key = tuple_bytes seq_cs)) as [->|Hk]; [|by apply the_log_records].
    assert (n <> 0) as Hn0 by (intros H0; apply Hne, length_zero_iff_nil; unfold len in Hlen; lia).
    destruct (m !! tuple_bytes seq_cs) as [w|]; [|by destruct Hseq]. apply decodeSequence_canonical in Hseq as [-> _]. split.
    + intros [= <-]. exists seq_cs. split; [done|]. rewrite <- Hlen. by apply rec_sequence.
    + intros (cs & Ecs & Hr). apply key_inj in Ecs as <-; [|auto with storage|by apply (record_key _ _ _ the_log_ok Hr)].
      apply record_seq in Hr as [_ ->]. by rewrite Hlen.
Qed.
End to_log.
End open.

(** ** Opening *)

Lemma hasUserKeys_iff m : hasUserKeys m = false <-> m = ∅.
Proof.
  unfold hasUserKeys. split.
  - destruct (db_Stream m) as [|x xs] eqn:E; [|done]. intros _. apply map_empty. intros k. destruct (m !! k) as [v|] eqn:Hk; [|done].
    apply elem_of_sorted_members in Hk. unfold db_Stream in E. rewrite E in Hk. by apply not_elem_of_nil in Hk.
  - intros ->. done.
Qed.

Section opening.
Context {canon : Canonicalizer} (dir : bytes) (o opts : Options).
Context (Hdir : dir <> []) (Hnorm : normalized (storage_options o) = Ok opts).

(** The sequence [Open] reads: that of the sequence record, and zero when
    nothing was written. *)
Definition read_sequence (m : gmap bytes bytes) (n : Z) : Prop :=
  match m !! tuple_bytes seq_cs with Some v => decodeSequence v = Ok n | None => m = ∅ /\ n = 0 end.

Lemma Open_reads m faults g e : Open dir o m faults g = Ok e
  <-> exists n, read_sequence m n /\ validatePersistedRecords opts m n = Ok tt /\ e = mkEngine m opts faults g n false None.
Proof.
  unfold Open. rewrite fail_if_false by (by apply bool_decide_eq_false_2). rewrite Hnorm, sequenceKey_ok. cbn [map_err mbind result_bind].
  unfold db_Get. rewrite (key_validates opts seq_cs (bn_key _ (normalized_bounds _ _ Hnorm))) by auto with storage. cbn [mbind result_bind].
  unfold read_sequence. destruct (m !! tuple_bytes seq_cs) as [v|].
  - unfold or_corrupt. split.
    + intros H. apply bind_Ok in H as (n & Hd & H). destruct (decodeSequence v) as [n'|]; [|done]. injection Hd as ->.
      apply bind_Ok in H as ([] & Hv & [= <-]). by exists n.
    + intros (n & -> & Hv & ->). cbn [map_err mbind result_bind]. by rewrite Hv.
  - unfold corrupt_if. split.
    + intros H. apply bind_Ok in H as (n & Hd & H). destruct (hasUserKeys m) eqn:Hu; [done|]. injection Hd as <-.
      apply hasUserKeys_iff in Hu. apply bind_Ok in H as ([] & Hv & [= <-]). by exists 0.
    + intros (n & [Hm ->] & Hv & ->). rewrite (proj2 (hasUserKeys_iff m) Hm). cbn [fail_if map_err mbind result_bind]. by rewrite Hv.
Qed.

Lemma image_sequence l m : log_ok l -> image l m -> len l <= max_uint64 -> read_sequence m (len l).
Proof.
  intros Hl Hm Hb. pose proof (len_nonneg l). assert (0 <= len l < 2 ^ 64) as Hn by (unfold max_uint64 in Hb; lia). unfold read_sequence.
  destruct Hm as [->|[-> ->]]; [|rewrite lookup_singleton_eq; by apply decodeSequence_encode].
  destruct l as [|r l]; [done|]. rewrite (proj2 (log_records_lookup (r :: l) _ (encodeSequence (len (r :: l))) Hl)); [by apply decodeSequence_encode|].
  exists seq_cs. split; [done|]. by apply rec_sequence.
Qed.

Lemma Open_log m faults g e : Open dir o m faults g = Ok e
  <-> exists l, log_ok l /\ len l <= max_uint64 /\ image l m /\ e = mkEngine m opts faults g (len l) false None.
Proof.
  pose proof (normalized_bounds _ _ Hnorm) as Hopts. rewrite Open_reads. split.
  - intros (n & Hr & Hv & ->). assert (0 <= n < 2 ^ 64) as Hn.
    { unfold read_sequence in Hr. destruct (m !! tuple_bytes seq_cs); [by apply decodeSequence_canonical in Hr as [_ ?]|lia]. }
    apply (validatePersistedRecords_iff opts Hopts m n Hn) in Hv as (ps & H2 & Hc). exists (the_log n ps). rewrite (len_the_log n Hn).
    split_and!; [exact (the_log_ok opts Hopts m n Hn ps H2 Hc)|unfold max_uint64; lia|exact (the_log_image opts Hopts m n Hn ps H2 Hc Hr)|done].
  - intros (l & Hl & Hb & Hm & ->). exists (len l). split; [by apply image_sequence|]. split; [|done].
    assert (0 <= len l < 2 ^ 64) as Hn by (pose proof (len_nonneg l); unfold max_uint64 in Hb; lia).
    apply (validatePersistedRecords_iff opts Hopts m _ Hn), (log_consistent opts Hopts m _ Hn l); done.
Qed.

Lemma Open_represents m faults g e : Open dir o m faults g = Ok e -> exists l, represents e l.
Proof.
  intros (l & Hl & Hb & Hm & ->)%Open_log. exists l. split; try done. by apply normalized_bounds in Hnorm.
Qed.
End opening.
