(* ===== verification/RowStore.v ===== *)
(** The row store as its clients see it: reads answer from the log of rows
    written, a write appends to it, opening accepts exactly the records of a
    log, and what was acknowledged is there when the store is opened again. *)

From Stdlib Require Import ZArith Lia.
From stdpp Require Import base list gmap.
From S2P Require Import Prelude GoStd Codec Uuidv7 Coordinates EngineOps Command State Snapshot View Storage StorageRecords StorageLog StorageReads StorageWrites StorageOpen.

Local Open Scope Z_scope.

(** ** Sequences of writes *)

Record write : Type := mkWrite { w_table : bytes; w_key : bytes; w_value : bytes; w_condition : Condition }.

Section session.
Context {canon : Canonicalizer}.

Definition put (e : Engine) (w : write) : Engine * result storage_error WriteResult :=
  Put e (w_table w) (w_key w) (w_value w) (w_condition w).

Fixpoint puts (e : Engine) (ws : list write) : Engine * list (result storage_error WriteResult) :=
  match ws with
  | [] => (e, [])
  | w :: ws =>
      let '(e, r) := put e w in
      let '(e, rs) := puts e ws in (e, r :: rs)
  end.

Definition acknowledged (rs : list (result storage_error WriteResult)) : list Row :=
  omap (fun r => match r with Ok w => Some (wr_Row w) | Fail _ => None end) rs.

Definition row_of_write (w : write) (row : Row) : Prop := of_row (w_table w) (w_key w) row /\ row_Value row = w_value w.

(** A store whose last commit may or may not have reached the disk. *)
Record doubtful (e : Engine) (ws : list write) (l extra : list Row) : Prop := {
  dt_log : log_ok (l ++ extra);
  dt_image : image (l ++ extra) (db e);
  dt_bounded : len (l ++ extra) <= max_uint64;
  dt_poisoned : extra = [] \/ terminalErr e = Some ErrTerminal /\ exists w row, extra = [row] /\ w ∈ ws /\ row_of_write w row
}.

Lemma represents_doubtful e l ws : represents e l -> doubtful e ws l [].
Proof. intros H. rewrite <- (app_nil_r l) in H. split; [apply H..|by left]. Qed.

Lemma doubtful_weaken e ws ws' l extra : ws ⊆ ws' -> doubtful e ws l extra -> doubtful e ws' l extra.
Proof.
  intros Hs [Hl Hm Hb Hp]. split; try done. destruct Hp as [Hp|(Ht & w & row & E & Hw & Hr)]; [by left|right].
  split; [done|]. exists w, row. split; [done|]. split; [by apply Hs|done].
Qed.

Lemma put_unusable e w : terminalErr e = Some ErrTerminal -> exists err, put e w = (e, Fail err).
Proof.
  intros Ht. unfold put, Put. destruct (check_put _ _ _ _); [|eauto]. unfold unusable. rewrite Ht. cbn. eauto.
Qed.

Lemma puts_unusable ws e : terminalErr e = Some ErrTerminal -> exists rs, puts e ws = (e, rs) /\ acknowledged rs = [].
Proof.
  revert e. induction ws as [|w ws IH]; intros e Ht; [by exists []|]. destruct (put_unusable e w Ht) as [err E], (IH e Ht) as (rs & Ers & Ea).
  exists (Fail err :: rs). cbn [puts]. by rewrite E, Ers.
Qed.

Lemma put_outcome e l w : represents e l ->
  match put e w with
  | (e', Ok r) => represents e' (l ++ [wr_Row r]) /\ row_of_write w (wr_Row r)
  | (e', Fail err) => represents e' l \/ terminalErr e' = Some ErrTerminal /\ exists extra, doubtful e' [w] l extra
  end.
Proof.
  intros H. pose proof (Put_log e l (w_table w) (w_key w) (w_value w) (w_condition w) H) as HP. unfold put.
  pose proof (log_put_ok l (generated e) (w_table w) (w_key w) (w_value w) (w_condition w)) as Hok.
  destruct (log_put l (generated e) (w_table w) (w_key w) (w_value w) (w_condition w)) as [g [row|err]].
  - destruct (Hok g row (re_log e l H) (re_bounded e l H) eq_refl) as (_ & _ & _ & _ & Ho & Hv & _). destruct HP as (e' & He' & HP).
    destruct (db_faults e) as [|[|durable] faults]; [by rewrite HP|by rewrite HP|]. destruct HP as (e2 & -> & Ht & Hdb). right. split; [done|].
    destruct durable.
    + exists [row]. split; [apply He'|rewrite Hdb; apply He'|apply He'|]. right. split; [done|]. exists w, row. split_and!; [done|by left|by split].
    + exists []. rewrite <- (app_nil_r l) in H. split; [apply H|rewrite Hdb; apply H|apply H|by left].
  - rewrite HP. left. by destruct H.
Qed.

Lemma puts_log ws e l : represents e l ->
  let '(e', rs) := puts e ws in
  exists extra, doubtful e' ws (l ++ acknowledged rs) extra /\ (represents e' (l ++ acknowledged rs) \/ terminalErr e' = Some ErrTerminal).
Proof.
  revert e l. induction ws as [|w ws IH]; intros e l H; cbn [puts].
  - exists []. cbn. rewrite app_nil_r. split; [by apply represents_doubtful|by left].
  - pose proof (put_outcome e l w H) as HP. destruct (put e w) as [e1 [r|err]].
    + destruct HP as [H1 _]. specialize (IH _ _ H1). destruct (puts e1 ws) as [e2 rs]. cbn [acknowledged omap list_omap]. fold (acknowledged rs).
      rewrite <- app_assoc in IH. destruct IH as (extra & Hd & Hr). exists extra. split; [|done]. revert Hd. apply doubtful_weaken. by right.
    + destruct HP as [H1|(Ht & extra & Hd)].
      * specialize (IH _ _ H1). destruct (puts e1 ws) as [e2 rs]. destruct IH as (extra & Hd & Hr). exists extra. split; [|done].
        revert Hd. apply doubtful_weaken. by right.
      * destruct (puts_unusable ws e1 Ht) as (rs & -> & Ha). cbn [acknowledged omap list_omap]. fold (acknowledged rs). rewrite Ha, app_nil_r.
        exists extra. split; [|by right]. revert Hd. apply doubtful_weaken. intros x ->%list_elem_of_singleton. by left.
Qed.
End session.

(** ** Theorems *)

(** C14: [Open] succeeds exactly on the records of a log of rows: on the
    canonical records of some list of rows with consecutive sequences,
    distinct versions and valid contents (or on no record but a zero
    sequence), and the store it returns holds the sequence of that log.
    Anything else in the directory, from a flipped byte to a missing index or
    a head that is not the last version, is refused. *)
Theorem open_accepts_exactly_logs `{Canonicalizer} dir o opts m faults g e :
  dir <> [] -> normalized (storage_options o) = Ok opts ->
  Open dir o m faults g = Ok e
  <-> exists l, log_ok l /\ len l <= max_uint64 /\ image l m /\ e = mkEngine m opts faults g (len l) false None.
Proof. intros Hdir Hn. by apply Open_log. Qed.

(** A store that holds a log answers every read from it: [Sequence] is its
    length, [Get] of a row its last version, [GetAt] the last version at or
    before the sequence asked for, [ErrNotFound] when there is none, and
    invalid coordinates are refused. *)
Theorem store_reads_the_log `{Canonicalizer} e l table key n : represents e l -> 0 <= n <= max_uint64 ->
  Sequence e = Ok (len l)
  /\ match validateCoordinates table key with
     | Fail err => Get e table key = Fail err /\ GetAt e table key n = Fail err
     | Ok _ =>
         Get e table key = match head_of l table key with Some r => Ok r | None => Fail ErrNotFound end
         /\ GetAt e table key n = match row_at l table key n with Some r => Ok r | None => Fail ErrNotFound end
     end.
Proof.
  intros He Hn. split.
  - unfold Sequence. by rewrite (represents_usable e l He), (re_sequence e l He).
  - destruct (validateCoordinates table key) as [[]|err] eqn:Hc.
    + apply validateCoordinates_Ok in Hc. unfold Get. rewrite !(GetAt_log e l) by (done || (unfold max_uint64; lia)). split; [|done].
      destruct (head_of l table key) as [r|] eqn:Hh.
      * rewrite (row_at_head l table key max_uint64 r); [done|exact (re_log e l He)|done|].
        apply head_of_spec in Hh as [Hr _]. pose proof (log_sequence l r (re_log e l He) Hr). pose proof (re_bounded e l He). lia.
      * apply last_None in Hh. unfold row_at. by rewrite Hh.
    + unfold Get, GetAt. rewrite Hc. done.
Qed.

(** A write to a store that holds a log does what the same write does to
    the log: it fails with the same error and changes nothing but the versions
    drawn, or the store then holds the log with the new row appended, and says
    whether the row is new.  When the commit fails in the engine, the write
    returns the terminal error, the store refuses further use, and its records
    are those before or after the write, nothing between. *)
Theorem store_appends_to_the_log `{Canonicalizer} e l table key value c : represents e l ->
  match log_put l (generated e) table key value c with
  | (g, Fail err) => Put e table key value c = (with_generated e g, Fail err)
  | (g, Ok row) =>
      exists e', represents e' (l ++ [row])
      /\ match db_faults e with
         | Poisoned durable :: faults =>
             exists e2, Put e table key value c = (e2, Fail ErrTerminal) /\ terminalErr e2 = Some ErrTerminal
             /\ db e2 = if durable then db e' else db e
         | faults => Put e table key value c = (e', Ok (mkWriteResult row (bool_decide (head_of l table key = None))))
         end
  end.
Proof. apply Put_log. Qed.

(** C13: After any sequence of writes, whatever the engine's commits answer, the
    store opens again and holds every acknowledged row, in the order of the
    acknowledgements, after the rows it held at first; at most one more row
    follows, that of a write which returned the terminal error. *)
Theorem acknowledged_rows_survive `{Canonicalizer} dir o opts m faults g e ws faults' g' :
  dir <> [] -> normalized (storage_options o) = Ok opts -> Open dir o m faults g = Ok e ->
  let '(e', rs) := puts e ws in
  exists l extra e'',
    represents e l /\ Open dir o (db e') faults' g' = Ok e'' /\ represents e'' (l ++ acknowledged rs ++ extra)
    /\ (extra = [] \/ terminalErr e' = Some ErrTerminal /\ exists w row, extra = [row] /\ w ∈ ws /\ row_of_write w row).
Proof.
  intros Hdir Hn Ho. destruct (Open_represents dir o opts Hdir Hn _ _ _ _ Ho) as [l Hl].
  pose proof (puts_log ws e l Hl) as HP. destruct (puts e ws) as [e' rs]. destruct HP as (extra & [Hlog Hm Hb Hp] & _). rewrite <- app_assoc in *.
  exists l, extra, (mkEngine (db e') opts faults' g' (len (l ++ acknowledged rs ++ extra)) false None). split; [done|]. split; [|split; [|done]].
  - apply (Open_log dir o opts Hdir Hn). by exists (l ++ acknowledged rs ++ extra).
  - split; try done. exact (normalized_bounds _ _ Hn).
Qed.

(** ** A concrete store *)

Definition plain_options : Options := mkOptions 0 0 0 0 0 0 0 0 0 0 0.
Definition store_options : Options := match normalized (storage_options plain_options) with Ok o => o | Fail _ => plain_options end.
Definition empty_store : Engine := mkEngine ∅ store_options [] [Some (uuid_of x01); Some (uuid_of x01); Some (uuid_of x02)] 0 false None.
Definition write_of (value : bytes) (c : Condition) : write := mkWrite (lit "t") (lit "k") value c.
Definition first_write : write := write_of (lit "10") (mkCondition None false).
Definition second_write : write := write_of (lit "20") (mkCondition (Some (uuid_of x01)) false).
Definition first_row : Row := mkRow (lit "t") (lit "k") (uuid_of x01) 1 (lit "10").
Definition one_row_store : Engine := fst (@put number_canon empty_store first_write).

Lemma store_options_normalized : normalized (storage_options plain_options) = Ok store_options.
Proof. by vm_compute. Qed.

Lemma empty_store_represents : @represents number_canon empty_store [].
Proof. split; [apply log_ok_nil|by left|done|done|exact (normalized_bounds _ _ store_options_normalized)|done|done]. Qed.

Lemma one_row_represents : @represents number_canon one_row_store [first_row].
Proof.
  pose proof (@put_outcome number_canon empty_store [] first_write empty_store_represents) as H.
  assert (@put number_canon empty_store first_write = (one_row_store, Ok (mkWriteResult first_row true))) as E by by vm_compute.
  rewrite E in H. exact (proj1 H).
Qed.

Lemma open_accepts_exactly_logs_witness :
  lit "d" <> [] /\ @Open number_canon (lit "d") plain_options ∅ [] [] = Ok (mkEngine ∅ store_options [] [] 0 false None).
Proof.
  split; [done|]. apply (@open_accepts_exactly_logs number_canon (lit "d") plain_options store_options ∅ [] []); [done|exact store_options_normalized|].
  exists []. split_and!; [apply log_ok_nil|done|by left|done].
Defined.

Lemma store_reads_the_log_witness :
  @Get number_canon one_row_store (lit "t") (lit "k") = Ok first_row /\ @GetAt number_canon one_row_store (lit "t") (lit "k") 0 = Fail ErrNotFound
  /\ Sequence one_row_store = Ok 1.
Proof.
  destruct (@store_reads_the_log number_canon one_row_store [first_row] (lit "t") (lit "k") 0 one_row_represents) as (H1 & H2 & H3); [done|].
  split; [exact H2|]. split; [exact H3|exact H1].
Defined.

Lemma store_appends_to_the_log_witness :
  exists e', @represents number_canon e' ([first_row] ++ [mkRow (lit "t") (lit "k") (uuid_of x02) 2 (lit "20")])
  /\ @Put number_canon one_row_store (lit "t") (lit "k") (lit "20") (mkCondition (Some (uuid_of x01)) false)
     = (e', Ok (mkWriteResult (mkRow (lit "t") (lit "k") (uuid_of x02) 2 (lit "20")) false)).
Proof.
  exact (@store_appends_to_the_log number_canon one_row_store [first_row] (lit "t") (lit "k") (lit "20")
    (mkCondition (Some (uuid_of x01)) false) one_row_represents).
Defined.

Definition failing_store : Engine := mkEngine ∅ store_options [Committed; Poisoned true] (generated empty_store) 0 false None.
Definition after_writes : Engine * list (result storage_error WriteResult) := @puts number_canon failing_store [first_write; second_write].

Lemma acknowledged_rows_survive_witness :
  acknowledged (snd after_writes) = [first_row]
  /\ exists l extra e'', @represents number_canon failing_store l /\ @Open number_canon (lit "d") plain_options (db (fst after_writes)) [] [] = Ok e''
     /\ @represents number_canon e'' (l ++ acknowledged (snd after_writes) ++ extra).
Proof.
  assert (@Open number_canon (lit "d") plain_options ∅ (db_faults failing_store) (generated empty_store) = Ok failing_store) as Ho by by vm_compute.
  assert (lit "d" <> []) as Hd by done.
  split; [by vm_compute|].
  pose proof (@acknowledged_rows_survive number_canon (lit "d") plain_options store_options ∅ (db_faults failing_store) (generated empty_store)
    failing_store [first_write; second_write] [] [] Hd store_options_normalized Ho) as H.
  change (@puts number_canon failing_store [first_write; second_write]) with after_writes in H.
  destruct after_writes as [e' rs]. destruct H as (l & extra & e'' & H1 & H2 & H3 & _). by exists l, extra, e''.
Defined.
