(* ===== verification/HttpApi.v ===== *)
(** The HTTP interface of the row store (src/internal/httpapi/httpapi.go): one
    request against one store.

    A request is what net/http hands to the handler: the method, the escaped
    path of the URL, the header fields in the order Go ranges over them, the
    announced length and the body.  A response is its status, the header fields
    that are set, and the body. *)

From Stdlib Require Import ZArith Lia.
From stdpp Require Import base list.
From S2P Require Import Prelude GoStd Uuidv7 Coordinates EngineOps Command State Storage Jsondoc JsondocCanon.

Local Open Scope Z_scope.
#[local] Existing Instance json_canon.

(** ** The standard library *)

(** [strings.TrimSpace]: white space is that of Unicode, in UTF-8. *)
Definition space_runes : list bytes :=
  [[x09]; [x0a]; [x0b]; [x0c]; [x0d]; [x20]; [xc2; x85]; [xc2; xa0]; [xe1; x9a; x80]; [xe2; x80; x80]; [xe2; x80; x81]; [xe2; x80; x82];
   [xe2; x80; x83]; [xe2; x80; x84]; [xe2; x80; x85]; [xe2; x80; x86]; [xe2; x80; x87]; [xe2; x80; x88]; [xe2; x80; x89]; [xe2; x80; x8a];
   [xe2; x80; xa8]; [xe2; x80; xa9]; [xe2; x80; xaf]; [xe2; x81; x9f]; [xe3; x80; x80]].

Definition strip_one (runes : list bytes) (s : bytes) : option bytes :=
  match List.find (fun r => beq (take (length r) s) r) runes with Some r => Some (drop (length r) s) | None => None end.
Fixpoint strip (fuel : nat) (runes : list bytes) (s : bytes) : bytes :=
  match fuel with
  | O => s
  | S fuel' => match strip_one runes s with Some s' => strip fuel' runes s' | None => s end
  end.
Definition TrimLeft (s : bytes) : bytes := strip (length s) space_runes s.
Definition TrimSpace (s : bytes) : bytes :=
  let s := TrimLeft s in rev (strip (length s) (map (@rev byte) space_runes) (rev s)).

Definition lower (b : byte) : byte := if (0x41 <=? u8 b) && (u8 b <=? 0x5a) then byte_of (u8 b + 32) else b.

(** [strings.ToLower]; of the longer characters only those with an ASCII lower
    case matter, the Kelvin sign and the dotted capital I. *)
Fixpoint ToLower (s : bytes) : bytes :=
  match s with
  | [] => []
  | b :: r =>
      match s with
      | xe2 :: x84 :: xaa :: r' => x6b :: ToLower r'
      | xc4 :: xb0 :: r' => x69 :: ToLower r'
      | _ => lower b :: ToLower r
      end
  end.

(** [strings.EqualFold] against an ASCII name; the long s and the Kelvin sign
    fold to ASCII letters. *)
Fixpoint fold_text (s : bytes) : bytes :=
  match s with
  | [] => []
  | b :: r =>
      match s with
      | xe2 :: x84 :: xaa :: r' => x6b :: fold_text r'
      | xc5 :: xbf :: r' => x73 :: fold_text r'
      | _ => lower b :: fold_text r
      end
  end.
Definition EqualFold (s name : bytes) : bool := beq (fold_text s) (fold_text name).

(** [strings.Split] at a slash. *)
Fixpoint split_slash (s : bytes) : list bytes :=
  match s with
  | [] => [[]]
  | b :: r => if u8 b =? 0x2f then [] :: split_slash r else match split_slash r with p :: ps => (b :: p) :: ps | [] => [[b]] end
  end.

(** [url.PathUnescape] *)
Fixpoint PathUnescape (s : bytes) : option bytes :=
  match s with
  | [] => Some []
  | b :: r =>
      if u8 b =? 0x25 then
        match r with
        | h1 :: h2 :: r' =>
            match hex_digit h1, hex_digit h2 with
            | Some d1, Some d2 => match PathUnescape r' with Some t => Some (byte_of (d1 * 16 + d2) :: t) | None => None end
            | _, _ => None
            end
        | _ => None
        end
      else match PathUnescape r with Some t => Some (b :: t) | None => None end
  end.

(** *** [mime.ParseMediaType]: the media type, or an error *)

Definition isTSpecial (b : byte) : bool := existsb (fun c => u8 b =? c) [0x28; 0x29; 0x3c; 0x3e; 0x40; 0x2c; 0x3b; 0x3a; 0x5c; 0x22; 0x2f; 0x5b; 0x5d; 0x3f; 0x3d].
Definition isTokenChar (b : byte) : bool := (0x20 <? u8 b) && (u8 b <? 0x7f) && negb (isTSpecial b).

Fixpoint consumeToken (s : bytes) : bytes * bytes :=
  match s with
  | b :: r => if isTokenChar b then let '(t, rest) := consumeToken r in (b :: t, rest) else ([], s)
  | [] => ([], [])
  end.

(** The text of a quoted string after its quote; [None] without an end. *)
Fixpoint quoted_value (s : bytes) : option (bytes * bytes) :=
  let keep b m := match m with Some (t, rest) => Some (b :: t, rest) | None => None end in
  match s with
  | [] => None
  | b :: r =>
      if u8 b =? 0x22 then Some ([], r)
      else if u8 b =? 0x5c then
        match r with
        | e :: r' => if isTSpecial e then keep e (quoted_value r') else keep b (quoted_value r)
        | [] => keep b (quoted_value r)
        end
      else if (u8 b =? 0x0d) || (u8 b =? 0x0a) then None
      else keep b (quoted_value r)
  end.
Definition consumeValue (s : bytes) : bytes * bytes :=
  match s with
  | x22 :: r => match quoted_value r with Some vr => vr | None => ([], s) end
  | _ => consumeToken s
  end.

(** A parameter, its value and the rest; [None] when there is none. *)
Definition consumeMediaParam (v : bytes) : option (bytes * bytes * bytes) :=
  match TrimLeft v with
  | x3b :: rest =>
      let '(param, rest) := consumeToken (TrimLeft rest) in
      if bool_decide (param = []) then None
      else match TrimLeft rest with
           | x3d :: rest =>
               let rest := TrimLeft rest in
               let '(value, rest2) := consumeValue rest in
               if bool_decide (value = []) && beq rest2 rest then None else Some (ToLower param, value, rest2)
           | _ => None
           end
  | _ => None
  end.

(** The loop over the parameters: whether it ends without an error.  A name
    given twice with different values is one. *)
Fixpoint media_params (fuel : nat) (seen : list (bytes * bytes)) (v : bytes) : bool :=
  match fuel with
  | O => bool_decide (TrimLeft v = [])
  | S fuel' =>
      let v := TrimLeft v in
      if bool_decide (v = []) then true
      else match consumeMediaParam v with
           | None => beq (TrimSpace v) [x3b]
           | Some (key, value, rest) =>
               match List.find (fun kv => beq (fst kv) key) seen with
               | Some kv => if beq (snd kv) value then media_params fuel' seen rest else false
               | None => media_params fuel' ((key, value) :: seen) rest
               end
           end
  end.

Definition checkMediaTypeDisposition (s : bytes) : bool :=
  let '(typ, rest) := consumeToken s in
  if bool_decide (typ = []) then false
  else match rest with
       | [] => true
       | x2f :: rest => let '(subtype, rest) := consumeToken rest in negb (bool_decide (subtype = [])) && bool_decide (rest = [])
       | _ => false
       end.

Fixpoint cut_semicolon (s : bytes) : bytes * bytes :=
  match s with
  | b :: r => if u8 b =? 0x3b then ([], s) else let '(p, rest) := cut_semicolon r in (b :: p, rest)
  | [] => ([], [])
  end.

Definition ParseMediaType (v : bytes) : option bytes :=
  let '(base, params) := cut_semicolon v in
  let mediatype := TrimSpace (ToLower base) in
  if checkMediaTypeDisposition mediatype && media_params (length params) [] params then Some mediatype else None.

(** ** Requests and responses *)

Record Request : Type := mkRequest {
  rq_Method : bytes;
  rq_EscapedPath : bytes;
  rq_Header : list (bytes * list bytes);
  rq_ContentLength : Z;
  rq_Body : bytes;
  rq_BodyBroken : bool
}.

Record Response : Type := mkResponse {
  rs_Status : Z;
  rs_ContentType : option bytes;
  rs_ETag : option bytes;
  rs_Allow : option bytes;
  rs_Body : bytes
}.

Definition MaxBodyBytes : Z := MaxValueBytes.

(** ** Headers *)

Definition valuesForHeader (header : list (bytes * list bytes)) (name : bytes) : list bytes * bool :=
  let own := List.filter (fun kv => EqualFold (fst kv) name) header in
  (concat (map snd own), negb (bool_decide (own = []))).

(** The text between the quotes of a strong entity tag. *)
Definition strong_tag (value : bytes) : option bytes :=
  let inner := sub value 1 (len value - 1) in
  if (len value <? 2) || negb (bool_decide (head value = Some x22)) || negb (bool_decide (last value = Some x22)) || bool_decide (x22 ∈ inner)
  then None else Some inner.

Definition validNone (value : bytes) : bool :=
  let value := TrimSpace value in
  if beq value [x2a] then true
  else match strong_tag value with
       | None => false
       | Some inner => match Uuidv7.Parse inner with Ok version => beq (UUID_String version) inner | Fail _ => false end
       end.

(** Whether it matches, and whether it is valid. *)
Definition matchNone (value current : bytes) : bool * bool :=
  let value := TrimSpace value in
  if negb (validNone value) then (false, false) else (beq value [x2a] || beq value current, true).

Definition parsePutCondition (header : list (bytes * list bytes)) : option Condition :=
  let '(matchValues, matchPresent) := valuesForHeader header (lit "If-Match") in
  let '(noneValues, nonePresent) := valuesForHeader header (lit "If-None-Match") in
  let single values := match values with [v] => negb (bool_decide (TrimSpace v = [])) | _ => false end in
  let first values := TrimSpace (default [] (head values)) in
  if matchPresent && negb (single matchValues) then None
  else if nonePresent && negb (single noneValues) then None
  else if matchPresent && nonePresent then None
  else if nonePresent then if beq (first noneValues) [x2a] then Some (mkCondition None true) else None
  else if negb matchPresent then Some (mkCondition None false)
  else match strong_tag (first matchValues) with
       | None => None
       | Some inner => match Uuidv7.Parse inner with Ok version => Some (mkCondition (Some version) false) | Fail _ => None end
       end.

(** ** Paths *)

Definition parsePath (escaped : bytes) : option (bytes * bytes) :=
  match escaped with
  | x2f :: path =>
      if bool_decide (last escaped = Some x2f) then None
      else match split_slash path with
           | [p0; p1] =>
               if bool_decide (p0 = []) || bool_decide (p1 = []) then None
               else match PathUnescape p0, PathUnescape p1 with
                    | Some table, Some key =>
                        if (negb (ValidTable table) && negb (IsReservedTable table)) || negb (ValidKey key) then None else Some (table, key)
                    | _, _ => None
                    end
           | _ => None
           end
  | _ => None
  end.

(** ** Responses *)

Definition json_type : bytes := lit "application/json".
Definition StatusText (status : Z) : bytes :=
  if status =? 400 then lit "Bad Request" else if status =? 404 then lit "Not Found" else if status =? 405 then lit "Method Not Allowed"
  else if status =? 412 then lit "Precondition Failed" else if status =? 413 then lit "Request Entity Too Large"
  else if status =? 415 then lit "Unsupported Media Type" else if status =? 500 then lit "Internal Server Error"
  else if status =? 501 then lit "Not Implemented" else if status =? 503 then lit "Service Unavailable" else [].

Definition three_digits (n : Z) : bytes := map (fun d => byte_of (0x30 + d)) [n / 100; n / 10 mod 10; n mod 10].

Definition WriteProblem (status : Z) (code detail : String.string) : Response :=
  let member name value := quote (lit name) ++ lit ":" ++ value in
  mkResponse status (Some (lit "application/problem+json")) None None
    (lit "{" ++ member "code" (quote (lit code)) ++ lit "," ++ member "title" (quote (StatusText status)) ++ lit ","
     ++ member "status" (three_digits status) ++ lit "," ++ member "detail" (quote (lit detail)) ++ lit "}" ++ [x0a]).

Definition writeStorageProblem (err : storage_error) : Response :=
  match err with
  | ErrTerminal => WriteProblem 503 "storage_terminal" "The database encountered a terminal storage failure."
  | ErrClosed => WriteProblem 503 "storage_closed" "The database is not serving requests."
  | ErrCorrupt _ => WriteProblem 500 "storage_corrupt" "The database contains invalid persisted data."
  | _ => WriteProblem 500 "storage_error" "The database could not complete the request."
  end.

Definition quoteETag (version : UUID) : bytes := [x22] ++ UUID_String version ++ [x22].

Definition writeEnvelope (row : Row) : bytes :=
  lit "{" ++ quote (lit "_key") ++ lit ":" ++ quote (row_Key row) ++ lit "," ++ quote (lit "_version") ++ lit ":" ++ quote (UUID_String (row_Version row))
  ++ lit "," ++ quote (lit "value") ++ lit ":" ++ row_Value row ++ lit "}".

Definition row_response (status : Z) (row : Row) : Response :=
  mkResponse status (Some json_type) (Some (quoteETag (row_Version row))) None (writeEnvelope row).

(** ** Handlers *)

Definition canonicalJSON (body : bytes) : result json_error bytes := document ← Parse body; Ok (Document_Bytes document).

Definition handleGet (e : Engine) (r : Request) (table key : bytes) : Response :=
  let '(values, present) := valuesForHeader (rq_Header r) (lit "If-None-Match") in
  if present && negb (match values with [v] => validNone v | _ => false end)
  then WriteProblem 400 "invalid_if_none_match" "If-None-Match must be * or one strong quoted UUIDv7."
  else match Get e table key with
       | Fail ErrNotFound => WriteProblem 404 "not_found" "The requested row does not exist."
       | Fail err => writeStorageProblem err
       | Ok row =>
           let etag := quoteETag (row_Version row) in
           if present && fst (matchNone (default [] (head values)) etag) then mkResponse 304 None (Some etag) None []
           else row_response 200 row
       end.

Definition handlePut (e : Engine) (r : Request) (table key : bytes) : Engine * Response :=
  match parsePutCondition (rq_Header r) with
  | None => (e, WriteProblem 400 "invalid_condition" "The write condition is malformed or combines unsupported forms.")
  | Some condition =>
      let unsupported := WriteProblem 415 "unsupported_media_type" "PUT requires Content-Type: application/json." in
      let '(contentTypes, present) := valuesForHeader (rq_Header r) (lit "Content-Type") in
      match contentTypes with
      | [] => (e, unsupported)
      | [contentType] =>
          if bool_decide (TrimSpace contentType = []) then (e, unsupported)
          else match ParseMediaType contentType with
          | None => (e, WriteProblem 400 "invalid_content_type" "The Content-Type header is malformed.")
          | Some mediaType =>
              let tooLarge := WriteProblem 413 "body_too_large" "The JSON document exceeds the 1 MiB limit." in
              if negb (beq mediaType json_type) then (e, unsupported)
              else if MaxBodyBytes <? rq_ContentLength r then (e, tooLarge)
              else if MaxBodyBytes <? len (rq_Body r) then (e, tooLarge)
              else if rq_BodyBroken r then (e, WriteProblem 400 "invalid_body" "The request body could not be read.")
              else match canonicalJSON (rq_Body r) with
              | Fail _ => (e, WriteProblem 400 "invalid_json" "The request body is not a valid JSON document.")
              | Ok canonical =>
                  if MaxBodyBytes <? len canonical
                  then (e, WriteProblem 413 "body_too_large" "The canonical JSON document exceeds the 1 MiB limit.")
                  else match Put e table key canonical condition with
                  | (e, Fail ErrPrecondition) => (e, WriteProblem 412 "precondition_failed" "The row changed or already exists.")
                  | (e, Fail ErrInvalidJSON) | (e, Fail ErrNonCanonicalJSON) =>
                      (e, WriteProblem 400 "invalid_json" "The request body is not canonical JSON.")
                  | (e, Fail err) => (e, writeStorageProblem err)
                  | (e, Ok result) => (e, row_response (if wr_Created result then 201 else 200) (wr_Row result))
                  end
              end
          end
      | _ => (e, WriteProblem 400 "invalid_content_type" "Content-Type must contain exactly one media type.")
      end
  end.

Definition serveHTTP (store : option Engine) (r : Request) : option Engine * Response :=
  match store with
  | None => (None, WriteProblem 503 "storage_unavailable" "The database is not serving requests.")
  | Some e =>
      if snd (valuesForHeader (rq_Header r) (lit "X-Transaction-Id"))
      then (Some e, WriteProblem 501 "transactions_not_implemented" "Transactions are reserved for a later milestone.")
      else match parsePath (rq_EscapedPath r) with
           | None => (Some e, WriteProblem 400 "invalid_path" "The request path is not a valid table and key.")
           | Some (table, key) =>
               if IsReservedTable table then (Some e, WriteProblem 404 "reserved_table" "This table name is reserved for a later milestone.")
               else if beq (rq_Method r) (lit "GET") then (Some e, handleGet e r table key)
               else if beq (rq_Method r) (lit "PUT") then let '(e, response) := handlePut e r table key in (Some e, response)
               else
                 let problem := WriteProblem 405 "method_not_allowed" "Only GET and PUT are supported." in
                 (Some e, mkResponse (rs_Status problem) (rs_ContentType problem) None (Some (lit "GET, PUT")) (rs_Body problem))
           end
  end.
