(* ===== verification/HttpStore.v ===== *)
(** The HTTP interface over a store of rows: what an accepted write does, what
    a read then returns, and that refused requests change nothing. *)

From Stdlib Require Import ZArith Lia.
From stdpp Require Import base list gmap.
From S2P Require Import Prelude GoStd Uuidv7 Coordinates EngineOps Command State Storage StorageRecords StorageLog StorageReads StorageWrites RowStore Jsondoc JsondocCanon HttpApi.

Local Open Scope Z_scope.
#[local] Existing Instance json_canon.

Lemma parsePath_coords path table key : parsePath path = Some (table, key) -> IsReservedTable table = false -> coords table key.
Proof.
  unfold parsePath. intros H Hr. repeat (case_match; simplify_eq; try done). rewrite Hr in *. cbn [negb] in *. bool_to_prop. unfold coords. repeat match goal with H : _ && _ = false |- _ => apply andb_false_iff in H as [H|H] end; bool_to_prop; done.
Qed.

Lemma Get_log e l table key : represents e l -> coords table key -> Get e table key = match head_of l table key with Some r => Ok r | None => Fail ErrNotFound end.
Proof.
  intros He Hc. unfold Get. rewrite (GetAt_log e l) by (done || (unfold max_uint64; lia)). destruct (head_of l table key) as [r|] eqn:Hh.
  - rewrite (row_at_head l table key max_uint64 r); [done|exact (re_log e l He)|done|]. apply head_of_spec in Hh as [Hr _]. pose proof (log_sequence l r (re_log e l He) Hr). pose proof (re_bounded e l He). lia.
  - apply last_None in Hh. unfold row_at. by rewrite Hh.
Qed.

(** The records of a store are those of a log. *)
Record kept (e : Engine) (l : list Row) : Prop := { kp_log : log_ok l; kp_image : image l (db e); kp_bounded : len l <= max_uint64 }.

Lemma represents_kept e l : represents e l -> kept e l.
Proof. by intros []. Qed.

(** What a write through [handlePut] does. *)
Inductive http_outcome (e : Engine) (l : list Row) (r : Request) (table key : bytes) : Engine -> Response -> Prop :=
| put_refused e' resp : represents e' l -> 400 <= rs_Status resp -> http_outcome e l r table key e' resp
| put_failed e' resp extra : 500 <= rs_Status resp -> terminalErr e' = Some ErrTerminal -> kept e' (l ++ extra) -> (length extra <= 1)%nat -> http_outcome e l r table key e' resp
| put_stored e' row condition : parsePutCondition (rq_Header r) = Some condition -> condition_met condition (head_of l table key) = true ->
    canonicalJSON (rq_Body r) = Ok (row_Value row) -> represents e' (l ++ [row]) -> of_row table key row ->
    http_outcome e l r table key e' (row_response (if bool_decide (head_of l table key = None) then 201 else 200) row).

Lemma storage_problem_status err : 500 <= rs_Status (writeStorageProblem err).
Proof. destruct err; cbn; lia. Qed.

Lemma handlePut_outcome e l r table key e' resp : represents e l -> handlePut e r table key = (e', resp) -> http_outcome e l r table key e' resp.
Proof.
  intros He. unfold handlePut. assert (forall resp', 400 <= rs_Status resp' -> http_outcome e l r table key e resp') as Hsame by (intros; by apply put_refused).
  destruct (parsePutCondition (rq_Header r)) as [condition|] eqn:Hcond; [|intros [= <- <-]; by apply Hsame].
  destruct (valuesForHeader (rq_Header r) (lit "Content-Type")) as [types present]. destruct types as [|ct [|ct' types]]; [intros [= <- <-]; by apply Hsame| |intros [= <- <-]; by apply Hsame].
  case_bool_decide; [intros [= <- <-]; by apply Hsame|]. destruct (ParseMediaType ct) as [mt|]; [|intros [= <- <-]; by apply Hsame].
  destruct (negb (beq mt json_type)); [intros [= <- <-]; by apply Hsame|]. destruct (MaxBodyBytes <? rq_ContentLength r); [intros [= <- <-]; by apply Hsame|].
  destruct (MaxBodyBytes <? len (rq_Body r)); [intros [= <- <-]; by apply Hsame|]. destruct (rq_BodyBroken r); [intros [= <- <-]; by apply Hsame|].
  destruct (canonicalJSON (rq_Body r)) as [canonical|] eqn:Hc; [|intros [= <- <-]; by apply Hsame]. destruct (MaxBodyBytes <? len canonical); [intros [= <- <-]; by apply Hsame|].
  pose proof (Put_log e l table key canonical condition He) as Hp. destruct (log_put l (generated e) table key canonical condition) as [g [row|err]] eqn:Hlp.
  - destruct Hp as (e1 & He1 & Hp). destruct (log_put_ok _ _ _ _ _ _ _ _ (re_log e l He) (re_bounded e l He) Hlp) as (_ & _ & _ & _ & Ho & Hv & Hmet & _). rewrite <- Hv in Hc.
    destruct (db_faults e) as [|[|durable] faults].
    + rewrite Hp. intros [= <- <-]. cbn. by apply (put_stored e l r table key e1 row condition).
    + rewrite Hp. intros [= <- <-]. cbn. by apply (put_stored e l r table key e1 row condition).
    + destruct Hp as (e2 & -> & Ht & Hdb). intros [= <- <-]. assert (kept e2 (l ++ if durable then [row] else [])) as Hk.
      { destruct durable; [|rewrite app_nil_r]; split; rewrite ?Hdb; by (apply He1 || apply He). }
      apply (put_failed e l r table key e2 _ (if durable then [row] else []) (storage_problem_status ErrTerminal) Ht Hk). destruct durable; cbn; lia.
  - rewrite Hp. assert (represents (with_generated e g) l) as Hg by (by apply represents_generated).
    destruct err; intros [= <- <-]; (apply put_refused; [done|]); try (cbn; lia).
Qed.

(** A request without the headers named. *)
Definition without (r : Request) (names : list String.string) : Prop := Forall (fun name => snd (valuesForHeader (rq_Header r) (lit name)) = false) names.

Lemma serve_put e r e' resp : rq_Method r = lit "PUT" -> serveHTTP (Some e) r = (Some e', resp) -> rs_Status resp < 400 ->
  exists table key, parsePath (rq_EscapedPath r) = Some (table, key) /\ IsReservedTable table = false /\ handlePut e r table key = (e', resp).
Proof.
  intros Hm. unfold serveHTTP. destruct (snd _); [by intros [= <- <-]|]. destruct (parsePath (rq_EscapedPath r)) as [[table key]|]; [|by intros [= <- <-]].
  destruct (IsReservedTable table) eqn:Hr; [by intros [= <- <-]|]. rewrite Hm. change (beq (lit "PUT") (lit "GET")) with false. change (beq (lit "PUT") (lit "PUT")) with true. cbv iota.
  destruct (handlePut e r table key) as [e1 resp1] eqn:Hp. intros [= <- <-] _. eauto.
Qed.

Lemma serve_get e r table key row : rq_Method r = lit "GET" -> parsePath (rq_EscapedPath r) = Some (table, key) -> IsReservedTable table = false ->
  without r ["X-Transaction-Id"; "If-None-Match"]%string -> Get e table key = Ok row -> serveHTTP (Some e) r = (Some e, row_response 200 row).
Proof.
  intros Hm Hp Hr Hw Hg. apply Forall_cons in Hw as [H1 Hw]. apply Forall_cons in Hw as [H2 _]. unfold serveHTTP. rewrite H1, Hp, Hr, Hm. change (beq (lit "GET") (lit "GET")) with true. cbv iota.
  unfold handleGet. destruct (valuesForHeader (rq_Header r) (lit "If-None-Match")) as [values present]. cbn in H2. subst present. cbn [andb]. by rewrite Hg.
Qed.

(** C17: A write that is accepted is read back.  When a PUT against a store of rows
    is answered with success, its condition held, the store has one more row,
    whose value is the canonical form of the body, and the answer carries that
    row and its entity tag; a plain GET of the same path is then answered with
    the same row, tag and body. *)
Theorem put_is_read_back e l r e' resp : represents e l -> rq_Method r = lit "PUT" -> serveHTTP (Some e) r = (Some e', resp) -> rs_Status resp < 400 ->
  exists table key condition row, parsePath (rq_EscapedPath r) = Some (table, key) /\ parsePutCondition (rq_Header r) = Some condition
  /\ condition_met condition (head_of l table key) = true /\ canonicalJSON (rq_Body r) = Ok (row_Value row) /\ represents e' (l ++ [row])
  /\ resp = row_response (if bool_decide (head_of l table key = None) then 201 else 200) row
  /\ forall r', rq_Method r' = lit "GET" -> rq_EscapedPath r' = rq_EscapedPath r -> without r' ["X-Transaction-Id"; "If-None-Match"]%string ->
       serveHTTP (Some e') r' = (Some e', row_response 200 row).
Proof.
  intros He Hm Hs Hst. destruct (serve_put e r e' resp Hm Hs Hst) as (table & key & Hp & Hr & Hh). pose proof (parsePath_coords _ _ _ Hp Hr) as Hc.
  destruct (handlePut_outcome e l r table key e' resp He Hh) as [e1 resp1 _ H|e1 resp1 extra H|e1 row condition H1 H2 H3 H4 H5]; [lia|lia|].
  exists table, key, condition, row. split_and!; try done. intros r' Hm' Hp' Hw. apply (serve_get e1 r' table key row); try done; [by rewrite Hp'|].
  rewrite (Get_log e1 _ table key H4 Hc), head_of_snoc. by rewrite decide_True.
Qed.

(** Requests that are not accepted change nothing.  Whatever a request that is
    not a PUT, and whatever a request answered with a redirect or a client
    error: the store holds the same rows as before. *)
Theorem refused_requests_change_nothing e l r e' resp : represents e l -> serveHTTP (Some e) r = (Some e', resp) ->
  rq_Method r <> lit "PUT" \/ 300 <= rs_Status resp < 500 -> represents e' l.
Proof.
  intros He Hs Hwhy. unfold serveHTTP in Hs. destruct (snd _); [by injection Hs as <- <-|]. destruct (parsePath (rq_EscapedPath r)) as [[table key]|]; [|by injection Hs as <- <-].
  destruct (IsReservedTable table); [by injection Hs as <- <-|]. destruct (beq (rq_Method r) (lit "GET")); [by injection Hs as <- <-|].
  destruct (beq (rq_Method r) (lit "PUT")) eqn:Hput; [|by injection Hs as <- <-]. apply beq_true in Hput. destruct Hwhy as [|Hst]; [done|].
  destruct (handlePut e r table key) as [e1 resp1] eqn:Hh. injection Hs as <- <-.
  destruct (handlePut_outcome e l r table key e1 resp1 He Hh) as [e2 resp2 H _|e2 resp2 extra H|e2 row condition H1 H2 H3 H4 H5]; [done|lia|]. cbn in Hst. case_bool_decide; lia.
Qed.

Lemma canonical_accepted body canonical : canonicalJSON body = Ok canonical -> len canonical <= MaxDocumentBytes -> Canonicalize canonical = Some canonical.
Proof.
  unfold canonicalJSON. intros (d & Hp & [= <-])%bind_Ok Hl. destruct (Parse_value body d Hp) as (v & -> & Hw & Hh). cbn [Document_Bytes doc_canonical default from_option id] in *.
  unfold Canonicalize, json_canon, jsondoc_Canonicalize. by rewrite (Parse_marshal v Hw Hh Hl).
Qed.

(** A valid write is accepted.  A PUT of a JSON document to a valid path,
    with the JSON content type, no conditions, and body and canonical form
    within the limit, is answered with success when the store is in order, has
    a sequence number and a fresh version left, and its engine commits: no
    later check refuses what the earlier ones let through. *)
Theorem valid_put_is_accepted e l r v g table key ct canonical :
  represents e l -> len l < max_uint64 -> db_faults e = [] -> generated e = Some v :: g -> is_ok (UUIDFromBytes v) = true -> v ∉ map row_Version l ->
  rq_Method r = lit "PUT" -> parsePath (rq_EscapedPath r) = Some (table, key) -> IsReservedTable table = false ->
  without r ["X-Transaction-Id"; "If-Match"; "If-None-Match"]%string -> valuesForHeader (rq_Header r) (lit "Content-Type") = ([ct], true) ->
  TrimSpace ct <> [] -> ParseMediaType ct = Some json_type -> rq_ContentLength r <= MaxBodyBytes -> len (rq_Body r) <= MaxBodyBytes -> rq_BodyBroken r = false ->
  canonicalJSON (rq_Body r) = Ok canonical -> len canonical <= MaxBodyBytes ->
  exists e', serveHTTP (Some e) r = (Some e', row_response (if bool_decide (head_of l table key = None) then 201 else 200) (mkRow table key v (len l + 1) canonical)).
Proof.
  intros He Hlen Hfaults Hgen Hv Hfresh Hm Hp Hr Hw Hct Htrim Hmt Hcl Hbody Hbroken Hc Hcan. pose proof (parsePath_coords _ _ _ Hp Hr) as Hco.
  apply Forall_cons in Hw as [W1 Hw]. apply Forall_cons in Hw as [W2 Hw]. apply Forall_cons in Hw as [W3 _].
  assert (parsePutCondition (rq_Header r) = Some (mkCondition None false)) as Hcond.
  { unfold parsePutCondition. destruct (valuesForHeader (rq_Header r) (lit "If-Match")) as [v1 p1], (valuesForHeader (rq_Header r) (lit "If-None-Match")) as [v2 p2]. cbn in W2, W3. by subst. }
  assert (log_put l (generated e) table key canonical (mkCondition None false) = (g, Ok (mkRow table key v (len l + 1) canonical))) as Hlog.
  { unfold log_put, check_put. rewrite (proj2 (validateCoordinates_Ok _ _) Hco), (proj2 (Z.ltb_ge _ _)) by done. rewrite (canonical_accepted _ _ Hc Hcan). cbn [mbind result_bind fail_if].
    rewrite (proj2 (Z.ltb_ge _ _)), beq_refl by done. cbn [fail_if negb mbind result_bind validateCondition]. unfold condition_met. cbn [CreateOnly IfMatch andb negb].
    rewrite (proj2 (Z.eqb_neq _ _)) by lia. rewrite Hgen. change maxVersionAttempts with (S (pred maxVersionAttempts)). cbn [pick]. rewrite Hv. cbn [negb]. by rewrite bool_decide_eq_false_2. }
  pose proof (Put_log e l table key canonical (mkCondition None false) He) as HP. rewrite Hlog, Hfaults in HP. destruct HP as (e' & _ & HP). exists e'.
  unfold serveHTTP. rewrite W1, Hp, Hr, Hm. change (beq (lit "PUT") (lit "GET")) with false. change (beq (lit "PUT") (lit "PUT")) with true. cbv iota.
  unfold handlePut. rewrite Hcond, Hct, bool_decide_eq_false_2 by done. rewrite Hmt, beq_refl. cbn [negb]. rewrite !(proj2 (Z.ltb_ge _ _)) by done. rewrite Hbroken, Hc. rewrite (proj2 (Z.ltb_ge _ _)) by done. by rewrite HP.
Qed.

(** ** Instances *)

Definition row_request (method : String.string) (condition : list (bytes * list bytes)) (body : String.string) : Request :=
  mkRequest (lit method) (lit "/t/k") ((lit "Content-Type", [lit "application/json"]) :: condition) (len (lit body)) (lit body) false.
Definition create_only : list (bytes * list bytes) := [(lit "If-None-Match", [lit "*"])].
Definition created_row : Row := mkRow (lit "t") (lit "k") (uuid_of x01) 1 (lit "[1,true]").
Definition created_store : Engine := default empty_store (fst (serveHTTP (Some empty_store) (row_request "PUT" create_only " [ 1 , true ]"))).

Lemma empty_store_holds_none : represents empty_store [].
Proof. split; [apply log_ok_nil|by left|done|done|exact (normalized_bounds _ _ store_options_normalized)|done|done]. Qed.

Lemma created_store_served : serveHTTP (Some empty_store) (row_request "PUT" create_only " [ 1 , true ]") = (Some created_store, row_response 201 created_row).
Proof. vm_compute. reflexivity. Qed.

Lemma created_store_holds : represents created_store [created_row].
Proof.
  pose proof (Put_log empty_store [] (lit "t") (lit "k") (lit "[1,true]") (mkCondition None true) empty_store_holds_none) as H.
  assert (log_put [] (generated empty_store) (lit "t") (lit "k") (lit "[1,true]") (mkCondition None true) = (tl (generated empty_store), Ok created_row)) as L by (vm_compute; reflexivity).
  assert (Put empty_store (lit "t") (lit "k") (lit "[1,true]") (mkCondition None true) = (created_store, Ok (mkWriteResult created_row true))) as E by (vm_compute; reflexivity).
  rewrite L in H. destruct H as (e & He & Hp). change (db_faults empty_store) with (@nil commit) in Hp. cbv iota in Hp. rewrite E in Hp. apply (f_equal fst) in Hp. cbn [fst] in Hp. rewrite Hp. exact He.
Qed.

Lemma put_is_read_back_witness : exists row, canonicalJSON (lit " [ 1 , true ]") = Ok (row_Value row) /\ represents created_store ([] ++ [row])
  /\ serveHTTP (Some created_store) (row_request "GET" [] "") = (Some created_store, row_response 200 row).
Proof.
  destruct (put_is_read_back empty_store [] (row_request "PUT" create_only " [ 1 , true ]") created_store (row_response 201 created_row)
    empty_store_holds_none eq_refl created_store_served eq_refl) as (table & key & condition & row & _ & _ & _ & Hc & Hr & _ & Hget).
  exists row. split; [exact Hc|]. split; [exact Hr|]. apply Hget; [reflexivity|reflexivity|]. repeat constructor.
Defined.

Lemma refused_requests_change_nothing_witness :
  serveHTTP (Some created_store) (row_request "PUT" create_only "2") = (Some created_store, WriteProblem 412 "precondition_failed" "The row changed or already exists.")
  /\ represents created_store [created_row].
Proof.
  assert (serveHTTP (Some created_store) (row_request "PUT" create_only "2") = (Some created_store, WriteProblem 412 "precondition_failed" "The row changed or already exists.")) as E
    by (vm_compute; reflexivity).
  split; [exact E|]. apply (refused_requests_change_nothing created_store [created_row] (row_request "PUT" create_only "2") created_store _ created_store_holds E). right. cbn [rs_Status WriteProblem]. lia.
Defined.

Lemma valid_put_is_accepted_witness : exists e', serveHTTP (Some empty_store) (row_request "PUT" [] " [ 1 , true ]") = (Some e', row_response 201 created_row).
Proof.
  apply (valid_put_is_accepted empty_store [] (row_request "PUT" [] " [ 1 , true ]") (uuid_of x01) [Some (uuid_of x01); Some (uuid_of x02)] (lit "t") (lit "k")
    (lit "application/json") (lit "[1,true]") empty_store_holds_none); try reflexivity; first [solve [repeat constructor]|solve [vm_compute; discriminate]|solve [vm_compute; inversion 1]].
Defined.
