(* ===== verification/HttpTags.v ===== *)
(** Entity tags of the HTTP interface: a tag names one version of a row, a
    write conditioned on a tag succeeds at most once, and rows are answered as
    JSON documents. *)

From Stdlib Require Import ZArith Lia Sorting.Sorted.
From stdpp Require Import base list gmap.
From S2P Require Import Prelude GoStd Uuidv7 Coordinates EngineOps Command State Storage StorageRecords StorageLog StorageReads StorageWrites RowStore Jsondoc JsondocCanon HttpApi HttpStore.

Local Open Scope Z_scope.
#[local] Existing Instance json_canon.

(** ** The text of tags *)

Definition tag_char (b : byte) : Prop := hex.lower b = true \/ b = dash.

Lemma UUID_String_chars u : Forall tag_char (UUID_String u).
Proof.
  assert (forall l, Forall tag_char (hex.Encode l)) as H.
  { intros l. apply Forall_forall. intros b Hb. left. pose proof (hex.Encode_lower l) as Hl. rewrite forallb_forall in Hl. apply Hl. by apply list_elem_of_In. }
  unfold UUID_String. rewrite !Forall_app, !Forall_singleton. split_and!; try apply H; by right.
Qed.

Lemma tag_char_plain b : tag_char b -> b <> x22 /\ b <> x2a.
Proof. intros [H | ->]; [|done]. split; intros ->; done. Qed.

Lemma strip_quote fuel runes s : Forall (fun r => exists b t, r = b :: t /\ b <> x22) runes -> strip fuel runes (x22 :: s) = x22 :: s.
Proof.
  intros Hr. destruct fuel; [done|]. cbn [strip]. enough (strip_one runes (x22 :: s) = None) as -> by done. unfold strip_one.
  induction Hr as [|r runes (b & t & -> & Hb) _ IH]; [done|]. cbn [List.find length take]. rewrite (proj2 (beq_false _ _)) by (intros E; injection E; congruence). exact IH.
Qed.

Lemma TrimSpace_quoted s : TrimSpace ([x22] ++ s ++ [x22]) = [x22] ++ s ++ [x22].
Proof.
  unfold TrimSpace, TrimLeft. cbn [app]. rewrite strip_quote by (repeat constructor; eexists _, _; by split). cbn [rev]. rewrite rev_app_distr. cbn [rev app].
  rewrite strip_quote by (repeat constructor; eexists _, _; by split). cbn [rev]. rewrite rev_app_distr, rev_involutive. done.
Qed.

Lemma strong_tag_quoted s : x22 ∉ s -> strong_tag ([x22] ++ s ++ [x22]) = Some s.
Proof.
  intros Hs. unfold strong_tag. cbv zeta. rewrite (sub_app_mid [x22] s [x22]) by (autorewrite with len; cbn; lia). rewrite app_assoc, last_snoc.
  rewrite (proj2 (Z.ltb_ge _ _)) by (autorewrite with len; cbn; pose proof (len_nonneg s); lia). cbn [orb app head]. rewrite !bool_decide_eq_true_2 by done. by rewrite bool_decide_eq_false_2.
Qed.

Section tags.
Context (v : UUID) (Hv : uuid v).

Lemma tag_trimmed : TrimSpace (quoteETag v) = quoteETag v.
Proof. apply TrimSpace_quoted. Qed.

Lemma tag_text : strong_tag (quoteETag v) = Some (UUID_String v).
Proof. apply strong_tag_quoted. intros H. pose proof (proj1 (Forall_forall _ _) (UUID_String_chars v) _ H) as Hc. by apply tag_char_plain in Hc as [? _]. Qed.

Lemma tag_parsed : Uuidv7.Parse (UUID_String v) = Ok v.
Proof. apply Parse_String. destruct Hv. by apply UUIDFromBytes_Ok. Qed.

Lemma tag_not_star : beq (quoteETag v) [x2a] = false.
Proof. by apply beq_false. Qed.

Lemma tag_valid : validNone (quoteETag v) = true.
Proof. unfold validNone. cbv zeta. rewrite tag_trimmed, tag_not_star, tag_text, tag_parsed. apply beq_refl. Qed.

(** A request whose condition is the tag of [v]. *)
Definition tagged (header : list (bytes * list bytes)) : Prop :=
  valuesForHeader header (lit "If-Match") = ([quoteETag v], true) /\ snd (valuesForHeader header (lit "If-None-Match")) = false.

Lemma tagged_condition header : tagged header -> parsePutCondition header = Some (mkCondition (Some v) false).
Proof.
  intros [Hm Hn]. unfold parsePutCondition. rewrite Hm. destruct (valuesForHeader header (lit "If-None-Match")) as [values present]. cbn in Hn. subst present. cbv zeta beta iota. cbn [andb negb default head from_option id].
  rewrite tag_trimmed, bool_decide_eq_false_2 by done. cbn [negb]. by rewrite tag_text, tag_parsed.
Qed.
End tags.

Lemma quoteETag_inj u v : uuid u -> uuid v -> quoteETag u = quoteETag v -> u = v.
Proof.
  intros Hu Hv H. pose proof (tag_text u) as Tu. rewrite H, tag_text in Tu. injection Tu as Tu. pose proof (tag_parsed u Hu) as P. rewrite <- Tu, (tag_parsed v Hv) in P. by injection P.
Qed.

(** ** Writes on a tag *)

Lemma head_of_later l row later table key h : of_row table key row -> head_of (l ++ row :: later) table key = Some h -> h ∈ row :: later.
Proof.
  intros Hr. unfold head_of, versions_of. rewrite filter_app, filter_cons_True by done. rewrite last_app_cons. intros Hh%last_Some_elem_of.
  apply elem_of_cons in Hh as [-> | [_ Hh]%list_elem_of_filter]; [constructor|by constructor].
Qed.

Lemma later_version l k old h : log_ok (l ++ k) -> old ∈ l -> h ∈ k -> row_Version h <> row_Version old.
Proof.
  intros Hl Ho Hh E. pose proof (lo_versions _ Hl) as Hn. rewrite map_app in Hn. apply NoDup_app in Hn as (_ & Hn & _).
  apply (Hn (row_Version old)); [by apply list_elem_of_fmap_2|]. rewrite <- E. by apply list_elem_of_fmap_2.
Qed.

(** C18: A write on a tag succeeds at most once.  When a PUT whose If-Match is the
    tag of a version is answered with success, that version was the current one
    of the row; from then on, whatever else is written, every PUT to the same
    path with the same tag is refused: two clients that read the same version
    cannot both replace it. *)
Theorem tagged_write_succeeds_once e l r e' resp v : represents e l -> uuid v -> tagged v (rq_Header r) -> rq_Method r = lit "PUT" ->
  serveHTTP (Some e) r = (Some e', resp) -> rs_Status resp < 400 ->
  exists table key old row, parsePath (rq_EscapedPath r) = Some (table, key) /\ head_of l table key = Some old /\ row_Version old = v /\ represents e' (l ++ [row])
  /\ forall later e2 r2 e3 resp2, represents e2 ((l ++ [row]) ++ later) -> tagged v (rq_Header r2) -> rq_Method r2 = lit "PUT" -> rq_EscapedPath r2 = rq_EscapedPath r ->
       serveHTTP (Some e2) r2 = (Some e3, resp2) -> 400 <= rs_Status resp2.
Proof.
  intros He Hv Ht Hm Hs Hst. destruct (serve_put e r e' resp Hm Hs Hst) as (table & key & Hp & _ & Hh).
  destruct (handlePut_outcome e l r table key e' resp He Hh) as [? ? _ H|? ? ? H|e1 row condition Hc Hmet _ Hr Ho]; [lia|lia|].
  rewrite (tagged_condition v Hv _ Ht) in Hc. injection Hc as <-. unfold condition_met in Hmet. cbn [CreateOnly IfMatch andb negb] in Hmet. apply bool_decide_eq_true in Hmet.
  destruct (head_of l table key) as [old|] eqn:Hhead; [|done]. injection Hmet as Hold. exists table, key, old, row. split_and!; try done.
  intros later e2 r2 e3 resp2 He2 Ht2 Hm2 Hp2 Hs2. destruct (Z_lt_le_dec (rs_Status resp2) 400) as [Hlt|]; [exfalso|done].
  destruct (serve_put e2 r2 e3 resp2 Hm2 Hs2 Hlt) as (table2 & key2 & Hq & _ & Hh2). rewrite Hp2, Hp in Hq. injection Hq as <- <-.
  destruct (handlePut_outcome e2 _ r2 table key e3 resp2 He2 Hh2) as [? ? _ H|? ? ? H|e4 row2 condition Hc Hmet2 _ _ _]; [lia|lia|].
  rewrite (tagged_condition v Hv _ Ht2) in Hc. injection Hc as <-. unfold condition_met in Hmet2. cbn [CreateOnly IfMatch andb negb] in Hmet2. apply bool_decide_eq_true in Hmet2.
  rewrite <- app_assoc in He2, Hmet2. destruct (head_of (l ++ [row] ++ later) table key) as [h|] eqn:Hhead2; [|done]. injection Hmet2 as Hh3.
  apply (later_version l ([row] ++ later) old h); [exact (re_log _ _ He2)|by apply head_of_spec in Hhead as [? _]|by apply (head_of_later l row later table key)|congruence].
Qed.

(** Tags name versions.  A GET of a row whose If-None-Match is the tag of a
    version is answered with not modified exactly when that version is the
    current one, and otherwise with the current row. *)
Theorem tags_name_versions e l r v table key row : represents e l -> uuid v -> rq_Method r = lit "GET" -> parsePath (rq_EscapedPath r) = Some (table, key) ->
  IsReservedTable table = false -> snd (valuesForHeader (rq_Header r) (lit "X-Transaction-Id")) = false ->
  valuesForHeader (rq_Header r) (lit "If-None-Match") = ([quoteETag v], true) -> head_of l table key = Some row ->
  serveHTTP (Some e) r = (Some e, if bool_decide (v = row_Version row) then mkResponse 304 None (Some (quoteETag v)) None [] else row_response 200 row).
Proof.
  intros He Hv Hm Hp Hr Hx Hn Hh. pose proof (parsePath_coords _ _ _ Hp Hr) as Hc. assert (uuid (row_Version row)) as Hrow.
  { apply head_of_spec in Hh as [Hin _]. apply (log_row l row (re_log e l He)) in Hin as [_ [] _]. done. }
  unfold serveHTTP. rewrite Hx, Hp, Hr, Hm. change (beq (lit "GET") (lit "GET")) with true. cbv iota.
  unfold handleGet. rewrite Hn, (tag_valid v Hv), (Get_log e l table key He Hc), Hh. cbn [negb andb default head from_option id]. unfold matchNone. cbv zeta.
  rewrite (tag_trimmed v), (tag_valid v Hv), (tag_not_star v). cbn [negb fst orb]. case_bool_decide as E; [subst v; by rewrite beq_refl|].
  rewrite (proj2 (beq_false _ _)); [done|]. intros Eq. apply E. by apply quoteETag_inj.
Qed.

(** ** Bodies *)

(** The document that a row is answered with. *)
Definition row_document (row : Row) (value : json) : json :=
  JObject [(lit "_key", JString (row_Key row)); (lit "_version", JString (UUID_String (row_Version row))); (lit "value", value)].

Lemma writeEnvelope_marshal row value : row_Value row = marshal value -> writeEnvelope row = marshal (row_document row value).
Proof.
  intros H. unfold writeEnvelope. rewrite H. change (lit "{") with [x7b]. change (lit ":") with [x3a]. change (lit ",") with [x2c]. change (lit "}") with [x7d].
  cbn [marshal row_document map join fst snd app]. by repeat (rewrite <- app_assoc; cbn [app]).
Qed.

Lemma tag_char_ascii b : tag_char b -> u8 b < 0x80.
Proof. intros [H | ->]; [|done]. destruct b; done. Qed.

Lemma row_document_well_formed row value : utf8.Valid (row_Key row) = true -> well_formed value -> well_formed (row_document row value).
Proof.
  intros Hk Hv. cbn [well_formed row_document map fst snd fold_right]. split.
  - unfold sorted_keys. cbn [map fst]. repeat constructor; by vm_compute.
  - split_and!; try done. apply ascii_utf8. eapply Forall_impl; [apply UUID_String_chars|]. exact tag_char_ascii.
Qed.

Lemma row_value_parsed row : bare_ok row -> exists document, Parse (row_Value row) = Ok document /\ row_Value row = marshal (Document_Value document)
  /\ well_formed (Document_Value document).
Proof.
  intros [Hc _ _ _]. unfold Canonicalize, json_canon, jsondoc_Canonicalize in Hc. destruct (Parse (row_Value row)) as [document|] eqn:Hp; [|done]. exists document.
  destruct (Parse_value _ _ Hp) as (v & -> & Hw & _). unfold Document_Value. rewrite cloneValue_same. cbn [doc_value]. split_and!; try done. cbn in Hc. congruence.
Qed.

(** The current row of a path is what a successful request answers with. *)
Lemma served_row e l r e' resp : represents e l -> serveHTTP (Some e) r = (Some e', resp) -> rs_Status resp < 300 ->
  exists l' table key row, represents e' l' /\ parsePath (rq_EscapedPath r) = Some (table, key) /\ head_of l' table key = Some row /\ resp = row_response (rs_Status resp) row.
Proof.
  intros He Hs Hst. unfold serveHTTP in Hs. destruct (snd _); [by injection Hs as <- <-|]. destruct (parsePath (rq_EscapedPath r)) as [[table key]|] eqn:Hp; [|by injection Hs as <- <-].
  destruct (IsReservedTable table) eqn:Hr; [by injection Hs as <- <-|]. pose proof (parsePath_coords _ _ _ Hp Hr) as Hc. destruct (beq (rq_Method r) (lit "GET")).
  - injection Hs as <- <-. unfold handleGet in *. destruct (valuesForHeader (rq_Header r) (lit "If-None-Match")) as [values present]. destruct (present && negb _); [done|].
    rewrite (Get_log e l table key He Hc) in *. destruct (head_of l table key) as [row|] eqn:Hh; [|done]. destruct (present && fst _); [done|]. by exists l, table, key, row.
  - destruct (beq (rq_Method r) (lit "PUT")); [|by injection Hs as <- <-]. destruct (handlePut e r table key) as [e1 resp1] eqn:Hh. injection Hs as <- <-.
    destruct (handlePut_outcome e l r table key e1 resp1 He Hh) as [? ? _ H|? ? ? H|e2 row condition _ _ _ Hrep Ho]; [lia|lia|].
    exists (l ++ [row]), table, key, row. split_and!; try done. rewrite head_of_snoc. by rewrite decide_True.
Qed.

(** C19: Rows are answered as JSON documents.  Every answer of success to a GET or
    a PUT carries the current row of the path as a well-formed object in
    canonical form, with exactly the members for its key, its version and its
    value, which is the value of the stored document; a client that parses the
    body gets this object back, unless it is nested or long beyond the limits of
    a document. *)
Theorem rows_are_answered_as_documents e l r e' resp : represents e l -> serveHTTP (Some e) r = (Some e', resp) -> rs_Status resp < 300 ->
  exists l' table key row document, represents e' l' /\ parsePath (rq_EscapedPath r) = Some (table, key) /\ head_of l' table key = Some row
  /\ Parse (row_Value row) = Ok document /\ rs_ETag resp = Some (quoteETag (row_Version row))
  /\ let answer := row_document row (Document_Value document) in
     rs_Body resp = marshal answer /\ well_formed answer
     /\ (height answer <= MaxDepth -> len (rs_Body resp) <= MaxDocumentBytes -> Parse (rs_Body resp) = Ok (mkDocument answer (Some (rs_Body resp)))).
Proof.
  intros He Hs Hst. destruct (served_row e l r e' resp He Hs Hst) as (l' & table & key & row & He' & Hp & Hh & Hresp).
  pose proof Hh as Hrow. apply head_of_spec in Hrow as [Hin _]. apply (log_row l' row (re_log e' l' He')) in Hin as [Hco Hb _].
  destruct (row_value_parsed row Hb) as (document & Hd & Hv & Hw). exists l', table, key, row, document. rewrite Hresp. cbn [row_response rs_ETag rs_Body].
  pose proof (row_document_well_formed row _ (proj2 (coords_utf8 _ _ Hco)) Hw) as Hwf. rewrite (writeEnvelope_marshal row _ Hv). split_and!; try done. intros Hd1 Hl. by apply Parse_marshal.
Qed.

(** ** Instances *)

Definition on_tag (name : String.string) (v : UUID) : list (bytes * list bytes) := [(lit name, [quoteETag v])].
Definition replace_request : Request := row_request "PUT" (on_tag "If-Match" (uuid_of x01)) "2".
Definition replaced_store : Engine := default empty_store (fst (serveHTTP (Some created_store) replace_request)).
Definition replaced_row : Row := mkRow (lit "t") (lit "k") (uuid_of x02) 2 (lit "2").

Lemma replaced_store_served : serveHTTP (Some created_store) replace_request = (Some replaced_store, row_response 200 replaced_row).
Proof. vm_compute. reflexivity. Qed.

Lemma sample_tag : uuid (uuid_of x01).
Proof. vm_compute. done. Qed.

Lemma replace_tagged : tagged (uuid_of x01) (rq_Header replace_request).
Proof. vm_compute. done. Qed.

Lemma tagged_write_succeeds_once_witness : exists row, represents replaced_store ([created_row] ++ [row])
  /\ forall e3 resp2, serveHTTP (Some replaced_store) replace_request = (Some e3, resp2) -> 400 <= rs_Status resp2.
Proof.
  destruct (tagged_write_succeeds_once created_store [created_row] replace_request replaced_store (row_response 200 replaced_row) (uuid_of x01)
    created_store_holds sample_tag replace_tagged eq_refl replaced_store_served eq_refl) as (table & key & old & row & _ & _ & _ & Hr & Hl).
  exists row. split; [exact Hr|]. intros e3 resp2. apply (Hl [] replaced_store replace_request); [rewrite app_nil_r; exact Hr|exact replace_tagged|reflexivity|reflexivity].
Defined.

Lemma tags_name_versions_witness :
  serveHTTP (Some created_store) (row_request "GET" (on_tag "If-None-Match" (uuid_of x01)) "") = (Some created_store, mkResponse 304 None (Some (quoteETag (uuid_of x01))) None []).
Proof.
  apply (tags_name_versions created_store [created_row] (row_request "GET" (on_tag "If-None-Match" (uuid_of x01)) "") (uuid_of x01) (lit "t") (lit "k") created_row
    created_store_holds sample_tag); vm_compute; reflexivity.
Defined.

Lemma rows_are_answered_as_documents_witness : exists row document, Parse (row_Value row) = Ok document
  /\ rs_Body (row_response 201 created_row) = marshal (row_document row (Document_Value document)) /\ well_formed (row_document row (Document_Value document)).
Proof.
  destruct (rows_are_answered_as_documents empty_store [] (row_request "PUT" create_only " [ 1 , true ]") created_store (row_response 201 created_row)
    empty_store_holds_none created_store_served eq_refl) as (l' & table & key & row & document & _ & _ & _ & Hd & _ & Hbody & Hw & _).
  exists row, document. split; [exact Hd|]. split; [exact Hbody|exact Hw].
Defined.
