(* ===== verification/Gateway.v ===== *)
(** The gateway process (src/cmd/vbdbd/main.go): the bounded listener, the
    tracked request handler, the shutdown lifecycle, and the run of the process
    from opening the store to closing it.

    What the operating system and net/http decide (connections, requests,
    errors, signals and timers) are the events of a run.  A stretch of code that
    runs under one lock, or between two points where another goroutine can be
    seen, is one event; the requests of any number of connections interleave
    with the main goroutine and with the timer of the hard exit. *)

From Stdlib Require Import ZArith Lia.
From stdpp Require Import base list gmap.
From S2P Require Import Prelude GoStd Uuidv7 EngineOps Command State Storage JsondocCanon HttpApi.

Local Open Scope Z_scope.
#[local] Existing Instance json_canon.

Definition maxGatewayConnections : Z := 256.
Definition maxGatewayActiveRequests : Z := 128.

(** ** The tracked handler *)

Record trackedHandler : Type := mkHandler { th_slots : Z; th_limit : Z; th_open : Z; th_stopping : bool }.

(** [None] is the panic of a limit that is not positive. *)
Definition newTrackedHandlerWithLimit (limit : Z) : option trackedHandler := if limit <? 1 then None else Some (mkHandler 0 limit 0 false).

(** [ServeHTTP] up to the call of the next handler: the answer of a request that
    is not admitted. *)
Definition handler_enter (h : trackedHandler) : trackedHandler * option Response :=
  if th_stopping h then (h, Some (WriteProblem 503 "server_shutting_down" "The server is shutting down."))
  else if th_limit h <=? th_slots h then (h, Some (WriteProblem 503 "server_busy" "The server is at its active request limit."))
  else (mkHandler (th_slots h + 1) (th_limit h) (th_open h + 1) false, None).

(** The deferred part; [None] when no slot can be taken back and it blocks. *)
Definition handler_leave (h : trackedHandler) : option trackedHandler :=
  if th_slots h =? 0 then None else Some (mkHandler (th_slots h - 1) (th_limit h) (th_open h - 1) (th_stopping h)).

Definition handler_stop (h : trackedHandler) : trackedHandler := mkHandler (th_slots h) (th_limit h) (th_open h) true.

(** What [wait] waits for. *)
Definition handler_drained (h : trackedHandler) : bool := th_open h =? 0.

(** ** The bounded listener *)

Inductive net_error : Type := ErrServerClosed | NetFailure.

(** The listener, the calls of [Accept] that hold a slot and wait for a
    connection, and for each connection whether it has released its slot. *)
Record boundedListener : Type := mkListener {
  bl_slots : Z;
  bl_limit : Z;
  bl_closed : bool;
  bl_closeErr : option net_error;
  bl_accepting : nat;
  bl_conns : list bool
}.

Definition newBoundedListener (limit : Z) : option boundedListener := if limit <? 1 then None else Some (mkListener 0 limit false None 0 []).

Definition set_slots (l : boundedListener) (slots : Z) (accepting : nat) (conns : list bool) : boundedListener :=
  mkListener slots (bl_limit l) (bl_closed l) (bl_closeErr l) accepting conns.

(** [Accept] up to the inner listener: a slot is taken when one is free. *)
Definition accept_slot (l : boundedListener) : option boundedListener :=
  if bl_slots l <? bl_limit l then Some (set_slots l (bl_slots l + 1) (S (bl_accepting l)) (bl_conns l)) else None.

(** The other branch, [net.ErrClosed]. *)
Definition accept_closed (l : boundedListener) : option boundedListener := if bl_closed l then Some l else None.

Definition release (l : boundedListener) : boundedListener :=
  if 0 <? bl_slots l then set_slots l (bl_slots l - 1) (bl_accepting l) (bl_conns l) else l.

(** The rest of [Accept], given whether the inner listener has a connection. *)
Definition accept_done (l : boundedListener) (accepted : bool) : option boundedListener :=
  match bl_accepting l with
  | O => None
  | S n => Some (if accepted then set_slots l (bl_slots l) n (bl_conns l ++ [false]) else release (set_slots l (bl_slots l) n (bl_conns l)))
  end.

(** [boundedConn.Close] of a connection. *)
Definition conn_close (l : boundedListener) (i : nat) : option boundedListener :=
  match bl_conns l !! i with
  | None => None
  | Some true => Some l
  | Some false => Some (release (set_slots l (bl_slots l) (bl_accepting l) (<[i := true]> (bl_conns l))))
  end.

(** [boundedListener.Close], given the answer of the inner listener. *)
Definition listener_close (l : boundedListener) (err : option net_error) : boundedListener :=
  if bl_closed l then l else mkListener (bl_slots l) (bl_limit l) true err (bl_accepting l) (bl_conns l).

(** ** The shutdown lifecycle *)

Record shutdownLifecycle : Type := mkShutdown { hardExitStarted : bool; hardExitOnce : bool; armed : bool; exits : list Z }.

Definition newShutdownLifecycle : shutdownLifecycle := mkShutdown false false false [].
Definition shutdown_begin (s : shutdownLifecycle) : shutdownLifecycle := mkShutdown (hardExitStarted s) (hardExitOnce s) true (exits s).
Definition triggerHardExit (s : shutdownLifecycle) : shutdownLifecycle :=
  if hardExitOnce s then s else mkShutdown true true (armed s) (exits s ++ [1]).
Definition shutdown_stop (s : shutdownLifecycle) : shutdownLifecycle := mkShutdown (hardExitStarted s) (hardExitOnce s) false (exits s).

(** [closeStore] *)
Definition closeStore (s : shutdownLifecycle) (e : Engine) (closeErr : option engine_error) : Engine * result storage_error unit :=
  if hardExitStarted s then (e, Ok tt) else Close e closeErr.

(** ** The process *)

(** The errors [serveGatewayWithReady] joins; no error is the empty list. *)
Inductive gateway_error : Type :=
| StorageOpen (e : storage_error)
| GatewayListen
| GatewayShutdown
| ServerError (prefix : String.string) (e : net_error)
| HardDeadline
| StorageClose (e : storage_error).

Definition serverError (prefix : String.string) (err : option net_error) : list gateway_error :=
  match err with None | Some ErrServerClosed => [] | Some e => [ServerError prefix e] end.

(** Why the select of the main goroutine ended. *)
Inductive stop_cause : Type := BySignal | ByServe (err : option net_error).

(** Where the main goroutine stands. *)
Inductive phase : Type :=
| AtOpen | AtListen | AtSelect
| AtStop (c : stop_cause)
| AtServer (c : stop_cause)
| AtWait (err : list gateway_error)
| AtCheck (err : list gateway_error)
| AtDefer (err : list gateway_error)
| AtClose (err : list gateway_error)
| AtTimer (err : list gateway_error)
| Returned (err : list gateway_error).

(** A request that was admitted, before and after the next handler has run. *)
Inductive call : Type := Entered (r : Request) | Answered (r : Request).

Record gateway : Type := mkGateway {
  gw_main : phase;
  gw_store : option Engine;
  gw_serving : bool;
  gw_handler : trackedHandler;
  gw_listener : boundedListener;
  gw_shutdown : shutdownLifecycle;
  gw_calls : gmap nat call;
  gw_next : nat;
  gw_answers : list (Request * Response)
}.

Definition set_main (g : gateway) (p : phase) : gateway :=
  mkGateway p (gw_store g) (gw_serving g) (gw_handler g) (gw_listener g) (gw_shutdown g) (gw_calls g) (gw_next g) (gw_answers g).
Definition set_store (g : gateway) (e : option Engine) : gateway :=
  mkGateway (gw_main g) e (gw_serving g) (gw_handler g) (gw_listener g) (gw_shutdown g) (gw_calls g) (gw_next g) (gw_answers g).
Definition set_serving (g : gateway) : gateway :=
  mkGateway (gw_main g) (gw_store g) true (gw_handler g) (gw_listener g) (gw_shutdown g) (gw_calls g) (gw_next g) (gw_answers g).
Definition set_handler (g : gateway) (h : trackedHandler) : gateway :=
  mkGateway (gw_main g) (gw_store g) (gw_serving g) h (gw_listener g) (gw_shutdown g) (gw_calls g) (gw_next g) (gw_answers g).
Definition set_listener (g : gateway) (l : boundedListener) : gateway :=
  mkGateway (gw_main g) (gw_store g) (gw_serving g) (gw_handler g) l (gw_shutdown g) (gw_calls g) (gw_next g) (gw_answers g).
Definition set_shutdown (g : gateway) (s : shutdownLifecycle) : gateway :=
  mkGateway (gw_main g) (gw_store g) (gw_serving g) (gw_handler g) (gw_listener g) s (gw_calls g) (gw_next g) (gw_answers g).
Definition set_calls (g : gateway) (calls : gmap nat call) (next : nat) : gateway :=
  mkGateway (gw_main g) (gw_store g) (gw_serving g) (gw_handler g) (gw_listener g) (gw_shutdown g) calls next (gw_answers g).
Definition answer_request (g : gateway) (r : Request) (resp : Response) : gateway :=
  mkGateway (gw_main g) (gw_store g) (gw_serving g) (gw_handler g) (gw_listener g) (gw_shutdown g) (gw_calls g) (gw_next g) (gw_answers g ++ [(r, resp)]).

(** *** Events *)

Inductive event : Type :=
| EvOpen (faults : list commit) (ids : list (option UUID))
| EvListen (ok : bool)
| EvSelect (c : stop_cause)
| EvStop
| EvServer (shutdownErr : bool) (closeErr listenErr : option net_error)
| EvWait (expired : bool)
| EvCheck
| EvDefer
| EvClose (closeErr : option engine_error)
| EvTimer
| EvFire
| EvArrive (r : Request)
| EvServe (i : nat)
| EvLeave (i : nat)
| EvAcceptSlot
| EvAcceptClosed
| EvAcceptDone (accepted : bool)
| EvConnClose (i : nat)
| EvListenerClose (err : option net_error).

Section process.
Context (dir : bytes) (records : gmap bytes bytes) (exit_returns : bool).

(** [storage.Options{}] *)
Definition zero_options : Options := mkOptions 0 0 0 0 0 0 0 0 0 0 0.

(** The main goroutine. *)
Definition main_open (g : gateway) (faults : list commit) (ids : list (option UUID)) : gateway :=
  match Open dir zero_options records faults ids with
  | Fail e => set_main g (AtTimer [StorageOpen e])
  | Ok e => set_main (set_store g (Some e)) AtListen
  end.
Definition main_listen (g : gateway) (ok : bool) : gateway :=
  if ok then set_main (set_serving g) AtSelect else set_main g (AtDefer [GatewayListen]).
Definition main_select (g : gateway) (c : stop_cause) : gateway := set_main (set_shutdown g (shutdown_begin (gw_shutdown g))) (AtStop c).
Definition main_stop (g : gateway) (c : stop_cause) : gateway := set_main (set_handler g (handler_stop (gw_handler g))) (AtServer c).

(** [server.Shutdown], [server.Close] and the answer of [server.Serve]. *)
Definition main_server (g : gateway) (c : stop_cause) (shutdownErr : bool) (closeErr listenErr : option net_error) : gateway :=
  set_main g (AtWait
    match c with
    | BySignal =>
        if shutdownErr then GatewayShutdown :: serverError "gateway listen" listenErr ++ serverError "gateway close" closeErr
        else serverError "gateway listen" listenErr
    | ByServe err => serverError "gateway listen" err ++ serverError "gateway close" closeErr
    end).

(** [waitForTracked]: the handlers are drained, or the time is over. *)
Definition main_wait (g : gateway) (err : list gateway_error) (expired : bool) : option gateway :=
  if expired then Some (set_main (set_shutdown g (triggerHardExit (gw_shutdown g))) (AtDefer [HardDeadline]))
  else if handler_drained (gw_handler g) then Some (set_main g (AtCheck err)) else None.
Definition main_check (g : gateway) (err : list gateway_error) : gateway :=
  set_main g (AtDefer (if hardExitStarted (gw_shutdown g) then [HardDeadline] else err)).

(** The deferred calls. *)
Definition main_defer (g : gateway) (err : list gateway_error) : gateway :=
  set_main g (if hardExitStarted (gw_shutdown g) then AtTimer err else AtClose err).
Definition main_close (g : gateway) (err : list gateway_error) (closeErr : option engine_error) : gateway :=
  match gw_store g with
  | None => set_main g (AtTimer err)
  | Some e =>
      let '(e, r) := closeStore (gw_shutdown g) e closeErr in
      set_main (set_store g (Some e)) (AtTimer (err ++ match r with Ok _ => [] | Fail closed => [StorageClose closed] end))
  end.
Definition main_timer (g : gateway) (err : list gateway_error) : gateway :=
  set_main (set_shutdown g (shutdown_stop (gw_shutdown g))) (Returned err).

(** A request reaches [trackedHandler.ServeHTTP], runs, and leaves it. *)
Definition request_arrive (g : gateway) (r : Request) : gateway :=
  match handler_enter (gw_handler g) with
  | (h, Some refused) => answer_request (set_handler g h) r refused
  | (h, None) => set_calls (set_handler g h) (<[gw_next g := Entered r]> (gw_calls g)) (S (gw_next g))
  end.
Definition request_serve (g : gateway) (i : nat) : option gateway :=
  match gw_calls g !! i with
  | Some (Entered r) =>
      let '(store, resp) := serveHTTP (gw_store g) r in
      Some (set_calls (answer_request (set_store g store) r resp) (<[i := Answered r]> (gw_calls g)) (gw_next g))
  | _ => None
  end.
Definition request_leave (g : gateway) (i : nat) : option gateway :=
  match gw_calls g !! i, handler_leave (gw_handler g) with
  | Some (Answered _), Some h => Some (set_calls (set_handler g h) (delete i (gw_calls g)) (gw_next g))
  | _, _ => None
  end.

Definition listener_step (g : gateway) (l : option boundedListener) : option gateway :=
  match l with Some l => if gw_serving g then Some (set_listener g l) else None | None => None end.

(** One event; [None] when it cannot happen.  A hard exit ends the process
    unless the callback is one that returns. *)
Definition gateway_step (g : gateway) (ev : event) : option gateway :=
  if negb exit_returns && bool_decide (exits (gw_shutdown g) <> []) then None
  else match ev with
  | EvOpen faults ids => match gw_main g with AtOpen => Some (main_open g faults ids) | _ => None end
  | EvListen ok => match gw_main g with AtListen => Some (main_listen g ok) | _ => None end
  | EvSelect c => match gw_main g with AtSelect => Some (main_select g c) | _ => None end
  | EvStop => match gw_main g with AtStop c => Some (main_stop g c) | _ => None end
  | EvServer shutdownErr closeErr listenErr =>
      match gw_main g with AtServer c => Some (main_server g c shutdownErr closeErr listenErr) | _ => None end
  | EvWait expired => match gw_main g with AtWait err => main_wait g err expired | _ => None end
  | EvCheck => match gw_main g with AtCheck err => Some (main_check g err) | _ => None end
  | EvDefer => match gw_main g with AtDefer err => Some (main_defer g err) | _ => None end
  | EvClose closeErr => match gw_main g with AtClose err => Some (main_close g err closeErr) | _ => None end
  | EvTimer => match gw_main g with AtTimer err => Some (main_timer g err) | _ => None end
  | EvFire =>
      if armed (gw_shutdown g) then Some (set_shutdown g (triggerHardExit (shutdown_stop (gw_shutdown g)))) else None
  | EvArrive r => if gw_serving g then Some (request_arrive g r) else None
  | EvServe i => request_serve g i
  | EvLeave i => request_leave g i
  | EvAcceptSlot => listener_step g (accept_slot (gw_listener g))
  | EvAcceptClosed => listener_step g (accept_closed (gw_listener g))
  | EvAcceptDone accepted => listener_step g (accept_done (gw_listener g) accepted)
  | EvConnClose i => listener_step g (conn_close (gw_listener g) i)
  | EvListenerClose err => listener_step g (Some (listener_close (gw_listener g) err))
  end.

Fixpoint gateway_run (g : gateway) (evs : list event) : option gateway :=
  match evs with
  | [] => Some g
  | ev :: evs => match gateway_step g ev with Some g' => gateway_run g' evs | None => None end
  end.
End process.

(** The process as it starts. *)
Definition gateway_start : gateway :=
  mkGateway AtOpen None false (mkHandler 0 maxGatewayActiveRequests 0 false) (mkListener 0 maxGatewayConnections false None 0 [])
    newShutdownLifecycle ∅ 0 [].

(** ** The command line *)

(** [flag.FlagSet] of string and boolean flags. *)
Inductive flag_kind : Type := FlagString | FlagBool.
Inductive flag_error : Type := BadSyntax | UndefinedFlag | FlagHelp | MissingArgument | BadBool.

Definition ParseBool (s : bytes) : option bool :=
  if existsb (fun w => beq s (lit w)) ["1"; "t"; "T"; "TRUE"; "true"; "True"]%string then Some true
  else if existsb (fun w => beq s (lit w)) ["0"; "f"; "F"; "FALSE"; "false"; "False"]%string then Some false
  else None.

Fixpoint cut_equals (s : bytes) : bytes * option bytes :=
  match s with
  | [] => ([], None)
  | b :: r => if u8 b =? 0x3d then ([], Some r) else let '(name, value) := cut_equals r in (b :: name, value)
  end.

(** The flags that are set, the last one first, and the arguments left. *)
Fixpoint parse_flags (known : bytes -> option flag_kind) (seen : list (bytes * bytes)) (args : list bytes)
    : result flag_error (list (bytes * bytes) * list bytes) :=
  match args with
  | [] => Ok (seen, [])
  | s :: rest =>
      match s with
      | x2d :: ((_ :: _) as tail) =>
          if beq s (lit "--") then Ok (seen, rest)
          else
            let body := match tail with x2d :: body => body | _ => tail end in
            match body with
            | [] | x2d :: _ | x3d :: _ => Fail BadSyntax
            | _ =>
                let '(name, value) := cut_equals body in
                match known name with
                | None => Fail (if beq name (lit "help") || beq name (lit "h") then FlagHelp else UndefinedFlag)
                | Some FlagBool =>
                    match value with
                    | None => parse_flags known ((name, lit "true") :: seen) rest
                    | Some v => match ParseBool v with
                                | Some true => parse_flags known ((name, lit "true") :: seen) rest
                                | Some false => parse_flags known ((name, lit "false") :: seen) rest
                                | None => Fail BadBool
                                end
                    end
                | Some FlagString =>
                    match value, rest with
                    | Some v, _ => parse_flags known ((name, v) :: seen) rest
                    | None, v :: rest' => parse_flags known ((name, v) :: seen) rest'
                    | None, [] => Fail MissingArgument
                    end
                end
            end
      | _ => Ok (seen, args)
      end
  end.

Definition flag_value (name : String.string) (absent : bytes) (seen : list (bytes * bytes)) : bytes :=
  match List.find (fun kv => beq (fst kv) (lit name)) seen with Some kv => snd kv | None => absent end.

(** What a command does with its arguments. *)
Inductive command_line : Type :=
| PrintHelp
| PrintVersion (version : bytes)
| Serve (dataDir listen : bytes)
| Reject (message : bytes)
| RejectFlag (e : flag_error).

Definition gateway_flags (name : bytes) : option flag_kind :=
  if beq name (lit "role") || beq name (lit "data-dir") || beq name (lit "listen") then Some FlagString
  else if beq name (lit "version") then Some FlagBool else None.

Definition gateway_main (args : list bytes) : command_line :=
  match parse_flags gateway_flags [] args with
  | Fail FlagHelp => PrintHelp
  | Fail e => RejectFlag e
  | Ok (seen, positional) =>
      let role := flag_value "role" [] seen in
      let dataDir := flag_value "data-dir" [] seen in
      let listen := flag_value "listen" [] seen in
      if negb (bool_decide (positional = [])) then Reject (lit "unexpected positional arguments")
      else if beq (flag_value "version" (lit "false") seen) (lit "true") then
        if negb (bool_decide (role = [])) then Reject (lit "--version cannot be combined with --role") else PrintVersion (lit "0.2.0-m2")
      else if negb (beq role (lit "gateway")) && negb (beq role (lit "metadata")) && negb (beq role (lit "storage"))
      then Reject (lit "--role is required and must be one of gateway, metadata, storage")
      else if negb (beq role (lit "gateway")) then Reject (lit "role is not implemented in milestone 2")
      else if bool_decide (dataDir = []) || bool_decide (listen = []) then Reject (lit "gateway requires --data-dir and --listen")
      else Serve dataDir listen
  end.

(** src/cmd/vbdb-operator/main.go *)
Definition operator_main (args : list bytes) : command_line :=
  match parse_flags (fun name => if beq name (lit "version") then Some FlagBool else None) [] args with
  | Fail FlagHelp => PrintHelp
  | Fail e => RejectFlag e
  | Ok (seen, positional) =>
      if negb (bool_decide (positional = [])) then Reject (lit "unexpected positional arguments")
      else if negb (beq (flag_value "version" (lit "false") seen) (lit "true"))
      then Reject (lit "reconciliation is not implemented in milestone 1; use --version")
      else PrintVersion (lit "0.1.0-m1")
  end.
