(* ===== verification/GatewaySafe.v ===== *)
(** Runs of the gateway: the counters are exact and bounded, the store is closed
    only when no request can use it, and what was acknowledged over HTTP is there
    when the store is opened again. *)

From Stdlib Require Import ZArith Lia.
From stdpp Require Import base list gmap.
From S2P Require Import Prelude GoStd Uuidv7 Coordinates EngineOps Command State Storage StorageRecords StorageLog StorageReads StorageWrites StorageOpen RowStore Jsondoc JsondocCanon HttpApi HttpStore Gateway.

Local Open Scope Z_scope.
#[local] Existing Instance json_canon.

(** ** Counters *)

Record handler_exact (h : trackedHandler) (calls : gmap nat call) (next : nat) : Prop := {
  he_limit : th_limit h = maxGatewayActiveRequests;
  he_slots : th_slots h = th_open h;
  he_open : th_open h = Z.of_nat (size calls);
  he_bound : th_open h <= maxGatewayActiveRequests;
  he_fresh : forall i, (next <= i)%nat -> calls !! i = None
}.

Fixpoint unreleased (conns : list bool) : nat := match conns with [] => 0 | released :: conns => (if released then 0 else 1) + unreleased conns end.

Record listener_exact (l : boundedListener) : Prop := {
  le_limit : bl_limit l = maxGatewayConnections;
  le_slots : bl_slots l = Z.of_nat (bl_accepting l + unreleased (bl_conns l));
  le_bound : bl_slots l <= maxGatewayConnections
}.

Lemma handler_admits h calls next h' c : handler_exact h calls next -> handler_enter h = (h', None) -> handler_exact h' (<[next := c]> calls) (S next) /\ th_stopping h = false.
Proof.
  intros [Hl Hs Ho Hb Hf]. unfold handler_enter. destruct (th_stopping h); [done|]. destruct (th_limit h <=? th_slots h) eqn:E; [done|]. intros [= <-]. bool_to_prop. split; [|done].
  split; cbn [th_limit th_slots th_open]; try lia.
  - rewrite map_size_insert_None by (apply Hf; lia). lia.
  - intros i Hi. rewrite lookup_insert_ne by lia. apply Hf. lia.
Qed.

Lemma handler_refuses h h' resp : handler_enter h = (h', Some resp) -> h' = h /\ rs_Status resp = 503.
Proof. unfold handler_enter. destruct (th_stopping h); [by intros [= <- <-]|]. case_match; [by intros [= <- <-]|done]. Qed.

Lemma handler_updates h calls next i c c' : handler_exact h calls next -> calls !! i = Some c -> handler_exact h (<[i := c']> calls) next.
Proof.
  intros [Hl Hs Ho Hb Hf] Hi. split; try done.
  - by rewrite map_size_insert_Some.
  - intros j Hj. rewrite lookup_insert_ne; [by apply Hf|]. intros ->. rewrite Hf in Hi; done.
Qed.

Lemma handler_returns h calls next i c : handler_exact h calls next -> calls !! i = Some c ->
  exists h', handler_leave h = Some h' /\ handler_exact h' (delete i calls) next /\ th_stopping h' = th_stopping h.
Proof.
  intros [Hl Hs Ho Hb Hf] Hi. assert (size calls <> 0%nat) as Hn by (intros E%map_size_empty_inv; by rewrite E, lookup_empty in Hi).
  unfold handler_leave. rewrite (proj2 (Z.eqb_neq _ _)) by lia. eexists. split; [done|]. split; [|done]. split; cbn [th_limit th_slots th_open]; try lia.
  - rewrite map_size_delete_Some by done. lia.
  - intros j Hj. rewrite lookup_delete_None. right. by apply Hf.
Qed.

Lemma unreleased_close conns i : conns !! i = Some false -> unreleased conns = S (unreleased (<[i := true]> conns)).
Proof.
  revert i. induction conns as [|c conns IH]; intros [|i]; cbn; try done; [by intros [= ->]|]. intros Hi. specialize (IH i Hi). destruct c; cbn; [exact IH|by f_equal].
Qed.

Lemma unreleased_app conns conns' : unreleased (conns ++ conns') = (unreleased conns + unreleased conns')%nat.
Proof. induction conns; cbn; lia. Qed.

Lemma release_exact l : bl_limit l = maxGatewayConnections -> bl_slots l = Z.of_nat (S (bl_accepting l + unreleased (bl_conns l))) -> bl_slots l <= maxGatewayConnections ->
  listener_exact (release l).
Proof. intros Hl Hs Hb. unfold release. rewrite (proj2 (Z.ltb_lt _ _)) by lia. split; cbn; lia. Qed.

Lemma listener_steps l l' : listener_exact l -> accept_slot l = Some l' \/ accept_closed l = Some l' \/ (exists accepted, accept_done l accepted = Some l')
  \/ (exists i, conn_close l i = Some l') \/ (exists err, listener_close l err = l') -> listener_exact l'.
Proof.
  intros [Hl Hs Hb] [H|[H|[[accepted H]|[[i H]|[err H]]]]].
  - unfold accept_slot in H. case_match; [|done]. injection H as <-. bool_to_prop. split; cbn; lia.
  - unfold accept_closed in H. case_match; [|done]. by injection H as <-.
  - unfold accept_done in H. destruct (bl_accepting l) as [|n] eqn:Hn; [done|]. injection H as <-. destruct accepted.
    + split; cbn; try lia. rewrite unreleased_app. cbn. lia.
    + apply release_exact; cbn; lia.
  - unfold conn_close in H. destruct (bl_conns l !! i) as [[|]|] eqn:Hi; [by injection H as <-| |done]. injection H as <-. apply unreleased_close in Hi.
    apply release_exact; cbn; lia.
  - subst l'. unfold listener_close. by destruct (bl_closed l).
Qed.

(** ** The store under requests *)

Lemma choose_version_closed n e e' r : choose_version n e = (e', r) -> closed e' = closed e.
Proof. revert e. induction n as [|n IH]; intros e; cbn [choose_version]; [by intros [= <- _]|]. repeat (case_match; try (by intros [= <- _])). intros E. by rewrite (IH _ E). Qed.

Lemma commit_closed e b e' r : commit_batch e b = (e', r) -> closed e' = closed e.
Proof. unfold commit_batch. destruct (db_faults e) as [|[|durable] faults]; by intros [= <- _]. Qed.

Lemma Put_closed e table key value c e' r : Put e table key value c = (e', r) -> closed e' = closed e.
Proof.
  unfold Put. destruct (check_put _ _ _ _); [|by intros [= <- _]]. destruct (unusable e); [by intros [= <- _]|]. destruct (check_condition _ _ _ _); [|by intros [= <- _]].
  destruct (_ =? _); [by intros [= <- _]|]. destruct (choose_version maxVersionAttempts e) as [e1 [v|]] eqn:Hc; apply choose_version_closed in Hc; [|by intros [= <- _]].
  destruct (row_records _); [|by intros [= <- _]]. destruct (stage_records _ _); [|by intros [= <- _]]. destruct (commit_batch e1 _) as [e2 [|]] eqn:Hb; apply commit_closed in Hb; intros [= <- _]; cbn; congruence.
Qed.

Lemma handlePut_closed e r table key e' resp : handlePut e r table key = (e', resp) -> closed e' = closed e.
Proof.
  unfold handlePut. repeat (case_match; try (by intros [= <- _])). all: intros [= <- _]; by eapply Put_closed.
Qed.

(** What a request does to a store that has failed, and to the closing of any. *)
Lemma serve_store e r : exists e' resp, serveHTTP (Some e) r = (Some e', resp) /\ closed e' = closed e.
Proof.
  unfold serveHTTP. destruct (snd _); [eauto|]. destruct (parsePath _) as [[table key]|]; [|eauto]. destruct (IsReservedTable table); [eauto|]. destruct (beq _ _); [eauto|].
  destruct (beq _ _); [|eauto]. destruct (handlePut e r table key) as [e' resp] eqn:H. eauto using handlePut_closed.
Qed.

Lemma serve_failed e r e' resp : terminalErr e = Some ErrTerminal -> serveHTTP (Some e) r = (Some e', resp) -> e' = e /\ (rq_Method r = lit "PUT" -> 400 <= rs_Status resp).
Proof.
  intros Ht. unfold serveHTTP. destruct (snd _); [by intros [= <- <-]|]. destruct (parsePath _) as [[table key]|]; [|by intros [= <- <-]]. destruct (IsReservedTable table); [by intros [= <- <-]|].
  destruct (beq (rq_Method r) (lit "GET")) eqn:Hg; [intros [= <- <-]; split; [done|]; intros E; by rewrite E in Hg|]. destruct (beq (rq_Method r) (lit "PUT")) eqn:Hp; [|by intros [= <- <-]].
  destruct (handlePut e r table key) as [e1 resp1] eqn:H. intros [= <- <-]. revert H. unfold handlePut.
  destruct (parsePutCondition _) as [c|]; [|by intros [= <- <-]]. destruct (valuesForHeader _ _) as [types present]. destruct types as [|ct [|]]; [by intros [= <- <-]| |by intros [= <- <-]].
  case_bool_decide; [by intros [= <- <-]|]. destruct (ParseMediaType ct); [|by intros [= <- <-]]. destruct (negb _); [by intros [= <- <-]|]. do 2 (destruct (_ <? _); [by intros [= <- <-]|]). destruct (rq_BodyBroken r); [by intros [= <- <-]|]. destruct (canonicalJSON _) as [canonical|]; [|by intros [= <- <-]].
  destruct (_ <? _); [by intros [= <- <-]|]. destruct (put_unusable e (mkWrite table key canonical c) Ht) as [err E]. unfold put in E. cbn in E. rewrite E.
  destruct err; intros [= <- <-]; split; done.
Qed.

(** ** The invariant *)

(** No request is inside, and none will be admitted. *)
Definition quiet (g : gateway) : Prop := gw_calls g = ∅ /\ (gw_serving g = true -> th_stopping (gw_handler g) = true).
Definition store_open (g : gateway) : Prop := forall e, gw_store g = Some e -> closed e = false.

Definition phase_ok (g : gateway) : Prop :=
  match gw_main g with
  | AtOpen => gw_store g = None /\ gw_serving g = false
  | AtListen => gw_serving g = false /\ is_Some (gw_store g) /\ store_open g
  | AtSelect | AtStop _ => store_open g
  | AtServer _ | AtWait _ => store_open g /\ th_stopping (gw_handler g) = true
  | AtCheck _ => store_open g /\ quiet g
  | AtDefer _ | AtClose _ => store_open g /\ (hardExitStarted (gw_shutdown g) = false -> quiet g)
  | AtTimer _ | Returned _ => store_open g \/ quiet g
  end.

Record gateway_ok (g : gateway) : Prop := {
  gk_handler : handler_exact (gw_handler g) (gw_calls g) (gw_next g);
  gk_listener : listener_exact (gw_listener g);
  gk_exits : hardExitStarted (gw_shutdown g) = hardExitOnce (gw_shutdown g) /\ exits (gw_shutdown g) = if hardExitOnce (gw_shutdown g) then [1] else [];
  gk_store : gw_serving g = true -> is_Some (gw_store g);
  gk_idle : gw_serving g = false -> gw_calls g = ∅;
  gk_phase : phase_ok g
}.

Lemma gateway_start_ok : gateway_ok gateway_start.
Proof. split; try done; split; done. Qed.

Lemma phase_closed g e : phase_ok g -> gw_store g = Some e -> closed e = true -> quiet g.
Proof.
  unfold phase_ok, store_open. intros Hp He Hc. destruct (gw_main g); try (destruct Hp as [Hp|Hp]; [specialize (Hp e He); congruence|done]);
    repeat match goal with H : _ /\ _ |- _ => destruct H end; try congruence; match goal with H : forall e, _ -> closed e = false |- _ => specialize (H e He) end; congruence.
Qed.

Lemma trigger_exits s : hardExitStarted s = hardExitOnce s /\ exits s = (if hardExitOnce s then [1] else []) ->
  hardExitStarted (triggerHardExit s) = hardExitOnce (triggerHardExit s) /\ exits (triggerHardExit s) = (if hardExitOnce (triggerHardExit s) then [1] else [])
  /\ hardExitStarted (triggerHardExit s) = true.
Proof. intros [H1 H2]. unfold triggerHardExit. destruct (hardExitOnce s) eqn:E; [by rewrite E|]. cbn. by rewrite H2. Qed.

Section run.
Context (dir : bytes) (records : gmap bytes bytes) (exit_returns : bool).

(** A request that arrives leaves the phase as it is. *)
Lemma arrive_ok g r : gateway_ok g -> gw_serving g = true -> gateway_ok (request_arrive g r).
Proof.
  intros [Hh Hl He Hs Hi Hp] Hv. unfold request_arrive. destruct (handler_enter (gw_handler g)) as [h [resp|]] eqn:E.
  - apply handler_refuses in E as [-> _]. by split.
  - destruct (handler_admits _ _ _ _ (Entered r) Hh E) as [Hh' Hst]. split; try done; [intros Hf; cbn in Hf; congruence|].
    assert (quiet g -> False) as Hq by (intros [_ Hq]; specialize (Hq Hv); congruence). unfold phase_ok in *. cbn [gw_main set_calls set_handler] in *.
    destruct (gw_main g); unfold store_open in *; cbn in *; try (destruct Hp as [? Hp]; try done; try congruence); try tauto.
    all: destruct Hp; [by left|tauto].
Qed.

Lemma serve_ok g i g' : gateway_ok g -> request_serve g i = Some g' -> gateway_ok g'.
Proof.
  intros [Hh Hl He Hs Hi Hp]. unfold request_serve. destruct (gw_calls g !! i) as [[r|r]|] eqn:Hc; try done. assert (gw_serving g = true) as Hv.
  { destruct (gw_serving g); [done|]. rewrite Hi, lookup_empty in Hc by done. done. }
  destruct (Hs Hv) as [e Hst]. destruct (serve_store e r) as (e' & resp & E & Hcl). rewrite Hst, E. intros [= <-].
  assert (closed e = false) as Hopen.
  { destruct (closed e) eqn:Ec; [|done]. destruct (phase_closed g e Hp Hst Ec) as [Hq _]. by rewrite Hq, lookup_empty in Hc. }
  split; cbn [gw_handler gw_listener gw_shutdown gw_calls gw_next gw_serving gw_store set_calls set_store answer_request]; try done.
  - by apply (handler_updates _ _ _ _ (Entered r)).
  - intros Hf. congruence.
  - assert (forall e0, Some e' = Some e0 -> closed e0 = false) as Ho by (intros e0 [= <-]; congruence). assert (quiet g -> False) as Hq by (intros [Hq _]; by rewrite Hq, lookup_empty in Hc).
    unfold phase_ok in *. cbn [gw_main set_calls answer_request set_store] in *. destruct (gw_main g); unfold store_open in *; cbn in *; try (destruct Hp as [? Hp]; try done; try congruence); try tauto.
Qed.

Lemma leave_ok g i g' : gateway_ok g -> request_leave g i = Some g' -> gateway_ok g'.
Proof.
  intros [Hh Hl He Hs Hi Hp]. unfold request_leave. destruct (gw_calls g !! i) as [[r|r]|] eqn:Hc; try done.
  destruct (handler_returns _ _ _ _ _ Hh Hc) as (h & E & Hh' & Hst). rewrite E. intros [= <-]. split; try done.
  - intros Hf. cbn in *. by rewrite Hi, lookup_empty in Hc.
  - assert (quiet g -> quiet (set_calls (set_handler g h) (delete i (gw_calls g)) (gw_next g))) as Hq by (intros [Hq _]; by rewrite Hq, lookup_empty in Hc).
    unfold phase_ok in *. cbn [gw_main set_calls set_handler] in *. destruct (gw_main g); unfold store_open in *; cbn in *; try tauto; rewrite Hst; tauto.
Qed.

Lemma listener_ok g l g' : gateway_ok g -> (forall l', l = Some l' -> listener_exact l') -> listener_step g l = Some g' -> gateway_ok g'.
Proof. intros [Hh Hl He Hs Hi Hp] Hl'. unfold listener_step. destruct l as [l|]; [|done]. case_eq (gw_serving g); [intros Hv|done]. intros [= <-]. by split; [exact Hh|apply Hl'|exact He|exact Hs|exact Hi|exact Hp]. Qed.

(** The main goroutine. *)
Lemma open_ok g faults ids : gateway_ok g -> gw_main g = AtOpen -> gateway_ok (main_open dir records g faults ids).
Proof.
  intros [Hh Hl He Hs Hi Hp] Hm. unfold phase_ok in Hp. rewrite Hm in Hp. destruct Hp as [Hst Hv]. unfold main_open.
  destruct (Open dir zero_options records faults ids) as [e|err] eqn:Ho; (split; [done..|cbn; congruence|done|]).
  - cbn. split_and!; [done|done|]. intros e0 [= <-]. unfold Open in Ho. inv_res. done.
  - left. intros e0 E. cbn in E. congruence.
Qed.

Lemma wait_ok g err expired g' : gateway_ok g -> gw_main g = AtWait err -> main_wait g err expired = Some g' -> gateway_ok g'.
Proof.
  intros [Hh Hl He Hs Hi Hp] Hm. unfold phase_ok in Hp. rewrite Hm in Hp. destruct Hp as [Ho Hst]. unfold main_wait. destruct expired.
  - intros [= <-]. destruct (trigger_exits _ He) as (H1 & H2 & H3). split; [exact Hh|exact Hl|by split|exact Hs|exact Hi|]. split; [exact Ho|]. cbn. congruence.
  - unfold handler_drained. destruct (th_open (gw_handler g) =? 0) eqn:E; [|done]. intros [= <-]. split; [exact Hh|exact Hl|exact He|exact Hs|exact Hi|]. split; [exact Ho|]. split; [cbn|done]. bool_to_prop. rewrite (he_open _ _ _ Hh) in E. apply map_size_empty_inv. lia.
Qed.

Lemma close_ok g err closeErr : gateway_ok g -> gw_main g = AtClose err -> gateway_ok (main_close g err closeErr).
Proof.
  intros [Hh Hl He Hs Hi Hp] Hm. unfold phase_ok in Hp. rewrite Hm in Hp. destruct Hp as [Ho Hq]. unfold main_close. case_eq (gw_store g); [intros e Hst|intros Hst].
  - unfold closeStore. case_eq (hardExitStarted (gw_shutdown g)); intros Hx.
    + split; [exact Hh|exact Hl|exact He|done|exact Hi|]. left. intros e0 [= <-]. by apply Ho.
    + destruct (Close e closeErr) as [e' r]. split; [exact Hh|exact Hl|exact He|done|exact Hi|]. right. by apply Hq.
  - split; [exact Hh|exact Hl|exact He|exact Hs|exact Hi|]. left. intros e0 E. cbn in E. congruence.
Qed.

Lemma fire_ok g : gateway_ok g -> gateway_ok (set_shutdown g (triggerHardExit (shutdown_stop (gw_shutdown g)))).
Proof.
  intros [Hh Hl He Hs Hi Hp]. destruct (trigger_exits (shutdown_stop (gw_shutdown g)) He) as (H1 & H2 & H3). split; [exact Hh|exact Hl|by split|exact Hs|exact Hi|].
  unfold phase_ok in *. cbn [gw_main set_shutdown]. destruct (gw_main g); try exact Hp; (split; [exact (proj1 Hp)|]; cbn; congruence).
Qed.

(** The steps of the main goroutine that only move on. *)
Lemma main_ok g p : gateway_ok g -> phase_ok (set_main g p) -> gateway_ok (set_main g p).
Proof. intros [Hh Hl He Hs Hi _] Hp. by split; [exact Hh|exact Hl|exact He|exact Hs|exact Hi|]. Qed.

Lemma gateway_step_ok g ev g' : gateway_ok g -> gateway_step dir records exit_returns g ev = Some g' -> gateway_ok g'.
Proof.
  intros Hg. pose proof Hg as [Hh Hl He Hs Hi Hp]. unfold gateway_step. destruct (negb exit_returns && _); [done|].
  destruct ev; try (by apply serve_ok); try (by apply leave_ok); try (apply listener_ok; [done|]; intros l' [= E]; apply (listener_steps (gw_listener g) l' Hl); eauto 8).
  all: unfold phase_ok in Hp.
  - case_eq (gw_main g); try done. intros Hm [= <-]. by apply open_ok.
  - case_eq (gw_main g); try done. intros Hm [= <-]. rewrite Hm in Hp. destruct Hp as (Hv & Hst & Ho). unfold main_listen. destruct ok.
    + split; [exact Hh|exact Hl|exact He|done|done|exact Ho].
    + apply main_ok; [done|]. split; [exact Ho|]. intros _. split; [by apply Hi|cbn; congruence].
  - case_eq (gw_main g); try done. intros Hm [= <-]. rewrite Hm in Hp. by split; [exact Hh|exact Hl|exact He|exact Hs|exact Hi|exact Hp].
  - case_eq (gw_main g); try done. intros c Hm [= <-]. rewrite Hm in Hp. split; [by destruct Hh|exact Hl|exact He|exact Hs|exact Hi|by split].
  - case_eq (gw_main g); try done. intros c Hm [= <-]. rewrite Hm in Hp. by apply main_ok.
  - case_eq (gw_main g); try done. intros err Hm. by apply wait_ok.
  - case_eq (gw_main g); try done. intros err Hm [= <-]. rewrite Hm in Hp. apply main_ok; [done|]. destruct Hp as [Ho Hq]. by split; [exact Ho|intros _; exact Hq].
  - case_eq (gw_main g); try done. intros err Hm [= <-]. rewrite Hm in Hp. apply main_ok; [done|]. destruct Hp as [Ho Hq]. destruct (hardExitStarted _) eqn:Hx; [by left|]. by split; [exact Ho|intros _; exact (Hq eq_refl)].
  - case_eq (gw_main g); try done. intros err Hm [= <-]. by apply close_ok.
  - case_eq (gw_main g); try done. intros err Hm [= <-]. rewrite Hm in Hp. by split; [exact Hh|exact Hl|exact He|exact Hs|exact Hi|exact Hp].
  - destruct (armed _); [|done]. intros [= <-]. by apply fire_ok.
  - case_eq (gw_serving g); [|done]. intros Hv [= <-]. by apply arrive_ok.
Qed.
Lemma run_ok evs g g' : gateway_ok g -> gateway_run dir records exit_returns g evs = Some g' -> gateway_ok g'.
Proof.
  revert g. induction evs as [|ev evs IH]; intros g Hg; cbn [gateway_run]; [by intros [= <-]|]. destruct (gateway_step _ _ _ g ev) as [g1|] eqn:E; [|done]. apply IH. by apply (gateway_step_ok g ev).
Qed.
End run.

(** ** Theorems *)

(** C16: The store outlives the requests.  In every run of the gateway, in any
    interleaving of requests, connections, signals, server errors and the hard
    exit: when the store has been closed no request is inside and none is
    admitted any more; at most 128 requests are inside, each holds its own slot
    and gives it back without waiting; connections and pending accepts hold
    exactly the slots taken, at most 256; the process is told to exit at most
    once. *)
Theorem store_outlives_requests dir records exit_returns evs g : gateway_run dir records exit_returns gateway_start evs = Some g ->
  (forall e, gw_store g = Some e -> closed e = true -> gw_calls g = ∅ /\ forall r g', gateway_step dir records exit_returns g (EvArrive r) = Some g' -> gw_calls g' = ∅)
  /\ th_slots (gw_handler g) = Z.of_nat (size (gw_calls g)) /\ th_slots (gw_handler g) <= 128
  /\ (forall i r, gw_calls g !! i = Some (Answered r) -> is_Some (request_leave g i))
  /\ bl_slots (gw_listener g) = Z.of_nat (bl_accepting (gw_listener g) + unreleased (bl_conns (gw_listener g))) /\ bl_slots (gw_listener g) <= 256
  /\ (exits (gw_shutdown g) = [] \/ exits (gw_shutdown g) = [1]).
Proof.
  intros Hrun. apply run_ok in Hrun; [|exact gateway_start_ok]. destruct Hrun as [Hh Hl [_ He] Hs Hi Hp]. split_and!.
  - intros e Hst Hc. destruct (phase_closed g e Hp Hst Hc) as [Hq Hstop]. split; [done|]. intros r g'. unfold gateway_step. destruct (negb exit_returns && _); [done|].
    case_eq (gw_serving g); [|done]. intros Hv [= <-]. unfold request_arrive, handler_enter. by rewrite (Hstop Hv).
  - destruct Hh. lia.
  - destruct Hh. unfold maxGatewayActiveRequests in *. lia.
  - intros i r Hc. unfold request_leave. rewrite Hc. destruct (handler_returns _ _ _ _ _ Hh Hc) as (h & -> & _). eauto.
  - by destruct Hl.
  - by destruct Hl.
  - rewrite He. destruct (hardExitOnce _); auto.
Qed.

(** ** What was acknowledged *)

Definition acknowledged_put (a : Request * Response) : bool := beq (rq_Method (fst a)) (lit "PUT") && (rs_Status (snd a) <? 400).

(** The row a request was acknowledged with. *)
Definition answers_with (a : Request * Response) (row : Row) : Prop :=
  parsePath (rq_EscapedPath (fst a)) = Some (row_Table row, row_Key row) /\ canonicalJSON (rq_Body (fst a)) = Ok (row_Value row)
  /\ snd a = row_response (rs_Status (snd a)) row.

Definition reopened (e : Engine) : Engine := mkEngine (db e) (db_options e) (db_faults e) (generated e) (sequence e) false (terminalErr e).

(** Every row acknowledged is among the records, in order, with at most one
    more; a store that has not failed holds exactly these rows. *)
Definition answered_kept (base : list Row) (e : Engine) (answers : list (Request * Response)) : Prop :=
  exists rows extra, Forall2 answers_with (List.filter acknowledged_put answers) rows /\ kept e (base ++ rows ++ extra) /\ (length extra <= 1)%nat
  /\ (extra = [] /\ represents (reopened e) (base ++ rows) \/ terminalErr e = Some ErrTerminal).

Lemma answered_refused base e answers a : answered_kept base e answers -> acknowledged_put a = false -> answered_kept base e (answers ++ [a]).
Proof. intros (rows & extra & Hf & H) Ha. exists rows, extra. rewrite List.filter_app. cbn. by rewrite Ha, app_nil_r. Qed.

Lemma reopened_open e : closed e = false -> reopened e = e.
Proof. by destruct e as [????? []]. Qed.

Lemma serve_kept base e answers r e' resp : answered_kept base e answers -> closed e = false -> serveHTTP (Some e) r = (Some e', resp) -> answered_kept base e' (answers ++ [(r, resp)]).
Proof.
  intros Hk Hc Hs. pose proof Hk as (rows & extra & Hf & Hkept & Hlen & [[-> Hrep]|Hterm]).
  2: { destruct (serve_failed e r e' resp Hterm Hs) as [-> Hput]. apply answered_refused; [done|]. unfold acknowledged_put. cbn [fst snd].
       destruct (beq (rq_Method r) (lit "PUT")) eqn:Hm; [|done]. apply beq_true in Hm. apply Z.ltb_ge. by apply Hput. }
  rewrite (reopened_open e Hc) in Hrep. destruct (acknowledged_put (r, resp)) eqn:Ha.
  - unfold acknowledged_put in Ha. cbn [fst snd] in Ha. apply andb_true_iff in Ha as [Hm Hst]. apply beq_true in Hm. apply Z.ltb_lt in Hst.
    destruct (serve_put e r e' resp Hm Hs Hst) as (table & key & Hp & _ & Hh). destruct (handlePut_outcome e _ r table key e' resp Hrep Hh) as [? ? _ H|? ? ? H|e1 row c _ _ Hv Hr [Ht Hk2]]; [lia|lia|].
    exists (rows ++ [row]), []. rewrite List.filter_app. cbn [List.filter]. split; [|rewrite app_nil_r, app_assoc; split_and!; [by apply represents_kept|cbn; lia|left]].
    + apply Forall2_app; [done|]. unfold acknowledged_put at 1. cbn [fst snd]. rewrite Hm, beq_refl, (proj2 (Z.ltb_lt _ _) Hst). cbn [andb]. constructor; [|constructor].
      split_and!; [by rewrite Ht, Hk2|done|done].
    + by rewrite (reopened_open _ (re_open _ _ Hr)).
  - enough (answered_kept base e' answers) by (by apply answered_refused).
    assert (represents e' (base ++ rows) \/ terminalErr e' = Some ErrTerminal /\ exists extra, kept e' ((base ++ rows) ++ extra) /\ (length extra <= 1)%nat) as Hcase.
    { unfold serveHTTP in Hs. destruct (snd _); [by injection Hs as <- <-; left|]. destruct (parsePath (rq_EscapedPath r)) as [[table key]|]; [|by injection Hs as <- <-; left].
      destruct (IsReservedTable table); [by injection Hs as <- <-; left|]. destruct (beq (rq_Method r) (lit "GET")); [by injection Hs as <- <-; left|].
      destruct (beq (rq_Method r) (lit "PUT")) eqn:Hput; [|by injection Hs as <- <-; left]. destruct (handlePut e r table key) as [e1 resp1] eqn:Hh. injection Hs as <- <-.
      destruct (handlePut_outcome e _ r table key e1 resp1 Hrep Hh) as [e2 resp2 H _|e2 resp2 extra H H1 H2 H3|e2 row c H1 H2 H3 H4 H5]; [by left|right; eauto|].
      exfalso. unfold acknowledged_put in Ha. cbn [fst snd rs_Status row_response] in Ha. rewrite Hput in Ha. by destruct (bool_decide _). }
    destruct Hcase as [Hr|(Ht & extra & Hx & Hl)].
    + exists rows, []. rewrite app_nil_r. split_and!; [done|by apply represents_kept|done|]. left. by rewrite (reopened_open _ (re_open _ _ Hr)).
    + exists rows, extra. rewrite app_assoc. split_and!; try done. by right.
Qed.

Definition durable_ok (dir : bytes) (records : gmap bytes bytes) (g : gateway) : Prop :=
  match gw_store g with
  | None => gw_answers g = []
  | Some e => dir <> [] /\ exists base, log_ok base /\ image base records /\ answered_kept base e (gw_answers g)
  end.

Section durable.
Context (dir : bytes) (records : gmap bytes bytes) (exit_returns : bool).

Lemma opened_kept faults ids e : Open dir zero_options records faults ids = Ok e -> dir <> [] /\ exists base, log_ok base /\ image base records /\ answered_kept base e [].
Proof.
  intros Ho. assert (dir <> []) as Hdir by (intros ->; done). split; [done|].
  destruct (proj1 (Open_log dir zero_options store_options Hdir store_options_normalized records faults ids e) Ho) as (l & Hl & Hb & Him & ->).
  exists l. split_and!; [done|done|]. exists [], []. rewrite !app_nil_r. split_and!; [constructor|by split|cbn; lia|]. left. split; [done|].
  by split; try exact (normalized_bounds _ _ store_options_normalized).
Qed.

Lemma closed_kept base e answers err e' r : answered_kept base e answers -> Close e err = (e', r) -> answered_kept base e' answers.
Proof.
  intros (rows & extra & Hf & Hk & Hl & Ht). unfold Close. destruct (closed e); [intros [= <- _]|destruct err; intros [= <- _]]; exists rows, extra; (split_and!; try done); (destruct Hk; by split).
Qed.

(** Steps that change neither the store nor the answers. *)
Lemma same_durable g g' : gw_store g' = gw_store g -> gw_answers g' = gw_answers g -> durable_ok dir records g -> durable_ok dir records g'.
Proof. unfold durable_ok. by intros -> ->. Qed.

Lemma serve_durable g i g' : gateway_ok g -> durable_ok dir records g -> request_serve g i = Some g' -> durable_ok dir records g'.
Proof.
  intros [Hh Hl He Hs Hi Hp] Hd. unfold request_serve. destruct (gw_calls g !! i) as [[r|r]|] eqn:Hc; try done.
  destruct (gw_serving g) eqn:Hv; [|by rewrite Hi, lookup_empty in Hc]. destruct (Hs eq_refl) as [e Hst]. destruct (serve_store e r) as (e' & resp & E & _).
  unfold durable_ok in *. rewrite Hst in Hd |- *. destruct Hd as (Hdir & base & Hl1 & Hl2 & Hk). rewrite E. intros [= <-]. split; [done|]. exists base. split_and!; [done|done|].
  apply (serve_kept base e); [done| |done]. destruct (closed e) eqn:Ec; [|done]. destruct (phase_closed g e Hp Hst Ec) as [Hq _]. by rewrite Hq, lookup_empty in Hc.
Qed.

Lemma arrive_durable g r : gateway_ok g -> gw_serving g = true -> durable_ok dir records g -> durable_ok dir records (request_arrive g r).
Proof.
  intros Hg Hv Hd. unfold request_arrive. destruct (handler_enter (gw_handler g)) as [h [resp|]] eqn:E; [|exact Hd]. apply handler_refuses in E as [-> Hst].
  unfold durable_ok in *. cbn [gw_store gw_answers answer_request set_handler]. destruct (gk_store g Hg Hv) as [e He]. rewrite He in *. destruct Hd as (Hdir & base & Hl1 & Hl2 & Hk).
  split; [done|]. exists base. split_and!; [done|done|]. apply answered_refused; [done|]. unfold acknowledged_put. cbn [snd]. rewrite Hst. apply andb_false_r.
Qed.

Lemma open_durable g faults ids : gateway_ok g -> gw_main g = AtOpen -> durable_ok dir records g -> durable_ok dir records (main_open dir records g faults ids).
Proof.
  intros Hg Hm Hd. pose proof (gk_phase g Hg) as Hp. unfold phase_ok in Hp. rewrite Hm in Hp. destruct Hp as [Hst _]. unfold main_open, durable_ok in *. rewrite Hst in Hd.
  destruct (Open dir zero_options records faults ids) as [e|] eqn:Ho; cbn [gw_store gw_answers set_main set_store]; [|by rewrite Hst]. rewrite Hd. exact (opened_kept _ _ _ Ho).
Qed.

Lemma close_durable g err closeErr : durable_ok dir records g -> durable_ok dir records (main_close g err closeErr).
Proof.
  intros Hd. unfold main_close. case_eq (gw_store g); [intros e Hst|intros _; exact Hd]. unfold closeStore, durable_ok in *. rewrite Hst in Hd. destruct Hd as (Hdir & base & Hl1 & Hl2 & Hk).
  destruct (hardExitStarted (gw_shutdown g)); [by split; [|exists base]|]. destruct (Close e closeErr) as [e' r] eqn:E. split; [done|]. exists base. split_and!; [done|done|]. by apply (closed_kept base e _ closeErr _ r).
Qed.

Lemma step_durable g ev g' : gateway_ok g -> durable_ok dir records g -> gateway_step dir records exit_returns g ev = Some g' -> durable_ok dir records g'.
Proof.
  intros Hg Hd. unfold gateway_step. destruct (negb exit_returns && _); [done|].
  destruct ev as [faults ids|ok|c| |x y z|expired| | |err| | |r|i|i| | |accepted|i|err]; try (by apply serve_durable).
  1: case_eq (gw_main g); try done; intros Hm [= <-]; by apply open_durable.
  8: case_eq (gw_main g); try done; intros err' Hm [= <-]; by apply close_durable.
  10: case_eq (gw_serving g); [|done]; intros Hv [= <-]; by apply arrive_durable.
  all: intros E; apply (same_durable g); [| |done]; unfold listener_step, main_wait, request_leave, main_listen in E; repeat (case_match; simplify_eq; try done).
Qed.

Lemma run_durable evs g g' : gateway_ok g -> durable_ok dir records g -> gateway_run dir records exit_returns g evs = Some g' -> durable_ok dir records g'.
Proof.
  revert g. induction evs as [|ev evs IH]; intros g Hg Hd; cbn [gateway_run]; [by intros [= <-]|]. destruct (gateway_step _ _ _ g ev) as [g1|] eqn:E; [|done].
  apply IH; [by apply (gateway_step_ok dir records exit_returns g ev)|by apply (step_durable g ev)].
Qed.
End durable.


(** ** Instances *)

(** Two connections, a write and its answer, a signal while a second request is
    inside, the request leaving, and the store closed. *)
Definition sample_events : list event :=
  [EvOpen [] (generated empty_store); EvListen true; EvAcceptSlot; EvAcceptDone true; EvArrive (row_request "PUT" create_only " [ 1 , true ]"); EvServe 0; EvLeave 0;
   EvAcceptSlot; EvArrive (row_request "GET" [] ""); EvSelect BySignal; EvStop; EvArrive (row_request "GET" [] ""); EvServe 1;
   EvServer false None (Some ErrServerClosed); EvConnClose 0; EvLeave 1; EvWait false; EvCheck; EvDefer; EvClose None; EvTimer].

Definition sample_run (exit_returns : bool) (evs : list event) : gateway := default gateway_start (gateway_run (lit "d") ∅ exit_returns gateway_start evs).
Definition sample_gateway : gateway := sample_run false sample_events.

Lemma sample_gateway_runs : gateway_run (lit "d") ∅ false gateway_start sample_events = Some sample_gateway.
Proof. vm_compute. reflexivity. Qed.

Lemma sample_gateway_returned : gw_main sample_gateway = Returned [] /\ (map (fun a => rs_Status (snd a)) (gw_answers sample_gateway) = [201; 503; 200])
  /\ bl_slots (gw_listener sample_gateway) = 1.
Proof. vm_compute. done. Qed.

Definition sample_store : Engine := default empty_store (gw_store sample_gateway).

Lemma sample_store_is : gw_store sample_gateway = Some sample_store /\ closed sample_store = true.
Proof. vm_compute. done. Qed.

Lemma store_outlives_requests_witness : gw_main sample_gateway = Returned [] /\ gw_calls sample_gateway = ∅ /\ bl_slots (gw_listener sample_gateway) <= 256.
Proof.
  split; [exact (proj1 sample_gateway_returned)|]. destruct (store_outlives_requests (lit "d") ∅ false sample_events sample_gateway sample_gateway_runs) as (Hq & _ & _ & _ & _ & Hl & _).
  split; [|exact Hl]. destruct sample_store_is as [Hs Hc]. exact (proj1 (Hq sample_store Hs Hc)).
Defined.


(** The arguments that start a gateway. *)
Lemma gateway_main_serves dataDir listen : dataDir <> [] -> listen <> [] ->
  gateway_main [lit "--role"; lit "gateway"; lit "-data-dir"; dataDir; lit "--listen"; listen] = Serve dataDir listen.
Proof.
  intros Hd Hl. assert (parse_flags gateway_flags [] [lit "--role"; lit "gateway"; lit "-data-dir"; dataDir; lit "--listen"; listen]
    = Ok ([(lit "listen", listen); (lit "data-dir", dataDir); (lit "role", lit "gateway")], [])) as E by (vm_compute; reflexivity).
  unfold gateway_main. rewrite E. cbv beta iota zeta. unfold flag_value. cbn [List.find fst snd].
  repeat match goal with |- context [beq (lit ?a) (lit ?b)] => let v := eval vm_compute in (beq (lit a) (lit b)) in change (beq (lit a) (lit b)) with v; cbv iota end.
  rewrite (bool_decide_eq_true_2 ([] = [])), (bool_decide_eq_false_2 (dataDir = [])), (bool_decide_eq_false_2 (listen = [])) by done. reflexivity.
Qed.
