(* ===== verification/Replica.v ===== *)
(** The replica (src/internal/raftstore/replica.go): its state, the proposals
    and reads it keeps waiting, and the parts of its calls that run under one
    lock.

    Goroutines, the Ready loop and the calls to raft come in [ReadyLoop] and
    [ReplicaRun]; what raft answers is an argument there.  A channel holds at
    most one value; a send that would block for ever and a send or close that
    would panic are recorded in [stuck]. *)

From Stdlib Require Import ZArith Lia.
From stdpp Require Import base list gmap.
From S2P Require Import Prelude GoStd Uuidv7 EngineOps Range Command State Snapshot Disk Durable.

Local Open Scope Z_scope.

Inductive replica_error : Type :=
| ErrNotLeader
| ErrAmbiguous
| ErrStopped
| ErrReadIndexUnavailable (what : String.string)
| ErrReadContext
| ErrReadContextExhausted
| ErrContextDone
| ErrRowNotFound
| ErrReplica (what : String.string)
| ErrReplicaCorrupt (what : String.string)
| ErrReplicaCommand (e : command_error)
| ErrReplicaRange (e : range_error)
| ErrReplicaState (e : durable_error)
| ErrReplicaDisk (e : disk_error).

(** [ErrBackpressure] and [ErrOperationConflict] of command.go. *)
Notation Backpressure := (ErrReplicaRange ErrBackpressure).
Notation OperationConflict := (ErrReplicaCommand ErrOperationConflict).

(** ** Channels *)

(** [make(chan T, 1)] *)
Record channel (A : Type) : Type := mkChannel { ch_value : option A; ch_closed : bool }.
Arguments mkChannel {A} _ _.
Arguments ch_value {A} _.
Arguments ch_closed {A} _.

Definition new_channel {A} : channel A := mkChannel None false.

(** [ch <- v; close(ch)], when it neither blocks nor panics. *)
Definition send_close {A} (m : gmap Z (channel A)) (c : Z) (v : A) : option (gmap Z (channel A)) :=
  match m !! c with
  | Some (mkChannel None false) => Some (<[c := mkChannel (Some v) true]> m)
  | _ => None
  end.

(** ** The state *)

Record pendingProposal : Type := mkProposal {
  pp_encoded : bytes;
  pp_waiters : gmap Z Z;
  pp_nextWaiter : Z;
  pp_submitted : bool
}.

Record pendingRead : Type := mkPendingRead {
  rd_table : bytes;
  rd_key : bytes;
  rd_descriptor : RangeDescriptor;
  rd_bytes : Z;
  rd_waiter : Z
}.

(** What a transport can do: nothing is configured, messages only, or also
    snapshots with a durable acknowledgement. *)
Inductive transport : Type := NoTransport | MessageTransport | SnapshotTransport.

(** The fields of [Replica], in groups: proposals, reads, channels, lifecycle. *)
Record proposals : Type := mkProposals { p_pending : gmap UUID pendingProposal; p_bytes : Z }.

Record readers : Type := mkReaders {
  rs_reads : gmap bytes pendingRead;
  rs_retired : gset bytes;
  rs_nonce : bytes;
  rs_seq : Z;
  rs_bytes : Z
}.

Record channels : Type := mkChannels {
  answers : gmap Z (channel (result replica_error Result));
  fences : gmap Z (channel (result replica_error Z));
  made : Z;
  stuck : bool
}.

(** [notices] counts the channels that [appliedCh] has been. *)
Record lifecycle : Type := mkLife {
  l_closed : bool;
  l_fatal : option replica_error;
  l_fatalStop : bool;
  l_stopLoop : bool;
  l_nodeStopped : bool;
  l_diskClosed : bool;
  l_notices : Z
}.

Record Replica : Type := mkReplica {
  r_disk : diskStore;
  r_state : logicalState;
  r_id : Z;
  r_transport : transport;
  r_catalog : option RangeCatalog;
  r_epoch : Z;
  r_proposals : proposals;
  r_readers : readers;
  r_channels : channels;
  r_life : lifecycle
}.

Definition set_core (r : Replica) (d : diskStore) (s : logicalState) : Replica :=
  mkReplica d s (r_id r) (r_transport r) (r_catalog r) (r_epoch r) (r_proposals r) (r_readers r) (r_channels r) (r_life r).
Definition set_catalog (r : Replica) (c : option RangeCatalog) : Replica :=
  mkReplica (r_disk r) (r_state r) (r_id r) (r_transport r) c (r_epoch r) (r_proposals r) (r_readers r) (r_channels r) (r_life r).
Definition set_epoch (r : Replica) (n : Z) : Replica :=
  mkReplica (r_disk r) (r_state r) (r_id r) (r_transport r) (r_catalog r) n (r_proposals r) (r_readers r) (r_channels r) (r_life r).
Definition set_proposals (r : Replica) (p : proposals) : Replica :=
  mkReplica (r_disk r) (r_state r) (r_id r) (r_transport r) (r_catalog r) (r_epoch r) p (r_readers r) (r_channels r) (r_life r).
Definition set_readers (r : Replica) (x : readers) : Replica :=
  mkReplica (r_disk r) (r_state r) (r_id r) (r_transport r) (r_catalog r) (r_epoch r) (r_proposals r) x (r_channels r) (r_life r).
Definition set_channels (r : Replica) (x : channels) : Replica :=
  mkReplica (r_disk r) (r_state r) (r_id r) (r_transport r) (r_catalog r) (r_epoch r) (r_proposals r) (r_readers r) x (r_life r).
Definition set_life (r : Replica) (l : lifecycle) : Replica :=
  mkReplica (r_disk r) (r_state r) (r_id r) (r_transport r) (r_catalog r) (r_epoch r) (r_proposals r) (r_readers r) (r_channels r) l.

Definition set_fatal (r : Replica) (e : replica_error) : Replica :=
  let l := r_life r in
  set_life r (mkLife (l_closed l) (Some e) (l_fatalStop l) (l_stopLoop l) (l_nodeStopped l) (l_diskClosed l) (l_notices l)).
Definition set_closed (r : Replica) : Replica :=
  let l := r_life r in
  set_life r (mkLife true (l_fatal l) (l_fatalStop l) (l_stopLoop l) (l_nodeStopped l) (l_diskClosed l) (l_notices l)).

Definition maxPendingProposals : Z := 1024.
Definition maxUncommittedEntriesSize : Z := maxReadyBytes.
Definition maxPendingProposalBytes : Z := maxUncommittedEntriesSize.

(** ** Sending to waiters *)

Definition answer (c : Z) (v : result replica_error Result) (r : Replica) : Replica :=
  let x := r_channels r in
  match send_close (answers x) c v with
  | Some m => set_channels r (mkChannels m (fences x) (made x) (stuck x))
  | None => set_channels r (mkChannels (answers x) (fences x) (made x) true)
  end.

Definition answer_read (c : Z) (v : result replica_error Z) (r : Replica) : Replica :=
  let x := r_channels r in
  match send_close (fences x) c v with
  | Some m => set_channels r (mkChannels (answers x) m (made x) (stuck x))
  | None => set_channels r (mkChannels (answers x) (fences x) (made x) true)
  end.

(** The loop over the waiters of a proposal. *)
Definition answer_all (v : result replica_error Result) (p : pendingProposal) (r : Replica) : Replica :=
  fold_left (fun r w => answer (snd w) v r) (map_to_list (pp_waiters p)) r.

(** ** Lifecycle *)

Definition readOpen (r : Replica) : result replica_error unit :=
  if l_closed (r_life r) then Fail ErrStopped
  else match l_fatal (r_life r) with Some e => Fail e | None => Ok tt end.

Definition fatalState (r : Replica) : option replica_error := l_fatal (r_life r).

Definition observeSoftState (r : Replica) : Replica := set_epoch r (uint64 (r_epoch r + 1)).

Definition signalApplied (r : Replica) : Replica :=
  let l := r_life r in
  set_life r (mkLife (l_closed l) (l_fatal l) (l_fatalStop l) (l_stopLoop l) (l_nodeStopped l) (l_diskClosed l) (l_notices l + 1)).

(** [requestFatalStop] starts a goroutine that runs [stopTransport], waits for
    the Ready loop and runs [stopNode]. *)
Definition requestFatalStop (r : Replica) : Replica :=
  let l := r_life r in
  set_life r (mkLife (l_closed l) (l_fatal l) true (l_stopLoop l) (l_nodeStopped l) (l_diskClosed l) (l_notices l)).

Definition stopTransport (r : Replica) : Replica :=
  let l := r_life r in
  signalApplied (set_life r (mkLife (l_closed l) (l_fatal l) (l_fatalStop l) true (l_nodeStopped l) (l_diskClosed l) (l_notices l))).

Definition stopNode (r : Replica) : Replica :=
  let l := r_life r in
  set_life r (mkLife (l_closed l) (l_fatal l) (l_fatalStop l) (l_stopLoop l) true (l_diskClosed l) (l_notices l)).

(** ** Proposals *)

Definition markPendingAccountingCorruptLocked (r : Replica) : Replica :=
  match l_fatal (r_life r) with
  | None => requestFatalStop (set_fatal r (ErrReplicaCorrupt "pending proposal byte accounting"))
  | Some _ => r
  end.

Definition removePendingLocked (id : UUID) (r : Replica) : option pendingProposal * Replica :=
  let p := r_proposals r in
  match p_pending p !! id with
  | None => (None, r)
  | Some proposal =>
      let rest := delete id (p_pending p) in
      if p_bytes p <? len (pp_encoded proposal) then (Some proposal, set_proposals (markPendingAccountingCorruptLocked r) (mkProposals rest 0))
      else if len (pp_encoded proposal) =? p_bytes p then (Some proposal, set_proposals r (mkProposals rest 0))
      else (Some proposal, set_proposals r (mkProposals rest (p_bytes p - len (pp_encoded proposal))))
  end.

(** The retained bytes of a set of proposals. *)
Definition pending_bytes (m : gmap UUID pendingProposal) : Z :=
  fold_left (fun n kv => n + len (pp_encoded (snd kv))) (map_to_list m) 0.

Definition finishPending (err : replica_error) (r : Replica) : Replica :=
  let pending := p_pending (r_proposals r) in
  let r := if pending_bytes pending =? p_bytes (r_proposals r) then r else markPendingAccountingCorruptLocked r in
  let r := set_proposals r (mkProposals ∅ 0) in
  fold_left (fun r kv => answer_all (Fail err) (snd kv) r) (map_to_list pending) r.

Definition finishReads (err : replica_error) (r : Replica) : Replica :=
  let x := r_readers r in
  let r := set_readers r (mkReaders ∅ (rs_retired x) (rs_nonce x) (rs_seq x) 0) in
  fold_left (fun r kv => answer_read (rd_waiter (snd kv)) (Fail err) r) (map_to_list (rs_reads x)) r.

(** [fail]: the sections run one after the other; once the first has set the
    error nothing is registered any more. *)
Definition fail (err : replica_error) (r : Replica) : Replica :=
  let r := match l_fatal (r_life r) with None => set_fatal r err | Some _ => r end in
  let r := requestFatalStop r in
  let r := signalApplied r in
  finishReads err (finishPending err r).

Definition removeWaiter (id : UUID) (waiterID c : Z) (r : Replica) : Replica :=
  let p := r_proposals r in
  match p_pending p !! id with
  | None => r
  | Some proposal =>
      if bool_decide (pp_waiters proposal !! waiterID = Some c) then
        let waiters := delete waiterID (pp_waiters proposal) in
        let left := mkProposal (pp_encoded proposal) waiters (pp_nextWaiter proposal) (pp_submitted proposal) in
        let r := set_proposals r (mkProposals (<[id := left]> (p_pending p)) (p_bytes p)) in
        if bool_decide (waiters = ∅) && negb (pp_submitted proposal) then snd (removePendingLocked id r) else r
      else r
  end.

Section replica.
Context {canon : Canonicalizer} {pb : Protobuf}.

(** The body of the loop of [notify]. *)
Definition notify_one (r : Replica) (kr : UUID * Result) : Replica :=
  let '(id, result) := kr in
  match removePendingLocked id r with
  | (None, r) => r
  | (Some pending, r) =>
      let delivery := match EncodeCommand (res_Command result) with
                      | Ok encoded => if beq (pp_encoded pending) encoded then Ok result else Fail OperationConflict
                      | Fail _ => Fail OperationConflict
                      end in
      answer_all delivery pending r
  end.
Definition notify (results : gmap UUID Result) (r : Replica) : Replica := fold_left notify_one (map_to_list results) r.

Definition notify_error (r : Replica) (kr : UUID * command_error) : Replica :=
  match removePendingLocked (fst kr) r with
  | (None, r) => r
  | (Some pending, r) => answer_all (Fail (ErrReplicaCommand (snd kr))) pending r
  end.
Definition notifyErrors (conflicts : gmap UUID command_error) (r : Replica) : Replica :=
  fold_left notify_error (map_to_list conflicts) r.

Definition failPending (id : UUID) (encoded : bytes) (err : replica_error) (r : Replica) : Replica :=
  match p_pending (r_proposals r) !! id with
  | None => r
  | Some proposal =>
      if negb (beq (pp_encoded proposal) encoded) then r
      else match removePendingLocked id r with
           | (Some proposal, r) => answer_all (Fail err) proposal r
           | (None, r) => r
           end
  end.

(** *** [Propose], section by section *)

Inductive Outcome : Type := OutcomeSuccess | OutcomePreconditionFailed | OutcomeVersionConflict | OutcomeNotLeader | OutcomeAmbiguous.

(** [ProposalResult], with the zero value of a field as [None], and the error. *)
Record proposal_answer : Type := mkAnswer { pa_outcome : option Outcome; pa_applied : option Result; pa_err : option replica_error }.
Definition refused (e : replica_error) : proposal_answer := mkAnswer None None (Some e).

Definition answered (result : Result) : proposal_answer :=
  mkAnswer (Some (if PreconditionFailed result then OutcomePreconditionFailed
                  else if VersionConflict result then OutcomeVersionConflict else OutcomeSuccess)) (Some result) None.

(** Up to the lookup of a stored result; [ctx] tells a context that is not nil. *)
Definition propose_start (ctx : bool) (command : Command) (r : Replica) : proposal_answer + bytes :=
  if negb ctx then inl (refused (ErrReplica "nil proposal context"))
  else match readOpen r with
       | Fail e => inl (refused e)
       | Ok _ => match EncodeCommand command with
                 | Fail e => inl (refused (ErrReplicaCommand e))
                 | Ok encoded => inr encoded
                 end
       end.

(** The lookup, under [stateMu]. *)
Definition propose_lookup (command : Command) (r : Replica) : option Result := results (r_state r) !! OperationID command.

(** The answer from a stored result, under [mu]. *)
Definition propose_cached (encoded : bytes) (existing : Result) (r : Replica) : proposal_answer :=
  match readOpen r with
  | Fail e => refused e
  | Ok _ =>
      match EncodeCommand (res_Command existing) with
      | Fail _ => refused (ErrReplicaCorrupt "result command")
      | Ok stored => if beq stored encoded then answered existing else refused OperationConflict
      end
  end.

(** The epoch that the admission has to find unchanged, under [mu]. *)
Definition propose_epoch (r : Replica) : proposal_answer + Z :=
  match readOpen r with Fail e => inl (refused e) | Ok _ => inr (r_epoch r) end.

(** The leader raft reports. *)
Definition propose_leader (lead : Z) (r : Replica) : option proposal_answer :=
  if lead =? r_id r then None else Some (mkAnswer (Some OutcomeNotLeader) None (Some ErrNotLeader)).

(** What an admitted proposal waits for: whether it is the owner, its waiter
    and the channel. *)
Record admission : Type := mkAdmission { ad_owner : bool; ad_waiter : Z; ad_channel : Z }.

(** A new waiter on the proposal. *)
Definition add_waiter (id : UUID) (proposal : pendingProposal) (owner : bool) (bytes_ : Z) (r : Replica) : Replica * (proposal_answer + admission) :=
  let waiterID := uint64 (pp_nextWaiter proposal + 1) in
  let x := r_channels r in
  let c := made x in
  let r := set_channels r (mkChannels (<[c := new_channel]> (answers x)) (fences x) (c + 1) (stuck x)) in
  let proposal := mkProposal (pp_encoded proposal) (<[waiterID := c]> (pp_waiters proposal)) waiterID (pp_submitted proposal) in
  (set_proposals r (mkProposals (<[id := proposal]> (p_pending (r_proposals r))) bytes_), inr (mkAdmission owner waiterID c)).

(** The admission, under [mu]. *)
Definition propose_admit (id : UUID) (encoded : bytes) (epoch : Z) (r : Replica) : Replica * (proposal_answer + admission) :=
  match readOpen r with
  | Fail e => (r, inl (refused e))
  | Ok _ =>
      let p := r_proposals r in
      if negb (epoch =? r_epoch r) then (r, inl (mkAnswer (Some OutcomeAmbiguous) None (Some ErrAmbiguous)))
      else if (p_bytes p <? 0) || (maxPendingProposalBytes <? p_bytes p) then
        let r := markPendingAccountingCorruptLocked r in
        (r, inl (mkAnswer None None (l_fatal (r_life r))))
      else match p_pending p !! id with
           | None =>
               if (maxPendingProposals <=? Z.of_nat (size (p_pending p))) || (maxPendingProposalBytes - p_bytes p <? len encoded)
               then (r, inl (refused Backpressure))
               else add_waiter id (mkProposal encoded ∅ 0 false) true (p_bytes p + len encoded) r
           | Some proposal =>
               if beq (pp_encoded proposal) encoded then add_waiter id proposal false (p_bytes p) r
               else (r, inl (refused OperationConflict))
           end
  end.

(** [submitProposal] up to the call of raft: whether the call is made. *)
Definition submit_begin (id : UUID) (encoded : bytes) (r : Replica) : Replica * bool :=
  let p := r_proposals r in
  match p_pending p !! id with
  | None => (r, false)
  | Some proposal =>
      if negb (beq (pp_encoded proposal) encoded) then (r, false)
      else
        let submitted := mkProposal (pp_encoded proposal) (pp_waiters proposal) (pp_nextWaiter proposal) true in
        (set_proposals r (mkProposals (<[id := submitted]> (p_pending p)) (p_bytes p)), true)
  end.

(** What [node.Propose] answers; for another error the leader that raft then
    reports decides. *)
Inductive propose_reply : Type := Accepted | NodeStopped | ProposalDropped | OtherError (lead : Z).

Definition submit_end (id : UUID) (encoded : bytes) (reply : propose_reply) (r : Replica) : Replica :=
  match reply with
  | Accepted => r
  | NodeStopped => failPending id encoded ErrStopped r
  | ProposalDropped => failPending id encoded Backpressure r
  | OtherError lead => failPending id encoded (if lead =? r_id r then ErrAmbiguous else ErrNotLeader) r
  end.

(** [awaitProposal]: a delivery is received, or the context is done. *)
Definition await_delivery (encoded : bytes) (delivery : result replica_error Result) : proposal_answer :=
  match delivery with
  | Fail ErrNotLeader => mkAnswer (Some OutcomeNotLeader) None (Some ErrNotLeader)
  | Fail ErrAmbiguous => mkAnswer (Some OutcomeAmbiguous) None (Some ErrAmbiguous)
  | Fail e => refused e
  | Ok result =>
      match EncodeCommand (res_Command result) with
      | Ok stored => if beq stored encoded then answered result else refused (ErrReplicaCorrupt "delivered result command mismatch")
      | Fail _ => refused (ErrReplicaCorrupt "delivered result command mismatch")
      end
  end.
Definition await_cancelled (id : UUID) (a : admission) (r : Replica) : Replica * proposal_answer :=
  (removeWaiter id (ad_waiter a) (ad_channel a) r, mkAnswer (Some OutcomeAmbiguous) None (Some ErrAmbiguous)).

(** *** Local reads of the state *)

Definition GetLocal (table key : bytes) (r : Replica) : result replica_error Row :=
  readOpen r;;
  readOpen r;;
  match State.get (r_state r) table key with Some row => Ok row | None => Fail ErrRowNotFound end.

Definition LookupResult (id : UUID) (r : Replica) : result replica_error (option Result) :=
  readOpen r;; readOpen r;; Ok (results (r_state r) !! id).

Definition ExportState (r : Replica) : result replica_error bytes :=
  readOpen r;; readOpen r;; map_err (fun e => ErrReplicaState (ErrDurableState e)) (exportSnapshot (r_state r)).

Definition CreateSnapshot (r : Replica) : Replica * result replica_error unit :=
  match (readOpen r;; readOpen r;;
         data ← map_err (fun e => ErrReplicaState (ErrDurableState e)) (exportSnapshot (r_state r));
         readOpen r;;
         let index := lastApplied (r_state r) in
         fail_if (index =? 0) (ErrReplica "snapshot requires a non-zero applied index");;
         fail_if (negb (commitIndex (r_disk r) =? index)) (ErrReplica "snapshot requires applied=commit");;
         term ← map_err ErrReplicaDisk (Term (r_disk r) index);
         Ok (mkPbSnapshot (confStateCopy (r_disk r)) index term data)) with
  | Fail e => (r, Fail e)
  | Ok snapshot =>
      let '(d, result) := persistLocalSnapshot (r_disk r) (Some snapshot) in
      (set_core r d (r_state r), map_err ErrReplicaDisk result)
  end.

(** *** The range catalog *)

(** [InstallRangeCatalog]; [order] is the order in which Go ranges over the
    history of the catalog in use. *)
Definition InstallRangeCatalog (catalog : option RangeCatalog) (order : list bytes) (r : Replica) : Replica * result replica_error unit :=
  match (match catalog with
         | None => Fail (ErrReplicaRange ErrCatalogCorrupt)
         | Some _ =>
             readOpen r;;
             map_err ErrReplicaRange (
               encoded ← MarshalBinary catalog;
               validated ← UnmarshalRangeCatalog encoded;
               '(validated, encoded) ← match r_catalog r with
                                       | None => Ok (validated, encoded)
                                       | Some previous =>
                                           validated ← validateCatalogReplacement (Some previous) (Some validated) order;
                                           encoded ← MarshalBinary (Some validated);
                                           Ok (validated, encoded)
                                       end;
               ValidateAgainstVoters (Some validated) (cs_Voters (confStateCopy (r_disk r)));;
               Ok (validated, encoded))
         end) with
  | Fail e => (r, Fail e)
  | Ok (validated, encoded) =>
      match persistCatalog (r_disk r) encoded with
      | (d, Fail e) => (fail (ErrReplicaDisk e) (set_core r d (r_state r)), Fail (ErrReplicaDisk e))
      | (d, Ok _) => (set_catalog (set_core r d (r_state r)) (Some validated), Ok tt)
      end
  end.

Definition RangeCatalogCopy (r : Replica) : result replica_error (option RangeCatalog) :=
  readOpen r;;
  match r_catalog r with
  | None => Ok None
  | Some catalog => map_err ErrReplicaRange (encoded ← MarshalBinary (Some catalog); copy ← UnmarshalRangeCatalog encoded; Ok (Some copy))
  end.

Definition RouteRange (key rangeID : bytes) (generation ownerEpoch groupID : Z) (r : Replica) : result replica_error RangeDescriptor :=
  catalog ← RangeCatalogCopy r;
  match catalog with
  | None => Fail (ErrReplicaRange ErrCatalogCorrupt)
  | Some _ => map_err ErrReplicaRange (RouteAt catalog key rangeID generation ownerEpoch groupID)
  end.

(** *** Closing *)

(** [Close] up to the wait for the Ready loop, and after it. *)
Definition close_begin (r : Replica) : Replica * result replica_error unit :=
  if l_closed (r_life r) then (r, Fail ErrStopped)
  else (stopTransport (finishReads ErrStopped (finishPending ErrStopped (set_closed r))), Ok tt).

Definition disk_close (r : Replica) : Replica :=
  let l := r_life r in
  set_life r (mkLife (l_closed l) (l_fatal l) (l_fatalStop l) (l_stopLoop l) (l_nodeStopped l) true (l_notices l)).
Definition close_end (r : Replica) : Replica := disk_close (stopNode r).
End replica.
