(* ===== verification/Read.v ===== *)
(** Linearizable reads (src/internal/raftstore/read.go): the contexts raft
    carries, the table of waiting reads, and the sections of a read that run
    under one lock. *)

From Stdlib Require Import ZArith Lia.
From stdpp Require Import base list gmap.
From S2P Require Import Prelude GoStd Uuidv7 EngineOps Range Command State Snapshot Disk Durable Replica.

Local Open Scope Z_scope.

Definition readMagic : bytes := lit "VBR4".
Definition readContextBytes : Z := 4 + 16 + 8 + 4.
Definition maxPendingReads : Z := 1024.
Definition maxPendingReadByte : Z := 256 * 2 ^ 10.
Definition maxRetiredReads : Z := 2048.

(** ** Contexts *)

(** The first 28 bytes of a context. *)
Definition read_head (nonce : bytes) (sequence : Z) : bytes := readMagic ++ nonce ++ be 8 sequence.

Definition encodeReadContext (nonce : bytes) (sequence : Z) : result replica_error bytes :=
  if negb (len nonce =? 16) || (sequence =? 0) then Fail ErrReadContext
  else Ok (read_head nonce sequence ++ be 4 (crc32.Checksum (read_head nonce sequence))).

Definition decodeReadContext (encoded nonce : bytes) : result replica_error unit :=
  if negb (len encoded =? readContextBytes) || negb (beq (sub encoded 0 4) readMagic) || negb (len nonce =? 16)
     || negb (beq (sub encoded 4 20) nonce) then Fail ErrReadContext
  else if (un_be (sub encoded 20 28) =? 0) || negb (crc32.Checksum (sub encoded 0 28) =? un_be (sub encoded 28 32))
  then Fail ErrReadContext
  else Ok tt.

Definition readDescriptorBytes (d : RangeDescriptor) : Z :=
  len (RangeID d) + len (Start d) + len (end_bytes d) + len (Voters d) * 8 + 40.

(** ** Routes *)

(** The route of the key and the version of the catalog, under [catalogMu]. *)
Definition read_route (key : bytes) (r : Replica) : result replica_error (RangeDescriptor * Z) :=
  match r_catalog r with
  | None => Fail (ErrReplicaRange ErrCatalogCorrupt)
  | Some _ => descriptor ← map_err ErrReplicaRange (Route (r_catalog r) key); Ok (descriptor, Range.Version (r_catalog r))
  end.

Definition currentRoute (key rangeID : bytes) (generation ownerEpoch groupID : Z) (r : Replica)
    : result replica_error (RangeDescriptor * Z) :=
  match r_catalog r with
  | None => Fail (ErrReplicaRange ErrCatalogCorrupt)
  | Some _ =>
      descriptor ← map_err ErrReplicaRange (RouteAt (r_catalog r) key rangeID generation ownerEpoch groupID);
      Ok (descriptor, Range.Version (r_catalog r))
  end.

Definition validateReadRoute (key : bytes) (descriptor : RangeDescriptor) (catalogVersion : Z) (r : Replica) : result replica_error unit :=
  let moved newest := ErrReplicaRange (ErrRangeMoved
    (mkMoved (RangeID descriptor) (Generation descriptor) (OwnerEpoch descriptor) (GroupID descriptor) newest)) in
  match r_catalog r with
  | None => Fail (moved [])
  | Some _ =>
      current ← map_err ErrReplicaRange
        (RouteAt (r_catalog r) key (RangeID descriptor) (Generation descriptor) (OwnerEpoch descriptor) (GroupID descriptor));
      fail_if (negb (Range.Version (r_catalog r) =? catalogVersion) || negb (EqualRangeDescriptor current descriptor)) (moved [current])
  end.

(** What a caller asks for: the current route of the key, or the route of its
    own coordinates. *)
Inductive read_target : Type :=
| Current
| At (rangeID : bytes) (generation ownerEpoch groupID : Z).

(** [ReadIndex] and [ReadIndexAt] up to [readIndexAt]. *)
Definition read_start (ctx : bool) (table key : bytes) (target : read_target) (r : Replica) : result replica_error (RangeDescriptor * Z) :=
  fail_if (negb ctx) (ErrReplica "nil read context");;
  fail_if (negb (validTable table) || negb (validKey key)) (ErrReplicaCommand (ErrInvalidCommand "coordinates"));;
  readOpen r;;
  match target with
  | Current => read_route key r
  | At rangeID generation ownerEpoch groupID => currentRoute key rangeID generation ownerEpoch groupID r
  end.

(** ** The table of waiting reads *)

(** A new context, the table entry and its channel. *)
Definition admitRead (table key : bytes) (descriptor : RangeDescriptor) (r : Replica) : Replica * result replica_error (bytes * Z) :=
  match readOpen r with
  | Fail e => (r, Fail e)
  | Ok _ =>
      let x := r_readers r in
      if maxPendingReads <=? Z.of_nat (size (rs_reads x)) then (r, Fail Backpressure)
      else if rs_seq x =? max_uint64 then (r, Fail ErrReadContextExhausted)
      else
        let sequence := rs_seq x + 1 in
        let r := set_readers r (mkReaders (rs_reads x) (rs_retired x) (rs_nonce x) sequence (rs_bytes x)) in
        match encodeReadContext (rs_nonce x) sequence with
        | Fail e => (r, Fail e)
        | Ok encoded =>
            let retained := len encoded + len table + len key + readDescriptorBytes descriptor in
            if (maxPendingReadByte <? retained) || (maxPendingReadByte - retained <? rs_bytes x) then (r, Fail Backpressure)
            else
              let cs := r_channels r in
              let c := made cs in
              let pending := mkPendingRead table key (Clone descriptor) retained c in
              let r := set_channels r (mkChannels (answers cs) (<[c := new_channel]> (fences cs)) (c + 1) (stuck cs)) in
              (set_readers r (mkReaders (<[encoded := pending]> (rs_reads x)) (rs_retired x) (rs_nonce x) sequence (rs_bytes x + retained)),
               Ok (encoded, c))
        end
  end.

(** [retireReadLocked]; [old] is the element a range over the set yields first. *)
Definition retireReadLocked (encoded old : bytes) (retired : gset bytes) : gset bytes :=
  let retired := {[encoded]} ∪ retired in
  if maxRetiredReads <? Z.of_nat (size retired) then retired ∖ {[old]} else retired.

(** Takes a read out of the table. *)
Definition release_read (encoded : bytes) (pending : pendingRead) (x : readers) : readers :=
  mkReaders (delete encoded (rs_reads x)) (rs_retired x) (rs_nonce x) (rs_seq x)
    (if rs_bytes x <? rd_bytes pending then 0 else rs_bytes x - rd_bytes pending).

Definition cancelRead (encoded old : bytes) (r : Replica) : Replica :=
  let x := r_readers r in
  match rs_reads x !! encoded with
  | None => r
  | Some pending =>
      let x := release_read encoded pending x in
      set_readers r (mkReaders (rs_reads x) (retireReadLocked encoded old (rs_retired x)) (rs_nonce x) (rs_seq x) (rs_bytes x))
  end.

(** [raft.ReadState] *)
Record ReadState : Type := mkReadState { rst_Index : Z; rst_RequestCtx : bytes }.

Definition deliverReadState (readState : ReadState) (r : Replica) : Replica :=
  let encoded := rst_RequestCtx readState in
  let x := r_readers r in
  match decodeReadContext encoded (rs_nonce x) with
  | Fail _ => fail (ErrReplicaCorrupt "read state") r
  | Ok _ =>
      match rs_reads x !! encoded with
      | Some pending =>
          let r := set_readers r (release_read encoded pending x) in
          answer_read (rd_waiter pending)
            (if rst_Index readState =? 0 then Fail (ErrReadIndexUnavailable "") else Ok (rst_Index readState)) r
      | None =>
          if bool_decide (encoded ∈ rs_retired x) then r
          else fail (ErrReplicaCorrupt "unknown read state context") r
      end
  end.

(** ** The sections of a read after its admission *)

(** The check of [waitApplied], under [stateMu]. *)
Definition applied_reached (index : Z) (r : Replica) : bool := index <=? lastApplied (r_state r).

(** Its second section, under [mu]: an error, or the notice to wait for. *)
Definition applied_notice (r : Replica) : result replica_error Z :=
  match l_fatal (r_life r) with
  | Some e => Fail e
  | None => if l_closed (r_life r) then Fail ErrStopped else Ok (l_notices (r_life r))
  end.

(** The row, under [stateMu]. *)
Definition read_row_locked (table key : bytes) (r : Replica) : result replica_error Row :=
  readOpen r;;
  match State.get (r_state r) table key with Some row => Ok row | None => Fail ErrRowNotFound end.
