(* ===== verification/ReadyLoop.v ===== *)
(** The Ready loop, membership changes and the opening of a replica
    (src/internal/raftstore/replica.go).

    raft is outside: what its calls answer are arguments, what the loop tells
    it and the transport are [action]s.  The body of the loop is cut into
    [job]s, one for each stretch that runs under one lock or makes one call;
    between two jobs other goroutines may run. *)

From Stdlib Require Import ZArith Lia.
From stdpp Require Import base list gmap sorting.
From S2P Require Import Prelude GoStd Uuidv7 EngineOps Fs Range Command State Snapshot Disk Durable Replica Read.

Local Open Scope Z_scope.

(** ** Messages of raft *)

(** [pb.ConfChangeSingle]; the types are those of raftpb. *)
Definition ConfChangeAddNode : Z := 0.
Definition ConfChangeRemoveNode : Z := 1.
Definition ConfChangeUpdateNode : Z := 2.
Definition ConfChangeAddLearnerNode : Z := 3.
Record ConfChangeSingle : Type := mkChange { cc_Type : Z; cc_NodeID : Z }.

(** [pb.ConfChange] and [pb.ConfChangeV2]; transition zero is automatic, a
    change can be a nil pointer. *)
Inductive ConfChangeI : Type :=
| ConfChange (change : ConfChangeSingle) (context : bytes)
| ConfChangeV2 (transition : Z) (changes : list (option ConfChangeSingle)) (context : bytes).

(** The wire format of membership changes. *)
Class MembershipWire : Type := {
  unmarshal_change : bytes -> option ConfChangeI;
  unmarshal_change_v2 : bytes -> option ConfChangeI
}.

Definition EntryConfChange : Z := 1.
Definition EntryConfChangeV2 : Z := 2.
Definition MsgSnap : Z := 7.
Record Message : Type := mkMessage { msg_Type : Z; msg_To : Z; msg_Snapshot : option pbSnapshot }.

(** A [Ready]: [rdy_disk] is what is persisted; a committed entry comes with
    what [ApplyConfChange] answers should it be asked; [rdy_leader] is whether
    the soft state, when there is one, says leader. *)
Record RaftReady : Type := mkRaftReady {
  rdy_disk : Ready;
  rdy_committed : list (option pbEntry * option ConfState);
  rdy_reads : list ReadState;
  rdy_leader : option bool;
  rdy_messages : list Message
}.

(** What is told to raft and to the transport. *)
Inductive action : Type :=
| Send (to : Z)
| SendSnapshot (to : Z)
| ReportUnreachable (to : Z)
| ReportSnapshot (to : Z) (finished : bool)
| AdvanceNode.

(** ** Sending *)

(** [send]; [sent] tells for each message in turn whether the transport took
    it. *)
Fixpoint send (t : transport) (messages : list Message) (sent : list bool) : list action :=
  match messages with
  | [] => []
  | message :: messages' =>
      let to := msg_To message in
      let ok := default true (head sent) in
      match t with
      | NoTransport => send t messages' sent
      | MessageTransport =>
          if msg_Type message =? MsgSnap then ReportSnapshot to false :: send t messages' sent
          else Send to :: (if ok then [] else [ReportUnreachable to]) ++ send t messages' (tail sent)
      | SnapshotTransport =>
          if msg_Type message =? MsgSnap then
            SendSnapshot to :: (if ok then [ReportSnapshot to true] else [ReportUnreachable to; ReportSnapshot to false])
            ++ send t messages' (tail sent)
          else Send to :: (if ok then [] else [ReportUnreachable to]) ++ send t messages' (tail sent)
      end
  end.

(** ** Membership *)

Definition validateCommittedConfChange (change : ConfChangeI) : option String.string :=
  match (match change with
         | ConfChange single context =>
             if negb (len context =? 0) then inl "membership context is unsupported"%string else inr [Some single]
         | ConfChangeV2 transition changes context =>
             if negb (transition =? 0) then inl "joint membership transition is outside the M3 contract"%string
             else if negb (len context =? 0) then inl "membership context is unsupported"%string
             else inr changes
         end) with
  | inl what => Some what
  | inr [Some single] =>
      if cc_NodeID single =? 0 then Some "exactly one non-zero membership change is required"%string
      else if (cc_Type single =? ConfChangeAddNode) || (cc_Type single =? ConfChangeAddLearnerNode) || (cc_Type single =? ConfChangeRemoveNode)
      then None
      else Some "unsupported membership change"%string
  | inr _ => Some "exactly one non-zero membership change is required"%string
  end.

(** What raft reports about itself. *)
Record NodeStatus : Type := mkStatus {
  ns_Lead : Z;
  ns_Commit : Z;
  ns_Voters : list (gset Z);
  ns_Learners : gset Z;
  ns_Progress : gmap Z Z
}.

(** [SubmitConfChange] up to the call of [Status]. *)
Definition submit_change_check (ctx : bool) (change : option ConfChangeI) (r : Replica) : result replica_error ConfChangeSingle :=
  fail_if (negb ctx) (ErrReplica "nil membership context");;
  match change with
  | Some (ConfChangeV2 transition [Some single] context) =>
      fail_if (negb (transition =? 0)) (ErrReplica "only automatic one-change membership transitions are supported");;
      fail_if (negb (len context =? 0)) (ErrReplica "membership context is unsupported");;
      fail_if (cc_NodeID single =? 0) (ErrReplica "membership node id must be non-zero");;
      fail_if (negb ((cc_Type single =? ConfChangeAddNode) || (cc_Type single =? ConfChangeAddLearnerNode) || (cc_Type single =? ConfChangeRemoveNode)))
        (ErrReplica "unsupported membership change");;
      fail_if ((cc_Type single =? ConfChangeAddLearnerNode) && match r_transport r with NoTransport => true | _ => false end)
        (ErrReplica "adding a learner requires transport");;
      readOpen r;;
      Ok single
  | _ => Fail (ErrReplica "exactly one non-nil membership change is required")
  end.

(** The checks against what raft reports. *)
Definition submit_change_status (single : ConfChangeSingle) (status : NodeStatus) (r : Replica) : result replica_error unit :=
  let id := cc_NodeID single in
  fail_if (negb (ns_Lead status =? r_id r)) ErrNotLeader;;
  (if cc_Type single =? ConfChangeAddNode then
     fail_if (negb (bool_decide (id ∈ ns_Learners status))) (ErrReplica "only a configured learner may be promoted");;
     fail_if (match ns_Progress status !! id with Some m => m <? ns_Commit status | None => true end)
       (ErrReplica "learner is not caught up to the committed index")
   else Ok tt);;
  if cc_Type single =? ConfChangeAddLearnerNode then
    fail_if (existsb (fun voters => bool_decide (id ∈ voters)) (ns_Voters status)) (ErrReplica "cannot demote an existing voter to learner");;
    fail_if (bool_decide (id ∈ ns_Learners status)) (ErrReplica "learner is already configured")
  else Ok tt.

(** [SubmitConfChange] up to the proposal: [r] is the replica when it starts
    and [r'] after [Status] has answered. *)
Definition SubmitConfChange (ctx : bool) (change : option ConfChangeI) (status : NodeStatus) (r r' : Replica) : result replica_error ConfChangeSingle :=
  single ← submit_change_check ctx change r;
  submit_change_status single status r';;
  readOpen r';;
  Ok single.

Definition single_change (kind id : Z) : option ConfChangeI := Some (ConfChangeV2 0 [Some (mkChange kind id)] []).
Definition SubmitAddLearner (id : Z) (status : NodeStatus) (r r' : Replica) : result replica_error ConfChangeSingle :=
  fail_if (id =? 0) (ErrReplica "learner node id must be non-zero");;
  SubmitConfChange true (single_change ConfChangeAddLearnerNode id) status r r'.
Definition SubmitPromote (id : Z) (status : NodeStatus) (r r' : Replica) : result replica_error ConfChangeSingle :=
  fail_if (id =? 0) (ErrReplica "promoted node id must be non-zero");;
  SubmitConfChange true (single_change ConfChangeAddNode id) status r r'.
Definition SubmitRemove (id : Z) (status : NodeStatus) (r r' : Replica) : result replica_error ConfChangeSingle :=
  fail_if (id =? 0) (ErrReplica "removed node id must be non-zero");;
  SubmitConfChange true (single_change ConfChangeRemoveNode id) status r r'.

(** [WaitConfState]: the check, then the notice to wait for. *)
Definition conf_state_reached (condition : ConfState -> bool) (r : Replica) : result replica_error bool :=
  readOpen r;; Ok (condition (confStateCopy (r_disk r))).

Section loop.
Context {canon : Canonicalizer} {pb : Protobuf} {wire : MembershipWire}.

(** ** Messages from other nodes *)

Definition validateIncomingSnapshot (snapshot : option pbSnapshot) : result replica_error unit :=
  match snapshot with
  | None => Fail (ErrReplica "snapshot metadata is empty")
  | Some s =>
      fail_if ((sn_Index s =? 0) || (sn_Term s =? 0)) (ErrReplica "snapshot metadata is empty");;
      match validateConfState (Some (sn_ConfState s)) with
      | Some what => Fail (ErrReplica what)
      | None =>
          decoded ← map_err (fun e => ErrReplicaState (ErrDurableState e)) (decodeSnapshot (sn_Data s));
          fail_if (negb (lastApplied decoded =? sn_Index s)) (ErrReplica "snapshot data index mismatch")
      end
  end.

(** [Step] up to the call of raft. *)
Definition Step (ctx : bool) (message : option Message) (r : Replica) : Replica * result replica_error unit :=
  if negb ctx then (r, Fail (ErrReplica "nil step context"))
  else match message with
       | None => (r, Fail (ErrReplica "nil raft message"))
       | Some m =>
           match readOpen r with
           | Fail e => (r, Fail e)
           | Ok _ =>
               if msg_Type m =? MsgSnap then
                 match validateIncomingSnapshot (msg_Snapshot m) with
                 | Fail _ => (fail (ErrReplicaCorrupt "incoming snapshot") r, Fail (ErrReplicaCorrupt "incoming snapshot"))
                 | Ok _ => (r, Ok tt)
                 end
               else (r, Ok tt)
           end
       end.

(** [Tick] and [Campaign]: whether raft is called. *)
Definition Tick (r : Replica) : bool := match l_fatal (r_life r) with None => negb (l_closed (r_life r)) | Some _ => false end.
Definition Campaign (ctx : bool) (r : Replica) : result replica_error unit :=
  fail_if (negb ctx) (ErrReplica "nil campaign context");; readOpen r.

(** ** The loop *)

Inductive job : Type :=
| Persist (rd : Ready)
| Install (snapshot : pbSnapshot)
| ApplyEntry (entry : option pbEntry) (conf : option ConfState)
| Notify (results : gmap UUID Result)
| NotifyErrors (conflicts : gmap UUID command_error)
| SignalApplied
| CheckFatal
| DeliverRead (readState : ReadState)
| ObserveSoftState
| FinishPending
| SendMessages (messages : list Message)
| Advance.

(** The work of one [Ready] in order. *)
Definition ready_jobs (rd : RaftReady) : list job :=
  Persist (rdy_disk rd)
  :: (if IsEmptySnap (rd_Snapshot (rdy_disk rd)) then [] else [Install (rd_Snapshot (rdy_disk rd)); SignalApplied])
  ++ map (fun e => ApplyEntry (fst e) (snd e)) (rdy_committed rd)
  ++ concat (map (fun s => [DeliverRead s; CheckFatal]) (rdy_reads rd))
  ++ match rdy_leader rd with
     | None => []
     | Some false => [ObserveSoftState; FinishPending; CheckFatal]
     | Some true => [ObserveSoftState]
     end
  ++ [SendMessages (rdy_messages rd); Advance].

(** The membership that an entry leads to. *)
Definition entry_conf (entry : pbEntry) (conf : option ConfState) : result replica_error (option ConfState * Z) :=
  let decode change := match change with
                       | None => Fail (ErrReplica "unmarshal conf change")
                       | Some c => match validateCommittedConfChange c with
                                   | Some _ => Fail (ErrReplicaCorrupt "committed conf change")
                                   | None => Ok (conf, pe_Index entry)
                                   end
                       end in
  if pe_Type entry =? EntryConfChange then decode (unmarshal_change (pe_Data entry))
  else if pe_Type entry =? EntryConfChangeV2 then decode (unmarshal_change_v2 (pe_Data entry))
  else Ok (None, 0).

(** One job: the replica after it and the jobs that come before the remaining
    ones, or [None] when the loop ends. *)
Definition do_job (j : job) (sent : list bool) (r : Replica) : Replica * option (list job) * list action :=
  match j with
  | Persist rd =>
      match persistReady (r_disk r) rd with
      | (d, Fail e) => (fail (ErrReplicaDisk e) (set_core r d (r_state r)), None, [])
      | (d, Ok _) => (set_core r d (r_state r), Some [], [])
      end
  | Install snapshot =>
      match installSnapshot (r_disk r) (r_state r) snapshot with
      | (d, s, Fail e) => (fail (ErrReplicaState e) (set_core r d s), None, [])
      | (d, s, Ok _) => (set_core r d s, Some [], [])
      end
  | ApplyEntry None _ => (fail (ErrReplicaCorrupt "nil committed entry") r, None, [])
  | ApplyEntry (Some entry) conf =>
      match entry_conf entry conf with
      | Fail e => (fail e r, None, [])
      | Ok (conf, confIndex) =>
          match apply (r_disk r) (r_state r) [entry] conf confIndex with
          | (d, s, Fail e) => (fail (ErrReplicaState e) (set_core r d s), None, [])
          | (d, s, Ok (results, conflicts)) =>
              (set_core r d s, Some [Notify results; NotifyErrors conflicts; SignalApplied; CheckFatal], [])
          end
      end
  | Notify results => (notify results r, Some [], [])
  | NotifyErrors conflicts => (notifyErrors conflicts r, Some [], [])
  | SignalApplied => (signalApplied r, Some [], [])
  | CheckFatal => (r, match fatalState r with None => Some [] | Some _ => None end, [])
  | DeliverRead readState => (deliverReadState readState r, Some [], [])
  | ObserveSoftState => (observeSoftState r, Some [], [])
  | FinishPending => (finishPending ErrAmbiguous r, Some [], [])
  | SendMessages messages => (r, Some [], send (r_transport r) messages sent)
  | Advance => (r, Some [], [AdvanceNode])
  end.

(** A whole [Ready] without interference: the replica, whether the loop goes
    on, and the actions.  A job is followed by at most four others. *)
Fixpoint run_jobs (fuel : nat) (jobs : list job) (sent : list bool) (r : Replica) : Replica * bool * list action :=
  match fuel, jobs with
  | S fuel', j :: jobs' =>
      match do_job j sent r with
      | (r, None, acts) => (r, false, acts)
      | (r, Some more, acts) =>
          let '(r, on, acts') := run_jobs fuel' (more ++ jobs') sent r in (r, on, acts ++ acts')
      end
  | _, _ => (r, true, [])
  end.
Definition handle_ready (rd : RaftReady) (sent : list bool) (r : Replica) : Replica * bool * list action :=
  run_jobs (5 * length (ready_jobs rd)) (ready_jobs rd) sent r.
End loop.
