(* ===== verification/ReplicaOpen.v ===== *)
(** Opening a replica and its diagnostics (src/internal/raftstore/replica.go):
    the bootstrap peers, the recovery of disk, state and snapshot, the fresh
    read nonce, the catalog, and whether raft starts or restarts. *)

From Stdlib Require Import ZArith Lia.
From stdpp Require Import base list gmap sorting.
From S2P Require Import Prelude GoStd Uuidv7 EngineOps Fs Range Command State Snapshot Disk Durable Replica Read ReadyLoop.

Local Open Scope Z_scope.

(** ** Bootstrap peers *)

(** [raft.Peer] *)
Record Peer : Type := mkPeer { peer_ID : Z; peer_Context : bytes }.

(** The loop of [canonicalPeers]: the canonical peers, or the first error. *)
Fixpoint check_peers (seen : gset Z) (peers : list Peer) : result replica_error unit :=
  match peers with
  | [] => Ok tt
  | peer :: peers' =>
      fail_if (peer_ID peer =? 0) (ErrReplica "bootstrap peer id must be non-zero");;
      fail_if (negb (len (peer_Context peer) =? 0)) (ErrReplica "bootstrap peer context is unsupported");;
      fail_if (bool_decide (peer_ID peer ∈ seen)) (ErrReplica "duplicate bootstrap peer id");;
      check_peers ({[peer_ID peer]} ∪ seen) peers'
  end.

Definition sorted_ids (peers : list Peer) : list Z := merge_sort Z.le (map peer_ID peers).

Definition canonicalPeers (self : Z) (peers : list Peer) : result replica_error (list Peer) :=
  fail_if (bool_decide (peers = [])) (ErrReplica "at least one bootstrap peer is required");;
  check_peers ∅ peers;;
  fail_if (negb (existsb (fun p => peer_ID p =? self) peers)) (ErrReplica "bootstrap peers must include local node");;
  Ok (map (fun id => mkPeer id []) (sorted_ids peers)).

Definition validatePeers (self : Z) (peers : list Peer) : result replica_error unit := canonicalPeers self peers;; Ok tt.

Definition sameBootstrapPeers (stored : list Z) (peers : list Peer) : bool :=
  (len stored =? len peers) && bool_decide (stored = sorted_ids peers).

(** ** Opening *)

Record ReplicaOptions : Type := mkReplicaOptions {
  o_ID : Z;
  o_Dir : bytes;
  o_Peers : list Peer;
  o_Transport : transport;
  o_ElectionTick : Z;
  o_HeartbeatTick : Z
}.

(** The options with their defaults. *)
Definition open_options (o : ReplicaOptions) : result replica_error ReplicaOptions :=
  fail_if (o_ID o =? 0) (ErrReplica "node id is required");;
  fail_if (bool_decide (o_Dir o = [])) (ErrReplica "data directory is required");;
  fail_if ((o_ElectionTick o <? 0) || (o_HeartbeatTick o <? 0)) (ErrReplica "tick values cannot be negative");;
  let election := if o_ElectionTick o =? 0 then 10 else o_ElectionTick o in
  let heartbeat := if o_HeartbeatTick o =? 0 then 1 else o_HeartbeatTick o in
  fail_if (election <=? heartbeat) (ErrReplica "election tick must be greater than heartbeat tick");;
  peers ← (if bool_decide (o_Peers o = []) then Ok []
           else
             peers ← canonicalPeers (o_ID o) (o_Peers o);
             fail_if ((1 <? len peers) && match o_Transport o with NoTransport => true | _ => false end)
               (ErrReplica "multi-peer bootstrap requires transport");;
             Ok peers);
  Ok (mkReplicaOptions (o_ID o) (o_Dir o) peers (o_Transport o) election heartbeat).

Section opening.
Context {canon : Canonicalizer} {pb : Protobuf}.

(** The state of the records; a durable snapshot ahead of it is installed. *)
Definition open_state (d : diskStore) : result replica_error (diskStore * logicalState) :=
  s ← map_err ErrReplicaState (load_state d);
  snapshot ← map_err ErrReplicaDisk (disk_Snapshot d);
  if lastApplied s <? sn_Index snapshot then
    match installSnapshot d s snapshot with
    | (d, s, Ok _) => Ok (d, s)
    | (_, _, Fail e) => Fail (ErrReplicaState e)
    end
  else Ok (d, s).

(** Whether the peers given fit what the store knows. *)
Definition open_peers (o : ReplicaOptions) (d : diskStore) : result replica_error unit :=
  let fresh := negb (hadNodeID d) in
  let incomplete := bootstrapIncomplete d in
  let none := match o_Transport o with NoTransport => true | _ => false end in
  fail_if ((fresh || incomplete) && bool_decide (o_Peers o = [])) (ErrReplica "initial replica requires peers");;
  fail_if (negb fresh && negb incomplete && negb (bool_decide (o_Peers o = []))) (ErrReplica "bootstrap peers are only valid on a new store");;
  if fresh || incomplete then
    validatePeers (o_ID o) (o_Peers o);;
    fail_if (negb (bool_decide (bootstrapPeers d = [])) && negb (sameBootstrapPeers (bootstrapPeers d) (o_Peers o)))
      (ErrReplica "bootstrap peers do not match identity-only store");;
    fail_if ((1 <? len (o_Peers o)) && none) (ErrReplica "multi-peer bootstrap requires transport")
  else
    let c := confState d in
    fail_if ((1 <? len (cs_Voters c) + len (cs_VotersOutgoing c) + len (cs_Learners c) + len (cs_LearnersNext c)) && none)
      (ErrReplica "multi-peer restart requires transport").

(** The identity of a new store. *)
Definition open_identity (o : ReplicaOptions) (d : diskStore) : result replica_error diskStore :=
  if negb (hadNodeID d) then
    match persistIdentityAndBootstrap d (map (fun p => (peer_ID p, peer_Context p)) (o_Peers o)) with
    | (d, Ok _) => Ok d
    | (_, Fail e) => Fail (ErrReplicaDisk e)
    end
  else Ok d.

Definition open_catalog (d : diskStore) : result replica_error (option RangeCatalog) :=
  if bool_decide (catalogCopy d = []) then Ok None
  else
    catalog ← map_err ErrReplicaRange (UnmarshalRangeCatalog (catalogCopy d));
    map_err ErrReplicaRange (ValidateAgainstVoters (Some catalog) (cs_Voters (confStateCopy d)));;
    Ok (Some catalog).

(** How raft is started. *)
Inductive node_start : Type := StartNode (peers : list Peer) | RestartNode (applied : Z).

(** [Open]: [names] are the files of the directory, [m] the records of the
    engine, [faults] how its writes end and [nonce] what the random source
    gives. *)
Definition Open (o : ReplicaOptions) (names : list bytes) (m : gmap bytes bytes) (faults : list outcome) (nonce : option bytes)
    : result replica_error (Replica * node_start) :=
  o ← open_options o;
  d ← map_err ErrReplicaDisk (openDisk names m faults (o_ID o));
  '(d, s) ← open_state d;
  let last := LastIndex d in
  let fresh := negb (hadNodeID d) in
  let incomplete := bootstrapIncomplete d in
  open_peers o d;;
  d ← open_identity o d;
  '(d, readNonce) ← match rotateReadNonce d nonce with
                    | (d, Ok n) => Ok (d, n)
                    | (_, Fail e) => Fail (ErrReplicaDisk e)
                    end;
  catalog ← open_catalog d;
  let r := mkReplica d s (o_ID o) (o_Transport o) catalog 0 (mkProposals ∅ 0) (mkReaders ∅ ∅ readNonce 0 0)
             (mkChannels ∅ ∅ 0 false) (mkLife false None false false false false 0) in
  Ok (r, if (fresh || incomplete) && (last =? 0) then StartNode (o_Peers o) else RestartNode (applied_index d)).
End opening.

(** ** Diagnostics *)

(** The fatal error a diagnostic shows: [r] when the call starts and [r'] after
    raft has answered. *)
Definition Status_fatal (r r' : Replica) : option replica_error :=
  let l := r_life r in
  if l_closed l then Some (default ErrStopped (l_fatal l))
  else match l_fatal (r_life r') with
       | Some e => Some e
       | None => if l_closed (r_life r') && match l_fatal l with None => true | Some _ => false end then Some ErrStopped else l_fatal l
       end.
