(* ===== verification/ReplicaRun.v ===== *)
(** Runs of a replica: calls of [Propose], [ReadIndex] and
    [WaitAppliedAtLeast] advance section by section between the jobs of the
    Ready loop, incoming messages, installations, failures and closing, in any
    order.  What raft, contexts and the order of Go maps decide is the
    [choice] of a step. *)

From Stdlib Require Import ZArith Lia.
From stdpp Require Import base list gmap.
From S2P Require Import Prelude GoStd Uuidv7 EngineOps Range Command State Snapshot Disk Durable Replica Read ReadyLoop.

Local Open Scope Z_scope.

(** ** Calls in progress *)

(** A read after its route is known; [q_floor] is the applied index of the
    replica when the read began, for statements only. *)
Record read_query : Type := mkQuery { q_table : bytes; q_key : bytes; q_descriptor : RangeDescriptor; q_version : Z; q_floor : Z }.

Inductive client : Type :=
| PropStart (ctx : bool) (command : Command)
| PropLookup (command : Command) (encoded : bytes)
| PropCached (command : Command) (encoded : bytes) (existing : Result)
| PropEpoch (command : Command) (encoded : bytes)
| PropStatus (command : Command) (encoded : bytes) (epoch : Z)
| PropAdmit (command : Command) (encoded : bytes) (epoch : Z)
| PropAwait (command : Command) (encoded : bytes) (a : admission)
| PropDone (command : Command) (a : proposal_answer)
| Submit (id : UUID) (encoded : bytes)
| Submitting (id : UUID) (encoded : bytes)
| Submitted
| ReadStart (ctx : bool) (table key : bytes) (target : read_target)
| ReadAdmit (q : read_query)
| ReadAsk (q : read_query) (encoded : bytes) (c : Z)
| ReadAwait (q : read_query) (encoded : bytes) (c : Z)
| WaitCheck (q : option read_query) (index : Z)
| WaitNotice (q : option read_query) (index : Z)
| WaitSleep (q : option read_query) (index notice : Z)
| ReadOpen (q : read_query) (index : Z)
| ReadRow (q : read_query) (index : Z)
| ReadRoute (q : read_query) (index : Z) (row : Row)
| ReadDone (q : option read_query) (answer : result replica_error Row)
| WaitDone (answer : result replica_error unit).

Inductive choice : Type :=
| Proceed
| Lead (lead : Z)
| Reply (reply : propose_reply)
| Asked
| AskRefused (stopped : bool) (old : bytes)
| Receive
| Done (old : bytes)
| Wake.

(** The value of a channel. *)
Definition take {A} (m : gmap Z (channel A)) (c : Z) : option (A * gmap Z (channel A)) :=
  match m !! c with
  | Some (mkChannel (Some v) closed) => Some (v, <[c := mkChannel None closed]> m)
  | _ => None
  end.
Definition receive_answer (c : Z) (r : Replica) : option (result replica_error Result * Replica) :=
  let x := r_channels r in
  '(v, m) ← take (answers x) c; Some (v, set_channels r (mkChannels m (fences x) (made x) (stuck x))).
Definition receive_fence (c : Z) (r : Replica) : option (result replica_error Z * Replica) :=
  let x := r_channels r in
  '(v, m) ← take (fences x) c; Some (v, set_channels r (mkChannels (answers x) m (made x) (stuck x))).

(** How a wait ends with an error. *)
Definition wait_failed (q : option read_query) (e : replica_error) : client :=
  match q with Some _ => ReadDone q (Fail e) | None => WaitDone (Fail e) end.

Section run.
Context {canon : Canonicalizer} {pb : Protobuf} {wire : MembershipWire}.

(** One section of a call: the replica after it, where the call stands, and
    the goroutines it starts; [None] when the choice does not apply. *)
Definition client_step (cl : client) (ch : choice) (r : Replica) : option (Replica * client * list client) :=
  match cl, ch with
  | PropStart ctx command, Proceed =>
      Some (r, match propose_start ctx command r with inl a => PropDone command a | inr encoded => PropLookup command encoded end, [])
  | PropLookup command encoded, Proceed =>
      Some (r, match propose_lookup command r with
               | Some existing => PropCached command encoded existing
               | None => PropEpoch command encoded
               end, [])
  | PropCached command encoded existing, Proceed => Some (r, PropDone command (propose_cached encoded existing r), [])
  | PropEpoch command encoded, Proceed =>
      Some (r, match propose_epoch r with inl a => PropDone command a | inr epoch => PropStatus command encoded epoch end, [])
  | PropStatus command encoded epoch, Lead lead =>
      Some (r, match propose_leader lead r with Some a => PropDone command a | None => PropAdmit command encoded epoch end, [])
  | PropAdmit command encoded epoch, Proceed =>
      match propose_admit (OperationID command) encoded epoch r with
      | (r, inl a) => Some (r, PropDone command a, [])
      | (r, inr a) => Some (r, PropAwait command encoded a, if ad_owner a then [Submit (OperationID command) encoded] else [])
      end
  | PropAwait command encoded a, Receive =>
      '(delivery, r) ← receive_answer (ad_channel a) r; Some (r, PropDone command (await_delivery encoded delivery), [])
  | PropAwait command encoded a, Done _ =>
      let '(r, answer) := await_cancelled (OperationID command) a r in Some (r, PropDone command answer, [])
  | Submit id encoded, Proceed =>
      let '(r, called) := submit_begin id encoded r in Some (r, if called then Submitting id encoded else Submitted, [])
  | Submitting id encoded, Reply reply => Some (submit_end id encoded reply r, Submitted, [])
  | ReadStart ctx table key target, Proceed =>
      Some (r, match read_start ctx table key target r with
               | Fail e => ReadDone None (Fail e)
               | Ok (descriptor, version) => ReadAdmit (mkQuery table key descriptor version (lastApplied (r_state r)))
               end, [])
  | ReadAdmit q, Done _ => Some (r, ReadDone (Some q) (Fail ErrContextDone), [])
  | ReadAdmit q, Proceed =>
      match admitRead (q_table q) (q_key q) (q_descriptor q) r with
      | (r, Fail e) => Some (r, ReadDone (Some q) (Fail e), [])
      | (r, Ok (encoded, c)) => Some (r, ReadAsk q encoded c, [])
      end
  | ReadAsk q encoded c, Asked => Some (r, ReadAwait q encoded c, [])
  | ReadAsk q encoded c, AskRefused stopped old =>
      Some (cancelRead encoded old r, ReadDone (Some q) (Fail (if stopped then ErrStopped else ErrReadIndexUnavailable "raft")), [])
  | ReadAwait q encoded c, Receive =>
      '(delivery, r) ← receive_fence c r;
      Some (r, match delivery with
               | Fail e => ReadDone (Some q) (Fail e)
               | Ok index => if index =? 0 then ReadDone (Some q) (Fail (ErrReadIndexUnavailable "")) else WaitCheck (Some q) index
               end, [])
  | ReadAwait q encoded c, Done old => Some (cancelRead encoded old r, ReadDone (Some q) (Fail ErrContextDone), [])
  | WaitCheck q index, Proceed =>
      Some (r, if applied_reached index r then match q with Some q => ReadOpen q index | None => WaitDone (Ok tt) end
               else WaitNotice q index, [])
  | WaitNotice q index, Proceed =>
      Some (r, match applied_notice r with Fail e => wait_failed q e | Ok notice => WaitSleep q index notice end, [])
  | WaitSleep q index notice, Wake => if l_notices (r_life r) =? notice then None else Some (r, WaitCheck q index, [])
  | WaitSleep q index notice, Done _ => Some (r, wait_failed q ErrContextDone, [])
  | ReadOpen q index, Proceed =>
      Some (r, match readOpen r with Fail e => ReadDone (Some q) (Fail e) | Ok _ => ReadRow q index end, [])
  | ReadRow q index, Proceed =>
      Some (r, match read_row_locked (q_table q) (q_key q) r with
               | Fail e => ReadDone (Some q) (Fail e)
               | Ok row => ReadRoute q index row
               end, [])
  | ReadRoute q index row, Proceed =>
      Some (r, ReadDone (Some q) (validateReadRoute (q_key q) (q_descriptor q) (q_version q) r;; Ok row), [])
  | _, _ => None
  end.

(** The calls that can arrive. *)
Definition is_call (cl : client) : bool :=
  match cl with PropStart _ _ | ReadStart _ _ _ _ | WaitCheck None _ => true | _ => false end.

(** ** The system *)

(** The replica, the calls in progress, and the jobs left to the Ready loop:
    none between two [Ready]s, [None] when the loop has ended. *)
Record system : Type := mkSystem { s_replica : Replica; s_clients : list client; s_loop : option (list job) }.

Inductive step : system -> system -> Prop :=
| step_call r cs loop cl : is_call cl = true -> step (mkSystem r cs loop) (mkSystem r (cs ++ [cl]) loop)
| step_client r cs loop i cl ch r' cl' new : cs !! i = Some cl -> client_step cl ch r = Some (r', cl', new) ->
    step (mkSystem r cs loop) (mkSystem r' (<[i := cl']> cs ++ new) loop)
| step_ready r cs rd : l_nodeStopped (r_life r) = false -> step (mkSystem r cs (Some [])) (mkSystem r cs (Some (ready_jobs rd)))
| step_job r cs j js sent r' more acts : do_job j sent r = (r', more, acts) ->
    step (mkSystem r cs (Some (j :: js))) (mkSystem r' cs ((fun m => m ++ js) <$> more))
| step_loop_stops r cs : l_stopLoop (r_life r) = true -> step (mkSystem r cs (Some [])) (mkSystem r cs None)
| step_fatal_transport r cs loop : l_fatalStop (r_life r) = true -> step (mkSystem r cs loop) (mkSystem (stopTransport r) cs loop)
| step_fatal_node r cs : l_fatalStop (r_life r) = true -> step (mkSystem r cs None) (mkSystem (stopNode r) cs None)
| step_message r cs loop ctx m r' res : Step ctx m r = (r', res) -> step (mkSystem r cs loop) (mkSystem r' cs loop)
| step_catalog r cs loop catalog order r' res : InstallRangeCatalog catalog order r = (r', res) ->
    step (mkSystem r cs loop) (mkSystem r' cs loop)
| step_snapshot r cs loop r' res : CreateSnapshot r = (r', res) -> step (mkSystem r cs loop) (mkSystem r' cs loop)
| step_close r cs loop r' res : close_begin r = (r', res) -> step (mkSystem r cs loop) (mkSystem r' cs loop)
| step_closed r cs : l_closed (r_life r) = true -> step (mkSystem r cs None) (mkSystem (close_end r) cs None).

(** A run, newest state first. *)
Inductive run (s0 : system) : list system -> Prop :=
| run_start : run s0 [s0]
| run_step s s' past : run s0 (s :: past) -> step s s' -> run s0 (s' :: s :: past).

(** A replica as [Open] leaves it. *)
Record opened (r : Replica) : Prop := {
  op_proposals : r_proposals r = mkProposals ∅ 0;
  op_readers : exists nonce, r_readers r = mkReaders ∅ ∅ nonce 0 0;
  op_channels : r_channels r = mkChannels ∅ ∅ 0 false;
  op_life : r_life r = mkLife false None false false false false 0
}.
Definition start (r : Replica) : system := mkSystem r [] (Some []).
End run.
