(* ===== verification/ReplicaInv.v ===== *)
(** The tables of waiting proposals and reads are exact: bytes are accounted
    for, every waiting channel is registered once and still open, and every
    operation keeps or answers each waiter. *)

From Stdlib Require Import ZArith Lia.
From stdpp Require Import base list gmap.
From S2P Require Import Prelude GoStd Uuidv7 EngineOps Range Command State Snapshot Disk Durable Replica Read ReadyLoop ReplicaRun.

Local Open Scope Z_scope.

(** ** Sums and waiting channels *)

Fixpoint zsum (l : list Z) : Z := match l with [] => 0 | x :: l' => x + zsum l' end.

Lemma zsum_app l k : zsum (l ++ k) = zsum l + zsum k.
Proof. induction l; cbn; lia. Qed.

Lemma zsum_perm l k : l ≡ₚ k -> zsum l = zsum k.
Proof. induction 1; cbn; lia. Qed.

Lemma zsum_nonneg l : Forall (fun n => 0 <= n) l -> 0 <= zsum l.
Proof. induction 1; cbn; lia. Qed.

Definition waiters_of (p : pendingProposal) : list Z := map snd (map_to_list (pp_waiters p)).
Definition waiting (m : gmap UUID pendingProposal) : list Z := concat (map (fun kv => waiters_of (snd kv)) (map_to_list m)).
Definition reading (m : gmap bytes pendingRead) : list Z := map (fun kv => rd_waiter (snd kv)) (map_to_list m).
Definition retained (m : gmap bytes pendingRead) : Z := zsum (map (fun kv => rd_bytes (snd kv)) (map_to_list m)).

Lemma pending_bytes_sum m : pending_bytes m = zsum (map (fun kv => len (pp_encoded (snd kv))) (map_to_list m)).
Proof.
  unfold pending_bytes. enough (forall l n, fold_left (fun n kv => n + len (pp_encoded (snd kv))) l n
    = n + zsum (map (fun kv : UUID * pendingProposal => len (pp_encoded (snd kv))) l)) as -> by done.
  induction l as [|x l IH]; intros n; cbn [fold_left map zsum]; [lia|]. rewrite IH. lia.
Qed.

(** What a table consists of when one entry is taken out or put in. *)
Lemma table_delete {K A B} `{Countable K} (f : A -> B) (m : gmap K A) k x : m !! k = Some x ->
  map (fun kv => f (snd kv)) (map_to_list m) ≡ₚ f x :: map (fun kv => f (snd kv)) (map_to_list (delete k m)).
Proof.
  intros Hk. rewrite <- (map_to_list_delete m k x Hk). done.
Qed.

Lemma table_insert {K A B} `{Countable K} (f : A -> B) (m : gmap K A) k x : m !! k = None ->
  map (fun kv => f (snd kv)) (map_to_list (<[k := x]> m)) ≡ₚ f x :: map (fun kv => f (snd kv)) (map_to_list m).
Proof. intros Hk. by rewrite (map_to_list_insert m k x Hk). Qed.

Lemma concat_perm {A} (l k : list (list A)) : l ≡ₚ k -> concat l ≡ₚ concat k.
Proof.
  induction 1 as [|x l k Hp IH|x y l|l k j Hp IH Hp' IH']; cbn [concat]; [done|by rewrite IH| |by rewrite IH].
  rewrite !app_assoc. by rewrite (Permutation_app_comm y x).
Qed.

Lemma waiting_delete m id p : m !! id = Some p -> waiting m ≡ₚ waiters_of p ++ waiting (delete id m).
Proof. intros Hp. unfold waiting. by rewrite (concat_perm _ _ (table_delete waiters_of m id p Hp)). Qed.

Lemma waiting_insert m id p : m !! id = None -> waiting (<[id := p]> m) ≡ₚ waiters_of p ++ waiting m.
Proof. intros Hp. unfold waiting. by rewrite (concat_perm _ _ (table_insert waiters_of m id p Hp)). Qed.

Lemma waiting_update m id p p' : m !! id = Some p -> waiting (<[id := p']> m) ≡ₚ waiters_of p' ++ waiting (delete id m).
Proof. intros Hp. rewrite <- insert_delete_eq. by apply waiting_insert, lookup_delete_eq. Qed.

Lemma bytes_delete m id p : m !! id = Some p -> pending_bytes m = len (pp_encoded p) + pending_bytes (delete id m).
Proof. intros Hp. rewrite !pending_bytes_sum. by rewrite (zsum_perm _ _ (table_delete (fun p => len (pp_encoded p)) m id p Hp)). Qed.

Lemma bytes_insert m id p : m !! id = None -> pending_bytes (<[id := p]> m) = len (pp_encoded p) + pending_bytes m.
Proof. intros Hp. rewrite !pending_bytes_sum. by rewrite (zsum_perm _ _ (table_insert (fun p => len (pp_encoded p)) m id p Hp)). Qed.

Lemma bytes_update m id p p' : m !! id = Some p -> pp_encoded p' = pp_encoded p -> pending_bytes (<[id := p']> m) = pending_bytes m.
Proof. intros Hp E. rewrite <- insert_delete_eq, bytes_insert by apply lookup_delete_eq. rewrite (bytes_delete m id p Hp), E. done. Qed.

Lemma bytes_nonneg m : 0 <= pending_bytes m.
Proof. rewrite pending_bytes_sum. apply zsum_nonneg, Forall_map, Forall_true. intros x. apply len_nonneg. Qed.

Lemma waiting_elem m c : c ∈ waiting m <-> exists id p w, m !! id = Some p /\ pp_waiters p !! w = Some c.
Proof.
  unfold waiting. rewrite list_elem_of_In, in_concat. split.
  - intros (l & ([id p] & <- & Hin)%in_map_iff & Hc). apply list_elem_of_In, elem_of_map_to_list in Hin.
    apply in_map_iff in Hc as ([w c'] & <- & Hw). apply list_elem_of_In, elem_of_map_to_list in Hw. by exists id, p, w.
  - intros (id & p & w & Hp & Hw). exists (waiters_of p). split.
    + apply in_map_iff. exists (id, p). split; [done|]. by apply list_elem_of_In, elem_of_map_to_list.
    + apply in_map_iff. exists (w, c). split; [done|]. by apply list_elem_of_In, elem_of_map_to_list.
Qed.

Lemma waiters_elem p c : c ∈ waiters_of p <-> exists w, pp_waiters p !! w = Some c.
Proof.
  unfold waiters_of. rewrite list_elem_of_In, in_map_iff. split.
  - intros ([w c'] & <- & Hw). apply list_elem_of_In, elem_of_map_to_list in Hw. by exists w.
  - intros [w Hw]. exists (w, c). split; [done|]. by apply list_elem_of_In, elem_of_map_to_list.
Qed.

Lemma reading_elem m c : c ∈ reading m <-> exists encoded p, m !! encoded = Some p /\ rd_waiter p = c.
Proof.
  unfold reading. rewrite list_elem_of_In, in_map_iff. split.
  - intros ([e p] & <- & Hw). apply list_elem_of_In, elem_of_map_to_list in Hw. by exists e, p.
  - intros (e & p & Hp & <-). exists (e, p). split; [done|]. by apply list_elem_of_In, elem_of_map_to_list.
Qed.

(** ** Sending *)

(** The channels after [v] was sent on those of [cs] and they were closed. *)
Definition sent {A} (m m' : gmap Z (channel A)) (cs : list Z) (v : A) : Prop :=
  forall c, m' !! c = if bool_decide (c ∈ cs) then Some (mkChannel (Some v) true) else m !! c.

Definition open_in {A} (m : gmap Z (channel A)) (c : Z) : Prop := m !! c = Some new_channel.

Lemma send_close_open {A} (m : gmap Z (channel A)) c v : open_in m c -> send_close m c v = Some (<[c := mkChannel (Some v) true]> m).
Proof. intros H. unfold send_close. by rewrite H. Qed.

Lemma sent_cons {A} (m m' : gmap Z (channel A)) c cs v : c ∉ cs -> sent (<[c := mkChannel (Some v) true]> m) m' cs v -> sent m m' (c :: cs) v.
Proof.
  intros Hc H d. rewrite H. destruct (decide (d = c)) as [->|Hd].
  - rewrite (bool_decide_eq_false_2 (c ∈ cs)) by done. rewrite (bool_decide_eq_true_2 (c ∈ c :: cs)) by apply elem_of_cons, or_introl, eq_refl.
    by rewrite lookup_insert_eq.
  - rewrite lookup_insert_ne by done. destruct (decide (d ∈ cs)) as [Hin|Hin].
    + rewrite !bool_decide_eq_true_2; [done|by apply elem_of_cons, or_intror|done].
    + rewrite !bool_decide_eq_false_2; [done|by rewrite elem_of_cons; intros [|]|done].
Qed.

Lemma answer_list v cs : forall r, NoDup cs -> Forall (open_in (answers (r_channels r))) cs ->
  exists m, fold_left (fun r c => answer c v r) cs r = set_channels r (mkChannels m (fences (r_channels r)) (made (r_channels r)) (stuck (r_channels r)))
    /\ sent (answers (r_channels r)) m cs v.
Proof.
  induction cs as [|c cs IH]; intros r Hnd Hf.
  - exists (answers (r_channels r)). split; [by destruct r as [? ? ? ? ? ? ? ? [] ?]|]. intros d. by rewrite bool_decide_eq_false_2 by apply not_elem_of_nil.
  - apply NoDup_cons in Hnd as [Hc Hnd]. apply Forall_cons in Hf as [Hf Hfs]. cbn [fold_left]. unfold answer at 2. rewrite (send_close_open _ _ _ Hf).
    set (r1 := set_channels r _). destruct (IH r1 Hnd) as (m & -> & Hs).
    { rewrite Forall_forall in *. intros d Hd. unfold open_in, r1. cbn. rewrite lookup_insert_ne; [by apply Hfs|]. by intros ->. }
    exists m. split; [done|]. by apply sent_cons.
Qed.

Lemma answer_read_list v cs : forall r, NoDup cs -> Forall (open_in (fences (r_channels r))) cs ->
  exists m, fold_left (fun r c => answer_read c v r) cs r = set_channels r (mkChannels (answers (r_channels r)) m (made (r_channels r)) (stuck (r_channels r)))
    /\ sent (fences (r_channels r)) m cs v.
Proof.
  induction cs as [|c cs IH]; intros r Hnd Hf.
  - exists (fences (r_channels r)). split; [by destruct r as [? ? ? ? ? ? ? ? [] ?]|]. intros d. by rewrite bool_decide_eq_false_2 by apply not_elem_of_nil.
  - apply NoDup_cons in Hnd as [Hc Hnd]. apply Forall_cons in Hf as [Hf Hfs]. cbn [fold_left]. unfold answer_read at 2. rewrite (send_close_open _ _ _ Hf).
    set (r1 := set_channels r _). destruct (IH r1 Hnd) as (m & -> & Hs).
    { rewrite Forall_forall in *. intros d Hd. unfold open_in, r1. cbn. rewrite lookup_insert_ne; [by apply Hfs|]. by intros ->. }
    exists m. split; [done|]. by apply sent_cons.
Qed.

(** ** The tables *)

(** The context of a read of this boot. *)
Definition context_of (x : readers) (encoded : bytes) (n : Z) : Prop :=
  1 <= n <= rs_seq x /\ encodeReadContext (rs_nonce x) n = Ok encoded.

Record registry_ok (r : Replica) : Prop := {
  rg_bytes : p_bytes (r_proposals r) = pending_bytes (p_pending (r_proposals r));
  rg_room : p_bytes (r_proposals r) <= maxPendingProposalBytes;
  rg_count : Z.of_nat (size (p_pending (r_proposals r))) <= maxPendingProposals;
  rg_next : forall id p w c, p_pending (r_proposals r) !! id = Some p -> pp_waiters p !! w = Some c ->
    1 <= w <= pp_nextWaiter p;
  rg_made : forall id p, p_pending (r_proposals r) !! id = Some p -> 0 <= pp_nextWaiter p <= made (r_channels r);
  rg_waiting : NoDup (waiting (p_pending (r_proposals r)));
  rg_open : Forall (open_in (answers (r_channels r))) (waiting (p_pending (r_proposals r)));
  rg_read_bytes : rs_bytes (r_readers r) = retained (rs_reads (r_readers r));
  rg_read_room : rs_bytes (r_readers r) <= maxPendingReadByte;
  rg_read_count : Z.of_nat (size (rs_reads (r_readers r))) <= maxPendingReads;
  rg_read_sizes : forall encoded p, rs_reads (r_readers r) !! encoded = Some p -> 0 <= rd_bytes p;
  rg_contexts : forall encoded p, rs_reads (r_readers r) !! encoded = Some p -> exists n, context_of (r_readers r) encoded n;
  rg_seq : 0 <= rs_seq (r_readers r) <= max_uint64;
  rg_reading : NoDup (reading (rs_reads (r_readers r)));
  rg_read_open : Forall (open_in (fences (r_channels r))) (reading (rs_reads (r_readers r)));
  rg_answers : forall c, is_Some (answers (r_channels r) !! c) -> 0 <= c < made (r_channels r);
  rg_fences : forall c, is_Some (fences (r_channels r) !! c) -> 0 <= c < made (r_channels r);
  rg_channels : 0 <= made (r_channels r);
  rg_free : stuck (r_channels r) = false
}.

(** Nothing waits on a replica that is closed or has failed. *)
Definition stopped (r : Replica) : Prop := l_closed (r_life r) = true \/ is_Some (l_fatal (r_life r)).
Definition quiet (r : Replica) : Prop := stopped r -> p_pending (r_proposals r) = ∅ /\ rs_reads (r_readers r) = ∅.

Lemma opened_registry r : opened r -> registry_ok r /\ quiet r.
Proof.
  intros [E1 (nonce & E2) E3 E4]. split.
  - split; rewrite ?E1, ?E2, ?E3; cbn; try done; try lia; try apply NoDup_nil_2; try (intros c [x Hx]; done).
  - intros [Hc|[e He]]; rewrite E4 in *; done.
Qed.

(** ** Progress *)

Definition delivered {A} (m : gmap Z (channel A)) (c : Z) (v : A) : Prop := m !! c = Some (mkChannel (Some v) true).

Definition same_tables (r r' : Replica) : Prop :=
  r_proposals r' = r_proposals r /\ r_readers r' = r_readers r /\ r_channels r' = r_channels r.

Section moves.
Context {canon : Canonicalizer} {pb : Protobuf} {wire : MembershipWire}.
(** What is known of a result that is delivered for an operation. *)
Context (K : UUID -> Result -> Prop).

Definition good (id : UUID) (encoded : bytes) (v : result replica_error Result) : Prop :=
  forall res, v = Ok res -> EncodeCommand (res_Command res) = Ok encoded /\ K id res.

(** Every waiter stays registered or is answered, and answers stay; channels
    of [X] are left to their own goroutine. *)
Record progress (X : Z -> Prop) (r r' : Replica) : Prop := {
  pg_waiter : forall id p w c, p_pending (r_proposals r) !! id = Some p -> pp_waiters p !! w = Some c -> ~ X c ->
    (exists p', p_pending (r_proposals r') !! id = Some p' /\ pp_waiters p' !! w = Some c /\ pp_encoded p' = pp_encoded p)
    \/ exists v, delivered (answers (r_channels r')) c v /\ good id (pp_encoded p) v;
  pg_answer : forall c v, delivered (answers (r_channels r)) c v -> ~ X c -> delivered (answers (r_channels r')) c v;
  pg_read : forall encoded p, rs_reads (r_readers r) !! encoded = Some p -> ~ X (rd_waiter p) ->
    rs_reads (r_readers r') !! encoded = Some p \/ exists v, delivered (fences (r_channels r')) (rd_waiter p) v;
  pg_fence : forall c v, delivered (fences (r_channels r)) c v -> ~ X c -> delivered (fences (r_channels r')) c v;
  pg_context : forall encoded n, context_of (r_readers r) encoded n -> context_of (r_readers r') encoded n
    /\ forall p, rs_reads (r_readers r') !! encoded = Some p -> rs_reads (r_readers r) !! encoded = Some p;
  pg_made : made (r_channels r) <= made (r_channels r')
}.

Definition nobody : Z -> Prop := fun _ => False.

Definition moves (X : Z -> Prop) (r r' : Replica) : Prop := registry_ok r -> registry_ok r' /\ progress X r r'.

Lemma progress_same X r r' : same_tables r r' -> progress X r r'.
Proof.
  intros (E1 & E2 & E3). split; rewrite ?E1, ?E2, ?E3; try done.
  - intros id p w c Hp Hw _. left. by exists p.
  - intros encoded p Hp _. by left.
Qed.

Lemma same_tables_registry r r' : same_tables r r' -> registry_ok r -> registry_ok r'.
Proof. intros (E1 & E2 & E3) []. by split; rewrite ?E1, ?E2, ?E3. Qed.

Lemma moves_same X r r' : same_tables r r' -> moves X r r'.
Proof. intros E H. split; [by apply (same_tables_registry r)|by apply progress_same]. Qed.

Lemma progress_trans X r1 r2 r3 : progress X r1 r2 -> progress X r2 r3 -> progress X r1 r3.
Proof.
  intros [A1 A2 A3 A4 A6 A5] [B1 B2 B3 B4 B6 B5]. split; [| | | | |lia].
  - intros id p w c Hp Hw Hx. destruct (A1 id p w c Hp Hw Hx) as [(p' & Hp' & Hw' & E)|(v & Hv & Hg)].
    + destruct (B1 id p' w c Hp' Hw' Hx) as [(p2 & H1 & H2 & H3)|(v & H1 & H2)].
      * left. exists p2. split; [done|]. split; [done|]. by rewrite H3.
      * right. exists v. split; [done|]. by rewrite <- E.
    + right. exists v. split; [by apply B2|done].
  - intros c v Hv Hx. by apply B2; [apply A2|].
  - intros e p Hp Hx. destruct (A3 e p Hp Hx) as [Hp'|[v Hv]]; [by apply B3|]. right. exists v. by apply B4.
  - intros c v Hv Hx. by apply B4; [apply A4|].
  - intros e n Hn. destruct (A6 e n Hn) as [Hn' Hk]. destruct (B6 e n Hn') as [Hn2 Hk']. split; [done|]. auto.
Qed.

Lemma moves_trans X r1 r2 r3 : moves X r1 r2 -> moves X r2 r3 -> moves X r1 r3.
Proof. intros H1 H2 H. destruct (H1 H) as [Hr P1]. destruct (H2 Hr) as [Hr' P2]. split; [done|]. by apply (progress_trans X r1 r2). Qed.

Lemma moves_refl X r : moves X r r.
Proof. by apply moves_same. Qed.

Lemma moves_weaken (X Y : Z -> Prop) r r' : (forall c, X c -> Y c) -> moves X r r' -> moves Y r r'.
Proof.
  intros HX H Hr. destruct (H Hr) as [Hr' [A1 A2 A3 A4 A6 A5]]. split; [done|]. split; [| | | |done|done].
  - intros id p w c Hp Hw Hy. apply (A1 id p w c Hp Hw). auto.
  - intros c v Hv Hy. apply A2; auto.
  - intros e p Hp Hy. apply A3; auto.
  - intros c v Hv Hy. apply A4; auto.
Qed.

(** *** Proposals leave their table with an answer *)

(** Taking out a proposal: the accounting is never found corrupt. *)
Lemma removePending_some r id p : registry_ok r -> p_pending (r_proposals r) !! id = Some p ->
  removePendingLocked id r = (Some p, set_proposals r (mkProposals (delete id (p_pending (r_proposals r))) (pending_bytes (delete id (p_pending (r_proposals r)))))).
Proof.
  intros Hr Hp. unfold removePendingLocked. rewrite Hp. pose proof (bytes_delete _ _ _ Hp) as E. pose proof (rg_bytes _ Hr) as Eb.
  pose proof (bytes_nonneg (delete id (p_pending (r_proposals r)))). rewrite Eb, E. destruct (Z.ltb_spec (len (pp_encoded p) + pending_bytes (delete id (p_pending (r_proposals r)))) (len (pp_encoded p))); [lia|].
  destruct (Z.eqb_spec (len (pp_encoded p)) (len (pp_encoded p) + pending_bytes (delete id (p_pending (r_proposals r))))) as [E'|_]; repeat f_equal; lia.
Qed.

Lemma answer_all_list v p r : answer_all v p r = fold_left (fun r c => answer c v r) (waiters_of p) r.
Proof. unfold answer_all, waiters_of. revert r. induction (map_to_list (pp_waiters p)) as [|x l IH]; intros r; [done|]. cbn. apply IH. Qed.

(** The table and the channels after every waiter of [gone] was sent [v]. *)
Lemma registry_answered r pending gone m v : registry_ok r ->
  (forall id p, pending !! id = Some p -> p_pending (r_proposals r) !! id = Some p) -> waiting (p_pending (r_proposals r)) ≡ₚ gone ++ waiting pending ->
  pending_bytes pending <= pending_bytes (p_pending (r_proposals r)) -> (size pending <= size (p_pending (r_proposals r)))%nat ->
  sent (answers (r_channels r)) m gone v ->
  registry_ok (set_channels (set_proposals r (mkProposals pending (pending_bytes pending))) (mkChannels m (fences (r_channels r)) (made (r_channels r)) (stuck (r_channels r)))).
Proof.
  intros [] Hsub Hperm Hb Hsz Hs. rewrite Hperm in rg_waiting0, rg_open0. apply NoDup_app in rg_waiting0 as (Hn1 & Hn2 & Hn3). apply Forall_app in rg_open0 as [Ho1 Ho2].
  split; cbn; try done; try lia.
  - eauto.
  - eauto.
  - rewrite Forall_forall in *. intros c Hc. unfold open_in. rewrite Hs, bool_decide_eq_false_2; [by apply Ho2|]. intros Hg. by apply (Hn2 c).
  - intros c Hc. rewrite Hs in Hc. case_bool_decide as Hg; [|by apply rg_answers0]. apply rg_answers0. rewrite Forall_forall in Ho1. rewrite (Ho1 c Hg). eauto.
Qed.

Lemma progress_answered X r pending gone m v x : registry_ok r ->
  waiting (p_pending (r_proposals r)) ≡ₚ gone ++ waiting pending ->
  (forall id p, p_pending (r_proposals r) !! id = Some p -> pending !! id = Some p \/ (forall w c, pp_waiters p !! w = Some c -> c ∈ gone) /\ good id (pp_encoded p) v) ->
  sent (answers (r_channels r)) m gone v ->
  progress X r (set_channels (set_proposals r (mkProposals pending x)) (mkChannels m (fences (r_channels r)) (made (r_channels r)) (stuck (r_channels r)))).
Proof.
  intros Hr Hperm Hsplit Hs. split; cbn; try done.
  - intros id p w c Hp Hw _. destruct (Hsplit id p Hp) as [Hk|[Hg Hv]]; [left; by exists p|]. right. exists v. split; [|done].
    unfold delivered. rewrite Hs, bool_decide_eq_true_2; [done|]. by apply (Hg w).
  - intros c u Hu _. unfold delivered. rewrite Hs. case_bool_decide as Hg; [|done]. pose proof (rg_open _ Hr) as Ho. rewrite Hperm, Forall_app, Forall_forall in Ho.
    destruct Ho as [Ho _]. specialize (Ho c Hg). unfold open_in, delivered in *. rewrite Ho in Hu. done.
  - intros encoded p Hp _. by left.
Qed.

(** One proposal is taken out and its waiters are answered. *)
Lemma moves_settle X r id p v : p_pending (r_proposals r) !! id = Some p -> good id (pp_encoded p) v ->
  moves X r (answer_all v p (snd (removePendingLocked id r))).
Proof.
  intros Hp Hv Hr. rewrite (removePending_some r id p Hr Hp). cbn [snd]. rewrite answer_all_list.
  pose proof (waiting_delete _ _ _ Hp) as Hperm. pose proof (rg_waiting _ Hr) as Hnd. pose proof (rg_open _ Hr) as Ho. rewrite Hperm in Hnd, Ho.
  apply NoDup_app in Hnd as (Hn1 & Hn2 & Hn3). apply Forall_app in Ho as [Ho1 Ho2].
  destruct (answer_list v (waiters_of p) (set_proposals r (mkProposals (delete id (p_pending (r_proposals r))) (pending_bytes (delete id (p_pending (r_proposals r))))))) as (m & -> & Hs); [done|done|].
  cbn in Hs. split.
  - eapply (registry_answered r (delete id (p_pending (r_proposals r))) (waiters_of p) m v); [done| |done| | |done].
    + intros id' p' Hp'. by apply lookup_delete_Some in Hp' as [_ ?].
    + rewrite (bytes_delete _ _ _ Hp). pose proof (len_nonneg (pp_encoded p)). lia.
    + rewrite map_size_delete, Hp. lia.
  - eapply (progress_answered X r _ (waiters_of p) m v); [done|done| |done]. intros id' p' Hp'. destruct (decide (id = id')) as [<-|Hne].
    + right. rewrite Hp in Hp'. injection Hp' as <-. split; [|done]. intros w c Hw. apply waiters_elem. by exists w.
    + left. by rewrite lookup_delete_ne.
Qed.

Lemma removePending_none r id : p_pending (r_proposals r) !! id = None -> removePendingLocked id r = (None, r).
Proof. intros Hp. unfold removePendingLocked. by rewrite Hp. Qed.

Lemma removePending_cases id r : registry_ok r -> match removePendingLocked id r with
  | (None, r') => r' = r
  | (Some p, r') => p_pending (r_proposals r) !! id = Some p
  end.
Proof.
  intros Hr. destruct (p_pending (r_proposals r) !! id) as [p|] eqn:E; [by rewrite (removePending_some r id p)|by rewrite removePending_none].
Qed.

Lemma moves_fold {B} (f : Replica -> B -> Replica) (P : B -> Prop) l : (forall r b, P b -> moves nobody r (f r b)) -> Forall P l ->
  forall r, moves nobody r (fold_left f l r).
Proof.
  intros Hf. induction 1 as [|b l Hb Hl IH]; intros r; [apply moves_refl|]. cbn. by apply (moves_trans _ _ (f r b)); [apply Hf|].
Qed.

Lemma moves_notify rs r : (forall id res, rs !! id = Some res -> K id res) -> moves nobody r (notify rs r).
Proof.
  intros HK. apply moves_fold with (P := fun kr => K (fst kr) (snd kr)).
  - intros r0 [id res] Hk Hr. cbn in Hk. cbn [notify_one]. pose proof (removePending_cases id r0 Hr) as Hc. destruct (removePendingLocked id r0) as [[p|] r1] eqn:E.
    + replace r1 with (snd (removePendingLocked id r0)) by (by rewrite E). apply (moves_settle nobody); [done| |done]. intros res' Hres.
      destruct (EncodeCommand (res_Command res)) as [e|] eqn:He; [|done]. destruct (beq (pp_encoded p) e) eqn:Hb; [|done]. injection Hres as <-.
      apply bool_decide_eq_true in Hb. rewrite Hb. done.
    + subst r1. by apply (moves_refl nobody).
  - apply Forall_forall. intros [id res] Hin%elem_of_map_to_list. by apply HK.
Qed.

Lemma moves_notifyErrors cs r : moves nobody r (notifyErrors cs r).
Proof.
  apply moves_fold with (P := fun _ => True); [|by apply Forall_true].
  intros r0 [id e] _ Hr. cbn [notify_error fst snd]. unfold notify_error. cbn [fst snd]. pose proof (removePending_cases id r0 Hr) as Hc.
  destruct (removePendingLocked id r0) as [[p|] r1] eqn:E.
  - replace r1 with (snd (removePendingLocked id r0)) by (by rewrite E). apply (moves_settle nobody); [done|by intros res|done].
  - subst r1. by apply (moves_refl nobody).
Qed.

Lemma moves_failPending id encoded err r : moves nobody r (failPending id encoded err r).
Proof.
  intros Hr. unfold failPending. destruct (p_pending (r_proposals r) !! id) as [p|] eqn:Hp; [|by apply (moves_refl nobody)].
  destruct (negb (beq (pp_encoded p) encoded)); [by apply (moves_refl nobody)|]. pose proof (removePending_some r id p Hr Hp) as E.
  pose proof (moves_settle nobody r id p (Fail err) Hp ltac:(by intros res) Hr) as H. rewrite E in H. by rewrite E.
Qed.

(** All proposals are refused. *)
Lemma finishPending_list err l r : fold_left (fun r (kv : UUID * pendingProposal) => answer_all (Fail err) (snd kv) r) l r
  = fold_left (fun r c => answer c (Fail err) r) (concat (map (fun kv => waiters_of (snd kv)) l)) r.
Proof.
  revert r. induction l as [|x l IH]; intros r; [done|]. cbn [fold_left map concat]. by rewrite IH, answer_all_list, fold_left_app.
Qed.

Lemma moves_finishPending err r : moves nobody r (finishPending err r) .
Proof.
  intros Hr. unfold finishPending. rewrite (rg_bytes _ Hr), Z.eqb_refl, finishPending_list. change (concat _) with (waiting (p_pending (r_proposals r))).
  destruct (answer_list (Fail err) (waiting (p_pending (r_proposals r))) (set_proposals r (mkProposals ∅ 0))) as (m & -> & Hs); [apply Hr|apply Hr|].
  assert (waiting (p_pending (r_proposals r)) ≡ₚ waiting (p_pending (r_proposals r)) ++ waiting ∅) as Hperm by (by rewrite (app_nil_r (waiting _))).
  cbn in Hs. cbn [r_channels set_proposals]. change (mkProposals ∅ 0) with (mkProposals ∅ (pending_bytes ∅)). split.
  - eapply (registry_answered r ∅ _ m (Fail err)); [done|by intros id p|done|apply bytes_nonneg|rewrite map_size_empty; lia|done].
  - eapply (progress_answered nobody r ∅ _ m (Fail err)); [done|done| |done]. intros id p Hp. right. split; [|by intros res].
    intros w c Hw. apply waiting_elem. by exists id, p, w.
Qed.

Lemma finishPending_empty err r : p_pending (r_proposals (finishPending err r)) = ∅ /\ r_readers (finishPending err r) = r_readers r.
Proof.
  unfold finishPending. rewrite finishPending_list. set (r0 := if pending_bytes (p_pending (r_proposals r)) =? p_bytes (r_proposals r) then r else markPendingAccountingCorruptLocked r).
  assert (r_readers r0 = r_readers r) as E. { unfold r0, markPendingAccountingCorruptLocked. destruct (_ =? _); [done|]. by destruct (l_fatal (r_life r)). }
  enough (forall l r1, r_proposals (fold_left (fun r c => answer c (Fail err) r) l r1) = r_proposals r1 /\ r_readers (fold_left (fun r c => answer c (Fail err) r) l r1) = r_readers r1) as H.
  { destruct (H (concat (map (fun kv => waiters_of (snd kv)) (map_to_list (p_pending (r_proposals r))))) (set_proposals r0 (mkProposals ∅ 0))) as [-> ->]. by split. }
  induction l as [|c l IH]; intros r1; [done|]. cbn. destruct (IH (answer c (Fail err) r1)) as [-> ->]. unfold answer. by destruct (send_close _ _ _).
Qed.

(** *** Reads *)

Lemma finishReads_list err l r : fold_left (fun r (kv : bytes * pendingRead) => answer_read (rd_waiter (snd kv)) (Fail err) r) l r
  = fold_left (fun r c => answer_read c (Fail err) r) (map (fun kv => rd_waiter (snd kv)) l) r.
Proof. revert r. induction l as [|x l IH]; intros r; [done|]. cbn. by rewrite IH. Qed.

(** The read table without the reads of [gone], when the channels of the others
    are untouched. *)
Lemma registry_reads r x gone m : registry_ok r ->
  rs_nonce x = rs_nonce (r_readers r) -> rs_seq x = rs_seq (r_readers r) -> rs_bytes x = retained (rs_reads x) ->
  (forall encoded p, rs_reads x !! encoded = Some p -> rs_reads (r_readers r) !! encoded = Some p) ->
  reading (rs_reads (r_readers r)) ≡ₚ gone ++ reading (rs_reads x) -> retained (rs_reads x) <= retained (rs_reads (r_readers r)) ->
  (size (rs_reads x) <= size (rs_reads (r_readers r)))%nat ->
  (forall c, c ∉ gone -> m !! c = fences (r_channels r) !! c) -> (forall c, is_Some (m !! c) -> is_Some (fences (r_channels r) !! c)) ->
  registry_ok (set_channels (set_readers r x) (mkChannels (answers (r_channels r)) m (made (r_channels r)) (stuck (r_channels r)))).
Proof.
  intros [] E2 E3 E4 Hsub Hperm Hb Hsz Hs Hs'. rewrite Hperm in rg_reading0, rg_read_open0. apply NoDup_app in rg_reading0 as (Hn1 & Hn2 & Hn3).
  apply Forall_app in rg_read_open0 as [Ho1 Ho2]. split; cbn; rewrite ?E3, ?E4; try done; try lia.
  - intros encoded p Hp. by apply (rg_read_sizes0 encoded), Hsub.
  - intros encoded p Hp. destruct (rg_contexts0 encoded p (Hsub _ _ Hp)) as (n & Hn & He). exists n. unfold context_of. by rewrite E2, E3.
  - rewrite Forall_forall in *. intros c Hc. unfold open_in. rewrite Hs; [by apply Ho2|]. intros Hg. by apply (Hn2 c).
  - intros c Hc. by apply rg_fences0, Hs'.
Qed.

Lemma sent_others {A} (m m' : gmap Z (channel A)) cs v : Forall (open_in m) cs -> sent m m' cs v ->
  (forall c, c ∉ cs -> m' !! c = m !! c) /\ (forall c, is_Some (m' !! c) -> is_Some (m !! c)).
Proof.
  intros Ho Hs. split; intros c Hc; rewrite Hs in *.
  - by rewrite bool_decide_eq_false_2.
  - case_bool_decide as Hin; [|done]. rewrite Forall_forall in Ho. rewrite (Ho c Hin). eauto.
Qed.

Lemma progress_read_answered X r x gone m v : registry_ok r -> rs_nonce x = rs_nonce (r_readers r) -> rs_seq x = rs_seq (r_readers r) ->
  (forall encoded p, rs_reads x !! encoded = Some p -> rs_reads (r_readers r) !! encoded = Some p) ->
  reading (rs_reads (r_readers r)) ≡ₚ gone ++ reading (rs_reads x) ->
  (forall encoded p, rs_reads (r_readers r) !! encoded = Some p -> rs_reads x !! encoded = Some p \/ rd_waiter p ∈ gone) ->
  sent (fences (r_channels r)) m gone v ->
  progress X r (set_channels (set_readers r x) (mkChannels (answers (r_channels r)) m (made (r_channels r)) (stuck (r_channels r)))).
Proof.
  intros Hr E1 E2 Hsub Hperm Hsplit Hs. split; cbn; try done.
  - intros id p w c Hp Hw _. left. by exists p.
  - intros encoded p Hp _. destruct (Hsplit encoded p Hp) as [Hk|Hg]; [by left|]. right. exists v. unfold delivered. by rewrite Hs, bool_decide_eq_true_2.
  - intros c u Hu _. unfold delivered. rewrite Hs. case_bool_decide as Hg; [|done]. pose proof (rg_read_open _ Hr) as Ho. rewrite Hperm, Forall_app, Forall_forall in Ho.
    destruct Ho as [Ho _]. specialize (Ho c Hg). unfold open_in, delivered in *. rewrite Ho in Hu. done.
  - intros e n Hn. split; [|by apply Hsub]. unfold context_of in *. by rewrite E1, E2.
Qed.

Lemma retained_delete m e p : m !! e = Some p -> retained m = rd_bytes p + retained (delete e m).
Proof. intros Hp. unfold retained. by rewrite (zsum_perm _ _ (table_delete rd_bytes m e p Hp)). Qed.

Lemma retained_insert m e p : m !! e = None -> retained (<[e := p]> m) = rd_bytes p + retained m.
Proof. intros Hp. unfold retained. by rewrite (zsum_perm _ _ (table_insert rd_bytes m e p Hp)). Qed.

Lemma retained_nonneg r (Hr : registry_ok r) e : 0 <= retained (delete e (rs_reads (r_readers r))).
Proof.
  apply zsum_nonneg, Forall_map, Forall_forall. intros [e' p] Hin%elem_of_map_to_list. apply lookup_delete_Some in Hin as [_ Hin]. cbn. by apply (rg_read_sizes _ Hr e').
Qed.

Lemma moves_finishReads err r : moves nobody r (finishReads err r).
Proof.
  intros Hr. unfold finishReads. rewrite finishReads_list. change (map _ _) with (reading (rs_reads (r_readers r))).
  set (x := mkReaders ∅ (rs_retired (r_readers r)) (rs_nonce (r_readers r)) (rs_seq (r_readers r)) 0).
  destruct (answer_read_list (Fail err) (reading (rs_reads (r_readers r))) (set_readers r x)) as (m & -> & Hs); [apply Hr|apply Hr|].
  assert (reading (rs_reads (r_readers r)) ≡ₚ reading (rs_reads (r_readers r)) ++ reading ∅) as Hperm by (by rewrite (app_nil_r (reading _))). cbn in Hs.
  assert (0 <= retained (rs_reads (r_readers r))) as H0.
  { apply zsum_nonneg, Forall_map, Forall_forall. intros [e' p] Hin%elem_of_map_to_list. cbn. by apply (rg_read_sizes _ Hr e'). }
  destruct (sent_others _ _ _ _ (rg_read_open _ Hr) Hs) as [Hs1 Hs2]. split.
  - eapply (registry_reads r x _ m); try done. cbn. rewrite map_size_empty. lia.
  - eapply (progress_read_answered nobody r x _ m (Fail err)); [done|done|done|done|done| |done]. intros e p Hp. right. apply reading_elem. by exists e, p.
Qed.

Lemma finishReads_empty err r : rs_reads (r_readers (finishReads err r)) = ∅ /\ r_proposals (finishReads err r) = r_proposals r.
Proof.
  unfold finishReads. rewrite finishReads_list.
  enough (forall l r1, r_proposals (fold_left (fun r c => answer_read c (Fail err) r) l r1) = r_proposals r1 /\ r_readers (fold_left (fun r c => answer_read c (Fail err) r) l r1) = r_readers r1) as H.
  { match goal with |- context [fold_left _ ?l ?r1] => destruct (H l r1) as [-> ->] end. by split. }
  induction l as [|c l IH]; intros r1; [done|]. cbn. destruct (IH (answer_read c (Fail err) r1)) as [-> ->]. unfold answer_read. by destruct (send_close _ _ _).
Qed.

(** Failing answers everybody. *)
Lemma moves_fail err r : moves nobody r (fail err r) /\ quiet (fail err r).
Proof.
  unfold fail. set (r0 := match l_fatal (r_life r) with None => set_fatal r err | Some _ => r end). split.
  - apply (moves_trans _ _ (signalApplied (requestFatalStop r0))); [apply moves_same; unfold r0; by destruct (l_fatal (r_life r))|].
    by apply (moves_trans _ _ (finishPending err (signalApplied (requestFatalStop r0)))); [apply moves_finishPending|apply moves_finishReads].
  - intros _. destruct (finishReads_empty err (finishPending err (signalApplied (requestFatalStop r0)))) as [E1 E2]. rewrite E2.
    destruct (finishPending_empty err (signalApplied (requestFatalStop r0))) as [E3 E4]. done.
Qed.

(** *** Proposals change in their table *)

(** A proposal is replaced by one with the same command; [more] are its new
    channels and [less] those given up. *)
Lemma registry_update r id p p' : registry_ok r -> p_pending (r_proposals r) !! id = Some p -> pp_encoded p' = pp_encoded p ->
  (forall w c, pp_waiters p' !! w = Some c -> 1 <= w <= pp_nextWaiter p') -> 0 <= pp_nextWaiter p' <= made (r_channels r) ->
  NoDup (waiters_of p') -> (forall c, c ∈ waiters_of p' -> c ∈ waiters_of p) ->
  registry_ok (set_proposals r (mkProposals (<[id := p']> (p_pending (r_proposals r))) (p_bytes (r_proposals r)))).
Proof.
  intros Hr Hp E Hw Hm Hnd Hsub. pose proof (waiting_delete _ _ _ Hp) as Hperm. pose proof (waiting_update _ _ _ p' Hp) as Hperm'.
  destruct Hr. rewrite Hperm in rg_waiting0, rg_open0. apply NoDup_app in rg_waiting0 as (Hn1 & Hn2 & Hn3). apply Forall_app in rg_open0 as [Ho1 Ho2].
  split; cbn; try done.
  - by rewrite (bytes_update _ _ p).
  - rewrite map_size_insert_Some by eauto. done.
  - intros id' q w c Hq Hc. destruct (decide (id = id')) as [<-|Hne]; [|rewrite lookup_insert_ne in Hq by done; eauto].
    rewrite lookup_insert_eq in Hq. injection Hq as <-. eauto.
  - intros id' q Hq. destruct (decide (id = id')) as [<-|Hne]; [|rewrite lookup_insert_ne in Hq by done; eauto].
    rewrite lookup_insert_eq in Hq. by injection Hq as <-.
  - rewrite Hperm'. apply NoDup_app. split; [done|]. split; [|done]. intros c Hc. by apply Hn2, Hsub.
  - rewrite Hperm'. apply Forall_app. split; [|done]. rewrite Forall_forall in *. intros c Hc. by apply Ho1, Hsub.
Qed.

Lemma moves_submit_begin id encoded r : moves nobody r (fst (submit_begin id encoded r)).
Proof.
  intros Hr. unfold submit_begin. destruct (p_pending (r_proposals r) !! id) as [p|] eqn:Hp; [|by apply (moves_refl nobody)].
  destruct (negb (beq (pp_encoded p) encoded)); [by apply (moves_refl nobody)|]. cbn [fst]. set (p' := mkProposal _ _ _ _). split.
  - apply (registry_update r id p p'); [done|done|done| | | |done].
    + intros w c Hw. by apply (rg_next _ Hr id p w c).
    + by apply (rg_made _ Hr id p).
    + pose proof (rg_waiting _ Hr) as Hn. rewrite (waiting_delete _ _ _ Hp) in Hn. by apply NoDup_app in Hn as (? & _).
  - split; cbn; try done; [|by left]. intros id' q w c Hq Hw _. left. destruct (decide (id = id')) as [<-|Hne].
    + rewrite Hp in Hq. injection Hq as <-. exists p'. by rewrite lookup_insert_eq.
    + exists q. by rewrite lookup_insert_ne.
Qed.

Lemma waiters_delete p w c : pp_waiters p !! w = Some c ->
  waiters_of p ≡ₚ c :: waiters_of (mkProposal (pp_encoded p) (delete w (pp_waiters p)) (pp_nextWaiter p) (pp_submitted p)).
Proof. intros Hw. unfold waiters_of. cbn. by apply (table_delete (fun x => x)). Qed.

Lemma moves_removeWaiter id w c r : moves (eq c) r (removeWaiter id w c r).
Proof.
  intros Hr. unfold removeWaiter. destruct (p_pending (r_proposals r) !! id) as [p|] eqn:Hp; [|by apply (moves_refl (eq c))].
  case_bool_decide as Hw; [|by apply (moves_refl (eq c))]. set (p' := mkProposal _ _ _ _). set (r1 := set_proposals r _).
  pose proof (rg_waiting _ Hr) as Hn. rewrite (waiting_delete _ _ _ Hp) in Hn. apply NoDup_app in Hn as (Hn & _).
  rewrite (waiters_delete p w c Hw) in Hn. apply NoDup_cons in Hn as [Hc Hn].
  assert (registry_ok r1) as Hr1.
  { apply (registry_update r id p p'); [done|done|done| | |done|].
    - intros w' c' Hw'. cbn in Hw'. apply lookup_delete_Some in Hw' as [_ Hw']. by apply (rg_next _ Hr id p w' c').
    - by apply (rg_made _ Hr id p).
    - intros c' Hc'. rewrite (waiters_delete p w c Hw). by apply elem_of_cons, or_intror. }
  assert (progress (eq c) r r1) as Hp1.
  { split; cbn; try done; [|by left]. intros id' q w' c' Hq Hw' Hne. left. destruct (decide (id = id')) as [<-|Hid].
    - rewrite Hp in Hq. injection Hq as <-. exists p'. rewrite lookup_insert_eq. split; [done|]. split; [|done]. cbn. rewrite lookup_delete_ne; [done|].
      intros <-. rewrite Hw in Hw'. by injection Hw'.
    - exists q. by rewrite lookup_insert_ne. }
  destruct (bool_decide (delete w (pp_waiters p) = ∅) && negb (pp_submitted p)) eqn:Hlast; [|done].
  apply andb_prop in Hlast as [He%bool_decide_eq_true _].
  assert (p_pending (r_proposals r1) !! id = Some p') as Hp' by (cbn; by rewrite lookup_insert_eq).
  assert (moves (eq c) r1 (snd (removePendingLocked id r1))) as Hm.
  { replace (snd (removePendingLocked id r1)) with (answer_all (Fail ErrStopped) p' (snd (removePendingLocked id r1))).
    - apply moves_settle; [done|by intros res].
    - unfold answer_all. cbn [pp_waiters p']. by rewrite He. }
  destruct (Hm Hr1) as [Hr2 Hp2]. split; [done|]. by apply (progress_trans _ _ r1).
Qed.

(** The channel a goroutine makes is nobody else's. *)
Lemma fresh_channel r (Hr : registry_ok r) : answers (r_channels r) !! made (r_channels r) = None /\ fences (r_channels r) !! made (r_channels r) = None.
Proof.
  split.
  - destruct (answers (r_channels r) !! made (r_channels r)) eqn:E; [|done]. pose proof (rg_answers _ Hr (made (r_channels r)) ltac:(eauto)). lia.
  - destruct (fences (r_channels r) !! made (r_channels r)) eqn:E; [|done]. pose proof (rg_fences _ Hr (made (r_channels r)) ltac:(eauto)). lia.
Qed.

Lemma waiters_insert p w c : pp_waiters p !! w = None ->
  waiters_of (mkProposal (pp_encoded p) (<[w := c]> (pp_waiters p)) w (pp_submitted p)) ≡ₚ c :: waiters_of p.
Proof. intros Hw. unfold waiters_of. cbn. by apply (table_insert (fun x => x)). Qed.

Lemma open_fresh {A} (m : gmap Z (channel A)) c l : m !! c = None -> Forall (open_in m) l -> Forall (open_in (<[c := new_channel]> m)) l.
Proof.
  intros Hc Hf. rewrite Forall_forall in *. intros d Hd. specialize (Hf d Hd). unfold open_in in *. rewrite lookup_insert_ne; [done|]. intros ->. congruence.
Qed.

Lemma waiting_made r c (Hr : registry_ok r) : c ∈ waiting (p_pending (r_proposals r)) -> c < made (r_channels r).
Proof. intros Hc. pose proof (rg_open _ Hr) as Ho. rewrite Forall_forall in Ho. specialize (Ho c Hc). apply (rg_answers _ Hr c). rewrite Ho. eauto. Qed.

Lemma registry_add_waiter r id p owner b r' a : registry_ok r -> made (r_channels r) < max_uint64 ->
  (p_pending (r_proposals r) !! id = Some p /\ b = p_bytes (r_proposals r)
   \/ p_pending (r_proposals r) !! id = None /\ pp_waiters p = ∅ /\ pp_nextWaiter p = 0 /\ b = p_bytes (r_proposals r) + len (pp_encoded p)
      /\ b <= maxPendingProposalBytes /\ Z.of_nat (size (p_pending (r_proposals r))) < maxPendingProposals) ->
  add_waiter id p owner b r = (r', inr a) -> registry_ok r'.
Proof.
  intros Hr Hmax Hp Hadd. unfold add_waiter in Hadd. injection Hadd as <- _. destruct (fresh_channel r Hr) as [Hf1 Hf2]. pose proof (rg_channels _ Hr) as H0.
  assert (0 <= pp_nextWaiter p <= made (r_channels r)) as Hnext by (destruct Hp as [[Hp _]|(_ & _ & -> & _)]; [by apply (rg_made _ Hr id p)|lia]).
  assert (forall w c, pp_waiters p !! w = Some c -> 1 <= w <= pp_nextWaiter p) as Hws.
  { intros w c Hw. destruct Hp as [[Hp _]|(_ & E & _)]; [by apply (rg_next _ Hr id p w c)|by rewrite E in Hw]. }
  set (w := uint64 (pp_nextWaiter p + 1)). assert (w = pp_nextWaiter p + 1) as Ew by (unfold w, uint64; rewrite Z.mod_small; [done|unfold max_uint64 in *; lia]).
  set (c := made (r_channels r)). set (p' := mkProposal _ _ _ _).
  assert (pp_waiters p !! w = None) as Hwf. { destruct (pp_waiters p !! w) as [x|] eqn:E; [|done]. specialize (Hws w x E). lia. }
  pose proof (waiters_insert p w c Hwf) as Hpw. fold p' in Hpw.
  assert (c ∉ waiting (p_pending (r_proposals r))) as Hfresh by (intros Hin; apply (waiting_made r c Hr) in Hin; unfold c in Hin; lia).
  assert (waiting (<[id := p']> (p_pending (r_proposals r))) ≡ₚ c :: waiting (p_pending (r_proposals r))) as Hperm.
  { destruct Hp as [[Hp _]|(Hp & E & _)].
    - rewrite (waiting_update _ _ _ p' Hp), (waiting_delete _ _ _ Hp), Hpw. done.
    - rewrite (waiting_insert _ _ p' Hp), Hpw. unfold waiters_of at 1. rewrite E. done. }
  destruct Hr. split; cbn; try done; try lia.
  - destruct Hp as [[Hp ->]|(Hp & _ & _ & -> & _)]; [by rewrite (bytes_update _ _ p)|]. rewrite bytes_insert by done. cbn. lia.
  - destruct Hp as [[Hp _]|(Hp & _ & _ & _ & _ & ?)]; [by rewrite map_size_insert_Some by eauto|rewrite map_size_insert_None by done; lia].
  - intros id' q w' c' Hq Hw'. destruct (decide (id = id')) as [<-|Hne]; [|rewrite lookup_insert_ne in Hq by done; eauto].
    rewrite lookup_insert_eq in Hq. injection Hq as <-. cbn in Hw' |- *. fold w. destruct (decide (w = w')) as [<-|Hww]; [lia|].
    rewrite lookup_insert_ne in Hw' by done. specialize (Hws w' c' Hw'). lia.
  - intros id' q Hq. destruct (decide (id = id')) as [<-|Hne]; [|rewrite lookup_insert_ne in Hq by done; specialize (rg_made0 id' q Hq); lia].
    rewrite lookup_insert_eq in Hq. injection Hq as <-. cbn. fold w. lia.
  - rewrite Hperm. by apply NoDup_cons.
  - rewrite Hperm. apply Forall_cons. split; [unfold open_in; by rewrite lookup_insert_eq|]. by apply open_fresh.
  - intros d Hd. destruct (decide (c = d)) as [<-|Hne]; [unfold c; lia|]. rewrite lookup_insert_ne in Hd by done. specialize (rg_answers0 d Hd). unfold c. lia.
  - intros d Hd. specialize (rg_fences0 d Hd). lia.
Qed.

(** An admitted proposal is registered with its command and its new channel. *)
Definition admitted (id : UUID) (encoded : bytes) (a : admission) (r : Replica) : Prop :=
  exists p, p_pending (r_proposals r) !! id = Some p /\ pp_waiters p !! ad_waiter a = Some (ad_channel a) /\ pp_encoded p = encoded.

Lemma progress_add_waiter r id p owner b r' a : registry_ok r -> made (r_channels r) < max_uint64 ->
  (p_pending (r_proposals r) !! id = Some p \/ p_pending (r_proposals r) !! id = None /\ pp_nextWaiter p = 0) ->
  add_waiter id p owner b r = (r', inr a) -> progress nobody r r' /\ admitted id (pp_encoded p) a r' /\ ad_channel a = made (r_channels r).
Proof.
  intros Hr Hmax Hp Hadd. unfold add_waiter in Hadd. injection Hadd as <- <-. destruct (fresh_channel r Hr) as [Hf1 Hf2]. pose proof (rg_channels _ Hr) as H0.
  assert (0 <= pp_nextWaiter p <= made (r_channels r)) as Hnext by (destruct Hp as [Hp|[_ ->]]; [by apply (rg_made _ Hr id p)|lia]).
  split_and!; [split; cbn; try done; try lia| |done].
  - intros id' q w c Hq Hw _. left. destruct (decide (id = id')) as [<-|Hne].
    + rewrite lookup_insert_eq. eexists. split; [done|]. destruct Hp as [Hp|[Hp _]]; [|by rewrite Hp in Hq]. rewrite Hq in Hp. injection Hp as ->. cbn. split; [|done].
      rewrite lookup_insert_ne; [done|]. intros E. pose proof (rg_next _ Hr id p w c Hq Hw) as Hle. rewrite <- E in Hle. unfold uint64 in Hle. rewrite Z.mod_small in Hle by (unfold max_uint64 in *; lia). lia.
    + exists q. by rewrite lookup_insert_ne.
  - intros c v Hv _. unfold delivered in *. rewrite lookup_insert_ne; [done|]. intros <-. by rewrite Hf1 in Hv.
  - by left.
  - eexists. cbn. rewrite lookup_insert_eq. split; [done|]. cbn. by rewrite lookup_insert_eq.
Qed.

Lemma propose_admit_moves id encoded epoch r : registry_ok r -> made (r_channels r) < max_uint64 -> quiet r ->
  match propose_admit id encoded epoch r with
  | (r', inl _) => r' = r
  | (r', inr a) => registry_ok r' /\ progress nobody r r' /\ admitted id encoded a r' /\ ad_channel a = made (r_channels r) /\ r_life r' = r_life r
      /\ readOpen r = Ok tt
  end.
Proof.
  intros Hr Hmax Hq. unfold propose_admit. destruct (readOpen r) as [[]|e] eqn:Ho; [|done]. destruct (negb (epoch =? r_epoch r)); [done|].
  pose proof (rg_bytes _ Hr) as Eb. pose proof (bytes_nonneg (p_pending (r_proposals r))) as H0. pose proof (rg_room _ Hr) as Hroom.
  rewrite (proj2 (Z.ltb_ge (p_bytes (r_proposals r)) 0)) by lia. rewrite (proj2 (Z.ltb_ge maxPendingProposalBytes (p_bytes (r_proposals r)))) by lia. cbn [orb].
  destruct (p_pending (r_proposals r) !! id) as [p|] eqn:Hp.
  - destruct (beq (pp_encoded p) encoded) eqn:Hb; [|done]. apply bool_decide_eq_true in Hb. destruct (add_waiter id p false (p_bytes (r_proposals r)) r) as [r' [x|a]] eqn:E; [by unfold add_waiter in E|].
    destruct (progress_add_waiter r id p false _ r' a Hr Hmax (or_introl Hp) E) as (Hpr & Had & Hc). rewrite Hb in Had. split_and!; try done.
    + by apply (registry_add_waiter r id p false (p_bytes (r_proposals r)) r' a Hr Hmax); [left|].
    + unfold add_waiter in E. by injection E as <- _.
  - destruct ((maxPendingProposals <=? _) || _) eqn:Hfull; [done|]. apply orb_false_elim in Hfull as [Hn%Z.leb_gt Hl%Z.ltb_ge].
    set (p := mkProposal encoded ∅ 0 false). destruct (add_waiter id p true _ r) as [r' [x|a]] eqn:E; [by unfold add_waiter in E|].
    destruct (progress_add_waiter r id p true _ r' a Hr Hmax (or_intror (conj Hp eq_refl)) E) as (Hpr & Had & Hc). split_and!; try done.
    + apply (registry_add_waiter r id p true _ r' a Hr Hmax) in E; [done|]. right. split_and!; try done. cbn. lia.
    + unfold add_waiter in E. by injection E as <- _.
Qed.

(** *** Reads come and go *)

Lemma context_inj nonce n n' encoded : is_u64 n -> is_u64 n' -> encodeReadContext nonce n = Ok encoded -> encodeReadContext nonce n' = Ok encoded -> n = n'.
Proof.
  intros Hn Hn' H H'. unfold encodeReadContext in *. destruct (negb (len nonce =? 16) || (n =? 0)); [done|]. destruct (negb (len nonce =? 16) || (n' =? 0)); [done|].
  apply (inj Ok) in H as <-. apply (inj Ok) in H'. unfold read_head in H'. apply app_inj_1 in H' as [E _]; [|by rewrite !length_app, !length_be].
  apply app_inv_head, app_inv_head in E. apply be8_inj; [unfold is_u64, max_uint64 in *; lia..|done].
Qed.

(** A read after its admission. *)
Definition read_admitted (encoded : bytes) (c : Z) (r : Replica) : Prop :=
  exists p, rs_reads (r_readers r) !! encoded = Some p /\ rd_waiter p = c.

Lemma reading_made r c (Hr : registry_ok r) : c ∈ reading (rs_reads (r_readers r)) -> c < made (r_channels r).
Proof. intros Hc. pose proof (rg_read_open _ Hr) as Ho. rewrite Forall_forall in Ho. specialize (Ho c Hc). apply (rg_fences _ Hr c). rewrite Ho. eauto. Qed.

Lemma descriptor_bytes_nonneg d : 0 <= readDescriptorBytes d.
Proof. unfold readDescriptorBytes. pose proof (len_nonneg (RangeID d)). pose proof (len_nonneg (Start d)). pose proof (len_nonneg (end_bytes d)). pose proof (len_nonneg (Voters d)). lia. Qed.

(** Only the counter moves when an admission fails after it. *)
Lemma registry_counter r (x := r_readers r) : registry_ok r -> rs_seq x < max_uint64 ->
  registry_ok (set_readers r (mkReaders (rs_reads x) (rs_retired x) (rs_nonce x) (rs_seq x + 1) (rs_bytes x))).
Proof.
  intros [] Hmax. unfold x in *. split; cbn; try done; try lia.
  intros e p Hp. destruct (rg_contexts0 e p Hp) as (n & Hn & He). exists n. split; [cbn; lia|done].
Qed.

Lemma admitRead_moves table key d r : registry_ok r ->
  match admitRead table key d r with
  | (r', Fail _) => registry_ok r' /\ progress nobody r r' /\ r_life r' = r_life r /\ rs_reads (r_readers r') = rs_reads (r_readers r)
      /\ r_proposals r' = r_proposals r
  | (r', Ok (encoded, c)) => registry_ok r' /\ progress nobody r r' /\ read_admitted encoded c r' /\ c = made (r_channels r) /\ r_life r' = r_life r
      /\ readOpen r = Ok tt
  end.
Proof.
  intros Hr. unfold admitRead. destruct (readOpen r) as [[]|e]; [|split_and!; [done|by apply progress_same|done..]].
  destruct (Z.leb_spec maxPendingReads (Z.of_nat (size (rs_reads (r_readers r))))) as [|Hcount]; [split_and!; [done|by apply progress_same|done..]|].
  destruct (Z.eqb_spec (rs_seq (r_readers r)) max_uint64) as [|Hseq]; [split_and!; [done|by apply progress_same|done..]|].
  pose proof (rg_seq _ Hr) as Hs. pose proof (registry_counter r Hr ltac:(lia)) as Hr1. set (r1 := set_readers r _) in *.
  assert (progress nobody r r1) as Hp1.
  { split; cbn; try done; [intros id p w c Hp Hw _; left; by exists p|by left|]. intros e n [Hn He]. split; [|done]. split; [cbn; lia|done]. }
  destruct (encodeReadContext (rs_nonce (r_readers r)) (rs_seq (r_readers r) + 1)) as [encoded|e] eqn:He; [|split_and!; done].
  set (n := len encoded + len table + len key + readDescriptorBytes d). destruct ((maxPendingReadByte <? n) || (maxPendingReadByte - n <? rs_bytes (r_readers r))) eqn:Hfull; [split_and!; done|].
  apply orb_false_elim in Hfull as [Hn1%Z.ltb_ge Hn2%Z.ltb_ge]. destruct (fresh_channel r Hr) as [Hf1 Hf2]. pose proof (rg_channels _ Hr) as H0.
  assert (0 <= n) as Hn0. { unfold n. pose proof (descriptor_bytes_nonneg d). pose proof (len_nonneg encoded). pose proof (len_nonneg table). pose proof (len_nonneg key). lia. }
  assert (rs_reads (r_readers r) !! encoded = None) as Hnew.
  { destruct (rs_reads (r_readers r) !! encoded) as [p|] eqn:E; [|done]. destruct (rg_contexts _ Hr _ _ E) as (k & Hk & Hek).
    pose proof (context_inj _ (rs_seq (r_readers r) + 1) k _ ltac:(unfold is_u64; lia) ltac:(unfold is_u64; lia) He Hek). lia. }
  set (p := mkPendingRead table key (Clone d) n (made (r_channels r))). cbn [r_channels r1 set_readers].
  pose proof (table_insert rd_waiter (rs_reads (r_readers r)) encoded p Hnew) as Hperm. change (map _ (map_to_list (<[encoded := p]> _))) with (reading (<[encoded := p]> (rs_reads (r_readers r)))) in Hperm.
  change (map _ (map_to_list (rs_reads (r_readers r)))) with (reading (rs_reads (r_readers r))) in Hperm.
  split_and!; [| | |done|done|done].
  - destruct Hr1 as []. cbn in *. assert (made (r_channels r) ∉ reading (rs_reads (r_readers r))) as Hfresh by (intros Hin; apply (reading_made r _ Hr) in Hin; lia).
    split; cbn; try done; try lia.
    + intros id q Hq. specialize (rg_made0 id q Hq). lia.
    + fold p. rewrite retained_insert by done. cbn. lia.
    + rewrite map_size_insert_None by done. lia.
    + intros e q Hq. destruct (decide (encoded = e)) as [<-|Hne]; [rewrite lookup_insert_eq in Hq; by injection Hq as <-|]. rewrite lookup_insert_ne in Hq by done. eauto.
    + intros e q Hq. destruct (decide (encoded = e)) as [<-|Hne]; [|rewrite lookup_insert_ne in Hq by done; eauto]. exists (rs_seq (r_readers r) + 1). split; [cbn; lia|done].
    + fold p. rewrite Hperm. by apply NoDup_cons.
    + fold p. rewrite Hperm. apply Forall_cons. split; [unfold open_in; by rewrite lookup_insert_eq|]. by apply open_fresh.
    + intros c Hc. specialize (rg_answers0 c Hc). lia.
    + intros c Hc. destruct (decide (made (r_channels r) = c)) as [<-|Hne]; [lia|]. rewrite lookup_insert_ne in Hc by done. specialize (rg_fences0 c Hc). lia.
  - split; cbn; try done; try lia.
    + intros id q w c Hq Hw _. left. by exists q.
    + intros e q Hq _. left. rewrite lookup_insert_ne; [done|]. intros <-. by rewrite Hnew in Hq.
    + intros c v Hv _. unfold delivered in *. rewrite lookup_insert_ne; [done|]. intros <-. by rewrite Hf2 in Hv.
    + intros e k [Hk Hek]. split; [split; [cbn; lia|done]|]. intros q. rewrite lookup_insert_ne; [done|]. intros <-.
      pose proof (context_inj _ (rs_seq (r_readers r) + 1) k _ ltac:(unfold is_u64; lia) ltac:(unfold is_u64; lia) He Hek). lia.
  - exists p. cbn. by rewrite lookup_insert_eq.
Qed.

Lemma release_read_ok r encoded p (x := release_read encoded p (r_readers r)) : registry_ok r -> rs_reads (r_readers r) !! encoded = Some p ->
  reading (rs_reads (r_readers r)) ≡ₚ [rd_waiter p] ++ reading (rs_reads x) /\ rs_bytes x = retained (rs_reads x)
  /\ retained (rs_reads x) <= retained (rs_reads (r_readers r)) /\ (size (rs_reads x) <= size (rs_reads (r_readers r)))%nat
  /\ (forall e q, rs_reads x !! e = Some q -> rs_reads (r_readers r) !! e = Some q).
Proof.
  intros Hr Hp. unfold x, release_read. cbn. pose proof (retained_delete _ _ _ Hp) as E. pose proof (rg_read_bytes _ Hr) as Eb. pose proof (retained_nonneg r Hr encoded).
  pose proof (rg_read_sizes _ Hr _ _ Hp). split_and!.
  - by apply (table_delete rd_waiter).
  - rewrite (proj2 (Z.ltb_ge (rs_bytes (r_readers r)) (rd_bytes p))) by lia. lia.
  - lia.
  - rewrite map_size_delete, Hp. lia.
  - intros e q Hq. by apply lookup_delete_Some in Hq as [_ ?].
Qed.

Lemma set_channels_same r : set_channels r (mkChannels (answers (r_channels r)) (fences (r_channels r)) (made (r_channels r)) (stuck (r_channels r))) = r.
Proof. by destruct r as [? ? ? ? ? ? ? ? [] ?]. Qed.

Lemma moves_cancelRead encoded old c r : (forall p, rs_reads (r_readers r) !! encoded = Some p -> rd_waiter p = c) -> moves (eq c) r (cancelRead encoded old r).
Proof.
  intros Hc Hr. unfold cancelRead. destruct (rs_reads (r_readers r) !! encoded) as [p|] eqn:Hp; [|by apply (moves_refl (eq c))].
  destruct (release_read_ok r encoded p Hr Hp) as (H1 & H2 & H3 & H4 & H5). set (x := mkReaders _ _ _ _ _). split.
  - rewrite <- (set_channels_same (set_readers r x)). by apply (registry_reads r x [rd_waiter p]).
  - split; cbn; try done.
    + intros id q w d Hq Hw _. left. by exists q.
    + intros e q Hq Hne. left. rewrite lookup_delete_ne; [done|]. intros <-. apply Hne. rewrite Hp in Hq. injection Hq as <-. by rewrite (Hc p).
    + intros e n Hn. split; [done|]. intros q Hq. by apply lookup_delete_Some in Hq as [_ ?].
Qed.

Lemma deliverReadState_moves rs r : moves nobody r (deliverReadState rs r) /\ (quiet r -> quiet (deliverReadState rs r)).
Proof.
  unfold deliverReadState. set (encoded := rst_RequestCtx rs). destruct (decodeReadContext encoded (rs_nonce (r_readers r))) as [[]|e].
  2:{ destruct (moves_fail (ErrReplicaCorrupt "read state") r) as [H1 H2]. by split. }
  destruct (rs_reads (r_readers r) !! encoded) as [p|] eqn:Hp.
  - set (v := if rst_Index rs =? 0 then Fail (ErrReadIndexUnavailable "") else Ok (rst_Index rs)). set (x := release_read encoded p (r_readers r)). split.
    + intros Hr. destruct (release_read_ok r encoded p Hr Hp) as (H1 & H2 & H3 & H4 & H5). fold x in H1, H2, H3, H4, H5.
      assert (open_in (fences (r_channels r)) (rd_waiter p)) as Ho.
      { pose proof (rg_read_open _ Hr) as Ho. rewrite Forall_forall in Ho. apply Ho, reading_elem. by exists encoded, p. }
      destruct (answer_read_list v [rd_waiter p] (set_readers r x)) as (m & E & Hs); [apply NoDup_singleton|by constructor|]. cbn in E, Hs. rewrite E.
      destruct (sent_others _ _ _ _ (proj2 (Forall_singleton _ _) Ho) Hs) as [Hs1 Hs2]. split.
      * by apply (registry_reads r x [rd_waiter p] m).
      * apply (progress_read_answered nobody r x [rd_waiter p] m v); [done|done|done|done|done| |done]. intros e q Hq. destruct (decide (encoded = e)) as [<-|Hne].
        { right. rewrite Hp in Hq. injection Hq as <-. apply list_elem_of_singleton. done. }
        { left. cbn. by rewrite lookup_delete_ne. }
    + intros Hq Hst. destruct Hq as [_ Hq]; [|by rewrite Hq in Hp]. unfold answer_read in Hst. by destruct (send_close _ _ _).
  - case_bool_decide; [split; [by apply moves_refl|done]|]. destruct (moves_fail (ErrReplicaCorrupt "unknown read state context") r) as [H1 H2]. by split.
Qed.

(** *** A goroutine takes its answer *)

Lemma receive_answer_moves c r v r' : receive_answer c r = Some (v, r') ->
  (exists b, answers (r_channels r) !! c = Some (mkChannel (Some v) b)) /\ moves (eq c) r r' /\ r_life r' = r_life r /\ r_proposals r' = r_proposals r
  /\ r_readers r' = r_readers r.
Proof.
  unfold receive_answer, take. intros H. destruct (answers (r_channels r) !! c) as [[[u|] b]|] eqn:E; try done. injection H as <- <-.
  split_and!; [by exists b| |done|done|done]. intros Hr. split.
  - destruct Hr. split; cbn; try done.
    + rewrite Forall_forall in *. intros d Hd. specialize (rg_open0 d Hd). unfold open_in in *. rewrite lookup_insert_ne; [done|]. intros <-. by rewrite E in rg_open0.
    + intros d Hd. apply rg_answers0. destruct (decide (c = d)) as [<-|Hne]; [rewrite E; eauto|]. by rewrite lookup_insert_ne in Hd.
  - split; cbn; try done.
    + intros id p w d Hp Hw _. left. by exists p.
    + intros d u' Hu Hne. unfold delivered in *. by rewrite lookup_insert_ne.
    + by left.
Qed.

Lemma receive_fence_moves c r v r' : receive_fence c r = Some (v, r') ->
  (exists b, fences (r_channels r) !! c = Some (mkChannel (Some v) b)) /\ moves (eq c) r r' /\ r_life r' = r_life r /\ r_proposals r' = r_proposals r
  /\ r_readers r' = r_readers r.
Proof.
  unfold receive_fence, take. intros H. destruct (fences (r_channels r) !! c) as [[[u|] b]|] eqn:E; try done. injection H as <- <-.
  split_and!; [by exists b| |done|done|done]. intros Hr. split.
  - destruct Hr. split; cbn; try done.
    + rewrite Forall_forall in *. intros d Hd. specialize (rg_read_open0 d Hd). unfold open_in in *. rewrite lookup_insert_ne; [done|]. intros <-. by rewrite E in rg_read_open0.
    + intros d Hd. apply rg_fences0. destruct (decide (c = d)) as [<-|Hne]; [rewrite E; eauto|]. by rewrite lookup_insert_ne in Hd.
  - split; cbn; try done.
    + intros id p w d Hp Hw _. left. by exists p.
    + by left.
    + intros d u' Hu Hne. unfold delivered in *. by rewrite lookup_insert_ne.
Qed.
End moves.
