(* ===== verification/ReplicaSafe.v ===== *)
(** The invariant of the runs of a replica: the tables are exact, nothing waits
    once the replica has stopped, and every call in progress is registered
    where its answer will come from, or has it. *)

From Stdlib Require Import ZArith Lia.
From stdpp Require Import base list gmap.
From S2P Require Import Prelude GoStd Uuidv7 EngineOps Range Command State Snapshot Disk Durable Replica Read ReadyLoop ReplicaRun ReplicaInv.

Local Open Scope Z_scope.

(** ** Operations that leave the lifecycle alone *)

Definition calm (r r' : Replica) : Prop :=
  r_life r' = r_life r /\ (p_pending (r_proposals r) = ∅ -> p_pending (r_proposals r') = ∅)
  /\ (rs_reads (r_readers r) = ∅ -> rs_reads (r_readers r') = ∅).

#[export] Instance calm_preorder : PreOrder calm.
Proof.
  split; [by intros r|]. intros r1 r2 r3 (A1 & A2 & A3) (B1 & B2 & B3). split; [by rewrite B1|]. auto.
Qed.

Lemma calm_quiet r r' : calm r r' -> quiet r -> quiet r'.
Proof. intros (E & H1 & H2) Hq Hs. unfold stopped in Hs. rewrite E in Hs. destruct (Hq Hs). auto. Qed.

Lemma calm_answers v l : forall r, calm r (fold_left (fun r c => answer c v r) l r).
Proof. induction l as [|c l IH]; intros r; [done|]. cbn. etrans; [|apply IH]. unfold answer. by destruct (send_close _ _ _). Qed.

Lemma calm_read_answers v l : forall r, calm r (fold_left (fun r c => answer_read c v r) l r).
Proof. induction l as [|c l IH]; intros r; [done|]. cbn. etrans; [|apply IH]. unfold answer_read. by destruct (send_close _ _ _). Qed.

Lemma calm_remove id r : registry_ok r -> calm r (snd (removePendingLocked id r)).
Proof.
  intros Hr. destruct (p_pending (r_proposals r) !! id) as [p|] eqn:Hp; [|by rewrite removePending_none].
  rewrite (removePending_some r id p Hr Hp). cbn. split_and!; [done| |done]. cbn. intros E. by rewrite E, delete_empty.
Qed.

Lemma calm_settle id v r : registry_ok r -> match removePendingLocked id r with
  | (Some p, r') => calm r (answer_all v p r')
  | (None, r') => calm r r'
  end.
Proof.
  intros Hr. pose proof (calm_remove id r Hr) as H. destruct (removePendingLocked id r) as [[p|] r']; [|done]. cbn in H. rewrite answer_all_list. etrans; [exact H|apply calm_answers].
Qed.

Lemma calm_finishPending err r : registry_ok r -> calm r (finishPending err r).
Proof.
  intros Hr. unfold finishPending. rewrite (rg_bytes _ Hr), Z.eqb_refl, finishPending_list. etrans; [|apply calm_answers]. done.
Qed.

Lemma calm_finishReads err r : calm r (finishReads err r).
Proof. unfold finishReads. rewrite finishReads_list. etrans; [|apply calm_read_answers]. done. Qed.

Lemma calm_failPending `{Canonicalizer} id encoded err r : registry_ok r -> calm r (failPending id encoded err r).
Proof.
  intros Hr. unfold failPending. destruct (p_pending (r_proposals r) !! id) as [p|]; [|done]. destruct (negb _); [done|].
  pose proof (calm_settle id (Fail err) r Hr) as Hc. by destruct (removePendingLocked id r) as [[q|] r'].
Qed.

Lemma calm_removeWaiter id w c r : registry_ok r -> calm r (removeWaiter id w c r).
Proof.
  intros Hr. unfold removeWaiter. destruct (p_pending (r_proposals r) !! id) as [p|] eqn:Hp; [|done]. case_bool_decide as Hw; [|done].
  set (p' := mkProposal _ _ _ _). set (r1 := set_proposals r _). assert (calm r r1) as H1. { split_and!; [done| |done]. intros E. by rewrite E in Hp. }
  destruct (bool_decide (delete w (pp_waiters p) = ∅) && negb (pp_submitted p)); [|done].
  split_and!.
  - unfold removePendingLocked. cbn. rewrite lookup_insert_eq. cbn [pp_encoded p']. pose proof (bytes_delete _ _ _ Hp) as E. pose proof (rg_bytes _ Hr).
    pose proof (bytes_nonneg (delete id (p_pending (r_proposals r)))). rewrite (proj2 (Z.ltb_ge (p_bytes (r_proposals r)) (len (pp_encoded p)))) by lia. by destruct (_ =? _).
  - intros E. by rewrite E in Hp.
  - unfold removePendingLocked. cbn. rewrite lookup_insert_eq. destruct (_ <? _); [cbn; unfold markPendingAccountingCorruptLocked; by destruct (l_fatal _)|]. by destruct (_ =? _).
Qed.

Lemma calm_submit_begin id encoded r : calm r (fst (submit_begin id encoded r)).
Proof.
  unfold submit_begin. destruct (p_pending (r_proposals r) !! id) as [p|] eqn:Hp; [|done]. destruct (negb _); [done|]. split_and!; [done| |done]. intros E. by rewrite E in Hp.
Qed.

Lemma calm_cancelRead encoded old r : calm r (cancelRead encoded old r).
Proof.
  unfold cancelRead. destruct (rs_reads (r_readers r) !! encoded) as [p|] eqn:Hp; [|done]. split_and!; [done|done|]. intros E. by rewrite E in Hp.
Qed.

Lemma open_not_stopped r : readOpen r = Ok tt -> ~ stopped r.
Proof.
  unfold readOpen, stopped. intros H [E|[e E]]; [by rewrite E in H|]. rewrite E in H. by destruct (l_closed (r_life r)).
Qed.

Section safe.
Context {canon : Canonicalizer} {pb : Protobuf} {wire : MembershipWire}.

Lemma calm_fold {B} K (f : Replica -> B -> Replica) (P : B -> Prop) l : (forall r b, P b -> moves K nobody r (f r b)) ->
  (forall r b, registry_ok r -> calm r (f r b)) -> Forall P l -> forall r, registry_ok r -> calm r (fold_left f l r).
Proof.
  intros Hm Hf. induction 1 as [|b l Hb Hl IH]; intros r Hr; [done|]. cbn. etrans; [by apply Hf|]. apply IH. by apply (Hm r b Hb).
Qed.

Lemma calm_notify rs r : registry_ok r -> calm r (notify rs r).
Proof.
  intros Hr. apply (calm_fold (fun _ _ => True) notify_one (fun _ => True)); [| |by apply Forall_true|done].
  - intros r0 [id res] _. pose proof (moves_notify (fun _ _ => True) {[id := res]} r0 ltac:(done)) as H. unfold notify in H. by rewrite map_to_list_singleton in H.
  - intros r0 [id res] Hr0. cbn. set (v := fun p : pendingProposal => match EncodeCommand (res_Command res) with Ok encoded => if beq (pp_encoded p) encoded then Ok res else Fail OperationConflict | Fail _ => Fail OperationConflict end).
    pose proof (calm_remove id r0 Hr0) as Hc. destruct (removePendingLocked id r0) as [[p|] r1]; [|done]. cbn in Hc. rewrite answer_all_list. etrans; [exact Hc|apply calm_answers].
Qed.

Lemma calm_notifyErrors cs r : registry_ok r -> calm r (notifyErrors cs r).
Proof.
  intros Hr. apply (calm_fold (fun _ _ => True) notify_error (fun _ => True)); [| |by apply Forall_true|done].
  - intros r0 [id e] _. pose proof (moves_notifyErrors (fun _ _ => True) {[id := e]} r0) as H. unfold notifyErrors in H. by rewrite map_to_list_singleton in H.
  - intros r0 [id e] Hr0. unfold notify_error. cbn. pose proof (calm_settle id (Fail (ErrReplicaCommand e)) r0 Hr0) as H. by destruct (removePendingLocked id r0) as [[p|] r1].
Qed.

(** ** Calls in progress *)

Definition channel_of (cl : client) : option Z :=
  match cl with
  | PropAwait _ _ a => Some (ad_channel a)
  | ReadAsk _ _ c | ReadAwait _ _ c => Some c
  | _ => None
  end.

(** A read that waits: its context is its own, and it is registered or
    answered. *)
Definition reading_ok (r : Replica) (encoded : bytes) (c : Z) : Prop :=
  (exists n, context_of (r_readers r) encoded n) /\ (forall p, rs_reads (r_readers r) !! encoded = Some p -> rd_waiter p = c)
  /\ (read_admitted encoded c r \/ exists v, delivered (fences (r_channels r)) c v).

(** What a run has shown so far: results that were stored, rows that were read
    at an applied index, routes that were accepted; [ev_raft] when the run is
    known to keep what raft promises. *)
Record evidence : Type := mkEvidence {
  ev_raft : Prop;
  ev_result : UUID -> Result -> Prop;
  ev_row : read_query -> Z -> Row -> Prop;
  ev_route : read_query -> Prop
}.
Record ev_le (E E' : evidence) : Prop := {
  le_raft : ev_raft E' -> ev_raft E;
  le_result : forall id res, ev_result E id res -> ev_result E' id res;
  le_row : forall q n row, ev_row E q n row -> ev_row E' q n row;
  le_route : forall q, ev_route E q -> ev_route E' q
}.
(** The state of the replica is part of what has been shown. *)
Record shown (E : evidence) (r : Replica) : Prop := {
  sh_result : forall id res, results (r_state r) !! id = Some res -> ev_result E id res;
  sh_row : forall q n row, n <= lastApplied (r_state r) -> State.get (r_state r) (q_table q) (q_key q) = Some row -> ev_row E q n row;
  sh_route : forall q, validateReadRoute (q_key q) (q_descriptor q) (q_version q) r = Ok tt -> ev_route E q
}.

(** The answer of a proposal with a result. *)
Definition answer_ok (E : evidence) (command : Command) (a : proposal_answer) : Prop :=
  forall res, pa_applied a = Some res -> a = answered res /\ ev_result E (OperationID command) res
    /\ EncodeCommand (res_Command res) = EncodeCommand command.

Definition client_ok (E : evidence) (r : Replica) (cl : client) : Prop :=
  match cl with
  | PropLookup command encoded | PropEpoch command encoded | PropStatus command encoded _ | PropAdmit command encoded _ =>
      EncodeCommand command = Ok encoded
  | PropCached command encoded existing => EncodeCommand command = Ok encoded /\ ev_result E (OperationID command) existing
  | PropAwait command encoded a =>
      EncodeCommand command = Ok encoded /\
      (admitted (OperationID command) encoded a r
       \/ exists v, delivered (answers (r_channels r)) (ad_channel a) v /\ good (ev_result E) (OperationID command) encoded v)
  | PropDone command a => answer_ok E command a
  | ReadAsk _ encoded c | ReadAwait _ encoded c => reading_ok r encoded c
  | WaitCheck (Some q) index | WaitNotice (Some q) index | WaitSleep (Some q) index _ => ev_raft E -> q_floor q <= index
  | ReadOpen q index | ReadRow q index => ev_raft E -> q_floor q <= index <= lastApplied (r_state r)
  | ReadRoute q index row => ev_raft E -> q_floor q <= index /\ ev_row E q index row
  | ReadDone (Some q) (Ok row) => ev_raft E -> (exists index, q_floor q <= index /\ ev_row E q index row) /\ ev_route E q
  | _ => True
  end.

Lemma good_mono (K K' : UUID -> Result -> Prop) id encoded v : (forall id res, K id res -> K' id res) -> good K id encoded v -> good K' id encoded v.
Proof. intros HK H res Hres. destruct (H res Hres) as [? ?]. split; [done|]. by apply HK. Qed.

Lemma reading_progress K X r r' encoded c : progress K X r r' -> ~ X c -> reading_ok r encoded c -> reading_ok r' encoded c.
Proof.
  intros Hpr HX ((n & Hn) & Hown & Hst). destruct (pg_context _ _ _ _ Hpr encoded n Hn) as [Hn' Hk]. split_and!.
  - by exists n.
  - intros p Hp. by apply Hown, Hk.
  - destruct Hst as [(p & Hp & <-)|(v & Hv)]; [|right; exists v; by apply (pg_fence _ _ _ _ Hpr)]. destruct (pg_read _ _ _ _ Hpr encoded p Hp HX) as [Hp'|Hd]; [left; by exists p|by right].
Qed.

Lemma client_progress E E' X r r' cl : ev_le E E' -> progress (ev_result E') X r r' -> (ev_raft E' -> lastApplied (r_state r) <= lastApplied (r_state r')) ->
  (forall c, channel_of cl = Some c -> ~ X c) -> client_ok E r cl -> client_ok E' r' cl.
Proof.
  intros HE Hp Hl HX. destruct cl; cbn; try done; cbn in HX; try (apply (reading_progress (ev_result E') X); [done|by apply HX]).
  - intros [H1 H2]. split; [done|]. by apply HE.
  - intros [He Hst]. split; [done|]. destruct Hst as [(p & Hpp & Hw & <-)|(v & Hv & Hg)].
    + destruct (pg_waiter _ _ _ _ Hp _ p (ad_waiter a) (ad_channel a) Hpp Hw (HX _ eq_refl)) as [(p' & H1 & H2 & H3)|(v & H1 & H2)].
      * left. exists p'. by rewrite H3.
      * right. by exists v.
    + right. exists v. split; [by apply (pg_answer _ _ _ _ Hp); [|apply HX]|]. apply (good_mono (ev_result E)); [|done]. apply HE.
  - intros Ha res Hres. destruct (Ha res Hres) as (H1 & H2 & H3). split_and!; [done| |done]. by apply HE.
  - destruct q; [|done]. intros H R. by apply H, HE.
  - destruct q; [|done]. intros H R. by apply H, HE.
  - destruct q; [|done]. intros H R. by apply H, HE.
  - intros H R. specialize (H (le_raft _ _ HE R)). specialize (Hl R). lia.
  - intros H R. specialize (H (le_raft _ _ HE R)). specialize (Hl R). lia.
  - intros H R. destruct (H (le_raft _ _ HE R)) as [H1 H2]. split; [done|]. by apply HE.
  - destruct q as [q|]; [|done]. destruct answer as [row|]; [|done]. intros H R. destruct (H (le_raft _ _ HE R)) as [(n & H1 & H2) H3].
    split; [|by apply HE]. exists n. split; [done|]. by apply HE.
Qed.

(** Notices only grow, and a replica that stops gives one. *)
Definition onward (r r' : Replica) : Prop :=
  l_notices (r_life r) <= l_notices (r_life r') /\ (stopped r' -> stopped r \/ l_notices (r_life r) < l_notices (r_life r')).

Lemma onward_life r r' : r_life r' = r_life r -> onward r r'.
Proof. intros E. unfold onward, stopped. rewrite E. split; [lia|]. by left. Qed.

(** What an operation guarantees to everybody else. *)
Definition lawful (K : UUID -> Result -> Prop) (X : Z -> Prop) (r r' : Replica) : Prop :=
  registry_ok r -> quiet r -> registry_ok r' /\ quiet r' /\ progress K X r r' /\ onward r r'.

Lemma lawful_calm K X r r' : moves K X r r' -> (registry_ok r -> calm r r') -> lawful K X r r'.
Proof.
  intros Hm Hc Hr Hq. destruct (Hm Hr) as [Hr' Hp]. split_and!; [done| |done|by apply onward_life, Hc]. by apply (calm_quiet r); [apply Hc|].
Qed.

Lemma fail_life err r : registry_ok r -> l_notices (r_life (fail err r)) = l_notices (r_life r) + 1 /\ l_closed (r_life (fail err r)) = l_closed (r_life r).
Proof.
  intros Hr. unfold fail. set (r0 := signalApplied _). assert (registry_ok r0) as Hr0.
  { apply (same_tables_registry r); [|done]. unfold r0. by destruct (l_fatal (r_life r)). }
  destruct (calm_finishReads err (finishPending err r0)) as (-> & _). destruct (calm_finishPending err r0 Hr0) as (-> & _). unfold r0. by destruct (l_fatal (r_life r)).
Qed.

Lemma lawful_fail K err r r0 : same_tables r r0 -> r_life r0 = r_life r -> lawful K nobody r (fail err r0).
Proof.
  intros E El Hr Hq. pose proof (same_tables_registry _ _ E Hr) as Hr0. destruct (moves_fail K err r0) as [Hm Hq']. destruct (Hm Hr0) as [Hr' Hp]. split_and!; [done|done| |].
  - by apply (progress_trans _ _ _ r0); [apply progress_same|].
  - destruct (fail_life err r0 Hr0) as [En _]. rewrite El in En. split; [lia|]. right. lia.
Qed.

Lemma lawful_same K r r' : same_tables r r' -> (stopped r' -> stopped r) -> l_notices (r_life r) <= l_notices (r_life r') -> lawful K nobody r r'.
Proof.
  intros E Hs Hn Hr Hq. split_and!; [by apply (same_tables_registry r)| |by apply progress_same|]. { intros Hst. destruct E as (-> & -> & _). by apply Hq, Hs. }
  split; [done|]. intros Hst. by left; apply Hs.
Qed.

Lemma lawful_refl K r : lawful K nobody r r.
Proof. by apply lawful_same. Qed.

(** ** The loop and the other calls *)

(** The results a job is about to deliver are stored. *)
Definition job_ok (K : UUID -> Result -> Prop) (j : job) : Prop :=
  match j with Notify rs => forall id res, rs !! id = Some res -> K id res | _ => True end.

Lemma apply_reports d s entries conf confIndex d' s' rs cs : apply d s entries conf confIndex = (d', s', Ok (rs, cs)) ->
  forall id res, rs !! id = Some res -> results s' !! id = Some res.
Proof.
  unfold apply. destruct (failed d); [done|]. destruct (match conf with Some _ => _ | None => _ end); [done|].
  destruct (apply_entries s (map to_entry entries)) as [a|] eqn:Ha; [|done]. destruct (apply_batch _ _ _ _ _); [|done].
  destruct (if bool_decide _ then _ else _) as [d1 [u|e]]; [|done]. intros [= _ <- <- _]. unfold apply_entries in Ha. apply apply_loop_grows in Ha as [_ H].
  apply H. intros op r Hx. cbn [app_results] in Hx. by apply lookup_empty_Some in Hx.
Qed.

Lemma deliver_onward rst r : registry_ok r -> onward r (deliverReadState rst r).
Proof.
  intros Hr. assert (forall e, onward r (fail e r)) as Hf. { intros e. destruct (fail_life e r Hr) as [E _]. split; [lia|]. right. lia. }
  unfold deliverReadState. destruct (decodeReadContext _ _); [|done]. destruct (rs_reads (r_readers r) !! _).
  - apply onward_life. unfold answer_read. by destruct (send_close _ _ _).
  - case_bool_decide; [by apply onward_life|done].
Qed.

Lemma do_job_lawful (K K' : UUID -> Result -> Prop) j sent r r' more acts : do_job j sent r = (r', more, acts) -> (forall id res, K id res -> K' id res) ->
  (forall id res, results (r_state r') !! id = Some res -> K' id res) -> job_ok K j ->
  lawful K' nobody r r' /\ match more with None => True | Some js => Forall (job_ok K') js end.
Proof.
  intros Hdo HK Hstored Hj. destruct j as [rd|snap|[entry|] conf|rs|cs| | |rst| | |ms|]; cbn in Hdo.
  - destruct (persistReady (r_disk r) rd) as [d [u|e]]; injection Hdo as <- <- _; split; [by apply lawful_same|by constructor|by apply lawful_fail|done].
  - destruct (installSnapshot (r_disk r) (r_state r) snap) as [[d s] [u|e]]; injection Hdo as <- <- _; split; [by apply lawful_same|by constructor|by apply lawful_fail|done].
  - destruct (entry_conf entry conf) as [[c ci]|e]; [|injection Hdo as <- <- _; split; [by apply lawful_fail|done]].
    destruct (apply (r_disk r) (r_state r) [entry] c ci) as [[d s] [[rs cs]|e]] eqn:Ha; injection Hdo as <- <- _; (split; [first [by apply lawful_fail|by apply lawful_same]|]); [|done].
    repeat constructor. intros id res Hres. apply Hstored. by apply (apply_reports _ _ _ _ _ _ _ _ _ Ha).
  - injection Hdo as <- <- _. split; [by apply lawful_fail|done].
  - injection Hdo as <- <- _. split; [|by constructor]. apply lawful_calm; [|apply calm_notify]. apply moves_notify. intros id res Hres. by apply HK, (Hj id).
  - injection Hdo as <- <- _. split; [|by constructor]. apply lawful_calm; [apply moves_notifyErrors|apply calm_notifyErrors].
  - injection Hdo as <- <- _. split; [apply lawful_same; [done|done|cbn; lia]|by constructor].
  - injection Hdo as <- <- _. split; [by apply lawful_same|by destruct (fatalState r); [|constructor]].
  - injection Hdo as <- <- _. split; [|by constructor]. destruct (deliverReadState_moves K' rst r) as [Hm Hq]. intros Hr Hqu. destruct (Hm Hr). split_and!; auto. by apply deliver_onward.
  - injection Hdo as <- <- _. split; [by apply lawful_same|by constructor].
  - injection Hdo as <- <- _. split; [|by constructor]. apply lawful_calm; [apply moves_finishPending|apply calm_finishPending].
  - injection Hdo as <- <- _. split; [by apply lawful_same|by constructor].
  - injection Hdo as <- <- _. split; [by apply lawful_same|by constructor].
Qed.

Lemma Step_lawful K ctx m r r' res : Step ctx m r = (r', res) -> lawful K nobody r r'.
Proof.
  unfold Step. destruct (negb ctx); [by intros [= <- _]; apply lawful_same|]. destruct m as [m|]; [|by intros [= <- _]; apply lawful_same].
  destruct (readOpen r); [|by intros [= <- _]; apply lawful_same]. destruct (msg_Type m =? MsgSnap); [|by intros [= <- _]; apply lawful_same].
  destruct (validateIncomingSnapshot (msg_Snapshot m)); intros [= <- _]; [by apply lawful_same|by apply lawful_fail].
Qed.

Lemma InstallRangeCatalog_lawful K catalog order r r' res : InstallRangeCatalog catalog order r = (r', res) -> lawful K nobody r r'.
Proof.
  unfold InstallRangeCatalog. destruct (match catalog with Some _ => _ | None => _ end) as [[v e]|]; [|by intros [= <- _]; apply lawful_same].
  destruct (persistCatalog (r_disk r) e) as [d [u|err]]; intros [= <- _]; [by apply lawful_same|by apply lawful_fail].
Qed.

Lemma CreateSnapshot_lawful K r r' res : CreateSnapshot r = (r', res) -> lawful K nobody r r'.
Proof.
  unfold CreateSnapshot. destruct (_ ≫= _) as [snap|]; [|by intros [= <- _]; apply lawful_same].
  destruct (persistLocalSnapshot (r_disk r) (Some snap)) as [d u]. intros [= <- _]. by apply lawful_same.
Qed.

Lemma close_lawful K r r' res : close_begin r = (r', res) -> lawful K nobody r r'.
Proof.
  unfold close_begin. destruct (l_closed (r_life r)); intros [= <- _]; [by apply lawful_same|]. intros Hr Hq.
  assert (registry_ok (set_closed r)) as Hr0 by (by apply (same_tables_registry r)).
  destruct (moves_finishPending K ErrStopped (set_closed r) Hr0) as [Hr1 Hp1]. destruct (moves_finishReads K ErrStopped (finishPending ErrStopped (set_closed r)) Hr1) as [Hr2 Hp2].
  split_and!.
  - by apply (same_tables_registry (finishReads ErrStopped (finishPending ErrStopped (set_closed r)))).
  - intros _. cbn. destruct (finishReads_empty ErrStopped (finishPending ErrStopped (set_closed r))) as [-> ->].
    by destruct (finishPending_empty ErrStopped (set_closed r)) as [-> _].
  - apply (progress_trans _ _ _ (set_closed r)); [by apply progress_same|]. apply (progress_trans _ _ _ (finishPending ErrStopped (set_closed r))); [done|].
    by apply (progress_trans _ _ _ (finishReads ErrStopped (finishPending ErrStopped (set_closed r)))); [|apply progress_same].
  - destruct (calm_finishReads ErrStopped (finishPending ErrStopped (set_closed r))) as (E1 & _). destruct (calm_finishPending ErrStopped (set_closed r) Hr0) as (E2 & _).
    unfold onward. cbn. rewrite E1, E2. cbn. split; [lia|]. right. lia.
Qed.

(** ** One section of a call *)

Lemma answered_ok E command encoded existing : EncodeCommand command = Ok encoded -> ev_result E (OperationID command) existing ->
  EncodeCommand (res_Command existing) = Ok encoded -> answer_ok E command (answered existing).
Proof. intros He Hr Hs res [= <-]. split_and!; [done|done|]. by rewrite He. Qed.

Lemma refused_ok E command e : answer_ok E command (refused e).
Proof. done. Qed.

Lemma cached_ok E command encoded existing r : EncodeCommand command = Ok encoded -> ev_result E (OperationID command) existing ->
  answer_ok E command (propose_cached encoded existing r).
Proof.
  intros He Hr. unfold propose_cached. destruct (readOpen r); [|done]. destruct (EncodeCommand (res_Command existing)) as [stored|] eqn:Hs; [|done].
  destruct (beq stored encoded) eqn:Hb; [|done]. apply bool_decide_eq_true in Hb as ->. by apply (answered_ok E command encoded).
Qed.

Lemma delivery_ok E command encoded v : EncodeCommand command = Ok encoded -> good (ev_result E) (OperationID command) encoded v ->
  answer_ok E command (await_delivery encoded v).
Proof.
  intros He Hg. unfold await_delivery. destruct v as [res|e].
  - destruct (Hg res eq_refl) as [Hs Hr]. rewrite Hs. unfold beq. rewrite bool_decide_eq_true_2 by done. by apply (answered_ok E command encoded).
  - by destruct e.
Qed.

(** What a section of a call leaves behind. *)
Record section_ok (E' : evidence) (cl cl' : client) (new : list client) (r r' : Replica) : Prop := {
  se_registry : registry_ok r';
  se_quiet : quiet r';
  se_progress : progress (ev_result E') (fun c => channel_of cl = Some c) r r';
  se_client : client_ok E' r' cl';
  se_new : Forall (client_ok E' r') new;
  se_no_channel : omap channel_of new = [];
  se_state : r_state r' = r_state r;
  se_onward : onward r r';
  se_channel : forall c, channel_of cl' = Some c -> channel_of cl = Some c \/ c = made (r_channels r) /\ c < made (r_channels r')
}.

Lemma section_stays E' cl cl' r : registry_ok r -> quiet r -> client_ok E' r cl' -> (forall c, channel_of cl' = Some c -> channel_of cl = Some c) ->
  section_ok E' cl cl' [] r r.
Proof. intros Hr Hq Hc Hch. split; try done; [by apply progress_same|by apply onward_life|]. intros c Hc'. left. auto. Qed.

Lemma section_lawful E' cl cl' (X : Z -> Prop) r r' : registry_ok r -> quiet r -> lawful (ev_result E') X r r' -> (forall c, X c -> channel_of cl = Some c) ->
  client_ok E' r' cl' -> r_state r' = r_state r -> channel_of cl' = None -> section_ok E' cl cl' [] r r'.
Proof.
  intros Hr Hq Hl HX Hc Hs Hn. destruct (Hl Hr Hq) as (Hr' & Hq' & Hp & Ho). split; try done; [|intros c; by rewrite Hn].
  by destruct (moves_weaken (ev_result E') X (fun c => channel_of cl = Some c) r r' HX (fun _ => conj Hr' Hp) Hr) as [_ ?].
Qed.

Lemma failPending_state id encoded err r : r_state (failPending id encoded err r) = r_state r.
Proof.
  unfold failPending. destruct (p_pending (r_proposals r) !! id) as [p|] eqn:Hp; [|done]. destruct (negb _); [done|].
  unfold removePendingLocked. rewrite Hp. assert (forall v q r0, r_state (answer_all v q r0) = r_state r0) as Ha.
  { intros v q r0. rewrite answer_all_list. revert r0. induction (waiters_of q) as [|c l IH]; intros r0; [done|]. cbn. rewrite IH. unfold answer. by destruct (send_close _ _ _). }
  destruct (_ <? _); [rewrite Ha; cbn; unfold markPendingAccountingCorruptLocked; by destruct (l_fatal _)|]. destruct (_ =? _); by rewrite Ha.
Qed.

Lemma removeWaiter_state id w c r : r_state (removeWaiter id w c r) = r_state r.
Proof.
  unfold removeWaiter. destruct (p_pending (r_proposals r) !! id) as [p|] eqn:Hp; [|done]. case_bool_decide; [|done]. destruct (_ && _); [|done].
  unfold removePendingLocked. cbn. rewrite lookup_insert_eq. destruct (_ <? _); [cbn; unfold markPendingAccountingCorruptLocked; by destruct (l_fatal _)|]. by destruct (_ =? _).
Qed.

Lemma submit_end_lawful K id encoded reply r : lawful K nobody r (submit_end id encoded reply r).
Proof.
  destruct reply as [| | |lead]; cbn; [by apply lawful_same|..]; (apply lawful_calm; [apply moves_failPending|apply calm_failPending]).
Qed.

Lemma admission_section E' command encoded epoch r r' a : registry_ok r -> quiet r -> made (r_channels r) < max_uint64 -> EncodeCommand command = Ok encoded ->
  propose_admit (OperationID command) encoded epoch r = (r', inr a) ->
  section_ok E' (PropAdmit command encoded epoch) (PropAwait command encoded a) (if ad_owner a then [Submit (OperationID command) encoded] else []) r r'.
Proof.
  intros Hr Hq Hm He Ha. pose proof (propose_admit_moves (ev_result E') (OperationID command) encoded epoch r Hr Hm Hq) as H. rewrite Ha in H.
  destruct H as (Hr' & Hp & Had & Hc & Hlife & Ho). split; try done.
  - intros Hst. unfold stopped in Hst. rewrite Hlife in Hst. by destruct (open_not_stopped r Ho).
  - by destruct (moves_weaken (ev_result E') nobody (fun c => channel_of (PropAdmit command encoded epoch) = Some c) r r' ltac:(done) (fun _ => conj Hr' Hp) Hr) as [_ ?].
  - split; [done|]. by left.
  - destruct (ad_owner a); by repeat constructor.
  - by destruct (ad_owner a).
  - unfold propose_admit, add_waiter in Ha. destruct (readOpen r); [|done]. destruct (negb _); [done|]. destruct (_ || _); [done|].
    destruct (p_pending (r_proposals r) !! OperationID command); [destruct (beq _ _); [|done]|destruct (_ || _); [done|]]; by injection Ha as <- _.
  - by apply onward_life.
  - intros c [= <-]. right. split; [done|]. rewrite Hc. destruct Had as (p & Hpp & Hw & _). pose proof (waiting_made r' (ad_channel a) Hr') as Hlt. rewrite <- Hc. apply Hlt, waiting_elem. eauto.
Qed.

Lemma read_section E' q r r' encoded c : registry_ok r -> quiet r -> admitRead (q_table q) (q_key q) (q_descriptor q) r = (r', Ok (encoded, c)) ->
  section_ok E' (ReadAdmit q) (ReadAsk q encoded c) [] r r'.
Proof.
  intros Hr Hq Ha. pose proof (admitRead_moves (ev_result E') (q_table q) (q_key q) (q_descriptor q) r Hr) as H. rewrite Ha in H.
  destruct H as (Hr' & Hp & Had & Hc & Hlife & Ho). split; try done.
  - intros Hst. unfold stopped in Hst. rewrite Hlife in Hst. by destruct (open_not_stopped r Ho).
  - by destruct (moves_weaken (ev_result E') nobody (fun c => channel_of (ReadAdmit q) = Some c) r r' ltac:(done) (fun _ => conj Hr' Hp) Hr) as [_ ?].
  - destruct Had as (p & Hpp & Hw). split_and!; [by apply (rg_contexts _ Hr' _ p)| |left; by exists p]. intros p' Hp'. rewrite Hpp in Hp'. by injection Hp' as <-.
  - unfold admitRead in Ha. destruct (readOpen r); [|done]. destruct (_ <=? _); [done|]. destruct (_ =? _); [done|]. destruct (encodeReadContext _ _); [|done].
    destruct (_ || _); [done|]. by injection Ha as <- _ _.
  - by apply onward_life.
  - intros d [= <-]. right. split; [done|]. destruct Had as (p & Hpp & Hw). apply (reading_made r' c Hr'). apply reading_elem. eauto.
Qed.

Lemma refused_read_section E' q r r' e : registry_ok r -> quiet r -> admitRead (q_table q) (q_key q) (q_descriptor q) r = (r', Fail e) ->
  section_ok E' (ReadAdmit q) (ReadDone (Some q) (Fail e)) [] r r'.
Proof.
  intros Hr Hq Ha. pose proof (admitRead_moves (ev_result E') (q_table q) (q_key q) (q_descriptor q) r Hr) as H. rewrite Ha in H.
  destruct H as (Hr' & Hp & Hlife & E1 & E2). split; try done.
  - intros Hst. unfold stopped in Hst. rewrite Hlife in Hst. rewrite E1, E2. by apply Hq.
  - by destruct (moves_weaken (ev_result E') nobody (fun c => channel_of (ReadAdmit q) = Some c) r r' ltac:(done) (fun _ => conj Hr' Hp) Hr) as [_ ?].
  - unfold admitRead in Ha. destruct (readOpen r); [|by injection Ha as <- _]. destruct (_ <=? _); [by injection Ha as <- _|]. destruct (_ =? _); [by injection Ha as <- _|].
    destruct (encodeReadContext _ _); [|by injection Ha as <- _]. destruct (_ || _); [by injection Ha as <- _|done].
  - by apply onward_life.
Qed.

Lemma cancel_section E' q cl encoded old c e r : registry_ok r -> quiet r -> channel_of cl = Some c -> reading_ok r encoded c ->
  section_ok E' cl (ReadDone (Some q) (Fail e)) [] r (cancelRead encoded old r).
Proof.
  intros Hr Hq Hc (_ & Hown & _). apply (section_lawful E' cl _ (eq c)); try done.
  - apply lawful_calm; [by apply moves_cancelRead|intros _; apply calm_cancelRead].
  - by intros ? <-.
  - unfold cancelRead. by destruct (rs_reads (r_readers r) !! encoded).
Qed.

Lemma answer_section E E' command encoded a v r r' : registry_ok r -> quiet r -> ev_le E E' -> client_ok E r (PropAwait command encoded a) ->
  receive_answer (ad_channel a) r = Some (v, r') -> section_ok E' (PropAwait command encoded a) (PropDone command (await_delivery encoded v)) [] r r'.
Proof.
  intros Hr Hq HE [He Hw] Hrec. destruct (receive_answer_moves (ev_result E') _ _ _ _ Hrec) as ((b & Hb) & Hmv & Hl & E1 & E2).
  apply (section_lawful E' _ _ (eq (ad_channel a))); try done.
  - apply lawful_calm; [done|]. intros _. split_and!; [done|by rewrite E1|by rewrite E2].
  - by intros ? <-.
  - apply delivery_ok; [done|]. destruct Hw as [(p & Hp & Hpw & _)|(u & Hu & Hg)].
    + pose proof (rg_open _ Hr) as Ho. rewrite Forall_forall in Ho. specialize (Ho (ad_channel a) ltac:(apply waiting_elem; eauto)). unfold open_in in Ho. rewrite Ho in Hb. done.
    + unfold delivered in Hu. rewrite Hu in Hb. injection Hb as <- <-. apply (good_mono (ev_result E)); [apply HE|done].
  - unfold receive_answer, take in Hrec. destruct (answers (r_channels r) !! ad_channel a) as [[[u|] b']|]; try done. by injection Hrec as _ <-.
Qed.

Lemma fence_section E' q encoded c v r r'
    (cl' := match v with Fail e => ReadDone (Some q) (Fail e)
            | Ok index => if index =? 0 then ReadDone (Some q) (Fail (ErrReadIndexUnavailable "")) else WaitCheck (Some q) index end) :
  registry_ok r -> quiet r -> (ev_raft E' -> forall q' index, cl' = WaitCheck (Some q') index -> q_floor q' <= index) ->
  receive_fence c r = Some (v, r') -> section_ok E' (ReadAwait q encoded c) cl' [] r r'.
Proof.
  intros Hr Hq Hfence Hrec. destruct (receive_fence_moves (ev_result E') _ _ _ _ Hrec) as ((b & Hb) & Hmv & Hl & E1 & E2). subst cl'.
  apply (section_lawful E' _ _ (eq c)); try done.
  - apply lawful_calm; [done|]. intros _. split_and!; [done|by rewrite E1|by rewrite E2].
  - by intros ? <-.
  - destruct v as [n|e]; [|done]. destruct (n =? 0); [done|]. intros R. by apply Hfence.
  - unfold receive_fence, take in Hrec. destruct (fences (r_channels r) !! c) as [[[u|] b']|]; try done. by injection Hrec as _ <-.
  - destruct v as [n|e]; [|done]. by destruct (n =? 0).
Qed.

Lemma client_step_ok E E' cl ch r r' cl' new : registry_ok r -> quiet r -> made (r_channels r) < max_uint64 -> ev_le E E' -> shown E' r ->
  client_ok E r cl -> client_step cl ch r = Some (r', cl', new) -> (ev_raft E' -> forall q index, cl' = WaitCheck (Some q) index -> q_floor q <= index) ->
  section_ok E' cl cl' new r r'.
Proof.
  intros Hr Hq Hm HE Hsh Hok Hst Hfence. destruct cl, ch; cbn in Hst; try done.
  - injection Hst as <- <- <-. apply section_stays; try done; unfold propose_start; (destruct (negb ctx); [done|]; destruct (readOpen r); [|done]; by destruct (EncodeCommand command) eqn:?).
  - injection Hst as <- <- <-. unfold propose_lookup. apply section_stays; try done; destruct (results (r_state r) !! OperationID command) eqn:Hres; try done. split; [done|]. by apply Hsh.
  - injection Hst as <- <- <-. destruct Hok as [H1 H2]. apply section_stays; try done. apply (cached_ok E' command encoded); [done|]. by apply HE.
  - injection Hst as <- <- <-. apply section_stays; try done; unfold propose_epoch; by destruct (readOpen r).
  - injection Hst as <- <- <-. apply section_stays; try done; unfold propose_leader; by destruct (lead =? r_id r).
  - destruct (propose_admit (OperationID command) encoded epoch r) as [r1 [a|a]] eqn:Ha; injection Hst as <- <- <-; [|by apply admission_section].
    pose proof (propose_admit_moves (ev_result E') (OperationID command) encoded epoch r Hr Hm Hq) as H. rewrite Ha in H. subst r1. apply section_stays; try done.
    unfold propose_admit, add_waiter in Ha. destruct (readOpen r); [|by injection Ha as <-]. destruct (negb _); [by injection Ha as <-|].
    destruct (_ || _); [by injection Ha as _ <-|]. destruct (p_pending (r_proposals r) !! OperationID command); [destruct (beq _ _); [done|by injection Ha as <-]|]. destruct (_ || _); [by injection Ha as <-|done].
  - destruct (receive_answer (ad_channel a) r) as [[v r1]|] eqn:Hrec; [|done]. injection Hst as <- <- <-. by apply (answer_section E).
  - injection Hst as <- <- <-. apply (section_lawful E' _ _ (eq (ad_channel a))); try done.
    + apply lawful_calm; [apply moves_removeWaiter|apply calm_removeWaiter].
    + by intros ? <-.
    + apply removeWaiter_state.
  - pose proof (moves_submit_begin (ev_result E') id encoded r) as Hmv. pose proof (calm_submit_begin id encoded r) as Hc. destruct (submit_begin id encoded r) as [r1 b] eqn:Hs. injection Hst as <- <- <-.
    apply (section_lawful E' _ _ nobody); try done; [by apply lawful_calm|by destruct b| |by destruct b]. unfold submit_begin in Hs.
    destruct (p_pending (r_proposals r) !! id); [|by injection Hs as <- _]. destruct (negb _); by injection Hs as <- _.
  - injection Hst as <- <- <-. apply (section_lawful E' _ _ nobody); try done; [apply submit_end_lawful|]. unfold submit_end. destruct reply; try done; apply failPending_state.
  - injection Hst as <- <- <-. apply section_stays; try done; destruct (read_start ctx table key target r) as [[? ?]|]; done.
  - destruct (admitRead (q_table q) (q_key q) (q_descriptor q) r) as [r1 [[e c]|e]] eqn:Ha; injection Hst as <- <- <-; [by apply read_section|by apply refused_read_section].
  - injection Hst as <- <- <-. by apply section_stays.
  - injection Hst as <- <- <-. apply section_stays; try done.
  - injection Hst as <- <- <-. by apply cancel_section with (c := c).
  - destruct (receive_fence c r) as [[v r1]|] eqn:Hrec; [|done]. injection Hst as <- <- <-. by apply fence_section.
  - injection Hst as <- <- <-. by apply cancel_section with (c := c).
  - injection Hst as <- <- <-. unfold applied_reached. destruct q as [q|]; [|by destruct (index <=? _); apply section_stays].
    destruct (Z.leb_spec index (lastApplied (r_state r))); apply section_stays; try done; cbn in *; intros R; specialize (Hok (le_raft _ _ HE R)); lia.
  - injection Hst as <- <- <-. destruct (applied_notice r), q; apply section_stays; try done. intros R. by apply Hok, HE.
  - injection Hst as <- <- <-. destruct q; by apply section_stays.
  - destruct (l_notices (r_life r) =? notice); [done|]. injection Hst as <- <- <-. destruct q; apply section_stays; try done. intros R. by apply Hok, HE.
  - injection Hst as <- <- <-. destruct (readOpen r); apply section_stays; try done. intros R. by apply Hok, HE.
  - injection Hst as <- <- <-. unfold read_row_locked. destruct (readOpen r); [|by apply section_stays]. unfold mbind, result_bind.
    destruct (State.get (r_state r) (q_table q) (q_key q)) eqn:Hrow; [|by apply section_stays].
    apply section_stays; try done. cbn in Hok |- *. intros R. specialize (Hok (le_raft _ _ HE R)). split; [lia|]. apply Hsh; [lia|done].
  - injection Hst as <- <- <-. destruct (validateReadRoute (q_key q) (q_descriptor q) (q_version q) r) as [[]|] eqn:Hv; [|by apply section_stays].
    apply section_stays; try done. cbn. intros R. destruct (Hok (le_raft _ _ HE R)) as [H1 H2]. split; [|by apply Hsh]. exists index. split; [done|]. by apply HE.
Qed.
End safe.
