(* ===== verification/ReplicaStore.v ===== *)
(** What clients of a replica can rely on, over all its runs. *)

From Stdlib Require Import ZArith Lia.
From stdpp Require Import base list gmap.
From S2P Require Import Prelude GoStd Uuidv7 EngineOps Range Command State Snapshot Disk Durable Replica Read ReadyLoop ReplicaRun ReplicaInv ReplicaSafe.

Local Open Scope Z_scope.

Section store.
Context {canon : Canonicalizer} {pb : Protobuf} {wire : MembershipWire}.

Definition applied_of (s : system) : Z := lastApplied (r_state (s_replica s)).
Definition made_of (s : system) : Z := made (r_channels (s_replica s)).

(** What raft promises about a run: a read that got its fence got one that is
    not before what the replica had applied when the read began, and no
    snapshot moves the applied index back. *)
Definition fences_follow (s : system) : Prop := forall q index, WaitCheck (Some q) index ∈ s_clients s -> q_floor q <= index.
Fixpoint moves_forward (trace : list system) : Prop :=
  match trace with
  | s' :: (s :: _) as past => applied_of s <= applied_of s' /\ moves_forward past
  | _ => True
  end.

(** ** The invariant *)

(** A sleeping call has the current notice or an older one, and an older one
    when the replica has stopped. *)
Definition awake (r : Replica) (cl : client) : Prop :=
  match cl with
  | WaitSleep _ _ notice => notice <= l_notices (r_life r) /\ (stopped r -> notice < l_notices (r_life r))
  | _ => True
  end.

Lemma awake_onward r r' cl : onward r r' -> awake r cl -> awake r' cl.
Proof. intros [H1 H2] Ha. destruct cl; try done. destruct Ha as [A1 A2]. split; [lia|]. intros Hs. destruct (H2 Hs) as [Hs'|]; [specialize (A2 Hs')|]; lia. Qed.

Lemma notice_current r n : applied_notice r = Ok n -> n <= l_notices (r_life r) /\ (stopped r -> n < l_notices (r_life r)).
Proof.
  unfold applied_notice, stopped. destruct (l_fatal (r_life r)); [done|]. destruct (l_closed (r_life r)); [done|]. intros [= <-]. split; [lia|]. by intros [|[]].
Qed.

(** A call goes to sleep on a replica that has not stopped. *)
Lemma client_step_awake cl ch r r' cl' new : client_step cl ch r = Some (r', cl', new) -> awake r' cl'.
Proof.
  intros Hst. destruct cl, ch; cbn in Hst; try done.
  all: try (apply bind_Some in Hst as ([v r1] & _ & [= <- <- _])).
  all: repeat case_match; simplify_eq; try done; try (unfold wait_failed; by case_match).
  all: try by (repeat case_match).
  by apply notice_current.
Qed.

Lemma client_step_new_awake cl ch r r' cl' new : client_step cl ch r = Some (r', cl', new) -> Forall (awake r') new.
Proof.
  intros Hst. destruct cl, ch; cbn in Hst; try done.
  all: try (apply bind_Some in Hst as ([v r1] & _ & [= _ _ <-])).
  all: repeat case_match; simplify_eq; try done; by repeat constructor.
Qed.

Record inv (E : evidence) (s : system) : Prop := {
  iv_registry : registry_ok (s_replica s);
  iv_quiet : quiet (s_replica s);
  iv_clients : Forall (client_ok E (s_replica s)) (s_clients s);
  iv_distinct : NoDup (omap channel_of (s_clients s));
  iv_made : Forall (fun c => c < made_of s) (omap channel_of (s_clients s));
  iv_sleepers : Forall (awake (s_replica s)) (s_clients s);
  iv_jobs : match s_loop s with Some js => Forall (job_ok (ev_result E)) js | None => True end
}.

Lemma jobs_mono E E' js : ev_le E E' -> Forall (job_ok (ev_result E)) js -> Forall (job_ok (ev_result E')) js.
Proof.
  intros HE Hf. eapply Forall_impl; [exact Hf|]. intros j Hj. destruct j; try done. intros id res Hres. by apply HE, (Hj id).
Qed.

Lemma loop_mono E E' loop : ev_le E E' -> match loop with Some js => Forall (job_ok (ev_result E)) js | None => True end ->
  match loop with Some js => Forall (job_ok (ev_result E')) js | None => True end.
Proof. intros HE. destruct loop; [|done]. by apply jobs_mono. Qed.

(** A step in which no call advances. *)
Lemma inv_lawful E E' r cs loop r' loop' : inv E (mkSystem r cs loop) -> ev_le E E' -> lawful (ev_result E') nobody r r' ->
  (ev_raft E' -> lastApplied (r_state r) <= lastApplied (r_state r')) -> match loop' with Some js => Forall (job_ok (ev_result E')) js | None => True end ->
  inv E' (mkSystem r' cs loop').
Proof.
  intros [Hr Hq Hc Hd Hm Hw Hj] HE Hl Ha Hj'. cbn in *. destruct (Hl Hr Hq) as (Hr' & Hq' & Hp & Ho). split; cbn; try done.
  - eapply Forall_impl; [exact Hc|]. intros cl Hcl. apply (client_progress E E' nobody r r'); try done. by intros c _ [].
  - eapply Forall_impl; [exact Hm|]. intros c Hc'. unfold made_of in *. cbn in *. pose proof (pg_made _ _ _ _ Hp). lia.
  - eapply Forall_impl; [exact Hw|]. intros cl. by apply awake_onward.
Qed.

Lemma insert_split {A} (l : list A) i x y : l !! i = Some x ->
  exists l1 l2, l = l1 ++ x :: l2 /\ <[i := y]> l = l1 ++ y :: l2.
Proof.
  intros Hi. exists (list.take i l), (drop (S i) l). split; [by rewrite take_drop_middle|]. rewrite insert_take_drop; [done|]. by apply lookup_lt_Some in Hi.
Qed.

Lemma omap_app {A B} (f : A -> option B) l k : omap f (l ++ k) = omap f l ++ omap f k.
Proof. induction l as [|x l IH]; [done|]. cbn. destruct (f x); cbn; by rewrite IH. Qed.

(** The channels of the calls stay distinct when one call moves on. *)
Lemma channels_distinct (l1 l2 new : list client) cl cl' n n' : NoDup (omap channel_of (l1 ++ cl :: l2)) -> Forall (fun c => c < n) (omap channel_of (l1 ++ cl :: l2)) ->
  omap channel_of new = [] -> (forall c, channel_of cl' = Some c -> channel_of cl = Some c \/ c = n /\ c < n') -> n <= n' ->
  NoDup (omap channel_of ((l1 ++ cl' :: l2) ++ new)) /\ Forall (fun c => c < n') (omap channel_of ((l1 ++ cl' :: l2) ++ new)).
Proof.
  intros Hn Hf Hnew Hch Hle. rewrite omap_app, Hnew, app_nil_r, !omap_app in *. cbn in *.
  assert (Forall (fun c => c < n') (omap channel_of l1) /\ Forall (fun c => c < n') (omap channel_of l2)) as [F1 F2].
  { apply Forall_app in Hf as [H1 H2]. assert (Forall (fun c => c < n) (omap channel_of l2)) as H3 by (destruct (channel_of cl); [by apply Forall_cons in H2 as [_ ?]|done]).
    split; (eapply Forall_impl; [eassumption|]; cbn; lia). }
  destruct (channel_of cl') as [c|] eqn:Hc.
  - destruct (Hch c eq_refl) as [E|[-> Hlt]].
    + rewrite E in *. split; [done|]. apply Forall_app in Hf as [_ H2]. apply Forall_cons in H2 as [Hcn _]. apply Forall_app. split; [done|]. apply Forall_cons. split; [lia|done].
    + assert (NoDup (omap channel_of l1 ++ omap channel_of l2) /\ Forall (fun c => c < n) (omap channel_of l1 ++ omap channel_of l2)) as [N F].
      { destruct (channel_of cl) as [c0|]; [|done]. rewrite <- Permutation_middle in Hn, Hf. apply NoDup_cons in Hn as [_ ?]. by apply Forall_cons in Hf as [_ ?]. }
      split; [|apply Forall_app; split; [done|by apply Forall_cons]]. rewrite <- Permutation_middle. apply NoDup_cons. split; [|done]. intros Hin. rewrite Forall_forall in F. specialize (F n Hin). lia.
  - split; [|by apply Forall_app]. destruct (channel_of cl) as [c0|]; [|done]. rewrite <- Permutation_middle in Hn. by apply NoDup_cons in Hn as [_ ?].
Qed.

(** No other call waits on the channel of this one. *)
Lemma others_apart (l1 l2 : list client) cl d c : NoDup (omap channel_of (l1 ++ cl :: l2)) -> d ∈ l1 ++ l2 -> channel_of d = Some c -> channel_of cl <> Some c.
Proof.
  intros Hn Hd Hc E. rewrite omap_app in Hn. cbn in Hn. rewrite E in Hn. rewrite <- Permutation_middle in Hn. apply NoDup_cons in Hn as [Hnin _]. apply Hnin.
  rewrite <- omap_app. apply list_elem_of_omap. by exists d.
Qed.

Lemma inv_client E E' r cs loop i cl ch r' cl' new : inv E (mkSystem r cs loop) -> ev_le E E' -> shown E' r -> made (r_channels r) < max_uint64 ->
  cs !! i = Some cl -> client_step cl ch r = Some (r', cl', new) -> (ev_raft E' -> fences_follow (mkSystem r' (<[i := cl']> cs ++ new) loop)) ->
  inv E' (mkSystem r' (<[i := cl']> cs ++ new) loop).
Proof.
  intros [Hr Hq Hc Hd Hm Hw Hj] HE Hsh Hmax Hi Hst Hfen. cbn in *. destruct (insert_split cs i cl cl' Hi) as (l1 & l2 & -> & Ei). rewrite Ei in *.
  apply Forall_app in Hc as [Hc1 Hc2]. apply Forall_cons in Hc2 as [Hcl Hc2].
  assert (section_ok E' cl cl' new r r') as [S1 S2 S3 S4 S5 S6 S7 So S8].
  { apply (client_step_ok E E' cl ch r r' cl' new); try done. intros R q index ->. apply (Hfen R). cbn. rewrite elem_of_app. left. rewrite elem_of_app. right. by apply elem_of_cons, or_introl. }
  destruct (channels_distinct l1 l2 new cl cl' (made (r_channels r)) (made (r_channels r')) Hd Hm S6 S8 (pg_made _ _ _ _ S3)) as [Hd' Hm'].
  split; cbn; try done; [| |by apply (loop_mono E)].
  2:{ apply Forall_app. split; [|by apply (client_step_new_awake cl ch r _ cl')]. apply Forall_app in Hw as [Hw1 Hw2]. apply Forall_cons in Hw2 as [_ Hw2].
      apply Forall_app. split; [by eapply Forall_impl; [exact Hw1|intros d; apply awake_onward]|]. apply Forall_cons. split; [by apply (client_step_awake cl ch r _ cl' new)|].
      by eapply Forall_impl; [exact Hw2|intros d; apply awake_onward]. }
  assert (forall d, d ∈ l1 ++ l2 -> client_ok E r d -> client_ok E' r' d) as Hothers.
  { intros d Hin Hdok. apply (client_progress E E' (fun c => channel_of cl = Some c) r r'); [done|done|by rewrite S7| |done]. intros c Hdc. by apply (others_apart l1 l2 cl d). }
  rewrite Forall_app, Forall_app, Forall_cons. split; [|done]. rewrite Forall_forall in Hc1, Hc2. split; [|split; [done|]]; apply Forall_forall; intros d Hin; apply Hothers.
  - apply elem_of_app. by left.
  - by apply Hc1.
  - apply elem_of_app. by right.
  - by apply Hc2.
Qed.
(** ** Runs *)

(** What a run has shown. *)
Definition evidence_of (trace : list system) : evidence := {|
  ev_raft := Forall fences_follow trace /\ moves_forward trace;
  ev_result id res := exists s, s ∈ trace /\ results (r_state (s_replica s)) !! id = Some res;
  ev_row q n row := exists s, s ∈ trace /\ n <= applied_of s /\ State.get (r_state (s_replica s)) (q_table q) (q_key q) = Some row;
  ev_route q := exists s, s ∈ trace /\ validateReadRoute (q_key q) (q_descriptor q) (q_version q) (s_replica s) = Ok tt
|}.

Lemma evidence_cons s s' past : ev_le (evidence_of (s :: past)) (evidence_of (s' :: s :: past)).
Proof.
  split; cbn.
  - intros [Hf [_ Hm]]. apply Forall_cons in Hf as [_ Hf]. by split.
  - intros id res (x & Hx & H). exists x. split; [by apply elem_of_cons, or_intror|done].
  - intros q n row (x & Hx & H). exists x. split; [by apply elem_of_cons, or_intror|done].
  - intros q (x & Hx & H). exists x. split; [by apply elem_of_cons, or_intror|done].
Qed.

Lemma evidence_shown s trace : s ∈ trace -> shown (evidence_of trace) (s_replica s).
Proof. intros Hs. split; cbn; eauto. Qed.

Lemma inv_moves r cs loop r' loop' past (E := evidence_of (mkSystem r cs loop :: past)) (E' := evidence_of (mkSystem r' cs loop' :: mkSystem r cs loop :: past)) :
  inv E (mkSystem r cs loop) -> lawful (ev_result E') nobody r r' -> match loop' with Some js => Forall (job_ok (ev_result E')) js | None => True end ->
  inv E' (mkSystem r' cs loop').
Proof. intros Hi Hl Hj. apply (inv_lawful E E' r cs loop r' loop'); try done; [apply evidence_cons|]. by intros [_ [Hm _]]. Qed.

Lemma ready_jobs_ok K rd : Forall (job_ok K) (ready_jobs rd).
Proof.
  unfold ready_jobs. apply Forall_cons. split; [done|]. rewrite !Forall_app. split_and!.
  - destruct (IsEmptySnap _); by repeat constructor.
  - apply Forall_map, Forall_true. by intros.
  - apply Forall_concat, Forall_map, Forall_true. intros x. by repeat constructor.
  - destruct (rdy_leader rd) as [[]|]; by repeat constructor.
  - by repeat constructor.
Qed.

Lemma inv_call E E' r cs loop cl : inv E (mkSystem r cs loop) -> ev_le E E' -> (ev_raft E' -> fences_follow (mkSystem r (cs ++ [cl]) loop)) ->
  is_call cl = true -> inv E' (mkSystem r (cs ++ [cl]) loop).
Proof.
  intros [Hr Hq Hc Hd Hm Hw Hj] HE Hf Hcl. cbn in *. assert (channel_of cl = None) as Hch by (destruct cl; try done). assert (omap channel_of (cs ++ [cl]) = omap channel_of cs) as Eo.
  { rewrite omap_app. cbn. rewrite Hch. apply app_nil_r. }
  split; cbn; rewrite ?Eo; try done; [| |by apply (loop_mono E)]; apply Forall_app; (split; [|apply Forall_singleton]).
  - eapply Forall_impl; [exact Hc|]. intros d Hd'. apply (client_progress E E' nobody r r); try done; [by apply progress_same|by intros c _ []].
  - destruct cl; try done. by destruct q.
  - done.
  - destruct cl; try done.
Qed.

Lemma inv_step s s' past : inv (evidence_of (s :: past)) s -> step s s' -> made_of s < max_uint64 -> inv (evidence_of (s' :: s :: past)) s'.
Proof.
  intros Hi Hst Hmax. destruct Hst as [r cs loop cl Hcl|r cs loop i cl ch r' cl' new Hi' Hst|r cs rd Hn|r cs j js sent r' more acts Hdo|r cs Hs|r cs loop Hs|r cs Hs
    |r cs loop ctx m r' res Hs|r cs loop catalog order r' res Hs|r cs loop r' res Hs|r cs loop r' res Hs|r cs Hs].
  - apply (inv_call _ _ r cs loop cl Hi); [apply evidence_cons| |done]. intros [Hf _]. by apply Forall_cons in Hf as [Hf _].
  - apply (inv_client _ _ r cs loop i cl ch r' cl' new Hi); try done; [apply evidence_cons| |].
    + apply (evidence_shown (mkSystem r cs loop)). apply elem_of_cons, or_intror, elem_of_cons, or_introl, eq_refl.
    + intros [Hf _]. by apply Forall_cons in Hf as [Hf _].
  - apply inv_moves; [done|apply lawful_refl|apply ready_jobs_ok].
  - pose proof (iv_jobs _ _ Hi) as Hj. cbn in Hj. apply Forall_cons in Hj as [Hj Hjs]. set (E' := evidence_of _).
    destruct (do_job_lawful _ (ev_result E') j sent r r' more acts Hdo (le_result _ _ (evidence_cons _ _ past))) as [Hl Hm]; [|done|].
    { intros id res Hres. cbn. eexists. split; [by apply elem_of_cons, or_introl|done]. }
    apply inv_moves; [done|done|]. destruct more as [more|]; [|done]. cbn [fmap option_fmap option_map]. apply Forall_app. split; [done|].
    by apply (jobs_mono (evidence_of (mkSystem r cs (Some (j :: js)) :: past))); [apply evidence_cons|].
  - apply inv_moves; [done|apply lawful_refl|done].
  - apply inv_moves; [done|apply lawful_same; [done|done|cbn; lia]|]. apply (loop_mono (evidence_of (mkSystem r cs loop :: past))); [apply evidence_cons|apply Hi].
  - apply inv_moves; [done|by apply lawful_same|done].
  - apply inv_moves; [done|by apply (Step_lawful _ ctx m r r' res)|]. apply (loop_mono (evidence_of (mkSystem r cs loop :: past))); [apply evidence_cons|apply Hi].
  - apply inv_moves; [done|by apply (InstallRangeCatalog_lawful _ catalog order r r' res)|]. apply (loop_mono (evidence_of (mkSystem r cs loop :: past))); [apply evidence_cons|apply Hi].
  - apply inv_moves; [done|by apply (CreateSnapshot_lawful _ r r' res)|]. apply (loop_mono (evidence_of (mkSystem r cs loop :: past))); [apply evidence_cons|apply Hi].
  - apply inv_moves; [done|by apply (close_lawful _ r r' res)|]. apply (loop_mono (evidence_of (mkSystem r cs loop :: past))); [apply evidence_cons|apply Hi].
  - apply inv_moves; [done|by apply lawful_same|done].
Qed.

Lemma run_inv r trace s past : opened r -> run (start r) trace -> trace = s :: past -> Forall (fun s => made_of s < max_uint64) trace -> inv (evidence_of trace) s.
Proof.
  intros Ho Hrun. revert s past. induction Hrun as [|s1 s2 past Hrun IH Hst]; intros s past0 E Hm.
  - injection E as <- <-. destruct (opened_registry r Ho) as [Hr Hq]. split; cbn; try done; constructor.
  - injection E as -> <-. apply Forall_cons in Hm as [_ Hm]. apply inv_step; [by apply (IH s1 past)|done|]. by apply Forall_cons in Hm as [? _].
Qed.
End store.
