(* ===== verification/ReplicaExec.v ===== *)
(** Runs by schedule: an executable form of the steps of a replica, and the
    small replica that the examples run. *)

From Stdlib Require Import ZArith Lia.
From stdpp Require Import base list gmap.
From S2P Require Import Prelude GoStd Uuidv7 EngineOps Range Command State Snapshot Disk DiskLog DiskCrash Durable DurableRestart.
From S2P Require Import Replica Read ReadyLoop ReplicaOpen ReplicaRun.

Local Open Scope Z_scope.

Section exec.
Context {canon : Canonicalizer} {pb : Protobuf} {wire : MembershipWire}.

Inductive event : Type :=
| Call (cl : client)
| Section_ (i : nat) (ch : choice)
| GetReady (rd : RaftReady)
| RunJob (sent : list bool)
| LoopStops
| FatalTransport
| FatalNode
| Deliver (ctx : bool) (m : option Message)
| InstallCatalog (catalog : option RangeCatalog) (order : list bytes)
| TakeSnapshot
| BeginClose
| EndClose.

Definition exec_event (e : event) (s : system) : option system :=
  let r := s_replica s in
  let cs := s_clients s in
  let loop := s_loop s in
  match e with
  | Call cl => if is_call cl then Some (mkSystem r (cs ++ [cl]) loop) else None
  | Section_ i ch => cl ← cs !! i; '(r, cl, new) ← client_step cl ch r; Some (mkSystem r (<[i := cl]> cs ++ new) loop)
  | GetReady rd =>
      match loop with Some [] => if l_nodeStopped (r_life r) then None else Some (mkSystem r cs (Some (ready_jobs rd))) | _ => None end
  | RunJob sent =>
      match loop with
      | Some (j :: js) => let '(r, more, _) := do_job j sent r in Some (mkSystem r cs ((fun m => m ++ js) <$> more))
      | _ => None
      end
  | LoopStops => match loop with Some [] => if l_stopLoop (r_life r) then Some (mkSystem r cs None) else None | _ => None end
  | FatalTransport => if l_fatalStop (r_life r) then Some (mkSystem (stopTransport r) cs loop) else None
  | FatalNode => match loop with None => if l_fatalStop (r_life r) then Some (mkSystem (stopNode r) cs None) else None | _ => None end
  | Deliver ctx m => Some (mkSystem (fst (Step ctx m r)) cs loop)
  | InstallCatalog catalog order => Some (mkSystem (fst (InstallRangeCatalog catalog order r)) cs loop)
  | TakeSnapshot => Some (mkSystem (fst (CreateSnapshot r)) cs loop)
  | BeginClose => Some (mkSystem (fst (close_begin r)) cs loop)
  | EndClose => match loop with None => if l_closed (r_life r) then Some (mkSystem (close_end r) cs None) else None | _ => None end
  end.

Lemma exec_event_step e s s' : exec_event e s = Some s' -> step s s'.
Proof.
  destruct s as [r cs loop]. destruct e; cbn.
  - destruct (is_call cl) eqn:Hc; [|done]. intros [= <-]. by constructor.
  - intros (cl & Hi & ([[r' cl'] new] & Hst & [= <-])%bind_Some)%bind_Some. by apply (step_client _ _ _ _ cl ch).
  - destruct loop as [[|]|]; try done. destruct (l_nodeStopped (r_life r)) eqn:Hn; [done|]. intros [= <-]. by constructor.
  - destruct loop as [[|j js]|]; try done. destruct (do_job j sent r) as [[r' more] acts] eqn:Hj. intros [= <-]. by apply (step_job _ _ _ _ sent _ _ acts).
  - destruct loop as [[|]|]; try done. destruct (l_stopLoop (r_life r)) eqn:Hs; [|done]. intros [= <-]. by constructor.
  - destruct (l_fatalStop (r_life r)) eqn:Hs; [|done]. intros [= <-]. by constructor.
  - destruct loop; [done|]. destruct (l_fatalStop (r_life r)) eqn:Hs; [|done]. intros [= <-]. by constructor.
  - intros [= <-]. apply (step_message _ _ _ ctx m _ (snd (Step ctx m r))), surjective_pairing.
  - intros [= <-]. apply (step_catalog _ _ _ catalog order _ (snd (InstallRangeCatalog catalog order r))), surjective_pairing.
  - intros [= <-]. apply (step_snapshot _ _ _ _ (snd (CreateSnapshot r))), surjective_pairing.
  - intros [= <-]. apply (step_close _ _ _ _ (snd (close_begin r))), surjective_pairing.
  - destruct loop; [done|]. destruct (l_closed (r_life r)) eqn:Hs; [|done]. intros [= <-]. by constructor.
Qed.

(** A schedule from a state: the states it visits, newest first. *)
Fixpoint exec (events : list event) (s : system) (past : list system) : option (list system) :=
  match events with
  | [] => Some (s :: past)
  | e :: events' => s' ← exec_event e s; exec events' s' (s :: past)
  end.

Lemma exec_run s0 events : forall s past trace, run s0 (s :: past) -> exec events s past = Some trace -> run s0 trace.
Proof.
  induction events as [|e events IH]; intros s past trace Hrun; cbn; [by intros [= <-]|].
  intros (s' & Hs & Ht)%bind_Some. apply (IH s' (s :: past)); [|done]. constructor; [done|]. by apply exec_event_step in Hs.
Qed.

(** The states a schedule visits; the start alone when it is not possible. *)
Definition visited (events : list event) (s : system) : list system := default [s] (exec events s []).

Lemma visited_run events s : run s (visited events s).
Proof.
  unfold visited. destruct (exec events s []) as [trace|] eqn:E; [|constructor]. cbn. apply (exec_run s events s []); [constructor|done].
Qed.
End exec.

(** ** A small replica *)

(** A change of membership is one byte, the node that is added. *)
#[export] Instance one_byte_changes : MembershipWire :=
  let added data := match data with [b] => Some (ConfChange (mkChange ConfChangeAddNode (u8 b)) []) | _ => None end in
  {| unmarshal_change := added; unmarshal_change_v2 := fun _ => None |}.
#[local] Existing Instance number_canon.
#[local] Existing Instance numbered.

(** The first of three nodes. *)
Definition sample_nonce : bytes := replicate 16 x4e.
Definition trio_options : ReplicaOptions := mkReplicaOptions 1 (lit "data") [mkPeer 1 []; mkPeer 2 []; mkPeer 3 []] MessageTransport 0 0.
Definition trio_open : result replica_error (Replica * node_start) := Open trio_options [] ∅ [] (Some sample_nonce).
Definition no_replica : Replica :=
  mkReplica empty_store newLogicalState 0 NoTransport None 0 (mkProposals ∅ 0) (mkReaders ∅ ∅ [] 0 0) (mkChannels ∅ ∅ 0 false)
    (mkLife true None false false false false 0).
Definition trio : Replica := match trio_open with Ok (r, _) => r | Fail _ => no_replica end.

Lemma trio_opens : Open trio_options [] ∅ [] (Some sample_nonce) = Ok (trio, StartNode [mkPeer 1 []; mkPeer 2 []; mkPeer 3 []]).
Proof. vm_compute. reflexivity. Qed.

(** The three nodes are entries one to three, the first put is entry four. *)
Definition member_entry (n : Z) (node : byte) : pbEntry := mkPbEntry EntryConfChange 1 n [node].
Definition members : list pbEntry := [member_entry 1 x01; member_entry 2 x02; member_entry 3 x03].
Definition voters (l : list Z) : option ConfState := Some (mkConf l [] [] [] false).
Definition member_ready : RaftReady :=
  mkRaftReady (mkReady (map Some members) (mkHard 1 1 3) no_snapshot)
    (zip (map Some members) [voters [1]; voters [1; 2]; voters [1; 2; 3]]) [] (Some true) [].
Definition put_four : pbEntry := mkPbEntry 0 1 4 (encoded first_put).
Definition put_ready : RaftReady := mkRaftReady (mkReady [Some put_four] (mkHard 1 1 4) no_snapshot) [(Some put_four, None)] [] None [].
Definition read_ready (index : Z) (context : bytes) : RaftReady := mkRaftReady (mkReady [] no_hard_state no_snapshot) [] [mkReadState index context] None [].
Definition run_jobs_n (n : nat) : list event := replicate n (RunJob []).
Definition trio_catalog : option RangeCatalog := Some sample_catalog.
Definition first_context : bytes := match encodeReadContext sample_nonce 1 with Ok b => b | Fail _ => [] end.

(** The members join and the catalog is installed. *)
Definition join_events : list event := GetReady member_ready :: run_jobs_n 19 ++ [InstallCatalog trio_catalog []].
(** A proposal of the first put, and its application. *)
Definition put_events : list event :=
  [Call (PropStart true first_put); Section_ 0 Proceed; Section_ 0 Proceed; Section_ 0 Proceed; Section_ 0 (Lead 1); Section_ 0 Proceed;
   Section_ 1 Proceed; Section_ 1 (Reply Accepted); GetReady put_ready] ++ run_jobs_n 8 ++ [Section_ 0 Receive].
(** A read of the row; raft answers with index four. *)
Definition read_events : list event :=
  [Call (ReadStart true (lit "users") (lit "alice") Current); Section_ 2 Proceed; Section_ 2 Proceed; Section_ 2 Asked; GetReady (read_ready 4 first_context)]
  ++ run_jobs_n 5 ++ [Section_ 2 Receive; Section_ 2 Proceed; Section_ 2 Proceed; Section_ 2 Proceed; Section_ 2 Proceed].
