(* ===== verification/ReplicaClients.v ===== *)
(** What clients of a replica can rely on: the theorems about its runs. *)

From Stdlib Require Import ZArith Lia.
From stdpp Require Import base list gmap.
From S2P Require Import Prelude GoStd Uuidv7 EngineOps Fs Range Command State Snapshot Disk DiskLog DiskCrash Durable DurableRestart.
From S2P Require Import Replica Read ReadyLoop ReplicaOpen ReplicaRun ReplicaInv ReplicaSafe ReplicaStore ReplicaExec.

Local Open Scope Z_scope.

Section clients.
Context {canon : Canonicalizer} {pb : Protobuf} {wire : MembershipWire}.

Lemma Open_opened o names m faults nonce r how : Open o names m faults nonce = Ok (r, how) -> opened r.
Proof.
  unfold Open. intros (o' & _ & H)%bind_Ok. apply bind_Ok in H as (d & _ & H). apply bind_Ok in H as ([d1 s] & _ & H).
  apply bind_Ok in H as ([] & _ & H). apply bind_Ok in H as (d2 & _ & H). apply bind_Ok in H as ([d3 n] & _ & H). apply bind_Ok in H as (c & _ & H).
  injection H as <- _. split; try done. by exists n.
Qed.

(** Every state of a run is the last one of a shorter run. *)
Lemma run_before s0 trace s : run s0 trace -> s ∈ trace -> exists past, run s0 (s :: past) /\ (forall P, Forall P trace -> Forall P (s :: past)).
Proof.
  induction 1 as [|s1 s2 past Hrun IH Hst]; intros Hs.
  - apply list_elem_of_singleton in Hs as ->. exists []. split; [constructor|done].
  - apply elem_of_cons in Hs as [->|Hs].
    + exists (s1 :: past). split; [by constructor|done].
    + destruct (IH Hs) as (p & H1 & H2). exists p. split; [done|]. intros P HP. apply H2. by apply Forall_cons in HP as [_ ?].
Qed.

(** A replica that [Open] returned, and a run of it. *)
Definition run_of (o : ReplicaOptions) (names : list bytes) (m : gmap bytes bytes) (faults : list outcome) (nonce : option bytes) (trace : list system) : Prop :=
  exists r how, Open o names m faults nonce = Ok (r, how) /\ run (start r) trace.

Lemma run_of_inv o names m faults nonce s past : run_of o names m faults nonce (s :: past) -> Forall (fun s => made_of s < max_uint64) (s :: past) ->
  inv (evidence_of (s :: past)) s.
Proof. intros (r & how & Ho & Hrun) Hm. apply (run_inv r (s :: past) s past); try done. by apply (Open_opened o names m faults nonce r how). Qed.

Lemma run_of_inv_at o names m faults nonce trace s : run_of o names m faults nonce trace -> Forall (fun s => made_of s < max_uint64) trace -> s ∈ trace ->
  exists E, inv E s.
Proof.
  intros (r & how & Ho & Hrun) Hm Hs. destruct (run_before _ _ _ Hrun Hs) as (past & Hp & HP). exists (evidence_of (s :: past)).
  apply (run_of_inv o names m faults nonce); [by exists r, how|by apply HP].
Qed.

(** ** A call ends by itself *)

Definition returned (cl : client) : bool := match cl with PropDone _ _ | ReadDone _ _ | WaitDone _ => true | _ => false end.

(** The call advances alone, by receiving, waking and proceeding. *)
Fixpoint drive (steps : list choice) (cl : client) (r : Replica) : option client :=
  match steps with
  | [] => Some cl
  | ch :: steps' => '(r', cl', _) ← client_step cl ch r; drive steps' cl' r'
  end.
Definition own_choice (ch : choice) : bool := match ch with Receive | Wake | Proceed => true | _ => false end.
Definition ends_within (n : nat) (cl : client) (r : Replica) : Prop :=
  exists steps cl', (length steps <= n)%nat /\ forallb own_choice steps = true /\ drive steps cl r = Some cl' /\ returned cl' = true.

Definition waits (cl : client) : bool := match cl with PropAwait _ _ _ | ReadAwait _ _ _ | WaitSleep _ _ _ => true | _ => false end.

Lemma ends_more n k cl r : (n <= k)%nat -> ends_within n cl r -> ends_within k cl r.
Proof. intros Hn (steps & cl' & H1 & H2). exists steps, cl'. split; [lia|done]. Qed.

Lemma ends_step n cl ch r r' cl' new : own_choice ch = true -> client_step cl ch r = Some (r', cl', new) -> ends_within n cl' r' -> ends_within (S n) cl r.
Proof.
  intros Hch Hst (steps & c & H1 & H2 & H3 & H4). exists (ch :: steps), c. cbn. rewrite Hch, Hst. cbn. split_and!; [lia|done|done|done].
Qed.

Lemma ends_now n cl r : returned cl = true -> ends_within n cl r.
Proof. intros H. exists [], cl. split_and!; [cbn; lia|done|done|done]. Qed.

Lemma stopped_not_open r : stopped r -> exists e, readOpen r = Fail e.
Proof. unfold readOpen. intros [->|[e ->]]; [by eexists|]. destruct (l_closed _); by eexists. Qed.

Lemma stopped_no_notice r : stopped r -> exists e, applied_notice r = Fail e.
Proof. unfold applied_notice. intros [Hc|[e ->]]; [|by eexists]. rewrite Hc. destruct (l_fatal _); by eexists. Qed.

(** On a stopped replica a check ends the call, with what it waited for or with
    the error. *)
Lemma check_ends q index r : stopped r -> ends_within 2 (WaitCheck q index) r.
Proof.
  intros Hst. destruct (stopped_not_open r Hst) as [e He]. destruct (stopped_no_notice r Hst) as [e' He'].
  eapply (ends_step 1 _ Proceed); [done|reflexivity|]. destruct (applied_reached index r).
  - destruct q; [|by apply ends_now]. eapply (ends_step 0 _ Proceed); [done|reflexivity|]. rewrite He. by apply ends_now.
  - eapply (ends_step 0 _ Proceed); [done|reflexivity|]. rewrite He'. destruct q; by apply ends_now.
Qed.

Lemma waiting_ends E s cl : inv E s -> stopped (s_replica s) -> cl ∈ s_clients s -> waits cl = true -> ends_within 3 cl (s_replica s).
Proof.
  intros Hi Hst Hcl Hw. destruct (iv_quiet _ _ Hi Hst) as [Q1 Q2]. pose proof (iv_clients _ _ Hi) as Hc. rewrite Forall_forall in Hc. specialize (Hc cl Hcl).
  pose proof (iv_sleepers _ _ Hi) as Ha. rewrite Forall_forall in Ha. specialize (Ha cl Hcl). set (r := s_replica s) in *.
  destruct cl as [| | | | | |command encoded a| | | | | | | |q encoded c| | |q index notice| | | | |]; try done; cbn in Hc, Ha.
  - destruct Hc as [_ [(p & Hp & _)|(v & Hv & _)]]; [by rewrite Q1 in Hp|]. apply (ends_more 1); [lia|].
    eapply (ends_step 0 _ Receive); [done|cbn; unfold receive_answer, take; rewrite Hv; done|by apply ends_now].
  - destruct Hc as (_ & _ & [(p & Hp & _)|(v & Hv)]); [by rewrite Q2 in Hp|].
    eapply (ends_step 2 _ Receive); [done|cbn; unfold receive_fence, take; rewrite Hv; done|]. destruct v as [index|]; [|by apply ends_now].
    destruct (index =? 0); [by apply ends_now|]. by apply check_ends.
  - destruct Ha as [_ Ha]. specialize (Ha Hst).
    eapply (ends_step 2 _ Wake); [done|cbn; rewrite (proj2 (Z.eqb_neq (l_notices (r_life r)) notice)) by lia; done|]. by apply check_ends.
Qed.
End clients.

(** C8: The tables of a replica are exact.  In every state that a replica
    reaches after [Open], whatever calls, messages, failures and cancellations
    interleave: the byte counters of pending proposals and reads are the sums
    over the tables, both tables stay within their bounds, the contexts of
    waiting reads belong to this boot, and no goroutine has blocked or
    panicked on an answer channel. *)
Theorem replica_tables_exact `{Canonicalizer} `{Protobuf} `{MembershipWire} o names m faults nonce trace s :
  run_of o names m faults nonce trace -> Forall (fun s => made_of s < max_uint64) trace -> s ∈ trace ->
  let r := s_replica s in
  p_bytes (r_proposals r) = pending_bytes (p_pending (r_proposals r)) /\ p_bytes (r_proposals r) <= maxPendingProposalBytes
  /\ Z.of_nat (size (p_pending (r_proposals r))) <= maxPendingProposals
  /\ rs_bytes (r_readers r) = retained (rs_reads (r_readers r)) /\ rs_bytes (r_readers r) <= maxPendingReadByte
  /\ Z.of_nat (size (rs_reads (r_readers r))) <= maxPendingReads
  /\ (forall encoded p, rs_reads (r_readers r) !! encoded = Some p -> exists n, encodeReadContext (rs_nonce (r_readers r)) n = Ok encoded /\ 1 <= n <= rs_seq (r_readers r))
  /\ stuck (r_channels r) = false.
Proof.
  intros Hrun Hm Hs. destruct (run_of_inv_at o names m faults nonce trace s Hrun Hm Hs) as [E Hi]. pose proof (iv_registry _ _ Hi) as []. cbn. split_and!; try done.
  intros encoded p Hp. destruct (rg_contexts encoded p Hp) as (n & Hn & He). by exists n.
Qed.

(** C9: Nobody waits on a replica that has stopped.  In every reachable state
    in which the replica is closed or has failed, each call that waits for its
    proposal, for a read fence or for an applied index returns within three
    sections of its own, without any further event and without its context
    being cancelled. *)
Theorem stopped_replica_releases_calls `{Canonicalizer} `{Protobuf} `{MembershipWire} o names m faults nonce trace s cl :
  run_of o names m faults nonce trace -> Forall (fun s => made_of s < max_uint64) trace -> s ∈ trace ->
  stopped (s_replica s) -> cl ∈ s_clients s -> waits cl = true -> ends_within 3 cl (s_replica s).
Proof.
  intros Hrun Hm Hs Hst Hcl Hw. destruct (run_of_inv_at o names m faults nonce trace s Hrun Hm Hs) as [E Hi]. by apply (waiting_ends E).
Qed.

(** C7: A proposal is answered with its own stored result.  When a call of
    [Propose] has returned a result, the replica has stored exactly that result
    under the operation's identity in this or an earlier state of the run, the
    command of the result has the encoding of the proposed command, and the
    outcome is the one of the result: no interleaving of other proposals,
    retries, cancellations, leader changes or failures yields another answer. *)
Theorem proposal_answers_are_stored `{Canonicalizer} `{Protobuf} `{MembershipWire} o names m faults nonce s past command a res :
  run_of o names m faults nonce (s :: past) -> Forall (fun s => made_of s < max_uint64) (s :: past) ->
  PropDone command a ∈ s_clients s -> pa_applied a = Some res ->
  a = answered res /\ EncodeCommand (res_Command res) = EncodeCommand command
  /\ exists s', s' ∈ s :: past /\ results (r_state (s_replica s')) !! OperationID command = Some res.
Proof.
  intros Hrun Hm Hcl Hres. pose proof (run_of_inv o names m faults nonce s past Hrun Hm) as Hi. pose proof (iv_clients _ _ Hi) as Hc. rewrite Forall_forall in Hc.
  by destruct (Hc _ Hcl res Hres) as (A1 & A2 & A3).
Qed.


(** ** Contexts and read states *)

Lemma encoded_parts nonce body tail : len nonce = 16 -> len body = 8 -> len tail = 4 -> let e := (readMagic ++ nonce ++ body) ++ tail in
  len e = readContextBytes /\ sub e 0 4 = readMagic /\ sub e 4 20 = nonce /\ sub e 20 28 = body /\ sub e 0 28 = readMagic ++ nonce ++ body /\ sub e 28 32 = tail.
Proof.
  intros Hn Hb Ht e. unfold e. assert (len readMagic = 4) as Hm by done. split_and!.
  - rewrite !len_app, Hm, Hn, Hb, Ht. done.
  - rewrite <- app_assoc. by apply sub_field.
  - rewrite <- !app_assoc. apply sub_app_mid; rewrite ?Hm, ?Hn; done.
  - rewrite <- !app_assoc, (app_assoc readMagic). apply sub_app_mid; rewrite ?len_app, ?Hm, ?Hn, ?Hb; done.
  - apply sub_field; [done|]. rewrite !len_app, Hm, Hn, Hb. done.
  - apply sub_suffix; rewrite !len_app, Hm, Hn, Hb, ?Ht; done.
Qed.

(** A slice of 32 bytes is made of the five fields. *)
Lemma context_split (e : bytes) : len e = readContextBytes -> e = (sub e 0 4 ++ sub e 4 20 ++ sub e 20 28) ++ sub e 28 32.
Proof.
  intros Hl. rewrite (sub_cat e 4 20 28) by lia. rewrite (sub_cat e 0 4 28) by lia. rewrite (sub_cat e 0 28 32) by lia. symmetry. apply sub_all. by rewrite Hl.
Qed.

(** The contexts of reads are exactly the encodings of the numbers of this
    boot: [decodeReadContext] accepts a byte string for a nonce if and only if
    it is what [encodeReadContext] produces for that nonce and some sequence
    number from one to 2^64 - 1, and different numbers have different
    encodings. *)
Theorem read_contexts_exact nonce encoded : len nonce = 16 ->
  (decodeReadContext encoded nonce = Ok tt <-> exists n, 1 <= n <= max_uint64 /\ encodeReadContext nonce n = Ok encoded)
  /\ (forall n n', is_u64 n -> is_u64 n' -> encodeReadContext nonce n = Ok encoded -> encodeReadContext nonce n' = Ok encoded -> n = n').
Proof.
  intros Hn. split; [|intros n n'; apply context_inj]. split.
  - unfold decodeReadContext. destruct (negb (len encoded =? readContextBytes)) eqn:H1; [done|]. destruct (negb (beq (sub encoded 0 4) readMagic)) eqn:H2; [done|].
    destruct (negb (len nonce =? 16)) eqn:H3; [done|]. destruct (negb (beq (sub encoded 4 20) nonce)) eqn:H4; [done|]. cbn [orb].
    destruct (un_be (sub encoded 20 28) =? 0) eqn:H5; [done|]. destruct (negb (crc32.Checksum _ =? _)) eqn:H6; [done|]. intros _. apply negb_false_iff in H1, H2, H4, H6.
    apply Z.eqb_eq in H1, H6. apply beq_true in H2, H4. apply Z.eqb_neq in H5. pose proof (context_split encoded H1) as Hs.
    assert (readMagic ++ nonce ++ sub encoded 20 28 = sub encoded 0 28) as Hhead. { rewrite <- H2, <- H4. rewrite (sub_cat encoded 4 20 28) by lia. by rewrite (sub_cat encoded 0 4 28) by lia. }
    pose proof (un_be_range (sub encoded 20 28)) as Hr. rewrite len_sub in Hr by (rewrite ?H1; unfold readContextBytes; lia).
    assert (be 8 (un_be (sub encoded 20 28)) = sub encoded 20 28) as E1 by (apply be_un_be; pose proof (len_sub encoded 20 28 ltac:(lia) ltac:(rewrite H1; unfold readContextBytes; lia)) as E; unfold len in E; lia).
    assert (be 4 (un_be (sub encoded 28 32)) = sub encoded 28 32) as E2 by (apply be_un_be; pose proof (len_sub encoded 28 32 ltac:(lia) ltac:(rewrite H1; unfold readContextBytes; lia)) as E; unfold len in E; lia).
    exists (un_be (sub encoded 20 28)). split; [unfold max_uint64; lia|]. unfold encodeReadContext. rewrite H3, (proj2 (Z.eqb_neq _ _) H5). cbn [orb]. f_equal.
    unfold read_head. rewrite E1, Hhead, H6, E2. rewrite (sub_cat encoded 0 28 32) by lia. apply sub_all. by rewrite H1.
  - intros (n & Hb & He). unfold encodeReadContext in He. rewrite (proj2 (Z.eqb_eq _ _) Hn), (proj2 (Z.eqb_neq n 0)) in He by lia. cbn [negb orb] in He. apply (inj Ok) in He as <-.
    destruct (encoded_parts nonce (be 8 n) (be 4 (crc32.Checksum (read_head nonce n))) Hn (len_be 8 n) (len_be 4 _)) as (P1 & P2 & P3 & P4 & P5 & P6).
    unfold decodeReadContext. fold (read_head nonce n) in *. rewrite P1, P2, P3, P4, P5, P6, Hn, !beq_refl, !Z.eqb_refl. cbn [negb orb].
    rewrite (un_be_be_small 8 n) by (unfold max_uint64 in Hb; lia). rewrite (proj2 (Z.eqb_neq n 0)) by lia. by rewrite crc32.un_be_Checksum, Z.eqb_refl.
Qed.

Lemma fail_stops err r : registry_ok r -> stopped (fail err r).
Proof.
  intros Hr. right. unfold fail. set (r0 := signalApplied _). assert (registry_ok r0) as Hr0.
  { apply (same_tables_registry r); [|done]. unfold r0. by destruct (l_fatal (r_life r)). }
  destruct (calm_finishReads err (finishPending err r0)) as (-> & _). destruct (calm_finishPending err r0 Hr0) as (-> & _). unfold r0. destruct (l_fatal (r_life r)) eqn:E; cbn; rewrite ?E; eauto.
Qed.

(** A context of another boot is refused. *)
Lemma other_nonce_refused nonce nonce' n encoded : nonce' <> nonce -> encodeReadContext nonce' n = Ok encoded -> decodeReadContext encoded nonce = Fail ErrReadContext.
Proof.
  intros Hne He. unfold encodeReadContext in He. destruct (negb (len nonce' =? 16)) eqn:Hl; [done|]. apply negb_false_iff, Z.eqb_eq in Hl. destruct (n =? 0); [done|]. cbn [orb] in He. apply (inj Ok) in He as <-.
  destruct (encoded_parts nonce' (be 8 n) (be 4 (crc32.Checksum (read_head nonce' n))) Hl (len_be 8 n) (len_be 4 _)) as (P1 & P2 & P3 & _).
  unfold decodeReadContext. fold (read_head nonce' n) in *. rewrite P1, P2, P3, (proj2 (beq_false nonce' nonce) Hne). cbn [negb]. by rewrite orb_true_r.
Qed.

Lemma deliver_keeps_stopped rst r : registry_ok r -> stopped r -> stopped (deliverReadState rst r).
Proof.
  intros Hr Hs. unfold deliverReadState. destruct (decodeReadContext _ _); [|by apply fail_stops]. destruct (rs_reads (r_readers r) !! _).
  - unfold answer_read. by destruct (send_close _ _ _).
  - case_bool_decide; [done|by apply fail_stops].
Qed.

(** Once delivered, a context that was not cancelled is unknown. *)
Lemma second_delivery_stops `{Canonicalizer} rst r : registry_ok r -> rst_RequestCtx rst ∉ rs_retired (r_readers r) -> stopped (deliverReadState rst (deliverReadState rst r)).
Proof.
  intros Hr Hret. destruct (deliverReadState_moves (fun _ _ => True) rst r) as [Hm _]. destruct (Hm Hr) as [Hr1 _].
  destruct (decodeReadContext (rst_RequestCtx rst) (rs_nonce (r_readers r))) eqn:Hd; [destruct (rs_reads (r_readers r) !! rst_RequestCtx rst) as [p|] eqn:Hp|].
  2, 3: apply deliver_keeps_stopped; [done|]; unfold deliverReadState; rewrite Hd, ?Hp, ?bool_decide_eq_false_2 by done; by apply fail_stops.
  set (r1 := deliverReadState rst r) in *.
  assert (rs_reads (r_readers r1) !! rst_RequestCtx rst = None /\ rs_retired (r_readers r1) = rs_retired (r_readers r) /\ rs_nonce (r_readers r1) = rs_nonce (r_readers r)) as (E1 & E2 & E3).
  { unfold r1, deliverReadState. rewrite Hd, Hp. unfold answer_read. destruct (send_close _ _ _); cbn; by rewrite lookup_delete_eq. }
  unfold deliverReadState. rewrite E3, Hd, E1, E2, bool_decide_eq_false_2 by done. by apply fail_stops.
Qed.

(** A repeated or late read response stops the replica.  In every state a
    replica reaches: a read state whose context was made in another boot of a
    node, with another nonce, makes the replica fail; and so does a read state
    that is delivered twice, unless its read was cancelled before the first
    delivery.  A message that raft's transport duplicates or delays over a
    restart is enough. *)
Theorem repeated_read_state_is_fatal `{Canonicalizer} `{Protobuf} `{MembershipWire} o names m faults nonce trace s :
  run_of o names m faults nonce trace -> Forall (fun s => made_of s < max_uint64) trace -> s ∈ trace ->
  let r := s_replica s in
  (forall nonce' n index context, nonce' <> rs_nonce (r_readers r) -> encodeReadContext nonce' n = Ok context -> stopped (deliverReadState (mkReadState index context) r))
  /\ (forall rst, rst_RequestCtx rst ∉ rs_retired (r_readers r) -> stopped (deliverReadState rst (deliverReadState rst r))).
Proof.
  intros Hrun Hm Hs r. destruct (run_of_inv_at o names m faults nonce trace s Hrun Hm Hs) as [E Hi]. pose proof (iv_registry _ _ Hi) as Hr. split.
  - intros nonce' n index context Hne He. unfold deliverReadState. cbn [rst_RequestCtx]. rewrite (other_nonce_refused _ _ _ _ Hne He). by apply fail_stops.
  - intros rst. by apply second_delivery_stops.
Qed.

(** ** Examples *)

Section examples.
#[local] Existing Instance number_canon.
#[local] Existing Instance numbered.

Lemma trio_run events : run_of trio_options [] ∅ [] (Some sample_nonce) (visited events (start trio)).
Proof. exists trio, (StartNode [mkPeer 1 []; mkPeer 2 []; mkPeer 3 []]). split; [exact trio_opens|apply visited_run]. Qed.

Definition few_channels (trace : list system) : bool := forallb (fun s => made_of s <? max_uint64) trace.
Lemma few_channels_ok trace : few_channels trace = true -> Forall (fun s => made_of s < max_uint64) trace.
Proof. intros H. apply Forall_forall. intros s Hs. apply Z.ltb_lt. unfold few_channels in H. rewrite forallb_forall in H. by apply H, list_elem_of_In. Qed.

Definition fences_followb (s : system) : bool :=
  forallb (fun cl => match cl with WaitCheck (Some q) index => q_floor q <=? index | _ => true end) (s_clients s).
Lemma fences_followb_ok trace : forallb fences_followb trace = true -> Forall fences_follow trace.
Proof.
  intros H. apply Forall_forall. intros s Hs q index Hin. rewrite forallb_forall in H. specialize (H s ltac:(by apply list_elem_of_In)).
  unfold fences_followb in H. rewrite forallb_forall in H. specialize (H _ ltac:(by apply list_elem_of_In)). by apply Z.leb_le.
Qed.
Fixpoint moves_forwardb (trace : list system) : bool :=
  match trace with
  | s' :: (s :: _) as past => (applied_of s <=? applied_of s') && moves_forwardb past
  | _ => true
  end.
Lemma moves_forwardb_ok trace : moves_forwardb trace = true -> moves_forward trace.
Proof.
  induction trace as [|s' past IH]; [done|]. intros H. destruct past as [|s past]; [done|]. cbn in H. apply andb_true_iff in H as [H1%Z.leb_le H2]. split; [done|by apply IH].
Qed.

(** The last state of a schedule. *)
Definition last_of (events : list event) : system := default (start trio) (head (visited events (start trio))).
Lemma visited_last events : exists past, visited events (start trio) = last_of events :: past.
Proof.
  unfold last_of. pose proof (visited_run events (start trio)) as H. inversion H as [E|s s' past Hrun Hst E]; cbn; eauto.
Qed.

(** A read waits for a fence, a proposal for its result. *)
Definition waiting_events : list event :=
  join_events ++ [Call (PropStart true first_put); Section_ 0 Proceed; Section_ 0 Proceed; Section_ 0 Proceed; Section_ 0 (Lead 1); Section_ 0 Proceed;
   Call (ReadStart true (lit "users") (lit "alice") Current); Section_ 2 Proceed; Section_ 2 Proceed; Section_ 2 Asked; Call (WaitCheck None 9); Section_ 3 Proceed; Section_ 3 Proceed].
Definition full_events : list event := join_events ++ put_events ++ read_events.

Definition closing_events : list event := waiting_events ++ [BeginClose].
Lemma waiting_run_few : few_channels (visited waiting_events (start trio)) = true.
Proof. vm_compute. reflexivity. Qed.
Lemma closing_run_small : few_channels (visited closing_events (start trio)) = true.
Proof. vm_compute. reflexivity. Qed.
Lemma full_run_small : few_channels (visited full_events (start trio)) = true.
Proof. vm_compute. reflexivity. Qed.
Lemma full_run_fences : forallb fences_followb (visited full_events (start trio)) = true.
Proof. vm_compute. reflexivity. Qed.
Lemma full_run_forward : moves_forwardb (visited full_events (start trio)) = true.
Proof. vm_compute. reflexivity. Qed.
Lemma last_visited events : last_of events ∈ visited events (start trio).
Proof. destruct (visited_last events) as [past ->]. by apply elem_of_cons, or_introl. Qed.

Lemma replica_tables_exact_witness : let r := s_replica (last_of waiting_events) in
  p_bytes (r_proposals r) = pending_bytes (p_pending (r_proposals r)) /\ p_bytes (r_proposals r) <= maxPendingProposalBytes
  /\ Z.of_nat (size (p_pending (r_proposals r))) <= maxPendingProposals
  /\ rs_bytes (r_readers r) = retained (rs_reads (r_readers r)) /\ rs_bytes (r_readers r) <= maxPendingReadByte
  /\ Z.of_nat (size (rs_reads (r_readers r))) <= maxPendingReads
  /\ (forall encoded p, rs_reads (r_readers r) !! encoded = Some p -> exists n, encodeReadContext (rs_nonce (r_readers r)) n = Ok encoded /\ 1 <= n <= rs_seq (r_readers r))
  /\ stuck (r_channels r) = false.
Proof.
  exact (replica_tables_exact trio_options [] ∅ [] (Some sample_nonce) (visited waiting_events (start trio)) (last_of waiting_events)
    (trio_run _) (few_channels_ok _ waiting_run_few) (last_visited _)).
Defined.

Definition call_of (events : list event) (i : nat) : client := default Submitted (s_clients (last_of events) !! i).
Lemma call_elem events i : is_Some (s_clients (last_of events) !! i) -> call_of events i ∈ s_clients (last_of events).
Proof. intros [cl E]. unfold call_of. rewrite E. cbn. by apply (list_elem_of_lookup_2 _ i). Qed.

Lemma closing_stopped : l_closed (r_life (s_replica (last_of closing_events))) = true.
Proof. vm_compute. reflexivity. Qed.
Lemma closing_calls : map waits (s_clients (last_of closing_events)) = [true; false; true; true].
Proof. vm_compute. reflexivity. Qed.
Lemma closing_read_waits : waits (call_of closing_events 2) = true.
Proof. vm_compute. reflexivity. Qed.
Lemma some_call events i : (i <? length (s_clients (last_of events)))%nat = true -> is_Some (s_clients (last_of events) !! i).
Proof. intros H. by apply lookup_lt_is_Some_2, Nat.ltb_lt. Qed.
Lemma closing_read_there : (2 <? length (s_clients (last_of closing_events)))%nat = true.
Proof. vm_compute. reflexivity. Qed.

Lemma stopped_replica_releases_calls_witness : ends_within 3 (call_of closing_events 2) (s_replica (last_of closing_events)).
Proof.
  exact (stopped_replica_releases_calls trio_options [] ∅ [] (Some sample_nonce) (visited closing_events (start trio)) (last_of closing_events) (call_of closing_events 2)
    (trio_run _) (few_channels_ok _ closing_run_small) (last_visited _) (or_introl closing_stopped) (call_elem _ _ (some_call _ _ closing_read_there)) closing_read_waits).
Defined.

(** The result of the first put and the row that is read. *)
Definition first_result : Result :=
  match call_of full_events 0 with PropDone _ a => default (mkResult first_put (mkRow [] [] [] 0 []) false x00) (pa_applied a) | _ => mkResult first_put (mkRow [] [] [] 0 []) false x00 end.
Definition first_query : read_query := match call_of full_events 2 with ReadDone (Some q) _ => q | _ => mkQuery [] [] sample_left 0 0 end.

Lemma full_put_done : call_of full_events 0 = PropDone first_put (answered first_result).
Proof. vm_compute. reflexivity. Qed.
Lemma full_put_there : (0 <? length (s_clients (last_of full_events)))%nat = true.
Proof. vm_compute. reflexivity. Qed.
Lemma full_read_done : call_of full_events 2 = ReadDone (Some first_query) (Ok (res_Row first_result)).
Proof. vm_compute. reflexivity. Qed.
Lemma full_read_there : (2 <? length (s_clients (last_of full_events)))%nat = true.
Proof. vm_compute. reflexivity. Qed.

(** The states of the full schedule before the last. *)
Definition full_past : list system := tail (visited full_events (start trio)).
Lemma full_trace : visited full_events (start trio) = last_of full_events :: full_past.
Proof. unfold full_past. destruct (visited_last full_events) as [past E]. by rewrite E. Qed.

Lemma proposal_answers_are_stored_witness :
  answered first_result = answered first_result /\ EncodeCommand (res_Command first_result) = EncodeCommand first_put
  /\ exists s', s' ∈ last_of full_events :: full_past /\ results (r_state (s_replica s')) !! OperationID first_put = Some first_result.
Proof.
  apply (proposal_answers_are_stored trio_options [] ∅ [] (Some sample_nonce) (last_of full_events) full_past first_put (answered first_result) first_result).
  - rewrite <- full_trace. apply trio_run.
  - rewrite <- full_trace. exact (few_channels_ok _ full_run_small).
  - rewrite <- full_put_done. exact (call_elem _ _ (some_call _ _ full_put_there)).
  - reflexivity.
Defined.


Lemma read_contexts_exact_witness : decodeReadContext first_context sample_nonce = Ok tt <-> exists n, 1 <= n <= max_uint64 /\ encodeReadContext sample_nonce n = Ok first_context.
Proof. exact (proj1 (read_contexts_exact sample_nonce first_context ltac:(reflexivity))). Defined.

Lemma repeated_read_state_is_fatal_witness : let r := s_replica (last_of waiting_events) in
  (forall nonce' n index context, nonce' <> rs_nonce (r_readers r) -> encodeReadContext nonce' n = Ok context -> stopped (deliverReadState (mkReadState index context) r))
  /\ (forall rst, rst_RequestCtx rst ∉ rs_retired (r_readers r) -> stopped (deliverReadState rst (deliverReadState rst r))).
Proof.
  exact (repeated_read_state_is_fatal trio_options [] ∅ [] (Some sample_nonce) (visited waiting_events (start trio)) (last_of waiting_events)
    (trio_run _) (few_channels_ok _ waiting_run_few) (last_visited _)).
Defined.

(** The check of an applied index, the application with its notice, and only
    then the channel to wait on. *)
Definition late_events : list event :=
  join_events ++ [Call (WaitCheck None 4); Section_ 0 Proceed; GetReady put_ready] ++ run_jobs_n 5 ++ [Section_ 0 Proceed] ++ run_jobs_n 3.

(** C39: A wait can miss the application it waits for.  There is a run in which
    [WaitAppliedAtLeast] for index four sleeps although the replica has applied
    index four and nothing is left to do: it read the applied index before the
    entry was applied and took the channel after the application had given its
    notice.  No notice is due, so the call does not wake; it returns only when
    a later entry is applied or its context ends. *)
Theorem applied_wait_can_miss_its_notice : exists trace s past notice,
  run_of trio_options [] ∅ [] (Some sample_nonce) trace /\ trace = s :: past /\ s_clients s = [WaitSleep None 4 notice] /\ applied_of s = 4
  /\ readOpen (s_replica s) = Ok tt /\ s_loop s = Some [] /\ client_step (WaitSleep None 4 notice) Wake (s_replica s) = None.
Proof.
  exists (visited late_events (start trio)). destruct (visited_last late_events) as [past E]. exists (last_of late_events), past, 4.
  split; [apply trio_run|]. split; [exact E|]. split_and!; vm_compute; reflexivity.
Qed.
End examples.
