(* ===== verification/ReplicaReady.v ===== *)
(** A whole [Ready]: what the loop does before it sends messages and advances
    raft. *)

From Stdlib Require Import ZArith Lia.
From stdpp Require Import base list gmap.
From S2P Require Import Prelude GoStd Uuidv7 EngineOps Fs Range Command State Snapshot Disk DiskLog DiskCrash Durable DurableRestart.
From S2P Require Import Replica Read ReadyLoop ReplicaOpen ReplicaRun ReplicaInv ReplicaSafe ReplicaStore ReplicaExec ReplicaClients.

Local Open Scope Z_scope.

Section ready.
Context {canon : Canonicalizer} {pb : Protobuf} {wire : MembershipWire}.

(** Jobs that tell raft and the transport nothing. *)
Definition inner (j : job) : bool := match j with SendMessages _ | Advance => false | _ => true end.
(** The jobs a job stands for. *)
Definition job_weight (j : job) : nat := match j with ApplyEntry _ _ => 5 | _ => 1 end.
Definition jobs_weight (js : list job) : nat := list_sum (map job_weight js).

Lemma jobs_weight_app js ks : jobs_weight (js ++ ks) = (jobs_weight js + jobs_weight ks)%nat.
Proof. unfold jobs_weight. by rewrite map_app, list_sum_app. Qed.

Lemma jobs_weight_le js : (jobs_weight js <= 5 * length js)%nat.
Proof. induction js as [|j js IH]; [cbn; lia|]. change (jobs_weight (j :: js)) with (job_weight j + jobs_weight js)%nat. cbn [length]. destruct j; cbn [job_weight]; lia. Qed.

(** An inner job makes no call, is replaced by fewer jobs, and ends the loop
    only when the replica has failed. *)
Lemma inner_job j sent r r' more acts : inner j = true -> registry_ok r -> quiet r -> do_job j sent r = (r', more, acts) ->
  acts = [] /\ registry_ok r' /\ quiet r' /\
  match more with
  | None => stopped r'
  | Some js => forallb inner js = true /\ (S (jobs_weight js) <= job_weight j)%nat
  end.
Proof.
  intros Hj Hr Hq Hdo. destruct (do_job_lawful (fun _ _ => True) (fun _ _ => True) j sent r r' more acts Hdo ltac:(done) ltac:(done)) as [Hl _]; [by destruct j|].
  destruct (Hl Hr Hq) as (Hr' & Hq' & _ & _). split_and!; [|done|done|].
  - destruct j as [rd|snap|[entry|] conf|rs|cs| | |rst| | |ms|]; try done; cbn in Hdo; repeat case_match; by simplify_eq.
  - assert (forall d s, registry_ok (set_core r d s)) as Hcore by (intros d s; by apply (same_tables_registry r)).
    destruct j as [rd|snap|[entry|] conf|rs|cs| | |rst| | |ms|]; try done; cbn in Hdo; repeat case_match; simplify_eq; try (by apply fail_stops); try (split; [done|cbn; lia]).
    by right; eexists.
Qed.

Lemma run_jobs_all messages sent fuel : forall js r r' on acts, forallb inner js = true -> registry_ok r -> quiet r -> (jobs_weight js + 2 <= fuel)%nat ->
  run_jobs fuel (js ++ [SendMessages messages; Advance]) sent r = (r', on, acts) ->
  if on then acts = send (r_transport r') messages sent ++ [AdvanceNode] else acts = [] /\ stopped r'.
Proof.
  induction fuel as [|fuel IH]; intros js r r' on acts Hin Hr Hq Hf Hrun; [lia|]. destruct js as [|j js].
  - destruct fuel as [|fuel]; [cbn in Hf; lia|]. cbn in Hrun. destruct fuel; cbn in Hrun; by injection Hrun as <- <- <-.
  - cbn [forallb] in Hin. apply andb_true_iff in Hin as [Hj Hin]. cbn [app run_jobs] in Hrun. destruct (do_job j sent r) as [[r1 more] a1] eqn:Hdo.
    destruct (inner_job j sent r r1 more a1 Hj Hr Hq Hdo) as (-> & Hr1 & Hq1 & Hm). destruct more as [more|].
    + destruct Hm as [Hmi Hw]. rewrite app_assoc in Hrun. destruct (run_jobs fuel ((more ++ js) ++ _) sent r1) as [[r2 on2] a2] eqn:Hrec. injection Hrun as <- <- <-.
      apply (IH (more ++ js) r1 r2 on2 a2); try done; [by rewrite forallb_app, Hmi, Hin|]. rewrite jobs_weight_app. change (jobs_weight (j :: js)) with (job_weight j + jobs_weight js)%nat in Hf. lia.
    + by injection Hrun as <- <- <-.
Qed.

Lemma ready_jobs_split rd : exists js, ready_jobs rd = js ++ [SendMessages (rdy_messages rd); Advance] /\ forallb inner js = true.
Proof.
  unfold ready_jobs. rewrite !app_assoc, app_comm_cons. eexists. split; [done|]. cbn [forallb inner andb]. rewrite !forallb_app. apply andb_true_iff. split; [|by destruct (rdy_leader rd) as [[]|]].
  apply andb_true_iff. split; [|apply forallb_forall; intros j (l & (st & <- & _)%in_map_iff & Hj)%in_concat; by destruct Hj as [<-|[<-|[]]]].
  apply andb_true_iff. split; [by destruct (IsEmptySnap _)|]. apply forallb_forall. by intros j (e & <- & _)%in_map_iff.
Qed.
End ready.

(** C10: Nothing leaves a replica before it is durable.  A [Ready] is always
    handled to its end.  When the loop goes on, the entries, hard state and
    snapshot were persisted, and only then the messages were sent and raft was
    advanced, once and last.  When any part fails, no message was sent, raft
    was not advanced, and the replica has stopped. *)
Theorem ready_is_durable_before_it_is_sent `{Canonicalizer} `{Protobuf} `{MembershipWire} rd sent r r' on acts :
  registry_ok r -> quiet r -> handle_ready rd sent r = (r', on, acts) ->
  if on then acts = send (r_transport r') (rdy_messages rd) sent ++ [AdvanceNode] /\ is_ok (snd (persistReady (r_disk r) (rdy_disk rd))) = true
  else acts = [] /\ stopped r'.
Proof.
  intros Hr Hq Hrun. unfold handle_ready in Hrun. pose proof (ready_jobs_split rd) as (js & Ejs & Hin). pose proof (jobs_weight_le (ready_jobs rd)) as Hw.
  assert (if on then acts = send (r_transport r') (rdy_messages rd) sent ++ [AdvanceNode] else acts = [] /\ stopped r') as Hall.
  { rewrite Ejs in Hrun, Hw. rewrite jobs_weight_app in Hw. apply (run_jobs_all _ sent _ js r r' on acts Hin Hr Hq) in Hrun; [done|]. rewrite length_app in Hw. change (jobs_weight [SendMessages _; Advance]) with 2%nat in Hw. rewrite length_app. lia. }
  destruct on; [|done]. split; [done|]. destruct (persistReady (r_disk r) (rdy_disk rd)) as [d [u|e]] eqn:Hp; [done|]. exfalso.
  unfold ready_jobs in Hrun. cbn [length Nat.mul Nat.add run_jobs do_job] in Hrun. rewrite Hp in Hrun. done.
Qed.

(** The first put is handled by the first of three nodes. *)
Section example.
#[local] Existing Instance number_canon.
#[local] Existing Instance numbered.

Definition joined : Replica := s_replica (last_of join_events).
Lemma joined_ok : registry_ok joined /\ quiet joined.
Proof.
  assert (few_channels (visited join_events (start trio)) = true) as Hf by (vm_compute; reflexivity).
  destruct (run_of_inv_at trio_options [] ∅ [] (Some sample_nonce) _ (last_of join_events) (trio_run join_events) (few_channels_ok _ Hf) (last_visited _)) as [E Hi].
  split; [exact (iv_registry _ _ Hi)|exact (iv_quiet _ _ Hi)].
Qed.

Definition vote_message : Message := mkMessage 5 2 None.
Definition put_and_send : RaftReady := mkRaftReady (rdy_disk put_ready) (rdy_committed put_ready) [] None [vote_message].
Definition handled_put : Replica * bool * list action := handle_ready put_and_send [true] joined.
Lemma handled_goes_on : handle_ready put_and_send [true] joined = (fst (fst handled_put), true, snd handled_put).
Proof. vm_compute. reflexivity. Qed.
Lemma handled_actions : snd handled_put = [Send 2; AdvanceNode].
Proof. vm_compute. reflexivity. Qed.

Lemma ready_is_durable_before_it_is_sent_witness :
  snd handled_put = send (r_transport (fst (fst handled_put))) (rdy_messages put_and_send) [true] ++ [AdvanceNode]
  /\ is_ok (snd (persistReady (r_disk joined) (rdy_disk put_and_send))) = true.
Proof.
  exact (ready_is_durable_before_it_is_sent put_and_send [true] joined (fst (fst handled_put)) true (snd handled_put) (proj1 joined_ok) (proj2 joined_ok) handled_goes_on).
Defined.
End example.
